(* ===== verification/_CoqProject ===== *)
-Q . S2P
Prelude.v
Text.v
Network.v
Roles.v
GitPerms.v
Ifc.v
Nostr.v
Encode.v
Scope.v
EventQueue.v
EventQueueProps.v
Kind.v
Filter.v
Subscription.v
Pairing.v
PairingProps.v
PairingToy.v
PairingQr.v
Gossip.v
Membership.v
MembershipProps.v
Json.v
AuditLog.v
AuditProps.v
AudioRoom.v
AudioRoomProps.v
MeshWire.v
Directory.v
DirectoryProps.v
Reliable.v
ReliableProps.v
ReliableToy.v
Conformance.v
Permission.v
PermissionProps.v
Authority.v
AuthorityProps.v
AuthorityLimits.v
WorkflowDef.v
WorkflowText.v
WorkflowTextProps.v
WorkflowStore.v
WorkflowStoreProps.v
WorkflowRun.v
WorkflowExec.v
WorkflowEngine.v
WorkflowRunProps.v
WorkflowFence.v
WorkflowRest.v
WorkflowFires.v
WorkflowToy.v
IngestRules.v
IngestEnvelopes.v
EventStore.v
EventStoreProps.v
IngestRun.v
IngestThread.v
Ingest.v
IngestRunProps.v
IngestGates.v
IngestWrites.v
IngestProps.v
IngestThreadProps.v
IngestToy.v
ReadQuery.v
ReadRules.v
ReadRun.v
ReadPath.v
FanOut.v
ReadRunProps.v
ReadProps.v
LiveProps.v
QueryProps.v
TopicProps.v
ReadToy.v
Sdk.v
SdkGit.v
SdkProps.v
SdkForms.v
SdkWrites.v
