(* ===== verification/Prelude.v ===== *)
(** * A verification of the core of AIOS Pilot (Buzz)

AIOS Pilot is a workspace built on signed Nostr events.  A relay stores events
and pushes them to the subscriptions they match, runs workflows on them, and
keeps audio rooms, tunnels and an audit log; an agent harness queues the events
addressed to an agent and prompts it, one turn per conversation at a time, and
asks the owner before a tool runs; a git server applies a repository's
protection rules to pushes; a push gateway decides who may wake a device;
devices exchange keys in a pairing session; relays of one deployment find each
other by gossip.  This development models the decision-making core of these
parts and proves it correct; the databases and third-party crates they call are
tables, environments or interfaces of the model.  All paths below are under
[src/crates/].

** The parts and the files that model them

Shared:
- [Prelude]: results, iteration order of hash maps, sorting, shared lemmas,
  tactics and hint databases.  [Text]: the string operations of the code.
  [Encode]: integers as bytes and decimal text.  [Json]: JSON values.
- [Nostr]: events, stored events ([buzz-core/src/event.rs]) and filters as
  data; the [nostr] crate's tag accessors are the interface [NostrTags].
- [Kind] ([buzz-core/src/kind.rs]): the registry of kind numbers, its gate
  tables and predicates.  [Roles] ([buzz-core/src/channel.rs]): roles, channel
  types and permission levels.  [Network] ([buzz-core/src/network.rs]): which
  addresses the server may connect to; used by [WorkflowExec].

Relay:
- [Filter] ([buzz-core/src/filter.rs]): [filters_match] and the read gate.
  [Subscription] ([buzz-relay/src/subscription.rs]): the registry of
  subscriptions with five derived indexes; [fan_out_scoped] calls
  [filters_match] on the candidates.
- [AudioRoom], [AudioRoomProps] ([buzz-relay/src/audio/room.rs]): the peers of
  an audio room, their routing indices and the roster deltas they follow.
- [Directory], [DirectoryProps] ([buzz-relay/src/tunnel/directory.rs]): leases of sessions in Redis, fenced by
  generations.  [Reliable], [ReliableProps], [ReliableToy]
  ([tunnel/reliable.rs]): tunnels between the holders, over [Directory] and the
  frames of [MeshWire].
- [AuditLog], [AuditProps] ([buzz-audit/src/]): the hash-chained log
  of a community and its verifier, over the canonical JSON of [Json].
- Workflows ([buzz-workflow/src/], the tables in
  [buzz-db/src/store/workflow.rs], the commands in
  [buzz-relay/src/handlers/command_executor.rs]), in layers.  [WorkflowDef]
  ([schema.rs], [error.rs], durations): definitions and validation.
  [WorkflowText] ([executor.rs]): templates and conditions.  [WorkflowStore]: the
  statements on the tables, and [WorkflowStoreProps] about histories of them.
  [WorkflowRun]: the computations of the engine.  [WorkflowExec] ([executor.rs]):
  actions under the community's write fence and the loop over the steps.
  [WorkflowEngine] ([lib.rs], [command_executor.rs]): triggers, the clock,
  approvals, resumption.  [WorkflowRunProps] is the logic for these
  computations; [WorkflowFence], [WorkflowFires], [WorkflowRest] and
  [WorkflowTextProps] use it; [WorkflowToy] runs one.
- Ingest, the one way by which an event enters the relay
  ([buzz-relay/src/handlers/ingest.rs], the trace of
  [buzz-relay/src/conformance/mod.rs], the scopes of [buzz-auth/src/scope.rs]),
  over the event store ([buzz-db/src/store/]), in layers.  [IngestRules] decides
  on the kind, [IngestEnvelopes] on the tags and the content.  [EventStore]: the
  transactions on the tables.  [IngestRun]: the computations of a request.
  [IngestThread]: the ancestry of a reply.  [Ingest]: the gates, the validators,
  the writes, [ingest_event].  [EventStoreProps] is about histories of
  transactions; [IngestRunProps] is the logic for these computations,
  [IngestGates] and [IngestWrites] apply it stage by stage,
  [IngestProps] and [IngestThreadProps] hold the theorems;
  [IngestToy] runs requests.
- Reads and live delivery: what leaves the relay.  [ReadQuery]
  ([buzz-db/src/store/event.rs], [channel_members.rs], [community.rs],
  [buzz-search/src/query.rs]): the queries, as predicates on the rows of
  [EventStore].  [ReadRules] ([buzz-relay/src/handlers/req.rs]): what follows
  from the filters alone.  [ReadRun]: the computations of a read, its caches and
  the interest in topics ([buzz-pubsub/src/lib.rs]).  [ReadPath] ([req.rs],
  [count.rs], [close.rs], the end of [connection.rs]): REQ, COUNT, CLOSE.
  [FanOut] ([handlers/event.rs]): the EVENT entry, dispatch and delivery over
  [Subscription.fan_out_scoped].  [ReadRunProps] is the logic for these
  computations; [ReadProps], [LiveProps], [QueryProps] and
  [TopicProps] use it; [ReadToy] runs requests.

Clients: [Sdk], [SdkGit] ([buzz-sdk/src/builders.rs]): the builders of the
events a client signs, with the checks before them, and the discipline of
canvas writes.  [SdkProps], [SdkForms] and [SdkWrites] hold them against the
relay that reads what they build: [Ingest], [Scope], [EventStore].

Agent harness:
- [Scope] ([buzz-core/src/nip10.rs], [buzz-acp/src/scope.rs], thread tags of
  [buzz-acp/src/queue.rs]): the session scope an event belongs to.
  [EventQueue], [EventQueueProps] ([buzz-acp/src/queue.rs]): the queue, keyed by
  [Scope.SessionScope].
- [Permission], [PermissionProps]
  ([buzz-acp/src/permission.rs]): permissions a tool asks of the owner.
- [Ifc] ([ifc-core/src/lib.rs]): reader sets, labels and the egress check.

Git: [GitPerms] ([buzz-core/src/git_perms.rs]): [parse_protection_tags] reads
the rules of a repository, [for_ref] unions those that cover a ref,
[evaluate_ref_update] and [evaluate_push] decide.

Devices: [Pairing], [PairingProps], [PairingToy] ([buzz-core/src/pairing/]): the
NIP-AB session on both sides.  [PairingQr] ([qr.rs]): its QR code.
[Authority], [AuthorityProps], [AuthorityLimits]
([buzz-push-gateway/src/authority.rs]): installations, delegations and
deliveries of the push gateway.

Mesh: [Gossip] ([buzz-relay-mesh/src/gossip.rs]): records, digests, deltas and
the failure detector.  [Membership], [MembershipProps] ([membership.rs],
[registry.rs], [status.rs], the gossip part of [runtime.rs]): the peer table of
one relay, and a network of them.  [MeshWire] ([wire.rs], [peer.rs]): frames on
a stream.  [Conformance] ([buzz-conformance/src/]): the checker that replays
traces of a deployment.

The manifest beside the files maps every definition to its lines.

** How the code is modelled

- A method taking [&mut self] is a function to a new state, paired with its
  result; a [Result] is [result]; in [Pairing], where errors are threaded
  through long handlers and mutations made before an error stay, handlers are
  written in an error-and-state monad.
- What other tasks can do between two calls is part of the model where the code
  awaits: [Permission] and [Authority] are step relations over interleaved
  calls, cut where another call can come in; [Directory] and [Reliable] take
  what each remote call meets as an argument; a computation of [WorkflowRun]
  runs in an environment that answers its calls, commits statements of other
  processes before its own, makes a connection fail and drops the computation
  at any call.  A request of [IngestRun] likewise: before each of its
  transactions the others commit what they like, and a transaction may fail with
  or without having committed.  A computation of [ReadRun] logs every read with
  the tables it met, which others change at will from one read to the next;
  a cache may answer from tables of any earlier time, and the registry, the
  echo cache and the topic counts change under it unless a theorem says that no
  other task runs in between.
- SQL is a function on finite maps, one atomic step per statement or
  transaction ([WorkflowStore], [AuditLog], [EventStore], where locks make a
  transaction one step); Redis is an abstract store ([Directory]).  Of the
  database's triggers two kinds are part of the statements: the write fence of
  migration 0029, which makes every writing statement fail in a community that is
  being deleted ([IngestRun.exec], [WorkflowStore.exec]), and the purges of
  migrations 0011 and 0019, which remove a superseded row instead of marking it
  ([EventStore.soft_delete]).  The refusals of the other triggers (watermarks, the
  floor under dates, roster snapshots) are among the failures of a transaction that
  the environment may cause.  Postgres takes no text and no [jsonb] with U+0000:
  [WorkflowStore.exec] refuses it.
- What ingest hands to other components of the relay (commands, moderation,
  reports, feedback, push leases, validators and effects of administrative
  events, media metadata, workflow deletions, fan-out) and reads from its caches
  are the arbitrary functions of [IngestRun.Handlers] and [IngestRun.Env]: they
  may change any table, and the theorems hold for all of them.
- Integers are [N] or [Z]; where the code saturates, wraps, checks or casts the
  operation says so; the differences of dates in ingest wrap at 64 bits as in a
  release build ([EventStore.i64_sub], [i64_abs]).  [Instant] and [Duration] are nanosecond counts.  [f64] in
  the failure detector is the IEEE 754 specification of the Standard Library;
  the retry jitter of the queue is exact rational arithmetic and its bounds
  leave room for rounding.
- [HashMap]s and [DashMap]s are [gmap]s.  Where the code iterates one, the
  order is taken from the interface [HashOrder], which only promises that each
  entry is visited once; the theorems hold for every order.
- Every clock reading and random draw is an argument or an answer of the
  environment.
- Third-party crates are interfaces without laws: [PairingCrypto], [QrCrates],
  [MeshCrates], [NostrTags], [UuidText], [UuidBytes], [HexEncode], [Postcard],
  [WireCrates], [DirectoryCrates], [Redis], [JsonCrate], [AuditCrates],
  [AuditStorage], [PermissionCrates], [TraceText], [CronCrate], [ValueText],
  [Evalexpr], [PgCrates], [EngineCrates], [RelayCrates], [UrlCrate],
  [SdkCrates], [ReadCrates], [FullText] (how Postgres matches and ranks text; the ranking
  permutes the rows).  A theorem that relies on their documented behaviour says
  so in a hypothesis ([CryptoLaws], [RedisLaws], [EncodingLaws], [StorageLaws],
  [EvalexprLaws], [SdkLaws], ...), and its witness instantiates the interface.
- A panic of the code is visible in the model: [GitPerms.matches] answers
  [None] where the code would reach [unreachable!()].
- Strings are their UTF-8 bytes; logs and metrics are left out.

** What the theorems show

- Delivery: the indexes never drift from the subscriptions
  ([indexes_consistent]), fan-out equals a scan of all subscriptions
  ([fan_out_equals_scan]) and leaks nothing even on stale indexes
  ([fan_out_never_leaks]); registration, disconnection and channel revocation
  change exactly the deliveries they should ([register_replaces],
  [disconnect_silences], [revoke_channel_correct]).  Matching is NIP-01
  ([filters_match_correct]); the gates fail closed ([reader_gate_correct]); the
  registry is coherent ([kind_registry_coherent]).
- Dispatch: an invariant of all reachable queues ([reachable_well_formed]),
  one turn per scope ([in_flight_exclusive]), fair and bounded batches
  ([flush_next_correct]), nothing lost or duplicated by requeueing, steering and
  draining ([requeue_preserve_restores], [steer_withhold_release],
  [drain_channel_correct]), the retry policy ([requeue_backoff]); scopes are
  relay threads ([derive_identifies_threads]).
- Permissions: an approval comes from the owner, names the request, and is used
  once and in time ([approval_needs_owner_decision], [wait_ends_by_deadline]);
  secrets of the request do not reach what is shown ([context_hides_secrets]).
- Push policy: the parser ([parse_roundtrip]), the matcher ([matches_correct]),
  the decision on one ref and on a push ([evaluate_ref_update_correct],
  [evaluate_push_atomic]) and its monotonicity ([rules_only_restrict]).
- Information flow: the lattice ([reader_set_lattice]), soundness and
  completeness of egress ([check_egress_iff_every_input]), permanence of a
  denial ([denial_is_permanent]).
- Workflows: of every history of statements, which by [logged_closed] is all that
  the engine does to the tables however its tasks are dropped and interleaved: ended runs are final ([ended_runs_are_final]), a scheduled instant
  is claimed once ([fires_claimed_once]), a resume has one grant
  ([resume_needs_one_grant]).  A run acts only inside the fence, after it was read
  as running, and its webhooks do not reach private addresses
  ([effects_are_fenced]); none starts without its owner's authority
  ([runs_need_authority]); outside a fenced community tasks end with their run at
  rest ([runs_reach_rest]), unless the database refuses a NUL in what they store
  ([nul_output_leaves_run]); a resumed run continues from what it had
  ([resume_continues]).  Validation ([validate_correct]), templates
  ([templates_render_once]), conditions ([standard_variables_kept],
  [is_reply_field_breaks_conditions]).
- Ingest: an event is stored only when every gate let it pass, in the order of
  the code and on what the database said then ([stored_events_are_authorised]);
  answers tell what was stored ([answers_are_truthful]); the pipeline's own
  transactions touch no other community ([requests_stay_in_their_tenant]) and is always traced
  ([every_request_is_traced]); replies join the thread of their parent
  ([replies_join_their_thread]); the tables over kinds fit together
  ([admitted_kinds_are_consistent]); the NIP-44 check is a decoder
  ([validate_nip44_content_correct]).  Two defects are theorems:
  [accepted_channel_post_fails_trace_check] and
  [second_nested_reply_is_refused].
- Reads and live delivery: what REQ sends was met by a read, is authorised and
  asked for ([history_is_authorised]), and history hides nothing that the filters
  accept and the columns index ([history_hides_nothing]); COUNT counts only what may be read
  ([counts_only_what_may_be_read]), but for the defect of
  [count_escapes_channels]; live deliveries go only to standing, matching
  subscriptions of those who may read, on every path that delivers
  ([live_deliveries_are_authorised]); topic
  interest follows the subscriptions ([subscriptions_keep_topics]).
- Event store: replaceable events converge in any order
  ([replaceable_head_converges]), read state of NIP-RS form only advances
  ([read_state_never_regresses]), canvas writers cannot overwrite each other
  unseen ([no_lost_canvas_update]).
- Clients: what a builder makes has the form the relay asks for
  ([built_events_are_well_formed]); the project check of the SDK is the relay's
  ([project_envelopes_agree]); threads, mentions and broadcasts read back as
  they were built ([threads_read_back]); canvas writes go in front of their head
  ([canvas_writes_supersede]), and the client judges rightly whether they
  survived ([survival_is_ancestry]).
- Audit log: what the service writes verifies and extends the chain
  ([log_extends_chain]); a forgery of its rows that verifies breaks SHA-256 or only
  drops the oldest ([tampering_is_detected]); rows of the former encoding are not
  so protected ([legacy_encoding_ambiguous]).
- Sessions: the directory is a fenced lease register
  ([directory_refines_register], [new_owner_fences_old]); tunnels deliver the
  bytes sent, in order, and nothing from a fenced stream
  ([tunnel_delivers_bytes], [fenced_streams_deliver_nothing]); joins reach the
  owner ([join_routes_to_owner]); the renewer keeps the lease or reports
  ([renewer_keeps_lease_or_reports]).
- Audio rooms: an invariant of reachable rooms ([reachable_rooms_well_formed]),
  fenced reuse of indices ([reused_index_is_fenced]), rosters that converge
  ([roster_followers_converge]).
- Push gateway: deliveries rest on live delegations ([deliveries_are_allowed]),
  happen once ([no_delivery_twice]) and within quota ([deliveries_bounded]).
- Addresses: the bit tests are the tables of special-purpose blocks
  ([is_not_global_unicast_correct]).
- Pairing: the handlers refine an abstract protocol
  ([handlers_implement_protocol]); from it the state machine, replay and sender
  checks ([accepted_events_fresh]), no payload before both confirmations
  ([payload_needs_confirmation]), completion of an honest exchange
  ([honest_exchange_completes]), the QR parser ([decode_qr_correct]).
- Mesh: one exchange between two states ([delta_exchange_converges]), a
  network with lost, delayed, reordered and repeated messages
  ([mesh_gossip_converges]), authentication of registry seeds
  ([ready_records_authenticated]), frames on a stream
  ([frames_arrive_in_order]); the trace checker accepts exactly the runs of the
  transition relation ([check_trace_correct]).

** Bounds and fuel

Loops that consume text ([Permission]'s redaction, [WorkflowText.resolve_loop],
trimming) have the length of the text as fuel, plus one where the last round
consumes nothing; [Reliable.send_chunks] that of the bytes left;
[EventQueue.cap_loop] the number of the channel's events.  Each round shortens
what is left, and the theorems about them show that the loop ended for its own
reason.  An audio room looks at all 256 routing indices.  [run_loop], endless in
the code, takes its number of rounds as an argument and the theorems hold for
all of them.  The loops of ingest are structural on tags and text.  Capacities
(900 seconds of clock drift, 256 KiB of content, 100 levels of a thread, 64
members of a project, 500 events per scope and per channel, 50 per batch,
ten retries, 50 rules, 25 peers, 1000 rows, 270 seconds of delay, 30 days of
approval) are the code's.  The network theorem assumes that a 64-bit version
counter has not saturated, the directory theorems that a generation stays below
10^14 (Lua's numbers), the audit log that a sequence number stays in [i64].

** Not modelled

Sockets, HTTP, the transports and process handling; prompt formatting; the
zeroizing of secrets; YAML; the connection manager of the mesh; the heartbeat
task of an approval resume (its statements are among those of other processes)
and the serving lease inside [create_approval_and_wait] (the fence lets that
statement pass); times to live that Redis refuses; concurrency inside one
operation of an in-memory registry (an operation is one atomic step, except
that soundness of fan-out holds for arbitrary indexes).  Rounding of Postgres
timestamps to microseconds.  Around ingest and reads: the
handlers ingest delegates to, what database triggers write into columns and tables
that nothing here reads (the TTL refresh, the push queue), AUTH, and the frames and rate limits of the web socket; of the SDK,
the resolution of mentions, NIP-OA signatures and the client.  The queries of a
REQ's filters, which run up to four at a time, are read in the
order in which their rows are used.

The agent's language-model loop, the command line, the desktop and mobile
applications and the deployment are input and output around remote services or
written in other languages; the components of the manifest say for each part
why it is left out.  The next parts worth modelling are the pool lifecycle and
the subscription rules of the harness, tenant, invite and rate-limit decisions
of the relay, and the grants of the push gateway. *)

From Stdlib Require Export Ascii.
From stdpp Require Export prelude gmap strings list sorting.

Set Default Proof Using "Type".

(** ** Rust's [Result]: a value or an error *)

Inductive result (A E : Type) : Type :=
| Ok (a : A)
| Err (e : E).

Arguments Ok {A E} _.
Arguments Err {A E} _.

Definition result_bind {A B E : Type} (r : result A E) (k : A → result B E) : result B E :=
  match r with
  | Ok a => k a
  | Err e => Err e
  end.

(** [Result::map_err]. *)
Definition map_err {A E F : Type} (f : E → F) (r : result A E) : result A F :=
  match r with
  | Ok a => Ok a
  | Err e => Err (f e)
  end.

(** [Result::err]. *)
Definition err_of {A E : Type} (r : result A E) : option E :=
  match r with
  | Ok _ => None
  | Err e => Some e
  end.

Definition is_ok {A E : Type} (r : result A E) : bool :=
  match r with
  | Ok _ => true
  | Err _ => false
  end.

(** [Option::ok_or]. *)
Definition ok_or {A E : Type} (o : option A) (e : E) : result A E :=
  match o with
  | Some a => Ok a
  | None => Err e
  end.

Declare Scope buzz_scope.
Delimit Scope buzz_scope with buzz.

(** The [?] operator: [let? x := e in k] continues with the value or returns
the error. *)
Notation "'let?' x := e 'in' k" := (result_bind e (λ x, k))
  (at level 10, x pattern at level 0, e at level 100, k at level 200) : buzz_scope.

Open Scope buzz_scope.

(** ** Iterator helpers of the standard library *)

(** [Iterator::min_by_key]: the first of the elements with the least key. *)
Fixpoint min_by_key {A : Type} (f : A → N) (l : list A) : option A :=
  match l with
  | [] => None
  | x :: l' =>
      match min_by_key f l' with
      | None => Some x
      | Some y => if (f x <=? f y)%N then Some x else Some y
      end
  end.

(** [slice::sort_by_key]: a stable sort. *)
Fixpoint insert_by_key {A : Type} (f : A → N) (x : A) (l : list A) : list A :=
  match l with
  | [] => [x]
  | y :: l' => if (f x <=? f y)%N then x :: l else y :: insert_by_key f x l'
  end.

Definition sort_by_key {A : Type} (f : A → N) (l : list A) : list A :=
  foldr (insert_by_key f) [] l.

(** The [seen.insert(x)] loops: keep the first occurrence of each element, in
order. *)
Fixpoint dedup_seen {A : Type} `{EqDecision A} (seen : list A) (l : list A) : list A :=
  match l with
  | [] => []
  | x :: l' =>
      if decide (x ∈ seen) then dedup_seen seen l'
      else x :: dedup_seen (x :: seen) l'
  end.

(** ** Iteration over a hash map

A [HashMap] (and a [DashMap]) is iterated in an unspecified order. Every
definition that iterates one takes the order from this interface, which
promises only that each entry is visited once. *)
Class HashOrder : Type := {
  hm_iter : ∀ {K A : Type} `{Countable K}, gmap K A → list (K * A);
  hm_iter_perm : ∀ {K A : Type} `{Countable K} (m : gmap K A), hm_iter m ≡ₚ map_to_list m
}.

(** One concrete order, for the witnesses that evaluate a definition. *)
Definition map_to_list_order : HashOrder.
Proof. refine {| hm_iter := λ K A _ _ m, map_to_list m |}. done. Defined.

(** ** Tactics *)

(** Case analysis on every [match] and [if] of the goal or of a hypothesis,
closing the impossible branches. *)
Ltac split_matches :=
  repeat (case_match; simplify_eq/=; try done).

(** Splits a [let?] chain that succeeded (or failed) into its steps. *)
Ltac result_steps H :=
  repeat match type of H with
  | result_bind ?e _ = _ =>
      let E := fresh "E" in destruct e eqn:E; simpl in H; [|try discriminate H]
  end.

(** The capacity tests of the source are comparisons with constants such as
500: [simpl] must not unfold them. *)
#[global] Arguments Nat.leb : simpl never.
#[global] Arguments Nat.ltb : simpl never.

(** ** Hint databases

[buzz_map] rewrites lookups in updated maps; [buzz] holds the lemmas that
close the routine membership and bound goals of the components. *)
Create HintDb buzz.
Create HintDb buzz_map.

(** ** Lemmas on results *)

#[export] Instance Ok_inj {A E : Type} : Inj (=) (=) (@Ok A E).
Proof. by intros x y [= ->]. Qed.

Lemma result_bind_Ok {A B E : Type} (r : result A E) (k : A → result B E) (b : B) :
  result_bind r k = Ok b ↔ ∃ a, r = Ok a ∧ k a = Ok b.
Proof. destruct r; simpl; naive_solver. Qed.

Lemma result_bind_Err {A B E : Type} (r : result A E) (k : A → result B E) (e : E) :
  result_bind r k = Err e ↔ r = Err e ∨ ∃ a, r = Ok a ∧ k a = Err e.
Proof. destruct r; simpl; naive_solver. Qed.

Lemma map_err_Ok {A E F : Type} (f : E → F) (r : result A E) (a : A) :
  map_err f r = Ok a ↔ r = Ok a.
Proof. destruct r; simpl; naive_solver. Qed.

(** ** Lemmas on filters *)

Lemma filter_keeps {A : Type} (P : A → Prop) `{!∀ x, Decision (P x)} (l : list A) :
  Forall P l → filter P l = l.
Proof. induction 1 as [|x l Hx _ IH]; [done|]. by rewrite filter_cons_True, IH. Qed.

Lemma filter_drops {A : Type} (P : A → Prop) `{!∀ x, Decision (P x)} (l : list A) :
  Forall (λ x, ¬ P x) l → filter P l = [].
Proof. induction 1 as [|x l Hx _ IH]; [done|]. by rewrite filter_cons_False, IH. Qed.

Lemma filter_sorted {A : Type} (R : relation A) (P : A → Prop) `{!∀ x, Decision (P x)} (l : list A) :
  StronglySorted R l → StronglySorted R (filter P l).
Proof.
  induction 1 as [|x l _ IH Hx]; [constructor|]. rewrite filter_cons. case_decide; [|done].
  constructor; [done|]. rewrite Forall_forall in *. intros y [_ Hy]%list_elem_of_filter. auto.
Qed.

(** ** Lemmas on the iterator helpers *)

Section min_by_key_lemmas.
Context {A : Type} (f : A → N).

Lemma min_by_key_None (l : list A) : min_by_key f l = None ↔ l = [].
Proof. destruct l as [|x l]; simpl; [done|]. split_matches. Qed.

Lemma min_by_key_Some (l : list A) (x : A) :
  min_by_key f l = Some x → x ∈ l ∧ ∀ y, y ∈ l → (f x <= f y)%N.
Proof.
  revert x. induction l as [|z l IH]; intros x; simpl; [done|].
  destruct (min_by_key f l) as [y|] eqn:E.
  - destruct (IH _ eq_refl) as [Hin Hmin].
    destruct (f z <=? f y)%N eqn:Hle; intros [= <-].
    + apply N.leb_le in Hle. split; [set_solver|].
      intros w [->|Hw]%elem_of_cons; [lia|]. specialize (Hmin w Hw). lia.
    + apply N.leb_gt in Hle. split; [set_solver|].
      intros w [->|Hw]%elem_of_cons; [lia|auto].
  - apply min_by_key_None in E as ->. intros [= <-]. split; [set_solver|].
    intros y Hy. apply list_elem_of_singleton in Hy as ->. lia.
Qed.

Lemma min_by_key_is_Some (l : list A) (x : A) :
  x ∈ l → ∃ y, min_by_key f l = Some y.
Proof.
  intros Hx. destruct (min_by_key f l) as [y|] eqn:E; [by eexists|].
  apply min_by_key_None in E as ->. set_solver.
Qed.
End min_by_key_lemmas.

Section sort_lemmas.
Context {A : Type} (f : A → N).

Definition key_le (x y : A) : Prop := (f x <= f y)%N.

Lemma insert_by_key_perm (x : A) (l : list A) : insert_by_key f x l ≡ₚ x :: l.
Proof.
  induction l as [|y l IH]; simpl; [done|].
  case_match; [done|]. rewrite IH. apply Permutation_swap.
Qed.

Lemma sort_by_key_perm (l : list A) : sort_by_key f l ≡ₚ l.
Proof.
  induction l as [|x l IH]; simpl; [done|].
  by rewrite insert_by_key_perm, IH.
Qed.

Lemma length_sort_by_key (l : list A) : length (sort_by_key f l) = length l.
Proof. by rewrite sort_by_key_perm. Qed.

Lemma insert_by_key_sorted (x : A) (l : list A) :
  StronglySorted key_le l → StronglySorted key_le (insert_by_key f x l).
Proof.
  unfold key_le. induction l as [|y l IH]; simpl; intros Hl.
  { repeat constructor. }
  apply StronglySorted_inv in Hl as [Hl Hy].
  destruct (f x <=? f y)%N eqn:E.
  - apply N.leb_le in E. constructor; [by constructor|]. constructor; [done|].
    eapply Forall_impl; [exact Hy|]. intros z ?. simpl in *. lia.
  - apply N.leb_gt in E. constructor; [auto|].
    apply Forall_forall. intros z Hz.
    rewrite insert_by_key_perm in Hz. apply elem_of_cons in Hz as [->|Hz]; [lia|].
    rewrite Forall_forall in Hy. by apply Hy.
Qed.

Lemma sort_by_key_sorted (l : list A) : StronglySorted key_le (sort_by_key f l).
Proof.
  induction l as [|x l IH]; simpl; [constructor|]. by apply insert_by_key_sorted.
Qed.

(** Stability: elements with equal keys keep their relative order. *)
Lemma insert_by_key_filter (k : N) (x : A) (l : list A) :
  filter (λ y, f y = k) (insert_by_key f x l)
  = filter (λ y, f y = k) (x :: l).
Proof.
  induction l as [|y l IH]; simpl; [done|].
  destruct (f x <=? f y)%N eqn:E; [done|]. apply N.leb_gt in E.
  rewrite !filter_cons in *. rewrite IH.
  repeat case_decide; try done. lia.
Qed.

Lemma sort_by_key_stable (k : N) (l : list A) :
  filter (λ y, f y = k) (sort_by_key f l) = filter (λ y, f y = k) l.
Proof.
  induction l as [|x l IH]; simpl; [done|].
  rewrite insert_by_key_filter, !filter_cons, IH. done.
Qed.

Lemma sort_by_key_id (l : list A) :
  StronglySorted key_le l → sort_by_key f l = l.
Proof.
  unfold key_le. induction 1 as [|x l Hl IH Hx]; simpl; [done|]. rewrite IH.
  destruct l as [|y l]; simpl; [done|].
  apply Forall_cons_1 in Hx as [Hx _]. apply N.leb_le in Hx. by rewrite Hx.
Qed.
End sort_lemmas.

Section dedup_lemmas.
Context {A : Type} `{EqDecision A}.

Lemma elem_of_dedup_seen (seen l : list A) (x : A) :
  x ∈ dedup_seen seen l ↔ x ∈ l ∧ x ∉ seen.
Proof.
  revert seen. induction l as [|y l IH]; intros seen; simpl; [set_solver|].
  case_decide as Hy; rewrite ?elem_of_cons, IH, ?elem_of_cons.
  - naive_solver.
  - destruct (decide (x = y)) as [->|]; naive_solver.
Qed.

Lemma NoDup_dedup_seen (seen l : list A) : NoDup (dedup_seen seen l).
Proof.
  revert seen. induction l as [|y l IH]; intros seen; simpl; [constructor|].
  case_decide; [done|]. constructor; [|done].
  rewrite elem_of_dedup_seen, elem_of_cons. tauto.
Qed.
End dedup_lemmas.

#[export] Hint Rewrite @elem_of_dedup_seen : buzz.
#[export] Hint Resolve NoDup_dedup_seen sort_by_key_sorted : buzz.

Section hash_order_lemmas.
Context {HO : HashOrder} {K A : Type} `{Countable K}.
Implicit Types m : gmap K A.

Lemma elem_of_hm_iter m (k : K) (a : A) : (k, a) ∈ hm_iter m ↔ m !! k = Some a.
Proof. by rewrite hm_iter_perm, elem_of_map_to_list. Qed.

Lemma hm_iter_empty : hm_iter (∅ : gmap K A) = [].
Proof. apply Permutation_nil_r. by rewrite hm_iter_perm, map_to_list_empty. Qed.
End hash_order_lemmas.

#[export] Hint Rewrite @elem_of_hm_iter : buzz.

(** ** Lists and maps *)

Lemma forallb_Forall {A : Type} (p : A → bool) (l : list A) :
  forallb p l = true ↔ Forall (λ x, p x = true) l.
Proof. by rewrite forallb_forall, Forall_forall; setoid_rewrite list_elem_of_In. Qed.

Lemma existsb_elem_of {A : Type} (p : A → bool) (l : list A) :
  existsb p l = true ↔ ∃ x, x ∈ l ∧ p x = true.
Proof. rewrite existsb_exists. by setoid_rewrite list_elem_of_In. Qed.

Lemma forallb_elem_of {A : Type} (p : A → bool) (l : list A) :
  forallb p l = true ↔ ∀ x, x ∈ l → p x = true.
Proof. rewrite forallb_forall. by setoid_rewrite list_elem_of_In. Qed.

Lemma exists_elem_of_cons {A : Type} (P : A → Prop) (x : A) (l : list A) :
  (∃ y, y ∈ x :: l ∧ P y) ↔ P x ∨ ∃ y, y ∈ l ∧ P y.
Proof.
  setoid_rewrite elem_of_cons. split.
  - intros (y & [->|Hy] & HP); [by left|right; by exists y].
  - intros [HP|(y & Hy & HP)]; [exists x; auto|exists y; auto].
Qed.

Lemma forall_elem_of_cons {A : Type} (P : A → Prop) (x : A) (l : list A) :
  (∀ y, y ∈ x :: l → P y) ↔ P x ∧ ∀ y, y ∈ l → P y.
Proof.
  setoid_rewrite elem_of_cons. split; [auto|].
  intros [Hx Hl] y [->|Hy]; auto.
Qed.

Lemma sum_list_map_perm {A : Type} (f : A → nat) (l l' : list A) :
  l ≡ₚ l' → sum_list (map f l) = sum_list (map f l').
Proof. induction 1; simpl; lia. Qed.

Lemma sum_list_map_le {A : Type} (f g : A → nat) (l : list A) :
  (∀ x, x ∈ l → f x ≤ g x) → sum_list (map f l) ≤ sum_list (map g l).
Proof.
  induction l as [|x l IH]; simpl; intros Hle; [done|].
  specialize (Hle x) as Hx. specialize (IH (λ y Hy, Hle y (list_elem_of_further _ _ _ Hy))).
  specialize (Hx (list_elem_of_here _ _)). lia.
Qed.

Lemma Forall_sublist_of {A : Type} (P : A → Prop) (l l' : list A) :
  l' `sublist_of` l → Forall P l → Forall P l'.
Proof. induction 1; rewrite ?Forall_cons; intuition. Qed.

Lemma filter_sublist_of {A : Type} (P : A → Prop) `{∀ x, Decision (P x)} (l : list A) :
  filter P l `sublist_of` l.
Proof.
  induction l as [|x l IH]; [done|]. rewrite filter_cons. by case_decide; constructor.
Qed.

Lemma elem_of_concat_map {A B : Type} (f : A → list B) (l : list A) (y : B) :
  y ∈ concat (map f l) ↔ ∃ x, x ∈ l ∧ y ∈ f x.
Proof.
  induction l as [|x l IH]; simpl; [set_solver|].
  by rewrite elem_of_app, IH, exists_elem_of_cons.
Qed.
