(* ===== verification/Text.v ===== *)
(** * Text: the string operations the components share

Rust strings are modelled by their UTF-8 bytes ([string] is a list of 8-bit
characters), so [str::len] is [String.length].  Only ASCII classification and
splitting at ASCII separators are used, and both agree with the [char] view
of the source on UTF-8 text: a byte of a multi-byte character is never ASCII. *)
From S2P Require Import Prelude.

(** ** Character classes ([char::is_ascii_*]) *)

Definition in_range (lo hi : N) (c : ascii) : bool :=
  (lo <=? N_of_ascii c)%N && (N_of_ascii c <=? hi)%N.

Definition is_ascii_digit (c : ascii) : bool := in_range 48 57 c.
Definition is_ascii_upper (c : ascii) : bool := in_range 65 90 c.
Definition is_ascii_lower (c : ascii) : bool := in_range 97 122 c.

Definition is_ascii_alphanumeric (c : ascii) : bool :=
  is_ascii_digit c || is_ascii_upper c || is_ascii_lower c.

Definition is_ascii_hexdigit (c : ascii) : bool :=
  is_ascii_digit c || in_range 65 70 c || in_range 97 102 c.

Definition ascii_to_lower (c : ascii) : ascii :=
  if is_ascii_upper c then ascii_of_N (N_of_ascii c + 32) else c.

(** ** Strings *)

Fixpoint string_forall (p : ascii → bool) (s : string) : bool :=
  match s with
  | EmptyString => true
  | String c s' => p c && string_forall p s'
  end.

(** [str::contains] for one character. *)
Fixpoint contains_char (c : ascii) (s : string) : bool :=
  match s with
  | EmptyString => false
  | String d s' => Ascii.eqb c d || contains_char c s'
  end.

(** [str::to_ascii_lowercase]. *)
Fixpoint to_ascii_lowercase (s : string) : string :=
  match s with
  | EmptyString => EmptyString
  | String c s' => String (ascii_to_lower c) (to_ascii_lowercase s')
  end.

(** [str::starts_with]. *)
Definition starts_with (pre s : string) : bool := String.prefix pre s.

(** [str::strip_prefix]. *)
Fixpoint strip_prefix (pre s : string) : option string :=
  match pre, s with
  | EmptyString, _ => Some s
  | String c pre', String d s' => if Ascii.eqb c d then strip_prefix pre' s' else None
  | String _ _, EmptyString => None
  end.

(** Slices [&s[..n]] and [&s[n..]]. *)
Fixpoint str_take (n : nat) (s : string) : string :=
  match n, s with
  | S n, String c s => String c (str_take n s)
  | _, _ => EmptyString
  end.

Fixpoint str_drop (n : nat) (s : string) : string :=
  match n, s with
  | 0, _ => s
  | S n, String _ s => str_drop n s
  | S _, EmptyString => EmptyString
  end.

(** [str::find] of a substring, and of a test of what starts at a position. *)
Fixpoint find_str (needle s : string) : option nat :=
  if String.prefix needle s then Some 0
  else match s with
  | EmptyString => None
  | String _ s' => S <$> find_str needle s'
  end.

Fixpoint find_suffix (p : string → bool) (s : string) : option nat :=
  match s with
  | EmptyString => None
  | String _ s' => if p s then Some 0 else S <$> find_suffix p s'
  end.

(** [str::replace(chars, "")], removing characters. *)
Fixpoint remove_chars (cs : list ascii) (s : string) : string :=
  match s with
  | EmptyString => EmptyString
  | String c s' => if existsb (Ascii.eqb c) cs then remove_chars cs s' else String c (remove_chars cs s')
  end.

(** [str::split] at one character: always at least one part. *)
Fixpoint split_on (sep : ascii) (s : string) : list string :=
  match s with
  | EmptyString => [EmptyString]
  | String c s' =>
      if Ascii.eqb c sep then EmptyString :: split_on sep s'
      else match split_on sep s' with
           | [] => [String c EmptyString]
           | part :: parts => String c part :: parts
           end
  end.

(** The inverse of [split_on]: [parts.join(sep)]. *)
Fixpoint join_with (sep : ascii) (parts : list string) : string :=
  match parts with
  | [] => EmptyString
  | [p] => p
  | p :: parts' => p +:+ String sep (join_with sep parts')
  end.

(** *** White space, [str::trim] and characters *)

(** The length of the whitespace [char] a text starts with. *)
Definition whitespace_len (s : string) : option nat :=
  match map N_of_ascii (String.list_ascii_of_string s) with
  | a :: l =>
      if bool_decide (9 <= a <= 13)%N || (a =? 32)%N then Some 1
      else match l with
      | b :: l =>
          if (a =? 194)%N && ((b =? 133)%N || (b =? 160)%N) then Some 2
          else match l with
          | c :: _ =>
              if (a =? 225)%N && (b =? 154)%N && (c =? 128)%N
                 || (a =? 226)%N && (b =? 128)%N
                    && (bool_decide (128 <= c <= 138)%N || (c =? 168)%N || (c =? 169)%N || (c =? 175)%N)
                 || (a =? 226)%N && (b =? 129)%N && (c =? 159)%N
                 || (a =? 227)%N && (b =? 128)%N && (c =? 128)%N
              then Some 3 else None
          | [] => None
          end
      | [] => None
      end
  | [] => None
  end.

Definition starts_whitespace (s : string) : bool := bool_decide (is_Some (whitespace_len s)).

(** [text.trim().is_empty()]; every round drops a character, so the length is
enough fuel. *)
Fixpoint blank_loop (fuel : nat) (s : string) : bool :=
  match s, fuel with
  | EmptyString, _ => true
  | _, 0 => false
  | _, S fuel =>
      match whitespace_len s with
      | Some n => blank_loop fuel (str_drop n s)
      | None => false
      end
  end.
Definition is_blank (s : string) : bool := blank_loop (String.length s) s.

(** [str::trim_start], [str::trim_end] and [str::trim]. *)
Fixpoint trim_start_loop (fuel : nat) (s : string) : string :=
  match fuel, whitespace_len s with
  | S fuel, Some n => trim_start_loop fuel (str_drop n s)
  | _, _ => s
  end.
Definition trim_start (s : string) : string := trim_start_loop (String.length s) s.

Fixpoint trim_end (s : string) : string :=
  match s with
  | EmptyString => EmptyString
  | String c s' => if is_blank s then EmptyString else String c (trim_end s')
  end.

Definition trim (s : string) : string := trim_end (trim_start s).

(** [s.split_whitespace().count()]: the places where a word starts. *)
Fixpoint count_words_from (fuel : nat) (in_word : bool) (s : string) : nat :=
  match fuel, s with
  | S fuel, String _ s' =>
      match whitespace_len s with
      | Some n => count_words_from fuel false (str_drop n s)
      | None => (if in_word then 0 else 1) + count_words_from fuel true s'
      end
  | _, _ => 0
  end.
Definition count_words (s : string) : nat := count_words_from (String.length s) false s.

(** [s.chars().take(n).collect()]: a character ends before the next byte that
is not a continuation byte. *)
Definition is_continuation (c : ascii) : bool := in_range 128 191 c.

Fixpoint take_chars (n : nat) (s : string) : string :=
  match s with
  | EmptyString => EmptyString
  | String c s' =>
      if is_continuation c then String c (take_chars n s')
      else match n with
           | 0 => EmptyString
           | S n => String c (take_chars n s')
           end
  end.

(** [str::strip_suffix], and [str::ends_with]. *)
Fixpoint strip_suffix (suf s : string) : option string :=
  if String.eqb s suf then Some EmptyString
  else match s with
       | EmptyString => None
       | String c s' => String c <$> strip_suffix suf s'
       end.
Definition ends_with (suf s : string) : bool := bool_decide (is_Some (strip_suffix suf s)).

(** [str::eq_ignore_ascii_case]. *)
Definition eq_ignore_ascii_case (a b : string) : bool :=
  String.eqb (to_ascii_lowercase a) (to_ascii_lowercase b).

(** [str::split_once] at one character. *)
Fixpoint split_once (sep : ascii) (s : string) : option (string * string) :=
  match s with
  | EmptyString => None
  | String c s' =>
      if Ascii.eqb c sep then Some ("", s')
      else match split_once sep s' with
           | Some (a, b) => Some (String c a, b)
           | None => None
           end
  end.

(** ** Lemmas *)

(** *** Appending, cutting and finding *)

Lemma string_app_assoc (a b c : string) : a +:+ (b +:+ c) = (a +:+ b) +:+ c.
Proof. induction a as [|x a IH]; [done|]. change (String x (a +:+ (b +:+ c)) = String x ((a +:+ b) +:+ c)). by rewrite IH. Qed.

Lemma string_app_cons c (a b : string) : String c a +:+ b = String c (a +:+ b).
Proof. done. Qed.

Lemma string_app_nil_r (a : string) : a +:+ "" = a.
Proof. induction a as [|x a IH]; [done|]. change (String x (a +:+ "") = String x a). by rewrite IH. Qed.

Lemma string_forall_app p a b :
  string_forall p (a +:+ b) = string_forall p a && string_forall p b.
Proof. induction a as [|c a IH]; simpl; [done|]. by rewrite IH, andb_assoc. Qed.

Lemma length_string_app (p s : string) : String.length (p +:+ s) = String.length p + String.length s.
Proof. induction p as [|c p IH]; simpl; [done|]. by rewrite IH. Qed.

Lemma str_take_app s t n : str_take (String.length s + n) (s +:+ t) = s +:+ str_take n t.
Proof. induction s as [|c s IH]; [done|exact (f_equal (String c) IH)]. Qed.

Lemma str_drop_app s t n : str_drop (String.length s + n) (s +:+ t) = str_drop n t.
Proof. induction s as [|c s IH]; [done|exact IH]. Qed.

Lemma str_take_0 s : str_take 0 s = "".
Proof. by destruct s. Qed.

Lemma str_drop_0 s : str_drop 0 s = s.
Proof. by destruct s. Qed.

Lemma length_str_take n s : String.length (str_take n s) = min n (String.length s).
Proof. revert n. induction s as [|c s IH]; intros [|n]; cbn; [done..|by rewrite IH]. Qed.

Lemma length_str_drop n s : String.length (str_drop n s) = String.length s - n.
Proof. revert n. induction s as [|c s IH]; intros [|n]; cbn; [done..|by rewrite IH]. Qed.

Lemma string_prefix_length m s : String.prefix m s = true → String.length m <= String.length s.
Proof.
  revert s. induction m as [|c m IH]; intros [|d s]; cbn; try done; try lia.
  destruct (ascii_dec c d); [|done]. intros H%IH. lia.
Qed.

Lemma find_str_bound m s i : find_str m s = Some i → i + String.length m <= String.length s.
Proof.
  revert i. induction s as [|c s IH]; intros i; cbn [find_str]; destruct (String.prefix m _) eqn:Hp;
    [intros [= <-]; by apply string_prefix_length|done|intros [= <-]; by apply string_prefix_length|].
  intros (j & Hj & ->)%fmap_Some. apply IH in Hj. cbn. lia.
Qed.

(** *** Splitting and joining *)

Lemma split_on_nonempty sep s : split_on sep s ≠ [].
Proof. destruct s; simpl; [done|]. repeat case_match; done. Qed.

Lemma join_split sep s : join_with sep (split_on sep s) = s.
Proof.
  induction s as [|c s IH]; simpl; [done|].
  destruct (Ascii.eqb_spec c sep) as [->|].
  - simpl. destruct (split_on sep s) eqn:E; [by apply split_on_nonempty in E|].
    by rewrite IH.
  - destruct (split_on sep s) as [|p ps] eqn:E; [by apply split_on_nonempty in E|].
    rewrite <-IH. destruct ps; done.
Qed.

Lemma split_on_app sep p s :
  contains_char sep p = false →
  split_on sep (p +:+ String sep s) = p :: split_on sep s.
Proof.
  induction p as [|c p IH]; simpl; intros Hp.
  - by rewrite Ascii.eqb_refl.
  - apply orb_false_iff in Hp as [Hc Hp].
    rewrite (Ascii.eqb_sym c), Hc, IH by done. done.
Qed.

Lemma split_on_free sep p : contains_char sep p = false → split_on sep p = [p].
Proof.
  induction p as [|c p IH]; simpl; intros Hp; [done|].
  apply orb_false_iff in Hp as [Hc Hp].
  by rewrite (Ascii.eqb_sym c), Hc, IH.
Qed.

Lemma split_join sep parts :
  parts ≠ [] → Forall (λ p, contains_char sep p = false) parts →
  split_on sep (join_with sep parts) = parts.
Proof.
  intros Hne Hall. induction Hall as [|p parts Hp Hall IH]; [done|].
  destruct parts as [|q parts]; simpl in *; [by apply split_on_free|].
  rewrite split_on_app by done. by rewrite IH.
Qed.

Lemma split_on_sep_free sep s : Forall (λ p, contains_char sep p = false) (split_on sep s).
Proof.
  induction s as [|c s IH]; simpl; [by repeat constructor|].
  destruct (Ascii.eqb_spec c sep) as [->|Hc]; [by constructor|].
  destruct (split_on sep s) as [|p ps]; apply Forall_cons in IH as [Hp Hps] || clear IH.
  - repeat constructor. simpl. apply orb_false_iff. split; [|done].
    by apply Ascii.eqb_neq.
  - constructor; [|done]. simpl. apply orb_false_iff. split; [|done].
    by apply Ascii.eqb_neq.
Qed.

Lemma strip_prefix_Some pre s r : strip_prefix pre s = Some r ↔ s = pre +:+ r.
Proof.
  revert s. induction pre as [|c pre IH]; intros s; simpl.
  - split; [by intros [= ->]|by intros ->].
  - destruct s as [|d s]; [done|].
    destruct (Ascii.eqb_spec c d) as [->|Hc].
    + rewrite IH. split; [by intros ->|by intros [= ->]].
    + split; [done|]. by intros [= ->].
Qed.

(** [ascii_to_lower] is idempotent, and so is lower-casing. *)
Lemma ascii_to_lower_idem c : ascii_to_lower (ascii_to_lower c) = ascii_to_lower c.
Proof. by destruct c as [[] [] [] [] [] [] [] []]. Qed.

Lemma to_ascii_lowercase_idem s :
  to_ascii_lowercase (to_ascii_lowercase s) = to_ascii_lowercase s.
Proof. induction s as [|c s IH]; simpl; [done|]. by rewrite ascii_to_lower_idem, IH. Qed.

Lemma length_to_ascii_lowercase s : String.length (to_ascii_lowercase s) = String.length s.
Proof. induction s; simpl; congruence. Qed.

#[export] Hint Rewrite join_split to_ascii_lowercase_idem length_to_ascii_lowercase : buzz.
#[export] Hint Resolve split_on_nonempty split_on_sep_free : buzz.

Lemma string_forall_excludes p c s :
  string_forall p s = true → p c = false → contains_char c s = false.
Proof.
  intros Hs Hc. induction s as [|d s IH]; simpl in *; [done|].
  apply andb_true_iff in Hs as [Hd Hs]. apply orb_false_iff. split; [|auto].
  apply Ascii.eqb_neq. intros ->. congruence.
Qed.

(** *** Occurrences of a text

[find_str] gives the leftmost occurrence. *)
Definition leftmost (m a b : string) : Prop :=
  ∀ a' b', a +:+ m +:+ b = a' +:+ m +:+ b' → String.length a <= String.length a'.

Definition occurs (m s : string) : Prop := ∃ a b, s = a +:+ m +:+ b.

Lemma string_prefix_iff m s : String.prefix m s = true ↔ ∃ b, s = m +:+ b.
Proof.
  revert s. induction m as [|c m IH]; intros [|d s]; cbn; try (split; [eauto|done]); try done.
  - split; [done|]. intros [b Hb]. done.
  - destruct (ascii_dec c d) as [->|Hne].
    + rewrite IH. split; intros [b Hb]; exists b; [by rewrite Hb|by injection Hb].
    + split; [done|]. intros [b Hb]. by injection Hb as ->.
Qed.

Lemma string_app_inj_l a b c : a +:+ b = a +:+ c → b = c.
Proof. induction a as [|x a IH]; [done|]. rewrite !string_app_cons. by intros [= ?%IH]. Qed.

Lemma find_str_Some m s i :
  find_str m s = Some i → s = str_take i s +:+ m +:+ str_drop (i + String.length m) s
  ∧ leftmost m (str_take i s) (str_drop (i + String.length m) s).
Proof.
  revert i. induction s as [|c s IH]; intros i Hf; cbn [find_str] in Hf;
    destruct (String.prefix m _) eqn:Hp; simplify_eq.
  - apply string_prefix_iff in Hp as [b Hb]. split; [|by intros ???; cbn; lia].
    destruct m; [|done]. by cbn in *.
  - apply string_prefix_iff in Hp as [b Hb]. split; [|by intros ???; cbn; lia].
    rewrite Hb. cbn [Nat.add]. rewrite str_take_0.
    rewrite <-(Nat.add_0_r (String.length m)), str_drop_app, str_drop_0. done.
  - apply fmap_Some in Hf as (j & Hj & ->). destruct (IH j Hj) as [Heq Hl]. cbn. split.
    { exact (f_equal (String c) Heq). }
    intros a' b' Hab. destruct a' as [|x a'].
    + exfalso. assert (String.prefix m (String c s) = true) as Hq; [|congruence].
      apply string_prefix_iff. exists b'. rewrite Heq, <-string_app_cons. exact Hab.
    + cbn. apply le_n_S. apply (Hl a' b'). rewrite !string_app_cons in Hab. by injection Hab.
Qed.

Lemma find_str_None m s : find_str m s = None → ¬ occurs m s.
Proof.
  intros Hf (a & b & ->). revert Hf. induction a as [|c a IH].
  - change ("" +:+ m +:+ b) with (m +:+ b). unfold find_str.
    destruct (m +:+ b) as [|d s] eqn:Hs; rewrite <-Hs; (destruct (String.prefix m _) eqn:Hp; [done|]);
      exfalso; assert (String.prefix m (m +:+ b) = true) as Hq by (apply string_prefix_iff; eauto);
      rewrite Hs in Hq; congruence.
  - rewrite string_app_cons. cbn [find_str]. destruct (String.prefix m _); [done|].
    intros Hn%fmap_None. by apply IH.
Qed.

(** Two leftmost occurrences are the same. *)
Lemma leftmost_unique m a b a' b' :
  leftmost m a b → leftmost m a' b' → a +:+ m +:+ b = a' +:+ m +:+ b' → a = a' ∧ b = b'.
Proof.
  intros Hl Hl' Heq. assert (String.length a = String.length a') as Hlen.
  { pose proof (Hl a' b' Heq). pose proof (Hl' a b (eq_sym Heq)). lia. }
  assert (a = a') as ->.
  { clear Hl Hl'. revert a' Hlen Heq. induction a as [|x a IH]; intros [|y a'] Hlen Heq; cbn in Hlen; try done.
    rewrite !string_app_cons in Heq. injection Heq as -> Heq. f_equal. by apply IH; [lia|]. }
  by apply string_app_inj_l, string_app_inj_l in Heq.
Qed.
