(* ===== verification/Network.v ===== *)
(** * Network: which addresses the server may connect to

Models [buzz-core/src/network.rs], the check every outbound target goes
through.  An address is its octets (IPv4) or its 16-bit segments (IPv6), as the
standard library's types give them; the tests of those types the code calls
([is_private], [to_ipv4], ...) are written out from their documentation.  The
theorem compares the code's bit tests with the tables of special-purpose address
blocks they stand for, written as network prefixes. *)
From Stdlib Require Import Btauto.
From S2P Require Import Prelude.

Open Scope N_scope.

(** ** Addresses *)

Record Ipv4Addr : Type := mkV4 { o0 : N; o1 : N; o2 : N; o3 : N }.

Record Ipv6Addr : Type := mkV6 {
  s0 : N; s1 : N; s2 : N; s3 : N; s4 : N; s5 : N; s6 : N; s7 : N
}.

Inductive IpAddr : Type :=
| V4 (v4 : Ipv4Addr)
| V6 (v6 : Ipv6Addr).

(** [Ipv6Addr::octets]. *)
Definition segment_octets (s : N) : list N := [N.shiftr s 8; N.land s 255].
Definition v6_octets (a : Ipv6Addr) : list N :=
  segment_octets (s0 a) ++ segment_octets (s1 a) ++ segment_octets (s2 a) ++ segment_octets (s3 a)
  ++ segment_octets (s4 a) ++ segment_octets (s5 a) ++ segment_octets (s6 a) ++ segment_octets (s7 a).

Definition is_loopback (a : Ipv4Addr) : bool := o0 a =? 127.
Definition is_private (a : Ipv4Addr) : bool :=
  (o0 a =? 10)
  || (o0 a =? 172) && (16 <=? o1 a) && (o1 a <=? 31)
  || (o0 a =? 192) && (o1 a =? 168).
Definition is_link_local (a : Ipv4Addr) : bool := (o0 a =? 169) && (o1 a =? 254).
Definition is_broadcast (a : Ipv4Addr) : bool :=
  (o0 a =? 255) && (o1 a =? 255) && (o2 a =? 255) && (o3 a =? 255).

(** [Ipv6Addr::to_ipv4]: IPv4-compatible and IPv4-mapped addresses. *)
Definition to_ipv4 (a : Ipv6Addr) : option Ipv4Addr :=
  if (s0 a =? 0) && (s1 a =? 0) && (s2 a =? 0) && (s3 a =? 0) && (s4 a =? 0)
     && ((s5 a =? 0) || (s5 a =? 65535))
  then Some (mkV4 (N.shiftr (s6 a) 8) (N.land (s6 a) 255) (N.shiftr (s7 a) 8) (N.land (s7 a) 255))
  else None.

Definition v6_is_loopback (a : Ipv6Addr) : bool :=
  (s0 a =? 0) && (s1 a =? 0) && (s2 a =? 0) && (s3 a =? 0) && (s4 a =? 0) && (s5 a =? 0) && (s6 a =? 0)
  && (s7 a =? 1).
Definition v6_is_unspecified (a : Ipv6Addr) : bool :=
  (s0 a =? 0) && (s1 a =? 0) && (s2 a =? 0) && (s3 a =? 0) && (s4 a =? 0) && (s5 a =? 0) && (s6 a =? 0)
  && (s7 a =? 0).

(** ** The check *)

Definition NAT64_WELL_KNOWN_PREFIX : list N := [0x00; 0x64; 0xff; 0x9b; 0; 0; 0; 0; 0; 0; 0; 0].
Definition IPV4_TRANSLATED_PREFIX : list N := [0; 0; 0; 0; 0; 0; 0; 0; 0xff; 0xff; 0; 0].

(** [octets.starts_with(prefix)]. *)
Definition starts_with (octets prefix : list N) : bool := bool_decide (take (length prefix) octets = prefix).

Definition embedded_ipv4 (v6 : Ipv6Addr) (prefix : list N) : option Ipv4Addr :=
  let octets := v6_octets v6 in
  if starts_with octets prefix then
    Some (mkV4 (nth 12 octets 0) (nth 13 octets 0) (nth 14 octets 0) (nth 15 octets 0))
  else None.

Definition v4_is_not_global (o : Ipv4Addr) : bool :=
  is_loopback o
  || is_private o
  || is_link_local o
  || (o0 o =? 0)
  || is_broadcast o
  || (o0 o =? 100) && (N.land (o1 o) 0xC0 =? 64)
  || (o0 o =? 198) && (N.land (o1 o) 0xFE =? 18)
  || (N.land (o0 o) 0xF0 =? 0xE0)
  || (N.land (o0 o) 0xF0 =? 0xF0)
  || (o0 o =? 192) && (o1 o =? 0) && (o2 o =? 0) && negb (o3 o =? 9) && negb (o3 o =? 10)
  || (o0 o =? 192) && (o1 o =? 0) && (o2 o =? 2)
  || (o0 o =? 192) && (o1 o =? 88) && (o2 o =? 99)
  || (o0 o =? 198) && (o1 o =? 51) && (o2 o =? 100)
  || (o0 o =? 203) && (o1 o =? 0) && (o2 o =? 113).

(** The exceptions inside 2001::/23. *)
Definition is_global_exception (a : Ipv6Addr) : bool :=
  (s1 a =? 1) && (s2 a =? 0) && (s3 a =? 0) && (s4 a =? 0) && (s5 a =? 0) && (s6 a =? 0)
    && ((1 <=? s7 a) && (s7 a <=? 3))
  || (s1 a =? 3)
  || (s1 a =? 4) && (s2 a =? 0x0112)
  || (N.shiftr (s1 a) 4 =? 2)
  || (N.shiftr (s1 a) 4 =? 3).

Definition is_not_global_unicast (ip : IpAddr) : bool :=
  match ip with
  | V4 v4 => v4_is_not_global v4
  | V6 v6 =>
      match to_ipv4 v6 with
      | Some v4 => v4_is_not_global v4
      | None =>
      match embedded_ipv4 v6 NAT64_WELL_KNOWN_PREFIX with
      | Some v4 => v4_is_not_global v4
      | None =>
      match embedded_ipv4 v6 IPV4_TRANSLATED_PREFIX with
      | Some v4 => v4_is_not_global v4
      | None =>
          if v6_is_loopback v6 || v6_is_unspecified v6 then true
          else if (s0 v6 =? 0x2001) && (N.shiftr (s1 v6) 9 =? 0) && negb (is_global_exception v6) then true
          else
            (N.land (s0 v6) 0xfe00 =? 0xfc00)
            || (N.land (s0 v6) 0xffc0 =? 0xfe80)
            || (N.land (s0 v6) 0xffc0 =? 0xfec0)
            || (N.land (s0 v6) 0xff00 =? 0xff00)
            || (s0 v6 =? 0x0064) && (s1 v6 =? 0xff9b) && (s2 v6 =? 1)
            || (s0 v6 =? 0x0100) && (s1 v6 =? 0) && (s2 v6 =? 0) && (s3 v6 =? 0)
            || (s0 v6 =? 0x0100) && (s1 v6 =? 0) && (s2 v6 =? 0) && (s3 v6 =? 1)
            || (s0 v6 =? 0x2001) && (s1 v6 =? 0x0db8)
            || (s0 v6 =? 0x2002)
            || (s0 v6 =? 0x3fff) && (N.shiftr (s1 v6) 12 =? 0)
            || (s0 v6 =? 0x5f00)
      end end end
  end.

Definition is_private_ip (ip : IpAddr) : bool := is_not_global_unicast ip.

(** ** The address blocks *)

(** The value of an address, and its width. *)
Definition v4_bits (a : Ipv4Addr) : N := ((o0 a * 256 + o1 a) * 256 + o2 a) * 256 + o3 a.
Definition v6_bits (a : Ipv6Addr) : N :=
  ((((((s0 a * 65536 + s1 a) * 65536 + s2 a) * 65536 + s3 a) * 65536 + s4 a) * 65536 + s5 a) * 65536
    + s6 a) * 65536 + s7 a.

(** The block of the addresses of width [w] that agree with [base] on the first
[len] bits. *)
Definition in_block (w base len : N) (a : N) : bool := a / 2 ^ (w - len) =? base / 2 ^ (w - len).

Definition v4 (a b c d : N) : N := v4_bits (mkV4 a b c d).
Definition v6 (a b c d e f g h : N) : N := v6_bits (mkV6 a b c d e f g h).

Definition special_v4 : list (N * N) :=
  [ (v4 0 0 0 0, 8);            (* this network *)
    (v4 10 0 0 0, 8);           (* private *)
    (v4 100 64 0 0, 10);        (* shared address space *)
    (v4 127 0 0 0, 8);          (* loopback *)
    (v4 169 254 0 0, 16);       (* link local *)
    (v4 172 16 0 0, 12);        (* private *)
    (v4 192 0 0 0, 24);         (* IETF protocol assignments *)
    (v4 192 0 2 0, 24);         (* TEST-NET-1 *)
    (v4 192 88 99 0, 24);       (* 6to4 relay anycast *)
    (v4 192 168 0 0, 16);       (* private *)
    (v4 198 18 0 0, 15);        (* benchmarking *)
    (v4 198 51 100 0, 24);      (* TEST-NET-2 *)
    (v4 203 0 113 0, 24);       (* TEST-NET-3 *)
    (v4 224 0 0 0, 4);          (* multicast *)
    (v4 240 0 0 0, 4) ].        (* reserved, with the broadcast address *)

(** Globally reachable inside a special block. *)
Definition global_v4 : list (N * N) := [ (v4 192 0 0 9, 32); (v4 192 0 0 10, 32) ].

Definition special_v6 : list (N * N) :=
  [ (v6 0x64 0xff9b 1 0 0 0 0 0, 48);     (* local-use NAT64 *)
    (v6 0x100 0 0 0 0 0 0 0, 64);         (* discard only *)
    (v6 0x100 0 0 1 0 0 0 0, 64);         (* dummy prefix *)
    (v6 0x2001 0 0 0 0 0 0 0, 23);        (* IETF protocol assignments *)
    (v6 0x2001 0xdb8 0 0 0 0 0 0, 32);    (* documentation *)
    (v6 0x2002 0 0 0 0 0 0 0, 16);        (* 6to4 *)
    (v6 0x3fff 0 0 0 0 0 0 0, 20);        (* documentation *)
    (v6 0x5f00 0 0 0 0 0 0 0, 16);        (* SRv6 SIDs *)
    (v6 0xfc00 0 0 0 0 0 0 0, 7);         (* unique local *)
    (v6 0xfe80 0 0 0 0 0 0 0, 10);        (* link local *)
    (v6 0xfec0 0 0 0 0 0 0 0, 10);        (* site local *)
    (v6 0xff00 0 0 0 0 0 0 0, 8) ].       (* multicast *)

Definition global_v6 : list (N * N) :=
  [ (v6 0x2001 1 0 0 0 0 0 1, 128); (v6 0x2001 1 0 0 0 0 0 2, 128); (v6 0x2001 1 0 0 0 0 0 3, 128);
    (v6 0x2001 3 0 0 0 0 0 0, 32); (v6 0x2001 4 0x112 0 0 0 0 0, 48);
    (v6 0x2001 0x20 0 0 0 0 0 0, 28); (v6 0x2001 0x30 0 0 0 0 0 0, 28) ].

(** The blocks that carry an IPv4 address in their last 32 bits: compatible,
mapped, translated, NAT64. *)
Definition carries_v4 : list (N * N) :=
  [ (v6 0 0 0 0 0 0 0 0, 96); (v6 0 0 0 0 0 0xffff 0 0, 96); (v6 0 0 0 0 0xffff 0 0 0, 96);
    (v6 0x64 0xff9b 0 0 0 0 0 0, 96) ].

Definition in_blocks (w : N) (blocks : list (N * N)) (a : N) : bool :=
  existsb (λ b, in_block w b.1 b.2 a) blocks.

Definition special4 (a : N) : bool := in_blocks 32 special_v4 a && negb (in_blocks 32 global_v4 a).

Definition special6 (a : N) : bool :=
  if in_blocks 128 carries_v4 a then special4 (a mod 4294967296)
  else in_blocks 128 special_v6 a && negb (in_blocks 128 global_v6 a).

Definition special (ip : IpAddr) : bool :=
  match ip with
  | V4 a => special4 (v4_bits a)
  | V6 a => special6 (v6_bits a)
  end.

(** Octets below 2^8, segments below 2^16. *)
Definition octet (n : N) : Prop := n < 256.
Definition segment (n : N) : Prop := n < 65536.
Definition v4_ok (a : Ipv4Addr) : Prop := octet (o0 a) ∧ octet (o1 a) ∧ octet (o2 a) ∧ octet (o3 a).
Definition v6_ok (a : Ipv6Addr) : Prop :=
  segment (s0 a) ∧ segment (s1 a) ∧ segment (s2 a) ∧ segment (s3 a) ∧ segment (s4 a) ∧ segment (s5 a)
  ∧ segment (s6 a) ∧ segment (s7 a).
Definition ip_ok (ip : IpAddr) : Prop :=
  match ip with
  | V4 a => v4_ok a
  | V6 a => v6_ok a
  end.

(** ** Bit tests as ranges, checked on every value of the width *)

Fixpoint all_below (w : nat) (f : N → bool) : bool :=
  match w with
  | O => f 0
  | S w => all_below w (λ n, f (2 * n)) && all_below w (λ n, f (2 * n + 1))
  end.

Lemma all_below_spec w f : all_below w f = true → ∀ n, n < 2 ^ N.of_nat w → f n = true.
Proof.
  revert f. induction w as [|w IH]; intros f; cbn [all_below].
  { intros Hf n Hn. change (2 ^ N.of_nat 0) with 1 in Hn. by replace n with 0 by lia. }
  intros [H0 H1]%andb_true_iff n Hn. rewrite Nat2N.inj_succ, N.pow_succ_r' in Hn.
  destruct (N.Even_or_Odd n) as [[m ->]|[m ->]]; [apply (IH _ H0)|apply (IH _ H1)]; lia.
Qed.

(** Two tests of one octet or segment that agree on all its values. *)
Lemma octet_tests (f g : N → bool) n :
  octet n → all_below 8 (λ n, Bool.eqb (f n) (g n)) = true → f n = g n.
Proof. intros Hn Hall. by apply eqb_prop, (all_below_spec 8 _ Hall). Qed.

Lemma segment_tests (f g : N → bool) n :
  segment n → all_below 16 (λ n, Bool.eqb (f n) (g n)) = true → f n = g n.
Proof. intros Hn Hall. by apply eqb_prop, (all_below_spec 16 _ Hall). Qed.

(** Close [L = R], two tests of [n], by [lem] and evaluation. *)
Ltac test_values lem n :=
  match goal with
  | |- ?L = ?R =>
      let L' := eval pattern n in L in
      let R' := eval pattern n in R in
      match L' with ?f _ => match R' with ?g _ => apply (lem f g n); [assumption|vm_compute; reflexivity] end end
  end.

(** The quotient of a value by a power of its radix. *)
Lemma radix_eqb r x y c d :
  y < r → d < r → ((x * r + y =? c * r + d) = (x =? c) && (y =? d)).
Proof.
  intros Hy Hd. apply eq_true_iff_eq. rewrite andb_true_iff, !N.eqb_eq. split; [|by intros [-> ->]].
  intros H. assert (x = c) as ->; [|split; lia].
  apply (f_equal (λ n, n / r)) in H. rewrite !(N.add_comm (_ * _)), !N.div_add, !N.div_small in H by lia. lia.
Qed.

Lemma radix_div r x y : y < r → (x * r + y) / r = x.
Proof. intros Hy. rewrite N.add_comm, N.div_add, N.div_small by lia. lia. Qed.

(** The same, cut inside the last digit. *)
Lemma radix_cut w k x y c d :
  k <= w → y < 2 ^ w → d < 2 ^ w →
  ((x * 2 ^ w + y) / 2 ^ k =? (c * 2 ^ w + d) / 2 ^ k) = (x =? c) && (y / 2 ^ k =? d / 2 ^ k).
Proof.
  intros Hk Hy Hd. assert (2 ^ k ≠ 0) as Hk0 by (by apply N.pow_nonzero).
  assert (2 ^ w = 2 ^ (w - k) * 2 ^ k) as Hw.
  { rewrite <-N.pow_add_r. f_equal. lia. }
  assert (∀ u v, (u * 2 ^ w + v) / 2 ^ k = u * 2 ^ (w - k) + v / 2 ^ k) as Hdiv.
  { intros u v. rewrite Hw, N.mul_assoc, N.add_comm, N.div_add by done. lia. }
  rewrite !Hdiv. apply radix_eqb; apply N.Div0.div_lt_upper_bound; by rewrite N.mul_comm, <-Hw.
Qed.

(** ** IPv4 blocks *)

Section v4_blocks.
Context (a : Ipv4Addr) (Ha : v4_ok a).

(** What is left of an address after dropping whole octets. *)
Lemma v4_prefix8 : v4_bits a / 2 ^ (32 - 8) = o0 a.
Proof.
  destruct Ha as (H0 & H1 & H2 & H3). unfold octet, v4_bits in *. change (2 ^ (32 - 8)) with (256 * (256 * 256)).
  rewrite <-!N.Div0.div_div, !radix_div by done. done.
Qed.
Lemma v4_prefix16 : v4_bits a / 2 ^ (32 - 16) = o0 a * 256 + o1 a.
Proof.
  destruct Ha as (H0 & H1 & H2 & H3). unfold octet, v4_bits in *. change (2 ^ (32 - 16)) with (256 * 256).
  rewrite <-!N.Div0.div_div, !radix_div by done. done.
Qed.
Lemma v4_prefix24 : v4_bits a / 2 ^ (32 - 24) = (o0 a * 256 + o1 a) * 256 + o2 a.
Proof. destruct Ha as (H0 & H1 & H2 & H3). unfold octet, v4_bits in *. by apply radix_div. Qed.

(** A shorter prefix is a prefix of a longer one. *)
Lemma prefix_of_prefix w len k x : k <= len → len <= w → x / 2 ^ (w - k) = x / 2 ^ (w - len) / 2 ^ (len - k).
Proof. intros Hk Hl. rewrite N.Div0.div_div, <-N.pow_add_r. do 2 f_equal. lia. Qed.
End v4_blocks.

Lemma block8 a x : v4_ok a → octet x → in_block 32 (v4 x 0 0 0) 8 (v4_bits a) = (o0 a =? x).
Proof. intros Ha Hx. unfold in_block, v4. by rewrite !v4_prefix8. Qed.

Lemma block16 a x y :
  v4_ok a → octet x → octet y → in_block 32 (v4 x y 0 0) 16 (v4_bits a) = (o0 a =? x) && (o1 a =? y).
Proof.
  intros Ha Hx Hy. unfold in_block, v4. rewrite !v4_prefix16 by done. apply radix_eqb; [apply Ha|done].
Qed.

Lemma block24 a x y z :
  v4_ok a → octet x → octet y → octet z →
  in_block 32 (v4 x y z 0) 24 (v4_bits a) = (o0 a =? x) && (o1 a =? y) && (o2 a =? z).
Proof.
  intros Ha Hx Hy Hz. unfold in_block, v4. rewrite !v4_prefix24 by done. cbn [o0 o1 o2].
  rewrite radix_eqb by (done || apply Ha). by rewrite radix_eqb by (done || apply Ha).
Qed.

Lemma block32 a x y z t :
  v4_ok a → octet x → octet y → octet z → octet t →
  in_block 32 (v4 x y z t) 32 (v4_bits a) = (o0 a =? x) && (o1 a =? y) && (o2 a =? z) && (o3 a =? t).
Proof.
  intros Ha Hx Hy Hz Ht. unfold in_block, v4. change (2 ^ (32 - 32)) with 1. rewrite !N.div_1_r.
  unfold v4_bits. cbn [o0 o1 o2 o3]. by rewrite !radix_eqb by (done || apply Ha).
Qed.

(** A block cut inside the second octet, or the first. *)
Lemma block_in_second a x y len :
  v4_ok a → octet x → octet y → 8 <= len → len <= 16 →
  in_block 32 (v4 x y 0 0) len (v4_bits a)
  = (o0 a =? x) && (o1 a / 2 ^ (16 - len) =? y / 2 ^ (16 - len)).
Proof.
  intros Ha Hx Hy Hl8 Hl16. unfold in_block, v4.
  rewrite !(prefix_of_prefix 32 16 len) by lia. rewrite !v4_prefix16 by done. cbn [o0 o1].
  apply (radix_cut 8); [lia|apply Ha|done].
Qed.

Lemma block4 a x : v4_ok a → octet x → in_block 32 (v4 x 0 0 0) 4 (v4_bits a) = (o0 a / 16 =? x / 16).
Proof.
  intros Ha Hx. unfold in_block, v4. rewrite !(prefix_of_prefix 32 8 4) by lia. by rewrite !v4_prefix8.
Qed.

Lemma v4_is_not_global_special a : v4_ok a → v4_is_not_global a = special4 (v4_bits a).
Proof.
  intros Ha. pose proof Ha as (H0 & H1 & H2 & H3).
  unfold special4, in_blocks, special_v4, global_v4. cbn [existsb fst snd].
  rewrite !block8, !block24, !block32, !block4 by done.
  rewrite (block16 a 169 254), (block16 a 192 168) by done.
  rewrite (block_in_second a 100 64 10), (block_in_second a 172 16 12), (block_in_second a 198 18 15) by done.
  change (2 ^ (16 - 10)) with 64. change (2 ^ (16 - 12)) with 16. change (2 ^ (16 - 15)) with 2.
  change (64 / 64) with 1. change (16 / 16) with 1. change (18 / 2) with 9. change (224 / 16) with 14. change (240 / 16) with 15.
  unfold v4_is_not_global, is_loopback, is_private, is_link_local, is_broadcast.
  replace (N.land (o1 a) 0xC0 =? 64) with (o1 a / 64 =? 1) by test_values octet_tests (o1 a).
  replace (N.land (o1 a) 0xFE =? 18) with (o1 a / 2 =? 9) by test_values octet_tests (o1 a).
  replace (N.land (o0 a) 0xF0 =? 0xE0) with (o0 a / 16 =? 14) by test_values octet_tests (o0 a).
  replace (N.land (o0 a) 0xF0 =? 0xF0) with (o0 a / 16 =? 15) by test_values octet_tests (o0 a).
  rewrite <-(andb_assoc (o0 a =? 172)).
  replace ((16 <=? o1 a) && (o1 a <=? 31)) with (o1 a / 16 =? 1) by test_values octet_tests (o1 a).
  destruct ((o0 a =? 192) && (o1 a =? 0) && (o2 a =? 0)) eqn:Hietf.
  - apply andb_true_iff in Hietf as [[->%N.eqb_eq ->%N.eqb_eq]%andb_true_iff ->%N.eqb_eq]. cbn.
    by destruct (o3 a =? 9), (o3 a =? 10).
  - cbn [andb negb]. rewrite andb_true_r, !orb_false_r.
    destruct (o0 a / 16 =? 15) eqn:Hreserved; [by rewrite !orb_true_r|].
    assert ((o0 a =? 255) = false) as ->.
    { destruct (N.eqb_spec (o0 a) 255) as [E|]; [|done]. by rewrite E in Hreserved. }
    cbn [andb]. rewrite !orb_false_r.
    clear. btauto.
Qed.

(** ** IPv6 blocks *)

(** The value of the first segments. *)
Definition seg1 (a : Ipv6Addr) : N := s0 a.
Definition seg2 (a : Ipv6Addr) : N := seg1 a * 65536 + s1 a.
Definition seg3 (a : Ipv6Addr) : N := seg2 a * 65536 + s2 a.
Definition seg4 (a : Ipv6Addr) : N := seg3 a * 65536 + s3 a.
Definition seg6 (a : Ipv6Addr) : N := (seg4 a * 65536 + s4 a) * 65536 + s5 a.

Lemma v6_prefixes a :
  v6_ok a →
  v6_bits a / 2 ^ (128 - 16) = seg1 a ∧ v6_bits a / 2 ^ (128 - 32) = seg2 a
  ∧ v6_bits a / 2 ^ (128 - 48) = seg3 a ∧ v6_bits a / 2 ^ (128 - 64) = seg4 a
  ∧ v6_bits a / 2 ^ (128 - 96) = seg6 a.
Proof.
  intros (H0 & H1 & H2 & H3 & H4 & H5 & H6 & H7). unfold segment, v6_bits in *.
  change (2 ^ (128 - 96)) with (65536 * 65536).
  change (2 ^ (128 - 64)) with (65536 * (65536 * (65536 * 65536))).
  change (2 ^ (128 - 48)) with (65536 * (65536 * (65536 * (65536 * 65536)))).
  change (2 ^ (128 - 32)) with (65536 * (65536 * (65536 * (65536 * (65536 * 65536))))).
  change (2 ^ (128 - 16)) with (65536 * (65536 * (65536 * (65536 * (65536 * (65536 * 65536)))))).
  rewrite <-!N.Div0.div_div, !radix_div by done. done.
Qed.

Section v6_blocks.
Context (a : Ipv6Addr) (Ha : v6_ok a).

Lemma block16_v6 x : segment x → in_block 128 (v6 x 0 0 0 0 0 0 0) 16 (v6_bits a) = (s0 a =? x).
Proof.
  intros Hx. unfold in_block, v6. destruct (v6_prefixes a Ha) as (-> & _).
  by destruct (v6_prefixes (mkV6 x 0 0 0 0 0 0 0)) as (-> & _).
Qed.

Lemma block32_v6 x y :
  segment x → segment y → in_block 128 (v6 x y 0 0 0 0 0 0) 32 (v6_bits a) = (s0 a =? x) && (s1 a =? y).
Proof.
  intros Hx Hy. unfold in_block, v6. destruct (v6_prefixes a Ha) as (_ & -> & _).
  destruct (v6_prefixes (mkV6 x y 0 0 0 0 0 0)) as (_ & -> & _); [done|].
  unfold seg2. apply radix_eqb; [apply Ha|done].
Qed.

Lemma block48_v6 x y z :
  segment x → segment y → segment z →
  in_block 128 (v6 x y z 0 0 0 0 0) 48 (v6_bits a) = (s0 a =? x) && (s1 a =? y) && (s2 a =? z).
Proof.
  intros Hx Hy Hz. unfold in_block, v6. destruct (v6_prefixes a Ha) as (_ & _ & -> & _).
  destruct (v6_prefixes (mkV6 x y z 0 0 0 0 0)) as (_ & _ & -> & _); [done|].
  unfold seg3, seg2. by rewrite !radix_eqb by (done || apply Ha).
Qed.

Lemma block64_v6 x y z t :
  segment x → segment y → segment z → segment t →
  in_block 128 (v6 x y z t 0 0 0 0) 64 (v6_bits a) = (s0 a =? x) && (s1 a =? y) && (s2 a =? z) && (s3 a =? t).
Proof.
  intros Hx Hy Hz Ht. unfold in_block, v6. destruct (v6_prefixes a Ha) as (_ & _ & _ & -> & _).
  destruct (v6_prefixes (mkV6 x y z t 0 0 0 0)) as (_ & _ & _ & -> & _); [done|].
  unfold seg4, seg3, seg2. by rewrite !radix_eqb by (done || apply Ha).
Qed.

Lemma block96_v6 x y z t u v :
  segment x → segment y → segment z → segment t → segment u → segment v →
  in_block 128 (v6 x y z t u v 0 0) 96 (v6_bits a)
  = (s0 a =? x) && (s1 a =? y) && (s2 a =? z) && (s3 a =? t) && (s4 a =? u) && (s5 a =? v).
Proof.
  intros Hx Hy Hz Ht Hu Hv. unfold in_block, v6. destruct (v6_prefixes a Ha) as (_ & _ & _ & _ & ->).
  destruct (v6_prefixes (mkV6 x y z t u v 0 0)) as (_ & _ & _ & _ & ->); [done|].
  unfold seg6, seg4, seg3, seg2. by rewrite !radix_eqb by (done || apply Ha).
Qed.

Lemma block128_v6 x y z t u v p q :
  v6_ok (mkV6 x y z t u v p q) →
  in_block 128 (v6 x y z t u v p q) 128 (v6_bits a)
  = (s0 a =? x) && (s1 a =? y) && (s2 a =? z) && (s3 a =? t) && (s4 a =? u) && (s5 a =? v) && (s6 a =? p) && (s7 a =? q).
Proof.
  intros Hq. unfold in_block, v6. change (2 ^ (128 - 128)) with 1. rewrite !N.div_1_r.
  unfold v6_bits. by rewrite !radix_eqb by (apply Ha || apply Hq).
Qed.

(** Cut inside the first or the second segment. *)
Lemma block_in_first_v6 x len :
  segment x → len <= 16 →
  in_block 128 (v6 x 0 0 0 0 0 0 0) len (v6_bits a) = (s0 a / 2 ^ (16 - len) =? x / 2 ^ (16 - len)).
Proof.
  intros Hx Hl. unfold in_block, v6. rewrite !(prefix_of_prefix 128 16 len) by lia.
  destruct (v6_prefixes a Ha) as (-> & _).
  by destruct (v6_prefixes (mkV6 x 0 0 0 0 0 0 0)) as (-> & _).
Qed.

Lemma block_in_second_v6 x y len :
  segment x → segment y → 16 <= len → len <= 32 →
  in_block 128 (v6 x y 0 0 0 0 0 0) len (v6_bits a)
  = (s0 a =? x) && (s1 a / 2 ^ (32 - len) =? y / 2 ^ (32 - len)).
Proof.
  intros Hx Hy Hl16 Hl32. unfold in_block, v6. rewrite !(prefix_of_prefix 128 32 len) by lia.
  destruct (v6_prefixes a Ha) as (_ & -> & _).
  destruct (v6_prefixes (mkV6 x y 0 0 0 0 0 0)) as (_ & -> & _); [done|]. unfold seg2, seg1. cbn [s0 s1].
  apply (radix_cut 16); [lia|apply Ha|done].
Qed.
End v6_blocks.

(** ** Embedded addresses *)

Lemma segment_halves s : N.shiftr s 8 * 256 + N.land s 255 = s.
Proof.
  rewrite N.shiftr_div_pow2. change 255 with (N.ones 8). rewrite N.land_ones. change (2 ^ 8) with 256.
  rewrite N.mul_comm. symmetry. by apply N.div_mod.
Qed.

Lemma halves_inj s t : N.shiftr s 8 = N.shiftr t 8 → N.land s 255 = N.land t 255 → s = t.
Proof. intros H1 H2. by rewrite <-(segment_halves s), H1, H2, segment_halves. Qed.

Lemma halves_octets s : segment s → octet (N.shiftr s 8) ∧ octet (N.land s 255).
Proof.
  unfold segment, octet. intros Hs. rewrite N.shiftr_div_pow2. change 255 with (N.ones 8). rewrite N.land_ones.
  change (2 ^ 8) with 256. split; [|by apply N.mod_lt]. apply N.Div0.div_lt_upper_bound. lia.
Qed.

Lemma starts_with_segments a x y z t u v :
  starts_with (v6_octets a)
    (segment_octets x ++ segment_octets y ++ segment_octets z ++ segment_octets t ++ segment_octets u ++ segment_octets v)
  = (s0 a =? x) && (s1 a =? y) && (s2 a =? z) && (s3 a =? t) && (s4 a =? u) && (s5 a =? v).
Proof.
  unfold starts_with, v6_octets, segment_octets. cbn [app length take]. apply eq_true_iff_eq.
  rewrite bool_decide_eq_true, !andb_true_iff, !N.eqb_eq. split.
  - intros H. injection H as H0 H0' H1 H1' H2 H2' H3 H3' H4 H4' H5 H5'. split_and!; by apply halves_inj.
  - by intros [[[[[-> ->] ->] ->] ->] ->].
Qed.

(** The address in the last 32 bits. *)
Lemma last_32_bits a :
  v6_ok a →
  let v := mkV4 (N.shiftr (s6 a) 8) (N.land (s6 a) 255) (N.shiftr (s7 a) 8) (N.land (s7 a) 255) in
  v4_ok v ∧ v4_bits v = v6_bits a mod 4294967296.
Proof.
  intros Ha. pose proof Ha as (_ & _ & _ & _ & _ & _ & H6 & H7).
  destruct (halves_octets _ H6), (halves_octets _ H7). split; [done|].
  unfold v4_bits. cbn [o0 o1 o2 o3]. rewrite segment_halves.
  unfold segment in *.
  assert (∀ x y z, y < 65536 → z < 65536 → ((x * 65536 + y) * 65536 + z) mod 4294967296 = y * 65536 + z) as Hmod.
  { intros x y z Hy Hz. replace ((x * 65536 + y) * 65536 + z) with (y * 65536 + z + x * 4294967296) by lia.
    rewrite N.Div0.mod_add. apply N.mod_small. lia. }
  unfold v6_bits. rewrite Hmod by done.
  pose proof (segment_halves (s7 a)). lia.
Qed.

Lemma embedded_special a x y z t u v :
  v6_ok a →
  let prefix := segment_octets x ++ segment_octets y ++ segment_octets z ++ segment_octets t ++ segment_octets u ++ segment_octets v in
  match embedded_ipv4 a prefix with
  | Some v4 => (s0 a =? x) && (s1 a =? y) && (s2 a =? z) && (s3 a =? t) && (s4 a =? u) && (s5 a =? v) = true
      ∧ v4_is_not_global v4 = special4 (v6_bits a mod 4294967296)
  | None => (s0 a =? x) && (s1 a =? y) && (s2 a =? z) && (s3 a =? t) && (s4 a =? u) && (s5 a =? v) = false
  end.
Proof.
  intros Ha. unfold embedded_ipv4. cbv zeta. rewrite (starts_with_segments a x y z t u v).
  destruct (_ && _) eqn:E; [|done]. split; [done|].
  destruct (last_32_bits a Ha) as [Hok <-]. by apply v4_is_not_global_special.
Qed.

(** ** The check decides the table *)

(** Outside the blocks that carry an IPv4 address. *)
Lemma v6_rest a :
  v6_ok a →
  (if (s0 a =? 0x2001) && (N.shiftr (s1 a) 9 =? 0) && negb (is_global_exception a) then true
   else
    (N.land (s0 a) 0xfe00 =? 0xfc00)
    || (N.land (s0 a) 0xffc0 =? 0xfe80)
    || (N.land (s0 a) 0xffc0 =? 0xfec0)
    || (N.land (s0 a) 0xff00 =? 0xff00)
    || (s0 a =? 0x0064) && (s1 a =? 0xff9b) && (s2 a =? 1)
    || (s0 a =? 0x0100) && (s1 a =? 0) && (s2 a =? 0) && (s3 a =? 0)
    || (s0 a =? 0x0100) && (s1 a =? 0) && (s2 a =? 0) && (s3 a =? 1)
    || (s0 a =? 0x2001) && (s1 a =? 0x0db8)
    || (s0 a =? 0x2002)
    || (s0 a =? 0x3fff) && (N.shiftr (s1 a) 12 =? 0)
    || (s0 a =? 0x5f00))
  = in_blocks 128 special_v6 (v6_bits a) && negb (in_blocks 128 global_v6 (v6_bits a)).
Proof.
  intros Ha. pose proof Ha as (H0 & H1 & H2 & H3 & H4 & H5 & H6 & H7).
  unfold in_blocks, special_v6, global_v6. cbn [existsb fst snd].
  rewrite !block48_v6, !block64_v6, !block32_v6, !block16_v6, !block128_v6 by done.
  rewrite (block_in_second_v6 a Ha 0x2001 0 23), (block_in_second_v6 a Ha 0x3fff 0 20),
    (block_in_second_v6 a Ha 0x2001 0x20 28), (block_in_second_v6 a Ha 0x2001 0x30 28) by done.
  rewrite (block_in_first_v6 a Ha 0xfc00 7), (block_in_first_v6 a Ha 0xfe80 10),
    (block_in_first_v6 a Ha 0xfec0 10), (block_in_first_v6 a Ha 0xff00 8) by done.
  replace (N.land (s0 a) 0xfe00 =? 0xfc00) with (s0 a / 2 ^ (16 - 7) =? 0xfc00 / 2 ^ (16 - 7))
    by test_values segment_tests (s0 a).
  replace (N.land (s0 a) 0xffc0 =? 0xfe80) with (s0 a / 2 ^ (16 - 10) =? 0xfe80 / 2 ^ (16 - 10))
    by test_values segment_tests (s0 a).
  replace (N.land (s0 a) 0xffc0 =? 0xfec0) with (s0 a / 2 ^ (16 - 10) =? 0xfec0 / 2 ^ (16 - 10))
    by test_values segment_tests (s0 a).
  replace (N.land (s0 a) 0xff00 =? 0xff00) with (s0 a / 2 ^ (16 - 8) =? 0xff00 / 2 ^ (16 - 8))
    by test_values segment_tests (s0 a).
  unfold is_global_exception.
  replace (N.shiftr (s1 a) 9 =? 0) with (s1 a / 2 ^ (32 - 23) =? 0 / 2 ^ (32 - 23)) by test_values segment_tests (s1 a).
  replace (N.shiftr (s1 a) 12 =? 0) with (s1 a / 2 ^ (32 - 20) =? 0 / 2 ^ (32 - 20)) by test_values segment_tests (s1 a).
  replace (N.shiftr (s1 a) 4 =? 2) with (s1 a / 2 ^ (32 - 28) =? 0x20 / 2 ^ (32 - 28)) by test_values segment_tests (s1 a).
  replace (N.shiftr (s1 a) 4 =? 3) with (s1 a / 2 ^ (32 - 28) =? 0x30 / 2 ^ (32 - 28)) by test_values segment_tests (s1 a).
  replace ((1 <=? s7 a) && (s7 a <=? 3)) with ((s7 a =? 1) || (s7 a =? 2) || (s7 a =? 3))
    by test_values segment_tests (s7 a).
  match goal with |- (if ?b then true else ?c) = ?d => change (b || c = d) end.
  destruct (s0 a =? 0x2001) eqn:E0; [|clear -E0; btauto].
  apply N.eqb_eq in E0. rewrite E0.
  assert ((0x2001 / 2 ^ (16 - 7) =? 0xfc00 / 2 ^ (16 - 7)) = false) as -> by done.
  assert ((0x2001 / 2 ^ (16 - 10) =? 0xfe80 / 2 ^ (16 - 10)) = false) as -> by done.
  assert ((0x2001 / 2 ^ (16 - 10) =? 0xfec0 / 2 ^ (16 - 10)) = false) as -> by done.
  assert ((0x2001 / 2 ^ (16 - 8) =? 0xff00 / 2 ^ (16 - 8)) = false) as -> by done.
  destruct (s1 a =? 0xdb8) eqn:E1; [apply N.eqb_eq in E1; by rewrite E1|].
  assert (∀ x, x ≠ 0x2001 → (0x2001 =? x) = false) as Hne by (intros x Hx; apply N.eqb_neq; congruence).
  rewrite !Hne by done. clear. btauto.
Qed.

(** The bit tests are the address tables.  For every IPv4 and every IPv6
address, the check rejects it exactly when it lies in one of the special-purpose
blocks and in none of the globally reachable blocks inside them; an IPv6
address that carries an IPv4 address (compatible, mapped, translated or NAT64)
is judged by the address it carries, so no internal IPv4 address can be reached
through an IPv6 wrapper. *)
Theorem is_not_global_unicast_correct (ip : IpAddr) : ip_ok ip → is_not_global_unicast ip = special ip.
Proof.
  destruct ip as [a|a]; intros Ha; [by apply v4_is_not_global_special|]. cbn [special]. unfold special6.
  assert (in_blocks 128 carries_v4 (v6_bits a)
    = (s0 a =? 0) && (s1 a =? 0) && (s2 a =? 0) && (s3 a =? 0) && (s4 a =? 0) && ((s5 a =? 0) || (s5 a =? 65535))
      || (s0 a =? 0x64) && (s1 a =? 0xff9b) && (s2 a =? 0) && (s3 a =? 0) && (s4 a =? 0) && (s5 a =? 0)
      || (s0 a =? 0) && (s1 a =? 0) && (s2 a =? 0) && (s3 a =? 0) && (s4 a =? 65535) && (s5 a =? 0)) as ->.
  { unfold in_blocks, carries_v4. cbn [existsb fst snd]. rewrite !block96_v6 by done. clear. btauto. }
  unfold is_not_global_unicast, to_ipv4.
  destruct ((s0 a =? 0) && (s1 a =? 0) && (s2 a =? 0) && (s3 a =? 0) && (s4 a =? 0) && ((s5 a =? 0) || (s5 a =? 65535)))
    eqn:Ecompat; cbn [orb].
  { destruct (last_32_bits a Ha) as [Hok <-]. by apply v4_is_not_global_special. }
  pose proof (embedded_special a 0x64 0xff9b 0 0 0 0 Ha) as Hnat.
  cbv zeta in Hnat.
  change (segment_octets 0x64 ++ segment_octets 0xff9b ++ segment_octets 0 ++ segment_octets 0 ++ segment_octets 0 ++ segment_octets 0)
    with NAT64_WELL_KNOWN_PREFIX in Hnat.
  destruct (embedded_ipv4 a NAT64_WELL_KNOWN_PREFIX) as [v|]; [by destruct Hnat as [-> ->]|rewrite Hnat; cbn [orb]].
  pose proof (embedded_special a 0 0 0 0 0xffff 0 Ha) as Htrans.
  cbv zeta in Htrans.
  change (segment_octets 0 ++ segment_octets 0 ++ segment_octets 0 ++ segment_octets 0 ++ segment_octets 0xffff ++ segment_octets 0)
    with IPV4_TRANSLATED_PREFIX in Htrans.
  destruct (embedded_ipv4 a IPV4_TRANSLATED_PREFIX) as [v|]; [by destruct Htrans as [-> ->]|rewrite Htrans].
  assert (v6_is_loopback a || v6_is_unspecified a = false) as ->.
  { unfold v6_is_loopback, v6_is_unspecified. destruct (s5 a =? 0); cbn [andb orb] in *; [|by rewrite !andb_false_r].
    rewrite andb_true_r in Ecompat. by rewrite Ecompat. }
  by apply v6_rest.
Qed.

Lemma is_not_global_unicast_correct_witness :
  is_not_global_unicast (V6 (mkV6 0x64 0xff9b 0 0 0 0 0x0a00 1)) = true
  ∧ is_not_global_unicast (V4 (mkV4 8 8 8 8)) = false.
Proof.
  split.
  - rewrite (is_not_global_unicast_correct (V6 (mkV6 0x64 0xff9b 0 0 0 0 0x0a00 1))); [vm_compute; reflexivity|].
    repeat split.
  - rewrite (is_not_global_unicast_correct (V4 (mkV4 8 8 8 8))); [vm_compute; reflexivity|]. repeat split.
Defined.
