(* ===== verification/Roles.v ===== *)
(** * Roles: channel enums and the role hierarchy

Models [crates/buzz-core/src/channel.rs]: [ChannelVisibility], [ChannelType]
and [MemberRole], their wire names ([as_str], [FromStr]) and the permission
levels that every authorization check of the system compares.  The error
text of a failed parse carries the offending word, so the model returns that
word as the error. *)
From S2P Require Import Prelude Text.

(** ** [ChannelVisibility] *)

Inductive ChannelVisibility : Type := Open | Private.

Definition visibility_as_str (v : ChannelVisibility) : string :=
  match v with
  | Open => "open"
  | Private => "private"
  end.

Definition visibility_from_str (s : string) : result ChannelVisibility string :=
  if decide (s = "open") then Ok Open
  else if decide (s = "private") then Ok Private
  else Err s.

(** ** [ChannelType] *)

Inductive ChannelType : Type := Stream | Forum | Dm | Workflow.

Definition channel_type_as_str (t : ChannelType) : string :=
  match t with
  | Stream => "stream"
  | Forum => "forum"
  | Dm => "dm"
  | Workflow => "workflow"
  end.

Definition channel_type_from_str (s : string) : result ChannelType string :=
  if decide (s = "stream") then Ok Stream
  else if decide (s = "forum") then Ok Forum
  else if decide (s = "dm") then Ok Dm
  else if decide (s = "workflow") then Ok Workflow
  else Err s.

(** ** [MemberRole] *)

Inductive MemberRole : Type := Owner | Admin | Member | Guest | Bot.

#[export] Instance MemberRole_eq_dec : EqDecision MemberRole.
Proof. solve_decision. Defined.

Definition as_str (r : MemberRole) : string :=
  match r with
  | Owner => "owner"
  | Admin => "admin"
  | Member => "member"
  | Guest => "guest"
  | Bot => "bot"
  end.

Definition is_elevated (r : MemberRole) : bool :=
  match r with
  | Owner | Admin => true
  | _ => false
  end.

(** A [u8]. *)
Definition permission_level (r : MemberRole) : N :=
  match r with
  | Owner => 4
  | Admin => 3
  | Member => 2
  | Guest => 1
  | Bot => 0
  end.

Definition has_at_least (self required : MemberRole) : bool :=
  (permission_level required <=? permission_level self)%N.

Definition role_from_str (s : string) : result MemberRole string :=
  if decide (s = "owner") then Ok Owner
  else if decide (s = "admin") then Ok Admin
  else if decide (s = "member") then Ok Member
  else if decide (s = "guest") then Ok Guest
  else if decide (s = "bot") then Ok Bot
  else Err s.

(** ** Lemmas *)

Lemma permission_level_inj (r1 r2 : MemberRole) :
  permission_level r1 = permission_level r2 → r1 = r2.
Proof. by destruct r1, r2. Qed.

Lemma role_from_str_as_str (r : MemberRole) : role_from_str (as_str r) = Ok r.
Proof. by destruct r. Qed.

Lemma role_from_str_Ok (s : string) (r : MemberRole) :
  role_from_str s = Ok r ↔ s = as_str r.
Proof.
  unfold role_from_str. split.
  - repeat case_decide; intros [= <-]; done.
  - intros ->. by destruct r.
Qed.

Lemma has_at_least_spec (self required : MemberRole) :
  has_at_least self required = true ↔ (permission_level required <= permission_level self)%N.
Proof. apply N.leb_le. Qed.

#[export] Hint Rewrite role_from_str_as_str : buzz.
#[export] Hint Rewrite has_at_least_spec role_from_str_Ok : buzz.
