(* ===== verification/GitPerms.v ===== *)
(** * GitPerms: ref patterns, protection rules and push policy

Models [crates/buzz-core/src/git_perms.rs].  A push is decided in three steps,
each an operation of the source: [parse_protection_tags] turns the
[buzz-protect] tags of a repository announcement into rules, [for_ref] unions
the rules whose pattern matches the ref, and [evaluate_push] checks every ref
update against the union and the pusher's role.

[RefPattern::matches] holds two [unreachable!()] arms; the model answers
[None] when one is reached, so that "the policy never panics" is a theorem
([matches_total]) and not an assumption of the definitions. *)
From S2P Require Import Prelude Text Roles.

(** ** Ref patterns *)

Definition MAX_PROTECTION_RULES : nat := 50.
Definition MAX_PATTERN_LENGTH : nat := 256.
Definition MAX_WILDCARDS_PER_PATTERN : nat := 3.

Inductive PatternSegment : Type :=
| Literal (s : string)
| Wildcard
| RecursiveWildcard.

#[export] Instance PatternSegment_eq_dec : EqDecision PatternSegment.
Proof. solve_decision. Defined.

Record RefPattern : Type := mkRefPattern { raw : string; segments : list PatternSegment }.

Inductive PatternError : Type :=
| Empty
| TooLong
| MissingRefsPrefix
| InvalidSegment (s : string)
| TooManyWildcards.

(** The last two tests of the segment loop of [parse]. *)
Definition is_partial_glob (part : string) : bool :=
  contains_char "*" part || contains_char "?" part
  || contains_char "[" part || contains_char "]" part.

Definition is_literal_char (c : ascii) : bool :=
  is_ascii_alphanumeric c || Ascii.eqb c "." || Ascii.eqb c "_" || Ascii.eqb c "-".

(** The body of the segment loop of [parse]: [i] is the index of the part and
[n] the number of parts. *)
Fixpoint parse_parts (n i wildcard_count : nat) (parts : list string)
  : result (list PatternSegment) PatternError :=
  match parts with
  | [] => Ok []
  | part :: parts' =>
      if decide (part = "**") then
        if negb (i =? n - 1) then Err (InvalidSegment "** must be the last segment")
        else if MAX_WILDCARDS_PER_PATTERN <? S wildcard_count then Err TooManyWildcards
        else let? segs := parse_parts n (S i) (S wildcard_count) parts' in
             Ok (RecursiveWildcard :: segs)
      else if decide (part = "*") then
        if MAX_WILDCARDS_PER_PATTERN <? S wildcard_count then Err TooManyWildcards
        else let? segs := parse_parts n (S i) (S wildcard_count) parts' in
             Ok (Wildcard :: segs)
      else if decide (part = "") then Err (InvalidSegment "")
      else if is_partial_glob part then Err (InvalidSegment part)
      else if negb (string_forall is_literal_char part) then Err (InvalidSegment part)
      else let? segs := parse_parts n (S i) wildcard_count parts' in
           Ok (Literal part :: segs)
  end.

(** [RefPattern::parse]. *)
Definition parse (pattern : string) : result RefPattern PatternError :=
  if decide (pattern = "") then Err Empty
  else if MAX_PATTERN_LENGTH <? String.length pattern then Err TooLong
  else if negb (starts_with "refs/" pattern) then Err MissingRefsPrefix
  else
    let parts := split_on "/" pattern in
    let? segs := parse_parts (length parts) 0 0 parts in
    Ok {| raw := pattern; segments := segs |}.

(** The [zip(..).all(..)] of [matches]; [None] is the [unreachable!()] arm. *)
Fixpoint zip_all (pats : list PatternSegment) (segs : list string) : option bool :=
  match pats, segs with
  | pat :: pats', seg :: segs' =>
      match pat with
      | Wildcard => zip_all pats' segs'
      | Literal lit => if decide (lit = seg) then zip_all pats' segs' else Some false
      | RecursiveWildcard => None
      end
  | _, _ => Some true
  end.

(** [RefPattern::matches]. *)
Definition matches (p : RefPattern) (ref_name : string) : option bool :=
  let ref_segments := split_on "/" ref_name in
  match last (segments p) with
  | Some RecursiveWildcard =>
      let prefix_len := length (segments p) - 1 in
      if length ref_segments <=? prefix_len then Some false
      else zip_all (take prefix_len (segments p)) (take prefix_len ref_segments)
  | _ =>
      if negb (length ref_segments =? length (segments p)) then Some false
      else zip_all (segments p) ref_segments
  end.

(** ** Ref updates *)

Inductive UpdateKind : Type := Create | FastForward | NonFastForward | Delete.

#[export] Instance UpdateKind_eq_dec : EqDecision UpdateKind.
Proof. solve_decision. Defined.

Definition ZERO_OID : string := "0000000000000000000000000000000000000000".

Definition classify (old_oid new_oid : string) (is_ancestor : bool) : UpdateKind :=
  if decide (old_oid = ZERO_OID) then Create
  else if decide (new_oid = ZERO_OID) then Delete
  else if is_ancestor then FastForward
  else NonFastForward.

Record RefUpdate : Type := mkRefUpdate {
  ref_name : string;
  kind : UpdateKind;
  old_oid : string;
  new_oid : string
}.

(** ** Protection rules *)

Record ProtectionRule : Type := mkProtectionRule {
  pattern : RefPattern;
  push_role : option MemberRole;
  no_force_push : bool;
  no_delete : bool;
  require_patch : bool
}.

Inductive RuleParseError : Type :=
| TooFewValues
| TooManyRules
| InvalidPattern (e : PatternError)
| UnknownRule (r : string)
| InvalidRole (r : string).

(** The strictest of the role seen so far and a new one: the inline
[Some(match push_role ...)] of both the tag parser and [for_ref]. *)
Definition strictest (push_role : option MemberRole) (role : MemberRole) : option MemberRole :=
  Some match push_role with
       | None => role
       | Some existing =>
           if (permission_level existing <? permission_level role)%N then role else existing
       end.

(** The mutable locals of the rule loop of the tag parser. *)
Record RuleLocals : Type := mkRuleLocals {
  l_push_role : option MemberRole;
  l_no_force_push : bool;
  l_no_delete : bool;
  l_require_patch : bool;
  l_unknown_rules : list string
}.

(** One turn of the rule loop. *)
Definition parse_rule (l : RuleLocals) (rule_str : string) : result RuleLocals RuleParseError :=
  let 'mkRuleLocals pr nf nd rp unknown := l in
  match strip_prefix "push:" rule_str with
  | Some role_str =>
      let? role := map_err (λ _, InvalidRole role_str) (role_from_str role_str) in
      match role with
      | Bot | Guest => Err (InvalidRole role_str)
      | _ => Ok (mkRuleLocals (strictest pr role) nf nd rp unknown)
      end
  | None =>
      Ok (if decide (rule_str = "no-force-push") then mkRuleLocals pr true nd rp unknown
          else if decide (rule_str = "no-delete") then mkRuleLocals pr nf true rp unknown
          else if decide (rule_str = "require-patch") then mkRuleLocals pr nf nd true unknown
          else mkRuleLocals pr nf nd rp (unknown ++ [rule_str]))
  end.

Fixpoint parse_rules (l : RuleLocals) (rule_strs : list string) : result RuleLocals RuleParseError :=
  match rule_strs with
  | [] => Ok l
  | r :: rs => let? l' := parse_rule l r in parse_rules l' rs
  end.

Definition parse_protection_tag_with_warnings (values : list string)
  : result (ProtectionRule * list string) RuleParseError :=
  match values with
  | v0 :: ((_ :: _) as rule_strs) =>
      let? pat := map_err InvalidPattern (parse v0) in
      let? l := parse_rules (mkRuleLocals None false false false []) rule_strs in
      Ok ({| pattern := pat;
             push_role := l_push_role l;
             no_force_push := l_no_force_push l;
             no_delete := l_no_delete l;
             require_patch := l_require_patch l |}, l_unknown_rules l)
  | _ => Err TooFewValues
  end.

Definition parse_protection_tag (values : list string) : result ProtectionRule RuleParseError :=
  let? p := parse_protection_tag_with_warnings values in Ok p.1.

Record ParsedProtection : Type := mkParsedProtection {
  rules : list ProtectionRule;
  unknown_rules : list string
}.

(** The tag loop of [parse_protection_tags] with its two accumulators. *)
Fixpoint parse_tags_from (acc : ParsedProtection) (tags : list (list string))
  : result ParsedProtection RuleParseError :=
  match tags with
  | [] => Ok acc
  | tag :: tags' =>
      match tag with
      | name :: values =>
          if decide (name = "buzz-protect") then
            if MAX_PROTECTION_RULES <=? length (rules acc) then Err TooManyRules
            else
              let? p := parse_protection_tag_with_warnings values in
              parse_tags_from
                {| rules := rules acc ++ [p.1];
                   unknown_rules := unknown_rules acc ++ p.2 |} tags'
          else parse_tags_from acc tags'
      | [] => parse_tags_from acc tags'
      end
  end.

Definition parse_protection_tags (tags : list (list string))
  : result ParsedProtection RuleParseError :=
  parse_tags_from {| rules := []; unknown_rules := [] |} tags.

(** ** Policy evaluation *)

Definition default_min_role (ref_name : string) (kind : UpdateKind) : MemberRole :=
  let is_branch := starts_with "refs/heads/" ref_name in
  let is_tag := starts_with "refs/tags/" ref_name in
  match kind with
  | Create => if is_branch || is_tag then Member else Admin
  | FastForward => if is_branch then Member else if is_tag then Admin else Admin
  | NonFastForward => Admin
  | Delete => Admin
  end.

Record EffectiveRules : Type := mkEffectiveRules {
  e_push_role : option MemberRole;
  e_no_force_push : bool;
  e_no_delete : bool;
  e_require_patch : bool;
  has_explicit_match : bool
}.

(** One turn of the rule loop of [EffectiveRules::for_ref]. *)
Definition union_rule (e : EffectiveRules) (rule : ProtectionRule) : EffectiveRules :=
  {| e_push_role :=
       match push_role rule with
       | Some role => strictest (e_push_role e) role
       | None => e_push_role e
       end;
     e_no_force_push := e_no_force_push e || no_force_push rule;
     e_no_delete := e_no_delete e || no_delete rule;
     e_require_patch := e_require_patch e || require_patch rule;
     has_explicit_match := true |}.

Fixpoint for_ref_from (e : EffectiveRules) (ref_name : string) (rs : list ProtectionRule)
  : option EffectiveRules :=
  match rs with
  | [] => Some e
  | rule :: rs' =>
      m ← matches (pattern rule) ref_name;
      if negb m then for_ref_from e ref_name rs'
      else for_ref_from (union_rule e rule) ref_name rs'
  end.

Definition for_ref (ref_name : string) (rs : list ProtectionRule) : option EffectiveRules :=
  for_ref_from (mkEffectiveRules None false false false false) ref_name rs.

Record Denial : Type := mkDenial { d_ref_name : string; reason : string }.

(** The role a ref with explicit rules demands: the higher of the explicit
role and the built-in default. *)
Definition required_role (explicit : option MemberRole) (default_role : MemberRole) : MemberRole :=
  match explicit with
  | Some explicit =>
      if (permission_level default_role <=? permission_level explicit)%N
      then explicit else default_role
  | None => default_role
  end.

Definition evaluate_ref_update (update : RefUpdate) (role : MemberRole) (rs : list ProtectionRule)
  : option (result unit Denial) :=
  effective ← for_ref (ref_name update) rs;
  let deny reason := Some (Err {| d_ref_name := ref_name update; reason := reason |}) in
  if negb (has_explicit_match effective) then
    let min_role := default_min_role (ref_name update) (kind update) in
    if negb (has_at_least role min_role) then
      deny ("requires " +:+ as_str min_role +:+ " role (you have " +:+ as_str role
            +:+ "), using built-in defaults")
    else Some (Ok tt)
  else if e_require_patch effective then
    deny "direct push denied: require-patch is set, submit a NIP-34 patch"
  else
    let default_role := default_min_role (ref_name update) (kind update) in
    let min_role := required_role (e_push_role effective) default_role in
    if negb (has_at_least role min_role) then
      deny ("requires " +:+ as_str min_role +:+ " role (you have " +:+ as_str role +:+ ")")
    else if e_no_force_push effective && bool_decide (kind update = NonFastForward) then
      deny "non-fast-forward update denied: no-force-push is set"
    else if e_no_delete effective && bool_decide (kind update = Delete) then
      deny "ref deletion denied: no-delete is set"
    else Some (Ok tt).

(** The [filter_map(..err()).collect()] of [evaluate_push]. *)
Fixpoint collect_denials (updates : list RefUpdate) (role : MemberRole) (rs : list ProtectionRule)
  : option (list Denial) :=
  match updates with
  | [] => Some []
  | u :: us =>
      r ← evaluate_ref_update u role rs;
      ds ← collect_denials us role rs;
      Some match err_of r with
           | Some d => d :: ds
           | None => ds
           end
  end.

Definition evaluate_push (updates : list RefUpdate) (role : MemberRole) (rs : list ProtectionRule)
  : option (result unit (list Denial)) :=
  denials ← collect_denials updates role rs;
  Some (if decide (length denials = 0) then Ok tt else Err denials).

(** ** Specification: what a pattern means *)

(** Segment-wise matching, as a relation. *)
Inductive seg_match : list PatternSegment → list string → Prop :=
| match_nil : seg_match [] []
| match_literal lit pats segs :
    seg_match pats segs → seg_match (Literal lit :: pats) (lit :: segs)
| match_wildcard seg pats segs :
    seg_match pats segs → seg_match (Wildcard :: pats) (seg :: segs)
| match_recursive seg segs : seg_match [RecursiveWildcard] (seg :: segs).

Definition render (s : PatternSegment) : string :=
  match s with
  | Literal lit => lit
  | Wildcard => "*"
  | RecursiveWildcard => "**"
  end.

Definition literal_ok (s : PatternSegment) : Prop :=
  match s with
  | Literal lit => lit ≠ "" ∧ string_forall is_literal_char lit = true
  | _ => True
  end.

(** The recursive wildcard occurs at the last place only. *)
Fixpoint recursive_last (segs : list PatternSegment) : Prop :=
  match segs with
  | [] => True
  | [_] => True
  | s :: segs' => s ≠ RecursiveWildcard ∧ recursive_last segs'
  end.

Definition wild_count (segs : list PatternSegment) : nat :=
  length (filter (λ s, s = Wildcard ∨ s = RecursiveWildcard) segs).

Record segments_wf (segs : list PatternSegment) : Prop := {
  wf_literals : Forall literal_ok segs;
  wf_recursive : recursive_last segs;
  wf_wildcards : wild_count segs ≤ MAX_WILDCARDS_PER_PATTERN
}.

Definition rule_wf (rule : ProtectionRule) : Prop := segments_wf (segments (pattern rule)).

(** The rule's pattern covers the ref. *)
Definition applies (ref : string) (rule : ProtectionRule) : Prop :=
  seg_match (segments (pattern rule)) (split_on "/" ref).

Definition role_level (r : option MemberRole) : N :=
  match r with
  | None => 0
  | Some r => permission_level r
  end.

(** What one applicable rule demands of an update by a pusher. *)
Record rule_allows (u : RefUpdate) (role : MemberRole) (rule : ProtectionRule) : Prop := {
  allows_patch : require_patch rule = false;
  allows_role : (role_level (push_role rule) <= permission_level role)%N;
  allows_force : no_force_push rule = true → kind u ≠ NonFastForward;
  allows_delete : no_delete rule = true → kind u ≠ Delete
}.

(** ** Lemmas: parsing *)

Lemma literal_excludes lit c :
  literal_ok (Literal lit) → is_literal_char c = false → contains_char c lit = false.
Proof. intros [_ Hall]. by apply string_forall_excludes. Qed.

Lemma literal_not_partial_glob lit : literal_ok (Literal lit) → is_partial_glob lit = false.
Proof.
  intros Hl. unfold is_partial_glob.
  by rewrite !(literal_excludes lit) by done.
Qed.

Lemma literal_not_star lit : literal_ok (Literal lit) → lit ≠ "*" ∧ lit ≠ "**".
Proof. by intros [_ Hall]; split; intros ->. Qed.

Lemma wild_count_cons s segs :
  wild_count (s :: segs)
  = (if decide (s = Wildcard ∨ s = RecursiveWildcard) then 1 else 0) + wild_count segs.
Proof. unfold wild_count. rewrite filter_cons. by case_decide. Qed.

Lemma parse_parts_Ok n i w parts segs :
  n = i + length parts → w ≤ MAX_WILDCARDS_PER_PATTERN →
  parse_parts n i w parts = Ok segs ↔
  parts = render <$> segs ∧ Forall literal_ok segs ∧ recursive_last segs
  ∧ w + wild_count segs ≤ MAX_WILDCARDS_PER_PATTERN.
Proof.
  revert i w segs. induction parts as [|part parts IH]; intros i w segs Hn Hw; simpl.
  { split.
    - intros [= <-]. repeat split; try done. unfold wild_count. simpl. lia.
    - by intros (Hp & _); destruct segs. }
  assert (Hstep : ∀ x w' ys, w' ≤ MAX_WILDCARDS_PER_PATTERN →
    result_bind (parse_parts n (S i) w' parts) (λ segs, Ok (x :: segs)) = Ok ys ↔
    ∃ segs, ys = x :: segs ∧ parts = render <$> segs ∧ Forall literal_ok segs
      ∧ recursive_last segs ∧ w' + wild_count segs ≤ MAX_WILDCARDS_PER_PATTERN).
  { intros x w' ys Hw'. rewrite result_bind_Ok.
    setoid_rewrite IH; [|simpl in *; lia|done]. naive_solver. }
  split.
  - repeat (case_decide; [subst part|]); repeat (case_match; try done); try discriminate;
      rewrite ?Nat.ltb_ge, ?negb_false_iff, ?Nat.eqb_eq in *;
      (rewrite Hstep by lia); intros (segs' & -> & -> & Hl & Hr & Hc);
      rewrite wild_count_cons; rewrite length_fmap in *.
    + assert (segs' = []) as -> by (destruct segs'; simpl in *; [done|lia]).
      split_and!; [done|by repeat constructor|done|case_decide; lia].
    + split_and!; [done|by constructor|by destruct segs'|case_decide; lia].
    + split_and!; [done|by constructor|by destruct segs'|].
      rewrite decide_False; [done|naive_solver].
  - intros (Hp & Hl & Hr & Hc). destruct segs as [|s segs]; [done|].
    rewrite fmap_cons in Hp. injection Hp as -> ->.
    apply Forall_cons in Hl as [Hs Hl]. rewrite wild_count_cons in Hc.
    assert (Hr' : recursive_last segs) by (destruct segs; simpl in *; naive_solver).
    destruct s as [lit| |]; unfold render.
    + destruct (literal_not_star lit Hs) as [? ?]. destruct (Hs) as [Hne Hall].
      rewrite !decide_False by done. rewrite literal_not_partial_glob by done.
      rewrite Hall. apply Hstep; [done|]. exists segs. split_and!; try done; lia.
    + rewrite (decide_True _ _ (or_introl eq_refl)) in Hc.
      rewrite decide_False, decide_True by done.
      rewrite (proj2 (Nat.ltb_ge _ _)) by lia. apply Hstep; [lia|].
      exists segs. split_and!; try done; lia.
    + rewrite (decide_True _ _ (or_intror eq_refl)) in Hc.
      assert (segs = []) as -> by (destruct segs; [done|by destruct Hr]).
      rewrite decide_True by done.
      rewrite (proj2 (Nat.eqb_eq _ _)) by (simpl in *; lia).
      rewrite (proj2 (Nat.ltb_ge _ _)) by lia. apply Hstep; [lia|].
      exists []. split_and!; try done; lia.
Qed.

Lemma parse_Ok (s : string) (p : RefPattern) :
  parse s = Ok p ↔
  raw p = s ∧ split_on "/" s = render <$> segments p ∧ segments_wf (segments p)
  ∧ String.length s ≤ MAX_PATTERN_LENGTH ∧ starts_with "refs/" s = true.
Proof.
  unfold parse. destruct (decide (s = "")) as [->|Hs]; [naive_solver|].
  destruct (_ <? _) eqn:Hlen; [apply Nat.ltb_lt in Hlen; naive_solver lia|].
  apply Nat.ltb_ge in Hlen.
  destruct (starts_with "refs/" s) eqn:Hpre; simpl; [|naive_solver].
  rewrite result_bind_Ok. setoid_rewrite parse_parts_Ok; [|done|unfold MAX_WILDCARDS_PER_PATTERN; lia].
  destruct p as [rw segs]; simpl. split.
  - intros (segs' & (Hp & Hl & Hr & Hc) & [= <- <-]). by split_and!.
  - intros (<- & Hp & [Hl Hr Hc] & _ & _). exists segs. by split_and!.
Qed.

Lemma parse_segments_nonempty (s : string) (p : RefPattern) :
  split_on "/" s = render <$> segments p → segments p ≠ [].
Proof. intros Hp Hnil. rewrite Hnil in Hp. by apply (split_on_nonempty "/" s). Qed.

(** ** Lemmas: matching *)

Lemma recursive_last_snoc pre x :
  recursive_last (pre ++ [x]) → Forall (.≠ RecursiveWildcard) pre.
Proof.
  induction pre as [|y pre IH]; simpl; [constructor|].
  destruct (pre ++ [x]) eqn:E; [by destruct pre|].
  rewrite <-E in *. intros [? ?]. constructor; auto.
Qed.

Lemma zip_all_spec pats segs :
  Forall (.≠ RecursiveWildcard) pats → length pats = length segs →
  ∃ b, zip_all pats segs = Some b ∧ (b = true ↔ seg_match pats segs).
Proof.
  intros Hall. revert segs. induction Hall as [|pat pats Hpat Hall IH]; intros segs Hlen.
  - destruct segs; [|done]. exists true. split; [done|]. split; [by constructor|done].
  - destruct segs as [|seg segs]; [done|]. injection Hlen as Hlen.
    destruct (IH segs Hlen) as (b & Hb & Hbs).
    destruct pat as [lit| |]; simpl; [| |done].
    + case_decide as Hd.
      * subst. exists b. rewrite Hb, Hbs. split; [done|].
        split; [by constructor|by inversion 1].
      * exists false. split; [done|]. split; [done|]. inversion 1; naive_solver.
    + exists b. rewrite Hb, Hbs. split; [done|]. split; [by constructor|by inversion 1].
Qed.

Lemma seg_match_length pats segs :
  Forall (.≠ RecursiveWildcard) pats → seg_match pats segs → length pats = length segs.
Proof.
  intros Hall Hm. revert Hall. induction Hm; intros Hall; try apply Forall_cons in Hall as [? ?]; simpl; auto.
  done.
Qed.

Lemma seg_match_recursive_app pre segs :
  Forall (.≠ RecursiveWildcard) pre →
  seg_match (pre ++ [RecursiveWildcard]) segs ↔
  length pre < length segs ∧ seg_match pre (take (length pre) segs).
Proof.
  intros Hall. revert segs. induction Hall as [|pat pre Hpat Hall IH]; intros segs; simpl.
  - split.
    + inversion 1; subst; simpl. split; [lia|constructor].
    + intros [Hl _]. destruct segs as [|seg segs]; simpl in *; [lia|constructor].
  - split.
    + inversion 1 as [|? ? ? Hm|? ? ? Hm|]; subst; try (by destruct pre);
        apply IH in Hm as [? ?]; simpl; (split; [lia|by constructor]).
    + destruct segs as [|seg segs]; simpl; [lia|]. intros [Hl Hm].
      inversion Hm; subst; try done; constructor; apply IH; (split; [lia|done]).
Qed.

Lemma matches_total_spec (p : RefPattern) (ref : string) :
  segments_wf (segments p) →
  ∃ b, matches p ref = Some b ∧ (b = true ↔ seg_match (segments p) (split_on "/" ref)).
Proof.
  intros [_ Hr _]. unfold matches. set (rs := split_on "/" ref).
  destruct (segments p) as [|x pre _] eqn:E using rev_ind.
  { simpl. subst rs. destruct (split_on "/" ref) eqn:E'; [by apply split_on_nonempty in E'|].
    exists false. split; [done|]. split; [done|inversion 1]. }
  apply recursive_last_snoc in Hr. rewrite last_snoc, length_app, Nat.add_sub. simpl.
  destruct (decide (x = RecursiveWildcard)) as [->|Hx].
  - rewrite take_app_length. destruct (_ <=? _) eqn:Hlen.
    + apply Nat.leb_le in Hlen. exists false. split; [done|]. split; [done|].
      rewrite seg_match_recursive_app by done. lia.
    + apply Nat.leb_gt in Hlen.
      destruct (zip_all_spec pre (take (length pre) rs)) as (b & -> & Hb);
        [done|rewrite length_take; lia|].
      exists b. rewrite Hb, seg_match_recursive_app by done. naive_solver.
  - assert (Hall : Forall (.≠ RecursiveWildcard) (pre ++ [x])).
    { apply Forall_app; split; [done|by repeat constructor]. }
    enough (∃ b, (if negb (length rs =? length pre + 1) then Some false
      else zip_all (pre ++ [x]) rs) = Some b ∧ (b = true ↔ seg_match (pre ++ [x]) rs))
      by (by destruct x).
    destruct (_ =? _) eqn:Hlen; simpl.
    + apply Nat.eqb_eq in Hlen. apply zip_all_spec; [done|]. rewrite length_app. simpl. lia.
    + apply Nat.eqb_neq in Hlen. exists false. split; [done|]. split; [done|].
      intros Hm%seg_match_length; [|done]. rewrite length_app in Hm. simpl in *. lia.
Qed.

(** ** Lemmas: the union of the matching rules *)

Lemma strictest_level pr role :
  role_level (strictest pr role) = N.max (role_level pr) (permission_level role).
Proof.
  unfold strictest. destruct pr as [r|]; simpl; [|lia].
  destruct (_ <? _)%N eqn:E; [apply N.ltb_lt in E|apply N.ltb_ge in E]; lia.
Qed.

Lemma required_role_level explicit d :
  permission_level (required_role explicit d) = N.max (role_level explicit) (permission_level d).
Proof.
  destruct explicit as [r|]; simpl; [|lia].
  destruct (_ <=? _)%N eqn:E; [apply N.leb_le in E|apply N.leb_gt in E]; lia.
Qed.

(** What [for_ref] computes, field by field. *)
Record union_of (e0 : EffectiveRules) (ref : string) (rs : list ProtectionRule)
    (e : EffectiveRules) : Prop := {
  union_explicit :
    has_explicit_match e = true ↔ has_explicit_match e0 = true ∨ ∃ r, r ∈ rs ∧ applies ref r;
  union_force :
    e_no_force_push e = true ↔
    e_no_force_push e0 = true ∨ ∃ r, r ∈ rs ∧ applies ref r ∧ no_force_push r = true;
  union_delete :
    e_no_delete e = true ↔
    e_no_delete e0 = true ∨ ∃ r, r ∈ rs ∧ applies ref r ∧ no_delete r = true;
  union_patch :
    e_require_patch e = true ↔
    e_require_patch e0 = true ∨ ∃ r, r ∈ rs ∧ applies ref r ∧ require_patch r = true;
  union_role : ∀ n, (role_level (e_push_role e) <= n)%N ↔
    (role_level (e_push_role e0) <= n)%N ∧
    ∀ r, r ∈ rs → applies ref r → (role_level (push_role r) <= n)%N
}.

Lemma union_rule_level e r :
  role_level (e_push_role (union_rule e r))
  = N.max (role_level (e_push_role e)) (role_level (push_role r)).
Proof. simpl. destruct (push_role r); simpl; [apply strictest_level|lia]. Qed.

Lemma for_ref_from_union e0 ref rs :
  Forall rule_wf rs → ∃ e, for_ref_from e0 ref rs = Some e ∧ union_of e0 ref rs e.
Proof.
  intros Hwf. revert e0. induction Hwf as [|r rs Hr Hwf IH]; intros e0; simpl.
  - exists e0. split; [done|]. split; try intros n; set_solver.
  - destruct (matches_total_spec (pattern r) ref Hr) as (b & -> & Hb). simpl.
    fold (applies ref r) in Hb. destruct b; simpl.
    + destruct (IH (union_rule e0 r)) as (e & -> & [H1 H2 H3 H4 H5]).
      exists e. split; [done|]. assert (Ha : applies ref r) by by apply Hb.
      split; [rewrite H1|rewrite H2|rewrite H3|rewrite H4|intros n; rewrite H5, union_rule_level];
        rewrite ?exists_elem_of_cons, ?forall_elem_of_cons; simpl; rewrite ?orb_true_iff;
        [tauto..|].
      rewrite N.max_lub_iff. tauto.
    + destruct (IH e0) as (e & -> & [H1 H2 H3 H4 H5]). exists e. split; [done|].
      assert (Ha : ¬ applies ref r) by by rewrite <-Hb.
      split; [rewrite H1|rewrite H2|rewrite H3|rewrite H4|intros n; rewrite H5];
        rewrite ?exists_elem_of_cons, ?forall_elem_of_cons; tauto.
Qed.

Lemma for_ref_union ref rs :
  Forall rule_wf rs →
  ∃ e, for_ref ref rs = Some e ∧ union_of (mkEffectiveRules None false false false false) ref rs e.
Proof. apply for_ref_from_union. Qed.

(** ** Lemmas: the decision on one ref *)

(** The decision, as a predicate: the built-in default holds, and every rule
covering the ref allows the update. *)
Definition allowed (u : RefUpdate) (role : MemberRole) (rs : list ProtectionRule) : Prop :=
  has_at_least role (default_min_role (ref_name u) (kind u)) = true
  ∧ ∀ r, r ∈ rs → applies (ref_name u) r → rule_allows u role r.

Lemma flag_false (b : bool) (rs : list ProtectionRule) (P : ProtectionRule → Prop)
    (g : ProtectionRule → bool) :
  (b = true ↔ false = true ∨ ∃ r, r ∈ rs ∧ P r ∧ g r = true) →
  b = false ↔ ∀ r, r ∈ rs → P r → g r = false.
Proof.
  intros Hb. rewrite <-not_true_iff_false, Hb. split.
  - intros Hn r Hr HP. apply not_true_iff_false. intros Hg. apply Hn. right. by exists r.
  - intros Hall [?|(r & Hr & HP & Hg)]; [done|]. specialize (Hall r Hr HP). congruence.
Qed.

(** [allowed] in terms of the unioned rules. *)
Lemma allowed_union u role rs e :
  union_of (mkEffectiveRules None false false false false) (ref_name u) rs e →
  allowed u role rs ↔
  has_at_least role (required_role (e_push_role e) (default_min_role (ref_name u) (kind u))) = true
  ∧ e_require_patch e = false
  ∧ (e_no_force_push e = false ∨ kind u ≠ NonFastForward)
  ∧ (e_no_delete e = false ∨ kind u ≠ Delete).
Proof.
  intros [_ H2%flag_false H3%flag_false H4%flag_false H5].
  unfold allowed. rewrite !has_at_least_spec, required_role_level, N.max_lub_iff, H5, H4, H3, H2.
  assert (Hflag : ∀ (g : ProtectionRule → bool) (k : UpdateKind),
    (∀ r, r ∈ rs → applies (ref_name u) r → g r = true → kind u ≠ k) ↔
    (∀ r, r ∈ rs → applies (ref_name u) r → g r = false) ∨ kind u ≠ k).
  { intros g k. destruct (decide (kind u = k)) as [Hk|Hk]; [|naive_solver].
    split.
    - intros Hall. left. intros r Hr Ha. apply not_true_is_false. intros Hg. by apply (Hall r).
    - intros [Hall|?] r Hr Ha Hg; [|done]. specialize (Hall r Hr Ha). congruence. }
  rewrite <-!Hflag. split.
  - intros [Hd Hall]. split_and!; [simpl; lia| |done|..];
      intros r Hr Ha; by destruct (Hall r Hr Ha).
  - intros ([[_ Hr] Hd] & Hp & Hf & Hdel). split; [done|]. intros r Hin Ha. split; eauto.
Qed.

Lemma allowed_no_match u role rs :
  (∀ r, r ∈ rs → ¬ applies (ref_name u) r) →
  allowed u role rs ↔ has_at_least role (default_min_role (ref_name u) (kind u)) = true.
Proof.
  intros Hno. split; [by intros [? _]|]. intros Hd. split; [done|].
  intros r Hr Ha. by destruct (Hno r Hr).
Qed.

Lemma evaluate_ref_update_spec u role rs :
  Forall rule_wf rs →
  ∃ res, evaluate_ref_update u role rs = Some res ∧ (res = Ok tt ↔ allowed u role rs)
    ∧ ∀ d, res = Err d → d_ref_name d = ref_name u.
Proof.
  intros Hwf. unfold evaluate_ref_update.
  destruct (for_ref_union (ref_name u) rs Hwf) as (e & -> & Hu). simpl.
  destruct (has_explicit_match e) eqn:Hex; simpl.
  - setoid_rewrite (allowed_union _ _ _ e Hu).
    destruct (e_require_patch e); [eexists; split_and!; [done| |by intros ? [= <-]]; naive_solver|].
    destruct (has_at_least _ _); simpl; [|eexists; split_and!; [done| |by intros ? [= <-]]; naive_solver].
    destruct (e_no_force_push e), (e_no_delete e); simpl; repeat case_bool_decide;
      (eexists; split_and!; [done| |by intros ? [= <-]]); naive_solver.
  - assert (Hno : ∀ r, r ∈ rs → ¬ applies (ref_name u) r).
    { intros r Hr Ha. destruct Hu as [Hx _ _ _ _]. rewrite Hex in Hx.
      enough (false = true) by done. apply Hx. right. by exists r. }
    setoid_rewrite (allowed_no_match u role rs Hno).
    destruct (has_at_least _ _); simpl; (eexists; split_and!; [done| |by intros ? [= <-]]); naive_solver.
Qed.

(** ** Lemmas: parsing the tags *)

(** The roles a [push:<role>] rule may name. *)
Definition push_role_ok (pr : option MemberRole) : Prop :=
  match pr with
  | None | Some Owner | Some Admin | Some Member => True
  | Some Guest | Some Bot => False
  end.

Definition is_protect_tag (tag : list string) : Prop := head tag = Some "buzz-protect".

#[export] Instance is_protect_tag_dec tag : Decision (is_protect_tag tag).
Proof. unfold is_protect_tag. apply _. Defined.

Definition parsed_rule_ok (r : ProtectionRule) : Prop := rule_wf r ∧ push_role_ok (push_role r).

Lemma strictest_ok pr role :
  push_role_ok pr → push_role_ok (Some role) → push_role_ok (strictest pr role).
Proof. unfold strictest. destruct pr as [r|]; [|done]. by case_match. Qed.

Lemma parse_rule_ok l r l' :
  parse_rule l r = Ok l' → push_role_ok (l_push_role l) → push_role_ok (l_push_role l').
Proof.
  destruct l as [pr nf nd rp unk]. unfold parse_rule. destruct (strip_prefix "push:" r) as [role_str|].
  - rewrite result_bind_Ok. intros (role & _ & Hr) Hpr.
    destruct role; try discriminate; injection Hr as <-; by apply (strictest_ok pr).
  - intros [= <-]. by repeat case_decide.
Qed.

Lemma parse_rules_ok l rs l' :
  parse_rules l rs = Ok l' → push_role_ok (l_push_role l) → push_role_ok (l_push_role l').
Proof.
  revert l. induction rs as [|r rs IH]; intros l; simpl; [by intros [= ->]|].
  rewrite result_bind_Ok. intros (l1 & Hr & Hrs) Hl. eauto using parse_rule_ok.
Qed.

Lemma parse_tag_ok values p :
  parse_protection_tag_with_warnings values = Ok p → parsed_rule_ok p.1.
Proof.
  destruct values as [|v0 [|v1 vs]]; try done. unfold parse_protection_tag_with_warnings.
  rewrite result_bind_Ok. intros (pat & [Hp]%map_err_Ok%parse_Ok & Hrest).
  apply result_bind_Ok in Hrest as (l & Hl & [= <-]). split; simpl.
  - unfold rule_wf. tauto.
  - by apply (parse_rules_ok _ _ _ Hl).
Qed.

Lemma parse_tags_from_ok acc tags pp :
  parse_tags_from acc tags = Ok pp →
  length (rules acc) ≤ MAX_PROTECTION_RULES → Forall parsed_rule_ok (rules acc) →
  length (rules pp) ≤ MAX_PROTECTION_RULES ∧ Forall parsed_rule_ok (rules pp)
  ∧ length (rules pp) = length (rules acc) + length (filter is_protect_tag tags).
Proof.
  revert acc. induction tags as [|tag tags IH]; intros acc; simpl.
  { intros [= ->] ??. split_and!; [done..|simpl; lia]. }
  destruct tag as [|name values].
  { rewrite filter_cons_False by done. apply IH. }
  case_decide as Hn.
  - subst. rewrite filter_cons_True by done. simpl.
    destruct (_ <=? _) eqn:Hlen; [done|]. apply Nat.leb_gt in Hlen.
    rewrite result_bind_Ok. intros (p & Hp & Hrest) _ Hacc.
    apply IH in Hrest as (H1 & H2 & H3); simpl in *; rewrite ?length_app in *; simpl in *.
    + split_and!; [done|done|lia].
    + lia.
    + apply Forall_app. split; [done|]. constructor; [by eapply parse_tag_ok|constructor].
  - rewrite filter_cons_False by (unfold is_protect_tag; simpl; congruence). apply IH.
Qed.

Lemma parse_protection_tags_ok tags pp :
  parse_protection_tags tags = Ok pp →
  length (rules pp) ≤ MAX_PROTECTION_RULES ∧ Forall parsed_rule_ok (rules pp)
  ∧ length (rules pp) = length (filter is_protect_tag tags).
Proof.
  intros H%parse_tags_from_ok; [exact H|unfold MAX_PROTECTION_RULES; simpl; lia|constructor].
Qed.

Lemma parsed_rules_wf tags pp :
  parse_protection_tags tags = Ok pp → Forall rule_wf (rules pp).
Proof.
  intros (_ & Hall & _)%parse_protection_tags_ok.
  eapply Forall_impl; [exact Hall|]. by intros ? [].
Qed.

Lemma collect_denials_spec us role rs :
  Forall rule_wf rs →
  ∃ ds, collect_denials us role rs = Some ds
    ∧ ds = omap (λ u, r ← evaluate_ref_update u role rs; err_of r) us
    ∧ (ds = [] ↔ ∀ u, u ∈ us → allowed u role rs)
    ∧ ∀ d, d ∈ ds → ∃ u, u ∈ us ∧ d_ref_name d = ref_name u ∧ ¬ allowed u role rs.
Proof.
  intros Hwf. induction us as [|u us (ds & Hds & Hom & Hnil & Hin)]; simpl.
  { exists []. set_solver. }
  destruct (evaluate_ref_update_spec u role rs Hwf) as (res & Hres & Hok & Herr).
  rewrite Hres, Hds. simpl. destruct res as [[]|d]; simpl; eexists; (split; [done|]).
  - split_and!; [done| |].
    + rewrite Hnil, forall_elem_of_cons. naive_solver.
    + intros d Hd. destruct (Hin d Hd) as (u' & ? & ? & ?). exists u'. set_solver.
  - split_and!; [by rewrite Hom| |].
    + split; [done|]. rewrite forall_elem_of_cons. naive_solver.
    + intros d' [->|Hd]%elem_of_cons.
      * exists u. split_and!; [set_solver|auto|naive_solver].
      * destruct (Hin d' Hd) as (u' & ? & ? & ?). exists u'. set_solver.
Qed.

(** ** Properties *)

(** Parsing a ref pattern and printing its segments are inverse: [parse]
accepts exactly the strings of at most 256 bytes under [refs/] that print a
well-formed segment list (non-empty literals over [A-Za-z0-9._-], at most
three wildcards, [**] only at the end), and returns those segments. *)
Theorem parse_roundtrip (s : string) (p : RefPattern) :
  parse s = Ok p ↔
  raw p = s ∧ s = join_with "/" (render <$> segments p) ∧ segments p ≠ []
  ∧ segments_wf (segments p) ∧ String.length s ≤ MAX_PATTERN_LENGTH
  ∧ starts_with "refs/" s = true.
Proof.
  rewrite parse_Ok. split.
  - intros (Hr & Hp & Hwf & Hl & Hpre). split_and!; try done.
    + by rewrite <-Hp, join_split.
    + by eapply parse_segments_nonempty.
  - intros (Hr & Hs & Hne & [Hlit Hrec Hw] & Hl & Hpre). split_and!; try done.
    rewrite Hs at 1. apply split_join; [by destruct (segments p)|].
    apply Forall_fmap. eapply Forall_impl; [exact Hlit|].
    intros [lit| |] Hx; [|done..]. by apply literal_excludes.
Qed.

(** A parsed pattern never reaches the [unreachable!] arms of [matches],
and [matches] decides the segment-wise matching relation. *)
Theorem matches_correct (s : string) (p : RefPattern) (ref : string) :
  parse s = Ok p →
  ∃ b, matches p ref = Some b ∧ (b = true ↔ seg_match (segments p) (split_on "/" ref)).
Proof. intros (_ & _ & Hwf & _)%parse_Ok. by apply matches_total_spec. Qed.

Lemma matches_correct_witness :
  ∃ p, parse "refs/heads/release/**" = Ok p
    ∧ matches p "refs/heads/release/v1/rc" = Some true
    ∧ ∃ b, matches p "refs/heads/release" = Some b
        ∧ (b = true ↔ seg_match (segments p) (split_on "/" "refs/heads/release")).
Proof.
  eexists. split; [vm_compute; reflexivity|]. split; [vm_compute; reflexivity|].
  apply (matches_correct "refs/heads/release/**"). vm_compute. reflexivity.
Defined.

(** C23. With rules parsed from a repository's tags, the decision on a ref
update never panics and lets the update through exactly when the pusher meets
the built-in default for that ref and kind of update and every rule covering
the ref allows it: no [require-patch], the pushed role reached, no
force-push or deletion where the rule forbids it. *)
Theorem evaluate_ref_update_correct (tags : list (list string)) (pp : ParsedProtection)
    (u : RefUpdate) (role : MemberRole) :
  parse_protection_tags tags = Ok pp →
  ∃ res, evaluate_ref_update u role (rules pp) = Some res
    ∧ (res = Ok tt ↔ allowed u role (rules pp)).
Proof.
  intros Hwf%parsed_rules_wf.
  destruct (evaluate_ref_update_spec u role _ Hwf) as (res & ? & ? & _). by exists res.
Qed.

Definition witness_tags : list (list string) :=
  [["d"; "repo"]; ["buzz-protect"; "refs/heads/main"; "push:admin"; "no-force-push"];
   ["buzz-protect"; "refs/**"; "no-delete"; "future-rule"]].

Definition witness_update (k : UpdateKind) : RefUpdate :=
  mkRefUpdate "refs/heads/main" k ZERO_OID "11".

Lemma evaluate_ref_update_correct_witness :
  ∃ pp, parse_protection_tags witness_tags = Ok pp
    ∧ evaluate_ref_update (witness_update FastForward) Admin (rules pp) = Some (Ok tt)
    ∧ ∃ res, evaluate_ref_update (witness_update FastForward) Member (rules pp) = Some res
        ∧ (res = Ok tt ↔ allowed (witness_update FastForward) Member (rules pp)).
Proof.
  eexists. split; [vm_compute; reflexivity|]. split; [vm_compute; reflexivity|].
  apply (evaluate_ref_update_correct witness_tags). vm_compute. reflexivity.
Defined.

(** Protection rules only restrict and roles only help: an update allowed
under some rules for some role stays allowed when rules are dropped and when
the role is raised.  In particular an explicit [push:<role>] never weakens
the built-in default. *)
Theorem rules_only_restrict (u : RefUpdate) (role role' : MemberRole)
    (rs rs' : list ProtectionRule) :
  Forall rule_wf rs → rs' ⊆ rs → (permission_level role <= permission_level role')%N →
  evaluate_ref_update u role rs = Some (Ok tt) →
  evaluate_ref_update u role' rs' = Some (Ok tt).
Proof.
  intros Hwf Hsub Hlev Hev.
  assert (Hwf' : Forall rule_wf rs') by (rewrite Forall_forall in *; set_solver).
  destruct (evaluate_ref_update_spec u role rs Hwf) as (r1 & H1 & Hok1 & _).
  destruct (evaluate_ref_update_spec u role' rs' Hwf') as (r2 & H2 & Hok2 & _).
  rewrite H1 in Hev. injection Hev as ->. rewrite H2. f_equal. apply Hok2.
  destruct (proj1 Hok1 eq_refl) as [Hd Hall]. split.
  - apply has_at_least_spec in Hd. apply has_at_least_spec. lia.
  - intros r Hr Ha. destruct (Hall r (Hsub r Hr) Ha). split; [done|lia|done..].
Qed.

Lemma rules_only_restrict_witness :
  ∃ pp, parse_protection_tags witness_tags = Ok pp
    ∧ evaluate_ref_update (witness_update Create) Owner [] = Some (Ok tt).
Proof.
  eexists. split; [vm_compute; reflexivity|].
  eapply (rules_only_restrict (witness_update Create) Admin Owner).
  - eapply (parsed_rules_wf witness_tags). vm_compute. reflexivity.
  - set_solver.
  - by vm_compute.
  - vm_compute. reflexivity.
Defined.

(** A push is atomic: it is accepted exactly when every ref update is
allowed, and a refusal carries, in order, the denial of each update that is
not, naming that update's ref. *)
Theorem evaluate_push_atomic (us : list RefUpdate) (role : MemberRole)
    (rs : list ProtectionRule) :
  Forall rule_wf rs →
  ∃ res, evaluate_push us role rs = Some res
    ∧ (res = Ok tt ↔ ∀ u, u ∈ us → allowed u role rs)
    ∧ ∀ ds, res = Err ds →
        ds = omap (λ u, r ← evaluate_ref_update u role rs; err_of r) us ∧ ds ≠ []
        ∧ ∀ d, d ∈ ds → ∃ u, u ∈ us ∧ d_ref_name d = ref_name u ∧ ¬ allowed u role rs.
Proof.
  intros Hwf. unfold evaluate_push.
  destruct (collect_denials_spec us role rs Hwf) as (ds & -> & Hom & Hnil & Hin). simpl.
  case_decide as Hd.
  - apply nil_length_inv in Hd. exists (Ok tt). split; [done|]. rewrite <-Hnil. done.
  - exists (Err ds). split; [done|]. rewrite <-Hnil. split; [by split; [|intros ->]|].
    intros ? [= <-]. by split_and!; [|intros ->|].
Qed.

Lemma evaluate_push_atomic_witness :
  ∃ pp res, parse_protection_tags witness_tags = Ok pp
    ∧ evaluate_push [witness_update FastForward; witness_update Delete] Owner (rules pp) = Some res
    ∧ (res = Ok tt ↔ ∀ u, u ∈ [witness_update FastForward; witness_update Delete] →
        allowed u Owner (rules pp)).
Proof.
  eexists. assert (Hp : parse_protection_tags witness_tags = Ok _) by (vm_compute; reflexivity).
  destruct (evaluate_push_atomic [witness_update FastForward; witness_update Delete] Owner _
    (parsed_rules_wf _ _ Hp)) as (res & H1 & H2 & _).
  exists res. split; [exact Hp|]. split; [exact H1|exact H2].
Defined.

(** Parsing a tag list yields one rule per [buzz-protect] tag, at most 50
of them, each with a well-formed pattern and a push role of at least member;
a list with more protection tags than the limit is refused. *)
Theorem parse_protection_tags_bounded (tags : list (list string)) :
  match parse_protection_tags tags with
  | Ok pp => length (rules pp) = length (filter is_protect_tag tags)
      ∧ length (rules pp) ≤ MAX_PROTECTION_RULES ∧ Forall parsed_rule_ok (rules pp)
  | Err _ => True
  end
  ∧ (MAX_PROTECTION_RULES < length (filter is_protect_tag tags) →
     ∃ e, parse_protection_tags tags = Err e).
Proof.
  destruct (parse_protection_tags tags) as [pp|e] eqn:E; [|split; [done|by exists e]].
  apply parse_protection_tags_ok in E as (H1 & H2 & H3). split; [done|]. lia.
Qed.
