(* ===== verification/Ifc.v ===== *)
(** * Ifc: information-flow control over reader sets

Models [crates/ifc-core/src/lib.rs].  A [ConfidentialityLabel] names a
universe and the principals allowed to read a value; a [FlowState] joins every
label that entered a computation and decides whether its result may leave
towards a destination label.  [BTreeSet<Principal>] is [gset Principal]; the
two type parameters of the crate are section variables with decidable equality
(and [Countable] for the set elements). *)
From S2P Require Import Prelude.

Section ifc.
Context {Universe : Type} `{EqDecision Universe}.
Context {Principal : Type} `{Countable Principal}.

(** ** Reader sets *)

Inductive ReaderSet : Type :=
| Everyone
| Only (readers : gset Principal).

(** [ReaderSet::can_flow_to]. *)
Definition rs_can_flow_to (self destination : ReaderSet) : bool :=
  match self, destination with
  | Everyone, _ => true
  | Only _, Everyone => false
  | Only source, Only destination => bool_decide (destination ⊆ source)
  end.

(** [ReaderSet::join]. *)
Definition rs_join (self other : ReaderSet) : ReaderSet :=
  match self, other with
  | Everyone, value | value, Everyone => value
  | Only l, Only r => Only (l ∩ r)
  end.

(** [ReaderSet::meet]. *)
Definition rs_meet (self other : ReaderSet) : ReaderSet :=
  match self, other with
  | Everyone, _ | _, Everyone => Everyone
  | Only l, Only r => Only (l ∪ r)
  end.

Definition explicit_readers (self : ReaderSet) : option (gset Principal) :=
  match self with
  | Everyone => None
  | Only readers => Some readers
  end.

Definition explicit_count (self : ReaderSet) : option nat :=
  size <$> explicit_readers self.

(** ** Labels *)

Record ConfidentialityLabel : Type := mkLabel { universe : Universe; readers : ReaderSet }.

Inductive LabelError : Type := EmptyReaderSet | CrossUniverse.

Definition public (u : Universe) : ConfidentialityLabel :=
  {| universe := u; readers := Everyone |}.

Definition restricted (u : Universe) (rs : gset Principal) : result ConfidentialityLabel LabelError :=
  if decide (size rs = 0) then Err EmptyReaderSet
  else Ok {| universe := u; readers := Only rs |}.

Definition restricted_to (u : Universe) (p : Principal) : ConfidentialityLabel :=
  {| universe := u; readers := Only {[p]} |}.

Definition is_public (l : ConfidentialityLabel) : bool :=
  match readers l with
  | Everyone => true
  | Only _ => false
  end.

Definition reader_count (l : ConfidentialityLabel) : option nat := explicit_count (readers l).

(** [ConfidentialityLabel::can_flow_to]. *)
Definition can_flow_to (self destination : ConfidentialityLabel) : bool :=
  bool_decide (universe self = universe destination)
  && rs_can_flow_to (readers self) (readers destination).

(** [ConfidentialityLabel::join]. *)
Definition join (self other : ConfidentialityLabel) : result ConfidentialityLabel LabelError :=
  if decide (universe self ≠ universe other) then Err CrossUniverse
  else Ok {| universe := universe self; readers := rs_join (readers self) (readers other) |}.

(** ** Flow states *)

Record FlowState : Type := mkFlowState {
  accumulated : option ConfidentialityLabel;
  unresolved_input : bool
}.

(** [FlowState::default]. *)
Definition default_state : FlowState := {| accumulated := None; unresolved_input := false |}.

Definition observe (label : ConfidentialityLabel) (s : FlowState) : FlowState :=
  match accumulated s with
  | None => {| accumulated := Some label; unresolved_input := unresolved_input s |}
  | Some existing =>
      match join existing label with
      | Ok combined => {| accumulated := Some combined; unresolved_input := unresolved_input s |}
      | Err _ => {| accumulated := Some existing; unresolved_input := true |}
      end
  end.

Definition mark_unknown (s : FlowState) : FlowState :=
  {| accumulated := accumulated s; unresolved_input := true |}.

Inductive EgressError : Type :=
| UnresolvedInput
| DestinationUniverseMismatch
| DestinationWidensReaders.

Definition check_egress (s : FlowState) (destination : ConfidentialityLabel)
  : result unit EgressError :=
  if unresolved_input s then Err UnresolvedInput
  else match accumulated s with
       | None => Ok tt
       | Some acc =>
           if decide (universe acc ≠ universe destination) then Err DestinationUniverseMismatch
           else if negb (rs_can_flow_to (readers acc) (readers destination))
           then Err DestinationWidensReaders
           else Ok tt
       end.

Definition has_observed_input (s : FlowState) : bool := bool_decide (is_Some (accumulated s)).

Record FlowSnapshot : Type := mkFlowSnapshot {
  snap_accumulated : option ConfidentialityLabel;
  snap_unresolved_input : bool
}.

Definition snapshot (s : FlowState) : FlowSnapshot :=
  {| snap_accumulated := accumulated s; snap_unresolved_input := unresolved_input s |}.

(** ** Specification *)

(** The inputs a computation may receive. *)
Inductive input : Type :=
| Labeled (l : ConfidentialityLabel)
| Unknown.

Definition admit_input (s : FlowState) (i : input) : FlowState :=
  match i with
  | Labeled l => observe l s
  | Unknown => mark_unknown s
  end.

(** The state after a computation received its inputs, in order. *)
Definition run (s : FlowState) (ins : list input) : FlowState := foldl admit_input s ins.

(** An input permits a destination: it is labelled, in the destination's
universe, and readable by every reader of the destination. *)
Definition permits (destination : ConfidentialityLabel) (i : input) : Prop :=
  match i with
  | Labeled l => can_flow_to l destination = true
  | Unknown => False
  end.

(** The principals a reader set admits. *)
Definition admits (p : Principal) (rs : ReaderSet) : Prop :=
  match rs with
  | Everyone => True
  | Only readers => p ∈ readers
  end.

(** ** Lemmas *)

Lemma rs_can_flow_to_refl rs : rs_can_flow_to rs rs = true.
Proof. destruct rs; simpl; [done|]. by apply bool_decide_eq_true. Qed.

Lemma rs_can_flow_to_trans a b c :
  rs_can_flow_to a b = true → rs_can_flow_to b c = true → rs_can_flow_to a c = true.
Proof. destruct a, b, c; simpl; rewrite ?bool_decide_eq_true; set_solver. Qed.

Lemma rs_can_flow_to_antisym a b :
  rs_can_flow_to a b = true → rs_can_flow_to b a = true → a = b.
Proof.
  destruct a, b; simpl; rewrite ?bool_decide_eq_true; try done.
  intros. f_equal. set_solver.
Qed.

Lemma rs_join_flow a b c :
  rs_can_flow_to (rs_join a b) c = true ↔
  rs_can_flow_to a c = true ∧ rs_can_flow_to b c = true.
Proof. destruct a, b, c; simpl; rewrite ?bool_decide_eq_true; set_solver. Qed.

Lemma rs_meet_flow a b c :
  rs_can_flow_to c (rs_meet a b) = true ↔
  rs_can_flow_to c a = true ∧ rs_can_flow_to c b = true.
Proof. destruct a, b, c; simpl; rewrite ?bool_decide_eq_true; set_solver. Qed.

Lemma can_flow_to_iff l d :
  can_flow_to l d = true ↔
  universe l = universe d ∧ rs_can_flow_to (readers l) (readers d) = true.
Proof. unfold can_flow_to. by rewrite andb_true_iff, bool_decide_eq_true. Qed.

Lemma join_flow a b c d :
  join a b = Ok c →
  can_flow_to c d = true ↔ can_flow_to a d = true ∧ can_flow_to b d = true.
Proof.
  unfold join. case_decide as Hu; [done|]. intros [= <-].
  rewrite !can_flow_to_iff. simpl. rewrite rs_join_flow. naive_solver congruence.
Qed.

Lemma check_egress_Ok s d :
  check_egress s d = Ok tt ↔
  unresolved_input s = false ∧
  match accumulated s with Some l => can_flow_to l d = true | None => True end.
Proof.
  unfold check_egress. destruct (unresolved_input s); [naive_solver|].
  destruct (accumulated s) as [l|]; [|naive_solver].
  rewrite can_flow_to_iff. case_decide as Hu; [naive_solver|].
  destruct (rs_can_flow_to _ _); naive_solver.
Qed.

Lemma admit_input_Ok s i d :
  check_egress (admit_input s i) d = Ok tt ↔ check_egress s d = Ok tt ∧ permits d i.
Proof.
  rewrite !check_egress_Ok. destruct i as [l|]; simpl; [|naive_solver].
  unfold observe. destruct (accumulated s) as [a|]; simpl; [|naive_solver].
  destruct (join a l) as [c|e] eqn:E; simpl.
  - rewrite (join_flow _ _ _ d E). naive_solver.
  - unfold join in E. case_decide as Hu; [|done].
    rewrite !can_flow_to_iff. naive_solver congruence.
Qed.

Lemma run_app s ins js : run s (ins ++ js) = run (run s ins) js.
Proof. apply foldl_app. Qed.

Lemma run_Ok s ins d :
  check_egress (run s ins) d = Ok tt ↔ check_egress s d = Ok tt ∧ Forall (permits d) ins.
Proof.
  revert s. induction ins as [|i ins IH]; intros s; simpl.
  - naive_solver.
  - rewrite IH, admit_input_Ok, Forall_cons. tauto.
Qed.

(** ** Properties *)

(** C40. Reader sets ordered by [can_flow_to] form a lattice in which [join] is
the least upper bound and [meet] the greatest lower bound: flow is a partial
order, a join may flow somewhere exactly when both inputs may, and a value
may flow to a meet exactly when it may flow to both. *)
Theorem reader_set_lattice (a b c : ReaderSet) :
  rs_can_flow_to a a = true
  ∧ (rs_can_flow_to a b = true → rs_can_flow_to b c = true → rs_can_flow_to a c = true)
  ∧ (rs_can_flow_to a b = true → rs_can_flow_to b a = true → a = b)
  ∧ (rs_can_flow_to (rs_join a b) c = true ↔
     rs_can_flow_to a c = true ∧ rs_can_flow_to b c = true)
  ∧ (rs_can_flow_to c (rs_meet a b) = true ↔
     rs_can_flow_to c a = true ∧ rs_can_flow_to c b = true)
  ∧ ∀ p, (admits p (rs_join a b) ↔ admits p a ∧ admits p b).
Proof.
  split_and!; [apply rs_can_flow_to_refl|apply rs_can_flow_to_trans|
    apply rs_can_flow_to_antisym|apply rs_join_flow|apply rs_meet_flow|].
  intros p. destruct a, b; simpl; set_solver.
Qed.

(** Egress is sound and complete: after any sequence of inputs, the
computation may send to a destination exactly when every single input could
have flowed there on its own, so an unlabelled input, an input of another
universe or a reader the input does not admit blocks it, whatever came before
or after. *)
Theorem check_egress_iff_every_input (ins : list input) (d : ConfidentialityLabel) :
  check_egress (run default_state ins) d = Ok tt ↔ ∀ i, i ∈ ins → permits d i.
Proof. rewrite run_Ok, Forall_forall. naive_solver. Qed.

(** Denial is permanent: once a destination is refused, no further input
makes it acceptable, and once an input was unresolved every destination is
refused with [UnresolvedInput]. *)
Theorem denial_is_permanent (s : FlowState) (ins : list input) (d : ConfidentialityLabel) :
  (check_egress s d ≠ Ok tt → check_egress (run s ins) d ≠ Ok tt)
  ∧ (unresolved_input s = true → check_egress (run s ins) d = Err UnresolvedInput).
Proof.
  split; [rewrite run_Ok; naive_solver|].
  intros Hs. assert (Hr : unresolved_input (run s ins) = true).
  { revert s Hs. induction ins as [|i ins IH]; intros s Hs; simpl; [done|]. apply IH.
    destruct i; simpl; [|done]. unfold observe. by repeat case_match. }
  unfold check_egress. by rewrite Hr.
Qed.
End ifc.
