(* ===== verification/Nostr.v ===== *)
(** * Nostr: the event data the components exchange

A Nostr event is the six-field record of the wire format (NIP-01).  The
[nostr] crate that decodes, signs and verifies events is not part of the
repository; what the code reads of an event are these fields, with ids and
public keys in the lowercase hex the crate prints ([to_hex]).  How the crate
names a tag's kind and content is the interface [NostrTags]: the components
that call [Tag::kind().to_string()] and [Tag::content()] are proved for every
implementation of it. *)
From S2P Require Import Prelude.

(** A UUID, as the 128-bit number it is. *)
Abbreviation Uuid := N.

(** The values of the [uuid] crate's type. *)
Definition is_uuid (u : Uuid) : Prop := (u < 340282366920938463463374607431768211456)%N.

(** [Tag::as_slice]: the tag is the list of its parts. *)
Abbreviation Tag := (list string).

Record Event : Type := mkEvent {
  id : string;
  pubkey : string;
  kind : N;
  created_at : N;
  tags : list Tag;
  content : string
}.

#[export] Instance Event_eq_dec : EqDecision Event.
Proof. solve_decision. Defined.

Class NostrTags : Type := {
  tag_kind : Tag → string;            (* [tag.kind().to_string()] *)
  tag_content : Tag → option string   (* [tag.content()] *)
}.

(** The crate's documented behaviour: the kind is the first part and the
content the second.  Only the witnesses use this instance. *)
Definition nip01_tags : NostrTags := {|
  tag_kind := λ t, default "" (head t);
  tag_content := λ t, t !! 1
|}.

(** [Uuid::to_string] of the [uuid] crate. *)
Class UuidText : Type := { uuid_to_string : Uuid → string }.

(** [Uuid::as_bytes] and [Uuid::from_bytes]: 16 bytes. *)
Class UuidBytes : Type := {
  uuid_as_bytes : Uuid → list N;
  uuid_from_bytes : list N → Uuid
}.

(** ** Stored events ([crates/buzz-core/src/event.rs]) *)

Record StoredEvent : Type := mkStoredEvent {
  se_event : Event;
  se_received_at : N;
  se_channel_id : option Uuid;
  se_verified : bool
}.

(** [StoredEvent::new], at clock reading [now]. *)
Definition StoredEvent_new (now : N) (event : Event) (channel_id : option Uuid) : StoredEvent :=
  {| se_event := event; se_received_at := now; se_channel_id := channel_id; se_verified := false |}.

Definition with_received_at (event : Event) (received_at : N) (channel_id : option Uuid)
    (verified : bool) : StoredEvent :=
  {| se_event := event; se_received_at := received_at; se_channel_id := channel_id;
     se_verified := verified |}.

Definition is_verified (e : StoredEvent) : bool := se_verified e.

(** ** Filters

The fields of [nostr::Filter] the code reads.  A [BTreeSet] is the list of its
elements; the tag filters are keyed by the text of their letter. *)
Record Filter : Type := mkFilter {
  f_ids : option (list string);
  f_authors : option (list string);
  f_kinds : option (list N);
  f_since : option N;
  f_until : option N;
  f_generic_tags : gmap string (list string)
}.

#[export] Instance Filter_eq_dec : EqDecision Filter.
Proof. solve_decision. Defined.
