(* ===== verification/Encode.v ===== *)
(** * Encode: integers as bytes and as decimal text

The encodings the audit log, the session directory and the pairing URI are
written with: big-endian bytes ([to_be_bytes]), UTF-8 bytes of a string
([as_bytes]), decimal text ([Display]) and its parser ([str::parse] of an
unsigned type). *)
From stdpp Require Import pretty.
From S2P Require Import Prelude Text Nostr.

(** [Vec<u8>]. *)
Abbreviation Bytes := (list N).

(** [str::as_bytes]. *)
Definition bytes_of_string (s : string) : list N := map N_of_ascii (String.list_ascii_of_string s).

(** The [w] low bytes of [n], most significant first. *)
Fixpoint be_bytes (w : nat) (n : N) : list N :=
  match w with
  | 0 => []
  | S w => be_bytes w (n / 256) ++ [(n mod 256)%N]
  end.

(** Least significant first, and read back. *)
Fixpoint le_bytes (w : nat) (n : N) : list N :=
  match w with
  | 0 => []
  | S w => (n mod 256)%N :: le_bytes w (n / 256)
  end.

Fixpoint le_value (bytes : list N) : N :=
  match bytes with
  | [] => 0%N
  | b :: bytes => (b + 256 * le_value bytes)%N
  end.

(** [i64::to_be_bytes]: two's complement. *)
Definition i64_be_bytes (z : Z) : list N := be_bytes 8 (Z.to_N (z mod 18446744073709551616)).

(** The decimal digits of [s] appended to [acc]; [None] on another character. *)
Fixpoint digits_from (acc : N) (s : string) : option N :=
  match s with
  | EmptyString => Some acc
  | String c s' =>
      if is_ascii_digit c then digits_from (10 * acc + (N_of_ascii c - 48)) s' else None
  end.

(** [str::parse] of an unsigned integer of maximum [max]: an optional [+] and
at least one digit. *)
Definition parse_uint (max : N) (s : string) : option N :=
  let digits := match s with String "+" s' => s' | _ => s end in
  match digits with
  | EmptyString => None
  | _ => n ← digits_from 0 digits; if (n <=? max)%N then Some n else None
  end.

(** ** Lemmas *)

Lemma bytes_of_string_app a b : bytes_of_string (a +:+ b) = bytes_of_string a ++ bytes_of_string b.
Proof.
  unfold bytes_of_string. rewrite <-map_app. f_equal.
  induction a as [|c a IH]; simpl; [done|]. by f_equal.
Qed.

#[export] Instance bytes_of_string_inj : Inj (=) (=) bytes_of_string.
Proof.
  intros a. induction a as [|c a IH]; intros [|d b]; simpl; try done.
  intros [= Hc Hs]. f_equal; [|by apply IH].
  by rewrite <-(ascii_N_embedding c), Hc, ascii_N_embedding.
Qed.

Lemma length_be_bytes w n : length (be_bytes w n) = w.
Proof. revert n. induction w as [|w IH]; intros n; simpl; [done|]. rewrite length_app, IH. simpl. lia. Qed.

Lemma be_bytes_inj w m n :
  (m < 256 ^ N.of_nat w)%N → (n < 256 ^ N.of_nat w)%N → be_bytes w m = be_bytes w n → m = n.
Proof.
  revert m n. induction w as [|w IH]; intros m n Hm Hn; simpl; [lia|].
  intros [Hq [= Hr]]%app_inj_2; [|done].
  rewrite Nat2N.inj_succ, N.pow_succ_r' in Hm, Hn.
  apply IH in Hq; [|apply N.Div0.div_lt_upper_bound; lia..].
  rewrite (N.div_mod m 256), (N.div_mod n 256) by done. by rewrite Hq, Hr.
Qed.

Lemma length_le_bytes w n : length (le_bytes w n) = w.
Proof. revert n. induction w as [|w IH]; intros n; simpl; [done|]. by rewrite IH. Qed.

Lemma le_value_le_bytes w n : (n < 256 ^ N.of_nat w)%N → le_value (le_bytes w n) = n.
Proof.
  revert n. induction w as [|w IH]; intros n Hn; [simpl in *; lia|]. cbn [le_bytes le_value].
  rewrite Nat2N.inj_succ, N.pow_succ_r' in Hn.
  rewrite IH by (apply N.Div0.div_lt_upper_bound; lia).
  pose proof (N.div_mod n 256 ltac:(done)). lia.
Qed.

Definition is_i64 (z : Z) : Prop := (-9223372036854775808 <= z < 9223372036854775808)%Z.

Lemma i64_be_bytes_inj x y : is_i64 x → is_i64 y → i64_be_bytes x = i64_be_bytes y → x = y.
Proof.
  unfold is_i64, i64_be_bytes. intros Hx Hy Heq. apply be_bytes_inj in Heq.
  - pose proof (Z.mod_pos_bound x 18446744073709551616 ltac:(lia)).
    pose proof (Z.mod_pos_bound y 18446744073709551616 ltac:(lia)).
    apply Z2N.inj in Heq; [|lia..].
    pose proof (Z.div_mod x 18446744073709551616 ltac:(lia)).
    pose proof (Z.div_mod y 18446744073709551616 ltac:(lia)). nia.
  - change (256 ^ N.of_nat 8)%N with 18446744073709551616%N.
    pose proof (Z.mod_pos_bound x 18446744073709551616 ltac:(lia)). lia.
  - change (256 ^ N.of_nat 8)%N with 18446744073709551616%N.
    pose proof (Z.mod_pos_bound y 18446744073709551616 ltac:(lia)). lia.
Qed.

(** ** Decimal text *)

Lemma digits_from_app acc a b :
  digits_from acc (a +:+ b) = digits_from acc a ≫= λ n, digits_from n b.
Proof.
  revert acc. induction a as [|c a IH]; intros acc; simpl; [done|].
  by destruct (is_ascii_digit c).
Qed.

(** The digits [pretty] prints, read back. *)
Lemma pretty_N_go_digits n s :
  (0 < n)%N → ∃ a, pretty_N_go n s = a +:+ s ∧ a ≠ "" ∧ string_forall is_ascii_digit a = true
    ∧ ∀ acc, ∃ k, digits_from acc a = Some (acc * k + n)%N.
Proof.
  revert s. induction (N.lt_wf_0 n) as [n _ IH]; intros s Hn.
  rewrite pretty_N_go_step by done. set (c := pretty_N_char (n mod 10)).
  assert (is_ascii_digit c = true ∧ N_of_ascii c - 48 = n mod 10)%N as [Hd Hc].
  { subst c. pose proof (N.mod_lt n 10 ltac:(done)) as Hlt. revert Hlt.
    generalize (n mod 10)%N. intros d Hd.
    assert (d = 0 ∨ d = 1 ∨ d = 2 ∨ d = 3 ∨ d = 4 ∨ d = 5 ∨ d = 6 ∨ d = 7 ∨ d = 8 ∨ d = 9)%N
      by lia.
    by destruct_or?; subst. }
  destruct (decide (n / 10 = 0)%N) as [Hz|Hz].
  - rewrite Hz, pretty_N_go_0. exists (String c ""). split_and!; [done|done|by simpl; rewrite Hd|].
    intros acc. exists 10%N. simpl. rewrite Hd, Hc. f_equal.
    rewrite (N.div_mod n 10) at 2 by done. rewrite Hz. lia.
  - destruct (IH (n / 10)%N) with (s := String c s) as (a & Ha & Hne & Hall & Hdig).
    { apply N.div_lt; lia. } { by apply N.neq_0_lt_0. }
    exists (a +:+ String c ""). split_and!.
    + by rewrite Ha, <-string_app_assoc.
    + by destruct a.
    + rewrite string_forall_app, Hall. simpl. by rewrite Hd.
    + intros acc. destruct (Hdig acc) as [k Hk]. exists (10 * k)%N.
      rewrite digits_from_app, Hk. simpl. rewrite Hd, Hc. f_equal.
      rewrite (N.div_mod n 10) at 3 by done. lia.
Qed.

Lemma pretty_N_digits (n : N) :
  ∃ c s, pretty n = String c s ∧ string_forall is_ascii_digit (pretty n) = true
    ∧ digits_from 0 (pretty n) = Some n.
Proof.
  unfold pretty, pretty_N. case_decide as Hn.
  { exists "0"%char, "". by rewrite Hn. }
  destruct (pretty_N_go_digits n "" ltac:(lia)) as (a & Ha & Hne & Hall & Hdig).
  assert (pretty_N_go n "" = a) as ->.
  { by rewrite Ha, string_app_nil_r. }
  destruct a as [|c s]; [done|]. exists c, s. split_and!; [done..|].
  destruct (Hdig 0%N) as [k ->]. f_equal. 
Qed.

(** Printing and parsing an unsigned integer are inverse. *)
Lemma parse_uint_pretty max n : (n <= max)%N → parse_uint max (pretty n) = Some n.
Proof.
  intros Hn. destruct (pretty_N_digits n) as (c & s & Hp & Hall & Hdig). unfold parse_uint.
  rewrite Hp in *. simpl in Hall. apply andb_true_iff in Hall as [Hc _].
  assert (match String c s with String "+" s' => s' | _ => String c s end = String c s) as ->.
  { clear -Hc. by destruct c as [[] [] [] [] [] [] [] []]. }
  rewrite Hdig. simpl. by apply N.leb_le in Hn as ->.
Qed.

Lemma parse_uint_bound max s n : parse_uint max s = Some n → (n <= max)%N.
Proof.
  unfold parse_uint. intros H. destruct (match s with String "+" s' => s' | _ => s end); [done|].
  destruct (digits_from 0 _) as [m|]; simpl in H; [|done].
  destruct (m <=? max)%N eqn:E; [|done]. injection H as <-. by apply N.leb_le.
Qed.

(** ** UUIDs as bytes *)

Definition be_value (bytes : list N) : N := foldl (λ acc b, (256 * acc + b)%N) 0%N bytes.

(** The byte order of the [uuid] crate, for the witnesses. *)
#[export] Instance be_uuid_bytes : UuidBytes := { uuid_as_bytes := be_bytes 16; uuid_from_bytes := be_value }.

(** What the code relies on. *)
Record UuidBytesLaws {UB : UuidBytes} : Prop := {
  uuid_bytes_length u : length (uuid_as_bytes u) = 16;
  uuid_bytes_inverse u : is_uuid u → uuid_from_bytes (uuid_as_bytes u) = u;
  uuid_bytes_onto b : length b = 16 → Forall (λ x, (x < 256)%N) b →
    is_uuid (uuid_from_bytes b) ∧ uuid_as_bytes (uuid_from_bytes b) = b
}.

Lemma be_value_be_bytes w n : (n < 256 ^ N.of_nat w)%N → be_value (be_bytes w n) = n.
Proof.
  revert n. induction w as [|w IH]; intros n Hn; [change (n < 1)%N in Hn; cbn; lia|]. cbn [be_bytes].
  unfold be_value in *. rewrite foldl_app. cbn [foldl]. rewrite Nat2N.inj_succ, N.pow_succ_r' in Hn.
  rewrite IH by (apply N.Div0.div_lt_upper_bound; lia).
  pose proof (N.div_mod n 256 ltac:(done)). lia.
Qed.

Lemma be_bytes_be_value b :
  Forall (λ x, (x < 256)%N) b →
  (be_value b < 256 ^ N.of_nat (length b))%N ∧ be_bytes (length b) (be_value b) = b.
Proof.
  induction b as [|x b IH] using rev_ind; [done|]. intros [Hb Hx]%Forall_app.
  apply Forall_cons in Hx as [Hx _]. destruct (IH Hb) as [Hlt Heq].
  unfold be_value in *. rewrite foldl_app, length_app, Nat.add_1_r, Nat2N.inj_succ, N.pow_succ_r'.
  cbn [foldl be_bytes].
  split; [lia|]. f_equal.
  - rewrite N.add_comm, N.mul_comm, N.div_add, N.div_small by done. exact Heq.
  - f_equal. rewrite N.add_comm, N.mul_comm, N.Div0.mod_add. by apply N.mod_small.
Qed.

Lemma be_uuid_bytes_laws : UuidBytesLaws.
Proof.
  constructor.
  - intros u. apply length_be_bytes.
  - intros u Hu. by apply be_value_be_bytes.
  - intros b Hlen Hb. destruct (be_bytes_be_value b Hb) as [Hlt Heq]. rewrite Hlen in *. done.
Qed.
