(* ===== verification/Scope.v ===== *)
(** * Scope: NIP-10 thread markers and session scopes

Models [crates/buzz-core/src/nip10.rs] (the shared thread-marker parser),
[parse_thread_tags] of [crates/buzz-acp/src/queue.rs] and
[crates/buzz-acp/src/scope.rs]: the key under which the agent harness queues
events and runs provider sessions. *)
From S2P Require Import Prelude Text Nostr.

(** ** Thread markers ([nip10.rs]) *)

Record ThreadMarkers : Type := mkThreadMarkers { root : option string; reply : option string }.

Definition resolve (m : ThreadMarkers) : option (string * string) :=
  match root m, reply m with
  | Some root, Some reply => Some (root, reply)
  | None, Some reply => Some (reply, reply)
  | Some _, None | None, None => None
  end.

Definition is_event_id_hex (id : string) : bool :=
  (String.length id =? 64) && string_forall is_ascii_hexdigit id.

(** The body of the loop of [parse_thread_markers_from_parts]. *)
Definition marker_step (markers : ThreadMarkers) (parts : Tag) : ThreadMarkers :=
  match parts with
  | p0 :: p1 :: _ :: p3 :: _ =>
      if bool_decide (p0 = "e") && is_event_id_hex p1 then
        if decide (p3 = "root") then {| root := Some p1; reply := reply markers |}
        else if decide (p3 = "reply") then {| root := root markers; reply := Some p1 |}
        else markers
      else markers
  | _ => markers
  end.

Definition parse_thread_markers_from_parts (tags : list Tag) : ThreadMarkers :=
  foldl marker_step {| root := None; reply := None |} tags.

Definition parse_thread_markers (tags : list Tag) : ThreadMarkers :=
  parse_thread_markers_from_parts tags.

(** ** Thread tags ([queue.rs]) *)

Record ThreadTags : Type := mkThreadTags {
  root_event_id : option string;
  parent_event_id : option string;
  mentioned_pubkeys : list string
}.

Definition parse_thread_tags (event : Event) : ThreadTags :=
  let markers := parse_thread_markers (tags event) in
  let '(root_event_id, parent_event_id) :=
    match resolve markers with
    | Some (root, parent) => (Some root, Some parent)
    | None => (None, None)
    end in
  let mentions :=
    omap (λ parts : Tag,
      match parts with
      | p0 :: p1 :: _ => if decide (p0 = "p") then Some p1 else None
      | _ => None
      end) (tags event) in
  {| root_event_id := root_event_id;
     parent_event_id := parent_event_id;
     mentioned_pubkeys := mentions |}.

(** ** Session scopes ([scope.rs]) *)

Inductive SessionPolicy : Type := Channel | Thread_policy.

#[export] Instance SessionPolicy_eq_dec : EqDecision SessionPolicy.
Proof. solve_decision. Defined.

Inductive SessionScope : Type :=
| Conversation (channel : Uuid)
| Thread (channel : Uuid) (root : string).

#[export] Instance SessionScope_eq_dec : EqDecision SessionScope.
Proof. solve_decision. Defined.

#[export] Instance SessionScope_countable : Countable SessionScope.
Proof.
  refine (inj_countable'
    (λ s, match s with Conversation c => inl c | Thread c r => inr (c, r) end)
    (λ x, match x with inl c => Conversation c | inr (c, r) => Thread c r end) _).
  by intros [].
Defined.

Definition channel_id (s : SessionScope) : Uuid :=
  match s with
  | Conversation c => c
  | Thread c _ => c
  end.

Definition scope_root_event_id (s : SessionScope) : option string :=
  match s with
  | Conversation _ => None
  | Thread _ r => Some r
  end.

Definition is_thread (s : SessionScope) : bool :=
  match s with
  | Conversation _ => false
  | Thread _ _ => true
  end.

Definition derive (policy : SessionPolicy) (channel : Uuid) (is_dm : bool) (event : Event)
  : SessionScope :=
  if is_dm || bool_decide (policy = Channel) then Conversation channel
  else
    let root_event_id :=
      match root_event_id (parse_thread_tags event) with
      | Some root => root
      | None => id event
      end in
    Thread channel (to_ascii_lowercase root_event_id).

(** ** Lemmas *)

(** The thread an event belongs to: its NIP-10 root, or itself. *)
Definition thread_root (event : Event) : string :=
  default (id event) (root_event_id (parse_thread_tags event)).

Lemma derive_thread channel event :
  derive Thread_policy channel false event
  = Thread channel (to_ascii_lowercase (thread_root event)).
Proof. unfold derive, thread_root. simpl. by destruct (root_event_id _). Qed.

Lemma channel_id_derive policy channel is_dm event :
  channel_id (derive policy channel is_dm event) = channel.
Proof. unfold derive. by destruct (_ || _). Qed.

Lemma markers_from_valid (tags : list Tag) m :
  (∀ r, root m = Some r → is_event_id_hex r = true) →
  (∀ r, reply m = Some r → is_event_id_hex r = true) →
  let m' := foldl marker_step m tags in
  (∀ r, root m' = Some r → is_event_id_hex r = true)
  ∧ (∀ r, reply m' = Some r → is_event_id_hex r = true).
Proof.
  revert m. induction tags as [|parts tags IH]; intros m Hroot Hreply; simpl; [done|].
  apply IH; unfold marker_step; repeat case_match; simpl; auto;
    intros r [= <-];
    match goal with E : _ && _ = true |- _ => by apply andb_true_iff in E as [_ ?] end.
Qed.

Lemma thread_tags_root_valid event r :
  root_event_id (parse_thread_tags event) = Some r → is_event_id_hex r = true.
Proof.
  unfold parse_thread_tags, parse_thread_markers, parse_thread_markers_from_parts.
  set (m := foldl _ _ _).
  destruct (markers_from_valid (tags event) {| root := None; reply := None |}) as [H1 H2];
    [done|done|fold m in H1, H2].
  unfold resolve. destruct (root m), (reply m); simpl; intros [= <-]; auto.
Qed.

(** ** Properties *)

(** Session scopes identify relay threads: a scope always belongs to the
channel it was derived for; direct messages and the channel policy collapse to
the conversation; under the thread policy two events share a scope exactly
when they are in the same channel and their canonical roots (the valid NIP-10
root, or the event itself when it is top-level) are the same event id up to
the case of its hex digits, and the root used as key is in lower case. *)
Theorem derive_identifies_threads (c1 c2 : Uuid) (e1 e2 : Event) (policy : SessionPolicy)
    (is_dm : bool) :
  channel_id (derive policy c1 is_dm e1) = c1
  ∧ derive policy c1 true e1 = Conversation c1
  ∧ derive Channel c1 is_dm e1 = Conversation c1
  ∧ (derive Thread_policy c1 false e1 = derive Thread_policy c2 false e2 ↔
     c1 = c2 ∧ to_ascii_lowercase (thread_root e1) = to_ascii_lowercase (thread_root e2))
  ∧ ∃ r, derive Thread_policy c1 false e1 = Thread c1 r ∧ to_ascii_lowercase r = r
      ∧ (is_event_id_hex (id e1) = true → String.length r = 64).
Proof.
  split_and!.
  - apply channel_id_derive.
  - done.
  - unfold derive. by destruct is_dm.
  - rewrite !derive_thread. split; [by intros [= -> ?]|by intros [-> ->]].
  - exists (to_ascii_lowercase (thread_root e1)). rewrite derive_thread, to_ascii_lowercase_idem.
    split_and!; [done..|]. intros Hid. rewrite length_to_ascii_lowercase. unfold thread_root.
    assert (Hv : is_event_id_hex (default (id e1) (root_event_id (parse_thread_tags e1))) = true).
    { destruct (root_event_id _) as [r|] eqn:E; [|done]. by apply (thread_tags_root_valid e1). }
    apply andb_true_iff in Hv as [Hv _]. by apply Nat.eqb_eq in Hv.
Qed.
