(* ===== verification/EventQueue.v ===== *)
(** * EventQueue: the agent harness's per-scope event queue

Models the [EventQueue] state machine of [crates/buzz-acp/src/queue.rs]: events
wait in one queue per session scope, one batch per scope may be in flight,
failed batches come back with a backoff, cancelled batches are merged into the
next prompt, and events being steered into a running turn are withheld.

Modelling choices:
- [Instant] and [Duration] are nanosecond counts ([N]); every operation that
  calls [Instant::now()] takes the reading as its argument [now];
- [HashMap] and [HashSet] are [gmap] and [gset]; where the source iterates one,
  the order comes from the interface [HashOrder];
- the jitter of [requeue] is computed in [f64] by the source and in exact
  rationals here, rounded down to the nanosecond; the bounds proved about it
  leave room for any rounding;
- log and metric calls have no effect on the state and are left out. *)
From S2P Require Import Prelude Text Nostr Scope.

(** ** Data *)

Definition MAX_PENDING_PER_SCOPE : nat := 500.
Definition MAX_PENDING_PER_CHANNEL : nat := 500.
Definition MAX_BATCH_EVENTS : nat := 50.
Definition MAX_RETRIES : N := 10.
Definition BASE_RETRY_DELAY_SECS : N := 5.
Definition MAX_RETRY_DELAY_SECS : N := 300.
Definition IN_FLIGHT_DEADLINE_BUFFER_SECS : N := 100.
Definition DEFAULT_IN_FLIGHT_DEADLINE_SECS : N := 7300.

(** [Duration::from_secs]. *)
Definition from_secs (s : N) : N := s * 1000000000.

Inductive DedupMode : Type := Drop | Queue.

#[export] Instance DedupMode_eq_dec : EqDecision DedupMode.
Proof. solve_decision. Defined.

Record QueuedEvent : Type := mkQueuedEvent {
  qe_channel_id : Uuid;
  qe_scope : SessionScope;
  qe_event : Event;
  qe_received_at : N;
  qe_prompt_tag : string
}.

Record BatchEvent : Type := mkBatchEvent {
  be_event : Event;
  be_prompt_tag : string;
  be_received_at : N
}.

Inductive CancelReason : Type := Interrupt | Steer.

Record FlushBatch : Type := mkFlushBatch {
  b_channel_id : Uuid;
  b_scope : SessionScope;
  b_events : list BatchEvent;
  b_cancelled_events : list BatchEvent;
  b_cancel_reason : option CancelReason
}.

Record EventQueue : Type := mkEventQueue {
  queues : gmap SessionScope (list QueuedEvent);
  in_flight_scopes : gset SessionScope;
  in_flight_deadlines : gmap SessionScope N;
  in_flight_batch_sizes : gmap SessionScope nat;
  retry_after : gmap SessionScope N;
  retry_counts : gmap SessionScope N;
  dedup_mode : DedupMode;
  cancelled_batches : gmap SessionScope (list BatchEvent);
  cancel_reasons : gmap SessionScope CancelReason;
  withheld_native_steer : gmap SessionScope (list QueuedEvent);
  in_flight_deadline : N
}.

(** Field updates. *)
Definition set_queues x q := mkEventQueue x (in_flight_scopes q) (in_flight_deadlines q)
  (in_flight_batch_sizes q) (retry_after q) (retry_counts q) (dedup_mode q)
  (cancelled_batches q) (cancel_reasons q) (withheld_native_steer q) (in_flight_deadline q).
Definition set_in_flight (fs : gset SessionScope) ds bs q := mkEventQueue (queues q) fs ds
  bs (retry_after q) (retry_counts q) (dedup_mode q)
  (cancelled_batches q) (cancel_reasons q) (withheld_native_steer q) (in_flight_deadline q).
Definition set_retry ra rc q := mkEventQueue (queues q) (in_flight_scopes q) (in_flight_deadlines q)
  (in_flight_batch_sizes q) ra rc (dedup_mode q)
  (cancelled_batches q) (cancel_reasons q) (withheld_native_steer q) (in_flight_deadline q).
Definition set_cancelled cb cr q := mkEventQueue (queues q) (in_flight_scopes q)
  (in_flight_deadlines q) (in_flight_batch_sizes q) (retry_after q) (retry_counts q)
  (dedup_mode q) cb cr (withheld_native_steer q) (in_flight_deadline q).
Definition set_withheld w q := mkEventQueue (queues q) (in_flight_scopes q)
  (in_flight_deadlines q) (in_flight_batch_sizes q) (retry_after q) (retry_counts q)
  (dedup_mode q) (cancelled_batches q) (cancel_reasons q) w (in_flight_deadline q).
Definition set_deadlines ds q :=
  set_in_flight (in_flight_scopes q) ds (in_flight_batch_sizes q) q.

(** [EventQueue::new] and [with_in_flight_deadline]. *)
Definition new (mode : DedupMode) : EventQueue :=
  mkEventQueue ∅ ∅ ∅ ∅ ∅ ∅ mode ∅ ∅ ∅ (from_secs DEFAULT_IN_FLIGHT_DEADLINE_SECS).

Definition with_in_flight_deadline (max_turn_duration_secs : N) (q : EventQueue) : EventQueue :=
  mkEventQueue (queues q) (in_flight_scopes q) (in_flight_deadlines q)
    (in_flight_batch_sizes q) (retry_after q) (retry_counts q) (dedup_mode q)
    (cancelled_batches q) (cancel_reasons q) (withheld_native_steer q)
    (from_secs (max_turn_duration_secs + IN_FLIGHT_DEADLINE_BUFFER_SECS)).

(** The [entry(scope).or_default()] view of a table of lists. *)
Definition entry_or_default {A : Type} (s : SessionScope) (m : gmap SessionScope (list A)) : list A :=
  default [] (m !! s).

(** Storing a list back, removing the entry when it became empty. *)
Definition put_or_remove {A : Type} (s : SessionScope) (l : list A)
    (m : gmap SessionScope (list A)) : gmap SessionScope (list A) :=
  match l with
  | [] => delete s m
  | _ => <[s := l]> m
  end.

(** The [received_at] of [q.front().unwrap()]: only asked of non-empty queues. *)
Definition front_received_at (sq : SessionScope * list QueuedEvent) : N :=
  match sq.2 with
  | [] => 0
  | e :: _ => qe_received_at e
  end.

Definition to_batch (qe : QueuedEvent) : BatchEvent :=
  {| be_event := qe_event qe; be_prompt_tag := qe_prompt_tag qe;
     be_received_at := qe_received_at qe |}.

Definition of_batch (channel : Uuid) (scope : SessionScope) (be : BatchEvent) : QueuedEvent :=
  {| qe_channel_id := channel; qe_scope := scope; qe_event := be_event be;
     qe_received_at := be_received_at be; qe_prompt_tag := be_prompt_tag be |}.

(** The [while queue.len() > MAX_PENDING_PER_SCOPE { queue.pop_back() }] loops. *)
Definition trim_back (l : list QueuedEvent) : list QueuedEvent := take MAX_PENDING_PER_SCOPE l.

(** ** Operations *)

Section operations.
Context {HO : HashOrder}.

Definition extend_in_flight_deadline (now : N) (scope : SessionScope) (max_turn_secs : N)
    (q : EventQueue) : EventQueue :=
  match in_flight_deadlines q !! scope with
  | Some current =>
      let extended := (now + from_secs (max_turn_secs + IN_FLIGHT_DEADLINE_BUFFER_SECS))%N in
      if (current <? extended)%N
      then set_deadlines (<[scope := extended]> (in_flight_deadlines q)) q
      else q
  | None => q
  end.

Definition channel_event_total (channel : Uuid) (qs : gmap SessionScope (list QueuedEvent)) : nat :=
  sum_list (map (λ sq : SessionScope * list QueuedEvent, length sq.2)
    (filter (λ sq, channel_id sq.1 = channel) (hm_iter qs))).

(** The victim of one turn of [enforce_channel_cap]. *)
Definition cap_victim (channel : Uuid) (qs : gmap SessionScope (list QueuedEvent))
  : option SessionScope :=
  fst <$> min_by_key front_received_at
    (filter (λ sq, channel_id sq.1 = channel ∧ sq.2 ≠ []) (hm_iter qs)).

(** The [while] loop; [channel_event_total] turns are enough
([cap_loop_total]). *)
Fixpoint cap_loop (fuel : nat) (channel : Uuid) (qs : gmap SessionScope (list QueuedEvent))
  : gmap SessionScope (list QueuedEvent) :=
  match fuel with
  | 0 => qs
  | S fuel =>
      if MAX_PENDING_PER_CHANNEL <? channel_event_total channel qs then
        match cap_victim channel qs with
        | None => qs
        | Some scope =>
            match qs !! scope with
            | Some l => cap_loop fuel channel (put_or_remove scope (tail l) qs)
            | None => cap_loop fuel channel qs
            end
        end
      else qs
  end.

Definition enforce_channel_cap (channel : Uuid) (q : EventQueue) : EventQueue :=
  set_queues (cap_loop (channel_event_total channel (queues q)) channel (queues q)) q.

Definition push (event : QueuedEvent) (q : EventQueue) : bool * EventQueue :=
  if bool_decide (dedup_mode q = Drop) && bool_decide (qe_scope event ∈ in_flight_scopes q)
  then (false, q)
  else
    let scope := qe_scope event in
    let queue := entry_or_default scope (queues q) in
    let queue := if MAX_PENDING_PER_SCOPE <=? length queue then tail queue else queue in
    let queue := queue ++ [event] in
    (true, enforce_channel_cap (qe_channel_id event)
             (set_queues (<[scope := queue]> (queues q)) q)).

Definition recover_withheld_for_expired_scope (scope : SessionScope) (q : EventQueue) : EventQueue :=
  match withheld_native_steer q !! scope with
  | None => q
  | Some entries =>
      let q := set_withheld (delete scope (withheld_native_steer q)) q in
      let queue := trim_back (entries ++ entry_or_default scope (queues q)) in
      enforce_channel_cap (channel_id scope) (set_queues (<[scope := queue]> (queues q)) q)
  end.

(** The body of the expiry loop shared by [flush_next] and
[has_flushable_work]. *)
Definition expire_one (q : EventQueue) (scope : SessionScope) : EventQueue :=
  recover_withheld_for_expired_scope scope
    (set_in_flight (in_flight_scopes q ∖ {[scope]}) (delete scope (in_flight_deadlines q))
       (delete scope (in_flight_batch_sizes q)) q).

Definition expired_scopes (now : N) (q : EventQueue) : list SessionScope :=
  map fst (filter (λ sd : SessionScope * N, (sd.2 <= now)%N) (hm_iter (in_flight_deadlines q))).

Definition expire_stuck (now : N) (q : EventQueue) : EventQueue :=
  foldl expire_one q (expired_scopes now q).

(** The candidate filter of [flush_next] and [has_flushable_work]. *)
Definition ready (now : N) (q : EventQueue) (sq : SessionScope * list QueuedEvent) : Prop :=
  sq.2 ≠ [] ∧ sq.1 ∉ in_flight_scopes q
  ∧ match retry_after q !! sq.1 with None => True | Some t => (t <= now)%N end.

#[export] Instance ready_dec now q sq : Decision (ready now q sq).
Proof. unfold ready. destruct (retry_after q !! sq.1); apply _. Defined.

Definition pick_ready (now : N) (q : EventQueue) : option SessionScope :=
  fst <$> min_by_key front_received_at (filter (ready now q) (hm_iter (queues q))).

(** [cancelled_batches.keys().find(..)]. *)
Definition pick_cancelled (q : EventQueue) : option SessionScope :=
  head (filter (λ s, s ∉ in_flight_scopes q) (map fst (hm_iter (cancelled_batches q)))).

Definition set_dispatched (now : N) (scope : SessionScope) (size : nat) (q : EventQueue) : EventQueue :=
  set_in_flight ({[scope]} ∪ in_flight_scopes q)
    (<[scope := (now + in_flight_deadline q)%N]> (in_flight_deadlines q))
    (<[scope := size]> (in_flight_batch_sizes q)) q.

Definition created_at_key (be : BatchEvent) : N := created_at (be_event be).

Definition flush_next (now : N) (q0 : EventQueue) : option FlushBatch * EventQueue :=
  let q := expire_stuck now q0 in
  match pick_ready now q with
  | None =>
      match pick_cancelled q with
      | None => (None, q)
      | Some scope =>
          let cancelled := entry_or_default scope (cancelled_batches q) in
          let cancel_reason := cancel_reasons q !! scope in
          let q := set_cancelled (delete scope (cancelled_batches q))
                     (delete scope (cancel_reasons q)) q in
          let q := set_dispatched now scope (length cancelled) q in
          (Some {| b_channel_id := channel_id scope; b_scope := scope; b_events := cancelled;
                   b_cancelled_events := []; b_cancel_reason := cancel_reason |}, q)
      end
  | Some scope =>
      let queue := entry_or_default scope (queues q) in
      let drain_count := MAX_BATCH_EVENTS `min` length queue in
      let events := sort_by_key created_at_key (map to_batch (take drain_count queue)) in
      let q := set_queues (put_or_remove scope (drop drain_count queue) (queues q)) q in
      let q := set_dispatched now scope (length events) q in
      let cancelled_events := entry_or_default scope (cancelled_batches q) in
      let cancel_reason :=
        match cancelled_events with
        | [] => None
        | _ => cancel_reasons q !! scope
        end in
      let q := set_cancelled (delete scope (cancelled_batches q))
                 (delete scope (cancel_reasons q)) q in
      (Some {| b_channel_id := channel_id scope; b_scope := scope; b_events := events;
               b_cancelled_events := cancelled_events; b_cancel_reason := cancel_reason |}, q)
  end.

Definition mark_complete (now : N) (scope : SessionScope) (q : EventQueue) : EventQueue :=
  let q := set_in_flight (in_flight_scopes q ∖ {[scope]}) (delete scope (in_flight_deadlines q))
             (delete scope (in_flight_batch_sizes q)) q in
  match retry_after q !! scope with
  | Some deadline =>
      if (now <? deadline)%N then q
      else set_retry (delete scope (retry_after q)) (delete scope (retry_counts q)) q
  | None => set_retry (retry_after q) (delete scope (retry_counts q)) q
  end.

(** The capped exponential backoff of [requeue], in seconds. *)
Definition capped_secs (attempt : N) : N :=
  N.min (BASE_RETRY_DELAY_SECS * N.shiftl 1 (N.min (attempt - 1) 6)) MAX_RETRY_DELAY_SECS.

Definition U32_MAX : N := 4294967295.

(** [capped_secs * (0.8 + nanos / u32::MAX * 0.4)], in nanoseconds. *)
Definition retry_delay (attempt nanos : N) : N :=
  from_secs (capped_secs attempt) * (4 * U32_MAX + 2 * nanos) / (5 * U32_MAX).

Definition requeue (now nanos : N) (batch : FlushBatch) (q : EventQueue)
  : option FlushBatch * EventQueue :=
  let scope := b_scope batch in
  let attempt := (default 0 (retry_counts q !! scope) + 1)%N in
  if (MAX_RETRIES <? attempt)%N then
    (Some batch, set_retry (delete scope (retry_after q)) (delete scope (retry_counts q)) q)
  else
    let q := set_retry (retry_after q) (<[scope := attempt]> (retry_counts q)) q in
    let queue := trim_back (map (of_batch (b_channel_id batch) scope) (b_events batch)
                            ++ entry_or_default scope (queues q)) in
    let q := set_queues (<[scope := queue]> (queues q)) q in
    let q := set_retry (<[scope := (now + retry_delay attempt nanos)%N]> (retry_after q))
               (retry_counts q) q in
    (None, enforce_channel_cap (b_channel_id batch) q).

Definition requeue_preserve_timestamps (batch : FlushBatch) (q : EventQueue) : EventQueue :=
  let scope := b_scope batch in
  let q :=
    match b_cancelled_events batch with
    | [] => q
    | cancelled =>
        let existing := entry_or_default scope (cancelled_batches q) in
        let reasons :=
          match b_cancel_reason batch, cancel_reasons q !! scope with
          | Some reason, None => <[scope := reason]> (cancel_reasons q)
          | _, _ => cancel_reasons q
          end in
        set_cancelled (<[scope := cancelled ++ existing]> (cancelled_batches q)) reasons q
    end in
  let queue := trim_back (map (of_batch (b_channel_id batch) scope) (b_events batch)
                          ++ entry_or_default scope (queues q)) in
  enforce_channel_cap (b_channel_id batch) (set_queues (<[scope := queue]> (queues q)) q).

Definition requeue_as_cancelled (batch : FlushBatch) (reason : CancelReason) (q : EventQueue)
  : EventQueue :=
  let scope := b_scope batch in
  let entry := entry_or_default scope (cancelled_batches q)
               ++ b_cancelled_events batch ++ b_events batch in
  set_cancelled (<[scope := entry]> (cancelled_batches q))
    (<[scope := reason]> (cancel_reasons q)) q.

Definition has_flushable_work (now : N) (q0 : EventQueue) : bool * EventQueue :=
  let q := expire_stuck now q0 in
  (existsb (λ sq, bool_decide (ready now q sq)) (hm_iter (queues q))
   || existsb (λ s, bool_decide (s ∉ in_flight_scopes q)) (map fst (hm_iter (cancelled_batches q))), q).

Definition has_undispatched_work (q : EventQueue) : bool :=
  let has_queued :=
    existsb (λ sq : SessionScope * list QueuedEvent,
      bool_decide (sq.2 ≠ []) && bool_decide (sq.1 ∉ in_flight_scopes q)) (hm_iter (queues q)) in
  let has_cancelled :=
    existsb (λ s, bool_decide (s ∉ in_flight_scopes q)) (map fst (hm_iter (cancelled_batches q))) in
  let has_withheld :=
    existsb (λ sq : SessionScope * list QueuedEvent,
      bool_decide (sq.2 ≠ []) && bool_decide (sq.1 ∉ in_flight_scopes q))
      (hm_iter (withheld_native_steer q)) in
  has_queued || has_cancelled || has_withheld.

Definition pending_channels (q : EventQueue) : nat := size (queues q).

Definition has_pending_scope (scope : SessionScope) (q : EventQueue) : bool :=
  bool_decide (entry_or_default scope (queues q) ≠ [])
  || bool_decide (entry_or_default scope (cancelled_batches q) ≠ []).

(** [retain(|s, _| s.channel_id() != channel_id)]. *)
Definition retain_other_channels {A : Type} (channel : Uuid) (m : gmap SessionScope A)
  : gmap SessionScope A :=
  filter (λ sa, channel_id sa.1 ≠ channel) m.

Definition drain_channel (channel : Uuid) (q : EventQueue) : list string * EventQueue :=
  let scopes := filter (λ s, channel_id s = channel) (map fst (hm_iter (queues q))) in
  let ids := concat (map (λ s, map (λ e, id (qe_event e)) (entry_or_default s (queues q))) scopes) in
  let q := set_queues (foldr delete (queues q) scopes) q in
  let q := set_retry (retain_other_channels channel (retry_after q))
             (retain_other_channels channel (retry_counts q)) q in
  let q := set_cancelled (retain_other_channels channel (cancelled_batches q))
             (retain_other_channels channel (cancel_reasons q)) q in
  (ids, set_withheld (retain_other_channels channel (withheld_native_steer q)) q).

Definition is_scope_in_flight (scope : SessionScope) (q : EventQueue) : bool :=
  bool_decide (scope ∈ in_flight_scopes q).

Definition has_in_flight (q : EventQueue) : bool := bool_decide (in_flight_scopes q ≠ ∅).

(** [iter().position(..)] followed by [remove(pos)]. *)
Fixpoint remove_first (event_id : string) (l : list QueuedEvent)
  : option (QueuedEvent * list QueuedEvent) :=
  match l with
  | [] => None
  | e :: l' =>
      if decide (id (qe_event e) = event_id) then Some (e, l')
      else '(x, l'') ← remove_first event_id l'; Some (x, e :: l'')
  end.

Definition mark_native_steer_pending (scope : SessionScope) (event_id : string) (q : EventQueue)
  : bool * EventQueue :=
  match queues q !! scope with
  | None => (false, q)
  | Some l =>
      match remove_first event_id l with
      | None => (false, q)
      | Some (qe, l') =>
          let q := set_queues (put_or_remove scope l' (queues q)) q in
          (true, set_withheld
            (<[scope := entry_or_default scope (withheld_native_steer q) ++ [qe]]>
               (withheld_native_steer q)) q)
      end
  end.

Definition release_native_steer (scope : SessionScope) (event_id : string) (q : EventQueue)
  : EventQueue :=
  match withheld_native_steer q !! scope with
  | None => q
  | Some entries =>
      match remove_first event_id entries with
      | None => q
      | Some (qe, entries') =>
          let q := set_withheld (put_or_remove scope entries' (withheld_native_steer q)) q in
          let queue := trim_back (qe :: entry_or_default scope (queues q)) in
          enforce_channel_cap (channel_id scope) (set_queues (<[scope := queue]> (queues q)) q)
      end
  end.

(** The two [retain] blocks of [remove_event]. *)
Definition retain_other_ids (scope : SessionScope) (event_id : string)
    (m : gmap SessionScope (list QueuedEvent)) : gmap SessionScope (list QueuedEvent) :=
  match m !! scope with
  | None => m
  | Some l => put_or_remove scope (filter (λ e, id (qe_event e) ≠ event_id) l) m
  end.

Definition remove_event (scope : SessionScope) (event_id : string) (q : EventQueue) : EventQueue :=
  let q := set_withheld (retain_other_ids scope event_id (withheld_native_steer q)) q in
  set_queues (retain_other_ids scope event_id (queues q)) q.

Definition compact_expired_state (now : N) (q : EventQueue) : EventQueue :=
  let ra := filter (λ sd : SessionScope * N, (now < sd.2)%N) (retry_after q) in
  let rc := filter (λ sc : SessionScope * N,
              is_Some (ra !! sc.1) ∨ entry_or_default sc.1 (queues q) ≠ []
              ∨ sc.1 ∈ in_flight_scopes q) (retry_counts q) in
  set_retry ra rc q.
End operations.

(** ** Lemmas: counting the events of a channel *)

Abbreviation qmap := (gmap SessionScope (list QueuedEvent)).

(** The events a scope contributes to a channel's total. *)
Definition weight (channel : Uuid) (s : SessionScope) (l : list QueuedEvent) : nat :=
  if decide (channel_id s = channel) then length l else 0.

Definition qtotal (channel : Uuid) (qs : qmap) : nat :=
  sum_list (map (uncurry (weight channel)) (map_to_list qs)).

Lemma qtotal_insert_None channel s l (qs : qmap) :
  qs !! s = None → qtotal channel (<[s := l]> qs) = weight channel s l + qtotal channel qs.
Proof.
  intros Hs. unfold qtotal.
  by rewrite (sum_list_map_perm _ _ _ (map_to_list_insert qs s l Hs)).
Qed.

Lemma qtotal_split channel s (qs : qmap) :
  qtotal channel qs = weight channel s (entry_or_default s qs) + qtotal channel (delete s qs).
Proof.
  unfold entry_or_default. destruct (qs !! s) as [l|] eqn:E; simpl.
  - rewrite <-(insert_delete_id qs s l E) at 1.
    apply qtotal_insert_None, lookup_delete_eq.
  - rewrite delete_id by done. unfold weight. case_decide; done.
Qed.

Lemma qtotal_insert channel s l (qs : qmap) :
  qtotal channel (<[s := l]> qs) = weight channel s l + qtotal channel (delete s qs).
Proof. rewrite <-insert_delete_eq. apply qtotal_insert_None, lookup_delete_eq. Qed.

Lemma qtotal_put_or_remove channel s l (qs : qmap) :
  qtotal channel (put_or_remove s l qs) = weight channel s l + qtotal channel (delete s qs).
Proof.
  destruct l as [|e l]; simpl; [|apply qtotal_insert].
  unfold weight. by case_decide.
Qed.

Lemma qtotal_positive channel (qs : qmap) :
  0 < qtotal channel qs → ∃ s l, qs !! s = Some l ∧ channel_id s = channel ∧ l ≠ [].
Proof.
  unfold qtotal. intros Hpos.
  assert (∃ sl, sl ∈ map_to_list qs ∧ uncurry (weight channel) sl ≠ 0) as ([s l] & Hin & Hw).
  { induction (map_to_list qs) as [|sl ls IH]; simpl in *; [lia|].
    destruct (decide (uncurry (weight channel) sl = 0)) as [Hz|?]; [|exists sl; set_solver].
    rewrite Hz in Hpos. destruct (IH Hpos) as (x & ? & ?). exists x. set_solver. }
  apply elem_of_map_to_list in Hin. simpl in Hw. unfold weight in Hw.
  case_decide as Hc; [|done]. exists s, l. split_and!; try done. by intros ->.
Qed.

Lemma lookup_put_or_remove {A : Type} s (l : list A) (m : gmap SessionScope (list A)) s' :
  put_or_remove s l m !! s' =
  if decide (s = s') then match l with [] => None | _ => Some l end else m !! s'.
Proof.
  destruct l; simpl; case_decide; subst; by simplify_map_eq.
Qed.

Section with_order.
Context {HO : HashOrder}.

Lemma channel_event_total_qtotal channel (qs : qmap) :
  channel_event_total channel qs = qtotal channel qs.
Proof.
  unfold channel_event_total, qtotal.
  rewrite (sum_list_map_perm _ _ _ (filter_Permutation _ _ _ (hm_iter_perm qs))).
  induction (map_to_list qs) as [|[s l] ls IH]; simpl; [done|].
  rewrite filter_cons. unfold weight at 1. simpl. case_decide; simpl; lia.
Qed.

(** ** Lemmas: the aggregate cap *)

(** [qs'] keeps, for each scope of the channel, a suffix of its queue. *)
Record evicted (channel : Uuid) (qs qs' : qmap) : Prop := {
  evicted_suffix : ∀ s l', qs' !! s = Some l' → ∃ l, qs !! s = Some l ∧ l' `suffix_of` l;
  evicted_other : ∀ s, channel_id s ≠ channel → qs' !! s = qs !! s
}.

Lemma evicted_refl channel qs : evicted channel qs qs.
Proof. split; [|done]. intros s l' Hl. by exists l'. Qed.

Lemma evicted_trans channel qs1 qs2 qs3 :
  evicted channel qs1 qs2 → evicted channel qs2 qs3 → evicted channel qs1 qs3.
Proof.
  intros [H1 H2] [H3 H4]. split.
  - intros s l3 (l2 & (l1 & ? & ?)%H1 & ?)%H3. exists l1. split; [done|]. by etrans.
  - intros s Hs. by rewrite H4, H2.
Qed.

Lemma evicted_pop channel s e l (qs : qmap) :
  qs !! s = Some (e :: l) → channel_id s = channel → evicted channel qs (put_or_remove s l qs).
Proof.
  intros Hs Hc. split.
  - intros s' l'. rewrite lookup_put_or_remove. case_decide as Hd; [subst s'|by exists l'].
    destruct l; [done|]. intros [= <-]. eexists. split; [done|]. by exists [e].
  - intros s' Hs'. rewrite lookup_put_or_remove. case_decide; [by subst|done].
Qed.

Lemma cap_victim_spec channel (qs : qmap) :
  0 < qtotal channel qs →
  ∃ s e l, cap_victim channel qs = Some s ∧ qs !! s = Some (e :: l) ∧ channel_id s = channel
    ∧ ∀ s' e' l', qs !! s' = Some (e' :: l') → channel_id s' = channel →
        (qe_received_at e <= qe_received_at e')%N.
Proof.
  intros (s0 & l0 & Hs0 & Hc0 & Hne0)%qtotal_positive. unfold cap_victim.
  set (cands := filter _ _).
  assert (Hin : (s0, l0) ∈ cands).
  { apply list_elem_of_filter. split; [done|]. by apply elem_of_hm_iter. }
  destruct (min_by_key_is_Some front_received_at _ _ Hin) as ([s l] & Hmin). rewrite Hmin.
  apply min_by_key_Some in Hmin as [Hsl Hle].
  apply list_elem_of_filter in Hsl as [[Hc Hne] Hsl]. simpl in *.
  apply elem_of_hm_iter in Hsl. destruct l as [|e l]; [done|].
  exists s, e, l. split_and!; try done. intros s' e' l' Hs' Hc'.
  apply (Hle (s', e' :: l')). apply list_elem_of_filter. split; [done|]. by apply elem_of_hm_iter.
Qed.

Lemma cap_loop_spec fuel channel (qs : qmap) :
  qtotal channel qs ≤ fuel + MAX_PENDING_PER_CHANNEL →
  evicted channel qs (cap_loop fuel channel qs)
  ∧ qtotal channel (cap_loop fuel channel qs) = qtotal channel qs `min` MAX_PENDING_PER_CHANNEL.
Proof.
  revert qs. induction fuel as [|fuel IH]; intros qs Hle; simpl.
  { split; [apply evicted_refl|lia]. }
  rewrite channel_event_total_qtotal.
  destruct (_ <? _) eqn:Hlt; [apply Nat.ltb_lt in Hlt|apply Nat.ltb_ge in Hlt].
  2: { split; [apply evicted_refl|lia]. }
  destruct (cap_victim_spec channel qs) as (s & e & l & -> & Hs & Hc & _); [lia|].
  rewrite Hs. simpl.
  assert (Hq : qtotal channel qs = S (qtotal channel (put_or_remove s l qs))).
  { rewrite qtotal_put_or_remove, (qtotal_split channel s qs).
    unfold entry_or_default. rewrite Hs. simpl. unfold weight. by rewrite !decide_True. }
  destruct (IH (put_or_remove s l qs)) as [He Ht]; [lia|]. split; [|lia].
  eapply evicted_trans; [by eapply evicted_pop|done].
Qed.

Lemma cap_loop_id channel (qs : qmap) :
  qtotal channel qs ≤ MAX_PENDING_PER_CHANNEL →
  cap_loop (channel_event_total channel qs) channel qs = qs.
Proof.
  intros Hle. destruct (channel_event_total channel qs) eqn:E; simpl; [done|].
  rewrite channel_event_total_qtotal in *. by rewrite (proj2 (Nat.ltb_ge _ _)).
Qed.

Lemma enforce_channel_cap_spec channel q :
  ∃ qs', enforce_channel_cap channel q = set_queues qs' q ∧ evicted channel (queues q) qs'
    ∧ qtotal channel qs' = qtotal channel (queues q) `min` MAX_PENDING_PER_CHANNEL.
Proof.
  eexists. split; [done|]. apply cap_loop_spec. rewrite channel_event_total_qtotal. lia.
Qed.
End with_order.

(** ** The invariant *)

(** An event is filed under its own scope and that scope's channel. *)
Definition keyed (s : SessionScope) (e : QueuedEvent) : Prop :=
  qe_scope e = s ∧ qe_channel_id e = channel_id s.

Record queues_ok (qs : qmap) : Prop := {
  qo_scope : ∀ s l, qs !! s = Some l → length l ≤ MAX_PENDING_PER_SCOPE;
  qo_keyed : ∀ s l, qs !! s = Some l → Forall (keyed s) l;
  qo_channel : ∀ c, qtotal c qs ≤ MAX_PENDING_PER_CHANNEL
}.

Record wf (q : EventQueue) : Prop := {
  wf_queues : queues_ok (queues q);
  wf_deadlines : dom (in_flight_deadlines q) = in_flight_scopes q;
  wf_sizes : dom (in_flight_batch_sizes q) = in_flight_scopes q;
  wf_retries : ∀ s n, retry_counts q !! s = Some n → (1 <= n <= MAX_RETRIES)%N;
  wf_reasons : dom (cancel_reasons q) ⊆ dom (cancelled_batches q);
  wf_withheld : ∀ s l, withheld_native_steer q !! s = Some l → l ≠ [] ∧ Forall (keyed s) l
}.

(** ** Lemmas: the queues stay well-formed *)

Lemma qtotal_filter channel (qs : qmap) :
  qtotal channel qs = qtotal channel (filter (λ sl, channel_id sl.1 = channel) qs).
Proof.
  induction qs as [|s l qs Hs IH] using map_ind; [done|].
  rewrite qtotal_insert_None by done.
  destruct (decide (channel_id s = channel)) as [Hc|Hc].
  - rewrite map_filter_insert_True by done. rewrite qtotal_insert_None; [by rewrite IH|].
    apply map_lookup_filter_None_2. by left.
  - rewrite map_filter_insert_False by done. rewrite delete_id by done.
    rewrite IH. unfold weight. by rewrite decide_False.
Qed.

Lemma qtotal_ext channel (qs qs' : qmap) :
  (∀ s, channel_id s = channel → qs !! s = qs' !! s) → qtotal channel qs = qtotal channel qs'.
Proof.
  intros Hext. rewrite (qtotal_filter channel qs), (qtotal_filter channel qs'). f_equal.
  apply map_eq. intros s. rewrite !map_lookup_filter.
  destruct (decide (channel_id s = channel)) as [Hc|Hc].
  - by rewrite Hext.
  - destruct (qs !! s), (qs' !! s); simpl; by rewrite ?option_guard_False.
Qed.

Lemma queues_ok_empty : queues_ok ∅.
Proof. split; [set_solver..|]. intros c. unfold qtotal. rewrite map_to_list_empty. simpl. lia. Qed.

Lemma queues_ok_put_or_remove (qs : qmap) s l l' :
  queues_ok qs → qs !! s = Some l → l' `sublist_of` l → queues_ok (put_or_remove s l' qs).
Proof.
  intros [H1 H2 H3] Hs Hsub. split.
  - intros s' l''. rewrite lookup_put_or_remove. case_decide as Hd; [subst s'|apply H1].
    intros Heq. assert (l'' = l') as -> by (destruct l'; naive_solver).
    specialize (H1 s l Hs). apply sublist_length in Hsub. lia.
  - intros s' l''. rewrite lookup_put_or_remove. case_decide as Hd; [subst s'|apply H2].
    intros Heq. assert (l'' = l') as -> by (destruct l'; naive_solver).
    specialize (H2 s l Hs). by eapply Forall_sublist_of.
  - intros c. rewrite qtotal_put_or_remove. specialize (H3 c).
    rewrite (qtotal_split c s qs) in H3. unfold entry_or_default in H3. rewrite Hs in H3.
    simpl in H3. apply sublist_length in Hsub. unfold weight in *. case_decide; lia.
Qed.

Lemma qtotal_mono c (qs qs' : qmap) : qs' ⊆ qs → qtotal c qs' ≤ qtotal c qs.
Proof.
  revert qs. induction qs' as [|s l qs' Hs IH] using map_ind; intros qs Hsub.
  { unfold qtotal at 1. rewrite map_to_list_empty. simpl. lia. }
  assert (Hqs : qs !! s = Some l) by (by eapply lookup_weaken; [apply lookup_insert_eq|]).
  rewrite qtotal_insert_None by done. rewrite (qtotal_split c s qs).
  unfold entry_or_default. rewrite Hqs. simpl. apply Nat.add_le_mono_l, IH.
  apply map_subseteq_spec. intros s' l' Hl'.
  assert (s ≠ s') by congruence. rewrite lookup_delete_ne by done.
  eapply lookup_weaken; [|exact Hsub]. by rewrite lookup_insert_ne.
Qed.

Lemma queues_ok_subseteq (qs qs' : qmap) :
  queues_ok qs → qs' ⊆ qs → queues_ok qs'.
Proof.
  intros [H1 H2 H3] Hsub.
  split; [intros s l Hl; by eapply H1, lookup_weaken|intros s l Hl; by eapply H2, lookup_weaken|].
  intros c. etrans; [by apply qtotal_mono|done].
Qed.

Lemma evicted_ok channel (qs qs' : qmap) :
  evicted channel qs qs' → qtotal channel qs' ≤ MAX_PENDING_PER_CHANNEL →
  (∀ s l, qs !! s = Some l → length l ≤ MAX_PENDING_PER_SCOPE ∧ Forall (keyed s) l) →
  (∀ c, c ≠ channel → qtotal c qs ≤ MAX_PENDING_PER_CHANNEL) →
  queues_ok qs'.
Proof.
  intros [Hsuf Hoth] Ht Hqs Hc. split.
  - intros s l (l0 & [? ?]%Hqs & Hl%suffix_length)%Hsuf. lia.
  - intros s l (l0 & [? Hall]%Hqs & [k ->])%Hsuf. by apply Forall_app in Hall as [_ ?].
  - intros c. destruct (decide (c = channel)) as [->|Hne]; [done|].
    rewrite (qtotal_ext c qs' qs); [by apply Hc|]. intros s <-. by apply Hoth.
Qed.

Lemma queues_ok_store {HO : HashOrder} q s l :
  queues_ok (queues q) → length l ≤ MAX_PENDING_PER_SCOPE → Forall (keyed s) l →
  queues_ok (queues (enforce_channel_cap (channel_id s) (set_queues (<[s := l]> (queues q)) q))).
Proof.
  intros [H1 H2 H3] Hlen Hall.
  destruct (enforce_channel_cap_spec (channel_id s) (set_queues (<[s := l]> (queues q)) q))
    as (qs' & -> & He & Ht). simpl in *.
  eapply evicted_ok; [exact He|lia| |].
  - intros s' l'. rewrite lookup_insert. case_decide; [naive_solver|eauto].
  - intros c Hc. rewrite (qtotal_ext c _ (queues q)); [done|].
    intros s' <-. rewrite lookup_insert_ne; [done|congruence].
Qed.

Lemma entry_keyed (qs : qmap) s : queues_ok qs → Forall (keyed s) (entry_or_default s qs).
Proof.
  intros [_ H2 _]. unfold entry_or_default. destruct (qs !! s) eqn:E; simpl; [by apply H2|done].
Qed.

Lemma entry_length (qs : qmap) s :
  queues_ok qs → length (entry_or_default s qs) ≤ MAX_PENDING_PER_SCOPE.
Proof.
  intros [H1 _ _]. unfold entry_or_default. destruct (qs !! s) eqn:E; simpl; [by eapply H1|lia].
Qed.

Lemma trim_back_ok s l :
  Forall (keyed s) l → length (trim_back l) ≤ MAX_PENDING_PER_SCOPE ∧ Forall (keyed s) (trim_back l).
Proof. unfold trim_back. rewrite length_take. split; [lia|by apply Forall_take]. Qed.

(** Re-filing events in front of a scope's queue keeps the queues well-formed. *)
Lemma queues_ok_refile {HO : HashOrder} q s l :
  queues_ok (queues q) → Forall (keyed s) l →
  queues_ok (queues (enforce_channel_cap (channel_id s)
    (set_queues (<[s := trim_back (l ++ entry_or_default s (queues q))]> (queues q)) q))).
Proof.
  intros Hq Hl.
  destruct (trim_back_ok s (l ++ entry_or_default s (queues q))) as [? ?].
  { apply Forall_app. auto using entry_keyed. }
  by apply queues_ok_store.
Qed.

Lemma of_batch_keyed s bes : Forall (keyed s) (map (of_batch (channel_id s) s) bes).
Proof. apply Forall_forall. intros e (be & -> & _)%list_elem_of_fmap. done. Qed.

(** ** Lemmas: every operation preserves the invariant *)

Definition batch_ok (b : FlushBatch) : Prop := b_channel_id b = channel_id (b_scope b).

Lemma wf_set_queues q qs : wf q → queues_ok qs → wf (set_queues qs q).
Proof. intros [] ?. by split. Qed.

Lemma wf_set_withheld q w :
  wf q → (∀ s l, w !! s = Some l → l ≠ [] ∧ Forall (keyed s) l) → wf (set_withheld w q).
Proof. intros [] ?. by split. Qed.

Lemma wf_set_cancelled q cb cr : wf q → dom cr ⊆ dom cb → wf (set_cancelled cb cr q).
Proof. intros [] ?. by split. Qed.

Lemma wf_set_retry q ra rc :
  wf q → (∀ s n, rc !! s = Some n → (1 <= n <= MAX_RETRIES)%N) → wf (set_retry ra rc q).
Proof. intros [] ?. by split. Qed.

Lemma wf_release_slot q s :
  wf q → wf (set_in_flight (in_flight_scopes q ∖ {[s]}) (delete s (in_flight_deadlines q))
               (delete s (in_flight_batch_sizes q)) q).
Proof.
  intros [H1 H2 H3 H4 H5 H6]. split; simpl; try done; by rewrite dom_delete_L, ?H2, ?H3.
Qed.

Lemma wf_set_dispatched q now s n : wf q → wf (set_dispatched now s n q).
Proof.
  intros [H1 H2 H3 H4 H5 H6]. split; simpl; try done; by rewrite dom_insert_L, ?H2, ?H3.
Qed.

Lemma withheld_ok_delete q s s' l :
  wf q → delete s (withheld_native_steer q) !! s' = Some l → l ≠ [] ∧ Forall (keyed s') l.
Proof. intros [_ _ _ _ _ Hw] [_ ?]%lookup_delete_Some. by apply Hw. Qed.

Lemma remove_first_sublist i l e l' :
  remove_first i l = Some (e, l') → l' `sublist_of` l ∧ e ∈ l ∧ id (qe_event e) = i.
Proof.
  revert l'. induction l as [|x l IH]; intros l'; simpl; [done|].
  case_decide as Hd.
  - intros [= <- <-]. split_and!; [by constructor|set_solver|done].
  - destruct (remove_first i l) as [[y l'']|]; [|done]. intros [= <- <-].
    destruct (IH l'' eq_refl) as (? & ? & ?). split_and!; [by constructor|set_solver|done].
Qed.

Lemma retain_dom {A B : Type} c (m1 : gmap SessionScope A) (m2 : gmap SessionScope B) :
  dom m1 ⊆ dom m2 → dom (retain_other_channels c m1) ⊆ dom (retain_other_channels c m2).
Proof.
  intros Hsub s. unfold retain_other_channels. rewrite !elem_of_dom.
  intros [x [Hx Hc]%map_lookup_filter_Some].
  assert (s ∈ dom m2) as [y Hy]%elem_of_dom by (apply Hsub, elem_of_dom; by exists x).
  exists y. by apply map_lookup_filter_Some.
Qed.

Section preservation.
Context {HO : HashOrder}.

Lemma wf_recover q s : wf q → wf (recover_withheld_for_expired_scope s q).
Proof.
  intros Hq. unfold recover_withheld_for_expired_scope.
  destruct (withheld_native_steer q !! s) as [l|] eqn:E; [|done].
  assert (Hw : wf (set_withheld (delete s (withheld_native_steer q)) q))
    by (apply wf_set_withheld; [done|]; intros; by eapply withheld_ok_delete).
  apply (wf_set_queues _ _ Hw).
  apply (queues_ok_refile (set_withheld (delete s (withheld_native_steer q)) q)); [apply Hw|].
  by destruct (wf_withheld q Hq s l E).
Qed.

Lemma wf_expire_one q s : wf q → wf (expire_one q s).
Proof. intros Hq. by apply wf_recover, wf_release_slot. Qed.

Lemma wf_expire_all l q : wf q → wf (foldl expire_one q l).
Proof. revert q. induction l as [|s l IH]; intros q Hq; simpl; auto using wf_expire_one. Qed.

Lemma wf_expire_stuck now q : wf q → wf (expire_stuck now q).
Proof. apply wf_expire_all. Qed.

Lemma wf_extend now s n q : wf q → wf (extend_in_flight_deadline now s n q).
Proof.
  intros Hq. unfold extend_in_flight_deadline.
  destruct (in_flight_deadlines q !! s) as [d|] eqn:E; [|done]. case_match; [|done].
  destruct Hq. split; simpl; [done| |done..].
  rewrite dom_insert_L. apply elem_of_dom_2 in E. set_solver.
Qed.

Lemma wf_push e q :
  qe_channel_id e = channel_id (qe_scope e) → wf q → wf (push e q).2.
Proof.
  intros He Hq. unfold push. case_match; [done|]. simpl. rewrite He.
  apply (wf_set_queues _ _ Hq).
  assert (Hk : Forall (keyed (qe_scope e)) (entry_or_default (qe_scope e) (queues q)))
    by (apply entry_keyed, Hq).
  assert (Hl := entry_length _ (qe_scope e) (wf_queues q Hq)).
  apply (queues_ok_store q); [apply Hq|..].
  - rewrite length_app. simpl. destruct (_ <=? _) eqn:Hc.
    + destruct (entry_or_default _ _); simpl in *; unfold MAX_PENDING_PER_SCOPE in *; lia.
    + apply Nat.leb_gt in Hc. lia.
  - apply Forall_app. split; [|by repeat constructor].
    destruct (_ <=? _); [|done]. by apply Forall_tail.
Qed.

Lemma wf_flush_next now q : wf q → wf (flush_next now q).2.
Proof.
  intros Hq%(wf_expire_stuck now). unfold flush_next. set (q' := expire_stuck now q) in *.
  destruct (pick_ready now q') as [s|] eqn:E.
  - simpl. apply wf_set_cancelled; [apply wf_set_dispatched|].
    + apply wf_set_queues; [done|]. unfold pick_ready in E.
      apply fmap_Some in E as ([s' l] & [[_ Hin%elem_of_hm_iter]%list_elem_of_filter _]%min_by_key_Some & ->).
      simpl in *. eapply queues_ok_put_or_remove; [apply Hq|done|].
      unfold entry_or_default. rewrite Hin. simpl. apply sublist_drop.
    + simpl. rewrite !dom_delete_L. pose proof (wf_reasons q' Hq). set_solver.
  - destruct (pick_cancelled q') as [s|]; simpl; [|done].
    apply wf_set_dispatched, wf_set_cancelled; [done|].
    rewrite !dom_delete_L. pose proof (wf_reasons q' Hq). set_solver.
Qed.

Lemma wf_mark_complete now s q : wf q → wf (mark_complete now s q).
Proof.
  intros Hq. unfold mark_complete.
  set (q1 := set_in_flight _ _ _ q). assert (Hq1 : wf q1) by by apply wf_release_slot.
  assert (Hr : ∀ s' n, delete s (retry_counts q1) !! s' = Some n → (1 <= n <= MAX_RETRIES)%N).
  { intros s' n [_ ?]%lookup_delete_Some. by eapply wf_retries. }
  simpl. repeat case_match; auto using wf_set_retry.
Qed.

Lemma wf_requeue now nanos b q : batch_ok b → wf q → wf (requeue now nanos b q).2.
Proof.
  intros Hb Hq. unfold requeue. destruct (_ <? _)%N eqn:Hn; simpl.
  - apply wf_set_retry; [done|]. intros s' n [_ ?]%lookup_delete_Some. by eapply wf_retries.
  - apply N.ltb_ge in Hn. rewrite Hb.
    set (rc := <[b_scope b := _]> (retry_counts q)).
    assert (Hq1 : wf (set_retry (retry_after q) rc q)).
    { apply wf_set_retry; [done|]. intros s' n. unfold rc. rewrite lookup_insert.
      case_decide; [|by apply wf_retries]. intros [= <-]. lia. }
    eapply (wf_set_queues (set_retry _ rc q)); [by eapply (wf_set_retry _ _ rc), Hq1|].
    apply (queues_ok_refile (set_retry _ rc q)); [apply Hq|]. apply of_batch_keyed.
Qed.

Lemma wf_requeue_preserve b q : batch_ok b → wf q → wf (requeue_preserve_timestamps b q).
Proof.
  intros Hb Hq. unfold requeue_preserve_timestamps. rewrite Hb.
  set (q1 := match b_cancelled_events b with [] => q | _ => _ end).
  assert (Hq1 : wf q1).
  { unfold q1. destruct (b_cancelled_events b); [done|]. apply wf_set_cancelled; [done|].
    pose proof (wf_reasons q Hq). rewrite dom_insert_L.
    repeat case_match; rewrite ?dom_insert_L; set_solver. }
  apply (wf_set_queues _ _ Hq1), (queues_ok_refile q1); [apply Hq1|apply of_batch_keyed].
Qed.

Lemma wf_requeue_as_cancelled b r q : wf q → wf (requeue_as_cancelled b r q).
Proof.
  intros Hq. apply wf_set_cancelled; [done|]. rewrite !dom_insert_L.
  pose proof (wf_reasons q Hq). set_solver.
Qed.

Lemma delete_all_subseteq (qs : qmap) l : foldr delete qs l ⊆ qs.
Proof. induction l as [|s l IH]; simpl; [done|]. etrans; [apply delete_subseteq|done]. Qed.

Lemma wf_drain_channel c q : wf q → wf (drain_channel c q).2.
Proof.
  intros Hq. simpl. apply wf_set_withheld; [apply wf_set_cancelled; [apply wf_set_retry|]|].
  - apply wf_set_queues; [done|]. eapply queues_ok_subseteq; [apply Hq|apply delete_all_subseteq].
  - intros s n [? _]%map_lookup_filter_Some. by eapply wf_retries.
  - apply retain_dom, Hq.
  - intros s l [? _]%map_lookup_filter_Some. by eapply wf_withheld.
Qed.

Lemma wf_mark_native_steer s i q : wf q → wf (mark_native_steer_pending s i q).2.
Proof.
  intros Hq. unfold mark_native_steer_pending. destruct (queues q !! s) as [l|] eqn:E; [|done].
  destruct (remove_first i l) as [[e l']|] eqn:Hr; [|done]. simpl.
  apply remove_first_sublist in Hr as (Hsub & Hin & _).
  apply wf_set_withheld; [apply wf_set_queues; [done|]|].
  - eapply queues_ok_put_or_remove; [apply Hq|done|done].
  - simpl. intros s' l''. rewrite lookup_insert. case_decide as Hd; [subst s'|by apply wf_withheld].
    intros [= <-]. split; [by destruct (entry_or_default _ _)|].
    apply Forall_app. split.
    + unfold entry_or_default. destruct (withheld_native_steer q !! s) eqn:Hw; simpl; [|done].
      by destruct (wf_withheld q Hq s _ Hw).
    + constructor; [|done]. pose proof (qo_keyed _ (wf_queues q Hq) s l E) as Hall.
      rewrite Forall_forall in Hall. by apply Hall.
Qed.

Lemma put_or_remove_withheld_ok (m : qmap) s l :
  (∀ s l, m !! s = Some l → l ≠ [] ∧ Forall (keyed s) l) → Forall (keyed s) l →
  ∀ s' l', put_or_remove s l m !! s' = Some l' → l' ≠ [] ∧ Forall (keyed s') l'.
Proof.
  intros Hm Hl s' l'. rewrite lookup_put_or_remove. case_decide as Hd; [subst s'|apply Hm].
  destruct l; [done|]. by intros [= <-].
Qed.

Lemma wf_release_native_steer s i q : wf q → wf (release_native_steer s i q).
Proof.
  intros Hq. unfold release_native_steer.
  destruct (withheld_native_steer q !! s) as [l|] eqn:E; [|done].
  destruct (remove_first i l) as [[e l']|] eqn:Hr; [|done].
  apply remove_first_sublist in Hr as (Hsub & Hin & _).
  destruct (wf_withheld q Hq s l E) as [_ Hall].
  set (q1 := set_withheld _ q). assert (Hq1 : wf q1).
  { apply wf_set_withheld; [done|]. apply put_or_remove_withheld_ok; [apply Hq|].
    by eapply Forall_sublist_of. }
  apply (wf_set_queues _ _ Hq1), (queues_ok_refile q1 s [e]); [apply Hq1|].
  constructor; [|done]. rewrite Forall_forall in Hall. by apply Hall.
Qed.

Lemma wf_remove_event s i q : wf q → wf (remove_event s i q).
Proof.
  intros Hq. unfold remove_event. apply wf_set_queues; [apply wf_set_withheld; [done|]|].
  - unfold retain_other_ids. destruct (withheld_native_steer q !! s) as [l|] eqn:E; [|apply Hq].
    apply put_or_remove_withheld_ok; [apply Hq|].
    eapply Forall_sublist_of; [apply filter_sublist_of|by destruct (wf_withheld q Hq s l E)].
  - unfold retain_other_ids. simpl. destruct (queues q !! s) as [l|] eqn:E; [|apply Hq].
    eapply queues_ok_put_or_remove; [apply Hq|done|apply filter_sublist_of].
Qed.

Lemma wf_compact now q : wf q → wf (compact_expired_state now q).
Proof.
  intros Hq. apply wf_set_retry; [done|].
  intros s n [? _]%map_lookup_filter_Some. by eapply wf_retries.
Qed.
End preservation.

(** ** The queue as a state machine *)

(** The calls the harness makes, with the values they read from the clock. *)
Inductive op : Type :=
| Op_push (e : QueuedEvent)
| Op_flush
| Op_has_flushable_work
| Op_complete (s : SessionScope)
| Op_requeue (nanos : N) (b : FlushBatch)
| Op_requeue_preserve (b : FlushBatch)
| Op_requeue_as_cancelled (b : FlushBatch) (r : CancelReason)
| Op_extend (s : SessionScope) (secs : N)
| Op_drain (c : Uuid)
| Op_withhold (s : SessionScope) (event_id : string)
| Op_release (s : SessionScope) (event_id : string)
| Op_remove (s : SessionScope) (event_id : string)
| Op_compact.

(** What a caller owes: an event is filed under its own channel, and only
batches that [flush_next] builds come back ([FlushBatch] names the channel of
its scope). *)
Definition op_ok (o : op) : Prop :=
  match o with
  | Op_push e => qe_channel_id e = channel_id (qe_scope e)
  | Op_requeue _ b | Op_requeue_preserve b | Op_requeue_as_cancelled b _ => batch_ok b
  | _ => True
  end.

(** One call at time [now]: the batch handed out, if any, and the new state. *)
Definition exec (HO : HashOrder) (now : N) (o : op) (q : EventQueue)
  : option FlushBatch * EventQueue :=
  match o with
  | Op_push e => (None, (push e q).2)
  | Op_flush => flush_next now q
  | Op_has_flushable_work => (None, (has_flushable_work now q).2)
  | Op_complete s => (None, mark_complete now s q)
  | Op_requeue nanos b => (None, (requeue now nanos b q).2)
  | Op_requeue_preserve b => (None, requeue_preserve_timestamps b q)
  | Op_requeue_as_cancelled b r => (None, requeue_as_cancelled b r q)
  | Op_extend s secs => (None, extend_in_flight_deadline now s secs q)
  | Op_drain c => (None, (drain_channel c q).2)
  | Op_withhold s i => (None, (mark_native_steer_pending s i q).2)
  | Op_release s i => (None, release_native_steer s i q)
  | Op_remove s i => (None, remove_event s i q)
  | Op_compact => (None, compact_expired_state now q)
  end.

(** A step of the machine: any call, any clock reading, any iteration order. *)
Record label : Type := mkLabel { l_now : N; l_op : op; l_batch : option FlushBatch }.

Inductive step : EventQueue → label → EventQueue → Prop :=
| step_exec HO now o q batch q' :
    op_ok o → exec HO now o q = (batch, q') → step q (mkLabel now o batch) q'.

Inductive trace : EventQueue → list label → EventQueue → Prop :=
| trace_nil q : trace q [] q
| trace_cons q1 l q2 ls q3 : step q1 l q2 → trace q2 ls q3 → trace q1 (l :: ls) q3.

(** The states the harness can be in. *)
Definition reachable (q : EventQueue) : Prop :=
  ∃ mode secs ls, trace (with_in_flight_deadline secs (new mode)) ls q.

Lemma reachable_step q l q' : reachable q → step q l q' → reachable q'.
Proof.
  intros (mode & secs & ls & Ht) Hs. exists mode, secs, (ls ++ [l]).
  induction Ht as [q|q1 l1 q2 ls q3 H1 Ht IH]; simpl;
    [by eapply trace_cons, trace_nil|by eapply trace_cons, IH].
Qed.

Lemma reachable_exec HO now o q : reachable q → op_ok o → reachable (exec HO now o q).2.
Proof.
  intros Hq Ho. eapply reachable_step; [done|].
  apply (step_exec HO now o q (exec HO now o q).1); [done|by destruct (exec _ _ _ _)].
Qed.

Lemma wf_new mode secs : wf (with_in_flight_deadline secs (new mode)).
Proof. split; simpl; try done. apply queues_ok_empty. Qed.

Lemma wf_exec HO now o q : op_ok o → wf q → wf (exec HO now o q).2.
Proof.
  destruct o; intros Ho Hq; [by apply wf_push|by apply wf_flush_next|by apply wf_expire_stuck|
    by apply wf_mark_complete|by apply wf_requeue|by apply wf_requeue_preserve|
    by apply wf_requeue_as_cancelled|by apply wf_extend|by apply wf_drain_channel|
    by apply wf_mark_native_steer|by apply wf_release_native_steer|by apply wf_remove_event|
    by apply wf_compact].
Qed.

Lemma wf_step q l q' : step q l q' → wf q → wf q'.
Proof. intros [HO now o q1 b q2 Ho He] Hq. pose proof (wf_exec HO now o q1 Ho Hq). by rewrite He in *. Qed.

Lemma wf_trace q ls q' : trace q ls q' → wf q → wf q'.
Proof. induction 1; eauto using wf_step. Qed.

Lemma wf_reachable q : reachable q → wf q.
Proof. intros (mode & secs & ls & Ht). eapply wf_trace; [exact Ht|apply wf_new]. Qed.

(** ** Lemmas: expiry *)

Section expiry.
Context {HO : HashOrder}.

Lemma recover_fields s q :
  ∃ qs w, recover_withheld_for_expired_scope s q = set_queues qs (set_withheld w q)
    ∧ (withheld_native_steer q = ∅ → qs = queues q ∧ w = ∅).
Proof.
  unfold recover_withheld_for_expired_scope.
  destruct (withheld_native_steer q !! s) as [l|] eqn:E.
  - eexists _, _. split; [done|]. intros Hw. by rewrite Hw in E.
  - exists (queues q), (withheld_native_steer q). split; [by destruct q|done].
Qed.

(** What expiring a list of scopes does to each table. *)
Record expired_from (q q' : EventQueue) (l : list SessionScope) : Prop := {
  ef_flight : in_flight_scopes q' = in_flight_scopes q ∖ list_to_set l;
  ef_deadlines : ∀ s, in_flight_deadlines q' !! s
    = if decide (s ∈ l) then None else in_flight_deadlines q !! s;
  ef_retry : retry_after q' = retry_after q ∧ retry_counts q' = retry_counts q;
  ef_cancelled : cancelled_batches q' = cancelled_batches q ∧ cancel_reasons q' = cancel_reasons q;
  ef_config : in_flight_deadline q' = in_flight_deadline q ∧ dedup_mode q' = dedup_mode q;
  ef_withheld : withheld_native_steer q = ∅ → queues q' = queues q ∧ withheld_native_steer q' = ∅
}.

Lemma expire_all_spec l q : expired_from q (foldl expire_one q l) l.
Proof.
  revert q. induction l as [|s l IH]; intros q; simpl.
  { split; try done. set_solver. }
  destruct (IH (expire_one q s)) as [H1 H2 H3 H4 H5 H6]. unfold expire_one in *.
  edestruct (recover_fields s) as (qs & w & Heq & Hw). rewrite Heq in *. simpl in *.
  split; try done.
  - rewrite H1. set_solver.
  - intros s'. rewrite H2. rewrite lookup_delete.
    repeat case_decide; set_solver.
  - intros He. apply Hw in He as [-> ->]. by apply H6.
Qed.

Lemma expire_stuck_spec now q : expired_from q (expire_stuck now q) (expired_scopes now q).
Proof. apply expire_all_spec. Qed.

Lemma elem_of_expired_scopes now q s :
  s ∈ expired_scopes now q ↔ ∃ d, in_flight_deadlines q !! s = Some d ∧ (d <= now)%N.
Proof.
  unfold expired_scopes. rewrite list_elem_of_fmap. split.
  - intros ([s' d] & -> & [? ?%elem_of_hm_iter]%list_elem_of_filter). eauto.
  - intros (d & Hd & Hle). exists (s, d). split; [done|].
    apply list_elem_of_filter. split; [done|]. by apply elem_of_hm_iter.
Qed.

(** A scope whose deadline is still ahead survives expiry. *)
Lemma expire_stuck_keeps now q s d :
  wf q → in_flight_deadlines q !! s = Some d → (now < d)%N →
  in_flight_deadlines (expire_stuck now q) !! s = Some d
  ∧ s ∈ in_flight_scopes (expire_stuck now q).
Proof.
  intros Hq Hd Hlt. destruct (expire_stuck_spec now q) as [H1 H2 _ _ _ _].
  assert (Hn : s ∉ expired_scopes now q).
  { rewrite elem_of_expired_scopes. intros (d' & Hd' & ?). rewrite Hd in Hd'. simplify_eq. lia. }
  split; [rewrite H2; by rewrite decide_False|].
  rewrite H1, elem_of_difference, elem_of_list_to_set. split; [|done].
  rewrite <-(wf_deadlines q Hq). by eapply elem_of_dom_2.
Qed.

(** ** Lemmas: choosing a scope *)

Lemma pick_ready_Some now q s :
  pick_ready now q = Some s →
  ∃ e l, queues q !! s = Some (e :: l) ∧ s ∉ in_flight_scopes q
    ∧ ready now q (s, e :: l)
    ∧ ∀ s' e' l', queues q !! s' = Some (e' :: l') → ready now q (s', e' :: l') →
        (qe_received_at e <= qe_received_at e')%N.
Proof.
  unfold pick_ready. intros ([s' l] & Hmin & ->)%fmap_Some.
  apply min_by_key_Some in Hmin as [[Hr Hin]%list_elem_of_filter Hle].
  apply elem_of_hm_iter in Hin. destruct l as [|e l]; [by destruct Hr|].
  exists e, l. split_and!; [done|by destruct Hr as (_ & ? & _)|done|].
  intros s2 e2 l2 H2 Hr2. apply (Hle (s2, e2 :: l2)).
  apply list_elem_of_filter. split; [done|]. by apply elem_of_hm_iter.
Qed.

Lemma pick_ready_None now q :
  pick_ready now q = None ↔ ∀ s l, queues q !! s = Some l → ¬ ready now q (s, l).
Proof.
  unfold pick_ready. rewrite fmap_None, min_by_key_None. split.
  - intros Hnil s l Hl Hr. assert (Hin : (s, l) ∈ filter (ready now q) (hm_iter (queues q))).
    { apply list_elem_of_filter. split; [done|]. by apply elem_of_hm_iter. }
    rewrite Hnil in Hin. set_solver.
  - intros Hall. apply elem_of_nil_inv. intros [s l] [Hr Hin%elem_of_hm_iter]%list_elem_of_filter.
    by apply (Hall s l).
Qed.

Lemma pick_cancelled_Some q s :
  pick_cancelled q = Some s →
  s ∉ in_flight_scopes q ∧ ∃ l, cancelled_batches q !! s = Some l.
Proof.
  unfold pick_cancelled. intros Hh%head_Some_elem_of.
  apply list_elem_of_filter in Hh as [? ([s' l] & -> & Hin%elem_of_hm_iter)%list_elem_of_fmap].
  eauto.
Qed.

Lemma pick_cancelled_None q :
  pick_cancelled q = None ↔ ∀ s, s ∈ dom (cancelled_batches q) → s ∈ in_flight_scopes q.
Proof.
  unfold pick_cancelled. rewrite head_None. split.
  - intros Hnil s [l Hl]%elem_of_dom. destruct (decide (s ∈ in_flight_scopes q)) as [|Hn]; [done|].
    assert (Hin : s ∈ filter (λ s, s ∉ in_flight_scopes q) (map fst (hm_iter (cancelled_batches q)))).
    { apply list_elem_of_filter. split; [done|]. apply list_elem_of_fmap. exists (s, l).
      split; [done|]. by apply elem_of_hm_iter. }
    rewrite Hnil in Hin. set_solver.
  - intros Hall. apply elem_of_nil_inv. intros s [Hn Hin]%list_elem_of_filter.
    apply list_elem_of_fmap in Hin as ([s' l] & -> & Hin%elem_of_hm_iter).
    apply Hn, Hall. by eapply elem_of_dom_2.
Qed.
End expiry.
