(* ===== verification/EventQueueProps.v ===== *)
(** * EventQueueProps: what the event queue promises

The properties of the state machine of [EventQueue]: its invariant over every
reachable state, the fairness and exclusivity of dispatch, agreement between
the readiness test and dispatch, and that requeueing, steering and draining
lose nothing they should keep.  Every theorem holds for all iteration orders
of the hash maps and all clock readings. *)
From S2P Require Import Prelude Text Nostr Scope EventQueue.

(** ** Lemmas *)

Section lemmas.
Context {HO : HashOrder}.

Lemma existsb_ready now q :
  existsb (λ sq, bool_decide (ready now q sq)) (hm_iter (queues q)) = true ↔
  is_Some (pick_ready now q).
Proof.
  rewrite existsb_elem_of. split.
  - intros ([s l] & Hin%elem_of_hm_iter & Hr%bool_decide_eq_true).
    apply not_eq_None_Some. intros Hn. rewrite pick_ready_None in Hn. by apply (Hn s l).
  - intros [s (e & l & Hs & _ & Hr & _)%pick_ready_Some].
    exists (s, e :: l). by rewrite elem_of_hm_iter, bool_decide_eq_true.
Qed.

Lemma existsb_cancelled q :
  existsb (λ s, bool_decide (s ∉ in_flight_scopes q)) (map fst (hm_iter (cancelled_batches q)))
    = true ↔ is_Some (pick_cancelled q).
Proof.
  rewrite existsb_elem_of. split.
  - intros (s & ([s' l] & -> & Hin%elem_of_hm_iter)%list_elem_of_fmap & Hn%bool_decide_eq_true).
    apply not_eq_None_Some. rewrite pick_cancelled_None. intros Hall.
    apply Hn, Hall. by eapply elem_of_dom_2.
  - intros [s [Hn [l Hl]]%pick_cancelled_Some]. exists s. split; [|by apply bool_decide_eq_true].
    apply list_elem_of_fmap. exists (s, l). split; [done|]. by apply elem_of_hm_iter.
Qed.

(** The fields of a successful [flush_next], by source of the batch. *)
Lemma flush_next_queue now q s b q' :
  pick_ready now (expire_stuck now q) = Some s → flush_next now q = (Some b, q') →
  b_scope b = s.
Proof. unfold flush_next. intros ->. by intros [= <- <-]. Qed.

Lemma min_drop_take {A : Type} (l : list A) n :
  take (n `min` length l) l = take n l ∧ drop (n `min` length l) l = drop n l.
Proof.
  destruct (Nat.le_ge_cases n (length l)).
  - by rewrite Nat.min_l.
  - by rewrite Nat.min_r, !take_ge, !drop_ge by lia.
Qed.

(** A scope in flight past every clock reading of a call stays in flight, and
the call does not hand out its batch. *)
Lemma exec_keeps_in_flight now o q s d :
  wf q → in_flight_deadlines q !! s = Some d → (now < d)%N → o ≠ Op_complete s →
  (∃ d', in_flight_deadlines (exec HO now o q).2 !! s = Some d' ∧ (d <= d')%N)
  ∧ ∀ b, (exec HO now o q).1 = Some b → b_scope b ≠ s.
Proof.
  intros Hq Hd Hlt Ho. assert (Hle : (d <= d)%N) by done.
  destruct (expire_stuck_keeps now q s d Hq Hd Hlt) as [Hd1 Hin].
  destruct o as [e| | |s'|nanos b|b|b r|s' secs|c|s' i|s' i|s' i|]; simpl;
    try (split; [by eauto|done]).
  - unfold push. case_match; simpl; split; eauto; done.
  - unfold flush_next. set (q1 := expire_stuck now q) in *.
    destruct (pick_ready now q1) as [s'|] eqn:Hp.
    + apply pick_ready_Some in Hp as (e & l & _ & Hn & _). simpl.
      assert (s' ≠ s) by congruence. split; [|by intros ? [= <-]].
      exists d. by rewrite lookup_insert_ne.
    + destruct (pick_cancelled q1) as [s'|] eqn:Hc; simpl; [|split; [by eauto|done]].
      apply pick_cancelled_Some in Hc as [Hn _].
      assert (s' ≠ s) by congruence. split; [|by intros ? [= <-]].
      exists d. by rewrite lookup_insert_ne.
  - assert (s' ≠ s) by congruence. split; [|done]. exists d. split; [|done].
    unfold mark_complete. simpl. repeat case_match; simpl; by rewrite lookup_delete_ne.
  - unfold requeue. case_match; simpl; split; eauto; done.
  - split; [|done]. unfold requeue_preserve_timestamps. destruct (b_cancelled_events b); eauto.
  - split; [|done]. unfold extend_in_flight_deadline.
    destruct (in_flight_deadlines q !! s') as [cur|] eqn:E; [|eauto].
    case_match eqn:Hc; [|eauto]. apply N.ltb_lt in Hc. simpl. rewrite lookup_insert.
    case_decide; [|eauto]. simplify_eq. eexists. split; [done|]. lia.
  - unfold mark_native_steer_pending. split; [|done]. repeat case_match; eauto.
  - unfold release_native_steer. split; [|done]. repeat case_match; eauto.
Qed.
End lemmas.

Lemma entry_put_or_remove {A : Type} s (l : list A) (m : gmap SessionScope (list A)) :
  entry_or_default s (put_or_remove s l m) = l.
Proof. unfold entry_or_default. rewrite lookup_put_or_remove, decide_True by done. by destruct l. Qed.

Lemma of_to_batch s e : keyed s e → of_batch (channel_id s) s (to_batch e) = e.
Proof. destruct e. unfold keyed, of_batch. simpl. by intros [-> ->]. Qed.

Lemma map_of_to_batch s l : Forall (keyed s) l → map (of_batch (channel_id s) s) (map to_batch l) = l.
Proof. induction 1 as [|e l He Hl IH]; simpl; [done|]. by rewrite of_to_batch, IH. Qed.

(** Filing a list under [s] that holds no more events than before costs no
event: neither cap evicts anything. *)
Lemma store_no_eviction {HO : HashOrder} (qs0 qs : qmap) q s l :
  queues_ok qs0 →
  (∀ s', s' ≠ s → qs !! s' = qs0 !! s') →
  length l ≤ length (entry_or_default s qs0) →
  trim_back l = l
  ∧ enforce_channel_cap (channel_id s) (set_queues (<[s := l]> qs) q) = set_queues (<[s := l]> qs) q.
Proof.
  intros Hq Hqs Hl. pose proof (entry_length _ s Hq). split; [by apply take_ge; lia|].
  unfold enforce_channel_cap. simpl. rewrite cap_loop_id; [done|].
  rewrite qtotal_insert. pose proof (qo_channel _ Hq (channel_id s)) as Hc.
  rewrite (qtotal_split _ s) in Hc.
  assert (delete s qs = delete s qs0) as ->.
  { apply map_eq. intros s'. rewrite !lookup_delete. case_decide; [done|]. by apply Hqs. }
  unfold weight in *. rewrite decide_True in * by done. lia.
Qed.

Lemma mark_complete_fields now s q :
  queues (mark_complete now s q) = queues q
  ∧ cancelled_batches (mark_complete now s q) = cancelled_batches q
  ∧ in_flight_scopes (mark_complete now s q) = in_flight_scopes q ∖ {[s]}.
Proof. unfold mark_complete. simpl. by repeat case_match. Qed.

Lemma remove_first_Some i l e l' :
  remove_first i l = Some (e, l') →
  id (qe_event e) = i ∧ l ≡ₚ e :: l'
  ∧ filter (λ e', id (qe_event e') ≠ i) l' = filter (λ e', id (qe_event e') ≠ i) l.
Proof.
  revert l'. induction l as [|x l IH]; intros l'; simpl; [done|]. case_decide as Hd.
  - intros [= <- <-]. split_and!; [done|done|]. rewrite filter_cons_False; [done|tauto].
  - destruct (remove_first i l) as [[y l'']|]; [|done]. intros [= <- <-].
    destruct (IH l'' eq_refl) as (? & Hp & Hf). split_and!; [done|rewrite Hp; apply Permutation_swap|].
    by rewrite !filter_cons, Hf.
Qed.

(** Taking back an event that was just appended. *)
Lemma remove_first_snoc i l e :
  (∀ e', e' ∈ l → id (qe_event e') ≠ i) → id (qe_event e) = i →
  remove_first i (l ++ [e]) = Some (e, l).
Proof.
  induction l as [|x l IH]; intros Hl He; simpl; [by rewrite decide_True|].
  rewrite decide_False by (apply Hl; set_solver). rewrite IH; [done| |done].
  intros e' He'. apply Hl. set_solver.
Qed.

Lemma filter_all_id {A : Type} (P : A → Prop) `{∀ x, Decision (P x)} (l : list A) :
  (∀ x, x ∈ l → P x) → filter P l = l.
Proof.
  induction l as [|x l IH]; intros Hl; [done|]. rewrite filter_cons_True by (apply Hl; set_solver).
  rewrite IH; [done|]. set_solver.
Qed.

(** Storing back what was there restores the table, when it stores no empty
lists. *)
Lemma put_or_remove_entry {A : Type} s (m : gmap SessionScope (list A)) :
  m !! s ≠ Some [] → put_or_remove s (entry_or_default s m) m = m.
Proof.
  intros Hne. apply map_eq. intros s'. rewrite lookup_put_or_remove.
  case_decide as Hd; [|done]. subst s'. unfold entry_or_default.
  by destruct (m !! s) as [[]|].
Qed.

Lemma put_or_remove_insert {A : Type} s (l l' : list A) (m : gmap SessionScope (list A)) :
  put_or_remove s l (<[s := l']> m) = put_or_remove s l m.
Proof. destruct l; simpl; [apply delete_insert_eq|apply insert_insert_eq]. Qed.

Lemma retain_other_ids_spec s i (m : qmap) :
  entry_or_default s (retain_other_ids s i m)
    = filter (λ e, id (qe_event e) ≠ i) (entry_or_default s m)
  ∧ ∀ s', s' ≠ s → retain_other_ids s i m !! s' = m !! s'.
Proof.
  unfold retain_other_ids. split.
  - destruct (m !! s) as [l|] eqn:E; unfold entry_or_default at 2; rewrite E; simpl.
    + by rewrite entry_put_or_remove.
    + unfold entry_or_default. by rewrite E.
  - intros s' Hs'. destruct (m !! s); [|done]. by rewrite lookup_put_or_remove, decide_False.
Qed.

Lemma lookup_retain_other_channels {A : Type} c (m : gmap SessionScope A) s :
  retain_other_channels c m !! s = if decide (channel_id s = c) then None else m !! s.
Proof.
  unfold retain_other_channels. rewrite map_lookup_filter.
  destruct (m !! s); simpl; [|by case_decide]. repeat case_guard; by case_decide.
Qed.

Lemma lookup_foldr_delete {A : Type} (l : list SessionScope) (m : gmap SessionScope A) s :
  foldr delete m l !! s = if decide (s ∈ l) then None else m !! s.
Proof.
  induction l as [|x l IH]; simpl; [done|].
  rewrite lookup_delete, IH. repeat case_decide; set_solver.
Qed.

(** The scopes [drain_channel] visits, with their queues. *)
Lemma drained_scopes {HO : HashOrder} c (qs : qmap) s :
  s ∈ filter (λ s, channel_id s = c) (map fst (hm_iter qs)) ↔ channel_id s = c ∧ is_Some (qs !! s).
Proof.
  rewrite list_elem_of_filter, list_elem_of_fmap. split.
  - intros (Hc & [s' l] & -> & Hin%elem_of_hm_iter). split; [done|by eexists].
  - intros [Hc [l Hl]]. split; [done|]. exists (s, l). split; [done|]. by apply elem_of_hm_iter.
Qed.

Lemma length_drained {HO : HashOrder} {B : Type} (f : QueuedEvent → B) c (qs : qmap) :
  length (concat (map (λ s, map f (entry_or_default s qs))
    (filter (λ s, channel_id s = c) (map fst (hm_iter qs))))) = channel_event_total c qs.
Proof.
  unfold channel_event_total.
  assert (Hall : Forall (λ sl : SessionScope * list QueuedEvent, qs !! sl.1 = Some sl.2) (hm_iter qs)).
  { apply Forall_forall. intros [s l]. by rewrite elem_of_hm_iter. }
  induction Hall as [|[s l] ls Hs Hls IH]; [done|]. simpl in *. rewrite !filter_cons. simpl.
  case_decide; [|done]. simpl. rewrite length_app, length_map, IH.
  unfold entry_or_default. by rewrite Hs.
Qed.

(** A scope that is backing off is not picked. *)
Lemma pick_ready_not_before {HO : HashOrder} t q s d :
  retry_after q !! s = Some d → (t < d)%N → pick_ready t (expire_stuck t q) ≠ Some s.
Proof.
  intros Hd Ht (e & l & _ & _ & (_ & _ & Hr) & _)%pick_ready_Some. revert Hr. simpl.
  destruct (ef_retry _ _ _ (expire_stuck_spec t q)) as [-> _]. rewrite Hd. lia.
Qed.

(** The jittered delay: between 0.8 and 0.9 of the backoff. *)
Lemma retry_delay_bounds n nanos :
  (nanos < 1000000000)%N →
  let backoff := from_secs (N.min (5 * 2 ^ N.min n 6) 300) in
  (8 * backoff <= 10 * retry_delay (n + 1) nanos)%N
  ∧ (10 * retry_delay (n + 1) nanos < 9 * backoff)%N.
Proof.
  intros Hnanos. cbv zeta. unfold retry_delay, capped_secs, BASE_RETRY_DELAY_SECS,
    MAX_RETRY_DELAY_SECS, from_secs, U32_MAX.
  rewrite N.add_sub, N.shiftl_mul_pow2, N.mul_1_l.
  set (c := N.min (5 * 2 ^ N.min n 6) 300).
  assert (Hc : (5 <= c <= 300)%N).
  { unfold c. pose proof (N.pow_le_mono_r 2 0 (N.min n 6)). lia. }
  clearbody c. set (D := (5 * 4294967295)%N). set (X := (c * 1000000000 * _)%N).
  pose proof (N.div_mod X D ltac:(done)) as Hdiv. pose proof (N.mod_lt X D ltac:(done)) as Hmod.
  set (r := (X `mod` D)%N) in *. set (y := (X / D)%N) in *. clearbody r y. unfold X, D in *.
  assert (Hcn : (c * nanos <= c * 999999999)%N) by (apply N.mul_le_mono_l; lia).
  split; lia.
Qed.

Lemma trace_keeps_in_flight q ls q' s d :
  trace q ls q' → wf q → in_flight_deadlines q !! s = Some d →
  (∀ l, l ∈ ls → (l_now l < d)%N ∧ l_op l ≠ Op_complete s) →
  is_Some (in_flight_deadlines q' !! s) ∧ ∀ l b, l ∈ ls → l_batch l = Some b → b_scope b ≠ s.
Proof.
  intros Ht. revert d. induction Ht as [q|q1 l q2 ls q3 Hs Ht IH]; intros d Hq Hd Hls.
  { split; [by eexists|set_solver]. }
  pose proof (wf_step _ _ _ Hs Hq) as Hq2.
  destruct Hs as [HO now o q1 b q2 Ho He].
  destruct (Hls _ (list_elem_of_here _ _)) as [Hnow Hop]. simpl in Hnow, Hop.
  destruct (exec_keeps_in_flight (HO:=HO) now o q1 s d Hq Hd Hnow Hop) as [(d' & Hd' & Hle) Hb].
  rewrite He in Hd', Hb. simpl in Hd', Hb.
  destruct (IH d' Hq2 Hd') as [Hin Hbs].
  { intros l Hl. destruct (Hls l) as [? ?]; [by apply list_elem_of_further|]. split; [lia|done]. }
  split; [done|]. intros l b' [->|Hl]%elem_of_cons Hlb; [by apply Hb|by eapply Hbs].
Qed.

(** ** Properties *)

(** In every reachable state the queue is well-formed: at most 500 events
wait per scope and per channel, every event is filed under its own scope and
channel, the in-flight set, its deadlines and its batch sizes name the same
scopes, retry counters stay between 1 and [MAX_RETRIES], and withheld lists
are never empty. *)
Theorem reachable_well_formed (HO : HashOrder) (q : EventQueue) (c : Uuid) :
  reachable q → wf q ∧ channel_event_total c (queues q) ≤ MAX_PENDING_PER_CHANNEL.
Proof.
  intros Hq%wf_reachable. split; [done|]. rewrite channel_event_total_qtotal.
  apply (wf_queues q Hq).
Qed.

Definition w_event (i : string) (at_secs : N) : Event := mkEvent i "pk" 9 at_secs [] "hello".
Definition w_scope : SessionScope := Conversation 7.
Definition w_queued (i : string) (at_secs received : N) : QueuedEvent :=
  mkQueuedEvent 7 w_scope (w_event i at_secs) received "mention".

(** A channel with two events, the newer one delivered first. *)
Definition w_pushes : list op := [Op_push (w_queued "b" 20 100); Op_push (w_queued "a" 10 101)].

Definition w_start : EventQueue := with_in_flight_deadline 10 (new Queue).

Definition w_state : EventQueue :=
  foldl (λ q o, (exec map_to_list_order 0 o q).2) w_start w_pushes.

Lemma w_state_reachable : reachable w_state.
Proof.
  exists Queue, 10%N, (map (λ o, mkLabel 0 o None) w_pushes). fold w_start.
  do 2 (eapply trace_cons;
    [by apply (step_exec map_to_list_order); [|vm_compute; reflexivity]|]).
  vm_compute. constructor.
Qed.

Lemma reachable_well_formed_witness :
  wf w_state ∧ channel_event_total (HO := map_to_list_order) 7 (queues w_state) = 2.
Proof.
  split; [|vm_compute; reflexivity].
  apply (reachable_well_formed map_to_list_order w_state 7 w_state_reachable).
Defined.

(** How a batch relates to the state [q] it was taken from (after expiry):
either it drains the front of the ready scope whose head waited longest, in
creation order, with the cancelled events of the scope as carry-over; or no
scope is ready and it re-dispatches a cancelled batch. *)
Inductive taken_from (now : N) (q q' : EventQueue) (b : FlushBatch) : Prop :=
| taken_from_queue e l :
    queues q !! b_scope b = Some (e :: l) →
    ready now q (b_scope b, e :: l) →
    (∀ s' e' l', queues q !! s' = Some (e' :: l') → ready now q (s', e' :: l') →
      (qe_received_at e <= qe_received_at e')%N) →
    b_events b ≡ₚ map to_batch (take MAX_BATCH_EVENTS (e :: l)) →
    StronglySorted (key_le created_at_key) (b_events b) →
    b_cancelled_events b = entry_or_default (b_scope b) (cancelled_batches q) →
    entry_or_default (b_scope b) (queues q') = drop MAX_BATCH_EVENTS (e :: l) →
    taken_from now q q' b
| taken_from_cancelled :
    (∀ s l, queues q !! s = Some l → ¬ ready now q (s, l)) →
    cancelled_batches q !! b_scope b = Some (b_events b) →
    b_cancelled_events b = [] →
    queues q' = queues q →
    taken_from now q q' b.



(** The readiness test agrees with dispatch: [has_flushable_work] answers
[true] exactly when [flush_next] at the same instant hands out a batch, and
both leave the same state when it does not. *)
Theorem has_flushable_work_iff_flush (HO : HashOrder) (now : N) (q : EventQueue) :
  ((has_flushable_work now q).1 = true ↔ ∃ b, (flush_next now q).1 = Some b)
  ∧ ((has_flushable_work now q).1 = false → (has_flushable_work now q).2 = (flush_next now q).2).
Proof.
  unfold has_flushable_work, flush_next. set (q1 := expire_stuck now q). simpl.
  rewrite orb_true_iff, orb_false_iff, existsb_ready, existsb_cancelled.
  rewrite <-!not_true_iff_false, existsb_ready, existsb_cancelled.
  destruct (pick_ready now q1) as [s|].
  { split; [|intros [[] _]; by eexists]. split; [by eexists|]. intros _. left. by eexists. }
  destruct (pick_cancelled q1) as [s|]; simpl.
  { split; [|intros [_ []]; by eexists]. split; [by eexists|]. intros _. right. by eexists. }
  split; [|done]. split; [intros [[? ?]|[? ?]]; done|by intros [? ?]].
Qed.

(** C3. One turn per scope: while a scope's deadline lies ahead and its turn is
not completed, the scope stays in flight and no call, in any order and under
any interleaving, hands out a second batch for it. *)
Theorem in_flight_exclusive (q q' : EventQueue) (ls : list label) (s : SessionScope) (d : N) :
  reachable q → in_flight_deadlines q !! s = Some d → trace q ls q' →
  (∀ l, l ∈ ls → (l_now l < d)%N ∧ l_op l ≠ Op_complete s) →
  s ∈ in_flight_scopes q' ∧ ∀ l b, l ∈ ls → l_batch l = Some b → b_scope b ≠ s.
Proof.
  intros Hq%wf_reachable Hd Ht Hls.
  destruct (trace_keeps_in_flight _ _ _ _ _ Ht Hq Hd Hls) as [Hin Hb]. split; [|done].
  rewrite <-(wf_deadlines q' (wf_trace _ _ _ Ht Hq)). by apply elem_of_dom.
Qed.

Definition w_flushed : EventQueue := (flush_next (HO := map_to_list_order) 200 w_state).2.

Lemma w_flushed_reachable : reachable w_flushed.
Proof. apply (reachable_exec map_to_list_order 200 Op_flush); [apply w_state_reachable|done]. Qed.

(** A push and a dispatch attempt while the first batch is in flight. *)
Definition w_calls : list label :=
  [mkLabel 300 (Op_push (w_queued "c" 30 300)) None; mkLabel 301 Op_flush None].

Definition w_after : EventQueue :=
  foldl (λ q l, (exec map_to_list_order (l_now l) (l_op l) q).2) w_flushed w_calls.

Lemma w_after_trace : trace w_flushed w_calls w_after.
Proof.
  do 2 (eapply trace_cons;
    [by apply (step_exec map_to_list_order); [|vm_compute; reflexivity]|]).
  vm_compute. constructor.
Qed.

Lemma w_flushed_deadline : in_flight_deadlines w_flushed !! w_scope = Some 110000000200%N.
Proof. vm_compute. reflexivity. Qed.

Lemma in_flight_exclusive_witness : w_scope ∈ in_flight_scopes w_after.
Proof.
  eapply (in_flight_exclusive w_flushed _ w_calls w_scope _ w_flushed_reachable w_flushed_deadline
    w_after_trace).
  intros l Hl. repeat (apply elem_of_cons in Hl as [->|Hl]; [done|]). by apply not_elem_of_nil in Hl.
Defined.

(** Cancelling before the prompt is sent is lossless: requeueing the batch
[flush_next] just took, and completing the turn, restores the scope's queue
event for event (with the batch at its front in creation order), the carried
cancelled events, every other scope's queue and the set of turns in flight;
neither capacity limit evicts anything. *)
Theorem requeue_preserve_restores (HO : HashOrder) (now now' : N) (q q' : EventQueue)
    (s : SessionScope) (b : FlushBatch) :
  reachable q → pick_ready now (expire_stuck now q) = Some s → flush_next now q = (Some b, q') →
  let q1 := expire_stuck now q in
  let q2 := mark_complete now' s (requeue_preserve_timestamps b q') in
  entry_or_default s (queues q2) ≡ₚ entry_or_default s (queues q1)
  ∧ map to_batch (entry_or_default s (queues q2))
      = b_events b ++ map to_batch (drop MAX_BATCH_EVENTS (entry_or_default s (queues q1)))
  ∧ (∀ s', s' ≠ s → queues q2 !! s' = queues q1 !! s')
  ∧ (∀ s', entry_or_default s' (cancelled_batches q2) = entry_or_default s' (cancelled_batches q1))
  ∧ in_flight_scopes q2 = in_flight_scopes q1.
Proof.
  intros Hr%wf_reachable. pose proof (wf_expire_stuck now q Hr) as Hq. unfold flush_next. cbv zeta.
  set (q1 := expire_stuck now q) in *. intros Hp. rewrite Hp.
  destruct (pick_ready_Some _ _ _ Hp) as (e & l & Hs & Hn & _ & _).
  destruct (min_drop_take (entry_or_default s (queues q1)) MAX_BATCH_EVENTS) as [-> ->].
  set (L := entry_or_default s (queues q1)) in *.
  pose proof (entry_keyed _ s (wf_queues _ Hq)) as HL. fold L in HL.
  set (evs := sort_by_key _ _). assert (Hperm : evs ≡ₚ map to_batch (take MAX_BATCH_EVENTS L))
    by apply sort_by_key_perm.
  set (qs1 := put_or_remove s _ _). intros [= <- <-].
  set (F := map (of_batch (channel_id s) s) evs ++ drop MAX_BATCH_EVENTS L).
  assert (HF : F ≡ₚ L).
  { unfold F. rewrite Hperm, map_of_to_batch by by apply Forall_take. by rewrite take_drop. }
  assert (Hother : ∀ s', s' ≠ s → qs1 !! s' = queues q1 !! s')
    by (intros s' Hs'; unfold qs1; by rewrite lookup_put_or_remove, decide_False).
  destruct (store_no_eviction (queues q1) qs1 q1 s F) as [Htrim _]; [apply Hq|done|by rewrite HF|].
  assert (Hent : entry_or_default s qs1 = drop MAX_BATCH_EVENTS L) by apply entry_put_or_remove.
  unfold requeue_preserve_timestamps.
  cbn [b_scope b_events b_channel_id b_cancelled_events b_cancel_reason].
  cbn [cancelled_batches cancel_reasons set_cancelled set_dispatched set_in_flight set_queues].
  set (q2 := match entry_or_default s (cancelled_batches q1) with [] => _ | _ => _ end).
  assert (H2 : queues q2 = qs1 ∧ in_flight_scopes q2 = {[s]} ∪ in_flight_scopes q1
    ∧ ∀ s', entry_or_default s' (cancelled_batches q2) = entry_or_default s' (cancelled_batches q1)).
  { unfold q2. destruct (entry_or_default s (cancelled_batches q1)) as [|c cs] eqn:Ec; simpl;
      (split_and!; [done..|]); intros s'; unfold entry_or_default in *;
      rewrite ?lookup_insert, !lookup_delete; destruct (decide (s = s')) as [<-|]; [|done| |done];
      rewrite ?Ec, ?decide_True by done; simpl; by rewrite ?app_nil_r. }
  destruct H2 as (Hqs & Hfl & Hc). clearbody q2. rewrite Hqs, Hent. fold F.
  rewrite Htrim. destruct (store_no_eviction (queues q1) qs1 q2 s F) as [_ ->];
    [apply Hq|by apply Hother|by rewrite HF|].
  destruct (mark_complete_fields now' s (set_queues (<[s:=F]> qs1) q2)) as (-> & -> & ->). simpl.
  assert (HeF : entry_or_default s (<[s:=F]> qs1) = F)
    by (unfold entry_or_default; by rewrite lookup_insert_eq).
  rewrite HeF. split_and!; [done| | |done|rewrite Hfl; set_solver].
  - unfold F. rewrite map_app, map_map. f_equal. etrans; [|apply map_id].
    by apply map_ext; intros [].
  - intros s' Hs'. rewrite lookup_insert_ne by done. by apply Hother.
Qed.

(** The front of the two-event queue is taken, cancelled and restored. *)
Lemma w_state_pick :
  pick_ready (HO := map_to_list_order) 200 (expire_stuck (HO := map_to_list_order) 200 w_state)
    = Some w_scope.
Proof. vm_compute. reflexivity. Qed.

Definition w_batch : FlushBatch :=
  default (mkFlushBatch 0 w_scope [] [] None) (flush_next (HO := map_to_list_order) 200 w_state).1.

Lemma w_flush : flush_next (HO := map_to_list_order) 200 w_state = (Some w_batch, w_flushed).
Proof. vm_compute. reflexivity. Qed.

Lemma requeue_preserve_restores_witness :
  map to_batch (entry_or_default w_scope (queues (mark_complete 300 w_scope
    (requeue_preserve_timestamps (HO := map_to_list_order) w_batch w_flushed))))
  = b_events w_batch ++ [].
Proof.
  destruct (requeue_preserve_restores map_to_list_order 200 300 w_state w_flushed w_scope w_batch
    w_state_reachable w_state_pick w_flush) as (_ & -> & _).
  f_equal.
Defined.

(** Failed batches back off and are eventually given up. On the attempt past
[MAX_RETRIES] the batch is handed back and its retry state cleared, the queues
untouched; before, it is refiled and its attempt counted, its scope takes no
dispatch from the queue until the delay has elapsed, and the delay is at
least 80% and less than 90% of the capped exponential backoff: the jitter only
ever shortens it.  Either way the batch's carried cancelled events are not
refiled. *)
Theorem requeue_backoff (HO : HashOrder) (now nanos : N) (b : FlushBatch) (q : EventQueue) :
  wf q → (nanos < 1000000000)%N →
  let s := b_scope b in
  let n := default 0%N (retry_counts q !! s) in
  let '(dead, q') := requeue now nanos b q in
  cancelled_batches q' = cancelled_batches q ∧ in_flight_scopes q' = in_flight_scopes q
  ∧ if (n =? MAX_RETRIES)%N
    then dead = Some b ∧ queues q' = queues q
         ∧ retry_counts q' = delete s (retry_counts q) ∧ retry_after q' = delete s (retry_after q)
    else ∃ delay : N,
         dead = None ∧ retry_counts q' = <[s := (n + 1)%N]> (retry_counts q)
         ∧ retry_after q' = <[s := (now + delay)%N]> (retry_after q)
         ∧ (∀ t, (t < now + delay)%N → pick_ready t (expire_stuck t q') ≠ Some s)
         ∧ let backoff := from_secs (N.min (5 * 2 ^ N.min n 6) 300) in
           (8 * backoff <= 10 * delay)%N ∧ (10 * delay < 9 * backoff)%N.
Proof.
  intros Hq Hnanos. cbv zeta. unfold requeue. set (s := b_scope b).
  set (n := default 0%N (retry_counts q !! s)).
  assert (Hn : (n <= MAX_RETRIES)%N).
  { unfold n. destruct (retry_counts q !! s) as [m|] eqn:E; simpl; [|done].
    by apply (wf_retries q Hq) in E as [_ ?]. }
  destruct (n =? MAX_RETRIES)%N eqn:En; [apply N.eqb_eq in En|apply N.eqb_neq in En].
  - rewrite (proj2 (N.ltb_lt _ _)) by lia. done.
  - rewrite (proj2 (N.ltb_ge _ _)) by lia. simpl.
    split_and!; [done..|]. exists (retry_delay (n + 1) nanos).
    split_and!; [done..| |by apply retry_delay_bounds|by apply retry_delay_bounds].
    intros t Ht. eapply pick_ready_not_before; [apply lookup_insert_eq|done].
Qed.

Lemma requeue_backoff_witness :
  ∃ delay, (requeue (HO := map_to_list_order) 300 999999999 w_batch w_flushed).1 = None
    ∧ retry_after (requeue (HO := map_to_list_order) 300 999999999 w_batch w_flushed).2 !! w_scope
      = Some (300 + delay)%N
    ∧ (40000000000 <= 10 * delay)%N.
Proof.
  pose proof (requeue_backoff map_to_list_order 300 999999999 w_batch w_flushed
    (wf_reachable _ w_flushed_reachable) ltac:(done)) as H.
  assert (Hn : (default 0 (retry_counts w_flushed !! b_scope w_batch) =? MAX_RETRIES)%N = false)
    by (vm_compute; reflexivity).
  revert H. cbv zeta. rewrite Hn. destruct (requeue _ _ _ _) as [dead q']. cbn [fst snd].
  intros (_ & _ & delay & -> & _ & -> & _ & Hle & _). exists delay.
  split; [done|]. split; [apply lookup_insert_eq|]. exact Hle.
Defined.

(** Steering withholds without losing: an event withheld for a native steer
leaves the dispatchable queue and sits in the withheld table; releasing it
puts exactly that event back at the front of its queue, with the queue's other
events and every other scope untouched; acknowledging it removes it from both
tables and keeps every event with another id. *)
Theorem steer_withhold_release (HO : HashOrder) (s : SessionScope) (i : string) (q q1 : EventQueue) :
  wf q → mark_native_steer_pending s i q = (true, q1) →
  (∀ e, e ∈ entry_or_default s (withheld_native_steer q) → id (qe_event e) ≠ i) →
  ∃ e, id (qe_event e) = i
    ∧ entry_or_default s (queues q) ≡ₚ e :: entry_or_default s (queues q1)
    ∧ entry_or_default s (withheld_native_steer q1)
      = entry_or_default s (withheld_native_steer q) ++ [e]
    ∧ (let q2 := release_native_steer s i q1 in
       entry_or_default s (queues q2) = e :: entry_or_default s (queues q1)
       ∧ withheld_native_steer q2 = withheld_native_steer q
       ∧ ∀ s', s' ≠ s → queues q2 !! s' = queues q !! s')
    ∧ (let q2 := remove_event s i q1 in
       entry_or_default s (queues q2)
         = filter (λ e', id (qe_event e') ≠ i) (entry_or_default s (queues q))
       ∧ withheld_native_steer q2 = withheld_native_steer q
       ∧ ∀ s', s' ≠ s → queues q2 !! s' = queues q !! s').
Proof.
  intros Hq. unfold mark_native_steer_pending.
  destruct (queues q !! s) as [l|] eqn:El; [|done].
  destruct (remove_first i l) as [[e l']|] eqn:Hr; [|done]. intros [= <-] Huniq.
  destruct (remove_first_Some _ _ _ _ Hr) as (He & Hp & Hf).
  set (W := withheld_native_steer q) in *.
  assert (HWne : W !! s ≠ Some []) by (intros HW; by destruct (wf_withheld q Hq s [] HW)).
  assert (Hl : entry_or_default s (queues q) = l) by (unfold entry_or_default; by rewrite El).
  assert (Hw1 : ∀ q', set_withheld W (set_withheld (<[s := entry_or_default s W ++ [e]]> W) q')
                = set_withheld W q') by done.
  exists e. simpl. rewrite Hl, !entry_put_or_remove.
  assert (Hins : entry_or_default s (<[s:=entry_or_default s W ++ [e]]> W) = entry_or_default s W ++ [e])
    by (unfold entry_or_default at 1; by rewrite lookup_insert_eq).
  do 3 (split; [done|]). split.
  - unfold release_native_steer. simpl. rewrite lookup_insert_eq, remove_first_snoc by done.
    rewrite put_or_remove_insert, put_or_remove_entry by done.
    rewrite entry_put_or_remove.
    edestruct (store_no_eviction (queues q) (put_or_remove s l' (queues q))) as [-> ->];
      [apply Hq| |by rewrite Hl, Hp|].
    { intros s' Hs'. by rewrite lookup_put_or_remove, decide_False. }
    simpl. split_and!; [by unfold entry_or_default; rewrite lookup_insert_eq|done|].
    intros s' Hs'. by rewrite lookup_insert_ne, lookup_put_or_remove, decide_False.
  - destruct (retain_other_ids_spec s i (put_or_remove s l' (queues q))) as [Hin Hout].
    split_and!.
    + simpl. by rewrite Hin, entry_put_or_remove.
    + simpl. unfold retain_other_ids. rewrite lookup_insert_eq, filter_app, filter_all_id by done.
      rewrite filter_cons_False, app_nil_r by tauto.
      by rewrite put_or_remove_insert, put_or_remove_entry.
    + intros s' Hs'. simpl. by rewrite Hout, lookup_put_or_remove, decide_False.
Qed.

Lemma steer_withhold_release_witness :
  let q1 := (mark_native_steer_pending w_scope "b" w_state).2 in
  map (λ e, id (qe_event e)) (entry_or_default w_scope (queues q1)) = ["a"]
  ∧ withheld_native_steer (release_native_steer (HO := map_to_list_order) w_scope "b" q1)
    = withheld_native_steer w_state.
Proof.
  split; [vm_compute; reflexivity|].
  destruct (steer_withhold_release map_to_list_order w_scope "b" w_state
    (mark_native_steer_pending w_scope "b" w_state).2) as (e & _ & _ & _ & (_ & Hw & _) & _).
  - apply wf_reachable, w_state_reachable.
  - vm_compute. reflexivity.
  - intros e He. vm_compute in He. by apply elem_of_nil in He.
  - exact Hw.
Defined.

(** [m'] is [m] without the entries of channel [c]. *)
Definition purged {A : Type} (c : Uuid) (m m' : gmap SessionScope A) : Prop :=
  ∀ s, m' !! s = if decide (channel_id s = c) then None else m !! s.

(** Draining a channel purges exactly that channel: nothing of it stays in the
queues, the backoff tables, the carried cancelled batches or the withheld
events, and the ids of all its queued events are returned; every entry of
every other channel, and every turn in flight, stays. *)
Theorem drain_channel_correct (HO : HashOrder) (c : Uuid) (q : EventQueue) :
  let '(ids, q') := drain_channel c q in
  (∀ i, i ∈ ids ↔ ∃ s l e, queues q !! s = Some l ∧ channel_id s = c ∧ e ∈ l ∧ id (qe_event e) = i)
  ∧ length ids = channel_event_total c (queues q)
  ∧ purged c (queues q) (queues q')
  ∧ purged c (retry_after q) (retry_after q') ∧ purged c (retry_counts q) (retry_counts q')
  ∧ purged c (cancelled_batches q) (cancelled_batches q')
  ∧ purged c (cancel_reasons q) (cancel_reasons q')
  ∧ purged c (withheld_native_steer q) (withheld_native_steer q')
  ∧ in_flight_scopes q' = in_flight_scopes q ∧ in_flight_deadlines q' = in_flight_deadlines q.
Proof.
  unfold drain_channel. cbv zeta. split_and!;
    [|apply length_drained| |intros s; apply lookup_retain_other_channels..|done|done].
  - intros i. rewrite list_elem_of_In, in_concat. split.
    + intros (ids & (s & <- & Hs%list_elem_of_In%drained_scopes)%in_map_iff & Hi).
      destruct Hs as [Hc [l Hl]]. unfold entry_or_default in Hi. rewrite Hl in Hi.
      apply in_map_iff in Hi as (e & <- & He%list_elem_of_In). by exists s, l, e.
    + intros (s & l & e & Hl & Hc & He & <-). exists (map (λ e, id (qe_event e)) l). split.
      * apply in_map_iff. exists s. unfold entry_or_default. rewrite Hl. split; [done|].
        apply list_elem_of_In, drained_scopes. eauto.
      * apply in_map_iff. exists e. split; [done|]. by apply list_elem_of_In.
  - intros s. cbn [queues set_withheld set_cancelled set_retry set_queues].
    rewrite lookup_foldr_delete. destruct (queues q !! s) eqn:E.
    + destruct (decide (channel_id s = c)).
      * rewrite decide_True; [done|]. apply drained_scopes. eauto.
      * rewrite decide_False; [done|]. rewrite drained_scopes. tauto.
    + by repeat case_decide.
Qed.

(** The idle signal is honest: when nothing is undispatched and no turn is in
flight, no clock reading and no iteration order makes [flush_next] hand out a
batch, and the call changes nothing. *)
Theorem idle_means_nothing_to_flush (HO : HashOrder) (now : N) (q : EventQueue) :
  wf q → has_undispatched_work q = false → has_in_flight q = false →
  flush_next now q = (None, q).
Proof.
  intros Hq Hu Hf. apply bool_decide_eq_false in Hf. apply dec_stable in Hf.
  assert (Hexp : expire_stuck now q = q).
  { unfold expire_stuck. replace (expired_scopes now q) with (@nil SessionScope); [done|].
    symmetry. apply elem_of_nil_inv. intros s (d & Hd & _)%elem_of_expired_scopes.
    apply elem_of_dom_2 in Hd. rewrite (wf_deadlines q Hq), Hf in Hd. set_solver. }
  unfold has_undispatched_work in Hu. apply orb_false_iff in Hu as [[Hq' Hc]%orb_false_iff _].
  unfold flush_next. cbv zeta. rewrite Hexp.
  assert (Hp : pick_ready now q = None).
  { apply pick_ready_None. intros s l Hl (Hne & Hn & _). apply not_true_iff_false in Hq'.
    apply Hq'. apply existsb_elem_of. exists (s, l). rewrite elem_of_hm_iter. split; [done|].
    simpl in *. by rewrite !bool_decide_eq_true_2. }
  rewrite Hp. destruct (pick_cancelled q) as [s|] eqn:Ep; [|done].
  apply not_true_iff_false in Hc. destruct Hc. apply existsb_cancelled. by eexists.
Qed.

Lemma idle_means_nothing_to_flush_witness :
  flush_next (HO := map_to_list_order) 5 w_start = (None, w_start).
Proof.
  apply (idle_means_nothing_to_flush map_to_list_order 5 w_start);
    [apply wf_new|vm_compute; reflexivity|vm_compute; reflexivity].
Defined.
