(* ===== verification/Filter.v ===== *)
(** * Filter: matching events against NIP-01 filters

Models [crates/buzz-core/src/filter.rs]: the filters of a subscription are
OR-ed, the fields of a filter AND-ed, and an event without [h] tags is matched
by its stored channel; and the result-level read gate of the private
relay-signed kinds. *)
From S2P Require Import Prelude Text Nostr Kind.

Section filter.
Context {NT : NostrTags} {UT : UuidText}.

(** The event's values for a tag letter. *)
Definition tag_values (key : string) (event : Event) : list string :=
  omap tag_content (filter (λ t, tag_kind t = key) (tags event)).

(** ** Operations *)

(** The body of the loop over [generic_tags]: [false] is its [return false]. *)
Definition tag_filter_ok (ev : StoredEvent) (tag_key_str : string) (values : list string) : bool :=
  let has_match :=
    existsb (λ filter_val,
      existsb (λ event_val, bool_decide (event_val = filter_val))
        (tag_values tag_key_str (se_event ev))) values in
  if negb has_match && bool_decide (tag_key_str = "h") then
    let event_has_h_tags := existsb (λ t, bool_decide (tag_kind t = "h")) (tags (se_event ev)) in
    if negb event_has_h_tags then
      match se_channel_id ev with
      | Some ch_id => existsb (λ v, bool_decide (v = uuid_to_string ch_id)) values
      | None => false
      end
    else false
  else has_match.

Definition filter_match_one (f : Filter) (ev : StoredEvent) : bool :=
  let event := se_event ev in
  match f_kinds f with
  | Some kinds => bool_decide (kind event ∈ kinds)
  | None => true
  end
  && match f_authors f with
     | Some authors => bool_decide (pubkey event ∈ authors)
     | None => true
     end
  && match f_since f with
     | Some since => negb (created_at event <? since)%N
     | None => true
     end
  && match f_until f with
     | Some until => negb (until <? created_at event)%N
     | None => true
     end
  && match f_ids f with
     | Some ids => existsb (λ id', starts_with id' (id event)) ids
     | None => true
     end
  && forallb (uncurry (tag_filter_ok ev)) (map_to_list (f_generic_tags f)).

Definition filters_match (filters : list Filter) (event : StoredEvent) : bool :=
  existsb (λ f, filter_match_one f event) filters.

Definition reader_authorized_for_event (event : Event) (reader_pubkey_hex : string) : bool :=
  let k := event_kind_u32 event in
  if negb (k =? KIND_DM_VISIBILITY)%N && negb (k =? KIND_AGENT_TURN_METRIC)%N then true
  else existsb (λ t, bool_decide (tag_content t = Some reader_pubkey_hex))
         (filter (λ t, tag_kind t = "p") (tags event)).

(** ** Lemmas *)

Lemma elem_of_tag_values key event v :
  v ∈ tag_values key event ↔ ∃ t, t ∈ tags event ∧ tag_kind t = key ∧ tag_content t = Some v.
Proof.
  unfold tag_values. rewrite list_elem_of_omap. setoid_rewrite list_elem_of_filter. naive_solver.
Qed.

(** What a tag filter asks of an event. *)
Definition tag_filter_holds (ev : StoredEvent) (key : string) (values : list string) : Prop :=
  (∃ v, v ∈ values ∧ v ∈ tag_values key (se_event ev))
  ∨ (key = "h" ∧ (∀ t, t ∈ tags (se_event ev) → tag_kind t ≠ "h")
     ∧ ∃ c, se_channel_id ev = Some c ∧ uuid_to_string c ∈ values).

Lemma tag_filter_ok_spec ev key values :
  tag_filter_ok ev key values = true ↔ tag_filter_holds ev key values.
Proof.
  unfold tag_filter_ok, tag_filter_holds.
  set (m := existsb _ values).
  assert (Hm : m = true ↔ ∃ v, v ∈ values ∧ v ∈ tag_values key (se_event ev)).
  { unfold m. rewrite existsb_elem_of. setoid_rewrite existsb_elem_of.
    setoid_rewrite bool_decide_eq_true. naive_solver. }
  set (h := existsb _ (tags _)).
  assert (Hh : h = false ↔ ∀ t, t ∈ tags (se_event ev) → tag_kind t ≠ "h").
  { unfold h. rewrite <-not_true_iff_false, existsb_elem_of.
    setoid_rewrite bool_decide_eq_true. naive_solver. }
  clearbody m h. rewrite <-Hm, <-Hh. destruct m; simpl; [tauto|].
  case_bool_decide as Hk; simpl; [|naive_solver].
  destruct h; simpl; [naive_solver|].
  destruct (se_channel_id ev) as [c|]; simpl.
  - rewrite existsb_elem_of. setoid_rewrite bool_decide_eq_true. naive_solver.
  - naive_solver.
Qed.

(** What NIP-01 asks of an event, field by field. *)
Record filter_accepts (f : Filter) (ev : StoredEvent) : Prop := {
  fa_kinds ks : f_kinds f = Some ks → kind (se_event ev) ∈ ks;
  fa_authors l : f_authors f = Some l → pubkey (se_event ev) ∈ l;
  fa_since t : f_since f = Some t → (t <= created_at (se_event ev))%N;
  fa_until t : f_until f = Some t → (created_at (se_event ev) <= t)%N;
  fa_ids l : f_ids f = Some l → ∃ i, i ∈ l ∧ starts_with i (id (se_event ev)) = true;
  fa_tags k vs : f_generic_tags f !! k = Some vs → tag_filter_holds ev k vs
}.

Lemma option_test_spec {A : Type} (o : option A) (test : A → bool) (P : A → Prop) :
  (∀ a, test a = true ↔ P a) →
  match o with Some a => test a | None => true end = true ↔ ∀ a, o = Some a → P a.
Proof. intros Ht. destruct o; rewrite ?Ht; naive_solver. Qed.

Lemma filter_match_one_spec f ev : filter_match_one f ev = true ↔ filter_accepts f ev.
Proof.
  unfold filter_match_one. rewrite !andb_true_iff.
  rewrite (option_test_spec (f_kinds f) _ (λ ks, kind (se_event ev) ∈ ks))
    by (intros; apply bool_decide_eq_true).
  rewrite (option_test_spec (f_authors f) _ (λ l, pubkey (se_event ev) ∈ l))
    by (intros; apply bool_decide_eq_true).
  rewrite (option_test_spec (f_since f) _ (λ t, (t <= created_at (se_event ev))%N))
    by (intros; rewrite negb_true_iff, N.ltb_ge; done).
  rewrite (option_test_spec (f_until f) _ (λ t, (created_at (se_event ev) <= t)%N))
    by (intros; rewrite negb_true_iff, N.ltb_ge; done).
  rewrite (option_test_spec (f_ids f) _ (λ l, ∃ i, i ∈ l ∧ starts_with i (id (se_event ev)) = true))
    by (intros; apply existsb_elem_of).
  assert (Htags : forallb (uncurry (tag_filter_ok ev)) (map_to_list (f_generic_tags f)) = true ↔
    ∀ k vs, f_generic_tags f !! k = Some vs → tag_filter_holds ev k vs).
  { rewrite forallb_elem_of. split.
    - intros Hall k vs Hk%elem_of_map_to_list. by apply tag_filter_ok_spec, (Hall (k, vs)).
    - intros Hall [k vs] Hk%elem_of_map_to_list. by apply tag_filter_ok_spec, Hall. }
  rewrite Htags. split; [intros [[[[[]]]]]; by split|by intros []].
Qed.

Lemma filters_match_iff filters ev :
  filters_match filters ev = true ↔ ∃ f, f ∈ filters ∧ filter_accepts f ev.
Proof.
  unfold filters_match. rewrite existsb_elem_of. by setoid_rewrite filter_match_one_spec.
Qed.

(** ** Properties *)

(** Filter matching is NIP-01: an event is matched exactly when some filter
accepts it, and a filter accepts it when every field it sets does (the kinds,
the authors, the inclusive time bounds, an id prefix, a shared value for every
tag letter), where a channel filter [h] falls back to the stored channel for
events that carry no [h] tag. *)
Theorem filters_match_correct (filters : list Filter) (ev : StoredEvent) :
  filters_match filters ev = true ↔ ∃ f, f ∈ filters ∧ filter_accepts f ev.
Proof. apply filters_match_iff. Qed.

(** The read gate protects exactly the registry's result-gated kinds: an
event of another kind is readable by everyone, and one of these kinds only by
a reader that one of its [p] tags names. *)
Theorem reader_gate_correct (event : Event) (reader : string) :
  reader_authorized_for_event event reader = true ↔
  (kind event ∈ RESULT_GATED_KINDS → reader ∈ tag_values "p" event).
Proof.
  unfold reader_authorized_for_event, event_kind_u32.
  assert (Hg : kind event ∈ RESULT_GATED_KINDS ↔
    (kind event =? KIND_DM_VISIBILITY)%N || (kind event =? KIND_AGENT_TURN_METRIC)%N = true).
  { rewrite orb_true_iff, !N.eqb_eq. unfold RESULT_GATED_KINDS. set_solver. }
  rewrite Hg, <-negb_orb. destruct (_ || _); simpl; [|naive_solver].
  rewrite existsb_elem_of, elem_of_tag_values. setoid_rewrite bool_decide_eq_true.
  setoid_rewrite list_elem_of_filter. naive_solver.
Qed.
End filter.
