(* ===== verification/Subscription.v ===== *)
(** * Subscription: the relay's subscription registry and its fan-out indexes

Models [crates/buzz-relay/src/subscription.rs].  The registry keeps the
authoritative subscriptions ([subs]) and five derived indexes; [fan_out_scoped]
finds the subscriptions an event must reach by consulting the indexes only.
The abstract specification is a scan of all subscriptions
([should_receive]); the theorems say that the indexes never lose or invent a
delivery.

A [DashMap] is a [gmap]: operations are modelled as atomic steps, and what a
concurrent reader can observe (candidates from stale indexes) is covered by
the soundness theorem, which holds for arbitrary indexes.  Gauges are left
out. *)
From stdpp Require Import pretty.
From S2P Require Import Prelude Text Nostr Kind Filter.

(** ** Data *)

Abbreviation ConnId := Uuid.
Abbreviation SubId := string.
Abbreviation CommunityId := Uuid.
Abbreviation Sub := (ConnId * SubId)%type.

Inductive SubscriptionScope : Type :=
| Global
| Channels (channels : list Uuid).

#[export] Instance SubscriptionScope_eq_dec : EqDecision SubscriptionScope.
Proof. solve_decision. Defined.

Definition matches_channel (scope : SubscriptionScope) (channel_id : option Uuid) : bool :=
  match scope, channel_id with
  | Global, None => true
  | Channels channels, Some channel_id => bool_decide (channel_id ∈ channels)
  | _, _ => false
  end.

Definition channel_ids (scope : SubscriptionScope) : list Uuid :=
  match scope with
  | Global => []
  | Channels channels => channels
  end.

Definition is_global (scope : SubscriptionScope) : bool :=
  match scope with
  | Global => true
  | Channels _ => false
  end.

Abbreviation SubEntry := (list Filter * CommunityId * SubscriptionScope)%type.

(** [IndexKey] and [GlobalPKindIndexKey]. *)
Definition IndexKey : Type := Uuid * N.
Definition GlobalPKindIndexKey : Type := CommunityId * N * string.
#[export] Typeclasses Transparent IndexKey GlobalPKindIndexKey.

Record RemovedSubscription : Type := mkRemoved {
  rs_community_id : CommunityId;
  rs_scope : SubscriptionScope
}.

Record ChannelSubscriptionUpdate : Type := mkUpdate { cu_sub_id : SubId; cu_removed : bool }.

Abbreviation index K := (gmap K (list Sub)).

Record SubscriptionRegistry : Type := mkRegistry {
  subs : gmap ConnId (gmap SubId SubEntry);
  channel_kind_index : index (CommunityId * IndexKey);
  channel_wildcard_index : index (CommunityId * Uuid);
  global_kind_index : index (CommunityId * N);
  global_p_kind_index : index GlobalPKindIndexKey;
  global_wildcard_index : index CommunityId
}.

Definition new : SubscriptionRegistry := mkRegistry ∅ ∅ ∅ ∅ ∅ ∅.

(** Field updates. *)
Definition set_subs x r := mkRegistry x (channel_kind_index r) (channel_wildcard_index r)
  (global_kind_index r) (global_p_kind_index r) (global_wildcard_index r).
Definition upd_channel_kind g r := mkRegistry (subs r) (g (channel_kind_index r))
  (channel_wildcard_index r) (global_kind_index r) (global_p_kind_index r) (global_wildcard_index r).
Definition upd_channel_wildcard g r := mkRegistry (subs r) (channel_kind_index r)
  (g (channel_wildcard_index r)) (global_kind_index r) (global_p_kind_index r)
  (global_wildcard_index r).
Definition upd_global_kind g r := mkRegistry (subs r) (channel_kind_index r)
  (channel_wildcard_index r) (g (global_kind_index r)) (global_p_kind_index r)
  (global_wildcard_index r).
Definition upd_global_p_kind g r := mkRegistry (subs r) (channel_kind_index r)
  (channel_wildcard_index r) (global_kind_index r) (g (global_p_kind_index r))
  (global_wildcard_index r).
Definition upd_global_wildcard g r := mkRegistry (subs r) (channel_kind_index r)
  (channel_wildcard_index r) (global_kind_index r) (global_p_kind_index r)
  (g (global_wildcard_index r)).

(** ** Index keys of a subscription *)

(** The loops of [extract_kinds_from_filters] and
[extract_global_p_kind_index_keys], with the keys seen so far. *)
Fixpoint extract_kinds_loop (kinds : list N) (filters : list Filter) : option (list N) :=
  match filters with
  | [] => Some kinds
  | f :: filters' =>
      match f_kinds f with
      | Some filter_kinds => extract_kinds_loop (kinds ++ dedup_seen kinds filter_kinds) filters'
      | None => None
      end
  end.

Definition extract_kinds_from_filters (filters : list Filter) : option (list N) :=
  extract_kinds_loop [] filters.

(** [for kind in kinds { for p in p_values { .. } }]. *)
Definition p_kind_keys (community_id : CommunityId) (kinds : list N) (p_values : list string)
  : list GlobalPKindIndexKey :=
  concat (map (λ k, map (λ p, (community_id, k, p)) p_values) kinds).

Fixpoint extract_p_loop (community_id : CommunityId) (keys : list GlobalPKindIndexKey)
    (filters : list Filter) : option (list GlobalPKindIndexKey) :=
  match filters with
  | [] => Some keys
  | f :: filters' =>
      match f_kinds f with
      | None => None
      | Some [] => extract_p_loop community_id keys filters'
      | Some kinds =>
          match f_generic_tags f !! "p" with
          | None | Some [] => None
          | Some p_values =>
              extract_p_loop community_id
                (keys ++ dedup_seen keys (p_kind_keys community_id kinds p_values)) filters'
          end
      end
  end.

Definition extract_global_p_kind_index_keys (community_id : CommunityId) (filters : list Filter)
  : option (list GlobalPKindIndexKey) :=
  extract_p_loop community_id [] filters.

(** ** Index updates *)

(** [index.entry(key).or_default().push(sub)]. *)
Definition index_push {K : Type} `{Countable K} (sub : Sub) (m : index K) (key : K) : index K :=
  <[key := default [] (m !! key) ++ [sub]]> m.

(** [get_mut(key)], [retain], and [remove(key)] when the list became empty. *)
Definition index_remove {K : Type} `{Countable K} (sub : Sub) (m : index K) (key : K) : index K :=
  match m !! key with
  | None => m
  | Some entries =>
      match filter (λ s, s ≠ sub) entries with
      | [] => delete key m
      | entries' => <[key := entries']> m
      end
  end.

(** The two index traversals differ only in the update they apply per key. *)
Record IndexUpdate : Type := mkIndexUpdate {
  update_at : ∀ {K : Type} `{Countable K}, index K → K → index K
}.

Definition pushing (sub : Sub) : IndexUpdate := {| update_at K _ _ := index_push sub |}.
Definition removing (sub : Sub) : IndexUpdate := {| update_at K _ _ := index_remove sub |}.

(** The index half of [register_with_scope] ([pushing]) and
[remove_from_index] ([removing]): the same traversal of the same keys. *)
Definition update_channel (u : IndexUpdate) (filters : list Filter) (community_id : CommunityId)
    (r : SubscriptionRegistry) (ch_id : Uuid) : SubscriptionRegistry :=
  match extract_kinds_from_filters filters with
  | None => upd_channel_wildcard (λ m, update_at u m (community_id, ch_id)) r
  | Some [] => r
  | Some kinds =>
      foldl (λ r kind, upd_channel_kind (λ m, update_at u m (community_id, (ch_id, kind))) r) r kinds
  end.

Definition update_indexes (u : IndexUpdate) (filters : list Filter) (community_id : CommunityId)
    (scope : SubscriptionScope) (r : SubscriptionRegistry) : SubscriptionRegistry :=
  match scope with
  | Channels channel_ids => foldl (update_channel u filters community_id) r channel_ids
  | Global =>
      match extract_global_p_kind_index_keys community_id filters with
      | Some keys => foldl (λ r key, upd_global_p_kind (λ m, update_at u m key) r) r keys
      | None =>
          match extract_kinds_from_filters filters with
          | None => upd_global_wildcard (λ m, update_at u m community_id) r
          | Some [] => r
          | Some kinds =>
              foldl (λ r kind, upd_global_kind (λ m, update_at u m (community_id, kind)) r) r kinds
          end
      end
  end.

Definition remove_from_index (conn_id : ConnId) (sub_id : SubId) (filters : list Filter)
    (community_id : CommunityId) (scope : SubscriptionScope) (r : SubscriptionRegistry)
  : SubscriptionRegistry :=
  update_indexes (removing (conn_id, sub_id)) filters community_id scope r.

(** ** Operations *)

(** [subs.get(conn).and_then(|m| m.get(sub))]. *)
Definition get_sub (r : SubscriptionRegistry) (conn_id : ConnId) (sub_id : SubId) : option SubEntry :=
  conn_subs ← subs r !! conn_id; conn_subs !! sub_id.

Definition remove_subscription (conn_id : ConnId) (sub_id : SubId) (r : SubscriptionRegistry)
  : option RemovedSubscription * SubscriptionRegistry :=
  match subs r !! conn_id with
  | None => (None, r)
  | Some conn_subs =>
      match conn_subs !! sub_id with
      | None => (None, r)
      | Some (filters, community_id, scope) =>
          let r := set_subs (<[conn_id := delete sub_id conn_subs]> (subs r)) r in
          let r := remove_from_index conn_id sub_id filters community_id scope r in
          (Some {| rs_community_id := community_id; rs_scope := scope |}, r)
      end
  end.

Definition register_with_scope (community_id : CommunityId) (conn_id : ConnId) (sub_id : SubId)
    (filters : list Filter) (scope : SubscriptionScope) (r : SubscriptionRegistry)
  : option RemovedSubscription * SubscriptionRegistry :=
  let '(removed, r) := remove_subscription conn_id sub_id r in
  let conn_subs := default ∅ (subs r !! conn_id) in
  let r := set_subs (<[conn_id := <[sub_id := (filters, community_id, scope)]> conn_subs]> (subs r)) r in
  (removed, update_indexes (pushing (conn_id, sub_id)) filters community_id scope r).

Definition register_scoped (community_id : CommunityId) (conn_id : ConnId) (sub_id : SubId)
    (filters : list Filter) (channel_id : option Uuid) (r : SubscriptionRegistry)
  : option RemovedSubscription * SubscriptionRegistry :=
  let scope := match channel_id with Some c => Channels [c] | None => Global end in
  register_with_scope community_id conn_id sub_id filters scope r.

Definition register_channels_scoped (community_id : CommunityId) (conn_id : ConnId) (sub_id : SubId)
    (filters : list Filter) (channel_ids : list Uuid) (r : SubscriptionRegistry)
  : option RemovedSubscription * SubscriptionRegistry :=
  register_with_scope community_id conn_id sub_id filters (Channels channel_ids) r.

Section operations.
Context {HO : HashOrder} {NT : NostrTags} {UT : UuidText}.

(** The loop body of [remove_connection]. *)
Definition remove_conn_step (conn_id : ConnId)
    (acc : list RemovedSubscription * SubscriptionRegistry) (se : SubId * SubEntry)
  : list RemovedSubscription * SubscriptionRegistry :=
  let '(removed, r) := acc in
  let '(sub_id, (filters, community_id, scope)) := se in
  (removed ++ [{| rs_community_id := community_id; rs_scope := scope |}],
   remove_from_index conn_id sub_id filters community_id scope r).

Definition remove_connection (conn_id : ConnId) (r : SubscriptionRegistry)
  : list RemovedSubscription * SubscriptionRegistry :=
  match subs r !! conn_id with
  | None => ([], r)
  | Some conn_subs =>
      foldl (remove_conn_step conn_id) ([], set_subs (delete conn_id (subs r)) r) (hm_iter conn_subs)
  end.

(** The part of the loop of [remove_channel_subscriptions_scoped] after its
[let .. else] guards: whether no channel is left, and the new registry. *)
Definition revoke_one (community_id : CommunityId) (conn_id : ConnId) (channel_id : Uuid)
    (sub_id : SubId) (conn_subs : gmap SubId SubEntry) (filters : list Filter)
    (own_community : CommunityId) (channel_ids : list Uuid) (r : SubscriptionRegistry)
  : bool * SubscriptionRegistry :=
  let channel_ids := filter (λ c, c ≠ channel_id) channel_ids in
  let conn_subs := <[sub_id := (filters, own_community, Channels channel_ids)]> conn_subs in
  let r := set_subs (<[conn_id := conn_subs]> (subs r)) r in
  let removed := bool_decide (channel_ids = []) in
  let r := remove_from_index conn_id sub_id filters community_id (Channels [channel_id]) r in
  (removed,
   if removed then set_subs (<[conn_id := delete sub_id conn_subs]> (subs r)) r else r).

Fixpoint revoke_loop (community_id : CommunityId) (conn_id : ConnId) (channel_id : Uuid)
    (sub_ids : list SubId) (r : SubscriptionRegistry)
  : list ChannelSubscriptionUpdate * SubscriptionRegistry :=
  match sub_ids with
  | [] => ([], r)
  | sub_id :: sub_ids' =>
      match subs r !! conn_id with
      | None => ([], r)
      | Some conn_subs =>
          match conn_subs !! sub_id with
          | None | Some (_, _, Global) => revoke_loop community_id conn_id channel_id sub_ids' r
          | Some (filters, own_community, Channels channel_ids) =>
              let '(removed, r) :=
                revoke_one community_id conn_id channel_id sub_id conn_subs filters own_community
                  channel_ids r in
              let '(updates, r) := revoke_loop community_id conn_id channel_id sub_ids' r in
              ({| cu_sub_id := sub_id; cu_removed := removed |} :: updates, r)
          end
      end
  end.

(** The filter of its first statement. *)
Definition holds_channel (community_id : CommunityId) (channel_id : Uuid) (se : SubId * SubEntry)
  : Prop :=
  let '(_, (_, sub_community_id, scope)) := se in
  sub_community_id = community_id ∧ channel_id ∈ channel_ids scope.

#[export] Instance holds_channel_dec c ch se : Decision (holds_channel c ch se).
Proof. destruct se as [? [[??] ?]]. apply _. Defined.

Definition remove_channel_subscriptions_scoped (community_id : CommunityId) (conn_id : ConnId)
    (channel_id : Uuid) (r : SubscriptionRegistry)
  : list ChannelSubscriptionUpdate * SubscriptionRegistry :=
  let sub_ids :=
    match subs r !! conn_id with
    | None => []
    | Some conn_subs =>
        map fst (filter (holds_channel community_id channel_id) (hm_iter conn_subs))
    end in
  revoke_loop community_id conn_id channel_id sub_ids r.

(** A [HashSet] of connections, collected. *)
Definition channel_subscriber_conns_scoped (community_id : CommunityId) (channel_id : Uuid)
    (r : SubscriptionRegistry) : list ConnId :=
  let by_kind :=
    concat (map (λ kv : (CommunityId * IndexKey) * list Sub, map fst kv.2)
      (filter (λ kv, kv.1.1 = community_id ∧ kv.1.2.1 = channel_id) (hm_iter (channel_kind_index r)))) in
  let wildcard := map fst (default [] (channel_wildcard_index r !! (community_id, channel_id))) in
  dedup_seen [] (by_kind ++ wildcard).

Definition event_p_tag_values (event : StoredEvent) : list string :=
  dedup_seen [] (tag_values "p" (se_event event)).

(** [push_match], threading [results] and [seen]. *)
Definition push_match (r : SubscriptionRegistry) (community_id : CommunityId) (event : StoredEvent)
    (acc : list Sub * gset Sub) (candidate : Sub) : list Sub * gset Sub :=
  let '(results, seen) := acc in
  let '(conn_id, sub_id) := candidate in
  match get_sub r conn_id sub_id with
  | Some (filters, sub_community_id, scope) =>
      if bool_decide (sub_community_id = community_id)
         && matches_channel scope (se_channel_id event) && filters_match filters event
      then if bool_decide (candidate ∈ seen) then acc
           else (results ++ [candidate], {[candidate]} ∪ seen)
      else acc
  | None => acc
  end.

(** The candidate lists in the order [fan_out_scoped] visits them. *)
Definition candidates (r : SubscriptionRegistry) (community_id : CommunityId) (event : StoredEvent)
  : list Sub :=
  let k := kind (se_event event) in
  match se_channel_id event with
  | Some channel_id =>
      default [] (channel_kind_index r !! (community_id, (channel_id, k)))
      ++ default [] (channel_wildcard_index r !! (community_id, channel_id))
  | None =>
      concat (map (λ p, default [] (global_p_kind_index r !! (community_id, k, p)))
                (event_p_tag_values event))
      ++ default [] (global_kind_index r !! (community_id, k))
      ++ default [] (global_wildcard_index r !! community_id)
  end.

Definition fan_out_scoped (community_id : CommunityId) (event : StoredEvent) (r : SubscriptionRegistry)
  : list Sub :=
  (foldl (push_match r community_id event) ([], ∅) (candidates r community_id event)).1.

Definition get_filters (conn_id : ConnId) (sub_id : SubId) (r : SubscriptionRegistry)
  : option (list Filter) :=
  '(filters, _, _) ← get_sub r conn_id sub_id; Some filters.

Definition total_subscriptions (r : SubscriptionRegistry) : nat :=
  sum_list (map (λ e : ConnId * gmap SubId SubEntry, size e.2) (hm_iter (subs r))).

Definition total_connections (r : SubscriptionRegistry) : nat := size (subs r).

Definition per_community_subscriptions (r : SubscriptionRegistry) : gmap CommunityId nat :=
  foldl (λ counts (se : SubId * SubEntry),
      let '(_, (_, community_id, _)) := se in
      <[community_id := default 0 (counts !! community_id) + 1]> counts)
    ∅ (concat (map (λ e, hm_iter e.2) (hm_iter (subs r)))).
End operations.

(** ** Lemmas: the keys of an entry in each index *)

Definition channel_kind_keys (e : SubEntry) : list (CommunityId * IndexKey) :=
  let '(filters, community_id, scope) := e in
  match scope, extract_kinds_from_filters filters with
  | Channels chs, Some kinds => concat (map (λ ch, map (λ k, (community_id, (ch, k))) kinds) chs)
  | _, _ => []
  end.

Definition channel_wildcard_keys (e : SubEntry) : list (CommunityId * Uuid) :=
  let '(filters, community_id, scope) := e in
  match scope, extract_kinds_from_filters filters with
  | Channels chs, None => map (λ ch, (community_id, ch)) chs
  | _, _ => []
  end.

Definition global_p_kind_keys (e : SubEntry) : list GlobalPKindIndexKey :=
  let '(filters, community_id, scope) := e in
  match scope, extract_global_p_kind_index_keys community_id filters with
  | Global, Some keys => keys
  | _, _ => []
  end.

Definition global_kind_keys (e : SubEntry) : list (CommunityId * N) :=
  let '(filters, community_id, scope) := e in
  match scope, extract_global_p_kind_index_keys community_id filters,
        extract_kinds_from_filters filters with
  | Global, None, Some kinds => map (λ k, (community_id, k)) kinds
  | _, _, _ => []
  end.

Definition global_wildcard_keys (e : SubEntry) : list CommunityId :=
  let '(filters, community_id, scope) := e in
  match scope, extract_global_p_kind_index_keys community_id filters,
        extract_kinds_from_filters filters with
  | Global, None, None => [community_id]
  | _, _, _ => []
  end.

(** Applying an index update at every key of a list. *)
Definition update_all (u : IndexUpdate) {K : Type} `{Countable K} (ks : list K) (m : index K) : index K :=
  foldl (update_at u) m ks.

Section update_spec.
Context (u : IndexUpdate).

Lemma foldl_upd_channel_kind {A : Type} (g : A → CommunityId * IndexKey) l r :
  foldl (λ r x, upd_channel_kind (λ m, update_at u m (g x)) r) r l
  = upd_channel_kind (update_all u (map g l)) r.
Proof. revert r. induction l as [|x l IH]; intros r; simpl; [by destruct r|]. by rewrite IH. Qed.

Lemma foldl_upd_global_p_kind l r :
  foldl (λ r key, upd_global_p_kind (λ m, update_at u m key) r) r l
  = upd_global_p_kind (update_all u l) r.
Proof. revert r. induction l as [|x l IH]; intros r; simpl; [by destruct r|]. by rewrite IH. Qed.

Lemma foldl_upd_global_kind {A : Type} (g : A → CommunityId * N) l r :
  foldl (λ r x, upd_global_kind (λ m, update_at u m (g x)) r) r l
  = upd_global_kind (update_all u (map g l)) r.
Proof. revert r. induction l as [|x l IH]; intros r; simpl; [by destruct r|]. by rewrite IH. Qed.

Lemma update_channels_spec filters c chs r :
  foldl (update_channel u filters c) r chs
  = upd_channel_kind (update_all u (channel_kind_keys (filters, c, Channels chs)))
      (upd_channel_wildcard (update_all u (channel_wildcard_keys (filters, c, Channels chs))) r).
Proof.
  unfold channel_kind_keys, channel_wildcard_keys, update_channel.
  destruct (extract_kinds_from_filters filters) as [kinds|] eqn:E; revert r.
  - induction chs as [|ch chs IH]; intros r; simpl; [by destruct r|]. rewrite IH.
    destruct kinds as [|k ks]; [done|].
    rewrite (foldl_upd_channel_kind (λ k, (c, (ch, k)))).
    unfold upd_channel_kind, upd_channel_wildcard, update_all. cbn [channel_kind_index].
    by rewrite foldl_app.
  - induction chs as [|ch chs IH]; intros r; simpl; [by destruct r|]. by rewrite IH.
Qed.

Lemma update_indexes_spec filters c scope r :
  let e := (filters, c, scope) in
  update_indexes u filters c scope r
  = mkRegistry (subs r)
      (update_all u (channel_kind_keys e) (channel_kind_index r))
      (update_all u (channel_wildcard_keys e) (channel_wildcard_index r))
      (update_all u (global_kind_keys e) (global_kind_index r))
      (update_all u (global_p_kind_keys e) (global_p_kind_index r))
      (update_all u (global_wildcard_keys e) (global_wildcard_index r)).
Proof.
  simpl. destruct scope as [|chs]; simpl; [|by rewrite update_channels_spec].
  destruct (extract_global_p_kind_index_keys c filters) as [keys|];
    [rewrite foldl_upd_global_p_kind; by destruct (extract_kinds_from_filters filters)|].
  destruct (extract_kinds_from_filters filters) as [[|k ks]|]; [by destruct r| |by destruct r].
  by rewrite (foldl_upd_global_kind (λ k, (c, k))).
Qed.
End update_spec.

(** ** Lemmas: one index *)

Section one_index.
Context {K : Type} `{Countable K}.
Implicit Types (m : index K) (s : Sub) (k : K) (ks : list K).

Lemma elem_of_push_all s m ks s' k :
  s' ∈ default [] (update_all (pushing s) ks m !! k) ↔ s' ∈ default [] (m !! k) ∨ (s' = s ∧ k ∈ ks).
Proof.
  unfold update_all. revert m. induction ks as [|k0 ks IH]; intros m; simpl; [set_solver|].
  rewrite IH. unfold index_push. rewrite lookup_insert. case_decide as Hk; simpl; [subst k0|].
  - rewrite elem_of_app, list_elem_of_singleton, elem_of_cons. tauto.
  - rewrite elem_of_cons. naive_solver.
Qed.

Lemma elem_of_remove_one s m k0 s' k :
  s' ∈ default [] (index_remove s m k0 !! k) ↔ s' ∈ default [] (m !! k) ∧ ¬ (s' = s ∧ k = k0).
Proof.
  unfold index_remove. destruct (m !! k0) as [l|] eqn:E.
  - assert (Hf : ∀ x, x ∈ filter (λ x, x ≠ s) l ↔ x ∈ l ∧ x ≠ s)
      by (intros x; rewrite list_elem_of_filter; tauto).
    destruct (filter _ l) as [|x xs]; rewrite ?lookup_delete, ?lookup_insert;
      case_decide as Hk; simpl; rewrite ?Hf; subst; rewrite ?E; simpl; try tauto; try naive_solver.
  - destruct (decide (k = k0)) as [->|]; [rewrite E; simpl; set_solver|tauto].
Qed.

Lemma elem_of_remove_all s m ks s' k :
  s' ∈ default [] (update_all (removing s) ks m !! k) ↔
  s' ∈ default [] (m !! k) ∧ ¬ (s' = s ∧ k ∈ ks).
Proof.
  unfold update_all. revert m. induction ks as [|k0 ks IH]; intros m; simpl; [set_solver|].
  rewrite IH, elem_of_remove_one, elem_of_cons. tauto.
Qed.

(** No index keeps an empty list. *)
Definition no_empty m : Prop := ∀ k, m !! k ≠ Some [].

Lemma no_empty_push_all s ks m : no_empty m → no_empty (update_all (pushing s) ks m).
Proof.
  unfold update_all. revert m. induction ks as [|k0 ks IH]; intros m Hm; simpl; [done|].
  apply IH. intros k. unfold index_push. rewrite lookup_insert. case_decide; [|apply Hm].
  by destruct (default _ _).
Qed.

Lemma no_empty_remove_all s ks m : no_empty m → no_empty (update_all (removing s) ks m).
Proof.
  unfold update_all. revert m. induction ks as [|k0 ks IH]; intros m Hm; simpl; [done|].
  apply IH. intros k. unfold index_remove. destruct (m !! k0) as [l|]; [|apply Hm].
  destruct (filter _ l); rewrite ?lookup_delete, ?lookup_insert; case_decide; try done; apply Hm.
Qed.
End one_index.

(** ** The invariant *)

(** The authoritative entry of a subscription. *)
Definition entry_of (r : SubscriptionRegistry) (s : Sub) : option SubEntry := get_sub r s.1 s.2.

(** An index holds a subscription under exactly the keys of its entry. *)
Definition index_ok {K : Type} `{Countable K} (keys : SubEntry → list K)
    (entries : Sub → option SubEntry) (m : index K) : Prop :=
  no_empty m ∧ ∀ k s, s ∈ default [] (m !! k) ↔ ∃ e, entries s = Some e ∧ k ∈ keys e.

(** The five key functions. *)
Inductive keys_of : ∀ {K : Type}, (SubEntry → list K) → Prop :=
| keys_channel_kind : keys_of channel_kind_keys
| keys_channel_wildcard : keys_of channel_wildcard_keys
| keys_global_kind : keys_of global_kind_keys
| keys_global_p_kind : keys_of global_p_kind_keys
| keys_global_wildcard : keys_of global_wildcard_keys.

Record registry_ok (r : SubscriptionRegistry) : Prop := {
  ro_channel_kind : index_ok channel_kind_keys (entry_of r) (channel_kind_index r);
  ro_channel_wildcard : index_ok channel_wildcard_keys (entry_of r) (channel_wildcard_index r);
  ro_global_kind : index_ok global_kind_keys (entry_of r) (global_kind_index r);
  ro_global_p_kind : index_ok global_p_kind_keys (entry_of r) (global_p_kind_index r);
  ro_global_wildcard : index_ok global_wildcard_keys (entry_of r) (global_wildcard_index r)
}.

(** [S'] is [S] with the entry of [s] replaced. *)
Definition entries_set (S S' : Sub → option SubEntry) (s : Sub) (e' : option SubEntry) : Prop :=
  ∀ s', S' s' = if decide (s' = s) then e' else S s'.

Lemma index_ok_push {K : Type} `{Countable K} (keys : SubEntry → list K) S S' s e m :
  index_ok keys S m → S s = None → entries_set S S' s (Some e) →
  index_ok keys S' (update_all (pushing s) (keys e) m).
Proof.
  intros [Hne Hm] HS Hset. split; [by apply no_empty_push_all|].
  intros k s'. rewrite elem_of_push_all, Hm, Hset. case_decide as Hd; [subst s'|naive_solver].
  rewrite HS. naive_solver.
Qed.

Lemma index_ok_remove {K : Type} `{Countable K} (keys : SubEntry → list K) S S' s e e' ks m :
  index_ok keys S m → S s = Some e → entries_set S S' s e' →
  (∀ k, (∃ e1, e' = Some e1 ∧ k ∈ keys e1) ↔ k ∈ keys e ∧ k ∉ ks) →
  index_ok keys S' (update_all (removing s) ks m).
Proof.
  intros [Hne Hm] HS Hset Hks. split; [by apply no_empty_remove_all|].
  intros k s'. rewrite elem_of_remove_all, Hm, Hset. case_decide as Hd; [subst s'|naive_solver].
  rewrite Hks, HS. naive_solver.
Qed.

Lemma update_indexes_set_subs u filters c scope x r :
  update_indexes u filters c scope (set_subs x r) = set_subs x (update_indexes u filters c scope r).
Proof. by rewrite !update_indexes_spec. Qed.

Lemma subs_update_indexes u filters c scope r :
  subs (update_indexes u filters c scope r) = subs r.
Proof. by rewrite update_indexes_spec. Qed.

(** The two steps every operation is made of. *)
Lemma registry_ok_push r x s filters c scope :
  registry_ok r → entry_of r s = None →
  entries_set (entry_of r) (entry_of (set_subs x r)) s (Some (filters, c, scope)) →
  registry_ok (update_indexes (pushing s) filters c scope (set_subs x r)).
Proof.
  intros [H1 H2 H3 H4 H5] Hs Hset. rewrite update_indexes_spec.
  split; by eapply index_ok_push.
Qed.

Lemma registry_ok_remove r x s filters c scope e e' :
  registry_ok r → entry_of r s = Some e →
  entries_set (entry_of r) (entry_of (set_subs x r)) s e' →
  (∀ (K : Type) (keys : SubEntry → list K), 
    keys_of keys → ∀ k, (∃ e1, e' = Some e1 ∧ k ∈ keys e1) ↔ k ∈ keys e ∧ k ∉ keys (filters, c, scope)) →
  registry_ok (set_subs x (update_indexes (removing s) filters c scope r)).
Proof.
  intros [H1 H2 H3 H4 H5] Hs Hset Hks. rewrite update_indexes_spec.
  split; eapply index_ok_remove; eauto using keys_of.
Qed.

(** Looking an entry up after an update of [subs]. *)
Lemma entry_of_insert r c conn_subs s e s' :
  default ∅ (subs r !! c) = conn_subs →
  entry_of (set_subs (<[c := <[s := e]> conn_subs]> (subs r)) r) s'
  = if decide (s' = (c, s)) then Some e else entry_of r s'.
Proof.
  intros <-. destruct s' as [c' s']. unfold entry_of, get_sub. simpl. rewrite lookup_insert.
  destruct (decide (c = c')) as [<-|Hc]; simpl; [|rewrite decide_False; [done|congruence]].
  rewrite lookup_insert. destruct (decide (s = s')) as [<-|Hs]; [by rewrite decide_True|].
  rewrite decide_False by congruence. by destruct (subs r !! c).
Qed.

Lemma entry_of_delete r c conn_subs s s' :
  subs r !! c = Some conn_subs →
  entry_of (set_subs (<[c := delete s conn_subs]> (subs r)) r) s'
  = if decide (s' = (c, s)) then None else entry_of r s'.
Proof.
  intros Hc. destruct s' as [c' s']. unfold entry_of, get_sub. simpl. rewrite lookup_insert.
  destruct (decide (c = c')) as [<-|Hne]; simpl; [|rewrite decide_False; [done|congruence]].
  rewrite lookup_delete, Hc. simpl.
  destruct (decide (s = s')) as [<-|Hs]; [by rewrite decide_True|].
  by rewrite decide_False by congruence.
Qed.

Lemma registry_ok_ext x y r :
  (∀ s, entry_of (set_subs x r) s = entry_of (set_subs y r) s) →
  registry_ok (set_subs x r) → registry_ok (set_subs y r).
Proof.
  intros Hxy [[N1 H1] [N2 H2] [N3 H3] [N4 H4] [N5 H5]].
  split; (split; [done|]); intros k s; rewrite <-Hxy; auto.
Qed.

Lemma set_subs_id r : set_subs (subs r) r = r.
Proof. by destruct r. Qed.

Lemma get_sub_entry r c s : get_sub r c s = entry_of r (c, s).
Proof. done. Qed.

(** ** Lemmas: removing and registering *)

Definition removed_of (e : SubEntry) : RemovedSubscription :=
  {| rs_community_id := e.1.2; rs_scope := e.2 |}.

Lemma remove_subscription_spec c s r :
  (remove_subscription c s r).1 = removed_of <$> entry_of r (c, s)
  ∧ ∀ s', entry_of (remove_subscription c s r).2 s'
      = if decide (s' = (c, s)) then None else entry_of r s'.
Proof.
  unfold remove_subscription, entry_of, get_sub. simpl.
  destruct (subs r !! c) as [cs|] eqn:Ec; simpl.
  - destruct (cs !! s) as [[[f cm] sc]|] eqn:Es; simpl; (split; [done|]); intros s'.
    + unfold remove_from_index. rewrite subs_update_indexes. by apply entry_of_delete.
    + case_decide as Hd; [subst s'; simpl; by rewrite Ec|done].
  - split; [done|]. intros s'. case_decide as Hd; [subst s'; simpl; by rewrite Ec|done].
Qed.

Lemma remove_subscription_ok c s r : registry_ok r → registry_ok (remove_subscription c s r).2.
Proof.
  intros Hr. unfold remove_subscription. destruct (subs r !! c) as [cs|] eqn:Ec; [|done].
  destruct (cs !! s) as [[[f cm] sc]|] eqn:Es; [|done]. simpl.
  unfold remove_from_index. rewrite update_indexes_set_subs.
  eapply (registry_ok_remove r _ (c, s) f cm sc (f, cm, sc) None); [done| | |].
  - unfold entry_of, get_sub. simpl. by rewrite Ec.
  - intros s'. by apply entry_of_delete.
  - intros K keys _ k. naive_solver.
Qed.

Lemma register_spec cm c s filters scope r :
  (register_with_scope cm c s filters scope r).1 = removed_of <$> entry_of r (c, s)
  ∧ ∀ s', entry_of (register_with_scope cm c s filters scope r).2 s'
      = if decide (s' = (c, s)) then Some (filters, cm, scope) else entry_of r s'.
Proof.
  unfold register_with_scope. destruct (remove_subscription_spec c s r) as [H1 H2].
  destruct (remove_subscription c s r) as [removed r1]. simpl in *. split; [done|].
  intros s'. unfold entry_of at 1, get_sub. rewrite subs_update_indexes.
  change (entry_of (set_subs (<[c:=<[s:=(filters, cm, scope)]> (default ∅ (subs r1 !! c))]> (subs r1)) r1) s'
    = if decide (s' = (c, s)) then Some (filters, cm, scope) else entry_of r s').
  rewrite entry_of_insert by done. case_decide as Hd; [done|]. by rewrite H2, decide_False.
Qed.

Lemma register_ok cm c s filters scope r :
  registry_ok r → registry_ok (register_with_scope cm c s filters scope r).2.
Proof.
  intros Hr%(remove_subscription_ok c s). unfold register_with_scope.
  destruct (remove_subscription_spec c s r) as [_ H2].
  destruct (remove_subscription c s r) as [removed r1]. simpl in *.
  apply registry_ok_push; [done| |].
  - by rewrite H2, decide_True.
  - intros s'. by apply entry_of_insert.
Qed.

Section removal.
Context {HO : HashOrder}.

Lemma remove_conn_fold c l removed r :
  (foldl (remove_conn_step c) (removed, r) l).1 = removed ++ map (λ se, removed_of se.2) l
  ∧ subs (foldl (remove_conn_step c) (removed, r) l).2 = subs r.
Proof.
  revert removed r. induction l as [|[s [[f cm] sc]] l IH]; intros removed r; simpl.
  { by rewrite app_nil_r. }
  destruct (IH (removed ++ [removed_of (f, cm, sc)]) (remove_from_index c s f cm sc r)) as [H1 H2].
  split; [|etrans; [exact H2|apply subs_update_indexes]].
  etrans; [exact H1|]. by rewrite <-(assoc_L (++)).
Qed.

Lemma remove_conn_loop c X l : NoDup l.*1 → ∀ removed r cs,
  registry_ok (set_subs (<[c := cs]> X) r) → (∀ s e, cs !! s = Some e ↔ (s, e) ∈ l) →
  registry_ok (set_subs (<[c := ∅]> X) (foldl (remove_conn_step c) (removed, r) l).2).
Proof.
  induction l as [|[s [[f cm] sc]] l IH]; intros Hnd removed r cs Hr Hcs.
  - assert (cs = ∅) as -> by (apply map_empty; intros s; apply eq_None_not_Some;
      intros [e He%Hcs]; by apply not_elem_of_nil in He). done.
  - rewrite fmap_cons in Hnd. apply NoDup_cons in Hnd as [Hs Hnd]. cbn [foldl remove_conn_step].
    assert (Hcs_s : cs !! s = Some (f, cm, sc)) by (apply Hcs; set_solver).
    apply (IH Hnd _ _ (delete s cs)).
    + unfold remove_from_index.
      replace (set_subs (<[c := delete s cs]> X) (update_indexes (removing (c, s)) f cm sc r))
        with (set_subs (<[c := delete s cs]> (<[c := cs]> X))
                (update_indexes (removing (c, s)) f cm sc (set_subs (<[c := cs]> X) r)))
        by (rewrite update_indexes_set_subs, insert_insert_eq; done).
      eapply (registry_ok_remove _ _ (c, s) f cm sc (f, cm, sc) None); [done| | |].
      * unfold entry_of, get_sub. simpl. by rewrite lookup_insert_eq.
      * intros s'. pose proof (entry_of_delete (set_subs (<[c := cs]> X) r) c cs s s') as He.
        cbn [subs set_subs] in He. apply He, lookup_insert_eq.
      * intros K keys _ k. naive_solver.
    + intros s' e. rewrite lookup_delete_Some, Hcs, elem_of_cons. split; [naive_solver|].
      intros Hin. split; [|by right]. intros <-. apply Hs. apply list_elem_of_fmap. by exists (s, e).
Qed.

Lemma NoDup_fst_hm_iter {K A : Type} `{Countable K} (m : gmap K A) : NoDup (hm_iter m).*1.
Proof. rewrite hm_iter_perm. apply NoDup_fst_map_to_list. Qed.

Lemma remove_connection_spec c r :
  (remove_connection c r).1
    = map (λ se, removed_of se.2) (hm_iter (default ∅ (subs r !! c)))
  ∧ (∀ s', entry_of (remove_connection c r).2 s' = if decide (s'.1 = c) then None else entry_of r s')
  ∧ (registry_ok r → registry_ok (remove_connection c r).2).
Proof.
  unfold remove_connection. destruct (subs r !! c) as [cs|] eqn:Ec; simpl.
  2: { rewrite hm_iter_empty. split_and!; [done| |done]. intros [c' s'].
    case_decide as Hd; [|done]. simpl in Hd. subst c'. unfold entry_of, get_sub. simpl. by rewrite Ec. }
  set (X := delete c (subs r)).
  destruct (remove_conn_fold c (hm_iter cs) [] (set_subs X r)) as [H1 H2]. split_and!; [done| |].
  - intros [c' s']. unfold entry_of, get_sub. rewrite H2. unfold X. simpl. rewrite lookup_delete.
    destruct (decide (c = c')) as [<-|Hne]; [by rewrite decide_True|by rewrite decide_False].
  - intros Hr. set (r' := (foldl _ _ _).2) in *. rewrite <-(set_subs_id r'), H2.
    apply (registry_ok_ext (<[c := ∅]> X)).
    + intros [c' s']. unfold entry_of, get_sub, X. simpl. rewrite lookup_insert, lookup_delete.
      by case_decide.
    + apply (remove_conn_loop c X (hm_iter cs) (NoDup_fst_hm_iter cs) [] (set_subs X r) cs).
      * simpl. unfold X. change (registry_ok (set_subs (<[c:=cs]> (delete c (subs r))) r)).
        by rewrite insert_delete_id, set_subs_id.
      * intros s e. by rewrite elem_of_hm_iter.
Qed.
End removal.

(** ** Lemmas: revoking a channel *)

(** What is left of an entry when a channel is revoked. *)
Definition revoked (ch : Uuid) (e : SubEntry) : option SubEntry :=
  match e with
  | (filters, cm, Channels chs) =>
      let chs := filter (λ c, c ≠ ch) chs in
      if bool_decide (chs = []) then None else Some (filters, cm, Channels chs)
  | _ => Some e
  end.

(** The keys of the revoked channel are the ones the remaining entry loses. *)
Lemma keys_of_revoked {K : Type} (keys : SubEntry → list K) ch filters cm chs k :
  keys_of keys →
  (∃ e1, revoked ch (filters, cm, Channels chs) = Some e1 ∧ k ∈ keys e1) ↔
  k ∈ keys (filters, cm, Channels chs) ∧ k ∉ keys (filters, cm, Channels [ch]).
Proof.
  assert (Hf : ∀ c, c ∈ filter (λ c, c ≠ ch) chs ↔ c ∈ chs ∧ c ≠ ch)
    by (intros c; rewrite list_elem_of_filter; tauto).
  assert (Hr : (∃ e1, revoked ch (filters, cm, Channels chs) = Some e1 ∧ k ∈ keys e1) ↔
    filter (λ c, c ≠ ch) chs ≠ [] ∧ k ∈ keys (filters, cm, Channels (filter (λ c, c ≠ ch) chs))).
  { simpl. case_bool_decide; naive_solver. }
  rewrite Hr. clear Hr. set (chs' := filter _ chs) in *. clearbody chs'.
  assert (Hne : ∀ c, c ∈ chs' → chs' ≠ []) by (intros c Hc ->; by apply not_elem_of_nil in Hc).
  intros Hk. destruct Hk; unfold channel_kind_keys, channel_wildcard_keys, global_kind_keys,
    global_p_kind_keys, global_wildcard_keys; simpl;
    try (rewrite !elem_of_nil; tauto);
    destruct (extract_kinds_from_filters filters) as [kinds|]; rewrite ?elem_of_nil; try tauto.
  - rewrite app_nil_r, !elem_of_concat_map. setoid_rewrite list_elem_of_fmap.
    setoid_rewrite Hf. split.
    + intros (_ & c & [Hc Hne'] & k0 & -> & Hk0). split; [by eauto|].
      intros (k1 & [= ->] & _). done.
    + intros [(c & Hc & k0 & -> & Hk0) Hn].
      assert (c ≠ ch) by (intros ->; apply Hn; eauto). split; [by eapply Hne, Hf|]. eauto 10.
  - rewrite list_elem_of_singleton, !list_elem_of_fmap. setoid_rewrite Hf. split.
    + intros (_ & c & -> & Hc & Hne'). split; [by eauto|congruence].
    + intros [(c & -> & Hc) Hn]. assert (c ≠ ch) by (by intros ->).
      split; [by eapply Hne, Hf|]. eauto.
Qed.

Lemma revoke_one_spec cm c ch s cs filters chs r :
  subs r !! c = Some cs → cs !! s = Some (filters, cm, Channels chs) →
  let e := (filters, cm, Channels chs) in
  let '(removed, r') := revoke_one cm c ch s cs filters cm chs r in
  removed = bool_decide (revoked ch e = None)
  ∧ (∀ s', entry_of r' s' = if decide (s' = (c, s)) then revoked ch e else entry_of r s')
  ∧ (registry_ok r → registry_ok r').
Proof.
  intros Hcs Hs. cbv zeta. unfold revoke_one, remove_from_index.
  set (chs' := filter _ chs). set (cs' := <[s := _]> cs). rewrite !update_indexes_set_subs.
  set (u := update_indexes _ _ _ _ _).
  assert (Hent : entry_of r (c, s) = Some (filters, cm, Channels chs))
    by (unfold entry_of, get_sub; simpl; by rewrite Hcs).
  assert (He : ∀ s', entry_of (set_subs (<[c := cs']> (subs r)) r) s'
    = if decide (s' = (c, s)) then Some (filters, cm, Channels chs') else entry_of r s').
  { intros s'. unfold cs'. apply entry_of_insert. by rewrite Hcs. }
  assert (Hrev : revoked ch (filters, cm, Channels chs)
    = if bool_decide (chs' = []) then None else Some (filters, cm, Channels chs')) by done.
  assert (Hkeys : ∀ (K : Type) (keys : SubEntry → list K), keys_of keys → ∀ k,
    (∃ e1, revoked ch (filters, cm, Channels chs) = Some e1 ∧ k ∈ keys e1)
    ↔ k ∈ keys (filters, cm, Channels chs) ∧ k ∉ keys (filters, cm, Channels [ch]))
    by (intros; by apply keys_of_revoked).
  destruct (bool_decide (chs' = [])); rewrite Hrev in *.
  - assert (He' : ∀ s', entry_of (set_subs (<[c := delete s cs']> (<[c := cs']> (subs r))) r) s'
      = if decide (s' = (c, s)) then None else entry_of r s').
    { intros s'. pose proof (entry_of_delete (set_subs (<[c := cs']> (subs r)) r) c cs' s s') as Hd.
      cbn [subs set_subs] in Hd. etrans; [apply Hd, lookup_insert_eq|]. rewrite He. by case_decide. }
    split; [done|]. split; [exact He'|]. intros Hr.
    exact (registry_ok_remove r _ (c, s) _ _ _ _ None Hr Hent He' Hkeys).
  - split; [done|]. split; [exact He|]. intros Hr.
    exact (registry_ok_remove r _ (c, s) _ _ _ _ _ Hr Hent He Hkeys).
Qed.

Lemma revoke_loop_spec cm c ch l : NoDup l → ∀ r,
  (∀ s, s ∈ l → ∃ filters chs, entry_of r (c, s) = Some (filters, cm, Channels chs)) →
  let '(updates, r') := revoke_loop cm c ch l r in
  map cu_sub_id updates = l
  ∧ (∀ u, u ∈ updates → cu_removed u = true ↔ entry_of r' (c, cu_sub_id u) = None)
  ∧ (∀ s', entry_of r' s'
      = if decide (s'.1 = c ∧ s'.2 ∈ l) then entry_of r s' ≫= revoked ch else entry_of r s')
  ∧ (registry_ok r → registry_ok r').
Proof.
  induction 1 as [|s l Hs Hnd IH]; intros r Hl; cbn [revoke_loop].
  { split_and!; [done|set_solver| |done]. intros s'. rewrite decide_False; [done|set_solver]. }
  destruct (Hl s) as (filters & chs & He); [set_solver|].
  pose proof He as He'. unfold entry_of, get_sub in He'. simpl in He'.
  destruct (subs r !! c) as [cs|] eqn:Ec; [|done]. simpl in He'. rewrite He'.
  pose proof (revoke_one_spec cm c ch s cs filters chs r Ec He') as Hone. cbv zeta in Hone.
  destruct (revoke_one cm c ch s cs filters cm chs r) as [removed r1].
  destruct Hone as (-> & Hent & Hok).
  specialize (IH r1). destruct (revoke_loop cm c ch l r1) as [updates r'].
  destruct IH as (H1 & H2 & H3 & H4).
  { intros s' Hs'. rewrite Hent, decide_False by congruence. apply Hl. set_solver. }
  assert (Hres : ∀ s', entry_of r' s'
    = if decide (s'.1 = c ∧ s'.2 ∈ s :: l) then entry_of r s' ≫= revoked ch else entry_of r s').
  { intros [c' s']. rewrite H3, Hent. simpl.
    destruct (decide (c' = c)) as [->|Hc]; [|by rewrite !decide_False by naive_solver].
    destruct (decide (s' = s)) as [->|Hss].
    - rewrite decide_False by tauto. rewrite !decide_True by set_solver. by rewrite He.
    - rewrite (decide_False (P := (c, s') = (c, s))) by congruence.
      destruct (decide (s' ∈ l)); [rewrite !decide_True; [done|set_solver|done]|].
      rewrite !decide_False; [done|set_solver|tauto]. }
  split; [by rewrite <-H1|]. split; [|split; [exact Hres|auto]].
  intros u [->|Hu]%elem_of_cons; [|by apply H2]. simpl.
  rewrite Hres, decide_True by set_solver. rewrite He. simpl. by case_bool_decide.
Qed.

Section revocation.
Context {HO : HashOrder}.

(** What revoking a channel leaves of an entry of the connection. *)
Definition revoke_in (cm : CommunityId) (ch : Uuid) (e : SubEntry) : option SubEntry :=
  if decide (e.1.2 = cm ∧ ch ∈ channel_ids e.2) then revoked ch e else Some e.

Lemma remove_channel_spec cm c ch r :
  let '(updates, r') := remove_channel_subscriptions_scoped cm c ch r in
  NoDup (map cu_sub_id updates)
  ∧ (∀ s, s ∈ map cu_sub_id updates ↔
      ∃ e, entry_of r (c, s) = Some e ∧ e.1.2 = cm ∧ ch ∈ channel_ids e.2)
  ∧ (∀ u, u ∈ updates → cu_removed u = true ↔ entry_of r' (c, cu_sub_id u) = None)
  ∧ (∀ s', entry_of r' s'
      = if decide (s'.1 = c) then entry_of r s' ≫= revoke_in cm ch else entry_of r s')
  ∧ (registry_ok r → registry_ok r').
Proof.
  unfold remove_channel_subscriptions_scoped. set (l := match subs r !! c with None => [] | _ => _ end).
  assert (Hnd : NoDup l).
  { unfold l. destruct (subs r !! c) as [cs|]; [|constructor].
    eapply sublist_NoDup; [apply (NoDup_fst_hm_iter cs)|]. apply fmap_sublist, filter_sublist_of. }
  assert (Hl : ∀ s, s ∈ l ↔ ∃ e, entry_of r (c, s) = Some e ∧ e.1.2 = cm ∧ ch ∈ channel_ids e.2).
  { intros s. unfold l, entry_of, get_sub. simpl. destruct (subs r !! c) as [cs|]; simpl; [|set_solver].
    rewrite list_elem_of_fmap. setoid_rewrite list_elem_of_filter. split.
    - intros ([s' [[f cm'] sc]] & -> & [Hc1 Hc2] & Hin%elem_of_hm_iter). by exists (f, cm', sc).
    - intros ([[f cm'] sc] & He & H1 & H2). exists (s, (f, cm', sc)). by rewrite elem_of_hm_iter. }
  pose proof (revoke_loop_spec cm c ch l Hnd r) as Hspec.
  destruct (revoke_loop cm c ch l r) as [updates r']. destruct Hspec as (H1 & H2 & H3 & H4).
  { intros s ([[f cm'] [|chs]] & He & Hcm & Hch)%Hl; simpl in *; [set_solver|]. subst cm'. eauto. }
  rewrite H1. split_and!; [done|done|done| |done].
  intros [c' s']. rewrite H3. simpl. destruct (decide (c' = c)) as [->|]; [|by rewrite decide_False by tauto].
  destruct (entry_of r (c, s')) as [e|] eqn:E; simpl; [|by case_decide].
  unfold revoke_in. assert (Hiff : (c = c ∧ s' ∈ l) ↔ e.1.2 = cm ∧ ch ∈ channel_ids e.2).
  { rewrite Hl, E. naive_solver. }
  by rewrite (decide_ext _ _ _ _ Hiff).
Qed.
End revocation.

(** What a revoked entry still accepts. *)
Lemma revoke_in_receives cm ch filters cm0 scope cm' o (P : list Filter → Prop) :
  (∃ f sc, revoke_in cm ch (filters, cm0, scope) = Some (f, cm', sc)
     ∧ matches_channel sc o = true ∧ P f)
  ↔ cm0 = cm' ∧ matches_channel scope o = true ∧ P filters ∧ ¬ (cm' = cm ∧ o = Some ch).
Proof.
  unfold revoke_in. simpl. case_decide as Hd.
  - destruct Hd as [-> Hch]. destruct scope as [|chs]; [by apply not_elem_of_nil in Hch|]. simpl.
    assert (Hf : ∀ x, x ∈ filter (λ x, x ≠ ch) chs ↔ x ∈ chs ∧ x ≠ ch)
      by (intros x; rewrite list_elem_of_filter; tauto).
    set (chs' := filter _ chs) in *. clearbody chs'. destruct o as [x|]; simpl.
    + rewrite bool_decide_eq_true. case_bool_decide as Hnil.
      * subst chs'. specialize (Hf x). rewrite elem_of_nil in Hf. naive_solver.
      * split.
        -- intros (f & sc & [= <- <- <-] & [? ?]%bool_decide_eq_true%Hf & ?). naive_solver.
        -- intros (-> & Hx & HP & Hn). exists filters, (Channels chs'). split; [done|].
           split; [|done]. apply bool_decide_eq_true, Hf. naive_solver.
    + case_bool_decide; naive_solver.
  - split; [|naive_solver]. intros (f & sc & [= <- <- <-] & Hm & HP). split_and!; try done.
    intros [-> ->]. apply Hd. split; [done|]. destruct scope; [done|].
    by apply bool_decide_eq_true in Hm.
Qed.

(** ** The registry as a state machine *)

Inductive op : Type :=
| Op_register (cm : CommunityId) (c : ConnId) (s : SubId) (filters : list Filter)
    (channel : option Uuid)
| Op_register_channels (cm : CommunityId) (c : ConnId) (s : SubId) (filters : list Filter)
    (channels : list Uuid)
| Op_remove (c : ConnId) (s : SubId)
| Op_disconnect (c : ConnId)
| Op_revoke (cm : CommunityId) (c : ConnId) (channel : Uuid).

Inductive step : SubscriptionRegistry → op → SubscriptionRegistry → Prop :=
| step_register r cm c s filters ch :
    step r (Op_register cm c s filters ch) (register_scoped cm c s filters ch r).2
| step_register_channels r cm c s filters chs :
    step r (Op_register_channels cm c s filters chs) (register_channels_scoped cm c s filters chs r).2
| step_remove r c s : step r (Op_remove c s) (remove_subscription c s r).2
| step_disconnect (HO : HashOrder) r c : step r (Op_disconnect c) (remove_connection c r).2
| step_revoke (HO : HashOrder) r cm c ch :
    step r (Op_revoke cm c ch) (remove_channel_subscriptions_scoped cm c ch r).2.

Inductive reachable : SubscriptionRegistry → Prop :=
| reachable_new : reachable new
| reachable_step r o r' : reachable r → step r o r' → reachable r'.

Lemma registry_ok_new : registry_ok new.
Proof.
  assert (Hnew : ∀ (K : Type) (EK : EqDecision K) (CK : Countable K) (keys : SubEntry → list K),
    index_ok keys (entry_of new) ∅).
  { intros K EK CK keys. split; [intros k; by rewrite lookup_empty|].
    intros k s. rewrite lookup_empty. simpl. split; [intros Hs; by apply not_elem_of_nil in Hs|].
    intros (e & He & _). done. }
  split; apply Hnew.
Qed.

Lemma registry_ok_step r o r' : step r o r' → registry_ok r → registry_ok r'.
Proof.
  destruct 1; intros Hr.
  - by apply register_ok.
  - by apply register_ok.
  - by apply remove_subscription_ok.
  - by apply remove_connection_spec.
  - pose proof (remove_channel_spec cm c ch r) as Hs.
    destruct (remove_channel_subscriptions_scoped cm c ch r). by apply Hs.
Qed.

Lemma registry_ok_reachable r : reachable r → registry_ok r.
Proof. induction 1; eauto using registry_ok_new, registry_ok_step. Qed.

(** ** Lemmas: fan-out *)

Section fan_out.
Context {NT : NostrTags} {UT : UuidText}.

(** The specification: what a scan of every subscription would deliver. *)
Definition should_receive (r : SubscriptionRegistry) (cm : CommunityId) (event : StoredEvent)
    (s : Sub) : Prop :=
  ∃ filters scope, entry_of r s = Some (filters, cm, scope)
    ∧ matches_channel scope (se_channel_id event) = true
    ∧ filters_match filters event = true.

Lemma push_match_spec r cm ev results seen s :
  (∀ x, x ∈ seen ↔ x ∈ results) → NoDup results →
  let '(results', seen') := push_match r cm ev (results, seen) s in
  (∀ x, x ∈ seen' ↔ x ∈ results') ∧ NoDup results'
  ∧ ∀ x, x ∈ results' ↔ x ∈ results ∨ (x = s ∧ should_receive r cm ev s).
Proof.
  intros Hseen Hnd. destruct s as [c s]. unfold push_match, should_receive, entry_of. simpl.
  destruct (get_sub r c s) as [[[f cm'] sc]|]; [|naive_solver].
  destruct (bool_decide (cm' = cm) && matches_channel sc (se_channel_id ev) && filters_match f ev)
    eqn:E.
  - apply andb_true_iff in E as [[->%bool_decide_eq_true Hm]%andb_true_iff Hf].
    case_bool_decide as Hin; simpl.
    + apply Hseen in Hin. split_and!; [done..|]. naive_solver.
    + split_and!.
      * intros x. rewrite elem_of_union, elem_of_app, elem_of_singleton, list_elem_of_singleton.
        rewrite Hseen. tauto.
      * apply NoDup_app. split_and!; [done| |apply NoDup_singleton].
        intros x Hx Hx2. apply list_elem_of_singleton in Hx2 as ->. by apply Hin, Hseen.
      * intros x. rewrite elem_of_app, list_elem_of_singleton. naive_solver.
  - split_and!; [done..|]. intros x. split; [auto|]. intros [?|(_ & f' & sc' & [= -> -> ->] & Hm & Hf)];
      [done|]. by rewrite bool_decide_eq_true_2, Hm, Hf in E.
Qed.

Lemma push_all_spec r cm ev cands results seen :
  (∀ x, x ∈ seen ↔ x ∈ results) → NoDup results →
  let '(results', _) := foldl (push_match r cm ev) (results, seen) cands in
  NoDup results' ∧ ∀ x, x ∈ results' ↔ x ∈ results ∨ (x ∈ cands ∧ should_receive r cm ev x).
Proof.
  revert results seen. induction cands as [|s cands IH]; intros results seen Hseen Hnd.
  { simpl. split; [done|]. set_solver. }
  cbn [foldl]. pose proof (push_match_spec r cm ev results seen s Hseen Hnd) as Hs.
  destruct (push_match r cm ev (results, seen) s) as [results1 seen1]. destruct Hs as (H1 & H2 & H3).
  specialize (IH results1 seen1 H1 H2). destruct (foldl _ _ _) as [results' seen'].
  destruct IH as [IH1 IH2]. split; [done|]. intros x. rewrite IH2, H3, elem_of_cons. naive_solver.
Qed.

Lemma elem_of_fan_out r cm ev s :
  s ∈ fan_out_scoped cm ev r ↔ s ∈ candidates r cm ev ∧ should_receive r cm ev s.
Proof.
  unfold fan_out_scoped. pose proof (push_all_spec r cm ev (candidates r cm ev) [] ∅) as H.
  destruct (foldl _ _ _). destruct H as [_ H]; [set_solver|constructor|].
  simpl. rewrite H, elem_of_nil. tauto.
Qed.

Lemma NoDup_fan_out r cm ev : NoDup (fan_out_scoped cm ev r).
Proof.
  unfold fan_out_scoped. pose proof (push_all_spec r cm ev (candidates r cm ev) [] ∅) as H.
  destruct (foldl _ _ _). destruct H as [H _]; [set_solver|constructor|done].
Qed.

Lemma extract_kinds_loop_spec filters kinds :
  match extract_kinds_loop kinds filters with
  | None => ∃ f, f ∈ filters ∧ f_kinds f = None
  | Some ks => (∀ k, k ∈ kinds → k ∈ ks)
      ∧ ∀ f, f ∈ filters → ∃ l, f_kinds f = Some l ∧ ∀ k, k ∈ l → k ∈ ks
  end.
Proof.
  revert kinds. induction filters as [|f filters IH]; intros kinds; simpl; [set_solver|].
  destruct (f_kinds f) as [l|] eqn:E; [|exists f; set_solver].
  specialize (IH (kinds ++ dedup_seen kinds l)).
  destruct (extract_kinds_loop _ filters) as [ks|]; [|destruct IH as (f' & ? & ?); exists f'; set_solver].
  destruct IH as [H1 H2]. split; [intros k Hk; apply H1; set_solver|].
  apply forall_elem_of_cons. split; [|done]. exists l. split; [done|]. intros k Hk.
  apply H1. rewrite elem_of_app, elem_of_dedup_seen. destruct (decide (k ∈ kinds)); auto.
Qed.

(** An entry that may accept an event is indexed under the event's kind or as
a wildcard. *)
Lemma extract_kinds_complete filters ev :
  filters_match filters ev = true →
  match extract_kinds_from_filters filters with
  | None => True
  | Some ks => kind (se_event ev) ∈ ks
  end.
Proof.
  intros (f & Hf & Hacc)%filters_match_iff. unfold extract_kinds_from_filters.
  pose proof (extract_kinds_loop_spec filters []) as Hs.
  destruct (extract_kinds_loop [] filters) as [ks|]; [|done].
  destruct Hs as [_ Hs]. destruct (Hs f Hf) as (l & Hl & Hks). by apply Hks, (fa_kinds f ev).
Qed.

Lemma elem_of_p_kind_keys cm kinds ps k p :
  (cm, k, p) ∈ p_kind_keys cm kinds ps ↔ k ∈ kinds ∧ p ∈ ps.
Proof.
  unfold p_kind_keys. rewrite elem_of_concat_map. setoid_rewrite list_elem_of_fmap. naive_solver.
Qed.

Lemma extract_p_loop_spec cm filters keys :
  match extract_p_loop cm keys filters with
  | None => True
  | Some ks => (∀ x, x ∈ keys → x ∈ ks)
      ∧ ∀ f, f ∈ filters → ∃ kinds, f_kinds f = Some kinds ∧
          (kinds = [] ∨ ∃ ps, f_generic_tags f !! "p" = Some ps
                       ∧ ∀ k p, k ∈ kinds → p ∈ ps → (cm, k, p) ∈ ks)
  end.
Proof.
  revert keys. induction filters as [|f filters IH]; intros keys; simpl; [set_solver|].
  destruct (f_kinds f) as [[|k0 kinds]|] eqn:E; [| |done].
  - specialize (IH keys). destruct (extract_p_loop cm keys filters) as [ks|]; [|done].
    destruct IH as [H1 H2]. split; [done|]. apply forall_elem_of_cons. split; [|done]. eauto.
  - destruct (f_generic_tags f !! "p") as [[|p0 ps]|] eqn:Ep; [done| |done].
    set (keys' := p_kind_keys _ _ _). specialize (IH (keys ++ dedup_seen keys keys')).
    destruct (extract_p_loop _ _ filters) as [ks|]; [|done]. destruct IH as [H1 H2].
    split; [intros x Hx; apply H1; set_solver|].
    apply forall_elem_of_cons. split; [|done]. exists (k0 :: kinds). split; [done|]. right.
    exists (p0 :: ps). split; [done|]. intros k p Hk Hp. apply H1.
    rewrite elem_of_app, elem_of_dedup_seen. destruct (decide ((cm, k, p) ∈ keys)); [auto|].
    right. split; [|done]. by apply elem_of_p_kind_keys.
Qed.

(** An entry on the (kind, [#p]) index that accepts an event is indexed under
the event's kind and one of its [p] values. *)
Lemma extract_p_complete cm filters ev :
  filters_match filters ev = true →
  match extract_global_p_kind_index_keys cm filters with
  | None => True
  | Some ks => ∃ p, p ∈ event_p_tag_values ev ∧ (cm, kind (se_event ev), p) ∈ ks
  end.
Proof.
  intros (f & Hf & Hacc)%filters_match_iff. unfold extract_global_p_kind_index_keys.
  pose proof (extract_p_loop_spec cm filters []) as Hs.
  destruct (extract_p_loop cm [] filters) as [ks|]; [|done].
  destruct Hs as [_ Hs]. destruct (Hs f Hf) as (kinds & Hk & Hps).
  pose proof (fa_kinds f ev Hacc _ Hk) as Hin.
  destruct Hps as [->|(ps & Hp & Hks)]; [by apply not_elem_of_nil in Hin|].
  destruct (fa_tags f ev Hacc _ _ Hp) as [(v & Hv & Hev)|(? & _)]; [|done].
  exists v. split; [|by apply Hks]. unfold event_p_tag_values. rewrite elem_of_dedup_seen. set_solver.
Qed.

(** The indexes find every subscription the scan would. *)
Lemma candidates_complete r cm ev s :
  registry_ok r → should_receive r cm ev s → s ∈ candidates r cm ev.
Proof.
  intros [[_ H1] [_ H2] [_ H3] [_ H4] [_ H5]] (f & sc & He & Hm & Hf). unfold candidates.
  pose proof (extract_kinds_complete f ev Hf) as Hk.
  pose proof (extract_p_complete cm f ev Hf) as Hp.
  destruct sc as [|chs], (se_channel_id ev) as [ch|] eqn:Ech; try done.
  - rewrite !elem_of_app, elem_of_concat_map.
    destruct (extract_global_p_kind_index_keys cm f) as [ks|] eqn:Eg.
    + destruct Hp as (p & Hp & Hks). left. exists p. split; [done|]. apply H4.
      exists (f, cm, Global). simpl. by rewrite Eg.
    + right. destruct (extract_kinds_from_filters f) as [kinds|] eqn:Ek.
      * left. apply H3. exists (f, cm, Global). simpl. rewrite Eg, Ek. split; [done|].
        apply list_elem_of_fmap. eauto.
      * right. apply H5. exists (f, cm, Global). simpl. rewrite Eg, Ek. set_solver.
  - apply bool_decide_eq_true in Hm. rewrite elem_of_app.
    destruct (extract_kinds_from_filters f) as [kinds|] eqn:Ek.
    + left. apply H1. exists (f, cm, Channels chs). simpl. rewrite Ek. split; [done|].
      apply elem_of_concat_map. exists ch. split; [done|]. apply list_elem_of_fmap. eauto.
    + right. apply H2. exists (f, cm, Channels chs). simpl. rewrite Ek. split; [done|].
      apply list_elem_of_fmap. eauto.
Qed.
End fan_out.

(** ** Properties *)

Section properties.
Context {HO : HashOrder} {NT : NostrTags} {UT : UuidText}.

Lemma fan_out_scan r cm ev s :
  registry_ok r → s ∈ fan_out_scoped cm ev r ↔ should_receive r cm ev s.
Proof.
  intros Hr. rewrite elem_of_fan_out. split; [by intros []|].
  intros Hs. split; [by apply candidates_complete|done].
Qed.

(** The five indexes never drift from the subscriptions: after any sequence
of registrations, replacements, removals, disconnects and channel revocations,
each index lists a subscription under exactly the keys its filters and scope
call for, and keeps no empty list. *)
Theorem indexes_consistent (r : SubscriptionRegistry) : reachable r → registry_ok r.
Proof. apply registry_ok_reachable. Qed.

(** C1. Fan-out equals the scan: in every reachable registry the subscriptions an
event is fanned out to are, without repetition, exactly those of the event's
community whose scope covers the event's channel (or lack of one) and whose
filters match it. *)
Theorem fan_out_equals_scan (r : SubscriptionRegistry) (cm : CommunityId) (ev : StoredEvent) :
  reachable r →
  NoDup (fan_out_scoped cm ev r) ∧ ∀ s, s ∈ fan_out_scoped cm ev r ↔ should_receive r cm ev s.
Proof.
  intros Hr%registry_ok_reachable. split; [apply NoDup_fan_out|]. intros s. by apply fan_out_scan.
Qed.

(** Stale indexes cannot leak: whatever the five indexes hold, an event only
reaches subscriptions whose authoritative entry is of its community, accepts it,
and covers its channel; a community-global event never reaches a channel
subscription, nor a channel event a global one. *)
Theorem fan_out_never_leaks (r : SubscriptionRegistry) (cm : CommunityId) (ev : StoredEvent) :
  NoDup (fan_out_scoped cm ev r)
  ∧ ∀ s, s ∈ fan_out_scoped cm ev r →
      ∃ filters scope, entry_of r s = Some (filters, cm, scope) ∧ filters_match filters ev = true
        ∧ match se_channel_id ev with
          | None => scope = Global
          | Some ch => ∃ chs, scope = Channels chs ∧ ch ∈ chs
          end.
Proof.
  split; [apply NoDup_fan_out|]. intros s [_ (f & sc & He & Hm & Hf)]%elem_of_fan_out.
  exists f, sc. split_and!; [done..|].
  destruct sc as [|chs], (se_channel_id ev); try done. apply bool_decide_eq_true in Hm. eauto.
Qed.

(** Registering replaces: the subscription id now has the given filters and
scope, the entry it replaced is returned for its topic to be released, and
every other subscription keeps its entry. *)
Theorem register_replaces (cm : CommunityId) (c : ConnId) (s : SubId) (filters : list Filter)
    (scope : SubscriptionScope) (r : SubscriptionRegistry) :
  let '(removed, r') := register_with_scope cm c s filters scope r in
  removed = removed_of <$> entry_of r (c, s)
  ∧ get_filters c s r' = Some filters
  ∧ (∀ s', entry_of r' s' = if decide (s' = (c, s)) then Some (filters, cm, scope) else entry_of r s')
  ∧ (let '(removed', r'') := remove_subscription c s r' in
     removed' = Some {| rs_community_id := cm; rs_scope := scope |}
     ∧ ∀ s', entry_of r'' s' = if decide (s' = (c, s)) then None else entry_of r s').
Proof.
  destruct (register_spec cm c s filters scope r) as [H1 H2].
  destruct (register_with_scope cm c s filters scope r) as [removed r']. simpl in *.
  assert (He : entry_of r' (c, s) = Some (filters, cm, scope)) by by rewrite H2, decide_True.
  split_and!; [done| |done|].
  - unfold get_filters. rewrite get_sub_entry. by rewrite He.
  - destruct (remove_subscription_spec c s r') as [H3 H4].
    destruct (remove_subscription c s r') as [removed' r'']. simpl in *. rewrite He in H3.
    split; [done|]. intros s'. rewrite H4, H2. by repeat case_decide.
Qed.

(** Disconnecting silences: afterwards the connection holds no subscription
and receives no event, every removed scope is reported exactly once, and every
other connection receives exactly what it received before. *)
Theorem disconnect_silences (c : ConnId) (r : SubscriptionRegistry) :
  reachable r →
  let '(removed, r') := remove_connection c r in
  removed = map (λ se, removed_of se.2) (hm_iter (default ∅ (subs r !! c)))
  ∧ (∀ s, entry_of r' (c, s) = None)
  ∧ ∀ cm ev s, s ∈ fan_out_scoped cm ev r' ↔ s ∈ fan_out_scoped cm ev r ∧ s.1 ≠ c.
Proof.
  intros Hr%registry_ok_reachable. destruct (remove_connection_spec c r) as (H1 & H2 & H3).
  destruct (remove_connection c r) as [removed r']. simpl in *. specialize (H3 Hr).
  split_and!; [done|intros s; by rewrite H2, decide_True|].
  intros cm ev s. rewrite !fan_out_scan by done. unfold should_receive. rewrite H2.
  case_decide; naive_solver.
Qed.

(** Revoking a channel cuts exactly that channel off: afterwards the
connection receives none of its events in that community, every other delivery
to any connection is as before, and the reported updates name exactly the
affected subscriptions, flagged [removed] when no channel was left to them. *)
Theorem revoke_channel_correct (cm : CommunityId) (c : ConnId) (ch : Uuid) (r : SubscriptionRegistry) :
  reachable r →
  let '(updates, r') := remove_channel_subscriptions_scoped cm c ch r in
  (∀ cm' ev s, s ∈ fan_out_scoped cm' ev r' ↔
     s ∈ fan_out_scoped cm' ev r ∧ ¬ (s.1 = c ∧ cm' = cm ∧ se_channel_id ev = Some ch))
  ∧ (∀ s, s ∈ map cu_sub_id updates ↔
      ∃ e, entry_of r (c, s) = Some e ∧ e.1.2 = cm ∧ ch ∈ channel_ids e.2)
  ∧ (∀ u, u ∈ updates → cu_removed u = true ↔ entry_of r' (c, cu_sub_id u) = None).
Proof.
  intros Hr%registry_ok_reachable. pose proof (remove_channel_spec cm c ch r) as Hs.
  destruct (remove_channel_subscriptions_scoped cm c ch r) as [updates r'].
  destruct Hs as (_ & H1 & H2 & H3 & H4). specialize (H4 Hr). split_and!; [|done|done].
  intros cm' ev [c' s]. rewrite !fan_out_scan by done. unfold should_receive. rewrite H3. simpl.
  destruct (decide (c' = c)) as [->|]; [|naive_solver].
  destruct (entry_of r (c, s)) as [[[f cm0] sc]|]; simpl; [|naive_solver].
  rewrite revoke_in_receives. naive_solver.
Qed.

(** The connections a channel eviction targets are complete: in every
reachable registry [channel_subscriber_conns_scoped] lists, once each, the
connections that hold a subscription covering the channel in that community,
except those whose filters all ask for no kind at all and can match nothing. *)
Theorem channel_subscribers_complete (cm : CommunityId) (ch : Uuid) (r : SubscriptionRegistry) :
  reachable r →
  NoDup (channel_subscriber_conns_scoped cm ch r)
  ∧ ∀ c, c ∈ channel_subscriber_conns_scoped cm ch r ↔
      ∃ s filters chs, entry_of r (c, s) = Some (filters, cm, Channels chs) ∧ ch ∈ chs
        ∧ extract_kinds_from_filters filters ≠ Some [].
Proof.
  intros [[_ H1] [_ H2] _ _ _]%registry_ok_reachable. unfold channel_subscriber_conns_scoped.
  split; [apply NoDup_dedup_seen|]. intros c.
  rewrite elem_of_dedup_seen, elem_of_app, elem_of_concat_map, list_elem_of_fmap. split.
  - intros [[([[cm' [ch' k]] l] & [[Hcm Hch] Hin%elem_of_hm_iter]%list_elem_of_filter & Hc)|Hc] _].
    + simpl in *. subst cm' ch'. apply list_elem_of_fmap in Hc as ([c' s] & -> & Hs).
      assert (Hd : (c', s) ∈ default [] (Some l)) by done. rewrite <-Hin in Hd.
      apply H1 in Hd as ([[f cm'] [|chs]] & He & Hk); simpl in Hk; [by apply not_elem_of_nil in Hk|].
      destruct (extract_kinds_from_filters f) as [ks|] eqn:Ek; [|by apply not_elem_of_nil in Hk].
      apply elem_of_concat_map in Hk as (x & Hx & (k' & [= <- <- <-] & Hk')%list_elem_of_fmap).
      exists s, f, chs. split_and!; [done..|]. intros Hn. rewrite Ek in Hn. simplify_eq.
      by apply not_elem_of_nil in Hk'.
    + destruct Hc as ([c' s] & -> & Hs). apply H2 in Hs as ([[f cm'] [|chs]] & He & Hk); simpl in Hk;
        [by apply not_elem_of_nil in Hk|].
      destruct (extract_kinds_from_filters f) as [ks|] eqn:Ek; [by apply not_elem_of_nil in Hk|].
      apply list_elem_of_fmap in Hk as (x & [= <- <-] & Hx). exists s, f, chs. split_and!; [done..|].
      by rewrite Ek.
  - intros (s & f & chs & He & Hch & Hk). split; [|apply not_elem_of_nil].
    destruct (extract_kinds_from_filters f) as [[|k ks]|] eqn:Ek; [done| |].
    + left. pose (key := (cm, (ch, k)) : CommunityId * IndexKey).
      assert (Hd : (c, s) ∈ default [] (channel_kind_index r !! key)).
      { apply H1. exists (f, cm, Channels chs). simpl. rewrite Ek. split; [done|].
        apply elem_of_concat_map. exists ch. split; [done|]. set_solver. }
      destruct (channel_kind_index r !! key) as [l|] eqn:El; [|by apply not_elem_of_nil in Hd].
      exists (key, l). rewrite list_elem_of_filter, elem_of_hm_iter. split; [done|].
      apply list_elem_of_fmap. by exists (c, s).
    + right. exists (c, s). split; [done|]. apply H2. exists (f, cm, Channels chs). simpl. rewrite Ek.
      split; [done|]. apply list_elem_of_fmap. eauto.
Qed.
End properties.

(** ** Witnesses *)

(** A text form for UUIDs. *)
Definition decimal_uuid : UuidText := {| uuid_to_string := pretty |}.

Definition w_filter (kinds : option (list N)) (ps : list string) : Filter :=
  {| f_ids := None; f_authors := None; f_kinds := kinds; f_since := None; f_until := None;
     f_generic_tags := match ps with [] => ∅ | _ => {["p" := ps]} end |}.

(** Two connections in community 1: one follows kind 9 of channels 7 and 8 and
the global notifications for "alice", the other everything of channel 7. *)
Definition w_ops : list (SubscriptionRegistry → SubscriptionRegistry) :=
  [λ r, (register_channels_scoped 1 100 "chat" [w_filter (Some [9%N]) []] [7%N; 8%N] r).2;
   λ r, (register_scoped 1 100 "inbox" [w_filter (Some [44100%N]) ["alice"]] None r).2;
   λ r, (register_scoped 1 200 "all" [w_filter None []] (Some 7%N) r).2].

Definition w_registry : SubscriptionRegistry := foldl (λ r o, o r) new w_ops.

Lemma w_registry_reachable : reachable w_registry.
Proof.
  eapply reachable_step; [|apply step_register].
  eapply reachable_step; [|apply step_register].
  eapply reachable_step; [apply reachable_new|apply step_register_channels].
Qed.

Definition w_stored (k : N) (ts : list Tag) (ch : option Uuid) : StoredEvent :=
  mkStoredEvent (mkEvent "e" "author" k 10 ts "hello") 0 ch true.

Lemma indexes_consistent_witness : registry_ok w_registry.
Proof. apply (indexes_consistent w_registry w_registry_reachable). Defined.

Lemma fan_out_equals_scan_witness :
  should_receive (NT := nip01_tags) (UT := decimal_uuid) w_registry 1 (w_stored 9 [] (Some 7%N))
    (200%N, "all")
  ∧ should_receive (NT := nip01_tags) (UT := decimal_uuid) w_registry 1
      (w_stored 44100 [["p"; "alice"]] None) (100%N, "inbox").
Proof.
  split.
  - apply (fan_out_equals_scan (NT := nip01_tags) (UT := decimal_uuid) w_registry 1
      (w_stored 9 [] (Some 7%N)) w_registry_reachable).
    apply (bool_decide_unpack _). vm_compute. exact I.
  - apply (fan_out_equals_scan (NT := nip01_tags) (UT := decimal_uuid) w_registry 1
      (w_stored 44100 [["p"; "alice"]] None) w_registry_reachable).
    apply (bool_decide_unpack _). vm_compute. exact I.
Defined.

Lemma disconnect_silences_witness :
  let r' := (remove_connection (HO := map_to_list_order) 200 w_registry).2 in
  fan_out_scoped (NT := nip01_tags) (UT := decimal_uuid) 1 (w_stored 9 [] (Some 7%N)) r'
    = [(100%N, "chat")]
  ∧ ∀ s, entry_of r' (200%N, s) = None.
Proof.
  split; [vm_compute; reflexivity|].
  pose proof (disconnect_silences (HO := map_to_list_order) (NT := nip01_tags) (UT := decimal_uuid)
    200 w_registry w_registry_reachable) as H.
  destruct (remove_connection 200 w_registry) as [removed r']. apply H.
Defined.

Lemma revoke_channel_correct_witness :
  let r' := (remove_channel_subscriptions_scoped (HO := map_to_list_order) 1 100 7 w_registry).2 in
  (100%N, "chat") ∉ fan_out_scoped (NT := nip01_tags) (UT := decimal_uuid) 1 (w_stored 9 [] (Some 7%N)) r'
  ∧ (100%N, "chat") ∈ fan_out_scoped (NT := nip01_tags) (UT := decimal_uuid) 1
      (w_stored 9 [] (Some 8%N)) r'.
Proof.
  pose proof (revoke_channel_correct (HO := map_to_list_order) (NT := nip01_tags) (UT := decimal_uuid)
    1 100 7 w_registry w_registry_reachable) as H.
  destruct (remove_channel_subscriptions_scoped 1 100 7 w_registry) as [updates r'].
  destruct H as [H _]. split; rewrite H.
  - intros [_ Hn]. by apply Hn.
  - split; [|by intros (_ & _ & [=])]. apply (bool_decide_unpack _). vm_compute. exact I.
Defined.

Lemma channel_subscribers_complete_witness :
  100%N ∈ channel_subscriber_conns_scoped (HO := map_to_list_order) 1 8 w_registry.
Proof.
  apply (channel_subscribers_complete (HO := map_to_list_order) 1 8 w_registry w_registry_reachable).
  exists "chat", [w_filter (Some [9%N]) []], [7%N; 8%N].
  split; [vm_compute; reflexivity|]. split; [set_solver|]. vm_compute. done.
Defined.
