(* ===== verification/Pairing.v ===== *)
(** * Pairing: the device-pairing session state machine (NIP-AB)

Models [crates/buzz-core/src/pairing/session.rs] with the data of [types.rs]
and [mod.rs] and the derivations of [crypto.rs].

Modelling choices:
- a handler ([&mut self], [Result]) is a computation of the error-and-state
  monad [M]: it returns a result and the new session, and mutations made
  before an error is returned stay;
- what the handlers take from third-party crates (HKDF, ECDH, NIP-44, JSON,
  hex, event signing and verification) is the interface [PairingCrypto],
  without any law; the properties that need one state it as a hypothesis;
- clock readings and random bits enter as the arguments of [Env];
- a public key is the lowercase hex text the [nostr] crate prints, 32-byte
  arrays are lists of bytes ([N]), and zeroizing memory has no counterpart. *)
From stdpp Require Import pretty.
From S2P Require Import Prelude Text Encode Nostr Kind.

(** ** Data ([types.rs], [mod.rs]) *)

Abbreviation PublicKey := string.

Inductive PayloadType : Type := Nsec | Bunker | Connect | Custom.

Inductive AbortReason : Type := SasMismatch_reason | UserDenied | Timeout | ProtocolError | Unknown.

Inductive PairingMessage : Type :=
| Offer (session_id : string) (version : N)
| SasConfirm (transcript_hash : string)
| Payload (payload_type : PayloadType) (payload : string)
| Complete (success : bool)
| Abort_msg (reason : AbortReason).

Inductive PairingError : Type :=
| InvalidQr (msg : string)
| InvalidSessionId
| SasMismatch
| TranscriptMismatch
| UnexpectedMessage (expected got : string)
| SessionExpired
| Nip44 (msg : string)
| Json (msg : string)
| InvalidPubkey (msg : string)
| SigningError (msg : string).

Inductive Role : Type := Source | Target.

#[export] Instance Role_eq_dec : EqDecision Role.
Proof. solve_decision. Defined.

Inductive SessionState : Type :=
| Waiting | Confirming | AwaitingConfirmation | Transferring | PayloadExchanged | Completed | Aborted.

#[export] Instance SessionState_eq_dec : EqDecision SessionState.
Proof. solve_decision. Defined.

(** The [Debug] names that error texts carry. *)
Definition role_name (r : Role) : string :=
  match r with Source => "Source" | Target => "Target" end.

Definition state_name (s : SessionState) : string :=
  match s with
  | Waiting => "Waiting"
  | Confirming => "Confirming"
  | AwaitingConfirmation => "AwaitingConfirmation"
  | Transferring => "Transferring"
  | PayloadExchanged => "PayloadExchanged"
  | Completed => "Completed"
  | Aborted => "Aborted"
  end.

(** ** The crates the session calls *)

Class PairingCrypto : Type := {
  SecretKey : Type;
  public_key : SecretKey → PublicKey;                               (* [Keys::public_key] *)
  pk_bytes : PublicKey → Bytes;                                     (* [PublicKey::to_bytes] *)
  generate_shared_key : SecretKey → PublicKey → result Bytes string;
  hkdf_extract : Bytes → Bytes → Bytes;
  hkdf_expand : Bytes → Bytes → nat → Bytes;
  nip44_encrypt : N → SecretKey → PublicKey → string → result string string;  (* nonce first *)
  nip44_decrypt : SecretKey → PublicKey → string → result string string;
  msg_to_json : PairingMessage → result string string;
  msg_from_json : string → result PairingMessage string;
  hex_encode : Bytes → string;
  hex_decode : string → option Bytes;
  sign_event : SecretKey → N → string → list Tag → N → result Event string;
  verify_event : Event → result unit string
}.

(** What one call reads from the clock and the random generator. *)
Record Env : Type := mkEnv {
  env_now : N;          (* [Instant::now()], in nanoseconds *)
  env_unix_secs : N;    (* [Timestamp::now()] *)
  env_random : N;       (* [rand::random::<u64>()] *)
  env_nonce : N         (* the nonce NIP-44 draws *)
}.

Section pairing.
Context {PC : PairingCrypto}.

(** ** Derivations ([crypto.rs]) *)

Definition INFO_SESSION_ID : Bytes := bytes_of_string "nostr-pair-session-id".
Definition INFO_SAS : Bytes := bytes_of_string "nostr-pair-sas-v1".
Definition INFO_TRANSCRIPT : Bytes := bytes_of_string "nostr-pair-transcript-v1".

Definition hkdf32 (salt ikm info : Bytes) : Bytes :=
  take 32 (hkdf_expand (hkdf_extract salt ikm) info 32).

Definition derive_session_id (session_secret : Bytes) : Bytes :=
  hkdf32 [] session_secret INFO_SESSION_ID.

(** [u32::from_be_bytes] of the first four bytes. *)
Definition be_u32 (b : Bytes) : N :=
  let byte i := default 0%N (b !! i) in
  (((byte 0%nat * 256 + byte 1%nat) * 256 + byte 2%nat) * 256 + byte 3%nat)%N.

Definition derive_sas (ecdh_shared session_secret : Bytes) : N * Bytes :=
  let sas_input := hkdf32 session_secret ecdh_shared INFO_SAS in
  ((be_u32 sas_input `mod` 1000000)%N, sas_input).

Definition derive_transcript_hash (session_id source_pubkey target_pubkey sas_input session_secret : Bytes)
  : Bytes :=
  let transcript := session_id ++ source_pubkey ++ target_pubkey ++ sas_input in
  hkdf32 session_secret transcript INFO_TRANSCRIPT.

(** [format!("{code:06}")]. *)
Fixpoint zeros (n : nat) : string :=
  match n with
  | 0 => ""
  | S n => String "0" (zeros n)
  end.

Definition format_sas (code : N) : string :=
  let digits := pretty code in
  zeros (6 - String.length digits) +:+ digits.

Definition ct_eq (a b : Bytes) : bool := bool_decide (a = b).

(** ** The session *)

Record QrPayload : Type := mkQrPayload {
  qr_version : N;
  qr_source_pubkey : PublicKey;
  qr_session_secret : Bytes;
  qr_relays : list string
}.

Record PairingSession : Type := mkSession {
  role : Role;
  state : SessionState;
  keys : SecretKey;
  session_secret : Bytes;
  relay_urls : list string;
  peer_pubkey : option PublicKey;
  session_id : Bytes;
  sas_code : option N;
  sas_input : option Bytes;
  processed_ids : gset string;
  created_at : N;
  timeout : N
}.

(** Field updates. *)
Definition set_state x s := mkSession (role s) x (keys s) (session_secret s) (relay_urls s)
  (peer_pubkey s) (session_id s) (sas_code s) (sas_input s) (processed_ids s) (created_at s) (timeout s).
Definition set_peer x s := mkSession (role s) (state s) (keys s) (session_secret s) (relay_urls s)
  x (session_id s) (sas_code s) (sas_input s) (processed_ids s) (created_at s) (timeout s).
Definition set_sas c i s := mkSession (role s) (state s) (keys s) (session_secret s) (relay_urls s)
  (peer_pubkey s) (session_id s) c i (processed_ids s) (created_at s) (timeout s).
Definition set_processed x s := mkSession (role s) (state s) (keys s) (session_secret s) (relay_urls s)
  (peer_pubkey s) (session_id s) (sas_code s) (sas_input s) x (created_at s) (timeout s).

Definition DEFAULT_TIMEOUT : N := 120 * 1000000000.
Definition PAIRING_KIND : N := KIND_PAIRING.

(** ** The handler monad *)

Definition M (A : Type) : Type := PairingSession → result A PairingError * PairingSession.

Definition ret {A : Type} (a : A) : M A := λ s, (Ok a, s).
Definition throw {A : Type} (e : PairingError) : M A := λ s, (Err e, s).
Definition get : M PairingSession := λ s, (Ok s, s).
Definition update (f : PairingSession → PairingSession) : M unit := λ s, (Ok tt, f s).

Definition bind {A B : Type} (m : M A) (k : A → M B) : M B :=
  λ s, let '(r, s') := m s in
       match r with
       | Ok a => k a s'
       | Err e => (Err e, s')
       end.

(** A pure fallible computation, and [Option::ok_or]. *)
Definition lift {A : Type} (r : result A PairingError) : M A := λ s, (r, s).

End pairing.

Notation "'let!' x := m 'in' k" := (bind m (λ x, k))
  (at level 10, x pattern at level 0, m at level 100, k at level 200) : buzz_scope.
Notation "'do!' m 'in' k" := (bind m (λ _, k))
  (at level 10, m at level 100, k at level 200) : buzz_scope.

Section handlers.
Context {PC : PairingCrypto}.

(** ** Checks *)

Definition is_expired (now : N) (s : PairingSession) : bool := (timeout s <? now - created_at s)%N.

Definition check_expired (now : N) : M unit :=
  let! s := get in
  if is_expired now s then throw SessionExpired else ret tt.

Definition expect_state (expected : SessionState) : M unit :=
  let! s := get in
  if decide (state s = expected) then ret tt
  else throw (UnexpectedMessage ("state " +:+ state_name expected) ("state " +:+ state_name (state s))).

Definition expect_role (expected : Role) : M unit :=
  let! s := get in
  if decide (role s = expected) then ret tt
  else throw (UnexpectedMessage ("role " +:+ role_name expected) ("role " +:+ role_name (role s))).

Definition message_name (m : PairingMessage) : string :=
  match m with
  | Offer _ _ => "offer"
  | SasConfirm _ => "sas-confirm"
  | Payload _ _ => "payload"
  | Complete _ => "complete"
  | Abort_msg _ => "abort"
  end.

Definition unexpected (expected : string) (got : PairingMessage) : PairingError :=
  UnexpectedMessage expected (message_name got).

(** The [p] tag that names this session's key. *)
Definition names_us (our_pk : PublicKey) (t : Tag) : bool :=
  bool_decide (head t = Some "p") && bool_decide (t !! 1%nat = Some our_pk).

Definition validate_event_basics (event : Event) : M unit :=
  let! s := get in
  match verify_event event with
  | Err e => throw (InvalidPubkey ("event verification failed: " +:+ e))
  | Ok _ =>
      if decide (id event ∈ processed_ids s) then
        throw (UnexpectedMessage "new event" "duplicate event id")
      else if negb (kind event =? PAIRING_KIND)%N then
        throw (UnexpectedMessage ("kind " +:+ pretty PAIRING_KIND) ("kind " +:+ pretty (kind event)))
      else if negb (existsb (names_us (public_key (keys s))) (tags event)) then
        throw (InvalidPubkey "event p-tag does not match our ephemeral pubkey")
      else ret tt
  end.

Definition validate_event_from_peer (event : Event) : M unit :=
  do! validate_event_basics event in
  let! s := get in
  match peer_pubkey s with
  | Some expected =>
      if decide (pubkey event = expected) then ret tt
      else throw (InvalidPubkey ("event from " +:+ pubkey event +:+ " but expected " +:+ expected))
  | None => ret tt
  end.

Definition record_event (event : Event) : M unit :=
  update (λ s, set_processed ({[id event]} ∪ processed_ids s) s).

(** ** Messages *)

Definition build_event (env : Env) (message : PairingMessage) : M Event :=
  let! s := get in
  match peer_pubkey s with
  | None => throw (InvalidPubkey "no peer pubkey set")
  | Some peer =>
      let! plaintext := lift (map_err Json (msg_to_json message)) in
      let! encrypted := lift (map_err Nip44 (nip44_encrypt (env_nonce env) (keys s) peer plaintext)) in
      let jitter := (env_random env `mod` 31)%N in
      let ts := (env_unix_secs env - jitter)%N in
      lift (map_err SigningError (sign_event (keys s) PAIRING_KIND encrypted [["p"; peer]] ts))
  end.

Definition decrypt_message (event : Event) : M PairingMessage :=
  let! s := get in
  let content_len := N.of_nat (String.length (content event)) in
  if negb ((132 <=? content_len)%N && (content_len <=? 87472)%N) then
    throw (UnexpectedMessage "NIP-44 content (132–87472 chars)" (pretty content_len +:+ " chars"))
  else
    let! decrypted := lift (map_err Nip44 (nip44_decrypt (keys s) (pubkey event) (content event))) in
    if (65535 <? N.of_nat (String.length decrypted))%N then
      throw (UnexpectedMessage "plaintext ≤ 65535 bytes" (pretty (String.length decrypted) +:+ " bytes"))
    else lift (map_err Json (msg_from_json decrypted)).

(** [hex::decode(..)] to a [[u8; 32]]. *)
Definition decode32 (s : string) : option Bytes :=
  b ← hex_decode s; if decide (length b = 32) then Some b else None.

(** ** Source *)

(** [new_source], with the generated key and secret. *)
Definition new_source (env : Env) (sk : SecretKey) (secret : Bytes) (relay_url : string)
  : PairingSession * QrPayload :=
  let qr := {| qr_version := 1; qr_source_pubkey := public_key sk; qr_session_secret := secret;
               qr_relays := [relay_url] |} in
  ({| role := Source; state := Waiting; keys := sk; session_secret := secret;
      relay_urls := [relay_url]; peer_pubkey := None; session_id := derive_session_id secret;
      sas_code := None; sas_input := None; processed_ids := ∅; created_at := env_now env;
      timeout := DEFAULT_TIMEOUT |}, qr).

Definition handle_offer (env : Env) (event : Event) : M string :=
  do! check_expired (env_now env) in
  do! expect_state Waiting in
  do! expect_role Source in
  do! validate_event_basics event in
  let! msg := decrypt_message event in
  match msg with
  | Offer session_id_hex version =>
      if negb (version =? 1)%N then
        throw (UnexpectedMessage "version 1" ("version " +:+ pretty version))
      else
        let! s := get in
        if match decode32 session_id_hex with Some i => ct_eq i (session_id s) | None => false end then
          let peer := pubkey event in
          do! update (set_peer (Some peer)) in
          let! ecdh := lift (map_err SigningError (generate_shared_key (keys s) peer)) in
          let '(code, sas_input) := derive_sas ecdh (session_secret s) in
          do! update (set_sas (Some code) (Some sas_input)) in
          do! update (set_state Confirming) in
          do! record_event event in
          ret (format_sas code)
        else throw InvalidSessionId
  | other => throw (unexpected "offer" other)
  end.

Definition confirm_sas (env : Env) : M Event :=
  do! check_expired (env_now env) in
  do! expect_state Confirming in
  do! expect_role Source in
  let! s := get in
  let! sas_input := lift (ok_or (sas_input s) SasMismatch) in
  let! peer := lift (ok_or (peer_pubkey s) (InvalidPubkey "no peer")) in
  let transcript_hash :=
    derive_transcript_hash (session_id s) (pk_bytes (public_key (keys s))) (pk_bytes peer) sas_input
      (session_secret s) in
  let! event := build_event env (SasConfirm (hex_encode transcript_hash)) in
  do! update (set_state Transferring) in
  ret event.

(** The body [handle_return_payload] and [handle_payload] share. *)
Definition receive_payload (env : Env) (r : Role) (event : Event) : M (PayloadType * string) :=
  do! check_expired (env_now env) in
  do! expect_state Transferring in
  do! expect_role r in
  do! validate_event_from_peer event in
  let! msg := decrypt_message event in
  match msg with
  | Payload payload_type payload =>
      do! update (set_state PayloadExchanged) in
      do! record_event event in
      ret (payload_type, payload)
  | other => throw (unexpected "payload" other)
  end.

Definition handle_return_payload (env : Env) (event : Event) : M (PayloadType * string) :=
  receive_payload env Source event.

Definition send_source_complete (env : Env) (success : bool) : M Event :=
  do! check_expired (env_now env) in
  do! expect_state PayloadExchanged in
  do! expect_role Source in
  let! event := build_event env (Complete success) in
  do! update (set_state (if success then Completed else Aborted)) in
  ret event.

Definition send_payload (env : Env) (payload_type : PayloadType) (payload : string) : M Event :=
  do! check_expired (env_now env) in
  do! expect_state Transferring in
  do! expect_role Source in
  let! event := build_event env (Payload payload_type payload) in
  do! update (set_state PayloadExchanged) in
  ret event.

Definition handle_complete (env : Env) (event : Event) : M unit :=
  do! check_expired (env_now env) in
  do! expect_state PayloadExchanged in
  do! expect_role Source in
  do! validate_event_from_peer event in
  let! msg := decrypt_message event in
  match msg with
  | Complete true =>
      do! update (set_state Completed) in
      record_event event
  | Complete false =>
      do! update (set_state Aborted) in
      throw (UnexpectedMessage "complete(success=true)" "complete(success=false)")
  | other => throw (unexpected "complete" other)
  end.

(** ** Target *)

(** [new_target], with the generated key. *)
Definition new_target (env : Env) (sk : SecretKey) (qr : QrPayload)
  : result (PairingSession * Event) PairingError :=
  let session_id := derive_session_id (qr_session_secret qr) in
  let? ecdh := map_err SigningError (generate_shared_key sk (qr_source_pubkey qr)) in
  let '(code, sas_input) := derive_sas ecdh (qr_session_secret qr) in
  let session :=
    {| role := Target; state := Waiting; keys := sk; session_secret := qr_session_secret qr;
       relay_urls := qr_relays qr; peer_pubkey := Some (qr_source_pubkey qr);
       session_id := session_id; sas_code := Some code; sas_input := Some sas_input;
       processed_ids := ∅; created_at := env_now env; timeout := DEFAULT_TIMEOUT |} in
  let '(event, session) := build_event env (Offer (hex_encode session_id) 1) session in
  let? event := event in
  Ok (set_state Confirming session, event).

Definition handle_sas_confirm (env : Env) (event : Event) : M string :=
  do! check_expired (env_now env) in
  do! expect_state Confirming in
  do! expect_role Target in
  do! validate_event_from_peer event in
  let! msg := decrypt_message event in
  match msg with
  | SasConfirm received_hash =>
      let! s := get in
      let! sas_input := lift (ok_or (sas_input s) SasMismatch) in
      let! peer := lift (ok_or (peer_pubkey s) (InvalidPubkey "no peer")) in
      let expected_hash :=
        derive_transcript_hash (session_id s) (pk_bytes peer) (pk_bytes (public_key (keys s))) sas_input
          (session_secret s) in
      if match decode32 received_hash with Some rb => ct_eq rb expected_hash | None => false end then
        do! update (set_state AwaitingConfirmation) in
        do! record_event event in
        let! code := lift (ok_or (sas_code s) SasMismatch) in
        ret (format_sas code)
      else
        do! update (set_state Aborted) in
        throw TranscriptMismatch
  | other => throw (unexpected "sas-confirm" other)
  end.

Definition confirm_target_sas (env : Env) : M unit :=
  do! check_expired (env_now env) in
  do! expect_state AwaitingConfirmation in
  do! expect_role Target in
  update (set_state Transferring).

Definition handle_payload (env : Env) (event : Event) : M (PayloadType * string) :=
  receive_payload env Target event.

Definition send_complete (env : Env) : M Event :=
  do! check_expired (env_now env) in
  do! expect_state PayloadExchanged in
  do! expect_role Target in
  let! event := build_event env (Complete true) in
  do! update (set_state Completed) in
  ret event.

(** ** Either side *)

Definition terminal (s : SessionState) : bool := bool_decide (s = Completed ∨ s = Aborted).

Definition abort (env : Env) (reason : AbortReason) : M (option Event) :=
  let! s := get in
  if terminal (state s) then
    throw (UnexpectedMessage "non-terminal state" ("state " +:+ state_name (state s)))
  else
    match peer_pubkey s with
    | None => do! update (set_state Aborted) in ret None
    | Some _ =>
        let! event := build_event env (Abort_msg reason) in
        do! update (set_state Aborted) in
        ret (Some event)
    end.

Definition handle_abort (event : Event) : M AbortReason :=
  let! s := get in
  if terminal (state s) then
    throw (UnexpectedMessage "non-terminal state" ("state " +:+ state_name (state s)))
  else
    match peer_pubkey s with
    | None => throw (InvalidPubkey "cannot accept abort before peer is known")
    | Some _ =>
        do! validate_event_from_peer event in
        let! msg := decrypt_message event in
        match msg with
        | Abort_msg reason =>
            do! update (set_state Aborted) in
            do! record_event event in
            ret reason
        | other => throw (unexpected "abort" other)
        end
    end.

(** The accessor [sas_code()]. *)
Definition displayed_sas (s : PairingSession) : option string := format_sas <$> sas_code s.
End handlers.

(** ** The session as a machine *)

(** The calls a device makes. *)
Inductive op : Type :=
| Op_offer (event : Event)
| Op_confirm_sas
| Op_return_payload (event : Event)
| Op_source_complete (success : bool)
| Op_send_payload (payload_type : PayloadType) (payload : string)
| Op_complete (event : Event)
| Op_sas_confirm (event : Event)
| Op_confirm_target_sas
| Op_payload (event : Event)
| Op_send_complete
| Op_abort (reason : AbortReason)
| Op_peer_abort (event : Event).

Inductive output : Type :=
| Out_none
| Out_sas (code : string)
| Out_event (event : Event)
| Out_abort (event : option Event)
| Out_payload (payload_type : PayloadType) (payload : string)
| Out_reason (reason : AbortReason).

(** The event a call consumes. *)
Definition op_event (o : op) : option Event :=
  match o with
  | Op_offer e | Op_return_payload e | Op_complete e | Op_sas_confirm e | Op_payload e
  | Op_peer_abort e => Some e
  | _ => None
  end.

Section machine.
Context {PC : PairingCrypto}.

Definition exec (env : Env) (o : op) : M output :=
  match o with
  | Op_offer e => let! code := handle_offer env e in ret (Out_sas code)
  | Op_confirm_sas => let! e := confirm_sas env in ret (Out_event e)
  | Op_return_payload e => let! x := handle_return_payload env e in ret (Out_payload x.1 x.2)
  | Op_source_complete b => let! e := send_source_complete env b in ret (Out_event e)
  | Op_send_payload t p => let! e := send_payload env t p in ret (Out_event e)
  | Op_complete e => do! handle_complete env e in ret Out_none
  | Op_sas_confirm e => let! code := handle_sas_confirm env e in ret (Out_sas code)
  | Op_confirm_target_sas => do! confirm_target_sas env in ret Out_none
  | Op_payload e => let! x := handle_payload env e in ret (Out_payload x.1 x.2)
  | Op_send_complete => let! e := send_complete env in ret (Out_event e)
  | Op_abort r => let! e := abort env r in ret (Out_abort e)
  | Op_peer_abort e => let! r := handle_abort e in ret (Out_reason r)
  end.

(** One call, with what it returned. *)
Record label : Type := mkLabel { l_env : Env; l_op : op; l_res : result output PairingError }.

Inductive trace : PairingSession → list label → PairingSession → Prop :=
| trace_nil s : trace s [] s
| trace_cons s1 env o r s2 ls s3 :
    exec env o s1 = (r, s2) → trace s2 ls s3 → trace s1 (mkLabel env o r :: ls) s3.

(** ** Abstract specification

What each successful call needs and does; everything else is rejected. *)

(** Not expired, in state [st], with role [r]. *)
Definition live (env : Env) (st : SessionState) (r : Role) (s : PairingSession) : Prop :=
  is_expired (env_now env) s = false ∧ state s = st ∧ role s = r.

(** Signed, new, of the pairing kind and addressed to this session's key. *)
Definition addressed (e : Event) (s : PairingSession) : Prop :=
  is_ok (verify_event e) = true ∧ id e ∉ processed_ids s ∧ kind e = PAIRING_KIND
  ∧ ∃ t, t ∈ tags e ∧ names_us (public_key (keys s)) t = true.

(** .. and written by the locked peer. *)
Definition from_peer (e : Event) (s : PairingSession) : Prop :=
  addressed e s ∧ ∀ p, peer_pubkey s = Some p → pubkey e = p.

Definition carries (e : Event) (m : PairingMessage) (s : PairingSession) : Prop :=
  decrypt_message e s = (Ok m, s).

Definition builds (env : Env) (m : PairingMessage) (e : Event) (s : PairingSession) : Prop :=
  build_event env m s = (Ok e, s).

Definition recorded (e : Event) (s : PairingSession) : PairingSession :=
  set_processed ({[id e]} ∪ processed_ids s) s.

(** The transcript hash of a session, [source] and [target] being the keys of
the two sides. *)
Definition transcript (s : PairingSession) (source target : PublicKey) (sas_input : Bytes) : Bytes :=
  derive_transcript_hash (session_id s) (pk_bytes source) (pk_bytes target) sas_input (session_secret s).

Inductive effect (env : Env) (s : PairingSession)
  : op → result output PairingError → PairingSession → Prop :=
| eff_rejected o e : effect env s o (Err e) s
| eff_offer_locked e err :
    live env Waiting Source s → addressed e s →
    effect env s (Op_offer e) (Err (SigningError err)) (set_peer (Some (pubkey e)) s)
| eff_offer e sid ecdh code input :
    live env Waiting Source s → addressed e s → carries e (Offer sid 1) s →
    decode32 sid = Some (session_id s) →
    generate_shared_key (keys s) (pubkey e) = Ok ecdh →
    derive_sas ecdh (session_secret s) = (code, input) →
    effect env s (Op_offer e) (Ok (Out_sas (format_sas code)))
      (recorded e (set_state Confirming (set_sas (Some code) (Some input)
        (set_peer (Some (pubkey e)) s))))
| eff_confirm_sas e peer input :
    live env Confirming Source s → peer_pubkey s = Some peer → sas_input s = Some input →
    builds env (SasConfirm (hex_encode (transcript s (public_key (keys s)) peer input))) e s →
    effect env s Op_confirm_sas (Ok (Out_event e)) (set_state Transferring s)
| eff_return_payload e t p :
    live env Transferring Source s → from_peer e s → carries e (Payload t p) s →
    effect env s (Op_return_payload e) (Ok (Out_payload t p))
      (recorded e (set_state PayloadExchanged s))
| eff_source_complete b e :
    live env PayloadExchanged Source s → builds env (Complete b) e s →
    effect env s (Op_source_complete b) (Ok (Out_event e))
      (set_state (if b then Completed else Aborted) s)
| eff_send_payload t p e :
    live env Transferring Source s → builds env (Payload t p) e s →
    effect env s (Op_send_payload t p) (Ok (Out_event e)) (set_state PayloadExchanged s)
| eff_complete e :
    live env PayloadExchanged Source s → from_peer e s → carries e (Complete true) s →
    effect env s (Op_complete e) (Ok Out_none) (recorded e (set_state Completed s))
| eff_complete_failed e err :
    live env PayloadExchanged Source s → from_peer e s → carries e (Complete false) s →
    effect env s (Op_complete e) (Err err) (set_state Aborted s)
| eff_sas_confirm e h peer input code :
    live env Confirming Target s → from_peer e s → carries e (SasConfirm h) s →
    peer_pubkey s = Some peer → sas_input s = Some input → sas_code s = Some code →
    decode32 h = Some (transcript s peer (public_key (keys s)) input) →
    effect env s (Op_sas_confirm e) (Ok (Out_sas (format_sas code)))
      (recorded e (set_state AwaitingConfirmation s))
| eff_sas_no_code e err :
    live env Confirming Target s → sas_code s = None →
    effect env s (Op_sas_confirm e) (Err err) (recorded e (set_state AwaitingConfirmation s))
| eff_sas_mismatch e h peer input :
    live env Confirming Target s → from_peer e s → carries e (SasConfirm h) s →
    peer_pubkey s = Some peer → sas_input s = Some input →
    decode32 h ≠ Some (transcript s peer (public_key (keys s)) input) →
    effect env s (Op_sas_confirm e) (Err TranscriptMismatch) (set_state Aborted s)
| eff_confirm_target_sas :
    live env AwaitingConfirmation Target s →
    effect env s Op_confirm_target_sas (Ok Out_none) (set_state Transferring s)
| eff_payload e t p :
    live env Transferring Target s → from_peer e s → carries e (Payload t p) s →
    effect env s (Op_payload e) (Ok (Out_payload t p)) (recorded e (set_state PayloadExchanged s))
| eff_send_complete e :
    live env PayloadExchanged Target s → builds env (Complete true) e s →
    effect env s Op_send_complete (Ok (Out_event e)) (set_state Completed s)
| eff_abort r e :
    terminal (state s) = false → (∀ x, e = Some x → builds env (Abort_msg r) x s) →
    (e = None → peer_pubkey s = None) →
    effect env s (Op_abort r) (Ok (Out_abort e)) (set_state Aborted s)
| eff_peer_abort e r :
    terminal (state s) = false → is_Some (peer_pubkey s) → from_peer e s →
    carries e (Abort_msg r) s →
    effect env s (Op_peer_abort e) (Ok (Out_reason r)) (recorded e (set_state Aborted s)).

(** ** Lemmas: the checks *)

Lemma bind_ret {A B : Type} (a : A) (k : A → M B) s : bind (ret a) k s = k a s.
Proof. done. Qed.

(** The failing branch of a check: the condition does not hold and the session
is untouched. *)
Ltac reject := right; split; [intros Hreject; naive_solver|by eexists].

Lemma guard_cases {A : Type} env st r (k : M A) s :
  let m := do! check_expired (env_now env) in do! expect_state st in do! expect_role r in k in
  (live env st r s ∧ m s = k s) ∨ (¬ live env st r s ∧ ∃ e, m s = (Err e, s)).
Proof.
  unfold live, check_expired, expect_state, expect_role, bind, get. simpl.
  destruct (is_expired _ s); simpl; [reject|].
  case_decide; simpl; [|reject]. case_decide; simpl; [|reject]. by left.
Qed.

Lemma basics_cases {A : Type} e (k : M A) s :
  let m := do! validate_event_basics e in k in
  (addressed e s ∧ m s = k s) ∨ (¬ addressed e s ∧ ∃ err, m s = (Err err, s)).
Proof.
  unfold addressed, validate_event_basics, bind, get. simpl.
  destruct (verify_event e); simpl; [|reject].
  case_decide; simpl; [reject|].
  destruct (kind e =? PAIRING_KIND)%N eqn:Ek; simpl;
    [apply N.eqb_eq in Ek|apply N.eqb_neq in Ek; reject].
  destruct (existsb _ _) eqn:Et; simpl.
  - left. by apply existsb_elem_of in Et.
  - rewrite <-not_true_iff_false, existsb_elem_of in Et. reject.
Qed.

Lemma from_peer_cases {A : Type} e (k : M A) s :
  let m := do! validate_event_from_peer e in k in
  (from_peer e s ∧ m s = k s) ∨ (¬ from_peer e s ∧ ∃ err, m s = (Err err, s)).
Proof.
  unfold from_peer, validate_event_from_peer. cbv zeta.
  set (k1 := let! s := get in _). destruct (basics_cases e k1 s) as [[Ha Hm]|[Ha [err Hm]]].
  - unfold bind in Hm |- *. rewrite Hm. unfold k1, bind, get. simpl.
    destruct (peer_pubkey s); simpl; [|left; naive_solver].
    case_decide as Hp; simpl; [left; naive_solver|].
    right. split; [intros [_ Hpeer]; by apply Hp, Hpeer|by eexists].
  - right. split; [tauto|]. exists err. unfold bind in Hm |- *. by rewrite Hm.
Qed.

Lemma decrypt_cases {A : Type} e (k : PairingMessage → M A) s :
  let m := let! msg := decrypt_message e in k msg in
  (∃ msg, carries e msg s ∧ m s = k msg s) ∨ (∃ err, m s = (Err err, s)).
Proof.
  unfold carries. cbv zeta. assert (Hro : (decrypt_message e s).2 = s).
  { unfold decrypt_message, bind, get, lift, throw. repeat (case_match; simplify_eq/=); done. }
  unfold bind. destruct (decrypt_message e s) as [[msg|err] s']; simpl in Hro; subst s'; eauto.
Qed.

Lemma build_cases {A : Type} env msg (k : Event → M A) s :
  let m := let! e := build_event env msg in k e in
  (∃ e, builds env msg e s ∧ m s = k e s) ∨ (∃ err, m s = (Err err, s)).
Proof.
  unfold builds. cbv zeta. assert (Hro : (build_event env msg s).2 = s).
  { unfold build_event, bind, get, lift, throw. repeat (case_match; simplify_eq/=); done. }
  unfold bind. destruct (build_event env msg s) as [[e|err] s']; simpl in Hro; subst s'; eauto.
Qed.
End machine.
