(* ===== verification/PairingProps.v ===== *)
(** * PairingProps: what the pairing session promises

The handlers of [Pairing] refine its abstract specification [effect]; from
there: the protocol's states only move along its edges, errors leave the
session alone, replayed and foreign events are refused, no payload moves
before the short codes were confirmed, and an honest exchange completes. *)
From S2P Require Import Prelude Text Encode Nostr Kind Pairing.

(** Splits a handler at its next check: in the main goal the check passed and
its condition is a hypothesis; the failing branch is a rejection. *)
Ltac rejected H := rewrite H; apply eff_rejected.

Ltac pass_guard env :=
  match goal with |- context [bind (check_expired _)
      (λ _, bind (expect_state ?st) (λ _, bind (expect_role ?r) (λ _, ?k))) ?s] =>
    let Hl := fresh "Hlive" in let H := fresh "H" in
    destruct (guard_cases env st r k s) as [[Hl H]|[_ [? H]]]; cbv zeta in H; [rewrite H; clear H|rejected H]
  end.

Ltac pass_basics :=
  match goal with |- context [bind (validate_event_basics ?e) (λ _, ?k) ?s] =>
    let Ha := fresh "Haddr" in let H := fresh "H" in
    destruct (basics_cases e k s) as [[Ha H]|[_ [? H]]]; cbv zeta in H; [rewrite H; clear H|rejected H]
  end.

Ltac pass_peer :=
  match goal with |- context [bind (validate_event_from_peer ?e) (λ _, ?k) ?s] =>
    let Ha := fresh "Hpeer" in let H := fresh "H" in
    destruct (from_peer_cases e k s) as [[Ha H]|[_ [? H]]]; cbv zeta in H; [rewrite H; clear H|rejected H]
  end.

Ltac pass_decrypt msg :=
  match goal with |- context [bind (decrypt_message ?e) ?k ?s] =>
    let Hc := fresh "Hcarries" in let H := fresh "H" in
    destruct (decrypt_cases e k s) as [(msg & Hc & H)|[? H]]; cbv zeta in H; [rewrite H; clear H|rejected H]
  end.

Ltac pass_build ev :=
  match goal with |- context [bind (build_event ?env ?msg) ?k ?s] =>
    let Hb := fresh "Hbuilds" in let H := fresh "H" in
    destruct (build_cases env msg k s) as [(ev & Hb & H)|[? H]]; cbv zeta in H; [rewrite H; clear H|rejected H]
  end.

Section refinement.
Context {PC : PairingCrypto}.

(** ** Lemmas: refinement *)

(** The body of a call that only renames its result. *)
Lemma exec_map {A : Type} (m : M A) (f : A → output) s :
  (let! x := m in ret (f x)) s = (match (m s).1 with Ok a => Ok (f a) | Err e => Err e end, (m s).2).
Proof. unfold bind, ret. by destruct (m s) as [[]]. Qed.

Lemma bind_get {A : Type} (k : PairingSession → M A) s : bind get k s = k s s.
Proof. done. Qed.

Lemma bind_lift {A B : Type} (r : result A PairingError) (k : A → M B) s :
  bind (lift r) k s = match r with Ok a => k a s | Err e => (Err e, s) end.
Proof. by destruct r. Qed.

Definition refines (env : Env) (o : op) (s : PairingSession) : Prop :=
  effect env s o (exec env o s).1 (exec env o s).2.

Lemma offer_refines env e s : refines env (Op_offer e) s.
Proof.
  unfold refines. cbn [exec]. rewrite exec_map. unfold handle_offer. cbn [fst snd].
  pass_guard env. pass_basics. pass_decrypt msg.
  destruct msg as [sid v| | | |]; try apply eff_rejected.
  destruct (v =? 1)%N eqn:Ev; [apply N.eqb_eq in Ev as ->|apply eff_rejected]. simpl.
  unfold bind, get, lift, update, record_event.
  destruct (decode32 sid) as [i|] eqn:Ed; [|apply eff_rejected].
  destruct (ct_eq i (session_id s)) eqn:Ei; [|apply eff_rejected].
  apply bool_decide_eq_true in Ei as ->.
  destruct (generate_shared_key (keys s) (pubkey e)) as [ecdh|err] eqn:Eg; cbn [map_err fst snd].
  2: { by apply eff_offer_locked. }
  destruct (derive_sas ecdh (session_secret s)) as [code input] eqn:Es. cbn.
  by eapply eff_offer.
Qed.

Lemma receive_payload_refines env r e s :
  effect env s (match r with Source => Op_return_payload e | Target => Op_payload e end)
    (match (receive_payload env r e s).1 with Ok x => Ok (Out_payload x.1 x.2) | Err err => Err err end)
    (receive_payload env r e s).2.
Proof.
  unfold receive_payload. pass_guard env. pass_peer. pass_decrypt msg.
  destruct msg as [| |t p| |]; try apply eff_rejected.
  destruct r; [by apply eff_return_payload|by apply eff_payload].
Qed.

Lemma sas_confirm_refines env e s : refines env (Op_sas_confirm e) s.
Proof.
  unfold refines. cbn [exec]. rewrite exec_map. unfold handle_sas_confirm. cbn [fst snd].
  pass_guard env. pass_peer. pass_decrypt msg.
  destruct msg as [|h| | |]; try apply eff_rejected.
  unfold bind, get, lift, ok_or, update, throw, record_event.
  destruct (sas_input s) as [input|] eqn:Ei; [|apply eff_rejected].
  destruct (peer_pubkey s) as [peer|] eqn:Ep; [|apply eff_rejected]. cbn [fst snd].
  assert (Hdec : match decode32 h with
    | Some rb => ct_eq rb (transcript s peer (public_key (keys s)) input) | None => false end = true ↔
    decode32 h = Some (transcript s peer (public_key (keys s)) input)).
  { destruct (decode32 h) as [rb|]; [|done]. unfold ct_eq. rewrite bool_decide_eq_true. naive_solver. }
  unfold transcript in Hdec.
  destruct (match decode32 h with Some _ => _ | None => _ end) eqn:Em.
  - destruct Hdec as [Hdec _]. specialize (Hdec eq_refl).
    cbn [sas_code set_processed set_state]. destruct (sas_code s) as [code|] eqn:Ec; cbn [fst snd].
    + by eapply eff_sas_confirm.
    + by eapply eff_sas_no_code.
  - cbn [fst snd]. eapply eff_sas_mismatch; eauto. intros Hd. apply Hdec in Hd. done.
Qed.

Lemma confirm_sas_refines env s : refines env Op_confirm_sas s.
Proof.
  unfold refines. cbn [exec]. rewrite exec_map. unfold confirm_sas. cbn [fst snd].
  pass_guard env. rewrite bind_get, bind_lift.
  destruct (sas_input s) as [input|] eqn:Ei; [|apply eff_rejected]. cbn [ok_or]. rewrite bind_lift.
  destruct (peer_pubkey s) as [peer|] eqn:Ep; [|apply eff_rejected]. cbn [ok_or].
  pass_build ev. by eapply eff_confirm_sas.
Qed.

Lemma complete_refines env e s : refines env (Op_complete e) s.
Proof.
  unfold refines. cbn [exec]. rewrite (exec_map _ (λ _, Out_none)).
  unfold handle_complete. cbn [fst snd].
  pass_guard env. pass_peer. pass_decrypt msg.
  destruct msg as [| | |[|]|]; try apply eff_rejected;
    [by apply eff_complete|by apply eff_complete_failed].
Qed.

Lemma abort_refines env r s : refines env (Op_abort r) s.
Proof.
  unfold refines. cbn [exec]. rewrite exec_map. unfold abort.
  rewrite bind_get. destruct (terminal (state s)) eqn:Et; [apply eff_rejected|].
  destruct (peer_pubkey s) as [peer|] eqn:Ep.
  - pass_build ev. apply eff_abort; [done|by intros ? [= <-]|done].
  - apply eff_abort; done.
Qed.

Lemma peer_abort_refines env e s : refines env (Op_peer_abort e) s.
Proof.
  unfold refines. cbn [exec]. rewrite exec_map. unfold handle_abort.
  rewrite bind_get. destruct (terminal (state s)) eqn:Et; [apply eff_rejected|].
  destruct (peer_pubkey s) as [peer|] eqn:Ep; [|apply eff_rejected].
  pass_peer. pass_decrypt msg. destruct msg; try apply eff_rejected.
  by apply eff_peer_abort.
Qed.

Lemma exec_refines env o s : refines env o s.
Proof.
  destruct o as [e| |e|b|t p|e|e| |e| |r|e].
  - apply offer_refines.
  - apply confirm_sas_refines.
  - unfold refines. cbn [exec]. rewrite exec_map. apply (receive_payload_refines env Source).
  - unfold refines. cbn [exec]. rewrite exec_map. unfold send_source_complete. cbn [fst snd].
    pass_guard env. pass_build ev. by apply eff_source_complete.
  - unfold refines. cbn [exec]. rewrite exec_map. unfold send_payload. cbn [fst snd].
    pass_guard env. pass_build ev. by apply eff_send_payload.
  - apply complete_refines.
  - apply sas_confirm_refines.
  - unfold refines. cbn [exec]. rewrite (exec_map _ (λ _, Out_none)). unfold confirm_target_sas.
    pass_guard env. by apply eff_confirm_target_sas.
  - unfold refines. cbn [exec]. rewrite exec_map. apply (receive_payload_refines env Target).
  - unfold refines. cbn [exec]. rewrite exec_map. unfold send_complete. cbn [fst snd].
    pass_guard env. pass_build ev. by apply eff_send_complete.
  - apply abort_refines.
  - apply peer_abort_refines.
Qed.

Lemma exec_effect env o s r s' : exec env o s = (r, s') → effect env s o r s'.
Proof. intros He. pose proof (exec_refines env o s) as H. unfold refines in H. by rewrite He in H. Qed.
End refinement.

(** ** Lemmas: the session invariant *)

Section invariant.
Context {PC : PairingCrypto}.

(** How sessions begin. *)
Inductive started : PairingSession → Prop :=
| started_source env sk secret url : started (new_source env sk secret url).1
| started_target env sk qr s ev : new_target env sk qr = Ok (s, ev) → started s.

Definition reachable (s : PairingSession) : Prop := ∃ s0 ls, started s0 ∧ trace s0 ls s.

(** The peer is locked and the short code computed. *)
Definition keyed (s : PairingSession) : Prop :=
  is_Some (peer_pubkey s) ∧ is_Some (sas_input s) ∧ ∃ c, sas_code s = Some c ∧ (c < 1000000)%N.

Record session_ok (s : PairingSession) : Prop := {
  so_keyed : state s ≠ Waiting → state s ≠ Aborted → keyed s;
  so_code : ∀ c, sas_code s = Some c → (c < 1000000)%N;
  so_source : role s = Source → state s ≠ AwaitingConfirmation;
  so_target : role s = Target → state s ≠ Waiting
}.

Lemma derive_sas_bound ecdh secret code input :
  derive_sas ecdh secret = (code, input) → (code < 1000000)%N.
Proof. unfold derive_sas. intros [= <- _]. by apply N.mod_lt. Qed.

Lemma new_target_spec env sk qr s ev :
  new_target env sk qr = Ok (s, ev) →
  ∃ ecdh code input,
    generate_shared_key sk (qr_source_pubkey qr) = Ok ecdh
    ∧ derive_sas ecdh (qr_session_secret qr) = (code, input)
    ∧ s = mkSession Target Confirming sk (qr_session_secret qr) (qr_relays qr)
        (Some (qr_source_pubkey qr)) (derive_session_id (qr_session_secret qr)) (Some code)
        (Some input) ∅ (env_now env) DEFAULT_TIMEOUT
    ∧ builds env (Offer (hex_encode (derive_session_id (qr_session_secret qr))) 1) ev
        (set_state Waiting s).
Proof.
  unfold new_target, builds.
  destruct (generate_shared_key sk (qr_source_pubkey qr)) as [ecdh|]; cbn [map_err result_bind]; [|done].
  destruct (derive_sas ecdh (qr_session_secret qr)) as [code input] eqn:Ed.
  set (s0 := mkSession Target Waiting _ _ _ _ _ _ _ _ _ _).
  destruct (build_cases env (Offer (hex_encode (derive_session_id (qr_session_secret qr))) 1) ret s0)
    as [(e & Hb & _)|[err Herr]].
  - unfold builds in Hb. rewrite Hb. simpl. intros [= <- <-]. exists ecdh, code, input.
    split; [done|]. split; [exact Ed|]. split; [done|]. exact Hb.
  - unfold bind in Herr. destruct (build_event env _ s0) as [[e|err'] s1]; simpl in *; [done|done].
Qed.

Lemma session_ok_started s : started s → session_ok s.
Proof.
  destruct 1 as [env sk secret url|env sk qr s ev Hnew]; [split; simpl; congruence|].
  apply new_target_spec in Hnew as (ecdh & code & input & _ & Hd & -> & _).
  apply derive_sas_bound in Hd. split; simpl; try done; [|naive_solver].
  intros _ _. split_and!; by eauto.
Qed.

Lemma session_ok_move s st ids :
  session_ok s → keyed s ∨ st = Aborted →
  (role s = Source → st ≠ AwaitingConfirmation) → (role s = Target → st ≠ Waiting) →
  session_ok (set_processed ids (set_state st s)).
Proof.
  intros Hs Hk H1 H2. split; simpl; [|apply (so_code s Hs)|done|done].
  intros Hw Ha. destruct Hk as [Hk|]; [exact Hk|done].
Qed.

Lemma session_ok_set_state s st :
  session_ok s → keyed s ∨ st = Aborted →
  (role s = Source → st ≠ AwaitingConfirmation) → (role s = Target → st ≠ Waiting) →
  session_ok (set_state st s).
Proof. apply (session_ok_move s st (processed_ids s)). Qed.

Lemma keyed_live env st r s :
  session_ok s → live env st r s → st ≠ Waiting → st ≠ Aborted → keyed s.
Proof. intros Hs (_ & <- & _). apply (so_keyed s Hs). Qed.

Lemma session_ok_effect env s o r s' : effect env s o r s' → session_ok s → session_ok s'.
Proof.
  intros He Hs.
  destruct He as [o e|e err Hl _|e sid ecdh code input Hl _ _ _ _ Hd|e peer input Hl _ _ _|e t p Hl _ _
    |b e Hl _|t p e Hl _|e Hl _ _|e err Hl _ _|e h peer input code Hl _ _ _ _ _ _|e err Hl _
    |e h peer input Hl _ _ _ _ _|Hl|e t p Hl _ _|e Hl _|r e _ _ _|e r _ _ _ _]; [done|..];
    try (assert (Hk : keyed s) by (by eapply keyed_live));
    try (destruct Hl as (_ & Hst & Hr); simpl in Hst, Hr).
  - destruct Hs as [H1 H2 H3 H4]. split; simpl; try congruence. done.
  - apply derive_sas_bound in Hd. split; simpl; try congruence.
    intros _ _. split_and!; by eauto.
  - apply session_ok_set_state; auto; congruence.
  - apply session_ok_move; auto; congruence.
  - apply session_ok_set_state; destruct b; auto; congruence.
  - apply session_ok_set_state; auto; congruence.
  - apply session_ok_move; auto; congruence.
  - apply session_ok_set_state; auto; congruence.
  - apply session_ok_move; auto; congruence.
  - apply session_ok_move; auto; congruence.
  - apply session_ok_set_state; auto; congruence.
  - apply session_ok_set_state; auto; congruence.
  - apply session_ok_move; auto; congruence.
  - apply session_ok_set_state; auto; congruence.
  - apply session_ok_set_state; auto; congruence.
  - apply session_ok_move; auto; congruence.
Qed.

Lemma session_ok_trace s ls s' : trace s ls s' → session_ok s → session_ok s'.
Proof. induction 1; eauto using session_ok_effect, exec_effect. Qed.

Lemma session_ok_reachable s : reachable s → session_ok s.
Proof. intros (s0 & ls & Hs0 & Ht). eauto using session_ok_trace, session_ok_started. Qed.
End invariant.

(** ** Lemmas: events and histories *)

(** The errors that do not leave the session as it was. *)
Inductive disturbs {PC : PairingCrypto} (s : PairingSession) : op → PairingError → PairingSession → Prop :=
| disturbs_transcript e : disturbs s (Op_sas_confirm e) TranscriptMismatch (set_state Aborted s)
| disturbs_failed e err :
    carries e (Complete false) s → disturbs s (Op_complete e) err (set_state Aborted s)
| disturbs_locked e err :
    state s = Waiting → disturbs s (Op_offer e) (SigningError err) (set_peer (Some (pubkey e)) s).

Section histories.
Context {PC : PairingCrypto}.

Lemma accepted_event env o s out s' e :
  session_ok s → effect env s o (Ok out) s' → op_event o = Some e →
  addressed e s ∧ peer_pubkey s' = Some (pubkey e)
  ∧ ((∀ x, o ≠ Op_offer x) → peer_pubkey s = Some (pubkey e))
  ∧ processed_ids s' = {[id e]} ∪ processed_ids s.
Proof.
  intros Hs He Hev.
  assert (Hp : ∀ st r, live env st r s → st ≠ Waiting → st ≠ Aborted → from_peer e s →
    peer_pubkey s = Some (pubkey e)).
  { intros st r Hl H1 H2 [_ Hp]. destruct (keyed_live env st r s Hs Hl H1 H2) as [[p Hpk] _].
    rewrite Hpk. f_equal. symmetry. by apply Hp. }
  inversion He; subst; simpl in Hev; simplify_eq; simpl;
    try match goal with Hl : live _ ?st ?r s, Hf : from_peer e s |- _ =>
      specialize (Hp st r Hl ltac:(done) ltac:(done) Hf); destruct Hf as [Ha _]; by split_and! end.
  - split_and!; [done|done| |done]. intros Ho. by destruct (Ho e).
  - match goal with Hf : from_peer e s, Hk : is_Some (peer_pubkey s) |- _ =>
      destruct Hf as [Ha Hpeer], Hk as [p Hpk] end.
    assert (peer_pubkey s = Some (pubkey e)) as Hx by (rewrite Hpk; f_equal; symmetry; by apply Hpeer).
    by split_and!.
Qed.

Lemma processed_grow env s o r s' : effect env s o r s' → processed_ids s ⊆ processed_ids s'.
Proof. intros He. destruct He; simpl; set_solver. Qed.

Lemma processed_trace s ls s' : trace s ls s' → processed_ids s ⊆ processed_ids s'.
Proof.
  induction 1 as [|s1 env o r s2 ls s3 He Ht IH]; [done|].
  etrans; [eapply processed_grow, exec_effect, He|exact IH].
Qed.

(** The id of every event a successful call consumed is recorded. *)
Lemma consumed_recorded s ls s' l out e :
  trace s ls s' → session_ok s → l ∈ ls → l_res l = Ok out → op_event (l_op l) = Some e →
  id e ∈ processed_ids s'.
Proof.
  intros Ht. induction Ht as [|s1 env o r s2 ls s3 He Ht IH]; intros Hs Hl Hr Hev.
  { by apply not_elem_of_nil in Hl. }
  apply exec_effect in He as Heff. apply elem_of_cons in Hl as [->|Hl].
  - simpl in *. subst r. destruct (accepted_event env o s1 out s2 e Hs Heff Hev) as (_ & _ & _ & Hp).
    apply (processed_trace _ _ _ Ht). rewrite Hp. set_solver.
  - apply IH; try done. by eapply session_ok_effect.
Qed.

(** A call refuses an event whose id is recorded. *)
Lemma replay_refused env o s r s' e :
  effect env s o r s' → op_event o = Some e → id e ∈ processed_ids s → sas_code s ≠ None ∨ state s ≠ Confirming →
  ∃ err, r = Err err ∧ s' = s.
Proof.
  intros He Hev Hin Hc.
  assert (Hn : ¬ addressed e s) by (intros (_ & Hn & _); done).
  inversion He; subst; simpl in Hev; simplify_eq; eauto; exfalso;
    repeat match goal with
    | Hf : from_peer _ s |- _ => destruct Hf as [Hf _]; by apply Hn
    | Hf : addressed _ s |- _ => by apply Hn
    | Hl : live _ _ _ s |- _ => destruct Hl as (_ & ? & _)
    end.
  naive_solver.
Qed.

(** The two steps that authorise the transfer, per role: the source accepts the
offer and its user confirms the short code; the target accepts the transcript
hash and its user confirms the short code. *)
Definition first_step (r : Role) (l : label) : bool :=
  match r, l_op l with
  | Source, Op_offer _ | Target, Op_sas_confirm _ => is_ok (l_res l)
  | _, _ => false
  end.

Definition second_step (r : Role) (l : label) : bool :=
  match r, l_op l with
  | Source, Op_confirm_sas | Target, Op_confirm_target_sas => is_ok (l_res l)
  | _, _ => false
  end.

(** The calls that hand out or take in the secret. *)
Definition moves_payload (o : op) : bool :=
  match o with
  | Op_return_payload _ | Op_send_payload _ _ | Op_payload _ => true
  | _ => false
  end.

(** How far a history went: 1 after the first step, 2 after the second one. *)
Definition advance (r : Role) (n : nat) (l : label) : nat :=
  match n with
  | 0 => if first_step r l then 1 else 0
  | 1 => if second_step r l then 2 else 1
  | _ => n
  end.

(** What a state presupposes. *)
Definition needs (r : Role) (st : SessionState) : nat :=
  match r, st with
  | _, Waiting | _, Aborted | Target, Confirming => 0
  | Source, Confirming | _, AwaitingConfirmation => 1
  | _, Transferring | _, PayloadExchanged | _, Completed => 2
  end.

Lemma advance_step env o s r s' n :
  session_ok s → effect env s o r s' → needs (role s) (state s) ≤ n ≤ 2 →
  role s' = role s ∧ needs (role s) (state s') ≤ advance (role s) n (mkLabel env o r) ≤ 2.
Proof.
  intros Hs He Hn.
  assert (Hmono : n ≤ advance (role s) n (mkLabel env o r) ≤ 2).
  { destruct n as [|[|[|n]]]; simpl; repeat case_match; lia. }
  assert (Hlive : ∀ st ro, live env st ro s → state s = st ∧ role s = ro) by by intros st ro (_ & ? & ?).
  destruct He as [o e|e err Hl _|e sid ecdh code input Hl _ _ _ _ Hd|e peer input Hl _ _ _|e t p Hl _ _
    |b e Hl _|t p e Hl _|e Hl _ _|e err Hl _ _|e h peer input code Hl _ _ _ _ _ _|e err Hl Hnc
    |e h peer input Hl _ _ _ _ _|Hl|e t p Hl _ _|e Hl _|r e _ _ _|e r _ _ _ _]; simpl;
    (split; [done|]); try (apply Hlive in Hl as [Hst Hr]); rewrite ?Hst, ?Hr in *; simpl in *;
    try lia; try (destruct n as [|[|[|n]]]; simpl; lia).
  - destruct b; simpl; lia.
  - destruct (so_keyed s Hs) as (_ & _ & c & Hc & _); congruence.
  - destruct (role s); simpl; lia.
  - destruct (role s); simpl; lia.
Qed.

Lemma advance_trace s ls s' n :
  trace s ls s' → session_ok s → needs (role s) (state s) ≤ n ≤ 2 →
  role s' = role s ∧ needs (role s) (state s') ≤ foldl (advance (role s)) n ls ≤ 2.
Proof.
  intros Ht. revert n. induction Ht as [|s1 env o r s2 ls s3 He Ht IH]; intros n Hs Hn; [done|].
  apply exec_effect in He. destruct (advance_step env o s1 r s2 n Hs He Hn) as [Hr Hn2].
  rewrite <-Hr in Hn2. destruct (IH _ (session_ok_effect _ _ _ _ _ He Hs) Hn2) as [Hr3 Hn3].
  simpl. rewrite <-Hr. split; [congruence|done].
Qed.

Lemma advance_one r n ls :
  n ≤ 1 → 2 ≤ foldl (advance r) n ls →
  n = 1 ∧ (∃ l2 b l3, ls = l2 ++ b :: l3 ∧ second_step r b = true)
  ∨ n = 0 ∧ ∃ l1 a l2 b l3, ls = l1 ++ a :: l2 ++ b :: l3
      ∧ first_step r a = true ∧ second_step r b = true.
Proof.
  revert n. induction ls as [|l ls IH]; intros n Hn Hge; simpl in Hge; [lia|].
  destruct n as [|[|n]]; [right|left|lia]; (split; [done|]); simpl in Hge.
  - destruct (first_step r l) eqn:E.
    + destruct (IH 1 ltac:(lia) Hge) as [[_ (l2 & b & l3 & -> & Hb)]|[? _]]; [|done].
      by exists [], l, l2, b, l3.
    + destruct (IH 0 ltac:(lia) Hge) as [[? _]|[_ (l1 & a & l2 & b & l3 & -> & Ha & Hb)]]; [done|].
      by exists (l :: l1), a, l2, b, l3.
  - destruct (second_step r l) eqn:E; [by exists [], l, ls|].
    destruct (IH 1 ltac:(lia) Hge) as [[_ (l2 & b & l3 & -> & Hb)]|[? _]]; [|done].
    by exists (l :: l2), b, l3.
Qed.

(** Once the payload moved, the session only finishes. *)
Definition finishing (st : SessionState) : bool :=
  match st with
  | PayloadExchanged | Completed | Aborted => true
  | _ => false
  end.

Lemma finishing_effect env o s r s' :
  effect env s o r s' → finishing (state s) = true →
  finishing (state s') = true ∧ (moves_payload o = true → is_ok r = false).
Proof.
  intros He Hf. destruct He; simpl in *; try done;
    try match goal with Hl : live _ _ _ _ |- _ => destruct Hl as (_ & Hst & _); rewrite Hst in Hf; done end.
  by destruct b.
Qed.

Lemma finishing_trace s ls s' :
  trace s ls s' → finishing (state s) = true →
  ∀ l, l ∈ ls → moves_payload (l_op l) = true → is_ok (l_res l) = false.
Proof.
  induction 1 as [|s1 env o r s2 ls s3 He Ht IH]; intros Hf l Hl; [by apply not_elem_of_nil in Hl|].
  destruct (finishing_effect env o s1 r s2 (exec_effect _ _ _ _ _ He) Hf) as [Hf2 Hm].
  apply elem_of_cons in Hl as [->|Hl]; [done|by apply IH].
Qed.

Lemma needs_started s : started s → needs (role s) (state s) = 0.
Proof. by destruct 1 as [|env sk qr s ev (?&?&?&_&_&->&_)%new_target_spec]. Qed.

Lemma payload_state env o s out s' :
  effect env s o (Ok out) s' → moves_payload o = true →
  state s = Transferring ∧ state s' = PayloadExchanged.
Proof.
  intros He Ho. inversion He; subst; try done;
    match goal with Hl : live _ _ _ _ |- _ => by destruct Hl as (_ & ? & _) end.
Qed.
End histories.

(** ** Properties *)

(** The edges of the protocol, per role. *)
Definition edge (r : Role) (a b : SessionState) : bool :=
  match r, a, b with
  | Source, Waiting, Confirming | Source, Confirming, Transferring
  | Source, Transferring, PayloadExchanged | Source, PayloadExchanged, Completed => true
  | Target, Confirming, AwaitingConfirmation | Target, AwaitingConfirmation, Transferring
  | Target, Transferring, PayloadExchanged | Target, PayloadExchanged, Completed => true
  | _, _, Aborted => negb (terminal a)
  | _, _, _ => false
  end.

Section properties.
Context {PC : PairingCrypto}.

(** C33. The handlers implement the protocol: whatever the clock, the random
bits, the session and the call, running the handler has the effect the
abstract specification allows: it is rejected with the session untouched, or
its guards (expiry, state, role, signature, freshness, recipient, peer,
decrypted message) hold and it does what the specification says. *)
Theorem handlers_implement_protocol (env : Env) (o : op) (s : PairingSession) :
  effect env s o (exec env o s).1 (exec env o s).2.
Proof. apply exec_refines. Qed.

(** States only move along the protocol's edges: in every reachable session a
call leaves the state or follows an edge of its role, never changes the role,
the key or the session secret, and in the terminal states (completed, aborted)
every call is refused and changes nothing. *)
Theorem states_follow_protocol (env : Env) (o : op) (s s' : PairingSession)
    (r : result output PairingError) :
  reachable s → exec env o s = (r, s') →
  (state s' = state s ∨ edge (role s) (state s) (state s') = true)
  ∧ role s' = role s ∧ keys s' = keys s ∧ session_secret s' = session_secret s
  ∧ (terminal (state s) = true → s' = s ∧ ∃ e, r = Err e).
Proof.
  intros Hs%session_ok_reachable He%exec_effect.
  assert (Hlive : ∀ st ro, live env st ro s → state s = st ∧ role s = ro) by by intros st ro (_ & ? & ?).
  destruct He as [o e|e err Hl _|e sid ecdh code input Hl _ _ _ _ Hd|e peer input Hl _ _ _|e t p Hl _ _
    |b e Hl _|t p e Hl _|e Hl _ _|e err Hl _ _|e h peer input code Hl _ _ _ _ _ _|e err Hl _
    |e h peer input Hl _ _ _ _ _|Hl|e t p Hl _ _|e Hl _|r e Ht _ _|e r Ht _ _ _]; simpl;
    try (apply Hlive in Hl as [Hst Hr]; rewrite Hst, ?Hr; split_and!; auto; done).
  - split_and!; auto. intros _. split; [done|by eexists].
  - apply Hlive in Hl as [Hst Hr]. rewrite Hst, Hr. destruct b; split_and!; auto; done.
  - rewrite Ht. split_and!; auto; [|done]. right. destruct (role s), (state s); done.
  - rewrite Ht. split_and!; auto; [|done]. right. destruct (role s), (state s); done.
Qed.

(** Errors leave the session alone: a call that fails in a reachable session
changes nothing, except that a wrong transcript hash or the peer's report of
failure aborts it, and that an offer whose key exchange fails leaves the
offerer locked in as peer. *)
Theorem errors_leave_session (env : Env) (o : op) (s s' : PairingSession) (e : PairingError) :
  reachable s → exec env o s = (Err e, s') → s' = s ∨ disturbs s o e s'.
Proof.
  intros Hs%session_ok_reachable He%exec_effect.
  inversion He as [|ev err Hl| | | | | | |ev err Hl Hp Hc| |ev err Hl Hn|ev h peer input Hl| | | | |];
    subst; auto; right; try by constructor.
  - destruct Hl as (_ & Hst & _). by constructor.
  - destruct (keyed_live env Confirming Target s Hs Hl) as (_ & _ & c & Hc & _); [done|done|].
    congruence.
Qed.

(** Only fresh events of the peer are accepted, and each once: an event a call
accepted has a valid signature, the pairing kind, a [p] tag naming this
session and an id not processed before; it is by the locked peer (an offer
locks its author); and no later call accepts an event with the same id. *)
Theorem accepted_events_fresh (env : Env) (o : op) (s s1 s' : PairingSession) (out : output)
    (e : Event) (ls : list label) (env' : Env) (o' : op) (e' : Event) :
  reachable s → exec env o s = (Ok out, s1) → op_event o = Some e →
  trace s1 ls s' → op_event o' = Some e' → id e' = id e →
  addressed e s ∧ peer_pubkey s1 = Some (pubkey e)
  ∧ ((∀ x, o ≠ Op_offer x) → peer_pubkey s = Some (pubkey e))
  ∧ ∃ err, exec env' o' s' = (Err err, s').
Proof.
  intros Hs%session_ok_reachable He%exec_effect Hev Ht Hev' Hid.
  destruct (accepted_event env o s out s1 e Hs He Hev) as (H1 & H2 & H3 & H4).
  split_and!; [done..|]. pose proof (session_ok_effect _ _ _ _ _ He Hs) as Hs1.
  pose proof (session_ok_trace _ _ _ Ht Hs1) as Hs'.
  destruct (exec env' o' s') as [r s2] eqn:E. apply exec_effect in E.
  destruct (replay_refused env' o' s' r s2 e' E Hev') as (err & -> & ->); [| |by exists err].
  - rewrite Hid. apply (processed_trace _ _ _ Ht). rewrite H4. set_solver.
  - destruct (decide (state s' = Confirming)) as [Hc|]; [left|by right].
    destruct (so_keyed s' Hs') as (_ & _ & c & Hcode & _); congruence.
Qed.

(** C7. No secret moves before both confirmations, and only one ever does: when a
session hands out or takes in a payload, its history holds the acceptance of
the peer's proof (the offer for the source, the transcript hash for the
target) followed by its user's confirmation of the short code; and no later
call of the session moves a payload again. *)
Theorem payload_needs_confirmation (env : Env) (o : op) (s0 s s' : PairingSession) (out : output)
    (ls : list label) :
  started s0 → trace s0 ls s → exec env o s = (Ok out, s') → moves_payload o = true →
  (∃ l1 a l2 b l3, ls = l1 ++ a :: l2 ++ b :: l3
     ∧ first_step (role s0) a = true ∧ second_step (role s0) b = true)
  ∧ ∀ ls' s'' l, trace s' ls' s'' → l ∈ ls' → moves_payload (l_op l) = true → is_ok (l_res l) = false.
Proof.
  intros H0 Ht He%exec_effect Ho. pose proof (session_ok_started s0 H0) as Hs0.
  destruct (payload_state env o s out s' He Ho) as [Hst Hst']. split.
  - destruct (advance_trace s0 ls s 0 Ht Hs0) as [Hr Hn]; [rewrite needs_started by done; lia|].
    rewrite Hst in Hn. assert (needs (role s0) Transferring = 2) as H2 by (by destruct (role s0)).
    destruct (advance_one (role s0) 0 ls) as [[? _]|[_ Hsplit]]; [lia|lia|done|exact Hsplit].
  - intros ls' s'' l Ht' Hl Hm. eapply finishing_trace; eauto. by rewrite Hst'.
Qed.

(** Time is up: once the session outlived its timeout, every call but an abort
answers [SessionExpired] and changes nothing. *)
Theorem expired_sessions_refuse (env : Env) (o : op) (s : PairingSession) :
  is_expired (env_now env) s = true →
  (∀ r, o ≠ Op_abort r) → (∀ e, o ≠ Op_peer_abort e) → exec env o s = (Err SessionExpired, s).
Proof.
  intros Hx H1 H2. destruct o; try (by destruct (H1 reason)); try (by destruct (H2 event));
    cbn [exec];
    unfold handle_offer, confirm_sas, handle_return_payload, handle_payload, receive_payload,
      send_source_complete, send_payload, handle_complete, handle_sas_confirm, confirm_target_sas,
      send_complete, check_expired, bind, get, throw; cbv beta iota; by rewrite Hx.
Qed.
End properties.

(** ** An honest exchange *)

(** What the third-party crates document and an honest exchange relies on: key
agreement is symmetric, NIP-44 opens what it sealed (and its ciphertexts have
the sizes the specification gives), signed events carry what was signed and
verify, different contents have different ids, hex and HKDF keep lengths. *)
Class CryptoLaws {PC : PairingCrypto} : Prop := {
  shared_key_agrees a b : ∃ k, generate_shared_key a (public_key b) = Ok k
    ∧ generate_shared_key b (public_key a) = Ok k;
  nip44_opens n a b p : 1 ≤ String.length p → (65535 <? N.of_nat (String.length p))%N = false →
    ∃ c, nip44_encrypt n a (public_key b) p = Ok c ∧ nip44_decrypt b (public_key a) c = Ok p
      ∧ (132 <=? N.of_nat (String.length c))%N && (N.of_nat (String.length c) <=? 87472)%N = true;
  signed_verifies sk k c ts t : ∃ e, sign_event sk k c ts t = Ok e ∧ verify_event e = Ok tt
    ∧ pubkey e = public_key sk ∧ kind e = k ∧ content e = c ∧ tags e = ts;
  ids_differ sk1 k1 c1 ts1 t1 e1 sk2 k2 c2 ts2 t2 e2 :
    sign_event sk1 k1 c1 ts1 t1 = Ok e1 → sign_event sk2 k2 c2 ts2 t2 = Ok e2 →
    c1 ≠ c2 → id e1 ≠ id e2;
  hex_roundtrip b : length b = 32 → hex_decode (hex_encode b) = Some b;
  hkdf_length prk info : length (hkdf_expand prk info 32) = 32
}.

(** A message that survives its JSON encoding and fits the size limit. *)
Definition fits {PC : PairingCrypto} (m : PairingMessage) : Prop :=
  ∃ j, msg_to_json m = Ok j ∧ msg_from_json j = Ok m ∧ 1 ≤ String.length j
    ∧ (65535 <? N.of_nat (String.length j))%N = false.

Section honest.
Context {PC : PairingCrypto} {CL : CryptoLaws}.

Lemma guard_ok {A : Type} env st r (k : M A) s :
  live env st r s →
  (do! check_expired (env_now env) in do! expect_state st in do! expect_role r in k) s = k s.
Proof. intros Hl. by destruct (guard_cases env st r k s) as [[_ H]|[H _]]. Qed.

Lemma basics_ok {A : Type} e (k : M A) s :
  addressed e s → (do! validate_event_basics e in k) s = k s.
Proof. intros Ha. by destruct (basics_cases e k s) as [[_ H]|[H _]]. Qed.

Lemma from_peer_ok {A : Type} e (k : M A) s :
  from_peer e s → (do! validate_event_from_peer e in k) s = k s.
Proof. intros Ha. by destruct (from_peer_cases e k s) as [[_ H]|[H _]]. Qed.

Lemma decrypt_ok {A : Type} e m (k : PairingMessage → M A) s :
  carries e m s → (let! msg := decrypt_message e in k msg) s = k m s.
Proof. unfold carries, bind. by intros ->. Qed.

Lemma build_ok {A : Type} env m e (k : Event → M A) s :
  builds env m e s → (let! ev := build_event env m in k ev) s = k e s.
Proof. unfold builds, bind. by intros ->. Qed.

Lemma length_hkdf32 salt ikm info : length (hkdf32 salt ikm info) = 32.
Proof. unfold hkdf32. rewrite length_take, hkdf_length. done. Qed.

Lemma decode32_encode b : length b = 32 → decode32 (hex_encode b) = Some b.
Proof. intros Hb. unfold decode32. rewrite hex_roundtrip by done. simpl. by rewrite decide_True. Qed.

(** What one side builds, the other accepts and reads. *)
Record delivered (a b : SecretKey) (m : PairingMessage) (e : Event) : Prop := {
  de_carries s : keys s = b → carries e m s;
  de_addressed s : keys s = b → id e ∉ processed_ids s → addressed e s;
  de_author : pubkey e = public_key a;
  de_signed : ∃ t, sign_event a PAIRING_KIND (content e) [["p"; public_key b]] t = Ok e
}.

Lemma deliver env a b m s :
  fits m → keys s = a → peer_pubkey s = Some (public_key b) →
  ∃ e, builds env m e s ∧ delivered a b m e.
Proof.
  intros (j & Hj & Hback & Hne & Hsz) Hk Hp.
  destruct (nip44_opens (env_nonce env) a b j Hne Hsz) as (c & Henc & Hdec & Hlen).
  destruct (signed_verifies a PAIRING_KIND c [["p"; public_key b]]
    (env_unix_secs env - env_random env `mod` 31)) as (e & Hs & Hv & Hpk & Hkd & Hc & Ht).
  exists e. split.
  - unfold builds, build_event. rewrite bind_get, Hp, bind_lift, Hj. cbn [map_err].
    rewrite bind_lift, Hk, Henc. cbn [map_err]. unfold lift. by rewrite Hs.
  - split.
    + intros s2 Hk2. unfold carries, decrypt_message. rewrite bind_get, Hc, Hlen. cbn [negb].
      rewrite bind_lift, Hk2, Hpk, Hdec. cbn [map_err]. rewrite Hsz. unfold lift. by rewrite Hback.
    + intros s2 Hk2 Hn. unfold addressed. rewrite Hv, Hkd, Ht. split_and!; [done..|].
      exists ["p"; public_key b]. split; [set_solver|]. rewrite Hk2. unfold names_us.
      by rewrite !bool_decide_eq_true_2.
    + done.
    + rewrite Hc. eauto.
Qed.

(** A session with given keys, to read messages with. *)
Definition reader (sk : SecretKey) : PairingSession :=
  mkSession Target Waiting sk [] [] None [] None None ∅ 0 0.

Lemma delivered_ids a b m1 e1 m2 e2 :
  delivered a b m1 e1 → delivered a b m2 e2 → m1 ≠ m2 → id e1 ≠ id e2.
Proof.
  intros [C1 _ A1 [t1 S1]] [C2 _ A2 [t2 S2]] Hm. eapply ids_differ; [exact S1|exact S2|].
  intros Hc. apply Hm. specialize (C1 (reader b) eq_refl). specialize (C2 (reader b) eq_refl).
  unfold carries, decrypt_message in *. rewrite !bind_get in *. rewrite Hc, A1 in C1.
  rewrite A2 in C2. congruence.
Qed.

Lemma delivered_from_peer a b m e s :
  delivered a b m e → keys s = b → id e ∉ processed_ids s → peer_pubkey s = Some (public_key a) →
  from_peer e s.
Proof.
  intros [_ Ha Hpk _] Hk Hn Hp. split; [by apply Ha|]. intros p. rewrite Hp. intros [= <-]. done.
Qed.

(** The successful branch of each handler. *)
Lemma offer_ok env e sid ecdh code input s :
  live env Waiting Source s → addressed e s → carries e (Offer sid 1) s →
  decode32 sid = Some (session_id s) → generate_shared_key (keys s) (pubkey e) = Ok ecdh →
  derive_sas ecdh (session_secret s) = (code, input) →
  exec env (Op_offer e) s = (Ok (Out_sas (format_sas code)),
    recorded e (set_state Confirming (set_sas (Some code) (Some input) (set_peer (Some (pubkey e)) s)))).
Proof.
  intros Hl Ha Hc Hd Hg Hs. cbn [exec]. rewrite exec_map. unfold handle_offer.
  rewrite guard_ok, basics_ok, (decrypt_ok _ _ _ _ Hc) by done. cbv beta iota.
  rewrite N.eqb_refl. cbn [negb]. rewrite bind_get, Hd.
  unfold ct_eq. rewrite bool_decide_eq_true_2 by done.
  unfold bind, update, lift, record_event, ret. rewrite Hg. cbn [map_err]. rewrite Hs. done.
Qed.

Lemma sas_confirm_ok env e h peer input code s :
  live env Confirming Target s → from_peer e s → carries e (SasConfirm h) s →
  peer_pubkey s = Some peer → sas_input s = Some input → sas_code s = Some code →
  decode32 h = Some (transcript s peer (public_key (keys s)) input) →
  exec env (Op_sas_confirm e) s
    = (Ok (Out_sas (format_sas code)), recorded e (set_state AwaitingConfirmation s)).
Proof.
  intros Hl Ha Hc Hp Hi Hcode Hd. cbn [exec]. rewrite exec_map. unfold handle_sas_confirm.
  rewrite guard_ok, from_peer_ok, (decrypt_ok _ _ _ _ Hc) by done. cbv beta iota.
  rewrite bind_get, bind_lift, Hi. cbn [ok_or]. rewrite bind_lift, Hp. cbn [ok_or]. rewrite Hd.
  unfold ct_eq, transcript. rewrite bool_decide_eq_true_2 by done.
  unfold bind, update, record_event, lift. cbn [sas_code set_processed set_state]. by rewrite Hcode.
Qed.
Lemma confirm_sas_ok env e peer input s :
  live env Confirming Source s → peer_pubkey s = Some peer → sas_input s = Some input →
  builds env (SasConfirm (hex_encode (transcript s (public_key (keys s)) peer input))) e s →
  exec env Op_confirm_sas s = (Ok (Out_event e), set_state Transferring s).
Proof.
  intros Hl Hp Hi Hb. cbn [exec]. rewrite exec_map. unfold confirm_sas.
  rewrite guard_ok by done. rewrite bind_get, bind_lift, Hi. cbn [ok_or].
  rewrite bind_lift, Hp. cbn [ok_or]. by rewrite (build_ok _ _ _ _ _ Hb).
Qed.

Lemma confirm_target_sas_ok env s :
  live env AwaitingConfirmation Target s →
  exec env Op_confirm_target_sas s = (Ok Out_none, set_state Transferring s).
Proof.
  intros Hl. cbn [exec]. rewrite (exec_map _ (λ _, Out_none)). unfold confirm_target_sas.
  by rewrite guard_ok.
Qed.

Lemma send_payload_ok env t p e s :
  live env Transferring Source s → builds env (Payload t p) e s →
  exec env (Op_send_payload t p) s = (Ok (Out_event e), set_state PayloadExchanged s).
Proof.
  intros Hl Hb. cbn [exec]. rewrite exec_map. unfold send_payload.
  by rewrite guard_ok, (build_ok _ _ _ _ _ Hb).
Qed.

Lemma payload_ok env t p e s :
  live env Transferring Target s → from_peer e s → carries e (Payload t p) s →
  exec env (Op_payload e) s = (Ok (Out_payload t p), recorded e (set_state PayloadExchanged s)).
Proof.
  intros Hl Ha Hc. cbn [exec]. rewrite exec_map. unfold handle_payload, receive_payload.
  by rewrite guard_ok, from_peer_ok, (decrypt_ok _ _ _ _ Hc).
Qed.

Lemma send_complete_ok env e s :
  live env PayloadExchanged Target s → builds env (Complete true) e s →
  exec env Op_send_complete s = (Ok (Out_event e), set_state Completed s).
Proof.
  intros Hl Hb. cbn [exec]. rewrite exec_map. unfold send_complete.
  by rewrite guard_ok, (build_ok _ _ _ _ _ Hb).
Qed.

Lemma complete_ok env e s :
  live env PayloadExchanged Source s → from_peer e s → carries e (Complete true) s →
  exec env (Op_complete e) s = (Ok Out_none, recorded e (set_state Completed s)).
Proof.
  intros Hl Ha Hc. cbn [exec]. rewrite (exec_map _ (λ _, Out_none)). unfold handle_complete.
  by rewrite guard_ok, from_peer_ok, (decrypt_ok _ _ _ _ Hc).
Qed.

Lemma new_target_ok env sk qr ecdh code input ev :
  let s0 := mkSession Target Waiting sk (qr_session_secret qr) (qr_relays qr)
    (Some (qr_source_pubkey qr)) (derive_session_id (qr_session_secret qr)) (Some code)
    (Some input) ∅ (env_now env) DEFAULT_TIMEOUT in
  generate_shared_key sk (qr_source_pubkey qr) = Ok ecdh →
  derive_sas ecdh (qr_session_secret qr) = (code, input) →
  builds env (Offer (hex_encode (derive_session_id (qr_session_secret qr))) 1) ev s0 →
  new_target env sk qr = Ok (set_state Confirming s0, ev).
Proof.
  intros s0 Hk Hd Hb. unfold new_target. rewrite Hk. cbn [map_err result_bind]. rewrite Hd.
  unfold builds, s0 in Hb. by rewrite Hb.
Qed.

Lemma live_within env st r s :
  (env_now env - created_at s <= DEFAULT_TIMEOUT)%N → timeout s = DEFAULT_TIMEOUT →
  state s = st → role s = r → live env st r s.
Proof.
  intros Ht Hto Hst Hr. split_and!; [|done..]. unfold is_expired. rewrite Hto. by apply N.ltb_ge.
Qed.

(** Both sides after both confirmations: each is locked to the other and has
processed one event, which the other one built. *)
Record paired (skS skT : SecretKey) (c0 c1 : N) (s t : PairingSession) : Prop := {
  pd_s : role s = Source ∧ state s = Transferring ∧ keys s = skS ∧ peer_pubkey s = Some (public_key skT)
    ∧ created_at s = c0 ∧ timeout s = DEFAULT_TIMEOUT;
  pd_t : role t = Target ∧ state t = Transferring ∧ keys t = skT ∧ peer_pubkey t = Some (public_key skS)
    ∧ created_at t = c1 ∧ timeout t = DEFAULT_TIMEOUT;
  pd_s_seen : ∃ sid v e, processed_ids s = {[id e]} ∧ delivered skT skS (Offer sid v) e;
  pd_t_seen : ∃ h e, processed_ids t = {[id e]} ∧ delivered skS skT (SasConfirm h) e
}.

(** Every reading of the clock lies within the timeout of both sessions. *)
Definition in_time (env : nat → Env) : Prop :=
  ∀ i, (env_now (env i) - env_now (env 0%nat) <= DEFAULT_TIMEOUT)%N
     ∧ (env_now (env i) - env_now (env 1%nat) <= DEFAULT_TIMEOUT)%N.

Lemma honest_handshake env skS skT secret url :
  in_time env →
  fits (Offer (hex_encode (derive_session_id secret)) 1) →
  (∀ salt ikm info, fits (SasConfirm (hex_encode (hkdf32 salt ikm info)))) →
  ∃ t0 offer code s1 confirm s2 t1 t2,
    new_target (env 1) skT (new_source (env 0) skS secret url).2 = Ok (t0, offer)
    ∧ exec (env 2) (Op_offer offer) (new_source (env 0) skS secret url).1 = (Ok (Out_sas code), s1)
    ∧ exec (env 3) Op_confirm_sas s1 = (Ok (Out_event confirm), s2)
    ∧ exec (env 4) (Op_sas_confirm confirm) t0 = (Ok (Out_sas code), t1)
    ∧ exec (env 5) Op_confirm_target_sas t1 = (Ok Out_none, t2)
    ∧ paired skS skT (env_now (env 0)) (env_now (env 1)) s2 t2.
Proof.
  intros Henv Ho Hs. cbn [new_source fst snd].
  destruct (shared_key_agrees skT skS) as (k & HkT & HkS).
  destruct (derive_sas k secret) as [code input] eqn:Hsas.
  set (qr := mkQrPayload _ _ _ _). set (s0 := mkSession Source _ _ _ _ _ _ _ _ _ _ _).
  set (w := mkSession Target Waiting skT secret [url] (Some (public_key skS)) (derive_session_id secret)
    (Some code) (Some input) ∅ (env_now (env 1)) DEFAULT_TIMEOUT).
  destruct (deliver (env 1) skT skS _ w Ho eq_refl eq_refl) as (offer & Bo & Do).
  assert (Hnew := new_target_ok (env 1) skT qr k code input offer HkT Hsas Bo).
  set (t0 := set_state Confirming w). fold w in Hnew. fold t0 in Hnew.
  (* the source accepts the offer *)
  set (s1 := recorded offer (set_state Confirming (set_sas (Some code) (Some input)
    (set_peer (Some (public_key skT)) s0)))).
  assert (E1 : exec (env 2) (Op_offer offer) s0 = (Ok (Out_sas (format_sas code)), s1)).
  { unfold s1. rewrite <-(de_author _ _ _ _ Do). eapply offer_ok; [| | | | |exact Hsas].
    - by apply live_within; [apply Henv| | |].
    - by apply (de_addressed _ _ _ _ Do).
    - by apply (de_carries _ _ _ _ Do).
    - apply decode32_encode, length_hkdf32.
    - by rewrite (de_author _ _ _ _ Do). }
  (* and confirms *)
  set (th := transcript s1 (public_key skS) (public_key skT) input).
  destruct (deliver (env 3) skS skT (SasConfirm (hex_encode th)) s1) as (confirm & Bc & Dc);
    [apply Hs|done|done|].
  set (s2 := set_state Transferring s1).
  assert (E2 : exec (env 3) Op_confirm_sas s1 = (Ok (Out_event confirm), s2)).
  { eapply confirm_sas_ok; [by apply live_within; [apply Henv| | |]|done|done|exact Bc]. }
  (* the target checks the transcript, its user confirms *)
  set (t1 := recorded confirm (set_state AwaitingConfirmation t0)).
  assert (E3 : exec (env 4) (Op_sas_confirm confirm) t0 = (Ok (Out_sas (format_sas code)), t1)).
  { eapply sas_confirm_ok; [by apply live_within; [apply Henv| | |]| | |done|done|done|].
    - by apply (delivered_from_peer skS skT _ _ _ Dc).
    - by apply (de_carries _ _ _ _ Dc).
    - apply decode32_encode, length_hkdf32. }
  set (t2 := set_state Transferring t1).
  assert (E4 : exec (env 5) Op_confirm_target_sas t1 = (Ok Out_none, t2)).
  { apply confirm_target_sas_ok. by apply live_within; [apply Henv| | |]. }
  exists t0, offer, (format_sas code), s1, confirm, s2, t1, t2. do 5 (split; [done|]).
  split; [done|done| |]; simpl; rewrite union_empty_r_L; eauto.
Qed.

Lemma honest_transfer env skS skT s2 t2 t p :
  in_time env → paired skS skT (env_now (env 0)) (env_now (env 1)) s2 t2 →
  fits (Payload t p) → fits (Complete true) →
  ∃ pay s3 t3 comp t4 s4,
    exec (env 6) (Op_send_payload t p) s2 = (Ok (Out_event pay), s3)
    ∧ exec (env 7) (Op_payload pay) t2 = (Ok (Out_payload t p), t3)
    ∧ exec (env 8) Op_send_complete t3 = (Ok (Out_event comp), t4)
    ∧ exec (env 9) (Op_complete comp) s3 = (Ok Out_none, s4)
    ∧ state s4 = Completed ∧ state t4 = Completed.
Proof.
  intros Henv [(Hr & Hst & Hk & Hpeer & Hcr & Hto) (Hr' & Hst' & Hk' & Hpeer' & Hcr' & Hto')
    (sid & v & offer & Hseen & Do) (h & confirm & Hseen' & Dc)] Hp Hc.
  assert (Hin : ∀ i, (env_now (env i) - created_at s2 <= DEFAULT_TIMEOUT)%N
    ∧ (env_now (env i) - created_at t2 <= DEFAULT_TIMEOUT)%N) by (rewrite Hcr, Hcr'; exact Henv).
  destruct (deliver (env 6) skS skT _ s2 Hp Hk Hpeer) as (pay & Bp & Dp).
  set (s3 := set_state PayloadExchanged s2).
  assert (E5 : exec (env 6) (Op_send_payload t p) s2 = (Ok (Out_event pay), s3)).
  { apply send_payload_ok; [by apply live_within; [apply Hin| | |]|done]. }
  set (t3 := recorded pay (set_state PayloadExchanged t2)).
  assert (E6 : exec (env 7) (Op_payload pay) t2 = (Ok (Out_payload t p), t3)).
  { apply payload_ok; [by apply live_within; [apply Hin| | |]| |by apply (de_carries _ _ _ _ Dp)].
    apply (delivered_from_peer skS skT _ _ _ Dp); [done| |done].
    rewrite Hseen', elem_of_singleton. by apply (delivered_ids _ _ _ _ _ _ Dp Dc). }
  destruct (deliver (env 8) skT skS _ t3 Hc Hk' Hpeer') as (comp & Bm & Dm).
  set (t4 := set_state Completed t3).
  assert (E7 : exec (env 8) Op_send_complete t3 = (Ok (Out_event comp), t4)).
  { apply send_complete_ok; [by apply live_within; [apply Hin| | |]|done]. }
  set (s4 := recorded comp (set_state Completed s3)).
  assert (E8 : exec (env 9) (Op_complete comp) s3 = (Ok Out_none, s4)).
  { apply complete_ok; [by apply live_within; [apply Hin| | |]| |by apply (de_carries _ _ _ _ Dm)].
    apply (delivered_from_peer skT skS _ _ _ Dm); [done| |done]. change (processed_ids s3) with (processed_ids s2).
    rewrite Hseen, elem_of_singleton. by apply (delivered_ids _ _ _ _ _ _ Dm Do). }
  exists pay, s3, t3, comp, t4, s4. by split_and!.
Qed.

(** The order of an honest exchange: each line is one call and its result. *)
Definition honest_run (env : nat → Env) (skS skT : SecretKey) (secret : Bytes) (url : string)
    (t : PayloadType) (p : string) : Prop :=
  let '(s0, qr) := new_source (env 0) skS secret url in
  ∃ t0 offer code s1 confirm s2 t1 t2 pay s3 t3 comp t4 s4,
    new_target (env 1) skT qr = Ok (t0, offer)
    ∧ exec (env 2) (Op_offer offer) s0 = (Ok (Out_sas code), s1)
    ∧ exec (env 3) Op_confirm_sas s1 = (Ok (Out_event confirm), s2)
    ∧ exec (env 4) (Op_sas_confirm confirm) t0 = (Ok (Out_sas code), t1)
    ∧ exec (env 5) Op_confirm_target_sas t1 = (Ok Out_none, t2)
    ∧ exec (env 6) (Op_send_payload t p) s2 = (Ok (Out_event pay), s3)
    ∧ exec (env 7) (Op_payload pay) t2 = (Ok (Out_payload t p), t3)
    ∧ exec (env 8) Op_send_complete t3 = (Ok (Out_event comp), t4)
    ∧ exec (env 9) (Op_complete comp) s3 = (Ok Out_none, s4)
    ∧ state s4 = Completed ∧ state t4 = Completed.

(** An honest exchange succeeds: under the documented behaviour of the crypto
crates and within the timeout, both devices display the same short code, the
target receives exactly the payload the source sent, and both sessions end
completed. *)
Theorem honest_exchange_completes (env : nat → Env) (skS skT : SecretKey) (secret : Bytes)
    (url : string) (t : PayloadType) (p : string) :
  in_time env →
  fits (Offer (hex_encode (derive_session_id secret)) 1) →
  (∀ salt ikm info, fits (SasConfirm (hex_encode (hkdf32 salt ikm info)))) →
  fits (Payload t p) → fits (Complete true) →
  honest_run env skS skT secret url t p.
Proof.
  intros Henv Ho Hs Hp Hc. unfold honest_run.
  destruct (honest_handshake env skS skT secret url Henv Ho Hs)
    as (t0 & offer & code & s1 & confirm & s2 & t1 & t2 & E0 & E1 & E2 & E3 & E4 & Hpaired).
  destruct (honest_transfer env skS skT s2 t2 t p Henv Hpaired Hp Hc)
    as (pay & s3 & t3 & comp & t4 & s4 & E5 & E6 & E7 & E8 & Hs4 & Ht4).
  destruct (new_source (env 0) skS secret url) as [s0 qr].
  exists t0, offer, code, s1, confirm, s2, t1, t2, pay, s3, t3, comp, t4, s4. by split_and!.
Qed.
End honest.
