(* ===== verification/PairingToy.v ===== *)
(** * PairingToy: a concrete run of the pairing protocol

The interface [PairingCrypto] instantiated by transparent functions that
satisfy its laws (a shared key everyone computes, encryption that pads, hex as
binary digits), so that the hypotheses of the pairing properties are seen to
hold at a concrete exchange.  Nothing here is secure, and nothing is claimed
of it but the laws. *)
From S2P Require Import Prelude Text Encode Nostr Kind Pairing PairingProps.

(** Binary digits for the encoding of a byte list. *)
Fixpoint pos_text (p : positive) : string :=
  match p with
  | xH => ""
  | xO p => String "0" (pos_text p)
  | xI p => String "1" (pos_text p)
  end.

Fixpoint text_pos (s : string) : positive :=
  match s with
  | EmptyString => xH
  | String c s => if Ascii.eqb c "0" then xO (text_pos s) else xI (text_pos s)
  end.

Lemma text_pos_text p : text_pos (pos_text p) = p.
Proof. induction p; simpl; by f_equal. Qed.

Definition toy_key (sk : N) : PublicKey := pos_text (N.succ_pos sk).

Definition pad : string := zeros 132.

Definition unpad (c : string) : result string string :=
  if Nat.leb 132 (String.length c) then Ok (String.substring 132 (String.length c - 132) c)
  else Err "short".

(** Messages as a letter and their text. *)
Definition toy_to_json (m : PairingMessage) : result string string :=
  match m with
  | Offer sid 1 => Ok (String "o" sid)
  | SasConfirm h => Ok (String "s" h)
  | Payload Nsec p => Ok (String "p" p)
  | Complete true => Ok "c"
  | Abort_msg UserDenied => Ok "a"
  | _ => Err "unsupported"
  end.

Definition toy_from_json (s : string) : result PairingMessage string :=
  match s with
  | String c rest =>
      if Ascii.eqb c "o" then Ok (Offer rest 1)
      else if Ascii.eqb c "s" then Ok (SasConfirm rest)
      else if Ascii.eqb c "p" then Ok (Payload Nsec rest)
      else if Ascii.eqb c "c" then Ok (Complete true)
      else if Ascii.eqb c "a" then Ok (Abort_msg UserDenied)
      else Err "unknown"
  | EmptyString => Err "empty"
  end.

Definition toy : PairingCrypto := {|
  SecretKey := N;
  public_key := toy_key;
  pk_bytes := bytes_of_string;
  generate_shared_key := λ _ _, Ok (replicate 32 7%N);
  hkdf_extract := λ salt ikm, salt ++ ikm;
  hkdf_expand := λ _ _ n, replicate n 1%N;
  nip44_encrypt := λ _ _ _ p, Ok (pad +:+ p);
  nip44_decrypt := λ _ _ c, unpad c;
  msg_to_json := toy_to_json;
  msg_from_json := toy_from_json;
  hex_encode := λ b, pos_text (encode b);
  hex_decode := λ s, decode (text_pos s);
  sign_event := λ sk k c ts t, Ok (mkEvent c (toy_key sk) k t ts c);
  verify_event := λ _, Ok tt
|}.

Lemma substring_all s : String.substring 0 (String.length s) s = s.
Proof. induction s as [|c s IH]; simpl; [done|]. by rewrite IH. Qed.

Lemma substring_pad p s :
  String.substring (String.length p) (String.length s) (p +:+ s) = s.
Proof. induction p as [|c p IH]; simpl; [apply substring_all|exact IH]. Qed.

Lemma length_pad : String.length pad = 132.
Proof. done. Qed.

#[export] Instance toy_laws : CryptoLaws (PC := toy).
Proof.
  split; cbn -[Nat.leb N.leb N.ltb N.of_nat].
  - intros a b. by eexists.
  - intros n a b p Hne Hsz. exists (pad +:+ p). split; [done|]. apply N.ltb_ge in Hsz.
    unfold unpad. rewrite length_string_app, length_pad.
    rewrite (proj2 (Nat.leb_le _ _)) by lia. split.
    + f_equal. replace (132 + String.length p - 132) with (String.length p) by lia.
      apply (substring_pad pad).
    + apply andb_true_iff. rewrite !N.leb_le. lia.
  - intros sk k c ts t. eexists. by split_and!.
  - intros sk1 k1 c1 ts1 t1 e1 sk2 k2 c2 ts2 t2 e2 [= <-] [= <-]. done.
  - intros b _. rewrite text_pos_text. apply decode_encode.
  - done.
Qed.

(** ** The run *)

Definition w_env (i : nat) : Env := mkEnv (N.min (N.of_nat i) 60 * 1000000000) 1700000000 17 0.
Definition w_secret : Bytes := replicate 32 5%N.

Lemma w_fits_short m j :
  toy_to_json m = Ok j → toy_from_json j = Ok m →
  Nat.leb 1 (String.length j) = true → (65535 <? N.of_nat (String.length j))%N = false →
  fits (PC := toy) m.
Proof. intros H1 H2 H3%Nat.leb_le H4. by exists j. Qed.

Lemma honest_exchange_completes_witness :
  honest_run (PC := toy) w_env 3%N 4%N w_secret "wss://relay" Nsec "nsec1".
Proof.
  apply (honest_exchange_completes (PC := toy)).
  - intros i. unfold w_env, DEFAULT_TIMEOUT. cbn [env_now]. lia.
  - eapply w_fits_short; vm_compute; reflexivity.
  - intros salt ikm info. eapply w_fits_short; vm_compute; reflexivity.
  - eapply w_fits_short; vm_compute; reflexivity.
  - eapply w_fits_short; vm_compute; reflexivity.
Defined.

Existing Instance toy.

(** The two sessions of the run and the events they exchange. *)
Definition w_s0 : PairingSession := (new_source (PC := toy) (w_env 0) 3%N w_secret "wss://relay").1.
Definition w_qr : QrPayload := (new_source (PC := toy) (w_env 0) 3%N w_secret "wss://relay").2.
Definition w_no_event : Event := mkEvent "" "" 0 0 [] "".

Definition w_target : PairingSession * Event :=
  match new_target (PC := toy) (w_env 1) 4%N w_qr with Ok x => x | Err _ => (w_s0, w_no_event) end.

Definition built (x : result output PairingError * PairingSession) : Event :=
  match x.1 with Ok (Out_event e) => e | _ => w_no_event end.

Definition w_t0 : PairingSession := w_target.1.
Definition w_offer : Event := w_target.2.
Definition w_s1 : PairingSession := (exec (w_env 2) (Op_offer w_offer) w_s0).2.
Definition w_confirm : Event := built (exec (w_env 3) Op_confirm_sas w_s1).
Definition w_s2 : PairingSession := (exec (w_env 3) Op_confirm_sas w_s1).2.
Definition w_t1 : PairingSession := (exec (w_env 4) (Op_sas_confirm w_confirm) w_t0).2.
Definition w_t2 : PairingSession := (exec (w_env 5) Op_confirm_target_sas w_t1).2.
Definition w_pay : Event := built (exec (w_env 6) (Op_send_payload Nsec "nsec1") w_s2).
Definition w_t3 : PairingSession := (exec (w_env 7) (Op_payload w_pay) w_t2).2.

Definition w_history : list label :=
  [mkLabel (w_env 4) (Op_sas_confirm w_confirm) (exec (w_env 4) (Op_sas_confirm w_confirm) w_t0).1;
   mkLabel (w_env 5) Op_confirm_target_sas (exec (w_env 5) Op_confirm_target_sas w_t1).1].

Lemma exec_is env o s r : (exec env o s).1 = r → exec env o s = (r, (exec env o s).2).
Proof. intros <-. apply surjective_pairing. Qed.

Lemma w_pay_step : exec (w_env 7) (Op_payload w_pay) w_t2 = (Ok (Out_payload Nsec "nsec1"), w_t3).
Proof. apply exec_is. vm_compute. reflexivity. Qed.

Lemma w_offer_step : exec (w_env 2) (Op_offer w_offer) w_s0 = (Ok (Out_sas "843009"), w_s1).
Proof. apply exec_is. vm_compute. reflexivity. Qed.

Lemma w_replay_step :
  (exec (w_env 7) (Op_payload w_confirm) w_t2).1
    = Err (UnexpectedMessage "new event" "duplicate event id").
Proof. vm_compute. reflexivity. Qed.

Lemma w_trace : trace w_t0 w_history w_t2.
Proof.
  eapply trace_cons; [by apply surjective_pairing|].
  eapply trace_cons; [by apply surjective_pairing|]. apply trace_nil.
Qed.

Lemma w_started : started w_t0.
Proof.
  apply (started_target (PC := toy) (w_env 1) 4%N w_qr _ w_offer). unfold w_t0, w_offer, w_target.
  vm_compute. reflexivity.
Qed.

Lemma w_source_reachable : reachable w_s0.
Proof. exists w_s0, []. split; [apply started_source|apply trace_nil]. Qed.

Lemma w_target_reachable : reachable w_t2.
Proof. exists w_t0, w_history. split; [apply w_started|apply w_trace]. Qed.

Lemma states_follow_protocol_witness :
  state w_t2 = Transferring ∧ state w_t3 = PayloadExchanged ∧ role w_t3 = Target.
Proof.
  destruct (states_follow_protocol (w_env 7) (Op_payload w_pay) w_t2 w_t3 _ w_target_reachable w_pay_step)
    as (_ & Hr & _).
  split; [vm_compute; reflexivity|]. split; [vm_compute; reflexivity|]. rewrite Hr. vm_compute. reflexivity.
Defined.

(** The transcript proof delivered a second time: refused, nothing changes. *)
Lemma errors_leave_session_witness :
  let e := UnexpectedMessage "new event" "duplicate event id" in
  let s' := (exec (w_env 7) (Op_payload w_confirm) w_t2).2 in
  s' = w_t2 ∨ disturbs w_t2 (Op_payload w_confirm) e s'.
Proof.
  exact (errors_leave_session (w_env 7) (Op_payload w_confirm) w_t2 _ _ w_target_reachable
    (exec_is _ _ _ _ w_replay_step)).
Defined.

Lemma accepted_events_fresh_witness :
  ∃ err, exec (w_env 3) (Op_peer_abort w_offer) w_s1 = (Err err, w_s1).
Proof.
  destruct (accepted_events_fresh (w_env 2) (Op_offer w_offer) w_s0 w_s1 w_s1 _ w_offer [] (w_env 3)
    (Op_peer_abort w_offer) w_offer w_source_reachable w_offer_step eq_refl (trace_nil w_s1) eq_refl eq_refl)
    as (_ & _ & _ & H).
  exact H.
Defined.

Lemma payload_needs_confirmation_witness :
  ∃ l1 a l2 b l3, w_history = l1 ++ a :: l2 ++ b :: l3
    ∧ first_step Target a = true ∧ second_step Target b = true.
Proof.
  exact (proj1 (payload_needs_confirmation (w_env 7) (Op_payload w_pay) w_t0 w_t2 w_t3 _ w_history
    w_started w_trace w_pay_step eq_refl)).
Defined.

Lemma expired_sessions_refuse_witness :
  exec (mkEnv 200000000000 0 0 0) Op_confirm_sas w_s1 = (Err SessionExpired, w_s1).
Proof.
  apply (expired_sessions_refuse (mkEnv 200000000000 0 0 0) Op_confirm_sas w_s1);
    [vm_compute; reflexivity|done|done].
Defined.
