(* ===== verification/PairingQr.v ===== *)
(** * PairingQr: the QR code of a pairing session

Models [buzz-core/src/pairing/qr.rs]: the [nostrpair://] URI a source device
shows ([encode_qr]) and the strict parser of the scanning device ([decode_qr]).
The payload and the errors are those of [Pairing].  Hexadecimal, percent
encoding, URL parsing, the text of a public key and the [{:?}] form of a
string are the interface [QrCrates]. *)
From stdpp Require Import pretty.
From S2P Require Import Prelude Text Encode Nostr Kind Pairing.

Class QrCrates : Type := {
  pk_to_hex : PublicKey → string;                         (* [PublicKey::to_hex] *)
  pk_from_hex : string → result PublicKey string;         (* [PublicKey::from_hex] *)
  qr_hex_encode : Bytes → string;                         (* [hex::encode] *)
  qr_hex_decode : string → result Bytes string;           (* [hex::decode] *)
  url_encode : string → string;                           (* [utf8_percent_encode(_, NON_ALPHANUMERIC)] *)
  url_decode : string → string;                           (* [percent_decode_str(_).decode_utf8_lossy()] *)
  url_parse : string → result (string * bool) string;     (* [Url::parse]: scheme, and whether a host *)
  debug_str : string → string                             (* [{:?}] *)
}.

Section qr.
Context {QC : QrCrates}.

Definition is_lowercase_hex (c : ascii) : bool := is_ascii_digit c || in_range 97 102 c.

(** [s.len() != 64 || !s.chars().all(is_lowercase_hex)], negated. *)
Definition is_hex64 (s : string) : bool :=
  bool_decide (String.length s = 64) && string_forall is_lowercase_hex s.

Definition encode_qr (payload : QrPayload) : string :=
  let pubkey_hex := pk_to_hex (qr_source_pubkey payload) in
  let secret_hex := qr_hex_encode (qr_session_secret payload) in
  let uri := "nostrpair://" +:+ pubkey_hex +:+ "?secret=" +:+ secret_hex in
  let uri := foldl (λ uri relay, (uri +:+ "&relay=") +:+ url_encode relay) uri (qr_relays payload) in
  uri +:+ "&v=1".

(** The three variables the query loop fills. *)
Record QrParams : Type := mkQrParams {
  p_secret_hex : option string;
  p_relays : list string;
  p_version : option N
}.

(** [str::parse::<u32>]. *)
Definition parse_u32 (s : string) : option N := parse_uint 4294967295 s.

(** The body of the loop. *)
Definition read_pair (p : QrParams) (pair : string) : QrParams :=
  match split_once "=" pair with
  | None => p
  | Some (key, value) =>
      if String.eqb key "secret" then mkQrParams (Some value) (p_relays p) (p_version p)
      else if String.eqb key "relay" then
        mkQrParams (p_secret_hex p) (p_relays p ++ [url_decode value]) (p_version p)
      else if String.eqb key "v" then mkQrParams (p_secret_hex p) (p_relays p) (parse_u32 value)
      else p
  end.

(** The loop that validates the relay URLs. *)
Fixpoint check_relays (relays : list string) : result unit PairingError :=
  match relays with
  | [] => Ok tt
  | relay :: relays' =>
      let? (scheme, has_host) :=
        map_err (λ e, InvalidQr ("invalid relay URL " +:+ debug_str relay +:+ ": " +:+ e)) (url_parse relay) in
      if negb (String.eqb scheme "wss" || String.eqb scheme "ws") then
        Err (InvalidQr ("relay URL must use wss:// or ws:// scheme, got " +:+ debug_str scheme))
      else if negb has_host then Err (InvalidQr ("relay URL has no host: " +:+ debug_str relay))
      else check_relays relays'
  end.

Definition decode_qr (uri : string) : result QrPayload PairingError :=
  if bool_decide (2048 < String.length uri) then
    Err (InvalidQr ("URI exceeds 2048-character limit (" +:+ pretty (String.length uri) +:+ " chars)"))
  else
  let? rest := ok_or (strip_prefix "nostrpair://" uri) (InvalidQr "URI must start with nostrpair://") in
  let? (pubkey_hex, query) :=
    ok_or (split_once "?" rest) (InvalidQr "missing query string (expected ?secret=…&relay=…)") in
  if negb (is_hex64 pubkey_hex) then
    Err (InvalidQr ("pubkey must be 64 lowercase hex chars, got " +:+ debug_str pubkey_hex))
  else
  let? source_pubkey :=
    map_err (λ e, InvalidQr ("invalid pubkey: " +:+ e)) (pk_from_hex pubkey_hex) in
  let params := foldl read_pair (mkQrParams None [] None) (split_on "&" query) in
  let version := default 1%N (p_version params) in
  if bool_decide (version ≠ 1%N) then
    Err (InvalidQr ("unsupported protocol version " +:+ pretty version +:+ ", expected 1"))
  else
  let? secret_str :=
    ok_or (p_secret_hex params) (InvalidQr "missing 'secret' query parameter") in
  if negb (is_hex64 secret_str) then
    Err (InvalidQr ("secret must be 64 lowercase hex chars, got " +:+ debug_str secret_str))
  else
  let? secret_bytes :=
    map_err (λ e, InvalidQr ("invalid secret hex: " +:+ e)) (qr_hex_decode secret_str) in
  if bool_decide (length secret_bytes ≠ 32) then
    Err (InvalidQr "secret must be exactly 32 bytes")
  else if bool_decide (secret_bytes = repeat 0%N 32) then
    Err (InvalidQr "session_secret must not be all zeros")
  else
  match p_relays params with
  | [] => Err (InvalidQr "at least one 'relay' query parameter is required")
  | _ =>
      let? _ := check_relays (p_relays params) in
      Ok {| qr_version := version; qr_source_pubkey := source_pubkey;
            qr_session_secret := secret_bytes; qr_relays := p_relays params |}
  end.

(** ** Lemmas *)

Lemma split_once_Some sep s a b :
  split_once sep s = Some (a, b) ↔ s = a +:+ String sep b ∧ contains_char sep a = false.
Proof.
  revert a. induction s as [|c s IH]; intros a; cbn [split_once].
  - split; [done|]. by intros [H _]; destruct a.
  - destruct (Ascii.eqb_spec c sep) as [->|Hc].
    + split; [by intros [= <- <-]|]. intros [H Ha]. destruct a as [|d a].
      * by injection H as ->.
      * cbn in H, Ha. injection H as <- _. by rewrite Ascii.eqb_refl in Ha.
    + split.
      * destruct (split_once sep s) as [[x y]|]; [|done]. intros [= <- <-].
        destruct (IH x) as [IH' _]. destruct (IH' eq_refl) as [-> Hx]. split; [done|].
        cbn. rewrite Hx, orb_false_r. apply Ascii.eqb_neq. congruence.
      * intros [H Ha]. destruct a as [|d a]; [by injection H as ->|].
        cbn in H, Ha. injection H as <- H. apply orb_false_iff in Ha as [_ Ha].
        by rewrite (proj2 (IH a) (conj H Ha)).
Qed.

Definition relay_ok (relay : string) : Prop :=
  ∃ scheme, url_parse relay = Ok (scheme, true) ∧ (scheme = "wss" ∨ scheme = "ws").

Lemma check_relays_Ok relays : check_relays relays = Ok tt ↔ Forall relay_ok relays.
Proof.
  induction relays as [|r relays IH]; cbn [check_relays]; [by split; [constructor|]|].
  rewrite Forall_cons, <-IH. unfold relay_ok. destruct (url_parse r) as [[scheme host]|e]; cbn [map_err result_bind].
  2:{ split; [done|]. by intros [(? & ? & _) _]. }
  destruct (String.eqb_spec scheme "wss"), (String.eqb_spec scheme "ws"), host;
    cbn [orb negb]; split; try done; intros; try (split; [by eauto|done]); naive_solver.
Qed.
(** *** The query loop *)

(** The values given for one key, in order. *)
Definition values_of (key : string) (pairs : list string) : list string :=
  (filter (λ kv, kv.1 = key) (omap (split_once "=") pairs)).*2.

Lemma values_of_snoc key pairs pair :
  values_of key (pairs ++ [pair])
  = values_of key pairs ++
    match split_once "=" pair with
    | Some (k, v) => if decide (k = key) then [v] else []
    | None => []
    end.
Proof.
  unfold values_of. rewrite omap_app, filter_app, fmap_app. f_equal. simpl.
  destruct (split_once "=" pair) as [[k v]|]; [|done]. rewrite filter_cons. simpl. by case_decide.
Qed.

(** The loop keeps the last secret, every relay, and the reading of the last
version. *)
Lemma read_pairs_spec pairs :
  foldl read_pair (mkQrParams None [] None) pairs
  = mkQrParams (last (values_of "secret" pairs)) (url_decode <$> values_of "relay" pairs)
      (last (values_of "v" pairs) ≫= parse_u32).
Proof.
  induction pairs as [|pair pairs IH] using rev_ind; [done|].
  rewrite foldl_snoc, IH, !values_of_snoc. unfold read_pair.
  destruct (split_once "=" pair) as [[k v]|]; [|by rewrite !app_nil_r].
  cbn [p_secret_hex p_relays p_version].
  destruct (String.eqb_spec k "secret") as [->|Hs]; [|rewrite (decide_False _ _ Hs)].
  { rewrite decide_True, !decide_False, !app_nil_r by done. by rewrite last_snoc. }
  destruct (String.eqb_spec k "relay") as [->|Hr]; [|rewrite (decide_False _ _ Hr)].
  { rewrite decide_True, !decide_False, !app_nil_r by done. by rewrite fmap_app. }
  destruct (String.eqb_spec k "v") as [->|Hv]; [|rewrite (decide_False _ _ Hv)].
  { rewrite decide_True, !app_nil_r by done. by rewrite last_snoc. }
  by rewrite !app_nil_r.
Qed.

(** *** The text of [encode_qr] *)

Definition query_parts (payload : QrPayload) : list string :=
  ("secret=" +:+ qr_hex_encode (qr_session_secret payload))
  :: map (λ relay, "relay=" +:+ url_encode relay) (qr_relays payload) ++ ["v=1"].

Lemma join_with_cons sep p parts :
  parts ≠ [] → join_with sep (p :: parts) = p +:+ String sep (join_with sep parts).
Proof. by destruct parts. Qed.

Lemma encode_qr_text payload :
  encode_qr payload
  = "nostrpair://" +:+ (pk_to_hex (qr_source_pubkey payload) +:+
      String "?" (join_with "&" (query_parts payload))).
Proof.
  unfold encode_qr, query_parts.
  assert (∀ uri p, foldl (λ uri relay, (uri +:+ "&relay=") +:+ url_encode relay) (uri +:+ p)
      (qr_relays payload) +:+ "&v=1"
    = uri +:+ join_with "&"
        (p :: map (λ relay, "relay=" +:+ url_encode relay) (qr_relays payload) ++ ["v=1"])) as Hfold.
  { induction (qr_relays payload) as [|r relays IH]; intros uri p; cbn [foldl map app].
    - by rewrite <-string_app_assoc.
    - rewrite join_with_cons by (by destruct relays).
      change (String "&"
          (join_with "&" (("relay=" +:+ url_encode r) :: map (λ relay, "relay=" +:+ url_encode relay) relays ++ ["v=1"])))
        with ("&" +:+ join_with "&" (("relay=" +:+ url_encode r) :: map (λ relay, "relay=" +:+ url_encode relay) relays ++ ["v=1"])).
      rewrite !string_app_assoc, <-IH. do 2 f_equal. rewrite <-!string_app_assoc. done. }
  specialize (Hfold ("nostrpair://" +:+ pk_to_hex (qr_source_pubkey payload) +:+ "?")
    ("secret=" +:+ qr_hex_encode (qr_session_secret payload))).
  rewrite <-!string_app_assoc in *. exact Hfold.
Qed.

Lemma contains_char_app c a b : contains_char c (a +:+ b) = contains_char c a || contains_char c b.
Proof.
  induction a as [|d a IH]; [done|]. rewrite string_app_cons. simpl.
  by rewrite IH, orb_assoc.
Qed.

Lemma split_once_app sep a b : contains_char sep a = false → split_once sep (a +:+ String sep b) = Some (a, b).
Proof. intros Ha. by apply split_once_Some. Qed.

(** The characters percent encoding leaves. *)
Definition is_url_char (c : ascii) : bool := is_ascii_alphanumeric c || Ascii.eqb c "%".

(** What the crates document: hexadecimal of 32 bytes is 64 lowercase digits and
decodes back, percent encoding leaves only alphanumerics and [%] and decodes
back. *)
Record QrLaws : Prop := {
  hex_form b : length b = 32 → Forall (λ x, (x < 256)%N) b →
    is_hex64 (qr_hex_encode b) = true ∧ qr_hex_decode (qr_hex_encode b) = Ok b;
  url_chars s : string_forall is_url_char (url_encode s) = true;
  url_inverse s : url_decode (url_encode s) = s
}.

(** A payload a source device can show: a key the crate prints and reads back, a
secret of 32 bytes that are not all zero, at least one usable relay. *)
Record well_formed_qr (p : QrPayload) : Prop := {
  wf_key : is_hex64 (pk_to_hex (qr_source_pubkey p)) = true
           ∧ pk_from_hex (pk_to_hex (qr_source_pubkey p)) = Ok (qr_source_pubkey p);
  wf_secret : length (qr_session_secret p) = 32
              ∧ Forall (λ x, (x < 256)%N) (qr_session_secret p)
              ∧ qr_session_secret p ≠ repeat 0%N 32;
  wf_relays : qr_relays p ≠ [] ∧ Forall relay_ok (qr_relays p);
  wf_version : qr_version p = 1%N
}.

Lemma hex64_chars s c : is_hex64 s = true → is_lowercase_hex c = false → contains_char c s = false.
Proof. intros [_ Hs]%andb_true_iff Hc. by eapply string_forall_excludes. Qed.

Lemma query_parts_split (QL : QrLaws) p :
  well_formed_qr p → split_on "&" (join_with "&" (query_parts p)) = query_parts p.
Proof.
  intros [_ (Hlen & Hb & _) _ _]. apply split_join; [done|]. unfold query_parts.
  constructor; [|apply Forall_app; split; [|by repeat constructor]].
  - rewrite contains_char_app. apply (hex64_chars _ "&" (proj1 (hex_form QL _ Hlen Hb))). done.
  - apply Forall_map, Forall_forall. intros r _. rewrite contains_char_app.
    apply (string_forall_excludes _ "&" _ (url_chars QL r)). done.
Qed.

Lemma query_params (QL : QrLaws) p :
  foldl read_pair (mkQrParams None [] None) (query_parts p)
  = mkQrParams (Some (qr_hex_encode (qr_session_secret p))) (qr_relays p) (Some 1%N).
Proof.
  assert (∀ s l v x, read_pair (mkQrParams s l v) ("relay=" +:+ x) = mkQrParams s (l ++ [url_decode x]) v)
    as Hrelay by done.
  assert (read_pair (mkQrParams None [] None) ("secret=" +:+ qr_hex_encode (qr_session_secret p))
    = mkQrParams (Some (qr_hex_encode (qr_session_secret p))) [] None) as Hsecret by done.
  unfold query_parts. cbn [foldl]. rewrite Hsecret, foldl_app.
  assert (∀ s l relays v, foldl read_pair (mkQrParams s l v)
      (map (λ relay, "relay=" +:+ url_encode relay) relays) = mkQrParams s (l ++ relays) v) as Hr.
  { intros s l relays v. revert l. induction relays as [|r relays IH]; intros l; cbn [map foldl].
    { by rewrite app_nil_r. }
    by rewrite Hrelay, IH, (url_inverse QL), <-(assoc_L (++)). }
  by rewrite Hr.
Qed.

End qr.

(** A payload survives its QR code: the URI of [encode_qr] decodes to the
payload it was made from, whenever it fits the 2048-character limit. *)
Theorem qr_roundtrip {QC : QrCrates} (QL : QrLaws) (p : QrPayload) :
  well_formed_qr p → String.length (encode_qr p) ≤ 2048 → decode_qr (encode_qr p) = Ok p.
Proof.
  intros Hp Hlen. pose proof Hp as [[Hhex Hkey] (Hb & Hbytes & Hz) [Hne Hrel] Hv].
  destruct (hex_form QL _ Hb Hbytes) as [Hs Hdec].
  unfold decode_qr. rewrite bool_decide_false by lia. rewrite encode_qr_text.
  rewrite (proj2 (strip_prefix_Some _ _ _) eq_refl). cbn [ok_or result_bind].
  rewrite split_once_app by (by apply (hex64_chars _ "?")). cbn [ok_or result_bind].
  rewrite Hhex, Hkey. cbn [negb map_err result_bind].
  rewrite (query_parts_split QL) by done. rewrite (query_params QL).
  cbn [p_version p_secret_hex p_relays default]. rewrite bool_decide_false by (by intros H; apply H).
  cbn [ok_or result_bind]. rewrite Hs, Hdec. cbn [negb map_err result_bind].
  rewrite !bool_decide_false by (auto || lia).
  rewrite (proj2 (check_relays_Ok _) Hrel).
  destruct p as [v k s [|r relays]]; simpl in *; [done|]. by subst.
Qed.

(** Whatever is scanned, an accepted payload is safe to use: the URI is
within the limit, the key is the 64 lowercase hex characters between the
scheme and the first question mark, the secret is the last [secret] given, 32
bytes and not all zero, the relays are the decoded [relay] values in order, at
least one, and each parses as a WebSocket URL with a host; and every URI with
these properties whose version reads as 1 is accepted. *)
Theorem decode_qr_correct {QC : QrCrates} (uri : string) (p : QrPayload) :
  decode_qr uri = Ok p ↔
  String.length uri ≤ 2048 ∧ ∃ key query secret,
    uri = "nostrpair://" +:+ (key +:+ String "?" query)
    ∧ contains_char "?" key = false
    ∧ is_hex64 key = true ∧ pk_from_hex key = Ok (qr_source_pubkey p)
    ∧ last (values_of "secret" (split_on "&" query)) = Some secret
    ∧ is_hex64 secret = true ∧ qr_hex_decode secret = Ok (qr_session_secret p)
    ∧ length (qr_session_secret p) = 32 ∧ qr_session_secret p ≠ repeat 0%N 32
    ∧ qr_relays p = url_decode <$> values_of "relay" (split_on "&" query)
    ∧ qr_relays p ≠ [] ∧ Forall relay_ok (qr_relays p)
    ∧ qr_version p = 1%N
    ∧ default 1%N (last (values_of "v" (split_on "&" query)) ≫= parse_u32) = 1%N.
Proof.
  unfold decode_qr. case_bool_decide as Hlen; [split; [done|]; intros [? _]; lia|].
  split.
  - intros (rest & Hrest & H)%result_bind_Ok. split; [lia|].
    destruct (strip_prefix _ uri) as [r|] eqn:Hp; [|done]. injection Hrest as ->.
    apply strip_prefix_Some in Hp. apply result_bind_Ok in H as ([key query] & Hk & H).
    destruct (split_once "?" rest) as [[k q]|] eqn:Hq; [|done]. injection Hk as -> ->.
    apply split_once_Some in Hq as [-> Hfree]. exists key, query.
    destruct (is_hex64 key) eqn:Hkey; [|done]. cbn [negb] in H.
    apply result_bind_Ok in H as (pk & Hpk%map_err_Ok & H). rewrite read_pairs_spec in H.
    cbn [p_version p_secret_hex p_relays] in H. case_bool_decide as Hv; [done|].
    apply result_bind_Ok in H as (secret & Hs & H). exists secret.
    destruct (last (values_of "secret" _)) as [s|]; [|done]. injection Hs as ->.
    destruct (is_hex64 secret) eqn:Hsec; [|done]. cbn [negb] in H.
    apply result_bind_Ok in H as (bytes & Hb%map_err_Ok & H).
    case_bool_decide as Hl; [done|]. case_bool_decide as Hz; [done|].
    destruct (url_decode <$> values_of "relay" (split_on "&" query)) as [|r relays] eqn:Hrel; [done|].
    apply result_bind_Ok in H as ([] & Hc%check_relays_Ok & [= <-]).
    cbn [qr_version qr_source_pubkey qr_session_secret qr_relays].
    rewrite Hv. by split_and!; auto; lia.
  - intros (_ & key & query & secret & -> & Hfree & Hkey & Hpk & Hlast & Hsec & Hb & Hl & Hz & Hrel
      & Hne & Hok & Hver & Hv).
    rewrite (proj2 (strip_prefix_Some _ _ _) eq_refl). cbn [ok_or result_bind].
    rewrite split_once_app by done. cbn [ok_or result_bind]. rewrite Hkey, Hpk.
    cbn [negb map_err result_bind]. rewrite read_pairs_spec. cbn [p_version p_secret_hex p_relays].
    rewrite Hv, bool_decide_false, Hlast by (by intros H; apply H). cbn [ok_or result_bind].
    rewrite Hsec, Hb. cbn [negb map_err result_bind]. rewrite !bool_decide_false by (auto || lia).
    rewrite <-Hrel, (proj2 (check_relays_Ok _) Hok).
    destruct p as [v k s [|r relays]]; simpl in *; [done|]. by subst.
Qed.

(** ** A concrete instance *)

Module Toy.
Definition hex_digit (n : N) : ascii := ascii_of_N (if (n <? 10)%N then n + 48 else n + 87).
Definition hex_value (c : ascii) : N :=
  if is_ascii_digit c then (N_of_ascii c - 48)%N else (N_of_ascii c - 87)%N.

Fixpoint hex_text (b : list N) : string :=
  match b with
  | [] => ""
  | x :: b' => String (hex_digit (x / 16)) (String (hex_digit (x mod 16)) (hex_text b'))
  end.

Fixpoint hex_bytes (s : string) : result (list N) string :=
  match s with
  | EmptyString => Ok []
  | String a (String b s') => let? l := hex_bytes s' in Ok ((16 * hex_value a + hex_value b)%N :: l)
  | _ => Err "odd"
  end.

(** Percent encoding with lowercase digits. *)
Fixpoint percent (s : string) : string :=
  match s with
  | EmptyString => ""
  | String c s' =>
      if is_ascii_alphanumeric c then String c (percent s')
      else String "%" (String (hex_digit (N_of_ascii c / 16)) (String (hex_digit (N_of_ascii c mod 16)) (percent s')))
  end.

Fixpoint unpercent (s : string) : string :=
  match s with
  | EmptyString => ""
  | String c s' =>
      if Ascii.eqb c "%" then
        match s' with
        | String a (String b s'') => String (ascii_of_N (16 * hex_value a + hex_value b)) (unpercent s'')
        | _ => s
        end
      else String c (unpercent s')
  end.

#[export] Instance toy_qr : QrCrates := {
  pk_to_hex := λ k, k;
  pk_from_hex := λ s, Ok s;
  qr_hex_encode := hex_text;
  qr_hex_decode := hex_bytes;
  url_encode := percent;
  url_decode := unpercent;
  url_parse := λ s, match strip_prefix "wss://" s with
                    | Some h => Ok ("wss", negb (String.eqb h ""))
                    | None => Err "scheme"
                    end;
  debug_str := λ s, s
}.

Lemma hex_byte x :
  (x < 256)%N →
  is_lowercase_hex (hex_digit (x / 16)) && is_lowercase_hex (hex_digit (x mod 16))
  && (16 * hex_value (hex_digit (x / 16)) + hex_value (hex_digit (x mod 16)) =? x)%N = true.
Proof.
  intros Hx. rewrite <-(N_ascii_embedding x Hx). generalize (ascii_of_N x).
  intros [[] [] [] [] [] [] [] []]; reflexivity.
Qed.

Lemma toy_qr_laws : QrLaws.
Proof.
  constructor.
  - intros b Hlen Hb. assert (String.length (hex_text b) = 2 * length b
      ∧ string_forall is_lowercase_hex (hex_text b) = true ∧ hex_bytes (hex_text b) = Ok b) as (Hl & Ha & Hd).
    { clear Hlen. induction Hb as [|x b Hx _ (Hl & Ha & Hd)]; [done|].
      apply hex_byte in Hx as [[H1 H2]%andb_true_iff H3%N.eqb_eq]%andb_true_iff.
      cbn [hex_text String.length string_forall hex_bytes length]. split_and!; [lia|by rewrite H1, H2|].
      rewrite Hd. cbn [result_bind]. by rewrite H3. }
    split; [|exact Hd]. change (is_hex64 (hex_text b) = true). unfold is_hex64. by rewrite Hl, Ha, Hlen.
  - simpl. induction s as [|c s IH]; [done|]. cbn [percent].
    destruct (is_ascii_alphanumeric c) eqn:Hc; cbn [string_forall].
    + unfold is_url_char at 1. by rewrite Hc, IH.
    + rewrite IH. revert Hc. by destruct c as [[] [] [] [] [] [] [] []].
  - simpl. induction s as [|c s IH]; [done|]. cbn [percent].
    destruct (is_ascii_alphanumeric c) eqn:Hc; cbn [unpercent].
    + destruct (Ascii.eqb_spec c "%") as [->|]; [done|]. by rewrite IH.
    + rewrite IH. revert Hc. by destruct c as [[] [] [] [] [] [] [] []].
Qed.

Definition toy_payload : QrPayload :=
  {| qr_version := 1; qr_source_pubkey := hex_text (repeat 171%N 32);
     qr_session_secret := repeat 5%N 32; qr_relays := ["wss://a.b/?x=1&y"; "wss://c"] |}.

(** A version that does not fit a [u32] reads as absent, so it is accepted. *)
Example oversized_version_accepted :
  decode_qr (encode_qr toy_payload +:+ "&v=4294967296") = Ok toy_payload.
Proof. vm_compute. reflexivity. Qed.

Example version_two_rejected : is_ok (decode_qr (encode_qr toy_payload +:+ "&v=2")) = false.
Proof. vm_compute. reflexivity. Qed.
End Toy.

Lemma qr_roundtrip_witness :
  decode_qr (QC := Toy.toy_qr) (encode_qr (QC := Toy.toy_qr) Toy.toy_payload) = Ok Toy.toy_payload.
Proof.
  apply (qr_roundtrip Toy.toy_qr_laws Toy.toy_payload).
  - constructor.
    + by split.
    + split_and!; [done| |done]. apply Forall_forall. intros x Hx.
      apply list_elem_of_In, repeat_spec in Hx as ->. reflexivity.
    + split; [done|]. repeat constructor; exists "wss"; (split; [reflexivity|by left]).
    + reflexivity.
  - vm_compute. lia.
Defined.
