(* ===== verification/Gossip.v ===== *)
(** * Gossip: mesh records, digests, deltas and failure suspicion

[crates/buzz-relay-mesh/src/gossip.rs].  [GossipState] is the pure scuttlebutt
state; [PhiAccrual] the failure detector, with its floating-point arithmetic
written with the Standard Library's IEEE 754 specification (binary64).  Every
reading of the clock is an argument, in nanoseconds since the epoch. *)
From Stdlib Require Import SpecFloat.
From stdpp Require Import pretty.
From S2P Require Import Prelude.

(** [RuntimeId([u8; 32])]. *)
Abbreviation RuntimeId := (list N).

Definition U64_MAX : N := 18446744073709551615.

(** [u64::saturating_add]. *)
Definition saturating_add (a b : N) : N := N.min (a + b) U64_MAX.

(** [hex::encode], of the [hex] crate. *)
Class HexEncode : Type := { hex_encode : list N → string }.

Definition to_hex {HE : HexEncode} (i : RuntimeId) : string := hex_encode i.

(** ** Records *)

Definition GOSSIP_PAYLOAD_VERSION : N := 1.

(** [load] is the bit pattern of the [f32]. *)
Record GossipRecord : Type := mkGossipRecord {
  runtime_id : RuntimeId;
  endpoint_addrs : list string;
  proto_version : N;
  load : N;
  draining : bool;
  capabilities : list string;
  version : N;
  heartbeat_millis : N
}.

#[export] Instance GossipRecord_eq_dec : EqDecision GossipRecord.
Proof. solve_decision. Defined.

Definition now_millis (now : N) : N := N.min (now / 1000000) U64_MAX.
Definition system_time_from_millis (millis : N) : N := millis * 1000000.

Definition GossipRecord_new (now : N) (runtime_id : RuntimeId) (endpoint_addrs : list string)
    (proto_version : N) : GossipRecord :=
  mkGossipRecord runtime_id endpoint_addrs proto_version 0 false [] 1 (now_millis now).

Definition set_version (v hb : N) (r : GossipRecord) : GossipRecord :=
  mkGossipRecord (runtime_id r) (endpoint_addrs r) (proto_version r) (load r) (draining r)
    (capabilities r) v hb.

Record GossipDigestEntry : Type := mkDigestEntry { de_runtime_id : RuntimeId; de_version : N }.

Inductive GossipMessage : Type :=
| Digest (version : N) (entries : list GossipDigestEntry)
| Delta (version : N) (records : list GossipRecord).

(** [sort_by_key] with a string key: a stable sort. *)
Fixpoint insert_by_string {A : Type} (f : A → string) (x : A) (l : list A) : list A :=
  match l with
  | [] => [x]
  | y :: l' => if String.leb (f x) (f y) then x :: l else y :: insert_by_string f x l'
  end.

Definition sort_by_string {A : Type} (f : A → string) (l : list A) : list A :=
  foldr (insert_by_string f) [] l.

(** [sort_by_key(|x| x.runtime_id.to_hex())]. *)
Definition sort_by_hex {HE : HexEncode} {A : Type} (f : A → RuntimeId) (l : list A) : list A :=
  sort_by_string (λ x, to_hex (f x)) l.

(** [entries.iter().map(..).collect::<HashMap>()]: the last entry of an id wins. *)
Definition remote_versions (digest : list GossipDigestEntry) : gmap RuntimeId N :=
  foldl (λ m e, <[de_runtime_id e := de_version e]> m) ∅ digest.

(** ** The wire ([encode_message], [decode_message])

[postcard] is the serialisation crate. *)
Class Postcard : Type := {
  postcard_to_bytes : GossipMessage → result (list N) string;
  postcard_from_bytes : list N → result GossipMessage string
}.

(** The errors of the modelled calls. *)
Inductive MeshError : Type :=
| Encode (err : string)
| Decode (err : string)
| Transport (msg : string).

Definition encode_message {PC : Postcard} (message : GossipMessage) : result (list N) MeshError :=
  map_err Encode (postcard_to_bytes message).

Definition decode_message {PC : Postcard} (bytes : list N) : result GossipMessage MeshError :=
  let? message := map_err Decode (postcard_from_bytes bytes) in
  let v := match message with Digest version _ | Delta version _ => version end in
  if (v =? GOSSIP_PAYLOAD_VERSION)%N then Ok message
  else Err (Transport ("unknown gossip payload version " +:+ pretty v)).

(** The record is missing from the digest or newer than it. *)
Definition ahead_of (remote : gmap RuntimeId N) (r : GossipRecord) : bool :=
  match remote !! runtime_id r with
  | None => true
  | Some v => (v <? version r)%N
  end.

(** ** The pure scuttlebutt state *)

Record GossipState : Type := mkGossipState { records : gmap RuntimeId GossipRecord }.

Definition GossipState_new (loc : GossipRecord) : GossipState :=
  {| records := {[runtime_id loc := loc]} |}.

Definition gossip_update_local (now : N) (i : RuntimeId) (update : GossipRecord → GossipRecord)
    (s : GossipState) : option GossipRecord * GossipState :=
  match records s !! i with
  | None => (None, s)
  | Some r =>
      let r := update r in
      let r := set_version (saturating_add (version r) 1) (now_millis now) r in
      (Some r, {| records := <[i := r]> (records s) |})
  end.

Section gossip.
Context {HO : HashOrder} {HE : HexEncode}.

Definition gossip_digest (s : GossipState) : GossipMessage :=
  Digest GOSSIP_PAYLOAD_VERSION
    (sort_by_hex de_runtime_id
       (map (λ kr, mkDigestEntry (runtime_id kr.2) (version kr.2)) (hm_iter (records s)))).

Definition gossip_delta_for (digest : list GossipDigestEntry) (s : GossipState) : GossipMessage :=
  Delta GOSSIP_PAYLOAD_VERSION
    (sort_by_hex runtime_id
       (filter (λ r, ahead_of (remote_versions digest) r = true) (map snd (hm_iter (records s))))).
End gossip.

Fixpoint apply_delta (rs : list GossipRecord) (s : GossipState) : list RuntimeId * GossipState :=
  match rs with
  | [] => ([], s)
  | r :: rs =>
      let should_apply :=
        match records s !! runtime_id r with
        | None => true
        | Some existing => (version existing <? version r)%N
        end in
      if should_apply then
        let '(changed, s') := apply_delta rs {| records := <[runtime_id r := r]> (records s) |} in
        (runtime_id r :: changed, s')
      else apply_delta rs s
  end.

(** ** The failure detector *)

Record PhiAccrual : Type := mkPhiAccrual {
  samples : list N;               (* [Duration]s, in nanoseconds *)
  last_heartbeat : option N;
  max_samples : nat
}.

Definition PhiAccrual_new (max : nat) : PhiAccrual := mkPhiAccrual [] None (Nat.max max 1).
Definition PhiAccrual_default : PhiAccrual := PhiAccrual_new 100.

(** [Duration::duration_since] fails when the clock went backwards; a zero
interval is not recorded. *)
Definition observe (at_ : N) (p : PhiAccrual) : PhiAccrual :=
  let samples' :=
    match last_heartbeat p with
    | Some prev =>
        if (prev <=? at_)%N && negb (at_ - prev =? 0)%N then
          let l := samples p ++ [(at_ - prev)%N] in
          if (max_samples p <? length l) then tail l else l
        else samples p
    | None => samples p
    end in
  mkPhiAccrual samples' (Some at_) (max_samples p).

(** [f64]. *)
Abbreviation f64 := spec_float.
Definition f64_of_N (n : N) : f64 := binary_normalize 53 1024 (Z.of_N n) 0 false.
Definition f64_add : f64 → f64 → f64 := SFadd 53 1024.
Definition f64_div : f64 → f64 → f64 := SFdiv 53 1024.
Definition f64_EPSILON : f64 := S754_finite false 4503599627370496 (-104).
Definition LN_10 : f64 := S754_finite false 5184960683398422 (-51).

(** [Duration::as_secs_f64]. *)
Definition as_secs_f64 (d : N) : f64 :=
  f64_add (f64_of_N (d / 1000000000)) (f64_div (f64_of_N (d mod 1000000000)) (f64_of_N 1000000000)).

Definition mean_secs (p : PhiAccrual) : f64 :=
  f64_div (foldl (λ acc d, f64_add acc (as_secs_f64 d)) (S754_zero true) (samples p))
    (f64_of_N (N.of_nat (length (samples p)))).

Definition phi_at (now : N) (p : PhiAccrual) : option f64 :=
  match last_heartbeat p with
  | None => None
  | Some last =>
      match samples p with
      | [] => None
      | _ =>
          if (now <? last)%N then None
          else
            let elapsed := as_secs_f64 (now - last) in
            let mean := mean_secs p in
            if SFleb mean f64_EPSILON then None
            else Some (f64_div (f64_div elapsed mean) LN_10)
      end
  end.

(** ** Specification *)

(** The newer of what two sides know of a runtime; the first side keeps its
own copy on equal versions. *)
Definition newer (a b : option GossipRecord) : option GossipRecord :=
  match a, b with
  | Some x, Some y => if (version x <? version y)%N then Some y else Some x
  | None, b => b
  | a, None => a
  end.

(** Every record is filed under its own runtime id. *)
Definition keyed (m : gmap RuntimeId GossipRecord) : Prop :=
  ∀ i r, m !! i = Some r → runtime_id r = i.

(** What a list of records says about [i]. *)
Definition view (l : list GossipRecord) (i : RuntimeId) : option GossipRecord :=
  list_find (λ r, runtime_id r = i) l ≫= λ x, Some x.2.

(** The contents of a message. *)
Definition entries_of (m : GossipMessage) : list GossipDigestEntry :=
  match m with Digest _ es => es | Delta _ _ => [] end.
Definition records_of (m : GossipMessage) : list GossipRecord :=
  match m with Delta _ rs => rs | Digest _ _ => [] end.

(** ** Lemmas *)

Section lemmas.
Context {HO : HashOrder} {HE : HexEncode}.

Lemma insert_by_string_perm {A : Type} (f : A → string) (x : A) (l : list A) :
  insert_by_string f x l ≡ₚ x :: l.
Proof.
  induction l as [|y l IH]; simpl; [done|].
  case_match; [done|]. rewrite IH. apply Permutation_swap.
Qed.

Lemma sort_by_string_perm {A : Type} (f : A → string) (l : list A) : sort_by_string f l ≡ₚ l.
Proof. induction l as [|x l IH]; simpl; [done|]. by rewrite insert_by_string_perm, IH. Qed.

Lemma sort_by_hex_perm {A : Type} (f : A → RuntimeId) (l : list A) : sort_by_hex f l ≡ₚ l.
Proof. apply sort_by_string_perm. Qed.

Lemma remote_versions_snoc l e :
  remote_versions (l ++ [e]) = <[de_runtime_id e := de_version e]> (remote_versions l).
Proof. unfold remote_versions. by rewrite foldl_app. Qed.

(** A digest whose ids are distinct is the map of its entries. *)
Lemma remote_versions_lookup l i v :
  NoDup (map de_runtime_id l) →
  remote_versions l !! i = Some v ↔ mkDigestEntry i v ∈ l.
Proof.
  revert i v. induction l as [|[j w] l IH] using rev_ind; intros i v Hnd.
  { unfold remote_versions; simpl. rewrite lookup_empty. set_solver. }
  rewrite map_app in Hnd. apply NoDup_app in Hnd as (Hnd & Hj & _).
  rewrite remote_versions_snoc, elem_of_app, list_elem_of_singleton, <-IH by done; simpl in *.
  destruct (decide (j = i)) as [->|Hne].
  - rewrite lookup_insert_eq. split; [intros [= ->]; by right|].
    intros [Hl|[= ->]]; [|done]. exfalso.
    apply (Hj i); [|set_solver]. apply list_elem_of_fmap. exists (mkDigestEntry i v).
    split; [done|]. by apply IH.
  - rewrite lookup_insert_ne by done. naive_solver.
Qed.

(** What applying a delta does to one id, for a delta with one record per id. *)
Lemma apply_delta_lookup rs s i :
  NoDup (map runtime_id rs) →
  records (apply_delta rs s).2 !! i
  = newer (records s !! i) (view rs i).
Proof.
  unfold view. revert s. induction rs as [|r rs IH]; intros s Hnd; simpl.
  { by destruct (records s !! i). }
  apply NoDup_cons in Hnd as [Hr Hnd].
  assert (runtime_id r = i → list_find (λ r, runtime_id r = i) rs = None) as Hnone.
  { intros <-. apply list_find_None, Forall_forall. intros r' Hr' Heq.
    apply Hr. rewrite <-Heq. by apply list_elem_of_fmap_2. }
  set (b := match records s !! runtime_id r with Some _ => _ | None => _ end).
  destruct b eqn:Hb; subst b.
  - destruct (apply_delta rs _) as [ch s'] eqn:E. simpl.
    replace s' with (apply_delta rs {| records := <[runtime_id r:=r]> (records s) |}).2
      by by rewrite E.
    rewrite IH by done. simpl. case_decide as Hi.
    + rewrite Hnone, <-Hi, lookup_insert_eq by done. simpl.
      destruct (records s !! runtime_id r) as [x|]; simpl; [by rewrite Hb|done].
    + rewrite lookup_insert_ne by done. by destruct (list_find _ rs) as [[]|].
  - rewrite IH by done. case_decide as Hi.
    + rewrite Hnone, <-Hi by done. simpl.
      destruct (records s !! runtime_id r) as [x|]; simpl; [by rewrite Hb|done].
    + by destruct (list_find _ rs) as [[]|].
Qed.

Lemma elem_of_values (m : gmap RuntimeId GossipRecord) r :
  keyed m → r ∈ map snd (hm_iter m) ↔ m !! runtime_id r = Some r.
Proof.
  intros Hk. rewrite list_elem_of_fmap. split.
  - intros ([i r'] & -> & Hi%elem_of_hm_iter). simpl. by rewrite (Hk _ _ Hi).
  - intros Hr. exists (runtime_id r, r). split; [done|]. by apply elem_of_hm_iter.
Qed.

Lemma view_Some l i r :
  NoDup (map runtime_id l) → view l i = Some r ↔ r ∈ l ∧ runtime_id r = i.
Proof.
  unfold view. induction l as [|x l IH]; intros Hnd; simpl; [set_solver|].
  apply NoDup_cons in Hnd as [Hx Hnd]. specialize (IH Hnd). case_decide as Hi; simpl.
  - rewrite elem_of_cons. split; [intros [= ->]; auto|].
    intros [[->|Hr] Hri]; [done|]. exfalso. apply Hx. rewrite Hi, <-Hri.
    by apply list_elem_of_fmap_2.
  - rewrite elem_of_cons. destruct (list_find _ l) as [[]|]; simpl in *; naive_solver.
Qed.

Lemma view_perm l l' i : NoDup (map runtime_id l) → l ≡ₚ l' → view l i = view l' i.
Proof.
  intros Hnd Hp. apply option_eq. intros r.
  assert (NoDup (map runtime_id l')) by (by rewrite <-Hp).
  rewrite !view_Some by done. by rewrite Hp.
Qed.

Lemma NoDup_ids_filter (P : GossipRecord → Prop) `{∀ r, Decision (P r)} l :
  NoDup (map runtime_id l) → NoDup (map runtime_id (filter P l)).
Proof. intros. eapply sublist_NoDup; [|apply fmap_sublist, filter_sublist_of]. done. Qed.

(** ** The exchange, on any list of records

[l] is what the sender of the delta knows and [l0] what the receiver knew
when it sent the digest. *)
Definition digest_of (l : list GossipRecord) : list GossipDigestEntry :=
  map (λ r, mkDigestEntry (runtime_id r) (version r)) l.

Definition delta_of (digest : list GossipDigestEntry) (l : list GossipRecord) : list GossipRecord :=
  sort_by_hex runtime_id (filter (λ r, ahead_of (remote_versions digest) r = true) l).

Lemma remote_versions_digest l0 d i :
  NoDup (map runtime_id l0) → d ≡ₚ digest_of l0 →
  remote_versions d !! i = version <$> view l0 i.
Proof.
  intros Hnd Hp.
  assert (NoDup (map de_runtime_id d)) as Hnd'.
  { rewrite Hp. unfold digest_of. rewrite map_map. exact Hnd. }
  apply option_eq. intros v. rewrite remote_versions_lookup by done.
  rewrite Hp, fmap_Some. unfold digest_of. rewrite list_elem_of_fmap.
  setoid_rewrite view_Some; [|done]. naive_solver.
Qed.

Lemma NoDup_delta_of d l : NoDup (map runtime_id l) → NoDup (map runtime_id (delta_of d l)).
Proof.
  intros Hnd. unfold delta_of. rewrite sort_by_hex_perm. by apply NoDup_ids_filter.
Qed.

Lemma elem_of_delta_of d l r :
  r ∈ delta_of d l ↔ r ∈ l ∧ ahead_of (remote_versions d) r = true.
Proof. unfold delta_of. rewrite sort_by_hex_perm, list_elem_of_filter. tauto. Qed.

(** Merging the delta is merging everything the sender knows. *)
Lemma newer_delta l0 l d i :
  NoDup (map runtime_id l0) → NoDup (map runtime_id l) → d ≡ₚ digest_of l0 →
  newer (view l0 i) (view (delta_of d l) i) = newer (view l0 i) (view l i).
Proof.
  intros Hnd0 Hnd Hd. pose proof (NoDup_delta_of d l Hnd) as Hndd.
  assert (∀ r, view (delta_of d l) i = Some r ↔
    view l i = Some r ∧ ahead_of (remote_versions d) r = true) as Hview.
  { intros r. rewrite !view_Some, elem_of_delta_of by done. tauto. }
  destruct (view l i) as [r|] eqn:Hl.
  - apply view_Some in Hl as [Hin Hi]; [|done].
    destruct (view (delta_of d l) i) as [r'|] eqn:Hdl.
    + by destruct (proj1 (Hview r') eq_refl) as [[= ->] _].
    + destruct (ahead_of (remote_versions d) r) eqn:Ha.
      { by specialize (proj2 (Hview r) (conj eq_refl Ha)). }
      unfold ahead_of in Ha. rewrite (remote_versions_digest l0), Hi in Ha by done.
      destruct (view l0 i) as [x|]; simpl in *; [|done]. by rewrite Ha.
  - destruct (view (delta_of d l) i) as [r'|] eqn:Hdl; [|done].
    by destruct (proj1 (Hview r') eq_refl) as [? _].
Qed.

(** Nothing is left to send to one who knows all of [l]. *)
Lemma delta_of_known l0 l d :
  NoDup (map runtime_id l0) → d ≡ₚ digest_of l0 →
  (∀ r, r ∈ l → ∃ x, view l0 (runtime_id r) = Some x ∧ (version r <= version x)%N) →
  delta_of d l = [].
Proof.
  intros Hnd Hd Hl. apply elem_of_nil_inv. intros r [Hr Ha]%elem_of_delta_of.
  destruct (Hl r Hr) as (x & Hx & Hv). unfold ahead_of in Ha.
  rewrite (remote_versions_digest l0), Hx in Ha by done. simpl in Ha.
  apply N.ltb_lt in Ha. lia.
Qed.

Lemma newer_version a b r :
  b = Some r → ∃ x, newer a b = Some x ∧ (version r <= version x)%N.
Proof.
  intros ->. destruct a as [x|]; simpl; [|by eexists].
  case_match eqn:E; eexists; (split; [done|]); [done|]. apply N.ltb_ge in E. lia.
Qed.

Lemma NoDup_values (m : gmap RuntimeId GossipRecord) :
  keyed m → NoDup (map runtime_id (map snd (hm_iter m))).
Proof.
  intros Hk. rewrite map_map.
  rewrite (map_ext_in _ fst), hm_iter_perm; [apply NoDup_fst_map_to_list|].
  intros [i r] Hin%list_elem_of_In. apply elem_of_hm_iter in Hin. simpl. by eapply Hk.
Qed.

(** ** The exchange between two scuttlebutt states *)

Lemma view_values (m : gmap RuntimeId GossipRecord) i :
  keyed m → view (map snd (hm_iter m)) i = m !! i.
Proof.
  intros Hk. apply option_eq. intros r.
  rewrite view_Some, elem_of_values by (done || by apply NoDup_values).
  split; [by intros [? <-]|]. intros Hr. by rewrite (Hk _ _ Hr).
Qed.

Lemma gossip_digest_perm s :
  entries_of (gossip_digest s) ≡ₚ digest_of (map snd (hm_iter (records s))).
Proof. simpl. rewrite sort_by_hex_perm. unfold digest_of. by rewrite map_map. Qed.

Lemma gossip_delta_for_eq d s :
  records_of (gossip_delta_for d s) = delta_of d (map snd (hm_iter (records s))).
Proof. done. Qed.

Lemma apply_delta_keyed rs s : keyed (records s) → keyed (records (apply_delta rs s).2).
Proof.
  revert s. induction rs as [|r rs IH]; intros s Hk; simpl; [done|].
  case_match; [|by apply IH].
  destruct (apply_delta rs _) as [ch s'] eqn:E. simpl.
  replace s' with (apply_delta rs {| records := <[runtime_id r:=r]> (records s) |}).2 by by rewrite E.
  apply IH. intros i r'. simpl. rewrite lookup_insert_Some. naive_solver.
Qed.

Lemma apply_delta_changed rs s i :
  NoDup (map runtime_id rs) →
  i ∈ (apply_delta rs s).1 ↔ records (apply_delta rs s).2 !! i ≠ records s !! i.
Proof.
  intros Hnd. rewrite apply_delta_lookup by done. revert s.
  induction rs as [|r rs IH]; intros s; unfold view; simpl.
  { destruct (records s !! i); set_solver. }
  apply NoDup_cons in Hnd as [Hr Hnd]. specialize (IH Hnd).
  assert (runtime_id r = i → list_find (λ r, runtime_id r = i) rs = None) as Hnone.
  { intros <-. apply list_find_None, Forall_forall. intros r' Hr' Heq.
    apply Hr. rewrite <-Heq. by apply list_elem_of_fmap_2. }
  unfold view in IH. set (b := match records s !! runtime_id r with Some _ => _ | None => _ end).
  destruct b eqn:Hb; subst b.
  - specialize (IH {| records := <[runtime_id r:=r]> (records s) |}).
    destruct (apply_delta rs _) as [ch s']. simpl in *. rewrite elem_of_cons, IH.
    case_decide as Hi.
    + rewrite Hi in *. split; [|auto]. intros _. simpl.
      destruct (records s !! i) as [x|]; simpl; [|done]. rewrite Hb.
      intros [= ->]. apply N.ltb_lt in Hb. lia.
    + rewrite lookup_insert_ne by done. destruct (list_find _ rs) as [[]|]; naive_solver.
  - rewrite IH. case_decide as Hi; [|by destruct (list_find _ rs) as [[]|]].
    rewrite Hnone, Hi in * by done. simpl.
    destruct (records s !! i) as [x|]; simpl in *; [by rewrite Hb|done].
Qed.
End lemmas.

(** A digest/delta exchange brings the receiver up to date: afterwards it
holds, for every runtime id, the newer of its own and the sender's record (its
own on a tie); the ids reported as changed are exactly those whose record is
different now; and nothing is left that the sender would send again. *)
Theorem delta_exchange_converges (HO : HashOrder) (HE : HexEncode) (a b : GossipState) :
  keyed (records a) → keyed (records b) →
  let '(changed, a') := apply_delta (records_of (gossip_delta_for (entries_of (gossip_digest a)) b)) a in
  (∀ i, records a' !! i = newer (records a !! i) (records b !! i))
  ∧ (∀ i, i ∈ changed ↔ records a' !! i ≠ records a !! i)
  ∧ keyed (records a')
  ∧ records_of (gossip_delta_for (entries_of (gossip_digest a')) b) = [].
Proof.
  intros Ha Hb. destruct (apply_delta _ _) as [changed a'] eqn:E.
  rewrite gossip_delta_for_eq in E. set (rs := delta_of _ _) in E.
  assert (NoDup (map runtime_id rs)) as Hnd by by apply NoDup_delta_of, NoDup_values.
  pose proof (apply_delta_changed rs a) as Hch. pose proof (apply_delta_keyed rs a Ha) as Hk.
  pose proof (λ i, apply_delta_lookup rs a i Hnd) as Hl. rewrite E in Hch, Hk, Hl. simpl in *.
  assert (∀ i, records a' !! i = newer (records a !! i) (records b !! i)) as Hnew.
  { intros i. rewrite Hl, <-(view_values (records a)), <-(view_values (records b)) by done.
    apply newer_delta; auto using NoDup_values. apply gossip_digest_perm. }
  split_and!; [done|by intros i; apply Hch|done|].
  change (delta_of (entries_of (gossip_digest a')) (map snd (hm_iter (records b))) = []).
  apply (delta_of_known (map snd (hm_iter (records a')))); auto using NoDup_values.
  { apply gossip_digest_perm. }
  intros r Hr. rewrite view_values, Hnew by done. apply elem_of_values in Hr; [|done].
  by apply newer_version.
Qed.

(** The documented encoding of the [hex] crate, for the witnesses. *)
Definition hex_digit (n : N) : ascii := ascii_of_N (if (n <? 10)%N then 48 + n else 87 + n).
Definition hex_crate : HexEncode := {|
  hex_encode := foldr (λ b s, String (hex_digit (b / 16)) (String (hex_digit (b mod 16)) s)) ""
|}.

Lemma delta_exchange_converges_witness :
  let HE := hex_crate in let HO := map_to_list_order in
  let a := {| records := {[ [1%N] := GossipRecord_new 5000000 [1%N] ["a"] 1 ]} |} in
  let b := {| records := {[ [1%N] := set_version 4 9 (GossipRecord_new 5000000 [1%N] ["a"] 1);
                            [2%N] := GossipRecord_new 7000000 [2%N] ["b"] 1 ]} |} in
  (apply_delta (records_of (gossip_delta_for (entries_of (gossip_digest a)) b)) a).1 = [[1%N]; [2%N]]
  ∧ let '(changed, a') := apply_delta (records_of (gossip_delta_for (entries_of (gossip_digest a)) b)) a in
    (∀ i, records a' !! i = newer (records a !! i) (records b !! i))
    ∧ (∀ i, i ∈ changed ↔ records a' !! i ≠ records a !! i)
    ∧ keyed (records a')
    ∧ records_of (gossip_delta_for (entries_of (gossip_digest a')) b) = [].
Proof.
  intros HE HO a b. split; [by vm_compute|].
  apply (delta_exchange_converges HO HE a b).
  - intros i r. subst a. simpl. rewrite lookup_singleton_Some. by intros [<- <-].
  - intros i r. subst b. simpl. rewrite lookup_insert_Some, lookup_singleton_Some.
    by intros [[<- <-]|[_ [<- <-]]].
Defined.
