(* ===== verification/Membership.v ===== *)
(** * Membership: the mesh's peer table

[crates/buzz-relay-mesh/src/membership.rs], with the attested seeds of
[registry.rs] and the status data of [status.rs].  The table is fed by ready
records scanned from the registry, admitted only when this deployment's relay
key attests them, and by the gossip records of connected peers.  The locks and
atomics of the source protect single reads and writes, so a
membership is a plain record here and every method one atomic step; the
registry's Redis calls are not modelled.  The control-stream loop of
[runtime.rs] is the handler of one gossip frame.  The signature, hash, hex and
postcard crates are the interface [MeshCrates]. *)
From Stdlib Require Import SpecFloat.
From S2P Require Import Prelude Gossip.

(** ** Attestation ([registry.rs]) *)

Definition ATTESTATION_CONTEXT : string := "buzz-relay-mesh-ready-v1".
Definition NEWLINE : string := String "010" "".

(** The crates the registry calls. *)
Class MeshCrates : Type := {
  mc_hex : HexEncode;
  mc_postcard : Postcard;
  Keys : Type;
  PubKey : Type;
  XOnly : Type;
  Sig : Type;
  keys_public_key : Keys → PubKey;
  pk_from_hex : string → result PubKey string;
  pk_to_hex : PubKey → string;
  pk_xonly : PubKey → result XOnly string;
  sig_from_str : string → result Sig string;
  sig_to_string : Sig → string;
  sha256 : string → list N;
  sign_schnorr : Keys → list N → Sig;
  verify_schnorr : Sig → list N → XOnly → result unit string
}.
#[export] Existing Instance mc_hex.
#[export] Existing Instance mc_postcard.

Record RuntimeAttestation : Type := mkAttestation { ra_relay_pubkey : string; ra_relay_sig : string }.

Record ReadyRecord : Type := mkReadyRecord {
  rr_runtime_id : RuntimeId;
  runtime_pubkey : string;
  relay_pubkey : string;
  relay_sig : string;
  rr_endpoint_addrs : list string;
  rr_proto_version : N;
  rr_capabilities : list string
}.

Section registry.
Context {MC : MeshCrates}.

Definition attestation_preimage (i : RuntimeId) (relay_pubkey : string) : string :=
  ATTESTATION_CONTEXT +:+ NEWLINE +:+ "runtime_pubkey=" +:+ to_hex i
  +:+ NEWLINE +:+ "relay_pubkey=" +:+ relay_pubkey.

Definition attestation_message (i : RuntimeId) (relay_pubkey : string) : list N :=
  sha256 (attestation_preimage i relay_pubkey).

Definition verify_attestation (i : RuntimeId) (relay_pubkey relay_sig : string) : result unit MeshError :=
  let? pk := map_err (λ err, Transport ("ready registry attestation invalid relay_pubkey: " +:+ err))
               (pk_from_hex relay_pubkey) in
  let? xonly := map_err (λ err, Transport
                  ("ready registry attestation relay_pubkey xonly conversion failed: " +:+ err))
                  (pk_xonly pk) in
  let? sig := map_err (λ err, Transport ("ready registry attestation invalid relay_sig: " +:+ err))
                (sig_from_str relay_sig) in
  let message := attestation_message i (pk_to_hex pk) in
  map_err (λ err, Transport ("ready registry attestation signature verification failed: " +:+ err))
    (verify_schnorr sig message xonly).

Definition RuntimeAttestation_new (relay_keys : Keys) (i : RuntimeId) : RuntimeAttestation :=
  let relay_pubkey := pk_to_hex (keys_public_key relay_keys) in
  let message := attestation_message i relay_pubkey in
  mkAttestation relay_pubkey (sig_to_string (sign_schnorr relay_keys message)).

Definition ReadyRecord_new (i : RuntimeId) (relay_keys : Keys) (endpoint_addrs : list string)
    (proto_version : N) (capabilities : list string) : ReadyRecord :=
  let attestation := RuntimeAttestation_new relay_keys i in
  mkReadyRecord i (to_hex i) (ra_relay_pubkey attestation) (ra_relay_sig attestation)
    endpoint_addrs proto_version capabilities.

Definition rr_verify_attestation (r : ReadyRecord) : result unit MeshError :=
  if decide (runtime_pubkey r = to_hex (rr_runtime_id r)) then
    verify_attestation (rr_runtime_id r) (relay_pubkey r) (relay_sig r)
  else
    Err (Transport ("ready registry runtime_id/runtime_pubkey mismatch: "
                    +:+ to_hex (rr_runtime_id r) +:+ " != " +:+ runtime_pubkey r)).
End registry.

(** ** The peer table *)

Inductive ConnectionState : Type := Disconnected | Connecting | Connected | Suspect.

Record MeshPeerCounters : Type := mkCounters {
  c_runtime_id : string;
  streams_opened : N;
  streams_received : N;
  datagrams_sent : N;
  datagrams_received : N;
  gossip_frames_sent : N;
  gossip_frames_received : N;
  c_stale_generation_rejections : N
}.

Record PeerState : Type := mkPeerState {
  ps_record : GossipRecord;
  ps_phi : PhiAccrual;
  ps_connection_state : ConnectionState;
  ps_counters : MeshPeerCounters
}.

Record MeshMembership : Type := mkMembership {
  local_runtime_id : RuntimeId;
  local_record : GossipRecord;
  peers : gmap RuntimeId PeerState;
  is_draining : bool;
  stale_generation_rejections : N;
  foreign_relay_rejections : N;
  expected_relay_pubkey : option string;
  phi_suspect_threshold : f64
}.

(** Field updates. *)
Definition set_peers x m := mkMembership (local_runtime_id m) (local_record m) x (is_draining m)
  (stale_generation_rejections m) (foreign_relay_rejections m) (expected_relay_pubkey m)
  (phi_suspect_threshold m).
Definition set_local x m := mkMembership (local_runtime_id m) x (peers m) (is_draining m)
  (stale_generation_rejections m) (foreign_relay_rejections m) (expected_relay_pubkey m)
  (phi_suspect_threshold m).
Definition set_draining x m := mkMembership (local_runtime_id m) (local_record m) (peers m) x
  (stale_generation_rejections m) (foreign_relay_rejections m) (expected_relay_pubkey m)
  (phi_suspect_threshold m).
Definition set_rejections st fo m := mkMembership (local_runtime_id m) (local_record m) (peers m)
  (is_draining m) st fo (expected_relay_pubkey m) (phi_suspect_threshold m).

(** [AtomicU64::fetch_add(1)], which wraps. *)
Definition fetch_add_1 (n : N) : N := (n + 1) mod 18446744073709551616.

Definition DEFAULT_PHI_SUSPECT_THRESHOLD : f64 := S754_finite false 4503599627370496 (-49).

Definition MeshMembership_new (loc : GossipRecord) : MeshMembership :=
  mkMembership (runtime_id loc) loc ∅ false 0 0 None DEFAULT_PHI_SUSPECT_THRESHOLD.

Definition with_expected_relay_pubkey (pubkey_hex : string) (m : MeshMembership) : MeshMembership :=
  mkMembership (local_runtime_id m) (local_record m) (peers m) (is_draining m)
    (stale_generation_rejections m) (foreign_relay_rejections m) (Some pubkey_hex)
    (phi_suspect_threshold m).

Definition with_phi_suspect_threshold (threshold : f64) (m : MeshMembership) : MeshMembership :=
  mkMembership (local_runtime_id m) (local_record m) (peers m) (is_draining m)
    (stale_generation_rejections m) (foreign_relay_rejections m) (expected_relay_pubkey m) threshold.

Section membership.
Context {HO : HashOrder} {MC : MeshCrates}.

Definition apply_gossip_record (r : GossipRecord) (m : MeshMembership) : bool * MeshMembership :=
  if decide (runtime_id r = local_runtime_id m) then (false, m)
  else
    let heartbeat := system_time_from_millis (heartbeat_millis r) in
    match peers m !! runtime_id r with
    | Some peer =>
        if (version r <=? version (ps_record peer))%N then (false, m)
        else
          let peer := mkPeerState r (observe heartbeat (ps_phi peer)) Connected (ps_counters peer) in
          (true, set_peers (<[runtime_id r := peer]> (peers m)) m)
    | None =>
        let phi := observe heartbeat PhiAccrual_default in
        let peer := mkPeerState r phi Connected (mkCounters (to_hex (runtime_id r)) 0 0 0 0 0 0 0) in
        (true, set_peers (<[runtime_id r := peer]> (peers m)) m)
    end.

(** The body of the loop over the ready records; [now] is the clock reading
the record's conversion takes. *)
Definition apply_ready_record (now : N) (ready : ReadyRecord) (m : MeshMembership) : MeshMembership :=
  if decide (rr_runtime_id ready = local_runtime_id m) then m
  else if decide (expected_relay_pubkey m = Some (relay_pubkey ready)) then
    match rr_verify_attestation ready with
    | Err _ => m
    | Ok _ =>
        let r := GossipRecord_new now (rr_runtime_id ready) (rr_endpoint_addrs ready)
                   (rr_proto_version ready) in
        let r := mkGossipRecord (runtime_id r) (endpoint_addrs r) (proto_version r) (load r)
                   (draining r) (rr_capabilities ready) (version r) (heartbeat_millis r) in
        (apply_gossip_record r m).2
    end
  else set_rejections (stale_generation_rejections m) (fetch_add_1 (foreign_relay_rejections m)) m.

Definition apply_ready_records (rs : list (N * ReadyRecord)) (m : MeshMembership) : MeshMembership :=
  foldl (λ m nr, apply_ready_record nr.1 nr.2 m) m rs.

Definition mark_connection_state (i : RuntimeId) (st : ConnectionState) (m : MeshMembership)
  : MeshMembership :=
  match peers m !! i with
  | Some p => set_peers (<[i := mkPeerState (ps_record p) (ps_phi p) st (ps_counters p)]> (peers m)) m
  | None => m
  end.

Definition update_local (now : N) (update : GossipRecord → GossipRecord) (m : MeshMembership)
  : GossipRecord * MeshMembership :=
  let loc := update (local_record m) in
  let loc := set_version (saturating_add (version loc) 1) (now_millis now) loc in
  (loc, set_local loc m).

Definition has_peer (i : RuntimeId) (m : MeshMembership) : bool := bool_decide (is_Some (peers m !! i)).

(** [RelayMeshMembership::begin_drain]. *)
Definition drain_record (r : GossipRecord) : GossipRecord :=
  mkGossipRecord (runtime_id r) (endpoint_addrs r) (proto_version r) (load r) true
    (capabilities r) (version r) (heartbeat_millis r).

Definition begin_drain (now : N) (m : MeshMembership) : MeshMembership :=
  (update_local now drain_record (set_draining true m)).2.

Definition records (m : MeshMembership) : list GossipRecord :=
  map (λ kp, ps_record kp.2) (hm_iter (peers m)) ++ [local_record m].

Definition digest (m : MeshMembership) : GossipMessage :=
  Digest GOSSIP_PAYLOAD_VERSION
    (sort_by_hex de_runtime_id (map (λ r, mkDigestEntry (runtime_id r) (version r)) (records m))).

Definition delta_for (d : list GossipDigestEntry) (m : MeshMembership) : GossipMessage :=
  Delta GOSSIP_PAYLOAD_VERSION
    (sort_by_hex runtime_id (filter (λ r, ahead_of (remote_versions d) r = true) (records m))).

(** ** Counters and status *)

Definition update_peer_counters (i : RuntimeId) (update : MeshPeerCounters → MeshPeerCounters)
    (m : MeshMembership) : MeshMembership :=
  match peers m !! i with
  | Some p =>
      set_peers (<[i := mkPeerState (ps_record p) (ps_phi p) (ps_connection_state p)
                          (update (ps_counters p))]> (peers m)) m
  | None => m
  end.

Definition record_stream_opened (i : RuntimeId) := update_peer_counters i (λ c,
  mkCounters (c_runtime_id c) (saturating_add (streams_opened c) 1) (streams_received c)
    (datagrams_sent c) (datagrams_received c) (gossip_frames_sent c) (gossip_frames_received c)
    (c_stale_generation_rejections c)).
Definition record_stream_received (i : RuntimeId) := update_peer_counters i (λ c,
  mkCounters (c_runtime_id c) (streams_opened c) (saturating_add (streams_received c) 1)
    (datagrams_sent c) (datagrams_received c) (gossip_frames_sent c) (gossip_frames_received c)
    (c_stale_generation_rejections c)).
Definition record_datagram_sent (i : RuntimeId) := update_peer_counters i (λ c,
  mkCounters (c_runtime_id c) (streams_opened c) (streams_received c)
    (saturating_add (datagrams_sent c) 1) (datagrams_received c) (gossip_frames_sent c)
    (gossip_frames_received c) (c_stale_generation_rejections c)).
Definition record_datagram_received (i : RuntimeId) := update_peer_counters i (λ c,
  mkCounters (c_runtime_id c) (streams_opened c) (streams_received c)
    (datagrams_sent c) (saturating_add (datagrams_received c) 1) (gossip_frames_sent c)
    (gossip_frames_received c) (c_stale_generation_rejections c)).
Definition record_gossip_frame_sent (i : RuntimeId) := update_peer_counters i (λ c,
  mkCounters (c_runtime_id c) (streams_opened c) (streams_received c)
    (datagrams_sent c) (datagrams_received c) (saturating_add (gossip_frames_sent c) 1)
    (gossip_frames_received c) (c_stale_generation_rejections c)).
Definition record_gossip_frame_received (i : RuntimeId) := update_peer_counters i (λ c,
  mkCounters (c_runtime_id c) (streams_opened c) (streams_received c)
    (datagrams_sent c) (datagrams_received c) (gossip_frames_sent c)
    (saturating_add (gossip_frames_received c) 1) (c_stale_generation_rejections c)).

Definition record_stale_generation_rejection (i : option RuntimeId) (m : MeshMembership)
  : MeshMembership :=
  let m := set_rejections (fetch_add_1 (stale_generation_rejections m)) (foreign_relay_rejections m) m in
  match i with
  | Some i => update_peer_counters i (λ c,
      mkCounters (c_runtime_id c) (streams_opened c) (streams_received c) (datagrams_sent c)
        (datagrams_received c) (gossip_frames_sent c) (gossip_frames_received c)
        (saturating_add (c_stale_generation_rejections c) 1)) m
  | None => m
  end.

(** [phi.is_some_and(|p| p >= self.phi_suspect_threshold)]. *)
Definition suspected (now : N) (m : MeshMembership) (p : PeerState) : bool :=
  match phi_at now (ps_phi p) with
  | Some phi => SFleb (phi_suspect_threshold m) phi
  | None => false
  end.

Record PeerInfo : Type := mkPeerInfo {
  pi_runtime_id : RuntimeId;
  pi_draining : bool;
  pi_phi : option f64;
  pi_load : N
}.

(** [RelayMeshMembership::peers]. *)
Definition live_peers (now : N) (m : MeshMembership) : list PeerInfo :=
  omap (λ kp,
    if suspected now m kp.2 then None
    else Some (mkPeerInfo (runtime_id (ps_record kp.2)) (draining (ps_record kp.2))
                 (phi_at now (ps_phi kp.2)) (load (ps_record kp.2))))
    (hm_iter (peers m)).

Record MeshPeerStatus : Type := mkPeerStatus {
  st_runtime_id : string;
  st_endpoint_addrs : list string;
  st_proto_version : N;
  st_draining : bool;
  st_connection_state : ConnectionState;
  st_phi : option f64;
  st_load : N;
  st_record_version : N;
  st_last_heartbeat_millis : N;
  st_counters : MeshPeerCounters
}.

Definition peer_statuses (now : N) (m : MeshMembership) : list MeshPeerStatus :=
  map (λ kp, let p := kp.2 in
    mkPeerStatus (to_hex (runtime_id (ps_record p))) (endpoint_addrs (ps_record p))
      (proto_version (ps_record p)) (draining (ps_record p))
      (if suspected now m p then Suspect else ps_connection_state p)
      (phi_at now (ps_phi p)) (load (ps_record p)) (version (ps_record p))
      (heartbeat_millis (ps_record p)) (ps_counters p))
    (hm_iter (peers m)).

Record MeshStatus : Type := mkStatus {
  st_enabled : bool;
  st_local_runtime_id : string;
  st_is_draining : bool;
  st_peer_count : nat;
  st_peers : list MeshPeerStatus;
  st_stale_generation_rejections : N;
  st_foreign_relay_rejections : N;
  st_peer_counters : list MeshPeerCounters
}.

Definition status (now : N) (m : MeshMembership) : MeshStatus :=
  let ps := sort_by_string st_runtime_id (peer_statuses now m) in
  mkStatus true (to_hex (runtime_id (local_record m))) (is_draining m) (length ps) ps
    (stale_generation_rejections m) (foreign_relay_rejections m) (map st_counters ps).

(** ** The control stream ([runtime.rs], [control_stream_exchange])

One decoded gossip message: a digest is answered with a delta, a delta is
applied record by record. *)
Definition handle_gossip_message (msg : GossipMessage) (m : MeshMembership)
  : option GossipMessage * MeshMembership :=
  match msg with
  | Digest _ entries => (Some (delta_for entries m), m)
  | Delta _ rs => (None, foldl (λ m r, (apply_gossip_record r m).2) m rs)
  end.

(** One gossip frame from [remote], and the payload sent back. *)
Definition handle_gossip_frame (remote : RuntimeId) (payload : list N) (m : MeshMembership)
  : option (list N) * MeshMembership :=
  let m := record_gossip_frame_received remote m in
  match decode_message payload with
  | Ok msg =>
      let '(reply, m) := handle_gossip_message msg m in
      (match reply with
       | Some reply => match encode_message reply with Ok bytes => Some bytes | Err _ => None end
       | None => None
       end, m)
  | Err _ => (None, m)
  end.

(** The records [reconcile_once] dials, [loc] being the endpoint's own id. *)
Definition dial_candidates (loc : RuntimeId) (m : MeshMembership) : list GossipRecord :=
  filter (λ r, runtime_id r ≠ loc ∧ draining r = false) (records m).

(** One round of [gossip_tick_loop]: heartbeat, then a digest for every peer. *)
Definition gossip_tick (now : N) (m : MeshMembership) : GossipMessage * MeshMembership :=
  let m := (update_local now (λ r, r) m).2 in
  (digest m, m).
End membership.
