(* ===== verification/MembershipProps.v ===== *)
(** * Membership: what the peer table promises

A table is compared with the scuttlebutt state of [Gossip]; a network of
tables exchanging messages that may be delayed, lost, reordered and repeated
is a step relation. *)
From S2P Require Import Prelude Text Gossip Membership.

(** The peer part of the table, as a scuttlebutt state. *)
Definition peer_records (m : MeshMembership) : gmap RuntimeId GossipRecord := ps_record <$> peers m.

(** What the table knows of a runtime. *)
Definition known (m : MeshMembership) (i : RuntimeId) : option GossipRecord :=
  if decide (i = local_runtime_id m) then Some (local_record m) else peer_records m !! i.

(** The table's own record is filed apart from the peers'. *)
Record table_wf (m : MeshMembership) : Prop := {
  tw_local : runtime_id (local_record m) = local_runtime_id m;
  tw_keyed : keyed (peer_records m);
  tw_self : peer_records m !! local_runtime_id m = None
}.

Definition apply_all {MC : MeshCrates} (rs : list GossipRecord) (m : MeshMembership) : MeshMembership :=
  foldl (λ m r, (apply_gossip_record r m).2) m rs.

(** ** A network of tables

[soup] holds every message ever sent: delivering one does not consume it, so
messages may be lost, delayed, reordered and repeated. *)
Record network : Type := mkNetwork {
  nodes : gmap RuntimeId MeshMembership;
  soup : list GossipMessage
}.

(** A record some table or message of the network holds. *)
Definition holds (n : network) (r : GossipRecord) : Prop :=
  (∃ msg, msg ∈ soup n ∧ r ∈ records_of msg)
  ∨ ∃ i m, nodes n !! i = Some m ∧ (local_record m = r ∨ ∃ k, peer_records m !! k = Some r).

Section network.
Context {HO : HashOrder} {MC : MeshCrates}.

(** The relay starts with a record made by [GossipRecord::new]; runtime ids
are boot-unique. *)
Definition initial (n : network) : Prop :=
  soup n = [] ∧ ∀ i m, nodes n !! i = Some m →
    ∃ now addrs v, local_runtime_id m = i ∧ peers m = ∅
      ∧ local_record m = GossipRecord_new now i addrs v.

(** Steps; the version counter is assumed not to have reached its maximum. *)
Inductive net_step (n : network) : network → Prop :=
| step_tick i m now :
    nodes n !! i = Some m → (version (local_record m) < U64_MAX)%N →
    net_step n (mkNetwork (<[i := (gossip_tick now m).2]> (nodes n))
                  ((gossip_tick now m).1 :: soup n))
| step_drain i m now :
    nodes n !! i = Some m → (version (local_record m) < U64_MAX)%N →
    net_step n (mkNetwork (<[i := begin_drain now m]> (nodes n)) (soup n))
| step_deliver i m msg reply m' :
    nodes n !! i = Some m → msg ∈ soup n → handle_gossip_message msg m = (reply, m') →
    net_step n (mkNetwork (<[i := m']> (nodes n))
                  (match reply with Some r => r :: soup n | None => soup n end))
| step_seed i m rs :
    nodes n !! i = Some m →
    net_step n (mkNetwork (<[i := apply_ready_records rs m]> (nodes n)) (soup n))
| step_mark i m k st :
    nodes n !! i = Some m →
    net_step n (mkNetwork (<[i := mark_connection_state k st m]> (nodes n)) (soup n))
| step_count i m k f :
    nodes n !! i = Some m →
    net_step n (mkNetwork (<[i := update_peer_counters k f m]> (nodes n)) (soup n)).

Inductive net_reachable : network → Prop :=
| net_initial n : initial n → net_reachable n
| net_next n n' : net_reachable n → net_step n n' → net_reachable n'.

(** ** A table refines the scuttlebutt state *)

Lemma known_self m : known m (local_runtime_id m) = Some (local_record m).
Proof. unfold known. by case_decide. Qed.

Lemma known_peer m i : i ≠ local_runtime_id m → known m i = peer_records m !! i.
Proof. intros. unfold known. by case_decide. Qed.

Lemma peer_records_set x m : peer_records (set_peers x m) = ps_record <$> x.
Proof. done. Qed.

Lemma peer_records_same m i p p' :
  peers m !! i = Some p → ps_record p' = ps_record p →
  peer_records (set_peers (<[i := p']> (peers m)) m) = peer_records m.
Proof.
  intros Hp Heq. rewrite peer_records_set. unfold peer_records.
  rewrite fmap_insert, Heq. apply insert_id. by rewrite lookup_fmap, Hp.
Qed.

Lemma apply_gossip_record_local r m :
  local_record (apply_gossip_record r m).2 = local_record m
  ∧ local_runtime_id (apply_gossip_record r m).2 = local_runtime_id m.
Proof. unfold apply_gossip_record. by repeat case_match. Qed.

Lemma apply_gossip_record_records r m :
  peer_records (apply_gossip_record r m).2
  = if decide (runtime_id r = local_runtime_id m) then peer_records m
    else Gossip.records (apply_delta [r] {| Gossip.records := peer_records m |}).2.
Proof.
  unfold apply_gossip_record. case_decide; [done|]. simpl.
  unfold peer_records at 2. rewrite lookup_fmap.
  destruct (peers m !! runtime_id r) as [p|] eqn:Hp; simpl.
  - rewrite N.ltb_antisym. destruct (version r <=? version (ps_record p))%N; simpl; [done|].
    by rewrite peer_records_set, fmap_insert.
  - by rewrite peer_records_set, fmap_insert.
Qed.

Lemma apply_delta_cons r rs s :
  (apply_delta (r :: rs) s).2 = (apply_delta rs (apply_delta [r] s).2).2.
Proof.
  simpl. set (b := match Gossip.records s !! runtime_id r with Some _ => _ | None => _ end).
  destruct b; simpl; [|done]. by destruct (apply_delta rs _).
Qed.

Lemma apply_all_refines rs m :
  local_record (apply_all rs m) = local_record m
  ∧ local_runtime_id (apply_all rs m) = local_runtime_id m
  ∧ peer_records (apply_all rs m)
    = Gossip.records (apply_delta (filter (λ r, runtime_id r ≠ local_runtime_id m) rs)
                        {| Gossip.records := peer_records m |}).2.
Proof.
  revert m. induction rs as [|r rs IH]; intros m; [done|]. cbn [apply_all foldl].
  destruct (apply_gossip_record_local r m) as [Hl Hi].
  destruct (IH (apply_gossip_record r m).2) as (IHl & IHi & IHp).
  split_and!; [by rewrite <-Hl|by rewrite <-Hi|].
  fold (apply_all rs (apply_gossip_record r m).2). rewrite IHp, Hi, filter_cons.
  rewrite apply_gossip_record_records. case_decide as Hr.
  - by rewrite decide_False by tauto.
  - rewrite decide_True by done. rewrite (apply_delta_cons r (filter _ rs)). by destruct (apply_delta [r] _).2.
Qed.

(** ** What a table knows, and how an exchange changes it *)

Lemma records_perm m :
  records m ≡ₚ map snd (hm_iter (peer_records m)) ++ [local_record m].
Proof.
  unfold records. apply Permutation_app_tail. rewrite !hm_iter_perm. unfold peer_records.
  rewrite map_to_list_fmap, map_map. apply Permutation_map'. done.
Qed.

Lemma NoDup_records m : table_wf m → NoDup (map runtime_id (records m)).
Proof.
  intros [Hl Hk Hs]. rewrite records_perm, map_app, NoDup_app. split_and!.
  - by apply NoDup_values.
  - intros i (r & -> & Hr)%list_elem_of_fmap Hi. apply list_elem_of_singleton in Hi.
    apply elem_of_values in Hr; [|done]. congruence.
  - apply NoDup_singleton.
Qed.

Lemma view_records m i : table_wf m → view (records m) i = known m i.
Proof.
  intros Hwf. pose proof (NoDup_records m Hwf) as Hnd. destruct Hwf as [Hl Hk Hs].
  apply option_eq. intros r. rewrite view_Some, records_perm, elem_of_app by done.
  rewrite elem_of_values, list_elem_of_singleton by done. unfold known. case_decide as Hi.
  - split; [|intros [= <-]; split; [by right|congruence]].
    intros [[Hr|Hr] <-]; congruence.
  - split; [intros [[Hr|Hr] <-]; [done|congruence]|].
    intros Hr. pose proof (Hk _ _ Hr) as Hri. rewrite Hri. auto.
Qed.

Lemma view_filter_ne rs i j :
  NoDup (map runtime_id rs) → i ≠ j →
  view (filter (λ r, runtime_id r ≠ j) rs) i = view rs i.
Proof.
  intros Hnd Hij. apply option_eq. intros r.
  rewrite !view_Some, list_elem_of_filter by auto using NoDup_ids_filter. naive_solver.
Qed.

Lemma known_apply_all rs m i :
  NoDup (map runtime_id rs) →
  known (apply_all rs m) i
  = if decide (i = local_runtime_id m) then Some (local_record m)
    else newer (peer_records m !! i) (view rs i).
Proof.
  intros Hnd. destruct (apply_all_refines rs m) as (Hl & Hi & Hp).
  unfold known. rewrite Hi, Hl, Hp. case_decide; [done|].
  rewrite apply_delta_lookup by by apply NoDup_ids_filter. simpl.
  by rewrite view_filter_ne.
Qed.

Lemma digest_perm m : entries_of (digest m) ≡ₚ digest_of (records m).
Proof. simpl. apply sort_by_hex_perm. Qed.

Lemma delta_for_eq d m : records_of (delta_for d m) = delta_of d (records m).
Proof. done. Qed.

(** [a] sends its digest to [b] and applies [b]'s answer. *)
Definition sync (a b : MeshMembership) : MeshMembership :=
  match handle_gossip_message (digest a) b with
  | (Some reply, _) => (handle_gossip_message reply a).2
  | (None, _) => a
  end.

Lemma sync_eq a b : sync a b = apply_all (delta_of (entries_of (digest a)) (records b)) a.
Proof. done. Qed.

Lemma known_sync a b i :
  table_wf a → table_wf b →
  known (sync a b) i
  = if decide (i = local_runtime_id a) then known a i else newer (known a i) (known b i).
Proof.
  intros Ha Hb. rewrite sync_eq, known_apply_all by by apply NoDup_delta_of, NoDup_records.
  case_decide as Hi; [by rewrite Hi, known_self|].
  rewrite <-known_peer by done. rewrite <-!view_records by done.
  apply newer_delta; auto using NoDup_records. apply digest_perm.
Qed.

(** ** Steps of one table

Every call but the owner's update leaves the own record alone and keeps or
replaces peer records; [P] is where the new ones come from. *)
Record evolves (P : GossipRecord → Prop) (m m' : MeshMembership) : Prop := {
  ev_id : local_runtime_id m' = local_runtime_id m;
  ev_local : local_record m' = local_record m;
  ev_keyed : keyed (peer_records m) → keyed (peer_records m');
  ev_self : peer_records m !! local_runtime_id m = None →
            peer_records m' !! local_runtime_id m = None;
  ev_from : ∀ k r, peer_records m' !! k = Some r → peer_records m !! k = Some r ∨ P r;
  ev_mono : ∀ k r, peer_records m !! k = Some r →
            ∃ r', peer_records m' !! k = Some r' ∧ (version r <= version r')%N
}.

Lemma evolves_wf P m m' : evolves P m m' → table_wf m → table_wf m'.
Proof.
  intros [Hi Hl Hk Hs _ _] [Tl Tk Ts]. split; [congruence|auto|]. rewrite Hi. auto.
Qed.

Lemma evolves_same P m m' :
  local_runtime_id m' = local_runtime_id m → local_record m' = local_record m →
  peer_records m' = peer_records m → evolves P m m'.
Proof. intros Hi Hl Hp. split; rewrite ?Hp; auto. intros k r Hr. by exists r. Qed.

Lemma evolves_trans P m1 m2 m3 : evolves P m1 m2 → evolves P m2 m3 → evolves P m1 m3.
Proof.
  intros [Hi Hl Hk Hs Hf Hm] [Hi' Hl' Hk' Hs' Hf' Hm']. split; [congruence..| | | |].
  - auto.
  - intros Hn. rewrite <-Hi. apply Hs'. rewrite Hi. auto.
  - intros k r [Hr|Hr]%Hf'; [auto|by right].
  - intros k r (r' & Hr' & Hle)%Hm. destruct (Hm' k r' Hr') as (r'' & ? & ?). exists r''.
    split; [done|lia].
Qed.

Lemma evolves_apply (P : GossipRecord → Prop) r m :
  P r → evolves P m (apply_gossip_record r m).2.
Proof.
  intros HP. destruct (apply_gossip_record_local r m) as [Hl Hi].
  pose proof (apply_gossip_record_records r m) as Hp. case_decide as Hr.
  { by apply evolves_same. }
  simpl in Hp. set (b := match peer_records m !! runtime_id r with Some _ => _ | None => _ end) in Hp.
  destruct b eqn:Hb; simpl in Hp; [|by apply evolves_same].
  split; rewrite ?Hp; try done.
  - intros Hk i x. rewrite lookup_insert_Some. naive_solver.
  - intros Hs. by rewrite lookup_insert_ne.
  - intros k x. rewrite lookup_insert_Some. naive_solver.
  - intros k x Hx. destruct (decide (runtime_id r = k)) as [<-|Hne].
    + exists r. rewrite lookup_insert_eq. split; [done|]. subst b. rewrite Hx in Hb.
      apply N.ltb_lt in Hb. lia.
    + exists x. by rewrite lookup_insert_ne.
Qed.

Lemma evolves_apply_all rs m : evolves (λ r, r ∈ rs) m (apply_all rs m).
Proof.
  assert (∀ l, l ⊆ rs → evolves (λ r, r ∈ rs) m (apply_all l m)) as H; [|by apply H].
  intros l. revert m. induction l as [|r l IH]; intros m Hl; [by apply evolves_same|].
  cbn [apply_all foldl]. eapply evolves_trans; [apply (evolves_apply _ r)|apply IH]; set_solver.
Qed.

Lemma evolves_ready now ready m :
  evolves (λ r, version r = 1%N) m (apply_ready_record now ready m).
Proof.
  unfold apply_ready_record. repeat case_match; try by apply evolves_same.
  by apply evolves_apply.
Qed.

Lemma evolves_ready_all rs m : evolves (λ r, version r = 1%N) m (apply_ready_records rs m).
Proof.
  revert m. induction rs as [|x rs IH]; intros m; [by apply evolves_same|].
  cbn [apply_ready_records foldl]. eapply evolves_trans; [apply evolves_ready|apply IH].
Qed.

Lemma evolves_mark P k st m : evolves P m (mark_connection_state k st m).
Proof.
  unfold mark_connection_state. destruct (peers m !! k) eqn:E; [|by apply evolves_same].
  apply evolves_same; [done..|]. by eapply peer_records_same.
Qed.

Lemma evolves_count P k f m : evolves P m (update_peer_counters k f m).
Proof.
  unfold update_peer_counters. destruct (peers m !! k) eqn:E; [|by apply evolves_same].
  apply evolves_same; [done..|]. by eapply peer_records_same.
Qed.

(** What [m'] knows is at least as new as what [m] knows. *)
Definition knows_no_less (m m' : MeshMembership) : Prop :=
  ∀ k r, known m k = Some r → ∃ r', known m' k = Some r' ∧ (version r <= version r')%N.

Lemma evolves_knows P m m' : evolves P m m' → knows_no_less m m'.
Proof.
  intros [Hi Hl _ _ _ Hm] k r. unfold known. rewrite Hi, Hl. case_decide; [|apply Hm].
  intros [= <-]. by eexists.
Qed.

Lemma update_knows now f b m :
  (version (local_record m) < U64_MAX)%N → version (f (local_record m)) = version (local_record m) →
  knows_no_less m (update_local now f (set_draining b m)).2.
Proof.
  intros Hmax Hf k r. unfold known, update_local, saturating_add. simpl. rewrite Hf. case_decide.
  - intros [= <-]. eexists. split; [done|]. simpl. lia.
  - intros Hr. by exists r.
Qed.

Lemma step_knows_no_less n n' i a :
  net_step n n' → nodes n !! i = Some a → ∃ a', nodes n' !! i = Some a' ∧ knows_no_less a a'.
Proof.
  intros Hstep Ha.
  assert (∀ x, knows_no_less x x) as Hrefl by (intros x k r Hr; by exists r).
  assert (∀ j m m' sp, nodes n !! j = Some m → knows_no_less m m' →
    ∃ a', nodes (mkNetwork (<[j := m']> (nodes n)) sp) !! i = Some a' ∧ knows_no_less a a') as H.
  { intros j m m' sp Hm Hk. simpl. destruct (decide (j = i)) as [->|].
    - rewrite lookup_insert_eq. exists m'. split; [done|]. by simplify_eq.
    - rewrite lookup_insert_ne by done. eauto. }
  destruct Hstep as [j m now Hm Hmax|j m now Hm Hmax|j m msg reply m' Hm Hmsg Hh|j m rs Hm
                    |j m k st Hm|j m k f Hm]; apply (H _ m); try done.
  - assert (set_draining (is_draining m) m = m) as Heq by by destruct m.
    pose proof (update_knows now (λ r, r) (is_draining m) m Hmax eq_refl) as Hk.
    by rewrite Heq in Hk.
  - by apply (update_knows now drain_record true m).
  - destruct msg; injection Hh as <- <-; [apply Hrefl|]. eapply evolves_knows, evolves_apply_all.
  - eapply evolves_knows, evolves_ready_all.
  - apply (evolves_knows (λ _, False)), evolves_mark.
  - apply (evolves_knows (λ _, False)), evolves_count.
Qed.

(** ** The invariant of the network *)

Record net_ok (n : network) : Prop := {
  no_table : ∀ i m, nodes n !! i = Some m →
    table_wf m ∧ local_runtime_id m = i ∧ (1 <= version (local_record m))%N;
  no_owner : ∀ r, holds n r →
    match nodes n !! runtime_id r with
    | Some m => (version r <= version (local_record m))%N
    | None => version r = 1%N
    end;
  no_same : ∀ r1 r2, holds n r1 → holds n r2 → runtime_id r1 = runtime_id r2 →
    version r1 = version r2 → (2 <= version r1)%N → r1 = r2
}.

Lemma holds_local n i m : nodes n !! i = Some m → holds n (local_record m).
Proof. right. exists i, m. auto. Qed.

Lemma holds_peer n i m k r : nodes n !! i = Some m → peer_records m !! k = Some r → holds n r.
Proof. right. exists i, m. eauto. Qed.

(** One node changes; what is new is a seed or the node's own next record. *)
Lemma net_ok_step n i m m' sp :
  net_ok n → nodes n !! i = Some m → table_wf m' → local_runtime_id m' = i →
  (local_record m' = local_record m
   ∨ version (local_record m') = (version (local_record m) + 1)%N) →
  (∀ r, holds (mkNetwork (<[i := m']> (nodes n)) sp) r →
     holds n r ∨ version r = 1%N ∨ r = local_record m') →
  net_ok (mkNetwork (<[i := m']> (nodes n)) sp).
Proof.
  intros [Ht Ho Hs] Hm Hwf' Hid Hloc Hnew. destruct (Ht _ _ Hm) as (Hwf & _ & H1).
  assert (version (local_record m) <= version (local_record m'))%N as Hle.
  { destruct Hloc as [->| ->]; lia. }
  split; simpl.
  - intros j x. rewrite lookup_insert_Some. intros [[<- <-]|[_ Hx]]; [|by apply Ht].
    split_and!; [done|done|lia].
  - intros r Hr. specialize (Hnew r Hr) as [Hr'|[Hr'|Hr']].
    + specialize (Ho r Hr'). destruct (decide (runtime_id r = i)) as [Hri|Hne].
      * rewrite Hri, lookup_insert_eq. rewrite Hri, Hm in Ho. lia.
      * by rewrite lookup_insert_ne.
    + destruct (decide (runtime_id r = i)) as [Hri|Hne].
      * rewrite Hri, lookup_insert_eq. lia.
      * rewrite lookup_insert_ne by done. destruct (nodes n !! runtime_id r) eqn:E; [|done].
        destruct (Ht _ _ E) as (_ & _ & ?). lia.
    + rewrite Hr', (tw_local _ Hwf'), Hid, lookup_insert_eq. done.
  - assert (∀ r, holds n r → runtime_id r = i → (2 <= version r)%N →
      version r = version (local_record m') → r = local_record m') as Hloc'.
    { intros r Hr Hri H2 Hv. specialize (Ho r Hr). rewrite Hri, Hm in Ho.
      destruct Hloc as [Heq|Heq]; [|lia]. rewrite Heq in *.
      apply Hs; try done; [by eapply holds_local|].
      by rewrite Hri, <-Heq, (tw_local _ Hwf'). }
    pose proof (tw_local _ Hwf') as Hli. rewrite Hid in Hli.
    intros r1 r2 Hr1 Hr2 Hi Hv H2.
    destruct (Hnew r1 Hr1) as [Hr1'|[Hr1'| ->]]; [|lia|];
      destruct (Hnew r2 Hr2) as [Hr2'|[Hr2'| ->]]; try lia.
    + by apply Hs.
    + apply Hloc'; congruence.
    + symmetry. apply Hloc'; [done|congruence|by rewrite <-Hv|done].
    + done.
Qed.

Lemma holds_node n i m' sp r :
  holds (mkNetwork (<[i := m']> (nodes n)) sp) r →
  (∃ msg, msg ∈ sp ∧ r ∈ records_of msg) ∨ holds n r
  ∨ r = local_record m' ∨ ∃ k, peer_records m' !! k = Some r.
Proof.
  intros [?|(j & x & Hx & Hr)]; [by left|right]. simpl in Hx.
  apply lookup_insert_Some in Hx as [[<- <-]|[_ Hx]].
  - right. destruct Hr as [<-|?]; auto.
  - left. right. exists j, x. auto.
Qed.

(** Steps that leave the own record alone. *)
Lemma net_ok_evolves P n i m m' sp :
  net_ok n → nodes n !! i = Some m → evolves P m m' →
  (∀ msg, msg ∈ sp → msg ∈ soup n ∨ ∀ r, r ∈ records_of msg → holds n r) →
  (∀ r, P r → holds n r ∨ version r = 1%N) →
  net_ok (mkNetwork (<[i := m']> (nodes n)) sp).
Proof.
  intros Hok Hm Hev Hsp HP. destruct (no_table _ Hok _ _ Hm) as (Hwf & Hid & H1).
  pose proof (evolves_wf _ _ _ Hev Hwf) as Hwf'. destruct Hev as [Hi Hl _ _ Hf _].
  apply (net_ok_step n i m); auto; [congruence|].
  intros r [(msg & Hin & Hr)|[?|[?|[k Hk]]]]%holds_node; auto.
  - left. destruct (Hsp _ Hin) as [Hold|Hold]; [|auto]. left. eauto.
  - destruct (Hf _ _ Hk) as [Hk'|?]; [left; by eapply holds_peer|]. naive_solver.
Qed.

(** Steps of the owner on its own record. *)
Lemma net_ok_update n i m m' now f b sp :
  net_ok n → nodes n !! i = Some m → (version (local_record m) < U64_MAX)%N →
  (∀ r, runtime_id (f r) = runtime_id r ∧ version (f r) = version r) →
  m' = (update_local now f (set_draining b m)).2 →
  (∀ msg, msg ∈ sp → msg ∈ soup n ∨ records_of msg = []) →
  net_ok (mkNetwork (<[i := m']> (nodes n)) sp).
Proof.
  intros Hok Hm Hmax Hf -> Hsp. destruct (no_table _ Hok _ _ Hm) as (Hwf & Hid & _).
  destruct (Hf (local_record m)) as [Hfi Hfv]. set (m' := (update_local _ _ _).2).
  assert (table_wf m') as Hwf'.
  { destruct Hwf as [Tl Tk Ts]. split; [|done|done]. simpl. by rewrite Hfi. }
  apply (net_ok_step n i m); auto.
  - right. simpl. rewrite Hfv. unfold saturating_add. lia.
  - intros r [(msg & Hin & Hr)|[?|[?|[k Hk]]]]%holds_node; auto.
    + destruct (Hsp _ Hin) as [Hold|Hold]; [left; left; eauto|]. rewrite Hold in Hr. set_solver.
    + left. eapply holds_peer; [exact Hm|exact Hk].
Qed.

Lemma elem_of_delta d n i m r :
  nodes n !! i = Some m → table_wf m → r ∈ records_of (delta_for d m) → holds n r.
Proof.
  intros Hm Hwf. rewrite delta_for_eq, elem_of_delta_of. intros [Hr _]. revert Hr.
  rewrite records_perm, elem_of_app, elem_of_values, list_elem_of_singleton by apply Hwf.
  intros [Hr| ->]; [by eapply holds_peer|by eapply holds_local].
Qed.

Lemma net_ok_initial n : initial n → net_ok n.
Proof.
  intros [Hsoup Hn].
  assert (∀ r, holds n r → ∃ i m, nodes n !! i = Some m ∧ r = local_record m) as Hh.
  { intros r [(msg & Hmsg & _)|(i & m & Hm & [<-|[k Hk]])]; [|by eauto|].
    - rewrite Hsoup in Hmsg. set_solver.
    - destruct (Hn _ _ Hm) as (_ & _ & _ & _ & Hp & _). unfold peer_records in Hk.
      by rewrite Hp, fmap_empty, lookup_empty in Hk. }
  split.
  - intros i m Hm. destruct (Hn _ _ Hm) as (now & addrs & v & Hid & Hp & Hl).
    split_and!; [|done|by rewrite Hl].
    split; unfold peer_records; rewrite ?Hp, ?Hl, ?fmap_empty; [done| |apply lookup_empty].
    intros k x. by rewrite lookup_empty.
  - intros r (i & m & Hm & ->)%Hh. destruct (Hn _ _ Hm) as (now & addrs & v & Hid & Hp & Hl).
    rewrite Hl; simpl. rewrite Hm, Hl. done.
  - intros r1 r2 (i & m & Hm & ->)%Hh _ _ _ H2.
    destruct (Hn _ _ Hm) as (now & addrs & v & _ & _ & Hl). rewrite Hl in H2. simpl in H2. lia.
Qed.

Lemma net_ok_reachable n : net_reachable n → net_ok n.
Proof.
  induction 1 as [n Hn|n n' _ Hok Hstep]; [by apply net_ok_initial|].
  destruct Hstep as [i m now Hm Hmax|i m now Hm Hmax|i m msg reply m' Hm Hmsg Hh|i m rs Hm
                    |i m k st Hm|i m k f Hm].
  - eapply (net_ok_update n i m _ now (λ r, r) (is_draining m)); [done..| |].
    + by destruct m.
    + intros msg [->|?]%elem_of_cons; auto.
  - eapply (net_ok_update n i m _ now drain_record true); auto.
  - destruct msg as [v es|v rs]; simpl in Hh; injection Hh as <- <-.
    + apply (net_ok_evolves (λ _, False) n i m); auto using evolves_same; [|tauto].
      intros msg [->|?]%elem_of_cons; [right|by left].
      intros r. eapply elem_of_delta; [done|]. by eapply no_table.
    + apply (net_ok_evolves (λ r, r ∈ rs) n i m); auto using evolves_apply_all.
      intros r Hr. left. left. by exists (Delta v rs).
  - apply (net_ok_evolves (λ r, version r = 1%N) n i m); auto using evolves_ready_all.
  - apply (net_ok_evolves (λ _, False) n i m); auto using evolves_mark. tauto.
  - apply (net_ok_evolves (λ _, False) n i m); auto using evolves_count. tauto.
Qed.

Lemma known_Some n i m k r :
  net_ok n → nodes n !! i = Some m → known m k = Some r → holds n r ∧ runtime_id r = k.
Proof.
  intros Hok Hm. destruct (no_table _ Hok _ _ Hm) as (Hwf & Hid & _).
  unfold known. case_decide as Hk.
  - intros [= <-]. split; [by eapply holds_local|]. by rewrite (tw_local _ Hwf).
  - intros Hr. split; [by eapply holds_peer|]. by eapply (tw_keyed _ Hwf).
Qed.

Lemma newer_comm_version x y : version <$> newer x y = version <$> newer y x.
Proof.
  destruct x as [x|], y as [y|]; simpl; try done.
  destruct (N.ltb_spec (version x) (version y)), (N.ltb_spec (version y) (version x)); simpl; f_equal; lia.
Qed.

Lemma newer_le x r : (∀ y, x = Some y → (version y <= version r)%N) →
  version <$> newer x (Some r) = Some (version r).
Proof.
  intros Hx. destruct x as [y|]; simpl; [|done]. specialize (Hx y eq_refl).
  destruct (N.ltb_spec (version y) (version r)); simpl; f_equal; lia.
Qed.

Lemma newer_or x y : newer x y = x ∨ newer x y = y.
Proof. destruct x as [x|], y as [y|]; simpl; auto. case_match; auto. Qed.

Section pair.
Context (n : network) (i j : RuntimeId) (a b : MeshMembership).
Hypothesis Hok : net_ok n.
Hypothesis Ha : nodes n !! i = Some a.
Hypothesis Hb : nodes n !! j = Some b.

(** What another table knows of a runtime is at most what that runtime is at. *)
Lemma known_le_owner r : known b i = Some r → (version r <= version (local_record a))%N.
Proof using Ha Hb Hok.
  intros [Hr Hi]%(known_Some n j); [|done..]. pose proof (no_owner _ Hok _ Hr) as Ho.
  by rewrite Hi, Ha in Ho.
Qed.

Lemma known_sync_from k r : known (sync a b) k = Some r → holds n r ∧ runtime_id r = k.
Proof using Ha Hb Hok.
  destruct (no_table _ Hok _ _ Ha) as (Hwa & Hia & _). destruct (no_table _ Hok _ _ Hb) as (Hwb & _ & _).
  rewrite known_sync by done. case_decide.
  { by apply known_Some with i. }
  destruct (newer_or (known a k) (known b k)) as [-> | ->];
    [by apply known_Some with i|by apply known_Some with j].
Qed.

End pair.

Lemma known_sync_versions n i j a b k :
  net_ok n → nodes n !! i = Some a → nodes n !! j = Some b →
  version <$> known (sync a b) k = version <$> known (sync b a) k.
Proof.
  intros Hok Ha Hb. destruct (no_table _ Hok _ _ Ha) as (Hwa & Hia & _).
  destruct (no_table _ Hok _ _ Hb) as (Hwb & Hib & _). rewrite !known_sync, Hia, Hib by done.
  pose proof (known_self a) as Hsa. pose proof (known_self b) as Hsb. rewrite Hia in Hsa. rewrite Hib in Hsb.
  destruct (decide (k = i)) as [Hki|Hki], (decide (k = j)) as [Hkj|Hkj].
  - congruence.
  - rewrite Hki, Hsa. symmetry. apply newer_le. intros y. by apply (known_le_owner n i j).
  - rewrite Hkj, Hsb. apply newer_le. intros y. by apply (known_le_owner n j i).
  - apply newer_comm_version.
Qed.

(** ** Ready records *)

(** The loop skips [ready] with nothing but a rejection counted. *)
Definition foreign (m : MeshMembership) (nr : N * ReadyRecord) : Prop :=
  rr_runtime_id nr.2 ≠ local_runtime_id m ∧ expected_relay_pubkey m ≠ Some (relay_pubkey nr.2).

#[export] Instance foreign_dec m nr : Decision (foreign m nr).
Proof. unfold foreign. apply _. Defined.

(** The record's attestation is genuine: it names its own runtime id, and its
signature over the attested text verifies under the relay key it names. *)
Definition attested (ready : ReadyRecord) : Prop :=
  runtime_pubkey ready = to_hex (rr_runtime_id ready)
  ∧ ∃ pk x sig, pk_from_hex (relay_pubkey ready) = Ok pk ∧ pk_xonly pk = Ok x
      ∧ sig_from_str (relay_sig ready) = Ok sig
      ∧ is_ok (verify_schnorr sig
                 (sha256 (attestation_preimage (rr_runtime_id ready) (pk_to_hex pk))) x) = true.

Lemma attested_iff ready : attested ready ↔ is_ok (rr_verify_attestation ready) = true.
Proof.
  unfold attested, rr_verify_attestation, verify_attestation, attestation_message.
  case_decide as Hid; [|split; [by intros [? _]|done]].
  assert (∀ P : Prop, ¬ P → P ↔ false = true) as Habsurd by (intros P; split; [tauto|done]).
  destruct (pk_from_hex _) as [pk|] eqn:Hpk; simpl; [|apply Habsurd; intros (_ & ? & ? & ? & ? & ? & ? & _); congruence].
  destruct (pk_xonly pk) as [x|] eqn:Hx; simpl; [|apply Habsurd; intros (_ & ? & ? & ? & ? & ? & ? & _); congruence].
  destruct (sig_from_str _) as [sig|] eqn:Hs; simpl; [|apply Habsurd; intros (_ & ? & ? & ? & ? & ? & ? & _); congruence].
  split.
  - intros (_ & pk' & x' & sig' & [= <-] & Hx' & [= <-] & Hv).
    assert (x' = x) as -> by congruence. revert Hv. by destruct (verify_schnorr _ _ _).
  - intros Hv. split; [done|]. exists pk, x, sig. split_and!; [done..|].
    revert Hv. by destruct (verify_schnorr _ _ _).
Qed.

(** The loop takes [ready] over. *)
Definition admitted (m : MeshMembership) (ready : ReadyRecord) : Prop :=
  rr_runtime_id ready ≠ local_runtime_id m ∧ expected_relay_pubkey m = Some (relay_pubkey ready)
  ∧ attested ready.

#[export] Instance admitted_dec m ready : Decision (admitted m ready).
Proof.
  refine (cast_if (decide (rr_runtime_id ready ≠ local_runtime_id m
    ∧ expected_relay_pubkey m = Some (relay_pubkey ready)
    ∧ is_ok (rr_verify_attestation ready) = true))); unfold admitted; by rewrite attested_iff.
Defined.

(** The documented behaviour of the signature crate: what a key signs verifies
under it, and keys and signatures survive their text form. *)
Record signing_ok : Prop := {
  so_pk : ∀ p, pk_from_hex (pk_to_hex p) = Ok p;
  so_sig : ∀ s, sig_from_str (sig_to_string s) = Ok s;
  so_sign : ∀ k, ∃ x, pk_xonly (keys_public_key k) = Ok x
                      ∧ ∀ msg, verify_schnorr (sign_schnorr k msg) msg x = Ok tt
}.

Lemma own_seed_verifies i k addrs v caps :
  signing_ok → rr_verify_attestation (ReadyRecord_new i k addrs v caps) = Ok tt.
Proof.
  intros [Hp Hs Hk]. destruct (Hk k) as (x & Hx & Hv).
  unfold rr_verify_attestation, verify_attestation. simpl. rewrite decide_True by done.
  by rewrite Hp; simpl; rewrite Hx; simpl; rewrite Hs; simpl; rewrite Hv.
Qed.

(** One ready record: refused, counted as foreign, or a version-1 hint. *)
Lemma apply_ready_record_cases now ready m :
  apply_ready_record now ready m
  = if decide (foreign m (now, ready))
    then set_rejections (stale_generation_rejections m) (fetch_add_1 (foreign_relay_rejections m)) m
    else if decide (admitted m ready)
    then (apply_gossip_record (mkGossipRecord (rr_runtime_id ready) (rr_endpoint_addrs ready)
            (rr_proto_version ready) 0 false (rr_capabilities ready) 1 (now_millis now)) m).2
    else m.
Proof.
  unfold apply_ready_record. destruct (decide (foreign _ _)) as [[Hf1 Hf2]|Hf]; simpl in *.
  { by rewrite !decide_False. }
  unfold foreign in Hf; simpl in Hf. case_decide as Hl.
  { rewrite decide_False; [done|]. by intros [? _]. }
  case_decide as He; [|tauto].
  destruct (decide (admitted m ready)) as [Ha|Ha]; unfold admitted in Ha; rewrite attested_iff in Ha;
    destruct (rr_verify_attestation ready); naive_solver.
Qed.

Lemma apply_gossip_record_fields r m :
  expected_relay_pubkey (apply_gossip_record r m).2 = expected_relay_pubkey m
  ∧ foreign_relay_rejections (apply_gossip_record r m).2 = foreign_relay_rejections m.
Proof. unfold apply_gossip_record. by repeat case_match. Qed.

Lemma admitted_same m m' ready :
  local_runtime_id m' = local_runtime_id m → expected_relay_pubkey m' = expected_relay_pubkey m →
  admitted m' ready ↔ admitted m ready.
Proof. unfold admitted. by intros -> ->. Qed.

Lemma foreign_same m m' nr :
  local_runtime_id m' = local_runtime_id m → expected_relay_pubkey m' = expected_relay_pubkey m →
  foreign m' nr ↔ foreign m nr.
Proof. unfold foreign. by intros -> ->. Qed.

(** What one ready record does to the table. *)
Record seeds (rs : list (N * ReadyRecord)) (m m' : MeshMembership) : Prop := {
  sd_id : local_runtime_id m' = local_runtime_id m;
  sd_anchor : expected_relay_pubkey m' = expected_relay_pubkey m;
  sd_from : ∀ k p, peers m' !! k = Some p → peers m !! k = Some p
    ∨ version (ps_record p) = 1%N ∧ ∃ nr, nr ∈ rs ∧ rr_runtime_id nr.2 = k ∧ admitted m nr.2;
  sd_keep : ∀ k p, peers m !! k = Some p → (1 <= version (ps_record p))%N → peers m' !! k = Some p;
  sd_dom : ∀ k, is_Some (peers m !! k) → is_Some (peers m' !! k);
  sd_admit : ∀ nr, nr ∈ rs → admitted m nr.2 → is_Some (peers m' !! rr_runtime_id nr.2);
  sd_count : (foreign_relay_rejections m < 18446744073709551616)%N →
    foreign_relay_rejections m'
    = ((foreign_relay_rejections m + N.of_nat (length (filter (foreign m) rs)))
       mod 18446744073709551616)%N
}.

Lemma seeds_one nr m : seeds [nr] m (apply_ready_record nr.1 nr.2 m).
Proof.
  destruct nr as [now ready]. simpl. rewrite apply_ready_record_cases.
  assert (length (filter (foreign m) [(now, ready)])
    = if decide (foreign m (now, ready)) then 1 else 0) as Hlen.
  { rewrite filter_cons, filter_nil. by case_decide. }
  destruct (decide (foreign m (now, ready))) as [Hf|Hf]; simpl.
  { split; rewrite ?Hlen; simpl; auto. intros nr ->%list_elem_of_singleton (_ & ? & _).
    by destruct Hf. }
  destruct (decide (admitted m ready)) as [Ha|Ha].
  2:{ split; rewrite ?Hlen; auto; [intros nr ->%list_elem_of_singleton ?; done|]. intros.
      by rewrite N.add_0_r, N.mod_small. }
  set (r := mkGossipRecord _ _ _ _ _ _ _ _). destruct (apply_gossip_record_local r m) as [_ Hi].
  destruct (apply_gossip_record_fields r m) as [He Hc].
  assert (∃ nr : N * ReadyRecord, nr ∈ [(now, ready)]
    ∧ rr_runtime_id nr.2 = rr_runtime_id ready ∧ admitted m nr.2) as Hex.
  { exists (now, ready). set_solver. }
  split; [done|done| | | | |intros; by rewrite Hc, Hlen, N.add_0_r, N.mod_small];
    unfold apply_gossip_record; rewrite decide_False by (by destruct Ha); simpl;
    destruct (peers m !! rr_runtime_id ready) as [p0|] eqn:Hp0; try case_match eqn:Hv; simpl;
    try rewrite N.leb_gt in Hv; simpl in *.
  all: try by auto.
  all: try (intros k p; rewrite lookup_insert_Some; intros [[<- <-]|[_ ?]]; by auto).
  all: try (intros k p Hk Hv1; rewrite lookup_insert_ne; [done|]; intros <-; simplify_eq; lia).
  all: try (intros k Hk; by apply lookup_insert_is_Some', or_intror).
  all: intros nr ->%list_elem_of_singleton _; simpl; rewrite ?lookup_insert_eq, ?Hp0; by eexists.
Qed.

Lemma seeds_trans nr rs m1 m2 m3 : seeds [nr] m1 m2 → seeds rs m2 m3 → seeds (nr :: rs) m1 m3.
Proof.
  intros [Hi He Hf Hk Hd Ha Hc] [Hi' He' Hf' Hk' Hd' Ha' Hc'].
  assert (∀ r, admitted m2 r ↔ admitted m1 r) as Hadm by (intros; by apply admitted_same).
  split; [congruence|congruence|..].
  - intros k p [[?|(Hv & x & Hx & Hid & Hax)]%Hf|(Hv & x & Hx & Hid & Hax)]%Hf'; [by left|right..].
    + split; [done|]. exists x. set_solver.
    + split; [done|]. exists x. split_and!; [set_solver|done|by apply Hadm].
  - auto.
  - auto.
  - intros x [->|Hx]%elem_of_cons Hax; [apply Hd', Ha; set_solver|].
    apply Ha'; [done|]. by apply Hadm.
  - intros Hlt. rewrite Hc' by (rewrite Hc by done; by apply N.mod_lt). rewrite Hc by done.
    rewrite N.Div0.add_mod_idemp_l. f_equal.
    rewrite (list_filter_iff (foreign m2) (foreign m1)) by (intros; by apply foreign_same).
    rewrite (filter_cons _ nr), filter_nil. rewrite (filter_cons _ nr rs). case_decide; simpl; lia.
Qed.

Lemma seeds_all rs m : seeds rs m (apply_ready_records rs m).
Proof.
  revert m. induction rs as [|nr rs IH]; intros m.
  - split; auto; [set_solver|]. intros. simpl. by rewrite N.add_0_r, N.mod_small.
  - cbn [apply_ready_records foldl]. eapply seeds_trans; [apply seeds_one|apply IH].
Qed.
End network.

(** Gossip is not gated: whatever a connected peer gossips enters the table. *)
Lemma gossip_admits_unattested {MC : MeshCrates} (r : GossipRecord) (m : MeshMembership) :
  runtime_id r ≠ local_runtime_id m → has_peer (runtime_id r) (apply_gossip_record r m).2 = true.
Proof.
  intros Hr. apply bool_decide_eq_true_2. unfold apply_gossip_record.
  rewrite decide_False by done. destruct (peers m !! runtime_id r) eqn:Hp.
  - case_match; simpl; rewrite ?Hp, ?lookup_insert_eq; by eexists.
  - simpl. rewrite lookup_insert_eq. by eexists.
Qed.

(** C36. Gossip converges and versions name records: however messages are
delayed, lost, reordered or repeated, and as long as no version counter has
reached 2^64 - 1, nobody ever holds a record newer than its owner's, and two
records of one runtime with the same version from 2 on are the same record
(version 1 is also what seeds and first records have).  So after two tables
answer each other's digests they know the same version of every runtime, and the
same record from version 2 on; different version-1 hints stay as they are.  And
no step of the network makes what a table knows older. *)
Theorem mesh_gossip_converges (HO : HashOrder) (MC : MeshCrates) (n : network) (i j : RuntimeId)
    (a b : MeshMembership) :
  net_reachable n → nodes n !! i = Some a → nodes n !! j = Some b →
  (∀ n', net_step n n' → ∃ a', nodes n' !! i = Some a' ∧ knows_no_less a a')
  ∧ (∀ r m, holds n r → nodes n !! runtime_id r = Some m → (version r <= version (local_record m))%N)
  ∧ (∀ r1 r2, holds n r1 → holds n r2 → runtime_id r1 = runtime_id r2 →
       version r1 = version r2 → (2 <= version r1)%N → r1 = r2)
  ∧ ∀ k,
      version <$> known (sync a b) k = version <$> known (sync b a) k
      ∧ (∀ r, known (sync a b) k = Some r → (2 <= version r)%N → known (sync b a) k = Some r).
Proof.
  intros Hok%net_ok_reachable Ha Hb. split_and!.
  - intros n' Hstep. by eapply step_knows_no_less.
  - intros r m Hr Hm. pose proof (no_owner _ Hok _ Hr) as Ho. by rewrite Hm in Ho.
  - by apply no_same.
  - intros k. pose proof (known_sync_versions n i j a b k Hok Ha Hb) as Hv.
    split; [done|]. intros r Hr H2. rewrite Hr in Hv. destruct (known (sync b a) k) as [r'|] eqn:Hr'; [|done].
    injection Hv as Hv. f_equal. symmetry.
    apply (known_sync_from n i j) in Hr as [Hr Hk]; [|done..].
    apply (known_sync_from n j i) in Hr' as [Hr' Hk']; [|done..].
    apply (no_same _ Hok); congruence.
Qed.

(** Seeds are authenticated: a scan of ready records only adds peers whose
record names this deployment's relay key and carries its valid attestation,
enters each as a version-1 hint, never replaces what gossip has learned, and
counts every record of another relay (all of them, when no key was set).
Under the documented behaviour of the signature crate every record the
deployment's own key signed is admitted. *)
Theorem ready_records_authenticated (HO : HashOrder) (MC : MeshCrates)
    (rs : list (N * ReadyRecord)) (m : MeshMembership) :
  let m' := apply_ready_records rs m in
  local_record m' = local_record m
  ∧ (∀ k p, peers m' !! k = Some p → peers m !! k = Some p
       ∨ version (ps_record p) = 1%N ∧ ∃ nr, nr ∈ rs ∧ rr_runtime_id nr.2 = k ∧ admitted m nr.2)
  ∧ (∀ k p, peers m !! k = Some p → (1 <= version (ps_record p))%N → peers m' !! k = Some p)
  ∧ (∀ nr, nr ∈ rs → admitted m nr.2 → has_peer (rr_runtime_id nr.2) m' = true)
  ∧ ((foreign_relay_rejections m < 18446744073709551616)%N →
     foreign_relay_rejections m'
     = ((foreign_relay_rejections m + N.of_nat (length (filter (foreign m) rs)))
        mod 18446744073709551616)%N)
  ∧ (signing_ok → ∀ now i key addrs v caps,
       (now, ReadyRecord_new i key addrs v caps) ∈ rs → i ≠ local_runtime_id m →
       expected_relay_pubkey m = Some (pk_to_hex (keys_public_key key)) → has_peer i m' = true).
Proof.
  destruct (seeds_all rs m) as [_ _ Hf Hk _ Ha Hc]. split_and!; [|done..| | |].
  - apply (ev_local _ _ _ (evolves_ready_all rs m)).
  - intros nr Hnr Hadm. apply bool_decide_eq_true_2. by apply Ha.
  - done.
  - intros Hso now i key addrs v caps Hin Hi Hanchor. apply bool_decide_eq_true_2.
    apply (Ha _ Hin). split_and!; [done|done|].
    apply attested_iff. cbn [snd]. by rewrite own_seed_verifies.
Qed.

(** ** Witnesses *)

(** Stand-in crates: keys are strings and a signature is the key before the
signed bytes. *)
Definition text_of (l : list N) : string := foldr (λ b s, String (ascii_of_N b) s) "" l.

Definition toy_crates : MeshCrates := {|
  mc_hex := hex_crate;
  mc_postcard := {| postcard_to_bytes := λ _, Err ""; postcard_from_bytes := λ _, Err "" |};
  Keys := string; PubKey := string; XOnly := string; Sig := string;
  keys_public_key := λ k, k;
  pk_from_hex := Ok; pk_to_hex := λ p, p; pk_xonly := Ok;
  sig_from_str := Ok; sig_to_string := λ s, s;
  sha256 := λ s, map N_of_ascii (String.list_ascii_of_string s);
  sign_schnorr := λ k msg, k +:+ text_of msg;
  verify_schnorr := λ s msg x, if decide (s = x +:+ text_of msg) then Ok tt else Err "bad signature"
|}.

Lemma toy_signing_ok : signing_ok (MC := toy_crates).
Proof.
  split; [done|done|]. intros k. exists k. split; [done|]. intros msg. simpl.
  by rewrite decide_True.
Qed.

Definition toy_seeds : list (N * ReadyRecord) :=
  [(0%N, ReadyRecord_new (MC := toy_crates) [2%N] "ours" ["b"] 1 []);
   (0%N, ReadyRecord_new (MC := toy_crates) [3%N] "theirs" ["c"] 1 [])].

Definition toy_table (i : N) : MeshMembership :=
  with_expected_relay_pubkey "ours" (MeshMembership_new (GossipRecord_new 0 [i] ["a"] 1)).

Lemma ready_records_authenticated_witness :
  let MC := toy_crates in let m' := apply_ready_records toy_seeds (toy_table 1) in
  has_peer [2%N] m' = true ∧ has_peer [3%N] m' = false ∧ foreign_relay_rejections m' = 1%N.
Proof.
  intros MC m'.
  destruct (ready_records_authenticated map_to_list_order MC toy_seeds (toy_table 1))
    as (_ & _ & _ & _ & Hcount & Hours).
  split_and!.
  - apply (Hours toy_signing_ok 0%N [2%N] "ours" ["b"] 1%N []); [|done|done].
    apply list_elem_of_here.
  - by vm_compute.
  - refine (eq_trans (Hcount _) _); by vm_compute.
Defined.

(** Two relays, one of which has ticked. *)
Definition toy_net : network :=
  {| nodes := <[ [1%N] := toy_table 1 ]> {[ [2%N] := toy_table 2 ]}; soup := [] |}.

Lemma toy_net_initial : initial toy_net.
Proof.
  split; [done|]. intros i m Hm. simpl in Hm.
  apply lookup_insert_Some in Hm as [[<- <-]|[_ [<- <-]%lookup_singleton_Some]];
    by exists 0%N, ["a"], 1%N.
Qed.

Lemma mesh_gossip_converges_witness :
  let MC := toy_crates in let HO := map_to_list_order in
  let a := (gossip_tick 5000000 (toy_table 1)).2 in let b := toy_table 2 in
  ∃ n, nodes n !! [1%N] = Some a ∧ nodes n !! [2%N] = Some b
    ∧ (∀ k, version <$> known (sync a b) k = version <$> known (sync b a) k)
    ∧ version <$> known (sync b a) [1%N] = Some 2%N.
Proof.
  intros MC HO a b.
  set (n := mkNetwork (<[ [1%N] := a ]> (nodes toy_net))
              ((gossip_tick 5000000 (toy_table 1)).1 :: soup toy_net)).
  assert (nodes n !! [1%N] = Some a) as Ha by by vm_compute.
  assert (nodes n !! [2%N] = Some b) as Hb by by vm_compute.
  assert (net_reachable n) as Hn.
  { eapply net_next; [apply net_initial, toy_net_initial|]. by apply step_tick. }
  destruct (mesh_gossip_converges HO MC n [1%N] [2%N] a b Hn Ha Hb) as (_ & _ & _ & Hk).
  exists n. split_and!; [done|done|intros k; apply Hk|by vm_compute].
Defined.
