(* ===== verification/Json.v ===== *)
(** * Json: JSON values as [serde_json] has them

A value, and the sorted maps its objects are built with.  Numbers, errors and
the text of scalars are the interface [JsonCrate]. *)
From S2P Require Import Prelude.

Class JsonCrate : Type := {
  JsonNumber : Type;                              (* [serde_json::Number] *)
  JsonError : Type;                               (* [serde_json::Error] *)
  number_to_string : JsonNumber → result string JsonError;
  string_to_string : string → result string JsonError   (* [serde_json::to_string] of a [&str] *)
}.

(** [BTreeMap<&str, _>::insert]: keys in byte order, a later value replaces. *)
Fixpoint btree_insert {A : Type} (k : string) (a : A) (l : list (string * A)) : list (string * A) :=
  match l with
  | [] => [(k, a)]
  | (k', a') :: l' =>
      match String.compare k k' with
      | Lt => (k, a) :: l
      | Eq => (k, a) :: l'
      | Gt => (k', a') :: btree_insert k a l'
      end
  end.

(** [collect::<BTreeMap<_, _>>()]. *)
Definition btree_collect {A : Type} (m : list (string * A)) : list (string * A) :=
  foldl (λ t kv, btree_insert kv.1 kv.2 t) [] m.

Section value.
Context {JC : JsonCrate}.

(** [serde_json::Value]; an [Object] lists the members of its [Map] in the
order the map iterates them. *)
Inductive Value : Type :=
| Null
| Bool (b : bool)
| Number (n : JsonNumber)
| VString (s : string)
| Array (l : list Value)
| Object (m : list (string * Value)).

(** Induction on a value, with the hypothesis at every element and member. *)
Lemma Value_nested_ind (P : Value → Prop) :
  P Null → (∀ b, P (Bool b)) → (∀ n, P (Number n)) → (∀ s, P (VString s)) →
  (∀ l, Forall P l → P (Array l)) →
  (∀ m, Forall (λ kv, P kv.2) m → P (Object m)) →
  ∀ v, P v.
Proof.
  intros Hnull Hbool Hnum Hstr Harr Hobj. fix IH 1. intros [|b|n|s|l|m].
  - exact Hnull.
  - apply Hbool.
  - apply Hnum.
  - apply Hstr.
  - apply Harr. induction l as [|v l IHl]; constructor; [apply IH|apply IHl].
  - apply Hobj. induction m as [|[k v] m IHm]; constructor; [apply IH|apply IHm].
Qed.

(** [Value::get] with a key. *)
Definition value_get (key : string) (value : Value) : option Value :=
  match value with
  | Object m => snd <$> List.find (λ kv, String.eqb kv.1 key) m
  | _ => None
  end.

(** [json!({...})]: the map keeps its keys in byte order. *)
Definition json_object (m : list (string * Value)) : Value := Object (btree_collect m).

End value.
