(* ===== verification/AuditLog.v ===== *)
(** * AuditLog: the per-community hash-chained audit log

Models [buzz-audit/src]: the actions ([action.rs]), entries ([entry.rs]),
errors ([error.rs]), the two hash encodings and the canonical JSON they embed
([hash.rs]) and the service ([service.rs]).

The table [audit_log] is the list of its rows in insertion order; a query is
written as the code's SQL says, over that list.  SHA-256, the JSON printer of
scalars and of strings, [chrono]'s timestamps, the bytes of a UUID, and what
Postgres gives back for a [JSONB] and a [TIMESTAMPTZ] value are the interface
[AuditCrates].  A call of [log] runs under the community's advisory lock in
one transaction, so it is one step. *)
From stdpp Require Import pretty.
From S2P Require Import Prelude Text Nostr Encode Json.

(** ** Actions ([action.rs]) *)

Inductive AuditAction : Type :=
| EventCreated | EventDeleted | ChannelCreated | ChannelUpdated | ChannelDeleted
| MemberAdded | MemberRemoved | AuthSuccess | AuthFailure | RateLimitExceeded | MediaUploaded.

#[export] Instance AuditAction_eq_dec : EqDecision AuditAction.
Proof. solve_decision. Defined.

Definition action_as_str (a : AuditAction) : string :=
  match a with
  | EventCreated => "event_created"
  | EventDeleted => "event_deleted"
  | ChannelCreated => "channel_created"
  | ChannelUpdated => "channel_updated"
  | ChannelDeleted => "channel_deleted"
  | MemberAdded => "member_added"
  | MemberRemoved => "member_removed"
  | AuthSuccess => "auth_success"
  | AuthFailure => "auth_failure"
  | RateLimitExceeded => "rate_limit_exceeded"
  | MediaUploaded => "media_uploaded"
  end.

Definition ALL : list AuditAction :=
  [EventCreated; EventDeleted; ChannelCreated; ChannelUpdated; ChannelDeleted;
   MemberAdded; MemberRemoved; AuthSuccess; AuthFailure; RateLimitExceeded; MediaUploaded].

(** [FromStr for AuditAction]; the error's text is not kept by the caller. *)
Definition action_from_str (s : string) : option AuditAction :=
  List.find (λ a, bool_decide (action_as_str a = s)) ALL.

(** ** Values, entries and errors *)

(** The third-party code the log calls. *)
Class AuditCrates : Type := {
  ac_json :: JsonCrate;
  DateTime : Type;                                (* [chrono::DateTime<Utc>] *)
  trunc_subsecs_6 : DateTime → DateTime;          (* [SubsecRound::trunc_subsecs(6)] *)
  to_rfc3339 : DateTime → string;
  ac_uuid :: UuidBytes;
  sha256 : Bytes → Bytes;                         (* [Sha256::digest] *)
  pg_timestamptz : DateTime → DateTime            (* a value written and read back *)
}.

Section audit.
Context {AC : AuditCrates}.

Record AuditEntry : Type := {
  community_id : Uuid;
  seq : Z;                       (* [i64] *)
  hash_version : Z;              (* [i16] *)
  hash : Bytes;
  prev_hash : option Bytes;
  action : AuditAction;
  actor_pubkey : option Bytes;
  object_id : option string;
  detail : Value;
  created_at : DateTime
}.

Record NewAuditEntry : Type := {
  new_community_id : Uuid;
  new_action : AuditAction;
  new_actor_pubkey : option Bytes;
  new_object_id : option string;
  new_detail : Value
}.

Inductive AuditError : Type :=
| Database
| ChainViolation (seq : Z)
| HashMismatch (seq : Z)
| UnknownAction
| UnsupportedHashVersion (version : Z)
| Serialization (e : JsonError).

(** ** Canonical JSON ([hash.rs]) *)

(** The loop over an array, from the text written so far. *)
Fixpoint write_elements (first : bool) (out : string) (l : list (result string JsonError))
    : result string JsonError :=
  match l with
  | [] => Ok out
  | v :: l' =>
      let out := if first then out else out +:+ "," in
      let? text := v in
      write_elements false (out +:+ text) l'
  end.

(** The loop over the sorted members of an object. *)
Fixpoint write_members (first : bool) (out : string) (l : list (string * result string JsonError))
    : result string JsonError :=
  match l with
  | [] => Ok out
  | (k, v) :: l' =>
      let out := if first then out else out +:+ "," in
      let? key := string_to_string k in
      let out := out +:+ key +:+ ":" in
      let? text := v in
      write_members false (out +:+ text) l'
  end.

(** The text of a member is computed where the loop asks for it; here it is a
value, and the loop takes its error. *)
Fixpoint canonical_json (value : Value) : result string JsonError :=
  match value with
  | Object map =>
      let sorted := btree_collect (List.map (λ kv, (kv.1, canonical_json kv.2)) map) in
      let? out := write_members true "{" sorted in
      Ok (out +:+ "}")
  | Array arr =>
      let? out := write_elements true "[" (List.map canonical_json arr) in
      Ok (out +:+ "]")
  | Null => Ok "null"
  | Bool b => Ok (if b then "true" else "false")
  | Number n => number_to_string n
  | VString s => string_to_string s
  end.

(** ** The hash of an entry ([hash.rs]) *)

(** [Err]'s conversion by [?] ([#[from] serde_json::Error]). *)
Definition canonical_detail (entry : AuditEntry) : result Bytes AuditError :=
  map_err Serialization (let? text := canonical_json (detail entry) in Ok (bytes_of_string text)).

Definition GENESIS_HASH : Bytes := repeat 0%N 32.

Definition CURRENT_HASH_VERSION : Z := 2.

Definition to_storage_precision (t : DateTime) : DateTime := trunc_subsecs_6 t.

Definition append_tlv (encoded : Bytes) (tag : N) (value : Bytes) : Bytes :=
  encoded ++ [tag] ++ be_bytes 8 (N.of_nat (length value) mod 18446744073709551616) ++ value.

(** The bytes [compute_tlv_hash] gives to SHA-256. *)
Definition tlv_preimage (entry : AuditEntry) : result Bytes AuditError :=
  let encoded := bytes_of_string "buzz:audit:v2" ++ [0%N] in
  let encoded := append_tlv encoded 1 (uuid_as_bytes (community_id entry)) in
  let encoded := append_tlv encoded 2 (i64_be_bytes (seq entry)) in
  let encoded := append_tlv encoded 3
    (bytes_of_string (to_rfc3339 (to_storage_precision (created_at entry)))) in
  let encoded := append_tlv encoded 4 (bytes_of_string (action_as_str (action entry))) in
  let encoded :=
    match actor_pubkey entry with
    | Some pk => append_tlv encoded 5 pk
    | None => encoded
    end in
  let encoded :=
    match object_id entry with
    | Some id => append_tlv encoded 6 (bytes_of_string id)
    | None => encoded
    end in
  let? text := canonical_detail entry in
  let encoded := append_tlv encoded 7 text in
  Ok match prev_hash entry with
     | Some h => append_tlv encoded 8 h
     | None => encoded
     end.

Definition compute_tlv_hash (entry : AuditEntry) : result Bytes AuditError :=
  let? encoded := tlv_preimage entry in Ok (sha256 encoded).

(** The bytes [compute_legacy_hash] feeds to its hasher, in order. *)
Definition legacy_preimage (entry : AuditEntry) : result Bytes AuditError :=
  let hashed := uuid_as_bytes (community_id entry) in
  let hashed := hashed ++ i64_be_bytes (seq entry) in
  let hashed := hashed ++ bytes_of_string (to_rfc3339 (to_storage_precision (created_at entry))) in
  let hashed := hashed ++ bytes_of_string (action_as_str (action entry)) in
  let hashed :=
    match actor_pubkey entry with
    | Some pk => hashed ++ [1%N] ++ pk
    | None => hashed ++ [0%N]
    end in
  let hashed :=
    match object_id entry with
    | Some id => hashed ++ [1%N] ++ bytes_of_string id
    | None => hashed ++ [0%N]
    end in
  let? text := canonical_detail entry in
  let hashed := hashed ++ text in
  Ok match prev_hash entry with
     | Some h => hashed ++ h
     | None => hashed ++ GENESIS_HASH
     end.

Definition compute_legacy_hash (entry : AuditEntry) : result Bytes AuditError :=
  let? hashed := legacy_preimage entry in Ok (sha256 hashed).

Definition compute_hash (entry : AuditEntry) : result Bytes AuditError :=
  if decide (hash_version entry = 1%Z) then compute_legacy_hash entry
  else if decide (hash_version entry = CURRENT_HASH_VERSION) then compute_tlv_hash entry
  else Err (UnsupportedHashVersion (hash_version entry)).

(** ** The service ([service.rs]) *)

(** A row of [audit_log]. *)
Record Row : Type := {
  row_community_id : Uuid;
  row_seq : Z;
  row_hash : Bytes;
  row_prev_hash : option Bytes;
  row_action : string;
  row_actor_pubkey : option Bytes;
  row_object_id : option string;
  row_detail : Value;
  row_created_at : DateTime;
  row_hash_version : Z
}.

Definition row_to_audit_entry (row : Row) : result AuditEntry AuditError :=
  let? action := ok_or (action_from_str (row_action row)) UnknownAction in
  Ok {| community_id := row_community_id row; seq := row_seq row;
        hash_version := row_hash_version row; hash := row_hash row;
        prev_hash := row_prev_hash row; action := action;
        actor_pubkey := row_actor_pubkey row; object_id := row_object_id row;
        detail := row_detail row; created_at := row_created_at row |}.

End audit.

(** What Postgres gives back for a [JSONB] value. *)
Class AuditStorage {AC : AuditCrates} : Type := { pg_jsonb : Value → Value }.

Section service.
Context {AC : AuditCrates} {AS : AuditStorage}.

Definition seq_asc (r s : Row) : Prop := (row_seq r <= row_seq s)%Z.
Definition seq_desc (r s : Row) : Prop := (row_seq s <= row_seq r)%Z.
#[export] Instance seq_asc_dec : RelDecision seq_asc.
Proof. intros r s. unfold seq_asc, seq_desc. apply _. Defined.
#[export] Instance seq_desc_dec : RelDecision seq_desc.
Proof. intros r s. unfold seq_asc, seq_desc. apply _. Defined.

(** [SELECT seq, hash ... ORDER BY seq DESC LIMIT 1]. *)
Definition head_row (community : Uuid) (table : list Row) : option Row :=
  hd_error (merge_sort seq_desc (filter (λ r, row_community_id r = community) table)).

(** The columns the [INSERT] binds, as they are read back. *)
Definition row_of_entry (entry : AuditEntry) : Row :=
  {| row_community_id := community_id entry; row_seq := seq entry;
     row_hash := hash entry; row_prev_hash := prev_hash entry;
     row_action := action_as_str (action entry);
     row_actor_pubkey := actor_pubkey entry; row_object_id := object_id entry;
     row_detail := pg_jsonb (detail entry);
     row_created_at := pg_timestamptz (created_at entry);
     row_hash_version := hash_version entry |}.

(** The [INSERT]: refused when a row has the same primary key
[(community_id, seq)] or the same [(community_id, hash)]. *)
Definition insert_row (entry : AuditEntry) (table : list Row) : option (list Row) :=
  if existsb (λ r, bool_decide (row_community_id r = community_id entry
       ∧ (row_seq r = seq entry ∨ row_hash r = hash entry))) table
  then None
  else Some (table ++ [row_of_entry entry]).

(** How the database answers the calls of one [log]: a failed call returns
[AuditError::Database]; a failed commit may or may not have taken effect. *)
Inductive CommitOutcome : Type := Committed | RolledBack | CommittedUnreported.
Record DbOutcome : Type := {
  acquire_ok : bool; lock_ok : bool; begin_ok : bool; head_ok : bool; insert_ok : bool;
  commit : CommitOutcome
}.

(** Release arithmetic of an [i64]. *)
Definition wrap_i64 (z : Z) : Z :=
  ((z + 9223372036854775808) mod 18446744073709551616 - 9223372036854775808)%Z.

Definition log_timestamp (now : DateTime) : DateTime := to_storage_precision now.

Definition log_inner (db : DbOutcome) (now : DateTime) (entry : NewAuditEntry) (table : list Row)
    : result AuditEntry AuditError * list Row :=
  if negb (begin_ok db) then (Err Database, table) else
  if negb (head_ok db) then (Err Database, table) else
  let '(prev_seq, prev_hash) :=
    match head_row (new_community_id entry) table with
    | Some row => (row_seq row, Some (row_hash row))
    | None => (0%Z, None)
    end in
  let audit_entry (h : Bytes) :=
    {| community_id := new_community_id entry; seq := wrap_i64 (prev_seq + 1);
       hash_version := CURRENT_HASH_VERSION; hash := h; prev_hash := prev_hash;
       action := new_action entry; actor_pubkey := new_actor_pubkey entry;
       object_id := new_object_id entry; detail := new_detail entry;
       created_at := log_timestamp now |} in
  match compute_hash (audit_entry []) with
  | Err e => (Err e, table)
  | Ok h =>
      if negb (insert_ok db) then (Err Database, table) else
      match insert_row (audit_entry h) table with
      | None => (Err Database, table)
      | Some table' =>
          match commit db with
          | Committed => (Ok (audit_entry h), table')
          | RolledBack => (Err Database, table)
          | CommittedUnreported => (Err Database, table')
          end
      end
  end.

Definition log (db : DbOutcome) (now : DateTime) (entry : NewAuditEntry) (table : list Row)
    : result AuditEntry AuditError * list Row :=
  if negb (acquire_ok db) then (Err Database, table) else
  if negb (lock_ok db) then (Err Database, table) else
  log_inner db now entry table.

(** [SELECT ... WHERE community_id = $1 AND seq BETWEEN $2 AND $3 ORDER BY seq ASC]. *)
Definition select_range (community : Uuid) (from_seq to_seq : Z) (table : list Row) : list Row :=
  merge_sort seq_asc
    (filter (λ r, row_community_id r = community ∧ (from_seq <= row_seq r)%Z ∧ (row_seq r <= to_seq)%Z)
      table).

(** The loop of [verify_chain], from the hash the next entry must name. *)
Fixpoint verify_rows (expected_prev : option Bytes) (rows : list Row) : result bool AuditError :=
  match rows with
  | [] => Ok true
  | row :: rows' =>
      let? entry := row_to_audit_entry row in
      if match expected_prev with
         | Some expected => bool_decide (prev_hash entry ≠ Some expected)
         | None => false
         end
      then Err (ChainViolation (seq entry))
      else
        let? computed := compute_hash entry in
        if bool_decide (computed ≠ hash entry) then Err (HashMismatch (seq entry))
        else verify_rows (Some (hash entry)) rows'
  end.

Definition verify_chain (fetch_ok : bool) (community : Uuid) (from_seq to_seq : Z) (table : list Row)
    : result bool AuditError :=
  if negb fetch_ok then Err Database else
  match select_range community from_seq to_seq table with
  | [] => Ok false
  | rows => verify_rows None rows
  end.

(** [SELECT ... WHERE community_id = $1 AND seq >= $2 ORDER BY seq ASC LIMIT $3];
Postgres refuses a negative limit. *)
Definition select_from (community : Uuid) (from_seq limit : Z) (table : list Row)
    : option (list Row) :=
  if (limit <? 0)%Z then None
  else Some (take (Z.to_nat limit)
    (merge_sort seq_asc
      (filter (λ r, row_community_id r = community ∧ (from_seq <= row_seq r)%Z) table))).

(** [rows.iter().map(row_to_audit_entry).collect()]. *)
Fixpoint entries_of (rows : list Row) : result (list AuditEntry) AuditError :=
  match rows with
  | [] => Ok []
  | row :: rows' =>
      let? entry := row_to_audit_entry row in
      let? entries := entries_of rows' in
      Ok (entry :: entries)
  end.

Definition get_entries (fetch_ok : bool) (community : Uuid) (from_seq limit : Z) (table : list Row)
    : result (list AuditEntry) AuditError :=
  if negb fetch_ok then Err Database else
  let? rows := ok_or (select_from community from_seq limit table) Database in
  entries_of rows.
End service.
