(* ===== verification/AuditProps.v ===== *)
(** * AuditProps: what the audit log guarantees

The canonical text of a JSON value identifies the value up to member order;
the version 2 encoding of an entry identifies every hashed field; every table
the service writes verifies; and a table that verifies up to a known head hash
holds the original entries, unless SHA-256 collides. *)
From Stdlib Require Import OrderedTypeEx.
From stdpp Require Import pretty.
From S2P Require Import Prelude Text Nostr Encode Json AuditLog.

(** ** [BTreeMap] *)

Definition key_lt {A : Type} (x y : string * A) : Prop := String.compare x.1 y.1 = Lt.

#[export] Instance key_lt_trans {A : Type} : Transitive (@key_lt A).
Proof.
  intros x y z. unfold key_lt. rewrite !(String_as_OT.cmp_lt). apply String_as_OT.lt_trans.
Qed.

Lemma compare_Gt_Lt a b : String.compare a b = Gt → String.compare b a = Lt.
Proof. rewrite String.compare_antisym. by destruct (String.compare b a). Qed.

Section btree.
Context {A : Type}.
Implicit Types l m : list (string * A).

Lemma elem_of_btree_insert k a l x : x ∈ btree_insert k a l → x = (k, a) ∨ x ∈ l.
Proof.
  induction l as [|[k' a'] l IH]; simpl; [set_solver|].
  destruct (String.compare k k'); set_solver.
Qed.

Lemma btree_insert_sorted k a l :
  StronglySorted key_lt l → StronglySorted key_lt (btree_insert k a l).
Proof.
  induction l as [|[k' a'] l IH]; simpl; intros Hl; [by repeat constructor|].
  pose proof (StronglySorted_inv Hl) as [Hl' Hall].
  destruct (String.compare k k') eqn:E.
  - apply String.compare_eq_iff in E as ->. by constructor.
  - constructor; [done|]. constructor; [done|].
    eapply Forall_impl; [exact Hall|]. intros x Hx. by apply (key_lt_trans _ (k', a')).
  - constructor; [by apply IH|]. apply Forall_forall. intros x Hx.
    apply elem_of_btree_insert in Hx as [->|Hx].
    + by apply compare_Gt_Lt.
    + rewrite Forall_forall in Hall. by apply Hall.
Qed.

Lemma btree_foldl_sorted t m :
  StronglySorted key_lt t →
  StronglySorted key_lt (foldl (λ t kv, btree_insert kv.1 kv.2 t) t m).
Proof.
  revert t. induction m as [|x m IH]; intros t Ht; simpl; [done|].
  by apply IH, btree_insert_sorted.
Qed.

Lemma btree_collect_sorted m : StronglySorted key_lt (btree_collect m).
Proof. apply btree_foldl_sorted. constructor. Qed.

Lemma elem_of_btree_foldl t m x :
  x ∈ foldl (λ t kv, btree_insert kv.1 kv.2 t) t m → x ∈ t ∨ x ∈ m.
Proof.
  revert t. induction m as [|[k a] m IH]; intros t; simpl; [by left|].
  intros [Hx|Hx]%IH; [|set_solver]. apply elem_of_btree_insert in Hx. set_solver.
Qed.

Lemma elem_of_btree_collect m x : x ∈ btree_collect m → x ∈ m.
Proof. intros [Hx|Hx]%elem_of_btree_foldl; [set_solver|done]. Qed.

Lemma btree_insert_last k a l :
  Forall (λ x, key_lt x (k, a)) l → btree_insert k a l = l ++ [(k, a)].
Proof.
  induction 1 as [|[k' a'] l Hx _ IH]; simpl; [done|].
  unfold key_lt in Hx. simpl in Hx. rewrite String.compare_antisym, Hx. simpl. by rewrite IH.
Qed.

Lemma btree_foldl_app t m :
  StronglySorted key_lt (t ++ m) →
  foldl (λ t kv, btree_insert kv.1 kv.2 t) t m = t ++ m.
Proof.
  revert t. induction m as [|[k a] m IH]; intros t Hs; simpl; [by rewrite app_nil_r|].
  rewrite btree_insert_last.
  - rewrite IH; by rewrite <-(assoc_L (++)).
  - apply Forall_forall. intros x Hx. apply StronglySorted_app in Hs as (Hx' & _ & _).
    apply Hx'; set_solver.
Qed.

Lemma btree_collect_id m : StronglySorted key_lt m → btree_collect m = m.
Proof. intros Hm. by apply (btree_foldl_app []). Qed.
End btree.

Definition on_values {A B : Type} (f : A → B) (kv : string * A) : string * B := (kv.1, f kv.2).

Lemma btree_collect_map {A B : Type} (f : A → B) (m : list (string * A)) :
  btree_collect (map (on_values f) m) = map (on_values f) (btree_collect m).
Proof.
  assert (∀ k a l, btree_insert k (f a) (map (on_values f) l) = map (on_values f) (btree_insert k a l))
    as Hins.
  { intros k a l. induction l as [|[k' a'] l IH]; simpl; [done|].
    destruct (String.compare k k'); simpl; [done|done|]. by rewrite IH. }
  unfold btree_collect. change (@nil (string * B)) with (map (on_values f) []).
  generalize (@nil (string * A)) as t.
  induction m as [|x m IH]; intros t; simpl; [done|]. by rewrite Hins, IH.
Qed.

(** ** Canonical JSON *)

Section json.
Context {AC : AuditCrates}.
Implicit Types v w : Value.

(** The value with its members in key order, later duplicates winning: two
values with the same normal form are the same JSON document. *)
Fixpoint normal (v : Value) : Value :=
  match v with
  | Object m => Object (btree_collect (List.map (λ kv, (kv.1, normal kv.2)) m))
  | Array l => Array (List.map normal l)
  | _ => v
  end.

Lemma normal_object m : normal (Object m) = Object (map (on_values normal) (btree_collect m)).
Proof. simpl. f_equal. apply (btree_collect_map normal). Qed.

(** *** The text of the loops *)

Definition sep (first : bool) : string := if first then "" else ",".

Fixpoint elements_text (first : bool) (l : list (result string JsonError)) : result string JsonError :=
  match l with
  | [] => Ok ""
  | v :: l' =>
      let? t := v in let? r := elements_text false l' in Ok (sep first +:+ (t +:+ r))
  end.

Fixpoint members_text (first : bool) (l : list (string * result string JsonError))
    : result string JsonError :=
  match l with
  | [] => Ok ""
  | (k, v) :: l' =>
      let? key := string_to_string k in let? t := v in let? r := members_text false l' in
      Ok (sep first +:+ (key +:+ (":" +:+ (t +:+ r))))
  end.

Lemma sep_app (first : bool) out : (if first then out else out +:+ ",") = out +:+ sep first.
Proof. destruct first; simpl; by rewrite ?string_app_nil_r. Qed.

Lemma write_elements_text first out l :
  write_elements first out l = let? t := elements_text first l in Ok (out +:+ t).
Proof.
  revert first out. induction l as [|v l IH]; intros first out; cbn [write_elements elements_text result_bind].
  { by rewrite string_app_nil_r. }
  rewrite sep_app. destruct v as [t|e]; cbn [result_bind]; [|done]. rewrite IH.
  destruct (elements_text false l) as [r|e]; cbn [result_bind]; [|done].
  by rewrite !string_app_assoc.
Qed.

Lemma write_members_text first out l :
  write_members first out l = let? t := members_text first l in Ok (out +:+ t).
Proof.
  revert first out.
  induction l as [|[k v] l IH]; intros first out; cbn [write_members members_text result_bind].
  { by rewrite string_app_nil_r. }
  rewrite sep_app. destruct (string_to_string k) as [key|e]; cbn [result_bind]; [|done].
  destruct v as [t|e]; cbn [result_bind]; [|done]. rewrite IH.
  destruct (members_text false l) as [r|e]; cbn [result_bind]; [|done].
  by rewrite !string_app_assoc.
Qed.

Lemma canonical_array l :
  canonical_json (Array l)
  = let? t := elements_text true (map canonical_json l) in Ok ("[" +:+ (t +:+ "]")).
Proof.
  cbn [canonical_json]. rewrite write_elements_text.
  by destruct (elements_text true _).
Qed.

Lemma canonical_object m :
  canonical_json (Object m)
  = let? t := members_text true (map (on_values canonical_json) (btree_collect m)) in
    Ok ("{" +:+ (t +:+ "}")).
Proof.
  cbn [canonical_json]. rewrite write_members_text.
  change (λ kv, (kv.1, canonical_json kv.2)) with (on_values canonical_json).
  rewrite btree_collect_map. by destruct (members_text true _).
Qed.

(** The text depends only on the document. *)
Lemma canonical_json_normal v : canonical_json (normal v) = canonical_json v.
Proof.
  induction v as [| | | |l IH|m IH] using Value_nested_ind; try done.
  - simpl normal. rewrite !canonical_array, map_map. do 2 f_equal.
    induction IH as [|v l Hv _ IHl]; simpl; [done|]. by rewrite Hv, IHl.
  - rewrite normal_object, !canonical_object, (btree_collect_id (map _ _)).
    + rewrite map_map. do 2 f_equal. apply map_ext_in. intros kv Hkv.
      apply list_elem_of_In, elem_of_btree_collect in Hkv. rewrite Forall_forall in IH.
      unfold on_values. simpl. by rewrite (IH kv).
    + pose proof (btree_collect_sorted m) as Hs. revert Hs.
      generalize (btree_collect m). clear. induction 1 as [|x l _ IH Hx]; simpl; constructor; [done|].
      by apply Forall_map.
Qed.

(** *** The text identifies the document *)

Definition is_number_char (c : ascii) : bool :=
  is_ascii_digit c || bool_decide (c ∈ ["+"; "-"; "."; "e"; "E"]%char).

Definition quote : ascii := "034".

(** The printer of [serde_json] writes JSON: a string is quoted and ends at its
closing quote, a number is a non-empty run of number characters, and the text
of either identifies it. *)
Record JsonText : Prop := {
  string_quoted s t : string_to_string s = Ok t → ∃ r, t = String quote r;
  string_delimited s s' t t' u u' :
    string_to_string s = Ok t → string_to_string s' = Ok t' → t +:+ u = t' +:+ u' → s = s' ∧ u = u';
  number_text n t :
    number_to_string n = Ok t →
    string_forall is_number_char t = true ∧ ∃ c r, t = String c r ∧ is_number_char c = true;
  number_inj n n' t : number_to_string n = Ok t → number_to_string n' = Ok t → n = n'
}.

Context (JT : JsonText).

(** What follows a value in a text cannot continue a number. *)
Definition stops (u : string) : Prop :=
  match u with
  | "" => True
  | String c _ => is_number_char c = false
  end.

Definition opens_with (v : Value) (c : ascii) : Prop :=
  match v with
  | Null => c = "n"%char
  | Bool b => c = (if b then "t" else "f")%char
  | Number _ => is_number_char c = true
  | VString _ => c = quote
  | Array _ => c = "["%char
  | Object _ => c = "{"%char
  end.

Lemma canonical_opens v t : canonical_json v = Ok t → ∃ c r, t = String c r ∧ opens_with v c.
Proof.
  destruct v as [|b|n|s|l|m]; intros H.
  - injection H as <-. by eexists _, _.
  - injection H as <-. by destruct b; eexists _, _.
  - destruct (number_text JT _ _ H) as (_ & c & r & -> & ?). by eexists _, _.
  - destruct (string_quoted JT _ _ H) as [r ->]. by eexists _, _.
  - rewrite canonical_array in H. apply result_bind_Ok in H as (e & _ & [= <-]).
    by eexists _, _.
  - rewrite canonical_object in H. apply result_bind_Ok in H as (e & _ & [= <-]).
    by eexists _, _.
Qed.

Lemma string_app_cancel a u u' : a +:+ u = a +:+ u' → u = u'.
Proof. induction a as [|c a IH]; [done|]. intros [= H]. by apply IH. Qed.

Lemma number_span p t t' u u' :
  string_forall p t = true → string_forall p t' = true →
  match u with "" => True | String c _ => p c = false end →
  match u' with "" => True | String c _ => p c = false end →
  t +:+ u = t' +:+ u' → t = t' ∧ u = u'.
Proof.
  revert t'. induction t as [|c t IH]; intros [|d t'] Ht Ht' Hu Hu' Heq.
  - done.
  - change (u = String d (t' +:+ u')) in Heq. subst u. simpl in *.
    by rewrite Hu in Ht'.
  - change (String c (t +:+ u) = u') in Heq. subst u'. simpl in *. by rewrite Hu' in Ht.
  - rewrite !string_app_cons in Heq. injection Heq as -> Heq. simpl in Ht, Ht'.
    apply andb_true_iff in Ht as [_ Ht], Ht' as [_ Ht'].
    by destruct (IH t' Ht Ht' Hu Hu' Heq) as [-> ->].
Qed.

Definition identified (v : Value) : Prop :=
  ∀ w t t' u u', canonical_json v = Ok t → canonical_json w = Ok t' →
  stops u → stops u' → t +:+ u = t' +:+ u' → normal v = normal w ∧ u = u'.

(** The text after an element is a comma or the closing bracket. *)
Lemma elements_text_stops l r u :
  elements_text false l = Ok r → stops (r +:+ String "]" u).
Proof.
  destruct l as [|v l]; simpl; [by intros [= <-]|].
  intros (t & _ & (r' & _ & [= <-])%result_bind_Ok)%result_bind_Ok. done.
Qed.

Lemma members_text_stops l r u :
  members_text false l = Ok r → stops (r +:+ String "}" u).
Proof.
  destruct l as [|[k v] l]; simpl; [by intros [= <-]|].
  intros (key & _ & (t & _ & (r' & _ & [= <-])%result_bind_Ok)%result_bind_Ok)%result_bind_Ok. done.
Qed.

Lemma elements_identified l :
  Forall identified l →
  ∀ l' first t t' u u',
    elements_text first (map canonical_json l) = Ok t →
    elements_text first (map canonical_json l') = Ok t' →
    t +:+ String "]" u = t' +:+ String "]" u' → map normal l = map normal l' ∧ u = u'.
Proof.
  assert (∀ v l' first t' (u u' : string),
    elements_text first (map canonical_json (v :: l')) = Ok t' →
    String "]" u ≠ t' +:+ String "]" u') as Hmis.
  { intros v l' first t' u u' (t & Hv & (r & _ & [= <-])%result_bind_Ok)%result_bind_Ok.
    apply canonical_opens in Hv as (c & s & -> & Hc).
    destruct first; [|done]. rewrite !string_app_cons. intros [= <- _].
    by destruct v as [|[]| | | |]. }
  induction 1 as [|v l Hv _ IH]; intros [|w l'] first t t' u u' Ht Ht' Heq.
  - injection Ht as <-. injection Ht' as <-. by injection Heq.
  - injection Ht as <-. exfalso. by apply (Hmis _ _ _ _ _ _ Ht' Heq).
  - injection Ht' as <-. exfalso. by apply (Hmis _ _ _ _ _ _ Ht (eq_sym Heq)).
  - cbn [map elements_text] in Ht, Ht'.
    apply result_bind_Ok in Ht as (a & Ha & (r & Hr & [= <-])%result_bind_Ok).
    apply result_bind_Ok in Ht' as (a' & Ha' & (r' & Hr' & [= <-])%result_bind_Ok).
    rewrite <-!string_app_assoc in Heq. apply string_app_cancel in Heq.
    apply (Hv w a a') in Heq as [Hn Heq]; [|done|done|by eapply elements_text_stops|by eapply elements_text_stops].
    destruct (IH l' false r r' u u' Hr Hr' Heq) as [Hl ->]. simpl. by rewrite Hn, Hl.
Qed.

Lemma members_identified l :
  Forall (λ kv, identified kv.2) l →
  ∀ l' first t t' u u',
    members_text first (map (on_values canonical_json) l) = Ok t →
    members_text first (map (on_values canonical_json) l') = Ok t' →
    t +:+ String "}" u = t' +:+ String "}" u' →
    map (on_values normal) l = map (on_values normal) l' ∧ u = u'.
Proof.
  assert (∀ kv l' first t' (u u' : string),
    members_text first (map (on_values canonical_json) (kv :: l')) = Ok t' →
    String "}" u ≠ t' +:+ String "}" u') as Hmis.
  { intros [k v] l' first t' u u'. cbn [map on_values fst snd members_text].
    intros (key & Hk & (t & _ & (r & _ & [= <-])%result_bind_Ok)%result_bind_Ok)%result_bind_Ok.
    apply (string_quoted JT) in Hk as [s ->]. by destruct first. }
  induction 1 as [|[k v] l Hv _ IH]; intros [|[k' w] l'] first t t' u u' Ht Ht' Heq.
  - injection Ht as <-. injection Ht' as <-. by injection Heq.
  - injection Ht as <-. exfalso. by apply (Hmis _ _ _ _ _ _ Ht' Heq).
  - injection Ht' as <-. exfalso. by apply (Hmis _ _ _ _ _ _ Ht (eq_sym Heq)).
  - cbn [map on_values fst snd members_text] in Ht, Ht'.
    apply result_bind_Ok in Ht as (key & Hk & (a & Ha & (r & Hr & [= <-])%result_bind_Ok)%result_bind_Ok).
    apply result_bind_Ok in Ht' as (key' & Hk' & (a' & Ha' & (r' & Hr' & [= <-])%result_bind_Ok)%result_bind_Ok).
    rewrite <-!string_app_assoc in Heq. apply string_app_cancel in Heq.
    apply (string_delimited JT _ _ _ _ _ _ Hk Hk') in Heq as [-> Heq].
    apply string_app_cancel in Heq.
    apply (Hv w a a') in Heq as [Hn Heq]; [|done|done|by eapply members_text_stops|by eapply members_text_stops].
    destruct (IH l' false r r' u u' Hr Hr' Heq) as [Hl ->]. split; [|done].
    cbn [map]. f_equal; [|done]. unfold on_values. cbn [fst snd] in Hn |- *. by rewrite Hn.
Qed.

Lemma all_identified v : identified v.
Proof.
  induction v as [|b|n|s|l IH|m IH] using Value_nested_ind;
    intros w t t' u u' Ht Ht' Hu Hu' Heq;
    pose proof (canonical_opens _ _ Ht) as (c & x & Hx & Hc);
    pose proof (canonical_opens _ _ Ht') as (c' & x' & Hx' & Hc');
    assert (c = c') as <- by (rewrite Hx, Hx', !string_app_cons in Heq; by injection Heq);
    clear Hx Hx' x x'; destruct w as [|b'|n'|s'|l'|m']; simpl in Hc, Hc'; subst; try done;
    try (by destruct b); try (by destruct b').
  - injection Ht as <-. injection Ht' as <-. apply string_app_cancel in Heq. by subst.
  - destruct b, b'; try done; injection Ht as <-; injection Ht' as <-;
      apply string_app_cancel in Heq; by subst.
  - destruct (number_text JT _ _ Ht) as [Hn _], (number_text JT _ _ Ht') as [Hn' _].
    destruct (number_span is_number_char t t' u u') as [-> ->]; [done..|].
    by rewrite (number_inj JT n n' t').
  - by destruct (string_delimited JT s s' t t' u u') as [-> ->].
  - rewrite canonical_array in Ht, Ht'.
    apply result_bind_Ok in Ht as (a & Ha & [= <-]), Ht' as (a' & Ha' & [= <-]).
    rewrite <-!string_app_assoc in Heq. apply string_app_cancel in Heq.
    destruct (elements_identified l IH l' true a a' u u') as [Hl ->]; [done..|].
    split; [|done]. simpl. by f_equal.
  - rewrite canonical_object in Ht, Ht'.
    apply result_bind_Ok in Ht as (a & Ha & [= <-]), Ht' as (a' & Ha' & [= <-]).
    rewrite <-!string_app_assoc in Heq. apply string_app_cancel in Heq.
    assert (Forall (λ kv, identified kv.2) (btree_collect m)) as IH'.
    { apply Forall_forall. intros kv Hkv%elem_of_btree_collect. rewrite Forall_forall in IH. auto. }
    destruct (members_identified _ IH' (btree_collect m') true a a' u u') as [Hl ->]; [done..|].
    split; [|done]. rewrite !normal_object. by f_equal.
Qed.

End json.

(** The canonical text hashed for an entry's [detail] identifies the JSON
document: two values have the same text exactly when they are equal up to the
order of object members (and members shadowed by a later one of the same
name), at every depth. *)
Theorem canonical_json_identifies {AC : AuditCrates} (JT : JsonText) (v w : Value) (t : string) :
  canonical_json v = Ok t → (canonical_json w = Ok t ↔ normal v = normal w).
Proof.
  intros Hv. split.
  - intros Hw. by destruct (all_identified JT v w t t "" "" Hv Hw).
  - intros Hn. by rewrite <-canonical_json_normal, <-Hn, canonical_json_normal.
Qed.

(** ** The version 2 encoding *)

Section encoding.
Context {AC : AuditCrates}.
Implicit Types e : AuditEntry.

Definition tlv (f : N * Bytes) : Bytes :=
  f.1 :: be_bytes 8 (N.of_nat (length f.2) mod 18446744073709551616) ++ f.2.

Definition opt_field (tag : N) (o : option Bytes) : list (N * Bytes) :=
  match o with
  | Some v => [(tag, v)]
  | None => []
  end.

(** The fields in the order they are written. *)
Definition tlv_fields e (text : Bytes) : list (N * Bytes) :=
  [(1%N, uuid_as_bytes (community_id e)); (2%N, i64_be_bytes (seq e));
   (3%N, bytes_of_string (to_rfc3339 (to_storage_precision (created_at e))));
   (4%N, bytes_of_string (action_as_str (action e)))]
  ++ opt_field 5 (actor_pubkey e) ++ opt_field 6 (bytes_of_string <$> object_id e)
  ++ [(7%N, text)] ++ opt_field 8 (prev_hash e).

Definition V2_PREFIX : Bytes := bytes_of_string "buzz:audit:v2" ++ [0%N].

Lemma append_tlv_eq encoded tag value : append_tlv encoded tag value = encoded ++ tlv (tag, value).
Proof. done. Qed.

Lemma tlv_preimage_fields e :
  tlv_preimage e = let? text := canonical_detail e in Ok (V2_PREFIX ++ concat (map tlv (tlv_fields e text))).
Proof.
  unfold tlv_preimage, tlv_fields, V2_PREFIX. destruct (canonical_detail e) as [text|err].
  - cbn [result_bind]. f_equal. rewrite !append_tlv_eq.
    destruct (actor_pubkey e), (object_id e), (prev_hash e);
      cbn [opt_field fmap option_fmap option_map app map concat];
      rewrite ?append_tlv_eq, ?app_nil_r, <-!(assoc_L (++)); done.
  - done.
Qed.

(** Lengths and integers within the width they are written with. *)
Definition sized (l : list (N * Bytes)) : Prop :=
  Forall (λ f, (N.of_nat (length f.2) < 18446744073709551616)%N) l.

Lemma tlv_inj f g u u' :
  (N.of_nat (length f.2) < 18446744073709551616)%N →
  (N.of_nat (length g.2) < 18446744073709551616)%N →
  tlv f ++ u = tlv g ++ u' → f = g ∧ u = u'.
Proof.
  destruct f as [t v], g as [t' v']. cbn [fst snd]. intros Hv Hv' Heq. unfold tlv in Heq. cbn [fst snd] in Heq.
  rewrite !N.mod_small in Heq by done. rewrite <-!app_comm_cons, <-!(assoc_L (++)) in Heq.
  assert (t = t') as <- by congruence. apply (f_equal tail) in Heq. cbn [tail] in Heq.
  apply app_inj_1 in Heq as [Hlen Heq]; [|by rewrite !length_be_bytes].
  apply be_bytes_inj in Hlen; [|done..].
  apply app_inj_1 in Heq as [-> ->]; [done|lia].
Qed.

Lemma tlv_concat_inj l l' :
  sized l → sized l' → concat (map tlv l) = concat (map tlv l') → l = l'.
Proof.
  intros Hl. revert l'. induction Hl as [|f l Hf _ IH]; intros [|g l'] Hl' Heq; try done.
  apply Forall_cons in Hl' as [Hg Hl']. cbn [map concat] in Heq.
  apply tlv_inj in Heq as [-> Heq]; [|done..]. f_equal. auto.
Qed.

(** Two entries that agree on every field the hash covers. *)
Record same_content e e' : Prop := {
  same_community : community_id e = community_id e';
  same_seq : seq e = seq e';
  same_time : to_storage_precision (created_at e) = to_storage_precision (created_at e');
  same_action : action e = action e';
  same_actor : actor_pubkey e = actor_pubkey e';
  same_object : object_id e = object_id e';
  same_detail : normal (detail e) = normal (detail e');
  same_prev : prev_hash e = prev_hash e'
}.

(** What the encoding relies on: the bytes of a UUID and the RFC 3339 text of a
time truncated to microseconds identify them; JSON text as in [JsonText]. *)
Record EncodingLaws : Prop := {
  json_laws : JsonText;
  uuid_bytes_inj : ∀ u u' : Uuid, is_uuid u → is_uuid u' → uuid_as_bytes u = uuid_as_bytes u' → u = u';
  rfc3339_inj : ∀ t t', to_rfc3339 (trunc_subsecs_6 t) = to_rfc3339 (trunc_subsecs_6 t') →
                  trunc_subsecs_6 t = trunc_subsecs_6 t'
}.

Definition within_width e : Prop :=
  is_uuid (community_id e) ∧ is_i64 (seq e)
  ∧ ∀ text, canonical_detail e = Ok text → sized (tlv_fields e text).

Lemma action_as_str_inj a b : action_as_str a = action_as_str b → a = b.
Proof. by destruct a, b. Qed.

Lemma action_from_as_str a : action_from_str (action_as_str a) = Some a.
Proof. by destruct a. Qed.

Lemma fields_inj (a a' b b' c c' d d' x x' : Bytes) (p p' o o' h h' : option Bytes) :
  [(1%N, a); (2%N, b); (3%N, c); (4%N, d)]
      ++ opt_field 5 p ++ opt_field 6 o ++ [(7%N, x)] ++ opt_field 8 h
    = [(1%N, a'); (2%N, b'); (3%N, c'); (4%N, d')]
      ++ opt_field 5 p' ++ opt_field 6 o' ++ [(7%N, x')] ++ opt_field 8 h' →
  a = a' ∧ b = b' ∧ c = c' ∧ d = d' ∧ p = p' ∧ o = o' ∧ x = x' ∧ h = h'.
Proof. destruct p, p', o, o', h, h'; simpl; intros Heq; by simplify_eq. Qed.

Lemma tlv_preimage_content e e' p :
  EncodingLaws → within_width e → within_width e' →
  tlv_preimage e = Ok p → tlv_preimage e' = Ok p → same_content e e'.
Proof.
  intros [JT Huuid Htime] (Hu & Hi & Hs) (Hu' & Hi' & Hs') Hp Hp'. rewrite tlv_preimage_fields in Hp, Hp'.
  apply result_bind_Ok in Hp as (x & Hx & Hp), Hp' as (x' & Hx' & Hp').
  rewrite <-Hp' in Hp. apply (inj Ok), app_inv_head in Hp.
  apply tlv_concat_inj in Hp; [|by auto..].
  apply fields_inj in Hp as (Hc & Hq & Ht & Ha & Hpk & Hoid & -> & Hprev).
  apply map_err_Ok, result_bind_Ok in Hx as (t & Htext & [= Hb]).
  apply map_err_Ok, result_bind_Ok in Hx' as (t' & Htext' & [= Hb']).
  assert (t = t') as -> by (apply (inj bytes_of_string); congruence).
  constructor; try done.
  - by apply Huuid.
  - by apply i64_be_bytes_inj.
  - apply Htime. by apply (inj bytes_of_string).
  - apply action_as_str_inj. by apply (inj bytes_of_string).
  - revert Hoid. destruct (object_id e), (object_id e'); simpl; try done.
    intros [= ->%(inj bytes_of_string)]. done.
  - by destruct (all_identified JT (detail e) (detail e') t' t' "" "" Htext Htext').
Qed.
End encoding.

(** The version 2 encoding is injective: two entries whose encodings are the
same bytes agree on the community, the sequence number, the stored time, the
action, the actor, the object, the detail document and the previous hash.  No
byte can move from one field to another, and a present empty field differs
from an absent one. *)
Theorem tlv_encoding_injective {AC : AuditCrates} (L : EncodingLaws) (e e' : AuditEntry) (p : Bytes) :
  within_width e → within_width e' →
  tlv_preimage e = Ok p → tlv_preimage e' = Ok p → same_content e e'.
Proof. by apply tlv_preimage_content. Qed.

(** ** Verified runs of rows *)

Section chain.
Context {AC : AuditCrates} {AS : AuditStorage}.
Implicit Types (r : Row) (rows : list Row).

(** The hash the row after [rows] must name. *)
Definition last_hash (expected : option Bytes) rows : option Bytes :=
  match last rows with
  | Some r => Some (row_hash r)
  | None => expected
  end.

(** One row, checked against the hash it must name. *)
Definition row_verifies (expected : option Bytes) r : Prop :=
  ∃ e, row_to_audit_entry r = Ok e ∧ (∀ x, expected = Some x → prev_hash e = Some x)
    ∧ compute_hash e = Ok (hash e).

Lemma row_entry_fields r e :
  row_to_audit_entry r = Ok e →
  community_id e = row_community_id r ∧ seq e = row_seq r ∧ hash e = row_hash r
  ∧ prev_hash e = row_prev_hash r ∧ hash_version e = row_hash_version r
  ∧ detail e = row_detail r ∧ created_at e = row_created_at r.
Proof.
  unfold row_to_audit_entry. intros (a & _ & [= <-])%result_bind_Ok. done.
Qed.

Lemma verify_rows_cons expected r rows :
  verify_rows expected (r :: rows) = Ok true ↔
  row_verifies expected r ∧ verify_rows (Some (row_hash r)) rows = Ok true.
Proof.
  cbn [verify_rows]. unfold row_verifies. rewrite result_bind_Ok. split.
  - intros (e & He & H). pose proof (row_entry_fields _ _ He) as (_ & _ & Hh & _).
    destruct (match expected with Some x => _ | None => _ end) eqn:E; [done|].
    apply result_bind_Ok in H as (d & Hd & H). case_bool_decide as Heq; [done|].
    subst d. rewrite <-Hh. split; [|done]. exists e. split_and!; [done| |done].
    intros x ->. by apply bool_decide_eq_false, dec_stable in E.
  - intros [(e & He & Hprev & Hd) H]. pose proof (row_entry_fields _ _ He) as (_ & _ & Hh & _).
    exists e. split; [done|].
    assert (match expected with Some x => bool_decide (prev_hash e ≠ Some x) | None => false end = false)
      as ->.
    { destruct expected as [x|]; [|done]. apply bool_decide_eq_false. intros Hn. by apply Hn, Hprev. }
    rewrite Hd. cbn [result_bind]. rewrite bool_decide_false by auto. by rewrite Hh.
Qed.

Lemma verify_rows_snoc expected r rows :
  verify_rows expected (rows ++ [r]) = Ok true ↔
  verify_rows expected rows = Ok true ∧ row_verifies (last_hash expected rows) r.
Proof.
  revert expected. induction rows as [|r' rows IH]; intros expected.
  - cbn [app]. rewrite verify_rows_cons. unfold last_hash. simpl. tauto.
  - cbn [app]. rewrite !verify_rows_cons, IH.
    assert (last_hash (Some (row_hash r')) rows = last_hash expected (r' :: rows)) as ->.
    { unfold last_hash. rewrite last_cons. by destruct (last rows). }
    tauto.
Qed.

(** The loop never answers [Ok(false)]. *)
Lemma verify_rows_not_false expected rows : verify_rows expected rows ≠ Ok false.
Proof.
  revert expected. induction rows as [|r rows IH]; intros expected; [done|]. cbn [verify_rows].
  intros (e & _ & H)%result_bind_Ok. case_match; [done|].
  apply result_bind_Ok in H as (d & _ & H). case_bool_decide; [done|]. by apply IH in H.
Qed.

Lemma row_verifies_weaken expected r : row_verifies expected r → row_verifies None r.
Proof. intros (e & ? & _ & ?). by exists e. Qed.

Lemma verify_rows_weaken expected rows :
  verify_rows expected rows = Ok true → verify_rows None rows = Ok true.
Proof.
  destruct rows as [|r rows]; [done|]. rewrite !verify_rows_cons.
  intros [?%row_verifies_weaken ?]. done.
Qed.

(** *** A range of a verified run verifies *)

Definition seq_lt r r' : Prop := (row_seq r < row_seq r')%Z.

Lemma verify_rows_prefix expected rows to_seq :
  StronglySorted seq_lt rows → verify_rows expected rows = Ok true →
  verify_rows expected (filter (λ r, (row_seq r <= to_seq)%Z) rows) = Ok true.
Proof.
  intros Hs. revert expected. induction Hs as [|r rows _ IH Hr]; intros expected; [done|].
  rewrite verify_rows_cons, filter_cons. intros [Hv Hrows]. case_decide.
  - rewrite verify_rows_cons. auto.
  - rewrite filter_drops; [done|]. eapply Forall_impl; [exact Hr|].
    intros r' Hr'. unfold seq_lt in Hr'. simpl. lia.
Qed.

Lemma verify_rows_suffix expected rows from_seq :
  StronglySorted seq_lt rows → verify_rows expected rows = Ok true →
  verify_rows None (filter (λ r, (from_seq <= row_seq r)%Z) rows) = Ok true.
Proof.
  intros Hs. revert expected. induction Hs as [|r rows _ IH Hr]; intros expected; [done|].
  rewrite filter_cons. case_decide.
  - intros H'%verify_rows_weaken. revert H'. rewrite !verify_rows_cons.
    rewrite (filter_keeps (λ r, (from_seq <= row_seq r)%Z) rows); [done|].
    eapply Forall_impl; [exact Hr|]. intros r' Hr'. unfold seq_lt in Hr'. simpl. lia.
  - rewrite verify_rows_cons. intros [_ Hrows]. by apply (IH _ Hrows).
Qed.

(** *** Tampering *)

(** The bytes whose SHA-256 is compared with a row's hash. *)
Definition hash_input (r : Row) (p : Bytes) : Prop :=
  ∃ e, row_to_audit_entry r = Ok e
    ∧ (if decide (hash_version e = 1%Z) then legacy_preimage e else tlv_preimage e) = Ok p.

(** A SHA-256 collision between two rows: different inputs, one hash. *)
Definition collide (r r' : Row) : Prop :=
  ∃ p p', hash_input r p ∧ hash_input r' p' ∧ p ≠ p' ∧ sha256 p = sha256 p'.
Definition collision (rows rows' : list Row) : Prop := ∃ r r', r ∈ rows ∧ r' ∈ rows' ∧ collide r r'.

Lemma collision_mono rows rows' l l' : rows ⊆ l → rows' ⊆ l' → collision rows rows' → collision l l'.
Proof. intros H H' (r & r' & Hr & Hr' & Hc). exists r, r'. auto. Qed.

(** A UUID of the RFC 4122 variant: 16 bytes, the ninth opening with [10]. *)
Definition rfc4122 (u : Uuid) : Prop :=
  length (uuid_as_bytes u) = 16 ∧
  ∃ b, uuid_as_bytes u !! 8 = Some b ∧ N.land b 192 = 128%N.

(** The two encodings of a community's entries never coincide. *)
Lemma preimages_differ e e' p :
  rfc4122 (community_id e) → legacy_preimage e = Ok p → tlv_preimage e' = Ok p → False.
Proof.
  intros [Hlen (b & Hb & Hvar)] Hl Ht. rewrite tlv_preimage_fields in Ht.
  apply result_bind_Ok in Ht as (x & _ & Ht). apply (inj Ok) in Ht as <-.
  unfold legacy_preimage in Hl. apply result_bind_Ok in Hl as (y & _ & Heq).
  apply (inj Ok) in Heq. apply (f_equal (λ l, l !! 8)) in Heq. cbn beta in Heq.
  rewrite (lookup_app_l V2_PREFIX) in Heq by (vm_compute; lia).
  assert (V2_PREFIX !! 8 = Some 105%N) as Hp by done. rewrite Hp in Heq.
  assert (∀ t : Bytes, (uuid_as_bytes (community_id e) ++ t) !! 8 = Some b) as Hu.
  { intros t. rewrite lookup_app_l by lia. done. }
  destruct (actor_pubkey e), (object_id e), (prev_hash e); rewrite <-!(assoc_L (++)), Hu in Heq;
    injection Heq as ->; vm_compute in Hvar; done.
Qed.

Definition row_within_width r : Prop := ∀ e, row_to_audit_entry r = Ok e → within_width e.

(** Two rows with the same hash, one of them written in the current version. *)
Definition same_row r r' : Prop :=
  row_hash r = row_hash r' ∧ row_hash_version r = row_hash_version r' ∧
  ∃ e e', row_to_audit_entry r = Ok e ∧ row_to_audit_entry r' = Ok e' ∧ same_content e e'.

Lemma compute_hash_current e d :
  hash_version e = CURRENT_HASH_VERSION → compute_hash e = Ok d →
  ∃ p, tlv_preimage e = Ok p ∧ d = sha256 p.
Proof.
  unfold compute_hash. intros ->. rewrite decide_False, decide_True by done.
  intros (p & ? & [= <-])%result_bind_Ok. eauto.
Qed.

Lemma same_hash_same_row (L : EncodingLaws) c exp exp' r r' :
  rfc4122 c → row_community_id r = c → row_community_id r' = c →
  row_within_width r → row_within_width r' →
  row_hash_version r = CURRENT_HASH_VERSION → row_hash r = row_hash r' →
  row_verifies exp r → row_verifies exp' r' → collide r r' ∨ same_row r r'.
Proof.
  intros Hc Hr Hr' Hw Hw' Hv Hh (e & He & _ & Hd) (e' & He' & _ & Hd').
  pose proof (row_entry_fields _ _ He) as (Hec & _ & Heh & _ & Hev & _).
  pose proof (row_entry_fields _ _ He') as (Hec' & _ & Heh' & _ & Hev' & _).
  apply compute_hash_current in Hd as (p & Hp & Hsha); [|congruence].
  assert (hash_input r p) as Hi by (exists e; rewrite decide_False; [done|by rewrite Hev, Hv]).
  unfold compute_hash in Hd'. case_decide as H1; [|case_decide as H2; [|done]].
  - apply result_bind_Ok in Hd' as (p' & Hp' & [= Hsha']). left.
    exists p, p'. split; [done|]. split; [exists e'; by rewrite decide_True|]. split; [|congruence]. intros ->. apply (preimages_differ e' e p'); [congruence|done..].
  - apply result_bind_Ok in Hd' as (p' & Hp' & [= Hsha']).
    destruct (decide (p = p')) as [<-|Hne].
    + right. split; [done|]. split; [congruence|]. exists e, e'. split_and!; [done..|].
      apply (tlv_preimage_content e e' p); auto.
    + left. exists p, p'. split; [done|]. split; [exists e'; by rewrite decide_False|]. split; [done|congruence].
Qed.

Lemma row_verifies_prev r x : row_verifies (Some x) r → row_prev_hash r = Some x.
Proof.
  intros (e & He & Hprev & _). pose proof (row_entry_fields _ _ He) as (_ & _ & _ & Hp & _).
  rewrite <-Hp. by apply Hprev.
Qed.

Lemma last_hash_app exp rows r : last_hash exp (rows ++ [r]) = Some (row_hash r).
Proof. unfold last_hash. by rewrite last_snoc. Qed.

(** From the same head hash, a verified run is a suffix of the original one. *)
Lemma verified_run_is_suffix (L : EncodingLaws) c rows rows' :
  rfc4122 c →
  Forall (λ r, row_community_id r = c ∧ row_within_width r) (rows ++ rows') →
  Forall (λ r, row_hash_version r = CURRENT_HASH_VERSION) rows →
  verify_rows None rows = Ok true → verify_rows None rows' = Ok true →
  (∀ r, head rows = Some r → row_prev_hash r = None) →
  last_hash None rows = last_hash None rows' →
  collision rows rows' ∨ ∃ old kept, rows = old ++ kept ∧ Forall2 same_row kept rows'.
Proof.
  intros Hc Hall Hver Hv Hv' Hfirst Hlast. revert rows Hall Hver Hv Hfirst Hlast.
  induction rows' as [|r' rows' IH] using rev_ind; intros rows Hall Hver Hv Hfirst Hlast.
  { right. exists rows, []. by rewrite app_nil_r. }
  destruct rows as [|r rows _] using rev_ind.
  { rewrite last_hash_app in Hlast. done. }
  rewrite !last_hash_app in Hlast. injection Hlast as Hh.
  apply verify_rows_snoc in Hv as [Hv Hr], Hv' as [Hv' Hr'].
  rewrite !Forall_app, !Forall_singleton in Hall.
  rewrite Forall_app, Forall_singleton in Hver. destruct Hver as [Hver Hrv].
  destruct Hall as [[Hall1 [Hrc Hrw]] [Hall2 [Hrc' Hrw']]].
  destruct (same_hash_same_row L c _ _ r r' Hc Hrc Hrc' Hrw Hrw' Hrv Hh Hr Hr') as [Hcol|Hs];
    [left; exists r, r'; split_and!; [set_solver..|done]|].
  assert (row_prev_hash r = row_prev_hash r') as Hprev.
  { destruct Hs as (_ & _ & e & e' & He & He' & Hs).
    apply row_entry_fields in He as (_ & _ & _ & <- & _), He' as (_ & _ & _ & <- & _). apply Hs. }
  destruct rows' as [|s' rows' _] using rev_ind.
  { right. exists rows, [r]. split; [done|]. by constructor. }
  rewrite last_hash_app in Hr'. apply row_verifies_prev in Hr'.
  destruct rows as [|s rows _] using rev_ind.
  { specialize (Hfirst r eq_refl). congruence. }
  rewrite last_hash_app in Hr. apply row_verifies_prev in Hr.
  destruct (IH Hv' (rows ++ [s])) as [Hcol|(old & kept & Heq & Hkept)]; [by rewrite Forall_app|done..| |
    |left; by eapply collision_mono; [..|exact Hcol]; set_solver|].
  - intros x Hx. apply Hfirst. by destruct rows.
  - rewrite !last_hash_app. congruence.
  - right. exists old, (kept ++ [r]). rewrite Heq, (assoc_L (++)). split; [done|].
    apply Forall2_app; [done|]. by constructor.
Qed.
End chain.

(** ** Tables the service writes *)

Section written.
Context {AC : AuditCrates} {AS : AuditStorage}.
Implicit Types (table : list Row) (c : Uuid).

#[local] Instance seq_asc_trans : Transitive seq_asc.
Proof. intros r s t. unfold seq_asc. lia. Qed.
#[local] Instance seq_asc_total : Total seq_asc.
Proof. intros r s. unfold seq_asc. lia. Qed.
#[local] Instance seq_desc_trans : Transitive seq_desc.
Proof. intros r s t. unfold seq_desc. lia. Qed.
#[local] Instance seq_desc_total : Total seq_desc.
Proof. intros r s. unfold seq_desc. lia. Qed.

(** A community's rows in insertion order. *)
Definition rows_of c table : list Row := filter (λ r, row_community_id r = c) table.

(** The chain of a community: consecutive numbers from 1, every row in the
current version, linked and hashed. *)
Record chain_written c table : Prop := {
  written_seq i r : rows_of c table !! i = Some r → row_seq r = Z.of_nat (S i);
  written_version : Forall (λ r, row_hash_version r = CURRENT_HASH_VERSION) (rows_of c table);
  written_first r : head (rows_of c table) = Some r → row_prev_hash r = None;
  written_verifies : verify_rows None (rows_of c table) = Ok true
}.

Definition well_written table : Prop := ∀ c, chain_written c table.

Lemma well_written_nil : well_written [].
Proof. by constructor. Qed.

Lemma seq_lt_lookup (l : list Row) :
  (∀ i j r s, l !! i = Some r → l !! j = Some s → i < j → seq_lt r s) → StronglySorted seq_lt l.
Proof.
  induction l as [|r l IH]; intros H; constructor.
  - apply IH. intros i j x y Hx Hy Hij. apply (H (S i) (S j)); [done..|lia].
  - apply Forall_lookup_2. intros i x Hx. apply (H 0 (S i)); [done..|lia].
Qed.

Lemma written_sorted c table : chain_written c table → StronglySorted seq_lt (rows_of c table).
Proof.
  intros [Hseq _ _ _]. apply seq_lt_lookup. intros i j r s Hr Hs Hij. unfold seq_lt.
  rewrite (Hseq i r Hr), (Hseq j s Hs). lia.
Qed.

(** Sorting an increasing list changes nothing. *)
Lemma sorted_unique (l l' : list Row) :
  StronglySorted seq_lt l → StronglySorted seq_asc l' → l' ≡ₚ l → l' = l.
Proof.
  intros Hl. revert l'. induction Hl as [|r l _ IH Hr]; intros l' Hl' Hperm.
  { by apply Permutation_nil_r in Hperm. }
  destruct l' as [|r' l']; [by apply Permutation_nil_cons in Hperm|].
  apply StronglySorted_inv in Hl' as [Hl' Hr'].
  assert (r' = r) as ->.
  { assert (r' ∈ r :: l) as [->|Hin]%elem_of_cons by (rewrite <-Hperm; set_solver); [done|].
    assert (r ∈ r' :: l') as [->|Hin']%elem_of_cons by (rewrite Hperm; set_solver); [done|].
    rewrite Forall_forall in Hr, Hr'. specialize (Hr _ Hin). specialize (Hr' _ Hin').
    unfold seq_lt, seq_asc in *. lia. }
  f_equal. apply IH; [done|]. by apply Permutation_cons_inv in Hperm.
Qed.

Lemma merge_sort_increasing (l : list Row) : StronglySorted seq_lt l → merge_sort seq_asc l = l.
Proof.
  intros Hl. apply sorted_unique; [done| |apply merge_sort_Permutation].
  apply StronglySorted_merge_sort; apply _.
Qed.

(** The head the next entry chains to is the last row inserted. *)
Lemma head_row_last c table : chain_written c table → head_row c table = last (rows_of c table).
Proof.
  intros Hc. unfold head_row. fold (rows_of c table).
  pose proof (merge_sort_Permutation seq_desc (rows_of c table)) as Hperm.
  pose proof (StronglySorted_merge_sort seq_desc (rows_of c table)) as Hs.
  destruct (merge_sort seq_desc (rows_of c table)) as [|r l].
  { apply Permutation_nil_l in Hperm. by rewrite <-Hperm. }
  apply StronglySorted_inv in Hs as [_ Hall].
  assert (r ∈ rows_of c table) as [i Hi]%list_elem_of_lookup by (rewrite <-Hperm; set_solver).
  destruct (last (rows_of c table)) as [s|] eqn:Hlast.
  2:{ apply last_None in Hlast. by rewrite Hlast in Hi. }
  simpl. f_equal. rewrite last_lookup in Hlast.
  assert (s = r ∨ seq_desc r s) as [->|Hle].
  { assert (s ∈ r :: l) as [->|Hin]%elem_of_cons
      by (rewrite Hperm; by eapply list_elem_of_lookup_2); [by left|].
    rewrite Forall_forall in Hall. right. by apply Hall. }
  { done. }
  unfold seq_desc in Hle. rewrite (written_seq c table Hc _ _ Hi), (written_seq c table Hc _ _ Hlast) in Hle.
  pose proof (lookup_lt_Some _ _ _ Hi).
  assert (i = pred (length (rows_of c table))) as -> by lia. congruence.
Qed.

(** *** Appending *)

(** What the store relies on: truncating twice changes nothing, Postgres keeps
microseconds, and [JSONB] keeps the document. *)
Record StorageLaws : Prop := {
  trunc_idem : ∀ t, trunc_subsecs_6 (trunc_subsecs_6 t) = trunc_subsecs_6 t;
  timestamptz_micros : ∀ t, pg_timestamptz (trunc_subsecs_6 t) = trunc_subsecs_6 t;
  jsonb_document : ∀ v, normal (pg_jsonb v) = normal v
}.

(** The entry read back from the row of [e]. *)
Definition stored (e : AuditEntry) : AuditEntry :=
  {| community_id := community_id e; seq := seq e; hash_version := hash_version e; hash := hash e;
     prev_hash := prev_hash e; action := action e; actor_pubkey := actor_pubkey e;
     object_id := object_id e; detail := pg_jsonb (detail e);
     created_at := pg_timestamptz (created_at e) |}.

Lemma row_of_entry_read e : row_to_audit_entry (row_of_entry e) = Ok (stored e).
Proof. unfold row_to_audit_entry. simpl row_action. by rewrite action_from_as_str. Qed.

Lemma canonical_detail_stored (SL : StorageLaws) e : canonical_detail (stored e) = canonical_detail e.
Proof.
  unfold canonical_detail. simpl detail.
  by rewrite <-(canonical_json_normal (pg_jsonb _)), (jsonb_document SL), canonical_json_normal.
Qed.

Lemma stored_same_content (SL : StorageLaws) e t :
  created_at e = trunc_subsecs_6 t → same_content (stored e) e.
Proof.
  intros Ht. constructor; try done.
  - simpl. by rewrite Ht, (timestamptz_micros SL).
  - apply (jsonb_document SL).
Qed.

Lemma compute_hash_stored (SL : StorageLaws) e t :
  created_at e = trunc_subsecs_6 t → compute_hash (stored e) = compute_hash e.
Proof.
  intros Ht. unfold compute_hash, compute_legacy_hash, compute_tlv_hash, legacy_preimage, tlv_preimage.
  rewrite (canonical_detail_stored SL). simpl hash_version. simpl community_id. simpl seq.
  simpl action. simpl actor_pubkey. simpl object_id. simpl prev_hash. simpl created_at.
  by rewrite Ht, (timestamptz_micros SL).
Qed.

Lemma rows_of_snoc c table r :
  rows_of c (table ++ [r]) = rows_of c table ++ (if decide (row_community_id r = c) then [r] else []).
Proof. unfold rows_of. by rewrite filter_app, filter_cons, filter_nil. Qed.

Lemma chain_written_snoc c table r :
  chain_written c table →
  row_seq r = Z.of_nat (S (length (rows_of c table))) →
  row_hash_version r = CURRENT_HASH_VERSION →
  row_prev_hash r = row_hash <$> last (rows_of c table) →
  row_verifies None r →
  row_community_id r = c → chain_written c (table ++ [r]).
Proof.
  intros Hc Hseq Hv Hprev Hver Heq. pose proof (rows_of_snoc c table r) as Hrows.
  rewrite decide_True in Hrows by done. constructor; rewrite Hrows.
  - intros i x Hx. apply lookup_app_Some in Hx as [Hx|[Hi Hx]].
    + by apply (written_seq c table Hc).
    + apply list_lookup_singleton_Some in Hx as [Hi' <-]. rewrite Hseq. f_equal. lia.
  - apply Forall_app. split; [apply Hc|]. by constructor.
  - intros x Hx. destruct (rows_of c table) as [|y l] eqn:E; simpl in *.
    + injection Hx as <-. done.
    + apply (written_first c table Hc). by rewrite E.
  - apply verify_rows_snoc. split; [apply Hc|]. destruct Hver as (e & He & _ & Hd).
    exists e. split_and!; [done| |done]. intros x Hx.
    pose proof (row_entry_fields _ _ He) as (_ & _ & _ & -> & _). rewrite Hprev.
    unfold last_hash in Hx. by destruct (last (rows_of c table)).
Qed.

Lemma wrap_i64_id z : is_i64 z → wrap_i64 z = z.
Proof. unfold wrap_i64, is_i64. intros Hz. rewrite Z.mod_small; lia. Qed.

(** The row a successful append adds. *)
Definition appended (now : DateTime) (entry : NewAuditEntry) table (e : AuditEntry) : Prop :=
  let chain := rows_of (new_community_id entry) table in
  compute_hash e = Ok (hash e) ∧ hash_version e = CURRENT_HASH_VERSION
  ∧ community_id e = new_community_id entry ∧ seq e = Z.of_nat (S (length chain))
  ∧ prev_hash e = row_hash <$> last chain ∧ action e = new_action entry
  ∧ actor_pubkey e = new_actor_pubkey entry ∧ object_id e = new_object_id entry
  ∧ detail e = new_detail entry ∧ created_at e = trunc_subsecs_6 now.

Lemma log_steps db now entry table res table' :
  chain_written (new_community_id entry) table →
  (Z.of_nat (length (rows_of (new_community_id entry) table)) < 9223372036854775807)%Z →
  log db now entry table = (res, table') →
  (table' = table ∧ is_ok res = false) ∨
  ∃ e, appended now entry table e ∧ table' = table ++ [row_of_entry e]
    ∧ (res = Ok e ∨ is_ok res = false).
Proof.
  intros Hc Hlen. unfold log, log_inner.
  destruct (acquire_ok db), (lock_ok db), (begin_ok db), (head_ok db); simpl negb; cbn iota;
    try (intros [= <- <-]; by left).
  rewrite (head_row_last _ _ Hc).
  set (chain := rows_of (new_community_id entry) table) in *.
  assert (match last chain with
          | Some row => (row_seq row, Some (row_hash row))
          | None => (0%Z, None)
          end = (Z.of_nat (length chain), row_hash <$> last chain)) as ->.
  { destruct (last chain) as [r|] eqn:E; simpl.
    - rewrite last_lookup in E. rewrite (written_seq _ _ Hc _ _ E).
      apply lookup_lt_Some in E. do 2 f_equal. fold chain in E |- *. lia.
    - apply last_None in E. by rewrite E. }
  rewrite wrap_i64_id by (unfold is_i64; lia).
  destruct (compute_hash _) as [h|err] eqn:Hh; [|intros [= <- <-]; by left].
  destruct (insert_ok db); simpl negb; cbn iota; [|intros [= <- <-]; by left].
  unfold insert_row.
  destruct (existsb _ _); [intros [= <- <-]; by left|].
  match goal with |- context [row_of_entry ?x] => set (e := x) end.
  assert (appended now entry table e) as He.
  { subst e. unfold appended. fold chain. simpl. split_and!; try done. by f_equal; lia. }
  destruct (commit db); intros [= <- <-]; [right|by left|right]; exists e; auto.
Qed.
End written.

Section service_theorems.
Context {AC : AuditCrates} {AS : AuditStorage}.

Lemma appended_row_verifies (SL : StorageLaws) now entry table e :
  appended now entry table e → row_verifies None (row_of_entry e).
Proof.
  intros He. exists (stored e). split; [apply row_of_entry_read|]. split; [done|].
  rewrite (compute_hash_stored SL e now); apply He.
Qed.

Lemma append_well_written (SL : StorageLaws) now entry table e :
  appended now entry table e → well_written table → well_written (table ++ [row_of_entry e]).
Proof.
  intros He Hw c. pose proof He as (_ & Hv & Hcom & Hseq & Hprev & _).
  destruct (decide (community_id e = c)) as [Heq|Hne].
  - rewrite <-Hcom in Hseq, Hprev. rewrite Heq in Hseq, Hprev.
    apply chain_written_snoc; [apply Hw|done..| |done].
    by eapply appended_row_verifies.
  - pose proof (rows_of_snoc c table (row_of_entry e)) as Hrows.
    rewrite decide_False, app_nil_r in Hrows by done.
    destruct (Hw c). by constructor; rewrite Hrows.
Qed.

Lemma log_well_written (SL : StorageLaws) db now entry table :
  well_written table →
  (Z.of_nat (length (rows_of (new_community_id entry) table)) < 9223372036854775807)%Z →
  well_written (log db now entry table).2.
Proof.
  intros Hw Hlen. destruct (log db now entry table) as [res table'] eqn:Hlog.
  destruct (log_steps _ _ _ _ _ _ (Hw _) Hlen Hlog) as [[-> _]|(e & He & -> & _)]; [done|].
  by eapply append_well_written.
Qed.

(** A range of a written chain, as the query returns it. *)
Lemma select_range_written c from_seq to_seq table :
  chain_written c table →
  select_range c from_seq to_seq table
  = filter (λ r, (row_seq r <= to_seq)%Z) (filter (λ r, (from_seq <= row_seq r)%Z) (rows_of c table)).
Proof.
  intros Hc. unfold select_range.
  assert (filter (λ r, row_community_id r = c ∧ (from_seq <= row_seq r)%Z ∧ (row_seq r <= to_seq)%Z) table
    = filter (λ r, (row_seq r <= to_seq)%Z) (filter (λ r, (from_seq <= row_seq r)%Z) (rows_of c table)))
    as ->.
  { unfold rows_of. rewrite !list_filter_filter. apply list_filter_iff. naive_solver. }
  apply merge_sort_increasing. by do 2 apply filter_sorted; apply written_sorted.
Qed.
End service_theorems.

(** Appending keeps every chain intact.  From a table in which every
community's chain is well formed (numbered from 1 without a gap, every entry
linked to the one before it and hashed in the current version), [log] leaves
such a table, whatever call of the database fails and even when a commit's
outcome is unknown.  It touches no other community's rows; it either adds
nothing or adds one row at the end of the calling community's chain, and when
it returns an entry, the row added reads back as that entry. *)
Theorem log_extends_chain {AC : AuditCrates} {AS : AuditStorage} (SL : StorageLaws)
    (db : DbOutcome) (now : DateTime) (entry : NewAuditEntry) (table table' : list Row)
    (res : result AuditEntry AuditError) :
  well_written table →
  (Z.of_nat (length (rows_of (new_community_id entry) table)) < 9223372036854775807)%Z →
  log db now entry table = (res, table') →
  well_written table'
  ∧ (∀ c, c ≠ new_community_id entry → rows_of c table' = rows_of c table)
  ∧ (table' = table ∧ is_ok res = false
     ∨ ∃ e row, appended now entry table e ∧ table' = table ++ [row]
         ∧ (∃ e', row_to_audit_entry row = Ok e' ∧ same_content e' e ∧ hash e' = hash e)
         ∧ (res = Ok e ∨ is_ok res = false)).
Proof.
  intros Hw Hlen Hlog. pose proof (log_well_written SL db now entry table Hw Hlen) as Hw'.
  rewrite Hlog in Hw'. split; [done|].
  destruct (log_steps _ _ _ _ _ _ (Hw _) Hlen Hlog) as [[-> Hres]|(e & He & -> & Hres)].
  { split; [done|]. by left. }
  split.
  - intros c Hc. rewrite rows_of_snoc, decide_False, app_nil_r; [done|].
    pose proof He as (_ & _ & Hcom & _). simpl. congruence.
  - right. exists e, (row_of_entry e). split_and!; [done..| |done]. exists (stored e).
    split_and!; [apply row_of_entry_read| |done]. eapply stored_same_content; [done|apply He].
Qed.

(** What the service wrote, it verifies: in a well-written table,
[verify_chain] over any range answers true, and false only when the range
holds no row. *)
Theorem written_chains_verify {AC : AuditCrates} {AS : AuditStorage}
    (c : Uuid) (from_seq to_seq : Z) (table : list Row) :
  well_written table →
  verify_chain true c from_seq to_seq table
  = Ok (bool_decide (Exists (λ r, (from_seq <= row_seq r <= to_seq)%Z) (rows_of c table))).
Proof.
  intros Hw. pose proof (select_range_written c from_seq to_seq table (Hw c)) as Hsel.
  assert (verify_rows None (select_range c from_seq to_seq table) = Ok true) as Hv.
  { rewrite Hsel. pose proof (written_sorted c table (Hw c)). apply verify_rows_prefix.
    - by apply filter_sorted.
    - eapply verify_rows_suffix; [done|apply (Hw c)]. }
  unfold verify_chain. simpl negb. cbn iota.
  destruct (select_range c from_seq to_seq table) as [|r l] eqn:E.
  - rewrite bool_decide_false; [done|]. intros (r & Hr & Hrange)%Exists_exists.
    assert (r ∈ []) as []%not_elem_of_nil. rewrite Hsel, !list_elem_of_filter. tauto.
  - rewrite bool_decide_true; [done|]. apply Exists_exists. exists r.
    assert (r ∈ r :: l) as Hr by set_solver. rewrite Hsel, !list_elem_of_filter in Hr. tauto.
Qed.

(** C21. Tampering is detected.  Take the rows of a community from the start of
its chain: all in version 2 and the first linked to none, as the service writes
them now.  Take any table, forged at will, in which [verify_chain] over the same
range also answers true and whose last row has the same hash.  Then either a row
of each table is exhibited whose hashed bytes differ and have the same SHA-256, or
the forged rows are, in content, exactly the newest rows of the original: nothing
was altered, inserted, reordered or dropped from the middle, and the only rows
that can be missing are the oldest.  This holds although the verifier accepts
forged rows of the ambiguous version 1, because no version 1 input of a community
equals a version 2 input; an original with version 1 rows is not covered
([legacy_encoding_ambiguous]). *)
Theorem tampering_is_detected {AC : AuditCrates} {AS : AuditStorage} (L : EncodingLaws)
    (c : Uuid) (from_seq to_seq : Z) (original forged : list Row) :
  let rows := select_range c from_seq to_seq original in
  let rows' := select_range c from_seq to_seq forged in
  rfc4122 c →
  Forall row_within_width (rows ++ rows') →
  Forall (λ r, row_hash_version r = CURRENT_HASH_VERSION) rows →
  (∀ r, head rows = Some r → row_prev_hash r = None) →
  verify_chain true c from_seq to_seq original = Ok true →
  verify_chain true c from_seq to_seq forged = Ok true →
  last_hash None rows = last_hash None rows' →
  collision rows rows' ∨ ∃ old kept, rows = old ++ kept ∧ Forall2 same_row kept rows'.
Proof.
  intros rows rows' Hc Hw Hver Hfirst Hv Hv' Hlast.
  assert (∀ t, verify_chain true c from_seq to_seq t = Ok true →
    verify_rows None (select_range c from_seq to_seq t) = Ok true) as Hrun.
  { intros t. unfold verify_chain. simpl. by destruct (select_range c from_seq to_seq t). }
  assert (∀ t r, r ∈ select_range c from_seq to_seq t → row_community_id r = c) as Hcom.
  { intros t r. unfold select_range. rewrite merge_sort_Permutation, list_elem_of_filter. tauto. }
  apply (verified_run_is_suffix L c); try done; [|by apply Hrun..].
  rewrite Forall_forall in Hw |- *. intros r Hr. split; [|by apply Hw].
  apply elem_of_app in Hr as [Hr|Hr]; by eapply Hcom.
Qed.

(** * Concrete instances of the audit log's interfaces

A JSON printer, a clock, UUID bytes and a store small enough to compute with,
the proofs that they have the properties the theorems of [AuditProps] ask for,
and the theorems applied to a log of two entries. *)

(** A JSON string: quotes and backslashes escaped. *)
Fixpoint escape (s : string) : string :=
  match s with
  | EmptyString => ""
  | String c s' =>
      if bool_decide (c = quote ∨ c = "\"%char) then String "\" (String c (escape s'))
      else String c (escape s')
  end.

#[export] Instance toy_json_crate : JsonCrate := {
  JsonNumber := N; JsonError := unit;
  number_to_string := λ n, Ok (pretty n);
  string_to_string := λ s, Ok (String quote (escape s +:+ String quote ""))
}.

#[export] Instance toy_crates : AuditCrates := {
  ac_json := toy_json_crate; DateTime := N;
  trunc_subsecs_6 := λ t, (t / 1000 * 1000)%N;
  to_rfc3339 := λ t, pretty t;
  ac_uuid := be_uuid_bytes;
  sha256 := λ b, [foldl (λ h x, (h * 257 + x + 1)%N) 0%N b];
  pg_timestamptz := λ t, (t / 1000 * 1000)%N
}.

#[export] Instance toy_storage : AuditStorage := { pg_jsonb := λ v, v }.

Lemma escape_delimited s s' u u' :
  escape s +:+ String quote u = escape s' +:+ String quote u' → s = s' ∧ u = u'.
Proof.
  revert s'. induction s as [|c s IH]; intros [|d s']; cbn [escape].
  - by intros [= ->].
  - case_bool_decide as Hd; rewrite !string_app_cons; intros [= Hq].
    exfalso. apply Hd. by left.
  - case_bool_decide as Hc; rewrite !string_app_cons; intros [= Hq].
    exfalso. apply Hc. by left.
  - case_bool_decide as Hc; case_bool_decide as Hd; rewrite !string_app_cons.
    + intros [= -> Heq]. by destruct (IH s' Heq) as [-> ->].
    + intros [= Hq _]. exfalso. apply Hd. by right.
    + intros [= Hq _]. exfalso. apply Hc. by right.
    + intros [= -> Heq]. by destruct (IH s' Heq) as [-> ->].
Qed.

Lemma digits_are_number_chars s :
  string_forall is_ascii_digit s = true → string_forall is_number_char s = true.
Proof.
  induction s as [|c s IH]; simpl; [done|]. intros [Hc Hs]%andb_true_iff.
  rewrite IH by done. unfold is_number_char. by rewrite Hc.
Qed.

Lemma toy_json : JsonText.
Proof.
  constructor.
  - intros s t [= <-]. eauto.
  - intros s s' t t' u u' [= <-] [= <-]. rewrite !string_app_cons, <-!string_app_assoc.
    intros [= Heq]. by apply escape_delimited in Heq.
  - intros n t [= <-]. destruct (pretty_N_digits n) as (c & r & Hp & Hall & _).
    apply digits_are_number_chars in Hall. split; [done|]. exists c, r. split; [done|].
    rewrite Hp in Hall. simpl in Hall. by apply andb_true_iff in Hall as [? _].
  - intros n n' t [= <-] [= Heq]. by apply (inj pretty) in Heq.
Qed.

Lemma toy_encoding : EncodingLaws.
Proof.
  constructor; [exact toy_json| |].
  - intros u u' Hu Hu' Heq. by apply be_bytes_inj in Heq.
  - intros t t' Heq. by apply (inj pretty) in Heq.
Qed.

Lemma toy_store : StorageLaws.
Proof. constructor; simpl; try done; intros t; by rewrite N.div_mul. Qed.

(** *** A log of two entries *)

Definition toy_community : Uuid := (128 * 256 ^ 7 + 5)%N.
Definition db_up : DbOutcome :=
  {| acquire_ok := true; lock_ok := true; begin_ok := true; head_ok := true; insert_ok := true;
     commit := Committed |}.
Definition toy_entry (n : N) : NewAuditEntry :=
  {| new_community_id := toy_community; new_action := ChannelCreated;
     new_actor_pubkey := Some [1%N]; new_object_id := Some "c";
     new_detail := Object [("b", Number n); ("a", Array [Null; VString "x"])] |}.
Definition toy_table1 : list Row := (log db_up 1234567%N (toy_entry 1) []).2.
Definition toy_table2 : list Row := (log db_up 2345678%N (toy_entry 2) toy_table1).2.

Abbreviation toy_range table := (select_range toy_community 1 10 table).

(** The same log with its oldest row removed and a row of another community. *)
Definition forged_table : list Row :=
  tail toy_table2 ++
    [{| row_community_id := 7%N; row_seq := 1; row_hash := []; row_prev_hash := None;
        row_action := "auth_success"; row_actor_pubkey := None; row_object_id := None;
        row_detail := Null; row_created_at := 0%N; row_hash_version := 9 |}].

Lemma canonical_json_identifies_witness :
  normal (Object [("b", Null); ("a", Bool true)]) = normal (Object [("a", Bool true); ("b", Null)]).
Proof.
  assert (∃ t, canonical_json (Object [("b", Null); ("a", Bool true)]) = Ok t
    ∧ canonical_json (Object [("a", Bool true); ("b", Null)]) = Ok t) as (t & Hv & Hw).
  { eexists. split; vm_compute; reflexivity. }
  exact (proj1 (canonical_json_identifies toy_json _ _ t Hv) Hw).
Defined.

(** An entry that fits the widths it is written with. *)
Definition fits (e : AuditEntry) : bool :=
  (community_id e <? 340282366920938463463374607431768211456)%N
  && ((-9223372036854775808 <=? seq e)%Z && (seq e <? 9223372036854775808)%Z)
  && match canonical_detail e with
     | Ok text =>
         forallb (λ f, N.of_nat (length f.2) <? 18446744073709551616)%N (tlv_fields e text)
     | Err _ => true
     end.

Lemma fits_within e : fits e = true → within_width e.
Proof.
  unfold fits. intros [[Hu [Hi Hi']%andb_true_iff]%andb_true_iff Ht]%andb_true_iff.
  apply N.ltb_lt in Hu. apply Z.leb_le in Hi. apply Z.ltb_lt in Hi'.
  split_and!; [done..|]. intros text Htext. rewrite Htext in Ht. apply Forall_forall. intros f Hin.
  rewrite forallb_forall in Ht. apply N.ltb_lt, Ht. by apply list_elem_of_In.
Qed.

Definition row_fits (r : Row) : bool :=
  match row_to_audit_entry r with
  | Ok e => fits e
  | Err _ => true
  end.

Lemma row_fits_within r : row_fits r = true → row_within_width r.
Proof. unfold row_fits. intros Hf e He. rewrite He in Hf. by apply fits_within. Qed.

Lemma Forall_check {A : Type} (p : A → bool) (P : A → Prop) (l : list A) :
  (∀ x, p x = true → P x) → forallb p l = true → Forall P l.
Proof.
  intros HP. induction l as [|x l IH]; simpl; [by constructor|].
  intros [Hx Hl]%andb_true_iff. constructor; auto.
Qed.

Lemma toy_table2_written : well_written toy_table2.
Proof.
  apply log_well_written; [exact toy_store| |by vm_compute].
  apply log_well_written; [exact toy_store|apply well_written_nil|by vm_compute].
Qed.

Lemma toy_rfc4122 : rfc4122 toy_community.
Proof. split; [done|]. by exists 128%N. Qed.

Lemma log_extends_chain_witness :
  is_ok (log db_up 5%N (toy_entry 1) []).1 = true
    ∧ well_written (log db_up 5%N (toy_entry 1) []).2.
Proof.
  split; [vm_compute; reflexivity|].
  pose proof (log_extends_chain toy_store db_up 5%N (toy_entry 1) []
    (log db_up 5%N (toy_entry 1) []).2 (log db_up 5%N (toy_entry 1) []).1 well_written_nil
    ltac:(by vm_compute) eq_refl) as (Hw & _).
  exact Hw.
Defined.

Lemma written_chains_verify_witness : verify_chain true toy_community 1 10 toy_table2 = Ok true.
Proof. refine (eq_trans (written_chains_verify toy_community 1 10 toy_table2 toy_table2_written) _). by vm_compute. Defined.

(** Two entries that are stored alike. *)
Definition toy_audit_entry (t : N) (d : Value) : AuditEntry :=
  {| community_id := toy_community; seq := 1; hash_version := 2; hash := []; prev_hash := None;
     action := EventCreated; actor_pubkey := Some []; object_id := Some "o"; detail := d;
     created_at := t |}.
Definition toy_e1 : AuditEntry := toy_audit_entry 1234567%N (Object [("b", Null); ("a", Bool true)]).
Definition toy_e2 : AuditEntry := toy_audit_entry 1234999%N (Object [("a", Bool true); ("b", Null)]).

Lemma tlv_encoding_injective_witness : tlv_preimage toy_e2 = tlv_preimage toy_e1 ∧ same_content toy_e1 toy_e2.
Proof.
  assert (tlv_preimage toy_e2 = tlv_preimage toy_e1) as Heq by (vm_compute; reflexivity).
  split; [exact Heq|].
  destruct (tlv_preimage toy_e1) as [p|err] eqn:Hp; [|exfalso; vm_compute in Hp; discriminate Hp].
  refine (tlv_encoding_injective toy_encoding toy_e1 toy_e2 p _ _ Hp Heq);
    apply fits_within; vm_compute; reflexivity.
Defined.

Lemma toy_widths : Forall row_within_width (toy_range toy_table2 ++ toy_range forged_table).
Proof. apply (Forall_check row_fits); [exact row_fits_within|]. by vm_compute. Qed.

Lemma toy_versions : Forall (λ r, row_hash_version r = CURRENT_HASH_VERSION) (toy_range toy_table2).
Proof.
  apply (Forall_check (λ r, row_hash_version r =? 2)%Z); [intros r; apply Z.eqb_eq|]. by vm_compute.
Qed.

Lemma first_unlinked (l : list Row) :
  row_prev_hash <$> head l = Some None → ∀ r, head l = Some r → row_prev_hash r = None.
Proof. destruct l as [|x l]; simpl; [done|]. intros [= Hx] r [= <-]. exact Hx. Qed.

Lemma toy_first r : head (toy_range toy_table2) = Some r → row_prev_hash r = None.
Proof. apply first_unlinked. by vm_compute. Qed.

Lemma toy_verifies :
  verify_chain true toy_community 1 10 toy_table2 = Ok true
  ∧ verify_chain true toy_community 1 10 forged_table = Ok true
  ∧ last_hash None (toy_range toy_table2) = last_hash None (toy_range forged_table).
Proof. split_and!; by vm_compute. Qed.

Lemma tampering_is_detected_witness :
  collision (toy_range toy_table2) (toy_range forged_table) ∨ ∃ old kept, toy_range toy_table2 = old ++ kept
     ∧ Forall2 same_row kept (toy_range forged_table).
Proof.
  exact (tampering_is_detected toy_encoding toy_community 1 10 toy_table2 forged_table
    toy_rfc4122 toy_widths toy_versions toy_first (proj1 toy_verifies)
    (proj1 (proj2 toy_verifies)) (proj2 (proj2 toy_verifies))).
Defined.

(** The version 1 encoding is ambiguous, as its comment says: bytes of the
object identifier can move into the detail. *)
Example legacy_encoding_ambiguous :
  let e id d := {| community_id := toy_community; seq := 1; hash_version := 1; hash := [];
    prev_hash := None; action := EventCreated; actor_pubkey := None; object_id := Some id;
    detail := Number d; created_at := 0%N |} in
  legacy_preimage (e "1" 2%N) = legacy_preimage (e "" 12%N) ∧ ¬ same_content (e "1" 2%N) (e "" 12%N).
Proof. split; [by vm_compute|]. intros []. done. Qed.
