(* ===== verification/AudioRoom.v ===== *)
(** * AudioRoom: peer registry and frame fan-out of an audio room

Models [buzz-relay/src/audio/room.rs].  A method that holds the admission lock
is one step; a method of [&self] returns the new room.  [DashMap] and
[HashMap] are [gmap]s, and iteration takes its order from [HashOrder].

A bounded [mpsc] channel is the queue its receiver has not read yet, with the
capacity and whether the receiver is alive; [try_send] fails when it is full or
the receiver is gone.  The [broadcast] channel of roster deltas is the list of
what was sent.  [Uuid::new_v4] is an argument.  A [u8] that is incremented
wraps, as in a release build. *)
From S2P Require Import Prelude Text Encode Nostr.

(** ** Channels *)

Record Channel (A : Type) : Type := mkChannel {
  ch_queue : list A;
  ch_capacity : nat;
  ch_receiver : bool      (* the receiver has not been dropped *)
}.
Arguments mkChannel {A} _ _ _.
Arguments ch_queue {A} _.
Arguments ch_capacity {A} _.
Arguments ch_receiver {A} _.

(** [mpsc::channel]. *)
Definition channel {A : Type} (capacity : nat) : Channel A := mkChannel [] capacity true.

(** [Sender::try_send]: whether it succeeded, and the channel after it. *)
Definition try_send {A : Type} (m : A) (c : Channel A) : bool * Channel A :=
  if ch_receiver c && (length (ch_queue c) <? ch_capacity c)
  then (true, mkChannel (ch_queue c ++ [m]) (ch_capacity c) (ch_receiver c))
  else (false, c).

(** ** Data *)

Inductive PeerCtrl : Type :=
| Json (s : string)
| Close.

Record AudioPeer : Type := mkPeer {
  pubkey : string;
  audio_tx : Channel Bytes;
  ctrl_tx : Channel PeerCtrl;
  peer_index : N;          (* [u8] *)
  epoch : N;               (* [u8] *)
  protocol_version : N     (* [u8] *)
}.

Definition AUDIO_CHANNEL_CAPACITY : nat := 8.
Definition CTRL_CHANNEL_CAPACITY : nat := 32.
Definition MAX_PEERS_PER_ROOM : nat := 25.

Record RosterPeer : Type := mkRosterPeer {
  rp_pubkey : string;
  rp_index : N;
  rp_epoch : N
}.

Record RosterSnapshot : Type := mkSnapshot {
  snap_revision : N;
  snap_peers : list RosterPeer
}.

Record RosterDelta : Type := mkDelta {
  d_revision : N;
  d_joined : option RosterPeer;
  d_left : option RosterPeer
}.

Inductive AdmissionError : Type :=
| Ended
| Full
| VersionMismatch (pinned requested : N).

Record AdmissionGuard : Type := mkGuard {
  next_candidate : N;                (* [u8] *)
  active_indices : gset N;
  index_epochs : gmap N N;
  ended : bool;
  pinned_version : option N;
  roster_revision : N                (* [u64] *)
}.

(** [Room]; the peers, the admission guard with the lock's poison flag, and the
roster deltas sent so far. *)
Record Room : Type := mkRoom {
  room_community_id : Uuid;
  room_channel_id : Uuid;
  peers : gmap Uuid AudioPeer;
  guard : AdmissionGuard;
  poisoned : bool;
  roster_tx : list RosterDelta
}.

Definition with_guard (g : AdmissionGuard) (r : Room) : Room :=
  mkRoom (room_community_id r) (room_channel_id r) (peers r) g (poisoned r) (roster_tx r).
Definition with_peers (ps : gmap Uuid AudioPeer) (r : Room) : Room :=
  mkRoom (room_community_id r) (room_channel_id r) ps (guard r) (poisoned r) (roster_tx r).
Definition with_roster_tx (l : list RosterDelta) (r : Room) : Room :=
  mkRoom (room_community_id r) (room_channel_id r) (peers r) (guard r) (poisoned r) l.

Definition with_ended (b : bool) (g : AdmissionGuard) : AdmissionGuard :=
  mkGuard (next_candidate g) (active_indices g) (index_epochs g) b (pinned_version g) (roster_revision g).
Definition with_next (n : N) (g : AdmissionGuard) : AdmissionGuard :=
  mkGuard n (active_indices g) (index_epochs g) (ended g) (pinned_version g) (roster_revision g).
Definition with_active (s : gset N) (g : AdmissionGuard) : AdmissionGuard :=
  mkGuard (next_candidate g) s (index_epochs g) (ended g) (pinned_version g) (roster_revision g).
Definition with_epochs (m : gmap N N) (g : AdmissionGuard) : AdmissionGuard :=
  mkGuard (next_candidate g) (active_indices g) m (ended g) (pinned_version g) (roster_revision g).
Definition with_pinned (v : option N) (g : AdmissionGuard) : AdmissionGuard :=
  mkGuard (next_candidate g) (active_indices g) (index_epochs g) (ended g) v (roster_revision g).
Definition with_revision (n : N) (g : AdmissionGuard) : AdmissionGuard :=
  mkGuard (next_candidate g) (active_indices g) (index_epochs g) (ended g) (pinned_version g) n.

(** ** The index allocator *)

Definition guard_new : AdmissionGuard := mkGuard 0 ∅ ∅ false None 0.

Definition u8_wrapping_add1 (n : N) : N := ((n + 1) mod 256)%N.
Definition u64_wrapping_add1 (n : N) : N := ((n + 1) mod 18446744073709551616)%N.

Definition next_epoch_for (idx : N) (g : AdmissionGuard) : N * AdmissionGuard :=
  let slot := default 0%N (index_epochs g !! idx) in
  (slot, with_epochs (<[idx := u8_wrapping_add1 slot]> (index_epochs g)) g).

(** [if idx == 254 { 0 } else { idx + 1 }]. *)
Definition rotate (idx : N) : N := if decide (idx = 254%N) then 0%N else u8_wrapping_add1 idx.

(** The loop of [alloc], with [n] rounds left. *)
Fixpoint alloc_loop (n : nat) (g : AdmissionGuard) : option (N * N) * AdmissionGuard :=
  match n with
  | 0 => (None, g)
  | S n' =>
      let idx := next_candidate g in
      let g := with_next (rotate idx) g in
      if decide (idx ∈ active_indices g) then alloc_loop n' g
      else
        let g := with_active ({[idx]} ∪ active_indices g) g in
        let '(e, g) := next_epoch_for idx g in
        (Some (idx, e), g)
  end.

Definition alloc (g : AdmissionGuard) : option (N * N) * AdmissionGuard := alloc_loop 255 g.

(** ** The room *)

Definition room_new (community_id channel_id : Uuid) : Room :=
  mkRoom community_id channel_id ∅ guard_new false [].

Definition is_empty (r : Room) : bool := bool_decide (peers r = ∅).

Definition mark_ended (r : Room) : bool * Room :=
  if poisoned r then (false, r)
  else (is_empty r, with_guard (with_ended true (guard r)) r).

Definition clear_ended (r : Room) : Room :=
  if poisoned r then r else with_guard (with_ended false (guard r)) r.

(** The version test both admissions share: the pinned version, when another
one is requested. *)
Definition version_conflict (g : AdmissionGuard) (requested : N) : option N :=
  match pinned_version g with
  | Some pinned => if decide (pinned = requested) then None else Some pinned
  | None => None
  end.

(** [pinned_version.get_or_insert]. *)
Definition pin (requested : N) (g : AdmissionGuard) : AdmissionGuard :=
  with_pinned (Some (default requested (pinned_version g))) g.

(** What both admissions do once the index is allocated: insert the peer and
publish the join at the next revision. *)
Definition admit_at (peer_id : Uuid) (key : string) (requested idx e : N) (g : AdmissionGuard) (r : Room)
    : N * Room :=
  let ps := <[peer_id := mkPeer key (channel AUDIO_CHANNEL_CAPACITY) (channel CTRL_CHANNEL_CAPACITY)
                           idx e requested]> (peers r) in
  let revision := u64_wrapping_add1 (roster_revision g) in
  let delta := mkDelta revision (Some (mkRosterPeer key idx e)) None in
  (revision, with_roster_tx (roster_tx r ++ [delta])
               (with_guard (with_revision revision g) (with_peers ps r))).

(** [add_peer]: the peer's index, epoch and revision. *)
Definition add_peer (peer_id : Uuid) (key : string) (requested : N) (r : Room)
    : result (N * N * N) AdmissionError * Room :=
  let g := guard r in
  if poisoned r then (Err Ended, r)
  else if ended g then (Err Ended, r)
  else if MAX_PEERS_PER_ROOM <=? size (peers r) then (Err Full, r)
  else match version_conflict g requested with
  | Some pinned => (Err (VersionMismatch pinned requested), r)
  | None =>
      match alloc g with
      | (None, g) => (Err Full, with_guard g r)
      | (Some (idx, e), g) =>
          let g := pin requested g in
          let '(revision, r) := admit_at peer_id key requested idx e g r in
          (Ok (idx, e, revision), r)
      end
  end.

(** [add_peer_at_index]: the peer's epoch and revision. *)
Definition add_peer_at_index (peer_id : Uuid) (key : string) (requested idx : N) (r : Room)
    : result (N * N) AdmissionError * Room :=
  let g := guard r in
  if poisoned r then (Err Ended, r)
  else if ended g then (Err Ended, r)
  else if (MAX_PEERS_PER_ROOM <=? size (peers r)) || bool_decide (idx ∈ active_indices g) then (Err Full, r)
  else match version_conflict g requested with
  | Some pinned => (Err (VersionMismatch pinned requested), r)
  | None =>
      let g := pin requested g in
      let g := with_active ({[idx]} ∪ active_indices g) g in
      let '(e, g) := next_epoch_for idx g in
      let g := with_next (rotate idx) g in
      let '(revision, r) := admit_at peer_id key requested idx e g r in
      (Ok (e, revision), r)
  end.

(** What both removals do with a peer that was there: free its index and
publish the departure at the next revision. *)
Definition depart (peer_id : Uuid) (peer : AudioPeer) (r : Room) : RosterDelta * Room :=
  let g := with_active (active_indices (guard r) ∖ {[peer_index peer]}) (guard r) in
  let g := with_revision (u64_wrapping_add1 (roster_revision g)) g in
  let delta := mkDelta (roster_revision g) None
    (Some (mkRosterPeer (pubkey peer) (peer_index peer) (epoch peer))) in
  (delta, with_guard g (with_peers (delete peer_id (peers r)) r)).

Definition publish (delta : RosterDelta) (r : Room) : Room := with_roster_tx (roster_tx r ++ [delta]) r.

Definition remove_peer (peer_id : Uuid) (r : Room) : option RosterDelta * Room :=
  if poisoned r then (None, r)
  else match peers r !! peer_id with
  | None => (None, r)
  | Some peer =>
      let '(delta, r) := depart peer_id peer r in
      (Some delta, publish delta r)
  end.

Definition remove_peer_and_check_ended (peer_id : Uuid) (r : Room) : option (RosterDelta * bool) * Room :=
  if poisoned r then (None, r)
  else match peers r !! peer_id with
  | None => (None, r)
  | Some peer =>
      let '(delta, r) := depart peer_id peer r in
      let should_end := negb (ended (guard r)) && is_empty r in
      let r := if should_end then with_guard (with_ended true (guard r)) r else r in
      (Some (delta, should_end), publish delta r)
  end.

(** ** Frames and control messages *)

Definition with_audio_tx (c : Channel Bytes) (p : AudioPeer) : AudioPeer :=
  mkPeer (pubkey p) c (ctrl_tx p) (peer_index p) (epoch p) (protocol_version p).
Definition with_ctrl_tx (c : Channel PeerCtrl) (p : AudioPeer) : AudioPeer :=
  mkPeer (pubkey p) (audio_tx p) c (peer_index p) (epoch p) (protocol_version p).

Definition send_audio (frame : Bytes) (p : AudioPeer) : AudioPeer :=
  with_audio_tx (try_send frame (audio_tx p)).2 p.

(** The frame as it is sent on: the sender's index, its epoch from version 3 on,
and the bytes. *)
Definition prefixed_frame (sender : AudioPeer) (frame : Bytes) : Bytes :=
  peer_index sender :: (if (3 <=? protocol_version sender)%N then [epoch sender] else []) ++ frame.

Definition broadcast_frame (sender_id : Uuid) (frame : Bytes) (r : Room) : Room :=
  match peers r !! sender_id with
  | None => r
  | Some sender =>
      let prefixed := prefixed_frame sender frame in
      with_peers (map_imap (λ id p, Some (if decide (id = sender_id) then p else send_audio prefixed p))
        (peers r)) r
  end.

Definition deliver_prefixed (author_index : N) (prefixed : Bytes) (r : Room) : Room :=
  with_peers ((λ p, if decide (peer_index p = author_index) then p else send_audio prefixed p) <$> peers r) r.

(** A control message that cannot be queued closes the receiver: the sender is
replaced by one whose receiver is gone. *)
Definition send_control (json : string) (p : AudioPeer) : AudioPeer :=
  match try_send (Json json) (ctrl_tx p) with
  | (true, c) => with_ctrl_tx c p
  | (false, _) => with_ctrl_tx (mkChannel [] 1 false) p
  end.

Definition broadcast_control (json : string) (r : Room) : Room :=
  with_peers (send_control json <$> peers r) r.

(** ** Roster *)

Definition roster_entry (p : AudioPeer) : RosterPeer := mkRosterPeer (pubkey p) (peer_index p) (epoch p).

Definition roster_snapshot {HO : HashOrder} (r : Room) : RosterSnapshot :=
  mkSnapshot (roster_revision (guard r))
    (sort_by_key rp_index (map (λ kv, roster_entry kv.2) (hm_iter (peers r)))).

Definition peer_pubkeys {HO : HashOrder} (r : Room) : list (string * N) :=
  map (λ kv, (pubkey kv.2, peer_index kv.2)) (hm_iter (peers r)).

(** ** The manager

Rooms are shared ([Arc<Room>]): [heap] holds every room made, [rooms] the one a
channel resolves to.  [next] names the next room allocated. *)
Record AudioRoomManager : Type := mkManager {
  heap : gmap N Room;
  rooms : gmap (Uuid * Uuid) N;
  next : N
}.

Definition manager_new : AudioRoomManager := mkManager ∅ ∅ 0.

Definition get_or_create (community_id channel_id : Uuid) (m : AudioRoomManager) : N * AudioRoomManager :=
  match rooms m !! (community_id, channel_id) with
  | Some a => (a, m)
  | None =>
      (next m, mkManager (<[next m := room_new community_id channel_id]> (heap m))
                 (<[(community_id, channel_id) := next m]> (rooms m)) (next m + 1))
  end.

Definition get (community_id channel_id : Uuid) (m : AudioRoomManager) : option N :=
  rooms m !! (community_id, channel_id).

Definition get_unambiguous_by_channel {HO : HashOrder} (channel_id : Uuid) (m : AudioRoomManager)
    : option N :=
  match filter (λ kv, kv.1.2 = channel_id) (hm_iter (rooms m)) with
  | [(_, a)] => Some a
  | _ => None
  end.

(** A call on the room at [a]. *)
Definition update_room (a : N) (f : Room → Room) (m : AudioRoomManager) : AudioRoomManager :=
  mkManager (alter f a (heap m)) (rooms m) (next m).

Definition cleanup_if_empty (community_id channel_id : Uuid) (m : AudioRoomManager)
    : bool * AudioRoomManager :=
  match rooms m !! (community_id, channel_id) with
  | Some a =>
      if default false (is_empty <$> heap m !! a)
      then (true, mkManager (heap m) (delete (community_id, channel_id) (rooms m)) (next m))
      else (false, m)
  | None => (false, m)
  end.
