(* ===== verification/AudioRoomProps.v ===== *)
(** * AudioRoomProps: what an audio room guarantees

An invariant of every room reachable by its operations, and from it: seats and
routing indices, the order of refusals, epochs, the end of a room, the roster a
receiver reconstructs, and who receives which frame. *)
From S2P Require Import Prelude Text Encode Nostr AudioRoom.

(** ** Operations and reachable rooms *)

Inductive RoomOp : Type :=
| OpAdd (id : Uuid) (key : string) (version : N)
| OpAddAt (id : Uuid) (key : string) (version idx : N)
| OpRemove (id : Uuid)
| OpRemoveCheck (id : Uuid)
| OpEnd
| OpClear
| OpPoison                       (* a panic while the lock is held *)
| OpFrame (id : Uuid) (frame : Bytes)
| OpDeliver (author : N) (frame : Bytes)
| OpControl (json : string)
| OpReceiver (id : Uuid) (audio : Channel Bytes) (ctrl : Channel PeerCtrl).  (* a receiver reads or is dropped *)

Definition run (op : RoomOp) (r : Room) : Room :=
  match op with
  | OpAdd id key v => (add_peer id key v r).2
  | OpAddAt id key v idx => (add_peer_at_index id key v idx r).2
  | OpRemove id => (remove_peer id r).2
  | OpRemoveCheck id => (remove_peer_and_check_ended id r).2
  | OpEnd => (mark_ended r).2
  | OpClear => clear_ended r
  | OpPoison => mkRoom (room_community_id r) (room_channel_id r) (peers r) (guard r) true (roster_tx r)
  | OpFrame id frame => broadcast_frame id frame r
  | OpDeliver author frame => deliver_prefixed author frame r
  | OpControl json => broadcast_control json r
  | OpReceiver id audio ctrl => with_peers (alter (λ p, with_ctrl_tx ctrl (with_audio_tx audio p)) id (peers r)) r
  end.

(** A channel after its receiver read messages or was dropped. *)
Definition read_from {A : Type} (c c' : Channel A) : Prop :=
  ch_queue c `suffix_of` ch_queue c' ∧ ch_capacity c = ch_capacity c'
  ∧ (ch_receiver c = true → ch_receiver c' = true).

(** What the caller provides: a fresh UUID, a [u8] index, and receivers that
only take messages off the front of their queues. *)
Definition allowed (op : RoomOp) (r : Room) : Prop :=
  match op with
  | OpAdd id _ _ => peers r !! id = None
  | OpAddAt id _ _ idx => peers r !! id = None ∧ (idx < 256)%N
  | OpReceiver id audio ctrl =>
      ∀ p, peers r !! id = Some p →
        read_from audio (audio_tx p) ∧ read_from ctrl (ctrl_tx p)
  | _ => True
  end.

(** The rooms after runs of operations of [P]. *)
Inductive reaches_via (P : RoomOp → Prop) (r : Room) : Room → Prop :=
| reaches_refl : reaches_via P r r
| reaches_step r' op : reaches_via P r r' → P op → allowed op r' → reaches_via P r (run op r').

Definition reaches : Room → Room → Prop := reaches_via (λ _, True).

Definition reachable (r : Room) : Prop := ∃ c ch, reaches (room_new c ch) r.

(** ** The allocator *)

Lemma rotate_lt idx : (rotate idx < 255)%N ∨ (255 < idx)%N.
Proof.
  unfold rotate, u8_wrapping_add1. case_decide; [by left|].
  destruct (decide (idx < 254)%N); [left; rewrite N.mod_small; lia|].
  destruct (decide (idx = 255)%N) as [->|]; [left; done|]. right. lia.
Qed.

Lemma rotate_mod idx : (idx < 255)%N → rotate idx = ((idx + 1) mod 255)%N.
Proof.
  intros Hi. unfold rotate, u8_wrapping_add1. case_decide as H; [by subst|].
  rewrite !N.mod_small; lia.
Qed.

(** The candidate probed in round [k]. *)
Definition candidate (g : AdmissionGuard) (k : nat) : N := ((next_candidate g + N.of_nat k) mod 255)%N.

Lemma candidate_0 g : (next_candidate g < 255)%N → candidate g 0 = next_candidate g.
Proof. intros. unfold candidate. rewrite N.mod_small; lia. Qed.

Lemma candidate_S g k :
  (next_candidate g < 255)%N →
  candidate (with_next (rotate (next_candidate g)) g) k = candidate g (S k).
Proof.
  intros Hn. unfold candidate. simpl next_candidate. rewrite rotate_mod by done.
  rewrite N.Div0.add_mod_idemp_l. f_equal. lia.
Qed.

(** The guard after index [idx] was taken. *)
Definition taken (idx : N) (g : AdmissionGuard) : AdmissionGuard :=
  mkGuard (rotate idx) ({[idx]} ∪ active_indices g)
    (<[idx := u8_wrapping_add1 (default 0%N (index_epochs g !! idx))]> (index_epochs g))
    (ended g) (pinned_version g) (roster_revision g).

Lemma alloc_loop_spec n g :
  (next_candidate g < 255)%N →
  match alloc_loop n g with
  | (Some (idx, e), g') =>
      ∃ k, k < n ∧ idx = candidate g k ∧ idx ∉ active_indices g
        ∧ (∀ j, j < k → candidate g j ∈ active_indices g)
        ∧ e = default 0%N (index_epochs g !! idx) ∧ g' = taken idx g
  | (None, g') => ∀ j, j < n → candidate g j ∈ active_indices g
  end.
Proof.
  revert g. induction n as [|n IH]; intros g Hn; cbn [alloc_loop]; [intros j Hj; lia|].
  case_decide as Hin.
  - specialize (IH (with_next (rotate (next_candidate g)) g)).
    destruct (alloc_loop n _) as [[[idx e]|] g'].
    + destruct IH as (k & Hk & -> & Hfree & Hbusy & -> & ->).
      { simpl. destruct (rotate_lt (next_candidate g)); lia. }
      rewrite candidate_S in * by done. exists (S k). split_and!; [lia|done..| |done|done].
      intros [|j] Hj; [by rewrite candidate_0|].
      rewrite <-candidate_S by done. apply Hbusy. lia.
    + intros [|j] Hj; [by rewrite candidate_0|]. rewrite <-candidate_S by done.
      apply IH; [|lia]. simpl. destruct (rotate_lt (next_candidate g)); lia.
  - simpl in Hin |- *. exists 0. rewrite candidate_0 by done. split_and!; [lia|done..| |done|done].
    intros j Hj. lia.
Qed.

(** A free index among the 255 is always found. *)
Lemma alloc_finds g :
  (next_candidate g < 255)%N → size (active_indices g) < 255 →
  ∃ idx e, alloc g = (Some (idx, e), taken idx g) ∧ (idx < 255)%N ∧ idx ∉ active_indices g
    ∧ e = default 0%N (index_epochs g !! idx)
    ∧ ∃ k, k < 255 ∧ idx = candidate g k ∧ ∀ j, j < k → candidate g j ∈ active_indices g.
Proof.
  intros Hn Hsize. pose proof (alloc_loop_spec 255 g Hn) as Hspec. unfold alloc.
  destruct (alloc_loop 255 g) as [[[idx e]|] g'].
  - destruct Hspec as (k & Hk & Hidx & Hfree & Hbusy & -> & ->). exists idx, (default 0%N (index_epochs g !! idx)).
    split_and!; [done| |done..|by exists k]. rewrite Hidx. unfold candidate. apply N.mod_lt. done.
  - exfalso. assert (NoDup (map (candidate g) (seq 0 255))) as Hnd.
    { apply NoDup_fmap_2_strong; [|apply NoDup_seq]. unfold candidate.
      intros x y Hx%elem_of_seq Hy%elem_of_seq Heq.
      pose proof (N.div_mod (next_candidate g + N.of_nat x) 255 ltac:(done)).
      pose proof (N.div_mod (next_candidate g + N.of_nat y) 255 ltac:(done)). lia. }
    pose proof (size_list_to_set (C := gset N) _ Hnd) as Hlen. rewrite length_map, length_seq in Hlen.
    assert ((list_to_set (map (candidate g) (seq 0 255)) : gset N) ⊆ active_indices g) as Hsub.
    { intros x. rewrite elem_of_list_to_set. intros (j & -> & Hj)%list_elem_of_fmap.
      apply elem_of_seq in Hj. apply Hspec. lia. }
    apply subseteq_size in Hsub. lia.
Qed.

(** ** The invariant *)

(** What a receiver does with one delta, on its map of indices. *)
Definition apply_delta (m : gmap N RosterPeer) (d : RosterDelta) : gmap N RosterPeer :=
  let m := match d_left d with Some p => delete (rp_index p) m | None => m end in
  match d_joined d with Some p => <[rp_index p := p]> m | None => m end.

(** The epochs given to the successive occupants of index [i]. *)
Definition occupants (i : N) (log : list RosterDelta) : list N :=
  omap (λ d, p ← d_joined d; if decide (rp_index p = i) then Some (rp_epoch p) else None) log.

Definition queues_ok (p : AudioPeer) : Prop :=
  length (ch_queue (audio_tx p)) <= AUDIO_CHANNEL_CAPACITY
  ∧ ch_capacity (audio_tx p) = AUDIO_CHANNEL_CAPACITY
  ∧ length (ch_queue (ctrl_tx p)) <= CTRL_CHANNEL_CAPACITY
  ∧ (ch_capacity (ctrl_tx p) = CTRL_CHANNEL_CAPACITY
     ∨ ch_queue (ctrl_tx p) = [] ∧ ch_receiver (ctrl_tx p) = false ∧ ch_capacity (ctrl_tx p) = 1).

Record room_ok (r : Room) : Prop := {
  ok_cap : size (peers r) <= MAX_PEERS_PER_ROOM;
  ok_active i : i ∈ active_indices (guard r) ↔ ∃ id p, peers r !! id = Some p ∧ peer_index p = i;
  ok_distinct a b p q :
    peers r !! a = Some p → peers r !! b = Some q → peer_index p = peer_index q → a = b;
  ok_next : (next_candidate (guard r) < 255)%N;
  ok_pinned id p : peers r !! id = Some p → pinned_version (guard r) = Some (protocol_version p);
  ok_occupants i : occupants i (roster_tx r)
                   = map (λ k, (N.of_nat k mod 256)%N) (seq 0 (length (occupants i (roster_tx r))));
  ok_epochs i : default 0%N (index_epochs (guard r) !! i)
                = (N.of_nat (length (occupants i (roster_tx r))) mod 256)%N;
  ok_replay i : foldl apply_delta ∅ (roster_tx r) !! i = None ↔ i ∉ active_indices (guard r);
  ok_roster id p : peers r !! id = Some p →
    foldl apply_delta ∅ (roster_tx r) !! peer_index p = Some (roster_entry p);
  ok_current id p : peers r !! id = Some p →
    last (occupants (peer_index p) (roster_tx r)) = Some (epoch p);
  ok_revisions k d : roster_tx r !! k = Some d → d_revision d = (N.of_nat (S k) mod 18446744073709551616)%N;
  ok_revision : roster_revision (guard r) = (N.of_nat (length (roster_tx r)) mod 18446744073709551616)%N
}.

Lemma room_new_ok c ch : room_ok (room_new c ch).
Proof.
  split; simpl; try done.
  - unfold MAX_PEERS_PER_ROOM. rewrite map_size_empty. lia.
  - intros i. split; [set_solver|]. intros (id & p & Hp & _). by rewrite lookup_empty in Hp.
Qed.

Lemma size_list_to_set_le (l : list N) : size (list_to_set (C := gset N) l) <= length l.
Proof.
  induction l as [|x l IH]; [done|]. cbn [list_to_set length]. rewrite size_union_alt, size_singleton.
  assert (list_to_set (C := gset N) l ∖ {[x]} ⊆ list_to_set l) as Hs%subseteq_size by set_solver. lia.
Qed.

(** The active indices are no more than the peers. *)
Lemma size_active r : room_ok r → size (active_indices (guard r)) <= size (peers r).
Proof.
  intros Hok. assert (active_indices (guard r) ⊆
    list_to_set (C := gset N) (map (λ kv, peer_index kv.2) (map_to_list (peers r)))) as Hsub.
  { intros i (id & p & Hp & <-)%(ok_active r Hok). apply elem_of_list_to_set, list_elem_of_fmap.
    exists (id, p). split; [done|]. by apply elem_of_map_to_list. }
  apply subseteq_size in Hsub. etrans; [exact Hsub|]. rewrite size_list_to_set_le, length_map.
  by rewrite length_map_to_list.
Qed.

Lemma occupants_join i log n p :
  occupants i (log ++ [mkDelta n (Some p) None])
  = occupants i log ++ (if decide (rp_index p = i) then [rp_epoch p] else []).
Proof. unfold occupants. rewrite omap_app. simpl. by case_decide. Qed.

Lemma occupants_left i log n p :
  occupants i (log ++ [mkDelta n None (Some p)]) = occupants i log.
Proof. unfold occupants. rewrite omap_app. simpl. by rewrite app_nil_r. Qed.

Lemma mod_succ n m : (0 < m)%N → ((N.of_nat n mod m + 1) mod m = N.of_nat (S n) mod m)%N.
Proof. intros Hm. rewrite N.Div0.add_mod_idemp_l. f_equal. lia. Qed.

(** The guard an admission publishes with. *)
Definition admits (g g' : AdmissionGuard) (version idx : N) : Prop :=
  active_indices g' = {[idx]} ∪ active_indices g
  ∧ index_epochs g' = <[idx := u8_wrapping_add1 (default 0%N (index_epochs g !! idx))]> (index_epochs g)
  ∧ pinned_version g' = Some version ∧ (next_candidate g' < 255)%N
  ∧ roster_revision g' = roster_revision g ∧ ended g' = ended g.

Lemma admit_ok id key version idx g' r :
  room_ok r → peers r !! id = None → idx ∉ active_indices (guard r) →
  size (peers r) < MAX_PEERS_PER_ROOM → version_conflict (guard r) version = None →
  admits (guard r) g' version idx →
  room_ok (admit_at id key version idx (default 0%N (index_epochs (guard r) !! idx)) g' r).2.
Proof.
  intros Hok Hid Hidx Hsize Hver (Hact & Hep & Hpin & Hnext & Hrev & Hend).
  assert (∀ a p, <[id := mkPeer key (channel AUDIO_CHANNEL_CAPACITY) (channel CTRL_CHANNEL_CAPACITY) idx
      (default 0%N (index_epochs (guard r) !! idx)) version]> (peers r) !! a = Some p →
      (a = id ∧ peer_index p = idx ∧ protocol_version p = version
       ∧ roster_entry p = mkRosterPeer key idx (default 0%N (index_epochs (guard r) !! idx))) ∨
      (a ≠ id ∧ peers r !! a = Some p ∧ peer_index p ≠ idx)) as Hcase.
  { intros a p [[<- <-]|[Hne Hp]]%lookup_insert_Some; [by left|]. right. split_and!; [done..|].
    intros Heq. apply Hidx, (ok_active r Hok). by exists a, p. }
  assert (∀ i, default 0%N (index_epochs g' !! i)
    = (N.of_nat (length (occupants i (roster_tx r) ++ (if decide (idx = i)
         then [default 0%N (index_epochs (guard r) !! idx)] else []))) mod 256)%N) as Hepochs.
  { intros i. rewrite Hep, length_app. case_decide as Hi.
    - subst i. rewrite lookup_insert_eq. simpl. rewrite (ok_epochs r Hok). unfold u8_wrapping_add1.
      rewrite mod_succ by done. do 2 f_equal. lia.
    - rewrite lookup_insert_ne by done. simpl. rewrite Nat.add_0_r. apply (ok_epochs r Hok). }
  unfold admit_at. split; simpl.
  - rewrite map_size_insert_None by done. lia.
  - intros i. rewrite Hact, elem_of_union, elem_of_singleton, (ok_active r Hok). split.
    + intros [->|(a & p & Hp & Hi)].
      * exists id. eexists. by rewrite lookup_insert_eq.
      * exists a, p. split; [|done]. rewrite lookup_insert_ne; [done|]. intros ->. congruence.
    + intros (a & p & Hp & Hi). destruct (Hcase a p Hp) as [(-> & Hpi & _)|(_ & Hp' & _)].
      * left. congruence.
      * right. by exists a, p.
  - intros a b p q Hp Hq Heq.
    destruct (Hcase a p Hp) as [(-> & Hpi & _)|(Ha & Hp' & Hpi)], (Hcase b q Hq) as [(-> & Hqi & _)|(Hb & Hq' & Hqi)];
      [done|congruence|congruence|]. by eapply (ok_distinct r Hok).
  - done.
  - intros a p Hp. rewrite Hpin. destruct (Hcase a p Hp) as [(_ & _ & -> & _)|(_ & Hp' & _)]; [done|].
    pose proof (ok_pinned r Hok a p Hp') as Hv. unfold version_conflict in Hver. rewrite Hv in Hver.
    case_decide; [congruence|done].
  - intros i. rewrite occupants_join. simpl. case_decide as Hi; [|rewrite app_nil_r; apply (ok_occupants r Hok)].
    rewrite length_app, seq_app, map_app, <-(ok_occupants r Hok). f_equal. simpl.
    by rewrite (ok_epochs r Hok), Hi.
  - intros i. rewrite Hepochs, occupants_join. simpl. done.
  - intros i. rewrite foldl_snoc. unfold apply_delta at 1. simpl. rewrite Hact, not_elem_of_union, not_elem_of_singleton.
    destruct (decide (i = idx)) as [->|Hi].
    + rewrite lookup_insert_eq. split; [done|]. by intros [[] _].
    + rewrite lookup_insert_ne, (ok_replay r Hok) by done. tauto.
  - intros a p Hp. rewrite foldl_snoc. unfold apply_delta at 1. simpl.
    destruct (Hcase a p Hp) as [(_ & -> & _ & ->)|(_ & Hp' & Hi)].
    + by rewrite lookup_insert_eq.
    + rewrite lookup_insert_ne by done. by apply (ok_roster r Hok a).
  - intros a p Hp. rewrite occupants_join. simpl.
    destruct (Hcase a p Hp) as [(_ & -> & _ & He)|(_ & Hp' & Hi)].
    + rewrite decide_True, last_snoc by done. by injection He as _ _ ->.
    + rewrite decide_False, app_nil_r by done. by apply (ok_current r Hok a).
  - intros k d Hk. apply lookup_app_Some in Hk as [Hk|[Hge Hk]]; [by apply (ok_revisions r Hok)|].
    apply list_lookup_singleton_Some in Hk as [Hk <-]. simpl. rewrite Hrev, (ok_revision r Hok).
    unfold u64_wrapping_add1. rewrite mod_succ by done. f_equal. f_equal. lia.
  - rewrite Hrev, (ok_revision r Hok), length_app. unfold u64_wrapping_add1. rewrite mod_succ by done.
    f_equal. f_equal. simpl. lia.
Qed.

(** *** Departures *)

Lemma depart_ok id p r :
  room_ok r → peers r !! id = Some p →
  room_ok (publish (depart id p r).1 (depart id p r).2).
Proof.
  intros Hok Hp.
  assert (∀ a q, delete id (peers r) !! a = Some q →
    peers r !! a = Some q ∧ a ≠ id ∧ peer_index q ≠ peer_index p) as Hcase.
  { intros a q [Hne Hq]%lookup_delete_Some. split_and!; [done|done|].
    intros Heq. by apply Hne, (ok_distinct r Hok _ _ _ _ Hp Hq). }
  split; simpl.
  - pose proof (ok_cap r Hok). rewrite map_size_delete_Some by (by eexists). lia.
  - intros i. rewrite elem_of_difference, elem_of_singleton, (ok_active r Hok). split.
    + intros [(a & q & Hq & <-) Hne]. exists a, q. split; [|done].
      apply lookup_delete_Some. split; [|done]. intros <-. congruence.
    + intros (a & q & Hq & <-). destruct (Hcase a q Hq) as (Hq' & _ & Hne). eauto.
  - intros a b q q' (Hq & _ & _)%Hcase (Hq' & _ & _)%Hcase. by apply (ok_distinct r Hok).
  - apply (ok_next r Hok).
  - intros a q (Hq & _ & _)%Hcase. by apply (ok_pinned r Hok a).
  - intros i. rewrite occupants_left. apply (ok_occupants r Hok).
  - intros i. rewrite occupants_left. apply (ok_epochs r Hok).
  - intros i. rewrite foldl_snoc. unfold apply_delta at 1. simpl.
    rewrite not_elem_of_difference, elem_of_singleton.
    destruct (decide (i = peer_index p)) as [->|Hi].
    + rewrite lookup_delete_eq. split; [by right|done].
    + rewrite lookup_delete_ne, (ok_replay r Hok) by done. tauto.
  - intros a q (Hq & _ & Hne)%Hcase. rewrite foldl_snoc. unfold apply_delta at 1. simpl.
    rewrite lookup_delete_ne by done. by apply (ok_roster r Hok a).
  - intros a q (Hq & _ & _)%Hcase. rewrite occupants_left. by apply (ok_current r Hok a).
  - intros k d Hk. apply lookup_app_Some in Hk as [Hk|[Hge Hk]]; [by apply (ok_revisions r Hok)|].
    apply list_lookup_singleton_Some in Hk as [Hk <-]. simpl. rewrite (ok_revision r Hok).
    unfold u64_wrapping_add1. rewrite mod_succ by done. f_equal. f_equal. lia.
  - rewrite (ok_revision r Hok), length_app. unfold u64_wrapping_add1. rewrite mod_succ by done.
    f_equal. f_equal. simpl. lia.
Qed.

(** *** Operations that leave identities alone *)

Definition identity (p : AudioPeer) : RosterPeer * N := (roster_entry p, protocol_version p).

Lemma same_identities_ok r r' :
  room_ok r → identity <$> peers r' = identity <$> peers r →
  guard r' = with_ended (ended (guard r')) (guard r) → roster_tx r' = roster_tx r → room_ok r'.
Proof.
  intros Hok Hid Hg Hlog.
  assert (∀ a p, peers r' !! a = Some p → ∃ q, peers r !! a = Some q ∧ identity p = identity q) as Hback.
  { intros a p Hp. assert ((identity <$> peers r') !! a = Some (identity p)) as H by (by rewrite lookup_fmap, Hp).
    rewrite Hid, lookup_fmap in H. destruct (peers r !! a) as [q|]; [|done]. injection H as H1 H2.
    exists q. split; [done|]. unfold identity, roster_entry. congruence. }
  assert (∀ a p, peers r !! a = Some p → ∃ q, peers r' !! a = Some q ∧ identity p = identity q) as Hforth.
  { intros a p Hp. assert ((identity <$> peers r) !! a = Some (identity p)) as H by (by rewrite lookup_fmap, Hp).
    rewrite <-Hid, lookup_fmap in H. destruct (peers r' !! a) as [q|]; [|done]. injection H as H1 H2.
    exists q. split; [done|]. unfold identity, roster_entry. congruence. }
  assert (∀ p q, identity p = identity q → peer_index p = peer_index q ∧ epoch p = epoch q
    ∧ protocol_version p = protocol_version q ∧ roster_entry p = roster_entry q) as Hfields.
  { intros p q H. injection H as H1 H2 H3 H4. unfold roster_entry. split_and!; congruence. }
  split; simpl; rewrite ?Hlog; try rewrite Hg; simpl.
  - rewrite <-(map_size_fmap identity), Hid, map_size_fmap. apply Hok.
  - intros i. rewrite (ok_active r Hok). split.
    + intros (a & p & (q & Hq & (Hi & _)%Hfields)%Hforth & <-). by exists a, q.
    + intros (a & p & (q & Hq & (Hi & _)%Hfields)%Hback & <-). by exists a, q.
  - intros a b p q (p' & Hp & (Hpi & _)%Hfields)%Hback (q' & Hq & (Hqi & _)%Hfields)%Hback Heq.
    apply (ok_distinct r Hok a b p' q'); congruence.
  - apply (ok_next r Hok).
  - intros a p (q & Hq & (_ & _ & -> & _)%Hfields)%Hback. by apply (ok_pinned r Hok a).
  - apply (ok_occupants r Hok).
  - apply (ok_epochs r Hok).
  - apply (ok_replay r Hok).
  - intros a p (q & Hq & (-> & _ & _ & ->)%Hfields)%Hback. by apply (ok_roster r Hok a).
  - intros a p (q & Hq & (-> & -> & _)%Hfields)%Hback. by apply (ok_current r Hok a).
  - apply (ok_revisions r Hok).
  - apply (ok_revision r Hok).
Qed.

(** *** Admission *)

(** Why a room refuses a peer, in the order the code tests. *)
Definition refusal (version : N) (r : Room) : option AdmissionError :=
  if poisoned r || ended (guard r) then Some Ended
  else if MAX_PEERS_PER_ROOM <=? size (peers r) then Some Full
  else match version_conflict (guard r) version with
       | Some pinned => Some (VersionMismatch pinned version)
       | None => None
       end.

(** The epoch the next occupant of an index gets. *)
Definition next_epoch (idx : N) (r : Room) : N := default 0%N (index_epochs (guard r) !! idx).

Lemma pin_pins version g : version_conflict g version = None → pinned_version (pin version g) = Some version.
Proof. unfold version_conflict, pin. simpl. destruct (pinned_version g); [|done].
  case_decide as H; [by rewrite H|done]. Qed.

Lemma add_peer_outcome id key version r :
  room_ok r →
  match refusal version r with
  | Some e => add_peer id key version r = (Err e, r)
  | None =>
      ∃ k idx, k < 255 ∧ idx = candidate (guard r) k ∧ (idx < 255)%N ∧ idx ∉ active_indices (guard r)
        ∧ (∀ j, j < k → candidate (guard r) j ∈ active_indices (guard r))
        ∧ ∃ g', admits (guard r) g' version idx ∧ size (peers r) < MAX_PEERS_PER_ROOM
          ∧ version_conflict (guard r) version = None
          ∧ let '(revision, r') := admit_at id key version idx (next_epoch idx r) g' r in
            add_peer id key version r = (Ok (idx, next_epoch idx r, revision), r')
  end.
Proof.
  intros Hok. unfold refusal, add_peer.
  destruct (poisoned r), (ended (guard r)) eqn:Hend; simpl orb; cbn iota; try done.
  destruct (MAX_PEERS_PER_ROOM <=? size (peers r)) eqn:Hsize; [done|]. apply Nat.leb_gt in Hsize.
  destruct (version_conflict (guard r) version) as [pinned|] eqn:Hver; [done|].
  pose proof (size_active r Hok) as Hact.
  destruct (alloc_finds (guard r)) as (idx & e & Halloc & Hidx & Hfree & He & k & Hk & Hcand & Hbusy).
  { apply (ok_next r Hok). } { unfold MAX_PEERS_PER_ROOM in Hsize. lia. }
  rewrite Halloc. exists k, idx. split_and!; [done..|]. exists (pin version (taken idx (guard r))).
  split_and!.
  - split_and!; simpl; try done; [exact (pin_pins version (guard r) Hver)|].
    destruct (rotate_lt idx); lia.
  - done.
  - done.
  - unfold next_epoch. rewrite <-He. by destruct (admit_at _ _ _ _ _ _ _).
Qed.

Definition refusal_at (version idx : N) (r : Room) : option AdmissionError :=
  if poisoned r || ended (guard r) then Some Ended
  else if (MAX_PEERS_PER_ROOM <=? size (peers r)) || bool_decide (idx ∈ active_indices (guard r)) then Some Full
  else match version_conflict (guard r) version with
       | Some pinned => Some (VersionMismatch pinned version)
       | None => None
       end.

Lemma add_peer_at_index_outcome id key version idx r :
  room_ok r → (idx < 256)%N →
  match refusal_at version idx r with
  | Some e => add_peer_at_index id key version idx r = (Err e, r)
  | None =>
      idx ∉ active_indices (guard r)
      ∧ ∃ g', admits (guard r) g' version idx ∧ size (peers r) < MAX_PEERS_PER_ROOM
        ∧ version_conflict (guard r) version = None
        ∧ let '(revision, r') := admit_at id key version idx (next_epoch idx r) g' r in
          add_peer_at_index id key version idx r = (Ok (next_epoch idx r, revision), r')
  end.
Proof.
  intros Hok Hidx. unfold refusal_at, add_peer_at_index.
  destruct (poisoned r), (ended (guard r)) eqn:Hend; simpl orb; cbn iota; try done.
  destruct (MAX_PEERS_PER_ROOM <=? size (peers r)) eqn:Hsize; [done|]. apply Nat.leb_gt in Hsize.
  simpl orb. case_bool_decide as Hfree; [done|].
  destruct (version_conflict (guard r) version) as [pinned|] eqn:Hver; [done|].
  split; [done|]. exists (taken idx (pin version (guard r))). split_and!.
  - split_and!; simpl; try done; [exact (pin_pins version (guard r) Hver)|].
    destruct (decide (idx = 255)%N) as [->|]; [done|]. destruct (rotate_lt idx); lia.
  - done.
  - done.
  - unfold next_epoch, next_epoch_for, taken, admit_at. simpl. done.
Qed.

(** *** Queues *)

Lemma try_send_bounds {A : Type} (m : A) (c : Channel A) (n : nat) :
  length (ch_queue c) <= n → ch_capacity c <= n →
  length (ch_queue (try_send m c).2) <= n ∧ ch_capacity (try_send m c).2 = ch_capacity c.
Proof.
  unfold try_send. destruct (ch_receiver c); simpl; [|done].
  destruct (length (ch_queue c) <? ch_capacity c) eqn:E; simpl; [|done].
  apply Nat.ltb_lt in E. rewrite length_app. simpl. intros. split; [lia|done].
Qed.

Lemma send_audio_queues frame p : queues_ok p → queues_ok (send_audio frame p).
Proof.
  intros (Ha & Hc & Hrest). unfold queues_ok, send_audio. simpl.
  destruct (try_send_bounds frame (audio_tx p) AUDIO_CHANNEL_CAPACITY) as [H1 H2]; [done|lia|].
  split_and!; [done|congruence|apply Hrest|apply Hrest].
Qed.

Lemma send_control_queues json p : queues_ok p → queues_ok (send_control json p).
Proof.
  intros (Ha & Hc & Hl & Hcap). unfold queues_ok, send_control.
  assert (ch_capacity (ctrl_tx p) <= CTRL_CHANNEL_CAPACITY) as Hle.
  { unfold CTRL_CHANNEL_CAPACITY in *. destruct Hcap as [->|(_ & _ & ->)]; lia. }
  destruct (try_send_bounds (Json json) (ctrl_tx p) CTRL_CHANNEL_CAPACITY Hl Hle) as [H1 H2].
  destruct (try_send (Json json) (ctrl_tx p)) as [[] c] eqn:E; simpl in *; split_and!; try done; try lia.
  - left. rewrite H2. destruct Hcap as [?|(_ & Hr & _)]; [done|].
    unfold try_send in E. by rewrite Hr in E.
  - by right.
Qed.

(** *** Every reachable room *)

Lemma identity_send_audio frame p : identity (send_audio frame p) = identity p.
Proof. done. Qed.

Lemma identity_send_control json p : identity (send_control json p) = identity p.
Proof. unfold send_control. by destruct (try_send _ _) as [[] c]. Qed.

Lemma run_ok op r : room_ok r → allowed op r → room_ok (run op r).
Proof.
  intros Hok Hallow. destruct op as [id key v|id key v idx|id|id| | | |id f|a f|json|id audio ctrl]; simpl.
  - pose proof (add_peer_outcome id key v r Hok) as H. destruct (refusal v r) as [e|]; [by rewrite H|].
    destruct H as (k & idx & _ & _ & _ & Hfree & _ & g' & Hg & Hsize & Hver & H).
    pose proof (admit_ok id key v idx g' r Hok Hallow Hfree Hsize Hver Hg) as Hadm. fold (next_epoch idx r) in Hadm.
    destruct (admit_at _ _ _ _ _ _ _) as [rev r']. by rewrite H.
  - destruct Hallow as [Hid Hidx]. pose proof (add_peer_at_index_outcome id key v idx r Hok Hidx) as H.
    destruct (refusal_at v idx r) as [e|]; [by rewrite H|].
    destruct H as (Hfree & g' & Hg & Hsize & Hver & H).
    pose proof (admit_ok id key v idx g' r Hok Hid Hfree Hsize Hver Hg) as Hadm. fold (next_epoch idx r) in Hadm.
    destruct (admit_at _ _ _ _ _ _ _) as [rev r']. by rewrite H.
  - unfold remove_peer. destruct (poisoned r); [done|]. destruct (peers r !! id) as [p|] eqn:Hp; [|done].
    by apply depart_ok.
  - unfold remove_peer_and_check_ended. destruct (poisoned r); [done|].
    destruct (peers r !! id) as [p|] eqn:Hp; [|done]. simpl.
    pose proof (depart_ok id p r Hok Hp) as H.
    destruct (negb (ended (guard r)) && _); [|done]. by apply (same_identities_ok _ _ H).
  - unfold mark_ended. destruct (poisoned r); [done|]. by apply (same_identities_ok r).
  - unfold clear_ended. destruct (poisoned r); [done|]. by apply (same_identities_ok r).
  - apply (same_identities_ok r); [done..| |done]. simpl. by destruct (guard r).
  - unfold broadcast_frame. destruct (peers r !! id) as [s|]; [|done].
    apply (same_identities_ok r); [done| |simpl; by destruct (guard r)|done]. simpl. apply map_eq. intros a.
    rewrite !lookup_fmap, map_lookup_imap. destruct (peers r !! a); simpl; [|done]. by case_decide.
  - unfold deliver_prefixed. apply (same_identities_ok r); [done| |simpl; by destruct (guard r)|done]. simpl.
    rewrite <-map_fmap_compose. apply map_fmap_ext. intros i p _. simpl. by case_decide.
  - unfold broadcast_control. apply (same_identities_ok r); [done| |simpl; by destruct (guard r)|done]. simpl.
    rewrite <-map_fmap_compose. apply map_fmap_ext. intros i p _. apply identity_send_control.
  - apply (same_identities_ok r); [done| |simpl; by destruct (guard r)|done]. simpl. apply map_eq. intros a.
    rewrite !lookup_fmap. destruct (decide (a = id)) as [->|Hne].
    + rewrite lookup_alter_eq. by destruct (peers r !! id).
    + by rewrite lookup_alter_ne.
Qed.

Definition all_queues (r : Room) : Prop := map_Forall (λ _, queues_ok) (peers r).

Lemma new_peer_queues key idx e v :
  queues_ok (mkPeer key (channel AUDIO_CHANNEL_CAPACITY) (channel CTRL_CHANNEL_CAPACITY) idx e v).
Proof. unfold queues_ok. simpl. split_and!; [lia|done|lia|by left]. Qed.

Lemma read_from_length {A : Type} (c c' : Channel A) : read_from c c' → length (ch_queue c) <= length (ch_queue c').
Proof. intros (Hs & _). by apply suffix_length. Qed.

Lemma run_queues op r : room_ok r → allowed op r → all_queues r → all_queues (run op r).
Proof.
  intros Hok Hallow Hq. unfold all_queues in *.
  assert (∀ id key v idx g', map_Forall (λ _, queues_ok) (peers (admit_at id key v idx (next_epoch idx r) g' r).2)) as Hadm.
  { intros id key v idx g'. simpl. apply map_Forall_insert_2; [apply new_peer_queues|done]. }
  destruct op as [id key v|id key v idx|id|id| | | |id f|a f|json|id audio ctrl]; simpl in Hallow |- *.
  - pose proof (add_peer_outcome id key v r Hok) as H. destruct (refusal v r) as [e|]; [by rewrite H|].
    destruct H as (k & idx & _ & _ & _ & _ & _ & g' & _ & _ & _ & H). specialize (Hadm id key v idx g').
    destruct (admit_at _ _ _ _ _ _ _) as [rev r']. by rewrite H.
  - destruct Hallow as [Hid Hidx]. pose proof (add_peer_at_index_outcome id key v idx r Hok Hidx) as H.
    destruct (refusal_at v idx r) as [e|]; [by rewrite H|].
    destruct H as (_ & g' & _ & _ & _ & H). specialize (Hadm id key v idx g').
    destruct (admit_at _ _ _ _ _ _ _) as [rev r']. by rewrite H.
  - unfold remove_peer. destruct (poisoned r); [done|]. destruct (peers r !! id); [|done].
    simpl. by apply map_Forall_delete.
  - unfold remove_peer_and_check_ended. destruct (poisoned r); [done|]. destruct (peers r !! id); [|done].
    simpl. destruct (negb _ && _); simpl; by apply map_Forall_delete.
  - unfold mark_ended. by destruct (poisoned r).
  - unfold clear_ended. by destruct (poisoned r).
  - done.
  - unfold broadcast_frame. destruct (peers r !! id) as [s|]; [|done]. simpl. intros a p Hp.
    rewrite map_lookup_imap in Hp. destruct (peers r !! a) as [q|] eqn:Hq'; simpl in Hp; [|done].
    injection Hp as <-. specialize (Hq a q Hq'). case_decide; [done|]. by apply send_audio_queues.
  - apply map_Forall_fmap. intros i p Hp. simpl. specialize (Hq i p Hp). case_decide; [done|].
    by apply send_audio_queues.
  - apply map_Forall_fmap. intros i p Hp. simpl. apply send_control_queues. by apply (Hq i).
  - intros a p Hp. destruct (decide (a = id)) as [->|Hne].
    + rewrite lookup_alter_eq in Hp. destruct (peers r !! id) as [q|] eqn:Hq'; [|done].
      injection Hp as <-. destruct (Hallow q eq_refl) as [Ha Hc]. destruct (Hq id q Hq') as (H1 & H2 & H3 & H4).
      pose proof (read_from_length _ _ Ha). pose proof (read_from_length _ _ Hc).
      destruct Ha as (_ & Hac & _), Hc as (_ & Hcc & Hrc). unfold queues_ok. simpl.
      split_and!; [lia|congruence|lia|]. destruct H4 as [?|(H5 & H6 & H7)]; [left; congruence|right].
      split_and!; [| |congruence].
      * rewrite H5 in *. simpl in *. by destruct (ch_queue ctrl); simpl in *; [|lia].
      * destruct (ch_receiver ctrl); [|done]. by rewrite Hrc in H6.
    + rewrite lookup_alter_ne in Hp by done. by apply (Hq a).
Qed.

Lemma reaches_via_ok P r r' : reaches_via P r r' → room_ok r → room_ok r'.
Proof. induction 1 as [|r' op _ IH HP Hop]; [done|]. intros Hr. apply run_ok; auto. Qed.

Lemma reachable_ok r : reachable r → room_ok r ∧ all_queues r.
Proof.
  intros (c & ch & H). induction H as [|r' op _ [IH IHq] _ Hop].
  - split; [apply room_new_ok|]. intros i p Hp. simpl in Hp. by rewrite lookup_empty in Hp.
  - split; [by apply run_ok|by apply run_queues].
Qed.

(** Every room reachable by joins, departures, ends, frames, control
messages, reads and disconnections, in any order, is well formed: at most 25
peers, each with its own routing index, the held indices exactly the active
ones, all peers on the pinned protocol version, the roster deltas numbered
consecutively and replaying to the peers present, every index's epochs
counting its occupants modulo 256, and no queue beyond its capacity. *)
Theorem reachable_rooms_well_formed (r : Room) : reachable r → room_ok r ∧ all_queues r.
Proof. apply reachable_ok. Qed.

(** Admission decides in the documented order and never fails otherwise.  In
a reachable room, [add_peer] answers [Ended] when the room has ended (or its
lock is poisoned), else [Full] when 25 peers are present, else
[VersionMismatch] when another version is pinned, leaving the room as it was;
else it admits the peer: the allocator's loop of 255 rounds always finds an
index, the first one no peer holds from the rotating cursor on, and the room
gains exactly that peer, with empty queues, the next epoch of the index, the
version pinned and the join published. *)
Theorem add_peer_correct (id : Uuid) (key : string) (version : N) (r : Room) :
  reachable r → peers r !! id = None →
  match refusal version r with
  | Some e => add_peer id key version r = (Err e, r)
  | None =>
      ∃ k idx revision r', add_peer id key version r = (Ok (idx, next_epoch idx r, revision), r')
        ∧ k < 255 ∧ idx = candidate (guard r) k ∧ (idx < 255)%N
        ∧ (∀ a p, peers r !! a = Some p → peer_index p ≠ idx)
        ∧ (∀ j, j < k → ∃ a p, peers r !! a = Some p ∧ peer_index p = candidate (guard r) j)
        ∧ peers r' = <[id := mkPeer key (channel 8) (channel 32) idx (next_epoch idx r) version]> (peers r)
        ∧ roster_tx r' = roster_tx r ++ [mkDelta revision (Some (mkRosterPeer key idx (next_epoch idx r))) None]
        ∧ pinned_version (guard r') = Some version ∧ ended (guard r') = false
  end.
Proof.
  intros [Hok _]%reachable_ok Hid. pose proof (add_peer_outcome id key version r Hok) as H.
  destruct (refusal version r) as [e|] eqn:Href; [done|].
  destruct H as (k & idx & Hk & Hcand & Hlt & Hfree & Hbusy & g' & Hg & Hsize & Hver & H).
  destruct (admit_at id key version idx (next_epoch idx r) g' r) as [revision r'] eqn:Hadm.
  exists k, idx, revision, r'. unfold admit_at in Hadm. injection Hadm as <- <-. split_and!; try done.
  - intros a p Hp Heq. apply Hfree, (ok_active r Hok). by exists a, p.
  - intros j Hj. by apply (ok_active r Hok), Hbusy.
  - simpl. apply Hg.
  - simpl. destruct Hg as (_ & _ & _ & _ & _ & ->). unfold refusal in Href.
    by destruct (poisoned r), (ended (guard r)).
Qed.

(** The allocator's loop terminates with an answer that does not depend on
its bound: 255 rounds probe every routing index once, so it reports a full
space only when all 255 are active, and otherwise returns the first free one
after the cursor, with the number of its earlier uses (modulo 256) as epoch. *)
Theorem alloc_probes_every_index (g : AdmissionGuard) :
  (next_candidate g < 255)%N →
  match (alloc g).1 with
  | Some (idx, e) =>
      ∃ k, k < 255 ∧ idx = candidate g k ∧ idx ∉ active_indices g
        ∧ (∀ j, j < k → candidate g j ∈ active_indices g)
        ∧ e = default 0%N (index_epochs g !! idx) ∧ (alloc g).2 = taken idx g
  | None => ∀ i, (i < 255)%N → i ∈ active_indices g
  end.
Proof.
  intros Hn. pose proof (alloc_loop_spec 255 g Hn) as H. unfold alloc.
  destruct (alloc_loop 255 g) as [[[idx e]|] g']; cbn [fst snd] in *; [done|]. intros i Hi.
  assert (candidate g (N.to_nat ((i + 255 - next_candidate g) mod 255)) = i) as <-.
  { unfold candidate. rewrite N2Nat.id, N.Div0.add_mod_idemp_r.
    replace (next_candidate g + (i + 255 - next_candidate g))%N with (i + 1 * 255)%N by lia.
    rewrite N.Div0.mod_add. by apply N.mod_small. }
  apply H. pose proof (N.mod_lt (i + 255 - next_candidate g) 255 ltac:(done)). lia.
Qed.

(** A frame of a departed peer is never taken for one of its successor: in
a reachable room, two occupants of one index that are fewer than 256 reuses
apart got different epochs, and a peer who is present carries the epoch of
the index's latest occupant. *)
Theorem reused_index_is_fenced (r : Room) (i : N) :
  reachable r →
  (∀ j k e e', occupants i (roster_tx r) !! j = Some e → occupants i (roster_tx r) !! k = Some e' →
     j < k → k < j + 256 → e ≠ e')
  ∧ ∀ id p, peers r !! id = Some p → peer_index p = i → last (occupants i (roster_tx r)) = Some (epoch p).
Proof.
  intros [Hok _]%reachable_ok. split.
  - intros j k e e' Hj Hk Hlt Hwin. rewrite (ok_occupants r Hok) in Hj, Hk.
    apply list_lookup_fmap_Some in Hj as (x & -> & [-> _]%lookup_seq), Hk as (y & -> & [-> _]%lookup_seq).
    simpl. intros Heq.
    pose proof (N.div_mod (N.of_nat j) 256 ltac:(done)). pose proof (N.div_mod (N.of_nat k) 256 ltac:(done)).
    pose proof (N.mod_lt (N.of_nat j) 256 ltac:(done)). pose proof (N.mod_lt (N.of_nat k) 256 ltac:(done)). lia.
  - intros id p Hp <-. by apply (ok_current r Hok id).
Qed.

(** ** The roster a receiver reconstructs *)

(** A receiver: the revision it is at and its map of indices. *)
Record Follower : Type := mkFollower {
  f_revision : N;
  f_peers : gmap N RosterPeer
}.

Definition from_snapshot (s : RosterSnapshot) : Follower :=
  mkFollower (snap_revision s) (list_to_map (map (λ p, (rp_index p, p)) (snap_peers s))).

(** Deltas at or below the receiver's revision are ignored. *)
Definition follow (f : Follower) (d : RosterDelta) : Follower :=
  if (f_revision f <? d_revision d)%N then mkFollower (d_revision d) (apply_delta (f_peers f) d) else f.

Section roster.
Context {HO : HashOrder}.

Lemma snapshot_peers r p :
  p ∈ snap_peers (roster_snapshot r) ↔ ∃ id q, peers r !! id = Some q ∧ p = roster_entry q.
Proof.
  unfold roster_snapshot. simpl. rewrite sort_by_key_perm, list_elem_of_fmap. split.
  - intros ([id q] & -> & Hq%elem_of_hm_iter). by exists id, q.
  - intros (id & q & Hq & ->). exists (id, q). split; [done|]. by apply elem_of_hm_iter.
Qed.

Lemma snapshot_indices r : room_ok r → NoDup (map rp_index (snap_peers (roster_snapshot r))).
Proof.
  intros Hok. unfold roster_snapshot. simpl.
  assert (map rp_index (sort_by_key rp_index (map (λ kv : Uuid * AudioPeer, roster_entry kv.2) (hm_iter (peers r))))
    ≡ₚ map (λ kv : Uuid * AudioPeer, peer_index kv.2) (map_to_list (peers r))) as ->.
  { rewrite sort_by_key_perm, hm_iter_perm, map_map. done. }
  apply NoDup_fmap_2_strong; [|apply NoDup_map_to_list].
  intros [a p] [b q] Hp%elem_of_map_to_list Hq%elem_of_map_to_list Heq. simpl in Heq.
  assert (a = b) as <- by (by eapply (ok_distinct r Hok)). by rewrite Hp in Hq; simplify_eq.
Qed.

(** The snapshot is the replay of every delta so far. *)
Lemma snapshot_replay r :
  room_ok r →
  from_snapshot (roster_snapshot r)
  = mkFollower (roster_revision (guard r)) (foldl apply_delta ∅ (roster_tx r)).
Proof.
  intros Hok. unfold from_snapshot. f_equal. apply map_eq. intros i.
  assert (NoDup (map (λ p, (rp_index p, p)) (snap_peers (roster_snapshot r))).*1) as Hnd.
  { rewrite <-list_fmap_compose. by apply snapshot_indices. }
  destruct (decide (i ∈ active_indices (guard r))) as [(id & p & Hp & <-)%(ok_active r Hok)|Hi].
  - rewrite (ok_roster r Hok id p Hp). apply elem_of_list_to_map_1; [done|].
    apply list_elem_of_fmap. exists (roster_entry p). split; [done|]. apply snapshot_peers. eauto.
  - rewrite (proj2 (ok_replay r Hok i) Hi). apply not_elem_of_list_to_map_1. intros Hin.
    apply list_elem_of_fmap in Hin as ([j p] & -> & Hin). apply list_elem_of_fmap in Hin as (q & [= -> ->] & Hq).
    apply snapshot_peers in Hq as (id & p' & Hp & ->). apply Hi, (ok_active r Hok). by exists id, p'.
Qed.

Lemma run_log op r : ∃ l, roster_tx (run op r) = roster_tx r ++ l.
Proof.
  assert (∀ r' : Room, roster_tx r' = roster_tx r → ∃ l, roster_tx r' = roster_tx r ++ l) as Hsame.
  { intros r' ->. exists []. by rewrite app_nil_r. }
  destruct op as [id key v|id key v idx|id|id| | | |id f|a f|json|id audio ctrl]; simpl; try (by apply Hsame).
  - unfold add_peer. destruct (poisoned r), (ended (guard r)); try (by apply Hsame).
    destruct (_ <=? _); [by apply Hsame|]. destruct (version_conflict _ _); [by apply Hsame|].
    destruct (alloc (guard r)) as [[[idx e]|] g']; [|by apply Hsame]. simpl. eauto.
  - unfold add_peer_at_index. destruct (poisoned r), (ended (guard r)); try (by apply Hsame).
    destruct (_ || _); [by apply Hsame|]. destruct (version_conflict _ _); [by apply Hsame|].
    simpl. eauto.
  - unfold remove_peer. destruct (poisoned r); [by apply Hsame|].
    destruct (peers r !! id); [|by apply Hsame]. simpl. eauto.
  - unfold remove_peer_and_check_ended. destruct (poisoned r); [by apply Hsame|].
    destruct (peers r !! id); [|by apply Hsame]. simpl. destruct (negb _ && _); simpl; eauto.
  - unfold mark_ended. case_match; by apply Hsame.
  - unfold clear_ended. case_match; by apply Hsame.
  - unfold broadcast_frame. case_match; by apply Hsame.
Qed.

Lemma reaches_log P r r' : reaches_via P r r' → ∃ l, roster_tx r' = roster_tx r ++ l.
Proof.
  induction 1 as [|r' op _ [l IH] _ _]; [exists []; by rewrite app_nil_r|].
  destruct (run_log op r') as [l' ->]. exists (l ++ l'). by rewrite IH, (assoc_L (++)).
Qed.

Lemma follow_stale f l : Forall (λ d, (d_revision d <= f_revision f)%N) l → foldl follow f l = f.
Proof.
  induction 1 as [|d l Hd _ IH]; [done|]. simpl. unfold follow at 2.
  apply N.ltb_ge in Hd as ->. exact IH.
Qed.

Lemma follow_fresh m l n :
  (∀ k d, l !! k = Some d → d_revision d = N.of_nat (n + S k)) →
  foldl follow (mkFollower (N.of_nat n) m) l
  = mkFollower (N.of_nat (n + length l)) (foldl apply_delta m l).
Proof.
  revert m n. induction l as [|d l IH]; intros m n Hrev; simpl; [by rewrite Nat.add_0_r|].
  unfold follow at 2. simpl. pose proof (Hrev 0 d eq_refl) as Hd. rewrite Hd.
  destruct (N.ltb_spec (N.of_nat n) (N.of_nat (n + 1))); [|lia]. rewrite IH.
  - f_equal. lia.
  - intros k e He. rewrite (Hrev (S k) e He). f_equal. lia.
Qed.
End roster.

(** Receivers stay in step with the owner.  A receiver that subscribed no
later than it took a snapshot of a reachable room, and that applies the deltas
it receives except the stale ones, holds after every later run of the room
exactly what a new snapshot would give it, peers and revision, as long as the
64-bit revision has not wrapped. *)
Theorem roster_followers_converge {HO : HashOrder} (r r' : Room) (subscribed : nat) :
  reachable r → reaches r r' → (N.of_nat (length (roster_tx r')) < 18446744073709551616)%N →
  subscribed ≤ length (roster_tx r) →
  foldl follow (from_snapshot (roster_snapshot r)) (drop subscribed (roster_tx r'))
  = from_snapshot (roster_snapshot r').
Proof.
  intros [Hok _]%reachable_ok Hr Hlen Hsub. pose proof (reaches_via_ok _ _ _ Hr Hok) as Hok'.
  rewrite !snapshot_replay by done. destruct (reaches_log _ _ _ Hr) as [l Hl].
  pose proof (ok_revision r Hok) as Hrev. pose proof (ok_revision r' Hok') as Hrev'.
  rewrite Hl, length_app in Hlen. rewrite Hl, length_app in Hrev'.
  rewrite N.mod_small in Hrev, Hrev' by lia. rewrite Hrev, Hrev', Hl, foldl_app.
  rewrite drop_app_le, foldl_app by done. rewrite (follow_stale _ (drop subscribed (roster_tx r))).
  - rewrite (follow_fresh _ l (length (roster_tx r))); [done|]. intros k d Hk.
    rewrite (ok_revisions r' Hok' (length (roster_tx r) + k) d).
    + apply lookup_lt_Some in Hk. rewrite N.mod_small by lia. f_equal. lia.
    + rewrite Hl. by rewrite lookup_app_r, Nat.add_comm, Nat.add_sub by lia.
  - simpl. apply Forall_drop, Forall_lookup_2. intros k d Hk. rewrite (ok_revisions r Hok k d Hk).
    apply lookup_lt_Some in Hk. rewrite N.mod_small; lia.
Qed.

(** ** The end of a room *)

Lemma add_refused_when_ended id key v r :
  ended (guard r) = true → add_peer id key v r = (Err Ended, r).
Proof. intros He. unfold add_peer. rewrite He. by destruct (poisoned r). Qed.

Lemma add_at_refused_when_ended id key v idx r :
  ended (guard r) = true → add_peer_at_index id key v idx r = (Err Ended, r).
Proof. intros He. unfold add_peer_at_index. rewrite He. by destruct (poisoned r). Qed.

Definition keeps_ended (op : RoomOp) : Prop := op ≠ OpClear.

Lemma run_ended op r :
  keeps_ended op → ended (guard r) = true →
  ended (guard (run op r)) = true ∧ dom (peers (run op r)) ⊆ dom (peers r).
Proof.
  intros Hop He. destruct op as [id key v|id key v idx|id|id| | | |id f|a f|json|id audio ctrl]; simpl.
  - by rewrite add_refused_when_ended.
  - by rewrite add_at_refused_when_ended.
  - unfold remove_peer. destruct (poisoned r), (peers r !! id); simpl; split; try done; set_solver.
  - unfold remove_peer_and_check_ended.
    destruct (poisoned r), (peers r !! id); simpl; try (split; [done|set_solver]).
    rewrite He. simpl. split; [done|set_solver].
  - unfold mark_ended. by destruct (poisoned r).
  - done.
  - done.
  - unfold broadcast_frame. destruct (peers r !! id) as [s|]; simpl; [|done]. split; [done|].
    intros a. rewrite !elem_of_dom, map_lookup_imap. by destruct (peers r !! a).
  - split; [done|]. by rewrite dom_fmap.
  - split; [done|]. by rewrite dom_fmap.
  - split; [done|]. by rewrite dom_alter.
Qed.

(** The end of a room is final.  Once a room has ended, by [mark_ended] or
by the departure of its last peer, and until [clear_ended] rolls it back, no
later sequence of calls admits anybody, every admission answers [Ended], and
no departure reports the room's end a second time; a departure reports it
only when it empties a room that had not ended, in the same step that closes
the room. *)
Theorem room_end_is_final (r r' : Room) :
  reaches_via keeps_ended r r' → ended (guard r) = true →
  ended (guard r') = true ∧ dom (peers r') ⊆ dom (peers r)
  ∧ (∀ id key v, add_peer id key v r' = (Err Ended, r'))
  ∧ (∀ id key v idx, add_peer_at_index id key v idx r' = (Err Ended, r'))
  ∧ (∀ id d, (remove_peer_and_check_ended id r').1 ≠ Some (d, true)).
Proof.
  intros Hr He.
  assert (ended (guard r') = true ∧ dom (peers r') ⊆ dom (peers r)) as [He' Hdom].
  { induction Hr as [|r' op _ [IHe IHd] Hop _]; [done|].
    destruct (run_ended op r' Hop IHe) as [H1 H2]. split; [done|]. by etrans. }
  split_and!; [done|done| | |].
  - intros id key v. by apply add_refused_when_ended.
  - intros id key v idx. by apply add_at_refused_when_ended.
  - intros id d. unfold remove_peer_and_check_ended.
    destruct (poisoned r'), (peers r' !! id); simpl; try done. by rewrite He'.
Qed.

(** Exactly the departure that empties a live room ends it: for a peer who is
present and an unpoisoned lock, [remove_peer_and_check_ended] reports the end
iff the room had not ended and nobody else is present, and then the room is
empty and ended when the call returns. *)
Theorem last_departure_ends_room (id : Uuid) (p : AudioPeer) (r : Room) :
  poisoned r = false → peers r !! id = Some p →
  ∃ d should_end r', remove_peer_and_check_ended id r = (Some (d, should_end), r')
    ∧ (should_end = true ↔ ended (guard r) = false ∧ ∀ a, is_Some (peers r !! a) → a = id)
    ∧ d_left d = Some (roster_entry p) ∧ d_joined d = None
    ∧ peers r' = delete id (peers r)
    ∧ ended (guard r') = ended (guard r) || should_end.
Proof.
  intros Hpoison Hp. unfold remove_peer_and_check_ended. rewrite Hpoison, Hp. simpl.
  set (should := negb (ended (guard r)) && is_empty _).
  eexists _, should, _. split; [done|]. split_and!; [|done|done|by destruct should|].
  - subst should. unfold is_empty. simpl. rewrite andb_true_iff, negb_true_iff, bool_decide_eq_true.
    apply and_iff_compat_l. split.
    + intros Hempty a [q Hq]. destruct (decide (a = id)) as [|Hne]; [done|].
      assert (delete id (peers r) !! a = Some q) as Hd by (by rewrite lookup_delete_ne).
      by rewrite Hempty in Hd.
    + intros Honly. apply map_eq. intros a. rewrite lookup_empty. apply eq_None_not_Some.
      intros [q [Hne Hq]%lookup_delete_Some]. apply Hne. symmetry. apply Honly. by eexists.
  - subst should. destruct (ended (guard r)) eqn:He, (is_empty _); simpl; by rewrite ?He.
Qed.

(** ** Frames and control messages *)

(** A frame reaches everybody else, and in the form each receiver expects.
In a reachable room, [broadcast_frame] leaves the sender's queues and every
control queue alone; every other peer whose receiver lives and has room gets
the frame at the end of its queue, prefixed by the sender's index, which no
other peer has, and, exactly when that receiver speaks version 3 or later, by
the sender's epoch; a full queue drops the frame and is otherwise unchanged. *)
Theorem frames_reach_the_others (id : Uuid) (s : AudioPeer) (frame : Bytes) (r : Room) :
  reachable r → peers r !! id = Some s →
  dom (peers (broadcast_frame id frame r)) = dom (peers r)
  ∧ guard (broadcast_frame id frame r) = guard r
  ∧ ∀ a p, peers r !! a = Some p →
      ∃ p', peers (broadcast_frame id frame r) !! a = Some p'
        ∧ identity p' = identity p ∧ ctrl_tx p' = ctrl_tx p
        ∧ (a = id → p' = p)
        ∧ (a ≠ id → peer_index p ≠ peer_index s
           ∧ ch_queue (audio_tx p')
             = ch_queue (audio_tx p) ++
               (if ch_receiver (audio_tx p) && (length (ch_queue (audio_tx p)) <? AUDIO_CHANNEL_CAPACITY)
                then [peer_index s :: (if (3 <=? protocol_version p)%N then [epoch s] else []) ++ frame]
                else [])).
Proof.
  intros [Hok Hq]%reachable_ok Hs. unfold broadcast_frame. rewrite Hs. simpl. split_and!; [|done|].
  - apply set_eq. intros a. rewrite !elem_of_dom, map_lookup_imap. by destruct (peers r !! a).
  - intros a p Hp. rewrite map_lookup_imap, Hp. simpl. eexists. split; [done|].
    case_decide as Ha; [subst a; by split_and!|]. split_and!; [done|done|done|]. intros _. split.
    + intros Heq. by apply Ha, (ok_distinct r Hok a id p s).
    + pose proof (ok_pinned r Hok _ _ Hp) as Hvp. pose proof (ok_pinned r Hok _ _ Hs) as Hvs.
      rewrite Hvs in Hvp. injection Hvp as Hv. unfold send_audio, prefixed_frame, try_send. simpl.
      destruct (Hq a p Hp) as (_ & -> & _). rewrite Hv.
      by destruct (ch_receiver (audio_tx p) && _); simpl; rewrite ?app_nil_r.
Qed.

(** No peer misses a control message and stays connected: after
[broadcast_control] in a reachable room, a peer whose control receiver is
still open has the message at the end of its queue, and one whose queue was
full has been cut off, so that it must rejoin from a fresh snapshot. *)
Theorem control_delivered_or_closed (json : string) (r : Room) (a : Uuid) (p : AudioPeer) :
  reachable r → peers r !! a = Some p →
  ∃ p', peers (broadcast_control json r) !! a = Some p'
    ∧ identity p' = identity p ∧ audio_tx p' = audio_tx p
    ∧ (ch_receiver (ctrl_tx p') = true →
         ch_queue (ctrl_tx p') = ch_queue (ctrl_tx p) ++ [Json json] ∧ ch_receiver (ctrl_tx p) = true)
    ∧ (ch_receiver (ctrl_tx p') = false ↔
         ch_receiver (ctrl_tx p) = false ∨ CTRL_CHANNEL_CAPACITY ≤ length (ch_queue (ctrl_tx p))).
Proof.
  intros [Hok Hq]%reachable_ok Hp. exists (send_control json p).
  unfold broadcast_control. simpl. rewrite lookup_fmap, Hp. split; [done|].
  split; [apply identity_send_control|]. destruct (Hq a p Hp) as (_ & _ & _ & Hcap).
  unfold send_control, try_send. destruct (ch_receiver (ctrl_tx p)) eqn:Hrx; simpl.
  - destruct Hcap as [Hcap|(_ & ? & _)]; [|congruence]. rewrite Hcap.
    destruct (length (ch_queue (ctrl_tx p)) <? CTRL_CHANNEL_CAPACITY) eqn:E; simpl.
    + apply Nat.ltb_lt in E. split_and!; try done. split; [done|]. intros [?|?]; [done|lia].
    + apply Nat.ltb_ge in E. split_and!; try done. split; [by right|done].
  - split_and!; try done. split; [by left|done].
Qed.

(** ** The manager *)

Inductive ManagerOp : Type :=
| MGetOrCreate (c ch : Uuid)
| MCleanup (c ch : Uuid)
| MRoom (a : N) (op : RoomOp).      (* a call on a room somebody holds *)

Definition manager_run (op : ManagerOp) (m : AudioRoomManager) : AudioRoomManager :=
  match op with
  | MGetOrCreate c ch => (get_or_create c ch m).2
  | MCleanup c ch => (cleanup_if_empty c ch m).2
  | MRoom a op => update_room a (run op) m
  end.

Definition manager_allowed (op : ManagerOp) (m : AudioRoomManager) : Prop :=
  match op with
  | MRoom a op => ∀ r, heap m !! a = Some r → allowed op r
  | _ => True
  end.

Inductive manager_reachable : AudioRoomManager → Prop :=
| manager_start : manager_reachable manager_new
| manager_step m op :
    manager_reachable m → manager_allowed op m → manager_reachable (manager_run op m).

(** Every room of the heap was made for its own community and channel and is
reachable; the table resolves a channel to a room made for it. *)
Record manager_ok (m : AudioRoomManager) : Prop := {
  mok_heap a r : heap m !! a = Some r →
    (a < next m)%N ∧ reaches (room_new (room_community_id r) (room_channel_id r)) r;
  mok_rooms c ch a : rooms m !! (c, ch) = Some a →
    ∃ r, heap m !! a = Some r ∧ room_community_id r = c ∧ room_channel_id r = ch
}.

Lemma run_ids op r :
  room_community_id (run op r) = room_community_id r ∧ room_channel_id (run op r) = room_channel_id r.
Proof.
  destruct op as [id key v|id key v idx|id|id| | | |id f|a f|json|id audio ctrl]; simpl; try done.
  - unfold add_peer. destruct (poisoned r), (ended (guard r)), (MAX_PEERS_PER_ROOM <=? size (peers r)), (version_conflict (guard r) v),
      (alloc (guard r)) as [[[idx e]|] g']; done.
  - unfold add_peer_at_index. destruct (poisoned r), (ended (guard r)), ((MAX_PEERS_PER_ROOM <=? size (peers r)) || bool_decide (idx ∈ active_indices (guard r))), (version_conflict (guard r) v); done.
  - unfold remove_peer. destruct (poisoned r), (peers r !! id); done.
  - unfold remove_peer_and_check_ended. destruct (poisoned r), (peers r !! id); try done. simpl.
    by destruct (negb (ended (guard r)) && is_empty _).
  - unfold mark_ended. by destruct (poisoned r).
  - unfold clear_ended. by destruct (poisoned r).
  - unfold broadcast_frame. by destruct (peers r !! id).
Qed.

Lemma manager_reachable_ok m : manager_reachable m → manager_ok m.
Proof.
  induction 1 as [|m op _ [Hheap Hrooms] Hop]; [by split|].
  destruct op as [c ch|c ch|a op]; simpl.
  - unfold get_or_create. destruct (rooms m !! (c, ch)) as [a|] eqn:E; [by split|]. split; simpl.
    + intros a r [[<- <-]|[_ Hr]]%lookup_insert_Some; [split; [lia|constructor]|].
      destruct (Hheap a r Hr). split; [lia|done].
    + intros c' ch' a [[[= <- <-] <-]|[_ Hr]]%lookup_insert_Some.
      * eexists. by rewrite lookup_insert_eq.
      * destruct (Hrooms _ _ _ Hr) as (r & Ha & ? & ?). exists r. split; [|done].
        rewrite lookup_insert_ne; [done|]. destruct (Hheap a r Ha). lia.
  - unfold cleanup_if_empty. destruct (rooms m !! (c, ch)) as [a|]; [|by split].
    destruct (default false _); [|by split]. split; simpl; [done|].
    intros c' ch' b [_ Hb]%lookup_delete_Some. by apply Hrooms.
  - split; simpl.
    + intros b r. destruct (decide (b = a)) as [->|Hne].
      * rewrite lookup_alter_eq. destruct (heap m !! a) as [r0|] eqn:E; [|done]. intros [= <-].
        destruct (Hheap a r0 E) as [Ha Hr]. split; [done|].
        destruct (run_ids op r0) as [-> ->]. apply reaches_step; [done..|]. by apply Hop.
      * rewrite lookup_alter_ne by done. apply Hheap.
    + intros c ch b Hb. destruct (Hrooms c ch b Hb) as (r & Hr & <- & <-).
      destruct (decide (b = a)) as [->|Hne].
      * exists (run op r). rewrite lookup_alter_eq, Hr. split; [done|]. apply run_ids.
      * exists r. by rewrite lookup_alter_ne.
Qed.

(** Tenants never share a room.  In every reachable manager a channel
resolves to a room made for its own community and channel, whose history is a
run of that room alone, so two communities that use one channel UUID have
different rooms; and the lookup by channel alone, for mesh datagrams, answers
only when a single community has a room for that channel. *)
Theorem rooms_are_per_community {HO : HashOrder} (m : AudioRoomManager) :
  manager_reachable m →
  (∀ c ch a, get c ch m = Some a → ∃ r, heap m !! a = Some r
     ∧ room_community_id r = c ∧ room_channel_id r = ch ∧ reaches (room_new c ch) r)
  ∧ (∀ c ch c' ch' a, get c ch m = Some a → get c' ch' m = Some a → c = c' ∧ ch = ch')
  ∧ ∀ ch a, get_unambiguous_by_channel ch m = Some a ↔
      ∃ c, get c ch m = Some a ∧ ∀ c' b, get c' ch m = Some b → c' = c.
Proof.
  intros [Hheap Hrooms]%manager_reachable_ok. unfold get. split_and!.
  - intros c ch a Ha. destruct (Hrooms _ _ _ Ha) as (r & Hr & <- & <-). exists r.
    split_and!; [done..|]. by apply (Hheap a).
  - intros c ch c' ch' a Ha Ha'. destruct (Hrooms _ _ _ Ha) as (r & Hr & <- & <-).
    destruct (Hrooms _ _ _ Ha') as (r' & Hr' & <- & <-). by simplify_eq.
  - intros ch a. unfold get_unambiguous_by_channel.
    assert (∀ c b, ((c, ch), b) ∈ filter (λ kv : (Uuid * Uuid) * N, kv.1.2 = ch) (hm_iter (rooms m))
      ↔ rooms m !! (c, ch) = Some b) as Hin.
    { intros c b. rewrite list_elem_of_filter, elem_of_hm_iter. simpl. tauto. }
    assert (NoDup (filter (λ kv : (Uuid * Uuid) * N, kv.1.2 = ch) (hm_iter (rooms m)))) as Hnd.
    { apply NoDup_filter. rewrite hm_iter_perm. apply NoDup_map_to_list. }
    assert (∀ kv, kv ∈ filter (λ kv : (Uuid * Uuid) * N, kv.1.2 = ch) (hm_iter (rooms m)) → kv.1.2 = ch) as Hch.
    { intros kv Hkv. by apply list_elem_of_filter in Hkv as [? _]. }
    destruct (filter _ (hm_iter (rooms m))) as [|[[c1 ch1] b1] [|[[c2 ch2] b2] l]].
    + split; [done|]. intros (c & Hc%Hin & _). by apply not_elem_of_nil in Hc.
    + assert (ch1 = ch) as -> by (apply (Hch (c1, ch1, b1)); set_solver). split.
      * intros [= <-]. exists c1. split; [apply Hin; set_solver|].
        intros c' b Hb%Hin. apply list_elem_of_singleton in Hb. congruence.
      * intros (c & Hc%Hin & _). apply list_elem_of_singleton in Hc. congruence.
    + assert (ch1 = ch) as -> by (apply (Hch (c1, ch1, b1)); set_solver).
      assert (ch2 = ch) as -> by (apply (Hch (c2, ch2, b2)); set_solver).
      split; [done|]. intros (c & _ & Honly). exfalso.
      assert (rooms m !! (c1, ch) = Some b1) as H1 by (apply Hin; set_solver).
      assert (rooms m !! (c2, ch) = Some b2) as H2 by (apply Hin; set_solver).
      pose proof (Honly _ _ H1). pose proof (Honly _ _ H2). subst c1 c2.
      apply NoDup_cons in Hnd as [Hnd _]. apply Hnd. rewrite H1 in H2. injection H2 as ->. set_solver.
Qed.

(** ** A concrete room *)

Definition demo_room1 : Room := run (OpAdd 1 "a" 3) (room_new 7 8).
Definition demo_room : Room := run (OpAdd 2 "b" 3) demo_room1.
Definition demo_later : Room := run (OpAddAt 3 "c" 3 9) (run (OpRemove 1) demo_room).

Lemma demo_reaches : reaches (room_new 7 8) demo_room.
Proof.
  apply reaches_step; [apply reaches_step; [constructor|done|reflexivity]|done|reflexivity].
Qed.

Lemma demo_reachable : reachable demo_room.
Proof. exists 7%N, 8%N. exact demo_reaches. Qed.

Lemma demo_reaches_later : reaches demo_room demo_later.
Proof.
  apply reaches_step; [apply reaches_step; [constructor|done|done]|done|split; reflexivity].
Qed.

Lemma reachable_rooms_well_formed_witness : room_ok demo_room ∧ all_queues demo_room.
Proof. exact (reachable_rooms_well_formed demo_room demo_reachable). Defined.

Lemma add_peer_correct_witness :
  refusal 3 demo_room = None ∧ refusal 2 demo_room = Some (VersionMismatch 3 2)
  ∧ add_peer 5 "e" 2 demo_room = (Err (VersionMismatch 3 2), demo_room).
Proof.
  split; [reflexivity|]. split; [reflexivity|].
  exact (add_peer_correct 5 "e" 2 demo_room demo_reachable eq_refl).
Defined.

Lemma alloc_probes_every_index_witness :
  ∃ k, k < 255 ∧ 2%N = candidate (guard demo_room) k.
Proof.
  pose proof (alloc_probes_every_index (guard demo_room) ltac:(reflexivity)) as H.
  assert ((alloc (guard demo_room)).1 = Some (2%N, 0%N)) as Ha by (vm_compute; reflexivity).
  rewrite Ha in H. destruct H as (k & Hk & Hc & _). exists k. split; [exact Hk|exact Hc].
Defined.

Definition demo_reused : Room := run (OpAddAt 3 "c" 3 0) (run (OpRemove 1) demo_room).

Lemma demo_reused_reachable : reachable demo_reused.
Proof.
  exists 7%N, 8%N. apply reaches_step; [apply reaches_step; [exact demo_reaches|done|done]|done|split; reflexivity].
Qed.

Lemma reused_index_is_fenced_witness :
  occupants 0 (roster_tx demo_reused) = [0%N; 1%N] ∧ 0%N ≠ 1%N
  ∧ ∃ p, peers demo_reused !! 3%N = Some p ∧ last (occupants 0 (roster_tx demo_reused)) = Some (epoch p).
Proof.
  pose proof (reused_index_is_fenced demo_reused 0 demo_reused_reachable) as [Hne Hlast].
  split; [vm_compute; reflexivity|]. split.
  - apply (Hne 0 1); [vm_compute; reflexivity..|lia|lia].
  - destruct (peers demo_reused !! 3%N) as [p|] eqn:Hp; [|discriminate Hp].
    exists p. split; [reflexivity|]. apply (Hlast 3%N p Hp). injection Hp as <-. reflexivity.
Defined.

Lemma roster_followers_converge_witness :
  foldl follow (from_snapshot (@roster_snapshot map_to_list_order demo_room)) (drop 1 (roster_tx demo_later))
  = from_snapshot (@roster_snapshot map_to_list_order demo_later).
Proof.
  apply (roster_followers_converge demo_room demo_later 1 demo_reachable demo_reaches_later);
    vm_compute; [reflexivity|lia].
Defined.

Lemma room_end_is_final_witness :
  (add_peer 5 "e" 3 (run (OpRemove 1) (run OpEnd demo_room))).1 = Err Ended.
Proof.
  pose proof (room_end_is_final (run OpEnd demo_room) (run (OpRemove 1) (run OpEnd demo_room))) as H.
  destruct H as (_ & _ & H & _); [apply reaches_step; [constructor|discriminate|exact I]|reflexivity|].
  rewrite H. reflexivity.
Defined.

Lemma last_departure_ends_room_witness :
  ∃ p d should_end r', peers demo_room1 !! 1%N = Some p
    ∧ remove_peer_and_check_ended 1 demo_room1 = (Some (d, should_end), r') ∧ d_left d = Some (roster_entry p).
Proof.
  destruct (peers demo_room1 !! 1%N) as [p|] eqn:Hp; [|discriminate Hp]. exists p.
  destruct (last_departure_ends_room 1 p demo_room1 eq_refl Hp) as (d & b & r' & H & _ & Hl & _).
  exists d, b, r'. split; [reflexivity|]. split; [exact H|exact Hl].
Defined.

Lemma frames_reach_the_others_witness :
  ∃ s, peers demo_room !! 1%N = Some s
    ∧ dom (peers (broadcast_frame 1 [42%N] demo_room)) = dom (peers demo_room).
Proof.
  destruct (peers demo_room !! 1%N) as [s|] eqn:Hs; [|discriminate Hs]. exists s. split; [reflexivity|].
  exact (proj1 (frames_reach_the_others 1 s [42%N] demo_room demo_reachable Hs)).
Defined.

Lemma control_delivered_or_closed_witness :
  ∃ p p', peers demo_room !! 2%N = Some p ∧ peers (broadcast_control "x" demo_room) !! 2%N = Some p'
    ∧ audio_tx p' = audio_tx p.
Proof.
  destruct (peers demo_room !! 2%N) as [p|] eqn:Hp; [|discriminate Hp].
  destruct (control_delivered_or_closed "x" demo_room 2 p demo_reachable Hp) as (p' & Hp' & _ & Ha & _).
  exists p, p'. split; [reflexivity|]. split; [exact Hp'|exact Ha].
Defined.

Definition demo_manager : AudioRoomManager :=
  manager_run (MGetOrCreate 2 8) (manager_run (MGetOrCreate 1 8) manager_new).

Lemma rooms_are_per_community_witness : @get_unambiguous_by_channel map_to_list_order 8 demo_manager = None.
Proof.
  assert (manager_reachable demo_manager) as Hm by (repeat constructor).
  destruct (@rooms_are_per_community map_to_list_order demo_manager Hm) as (_ & _ & H).
  destruct (@get_unambiguous_by_channel map_to_list_order 8 demo_manager) as [a|] eqn:E; [|reflexivity].
  exfalso. destruct (proj1 (H 8%N a) E) as (c & _ & Honly).
  pose proof (Honly 1%N 0%N eq_refl). pose proof (Honly 2%N 1%N eq_refl). congruence.
Defined.
