(* ===== verification/MeshWire.v ===== *)
(** * MeshWire: the frames of the mesh and their framing on a stream

Models [buzz-relay-mesh/src/wire.rs] (fenced headers, stream frames,
datagrams, the versioned encoding), the errors of [lib.rs], and the send and
receive halves of [peer.rs], which write each frame behind its length on a QUIC
stream.  A stream is what its halves do to bytes: the writes that succeed so
far, and the bytes that arrive before the peer finishes or the connection
fails.  The postcard encoding of a frame and the error texts of the QUIC crate
are the interface [WireCrates]. *)
From S2P Require Import Prelude Text Encode Nostr Gossip.

(** ** The frames ([wire.rs]) *)

Definition WIRE_VERSION : N := 1.

(** 16 MiB. *)
Definition MAX_STREAM_FRAME : N := 16777216.

(** [Profile]. *)
Inductive Profile : Type := ReliableStream | RealtimeMedia | HuddleControl.

#[export] Instance Profile_eq_dec : EqDecision Profile.
Proof. solve_decision. Defined.

Record FencedHeader : Type := mkFenced {
  fh_session_id : Uuid;
  fh_generation : N;                 (* [u64] *)
  fh_owner_runtime_id : RuntimeId
}.

#[export] Instance FencedHeader_eq_dec : EqDecision FencedHeader.
Proof. solve_decision. Defined.

Record MeshDatagram : Type := mkDatagram {
  dg_fenced : FencedHeader;
  dg_seq : N;                        (* [u64] *)
  dg_payload : Bytes
}.

Inductive StreamRole : Type :=
| Control
| Session (fenced : FencedHeader) (profile : Profile).

Record StreamHello : Type := mkHello {
  sh_sender : RuntimeId;
  sh_role : StreamRole
}.

Inductive GoodbyeReason : Type := SessionEnded | Draining | GoodbyeStaleGeneration.

Inductive MeshStreamFrame : Type :=
| Hello (hello : StreamHello)
| Data (fenced : FencedHeader) (payload : Bytes)
| Goodbye (fenced : FencedHeader) (reason : GoodbyeReason)
| Gossip (payload : Bytes).

(** ** Errors ([lib.rs]); a foreign error is its text *)

Inductive MeshError : Type :=
| EncodeError (e : string)
| DecodeError (e : string)
| UnknownWireVersion (v : N)
| EmptyFrame
| FrameTooLarge (size max : N)
| DatagramTooLarge (size max : N)
| PeerNotConnected (id : RuntimeId)
| PeerDraining (id : RuntimeId)
| StaleGeneration (session_id : Uuid) (frame_generation known_generation : N)
| NoActiveLease (session_id : Uuid) (frame_generation known_generation : N) (frame_owner : RuntimeId)
| OwnerMismatch (session_id : Uuid) (generation : N) (frame_owner current_owner : RuntimeId)
| FutureGeneration (session_id : Uuid) (frame_generation known_generation : N)
| Disabled
| Transport (e : string)
| MeshRedis (e : string).

(** ** The encoding *)

Class WireCrates : Type := {
  stream_to_bytes : MeshStreamFrame → result Bytes string;       (* postcard *)
  stream_from_bytes : Bytes → result MeshStreamFrame string;
  datagram_to_bytes : MeshDatagram → result Bytes string;
  datagram_from_bytes : Bytes → result MeshDatagram string;
  closed_stream : string;                 (* a write or [finish] after [finish] *)
  finished_early : nat → string           (* [FinishedEarly(n)] *)
}.

(** [encode]: [to_extend] appends the postcard bytes to the version byte. *)
Definition wire_encode {A : Type} (to_bytes : A → result Bytes string) (frame : A)
    : result Bytes MeshError :=
  map_err EncodeError (let? bytes := to_bytes frame in Ok (WIRE_VERSION :: bytes)).

Definition wire_decode {A : Type} (from_bytes : Bytes → result A string) (bytes : Bytes)
    : result A MeshError :=
  match bytes with
  | [] => Err EmptyFrame
  | v :: rest =>
      if (v =? WIRE_VERSION)%N then map_err DecodeError (from_bytes rest)
      else Err (UnknownWireVersion v)
  end.

Section wire.
Context {WC : WireCrates}.

Definition encode_datagram_checked (dgram : MeshDatagram) (max_datagram_size : N)
    : result Bytes MeshError :=
  let? bytes := wire_encode datagram_to_bytes dgram in
  let size := N.of_nat (length bytes) in
  if (max_datagram_size <? size)%N then Err (DatagramTooLarge size max_datagram_size) else Ok bytes.

(** ** The halves of a stream ([peer.rs]) *)

(** How a [write_all] ends: everything written, or an error after some bytes. *)
Inductive WriteResult : Type :=
| Written
| WriteFailed (e : string) (sent : nat).

(** What was written so far, whether [finish] was called, how the next writes
will end (no entry: they succeed), and the error [finish] will report. *)
Record SendHalf : Type := mkSend {
  written : Bytes;
  finished : bool;
  write_results : list WriteResult;
  finish_error : option string
}.

(** What is still to be read, then the peer's end of stream or an error. *)
Record RecvHalf : Type := mkRecv {
  unread : Bytes;
  recv_error : option string
}.

Record MeshStream : Type := mkStream { send : SendHalf; recv : RecvHalf }.

Definition write_all (bytes : Bytes) (h : SendHalf) : result unit string * SendHalf :=
  if finished h then (Err closed_stream, h) else
  match write_results h with
  | WriteFailed e n :: rest =>
      (Err e, mkSend (written h ++ take n bytes) false rest (finish_error h))
  | Written :: rest => (Ok tt, mkSend (written h ++ bytes) false rest (finish_error h))
  | [] => (Ok tt, mkSend (written h ++ bytes) false [] (finish_error h))
  end.

(** [(bytes.len() as u32).to_le_bytes()]. *)
Definition frame_length (bytes : Bytes) : Bytes := le_bytes 4 (N.of_nat (length bytes) mod 4294967296).

Definition half_send_frame (frame : MeshStreamFrame) (h : SendHalf) : result unit MeshError * SendHalf :=
  match wire_encode stream_to_bytes frame with
  | Err e => (Err e, h)
  | Ok bytes =>
      let size := N.of_nat (length bytes) in
      if (MAX_STREAM_FRAME <? size)%N then (Err (FrameTooLarge size MAX_STREAM_FRAME), h) else
      match write_all (frame_length bytes) h with
      | (Err e, h) => (Err (Transport e), h)
      | (Ok _, h) =>
          match write_all bytes h with
          | (Err e, h) => (Err (Transport e), h)
          | (Ok _, h) => (Ok tt, h)
          end
      end
  end.

Definition half_finish (h : SendHalf) : result unit MeshError * SendHalf :=
  if finished h then (Err (Transport closed_stream), h) else
  match finish_error h with
  | Some e => (Err (Transport e), h)
  | None => (Ok tt, mkSend (written h) true (write_results h) None)
  end.

(** [read_exact]: the bytes, or how many had arrived when the stream ended, with
the connection's error if there was one. *)
Definition read_exact (n : nat) (h : RecvHalf) : result Bytes (nat * option string) * RecvHalf :=
  if n <=? length (unread h) then
    (Ok (take n (unread h)), mkRecv (drop n (unread h)) (recv_error h))
  else (Err (length (unread h), recv_error h), mkRecv [] (recv_error h)).

Definition read_error (e : nat * option string) : MeshError :=
  Transport (default (finished_early e.1) e.2).

Definition half_recv_frame (h : RecvHalf) : result (option MeshStreamFrame) MeshError * RecvHalf :=
  match read_exact 4 h with
  | (Err (0, None), h) => (Ok None, h)
  | (Err e, h) => (Err (read_error e), h)
  | (Ok len, h) =>
      let len := le_value len in
      if (MAX_STREAM_FRAME <? len)%N then (Err (FrameTooLarge len MAX_STREAM_FRAME), h) else
      match read_exact (N.to_nat len) h with
      | (Err e, h) => (Err (read_error e), h)
      | (Ok bytes, h) => (let? frame := wire_decode stream_from_bytes bytes in Ok (Some frame), h)
      end
  end.

Definition send_frame (frame : MeshStreamFrame) (s : MeshStream) : result unit MeshError * MeshStream :=
  let '(r, h) := half_send_frame frame (send s) in (r, mkStream h (recv s)).
Definition recv_frame (s : MeshStream) : result (option MeshStreamFrame) MeshError * MeshStream :=
  let '(r, h) := half_recv_frame (recv s) in (r, mkStream (send s) h).
Definition stream_finish (s : MeshStream) : result unit MeshError * MeshStream :=
  let '(r, h) := half_finish (send s) in (r, mkStream h (recv s)).

(** ** Lemmas *)

(** The documented inverse of the postcard encoding. *)
Record WireLaws : Prop := {
  stream_inverse f b : stream_to_bytes f = Ok b → stream_from_bytes b = Ok f
}.

(** What one [send_frame] puts on the stream when nothing fails, for a frame
that can be sent: it encodes, in at most [MAX_STREAM_FRAME] bytes. *)
Definition framed (frame : MeshStreamFrame) : Bytes :=
  match wire_encode stream_to_bytes frame with
  | Ok b => frame_length b ++ b
  | Err _ => []
  end.

Definition sendable (frame : MeshStreamFrame) : Prop :=
  ∃ b, wire_encode stream_to_bytes frame = Ok b ∧ (N.of_nat (length b) <= MAX_STREAM_FRAME)%N.

Lemma read_exact_app n a b e : length a = n → read_exact n (mkRecv (a ++ b) e) = (Ok a, mkRecv b e).
Proof.
  intros <-. unfold read_exact. cbn [unread recv_error]. rewrite length_app.
  destruct (Nat.leb_spec (length a) (length a + length b)); [|lia].
  by rewrite take_app_length, drop_app_length.
Qed.

Lemma read_exact_short n a e : length a < n → read_exact n (mkRecv a e) = (Err (length a, e), mkRecv [] e).
Proof. intros Hn. unfold read_exact. cbn [unread recv_error]. by destruct (Nat.leb_spec n (length a)); [lia|]. Qed.

Lemma write_all_cases bytes h r h' :
  write_all bytes h = (r, h') →
  (r = Ok tt ∧ written h' = written h ++ bytes) ∨ (is_ok r = false ∧ ∃ k, written h' = written h ++ take k bytes).
Proof.
  unfold write_all. destruct (finished h).
  { intros [= <- <-]. right. split; [done|]. exists 0. by rewrite app_nil_r. }
  destruct (write_results h) as [|[|e n] l]; intros [= <- <-]; [by left..|]. right. split; [done|]. by exists n.
Qed.

(** A send writes all of the frame, or reports an error after a part of it. *)
Lemma half_send_frame_cases frame h r h' :
  half_send_frame frame h = (r, h') →
  (r = Ok tt ∧ sendable frame ∧ written h' = written h ++ framed frame)
  ∨ (is_ok r = false ∧ ∃ k, (k = 0 ∨ sendable frame) ∧ written h' = written h ++ take k (framed frame)).
Proof.
  assert (∀ l, l = l ++ take 0 (framed frame)) as H0 by (intros; by rewrite app_nil_r).
  unfold half_send_frame, framed, sendable in *.
  destruct (wire_encode stream_to_bytes frame) as [b|e].
  2:{ intros [= <- <-]. right. split; [done|]. exists 0. split; [by left|]. apply H0. }
  destruct (N.ltb_spec MAX_STREAM_FRAME (N.of_nat (length b))) as [_|Hsize].
  { intros [= <- <-]. right. split; [done|]. exists 0. split; [by left|]. apply H0. }
  destruct (write_all (frame_length b) h) as [r1 h1] eqn:H1.
  apply write_all_cases in H1 as [[-> H1]|[Hr1 [k H1]]].
  2:{ destruct r1; [done|]. intros [= <- <-]. right. split; [done|].
      exists (min k (length (frame_length b))). split; [by eauto|].
      rewrite H1, take_app_le by lia. f_equal.
      destruct (Nat.min_spec k (length (frame_length b))) as [[_ ->]|[? ->]]; [done|]. by rewrite firstn_all, take_ge. }
  destruct (write_all b h1) as [r2 h2] eqn:H2. apply write_all_cases in H2 as [[-> H2]|[Hr2 [k H2]]].
  - intros [= <- <-]. left. split_and!; [done|by eauto|]. by rewrite H2, H1, <-app_assoc.
  - destruct r2; [done|]. intros [= <- <-]. right. split; [done|].
    exists (length (frame_length b) + k). split; [by eauto|]. by rewrite H2, H1, take_app_add, <-app_assoc.
Qed.

Lemma length_frame_length b : length (frame_length b) = 4.
Proof. apply length_le_bytes. Qed.

Lemma frame_length_value b :
  (N.of_nat (length b) <= MAX_STREAM_FRAME)%N → le_value (frame_length b) = N.of_nat (length b).
Proof.
  unfold frame_length, MAX_STREAM_FRAME. intros Hb. rewrite N.mod_small by lia.
  apply le_value_le_bytes. change (256 ^ N.of_nat 4)%N with 4294967296%N. lia.
Qed.

(** A whole frame is read as what was sent; a part of one never yields a frame. *)
Lemma half_recv_framed (L : WireLaws) frame rest e :
  sendable frame → half_recv_frame (mkRecv (framed frame ++ rest) e) = (Ok (Some frame), mkRecv rest e).
Proof.
  unfold sendable, framed, half_recv_frame. intros (b & Hb & Hsize). rewrite Hb.
  rewrite <-app_assoc, (read_exact_app 4) by apply length_frame_length.
  rewrite frame_length_value by done. destruct (N.ltb_spec MAX_STREAM_FRAME (N.of_nat (length b))); [lia|].
  rewrite Nat2N.id, (read_exact_app (length b)) by done.
  unfold wire_encode in Hb. destruct (stream_to_bytes frame) as [p|] eqn:Hp; [|done].
  injection Hb as <-. simpl. by rewrite (stream_inverse L _ _ Hp).
Qed.

Lemma half_recv_part frame k e :
  sendable frame → k < length (framed frame) →
  ∃ r, half_recv_frame (mkRecv (take k (framed frame)) e) = (r, mkRecv [] e)
    ∧ match r with Ok o => o = None ∧ k = 0 ∧ e = None | Err _ => k ≠ 0 ∨ e ≠ None end.
Proof.
  unfold sendable, framed, half_recv_frame. intros (b & Hb & Hsize). rewrite Hb.
  rewrite length_app, length_frame_length. intros Hk. destruct (Nat.lt_ge_cases k 4) as [Hlt|Hge].
  - rewrite take_app_le by (rewrite length_frame_length; lia).
    assert (length (take k (frame_length b)) = k) as Hlen
      by (rewrite length_take, length_frame_length; lia).
    rewrite read_exact_short by lia. rewrite Hlen.
    destruct k, e; eexists; (split; [done|]); naive_solver.
  - replace k with (length (frame_length b) + (k - 4)) by (rewrite length_frame_length; lia).
    rewrite take_app_add, (read_exact_app 4) by apply length_frame_length.
    rewrite frame_length_value by done. destruct (N.ltb_spec MAX_STREAM_FRAME (N.of_nat (length b))); [lia|].
    rewrite read_exact_short by (rewrite length_take; lia).
    eexists. split; [done|]. left. rewrite length_frame_length. lia.
Qed.

(** *** Many frames *)

(** Send in order until one fails; read until the end, an error, or [n] frames. *)
Fixpoint send_frames (frames : list MeshStreamFrame) (h : SendHalf) : result unit MeshError * SendHalf :=
  match frames with
  | [] => (Ok tt, h)
  | f :: frames =>
      match half_send_frame f h with
      | (Ok _, h) => send_frames frames h
      | (Err e, h) => (Err e, h)
      end
  end.

Fixpoint recv_frames (n : nat) (h : RecvHalf) : list MeshStreamFrame * result (option MeshStreamFrame) MeshError :=
  match n with
  | 0 => ([], Ok None)
  | S n =>
      match half_recv_frame h with
      | (Ok (Some f), h) => let '(fs, r) := recv_frames n h in (f :: fs, r)
      | (r, _) => ([], r)
      end
  end.

(** What a sequence of sends wrote: whole frames, then part of the next. *)
Lemma send_frames_written frames h r h' :
  send_frames frames h = (r, h') →
  (r = Ok tt ∧ Forall sendable frames ∧ written h' = written h ++ concat (map framed frames))
  ∨ (is_ok r = false ∧ ∃ sent next rest k, frames = sent ++ next :: rest ∧ Forall sendable sent
      ∧ (k = 0 ∨ sendable next)
      ∧ written h' = written h ++ concat (map framed sent) ++ take k (framed next)).
Proof.
  revert h. induction frames as [|f frames IH]; intros h; cbn [send_frames].
  { intros [= <- <-]. left. split_and!; [done..|]. by rewrite app_nil_r. }
  destruct (half_send_frame f h) as [r1 h1] eqn:H1.
  apply half_send_frame_cases in H1 as [(-> & Hf & H1)|(Hr1 & k & Hk & H1)].
  - intros [(-> & Hall & H)|(Hr & sent & next & rest & k & -> & Hall & Hk & H)]%IH.
    + left. split_and!; [done|by constructor|]. by rewrite H, H1, <-app_assoc.
    + right. split; [done|]. exists (f :: sent), next, rest, k. split_and!; [done|by constructor|done|].
      rewrite H, H1. simpl. by rewrite <-!app_assoc.
  - destruct r1; [done|]. intros [= <- <-]. right. split; [done|].
    by exists [], f, frames, k.
Qed.

(** Reading the first [j] bytes of a sequence of frames: a prefix of the frames,
all of them when all bytes arrive; a clean end only between two frames. *)
Lemma recv_frames_truncated (L : WireLaws) frames n j e :
  Forall sendable frames → length frames < n →
  ∃ got r, recv_frames n (mkRecv (take j (concat (map framed frames))) e) = (got, r)
    ∧ got `prefix_of` frames
    ∧ (length (concat (map framed frames)) <= j → got = frames ∧ (e = None → r = Ok None))
    ∧ match r with
      | Ok o => o = None ∧ e = None ∧ take j (concat (map framed frames)) = concat (map framed got)
      | Err _ => True
      end.
Proof.
  revert n j. induction frames as [|f frames IH]; intros n j Hall Hn; (destruct n as [|n]; [simpl in Hn; lia|]).
  { simpl. rewrite take_nil. destruct e; eexists _, _; (split; [done|]); split_and!; naive_solver. }
  apply Forall_cons in Hall as [Hf Hall]. cbn [map concat recv_frames length] in *. rewrite length_app.
  destruct (Nat.lt_ge_cases j (length (framed f))) as [Hlt|Hge].
  - rewrite take_app_le by lia. destruct (half_recv_part f j e Hf Hlt) as (r & -> & Hr).
    destruct r as [o|err].
    + destruct Hr as (-> & -> & ->). exists [], (Ok None). split_and!; [done|apply prefix_nil|lia|done..].
    + exists [], (Err err). split_and!; [done|apply prefix_nil|lia|done].
  - replace j with (length (framed f) + (j - length (framed f))) by lia.
    rewrite take_app_add, half_recv_framed by done.
    destruct (IH n (j - length (framed f)) Hall ltac:(lia)) as (got & r & -> & Hpre & Hfull & Hr).
    exists (f :: got), r. split_and!; [done|by apply prefix_cons| |].
    + intros Hj. destruct Hfull as [-> ?]; [lia|done].
    + destruct r; [|done]. destruct Hr as (-> & -> & ->). done.
Qed.
(** Any way of sending, any way of losing the end of the bytes. *)
Lemma frames_arrive (L : WireLaws) (frames : list MeshStreamFrame)
    (h h' : SendHalf) (r : result unit MeshError) (j n : nat) (e : option string) :
  written h = [] → send_frames frames h = (r, h') → length frames < n →
  ∃ got rr, recv_frames n (mkRecv (take j (written h')) e) = (got, rr)
    ∧ got `prefix_of` frames
    ∧ match rr with
      | Ok o => o = None ∧ e = None ∧ take j (written h') = concat (map framed got)
      | Err _ => True
      end
    ∧ (r = Ok tt → length (written h') <= j → got = frames ∧ (e = None → rr = Ok None)).
Proof.
  intros Hw Hsend Hn.
  apply send_frames_written in Hsend as [(-> & Hall & ->)|(Hr & sent & next & rest & k & -> & Hall & Hk & ->)];
    rewrite Hw; cbn [app].
  { destruct (recv_frames_truncated L frames n j e Hall Hn) as (got & rr & ? & ? & ? & ?).
    exists got, rr. split_and!; auto. }
  rewrite length_app in Hn. simpl in Hn.
  set (onwire := if decide (k = 0) then sent else sent ++ [next]).
  assert (Forall sendable onwire ∧ length onwire < n ∧ onwire `prefix_of` sent ++ next :: rest
    ∧ concat (map framed sent) ++ take k (framed next)
      = take (length (concat (map framed sent)) + k) (concat (map framed onwire))) as (Hon & Hlen & Hpre & Heq).
  { unfold onwire. destruct (decide (k = 0)) as [->|Hk0].
    - split_and!; [done|lia|by apply prefix_app_r|]. rewrite Nat.add_0_r, firstn_all. simpl. by rewrite app_nil_r.
    - destruct Hk as [?|Hnext]; [done|]. split_and!.
      + apply Forall_app. by repeat constructor.
      + rewrite length_app. simpl. lia.
      + exists rest. by rewrite <-app_assoc.
      + rewrite map_app, concat_app, take_app_add. simpl. by rewrite app_nil_r. }
  rewrite Heq, take_take.
  destruct (recv_frames_truncated L onwire n (j `min` (length (concat (map framed sent)) + k)) e Hon Hlen)
    as (got & rr & Hrecv & Hgot & _ & Hend).
  exists got, rr. split_and!; [done|by etrans|done|]. by intros ->.
Qed.
End wire.

(** Frames arrive whole and in order.  Send frames until one send fails, in
whatever way; let the network deliver any prefix of the bytes written and then
end cleanly or with an error.  The receiver reads a prefix of the frames sent,
never a frame that was not sent; a cut inside a frame is an error, not an end;
and if every send succeeded and every byte arrives before a clean end, it reads
exactly the frames sent and then the end. *)
Theorem frames_arrive_in_order {WC : WireCrates} (L : WireLaws) (frames : list MeshStreamFrame)
    (h h' : SendHalf) (r : result unit MeshError) (j n : nat) (e : option string) :
  written h = [] → send_frames frames h = (r, h') → length frames < n →
  ∃ got rr, recv_frames n (mkRecv (take j (written h')) e) = (got, rr)
    ∧ got `prefix_of` frames
    ∧ match rr with
      | Ok o => o = None ∧ e = None ∧ take j (written h') = concat (map framed got)
      | Err _ => True
      end
    ∧ (r = Ok tt → length (written h') <= j → got = frames ∧ (e = None → rr = Ok None)).
Proof. by apply frames_arrive. Qed.
