(* ===== verification/Directory.v ===== *)
(** * Directory: the fenced session directory

Models [buzz-relay/src/tunnel/directory.rs] over the fenced headers of
[MeshWire].  The four Lua scripts are translated call by call; a script runs
atomically, at one reading of the server's clock (milliseconds).

Redis itself is the interface [Redis]: reading a key, [INCR], [SET ... PX],
[PEXPIRE] and [DEL] on an abstract store whose keys can expire.  The [hex]
crate and Lua's [tostring] are [DirectoryCrates].  What can go wrong around a
script (the deletion fence, the pool, a lost reply) is an argument, [CallEnv];
a script whose reply is lost may have run.

[SET ... PX] and [PEXPIRE] answer a store: that Redis refuses a time to live of
about 2^63 milliseconds, after [INCR] has run, is not modelled (the default is 30
seconds). *)
From stdpp Require Import pretty.
From S2P Require Import Prelude Text Encode Nostr Gossip MeshWire.

(** ** The store *)

Class Redis : Type := {
  Store : Type;
  redis_get : N → string → Store → option string;               (* clock first *)
  redis_incr : N → string → Store → result (N * Store) string;
  redis_set_px : N → string → string → N → Store → Store;       (* key, value, milliseconds *)
  redis_pexpire : N → string → N → Store → Store;
  redis_del : string → Store → Store
}.

Class DirectoryCrates : Type := {
  hex_decode : string → option (list N);
  lua_tostring : N → string
}.

(** ** Data *)

Record SessionLease : Type := mkLease {
  l_community_id : Uuid;
  l_session_id : Uuid;
  l_owner_runtime_id : RuntimeId;
  l_generation : N;                  (* [u64] *)
  l_profile : Profile
}.

Inductive AcquireResult : Type :=
| Acquired (lease : SessionLease)
| Exists (lease : SessionLease).

Inductive RenewResult : Type :=
| Renewed (lease : SessionLease)
| Lost (current : option SessionLease) (known_generation : option N).

Inductive ReleaseResult : Type :=
| Released (lease : SessionLease)
| NotOwner (current : option SessionLease) (known_generation : option N).

Inductive DirectoryError : Type :=
| Pool (e : string)
| RedisError (e : string)
| MalformedLease (community_id session_id : Uuid) (value : string)
| MalformedGeneration (community_id session_id : Uuid) (value : string)
| UnexpectedScriptStatus (status : string)
| InvalidLeaseTtl
| CommunityWriteFenced (e : string).

Definition fenced_header (l : SessionLease) : FencedHeader :=
  mkFenced (l_session_id l) (l_generation l) (l_owner_runtime_id l).

(** What happens around a script: without a [db] there is no fence
([serving = None]); the script may not be sent, or run with its reply lost. *)
Record ServingEnv : Type := mkServing {
  sv_begin : option string;     (* [acquire_serving_write] failed *)
  sv_protect : option string;   (* [protect] failed *)
  sv_finish : option string     (* [finish] failed *)
}.

Inductive Sent : Type :=
| Executed
| ReplyLost (e : string)
| NotSent (e : string).

Record CallEnv : Type := mkEnv {
  serving : option ServingEnv;
  pool_error : option string;
  sent : Sent
}.

Section directory.
Context {RD : Redis} {HE : HexEncode} {DC : DirectoryCrates} {UT : UuidText}.

(** ** The text of a lease *)

Definition as_wire_str (p : Profile) : string :=
  match p with
  | ReliableStream => "reliable-stream"
  | RealtimeMedia => "realtime-media"
  | HuddleControl => "huddle-control"
  end.

Definition profile_from_wire (value : string) : option Profile :=
  if String.eqb value "reliable-stream" then Some ReliableStream
  else if String.eqb value "realtime-media" then Some RealtimeMedia
  else if String.eqb value "huddle-control" then Some HuddleControl
  else None.

(** [str::parse::<u64>]. *)
Definition parse_u64 (s : string) : option N := parse_uint U64_MAX s.

Definition parse_lease (community_id session_id : Uuid) (value : string)
    : result SessionLease DirectoryError :=
  let malformed := MalformedLease community_id session_id value in
  let parts := split_on "|" value in
  let? owner_hex := ok_or (parts !! 0) malformed in
  let? text := ok_or (parts !! 1) malformed in
  let? generation := ok_or (parse_u64 text) malformed in
  if (generation =? 0)%N then Err malformed
  else
  let? profile := ok_or (parts !! 2 ≫= profile_from_wire) malformed in
  if bool_decide (is_Some (parts !! 3)) then Err malformed
  else
  let? owner_bytes := ok_or (hex_decode owner_hex) malformed in
  if bool_decide (length owner_bytes ≠ 32) then Err malformed
  else Ok (mkLease community_id session_id owner_bytes generation profile).

Definition parse_optional_lease (community_id session_id : Uuid) (value : string)
    : result (option SessionLease) DirectoryError :=
  if String.eqb value "" then Ok None
  else let? lease := parse_lease community_id session_id value in Ok (Some lease).

Definition parse_optional_generation (community_id session_id : Uuid) (value : string)
    : result (option N) DirectoryError :=
  if String.eqb value "" then Ok None
  else
  let malformed := MalformedGeneration community_id session_id value in
  let? generation := ok_or (parse_u64 value) malformed in
  if (generation =? 0)%N then Err malformed else Ok (Some generation).

(** [i64::try_from(ttl.as_millis())], positive; [ttl] in nanoseconds. *)
Definition ttl_ms (ttl : N) : result N DirectoryError :=
  let ms := (ttl / 1000000)%N in
  if (ms <=? 9223372036854775807)%N && (0 <? ms)%N then Ok ms else Err InvalidLeaseTtl.

Definition session_base (community_id session_id : Uuid) : string :=
  "buzz:" +:+ uuid_to_string community_id +:+ ":tunnel:" +:+ uuid_to_string session_id.
Definition lease_key (community_id session_id : Uuid) : string :=
  session_base community_id session_id +:+ ":lease".
Definition generation_key (community_id session_id : Uuid) : string :=
  session_base community_id session_id +:+ ":generation".

(** ** The Lua scripts *)

(** [string.match(current, '^([^|]+)|([^|]+)|([^|]+)$')]. *)
Definition lua_match (current : string) : option (string * string * string) :=
  match split_on "|" current with
  | [a; b; c] =>
      if String.eqb a "" || String.eqb b "" || String.eqb c "" then None else Some (a, b, c)
  | _ => None
  end.

(** [redis.call('GET', key) or default]. *)
Definition get_or (now : N) (key default_value : string) (s : Store) : string :=
  default default_value (redis_get now key s).

(** A reply is its three strings; a failing [redis.call] aborts the script. *)
Definition acquire_script (now : N) (lk gk owner profile : string) (ttl : N) (s : Store)
    : result (string * string * string) string * Store :=
  match redis_get now lk s with
  | Some current => (Ok ("exists", current, get_or now gk "" s), s)
  | None =>
      match redis_incr now gk s with
      | Err e => (Err e, s)
      | Ok (generation, s) =>
          let value := owner +:+ "|" +:+ lua_tostring generation +:+ "|" +:+ profile in
          (Ok ("acquired", value, lua_tostring generation), redis_set_px now lk value ttl s)
      end
  end.

(** What [RENEW_SCRIPT] and [RELEASE_SCRIPT] share: the status of the caller's
tuple, [missing], [lost], or the one given for the holder, for whom [act] is
done on the lease key. *)
Definition holder_script (status : string) (act : Store → Store) (now : N)
    (lk gk owner generation : string) (s : Store) : (string * string * string) * Store :=
  match redis_get now lk s with
  | None => (("missing", "", get_or now gk "" s), s)
  | Some current =>
      match lua_match current with
      | Some (current_owner, current_generation, _) =>
          if String.eqb current_owner owner && String.eqb current_generation generation then
            let s := act s in
            ((status, current, get_or now gk current_generation s), s)
          else (("lost", current, get_or now gk current_generation s), s)
      | None => (("lost", current, get_or now gk "" s), s)
      end
  end.

Definition renew_script (now : N) (lk gk owner generation : string) (ttl : N) (s : Store)
    : result (string * string * string) string * Store :=
  let '(reply, s) := holder_script "renewed" (redis_pexpire now lk ttl) now lk gk owner generation s in
  (Ok reply, s).

Definition release_script (now : N) (lk gk owner generation : string) (s : Store)
    : result (string * string * string) string * Store :=
  let '(reply, s) := holder_script "released" (redis_del lk) now lk gk owner generation s in
  (Ok reply, s).

Definition validate_script (now : N) (lk gk : string) (s : Store) : string * string :=
  (get_or now lk "" s, get_or now gk "" s).

(** ** The directory *)

(** [begin_serving_write]. *)
Definition begin_serving_write (env : CallEnv) : result unit DirectoryError :=
  match serving env ≫= sv_begin with
  | Some e => Err (CommunityWriteFenced e)
  | None => Ok tt
  end.

(** The mutation of a call, under [protect] when there is a guard: what the
caller gets, and the store. *)
Definition run_script (env : CallEnv) (script : Store → result (string * string * string) string * Store)
    (s : Store) : result (string * string * string) DirectoryError * Store :=
  let '(reply, s) :=
    match sent env with
    | Executed => let '(r, s) := script s in (map_err RedisError r, s)
    | ReplyLost e => (Err (RedisError e), (script s).2)
    | NotSent e => (Err (RedisError e), s)
    end in
  match serving env ≫= sv_protect with
  | Some e => (Err (CommunityWriteFenced e), s)
  | None => (reply, s)
  end.

Definition finish_serving_write (env : CallEnv) : result unit DirectoryError :=
  match serving env ≫= sv_finish with
  | Some e => Err (CommunityWriteFenced e)
  | None => Ok tt
  end.

(** [self.pool.get().await?]. *)
Definition pool_get (env : CallEnv) : result unit DirectoryError :=
  match pool_error env with
  | Some e => Err (Pool e)
  | None => Ok tt
  end.

Definition acquire (env : CallEnv) (now lease_ttl : N) (community_id session_id : Uuid)
    (owner : RuntimeId) (profile : Profile) (s : Store) : result AcquireResult DirectoryError * Store :=
  match begin_serving_write env with
  | Err e => (Err e, s)
  | Ok _ =>
  match ttl_ms lease_ttl with
  | Err e => (Err e, s)
  | Ok ttl =>
  match pool_get env with
  | Err e => (Err e, s)
  | Ok _ =>
      let '(reply, s) := run_script env
        (acquire_script now (lease_key community_id session_id) (generation_key community_id session_id)
           (to_hex owner) (as_wire_str profile) ttl) s in
      (let? (status, value, _) := reply in
       let? lease := parse_lease community_id session_id value in
       let? _ := finish_serving_write env in
       if String.eqb status "acquired" then Ok (Acquired lease)
       else if String.eqb status "exists" then Ok (Exists lease)
       else Err (UnexpectedScriptStatus status), s)
  end end end.

Definition takeover := acquire.

(** [None] is the panic of [expect]. *)
Definition renew (env : CallEnv) (now lease_ttl : N) (lease : SessionLease) (s : Store)
    : option (result RenewResult DirectoryError) * Store :=
  let c := l_community_id lease in let id := l_session_id lease in
  match begin_serving_write env with
  | Err e => (Some (Err e), s)
  | Ok _ =>
  match ttl_ms lease_ttl with
  | Err e => (Some (Err e), s)
  | Ok ttl =>
  match pool_get env with
  | Err e => (Some (Err e), s)
  | Ok _ =>
      let '(reply, s) := run_script env
        (renew_script now (lease_key c id) (generation_key c id) (to_hex (l_owner_runtime_id lease))
           (pretty (l_generation lease)) ttl) s in
      (match reply with
       | Err e => Some (Err e)
       | Ok (status, value, known) =>
       match parse_optional_lease c id value with
       | Err e => Some (Err e)
       | Ok current =>
       match finish_serving_write env with
       | Err e => Some (Err e)
       | Ok _ =>
           if String.eqb status "renewed" then l ← current; Some (Ok (Renewed l))
           else if String.eqb status "missing" || String.eqb status "lost" then
             Some (let? g := parse_optional_generation c id known in Ok (Lost current g))
           else Some (Err (UnexpectedScriptStatus status))
       end end end, s)
  end end end.

Definition release (env : CallEnv) (now : N) (lease : SessionLease) (s : Store)
    : option (result ReleaseResult DirectoryError) * Store :=
  let c := l_community_id lease in let id := l_session_id lease in
  match begin_serving_write env with
  | Err e => (Some (Err e), s)
  | Ok _ =>
  match pool_get env with
  | Err e => (Some (Err e), s)
  | Ok _ =>
      let '(reply, s) := run_script env
        (release_script now (lease_key c id) (generation_key c id) (to_hex (l_owner_runtime_id lease))
           (pretty (l_generation lease))) s in
      (match reply with
       | Err e => Some (Err e)
       | Ok (status, value, known) =>
       match parse_optional_lease c id value with
       | Err e => Some (Err e)
       | Ok current =>
       match finish_serving_write env with
       | Err e => Some (Err e)
       | Ok _ =>
           if String.eqb status "released" then l ← current; Some (Ok (Released l))
           else if String.eqb status "missing" || String.eqb status "lost" then
             Some (let? g := parse_optional_generation c id known in Ok (NotOwner current g))
           else Some (Err (UnexpectedScriptStatus status))
       end end end, s)
  end end.

(** The readers; a failing [GET] or script is [redis_error]. *)
Definition lookup (env : CallEnv) (redis_error : option string) (now : N) (community_id session_id : Uuid)
    (s : Store) : result (option SessionLease) DirectoryError :=
  let? _ := pool_get env in
  match redis_error with
  | Some e => Err (RedisError e)
  | None =>
      match redis_get now (lease_key community_id session_id) s with
      | Some v => let? l := parse_lease community_id session_id v in Ok (Some l)
      | None => Ok None
      end
  end.

Definition known_generation (env : CallEnv) (redis_error : option string) (now : N)
    (community_id session_id : Uuid) (s : Store) : result (option N) DirectoryError :=
  let? _ := pool_get env in
  match redis_error with
  | Some e => Err (RedisError e)
  | None =>
      match redis_get now (generation_key community_id session_id) s with
      | Some v => parse_optional_generation community_id session_id v
      | None => Ok None
      end
  end.

(** [debug] stands for the [Display] of a [DirectoryError]. *)
Definition validate_fenced_header (debug : DirectoryError → string) (env : CallEnv)
    (redis_error : option string) (now : N) (community_id : Uuid) (fenced : FencedHeader) (s : Store)
    : result unit MeshError :=
  let id := fh_session_id fenced in
  match pool_error env with
  | Some e => Err (Transport ("redis pool: " +:+ e))
  | None =>
  match redis_error with
  | Some e => Err (MeshRedis e)
  | None =>
      let '(lease_value, known) := validate_script now (lease_key community_id id) (generation_key community_id id) s in
      let? known_from_counter :=
        map_err (λ e, Transport (debug e)) (parse_optional_generation community_id id known) in
      let known_from_counter := default 0%N known_from_counter in
      let? current := map_err (λ e, Transport (debug e)) (parse_optional_lease community_id id lease_value) in
      let known := N.max (default known_from_counter (l_generation <$> current)) known_from_counter in
      if (0 <? known)%N && (fh_generation fenced <? known)%N then
        Err (StaleGeneration id (fh_generation fenced) known)
      else
      match current with
      | None => Err (NoActiveLease id (fh_generation fenced) known (fh_owner_runtime_id fenced))
      | Some current =>
          if bool_decide (fh_generation fenced ≠ l_generation current) then
            Err (FutureGeneration id (fh_generation fenced) (l_generation current))
          else if bool_decide (fh_owner_runtime_id fenced ≠ l_owner_runtime_id current) then
            Err (OwnerMismatch id (fh_generation fenced) (fh_owner_runtime_id fenced)
                   (l_owner_runtime_id current))
          else Ok tt
      end
  end end.
End directory.
