(* ===== verification/DirectoryProps.v ===== *)
(** * DirectoryProps: the session directory is a fenced lease register

An abstract register says what the directory promises: the holders a session
has had, in order, and until when the last one holds it.  Every call of the
directory, whatever fails around it, does what the register does
([directory_refines_register]); the fencing guarantees follow. *)
From stdpp Require Import pretty.
From S2P Require Import Prelude Text Encode Nostr Gossip MeshWire Directory.

(** ** What the code relies on *)

Record RedisLaws {RD : Redis} : Prop := {
  get_set_px now k v ttl s t :
    (now <= t)%N → redis_get t k (redis_set_px now k v ttl s) = if (t <? now + ttl)%N then Some v else None;
  get_set_px_ne now k v ttl s t k' :
    k' ≠ k → redis_get t k' (redis_set_px now k v ttl s) = redis_get t k' s;
  get_pexpire now k ttl s v t :
    redis_get now k s = Some v → (now <= t)%N →
    redis_get t k (redis_pexpire now k ttl s) = if (t <? now + ttl)%N then Some v else None;
  get_pexpire_ne now k ttl s t k' :
    k' ≠ k → redis_get t k' (redis_pexpire now k ttl s) = redis_get t k' s;
  get_del t k s : redis_get t k (redis_del k s) = None;
  get_del_ne t k s k' : k' ≠ k → redis_get t k' (redis_del k s) = redis_get t k' s;
  (* a missing key counts from 0 and does not expire; a number is incremented *)
  incr_absent now k s :
    redis_get now k s = None →
    ∃ s', redis_incr now k s = Ok (1%N, s')
      ∧ (∀ t, (now <= t)%N → redis_get t k s' = Some (pretty 1%N))
      ∧ ∀ t k', k' ≠ k → redis_get t k' s' = redis_get t k' s;
  incr_number now k s n :
    (∀ t, (now <= t)%N → redis_get t k s = Some (pretty n)) → (n < 9223372036854775807)%N →
    ∃ s', redis_incr now k s = Ok ((n + 1)%N, s')
      ∧ (∀ t, (now <= t)%N → redis_get t k s' = Some (pretty (n + 1)%N))
      ∧ ∀ t k', k' ≠ k → redis_get t k' s' = redis_get t k' s
}.

(** A [RuntimeId]: 32 bytes. *)
Definition is_runtime_id (i : RuntimeId) : Prop := length i = 32 ∧ Forall (λ b, (b < 256)%N) i.

Record TextLaws {HE : HexEncode} {DC : DirectoryCrates} {UT : UuidText} : Prop := {
  hex_inverse i : is_runtime_id i → hex_decode (hex_encode i) = Some i;
  hex_chars i : is_runtime_id i → string_forall is_ascii_hexdigit (hex_encode i) = true;
  hex_nonempty i : is_runtime_id i → hex_encode i ≠ "";
  (* Lua prints an integer below 10^14 exactly *)
  lua_integer n : (n < 100000000000000)%N → lua_tostring n = pretty n;
  uuid_text_inj u v : is_uuid u → is_uuid v → uuid_to_string u = uuid_to_string v → u = v;
  uuid_text_chars u : contains_char ":" (uuid_to_string u) = false
}.

(** ** The abstract register *)

Record Session : Type := mkSession {
  holders : list (RuntimeId * Profile);     (* every holder, in order *)
  deadline : N                              (* the last one holds the lease before it *)
}.

Definition no_session : Session := mkSession [] 0.

(** The generation is the number of holders so far. *)
Definition generation (ses : Session) : N := N.of_nat (length (holders ses)).

Definition holder (now : N) (ses : Session) : option (RuntimeId * Profile) :=
  if (now <? deadline ses)%N then last (holders ses) else None.

Definition abs_known (ses : Session) : option N :=
  if (generation ses =? 0)%N then None else Some (generation ses).

Section register.
Context (c id : Uuid).

Definition lease_of (h : RuntimeId * Profile) (ses : Session) : SessionLease :=
  mkLease c id h.1 (generation ses) h.2.

Definition abs_acquire (now ttl : N) (owner : RuntimeId) (profile : Profile) (ses : Session)
    : AcquireResult * Session :=
  match holder now ses with
  | Some h => (Exists (lease_of h ses), ses)
  | None =>
      let ses := mkSession (holders ses ++ [(owner, profile)]) (now + ttl) in
      (Acquired (lease_of (owner, profile) ses), ses)
  end.

(** The holder, when it is the caller's tuple. *)
Definition held (now : N) (lease : SessionLease) (ses : Session) : option (RuntimeId * Profile) :=
  match holder now ses with
  | Some h =>
      if bool_decide (h.1 = l_owner_runtime_id lease ∧ generation ses = l_generation lease) then Some h else None
  | None => None
  end.

Definition abs_current (now : N) (ses : Session) : option SessionLease := (λ h, lease_of h ses) <$> holder now ses.

Definition abs_renew (now ttl : N) (lease : SessionLease) (ses : Session) : RenewResult * Session :=
  match held now lease ses with
  | Some h => (Renewed (lease_of h ses), mkSession (holders ses) (now + ttl))
  | None => (Lost (abs_current now ses) (abs_known ses), ses)
  end.

Definition abs_release (now : N) (lease : SessionLease) (ses : Session) : ReleaseResult * Session :=
  match held now lease ses with
  | Some h => (Released (lease_of h ses), mkSession (holders ses) 0)
  | None => (NotOwner (abs_current now ses) (abs_known ses), ses)
  end.

Definition abs_validate (now : N) (f : FencedHeader) (ses : Session) : result unit MeshError :=
  let g := generation ses in
  if (0 <? g)%N && (fh_generation f <? g)%N then Err (StaleGeneration id (fh_generation f) g)
  else match holder now ses with
  | None => Err (NoActiveLease id (fh_generation f) g (fh_owner_runtime_id f))
  | Some h =>
      if bool_decide (fh_generation f ≠ g) then Err (FutureGeneration id (fh_generation f) g)
      else if bool_decide (fh_owner_runtime_id f ≠ h.1)
           then Err (OwnerMismatch id (fh_generation f) (fh_owner_runtime_id f) h.1)
      else Ok tt
  end.
End register.

(** ** The text of a lease *)

Section text.
Context {RD : Redis} {HE : HexEncode} {DC : DirectoryCrates} {UT : UuidText} (TL : TextLaws).

Definition lease_text (h : RuntimeId * Profile) (g : N) : string :=
  to_hex h.1 +:+ "|" +:+ pretty g +:+ "|" +:+ as_wire_str h.2.

Lemma hex_no_bar i : is_runtime_id i → contains_char "|" (to_hex i) = false.
Proof. intros Hi. apply (string_forall_excludes is_ascii_hexdigit); [by apply (hex_chars TL)|done]. Qed.

Lemma pretty_no_bar (g : N) : contains_char "|" (pretty g) = false.
Proof.
  destruct (pretty_N_digits g) as (_ & _ & _ & H & _).
  by apply (string_forall_excludes is_ascii_digit).
Qed.

Lemma wire_no_bar p : contains_char "|" (as_wire_str p) = false.
Proof. by destruct p. Qed.

Lemma profile_wire p : profile_from_wire (as_wire_str p) = Some p.
Proof. by destruct p. Qed.

Lemma lease_text_split h g :
  is_runtime_id h.1 → split_on "|" (lease_text h g) = [to_hex h.1; pretty g; as_wire_str h.2].
Proof.
  intros Hh. apply (split_join "|" [to_hex h.1; pretty g; as_wire_str h.2]); [done|].
  repeat constructor; [by apply hex_no_bar|apply pretty_no_bar|apply wire_no_bar].
Qed.

Lemma parse_lease_text c id h g :
  is_runtime_id h.1 → (0 < g <= U64_MAX)%N → parse_lease c id (lease_text h g) = Ok (mkLease c id h.1 g h.2).
Proof.
  intros Hh Hg. unfold parse_lease. rewrite lease_text_split by done. simpl.
  unfold parse_u64. rewrite parse_uint_pretty by lia. simpl.
  destruct (N.eqb_spec g 0); [lia|]. rewrite profile_wire. simpl.
  unfold to_hex. rewrite (hex_inverse TL) by done. simpl. destruct Hh as [Hlen _].
  by rewrite bool_decide_false by auto.
Qed.

Lemma pretty_nonempty (g : N) : pretty g ≠ "".
Proof. destruct (pretty_N_digits g) as (x & s & -> & _). done. Qed.

Lemma lua_match_text h g :
  is_runtime_id h.1 → lua_match (lease_text h g) = Some (to_hex h.1, pretty g, as_wire_str h.2).
Proof.
  intros Hh. unfold lua_match. rewrite lease_text_split by done.
  destruct (String.eqb_spec (to_hex h.1) "") as [E|_]; [by apply (hex_nonempty TL) in E|].
  destruct (String.eqb_spec (pretty g) "") as [E|_]; [by apply pretty_nonempty in E|].
  by destruct h as [o []].
Qed.

Lemma lease_text_nonempty h g : is_runtime_id h.1 → lease_text h g ≠ "".
Proof. intros Hh E. apply (f_equal (split_on "|")) in E. by rewrite lease_text_split in E. Qed.

Lemma to_hex_inj i j : is_runtime_id i → is_runtime_id j → to_hex i = to_hex j → i = j.
Proof.
  unfold to_hex. intros Hi Hj E. apply (f_equal hex_decode) in E. rewrite !(hex_inverse TL) in E by done.
  by injection E.
Qed.

(** *** Keys *)

Lemma session_base_inj c id c' id' (a b : string) :
  is_uuid c → is_uuid id → is_uuid c' → is_uuid id' →
  contains_char ":" a = false → contains_char ":" b = false →
  session_base c id +:+ String ":" a = session_base c' id' +:+ String ":" b → c = c' ∧ id = id' ∧ a = b.
Proof.
  intros Hc Hid Hc' Hid' Ha Hb Heq.
  assert (∀ x y z, contains_char ":" z = false → session_base x y +:+ String ":" z
    = join_with ":" ["buzz"; uuid_to_string x; "tunnel"; uuid_to_string y; z]) as Hjoin.
  { intros x y z _. unfold session_base. rewrite <-!string_app_assoc. done. }
  rewrite (Hjoin c id a), (Hjoin c' id' b) in Heq by done. apply (f_equal (split_on ":")) in Heq.
  rewrite !split_join in Heq; try done; try (repeat constructor; try done; apply (uuid_text_chars TL)).
  injection Heq as E1 E2 E3. apply (uuid_text_inj TL) in E1, E2; done.
Qed.

Lemma lease_generation_keys c id c' id' :
  is_uuid c → is_uuid id → is_uuid c' → is_uuid id' → lease_key c id ≠ generation_key c' id'.
Proof. intros ? ? ? ? Heq. by apply (session_base_inj c id c' id' "lease" "generation") in Heq as (_ & _ & ?). Qed.

Lemma lease_key_inj c id c' id' :
  is_uuid c → is_uuid id → is_uuid c' → is_uuid id' → lease_key c id = lease_key c' id' → (c, id) = (c', id').
Proof. intros ? ? ? ? Heq. apply (session_base_inj c id c' id' "lease" "lease") in Heq as (-> & -> & _); done. Qed.

Lemma generation_key_inj c id c' id' :
  is_uuid c → is_uuid id → is_uuid c' → is_uuid id' →
  generation_key c id = generation_key c' id' → (c, id) = (c', id').
Proof.
  intros ? ? ? ? Heq. apply (session_base_inj c id c' id' "generation" "generation") in Heq as (-> & -> & _); done.
Qed.
End text.

(** ** One session's keys and the register *)

Section refinement.
Context {RD : Redis} {HE : HexEncode} {DC : DirectoryCrates} {UT : UuidText}.
Context (RL : RedisLaws) (TL : TextLaws).

(** From [now] on, until the next call, the two keys read what the register
says; every holder is a runtime id. *)
Record tracks (c id : Uuid) (now : N) (s : Store) (ses : Session) : Prop := {
  tracks_counter t : (now <= t)%N →
    redis_get t (generation_key c id) s
    = if (generation ses =? 0)%N then None else Some (pretty (generation ses));
  tracks_lease t : (now <= t)%N →
    redis_get t (lease_key c id) s = (λ h, lease_text h (generation ses)) <$> holder t ses;
  tracks_holders : Forall (λ h, is_runtime_id h.1) (holders ses);
  (* below the point where Lua stops printing integers exactly *)
  tracks_small : (generation ses < 99999999999999)%N
}.

Context (c id : Uuid) (Hc : is_uuid c) (Hid : is_uuid id).

Lemma tracks_later now now' s ses : (now <= now')%N → tracks c id now s ses → tracks c id now' s ses.
Proof. intros Hle [H1 H2 H3 H4]. split; [|..|done|done]; intros t Ht; [apply H1|apply H2]; lia. Qed.

Lemma holder_in t ses h : holder t ses = Some h → h ∈ holders ses ∧ (0 < generation ses)%N.
Proof.
  unfold holder, generation. case_match; [|done]. intros Hl.
  assert (h ∈ holders ses) as Hin.
  { rewrite last_lookup in Hl. by eapply list_elem_of_lookup_2. }
  split; [done|]. destruct (holders ses); [by apply not_elem_of_nil in Hin|simpl; lia].
Qed.

Lemma tracks_holder now s ses t h :
  tracks c id now s ses → holder t ses = Some h → is_runtime_id h.1 ∧ (0 < generation ses <= U64_MAX)%N.
Proof.
  intros Ht Hh. apply holder_in in Hh as [Hin Hpos]. pose proof (tracks_holders _ _ _ _ _ Ht) as Hall.
  rewrite Forall_forall in Hall. pose proof (tracks_small _ _ _ _ _ Ht). split; [by apply Hall|].
  unfold U64_MAX. lia.
Qed.

Lemma parse_current now s ses t :
  tracks c id now s ses →
  parse_optional_lease c id (default "" ((λ h, lease_text h (generation ses)) <$> holder t ses))
  = Ok (abs_current c id t ses).
Proof.
  intros Ht. unfold abs_current. destruct (holder t ses) as [h|] eqn:E; [|done]. simpl.
  destruct (tracks_holder _ _ _ _ _ Ht E) as [Hh Hg]. unfold parse_optional_lease.
  destruct (String.eqb_spec (lease_text h (generation ses)) "") as [E'|_].
  { by apply lease_text_nonempty in E'. }
  by rewrite (parse_lease_text TL).
Qed.

Lemma parse_known now s ses :
  tracks c id now s ses →
  parse_optional_generation c id (default "" (if (generation ses =? 0)%N then None else Some (pretty (generation ses))))
  = Ok (abs_known ses).
Proof.
  intros Ht. unfold abs_known. destruct (N.eqb_spec (generation ses) 0) as [|Hg]; [done|]. simpl.
  unfold parse_optional_generation.
  destruct (String.eqb_spec (pretty (generation ses)) "") as [E|_]; [by apply pretty_nonempty in E|].
  unfold parse_u64. rewrite parse_uint_pretty.
  - simpl. by destruct (N.eqb_spec (generation ses) 0).
  - pose proof (tracks_small _ _ _ _ _ Ht). unfold U64_MAX. lia.
Qed.

(** *** The scripts *)

Lemma acquire_script_new now ttl owner profile s ses :
  tracks c id now s ses → is_runtime_id owner → (generation ses + 1 < 99999999999999)%N →
  holder now ses = None →
  ∃ s', acquire_script now (lease_key c id) (generation_key c id) (to_hex owner) (as_wire_str profile) ttl s
      = (Ok ("acquired", lease_text (owner, profile) (generation ses + 1), pretty (generation ses + 1)%N), s')
    ∧ tracks c id now s' (mkSession (holders ses ++ [(owner, profile)]) (now + ttl))
    ∧ ∀ t k, k ≠ lease_key c id → k ≠ generation_key c id → redis_get t k s' = redis_get t k s.
Proof.
  intros Ht Howner Hsmall Hfree. pose proof (lease_generation_keys TL c id c id Hc Hid Hc Hid) as Hne.
  unfold acquire_script. rewrite (tracks_lease _ _ _ _ _ Ht now) by lia. rewrite Hfree. cbn [fmap option_fmap option_map].
  assert (∃ s1, redis_incr now (generation_key c id) s = Ok ((generation ses + 1)%N, s1)
    ∧ (∀ t, (now <= t)%N → redis_get t (generation_key c id) s1 = Some (pretty (generation ses + 1)%N))
    ∧ ∀ t k', k' ≠ generation_key c id → redis_get t k' s1 = redis_get t k' s) as (s1 & -> & Hget & Hother).
  { destruct (N.eqb_spec (generation ses) 0) as [Hz|Hnz].
    - destruct (incr_absent RL now (generation_key c id) s) as (s1 & H1 & H2 & H3).
      { rewrite (tracks_counter _ _ _ _ _ Ht now) by lia. by rewrite Hz. }
      exists s1. rewrite Hz. done.
    - apply (incr_number RL); [|lia]. intros t Hle. rewrite (tracks_counter _ _ _ _ _ Ht t Hle).
      by destruct (N.eqb_spec (generation ses) 0). }
  rewrite (lua_integer TL) by lia. eexists. split; [done|].
  assert (generation (mkSession (holders ses ++ [(owner, profile)]) (now + ttl)) = generation ses + 1)%N as Hgen.
  { unfold generation. simpl. rewrite length_app. simpl. lia. }
  split; [split|].
  - intros t Hle. rewrite (get_set_px_ne RL) by (intros E; by apply Hne). rewrite Hget by done. rewrite Hgen.
    by destruct (N.eqb_spec (generation ses + 1) 0); [lia|].
  - intros t Hle. rewrite (get_set_px RL) by done. rewrite Hgen. unfold holder. simpl.
    destruct (t <? now + ttl)%N; [|done]. by rewrite last_snoc.
  - apply Forall_app. split; [apply Ht|]. by constructor.
  - by rewrite Hgen.
  - intros t k Hk Hk'. rewrite (get_set_px_ne RL) by done. by apply Hother.
Qed.

(** The script of a caller with tuple [lease], on the register. *)
Lemma holder_script_tracks status act now lease s ses :
  tracks c id now s ses → is_runtime_id (l_owner_runtime_id lease) →
  holder_script status act now (lease_key c id) (generation_key c id)
    (to_hex (l_owner_runtime_id lease)) (pretty (l_generation lease)) s
  = match held now lease ses with
    | Some h =>
        ((status, lease_text h (generation ses),
          default (pretty (generation ses)) (redis_get now (generation_key c id) (act s))), act s)
    | None =>
        ((if holder now ses then "lost" else "missing",
          default "" ((λ h, lease_text h (generation ses)) <$> holder now ses),
          default "" (redis_get now (generation_key c id) s)), s)
    end.
Proof.
  intros Ht Howner. unfold holder_script, held. rewrite (tracks_lease _ _ _ _ _ Ht now) by lia.
  destruct (holder now ses) as [h|] eqn:Hh; cbn [fmap option_fmap option_map default]; [|done].
  destruct (tracks_holder _ _ _ _ _ Ht Hh) as [Hhid Hg].
  rewrite (lua_match_text TL) by done. unfold get_or.
  assert (String.eqb (to_hex h.1) (to_hex (l_owner_runtime_id lease)) && String.eqb (pretty (generation ses)) (pretty (l_generation lease))
    = bool_decide (h.1 = l_owner_runtime_id lease ∧ generation ses = l_generation lease)) as ->.
  { apply eq_true_iff_eq. rewrite andb_true_iff, !String.eqb_eq, bool_decide_eq_true. split.
    - intros [E1%(to_hex_inj TL) E2%(inj pretty)]; done.
    - intros [-> ->]. done. }
  case_bool_decide; [done|].
  rewrite (tracks_counter _ _ _ _ _ Ht now) by lia.
  by destruct (N.eqb_spec (generation ses) 0); [lia|].
Qed.

(** *** The calls, with what fails around the script *)

(** What stops a call before its script. *)
Definition guard (env : CallEnv) (ttl : result N DirectoryError) : result N DirectoryError :=
  let? _ := begin_serving_write env in
  let? ttl := ttl in
  let? _ := pool_get env in
  Ok ttl.

Definition script_runs (env : CallEnv) : bool :=
  match sent env with
  | NotSent _ => false
  | _ => true
  end.

(** What the caller learns of the script's answer [r]. *)
Definition answer {A : Type} (env : CallEnv) (r : A) : result A DirectoryError :=
  match serving env ≫= sv_protect with
  | Some e => Err (CommunityWriteFenced e)
  | None =>
      match sent env with
      | Executed => let? _ := finish_serving_write env in Ok r
      | ReplyLost e => Err (RedisError e)
      | NotSent e => Err (RedisError e)
      end
  end.

(** A call of the register: its answer, and the session if the script ran. *)
Definition abs_call {A : Type} (env : CallEnv) (ttl : result N DirectoryError) (op : N → A * Session) (ses : Session)
    : result A DirectoryError * Session :=
  match guard env ttl with
  | Err e => (Err e, ses)
  | Ok ttl => (answer env (op ttl).1, if script_runs env then (op ttl).2 else ses)
  end.

Lemma acquire_refines env now lease_ttl owner profile s ses :
  tracks c id now s ses → is_runtime_id owner → (generation ses + 1 < 99999999999999)%N →
  let '(r, ses') := abs_call env (ttl_ms lease_ttl) (λ ttl, abs_acquire c id now ttl owner profile ses) ses in
  ∃ s', acquire env now lease_ttl c id owner profile s = (r, s') ∧ tracks c id now s' ses'
    ∧ ∀ t k, k ≠ lease_key c id → k ≠ generation_key c id → redis_get t k s' = redis_get t k s.
Proof.
  intros Ht Howner Hsmall. unfold abs_call, guard, acquire.
  destruct (begin_serving_write env) as [[]|e]; simpl; [|by eauto].
  destruct (ttl_ms lease_ttl) as [ttl|e]; simpl; [|by eauto].
  destruct (pool_get env) as [[]|e]; simpl; [|by eauto].
  assert (∃ s', acquire_script now (lease_key c id) (generation_key c id) (to_hex owner) (as_wire_str profile) ttl s
      = (Ok (if holder now ses then "exists" else "acquired",
             match holder now ses with
             | Some h => lease_text h (generation ses)
             | None => lease_text (owner, profile) (generation ses + 1)
             end,
             match holder now ses with
             | Some h => get_or now (generation_key c id) "" s
             | None => pretty (generation ses + 1)%N
             end), s')
      ∧ tracks c id now s' (abs_acquire c id now ttl owner profile ses).2
      ∧ ∀ t k, k ≠ lease_key c id → k ≠ generation_key c id → redis_get t k s' = redis_get t k s)
    as (s' & Hscript & Htracks & Hframe).
  { unfold abs_acquire. destruct (holder now ses) as [h|] eqn:Hh.
    - exists s. unfold acquire_script. rewrite (tracks_lease _ _ _ _ _ Ht now) by lia. by rewrite Hh.
    - by apply acquire_script_new. }
  unfold run_script, answer, script_runs.
  assert (∃ r, parse_lease c id (match holder now ses with
      | Some h => lease_text h (generation ses) | None => lease_text (owner, profile) (generation ses + 1) end) = Ok r
    ∧ (abs_acquire c id now ttl owner profile ses).1
      = if holder now ses then Exists r else Acquired r) as (r & Hparse & Habs).
  { unfold abs_acquire. destruct (holder now ses) as [h|] eqn:Hh.
    - destruct (tracks_holder _ _ _ _ _ Ht Hh) as [Hhid Hg]. eexists. by rewrite (parse_lease_text TL).
    - eexists. rewrite (parse_lease_text TL) by (unfold U64_MAX; simpl; (done || lia)). split; [done|].
      unfold lease_of, generation. simpl. rewrite length_app. simpl. do 2 f_equal. lia. }
  destruct (sent env) as [|e|e]; destruct (serving env ≫= sv_protect) as [pe|]; simpl;
    rewrite ?Hscript; simpl; try (by eauto); exists s'; rewrite Hparse; simpl;
    (split; [|done]); f_equal; destruct (finish_serving_write env) as [[]|e]; simpl; try done;
    rewrite Habs; by destruct (holder now ses).
Qed.
Lemma held_holder now lease ses h :
  held now lease ses = Some h →
  holder now ses = Some h ∧ h.1 = l_owner_runtime_id lease ∧ generation ses = l_generation lease.
Proof.
  unfold held. destruct (holder now ses) as [h'|]; [|done]. case_bool_decide as H; [|done].
  by intros [= <-].
Qed.

Lemma holder_last now ses h : holder now ses = Some h → last (holders ses) = Some h.
Proof. unfold holder. by case_match. Qed.

Lemma tracks_renewed now ttl s ses h :
  tracks c id now s ses → holder now ses = Some h →
  tracks c id now (redis_pexpire now (lease_key c id) ttl s) (mkSession (holders ses) (now + ttl)).
Proof.
  intros Ht Hh. pose proof (lease_generation_keys TL c id c id Hc Hid Hc Hid) as Hne.
  split; [| |apply Ht|apply Ht].
  - intros t Hle. rewrite (get_pexpire_ne RL) by (intros E; by apply Hne). by apply Ht.
  - intros t Hle. rewrite (get_pexpire RL _ _ _ _ (lease_text h (generation ses))); [| |done].
    + unfold holder. simpl. rewrite (holder_last _ _ _ Hh). by destruct (t <? now + ttl)%N.
    + rewrite (tracks_lease _ _ _ _ _ Ht) by lia. by rewrite Hh.
Qed.

Lemma tracks_released now s ses :
  tracks c id now s ses → tracks c id now (redis_del (lease_key c id) s) (mkSession (holders ses) 0).
Proof.
  intros Ht. pose proof (lease_generation_keys TL c id c id Hc Hid Hc Hid) as Hne.
  split; [| |apply Ht|apply Ht].
  - intros t Hle. rewrite (get_del_ne RL) by (intros E; by apply Hne). by apply Ht.
  - intros t Hle. rewrite (get_del RL). unfold holder. simpl. by destruct (N.ltb_spec t 0); [lia|].
Qed.

(** The reply of a script that found the caller not to hold the lease. *)
Lemma lost_reply now s ses :
  tracks c id now s ses →
  parse_optional_lease c id (default "" ((λ h, lease_text h (generation ses)) <$> holder now ses))
    = Ok (abs_current c id now ses)
  ∧ parse_optional_generation c id (default "" (redis_get now (generation_key c id) s)) = Ok (abs_known ses).
Proof.
  intros Ht. split; [by apply (parse_current now s)|]. rewrite (tracks_counter _ _ _ _ _ Ht now) by lia.
  by apply (parse_known now s).
Qed.

Lemma held_reply now s ses lease h :
  tracks c id now s ses → held now lease ses = Some h →
  parse_optional_lease c id (lease_text h (generation ses)) = Ok (Some (lease_of c id h ses)).
Proof.
  intros Ht Hh. apply held_holder in Hh as [Hh _].
  pose proof (parse_current now s ses now Ht) as H. rewrite Hh in H. simpl in H. rewrite H.
  unfold abs_current. by rewrite Hh.
Qed.

Lemma renew_refines env now lease_ttl lease s ses :
  tracks c id now s ses → is_runtime_id (l_owner_runtime_id lease) →
  l_community_id lease = c → l_session_id lease = id →
  let '(r, ses') := abs_call env (ttl_ms lease_ttl) (λ ttl, abs_renew c id now ttl lease ses) ses in
  ∃ s', renew env now lease_ttl lease s = (Some r, s') ∧ tracks c id now s' ses'
    ∧ ∀ t k, k ≠ lease_key c id → k ≠ generation_key c id → redis_get t k s' = redis_get t k s.
Proof.
  intros Ht Howner Hlc Hlid. unfold abs_call, guard, renew. rewrite Hlc, Hlid.
  destruct (begin_serving_write env) as [[]|e]; simpl; [|by eauto].
  destruct (ttl_ms lease_ttl) as [ttl|e]; simpl; [|by eauto].
  destruct (pool_get env) as [[]|e]; simpl; [|by eauto].
  unfold run_script, answer, script_runs, renew_script, abs_renew.
  rewrite (holder_script_tracks "renewed" _ now lease s ses Ht Howner).
  destruct (lost_reply now s ses Ht) as [Hcur Hknown].
  destruct (held now lease ses) as [h|] eqn:Hheld.
  - pose proof (held_reply now s ses lease h Ht Hheld) as Hparse. apply held_holder in Hheld as (Hh & _).
    pose proof (tracks_renewed now ttl s ses h Ht Hh) as Htr.
    destruct (sent env) as [|e|e]; destruct (serving env ≫= sv_protect) as [pe|]; simpl; eexists;
      (split; [|split; [first [exact Htr|exact Ht]|by intros; rewrite ?(get_pexpire_ne RL)]]); try done.
    rewrite Hparse. destruct (finish_serving_write env) as [[]|e]; done.
  - destruct (sent env) as [|e|e]; destruct (serving env ≫= sv_protect) as [pe|]; simpl; eexists;
      (split; [|split; [exact Ht|done]]); try done.
    rewrite Hcur. destruct (finish_serving_write env) as [[]|e]; [|done].
    destruct (holder now ses); simpl; by rewrite Hknown.
Qed.

Lemma release_refines env now lease s ses :
  tracks c id now s ses → is_runtime_id (l_owner_runtime_id lease) →
  l_community_id lease = c → l_session_id lease = id →
  let '(r, ses') := abs_call env (Ok 0%N) (λ _, abs_release c id now lease ses) ses in
  ∃ s', release env now lease s = (Some r, s') ∧ tracks c id now s' ses'
    ∧ ∀ t k, k ≠ lease_key c id → k ≠ generation_key c id → redis_get t k s' = redis_get t k s.
Proof.
  intros Ht Howner Hlc Hlid. unfold abs_call, guard, release. rewrite Hlc, Hlid.
  destruct (begin_serving_write env) as [[]|e]; simpl; [|by eauto].
  destruct (pool_get env) as [[]|e]; simpl; [|by eauto].
  unfold run_script, answer, script_runs, release_script, abs_release.
  rewrite (holder_script_tracks "released" _ now lease s ses Ht Howner).
  destruct (lost_reply now s ses Ht) as [Hcur Hknown].
  destruct (held now lease ses) as [h|] eqn:Hheld.
  - pose proof (held_reply now s ses lease h Ht Hheld) as Hparse.
    pose proof (tracks_released now s ses Ht) as Htr.
    destruct (sent env) as [|e|e]; destruct (serving env ≫= sv_protect) as [pe|]; simpl; eexists;
      (split; [|split; [first [exact Htr|exact Ht]|by intros; rewrite ?(get_del_ne RL)]]); try done.
    rewrite Hparse. destruct (finish_serving_write env) as [[]|e]; done.
  - destruct (sent env) as [|e|e]; destruct (serving env ≫= sv_protect) as [pe|]; simpl; eexists;
      (split; [|split; [exact Ht|done]]); try done.
    rewrite Hcur. destruct (finish_serving_write env) as [[]|e]; [|done].
    destruct (holder now ses); simpl; by rewrite Hknown.
Qed.

(** The validation of a frame, on the register. *)
Lemma validate_refines debug env now f s ses :
  tracks c id now s ses → fh_session_id f = id → pool_error env = None →
  validate_fenced_header debug env None now c f s = abs_validate id now f ses.
Proof.
  intros Ht Hf Hpool. unfold validate_fenced_header, abs_validate. rewrite Hpool, Hf. simpl.
  destruct (lost_reply now s ses Ht) as [Hcur Hknown]. unfold get_or.
  rewrite Hknown. simpl. rewrite (tracks_lease _ _ _ _ _ Ht now) by lia. rewrite Hcur. simpl.
  assert (N.max (default (default 0%N (abs_known ses)) (l_generation <$> abs_current c id now ses))
    (default 0%N (abs_known ses)) = generation ses) as ->.
  { unfold abs_known, abs_current. destruct (holder now ses); simpl;
      destruct (N.eqb_spec (generation ses) 0) as [E|E]; simpl; lia. }
  unfold abs_current. destruct (holder now ses) as [h|]; simpl; done.
Qed.
End refinement.

(** ** All sessions, and runs of calls *)

Inductive DirOp : Type :=
| DAcquire (env : CallEnv) (lease_ttl : N) (c id : Uuid) (owner : RuntimeId) (profile : Profile)
| DRenew (env : CallEnv) (lease_ttl : N) (lease : SessionLease)
| DRelease (env : CallEnv) (lease : SessionLease).

Inductive DirReply : Type :=
| RAcquire (r : result AcquireResult DirectoryError)
| RRenew (r : option (result RenewResult DirectoryError))
| RRelease (r : option (result ReleaseResult DirectoryError)).

Definition op_community (op : DirOp) : Uuid :=
  match op with DAcquire _ _ c _ _ _ => c | DRenew _ _ l => l_community_id l | DRelease _ l => l_community_id l end.
Definition op_session (op : DirOp) : Uuid :=
  match op with DAcquire _ _ _ id _ _ => id | DRenew _ _ l => l_session_id l | DRelease _ l => l_session_id l end.
Definition op_runtime (op : DirOp) : RuntimeId :=
  match op with
  | DAcquire _ _ _ _ o _ => o | DRenew _ _ l => l_owner_runtime_id l | DRelease _ l => l_owner_runtime_id l
  end.

(** The arguments have the widths of their types. *)
Definition op_typed (op : DirOp) : Prop :=
  is_uuid (op_community op) ∧ is_uuid (op_session op) ∧ is_runtime_id (op_runtime op).

Definition abs_exec (op : DirOp) (now : N) (ses : Session) : DirReply * Session :=
  match op with
  | DAcquire env lease_ttl c id owner profile =>
      let '(r, ses) := abs_call env (ttl_ms lease_ttl) (λ ttl, abs_acquire c id now ttl owner profile ses) ses in
      (RAcquire r, ses)
  | DRenew env lease_ttl l =>
      let '(r, ses) := abs_call env (ttl_ms lease_ttl)
        (λ ttl, abs_renew (l_community_id l) (l_session_id l) now ttl l ses) ses in
      (RRenew (Some r), ses)
  | DRelease env l =>
      let '(r, ses) := abs_call env (Ok 0%N) (λ _, abs_release (l_community_id l) (l_session_id l) now l ses) ses in
      (RRelease (Some r), ses)
  end.

Section runs.
Context {RD : Redis} {HE : HexEncode} {DC : DirectoryCrates} {UT : UuidText}.

Definition exec (op : DirOp) (now : N) (s : Store) : DirReply * Store :=
  match op with
  | DAcquire env lease_ttl c id owner profile =>
      let '(r, s) := acquire env now lease_ttl c id owner profile s in (RAcquire r, s)
  | DRenew env lease_ttl l => let '(r, s) := renew env now lease_ttl l s in (RRenew r, s)
  | DRelease env l => let '(r, s) := release env now l s in (RRelease r, s)
  end.

Definition tracks_world (now : N) (s : Store) (w : Uuid → Uuid → Session) : Prop :=
  ∀ c id, is_uuid c → is_uuid id → tracks c id now s (w c id).

Definition set_session (c id : Uuid) (ses : Session) (w : Uuid → Uuid → Session) : Uuid → Uuid → Session :=
  λ c' id', if decide ((c', id') = (c, id)) then ses else w c' id'.

(** Calls at the readings of a clock that does not go back. *)
Inductive dir_run (now0 : N) (s0 : Store) : nat → N → Store → Prop :=
| run_start : dir_run now0 s0 0 now0 s0
| run_call n now s op now' :
    dir_run now0 s0 n now s → (now <= now')%N → op_typed op →
    dir_run now0 s0 (S n) now' (exec op now' s).2.

(** A store without the keys of any session. *)
Definition no_sessions (now : N) (s : Store) : Prop :=
  ∀ c id t, (now <= t)%N → redis_get t (lease_key c id) s = None ∧ redis_get t (generation_key c id) s = None.

Lemma tracks_no_sessions now s : no_sessions now s → tracks_world now s (λ _ _, no_session).
Proof.
  intros Hs c id _ _. split; [| |done|done].
  - intros t Ht. by destruct (Hs c id t Ht).
  - intros t Ht. destruct (Hs c id t Ht) as [-> _]. unfold holder. simpl. by case_match.
Qed.

Context (RL : RedisLaws) (TL : TextLaws).

Lemma dir_exec_refines op now s w :
  tracks_world now s w → op_typed op →
  (generation (w (op_community op) (op_session op)) + 1 < 99999999999999)%N →
  ∃ s', exec op now s = ((abs_exec op now (w (op_community op) (op_session op))).1, s')
    ∧ tracks_world now s' (set_session (op_community op) (op_session op)
        (abs_exec op now (w (op_community op) (op_session op))).2 w).
Proof.
  intros Hw (Hc & Hid & Hrt) Hsmall. pose proof (Hw _ _ Hc Hid) as Ht.
  assert (∃ s', exec op now s = ((abs_exec op now (w (op_community op) (op_session op))).1, s')
    ∧ tracks (op_community op) (op_session op) now s' (abs_exec op now (w (op_community op) (op_session op))).2
    ∧ ∀ t k, k ≠ lease_key (op_community op) (op_session op) → k ≠ generation_key (op_community op) (op_session op) →
        redis_get t k s' = redis_get t k s) as (s' & Hexec & Ht' & Hframe).
  { destruct op as [env ttl c id owner profile|env ttl l|env l]; simpl in *.
    - pose proof (acquire_refines RL TL c id Hc Hid env now ttl owner profile s _ Ht Hrt Hsmall) as H.
      destruct (abs_call _ _ _ _) as [r ses']. destruct H as (s' & -> & ? & ?). by exists s'.
    - pose proof (renew_refines RL TL _ _ Hc Hid env now ttl l s _ Ht Hrt eq_refl eq_refl) as H.
      destruct (abs_call _ _ _ _) as [r ses']. destruct H as (s' & -> & ? & ?). by exists s'.
    - pose proof (release_refines RL TL _ _ Hc Hid env now l s _ Ht Hrt eq_refl eq_refl) as H.
      destruct (abs_call _ _ _ _) as [r ses']. destruct H as (s' & -> & ? & ?). by exists s'. }
  exists s'. split; [done|]. intros c id Hc' Hid'. unfold set_session.
  case_decide as Heq; [by injection Heq as -> ->|].
  destruct (Hw c id Hc' Hid') as [H1 H2 H3 H4].
  split; [| |done|done]; intros t Hle; rewrite Hframe; auto.
  - intros E. by apply eq_sym, (lease_generation_keys TL) in E.
  - intros E. apply Heq. by apply (generation_key_inj TL).
  - intros E. apply Heq. by apply (lease_key_inj TL).
  - by apply (lease_generation_keys TL).
Qed.
(** *** Along a run *)

Lemma abs_exec_grows op now ses :
  holders ses `prefix_of` holders (abs_exec op now ses).2
  ∧ (generation (abs_exec op now ses).2 <= generation ses + 1)%N.
Proof.
  assert (∀ (b : bool) (x : Session),
    holders ses `prefix_of` holders x → (generation x <= generation ses + 1)%N →
    holders ses `prefix_of` holders (if b then x else ses)
    ∧ (generation (if b then x else ses) <= generation ses + 1)%N) as Hif.
  { intros [] x Hx Hg; split; try done; lia. }
  assert (generation ses <= generation ses + 1)%N as Hle by lia.
  destruct op as [env ttl c id owner profile|env ttl l|env l]; simpl; unfold abs_call;
    (destruct (guard _ _) as [t|e]; simpl; [|done]).
  - apply Hif; unfold abs_acquire; destruct (holder now ses); simpl; try done.
    + by apply prefix_app_r.
    + unfold generation. simpl. rewrite length_app. simpl. lia.
  - apply Hif; unfold abs_renew; by destruct (held now l ses).
  - apply Hif; unfold abs_release; by destruct (held now l ses).
Qed.

Lemma run_tracks now0 s0 w0 n now s (b : N) :
  dir_run now0 s0 n now s → tracks_world now0 s0 w0 →
  (∀ c id, generation (w0 c id) <= b)%N → (b + N.of_nat n < 99999999999999)%N →
  (now0 <= now)%N ∧ ∃ w, tracks_world now s w
    ∧ ∀ c id, holders (w0 c id) `prefix_of` holders (w c id) ∧ (generation (w c id) <= b + N.of_nat n)%N.
Proof.
  induction 1 as [|n now s op now' Hrun IH Hle Hop]; intros Hw Hb Hn.
  { split; [lia|]. exists w0. split; [done|]. intros c id. split; [done|]. specialize (Hb c id). lia. }
  destruct IH as (Hle0 & w & Htr & Hgrow); [done..|lia|]. split; [lia|].
  assert (tracks_world now' s w) as Htr'.
  { intros c id Hc Hid. eapply tracks_later; [exact Hle|by apply Htr]. }
  destruct (dir_exec_refines op now' s w Htr' Hop) as (s' & Hexec & Hs').
  { destruct (Hgrow (op_community op) (op_session op)) as [_ Hg]. lia. }
  rewrite Hexec. eexists. split; [exact Hs'|]. intros c id. unfold set_session. case_decide as Heq.
  - injection Heq as -> ->. destruct (Hgrow (op_community op) (op_session op)) as [Hp Hg].
    destruct (abs_exec_grows op now' (w (op_community op) (op_session op))) as [Hp' Hg'].
    split; [by etrans|lia].
  - destruct (Hgrow c id) as [Hp Hg]. split; [done|lia].
Qed.

End runs.

(** C24. The directory implements its abstract specification.  The register keeps
the holders a session has had and until when the last one holds it; a call
acquires when nobody does, renews or releases for exactly the current holder's
runtime and generation, and otherwise reports the holder.  From a store that
matches the registers of all sessions, each call of the directory returns what
the register returns, or the error of whatever failed around its script, and
leaves a store that matches: changed exactly when the script ran, even if its
reply was lost, and for this session alone.  In particular the [expect] of
[renew] and [release] never panics and no reply is malformed. *)
Theorem directory_refines_register {RD : Redis} {HE : HexEncode} {DC : DirectoryCrates} {UT : UuidText}
    (RL : RedisLaws) (TL : TextLaws) (op : DirOp) (now : N) (s : Store) (w : Uuid → Uuid → Session) :
  tracks_world now s w → op_typed op →
  (generation (w (op_community op) (op_session op)) + 1 < 99999999999999)%N →
  ∃ s', exec op now s = ((abs_exec op now (w (op_community op) (op_session op))).1, s')
    ∧ tracks_world now s' (set_session (op_community op) (op_session op)
        (abs_exec op now (w (op_community op) (op_session op))).2 w).
Proof. by apply dir_exec_refines. Qed.

Section fencing.
Context {RD : Redis} {HE : HexEncode} {DC : DirectoryCrates} {UT : UuidText}.

(** Two stores of one history, related to registers that only grew. *)
Lemma run_pair (RL : RedisLaws) (TL : TextLaws) now0 s0 n now s m now' s' :
  no_sessions now0 s0 → dir_run now0 s0 n now s → dir_run now s m now' s' →
  (N.of_nat (n + m) < 99999999999999)%N →
  ∃ w w', tracks_world now s w ∧ tracks_world now' s' w' ∧ (now <= now')%N
    ∧ ∀ c id, holders (w c id) `prefix_of` holders (w' c id) ∧ (generation (w' c id) <= N.of_nat (n + m))%N.
Proof.
  intros Hs0 Hrun Hrun' Hn.
  destruct (run_tracks RL TL now0 s0 (λ _ _, no_session) n now s 0) as (_ & w & Hw & Hgw);
    [done|by apply tracks_no_sessions|done|lia|].
  destruct (run_tracks RL TL now s w m now' s' (N.of_nat n)) as (Hle & w' & Hw' & Hgw');
    [done|done|intros c id; destruct (Hgw c id); lia|lia|].
  exists w, w'. split_and!; [done..|]. intros c id. destruct (Hgw' c id). split; [done|lia].
Qed.
(** A frame of an older generation than the register's. *)
Lemma older_is_stale (TL : TextLaws) debug env c id now f s ses :
  is_uuid c → is_uuid id → tracks c id now s ses → fh_session_id f = id → pool_error env = None →
  (fh_generation f < generation ses)%N →
  validate_fenced_header debug env None now c f s = Err (StaleGeneration id (fh_generation f) (generation ses)).
Proof.
  intros Hc Hid Ht Hf Hp Hlt. rewrite (validate_refines TL c id debug env now f s ses Ht Hf Hp). unfold abs_validate.
  destruct (N.ltb_spec 0 (generation ses)); [|lia]. by destruct (N.ltb_spec (fh_generation f) (generation ses)); [|lia].
Qed.

(** An accepted frame is the register's. *)
Lemma accepted_is_current (TL : TextLaws) debug env re c now f s ses :
  is_uuid c → is_uuid (fh_session_id f) → tracks c (fh_session_id f) now s ses →
  validate_fenced_header debug env re now c f s = Ok tt →
  fh_generation f = generation ses ∧ ∃ p, holder now ses = Some (fh_owner_runtime_id f, p).
Proof.
  intros Hc Hid Ht Hv.
  assert (pool_error env = None ∧ re = None) as [Hp ->].
  { unfold validate_fenced_header in Hv. by destruct (pool_error env), re. }
  rewrite (validate_refines TL c (fh_session_id f) debug env now f s _ Ht eq_refl Hp) in Hv.
  unfold abs_validate in Hv. destruct (_ && _); [done|]. destruct (holder now ses) as [[o p]|]; [|done].
  case_bool_decide as Hg; [done|]. case_bool_decide as Ho; [done|]. simpl in Ho. subst o. split; [done|by eauto].
Qed.

(** What an acquisition that answered [Acquired] leaves behind. *)
Lemma after_acquired (RL : RedisLaws) (TL : TextLaws) now s w env ttl c id owner profile l k now' s' (b : N) :
  tracks_world now s w → is_uuid c → is_uuid id → is_runtime_id owner →
  (∀ c id, generation (w c id) <= b)%N → (b + N.of_nat k + 1 < 99999999999999)%N →
  (acquire env now ttl c id owner profile s).1 = Ok (Acquired l) →
  dir_run now (acquire env now ttl c id owner profile s).2 k now' s' →
  l_generation l = (generation (w c id) + 1)%N
  ∧ ∃ w', tracks_world now' s' w' ∧ (l_generation l <= generation (w' c id))%N.
Proof.
  intros Hw Hc Hid Howner Hb Hsmall Hacq Hrun. pose proof (Hb c id) as Hbc.
  destruct (dir_exec_refines RL TL (DAcquire env ttl c id owner profile) now s w Hw) as (s1 & Hexec & Hw1);
    [done|simpl; lia|].
  pose proof (abs_exec_grows (DAcquire env ttl c id owner profile) now (w c id)) as [_ Hg1].
  cbn [exec abs_exec op_community op_session] in *.
  destruct (acquire env now ttl c id owner profile s) as [res sa]. cbn [fst snd] in *. subst res.
  unfold abs_call in *. destruct (guard env (ttl_ms ttl)) as [ms|e]; [|by simpl in Hexec; injection Hexec].
  cbn [fst snd] in Hexec, Hw1, Hg1. injection Hexec as Hans <-. unfold answer in Hans.
  destruct (serving env ≫= sv_protect); [done|]. unfold script_runs in *.
  destruct (sent env); [|done|done]. destruct (finish_serving_write env) as [[]|e]; [|done].
  simpl in Hans. injection Hans as Hans.
  unfold abs_acquire in *. destruct (holder now (w c id)) as [h|]; [done|]. cbn [fst snd] in *.
  injection Hans as Hl.
  set (ses := mkSession (holders (w c id) ++ [(owner, profile)]) (now + ms)) in *.
  assert (l_generation l = generation ses) as -> by (by rewrite Hl).
  split; [unfold ses, generation; simpl; rewrite length_app; simpl; lia|].
  destruct (run_tracks RL TL now sa (set_session c id ses w) k now' s' (b + 1))
    as (_ & w' & Hw' & Hgrow); [done|done| |lia|].
  { intros c' id'. unfold set_session. case_decide; [lia|]. specialize (Hb c' id'). lia. }
  exists w'. split; [done|]. destruct (Hgrow c id) as [Hpre%prefix_length _].
  unfold set_session in Hpre. rewrite decide_True in Hpre by done. unfold generation. lia.
Qed.
End fencing.

(** The fence never goes back.  From a store without sessions, over any
history of fewer than 10^14 acquisitions, renewals and releases by anybody,
with leases expiring in between, lost replies and failures: if a frame is
accepted and later another frame of the same session is, then the second
frame's generation is not lower, and if it is the same, so is the owner.  At
no time are two owners accepted. *)
Theorem fence_never_goes_back {RD : Redis} {HE : HexEncode} {DC : DirectoryCrates} {UT : UuidText}
    (RL : RedisLaws) (TL : TextLaws) (debug : DirectoryError → string) (env env' : CallEnv)
    (now0 now now' t t' : N) (s0 s s' : Store) (n m : nat) (c : Uuid) (f f' : FencedHeader) :
  no_sessions now0 s0 → dir_run now0 s0 n now s → dir_run now s m now' s' →
  (N.of_nat (n + m) < 99999999999999)%N → is_uuid c → is_uuid (fh_session_id f) →
  (now <= t)%N → (now' <= t')%N → fh_session_id f' = fh_session_id f →
  validate_fenced_header debug env None t c f s = Ok tt →
  validate_fenced_header debug env' None t' c f' s' = Ok tt →
  (fh_generation f <= fh_generation f')%N
  ∧ (fh_generation f = fh_generation f' → fh_owner_runtime_id f = fh_owner_runtime_id f').
Proof.
  intros Hs0 Hrun Hrun' Hn Hc Hid Ht Ht' Hsame Hv Hv'.
  destruct (run_pair RL TL _ _ _ _ _ _ _ _ Hs0 Hrun Hrun' Hn) as (w & w' & Hw & Hw' & _ & Hgrow).
  assert (tracks c (fh_session_id f) t s (w c (fh_session_id f))) as Htr
    by (eapply tracks_later; [exact Ht|by apply Hw]).
  assert (tracks c (fh_session_id f') t' s' (w' c (fh_session_id f))) as Htr'
    by (rewrite Hsame; eapply tracks_later; [exact Ht'|by apply Hw']).
  rewrite <-Hsame in Hid.
  destruct (accepted_is_current TL debug env' None c t' f' s' _ Hc Hid Htr' Hv') as (-> & p' & Hh'%holder_last).
  rewrite Hsame in Hid.
  destruct (accepted_is_current TL debug env None c t f s _ Hc Hid Htr Hv) as (-> & p & Hh%holder_last).
  destruct (Hgrow c (fh_session_id f)) as [[l Hl] _]. unfold generation. rewrite Hl, length_app.
  split; [lia|]. intros Heq. assert (l = []) as -> by (destruct l; [done|simpl in Heq; lia]).
  rewrite app_nil_r in Hl. rewrite Hl, Hh in Hh'. by injection Hh'.
Qed.

(** A new owner fences the old ones for good.  When an acquisition returns
[Acquired], its generation is above that of every frame accepted before, and
from then on, whatever happens, every frame of the session with a lower
generation is rejected as stale. *)
Theorem new_owner_fences_old {RD : Redis} {HE : HexEncode} {DC : DirectoryCrates} {UT : UuidText}
    (RL : RedisLaws) (TL : TextLaws) (debug : DirectoryError → string) (env e1 e2 : CallEnv)
    (now0 now now1 now2 t t2 ttl : N) (s0 s s1 s2 : Store) (n m k : nat)
    (c : Uuid) (f f2 : FencedHeader) (owner : RuntimeId) (profile : Profile) (l : SessionLease) :
  let id := fh_session_id f in
  no_sessions now0 s0 → dir_run now0 s0 n now s → dir_run now s m now1 s1 →
  (now1 <= t2)%N → is_runtime_id owner → is_uuid c → is_uuid id → (now <= t)%N →
  (acquire env t2 ttl c id owner profile s1).1 = Ok (Acquired l) →
  dir_run t2 (acquire env t2 ttl c id owner profile s1).2 k now2 s2 →
  (N.of_nat (n + m + k + 1) < 99999999999999)%N →
  (validate_fenced_header debug e1 None t c f s = Ok tt → (fh_generation f < l_generation l)%N)
  ∧ (fh_session_id f2 = id → (fh_generation f2 < l_generation l)%N → pool_error e2 = None →
     ∃ known, validate_fenced_header debug e2 None now2 c f2 s2
       = Err (StaleGeneration id (fh_generation f2) known) ∧ (l_generation l <= known)%N).
Proof.
  intros id Hs0 Hrun Hrun1 Ht2 Howner Hc Hid Ht Hacq Hrun2 Hn.
  destruct (run_pair RL TL _ _ _ _ _ _ _ _ Hs0 Hrun Hrun1 ltac:(lia)) as (w & w1 & Hw & Hw1 & _ & Hgrow).
  assert (tracks_world t2 s1 w1) as Hw1'.
  { intros c' id' H1 H2. eapply tracks_later; [exact Ht2|by apply Hw1]. }
  destruct (after_acquired RL TL t2 s1 w1 env ttl c id owner profile l k now2 s2 (N.of_nat (n + m)))
    as (Hl & w2 & Hw2 & Hge); [done..| |lia|done|done|].
  { intros c' id'. by destruct (Hgrow c' id'). }
  split.
  - intros Hv. assert (tracks c id t s (w c id)) as Htr by (eapply tracks_later; [exact Ht|by apply Hw]).
    destruct (accepted_is_current TL debug e1 None c t f s _ Hc Hid Htr Hv) as [-> _].
    destruct (Hgrow c id) as [Hpre%prefix_length _]. unfold generation in *. lia.
  - intros Hf2 Hlt Hp. exists (generation (w2 c id)). split; [|done].
    apply (older_is_stale TL debug e2 c id now2 f2 s2); [done..|by apply Hw2|done|done|lia].
Qed.

(** The text of a lease round-trips: what the acquisition script writes for
a runtime, a positive generation and a profile parses back to them. *)
Theorem lease_text_roundtrip {HE : HexEncode} {DC : DirectoryCrates} {UT : UuidText}
    (TL : TextLaws) (c id : Uuid) (owner : RuntimeId) (g : N) (p : Profile) :
  is_runtime_id owner → (0 < g <= U64_MAX)%N →
  parse_lease c id (to_hex owner +:+ "|" +:+ pretty g +:+ "|" +:+ as_wire_str p) = Ok (mkLease c id owner g p).
Proof. intros Ho Hg. by apply (parse_lease_text TL c id (owner, p) g). Qed.
