(* ===== verification/Reliable.v ===== *)
(** * Reliable: fenced reliable-stream tunnels

Models [buzz-relay/src/tunnel/reliable.rs]: joining a session, accepting a
stream, the frames of a reliable stream with the fence and community checks,
and the background lease renewer.  Sessions are decided by [Directory], frames
travel by [MeshWire].

What an asynchronous call meets (the store, the clock, failures around it) is an
argument; opening a stream to another runtime is the transport, also an
argument.  The renewer's task is a state machine with one step per wake of its
[select!] and one for the final release, so that anybody's calls can come in
between. *)
From stdpp Require Import pretty.
From S2P Require Import Prelude Text Nostr Encode Gossip MeshWire Directory.

(** 1 MiB. *)
Definition MAX_RELIABLE_PAYLOAD_BYTES : nat := N.to_nat 1048576.

(** ** Data *)

Inductive ReliableStreamError : Type :=
| DirectoryFailed (e : DirectoryError)
| Mesh (e : MeshError)
| ProfileMismatch (session_id : Uuid) (expected actual : Profile)
| SenderMismatch (peer hello_sender : RuntimeId)
| UnexpectedStreamRole
| OwnerIsNotLocal (session_id : Uuid) (owner_runtime_id local_runtime_id : RuntimeId)
| UnexpectedFrame (what : string)
| FrameFenceMismatch (expected actual : FencedHeader)
| CommunityMismatch (expected actual : Uuid)
| MalformedReliableFrame (what : string).

Inductive ReliableWireFrame : Type :=
| WireData (community_id : Uuid) (payload : Bytes)
| WireGoodbye (community_id : Uuid) (reason : GoodbyeReason).

Inductive ReliableFrame : Type :=
| FrameData (payload : Bytes)
| FrameGoodbye (reason : GoodbyeReason).

(** [ReliableMeshStream]. *)
Record ReliableMeshStream : Type := mkReliable {
  rs_fenced : FencedHeader;
  rs_stream : MeshStream;
  rs_community_id : option Uuid
}.

Inductive ReliableJoin : Type :=
| Owned (lease : SessionLease)
| Forwarded (lease : SessionLease) (stream : ReliableMeshStream).

Record ReliableInbound : Type := mkInbound {
  in_fenced : FencedHeader;
  in_from : RuntimeId;
  in_stream : ReliableMeshStream
}.

Definition stream_new (fenced : FencedHeader) (stream : MeshStream) : ReliableMeshStream :=
  mkReliable fenced stream None.
Definition new_inbound (fenced : FencedHeader) (stream : MeshStream) : ReliableMeshStream :=
  stream_new fenced stream.

(** ** The frames of a reliable stream *)

Definition VERSION : N := 1.
Definition DATA : N := 1.
Definition GOODBYE : N := 2.

Definition to_wire_byte (r : GoodbyeReason) : N :=
  match r with
  | SessionEnded => 1
  | Draining => 2
  | GoodbyeStaleGeneration => 3
  end.

Definition from_wire_byte (byte : N) : result GoodbyeReason ReliableStreamError :=
  if (byte =? 1)%N then Ok SessionEnded
  else if (byte =? 2)%N then Ok Draining
  else if (byte =? 3)%N then Ok GoodbyeStaleGeneration
  else Err (MalformedReliableFrame "unknown goodbye reason").

Definition frame_community_id (f : ReliableWireFrame) : Uuid :=
  match f with
  | WireData c _ => c
  | WireGoodbye c _ => c
  end.

Section frames.
Context {UB : UuidBytes}.

Definition rw_encode (f : ReliableWireFrame) : Bytes :=
  match f with
  | WireData community_id payload => [VERSION] ++ [DATA] ++ uuid_as_bytes community_id ++ payload
  | WireGoodbye community_id reason =>
      [VERSION] ++ [GOODBYE] ++ uuid_as_bytes community_id ++ [to_wire_byte reason]
  end.

(** [bytes[i]], below the length checked first. *)
Definition byte_at (bytes : Bytes) (i : nat) : N := default 0%N (bytes !! i).

Definition rw_decode (bytes : Bytes) : result ReliableWireFrame ReliableStreamError :=
  if length bytes <? 18 then Err (MalformedReliableFrame "too short")
  else if bool_decide (byte_at bytes 0 ≠ VERSION) then Err (MalformedReliableFrame "unknown version")
  else
  let community_id := uuid_from_bytes (take 16 (drop 2 bytes)) in
  if (byte_at bytes 1 =? DATA)%N then Ok (WireData community_id (drop 18 bytes))
  else if (byte_at bytes 1 =? GOODBYE)%N then
    if bool_decide (length bytes ≠ 19) then Err (MalformedReliableFrame "bad goodbye length")
    else
    let? reason := from_wire_byte (byte_at bytes 18) in
    Ok (WireGoodbye community_id reason)
  else Err (MalformedReliableFrame "unknown kind").
End frames.

(** [slice::chunks]; every round takes at least one element when [n] is
positive, so the length is enough fuel. *)
Fixpoint chunks_loop (fuel n : nat) (l : Bytes) : list Bytes :=
  match fuel, l with
  | _, [] => []
  | 0, _ => []
  | S fuel, _ => take n l :: chunks_loop fuel n (drop n l)
  end.

Definition chunks (n : nat) (l : Bytes) : list Bytes := chunks_loop (length l) n l.

(** ** Sending *)

Definition with_stream (s : MeshStream) (st : ReliableMeshStream) : ReliableMeshStream :=
  mkReliable (rs_fenced st) s (rs_community_id st).

Definition with_community (c : Uuid) (st : ReliableMeshStream) : ReliableMeshStream :=
  mkReliable (rs_fenced st) (rs_stream st) (Some c).

Definition ensure_outbound_community (community_id : Uuid) (st : ReliableMeshStream)
    : result unit ReliableStreamError * ReliableMeshStream :=
  match rs_community_id st with
  | Some expected =>
      if bool_decide (expected ≠ community_id) then (Err (CommunityMismatch expected community_id), st)
      else (Ok tt, st)
  | None => (Ok tt, with_community community_id st)
  end.

Section stream.
Context {UB : UuidBytes} {WC : WireCrates}.

Definition send_payload (payload : Bytes) (st : ReliableMeshStream)
    : result unit ReliableStreamError * ReliableMeshStream :=
  let '(r, s) := send_frame (Data (rs_fenced st) payload) (rs_stream st) in
  (map_err Mesh r, with_stream s st).

Fixpoint send_chunks (community_id : Uuid) (cs : list Bytes) (st : ReliableMeshStream)
    : result unit ReliableStreamError * ReliableMeshStream :=
  match cs with
  | [] => (Ok tt, st)
  | chunk :: cs =>
      match send_payload (rw_encode (WireData community_id chunk)) st with
      | (Err e, st) => (Err e, st)
      | (Ok _, st) => send_chunks community_id cs st
      end
  end.

Definition send_bytes (community_id : Uuid) (bytes : Bytes) (st : ReliableMeshStream)
    : result unit ReliableStreamError * ReliableMeshStream :=
  match ensure_outbound_community community_id st with
  | (Err e, st) => (Err e, st)
  | (Ok _, st) => send_chunks community_id (chunks MAX_RELIABLE_PAYLOAD_BYTES bytes) st
  end.

Definition rs_finish (st : ReliableMeshStream) : result unit ReliableStreamError * ReliableMeshStream :=
  let '(r, s) := stream_finish (rs_stream st) in (map_err Mesh r, with_stream s st).

Definition send_goodbye (community_id : Uuid) (reason : GoodbyeReason) (st : ReliableMeshStream)
    : result unit ReliableStreamError * ReliableMeshStream :=
  match ensure_outbound_community community_id st with
  | (Err e, st) => (Err e, st)
  | (Ok _, st) =>
      match send_payload (rw_encode (WireGoodbye community_id reason)) st with
      | (Err e, st) => (Err e, st)
      | (Ok _, st) => rs_finish st
      end
  end.
End stream.

(** ** Receiving *)

Section tunnel.
Context {RD : Redis} {HE : HexEncode} {DC : DirectoryCrates} {UT : UuidText}.
Context {UB : UuidBytes} {WC : WireCrates}.

(** What a read of the directory meets; [debug] prints a [DirectoryError]. *)
Record DirectoryRead : Type := mkRead {
  dr_debug : DirectoryError → string;
  dr_env : CallEnv;
  dr_redis_error : option string;
  dr_now : N;
  dr_store : Store
}.

Definition validate_at (d : DirectoryRead) (community_id : Uuid) (fenced : FencedHeader)
    : result unit MeshError :=
  validate_fenced_header (dr_debug d) (dr_env d) (dr_redis_error d) (dr_now d) community_id fenced (dr_store d).

Definition validate_frame_fence (d : DirectoryRead) (community_id : Uuid) (fenced : FencedHeader)
    (st : ReliableMeshStream) : result unit ReliableStreamError * ReliableMeshStream :=
  if bool_decide (fenced ≠ rs_fenced st) then (Err (FrameFenceMismatch (rs_fenced st) fenced), st)
  else
  let mismatch :=
    match rs_community_id st with
    | Some expected => if bool_decide (expected ≠ community_id) then Some expected else None
    | None => None
    end in
  match mismatch with
  | Some expected => (Err (CommunityMismatch expected community_id), st)
  | None =>
      match validate_at d community_id fenced with
      | Err e => (Err (Mesh e), st)
      | Ok _ =>
          (Ok tt, match rs_community_id st with
                  | None => with_community community_id st
                  | Some _ => st
                  end)
      end
  end.

Definition recv_validated (d : DirectoryRead) (st : ReliableMeshStream)
    : result (option ReliableFrame) ReliableStreamError * ReliableMeshStream :=
  match recv_frame (rs_stream st) with
  | (Err e, s) => (Err (Mesh e), with_stream s st)
  | (Ok None, s) => (Ok None, with_stream s st)
  | (Ok (Some frame), s) =>
      let st := with_stream s st in
      match frame with
      | Data fenced payload =>
          match rw_decode payload with
          | Err e => (Err e, st)
          | Ok frame =>
              let community_id := frame_community_id frame in
              match validate_frame_fence d community_id fenced st with
              | (Err e, st) => (Err e, st)
              | (Ok _, st) =>
                  (Ok (Some match frame with
                            | WireData _ payload => FrameData payload
                            | WireGoodbye _ reason => FrameGoodbye reason
                            end), st)
              end
          end
      | Goodbye _ _ => (Err (UnexpectedFrame "goodbye"), st)
      | Hello _ => (Err (UnexpectedFrame "hello"), st)
      | MeshWire.Gossip _ => (Err (UnexpectedFrame "gossip"), st)
      end
  end.

(** ** The router *)

(** [open_session_stream] of the transport is [open]. *)
Definition join (env : CallEnv) (now lease_ttl : N)
    (open : RuntimeId → StreamHello → result MeshStream MeshError)
    (local_runtime_id : RuntimeId) (community_id session_id : Uuid) (s : Store)
    : result ReliableJoin ReliableStreamError * Store :=
  match acquire env now lease_ttl community_id session_id local_runtime_id ReliableStream s with
  | (Err e, s) => (Err (DirectoryFailed e), s)
  | (Ok (Acquired lease), s) => (Ok (Owned lease), s)
  | (Ok (Exists lease), s) =>
      if bool_decide (l_profile lease ≠ ReliableStream) then
        (Err (ProfileMismatch session_id ReliableStream (l_profile lease)), s)
      else if bool_decide (l_owner_runtime_id lease = local_runtime_id) then (Ok (Owned lease), s)
      else
      let fenced := fenced_header lease in
      let hello := mkHello local_runtime_id (Session fenced ReliableStream) in
      match open (l_owner_runtime_id lease) hello with
      | Err e => (Err (Mesh e), s)
      | Ok stream => (Ok (Forwarded lease (stream_new fenced stream)), s)
      end
  end.

Definition accept_inbound (local_runtime_id from : RuntimeId) (hello : StreamHello) (stream : MeshStream)
    : result ReliableInbound ReliableStreamError :=
  if bool_decide (sh_sender hello ≠ from) then Err (SenderMismatch from (sh_sender hello))
  else match sh_role hello with
  | Session fenced profile =>
      if bool_decide (profile ≠ ReliableStream) then
        Err (ProfileMismatch (fh_session_id fenced) ReliableStream profile)
      else if bool_decide (fh_owner_runtime_id fenced ≠ local_runtime_id) then
        Err (OwnerIsNotLocal (fh_session_id fenced) (fh_owner_runtime_id fenced) local_runtime_id)
      else Ok (mkInbound fenced from (new_inbound fenced stream))
  | Control => Err UnexpectedStreamRole
  end.

(** ** The lease renewer *)

Definition DEFAULT_RENEW_INTERVAL : N := 10000000000.

Inductive Phase : Type :=
| Renewing
| Releasing (caller_cancelled : bool)
| Stopped
| Panicked.

(** The task, and whether [lost] was cancelled. *)
Record Renewer : Type := mkRenewer {
  rn_lease : SessionLease;
  rn_phase : Phase;
  rn_lost : bool
}.

Definition spawn_lease_renewer (lease : SessionLease) : Renewer := mkRenewer lease Renewing false.

(** The branch of [select!] for the caller's token. *)
Definition renewer_cancelled (r : Renewer) : Renewer :=
  match rn_phase r with
  | Renewing => mkRenewer (rn_lease r) (Releasing true) (rn_lost r)
  | _ => r
  end.

(** The branch for a tick. *)
Definition renewer_tick (env : CallEnv) (now lease_ttl : N) (r : Renewer) (s : Store) : Renewer * Store :=
  match rn_phase r with
  | Renewing =>
      match renew env now lease_ttl (rn_lease r) s with
      | (Some (Ok (Renewed _)), s) => (r, s)
      | (Some (Ok (Lost _ _)), s) => (mkRenewer (rn_lease r) (Releasing false) true, s)
      | (Some (Err _), s) => (mkRenewer (rn_lease r) (Releasing false) true, s)
      | (None, s) => (mkRenewer (rn_lease r) Panicked (rn_lost r), s)
      end
  | _ => (r, s)
  end.

(** The release after the loop. *)
Definition renewer_release (env : CallEnv) (now : N) (r : Renewer) (s : Store) : Renewer * Store :=
  match rn_phase r with
  | Releasing caller_cancelled =>
      match release env now (rn_lease r) s with
      | (Some (Ok (Released _)), s) => (mkRenewer (rn_lease r) Stopped (rn_lost r), s)
      | (Some (Ok (NotOwner _ _)), s) => (mkRenewer (rn_lease r) Stopped true, s)
      | (Some (Err _), s) => (mkRenewer (rn_lease r) Stopped (rn_lost r || negb caller_cancelled), s)
      | (None, s) => (mkRenewer (rn_lease r) Panicked (rn_lost r), s)
      end
  | _ => (r, s)
  end.
End tunnel.
