(* ===== verification/ReliableProps.v ===== *)
(** * ReliableProps: what a reliable tunnel guarantees

The frames of a tunnel are decoded to what was encoded, bytes sent arrive in
order and complete or as a prefix, a stream fenced out by a newer owner delivers
nothing, joins agree on the owner, and the lease renewer keeps the lease or
reports its loss. *)
From stdpp Require Import pretty.
From S2P Require Import Prelude Text Nostr Encode Gossip MeshWire Directory DirectoryProps Reliable.

(** ** Frames and chunks *)

Section codec.
Context {UB : UuidBytes} (UL : UuidBytesLaws).

Lemma from_to_wire_byte r : from_wire_byte (to_wire_byte r) = Ok r.
Proof. by destruct r. Qed.

Lemma to_from_wire_byte b r : from_wire_byte b = Ok r → to_wire_byte r = b.
Proof.
  unfold from_wire_byte. destruct (N.eqb_spec b 1) as [->|_]; [by intros [= <-]|].
  destruct (N.eqb_spec b 2) as [->|_]; [by intros [= <-]|].
  destruct (N.eqb_spec b 3) as [->|_]; [by intros [= <-]|done].
Qed.

(** A frame of 18 bytes or more, in its parts. *)
Lemma rw_decode_parts v k u rest :
  length u = 16 →
  rw_decode (v :: k :: u ++ rest)
  = if bool_decide (v ≠ VERSION) then Err (MalformedReliableFrame "unknown version")
    else if (k =? DATA)%N then Ok (WireData (uuid_from_bytes u) rest)
    else if (k =? GOODBYE)%N then
      match rest with
      | [b] => let? reason := from_wire_byte b in Ok (WireGoodbye (uuid_from_bytes u) reason)
      | _ => Err (MalformedReliableFrame "bad goodbye length")
      end
    else Err (MalformedReliableFrame "unknown kind").
Proof.
  intros Hu. unfold rw_decode.
  assert (take 16 (drop 2 (v :: k :: u ++ rest)) = u) as -> by (rewrite <-Hu; apply take_app_length).
  assert (drop 18 (v :: k :: u ++ rest) = rest) as ->
    by (change (drop 16 (u ++ rest) = rest); rewrite <-Hu; apply drop_app_length).
  assert (byte_at (v :: k :: u ++ rest) 18 = byte_at rest 0) as ->.
  { unfold byte_at. change ((v :: k :: u ++ rest) !! 18) with ((u ++ rest) !! 16).
    by rewrite lookup_app_r, Hu by lia. }
  assert (length (v :: k :: u ++ rest) = 18 + length rest) as -> by (simpl; rewrite length_app; lia).
  destruct (Nat.ltb_spec (18 + length rest) 18); [lia|]. change (byte_at (v :: k :: u ++ rest) 0) with v.
  change (byte_at (v :: k :: u ++ rest) 1) with k.
  case_bool_decide; [done|]. destruct (k =? DATA)%N; [done|]. destruct (k =? GOODBYE)%N; [|done].
  by destruct rest as [|b [|b' rest]].
Qed.

Lemma rw_decode_encode f : is_uuid (frame_community_id f) → rw_decode (rw_encode f) = Ok f.
Proof.
  destruct f as [c p|c r]; simpl; intros Hc; rewrite rw_decode_parts by apply (uuid_bytes_length UL);
    rewrite bool_decide_false by (by intros []); simpl;
    rewrite ?from_to_wire_byte; simpl; by rewrite (uuid_bytes_inverse UL).
Qed.

Lemma rw_encode_decode b f :
  Forall (λ x, (x < 256)%N) b → rw_decode b = Ok f → rw_encode f = b ∧ is_uuid (frame_community_id f).
Proof.
  intros Hb Hd. destruct (Nat.lt_ge_cases (length b) 18) as [Hlt|Hge].
  { unfold rw_decode in Hd. by destruct (Nat.ltb_spec (length b) 18); [|lia]. }
  destruct b as [|v [|k b]]; simpl in Hge; [lia..|].
  apply Forall_cons in Hb as [_ [_ Hb]%Forall_cons]. rewrite <-(take_drop 16 b) in Hd, Hb |- *.
  apply Forall_app in Hb as [Hu _].
  assert (length (take 16 b) = 16) as Hlen by (rewrite length_take; lia).
  destruct (uuid_bytes_onto UL _ Hlen Hu) as [Hid Hbytes].
  rewrite rw_decode_parts in Hd by done. case_bool_decide as Hv; [done|].
  assert (v = VERSION) as -> by (by destruct (decide (v = VERSION))).
  destruct (N.eqb_spec k DATA) as [->|_].
  { apply (inj Ok) in Hd as <-. simpl. by rewrite Hbytes. }
  destruct (N.eqb_spec k GOODBYE) as [->|_]; [|done].
  destruct (drop 16 b) as [|x [|]]; [done| |done].
  destruct (from_wire_byte x) as [r|] eqn:Hr; [|done]. simpl in Hd. apply (inj Ok) in Hd as <-. simpl.
  by rewrite Hbytes, (to_from_wire_byte _ _ Hr).
Qed.
End codec.

Lemma chunks_loop_spec n fuel l :
  0 < n → length l <= fuel →
  concat (chunks_loop fuel n l) = l ∧ Forall (λ c, 0 < length c <= n) (chunks_loop fuel n l).
Proof.
  intros Hn. revert l. induction fuel as [|fuel IH]; intros l Hl.
  { destruct l; [done|simpl in Hl; lia]. }
  destruct l as [|x l]; [done|]. cbn [chunks_loop concat].
  destruct (IH (drop n (x :: l))) as [-> Hall]; [rewrite length_drop; simpl in *; lia|].
  rewrite take_drop. split; [done|]. constructor; [|done]. rewrite length_take. simpl. lia.
Qed.

Lemma chunks_spec n l : 0 < n → concat (chunks n l) = l ∧ Forall (λ c, 0 < length c <= n) (chunks n l).
Proof. intros Hn. by apply chunks_loop_spec. Qed.

(** ** Bytes through a tunnel *)

Section transfer.
Context {RD : Redis} {HE : HexEncode} {DC : DirectoryCrates} {UT : UuidText}.
Context {UB : UuidBytes} {WC : WireCrates}.

Definition data_frame (fenced : FencedHeader) (c : Uuid) (chunk : Bytes) : MeshStreamFrame :=
  Data fenced (rw_encode (WireData c chunk)).

(** Receive until the end, an error, a goodbye, or [n] payloads; the [i]th read
of the directory is [d i]. *)
Fixpoint recv_all (d : nat → DirectoryRead) (n : nat) (st : ReliableMeshStream)
    : list Bytes * result (option ReliableFrame) ReliableStreamError :=
  match n with
  | 0 => ([], Ok None)
  | S n =>
      match recv_validated (d n) st with
      | (Ok (Some (FrameData p)), st) => let '(ps, r) := recv_all d n st in (p :: ps, r)
      | (r, _) => ([], r)
      end
  end.

Lemma send_chunks_frames c cs st r st' :
  send_chunks c cs st = (r, st') →
  ∃ r0, send_frames (map (data_frame (rs_fenced st) c) cs) (send (rs_stream st)) = (r0, send (rs_stream st'))
    ∧ r = map_err Mesh r0.
Proof.
  revert st. induction cs as [|chunk cs IH]; intros st; cbn [send_chunks map send_frames].
  { intros [= <- <-]. by exists (Ok tt). }
  unfold send_payload, send_frame. fold (data_frame (rs_fenced st) c chunk).
  destruct (half_send_frame (data_frame (rs_fenced st) c chunk) (send (rs_stream st))) as [[[]|e] h]; simpl.
  - intros (r0 & H & ->)%IH. simpl in H. by exists r0.
  - intros [= <- <-]. simpl. by exists (Err e).
Qed.

Lemma send_bytes_frames c bytes st r st' :
  send_bytes c bytes st = (r, st') →
  ∃ cs r0, cs `prefix_of` chunks MAX_RELIABLE_PAYLOAD_BYTES bytes
    ∧ send_frames (map (data_frame (rs_fenced st) c) cs) (send (rs_stream st)) = (r0, send (rs_stream st'))
    ∧ (r = Ok tt → r0 = Ok tt ∧ cs = chunks MAX_RELIABLE_PAYLOAD_BYTES bytes).
Proof.
  unfold send_bytes. destruct (ensure_outbound_community c st) as [[[]|e] st0] eqn:He.
  - intros (r0 & H & ->)%send_chunks_frames.
    assert (rs_fenced st0 = rs_fenced st ∧ rs_stream st0 = rs_stream st) as [Hf Hs].
    { unfold ensure_outbound_community in He. destruct (rs_community_id st); [case_bool_decide|]; by simplify_eq. }
    rewrite Hf, Hs in H. exists (chunks MAX_RELIABLE_PAYLOAD_BYTES bytes), r0. split_and!; [done|done|].
    by destruct r0 as [[]|].
  - intros [= <- <-]. exists [], (Ok tt). split_and!; [apply prefix_nil| |done]. simpl.
    unfold ensure_outbound_community in He. destruct (rs_community_id st); [case_bool_decide|]; by simplify_eq.
Qed.

(** One frame of the tunnel's own, accepted by the directory. *)
Lemma recv_validated_data (UL : UuidBytesLaws) d c st chunk h :
  is_uuid c → validate_at d c (rs_fenced st) = Ok tt →
  rs_community_id st = None ∨ rs_community_id st = Some c →
  half_recv_frame (recv (rs_stream st)) = (Ok (Some (data_frame (rs_fenced st) c chunk)), h) →
  ∃ st', recv_validated d st = (Ok (Some (FrameData chunk)), st')
    ∧ rs_fenced st' = rs_fenced st ∧ rs_community_id st' = Some c ∧ recv (rs_stream st') = h.
Proof.
  intros Hc Hv Hcom Hrecv. unfold recv_validated, recv_frame. rewrite Hrecv. unfold data_frame.
  rewrite (rw_decode_encode UL) by done. unfold validate_frame_fence. cbn [frame_community_id with_stream rs_fenced rs_community_id].
  rewrite bool_decide_false by (by intros []).
  destruct Hcom as [E|E]; rewrite E; [|rewrite bool_decide_false by (by intros [])];
    rewrite Hv; eexists; (split; [done|]); done.
Qed.

Lemma recv_all_frames (UL : UuidBytesLaws) d f c n cs rr st :
  is_uuid c → (∀ i, validate_at (d i) c f = Ok tt) →
  rs_fenced st = f → rs_community_id st = None ∨ rs_community_id st = Some c →
  recv_frames n (recv (rs_stream st)) = (map (data_frame f c) cs, rr) →
  match rr with Ok o => o = None | Err _ => True end →
  recv_all d n st = (cs, match rr with Ok _ => Ok None | Err e => Err (Mesh e) end).
Proof.
  intros Hc Hv. revert cs st. induction n as [|n IH]; intros cs st Hf Hcom; cbn [recv_frames recv_all].
  { intros [= Hcs <-] _. by destruct cs. }
  destruct (half_recv_frame (recv (rs_stream st))) as [[[frame|]|e] h] eqn:Hrecv.
  - destruct (recv_frames n h) as [fs r0] eqn:Hrest. intros [= Hcs <-] Hr.
    destruct cs as [|chunk cs]; [done|]. simpl in Hcs. injection Hcs as -> Hcs.
    rewrite <-Hf in Hrecv.
    destruct (recv_validated_data UL (d n) c st chunk h) as (st' & -> & Hf' & Hcom' & Hh);
      [done|by rewrite Hf|done|done|].
    rewrite (IH cs st'); [done|by rewrite Hf'|by right|by rewrite Hh, Hrest, Hcs|done].
  - intros [= Hcs <-] _. destruct cs; [|done]. unfold recv_validated, recv_frame. by rewrite Hrecv.
  - intros [= Hcs <-] _. destruct cs; [|done]. unfold recv_validated, recv_frame. by rewrite Hrecv.
Qed.
End transfer.

(** C27. Bytes go through a tunnel unchanged.  Send bytes into a fresh stream,
however its writes fail, and let the network deliver any prefix of what was
written and then end cleanly or with an error.  A receiver pinned to the same
fence, whose directory accepts that fence at every read, gets payloads of at most
1 MiB whose concatenation is a prefix of the bytes sent.  If the send succeeded
and everything it wrote arrives, the concatenation is exactly the bytes sent, and
after a clean end the receiver reads the end.  A clean end may also cut the stream
at a frame boundary, and a directory that refuses the fence stops the receiver:
then only the prefix holds, or nothing is claimed. *)
Theorem tunnel_delivers_bytes {RD : Redis} {HE : HexEncode} {DC : DirectoryCrates} {UT : UuidText}
    {UB : UuidBytes} {WC : WireCrates} (UL : UuidBytesLaws) (L : WireLaws) (d : nat → DirectoryRead)
    (c : Uuid) (bytes : Bytes) (out out' inn : ReliableMeshStream) (r : result unit ReliableStreamError)
    (j n : nat) (e : option string) :
  is_uuid c → written (send (rs_stream out)) = [] → send_bytes c bytes out = (r, out') →
  rs_fenced inn = rs_fenced out → rs_community_id inn = None ∨ rs_community_id inn = Some c →
  recv (rs_stream inn) = mkRecv (take j (written (send (rs_stream out')))) e →
  (∀ i, validate_at (d i) c (rs_fenced out) = Ok tt) → length bytes < n →
  ∃ got rr, recv_all d n inn = (got, rr)
    ∧ concat got `prefix_of` bytes ∧ Forall (λ p, 0 < length p <= MAX_RELIABLE_PAYLOAD_BYTES) got
    ∧ match rr with Ok o => o = None ∧ e = None | Err _ => True end
    ∧ (r = Ok tt → length (written (send (rs_stream out'))) <= j → concat got = bytes ∧ (e = None → rr = Ok None)).
Proof.
  intros Hc Hw Hsend Hf Hcom Hrecv Hv Hn.
  destruct (send_bytes_frames _ _ _ _ _ Hsend) as (cs & r0 & Hcs & Hframes & Hok).
  destruct (chunks_spec MAX_RELIABLE_PAYLOAD_BYTES bytes) as [Hconcat Hall]; [unfold MAX_RELIABLE_PAYLOAD_BYTES; lia|].
  assert (length cs < n) as Hlen.
  { apply prefix_length in Hcs. assert (length (chunks MAX_RELIABLE_PAYLOAD_BYTES bytes) <= length bytes); [|lia].
    rewrite <-Hconcat at 2. clear -Hall. induction Hall; simpl; [done|]. rewrite length_app. lia. }
  destruct (frames_arrive L _ _ _ _ j n e Hw Hframes) as (got & rr & Hgot & Hpre & Hend & Hfull).
  { by rewrite length_map. }
  assert (∃ gs, got = map (data_frame (rs_fenced out) c) gs ∧ gs `prefix_of` cs) as (gs & -> & Hgs).
  { destruct Hpre as [rest Heq]. apply map_eq_app in Heq as (l1 & l2 & -> & <- & _).
    exists l1. split; [done|by apply prefix_app_r]. }
  rewrite <-Hrecv in Hgot.
  eapply (recv_all_frames UL) in Hgot; [|done..|by destruct rr; [destruct Hend as (-> & _)|]].
  assert (gs `prefix_of` chunks MAX_RELIABLE_PAYLOAD_BYTES bytes) as Hgs' by (by etrans).
  exists gs, (match rr with Ok _ => Ok None | Err e => Err (Mesh e) end). split_and!; [done| | | |].
  - destruct Hgs' as [rest Heq]. rewrite <-Hconcat, Heq, concat_app. by apply prefix_app_r.
  - destruct Hgs' as [rest Heq]. rewrite Heq in Hall. by apply Forall_app in Hall as [? _].
  - destruct rr; [|done]. by destruct Hend as (_ & -> & _).
  - intros Hr Hj. destruct (Hok Hr) as [-> ->]. destruct (Hfull eq_refl Hj) as [Heq Hrr].
    split; [|by intros ->%Hrr]. rewrite <-Hconcat. f_equal.
    destruct Hgs as [rest Hrest]. rewrite Hrest in Heq |- *. rewrite map_app in Heq. apply (f_equal length) in Heq. rewrite length_app in Heq.
    assert (rest = []) as -> by (destruct rest; [done|simpl in Heq; lia]). by rewrite app_nil_r.
Qed.

(** ** Deliveries and the fence *)

Section fence.
Context {RD : Redis} {HE : HexEncode} {DC : DirectoryCrates} {UT : UuidText}.
Context {UB : UuidBytes} {WC : WireCrates}.

(** What is delivered was validated, now, for the stream's own fence and
community. *)
Lemma recv_validated_delivers d st fr st' :
  recv_validated d st = (Ok (Some fr), st') →
  ∃ c, rs_community_id st' = Some c ∧ rs_fenced st' = rs_fenced st
    ∧ validate_at d c (rs_fenced st) = Ok tt ∧ (rs_community_id st = None ∨ rs_community_id st = Some c).
Proof.
  unfold recv_validated. destruct (recv_frame (rs_stream st)) as [[[frame|]|e] s]; [|done..].
  destruct frame as [|fenced payload| |]; [done| |done..].
  destruct (rw_decode payload) as [f|]; [|done]. unfold validate_frame_fence.
  cbn [with_stream rs_fenced rs_community_id]. case_bool_decide as Hf; [done|].
  assert (fenced = rs_fenced st) as -> by (by destruct (decide (fenced = rs_fenced st))).
  destruct (rs_community_id st) as [expected|] eqn:Hcom; cbn [rs_community_id].
  - case_bool_decide as Hc; [done|].
    assert (expected = frame_community_id f) as -> by (by destruct (decide (expected = frame_community_id f))).
    destruct (validate_at d (frame_community_id f) (rs_fenced st)) as [[]|] eqn:Hv; [|done].
    intros [= _ <-]. exists (frame_community_id f). split_and!; try done. by right.
  - destruct (validate_at d (frame_community_id f) (rs_fenced st)) as [[]|] eqn:Hv; [|done].
    intros [= _ <-]. exists (frame_community_id f). split_and!; try done. by left.
Qed.

(** ** Joining *)

(** A join touches the directory as its acquisition does. *)
Lemma join_store env now ttl open local c id s :
  (join env now ttl open local c id s).2 = (exec (DAcquire env ttl c id local ReliableStream) now s).2.
Proof.
  unfold join. simpl. destruct (acquire env now ttl c id local ReliableStream s) as [[[l|l]|e] s1]; simpl; try done.
  case_bool_decide; [done|]. case_bool_decide; [done|]. by destruct (open _ _).
Qed.

(** The session after a join. *)
Definition joined (env : CallEnv) (now ttl : N) (local : RuntimeId) (c id : Uuid) (ses : Session) : Session :=
  (abs_exec (DAcquire env ttl c id local ReliableStream) now ses).2.

Lemma ttl_ms_pos ttl ms : ttl_ms ttl = Ok ms → (0 < ms)%N.
Proof. unfold ttl_ms. destruct (_ && _) eqn:E; [|done]. intros [= <-]. apply andb_true_iff in E as [_ E]. by apply N.ltb_lt. Qed.

Definition session_hello (local : RuntimeId) (l : SessionLease) : StreamHello :=
  mkHello local (MeshWire.Session (fenced_header l) ReliableStream).

(** What a join's answer says of the session before and after it. *)
Definition join_outcome (now : N) (open : RuntimeId → StreamHello → result MeshStream MeshError)
    (local : RuntimeId) (c id : Uuid) (ses ses' : Session) (r : result ReliableJoin ReliableStreamError) : Prop :=
  match r with
  | Ok (Owned l) =>
      l = lease_of c id (local, ReliableStream) ses' ∧ holder now ses' = Some (local, ReliableStream)
      ∧ (ses' = ses ∨ holder now ses = None ∧ generation ses' = (generation ses + 1)%N)
  | Ok (Forwarded l st) =>
      ses' = ses ∧ l_owner_runtime_id l ≠ local
      ∧ holder now ses = Some (l_owner_runtime_id l, ReliableStream)
      ∧ l = lease_of c id (l_owner_runtime_id l, ReliableStream) ses
      ∧ ∃ stream, open (l_owner_runtime_id l) (session_hello local l) = Ok stream
          ∧ st = stream_new (fenced_header l) stream
  | Err (ProfileMismatch session_id expected actual) =>
      ses' = ses ∧ session_id = id ∧ expected = ReliableStream ∧ actual ≠ ReliableStream
      ∧ ∃ o, holder now ses = Some (o, actual)
  | Err (Mesh e) =>
      ses' = ses ∧ ∃ l, l_owner_runtime_id l ≠ local
        ∧ l = lease_of c id (l_owner_runtime_id l, ReliableStream) ses
        ∧ holder now ses = Some (l_owner_runtime_id l, ReliableStream)
        ∧ open (l_owner_runtime_id l) (session_hello local l) = Err e
  | Err (DirectoryFailed _) => ses' = ses ∨ holder now ses = None
  | Err _ => False
  end.

Lemma join_spec (RL : RedisLaws) (TL : TextLaws) env now ttl open local c id s ses :
  is_uuid c → is_uuid id → is_runtime_id local → tracks c id now s ses →
  (generation ses + 1 < 99999999999999)%N →
  join_outcome now open local c id ses (joined env now ttl local c id ses)
    (join env now ttl open local c id s).1.
Proof.
  intros Hc Hid Hlocal Ht Hsmall.
  pose proof (acquire_refines RL TL c id Hc Hid env now ttl local ReliableStream s ses Ht Hlocal Hsmall) as H.
  unfold joined, join. cbn [abs_exec].
  destruct (abs_call env (ttl_ms ttl) (λ ttl, abs_acquire c id now ttl local ReliableStream ses) ses)
    as [r ses'] eqn:Habs.
  destruct H as (s' & Hacq & _ & _). rewrite Hacq. cbn [snd].
  unfold abs_call in Habs. destruct (guard env (ttl_ms ttl)) as [ms|e] eqn:Hguard.
  2:{ injection Habs as <- <-. by left. }
  assert (0 < ms)%N as Hms.
  { unfold guard in Hguard. destruct (begin_serving_write env); [|done]. simpl in Hguard.
    destruct (ttl_ms ttl) eqn:Httl; [|done]. simpl in Hguard. destruct (pool_get env); [|done].
    simpl in Hguard. injection Hguard as ->. by eapply ttl_ms_pos. }
  injection Habs as <- <-. unfold answer, script_runs, abs_acquire.
  destruct (serving env ≫= sv_protect) as [pe|], (sent env) as [|e|e];
    destruct (holder now ses) as [[o p]|] eqn:Hh; cbn [fst snd]; try (by left); try (by right);
    (destruct (finish_serving_write env) as [[]|]; cbn [result_bind]; [|first [by left|by right]]).
  - cbn [lease_of l_profile l_owner_runtime_id fst snd]. case_bool_decide as Hp.
    { split_and!; try done. by exists o. }
    assert (p = ReliableStream) as -> by (by destruct (decide (p = ReliableStream))).
    case_bool_decide as Ho; [subst o; split_and!; [done|done|by left]|].
    destruct (open o _) as [stream|e] eqn:Hopen; cbn [fst].
    + split_and!; try done. by exists stream.
    + split; [done|]. by exists (lease_of c id (o, ReliableStream) ses).
  - split_and!; [done| |right].
    + unfold holder. simpl. destruct (N.ltb_spec now (now + ms)); [|lia]. by rewrite last_snoc.
    + split; [done|]. unfold generation. simpl. rewrite length_app. simpl. lia.
Qed.
End fence.

(** C25. A fenced-out owner's streams deliver nothing.  Start from a directory
without sessions.  Once an acquisition of a session answered [Acquired] with lease
[l], and whatever directory calls, expiries and failures follow, no stream pinned to
an older generation of that session delivers another frame of that community,
whatever bytes arrive on it; as long as the calls in all are fewer than 10^14 - 1, so
that Lua writes a generation out in full. *)
Theorem fenced_streams_deliver_nothing {RD : Redis} {HE : HexEncode} {DC : DirectoryCrates} {UT : UuidText}
    {UB : UuidBytes} {WC : WireCrates} (RL : RedisLaws) (TL : TextLaws) (env : CallEnv)
    (now0 now1 t1 now2 ttl : N) (s0 s1 s2 : Store) (n k : nat) (c id : Uuid) (owner : RuntimeId)
    (profile : Profile) (l : SessionLease) (d : DirectoryRead) (st : ReliableMeshStream) :
  no_sessions now0 s0 → dir_run now0 s0 n now1 s1 → (now1 <= t1)%N →
  is_uuid c → is_uuid id → is_runtime_id owner →
  (acquire env t1 ttl c id owner profile s1).1 = Ok (Acquired l) →
  dir_run t1 (acquire env t1 ttl c id owner profile s1).2 k now2 s2 →
  (N.of_nat (n + k + 1) < 99999999999999)%N →
  dr_store d = s2 → (now2 <= dr_now d)%N →
  fh_session_id (rs_fenced st) = id → (fh_generation (rs_fenced st) < l_generation l)%N →
  match recv_validated d st with
  | (Ok (Some _), st') => rs_community_id st' ≠ Some c
  | _ => True
  end.
Proof.
  intros Hs0 Hrun Ht1 Hc Hid Howner Hacq Hrun2 Hn Hstore Hnow Hsid Hgen.
  destruct (recv_validated d st) as [[[fr|]|] st'] eqn:Hrecv; [|done..]. intros Hcom.
  destruct (run_tracks RL TL now0 s0 (λ _ _, no_session) n now1 s1 0 Hrun) as (_ & w & Hw & Hgrow);
    [by apply tracks_no_sessions|done|lia|].
  assert (tracks_world t1 s1 w) as Hw' by (intros c' id' H1 H2; eapply tracks_later; [exact Ht1|by apply Hw]).
  destruct (after_acquired RL TL t1 s1 w env ttl c id owner profile l k now2 s2 (N.of_nat n))
    as (_ & w2 & Hw2 & Hge); [done..| |lia|done|done|].
  { intros c' id'. destruct (Hgrow c' id'). lia. }
  apply recv_validated_delivers in Hrecv as (c' & Hc' & _ & Hv & _). rewrite Hcom in Hc'. injection Hc' as <-.
  assert (tracks c (fh_session_id (rs_fenced st)) (dr_now d) (dr_store d) (w2 c id)) as Htr.
  { rewrite Hstore, Hsid. eapply tracks_later; [exact Hnow|by apply Hw2]. }
  unfold validate_at in Hv. eapply accepted_is_current in Hv as [Hg _]; [|done..|by rewrite Hsid|exact Htr]. lia.
Qed.

(** A join goes to the session's owner.  When the directory answers, the
joining runtime owns the session (the lease it gets is the session's current
one, newly acquired if nobody held it), or the session is held by another
runtime over the same profile and the returned stream was opened to that
runtime, pinned to the current fence: the owner's [accept_inbound] accepts its
hello, and frames with that fence validate.  Otherwise the join fails: with a
profile mismatch exactly when the holder uses another profile, or because the
directory or the transport failed. *)
Theorem join_routes_to_owner {RD : Redis} {HE : HexEncode} {DC : DirectoryCrates} {UT : UuidText}
    (RL : RedisLaws) (TL : TextLaws) (env : CallEnv) (now ttl : N)
    (open : RuntimeId → StreamHello → result MeshStream MeshError) (local : RuntimeId) (c id : Uuid)
    (s : Store) (ses : Session) :
  is_uuid c → is_uuid id → is_runtime_id local → tracks c id now s ses →
  (generation ses + 1 < 99999999999999)%N →
  let r := (join env now ttl open local c id s).1 in
  let s' := (join env now ttl open local c id s).2 in
  ∃ ses', tracks c id now s' ses' ∧ join_outcome now open local c id ses ses' r
  ∧ ∀ l st, r = Ok (Forwarded l st) →
      (∀ stream, accept_inbound (l_owner_runtime_id l) local (session_hello local l) stream
         = Ok (mkInbound (rs_fenced st) local (new_inbound (rs_fenced st) stream)))
      ∧ ∀ debug env', pool_error env' = None →
          validate_fenced_header debug env' None now c (rs_fenced st) s' = Ok tt.
Proof.
  intros Hc Hid Hlocal Ht Hsmall r s'.
  pose proof (join_spec RL TL env now ttl open local c id s ses Hc Hid Hlocal Ht Hsmall) as Hout.
  pose proof (acquire_refines RL TL c id Hc Hid env now ttl local ReliableStream s ses Ht Hlocal Hsmall) as Hacq.
  assert (tracks c id now s' (joined env now ttl local c id ses)) as Ht'.
  { unfold s', joined. rewrite join_store. cbn [exec abs_exec].
    destruct (abs_call _ _ _ _) as [ra ses'] eqn:Hra. destruct Hacq as (sa & -> & Hta & _). done. }
  exists (joined env now ttl local c id ses). split_and!; [done|done|]. fold r in Hout.
  intros l st Hr. rewrite Hr in Hout. destruct Hout as (Hses & _ & Hh & Hl & stream & _ & ->).
  rewrite Hses in Ht'. cbn [stream_new rs_fenced].
  assert (fenced_header l = mkFenced id (generation ses) (l_owner_runtime_id l)) as Hf by (by rewrite Hl at 1).
  unfold session_hello. rewrite Hf. clear Hl. split.
  - intros stream'. unfold accept_inbound. cbn [sh_sender sh_role fh_owner_runtime_id].
    by rewrite !bool_decide_false by (by intros []).
  - intros debug env' Hp. rewrite (validate_refines TL c id debug env' now _ s' ses Ht') by done.
    unfold abs_validate. cbn [fh_generation fh_owner_runtime_id]. rewrite Hh, N.ltb_irrefl, andb_false_r. cbn [fst].
    by rewrite !bool_decide_false by (by intros []).
Qed.

(** Owners never share a generation.  From a store without sessions, over
any history of calls: if a join gives one runtime the session and a later join
gives it to another, the second lease has a higher generation, so that the
first owner's frames are fenced.  (The same runtime may get its own lease
again.) *)
Theorem owners_have_their_generation {RD : Redis} {HE : HexEncode} {DC : DirectoryCrates} {UT : UuidText}
    (RL : RedisLaws) (TL : TextLaws) (env env' : CallEnv) (now0 now1 t1 now2 t2 ttl ttl' : N)
    (s0 s1 s2 : Store) (n m : nat) (open open' : RuntimeId → StreamHello → result MeshStream MeshError)
    (a b : RuntimeId) (c id : Uuid) (la lb : SessionLease) :
  no_sessions now0 s0 → dir_run now0 s0 n now1 s1 → (now1 <= t1)%N →
  is_uuid c → is_uuid id → is_runtime_id a → is_runtime_id b →
  (join env t1 ttl open a c id s1).1 = Ok (Owned la) →
  dir_run t1 (join env t1 ttl open a c id s1).2 m now2 s2 → (now2 <= t2)%N →
  (join env' t2 ttl' open' b c id s2).1 = Ok (Owned lb) →
  (N.of_nat (n + m + 2) < 99999999999999)%N →
  (l_generation la <= l_generation lb)%N ∧ (l_generation la = l_generation lb → a = b).
Proof.
  intros Hs0 Hrun Ht1 Hc Hid Ha Hb Hja Hrun2 Ht2 Hjb Hn.
  destruct (run_tracks RL TL now0 s0 (λ _ _, no_session) n now1 s1 0 Hrun) as (_ & w & Hw & Hgrow);
    [by apply tracks_no_sessions|done|lia|].
  assert (tracks_world t1 s1 w) as Hw1 by (intros c' id' H1 H2; eapply tracks_later; [exact Ht1|by apply Hw]).
  set (opa := DAcquire env ttl c id a ReliableStream).
  destruct (Hgrow c id) as [_ Hga].
  destruct (dir_exec_refines RL TL opa t1 s1 w Hw1) as (s1' & Hexec & Hw1'); [done|simpl; lia|].
  rewrite join_store in Hrun2. fold opa in Hrun2. rewrite Hexec in Hrun2. cbn [snd] in Hrun2.
  cbn [op_community op_session opa] in Hw1'.
  pose proof (join_spec RL TL env t1 ttl open a c id s1 (w c id) Hc Hid Ha (Hw1 c id Hc Hid) ltac:(lia)) as Hoa.
  rewrite Hja in Hoa. destruct Hoa as (-> & Hha%holder_last & _).
  fold (joined env t1 ttl a c id (w c id)) in Hw1'.
  destruct (run_tracks RL TL t1 s1' _ m now2 s2 (N.of_nat n + 1) Hrun2 Hw1') as (_ & w2 & Hw2 & Hgrow2); [|lia|].
  { intros c' id'. unfold set_session. case_decide.
    - pose proof (abs_exec_grows opa t1 (w c id)) as [_ Hg]. unfold joined. fold opa. lia.
    - destruct (Hgrow c' id'). lia. }
  destruct (Hgrow2 c id) as [Hpre Hg2]. unfold set_session in Hpre. rewrite decide_True in Hpre by done.
  assert (tracks c id t2 s2 (w2 c id)) as Htr2 by (eapply tracks_later; [exact Ht2|by apply Hw2]).
  pose proof (join_spec RL TL env' t2 ttl' open' b c id s2 (w2 c id) Hc Hid Hb Htr2 ltac:(lia)) as Hob.
  rewrite Hjb in Hob. destruct Hob as (-> & Hhb%holder_last & _). cbn [lease_of l_generation].
  pose proof (abs_exec_grows (DAcquire env' ttl' c id b ReliableStream) t2 (w2 c id)) as [Hpre2 _].
  fold (joined env' t2 ttl' b c id (w2 c id)) in Hpre2.
  assert (holders (joined env t1 ttl a c id (w c id)) `prefix_of` holders (joined env' t2 ttl' b c id (w2 c id)))
    as [rest Hrest] by (by etrans; [exact Hpre|exact Hpre2]).
  unfold generation. rewrite Hrest, length_app.
  split; [lia|]. intros Heq. assert (rest = []) as -> by (destruct rest; [done|simpl in Heq; lia]).
  rewrite app_nil_r in Hrest. rewrite Hrest, Hha in Hhb. by injection Hhb.
Qed.

(** ** The renewer among the others' calls *)

Section renewing.
Context {RD : Redis} {HE : HexEncode} {DC : DirectoryCrates} {UT : UuidText}.
Context (lease : SessionLease) (ttl ms : N).

(** A renewer's task, the directory it shares, and how long its last success
(the acquisition or a renewal) keeps the lease. *)
Record Tunnel : Type := mkTunnel {
  tn_now : N;
  tn_store : Store;
  tn_renewer : Renewer;
  tn_until : N;
  tn_cancelled : bool
}.

Inductive TunnelEvent : Type :=
| EvOther (op : DirOp) (now : N)       (* a call of somebody else *)
| EvTick (env : CallEnv) (now : N)
| EvCancel
| EvRelease (env : CallEnv) (now : N).

Definition still_renewing (r : Renewer) : bool := match rn_phase r with Renewing => true | _ => false end.

Definition tunnel_step (ev : TunnelEvent) (T : Tunnel) : Tunnel :=
  match ev with
  | EvOther op now =>
      mkTunnel now (exec op now (tn_store T)).2 (tn_renewer T) (tn_until T) (tn_cancelled T)
  | EvTick env now =>
      let '(r, s) := renewer_tick env now ttl (tn_renewer T) (tn_store T) in
      mkTunnel now s r (if still_renewing r then (now + ms)%N else tn_until T) (tn_cancelled T)
  | EvCancel =>
      mkTunnel (tn_now T) (tn_store T) (renewer_cancelled (tn_renewer T)) (tn_until T)
        (tn_cancelled T || still_renewing (tn_renewer T))
  | EvRelease env now =>
      let '(r, s) := renewer_release env now (tn_renewer T) (tn_store T) in
      mkTunnel now s r (tn_until T) (tn_cancelled T)
  end.

Definition ev_now (ev : TunnelEvent) (T : Tunnel) : N :=
  match ev with EvOther _ now | EvTick _ now | EvRelease _ now => now | EvCancel => tn_now T end.

(** Others call as other runtimes, or for other sessions. *)
Definition foreign (op : DirOp) : Prop :=
  op_typed op ∧ ((op_community op, op_session op) ≠ (l_community_id lease, l_session_id lease)
                 ∨ op_runtime op ≠ l_owner_runtime_id lease).

Inductive tunnel_run (T0 : Tunnel) : nat → Tunnel → Prop :=
| tunnel_start : tunnel_run T0 0 T0
| tunnel_event n T ev :
    tunnel_run T0 n T → (tn_now T <= ev_now ev T)%N →
    match ev with EvOther op _ => foreign op | _ => True end →
    tunnel_run T0 (S n) (tunnel_step ev T).

(** A tunnel whose runtime was just given [lease], until [now + ms]. *)
Definition tunnel_new (now : N) (s : Store) : Tunnel :=
  mkTunnel now s (spawn_lease_renewer lease) (now + ms) false.

Definition holds_lease (until : N) (ses : Session) : Prop :=
  generation ses = l_generation lease ∧ (∃ p, last (holders ses) = Some (l_owner_runtime_id lease, p))
  ∧ (until <= deadline ses)%N.

Definition task_active (r : Renewer) : bool := match rn_phase r with Renewing | Releasing _ => true | _ => false end.

(** What is true of the task itself. *)
Definition task_ok (cancelled : bool) (r : Renewer) : Prop :=
  rn_lease r = lease ∧
  match rn_phase r with
  | Renewing => cancelled = false
  | Releasing b => b = cancelled ∧ (cancelled = false → rn_lost r = true)
  | Stopped => cancelled = false → rn_lost r = true
  | Panicked => False
  end.

Record tunnel_ok (b : N) (T : Tunnel) : Prop := {
  tok_task : task_ok (tn_cancelled T) (tn_renewer T);
  tok_until : (tn_until T <= tn_now T + ms)%N;
  tok_world : ∃ w, tracks_world (tn_now T) (tn_store T) w ∧ (∀ c id, generation (w c id) <= b)%N
    ∧ (task_active (tn_renewer T) = true → (tn_now T < tn_until T)%N →
       holds_lease (tn_until T) (w (l_community_id lease) (l_session_id lease)))
}.

Context (RL : RedisLaws) (TL : TextLaws) (Httl : ttl_ms ttl = Ok ms).
Context (Hc : is_uuid (l_community_id lease)) (Hid : is_uuid (l_session_id lease)).
Context (Howner : is_runtime_id (l_owner_runtime_id lease)).

Lemma holds_lease_holder now until ses :
  holds_lease until ses → (now < until)%N → ∃ p, holder now ses = Some (l_owner_runtime_id lease, p).
Proof.
  intros (_ & [p Hp] & Hd) Hlt. exists p. unfold holder. by destruct (N.ltb_spec now (deadline ses)); [|lia].
Qed.

Lemma held_by now ses h : held now lease ses = Some h → holds_lease 0 ses ∧ (now < deadline ses)%N.
Proof.
  intros Hh. apply held_holder in Hh as (Hh & Ho & Hg). pose proof (holder_last _ _ _ Hh) as Hlast.
  destruct h as [o p]. simpl in Ho. subst o. split.
  - split_and!; [done|by exists p|lia].
  - unfold holder in Hh. by destruct (N.ltb_spec now (deadline ses)).
Qed.

(** A foreign call leaves a held lease alone. *)
Lemma foreign_keeps op now until ses :
  foreign op → (op_community op, op_session op) = (l_community_id lease, l_session_id lease) →
  holds_lease until ses → (now < until)%N → (abs_exec op now ses).2 = ses.
Proof.
  intros [_ Hf] Hsame Hholds Hlt. destruct Hf as [?|Hrt]; [done|].
  destruct (holds_lease_holder now until ses Hholds Hlt) as [p Hh].
  destruct op as [env ttl' c id o pr|env ttl' l|env l]; simpl in *; unfold abs_call;
    (destruct (guard _ _) as [t|e]; simpl; [|done]).
  - unfold abs_acquire. rewrite Hh. by destruct (script_runs env).
  - unfold abs_renew, held. rewrite Hh. rewrite bool_decide_false; [by destruct (script_runs env)|].
    simpl. intros [E _]. by apply Hrt.
  - unfold abs_release, held. rewrite Hh. rewrite bool_decide_false; [by destruct (script_runs env)|].
    simpl. intros [E _]. by apply Hrt.
Qed.

(** A renewal of our own keeps it, and if it is answered extends it. *)
Lemma own_renewal env now until ses :
  (until <= now + ms)%N →
  let '(reply, ses') := abs_exec (DRenew env ttl lease) now ses in
  (holds_lease until ses → (now < until)%N → holds_lease until ses')
  ∧ (∀ l, reply = RRenew (Some (Ok (Renewed l))) →
      holds_lease (now + ms) ses' ∧ ∃ p, holder now ses = Some (l_owner_runtime_id lease, p) ∧ generation ses = l_generation lease).
Proof.
  intros Huntil. cbn [abs_exec]. unfold abs_call.
  destruct (guard env (ttl_ms ttl)) as [t|e] eqn:Hg; [|by split].
  assert (t = ms) as ->.
  { unfold guard in Hg. destruct (begin_serving_write env); [|done]. simpl in Hg. rewrite Httl in Hg. simpl in Hg.
    destruct (pool_get env); [|done]. simpl in Hg. by injection Hg. }
  unfold abs_renew. destruct (held now lease ses) as [h|] eqn:Hheld.
  - destruct (held_by _ _ _ Hheld) as [(Hgen & Hlast & _) Hlt]. split.
    + intros (_ & _ & Hd) _. by destruct (script_runs env); split_and!; simpl; try done; lia.
    + intros l Hr. injection Hr as Hr. unfold answer, script_runs in *. cbn [fst snd] in *.
      destruct (serving env ≫= sv_protect); [done|]. destruct (sent env); [|done|done]. split.
      * split_and!; [done|done|simpl; lia].
      * destruct Hlast as [p Hlast]. exists p. split; [|done]. unfold holder.
        by destruct (N.ltb_spec now (deadline ses)); [|lia].
  - split; [by destruct (script_runs env)|]. intros l Hr. injection Hr as Hr. unfold answer in Hr. cbn [fst snd] in Hr.
    destruct (serving env ≫= sv_protect); [done|]. destruct (sent env); [|done|done].
    by destruct (finish_serving_write env) as [[]|].
Qed.

(** One call on the directory, at a later time. *)
Lemma world_step op now now' s w (b : N) :
  tracks_world now s w → (now <= now')%N → op_typed op → (∀ c id, generation (w c id) <= b)%N →
  (b + 1 < 99999999999999)%N →
  let ses' := (abs_exec op now' (w (op_community op) (op_session op))).2 in
  let w' := set_session (op_community op) (op_session op) ses' w in
  (exec op now' s).1 = (abs_exec op now' (w (op_community op) (op_session op))).1
  ∧ tracks_world now' (exec op now' s).2 w' ∧ ∀ c id, (generation (w' c id) <= b + 1)%N.
Proof.
  intros Hw Hle Hop Hb Hsmall ses' w'. pose proof (Hb (op_community op) (op_session op)).
  destruct (dir_exec_refines RL TL op now' s w) as (s' & -> & Hw'); [|done|lia|].
  { intros c id H1 H2. eapply tracks_later; [exact Hle|by apply Hw]. }
  split_and!; [done|done|]. intros c id. unfold w', set_session. case_decide as E.
  - pose proof (abs_exec_grows op now' (w (op_community op) (op_session op))) as [_ Hg]. unfold ses'. lia.
  - specialize (Hb c id). lia.
Qed.

Lemma tick_exec env now r s :
  rn_lease r = lease → rn_phase r = Renewing →
  renewer_tick env now ttl r s
  = (match (exec (DRenew env ttl lease) now s).1 with
     | RRenew (Some (Ok (Renewed _))) => r
     | RRenew None => mkRenewer lease Panicked (rn_lost r)
     | _ => mkRenewer lease (Releasing false) true
     end, (exec (DRenew env ttl lease) now s).2).
Proof.
  intros Hl Hp. unfold renewer_tick. rewrite Hp, Hl. simpl.
  by destruct (renew env now ttl lease s) as [[[[]|]|] s'].
Qed.

Lemma release_exec env now r s cancelled :
  rn_lease r = lease → rn_phase r = Releasing cancelled →
  renewer_release env now r s
  = (match (exec (DRelease env lease) now s).1 with
     | RRelease (Some (Ok (Released _))) => mkRenewer lease Stopped (rn_lost r)
     | RRelease (Some (Ok (NotOwner _ _))) => mkRenewer lease Stopped true
     | RRelease (Some (Err _)) => mkRenewer lease Stopped (rn_lost r || negb cancelled)
     | _ => mkRenewer lease Panicked (rn_lost r)
     end, (exec (DRelease env lease) now s).2).
Proof.
  intros Hl Hp. unfold renewer_release. rewrite Hp, Hl. simpl.
  by destruct (release env now lease s) as [[[[]|]|] s'].
Qed.

Lemma renew_answers env now ses : ∃ r, (abs_exec (DRenew env ttl lease) now ses).1 = RRenew (Some r).
Proof. simpl. unfold abs_call. destruct (guard _ _); simpl; by eexists. Qed.

Lemma release_answers env now ses : ∃ r, (abs_exec (DRelease env lease) now ses).1 = RRelease (Some r).
Proof. simpl. unfold abs_call. destruct (guard _ _); simpl; by eexists. Qed.

(** *** The invariant, event by event *)

Lemma tunnel_ok_other b T op now :
  tunnel_ok b T → (tn_now T <= now)%N → foreign op → (b + 1 < 99999999999999)%N →
  tunnel_ok (b + 1) (tunnel_step (EvOther op now) T).
Proof.
  intros [Htask Huntil (w & Hw & Hb & Hholds)] Hle Hf Hsmall.
  destruct (world_step op (tn_now T) now (tn_store T) w b Hw Hle (proj1 Hf) Hb Hsmall) as (_ & Hw' & Hb').
  cbn [tunnel_step]. split; cbn; [done|lia|]. eexists. split_and!; [exact Hw'|exact Hb'|]. intros Ha Hlt.
  specialize (Hholds Ha ltac:(lia)). unfold set_session. case_decide as E; [|done].
  injection E as E1 E2. rewrite <-E1, <-E2. rewrite (foreign_keeps op now (tn_until T)); try done. congruence.
Qed.

(** Nothing happens but time. *)
Lemma tunnel_ok_later b T now :
  tunnel_ok b T → (tn_now T <= now)%N →
  tunnel_ok (b + 1) (mkTunnel now (tn_store T) (tn_renewer T) (tn_until T) (tn_cancelled T)).
Proof.
  intros [Htask Huntil (w & Hw & Hb & Hholds)] Hle. split; cbn; [done|lia|]. exists w. split_and!.
  - intros c id H1 H2. eapply tracks_later; [exact Hle|by apply Hw].
  - intros c id. specialize (Hb c id). lia.
  - intros Ha Hlt. apply Hholds; [done|lia].
Qed.

Lemma tunnel_ok_tick b T env now :
  tunnel_ok b T → (tn_now T <= now)%N → (b + 1 < 99999999999999)%N →
  tunnel_ok (b + 1) (tunnel_step (EvTick env now) T).
Proof.
  intros Hok Hle Hsmall. pose proof Hok as [Htask Huntil (w & Hw & Hb & Hholds)]. cbn [tunnel_step].
  pose proof Htask as [Hlease Hphase]. destruct (rn_phase (tn_renewer T)) as [|cc| |] eqn:Hp; [| | |done].
  2,3: unfold renewer_tick; rewrite Hp; cbn beta iota; unfold still_renewing; rewrite Hp; by apply tunnel_ok_later.
  rewrite tick_exec by done. set (op := DRenew env ttl lease).
  destruct (world_step op (tn_now T) now (tn_store T) w b Hw Hle (conj Hc (conj Hid Howner)) Hb Hsmall)
    as (Hreply & Hw' & Hb'). cbn [op_community op_session op] in *.
  pose proof (own_renewal env now (tn_until T) (w (l_community_id lease) (l_session_id lease)) ltac:(lia)) as Hown.
  destruct (renew_answers env now (w (l_community_id lease) (l_session_id lease))) as [reply Hr].
  fold op in Hown, Hr, Hreply. rewrite Hreply, Hr. clear Hreply.
  destruct (abs_exec op now _) as [r ses'] eqn:Habs. cbn [fst snd] in *. subst r.
  destruct Hown as [Hkeep Hext].
  assert (∀ x (P : Session → Prop), P ses' → x = w → P (set_session (l_community_id lease) (l_session_id lease) ses' x
    (l_community_id lease) (l_session_id lease))) as Hset.
  { intros x P HP _. unfold set_session. by rewrite decide_True. }
  destruct reply as [[l|cur known]|e]; unfold still_renewing; cbn [rn_phase]; rewrite ?Hp.
  - split; cbn; [exact Htask|lia|]. eexists. split_and!; [exact Hw'|exact Hb'|]. intros _ _.
    apply (Hset w); [|done]. by apply (Hext l).
  - split; cbn; [by rewrite Hphase|lia|]. eexists. split_and!; [exact Hw'|exact Hb'|]. intros _ Hlt.
    apply (Hset w); [|done]. apply Hkeep; [|done]. apply Hholds; [by unfold task_active; rewrite Hp|lia].
  - split; cbn; [by rewrite Hphase|lia|]. eexists. split_and!; [exact Hw'|exact Hb'|]. intros _ Hlt.
    apply (Hset w); [|done]. apply Hkeep; [|done]. apply Hholds; [by unfold task_active; rewrite Hp|lia].
Qed.

Lemma tunnel_ok_release b T env now :
  tunnel_ok b T → (tn_now T <= now)%N → (b + 1 < 99999999999999)%N →
  tunnel_ok (b + 1) (tunnel_step (EvRelease env now) T).
Proof.
  intros Hok Hle Hsmall. pose proof Hok as [Htask Huntil (w & Hw & Hb & Hholds)]. cbn [tunnel_step].
  pose proof Htask as [Hlease Hphase]. destruct (rn_phase (tn_renewer T)) as [|cc| |] eqn:Hp; [| | |done].
  1,3: unfold renewer_release; rewrite Hp; cbn beta iota; by apply tunnel_ok_later.
  rewrite (release_exec _ _ _ _ cc) by done. set (op := DRelease env lease).
  destruct (world_step op (tn_now T) now (tn_store T) w b Hw Hle (conj Hc (conj Hid Howner)) Hb Hsmall)
    as (Hreply & Hw' & Hb'). rewrite Hreply. cbn [op_community op_session op] in *.
  destruct (release_answers env now (w (l_community_id lease) (l_session_id lease))) as [reply Hr].
  fold op in Hr. rewrite Hr. destruct Hphase as [-> Hlost].
  assert (∀ lost, (tn_cancelled T = false → lost = true) →
    tunnel_ok (b + 1) (mkTunnel now (exec op now (tn_store T)).2 (mkRenewer lease Stopped lost) (tn_until T) (tn_cancelled T)))
    as Hend.
  { intros lost Hl. split; cbn; [done|lia|]. eexists. split_and!; [exact Hw'|exact Hb'|done]. }
  destruct reply as [[l|cur known]|e]; apply Hend; [done|done|]. intros E. by rewrite (Hlost E).
Qed.

Lemma tunnel_ok_cancel b T : tunnel_ok b T → tunnel_ok (b + 1) (tunnel_step EvCancel T).
Proof.
  intros Hok. pose proof Hok as [Htask Huntil (w & Hw & Hb & Hholds)]. cbn [tunnel_step].
  pose proof Htask as [Hlease Hphase]. unfold renewer_cancelled, still_renewing.
  destruct (rn_phase (tn_renewer T)) as [|cc| |] eqn:Hp; [| | |done]; rewrite ?orb_true_r, ?orb_false_r;
    [|by apply tunnel_ok_later..].
  split; cbn; [done|lia|]. exists w. split_and!; [done|intros c id; specialize (Hb c id); lia|].
  intros _ Hlt. apply Hholds; [by unfold task_active; rewrite Hp|done].
Qed.
Lemma tunnel_ok_new env now s s' w (b : N) :
  tracks_world now s w → (∀ c id, generation (w c id) <= b)%N → (b + 1 < 99999999999999)%N →
  acquire env now ttl (l_community_id lease) (l_session_id lease) (l_owner_runtime_id lease) (l_profile lease) s
    = (Ok (Acquired lease), s') →
  tunnel_ok (b + 1) (tunnel_new now s').
Proof.
  intros Hw Hb Hsmall Hacq.
  set (op := DAcquire env ttl (l_community_id lease) (l_session_id lease) (l_owner_runtime_id lease) (l_profile lease)).
  destruct (world_step op now now s w b Hw ltac:(lia) (conj Hc (conj Hid Howner)) Hb Hsmall) as (Hreply & Hw' & Hb').
  assert (exec op now s = (RAcquire (Ok (Acquired lease)), s')) as Hexec by (simpl; by rewrite Hacq).
  rewrite Hexec in Hreply, Hw'. cbn [fst snd op_community op_session op] in *.
  split; cbn; [done|lia|]. eexists. split_and!; [exact Hw'|exact Hb'|]. intros _ Hlt.
  unfold set_session. rewrite decide_True by done. clear Hw' Hb'. unfold op in *. cbn [abs_exec] in *.
  unfold abs_call in *. destruct (guard env (ttl_ms ttl)) as [t|e] eqn:Hg; [|by simpl in Hreply].
  assert (t = ms) as ->.
  { unfold guard in Hg. destruct (begin_serving_write env); [|done]. simpl in Hg. rewrite Httl in Hg. simpl in Hg.
    destruct (pool_get env); [|done]. simpl in Hg. by injection Hg. }
  cbn [fst snd] in *. injection Hreply as Hans. unfold answer, script_runs in *.
  destruct (serving env ≫= sv_protect); [done|]. destruct (sent env); [|done|done].
  destruct (finish_serving_write env) as [[]|]; [|done]. simpl in Hans. injection Hans as Hans.
  unfold abs_acquire in *. destruct (holder now (w _ _)); [done|]. cbn [fst snd] in *. injection Hans as Hl.
  apply (f_equal l_generation) in Hl. split_and!; cbn [holders deadline]; [by symmetry|exists (l_profile lease); by rewrite last_snoc|lia].
Qed.

Lemma tunnel_run_ok b T0 m T :
  tunnel_run T0 m T → tunnel_ok b T0 → (b + N.of_nat m < 99999999999999)%N → tunnel_ok (b + N.of_nat m) T.
Proof.
  induction 1 as [|m T ev Hrun IH Hle Hev]; intros H0 Hsmall; [by rewrite N.add_0_r|].
  replace (b + N.of_nat (S m))%N with (b + N.of_nat m + 1)%N in * by lia.
  assert (tunnel_ok (b + N.of_nat m) T) as Hok by (apply IH; [done|lia]).
  destruct ev; [apply tunnel_ok_other|apply tunnel_ok_tick|apply tunnel_ok_cancel|apply tunnel_ok_release]; done.
Qed.

(** A tick that finds the lease gone reports it. *)
Lemma tick_reports b T env now w :
  rn_lease (tn_renewer T) = lease → rn_phase (tn_renewer T) = Renewing →
  tracks_world (tn_now T) (tn_store T) w → (tn_now T <= now)%N → (∀ c id, generation (w c id) <= b)%N →
  (b + 1 < 99999999999999)%N →
  (∀ p, holder now (w (l_community_id lease) (l_session_id lease)) = Some (l_owner_runtime_id lease, p) →
    generation (w (l_community_id lease) (l_session_id lease)) ≠ l_generation lease) →
  rn_lost (tn_renewer (tunnel_step (EvTick env now) T)) = true.
Proof.
  intros Hl Hp Hw Hle Hb Hsmall Hgone. cbn [tunnel_step]. rewrite tick_exec by done.
  set (op := DRenew env ttl lease).
  destruct (world_step op (tn_now T) now (tn_store T) w b Hw Hle (conj Hc (conj Hid Howner)) Hb Hsmall) as (Hreply & _).
  cbn [op_community op_session op] in *. fold op in Hreply.
  pose proof (own_renewal env now 0 (w (l_community_id lease) (l_session_id lease)) ltac:(lia)) as Hown.
  destruct (renew_answers env now (w (l_community_id lease) (l_session_id lease))) as [reply Hr].
  fold op in Hown, Hr. rewrite Hreply, Hr. clear Hreply.
  destruct (abs_exec op now _) as [r ses'] eqn:Habs. cbn [fst snd] in *. subst r.
  destruct Hown as [_ Hext]. destruct reply as [[l|cur known]|e]; [|done..].
  destruct (Hext l eq_refl) as (_ & p & Hh & Hg). by destruct (Hgone p Hh).
Qed.
End renewing.

(** The renewer keeps the lease or says so.  A runtime that acquired a session
runs its renewer while other runtimes acquire, renew and release as they like,
calls fail and replies get lost.  The task never panics.  While it runs,
until the time to live after its last successful renewal is over, the lease's
frames validate: nobody can take the session over.  When it has ended without
being cancelled by its caller, it has signalled the loss; and whenever the
lease's frames do not validate any more, the next tick signals it. *)
Theorem renewer_keeps_lease_or_reports {RD : Redis} {HE : HexEncode} {DC : DirectoryCrates} {UT : UuidText}
    (RL : RedisLaws) (TL : TextLaws) (env : CallEnv) (lease : SessionLease) (ttl ms now0 now1 t1 : N)
    (s0 s1 s2 : Store) (n m : nat) (T : Tunnel) :
  let c := l_community_id lease in
  no_sessions now0 s0 → dir_run now0 s0 n now1 s1 → (now1 <= t1)%N →
  is_uuid c → is_uuid (l_session_id lease) → is_runtime_id (l_owner_runtime_id lease) → ttl_ms ttl = Ok ms →
  acquire env t1 ttl c (l_session_id lease) (l_owner_runtime_id lease) (l_profile lease) s1
    = (Ok (Acquired lease), s2) →
  tunnel_run lease ttl ms (tunnel_new lease ms t1 s2) m T → (N.of_nat (n + m + 2) < 99999999999999)%N →
  rn_phase (tn_renewer T) ≠ Panicked
  ∧ (task_active (tn_renewer T) = true → ∀ t debug e, (tn_now T <= t < tn_until T)%N → pool_error e = None →
       validate_fenced_header debug e None t c (fenced_header lease) (tn_store T) = Ok tt)
  ∧ (still_renewing (tn_renewer T) = false → tn_cancelled T = false → rn_lost (tn_renewer T) = true)
  ∧ (still_renewing (tn_renewer T) = true → ∀ e now debug e', (tn_now T <= now)%N → pool_error e' = None →
       validate_fenced_header debug e' None now c (fenced_header lease) (tn_store T) ≠ Ok tt →
       rn_lost (tn_renewer (tunnel_step ttl ms (EvTick e now) T)) = true).
Proof.
  intros c Hs0 Hrun Ht1 Hc Hid Howner Httl Hacq Htun Hn.
  destruct (run_tracks RL TL now0 s0 (λ _ _, no_session) n now1 s1 0 Hrun) as (_ & w & Hw & Hgrow);
    [by apply tracks_no_sessions|done|lia|].
  assert (tracks_world t1 s1 w) as Hw1 by (intros c' id' H1 H2; eapply tracks_later; [exact Ht1|by apply Hw]).
  assert (tunnel_ok lease ms (N.of_nat n + 1) (tunnel_new lease ms t1 s2)) as H0.
  { eapply (tunnel_ok_new lease ttl ms RL TL Httl Hc Hid Howner env t1 s1); [exact Hw1| |lia|exact Hacq].
    intros c' id'. destruct (Hgrow c' id'). lia. }
  pose proof (tunnel_run_ok lease ttl ms RL TL Httl Hc Hid Howner _ _ _ _ Htun H0 ltac:(lia)) as [Htask _ (w' & Hw' & Hb' & Hholds)].
  destruct Htask as [Hlease Hphase].
  assert (∀ t debug e, (tn_now T <= t)%N → pool_error e = None →
    validate_fenced_header debug e None t c (fenced_header lease) (tn_store T)
    = abs_validate (l_session_id lease) t (fenced_header lease) (w' c (l_session_id lease))) as Hval.
  { intros t debug e Hle Hp. apply (validate_refines TL); [|done|done]. eapply tracks_later; [exact Hle|by apply Hw']. }
  split_and!.
  - intros Hp. by rewrite Hp in Hphase.
  - intros Ha t debug e [Hle Hlt] Hp. rewrite Hval by done.
    pose proof (Hholds Ha ltac:(lia)) as Hh. pose proof Hh as (Hg & _ & _).
    destruct (holds_lease_holder lease t _ _ Hh Hlt) as [p Hholder]. fold c in Hholder, Hg. unfold abs_validate.
    rewrite Hholder, Hg. cbn. rewrite N.ltb_irrefl, andb_false_r. by rewrite !bool_decide_false by (by intros []).
  - unfold still_renewing. destruct (rn_phase (tn_renewer T)); [done|by intros _ Hcan; apply Hphase|by intros _ Hcan; apply Hphase|done].
  - unfold still_renewing. intros Hp e now debug e' Hle Hpool Hv. rewrite Hval in Hv by done.
    eapply (tick_reports lease ttl ms RL TL Httl Hc Hid Howner (N.of_nat n + 1 + N.of_nat m)); try done.
    + by destruct (rn_phase (tn_renewer T)).
    + lia.
    + intros p Hholder Hg. apply Hv. fold c in Hholder, Hg. unfold abs_validate. rewrite Hholder, Hg. cbn.
      rewrite N.ltb_irrefl, andb_false_r. by rewrite !bool_decide_false by (by intros []).
Qed.
