(* ===== verification/ReliableToy.v ===== *)
(** * ReliableToy: a tunnel to run

A store for the session directory and a frame encoding small enough to compute
with, and the theorems of [DirectoryProps], [MeshWire] and [ReliableProps]
applied to a session that Alice acquires, whose lease expires, and that Bob
takes over. *)
From stdpp Require Import pretty.
From S2P Require Import Prelude Text Nostr Encode PairingQr Gossip MeshWire Directory DirectoryProps Reliable ReliableProps.

(** * A store to run the session directory on

A map with expiry times for Redis, hexadecimal and UUID text small enough to
compute with, the proofs that they have the documented behaviour, and the
theorems of [DirectoryProps] applied to a history in which a lease expires and
another runtime takes the session over. *)

Abbreviation Entry := (string * option N)%type.

Definition entry_get (now : N) (e : Entry) : option string :=
  match e.2 with
  | None => Some e.1
  | Some d => if (now <? d)%N then Some e.1 else None
  end.

Definition map_get (now : N) (k : string) (s : gmap string Entry) : option string :=
  s !! k ≫= entry_get now.

#[export] Instance toy_redis : Redis := {
  Store := gmap string Entry;
  redis_get := map_get;
  redis_incr := λ now k s,
    match map_get now k s with
    | None => Ok (1%N, <[k := (pretty 1%N, None)]> s)
    | Some v =>
        match parse_uint 9223372036854775806 v with
        | Some n => Ok ((n + 1)%N, <[k := (pretty (n + 1)%N, (s !! k) ≫= snd)]> s)
        | None => Err "ERR value is not an integer or out of range"
        end
    end;
  redis_set_px := λ now k v ttl s, <[k := (v, Some (now + ttl)%N)]> s;
  redis_pexpire := λ now k ttl s,
    match map_get now k s with Some v => <[k := (v, Some (now + ttl)%N)]> s | None => s end;
  redis_del := λ k s, delete k s
}.

Lemma toy_redis_laws : RedisLaws.
Proof.
  constructor; simpl; unfold map_get.
  - intros now k v ttl s t _. by rewrite lookup_insert_eq.
  - intros now k v ttl s t k' Hk. by rewrite lookup_insert_ne.
  - intros now k ttl s v t Hget _. rewrite Hget. by rewrite lookup_insert_eq.
  - intros now k ttl s t k' Hk. destruct (s !! k ≫= entry_get now); [|done]. by rewrite lookup_insert_ne.
  - intros t k s. by rewrite lookup_delete_eq.
  - intros t k s k' Hk. by rewrite lookup_delete_ne.
  - intros now k s ->. eexists. split; [done|]. split; [intros t _; by rewrite lookup_insert_eq|].
    intros t k' Hk. by rewrite lookup_insert_ne.
  - intros now k s n Hget Hn. rewrite Hget by lia. rewrite parse_uint_pretty by lia. eexists. split; [done|].
    split; [|intros t k' Hk; by rewrite lookup_insert_ne]. intros t _. rewrite lookup_insert_eq. simpl.
    destruct (s !! k) as [[v [d|]]|] eqn:E; simpl; [|done|done].
    exfalso. pose proof (Hget (N.max now d) ltac:(lia)) as H. unfold entry_get in H. simpl in H.
    by destruct (N.ltb_spec (N.max now d) d); [lia|].
Qed.

#[export] Instance toy_hex : HexEncode := { hex_encode := PairingQr.Toy.hex_text }.
#[export] Instance toy_directory : DirectoryCrates := {
  hex_decode := λ s, match PairingQr.Toy.hex_bytes s with Ok b => Some b | Err _ => None end;
  lua_tostring := λ n, pretty n
}.
#[export] Instance toy_uuid : UuidText := { uuid_to_string := λ u, pretty u }.

Lemma lowercase_is_hexdigit s :
  string_forall is_lowercase_hex s = true → string_forall is_ascii_hexdigit s = true.
Proof.
  induction s as [|x s IH]; simpl; [done|]. intros [Hx Hs]%andb_true_iff. rewrite IH by done.
  unfold is_lowercase_hex in Hx. unfold is_ascii_hexdigit.
  apply orb_true_iff in Hx as [-> | ->]; by rewrite ?orb_true_r.
Qed.

Lemma toy_text : TextLaws.
Proof.
  assert (∀ i, is_runtime_id i → is_hex64 (PairingQr.Toy.hex_text i) = true
    ∧ PairingQr.Toy.hex_bytes (PairingQr.Toy.hex_text i) = Ok i) as Hhex.
  { intros i [Hl Hb]. by apply (@hex_form PairingQr.Toy.toy_qr PairingQr.Toy.toy_qr_laws). }
  constructor; simpl.
  - intros i [_ ->]%Hhex. done.
  - intros i [[_ H]%andb_true_iff _]%Hhex. by apply lowercase_is_hexdigit.
  - intros i [[H _]%andb_true_iff _]%Hhex. intros E. by rewrite E in H.
  - done.
  - intros u v _ _. apply (inj pretty).
  - intros u. destruct (pretty_N_digits u) as (_ & _ & _ & H & _).
    by apply (string_forall_excludes is_ascii_digit).
Qed.

(** *** A history: acquired at 0 for 30 s, expired, taken over at 40 s *)

Definition calm : CallEnv := mkEnv None None Executed.
Definition alice : RuntimeId := repeat 10%N 32.
Definition bob : RuntimeId := repeat 11%N 32.
Definition ttl30 : N := 30000000000.

Lemma runtime_id_repeat b : (b < 256)%N → is_runtime_id (repeat b 32).
Proof.
  intros Hb. split; [done|]. apply Forall_forall. intros x Hx.
  apply list_elem_of_In, repeat_spec in Hx as ->. exact Hb.
Qed.

Definition alice_acquires : DirOp := DAcquire calm ttl30 1 2 alice ReliableStream.
Definition store1 : Store := (exec alice_acquires 0 (∅ : gmap string Entry)).2.
Definition store2 : Store := (acquire calm 40000 ttl30 1 2 bob ReliableStream store1).2.
Definition alice_frame : FencedHeader := mkFenced 2 1 alice.
Definition bob_frame : FencedHeader := mkFenced 2 2 bob.
Definition show (_ : DirectoryError) : string := "error".

Lemma toy_empty : no_sessions 0 (∅ : gmap string Entry).
Proof. intros c id t _. done. Qed.

Lemma alice_typed : op_typed alice_acquires.
Proof. split_and!; [done|done|by apply runtime_id_repeat]. Qed.

Lemma run_store1 : dir_run 0 (∅ : gmap string Entry) 1 0 store1.
Proof. apply (run_call _ _ 0 0 _ alice_acquires 0); [constructor|done|exact alice_typed]. Qed.

Lemma exec_acquire env ttl c id owner profile now (s : Store) :
  (exec (DAcquire env ttl c id owner profile) now s).2 = (acquire env now ttl c id owner profile s).2.
Proof. simpl. by destruct (acquire env now ttl c id owner profile s). Qed.

Lemma run_store2 : dir_run 0 store1 1 40000 store2.
Proof.
  unfold store2. rewrite <-exec_acquire.
  apply (run_call _ _ 0 0 _ _ 40000); [constructor|done|].
  split_and!; [done|done|by apply runtime_id_repeat].
Qed.

Example alice_accepted_then_stale :
  validate_fenced_header show calm None 1000 1 alice_frame store1 = Ok tt
  ∧ validate_fenced_header show calm None 35000 1 alice_frame store1 = Err (NoActiveLease 2 1 1 alice)
  ∧ validate_fenced_header show calm None 41000 1 alice_frame store2 = Err (StaleGeneration 2 1 2)
  ∧ validate_fenced_header show calm None 41000 1 bob_frame store2 = Ok tt.
Proof. split_and!; by vm_compute. Qed.

Lemma directory_refines_register_witness :
  ∃ s', exec alice_acquires 0 (∅ : gmap string Entry)
    = (RAcquire (Ok (Acquired (mkLease 1 2 alice 1 ReliableStream))), s').
Proof.
  destruct (directory_refines_register toy_redis_laws toy_text alice_acquires 0 (∅ : gmap string Entry)
    (λ _ _, no_session) (tracks_no_sessions 0 _ toy_empty) alice_typed) as (s' & H & _).
  - vm_compute. reflexivity.
  - exists s'. rewrite H. vm_compute. reflexivity.
Defined.

Lemma fence_never_goes_back_witness : (fh_generation alice_frame <= fh_generation bob_frame)%N.
Proof.
  apply (fence_never_goes_back toy_redis_laws toy_text show calm calm 0 0 40000 1000 41000
    (∅ : gmap string Entry) store1 store2 1 1 1 alice_frame bob_frame toy_empty run_store1 run_store2);
    vm_compute; first [reflexivity|discriminate].
Defined.

Lemma new_owner_fences_old_witness :
  ∃ known, validate_fenced_header show calm None 40000 1 alice_frame store2 = Err (StaleGeneration 2 1 known).
Proof.
  destruct (new_owner_fences_old toy_redis_laws toy_text show calm calm calm 0 0 0 40000 1000 40000 ttl30
    (∅ : gmap string Entry) store1 store1 store2 1 0 0 1 alice_frame alice_frame bob ReliableStream
    (mkLease 1 2 bob 2 ReliableStream) toy_empty run_store1) as [_ H].
  - constructor.
  - discriminate.
  - apply runtime_id_repeat. reflexivity.
  - reflexivity.
  - reflexivity.
  - discriminate.
  - vm_compute. reflexivity.
  - constructor.
  - reflexivity.
  - destruct (H eq_refl eq_refl eq_refl) as (known & Hk & _). exists known. exact Hk.
Defined.

Lemma lease_text_roundtrip_witness :
  parse_lease 1 2 (to_hex alice +:+ "|" +:+ pretty 7%N +:+ "|" +:+ as_wire_str HuddleControl)
  = Ok (mkLease 1 2 alice 7 HuddleControl).
Proof.
  apply (lease_text_roundtrip toy_text 1 2 alice 7 HuddleControl).
  - apply runtime_id_repeat. reflexivity.
  - split; [reflexivity|discriminate].
Defined.

(** * The theorems *)

(** Data frames with a one-byte session and generation and a runtime of 32
bytes; others are refused. *)
#[export] Instance toy_wire : WireCrates := {
  stream_to_bytes := λ f,
    match f with
    | Data f p =>
        if bool_decide (length (fh_owner_runtime_id f) = 32) then
          Ok (fh_session_id f :: fh_generation f :: fh_owner_runtime_id f ++ p)
        else Err "not supported"
    | _ => Err "not supported"
    end;
  stream_from_bytes := λ b,
    match b with
    | id :: g :: rest => Ok (Data (mkFenced id g (take 32 rest)) (drop 32 rest))
    | _ => Err "truncated"
    end;
  datagram_to_bytes := λ _, Err "not supported";
  datagram_from_bytes := λ _, Err "not supported";
  closed_stream := "closed stream";
  finished_early := λ n, "finished early: " +:+ pretty n
}.

Lemma toy_wire_laws : WireLaws.
Proof.
  constructor. intros [|[id g o] p| |] b; simpl; try done. case_bool_decide as Ho; [|done].
  intros [= <-]. by rewrite <-Ho, take_app_length, drop_app_length.
Qed.

Definition fresh_send : SendHalf := mkSend [] false [] None.
Definition toy_frames : list MeshStreamFrame := [Data alice_frame [1%N]; Data alice_frame [2%N; 3%N]].

Lemma frames_arrive_in_order_witness :
  recv_frames 3 (mkRecv (written (send_frames toy_frames fresh_send).2) None) = (toy_frames, Ok None).
Proof.
  destruct (frames_arrive_in_order toy_wire_laws toy_frames fresh_send (send_frames toy_frames fresh_send).2
    (Ok tt) (length (written (send_frames toy_frames fresh_send).2)) 3 None) as (got & rr & H & _ & _ & Hfull).
  - reflexivity.
  - vm_compute. reflexivity.
  - unfold toy_frames. simpl. lia.
  - destruct (Hfull eq_refl (le_n _)) as [Hgot Hrr]. rewrite firstn_all in H. rewrite H, Hgot, (Hrr eq_refl).
    reflexivity.
Defined.

(** A cut inside the second frame. *)
Example cut_frame_is_an_error :
  recv_frames 3 (mkRecv (take 50 (written (send_frames toy_frames fresh_send).2)) None)
  = (take 1 toy_frames, Err (Transport "finished early: 6")).
Proof. vm_compute. reflexivity. Qed.

(** *** Bytes from Alice's peer while she holds the session *)

Definition read_at (now : N) (s : Store) : DirectoryRead := mkRead show calm None now s.
Definition outgoing : ReliableMeshStream :=
  stream_new alice_frame (mkStream fresh_send (mkRecv [] None)).
Definition hello_bytes : Bytes := [104; 101; 108; 108; 111]%N.
Definition sent : ReliableMeshStream := (send_bytes 1 hello_bytes outgoing).2.
Definition incoming : ReliableMeshStream :=
  new_inbound alice_frame (mkStream fresh_send (mkRecv (written (send (rs_stream sent))) None)).

Lemma outgoing_sent : send_bytes 1 hello_bytes outgoing = (Ok tt, sent).
Proof. vm_compute. reflexivity. Qed.

Lemma tunnel_delivers_bytes_witness :
  ∃ got, recv_all (λ _, read_at 1000 store1) 6 incoming = (got, Ok None) ∧ concat got = hello_bytes.
Proof.
  destruct (tunnel_delivers_bytes be_uuid_bytes_laws toy_wire_laws (λ _, read_at 1000 store1) 1 hello_bytes
    outgoing sent incoming (Ok tt) (length (written (send (rs_stream sent)))) 6 None)
    as (got & rr & H & _ & _ & _ & Hfull).
  - reflexivity.
  - reflexivity.
  - exact outgoing_sent.
  - reflexivity.
  - left. reflexivity.
  - rewrite firstn_all. reflexivity.
  - intros _. vm_compute. reflexivity.
  - unfold hello_bytes. simpl. lia.
  - destruct (Hfull eq_refl (le_n _)) as [Hgot Hrr]. exists got. rewrite H, (Hrr eq_refl). split; [reflexivity|exact Hgot].
Defined.

(** *** The takeover *)

Lemma bob_acquired :
  (acquire calm 40000 ttl30 1 2 bob ReliableStream store1).1 = Ok (Acquired (mkLease 1 2 bob 2 ReliableStream)).
Proof. vm_compute. reflexivity. Qed.

Example delivered_then_fenced :
  (recv_validated (read_at 1000 store1) incoming).1 = Ok (Some (FrameData hello_bytes))
  ∧ (recv_validated (read_at 41000 store2) incoming).1 = Err (Mesh (StaleGeneration 2 1 2)).
Proof. split; vm_compute; reflexivity. Qed.

Lemma fenced_streams_deliver_nothing_witness :
  match recv_validated (read_at 41000 store2) incoming with
  | (Ok (Some _), st') => rs_community_id st' ≠ Some 1%N
  | _ => True
  end.
Proof.
  apply (fenced_streams_deliver_nothing toy_redis_laws toy_text calm 0 0 40000 40000 ttl30
    (∅ : gmap string Entry) store1 store2 1 0 1 2 bob ReliableStream (mkLease 1 2 bob 2 ReliableStream)
    (read_at 41000 store2) incoming toy_empty run_store1).
  - discriminate.
  - reflexivity.
  - reflexivity.
  - apply runtime_id_repeat. reflexivity.
  - exact bob_acquired.
  - constructor.
  - reflexivity.
  - reflexivity.
  - discriminate.
  - reflexivity.
  - reflexivity.
Defined.

(** *** Joins *)

Definition no_transport (to : RuntimeId) (_ : StreamHello) : result MeshStream MeshError := Err (PeerNotConnected to).

Lemma join_routes_to_owner_witness :
  ∃ ses', join_outcome 0 no_transport alice 1 2 no_session ses'
    (join calm 0 ttl30 no_transport alice 1 2 (∅ : gmap string Entry)).1.
Proof.
  destruct (join_routes_to_owner toy_redis_laws toy_text calm 0 ttl30 no_transport alice 1 2
    (∅ : gmap string Entry) no_session) as (ses' & _ & H & _).
  - reflexivity.
  - reflexivity.
  - apply runtime_id_repeat. reflexivity.
  - apply (tracks_no_sessions 0 _ toy_empty 1%N 2%N); reflexivity.
  - reflexivity.
  - exists ses'. exact H.
Defined.

Lemma join_alice :
  (join calm 0 ttl30 no_transport alice 1 2 (∅ : gmap string Entry)).1
  = Ok (Owned (mkLease 1 2 alice 1 ReliableStream)).
Proof. vm_compute. reflexivity. Qed.

Definition after_alice : Store := (join calm 0 ttl30 no_transport alice 1 2 (∅ : gmap string Entry)).2.

Lemma join_bob :
  (join calm 40000 ttl30 no_transport bob 1 2 after_alice).1
  = Ok (Owned (mkLease 1 2 bob 2 ReliableStream)).
Proof. vm_compute. reflexivity. Qed.

Lemma owners_have_their_generation_witness : (1 <= 2)%N ∧ (1%N = 2%N → alice = bob).
Proof.
  apply (owners_have_their_generation toy_redis_laws toy_text calm calm 0 0 0 0 40000 ttl30 ttl30
    (∅ : gmap string Entry) (∅ : gmap string Entry)
    after_alice 0 0 no_transport no_transport
    alice bob 1 2 (mkLease 1 2 alice 1 ReliableStream) (mkLease 1 2 bob 2 ReliableStream) toy_empty).
  - constructor.
  - discriminate.
  - reflexivity.
  - reflexivity.
  - apply runtime_id_repeat. reflexivity.
  - apply runtime_id_repeat. reflexivity.
  - exact join_alice.
  - constructor.
  - discriminate.
  - exact join_bob.
  - reflexivity.
Defined.

(** *** Alice renews at 10 s while Bob tries to acquire *)

Definition alice_lease : SessionLease := mkLease 1 2 alice 1 ReliableStream.
Definition tunnel0 : Tunnel := tunnel_new alice_lease 30000 0 store1.
Definition bob_tries : TunnelEvent := EvOther (DAcquire calm ttl30 1 2 bob ReliableStream) 5000.
Definition tunnel1 : Tunnel := tunnel_step ttl30 30000 bob_tries tunnel0.
Definition tunnel2 : Tunnel := tunnel_step ttl30 30000 (EvTick calm 10000) tunnel1.

Lemma alice_acquired : acquire calm 0 ttl30 1 2 alice ReliableStream (∅ : gmap string Entry) = (Ok (Acquired alice_lease), store1).
Proof. vm_compute. reflexivity. Qed.

Lemma alice_different : bob ≠ alice.
Proof. intros H. discriminate H. Qed.

Lemma tunnel_runs : tunnel_run alice_lease ttl30 30000 tunnel0 2 tunnel2.
Proof.
  apply (tunnel_event alice_lease ttl30 30000 tunnel0 1 tunnel1 (EvTick calm 10000)); [|discriminate|done].
  apply (tunnel_event alice_lease ttl30 30000 tunnel0 0 tunnel0 bob_tries); [constructor|discriminate|].
  split; [split_and!; [done|done|by apply runtime_id_repeat]|]. right. exact alice_different.
Qed.

Lemma renewer_keeps_lease_or_reports_witness :
  validate_fenced_header show calm None 39999 1 alice_frame (tn_store tunnel2) = Ok tt.
Proof.
  destruct (renewer_keeps_lease_or_reports toy_redis_laws toy_text calm alice_lease ttl30 30000 0 0 0
    (∅ : gmap string Entry) (∅ : gmap string Entry) store1 0 2 tunnel2 toy_empty) as (_ & H & _).
  - constructor.
  - discriminate.
  - reflexivity.
  - reflexivity.
  - apply runtime_id_repeat. reflexivity.
  - reflexivity.
  - exact alice_acquired.
  - exact tunnel_runs.
  - reflexivity.
  - apply H; [vm_compute; reflexivity|split; vm_compute; [discriminate|reflexivity]|reflexivity].
Defined.
