(* ===== verification/Conformance.v ===== *)
(** * Conformance: the trace replay checker

Models [buzz-conformance/src]: the trace schema ([lib.rs]), one step of the
transition relation ([transitions.rs]) and the replay of a scenario
([checker.rs]).  The messages of the errors are built as the code builds them;
how a UUID and a string print under [{:?}] is the interface [TraceText]. *)
From stdpp Require Import pretty.
From S2P Require Import Prelude Text Nostr Gossip.

Class TraceText : Type := {
  debug_uuid : Uuid → string;
  debug_str : string → string
}.

(** ** The schema ([lib.rs]) *)

Definition SCHEMA_VERSION : N := 1.

Record CommunityLabel : Type := mkCommunity { community_uuid : Uuid }.
Record OpaqueId : Type := mkOpaque { opaque_text : string }.
Record HostLabel : Type := mkHost { host_text : string }.
Record ChannelLabel : Type := mkChannel { channel_uuid : Uuid }.
Record ActorLabel : Type := mkActor { actor_text : string }.

#[export] Instance CommunityLabel_eq_dec : EqDecision CommunityLabel.
Proof. solve_decision. Defined.
#[export] Instance HostLabel_eq_dec : EqDecision HostLabel.
Proof. solve_decision. Defined.
#[export] Instance ActorLabel_eq_dec : EqDecision ActorLabel.
Proof. solve_decision. Defined.

Inductive Verdict : Type := Allow | Deny.
Inductive SanitizedReason : Type := Restricted | Invalid | ServerError.

Record AbstractState : Type := mkState {
  resolved_community : CommunityLabel;
  bound_host : HostLabel;
  actor : ActorLabel
}.

Inductive TraceAction : Type :=
| WriteInsert (msg_id : OpaqueId) (channel : ChannelLabel) (claimed : option CommunityLabel)
| WriteInsertGlobal (msg_id : OpaqueId) (claimed : option CommunityLabel)
| WriteDuplicate (msg_id : OpaqueId) (channel : ChannelLabel) (claimed : option CommunityLabel)
| SanitizedError (reason : SanitizedReason)
| AuthCheck (channel : ChannelLabel) (claimed : option CommunityLabel) (verdict : Verdict)
| ReadMessageRows (channel : option ChannelLabel) (row_communities : list CommunityLabel)
| ReadByIdRows (channel : option ChannelLabel) (row_communities : list CommunityLabel)
| ReadHostFeedRows (row_communities : list CommunityLabel)
| ImplBug (kind : string).

Definition kind (a : TraceAction) : string :=
  match a with
  | WriteInsert _ _ _ => "write_insert"
  | WriteInsertGlobal _ _ => "write_insert_global"
  | WriteDuplicate _ _ _ => "write_duplicate"
  | SanitizedError _ => "sanitized_error"
  | AuthCheck _ _ _ => "auth_check"
  | ReadMessageRows _ _ => "read_message_rows"
  | ReadByIdRows _ _ => "read_by_id_rows"
  | ReadHostFeedRows _ => "read_host_feed_rows"
  | ImplBug _ => "impl_bug"
  end.

Definition is_critical (_ : TraceAction) : bool := true.

Record TraceStep : Type := mkStep {
  schema_version : N;
  action : TraceAction;
  state_after : AbstractState
}.

Definition step_new (a : TraceAction) (s : AbstractState) : TraceStep := mkStep SCHEMA_VERSION a s.

(** ** One step ([transitions.rs]) *)

Inductive TransitionError : Type :=
| IllegalTransition (step_index : nat) (detail : string)
| StateMismatch (step_index : nat) (detail : string)
| NonInterference (step_index : nat) (detail : string)
| CoverageBreach (detail : string).

Record ModelState : Type := mkModel {
  m_resolved_community : CommunityLabel;
  m_bound_host : HostLabel;
  m_actor : ActorLabel
}.

Definition bootstrap (first : AbstractState) : ModelState :=
  mkModel (resolved_community first) (bound_host first) (actor first).

Section checker.
Context {TT : TraceText}.

Definition debug_community (c : CommunityLabel) : string := "CommunityLabel(" +:+ debug_uuid (community_uuid c) +:+ ")".
Definition debug_host (h : HostLabel) : string := "HostLabel(" +:+ debug_str (host_text h) +:+ ")".
Definition debug_actor (a : ActorLabel) : string := "ActorLabel(" +:+ debug_str (actor_text a) +:+ ")".

Definition changed (field old new : string) : string :=
  field +:+ " changed mid-request: bootstrap=" +:+ old +:+ ", step=" +:+ new.

Definition check_row_labels (step_index : nat) (model : ModelState) (row_communities : list CommunityLabel)
    : result unit TransitionError :=
  match List.find (λ c, bool_decide (c ≠ m_resolved_community model)) row_communities with
  | Some foreign =>
      Err (NonInterference step_index
        ("row labeled " +:+ debug_community foreign +:+ " returned in observation scoped to "
         +:+ debug_community (m_resolved_community model)
         +:+ " — Inv_NonInterference breach (foreign row leaked through tenant fence)"))
  | None => Ok tt
  end.

Definition check_step (step_index : nat) (model : ModelState) (step : TraceStep) : result unit TransitionError :=
  if bool_decide (resolved_community (state_after step) ≠ m_resolved_community model) then
    Err (StateMismatch step_index (changed "resolved_community"
      (debug_community (m_resolved_community model)) (debug_community (resolved_community (state_after step)))))
  else if bool_decide (bound_host (state_after step) ≠ m_bound_host model) then
    Err (StateMismatch step_index (changed "bound_host"
      (debug_host (m_bound_host model)) (debug_host (bound_host (state_after step)))))
  else if bool_decide (actor (state_after step) ≠ m_actor model) then
    Err (StateMismatch step_index (changed "actor"
      (debug_actor (m_actor model)) (debug_actor (actor (state_after step)))))
  else
  match action step with
  | WriteInsert _ _ _ => Ok tt
  | WriteInsertGlobal _ _ => Ok tt
  | WriteDuplicate _ _ _ => Ok tt
  | SanitizedError reason =>
      match reason with
      | Restricted | Invalid | ServerError => Ok tt
      end
  | AuthCheck _ claimed_community verdict =>
      match verdict, claimed_community with
      | Allow, Some c =>
          if bool_decide (c ≠ m_resolved_community model) then
            Err (IllegalTransition step_index
              ("AuthCheck verdict=Allow with claimed_community=" +:+ debug_community c +:+ " != resolved="
               +:+ debug_community (m_resolved_community model)
               +:+ " — M2/M8 (claim or host driving verdict) bite"))
          else Ok tt
      | _, _ => Ok tt
      end
  | ReadMessageRows _ rows => check_row_labels step_index model rows
  | ReadByIdRows _ rows => check_row_labels step_index model rows
  | ReadHostFeedRows rows => check_row_labels step_index model rows
  | ImplBug k => Err (CoverageBreach ("ImplBug action emitted by Drop guard: kind=" +:+ debug_str k))
  end.

Definition action_channel (a : TraceAction) : option ChannelLabel :=
  match a with
  | WriteInsert _ channel _ => Some channel
  | WriteDuplicate _ channel _ => Some channel
  | AuthCheck channel _ _ => Some channel
  | ReadMessageRows channel _ => channel
  | ReadByIdRows channel _ => channel
  | WriteInsertGlobal _ _ | ReadHostFeedRows _ | SanitizedError _ | ImplBug _ => None
  end.

(** ** Replay ([checker.rs]) *)

Record Scenario : Type := mkScenario {
  trace : list TraceStep;
  required_critical_actions : gset string
}.

Definition unstructured (t : list TraceStep) : Scenario := mkScenario t ∅.

Definition require (k : string) (sc : Scenario) : Scenario :=
  mkScenario (trace sc) ({[k]} ∪ required_critical_actions sc).

Definition wrong_version (step_index : nat) (step : TraceStep) : TransitionError :=
  IllegalTransition step_index ("trace schema_version=" +:+ pretty (schema_version step)
    +:+ " but checker schema_version=" +:+ pretty SCHEMA_VERSION).

(** The loop over the steps, from index [i]. *)
Fixpoint check_steps (i : nat) (model : ModelState) (steps : list TraceStep) : result unit TransitionError :=
  match steps with
  | [] => Ok tt
  | step :: steps' =>
      if bool_decide (schema_version step ≠ SCHEMA_VERSION) then Err (wrong_version i step)
      else
      let? _ := check_step i model step in
      check_steps (S i) model steps'
  end.

(** [{:?}] of a [Vec<&str>]. *)
Fixpoint debug_list (l : list string) : string :=
  match l with
  | [] => ""
  | [s] => debug_str s
  | s :: l' => debug_str s +:+ ", " +:+ debug_list l'
  end.

Definition check_trace (sc : Scenario) : result unit TransitionError :=
  match trace sc with
  | [] => Err (CoverageBreach "trace is empty — seam reached without emitting any action; this is the no-trace coverage breach")
  | first :: _ =>
      if bool_decide (schema_version first ≠ SCHEMA_VERSION) then Err (wrong_version 0 first)
      else
      let model := bootstrap (state_after first) in
      let? _ := check_steps 0 model (trace sc) in
      let seen : gset string := list_to_set (map (λ step, kind (action step)) (trace sc)) in
      let missing := required_critical_actions sc ∖ seen in
      if bool_decide (missing ≠ ∅) then
        Err (CoverageBreach ("scenario required actions never emitted: ["
          +:+ debug_list (sort_by_string (λ s, s) (elements missing)) +:+ "]"))
      else Ok tt
  end.

(** ** What a conforming trace is *)

Definition state_agrees (model : ModelState) (step : TraceStep) : Prop :=
  resolved_community (state_after step) = m_resolved_community model
  ∧ bound_host (state_after step) = m_bound_host model
  ∧ actor (state_after step) = m_actor model.

(** The rows an action returned, and the community an allowed check claimed. *)
Definition row_labels (a : TraceAction) : list CommunityLabel :=
  match a with
  | ReadMessageRows _ rows | ReadByIdRows _ rows | ReadHostFeedRows rows => rows
  | AuthCheck _ (Some c) Allow => [c]
  | _ => []
  end.

Definition is_impl_bug (a : TraceAction) : bool :=
  match a with ImplBug _ => true | _ => false end.

(** A step within one request: the same schema, tenant, host and actor, every
label the resolved community, and a recognized action. *)
Definition step_conforms (model : ModelState) (step : TraceStep) : Prop :=
  schema_version step = SCHEMA_VERSION ∧ state_agrees model step
  ∧ Forall (λ c, c = m_resolved_community model) (row_labels (action step))
  ∧ is_impl_bug (action step) = false.

Definition conforms (sc : Scenario) : Prop :=
  ∃ first steps, trace sc = first :: steps
    ∧ Forall (step_conforms (bootstrap (state_after first))) (trace sc)
    ∧ ∀ k, k ∈ required_critical_actions sc → ∃ step, step ∈ trace sc ∧ kind (action step) = k.

Lemma check_row_labels_Ok i model rows :
  check_row_labels i model rows = Ok tt ↔ Forall (λ c, c = m_resolved_community model) rows.
Proof.
  unfold check_row_labels. induction rows as [|c rows IH]; simpl; [by split; [constructor|]|].
  rewrite Forall_cons. case_bool_decide as Hc.
  - split; [done|]. by intros [? _].
  - rewrite IH. split; [by intros ?; split|by intros [_ ?]].
Qed.

Lemma check_step_Ok i model step :
  check_step i model step = Ok tt ↔
  state_agrees model step ∧ Forall (λ c, c = m_resolved_community model) (row_labels (action step))
  ∧ is_impl_bug (action step) = false.
Proof.
  unfold check_step, state_agrees.
  case_bool_decide as H1; [split; [done|]; by intros [(? & _) _]|].
  case_bool_decide as H2; [split; [done|]; by intros [(_ & ? & _) _]|].
  case_bool_decide as H3; [split; [done|]; by intros [(_ & _ & ?) _]|].
  assert (∀ P : Prop, ((resolved_community (state_after step) = m_resolved_community model
     ∧ bound_host (state_after step) = m_bound_host model
     ∧ actor (state_after step) = m_actor model) ∧ P) ↔ P) as Hdrop by naive_solver.
  rewrite Hdrop.
  destruct (action step) as [| | |[]|ch [cl|] []| | | |k]; simpl;
    try (by split; [repeat constructor|]); try (rewrite check_row_labels_Ok; naive_solver).
  - case_bool_decide as Hc.
    + split; [done|]. intros [Hall _]. rewrite Forall_singleton in Hall. congruence.
    + split; [|done]. intros _. split; [|done]. by apply Forall_singleton.
  - split; [done|]. by intros [_ ?].
Qed.

Lemma check_steps_Ok i model steps :
  check_steps i model steps = Ok tt ↔ Forall (step_conforms model) steps.
Proof.
  revert i. induction steps as [|step steps IH]; intros i; cbn [check_steps]; [by split; [constructor|]|].
  rewrite Forall_cons. unfold step_conforms at 1. case_bool_decide as Hv.
  { split; [done|]. by intros [[? _] _]. }
  rewrite result_bind_Ok. split.
  - intros ([] & Hs%check_step_Ok & Hrest%IH). done.
  - intros [[_ Hs] Hrest]. exists tt. split; [by apply check_step_Ok|by apply IH].
Qed.
End checker.

Lemma check_trace_iff {TT : TraceText} (sc : Scenario) : check_trace sc = Ok tt ↔ conforms sc.
Proof.
  unfold check_trace, conforms. destruct (trace sc) as [|first steps] eqn:Ht.
  { split; [done|]. by intros (? & ? & ? & _). }
  case_bool_decide as Hv.
  { split; [done|]. intros (f & l & [= <- <-] & [[Hf _] _]%Forall_cons & _). done. }
  rewrite result_bind_Ok. split.
  - intros ([] & Hs%check_steps_Ok & H). exists first, steps. split_and!; [done..|].
    case_bool_decide as Hm; [done|]. intros k Hk.
    destruct (decide (k ∈ (list_to_set (map (λ step, kind (action step)) (first :: steps)) : gset string)))
      as [Hin|Hout]; [|set_solver].
    apply elem_of_list_to_set, list_elem_of_fmap in Hin as (step & -> & Hstep). by exists step.
  - intros (f & l & [= <- <-] & Hall & Hreq). exists tt. split; [by apply check_steps_Ok|].
    rewrite bool_decide_false; [done|]. intros Hne. apply Hne. apply set_eq. intros k.
    rewrite elem_of_difference. split; [|set_solver]. intros [Hk Hout]. exfalso. apply Hout.
    apply elem_of_list_to_set, list_elem_of_fmap. destruct (Hreq k Hk) as (step & Hstep & <-). by exists step.
Qed.

(** The checker accepts exactly the conforming traces: a non-empty trace of
the current schema in which every step has the tenant, host and actor of the
first one, every returned row and every community claimed by an allowed check
is the resolved one, no step is the coverage guard's [ImplBug], and every
action the scenario requires was emitted. *)
Theorem check_trace_correct {TT : TraceText} (sc : Scenario) : check_trace sc = Ok tt ↔ conforms sc.
Proof. apply check_trace_iff. Qed.

(** The step an error points at; a coverage breach carries none. *)
Definition error_index (e : TransitionError) : option nat :=
  match e with
  | IllegalTransition i _ | StateMismatch i _ | NonInterference i _ => Some i
  | CoverageBreach _ => None
  end.

Lemma check_step_Err {TT : TraceText} i model step e :
  check_step i model step = Err e →
  error_index e = (if is_impl_bug (action step) && bool_decide (state_agrees model step) then None else Some i).
Proof.
  unfold check_step, state_agrees, check_row_labels.
  case_bool_decide as H1; [|case_bool_decide as H2; [|case_bool_decide as H3]]; intros H.
  1-3: injection H as <-; rewrite bool_decide_false, andb_false_r by naive_solver; done.
  rewrite bool_decide_true by done. rewrite andb_true_r.
  destruct (action step) as [| | |[]|ch [cl|] []| | | |k]; simpl in *; repeat case_match; by simplify_eq.
Qed.

(** The first violation decides.  When the steps before index [i] conform to
the request the first step opened and step [i] does not, the checker fails
with an error that points at step [i], or with a coverage breach when the step
is an [ImplBug] emitted from the right context; nothing later, and no missing
action, can hide it. *)
Theorem first_violation_decides {TT : TraceText} (sc : Scenario) (first : TraceStep) (i : nat) (step : TraceStep) :
  head (trace sc) = Some first → trace sc !! i = Some step →
  Forall (step_conforms (bootstrap (state_after first))) (take i (trace sc)) →
  ¬ step_conforms (bootstrap (state_after first)) step →
  ∃ e, check_trace sc = Err e
    ∧ error_index e = (if bool_decide (schema_version step = SCHEMA_VERSION) && is_impl_bug (action step)
                          && bool_decide (state_agrees (bootstrap (state_after first)) step)
                       then None else Some i).
Proof.
  unfold check_trace. destruct (trace sc) as [|f steps]; [done|]. intros [= ->] Hi Hpre Hbad.
  set (model := bootstrap (state_after first)) in *.
  assert (∀ j l, l !! i = Some step → Forall (step_conforms model) (take i l) →
    ∃ e, check_steps j model l = Err e
      ∧ error_index e = (if bool_decide (schema_version step = SCHEMA_VERSION) && is_impl_bug (action step)
          && bool_decide (state_agrees model step) then None else Some (j + i))) as Hloop.
  { clear Hi Hpre. induction i as [|i IH]; intros j l Hl Hpre; destruct l as [|x l]; try done; cbn [check_steps].
    - injection Hl as ->. rewrite Nat.add_0_r. case_bool_decide as Hv.
      { eexists. split; [done|]. rewrite bool_decide_false; [done|]. done. }
      rewrite (bool_decide_true (_ = SCHEMA_VERSION)) by done. simpl andb.
      destruct (check_step j model step) as [[]|e] eqn:Hs.
      + exfalso. apply Hbad. apply check_step_Ok in Hs. by split.
      + exists e. split; [done|]. by apply check_step_Err.
    - cbn [take] in Hpre. apply Forall_cons in Hpre as [[Hv Hx] Hpre].
      rewrite bool_decide_false by auto. rewrite (proj2 (check_step_Ok j model x) Hx). cbn [result_bind].
      destruct (IH (S j) l Hl Hpre) as (e & He & Hidx). exists e. split; [done|].
      by rewrite <-Nat.add_succ_comm. }
  destruct (Hloop 0 (first :: steps) Hi Hpre) as (e & He & Hidx). simpl in Hidx.
  destruct (decide (schema_version first = SCHEMA_VERSION)) as [Hv|Hv].
  - rewrite (bool_decide_false (schema_version first ≠ SCHEMA_VERSION)) by auto.
    rewrite He. cbn [result_bind]. by exists e.
  - rewrite (bool_decide_true (schema_version first ≠ SCHEMA_VERSION)) by done.
    assert (i = 0) as ->.
    { destruct i; [done|]. cbn [take] in Hpre. by apply Forall_cons in Hpre as [[Hf _] _]. }
    injection Hi as <-. eexists. split; [done|]. by rewrite bool_decide_false.
Qed.

(** ** Concrete traces *)

Definition demo_text : TraceText := {| debug_uuid := λ u, pretty u; debug_str := λ s, s |}.
Definition demo_state : AbstractState := mkState (mkCommunity 7) (mkHost "h") (mkActor "a").
Definition demo_read (c : Uuid) : TraceStep := step_new (ReadByIdRows None [mkCommunity 7; mkCommunity c]) demo_state.
Definition demo_scenario (c : Uuid) : Scenario :=
  require "read_by_id_rows" (unstructured [step_new (SanitizedError Invalid) demo_state; demo_read c]).

Example own_rows_accepted : check_trace (TT := demo_text) (demo_scenario 7) = Ok tt.
Proof. vm_compute. reflexivity. Qed.

Lemma first_violation_decides_witness :
  ∃ e, check_trace (TT := demo_text) (demo_scenario 8) = Err e ∧ error_index e = Some 1.
Proof.
  apply (first_violation_decides (TT := demo_text) (demo_scenario 8) (step_new (SanitizedError Invalid) demo_state)
    1 (demo_read 8)); [reflexivity|reflexivity| |].
  - repeat constructor.
  - intros (_ & _ & H & _). inversion H as [|? ? _ H']; subst. inversion H' as [|? ? H'' _]; subst.
    discriminate H''.
Defined.
