(* ===== verification/Permission.v ===== *)
(** * Permission: one-shot tool permissions decided by the owner

Models [buzz-acp/src/permission.rs]: the broker that keeps the live decision
capabilities and the sanitizing of what the owner is shown.

The broker is shared between the tasks that wait for a decision and the relay
loop that brings decisions in, so a call is cut where another can come in
between: [request] is its start up to the await ([request_begin]), the polls of
the await ([request_poll]) and the clean-up of its guard ([request_finish], or
[request_drop] when the task is dropped); [resolve_control] is the part under
the lock ([resolve_take]) and the send ([resolve_send]).  A oneshot channel is
its receiver's task: empty, holding a decision, or without a sender.  Readings
of the clock and fresh request ids are arguments.

Parsing a control payload and printing JSON are [serde]'s, the interface
[PermissionCrates].  Strings are their UTF-8 bytes; a test of a [char] is
written on the bytes that start it. *)
From S2P Require Import Prelude Text Json.

(** ** Data *)

Definition PERMISSION_DECISION_TIMEOUT : N := 45000000000.
Definition MAX_PENDING_PERMISSION_REQUESTS : nat := 8.
Definition MAX_CONTEXT_DEPTH : nat := 4.
Definition MAX_CONTEXT_ITEMS : nat := 16.
Definition MAX_CONTEXT_STRING_BYTES : nat := 512.
Definition MAX_PERMISSION_CONTEXT_BYTES : nat := N.to_nat 4096.

Record PermissionRuntimeIdentity : Type := mkIdentity {
  ri_owner_pubkey : string;
  ri_agent_pubkey : string;
  ri_relay_url : string;
  ri_runtime_start_nonce : string
}.

Record PermissionBinding : Type := mkBinding {
  request_id : string;
  owner_pubkey : string;
  agent_pubkey : string;
  relay_url : string;
  runtime_start_nonce : string;
  agent_index : N;
  session_id : string;
  turn_id : string;
  channel_id : option string
}.

#[export] Instance PermissionBinding_eq_dec : EqDecision PermissionBinding.
Proof. solve_decision. Defined.

Inductive PermissionDecision : Type := Approve | Deny.

Record PermissionDecisionControl : Type := mkControl {
  control_type : string;
  control_binding : PermissionBinding;
  control_decision : PermissionDecision
}.

Inductive PermissionOutcome : Type := Approved | Denied | TimedOut | Unavailable.

(** An entry of the registry; its sender is the one of its request. *)
Record PendingPermission : Type := mkPending {
  pending_binding : PermissionBinding;
  expires_at : N
}.

(** [ObserverContext], as far as a request reads it. *)
Record ObserverContext : Type := mkContext {
  ctx_channel_id : option string;
  ctx_session_id : option string;
  ctx_turn_id : option string
}.

Section permission.
Context {JC : JsonCrate}.

Record SafePermissionDetails : Type := mkDetails {
  tool_name : string;
  action : string;
  context : Value
}.

Inductive ObserverEvent : Type :=
| PermissionRequest (binding : PermissionBinding) (details : SafePermissionDetails)
| PermissionResult (binding : PermissionBinding) (status : string).

(** The channel of a waiting task. *)
Inductive Decision : Type :=
| NoDecision
| Decided (d : PermissionDecision)
| SenderDropped.

Inductive TaskState : Type :=
| Awaiting (channel : Decision)
| Finishing (outcome : PermissionOutcome).

(** A task inside [request], with its guard. *)
Record Task : Type := mkTask {
  task_binding : PermissionBinding;
  task_deadline : N;                  (* of its [timeout] *)
  task_state : TaskState
}.

Record PermissionBroker : Type := mkBroker {
  identity : PermissionRuntimeIdentity;
  timeout : N;
  max_pending : nat;
  by_request_id : gmap string PendingPermission;
  poisoned : bool;                    (* the mutex *)
  tasks : gmap string Task;
  emitted : list ObserverEvent
}.

Definition broker_with_limits (identity : PermissionRuntimeIdentity) (timeout : N) (max_pending : nat)
    : PermissionBroker := mkBroker identity timeout max_pending ∅ false ∅ [].

Definition broker_new (identity : PermissionRuntimeIdentity) : PermissionBroker :=
  broker_with_limits identity PERMISSION_DECISION_TIMEOUT MAX_PENDING_PERMISSION_REQUESTS.

Definition with_pending (m : gmap string PendingPermission) (b : PermissionBroker) : PermissionBroker :=
  mkBroker (identity b) (timeout b) (max_pending b) m (poisoned b) (tasks b) (emitted b).
Definition with_tasks (ts : gmap string Task) (b : PermissionBroker) : PermissionBroker :=
  mkBroker (identity b) (timeout b) (max_pending b) (by_request_id b) (poisoned b) ts (emitted b).
Definition emit (e : ObserverEvent) (b : PermissionBroker) : PermissionBroker :=
  mkBroker (identity b) (timeout b) (max_pending b) (by_request_id b) (poisoned b) (tasks b) (emitted b ++ [e]).

(** ** Text *)

Definition starts_char (cs : list ascii) (s : string) : bool :=
  match s with
  | EmptyString => false
  | String c _ => existsb (Ascii.eqb c) cs
  end.

Definition quote : ascii := "034".

Definition ends_token (s : string) : bool := starts_whitespace s || starts_char [quote; "'"; ","; ")"; "]"]%char s.
Definition ends_value (s : string) : bool := starts_whitespace s || starts_char ["&"; quote; "'"; ","; ";"]%char s.

(** The loop of [redact_token_after_marker]; every round moves past a marker. *)
Fixpoint redact_loop (fuel : nat) (marker result remaining : string) : string :=
  match fuel, find_str marker remaining with
  | S fuel, Some index =>
      let start := index + String.length marker in
      let token_len := default (String.length remaining - start) (find_suffix ends_token (str_drop start remaining)) in
      redact_loop fuel marker (result +:+ str_take start remaining +:+ "[REDACTED]")
        (str_drop (start + token_len) remaining)
  | _, _ => result +:+ remaining
  end.

Definition redact_token_after_marker (value marker : string) : string :=
  redact_loop (String.length value) marker "" value.

(** The ranges one marker finds, from [from] on. *)
Fixpoint marker_ranges (fuel from : nat) (lower value marker : string) : list (nat * nat) :=
  match fuel with
  | 0 => []
  | S fuel =>
      match find_str marker (str_drop from lower) with
      | None => []
      | Some relative =>
          let start := from + relative + String.length marker in
          let stop := default (String.length value) ((λ offset, start + offset) <$> find_suffix ends_value (str_drop start value)) in
          let found := if start <? stop then [(start, stop)] else [] in
          let from := max stop start in
          if String.length value <=? from then found
          else found ++ marker_ranges fuel from lower value marker
      end
  end.

Definition ASSIGNMENT_MARKERS : list string :=
  ["password="; "token="; "secret="; "api_key="; "apikey="; "authorization: bearer "].

(** The order of a pair. *)
Definition range_le (r t : nat * nat) : Prop := r.1 < t.1 ∨ r.1 = t.1 ∧ r.2 <= t.2.
#[export] Instance range_le_dec : RelDecision range_le.
Proof. intros r t. unfold range_le. apply _. Defined.

Fixpoint replace_ranges (value result : string) (cursor : nat) (ranges : list (nat * nat)) : string :=
  match ranges with
  | [] => result +:+ str_drop cursor value
  | (start, stop) :: ranges =>
      if start <? cursor then replace_ranges value result cursor ranges
      else replace_ranges value (result +:+ str_take (start - cursor) (str_drop cursor value) +:+ "[REDACTED]") stop ranges
  end.

Definition redact_assignment_values (value : string) : string :=
  let lower := to_ascii_lowercase value in
  let ranges := concat (map (marker_ranges (S (String.length value)) 0 lower value) ASSIGNMENT_MARKERS) in
  replace_ranges value "" 0 (merge_sort range_le ranges).

(** [is_char_boundary], for an index inside the text. *)
Definition is_char_boundary (s : string) (i : nat) : bool :=
  match i, String.get i s with
  | 0, _ => true
  | _, Some c => negb (in_range 128 191 c)
  | _, None => true
  end.

Fixpoint floor_boundary (s : string) (i : nat) : nat :=
  if is_char_boundary s i then i else match i with 0 => 0 | S i => floor_boundary s i end.

(** The ellipsis U+2026. *)
Definition ellipsis : string := String "226" (String "128" (String "166" "")).

Definition truncate_utf8 (value : string) (max_bytes : nat) : string :=
  if String.length value <=? max_bytes then value
  else str_take (floor_boundary value max_bytes) value +:+ ellipsis.

Definition TOKEN_MARKERS : list string := ["nsec1"; "ghp_"; "gho_"; "github_pat_"; "glpat-"; "sk-"].

Definition redact_and_bound (value : string) (max_bytes : nat) : string :=
  let safe := foldl redact_token_after_marker value TOKEN_MARKERS in
  truncate_utf8 (redact_assignment_values safe) max_bytes.

Definition SENSITIVE : list string :=
  ["password"; "passwd"; "secret"; "token"; "apikey"; "privatekey"; "credential"; "authorization"; "cookie"; "nsec"].

Definition sensitive_key (key : string) : bool :=
  let lower := remove_chars ["_"; "-"; "."]%char (to_ascii_lowercase key) in
  existsb (λ needle, bool_decide (is_Some (find_str needle lower))) SENSITIVE.

(** ** The details shown *)

(** The loop over an object's members, each with its sanitized value. *)
Fixpoint sanitize_members (index : nat) (members : list (string * Value)) (safe : list (string * Value))
    : list (string * Value) :=
  match members with
  | [] => safe
  | (key, value) :: members =>
      if MAX_CONTEXT_ITEMS <=? index then btree_insert "more" (VString "[additional fields omitted]") safe
      else if sensitive_key key then
        sanitize_members (S index) members (btree_insert key (VString "[REDACTED]") safe)
      else sanitize_members (S index) members (btree_insert key value safe)
  end.

Fixpoint sanitize_context (value : Value) (depth : nat) : Value :=
  if MAX_CONTEXT_DEPTH <=? depth then VString "[nested details omitted]"
  else match value with
  | Object object =>
      Object (sanitize_members 0 (List.map (λ kv, (kv.1, sanitize_context kv.2 (S depth))) object) [])
  | Array values => Array (take MAX_CONTEXT_ITEMS (List.map (λ v, sanitize_context v (S depth)) values))
  | VString text => VString (redact_and_bound text MAX_CONTEXT_STRING_BYTES)
  | _ => value
  end.

Definition sanitize_observer_context (value : Value) : Value := sanitize_context value 0.

Fixpoint first_string (values : list (option Value)) : option string :=
  match values with
  | [] => None
  | Some (VString text) :: values => if is_blank text then first_string values else Some text
  | _ :: values => first_string values
  end.
End permission.

Class PermissionCrates {JC : JsonCrate} : Type := {
  control_from_value : Value → option PermissionDecisionControl;    (* [serde_json::from_value] *)
  json_len : Value → result nat JsonError                           (* length of [serde_json::to_vec] *)
}.

Section broker.
Context {JC : JsonCrate} {PC : PermissionCrates}.

Definition safe_permission_details (params : Value) : SafePermissionDetails :=
  let subject := default Null (value_get "subject" params) in
  let tool_call :=
    default Null match value_get "toolCall" subject with Some v => Some v | None => value_get "toolCall" params end in
  let raw_input := default Null (value_get "rawInput" tool_call) in
  let tool_name := default "Agent tool"
    (first_string [value_get "toolName" raw_input; value_get "tool_name" raw_input; value_get "name" raw_input;
                   value_get "kind" tool_call; value_get "type" subject]) in
  let action := default ("The agent requested permission to use " +:+ tool_name +:+ ".")
    (first_string [value_get "title" tool_call; value_get "title" params; value_get "message" params;
                   value_get "reason" params]) in
  let context := sanitize_context raw_input 0 in
  let context :=
    if match json_len context with Ok n => MAX_PERMISSION_CONTEXT_BYTES <? n | Err _ => true end
    then VString "Request details omitted because they were too large." else context in
  mkDetails (redact_and_bound tool_name 128) (redact_and_bound action 256) context.

(** ** The broker *)

Definition valid_pubkey (value : string) : bool :=
  (String.length value =? 64) && string_forall is_ascii_hexdigit value.

Definition permission_outcome_name (o : PermissionOutcome) : string :=
  match o with
  | Approved => "approved"
  | Denied => "denied"
  | TimedOut => "timed_out"
  | Unavailable => "unavailable"
  end.

(** [request] up to the await: the request's binding, or [Unavailable]
([None]).  [now] is read for [expires_at], [now'] when [timeout] starts. *)
Definition request_begin (observer : bool) (agent_index : option N) (ctx : ObserverContext) (params : Value)
    (id : string) (now now' : N) (b : PermissionBroker) : option PermissionBinding * PermissionBroker :=
  match observer, agent_index, ctx_session_id ctx, ctx_turn_id ctx with
  | true, Some agent_index, Some session_id, Some turn_id =>
      let i := identity b in
      if negb (valid_pubkey (ri_owner_pubkey i)) || negb (valid_pubkey (ri_agent_pubkey i))
         || String.eqb (ri_relay_url i) "" || String.eqb (ri_runtime_start_nonce i) ""
      then (None, b)
      else
      let binding := mkBinding id (ri_owner_pubkey i) (ri_agent_pubkey i) (ri_relay_url i)
        (ri_runtime_start_nonce i) agent_index session_id turn_id (ctx_channel_id ctx) in
      if poisoned b then (None, b)
      else if max_pending b <=? size (by_request_id b) then (None, b)
      else
      let b := with_pending (<[id := mkPending binding (now + timeout b)%N]> (by_request_id b)) b in
      let b := with_tasks (<[id := mkTask binding (now' + timeout b)%N (Awaiting NoDecision)]> (tasks b)) b in
      (Some binding, emit (PermissionRequest binding (safe_permission_details params)) b)
  | _, _, _, _ => (None, b)
  end.

(** One poll of [timeout(self.timeout, decision_rx)]: the receiver first, then
the deadline. *)
Definition poll_outcome (now deadline : N) (c : Decision) : option PermissionOutcome :=
  match c with
  | Decided Approve => Some Approved
  | Decided Deny => Some Denied
  | SenderDropped => Some Denied
  | NoDecision => if (deadline <=? now)%N then Some TimedOut else None
  end.

Definition request_poll (id : string) (now : N) (b : PermissionBroker) : option PermissionOutcome * PermissionBroker :=
  match tasks b !! id with
  | Some (mkTask binding deadline (Awaiting c)) =>
      match poll_outcome now deadline c with
      | Some o => (Some o, with_tasks (<[id := mkTask binding deadline (Finishing o)]> (tasks b)) b)
      | None => (None, b)
      end
  | _ => (None, b)
  end.

(** [remove]. *)
Definition broker_remove (id : string) (b : PermissionBroker) : PermissionBroker :=
  if poisoned b then b else with_pending (delete id (by_request_id b)) b.

(** The guard: [finish], then [drop] of a finished guard. *)
Definition request_finish (id : string) (b : PermissionBroker) : PermissionBroker :=
  match tasks b !! id with
  | Some (mkTask binding _ (Finishing o)) =>
      let b := emit (PermissionResult binding (permission_outcome_name o)) (broker_remove id b) in
      broker_remove id (with_tasks (delete id (tasks b)) b)
  | _ => b
  end.

(** The task is dropped while it waits. *)
Definition request_drop (id : string) (b : PermissionBroker) : PermissionBroker :=
  match tasks b !! id with
  | Some (mkTask binding _ (Awaiting _)) =>
      let b := broker_remove id (with_tasks (delete id (tasks b)) b) in
      emit (PermissionResult binding "cancelled") b
  | _ => b
  end.

(** The sender of an entry is dropped with it. *)
Definition drop_sender (id : string) (b : PermissionBroker) : PermissionBroker :=
  match tasks b !! id with
  | Some (mkTask binding deadline (Awaiting NoDecision)) =>
      with_tasks (<[id := mkTask binding deadline (Awaiting SenderDropped)]> (tasks b)) b
  | _ => b
  end.

(** [resolve_control] under the lock: the entry taken and the decision. *)
Definition resolve_take (payload : Value) (now : N) (b : PermissionBroker)
    : result (string * PermissionDecision) string * PermissionBroker :=
  match control_from_value payload with
  | None => (Err "invalid permission decision", b)
  | Some control =>
      if negb (String.eqb (control_type control) "resolve_permission") then (Err "unsupported permission control", b)
      else if poisoned b then (Err "permission registry unavailable", b)
      else
      let id := request_id (control_binding control) in
      match by_request_id b !! id with
      | None => (Err "permission request is no longer pending", b)
      | Some entry =>
          if (expires_at entry <=? now)%N then
            (Err "permission request expired", drop_sender id (with_pending (delete id (by_request_id b)) b))
          else if bool_decide (pending_binding entry ≠ control_binding control) then
            (Err "permission request binding does not match", b)
          else (Ok (id, control_decision control), with_pending (delete id (by_request_id b)) b)
      end
  end.

(** [decision_tx.send]: fails when the receiver is gone. *)
Definition resolve_send (id : string) (d : PermissionDecision) (b : PermissionBroker)
    : result unit string * PermissionBroker :=
  match tasks b !! id with
  | Some (mkTask binding deadline (Awaiting _)) =>
      (Ok tt, with_tasks (<[id := mkTask binding deadline (Awaiting (Decided d))]> (tasks b)) b)
  | _ => (Err "permission request is no longer awaiting a decision", b)
  end.

Definition resolve_control (payload : Value) (now : N) (b : PermissionBroker)
    : result unit string * PermissionBroker :=
  match resolve_take payload now b with
  | (Err e, b) => (Err e, b)
  | (Ok (id, d), b) => resolve_send id d b
  end.
End broker.
