(* ===== verification/PermissionProps.v ===== *)
(** * PermissionProps: approvals come from the owner, once, in time

The broker's calls interleaved in any order, with a log of what was asked,
which decisions were accepted and how requests ended; then what the details shown to
the owner can reveal. *)
From stdpp Require Import pretty.
From S2P Require Import Prelude Text Json Permission.

(** ** The broker and its callers *)

Section system.
Context {JC : JsonCrate} {PC : PermissionCrates}.

Inductive Entry : Type :=
| Asked (binding : PermissionBinding) (expires : N)
| Accepted (control : PermissionDecisionControl) (now : N)
| Ended (binding : PermissionBinding) (outcome : PermissionOutcome).

(** The broker, the decisions between the lock and the send, the ids drawn so
far, and the log. *)
Record System : Type := mkSystem {
  broker : PermissionBroker;
  flight : list (string * PermissionDecision);
  used : gset string;
  log : list Entry
}.

Definition asked (r : option PermissionBinding) (expires : N) : list Entry :=
  match r with Some b => [Asked b expires] | None => [] end.

Definition accepted (payload : Value) (now : N) (r : result (string * PermissionDecision) string) : list Entry :=
  match r, control_from_value payload with
  | Ok _, Some c => [Accepted c now]
  | _, _ => []
  end.

Definition ended (t : option Task) : list Entry :=
  match t with
  | Some (mkTask b _ (Finishing o)) => [Ended b o]
  | _ => []
  end.

Inductive step (s : System) : System → Prop :=
| step_begin observer idx ctx params id now now' r b' :
    id ∉ used s → request_begin observer idx ctx params id now now' (broker s) = (r, b') →
    step s (mkSystem b' (flight s) ({[id]} ∪ used s) (log s ++ asked r (now + timeout (broker s))%N))
| step_take payload now r b' :
    resolve_take payload now (broker s) = (r, b') →
    step s (mkSystem b' (match r with Ok x => x :: flight s | Err _ => flight s end) (used s)
              (log s ++ accepted payload now r))
| step_send l1 id d l2 r b' :
    flight s = l1 ++ (id, d) :: l2 → resolve_send id d (broker s) = (r, b') →
    step s (mkSystem b' (l1 ++ l2) (used s) (log s))
| step_poll id now r b' :
    request_poll id now (broker s) = (r, b') → step s (mkSystem b' (flight s) (used s) (log s))
| step_finish id :
    step s (mkSystem (request_finish id (broker s)) (flight s) (used s) (log s ++ ended (tasks (broker s) !! id)))
| step_drop id :
    step s (mkSystem (request_drop id (broker s)) (flight s) (used s) (log s)).

Definition started (b : PermissionBroker) : System := mkSystem b [] ∅ [].

Inductive reachable (identity : PermissionRuntimeIdentity) (timeout : N) (max_pending : nat) : System → Prop :=
| reach_start : reachable identity timeout max_pending (started (broker_with_limits identity timeout max_pending))
| reach_step s s' : reachable identity timeout max_pending s → step s s' → reachable identity timeout max_pending s'.

(** ** The invariant *)

Definition asked_in (l : list Entry) (b : PermissionBinding) (e : N) : Prop := Asked b e ∈ l.

(** An accepted decision for [b], in time. *)
Definition granted (l : list Entry) (b : PermissionBinding) (d : PermissionDecision) : Prop :=
  ∃ c now e, Asked b e ∈ l ∧ Accepted c now ∈ l ∧ control_type c = "resolve_permission"
    ∧ control_binding c = b ∧ control_decision c = d ∧ (now < e)%N.

Definition accepted_id (e : Entry) : option string :=
  match e with Accepted c _ => Some (request_id (control_binding c)) | _ => None end.
Definition ended_id (e : Entry) : option string :=
  match e with Ended b _ => Some (request_id b) | _ => None end.

(** What a task may rely on. *)
Definition task_ok (l : list Entry) (id : string) (t : Task) : Prop :=
  request_id (task_binding t) = id ∧ (∃ e, Asked (task_binding t) e ∈ l)
  ∧ match task_state t with
    | Awaiting (Decided d) => granted l (task_binding t) d
    | Finishing Approved => granted l (task_binding t) Approve
    | _ => True
    end.

Record system_ok (s : System) : Prop := {
  so_pending id p : by_request_id (broker s) !! id = Some p →
    request_id (pending_binding p) = id ∧ Asked (pending_binding p) (expires_at p) ∈ log s
    ∧ id ∉ omap accepted_id (log s) ∧ is_Some (tasks (broker s) !! id);
  so_tasks id t : tasks (broker s) !! id = Some t → task_ok (log s) id t ∧ id ∉ omap ended_id (log s);
  so_flight id d : (id, d) ∈ flight s → ∃ b, request_id b = id ∧ granted (log s) b d;
  so_asked b e : Asked b e ∈ log s → request_id b ∈ used s;
  so_unique b e b' e' : Asked b e ∈ log s → Asked b' e' ∈ log s → request_id b = request_id b' → b = b' ∧ e = e';
  so_accepted_once : NoDup (omap accepted_id (log s));
  so_accepted_used id : id ∈ omap accepted_id (log s) → id ∈ used s;
  so_ended_once : NoDup (omap ended_id (log s));
  so_ended_used id : id ∈ omap ended_id (log s) → id ∈ used s;
  so_ended l1 b l2 : log s = l1 ++ Ended b Approved :: l2 → granted l1 b Approve;
  so_bounded : size (by_request_id (broker s)) <= max_pending (broker s);
  so_lock : poisoned (broker s) = false
}.

Lemma granted_app l l' b d : granted l b d → granted (l ++ l') b d.
Proof.
  intros (c & now & e & H1 & H2 & H). exists c, now, e. split_and!; [by apply elem_of_app; left..|apply H|apply H|apply H|apply H].
Qed.

Lemma task_ok_app l l' id t : task_ok l id t → task_ok (l ++ l') id t.
Proof.
  intros (H1 & [e He] & H2). split_and!; [done|exists e; by apply elem_of_app; left|].
  destruct (task_state t) as [[|d|]|[]]; try done; by apply granted_app.
Qed.

Lemma elem_of_omap_app {A B : Type} (f : A → option B) x l l' :
  x ∈ omap f (l ++ l') ↔ x ∈ omap f l ∨ x ∈ omap f l'.
Proof. by rewrite omap_app, elem_of_app. Qed.

(** Entries are only appended; an earlier [Ended] stays justified. *)
Lemma ended_snoc (l : list Entry) x :
  (∀ l1 b l2, l = l1 ++ Ended b Approved :: l2 → granted l1 b Approve) →
  match x with Ended b Approved => granted l b Approve | _ => True end →
  ∀ l1 b l2, l ++ [x] = l1 ++ Ended b Approved :: l2 → granted l1 b Approve.
Proof.
  intros Hl Hx l1 b l2 Heq. destruct l2 as [|y l2 _] using rev_ind.
  - apply app_inj_tail in Heq as [-> ->]. done.
  - rewrite app_comm_cons, app_assoc in Heq. apply app_inj_tail in Heq as [-> ->]. by apply (Hl l1 b l2).
Qed.

(** A step that leaves the log and adds no entry to the registry. *)
Lemma system_ok_broker s b' fl :
  system_ok s → by_request_id b' ⊆ by_request_id (broker s) →
  (∀ id p, by_request_id b' !! id = Some p → is_Some (tasks b' !! id)) →
  (∀ id t, tasks b' !! id = Some t → task_ok (log s) id t ∧ id ∉ omap ended_id (log s)) →
  (∀ id d, (id, d) ∈ fl → (id, d) ∈ flight s) →
  max_pending b' = max_pending (broker s) → poisoned b' = poisoned (broker s) →
  system_ok (mkSystem b' fl (used s) (log s)).
Proof.
  intros Hok Hp Hpt Ht Hf Hmax Hlock. split; cbn; try apply Hok; [|done| | |].
  - intros id p H. destruct (so_pending s Hok id p (lookup_weaken _ _ _ _ H Hp)) as (? & ? & ? & _).
    split_and!; [done..|by eapply Hpt].
  - intros id d H. by apply (so_flight s Hok), Hf.
  - rewrite Hmax. etrans; [by apply map_subseteq_size|apply Hok].
  - rewrite Hlock. apply Hok.
Qed.

(** A task that changes state keeps its promises if the new state does. *)
Lemma tasks_insert s id t st :
  system_ok s → tasks (broker s) !! id = Some t →
  task_ok (log s) id (mkTask (task_binding t) (task_deadline t) st) →
  ∀ id' t', <[id := mkTask (task_binding t) (task_deadline t) st]> (tasks (broker s)) !! id' = Some t' →
    task_ok (log s) id' t' ∧ id' ∉ omap ended_id (log s).
Proof.
  intros Hok Ht Hst id' t'. rewrite lookup_insert_Some. intros [[<- <-]|[_ H]]; [|by apply (so_tasks s Hok)].
  split; [done|]. by apply (so_tasks s Hok id t).
Qed.

Lemma some_insert {A : Type} (m : gmap string A) id x id' : is_Some (m !! id') → is_Some (<[id := x]> m !! id').
Proof. intros H. destruct (decide (id = id')) as [->|]; by simplify_map_eq. Qed.

Lemma drop_sender_fields id b :
  by_request_id (drop_sender id b) = by_request_id b ∧ max_pending (drop_sender id b) = max_pending b
  ∧ poisoned (drop_sender id b) = poisoned b.
Proof. unfold drop_sender. by destruct (tasks b !! id) as [[? ? [[]|]]|]. Qed.

Lemma ok_poll s id now r b' :
  system_ok s → request_poll id now (broker s) = (r, b') → system_ok (mkSystem b' (flight s) (used s) (log s)).
Proof.
  intros Hok. unfold request_poll. destruct (tasks (broker s) !! id) as [[b d [c|o]]|] eqn:Ht;
    [|by intros [= _ <-]; destruct s..].
  destruct (poll_outcome now d c) as [o|] eqn:Ho; intros [= _ <-]; [|by destruct s].
  destruct (so_tasks s Hok id _ Ht) as [(Hid & Hasked & Hst) _]. apply system_ok_broker; try done; cbn.
  - intros id' p H. apply some_insert. by destruct (so_pending s Hok id' p H) as (_ & _ & _ & ?).
  - apply (tasks_insert s id (mkTask b d (Awaiting c)) (Finishing o)); [done|done|]. split_and!; [done|done|].
    cbn in *. destruct o; try done. destruct c as [|[]|]; simpl in Ho; try done. by destruct (d <=? now)%N.
Qed.

Lemma ok_send s l1 id d l2 r b' :
  system_ok s → flight s = l1 ++ (id, d) :: l2 → resolve_send id d (broker s) = (r, b') →
  system_ok (mkSystem b' (l1 ++ l2) (used s) (log s)).
Proof.
  intros Hok Hf. unfold resolve_send.
  assert (∀ id' d', (id', d') ∈ l1 ++ l2 → (id', d') ∈ flight s) as Hfl by (rewrite Hf; set_solver).
  assert (system_ok (mkSystem (broker s) (l1 ++ l2) (used s) (log s))) as Hsame.
  { apply system_ok_broker; try done; [|by apply (so_tasks s Hok)].
    intros id' p H. by destruct (so_pending s Hok id' p H) as (_ & _ & _ & ?). }
  destruct (tasks (broker s) !! id) as [[b dl [c|o]]|] eqn:Ht; intros [= _ <-]; try done.
  destruct (so_tasks s Hok id _ Ht) as [(Hid & [e He] & _) _]. cbn in Hid, He.
  destruct (so_flight s Hok id d) as (b0 & Hb0 & Hg); [rewrite Hf; set_solver|].
  apply system_ok_broker; try done; cbn.
  - intros id' p H. apply some_insert. by destruct (so_pending s Hok id' p H) as (_ & _ & _ & ?).
  - apply (tasks_insert s id (mkTask b dl (Awaiting c)) (Awaiting (Decided d))); [done|done|].
    split_and!; [done|by exists e|]. cbn. pose proof Hg as (c' & n' & e' & Ha & _).
    destruct (so_unique s Hok _ _ _ _ He Ha) as [-> _]; [by rewrite Hid, Hb0|done].
Qed.

Lemma ok_drop s id : system_ok s → system_ok (mkSystem (request_drop id (broker s)) (flight s) (used s) (log s)).
Proof.
  intros Hok. unfold request_drop. destruct (tasks (broker s) !! id) as [[b d [c|o]]|] eqn:Ht;
    [|by destruct s..].
  unfold broker_remove. cbn. rewrite (so_lock s Hok). apply system_ok_broker; try done; cbn.
  - apply delete_subseteq.
  - intros id' p [Hne H]%lookup_delete_Some. rewrite lookup_delete_ne by done.
    by destruct (so_pending s Hok id' p H) as (_ & _ & _ & ?).
  - intros id' t [Hne H]%lookup_delete_Some. by apply (so_tasks s Hok).
Qed.

Lemma ok_finish s id :
  system_ok s →
  system_ok (mkSystem (request_finish id (broker s)) (flight s) (used s) (log s ++ ended (tasks (broker s) !! id))).
Proof.
  intros Hok. unfold request_finish, ended. destruct (tasks (broker s) !! id) as [[b d [c|o]]|] eqn:Ht;
    [rewrite app_nil_r; by destruct s| |rewrite app_nil_r; by destruct s].
  destruct (so_tasks s Hok id _ Ht) as [(Hid & [e He] & Hst) Hnew]. cbn in Hid, He, Hst.
  unfold broker_remove. cbn. rewrite (so_lock s Hok). cbn. rewrite (so_lock s Hok).
  split; cbn; rewrite ?omap_app; cbn; rewrite ?app_nil_r; try apply Hok.
  - intros id' p [Hne [Hne' H]%lookup_delete_Some]%lookup_delete_Some.
    destruct (so_pending s Hok id' p H) as (? & ? & ? & ?). rewrite lookup_delete_ne by done.
    split_and!; [done|by apply elem_of_app; left|done|done].
  - intros id' t [Hne H]%lookup_delete_Some. destruct (so_tasks s Hok id' t H) as [Hok' Hn].
    split; [by apply task_ok_app|]. set_solver.
  - intros id' d' H. destruct (so_flight s Hok id' d' H) as (b0 & Hb0 & Hg). exists b0. split; [done|by apply granted_app].
  - intros b0 e0 [H|H]%elem_of_app; [by eapply so_asked|set_solver].
  - intros b0 e0 b1 e1 [H|H]%elem_of_app [H'|H']%elem_of_app; [by apply (so_unique s Hok)|set_solver..].
  - apply NoDup_app. split_and!; [apply Hok|set_solver|apply NoDup_singleton].
  - intros id' [H|H]%elem_of_app; [by apply (so_ended_used s Hok)|].
    apply list_elem_of_singleton in H as ->. by apply (so_asked s Hok b e).
  - apply ended_snoc; [apply Hok|]. by destruct o.
  - etrans; [|apply (so_bounded s Hok)]. apply map_subseteq_size. etrans; apply delete_subseteq.
Qed.

Lemma ok_begin s observer idx ctx params id now now' r b' :
  system_ok s → id ∉ used s → request_begin observer idx ctx params id now now' (broker s) = (r, b') →
  system_ok (mkSystem b' (flight s) ({[id]} ∪ used s) (log s ++ asked r (now + timeout (broker s))%N)).
Proof.
  intros Hok Hid.
  assert (system_ok (mkSystem (broker s) (flight s) ({[id]} ∪ used s) (log s ++ []))) as Hsame.
  { rewrite app_nil_r. destruct Hok. split; cbn in *; try done; set_solver. }
  unfold request_begin. destruct observer; [|by intros [= <- <-]]. destruct idx as [ai|]; [|by intros [= <- <-]].
  destruct (ctx_session_id ctx) as [sid|]; [|by intros [= <- <-]].
  destruct (ctx_turn_id ctx) as [tid|]; [|by intros [= <- <-]].
  destruct (_ || _); [by intros [= <- <-]|]. rewrite (so_lock s Hok).
  destruct (Nat.leb_spec (max_pending (broker s)) (size (by_request_id (broker s)))) as [_|Hroom];
    [by intros [= <- <-]|].
  set (b := mkBinding _ _ _ _ _ _ _ _ _). intros [= <- <-]. unfold asked.
  assert (by_request_id (broker s) !! id = None) as Hnp.
  { destruct (by_request_id (broker s) !! id) as [p|] eqn:H; [|done].
    destruct (so_pending s Hok id p H) as (Hr & Ha & _). apply (so_asked s Hok) in Ha. congruence. }
  assert (Asked b (now + timeout (broker s)) ∈ log s ++ [Asked b (now + timeout (broker s))%N]) as Hin by set_solver.
  assert (request_id b = id) as Hb by done. clearbody b.
  split; cbn; rewrite ?omap_app; cbn; rewrite ?app_nil_r; try apply Hok.
  - intros id' p [[<- <-]|[Hne H]]%lookup_insert_Some.
    + split_and!; [done|done| |by rewrite lookup_insert_eq].
      intros H. by apply Hid, (so_accepted_used s Hok).
    + destruct (so_pending s Hok id' p H) as (? & ? & ? & ?). rewrite lookup_insert_ne by done.
      split_and!; [done|by apply elem_of_app; left|done|done].
  - intros id' t [[<- <-]|[Hne H]]%lookup_insert_Some.
    + split_and!; [split_and!; [done|by eexists|done]|]. intros H. by apply Hid, (so_ended_used s Hok).
    + destruct (so_tasks s Hok id' t H). split; [by apply task_ok_app|done].
  - intros id' d H. destruct (so_flight s Hok id' d H) as (b0 & Hb0 & Hg). exists b0. split; [done|by apply granted_app].
  - intros b0 e0 [H|H]%elem_of_app; [apply (so_asked s Hok) in H; set_solver|].
    apply list_elem_of_singleton in H. injection H as -> _. set_solver.
  - intros b0 e0 b1 e1 [H|H%list_elem_of_singleton]%elem_of_app [H'|H'%list_elem_of_singleton]%elem_of_app Heq.
    + by apply (so_unique s Hok).
    + injection H' as -> ->. apply (so_asked s Hok) in H. congruence.
    + injection H as -> ->. apply (so_asked s Hok) in H'. congruence.
    + by injection H as -> ->; injection H' as -> ->.
  - intros id' H. apply (so_accepted_used s Hok) in H. set_solver.
  - intros id' H. apply (so_ended_used s Hok) in H. set_solver.
  - by apply ended_snoc; [apply Hok|].
  - rewrite map_size_insert_None by done. lia.
Qed.

Lemma ok_take s payload now r b' :
  system_ok s → resolve_take payload now (broker s) = (r, b') →
  system_ok (mkSystem b' (match r with Ok x => x :: flight s | Err _ => flight s end) (used s)
    (log s ++ accepted payload now r)).
Proof.
  intros Hok.
  assert (system_ok (mkSystem (broker s) (flight s) (used s) (log s ++ []))) as Hsame
    by (rewrite app_nil_r; by destruct s).
  unfold resolve_take, accepted. destruct (control_from_value payload) as [c|]; [|by intros [= <- <-]].
  destruct (String.eqb_spec (control_type c) "resolve_permission") as [Hct|_]; [|by intros [= <- <-]]. cbn [negb].
  rewrite (so_lock s Hok). set (id := request_id (control_binding c)).
  destruct (by_request_id (broker s) !! id) as [p|] eqn:Hp; [|by intros [= <- <-]].
  destruct (so_pending s Hok id p Hp) as (Hid & Hasked & Hnew & Htask).
  destruct (N.leb_spec (expires_at p) now) as [_|Hnow].
  { intros [= <- <-]. rewrite app_nil_r. set (bd := with_pending _ (broker s)).
    destruct (drop_sender_fields id bd) as (E1 & E2 & E3).
    apply system_ok_broker; try done; rewrite ?E1; cbn; [apply delete_subseteq| |].
    - intros id' p' [Hne H]%lookup_delete_Some. destruct (so_pending s Hok id' p' H) as (_ & _ & _ & Hsome).
      unfold drop_sender. cbn. destruct (tasks (broker s) !! id) as [[? ? [[]|]]|]; cbn; try done.
      by apply some_insert.
    - intros id' t. unfold drop_sender. cbn. destruct (tasks (broker s) !! id) as [[bt dt [[]|]]|] eqn:Ht; cbn;
        try apply (so_tasks s Hok).
      destruct (so_tasks s Hok id _ Ht) as [(H1 & H2 & _) _].
      apply (tasks_insert s id _ (Awaiting SenderDropped) Hok Ht). done. }
  case_bool_decide as Hb; [by intros [= <- <-]|]. intros [= <- <-].
  assert (pending_binding p = control_binding c) as Hbind by (by destruct (decide (pending_binding p = control_binding c))).
  assert (granted (log s ++ [Accepted c now]) (control_binding c) (control_decision c)) as Hg.
  { exists c, now, (expires_at p). rewrite <-Hbind at 1. split_and!; try done; set_solver. }
  split; cbn; rewrite ?omap_app; cbn; rewrite ?app_nil_r; try apply Hok.
  - intros id' p' [Hne H]%lookup_delete_Some. destruct (so_pending s Hok id' p' H) as (? & ? & ? & ?).
    split_and!; [done|by apply elem_of_app; left| |done]. fold id. set_solver.
  - intros id' t H. destruct (so_tasks s Hok id' t H). split; [by apply task_ok_app|done].
  - intros id' d [[= -> ->]|H]%elem_of_cons; [by exists (control_binding c)|].
    destruct (so_flight s Hok id' d H) as (b0 & Hb0 & Hg0). exists b0. split; [done|by apply granted_app].
  - intros b0 e0 [H|H]%elem_of_app; [by eapply so_asked|set_solver].
  - intros b0 e0 b1 e1 [H|H]%elem_of_app [H'|H']%elem_of_app; [by apply (so_unique s Hok)|set_solver..].
  - apply NoDup_app. split_and!; [apply Hok|fold id; set_solver|apply NoDup_singleton].
  - intros id' [H|H]%elem_of_app; [by apply (so_accepted_used s Hok)|].
    apply list_elem_of_singleton in H as ->. fold id. rewrite <-Hid. by apply (so_asked s Hok _ (expires_at p)).
  - by apply ended_snoc; [apply Hok|].
  - etrans; [|apply (so_bounded s Hok)]. apply map_subseteq_size, delete_subseteq.
Qed.

Lemma ok_start identity timeout max_pending : system_ok (started (broker_with_limits identity timeout max_pending)).
Proof.
  split; cbn; try done; try (by intros; set_solver); try apply NoDup_nil_2.
  - intros [|] ? ?; done.
  - rewrite map_size_empty. lia.
Qed.

Lemma permission_reachable_ok identity timeout max_pending s : reachable identity timeout max_pending s → system_ok s.
Proof.
  induction 1 as [|s s' _ IH Hstep]; [apply ok_start|]. destruct Hstep.
  - by eapply ok_begin.
  - by apply ok_take.
  - by eapply ok_send.
  - by eapply ok_poll.
  - by apply ok_finish.
  - by apply ok_drop.
Qed.

(** ** What the broker promises *)

(** C8. A tool call the owner did not approve is never run: at whatever point
other calls come in between, a request that ends [Approved] was asked with its
binding, and before it ended a [resolve_permission] control naming exactly that
binding, with the decision [Approve], was taken before the request expired; no
request id is decided twice, and none ends twice. *)
Theorem approval_needs_owner_decision identity timeout max_pending s :
  reachable identity timeout max_pending s →
  (∀ l1 b l2, log s = l1 ++ Ended b Approved :: l2 →
     ∃ c now e, Asked b e ∈ l1 ∧ Accepted c now ∈ l1 ∧ control_type c = "resolve_permission"
       ∧ control_binding c = b ∧ control_decision c = Approve ∧ (now < e)%N)
  ∧ NoDup (omap accepted_id (log s)) ∧ NoDup (omap ended_id (log s)).
Proof. intros Hok%permission_reachable_ok. split_and!; [apply (so_ended s Hok)|apply Hok..]. Qed.

(** The calls leave the bound alone. *)
Lemma step_max_pending s s' : step s s' → max_pending (broker s') = max_pending (broker s).
Proof.
  intros [? ? ? ? ? ? ? r b' _ H|payload ? r b' H|? ? ? ? r b' _ H|? ? r b' H|id|id]; cbn.
  - unfold request_begin in H. repeat case_match; simplify_eq; done.
  - unfold resolve_take, drop_sender in H. repeat case_match; simplify_eq; done.
  - unfold resolve_send in H. repeat case_match; simplify_eq; done.
  - unfold request_poll in H. repeat case_match; simplify_eq; done.
  - unfold request_finish, broker_remove. repeat case_match; done.
  - unfold request_drop, broker_remove. repeat case_match; done.
Qed.

(** The registry of live decisions is bounded: it never holds more entries
than the broker's limit, and each of them is a task still inside [request]. *)
Theorem pending_requests_bounded identity timeout limit s :
  reachable identity timeout limit s →
  size (by_request_id (broker s)) <= limit
  ∧ dom (by_request_id (broker s)) ⊆ dom (tasks (broker s)).
Proof.
  intros Hr. assert (max_pending (broker s) = limit) as <-.
  { induction Hr as [|s s' _ IH H]; [done|]. by rewrite <-IH, (step_max_pending _ _ H). }
  apply permission_reachable_ok in Hr. split; [apply Hr|]. intros id [p Hp]%elem_of_dom. apply elem_of_dom.
  by destruct (so_pending s Hr id p Hp) as (_ & _ & _ & ?).
Qed.

(** C39. A wait is over by its deadline: whatever became of the sender, the first
poll at or after it has an outcome, and the clean-up that follows announces that
outcome, once, and frees the request's slot. *)
Theorem wait_ends_by_deadline identity timeout limit s id t c now :
  reachable identity timeout limit s → tasks (broker s) !! id = Some t → task_state t = Awaiting c →
  (task_deadline t <= now)%N →
  ∃ o b', request_poll id now (broker s) = (Some o, b')
    ∧ tasks (request_finish id b') = delete id (tasks (broker s))
    ∧ by_request_id (request_finish id b') = delete id (by_request_id (broker s))
    ∧ emitted (request_finish id b') =
        emitted (broker s) ++ [PermissionResult (task_binding t) (permission_outcome_name o)].
Proof.
  intros Hok%permission_reachable_ok Ht Hst Hnow. destruct t as [b d st]. cbn in Hst, Hnow. subst st.
  unfold request_poll. rewrite Ht.
  assert (∃ o, poll_outcome now d c = Some o) as [o ->].
  { destruct c as [|[]|]; cbn; try by eexists. exists TimedOut. by rewrite (proj2 (N.leb_le _ _) Hnow). }
  exists o. eexists. split; [done|]. unfold request_finish, broker_remove. cbn. rewrite lookup_insert_eq. cbn.
  rewrite (so_lock s Hok). cbn. rewrite (so_lock s Hok). cbn. split_and!; [|apply delete_delete_eq|done].
  apply delete_insert_eq.
Qed.
End system.

(** * What the details shown to the owner can reveal

The sanitizing of [Permission.v]: values that agree outside secrets are shown
alike, a token is cut from every text it appears in, and what is shown is
bounded. *)

(** ** Tokens *)

Lemma redact_loop_acc fuel m r s : redact_loop fuel m r s = r +:+ redact_loop fuel m "" s.
Proof.
  revert r s. induction fuel as [|fuel IH]; intros r s; cbn; [done|]. destruct (find_str m s); [|done].
  rewrite IH. symmetry. rewrite IH. by rewrite string_app_assoc.
Qed.

(** The length of the text is enough fuel. *)
Lemma redact_loop_fuel m : m ≠ "" → ∀ fuel s, String.length s <= fuel →
  redact_loop fuel m "" s = redact_token_after_marker s m.
Proof.
  intros Hm fuel. unfold redact_token_after_marker. induction (lt_wf fuel) as [fuel _ IH]; intros s Hf.
  destruct (find_str m s) as [i|] eqn:Hi; [|by destruct fuel, (String.length s); cbn; rewrite ?Hi].
  pose proof (find_str_bound m s i Hi) as Hb. assert (0 < String.length m) as Hpos by (destruct m; [done|cbn; lia]).
  destruct fuel as [|fuel], (String.length s) as [|n] eqn:Hn; try lia. cbn. rewrite Hi, Hn.
  set (start := i + String.length m). set (rest := str_drop _ s). rewrite redact_loop_acc. symmetry.
  rewrite redact_loop_acc. f_equal.
  assert (String.length rest <= n) as Hr by (unfold rest; rewrite length_str_drop; lia).
  rewrite (IH n), (IH fuel) by lia. done.
Qed.

(** A token is not shown: the text that follows the first marker, up to the
next character that ends a token, is replaced whatever it was, and the rest of
the text is treated the same way. *)
Theorem token_is_hidden m pre tok post :
  m ≠ "" → find_str m (pre +:+ m +:+ tok +:+ post) = Some (String.length pre) →
  find_suffix ends_token (tok +:+ post) = Some (String.length tok)
  ∨ post = "" ∧ find_suffix ends_token tok = None →
  redact_token_after_marker (pre +:+ m +:+ tok +:+ post) m
  = pre +:+ m +:+ "[REDACTED]" +:+ redact_token_after_marker post m.
Proof.
  intros Hm Hfind Hend. set (s := pre +:+ m +:+ tok +:+ post) in *.
  assert (String.length s = String.length pre + String.length m + String.length tok + String.length post) as Hlen
    by (unfold s; rewrite !length_string_app; lia).
  assert (0 < String.length m) as Hpos by (destruct m; [done|cbn; lia]).
  rewrite <-(redact_loop_fuel m Hm (S (String.length s))) by lia. cbn [redact_loop]. rewrite Hfind.
  assert (str_drop (String.length pre + String.length m) s = tok +:+ post) as Hdrop.
  { unfold s. rewrite str_drop_app, <-(Nat.add_0_r (String.length m)), str_drop_app. apply str_drop_0. }
  rewrite Hdrop. set (k := default _ _).
  assert (k = String.length tok) as ->.
  { unfold k. destruct Hend as [->|[-> Hend]]; [done|]. rewrite string_app_nil_r, Hend. cbn. cbn in Hlen. lia. }
  assert (str_take (String.length pre + String.length m) s = pre +:+ m) as ->.
  { unfold s. rewrite str_take_app, <-(Nat.add_0_r (String.length m)), str_take_app, str_take_0. by rewrite string_app_nil_r. }
  assert (str_drop (String.length pre + String.length m + String.length tok) s = post) as ->.
  { unfold s. rewrite <-Nat.add_assoc, str_drop_app, str_drop_app.
    rewrite <-(Nat.add_0_r (String.length tok)), str_drop_app. apply str_drop_0. }
  rewrite redact_loop_acc. cbn. rewrite redact_loop_fuel by (done || lia). by rewrite <-!string_app_assoc.
Qed.

(** ** Bounds *)

Lemma floor_boundary_ok s i : floor_boundary s i <= i ∧ is_char_boundary s (floor_boundary s i) = true.
Proof.
  induction i as [|i [IH1 IH2]]; cbn [floor_boundary]; [by destruct (is_char_boundary s 0) eqn:H|].
  destruct (is_char_boundary s (S i)) eqn:H; [done|]. split; [lia|done].
Qed.

Lemma length_truncate_utf8 s n : String.length (truncate_utf8 s n) <= n + 3.
Proof.
  unfold truncate_utf8. destruct (Nat.leb_spec (String.length s) n); [lia|].
  rewrite length_string_app, length_str_take. destruct (floor_boundary_ok s n) as [? _]. cbn. lia.
Qed.

Section details.
Context {JC : JsonCrate} {PC : PermissionCrates}.

(** What the owner is shown is bounded whatever the agent sent: the tool's
name is at most 128 bytes and the action at most 256, with an ellipsis of three,
and the context is at most 4096 bytes of JSON or a fixed text. *)
Theorem details_bounded params :
  let d := safe_permission_details params in
  String.length (tool_name d) <= 128 + 3 ∧ String.length (action d) <= 256 + 3
  ∧ (context d = VString "Request details omitted because they were too large."
     ∨ ∃ n, json_len (context d) = Ok n ∧ n <= MAX_PERMISSION_CONTEXT_BYTES).
Proof.
  cbn zeta. unfold safe_permission_details. split_and!; [apply length_truncate_utf8..|]. cbn [context].
  set (v := sanitize_context _ _). destruct (json_len v) as [n|e] eqn:Hn; [|by left].
  destruct (Nat.ltb_spec MAX_PERMISSION_CONTEXT_BYTES n) as [H|H]; [by left|]. right. by exists n.
Qed.
End details.

(** ** Secrets in the context *)

Section secrets.
Context {JC : JsonCrate}.

(** Values an owner must not be able to tell apart: they differ only under
sensitive keys, below the depth that is shown or past the items that are. *)
Inductive same_shown : nat → Value → Value → Prop :=
| shown_deep d v w : MAX_CONTEXT_DEPTH <= d → same_shown d v w
| shown_same d v : same_shown d v v
| shown_array d l l' : items_shown MAX_CONTEXT_ITEMS d l l' → same_shown d (Array l) (Array l')
| shown_object d m m' : members_shown MAX_CONTEXT_ITEMS d m m' → same_shown d (Object m) (Object m')
with items_shown : nat → nat → list Value → list Value → Prop :=
| items_end n d : items_shown n d [] []
| items_enough d l l' : items_shown 0 d l l'
| items_next n d v w l l' : same_shown (S d) v w → items_shown n d l l' → items_shown (S n) d (v :: l) (w :: l')
with members_shown : nat → nat → list (string * Value) → list (string * Value) → Prop :=
| members_end n d : members_shown n d [] []
| members_more d x y m m' : members_shown 0 d (x :: m) (y :: m')
| members_secret n d k v w m m' :
    sensitive_key k = true → members_shown n d m m' → members_shown (S n) d ((k, v) :: m) ((k, w) :: m')
| members_next n d k v w m m' :
    same_shown (S d) v w → members_shown n d m m' → members_shown (S n) d ((k, v) :: m) ((k, w) :: m').

Scheme same_shown_mind := Minimality for same_shown Sort Prop
  with items_shown_mind := Minimality for items_shown Sort Prop
  with members_shown_mind := Minimality for members_shown Sort Prop.

Lemma sanitize_context_eq v d :
  sanitize_context v d =
    if MAX_CONTEXT_DEPTH <=? d then VString "[nested details omitted]"
    else match v with
    | Object object =>
        Object (sanitize_members 0 (List.map (λ kv, (kv.1, sanitize_context kv.2 (S d))) object) [])
    | Array values => Array (take MAX_CONTEXT_ITEMS (List.map (λ v, sanitize_context v (S d)) values))
    | VString text => VString (redact_and_bound text MAX_CONTEXT_STRING_BYTES)
    | _ => v
    end.
Proof. by destruct v. Qed.

(** The context shown hides secrets: requests whose raw inputs differ only in
what is under sensitive keys, nested past the depth limit, or past the first
sixteen items of an array or object are shown to the owner alike. *)
Theorem context_hides_secrets v w : same_shown 0 v w → sanitize_observer_context v = sanitize_observer_context w.
Proof.
  unfold sanitize_observer_context. generalize 0. intros d.
  apply (same_shown_mind
    (λ d v w, sanitize_context v d = sanitize_context w d)
    (λ n d l l', take n (List.map (λ v, sanitize_context v (S d)) l) = take n (List.map (λ v, sanitize_context v (S d)) l'))
    (λ n d m m', ∀ index safe, index + n = MAX_CONTEXT_ITEMS →
       sanitize_members index (List.map (λ kv, (kv.1, sanitize_context kv.2 (S d))) m) safe
       = sanitize_members index (List.map (λ kv, (kv.1, sanitize_context kv.2 (S d))) m') safe)); clear.
  - intros d v w Hd. rewrite !sanitize_context_eq. by rewrite (proj2 (Nat.leb_le _ _) Hd).
  - done.
  - intros d l l' _ IH. rewrite !sanitize_context_eq. by rewrite IH.
  - intros d m m' _ IH. rewrite !sanitize_context_eq. by rewrite (IH 0 []).
  - done.
  - done.
  - intros n d v w l l' _ IHv _ IHl. cbn. by rewrite IHv, IHl.
  - done.
  - intros d x y m m' index safe Hn. cbn [sanitize_members List.map]. by rewrite (proj2 (Nat.leb_le _ index)) by lia.
  - intros n d k v w m m' Hk _ IH index safe Hn. cbn [sanitize_members List.map fst snd]. rewrite Hk.
    by rewrite !(IH (S index)) by lia.
  - intros n d k v w m m' _ IHv _ IH index safe Hn. cbn [sanitize_members List.map fst snd]. rewrite IHv.
    by rewrite !(IH (S index)) by lia.
Qed.
End secrets.

(** * A permission asked, approved and used

Crates small enough to compute with, and the theorems of [PermissionProps]
applied to a request that the owner approves. *)

#[export] Instance toy_json : JsonCrate := {
  JsonNumber := N; JsonError := unit;
  number_to_string := λ n, Ok (pretty n);
  string_to_string := λ s, Ok (String quote (s +:+ String quote ""))
}.

Definition get_string (key : string) (v : Value) : option string :=
  match value_get key v with Some (VString s) => Some s | _ => None end.

Definition binding_from_value (v : Value) : option PermissionBinding :=
  id ← get_string "requestId" v;
  owner ← get_string "ownerPubkey" v;
  agent ← get_string "agentPubkey" v;
  relay ← get_string "relayUrl" v;
  nonce ← get_string "runtimeStartNonce" v;
  index ← (match value_get "agentIndex" v with Some (Number n) => Some n | _ => None end);
  session ← get_string "sessionId" v;
  turn ← get_string "turnId" v;
  Some (mkBinding id owner agent relay nonce index session turn (get_string "channelId" v)).

(** A length for the values the examples use. *)
Fixpoint toy_len (v : Value) : nat :=
  match v with
  | Null | Bool _ => 5
  | Number n => String.length (pretty n)
  | VString s => String.length s + 2
  | Array l => fold_right (λ v n, toy_len v + S n) 2 l
  | Object m => fold_right (λ kv n, String.length kv.1 + 3 + toy_len kv.2 + S n) 2 m
  end.

#[export] Instance toy_permission_crates : PermissionCrates := {
  control_from_value := λ v,
    t ← get_string "type" v;
    b ← binding_from_value v;
    d ← get_string "decision" v;
    if String.eqb d "approve" then Some (mkControl t b Approve)
    else if String.eqb d "deny" then Some (mkControl t b Deny) else None;
  json_len := λ v, Ok (toy_len v)
}.

Definition toy_owner : string := "00112233445566778899aabbccddeeff00112233445566778899aabbccddeeff".
Definition toy_agent : string := "ffeeddccbbaa99887766554433221100ffeeddccbbaa99887766554433221100".
Definition toy_identity : PermissionRuntimeIdentity := mkIdentity toy_owner toy_agent "wss://relay" "nonce-1".
Definition toy_ctx : ObserverContext := mkContext (Some "chan") (Some "session-1") (Some "turn-1").
Definition toy_params : Value :=
  Object [("toolCall", Object [("kind", VString "execute");
    ("rawInput", Object [("command", VString "deploy --token=abc now"); ("password", VString "hunter2")])])].
Definition toy_control : Value :=
  Object [("type", VString "resolve_permission"); ("requestId", VString "r1"); ("ownerPubkey", VString toy_owner);
    ("agentPubkey", VString toy_agent); ("relayUrl", VString "wss://relay");
    ("runtimeStartNonce", VString "nonce-1"); ("agentIndex", Number 3%N); ("sessionId", VString "session-1");
    ("turnId", VString "turn-1"); ("channelId", VString "chan"); ("decision", VString "approve")].
Definition toy_binding : PermissionBinding :=
  mkBinding "r1" toy_owner toy_agent "wss://relay" "nonce-1" 3 "session-1" "turn-1" (Some "chan").

(** *** The run, state by state *)

Definition toy_broker0 : PermissionBroker := broker_with_limits toy_identity 45 8.
Definition toy_begin := request_begin true (Some 3%N) toy_ctx toy_params "r1" 100 101 toy_broker0.
Definition toy_take := resolve_take toy_control 120 toy_begin.2.
Definition toy_send := resolve_send "r1" Approve toy_take.2.
Definition toy_poll := request_poll "r1" 121 toy_send.2.

Definition toy_s1 : System := mkSystem toy_begin.2 [] ({["r1"]} ∪ ∅) ([] ++ asked toy_begin.1 (100 + 45)%N).
Definition toy_s2 : System :=
  mkSystem toy_take.2 [("r1", Approve)] (used toy_s1) (log toy_s1 ++ accepted toy_control 120 toy_take.1).
Definition toy_s3 : System := mkSystem toy_send.2 [] (used toy_s2) (log toy_s2).
Definition toy_s4 : System := mkSystem toy_poll.2 [] (used toy_s3) (log toy_s3).
Definition toy_s5 : System :=
  mkSystem (request_finish "r1" toy_poll.2) [] (used toy_s4) (log toy_s4 ++ ended (tasks toy_poll.2 !! "r1")).

Lemma toy_take_ok : toy_take.1 = Ok ("r1", Approve).
Proof. vm_compute. reflexivity. Qed.

Lemma toy_s1_reachable : reachable toy_identity 45 8 toy_s1.
Proof.
  eapply reach_step; [apply reach_start|].
  apply (step_begin (started toy_broker0) true (Some 3%N) toy_ctx toy_params "r1" 100 101); [set_solver|].
  apply surjective_pairing.
Qed.

Lemma toy_s5_reachable : reachable toy_identity 45 8 toy_s5.
Proof.
  eapply reach_step; [|apply (step_finish toy_s4 "r1")].
  eapply reach_step; [|apply (step_poll toy_s3 "r1" 121 toy_poll.1), surjective_pairing].
  eapply reach_step; [|apply (step_send toy_s2 [] "r1" Approve [] toy_send.1); [done|apply surjective_pairing]].
  eapply reach_step; [apply toy_s1_reachable|].
  pose proof (step_take toy_s1 toy_control 120 toy_take.1 toy_take.2 (surjective_pairing _)) as H.
  unfold toy_s2. by rewrite toy_take_ok in H |- *.
Qed.

(** *** The theorems at the run *)

Lemma approval_needs_owner_decision_witness :
  reachable toy_identity 45 8 toy_s5
  ∧ ∃ c now e, Accepted c now ∈ [Asked toy_binding 145; Accepted (mkControl "resolve_permission" toy_binding Approve) 120]
      ∧ control_binding c = toy_binding ∧ control_decision c = Approve ∧ (now < e)%N.
Proof.
  split; [apply toy_s5_reachable|].
  destruct (approval_needs_owner_decision toy_identity 45 8 toy_s5 toy_s5_reachable) as [H _].
  destruct (H [Asked toy_binding 145; Accepted (mkControl "resolve_permission" toy_binding Approve) 120]
              toy_binding []) as (c & now & e & _ & H2 & _ & H4 & H5 & H6); [vm_compute; reflexivity|].
  by exists c, now, e.
Defined.

Lemma pending_requests_bounded_witness : size (by_request_id (broker toy_s1)) <= 8 ∧ size (by_request_id (broker toy_s1)) = 1.
Proof.
  split; [apply (pending_requests_bounded toy_identity 45 8 toy_s1 toy_s1_reachable)|vm_compute; reflexivity].
Defined.

Lemma wait_ends_by_deadline_witness :
  ∃ o b', request_poll "r1" 146 (broker toy_s1) = (Some o, b') ∧ by_request_id (request_finish "r1" b') = ∅.
Proof.
  destruct (wait_ends_by_deadline toy_identity 45 8 toy_s1 "r1" (mkTask toy_binding 146 (Awaiting NoDecision))
    NoDecision 146) as (o & b' & Hpoll & _ & Hfree & _); [apply toy_s1_reachable|vm_compute; reflexivity|done|cbn; lia|].
  exists o, b'. split; [done|]. rewrite Hfree. vm_compute. reflexivity.
Defined.

Lemma token_is_hidden_witness :
  redact_token_after_marker "use ghp_s3cr3t, then ghp_again" "ghp_"
  = "use ghp_" +:+ "[REDACTED]" +:+ redact_token_after_marker ", then ghp_again" "ghp_".
Proof.
  apply (token_is_hidden "ghp_" "use " "s3cr3t" ", then ghp_again"); [done|vm_compute; reflexivity|].
  left. vm_compute. reflexivity.
Defined.

Lemma context_hides_secrets_witness :
  sanitize_observer_context (Object [("cmd", VString "ls"); ("api-key", VString "one")])
  = sanitize_observer_context (Object [("cmd", VString "ls"); ("api-key", Array [])]).
Proof.
  apply context_hides_secrets, shown_object, members_next; [apply shown_same|].
  apply members_secret; [vm_compute; reflexivity|apply members_end].
Defined.

(** The details of the run. *)
Example toy_details : safe_permission_details toy_params =
  mkDetails "execute" "The agent requested permission to use execute."
    (Object [("command", VString "deploy --token=[REDACTED] now"); ("password", VString "[REDACTED]")]).
Proof. vm_compute. reflexivity. Qed.

(** A decision for another turn does not free the request. *)
Example other_turn_refused :
  (resolve_control (Object [("type", VString "resolve_permission"); ("requestId", VString "r1");
    ("ownerPubkey", VString toy_owner); ("agentPubkey", VString toy_agent); ("relayUrl", VString "wss://relay");
    ("runtimeStartNonce", VString "nonce-1"); ("agentIndex", Number 3%N); ("sessionId", VString "session-1");
    ("turnId", VString "turn-2"); ("channelId", VString "chan"); ("decision", VString "approve")]) 120 toy_begin.2).1
  = Err "permission request binding does not match".
Proof. vm_compute. reflexivity. Qed.
