(* ===== verification/Authority.v ===== *)
(** * Authority: installations, delegations and deliveries of the push gateway

Models [buzz-push-gateway/src/authority.rs]: the data of the authority and the
executable reference store.  Every method holds the store's lock throughout, so
each is one function on the store's state; a poisoned lock makes all of them
answer [Unavailable].  Times and epochs are [i64] (as [Z], with the saturating
and checked operations written out); keys, tokens and fingerprints are their
bytes. *)
From S2P Require Import Prelude Nostr Encode.

(** ** [i64] arithmetic *)

Definition i64_max : Z := 9223372036854775807.
Definition i64_min : Z := -9223372036854775808.

(** [i64::saturating_sub]. *)
Definition saturating_sub (a b : Z) : Z := Z.max i64_min (Z.min i64_max (a - b)).

(** [i64::checked_add(1)]. *)
Definition checked_add1 (a : Z) : option Z := if (a =? i64_max)%Z then None else Some (a + 1)%Z.

(** ** Data *)

Inductive AppProfile : Type := BuzzIosDogfood.

#[export] Instance AppProfile_eq_dec : EqDecision AppProfile.
Proof. solve_decision. Defined.

#[export] Instance AppProfile_countable : Countable AppProfile.
Proof. by apply (inj_countable' (λ _, tt) (λ _, BuzzIosDogfood)); intros []. Defined.

Record Challenge : Type := mkChallenge {
  ch_id : Uuid;
  ch_value : Bytes;
  created_at : Z;
  ch_expires_at : Z
}.

Definition CHALLENGE_QUOTA_WINDOW_SECONDS : Z := 60.
Definition CHALLENGE_QUOTA_MAX_REQUESTS : nat := 600.

Record NewInstallation : Type := mkNew {
  n_id : Uuid;
  n_app_attest_key_id : Bytes;
  n_app_attest_public_key : Bytes;
  n_assertion_counter : N;
  n_profile : AppProfile;
  n_token_ciphertext : Bytes;
  n_token_fingerprint : Bytes;
  n_endpoint_epoch : Z;
  n_expires_at : Z
}.

Record Installation : Type := mkInstallation {
  i_id : Uuid;
  app_attest_key_id : Bytes;
  app_attest_public_key : Bytes;
  assertion_counter : N;
  profile : AppProfile;
  token_ciphertext : Bytes;
  token_fingerprint : Bytes;
  i_endpoint_epoch : Z;
  i_expires_at : Z;
  i_revoked : bool
}.

Record Delegation : Type := mkDelegation {
  d_id : Uuid;
  installation_id : Uuid;
  relay_pubkey : string;
  d_endpoint_epoch : Z;
  generation : Z;
  not_before : Z;
  d_expires_at : Z;
  d_revoked : bool
}.

Record DeliveryAuthority : Type := mkAuthority {
  a_delegation_id : Uuid;
  a_installation_id : Uuid;
  a_relay_pubkey : string;
  a_profile : AppProfile;
  a_token_ciphertext : Bytes;
  a_endpoint_epoch : Z;
  a_generation : Z;
  a_expires_at : Z
}.

Record DeliveryPermit : Type := mkPermit {
  authority : DeliveryAuthority;
  p_relay_pubkey : string;
  request_id : Uuid
}.

Inductive DeliveryDisposition : Type := Terminal | Retryable.

Inductive AuthorityError : Type := Rejected | Conflict | RateLimited | Unavailable.

(** [MemoryState], behind a lock. *)
Record MemoryState : Type := mkState {
  challenges : gmap Uuid Challenge;
  installations : gmap Uuid Installation;
  token_owners : gmap (AppProfile * Bytes) Uuid;
  delegations : gmap (Uuid * string) Delegation;
  delegation_ids : gmap Uuid (Uuid * string);
  delivery_auth_replays : gmap (string * string) Z;
  delivery_request_replays : gmap (string * Uuid) Z;
  endpoint_quotas : gmap Bytes (Z * Z);
  poisoned : bool
}.

Definition state_default : MemoryState := mkState ∅ ∅ ∅ ∅ ∅ ∅ ∅ ∅ false.

Definition with_challenges (m : gmap Uuid Challenge) (s : MemoryState) : MemoryState :=
  mkState m (installations s) (token_owners s) (delegations s) (delegation_ids s) (delivery_auth_replays s)
    (delivery_request_replays s) (endpoint_quotas s) (poisoned s).
Definition with_installations (m : gmap Uuid Installation) (s : MemoryState) : MemoryState :=
  mkState (challenges s) m (token_owners s) (delegations s) (delegation_ids s) (delivery_auth_replays s)
    (delivery_request_replays s) (endpoint_quotas s) (poisoned s).
Definition with_token_owners (m : gmap (AppProfile * Bytes) Uuid) (s : MemoryState) : MemoryState :=
  mkState (challenges s) (installations s) m (delegations s) (delegation_ids s) (delivery_auth_replays s)
    (delivery_request_replays s) (endpoint_quotas s) (poisoned s).
Definition with_delegations (m : gmap (Uuid * string) Delegation) (ids : gmap Uuid (Uuid * string))
    (s : MemoryState) : MemoryState :=
  mkState (challenges s) (installations s) (token_owners s) m ids (delivery_auth_replays s)
    (delivery_request_replays s) (endpoint_quotas s) (poisoned s).
Definition with_replays (m : gmap (string * string) Z) (m' : gmap (string * Uuid) Z) (s : MemoryState) : MemoryState :=
  mkState (challenges s) (installations s) (token_owners s) (delegations s) (delegation_ids s) m m'
    (endpoint_quotas s) (poisoned s).
Definition with_quotas (m : gmap Bytes (Z * Z)) (s : MemoryState) : MemoryState :=
  mkState (challenges s) (installations s) (token_owners s) (delegations s) (delegation_ids s)
    (delivery_auth_replays s) (delivery_request_replays s) m (poisoned s).

Definition Answer (A : Type) : Type := result A AuthorityError * MemoryState.

(** [self.0.lock().map_err(|_| Unavailable)?]. *)
Definition locked {A : Type} (k : MemoryState → Answer A) (s : MemoryState) : Answer A :=
  if poisoned s then (Err Unavailable, s) else k s.

(** ** Challenges *)

Section challenges.
Context {HO : HashOrder}.

Definition put_challenge (challenge : Challenge) : MemoryState → Answer unit := locked (λ s,
  let window_start := saturating_sub (created_at challenge) CHALLENGE_QUOTA_WINDOW_SECONDS in
  if CHALLENGE_QUOTA_MAX_REQUESTS
     <=? length (filter (λ kv, (window_start <= created_at kv.2)%Z) (hm_iter (challenges s)))
  then (Err RateLimited, s)
  else
  let old := challenges s !! ch_id challenge in
  let s := with_challenges (<[ch_id challenge := challenge]> (challenges s)) s in
  match old with
  | Some _ => (Err Rejected, s)
  | None => (Ok tt, s)
  end).

Definition consume_challenge (id : Uuid) (value : Bytes) (now : Z) : MemoryState → Answer unit := locked (λ s,
  match challenges s !! id with
  | None => (Err Rejected, s)
  | Some challenge =>
      let s := with_challenges (delete id (challenges s)) s in
      if bool_decide (ch_value challenge ≠ value) || (ch_expires_at challenge <? now)%Z then (Err Rejected, s)
      else (Ok tt, s)
  end).

(** ** Installations *)

Definition new_installation (n : NewInstallation) : Installation :=
  mkInstallation (n_id n) (n_app_attest_key_id n) (n_app_attest_public_key n) (n_assertion_counter n)
    (n_profile n) (n_token_ciphertext n) (n_token_fingerprint n) (n_endpoint_epoch n) (n_expires_at n) false.

(** The same App Attest key, or the same token. *)
Definition same_owner (n : NewInstallation) (i : Installation) : bool :=
  bool_decide (app_attest_key_id i = n_app_attest_key_id n)
  || bool_decide (profile i = n_profile n) && bool_decide (token_fingerprint i = n_token_fingerprint n).

Definition matching (n : NewInstallation) (s : MemoryState) : list Uuid :=
  map (λ kv, i_id kv.2) (filter (λ kv, same_owner n kv.2 = true) (hm_iter (installations s))).

(** The body of the loop over [replaced]. *)
Definition remove_installation (id : Uuid) (s : MemoryState) : MemoryState :=
  let s :=
    match installations s !! id with
    | Some old =>
        with_token_owners (delete (profile old, token_fingerprint old) (token_owners s))
          (with_installations (delete id (installations s)) s)
    | None => s
    end in
  with_delegations (filter (λ kv, kv.1.1 ≠ id) (delegations s)) (filter (λ kv, kv.2.1 ≠ id) (delegation_ids s)) s.

Definition is_live (now : Z) (i : Installation) : bool := negb (i_revoked i) && (now <=? i_expires_at i)%Z.

Definition found (p : Installation → bool) (id : Uuid) (s : MemoryState) : bool :=
  match installations s !! id with Some i => p i | None => false end.

Definition create_installation (n : NewInstallation) (now : Z) : MemoryState → Answer unit := locked (λ s,
  if bool_decide (is_Some (installations s !! n_id n)) then (Err Rejected, s)
  else
  let matching := matching n s in
  if existsb (λ id, found (is_live now) id s) matching then (Err Conflict, s)
  else
  let replaced := List.filter (λ id, found (λ i, (i_expires_at i <? now)%Z) id s) matching in
  let s := foldl (λ s id, remove_installation id s) s replaced in
  let s := with_token_owners (<[(n_profile n, n_token_fingerprint n) := n_id n]> (token_owners s)) s in
  (Ok tt, with_installations (<[n_id n := new_installation n]> (installations s)) s)).

Definition installation (id : Uuid) (now : Z) : MemoryState → Answer Installation := locked (λ s,
  match installations s !! id with
  | Some i => if is_live now i then (Ok i, s) else (Err Rejected, s)
  | None => (Err Rejected, s)
  end).

Definition installation_for_revocation (id : Uuid) (now : Z) : MemoryState → Answer Installation := locked (λ s,
  match installations s !! id with
  | Some i => if (now <=? i_expires_at i)%Z then (Ok i, s) else (Err Rejected, s)
  | None => (Err Rejected, s)
  end).

Definition matching_installation (key_id : Bytes) (prof : AppProfile) (fingerprint : Bytes) (epoch expires_at now : Z)
    : MemoryState → Answer (option Installation) := locked (λ s,
  (Ok (List.find (λ i, is_live now i && bool_decide (app_attest_key_id i = key_id) && bool_decide (profile i = prof)
         && bool_decide (token_fingerprint i = fingerprint) && (i_endpoint_epoch i =? epoch)%Z
         && (i_expires_at i =? expires_at)%Z) (map snd (hm_iter (installations s)))), s)).
End challenges.

(** An installation changed in place. *)
Definition with_counter (c : N) (i : Installation) : Installation :=
  mkInstallation (i_id i) (app_attest_key_id i) (app_attest_public_key i) c (profile i) (token_ciphertext i)
    (token_fingerprint i) (i_endpoint_epoch i) (i_expires_at i) (i_revoked i).
Definition with_expiry (e : Z) (i : Installation) : Installation :=
  mkInstallation (i_id i) (app_attest_key_id i) (app_attest_public_key i) (assertion_counter i) (profile i)
    (token_ciphertext i) (token_fingerprint i) (i_endpoint_epoch i) e (i_revoked i).
Definition with_endpoint (epoch : Z) (ciphertext fingerprint : Bytes) (i : Installation) : Installation :=
  mkInstallation (i_id i) (app_attest_key_id i) (app_attest_public_key i) (assertion_counter i) (profile i)
    ciphertext fingerprint epoch (i_expires_at i) (i_revoked i).
Definition with_revoked (epoch : Z) (i : Installation) : Installation :=
  mkInstallation (i_id i) (app_attest_key_id i) (app_attest_public_key i) (assertion_counter i) (profile i)
    (token_ciphertext i) (token_fingerprint i) epoch (i_expires_at i) true.
Definition set_installation (id : Uuid) (i : Installation) (s : MemoryState) : MemoryState :=
  with_installations (<[id := i]> (installations s)) s.

Definition advance_assertion_counter (id : Uuid) (previous next : N) (s : MemoryState) : Answer unit :=
  if (next <=? previous)%N then (Err Rejected, s)
  else locked (λ s,
    match installations s !! id with
    | None => (Err Rejected, s)
    | Some i =>
        if bool_decide (assertion_counter i ≠ previous) then (Err Rejected, s)
        else (Ok tt, set_installation id (with_counter next i) s)
    end) s.

(** ** Delegations *)

Definition upsert_delegation (d : Delegation) : MemoryState → Answer unit := locked (λ s,
  match installations s !! installation_id d with
  | None => (Err Rejected, s)
  | Some i =>
      if i_revoked i || bool_decide (i_endpoint_epoch i ≠ d_endpoint_epoch d) || (generation d <? 1)%Z
         || (d_expires_at d <=? not_before d)%Z
      then (Err Rejected, s)
      else
      let key := (installation_id d, relay_pubkey d) in
      if match delegations s !! key with Some old => (generation d <=? generation old)%Z | None => false end
         || bool_decide (is_Some (delegation_ids s !! d_id d))
      then (Err Rejected, s)
      else
      let s := set_installation (installation_id d) (with_expiry (Z.max (i_expires_at i) (d_expires_at d)) i) s in
      (Ok tt, with_delegations (<[key := d]> (delegations s)) (<[d_id d := key]> (delegation_ids s)) s)
  end).

Definition rotate_endpoint (id : Uuid) (expected new : Z) (ciphertext fingerprint : Bytes) (s : MemoryState)
    : Answer unit :=
  if bool_decide (checked_add1 expected ≠ Some new) then (Err Rejected, s)
  else locked (λ s,
    match installations s !! id with
    | None => (Err Rejected, s)
    | Some i =>
        if i_revoked i || bool_decide (i_endpoint_epoch i ≠ expected) then (Err Rejected, s)
        else
        let token_key := (profile i, fingerprint) in
        if match token_owners s !! token_key with Some owner => bool_decide (owner ≠ id) | None => false end
        then (Err Rejected, s)
        else
        let s := with_token_owners (<[token_key := id]> (delete (profile i, token_fingerprint i) (token_owners s))) s in
        (Ok tt, set_installation id (with_endpoint new ciphertext fingerprint i) s)
    end) s.

Definition revoke_delegation (id : Uuid) (relay : string) (expected_generation : Z) : MemoryState → Answer unit :=
  locked (λ s,
  match delegations s !! (id, relay) with
  | None => (Err Rejected, s)
  | Some old =>
      if bool_decide (expected_generation ≠ generation old) then (Err Rejected, s)
      else if d_revoked old then (Ok tt, s)
      else
      let revoked := mkDelegation (d_id old) (installation_id old) (relay_pubkey old) (d_endpoint_epoch old)
        (generation old) (not_before old) (d_expires_at old) true in
      (Ok tt, with_delegations (<[(id, relay) := revoked]> (delegations s)) (delegation_ids s) s)
  end).

Definition revoke_installation (id : Uuid) (expected new : Z) (s : MemoryState) : Answer unit :=
  if bool_decide (checked_add1 expected ≠ Some new) then (Err Rejected, s)
  else locked (λ s,
    match installations s !! id with
    | None => (Err Rejected, s)
    | Some i =>
        if i_revoked i && (i_endpoint_epoch i =? new)%Z then (Ok tt, s)
        else if i_revoked i || bool_decide (i_endpoint_epoch i ≠ expected) then (Err Rejected, s)
        else (Ok tt, set_installation id (with_revoked new i) s)
    end) s.

(** ** Deliveries *)

(** The test of [authorize_delivery] on the delegation and its installation. *)
Definition refuses (d : Delegation) (i : Installation) (delegation_id : Uuid) (relay : string)
    (epoch gen request_expires_at now : Z) : bool :=
  d_revoked d || i_revoked i || bool_decide (d_id d ≠ delegation_id) || bool_decide (relay_pubkey d ≠ relay)
  || bool_decide (d_endpoint_epoch d ≠ epoch) || bool_decide (generation d ≠ gen)
  || bool_decide (i_endpoint_epoch i ≠ epoch) || (now <? not_before d)%Z || (d_expires_at d <? now)%Z
  || (i_expires_at i <? now)%Z || (request_expires_at <? now)%Z || (d_expires_at d <? request_expires_at)%Z.

(** The quota's entry when a delivery is tried, reset if its window is over. *)
Definition quota_entry (fingerprint : Bytes) (quota_window_seconds now : Z) (s : MemoryState) : Z * Z :=
  let quota := default (now, 0%Z) (endpoint_quotas s !! fingerprint) in
  if (quota_window_seconds <=? saturating_sub now quota.1)%Z then (now, 0%Z) else quota.

Definition authorize_delivery (delegation_id : Uuid) (relay : string) (epoch gen : Z) (event_id : string)
    (request_id : Uuid) (request_expires_at quota_window_seconds quota_max_deliveries now : Z)
    : MemoryState → Answer DeliveryPermit := locked (λ s,
  match delegation_ids s !! delegation_id with
  | None => (Err Rejected, s)
  | Some key =>
  match delegations s !! key with
  | None => (Err Rejected, s)
  | Some d =>
  match installations s !! installation_id d with
  | None => (Err Rejected, s)
  | Some i =>
      if refuses d i delegation_id relay epoch gen request_expires_at now then (Err Rejected, s)
      else
      let authority := mkAuthority delegation_id (i_id i) relay (profile i) (token_ciphertext i) epoch gen
        (d_expires_at d) in
      let fingerprint := token_fingerprint i in
      if bool_decide (is_Some (delivery_auth_replays s !! (relay, event_id)))
         || bool_decide (is_Some (delivery_request_replays s !! (relay, request_id)))
      then (Err Rejected, s)
      else
      let quota := quota_entry fingerprint quota_window_seconds now s in
      if (quota_max_deliveries <=? quota.2)%Z then
        (Err Rejected, with_quotas (<[fingerprint := quota]> (endpoint_quotas s)) s)
      else
      let s := with_quotas (<[fingerprint := (quota.1, quota.2 + 1)%Z]> (endpoint_quotas s)) s in
      let s := with_replays (<[(relay, event_id) := request_expires_at]> (delivery_auth_replays s))
        (<[(relay, request_id) := request_expires_at]> (delivery_request_replays s)) s in
      (Ok (mkPermit authority relay request_id), s)
  end end end).

Definition finish_delivery (permit : DeliveryPermit) (disposition : DeliveryDisposition) (s : MemoryState)
    : Answer unit :=
  match disposition with
  | Retryable => locked (λ s,
      (Ok tt, with_replays (delivery_auth_replays s)
                (delete (p_relay_pubkey permit, request_id permit) (delivery_request_replays s)) s)) s
  | Terminal => (Ok tt, s)
  end.

Definition reap_expired (now : Z) : MemoryState → Answer unit := locked (λ s,
  let s := with_challenges (filter (λ kv, (now <= ch_expires_at kv.2)%Z) (challenges s)) s in
  let s := with_replays (filter (λ kv, (now <= kv.2)%Z) (delivery_auth_replays s))
             (filter (λ kv, (now <= kv.2)%Z) (delivery_request_replays s)) s in
  (Ok tt, with_quotas (filter (λ kv, (saturating_sub now kv.2.1 < 86400)%Z) (endpoint_quotas s)) s)).

Definition ready (s : MemoryState) : Answer unit := locked (λ s, (Ok tt, s)) s.
