(* ===== verification/AuthorityProps.v ===== *)
(** * AuthorityProps: who may deliver to an endpoint, how often, and never twice

The calls of the authority's store in any order, under a clock that does not go
back and with installation ids that are drawn once, with a log of what was
accepted; the store against that log. *)
From S2P Require Import Prelude Nostr Encode Authority.

(** ** Calls and their log *)

Inductive Call : Type :=
| PutChallenge (challenge : Challenge)
| ConsumeChallenge (id : Uuid) (value : Bytes)
| CreateInstallation (n : NewInstallation)
| AdvanceCounter (id : Uuid) (previous next : N)
| UpsertDelegation (d : Delegation)
| RotateEndpoint (id : Uuid) (expected new : Z) (ciphertext fingerprint : Bytes)
| RevokeDelegation (id : Uuid) (relay : string) (gen : Z)
| RevokeInstallation (id : Uuid) (expected new : Z)
| AuthorizeDelivery (delegation_id : Uuid) (relay : string) (epoch gen : Z) (event_id : string) (req : Uuid)
    (req_expires_at : Z)
| FinishDelivery (permit : DeliveryPermit) (disposition : DeliveryDisposition)
| ReapExpired.

(** A delivery that was authorized. *)
Record Delivery : Type := mkDelivery {
  dl_time : Z;
  dl_delegation_id : Uuid;
  dl_relay : string;
  dl_epoch : Z;
  dl_generation : Z;
  dl_event : string;
  dl_request : Uuid;
  dl_request_expires_at : Z;
  dl_permit : DeliveryPermit;
  dl_fingerprint : Bytes            (* of the endpoint's token *)
}.

Inductive Entry : Type :=
| Created (n : NewInstallation)
| Advanced (id : Uuid) (counter : N)
| Upserted (d : Delegation)
| Rotated (id : Uuid) (epoch : Z) (ciphertext fingerprint : Bytes)
| RevokedD (id : Uuid) (relay : string) (gen : Z)
| RevokedI (id : Uuid)
| Delivered (dl : Delivery)
| Released (relay : string) (req : Uuid).

Definition forget {A : Type} (a : Answer A) : Answer (option DeliveryPermit) :=
  (let? _ := a.1 in Ok None, a.2).

Definition fingerprint_of (s : MemoryState) (p : DeliveryPermit) : Bytes :=
  match installations s !! a_installation_id (authority p) with Some i => token_fingerprint i | None => [] end.

Definition entries (now : Z) (c : Call) (s : MemoryState) (r : result (option DeliveryPermit) AuthorityError)
    : list Entry :=
  match r, c with
  | Ok _, CreateInstallation n => [Created n]
  | Ok _, AdvanceCounter id _ next => [Advanced id next]
  | Ok _, UpsertDelegation d => [Upserted d]
  | Ok _, RotateEndpoint id _ new ciphertext fingerprint => [Rotated id new ciphertext fingerprint]
  | Ok _, RevokeDelegation id relay gen => [RevokedD id relay gen]
  | Ok _, RevokeInstallation id _ _ => [RevokedI id]
  | Ok (Some p), AuthorizeDelivery did relay epoch gen event req exp =>
      [Delivered (mkDelivery now did relay epoch gen event req exp p (fingerprint_of s p))]
  | Ok _, FinishDelivery p Retryable => [Released (p_relay_pubkey p) (request_id p)]
  | _, _ => []
  end.

Section gateway.
Context {HO : HashOrder}.

(** The configured quota: so many deliveries per window. *)
Variables (window max_deliveries : Z).

Definition exec (now : Z) (c : Call) (s : MemoryState) : Answer (option DeliveryPermit) :=
  match c with
  | PutChallenge ch => forget (put_challenge ch s)
  | ConsumeChallenge id value => forget (consume_challenge id value now s)
  | CreateInstallation n => forget (create_installation n now s)
  | AdvanceCounter id previous next => forget (advance_assertion_counter id previous next s)
  | UpsertDelegation d => forget (upsert_delegation d s)
  | RotateEndpoint id expected new ciphertext fingerprint =>
      forget (rotate_endpoint id expected new ciphertext fingerprint s)
  | RevokeDelegation id relay gen => forget (revoke_delegation id relay gen s)
  | RevokeInstallation id expected new => forget (revoke_installation id expected new s)
  | AuthorizeDelivery did relay epoch gen event req exp =>
      let a := authorize_delivery did relay epoch gen event req exp window max_deliveries now s in
      (let? p := a.1 in Ok (Some p), a.2)
  | FinishDelivery p disposition => forget (finish_delivery p disposition s)
  | ReapExpired => forget (reap_expired now s)
  end.

(** The store, the last reading of the clock, the installation ids drawn so far,
and the log. *)
Record System : Type := mkSystem {
  store : MemoryState;
  clock : Z;
  used : gset Uuid;
  log : list Entry
}.

Definition drawn (c : Call) : gset Uuid :=
  match c with CreateInstallation n => {[n_id n]} | _ => ∅ end.

Inductive step (y : System) : System → Prop :=
| step_call now c r s' :
    (clock y <= now)%Z → drawn c ## used y → exec now c (store y) = (r, s') →
    step y (mkSystem s' now (drawn c ∪ used y) (log y ++ entries now c (store y) r)).

Inductive reachable : System → Prop :=
| reach_start now : reachable (mkSystem state_default now ∅ [])
| reach_step y y' : reachable y → step y y' → reachable y'.

(** ** What the log says *)

(** The installation an entry is about. *)
Definition about (e : Entry) : option Uuid :=
  match e with
  | Created n => Some (n_id n)
  | Advanced id _ => Some id
  | Upserted d => Some (installation_id d)
  | Rotated id _ _ _ => Some id
  | RevokedD id _ _ => Some id
  | RevokedI id => Some id
  | Delivered _ => None
  | Released _ _ => None
  end.

(** An installation's epoch, encrypted token and fingerprint, as it was last set. *)
Definition endpoint_step (id : Uuid) (p : option (Z * Bytes * Bytes)) (e : Entry) : option (Z * Bytes * Bytes) :=
  match e with
  | Created n => if bool_decide (n_id n = id)
                 then Some (n_endpoint_epoch n, n_token_ciphertext n, n_token_fingerprint n) else p
  | Rotated id' epoch ciphertext fingerprint =>
      if bool_decide (id' = id) then Some (epoch, ciphertext, fingerprint) else p
  | _ => p
  end.
Definition endpoint_of (l : list Entry) (id : Uuid) : option (Z * Bytes * Bytes) := foldl (endpoint_step id) None l.

(** A delivery the log [l] allows: its delegation is the newest for its
installation and relay and was not revoked, nor was the installation; the epoch
and the token are the installation's last; and the times fit. *)
Definition allowed (l : list Entry) (dl : Delivery) : Prop :=
  ∃ d, Upserted d ∈ l ∧ d_id d = dl_delegation_id dl ∧ relay_pubkey d = dl_relay dl
    ∧ generation d = dl_generation dl ∧ d_endpoint_epoch d = dl_epoch dl
    ∧ (not_before d <= dl_time dl <= dl_request_expires_at dl)%Z ∧ (dl_request_expires_at dl <= d_expires_at d)%Z
    ∧ (∀ d', Upserted d' ∈ l → installation_id d' = installation_id d → relay_pubkey d' = relay_pubkey d →
         (generation d' <= generation d)%Z)
    ∧ RevokedD (installation_id d) (dl_relay dl) (dl_generation dl) ∉ l
    ∧ RevokedI (installation_id d) ∉ l
    ∧ a_installation_id (authority (dl_permit dl)) = installation_id d
    ∧ endpoint_of l (installation_id d)
      = Some (dl_epoch dl, a_token_ciphertext (authority (dl_permit dl)), dl_fingerprint dl).

(** ** The store against the log *)

Definition inst_ok (l : list Entry) (id : Uuid) (i : Installation) : Prop :=
  i_id i = id ∧ (∃ n, Created n ∈ l ∧ n_id n = id) ∧ (RevokedI id ∈ l → i_revoked i = true)
  ∧ (i_revoked i = false → endpoint_of l id = Some (i_endpoint_epoch i, token_ciphertext i, token_fingerprint i))
  ∧ (∀ c, Advanced id c ∈ l → (c <= assertion_counter i)%N).

Definition revoked_copy (d0 d : Delegation) : Prop :=
  d = d0 ∨ d = mkDelegation (d_id d0) (installation_id d0) (relay_pubkey d0) (d_endpoint_epoch d0) (generation d0)
                 (not_before d0) (d_expires_at d0) true.

Record core_ok (s : MemoryState) (u : gset Uuid) (l : list Entry) : Prop := {
  co_lock : poisoned s = false;
  co_used e id : e ∈ l → about e = Some id → id ∈ u;
  co_inst id i : installations s !! id = Some i → inst_ok l id i;
  co_del k d : delegations s !! k = Some d →
    k = (installation_id d, relay_pubkey d) ∧ is_Some (installations s !! k.1)
    ∧ ∃ d0, Upserted d0 ∈ l ∧ revoked_copy d0 d;
  co_newest d' : Upserted d' ∈ l → is_Some (installations s !! installation_id d') →
    ∃ d, delegations s !! (installation_id d', relay_pubkey d') = Some d ∧ (generation d' <= generation d)%Z;
  co_revoked id rl g : RevokedD id rl g ∈ l → is_Some (installations s !! id) →
    ∃ d, delegations s !! (id, rl) = Some d ∧ ((g < generation d)%Z ∨ g = generation d ∧ d_revoked d = true);
  co_keys id id' i i' : installations s !! id = Some i → installations s !! id' = Some i' →
    i_revoked i = false → i_revoked i' = false → app_attest_key_id i = app_attest_key_id i' → id = id';
  co_delivered l1 dl l2 : l = l1 ++ Delivered dl :: l2 → allowed l1 dl;
  co_counters l1 id c l2 : l = l1 ++ Advanced id c :: l2 → ∀ c', Advanced id c' ∈ l1 → (c' < c)%N
}.

Lemma snoc_split {A : Type} (l l1 l2 : list A) x y :
  l ++ [x] = l1 ++ y :: l2 → (l = l1 ∧ x = y ∧ l2 = []) ∨ ∃ l2', l = l1 ++ y :: l2'.
Proof.
  destruct l2 as [|z l2 _] using rev_ind; [intros [-> ->]%app_inj_tail; by left|].
  rewrite app_comm_cons, app_assoc. intros [-> _]%app_inj_tail. right. by exists l2.
Qed.

(** Entries with a meaning of their own at the end of the log. *)
Lemma endpoint_snoc l e id : endpoint_of (l ++ [e]) id = endpoint_step id (endpoint_of l id) e.
Proof. unfold endpoint_of. by rewrite foldl_app. Qed.

(** An entry about another installation, or a delegation's, changes nothing. *)
Definition leaves (id : Uuid) (e : Entry) : Prop :=
  match e with
  | Created n => n_id n ≠ id
  | Advanced id' _ | Rotated id' _ _ _ | RevokedI id' => id' ≠ id
  | _ => True
  end.

Lemma inst_ok_snoc l id i e : leaves id e → inst_ok l id i → inst_ok (l ++ [e]) id i.
Proof.
  intros He (H1 & [n [Hn Hn']] & H3 & H4 & H5). split_and!; [done|exists n; set_solver|..].
  - rewrite elem_of_app, list_elem_of_singleton. intros [H|<-]; [auto|by cbn in He].
  - intros Hr. rewrite endpoint_snoc, H4 by done. destruct e; cbn in *; try done; by case_bool_decide.
  - intros c. rewrite elem_of_app, list_elem_of_singleton. intros [H|<-]; [auto|by cbn in He].
Qed.

(** The parts of a store the log is about. *)
Definition same_core (s s' : MemoryState) : Prop :=
  installations s' = installations s ∧ delegations s' = delegations s ∧ poisoned s' = poisoned s.

Lemma core_same s s' u l : same_core s s' → core_ok s u l → core_ok s' u l.
Proof. intros (H1 & H2 & H3) [? ? ? ? ? ? ? ? ?]. split; rewrite ?H1, ?H2, ?H3; done. Qed.

(** A [Delivered] that is allowed, or a [Released]. *)
Lemma core_snoc_silent s u l e :
  match e with Delivered dl => allowed l dl | Released _ _ => True | _ => False end →
  core_ok s u l → core_ok s u (l ++ [e]).
Proof.
  intros He Hok. assert (∀ x, x ∈ l ++ [e] → x ∈ l ∨ x = e) as Hin by set_solver.
  split; [apply Hok|..].
  - intros x id [Hx| ->]%Hin; [by apply (co_used _ _ _ Hok)|by destruct e].
  - intros id i Hi. apply inst_ok_snoc; [by destruct e|by apply (co_inst _ _ _ Hok)].
  - intros k d Hd. destruct (co_del _ _ _ Hok k d Hd) as (? & ? & d0 & ? & ?). split_and!; [done..|]. exists d0. set_solver.
  - intros d' [Hd|Hd]%Hin; [by apply (co_newest _ _ _ Hok)|by subst].
  - intros id rl g [Hd|Hd]%Hin; [by apply (co_revoked _ _ _ Hok)|by subst].
  - apply (co_keys _ _ _ Hok).
  - intros l1 dl l2 [(<- & -> & _)|[l2' H]]%snoc_split; [done|by apply (co_delivered _ _ _ Hok l1 dl l2')].
  - intros l1 id c l2 [(_ & -> & _)|[l2' H]]%snoc_split; [done|by apply (co_counters _ _ _ Hok l1 id c l2')].
Qed.

(** An installation changed in place. *)
Lemma core_update s u l id i i' e :
  core_ok s u l → installations s !! id = Some i →
  match e with
  | Advanced id' c => id' = id ∧ (∀ c', Advanced id c' ∈ l → (c' < c)%N)
  | Rotated id' _ _ _ => id' = id
  | RevokedI id' => id' = id
  | _ => False
  end →
  inst_ok (l ++ [e]) id i' → app_attest_key_id i' = app_attest_key_id i →
  (i_revoked i' = false → i_revoked i = false) →
  core_ok (set_installation id i' s) u (l ++ [e]).
Proof.
  intros Hok Hi He Hi' Hkey Hrev.
  assert (∀ x, x ∈ l ++ [e] → x ∈ l ∨ x = e) as Hin by set_solver.
  assert (id ∈ u) as Hu.
  { destruct (co_inst _ _ _ Hok id i Hi) as (_ & (n & Hn & <-) & _). by apply (co_used _ _ _ Hok (Created n)). }
  assert (∀ j, is_Some (installations (set_installation id i' s) !! j) → is_Some (installations s !! j)) as Hdom.
  { intros j. cbn. rewrite lookup_insert_is_Some. intros [<-|[_ H]]; [by eexists|done]. }
  split; cbn; [apply Hok|..].
  - intros x j [Hx| ->]%Hin; [by apply (co_used _ _ _ Hok)|]. destruct e; try done; cbn; intros [= <-].
    + by destruct He as [-> _].
    + by subst.
    + by subst.
  - intros j k [[<- <-]|[Hne H]]%lookup_insert_Some; [done|].
    apply inst_ok_snoc; [|by apply (co_inst _ _ _ Hok)]. destruct e; cbn; try done; [by destruct He as [-> _]|by subst..].
  - intros k d Hd. destruct (co_del _ _ _ Hok k d Hd) as (Hk & Hs & d0 & Hd0 & Hc).
    split_and!; [done|rewrite lookup_insert_is_Some'; by right|]. exists d0. set_solver.
  - intros d' [Hd|Hd]%Hin Hs; [by apply (co_newest _ _ _ Hok), Hdom|by subst].
  - intros j rl g [Hd|Hd]%Hin Hs; [by apply (co_revoked _ _ _ Hok), Hdom|by subst].
  - intros j j' k k' Hj Hj' Hr Hr' Heq.
    apply lookup_insert_Some in Hj as [[<- <-]|[Hne Hj]], Hj' as [[<- <-]|[Hne' Hj']]; try done.
    + apply (co_keys _ _ _ Hok id j' i k'); auto. congruence.
    + apply (co_keys _ _ _ Hok j id k i); auto. congruence.
    + by apply (co_keys _ _ _ Hok j j' k k').
  - intros l1 dl l2 [(_ & -> & _)|[l2' H]]%snoc_split; [done|by apply (co_delivered _ _ _ Hok l1 dl l2')].
  - intros l1 j c l2 [(<- & -> & _)|[l2' H]]%snoc_split; [by destruct He as [-> ?]|by apply (co_counters _ _ _ Hok l1 j c l2')].
Qed.

(** *** Creating an installation *)

Lemma remove_all_spec ids s :
  let s' := foldl (λ s id, remove_installation id s) s ids in
  (∀ j, installations s' !! j = if decide (j ∈ ids) then None else installations s !! j)
  ∧ (∀ k, delegations s' !! k = if decide (k.1 ∈ ids) then None else delegations s !! k)
  ∧ poisoned s' = poisoned s ∧ delivery_auth_replays s' = delivery_auth_replays s
  ∧ delivery_request_replays s' = delivery_request_replays s ∧ endpoint_quotas s' = endpoint_quotas s.
Proof.
  revert s. induction ids as [|id ids IH]; intros s; cbn [foldl].
  { split_and!; try done; intros j; by destruct (decide _) as [?%elem_of_nil|]. }
  destruct (IH (remove_installation id s)) as (H1 & H2 & H3 & H4 & H5 & H6). cbn zeta.
  assert (∀ j, installations (remove_installation id s) !! j = if decide (j = id) then None else installations s !! j) as E1.
  { intros j. unfold remove_installation. destruct (installations s !! id) eqn:Hid; cbn; destruct (decide (j = id)) as [->|];
      by simplify_map_eq. }
  assert (∀ k, delegations (remove_installation id s) !! k = if decide (k.1 = id) then None else delegations s !! k) as E2.
  { intros k. unfold remove_installation. destruct (installations s !! id); cbn;
      rewrite map_lookup_filter; destruct (delegations s !! k); cbn; by repeat case_decide || case_guard. }
  split_and!.
  - intros j. rewrite H1, E1. destruct (decide (j ∈ ids)), (decide (j ∈ id :: ids)), (decide (j = id)); set_solver.
  - intros k. rewrite H2, E2. destruct (decide (k.1 ∈ ids)), (decide (k.1 ∈ id :: ids)), (decide (k.1 = id)); set_solver.
  - rewrite H3. unfold remove_installation. by destruct (installations s !! id).
  - rewrite H4. unfold remove_installation. by destruct (installations s !! id).
  - rewrite H5. unfold remove_installation. by destruct (installations s !! id).
  - rewrite H6. unfold remove_installation. by destruct (installations s !! id).
Qed.

(** What a successful creation does. *)
Lemma create_spec n now s s' :
  poisoned s = false → (∀ id i, installations s !! id = Some i → i_id i = id) →
  create_installation n now s = (Ok tt, s') →
  installations s !! n_id n = None
  ∧ (∃ gone : list Uuid,
      (∀ id i, installations s !! id = Some i → i_revoked i = false → id ∉ gone → app_attest_key_id i ≠ n_app_attest_key_id n)
      ∧ (∀ j, installations s' !! j
              = if decide (j = n_id n) then Some (new_installation n)
                else if decide (j ∈ gone) then None else installations s !! j)
      ∧ (∀ k, delegations s' !! k = if decide (k.1 ∈ gone) then None else delegations s !! k))
  ∧ poisoned s' = false ∧ delivery_auth_replays s' = delivery_auth_replays s
  ∧ delivery_request_replays s' = delivery_request_replays s ∧ endpoint_quotas s' = endpoint_quotas s.
Proof.
  intros Hl Hids. unfold create_installation, locked. rewrite Hl. case_bool_decide as Hn; [done|].
  destruct (existsb _ _) eqn:Hlive; [done|]. set (gone := List.filter _ _). intros [= <-].
  destruct (remove_all_spec gone s) as (H1 & H2 & H3 & H4 & H5 & H6). cbn zeta in *.
  split; [by apply eq_None_not_Some|]. split; [|split_and!; cbn; congruence].
  exists gone. split_and!.
  - intros id i Hi Hr Hg Hkey. apply Hg. unfold gone.
    assert (id ∈ matching n s) as Hm.
    { unfold matching. apply list_elem_of_fmap. exists (id, i). split; [cbn; by rewrite (Hids id i)|].
      apply list_elem_of_filter. split; [cbn|by apply elem_of_hm_iter].
      unfold same_owner. by rewrite (bool_decide_eq_true_2 _ Hkey). }
    apply list_elem_of_In, filter_In. split; [by apply list_elem_of_In|].
    assert (found (is_live now) id s = false) as Hnl.
    { destruct (found (is_live now) id s) eqn:E; [|done]. rewrite <-Hlive. symmetry.
      apply existsb_exists. exists id. split; [by apply list_elem_of_In|done]. }
    unfold found in *. rewrite Hi in *. unfold is_live in Hnl. rewrite Hr in Hnl. cbn in Hnl.
    apply Z.leb_gt in Hnl. by apply Z.ltb_lt.
  - intros j. cbn. destruct (decide (j = n_id n)) as [->|]; [by rewrite lookup_insert_eq|].
    by rewrite lookup_insert_ne, H1 by done.
  - intros k. cbn. apply H2.
Qed.

Lemma core_create n now s s' u l :
  core_ok s u l → n_id n ∉ u → create_installation n now s = (Ok tt, s') →
  core_ok s' ({[n_id n]} ∪ u) (l ++ [Created n]).
Proof.
  intros Hok Hu Hc. apply create_spec in Hc as (_ & (gone & Hkeys & HI & HD) & Hlock & _);
    [|apply Hok|intros id i Hi; apply (co_inst _ _ _ Hok id i Hi)].
  assert (∀ x, x ∈ l ++ [Created n] → x ∈ l ∨ x = Created n) as Hin by set_solver.
  assert (∀ e, e ∈ l → about e ≠ Some (n_id n)) as Hfresh.
  { intros e He Hab. by apply Hu, (co_used _ _ _ Hok e). }
  assert (∀ j, is_Some (installations s' !! j) → j ≠ n_id n → j ∉ gone ∧ is_Some (installations s !! j)) as Hold.
  { intros j. rewrite HI. destruct (decide _); [done|]. destruct (decide _); [by intros [? ?]|done]. }
  split; [done|..].
  - intros e id [He| ->]%Hin; [intros Hab; apply (co_used _ _ _ Hok e id He) in Hab|cbn; intros [= <-]]; set_solver.
  - intros id i. rewrite HI. destruct (decide (id = n_id n)) as [->|Hne].
    + intros [= <-]. split_and!; cbn; [done|exists n; set_solver|..].
      * intros [H|H]%Hin; [by apply Hfresh in H|done].
      * intros _. rewrite endpoint_snoc. cbn. by rewrite bool_decide_eq_true_2.
      * intros c [H|H]%Hin; [by apply Hfresh in H|done].
    + destruct (decide _); [done|]. intros Hi. apply inst_ok_snoc; [cbn; congruence|by apply (co_inst _ _ _ Hok)].
  - intros k d. rewrite HD. destruct (decide (k.1 ∈ gone)) as [|Hk]; [done|]. intros Hd.
    destruct (co_del _ _ _ Hok k d Hd) as (Hk' & [i Hi] & d0 & Hd0 & Hcopy). split_and!; [done| |exists d0; set_solver].
    rewrite HI. destruct (decide _); [done|]. rewrite decide_False by done. by eexists.
  - intros d' [Hd|Hd]%Hin Hs; [|done]. assert (installation_id d' ≠ n_id n) as Hne by (intros E; apply (Hfresh _ Hd); by cbn; rewrite E).
    destruct (Hold _ Hs Hne) as [Hg Hi]. rewrite HD, decide_False by done. by apply (co_newest _ _ _ Hok).
  - intros id rl g [Hd|Hd]%Hin Hs; [|done]. assert (id ≠ n_id n) as Hne by (intros E; apply (Hfresh _ Hd); by cbn; rewrite E).
    destruct (Hold _ Hs Hne) as [Hg Hi]. rewrite HD, decide_False by done. by apply (co_revoked _ _ _ Hok).
  - intros j j' k k'. rewrite !HI.
    destruct (decide (j = n_id n)) as [->|], (decide (j' = n_id n)) as [->|];
      repeat (destruct (decide (_ ∈ gone)); try done).
    + by intros.
    + intros [= <-] Hk' _ Hr' Heq. by destruct (Hkeys _ _ Hk' Hr').
    + intros Hk [= <-] Hr _ Heq. by destruct (Hkeys _ _ Hk Hr).
    + by apply (co_keys _ _ _ Hok).
  - intros l1 dl l2 [(_ & ? & _)|[l2' H]]%snoc_split; [done|by apply (co_delivered _ _ _ Hok l1 dl l2')].
  - intros l1 j c l2 [(_ & ? & _)|[l2' H]]%snoc_split; [done|by apply (co_counters _ _ _ Hok l1 j c l2')].
Qed.

(** *** Changing an installation *)

Lemma locked_ok {A : Type} (k : MemoryState → Answer A) s u l : core_ok s u l → locked k s = k s.
Proof. intros Hok. unfold locked. by rewrite (co_lock _ _ _ Hok). Qed.

Lemma core_advance id previous next s s' u l :
  core_ok s u l → advance_assertion_counter id previous next s = (Ok tt, s') → core_ok s' u (l ++ [Advanced id next]).
Proof.
  intros Hok. unfold advance_assertion_counter. destruct (N.leb_spec next previous) as [|Hlt]; [done|].
  rewrite (locked_ok _ _ _ _ Hok). destruct (installations s !! id) as [i|] eqn:Hi; [|done].
  case_bool_decide as Hp; [done|]. intros [= <-].
  destruct (co_inst _ _ _ Hok id i Hi) as (H1 & [n [Hn Hn']] & H3 & H4 & H5).
  assert (assertion_counter i = previous) as Hc by (by destruct (decide (assertion_counter i = previous))).
  apply (core_update s u l id i); [done|done| | |done|done].
  - split; [done|]. intros c' H. apply H5 in H. lia.
  - split_and!; cbn; [done|exists n; set_solver|set_solver|by rewrite endpoint_snoc|].
    intros c [H|[= ->]%list_elem_of_singleton]%elem_of_app; [apply H5 in H|]; lia.
Qed.

Lemma core_rotate id expected new ciphertext fingerprint s s' u l :
  core_ok s u l → rotate_endpoint id expected new ciphertext fingerprint s = (Ok tt, s') →
  core_ok s' u (l ++ [Rotated id new ciphertext fingerprint]).
Proof.
  intros Hok. unfold rotate_endpoint. case_bool_decide; [done|]. rewrite (locked_ok _ _ _ _ Hok).
  destruct (installations s !! id) as [i|] eqn:Hi; [|done]. destruct (_ || _) eqn:Hr; [done|].
  apply orb_false_iff in Hr as [Hr _]. destruct (match token_owners s !! _ with Some _ => _ | None => _ end); [done|].
  intros [= <-]. destruct (co_inst _ _ _ Hok id i Hi) as (H1 & [n [Hn Hn']] & H3 & H4 & H5).
  set (s0 := with_token_owners _ s).
  apply (core_update s0 u l id i); [by apply (core_same s)|done|done| |done|done].
  split_and!; cbn; [done|exists n; set_solver|set_solver| |set_solver].
  intros _. rewrite endpoint_snoc. cbn. by rewrite bool_decide_eq_true_2.
Qed.

Lemma core_revoke_installation id expected new s s' u l :
  core_ok s u l → revoke_installation id expected new s = (Ok tt, s') → core_ok s' u (l ++ [RevokedI id]).
Proof.
  intros Hok. unfold revoke_installation. case_bool_decide; [done|]. rewrite (locked_ok _ _ _ _ Hok).
  destruct (installations s !! id) as [i|] eqn:Hi; [|done].
  destruct (co_inst _ _ _ Hok id i Hi) as (H1 & [n [Hn Hn']] & H3 & H4 & H5).
  assert (∀ i', i_id i' = id → i_revoked i' = true → assertion_counter i' = assertion_counter i →
    app_attest_key_id i' = app_attest_key_id i →
    core_ok (set_installation id i' s) u (l ++ [RevokedI id])) as Hset.
  { intros i' Hid Hr Hc Hkey. apply (core_update s u l id i); [done..| |done|congruence].
    split_and!; [done|exists n; set_solver|done|congruence|]. rewrite Hc. set_solver. }
  destruct (i_revoked i && _) eqn:Hrev.
  - intros [= <-]. apply andb_true_iff in Hrev as [Hrev _]. specialize (Hset i H1 Hrev eq_refl eq_refl).
    eapply core_same; [|exact Hset]. split_and!; try done. cbn. by rewrite insert_id.
  - destruct (_ || _); [done|]. intros [= <-]. by apply Hset.
Qed.

(** *** Delegations *)

Lemma core_upsert d s s' u l :
  core_ok s u l → upsert_delegation d s = (Ok tt, s') → core_ok s' u (l ++ [Upserted d]).
Proof.
  intros Hok. unfold upsert_delegation. rewrite (locked_ok _ _ _ _ Hok).
  destruct (installations s !! installation_id d) as [i|] eqn:Hi; [|done].
  destruct (_ || (d_expires_at d <=? not_before d)%Z); [done|].
  destruct (_ || bool_decide (is_Some (delegation_ids s !! d_id d))) eqn:Hg; [done|]. intros [= <-].
  apply orb_false_iff in Hg as [Hg _]. set (key := (installation_id d, relay_pubkey d)) in *.
  assert (∀ old, delegations s !! key = Some old → (generation old < generation d)%Z) as Hnewer.
  { intros old Hold. rewrite Hold in Hg. by apply Z.leb_gt. }
  assert (∀ x, x ∈ l ++ [Upserted d] → x ∈ l ∨ x = Upserted d) as Hin by set_solver.
  assert (∀ j, is_Some (<[installation_id d := with_expiry (Z.max (i_expires_at i) (d_expires_at d)) i]> (installations s) !! j)
    ↔ is_Some (installations s !! j)) as Hdom.
  { intros j. rewrite lookup_insert_is_Some. destruct (decide (installation_id d = j)) as [<-|]; [|naive_solver].
    split; [by eexists|by left]. }
  split; cbn; [apply Hok|..].
  - intros e id [He| ->]%Hin; [by apply (co_used _ _ _ Hok)|]. cbn. intros [= <-].
    destruct (co_inst _ _ _ Hok _ i Hi) as (_ & (n & Hn & <-) & _). by apply (co_used _ _ _ Hok (Created n)).
  - intros j k [[<- <-]|[Hne H]]%lookup_insert_Some; apply inst_ok_snoc; try done;
      [exact (co_inst _ _ _ Hok _ i Hi)|by apply (co_inst _ _ _ Hok)].
  - intros k d' [[<- <-]|[Hne H]]%lookup_insert_Some.
    + split_and!; [done|apply Hdom; by eexists|exists d; split; [set_solver|by left]].
    + destruct (co_del _ _ _ Hok k d' H) as (? & ? & d0 & ? & ?).
      split_and!; [done|by apply Hdom|exists d0; set_solver].
  - intros d' Hd Hs. apply Hdom in Hs. destruct (decide (key = (installation_id d', relay_pubkey d'))) as [Heq|Hne].
    + exists d. rewrite <-Heq, lookup_insert_eq. split; [done|]. destruct (Hin _ Hd) as [Hd'|[= ->]]; [|lia].
      destruct (co_newest _ _ _ Hok d' Hd' Hs) as (old & Hold & Hle). rewrite <-Heq in Hold. apply Hnewer in Hold. lia.
    + rewrite lookup_insert_ne by done. destruct (Hin _ Hd) as [Hd'|[= ->]]; [|done]. by apply (co_newest _ _ _ Hok).
  - intros id rl g [Hd|Hd]%Hin Hs; [|done]. apply Hdom in Hs.
    destruct (co_revoked _ _ _ Hok id rl g Hd Hs) as (old & Hold & Hle).
    destruct (decide (key = (id, rl))) as [Heq|Hne].
    + exists d. rewrite <-Heq, lookup_insert_eq. split; [done|]. rewrite <-Heq in Hold. apply Hnewer in Hold. left. lia.
    + exists old. by rewrite lookup_insert_ne.
  - intros j j' k k' Hj Hj' Hr Hr' Heq.
    assert (∀ j k, <[installation_id d := with_expiry (Z.max (i_expires_at i) (d_expires_at d)) i]> (installations s) !! j = Some k →
      ∃ k0, installations s !! j = Some k0 ∧ i_revoked k0 = i_revoked k ∧ app_attest_key_id k0 = app_attest_key_id k) as Hsame.
    { intros j0 k0 [[<- <-]|[_ H]]%lookup_insert_Some; [by exists i|by exists k0]. }
    apply Hsame in Hj as (k0 & Hj & E1 & E2), Hj' as (k0' & Hj' & E1' & E2').
    apply (co_keys _ _ _ Hok j j' k0 k0'); congruence.
  - intros l1 dl l2 [(_ & ? & _)|[l2' H]]%snoc_split; [done|by apply (co_delivered _ _ _ Hok l1 dl l2')].
  - intros l1 j c l2 [(_ & ? & _)|[l2' H]]%snoc_split; [done|by apply (co_counters _ _ _ Hok l1 j c l2')].
Qed.

Lemma core_revoke_delegation id relay gen s s' u l :
  core_ok s u l → revoke_delegation id relay gen s = (Ok tt, s') → core_ok s' u (l ++ [RevokedD id relay gen]).
Proof.
  intros Hok. unfold revoke_delegation. rewrite (locked_ok _ _ _ _ Hok).
  destruct (delegations s !! (id, relay)) as [d|] eqn:Hd; [|done]. case_bool_decide as Hgen; [done|].
  assert (generation d = gen) as <- by (by destruct (decide (gen = generation d))).
  destruct (co_del _ _ _ Hok _ d Hd) as ([= -> ->] & [i Hi] & d0 & Hd0 & Hcopy). cbn in Hi.
  set (rev := mkDelegation _ _ _ _ _ _ _ true).
  assert (core_ok (with_delegations (<[(installation_id d, relay_pubkey d) := rev]> (delegations s)) (delegation_ids s) s) u
    (l ++ [RevokedD (installation_id d) (relay_pubkey d) (generation d)])) as Hset.
  { set (e := RevokedD _ _ _). assert (∀ x, x ∈ l ++ [e] → x ∈ l ∨ x = e) as Hin by set_solver.
    assert (∀ k x, delegations s !! k = Some x → ∃ x', <[(installation_id d, relay_pubkey d) := rev]> (delegations s) !! k = Some x'
      ∧ generation x' = generation x ∧ (d_revoked x = true → d_revoked x' = true)) as Hnew.
    { intros k x Hx. destruct (decide ((installation_id d, relay_pubkey d) = k)) as [<-|Hne].
      - exists rev. rewrite lookup_insert_eq. rewrite Hd in Hx. by injection Hx as <-.
      - exists x. by rewrite lookup_insert_ne. }
    split; cbn; [apply Hok|..].
    - intros x j [Hx| ->]%Hin; [by apply (co_used _ _ _ Hok)|]. cbn. intros [= <-].
      destruct (co_inst _ _ _ Hok _ i Hi) as (_ & (n & Hn & <-) & _). by apply (co_used _ _ _ Hok (Created n)).
    - intros j k Hj. apply inst_ok_snoc; [done|by apply (co_inst _ _ _ Hok)].
    - intros k x [[<- <-]|[Hne H]]%lookup_insert_Some.
      + split_and!; [done|by eexists|]. exists d0. split; [set_solver|]. right. destruct Hcopy as [->| ->]; done.
      + destruct (co_del _ _ _ Hok k x H) as (? & ? & d1 & ? & ?). split_and!; [done..|]. exists d1. set_solver.
    - intros d' [H|H]%Hin Hs; [|done]. destruct (co_newest _ _ _ Hok d' H Hs) as (x & Hx & Hle).
      destruct (Hnew _ _ Hx) as (x' & Hx' & Hg & _). exists x'. by rewrite Hg.
    - intros j rl g [H|[= -> -> ->]]%Hin Hs.
      + destruct (co_revoked _ _ _ Hok j rl g H Hs) as (x & Hx & Hle).
        destruct (Hnew _ _ Hx) as (x' & Hx' & Hg & Hr). exists x'. rewrite Hg. naive_solver.
      + exists rev. rewrite lookup_insert_eq. split; [done|by right].
    - apply (co_keys _ _ _ Hok).
    - intros l1 dl l2 [(_ & ? & _)|[l2' H]]%snoc_split; [done|by apply (co_delivered _ _ _ Hok l1 dl l2')].
    - intros l1 j c l2 [(_ & ? & _)|[l2' H]]%snoc_split; [done|by apply (co_counters _ _ _ Hok l1 j c l2')]. }
  destruct (d_revoked d) eqn:Hrev; intros [= <-]; [|done].
  eapply core_same; [|exact Hset]. split_and!; try done. cbn. rewrite insert_id; [done|].
  rewrite Hd. f_equal. unfold rev. destruct d; cbn in *. by subst.
Qed.

(** *** Deliveries *)

Lemma refuses_false d i did relay epoch gen exp now :
  refuses d i did relay epoch gen exp now = false →
  d_revoked d = false ∧ i_revoked i = false ∧ d_id d = did ∧ relay_pubkey d = relay ∧ d_endpoint_epoch d = epoch
  ∧ generation d = gen ∧ i_endpoint_epoch i = epoch ∧ (not_before d <= now <= exp)%Z ∧ (exp <= d_expires_at d)%Z.
Proof.
  unfold refuses. rewrite !orb_false_iff, !bool_decide_eq_false, !Z.ltb_ge.
  intros (((((((((((? & ?) & ?) & ?) & ?) & ?) & ?) & ?) & ?) & ?) & ?) & ?).
  split_and!; try done; by apply dec_stable.
Qed.

(** What an authorization meant, and left. *)
Lemma authorize_Ok did relay epoch gen event req exp now p s s' :
  poisoned s = false →
  authorize_delivery did relay epoch gen event req exp window max_deliveries now s = (Ok p, s') →
  ∃ key d i, delegations s !! key = Some d ∧ installations s !! installation_id d = Some i
    ∧ refuses d i did relay epoch gen exp now = false
    ∧ p = mkPermit (mkAuthority did (i_id i) relay (profile i) (token_ciphertext i) epoch gen (d_expires_at d)) relay req
    ∧ delivery_auth_replays s !! (relay, event) = None ∧ delivery_request_replays s !! (relay, req) = None
    ∧ let q := quota_entry (token_fingerprint i) window now s in
      (q.2 < max_deliveries)%Z
      ∧ s' = with_replays (<[(relay, event) := exp]> (delivery_auth_replays s))
               (<[(relay, req) := exp]> (delivery_request_replays s))
               (with_quotas (<[token_fingerprint i := (q.1, q.2 + 1)%Z]> (endpoint_quotas s)) s).
Proof.
  intros Hl. unfold authorize_delivery, locked. rewrite Hl.
  destruct (delegation_ids s !! did) as [key|]; [|done]. destruct (delegations s !! key) as [d|] eqn:Hd; [|done].
  destruct (installations s !! installation_id d) as [i|] eqn:Hi; [|done].
  destruct (refuses _ _ _ _ _ _ _ _) eqn:Hr; [done|]. destruct (_ || _) eqn:Hrep; [done|].
  apply orb_false_iff in Hrep as [Ha%bool_decide_eq_false Hq%bool_decide_eq_false].
  destruct (Z.leb_spec max_deliveries (quota_entry (token_fingerprint i) window now s).2); [done|].
  intros [= <- <-]. exists key, d, i. split_and!; try done; by apply eq_None_not_Some.
Qed.

(** A refusal leaves all but the quota's window. *)
Lemma authorize_Err did relay epoch gen event req exp now e s s' :
  poisoned s = false →
  authorize_delivery did relay epoch gen event req exp window max_deliveries now s = (Err e, s') →
  s' = s ∨ ∃ fp, s' = with_quotas (<[fp := quota_entry fp window now s]> (endpoint_quotas s)) s
                 ∧ (max_deliveries <= (quota_entry fp window now s).2)%Z.
Proof.
  intros Hl. unfold authorize_delivery, locked. rewrite Hl.
  destruct (delegation_ids s !! did) as [key|]; [|intros [= _ <-]; by left].
  destruct (delegations s !! key) as [d|]; [|intros [= _ <-]; by left].
  destruct (installations s !! installation_id d) as [i|]; [|intros [= _ <-]; by left].
  destruct (refuses _ _ _ _ _ _ _ _); [intros [= _ <-]; by left|].
  destruct (_ || _); [intros [= _ <-]; by left|].
  destruct (Z.leb_spec max_deliveries (quota_entry (token_fingerprint i) window now s).2); [|done].
  intros [= _ <-]. right. by eexists.
Qed.

Lemma core_authorize did relay epoch gen event req exp now p s s' u l :
  core_ok s u l →
  authorize_delivery did relay epoch gen event req exp window max_deliveries now s = (Ok p, s') →
  core_ok s' u (l ++ [Delivered (mkDelivery now did relay epoch gen event req exp p (fingerprint_of s p))]).
Proof.
  intros Hok Ha. apply authorize_Ok in Ha as (key & d & i & Hd & Hi & Hr & -> & _ & _ & _ & ->); [|apply Hok].
  eapply core_same; [|apply (core_snoc_silent s u l); [|done]]; [done|].
  apply refuses_false in Hr as (Hdr & Hir & <- & <- & <- & <- & Hep & Ht & Hexp).
  destruct (co_del _ _ _ Hok key d Hd) as (-> & _ & d0 & Hd0 & Hcopy).
  destruct (co_inst _ _ _ Hok _ i Hi) as (Hid & _ & Hrev & Hend & _).
  exists d. cbn. split_and!; try done; try lia.
  - destruct Hcopy as [->| ->]; done.
  - intros d' Hd' E1 E2. destruct (co_newest _ _ _ Hok d' Hd') as (x & Hx & Hle); [rewrite E1; by eexists|].
    rewrite E1, E2, Hd in Hx. by injection Hx as <-.
  - intros H. destruct (co_revoked _ _ _ Hok _ _ _ H) as (x & Hx & Hle); [by eexists|].
    rewrite Hd in Hx. injection Hx as <-. destruct Hle as [?|[_ ?]]; [lia|congruence].
  - intros H. apply Hrev in H. congruence.
  - unfold fingerprint_of. cbn. rewrite Hid, Hi, (Hend Hir), Hep. done.
Qed.

(** ** Every call keeps the store and the log in agreement *)

Lemma forget_Ok {A : Type} (a : Answer A) r s' :
  forget a = (r, s') → (∃ x, a = (Ok x, s') ∧ r = Ok None) ∨ (∃ e, a = (Err e, s') ∧ r = Err e).
Proof. destruct a as [[x|e] s]; intros [= <- <-]; [left|right]; by eexists. Qed.

Lemma core_weaken s u u' l : u ⊆ u' → core_ok s u l → core_ok s u' l.
Proof. intros Hu [? Hused ? ? ? ? ? ? ?]. split; try done. intros e id He Hab. by apply Hu, (Hused e). Qed.

(** A refused call, and one about challenges, deliveries or clean-up, leaves
installations and delegations alone. *)
Lemma refused_same now c s e s' : poisoned s = false → exec now c s = (Err e, s') → same_core s s'.
Proof.
  intros Hl Hex.
  assert (∀ did relay epoch gen event req exp,
    exec now (AuthorizeDelivery did relay epoch gen event req exp) s = (Err e, s') → same_core s s') as Hauth.
  { intros did relay epoch gen event req exp. cbn.
    destruct (authorize_delivery _ _ _ _ _ _ _ _ _ _ _) as [[p|e'] s1] eqn:Ha; [done|]. intros [= _ <-].
    apply authorize_Err in Ha as [->|(fp & -> & _)]; done. }
  destruct c; [..|by eapply Hauth| |]; cbn in Hex;
    apply forget_Ok in Hex as [(? & _ & ?)|(e' & Hex & _)]; try done.
  - unfold put_challenge, locked in Hex. rewrite Hl in Hex. split_matches.
  - unfold consume_challenge, locked in Hex. rewrite Hl in Hex. split_matches.
  - unfold create_installation, locked in Hex. rewrite Hl in Hex. split_matches.
  - unfold advance_assertion_counter, locked in Hex. rewrite Hl in Hex. split_matches.
  - unfold upsert_delegation, locked in Hex. rewrite Hl in Hex. split_matches.
  - unfold rotate_endpoint, locked in Hex. rewrite Hl in Hex. split_matches.
  - unfold revoke_delegation, locked in Hex. rewrite Hl in Hex. split_matches.
  - unfold revoke_installation, locked in Hex. rewrite Hl in Hex. split_matches.
  - unfold finish_delivery, locked in Hex. rewrite Hl in Hex. split_matches.
  - unfold reap_expired, locked in Hex. by rewrite Hl in Hex.
Qed.

Lemma core_step y y' : core_ok (store y) (used y) (log y) → step y y' → core_ok (store y') (used y') (log y').
Proof.
  intros Hok [now c r s' _ Hfresh Hex]. cbn. pose proof (co_lock _ _ _ Hok) as Hl.
  destruct r as [o|e].
  2:{ cbn. rewrite app_nil_r. eapply core_same; [by eapply refused_same|].
      eapply core_weaken; [|exact Hok]. set_solver. }
  assert (∀ s l, core_ok s (used y) l → core_ok s (∅ ∪ used y) l) as Hu
    by (intros; eapply core_weaken; [|done]; set_solver).
  destruct c; [| | | | | | | | | |]; cbn in Hex;
    try (apply forget_Ok in Hex as [([] & Hex & ->)|(? & _ & ?)]; [|done]).
  - apply Hu. cbn. rewrite app_nil_r. unfold put_challenge, locked in Hex. rewrite Hl in Hex.
    split_matches. by eapply (core_same (store y)).
  - apply Hu. cbn. rewrite app_nil_r. unfold consume_challenge, locked in Hex. rewrite Hl in Hex.
    split_matches. by eapply (core_same (store y)).
  - apply (core_create _ now (store y)); [done|set_solver|done].
  - apply Hu. by eapply core_advance.
  - apply Hu. by eapply core_upsert.
  - apply Hu. by eapply core_rotate.
  - apply Hu. by eapply core_revoke_delegation.
  - apply Hu. by eapply core_revoke_installation.
  - apply Hu. destruct (authorize_delivery _ _ _ _ _ _ _ _ _ _ _) as [[p|e'] s1] eqn:Ha; [|done].
    injection Hex as <- <-. by eapply core_authorize.
  - apply Hu. unfold finish_delivery, locked in Hex. destruct disposition; [|rewrite Hl in Hex]; injection Hex as <-; cbn.
    + by rewrite app_nil_r.
    + eapply core_same; [|by apply core_snoc_silent]. done.
  - apply Hu. cbn. rewrite app_nil_r. unfold reap_expired, locked in Hex. rewrite Hl in Hex. injection Hex as <-.
    by eapply (core_same (store y)).
Qed.

Lemma core_start now : core_ok (store (mkSystem state_default now ∅ [])) ∅ [].
Proof.
  split; cbn; try done; try (by intros; set_solver).
  - intros [|] ? ?; done.
  - intros [|] ? ? ?; done.
Qed.

Lemma authority_core y : reachable y → core_ok (store y) (used y) (log y).
Proof. induction 1 as [now|y y' _ IH H]; [apply (core_start now)|by apply (core_step y)]. Qed.

(** Calls that are not about deliveries leave replays and quotas alone. *)
Definition about_deliveries (c : Call) : bool :=
  match c with AuthorizeDelivery _ _ _ _ _ _ _ | FinishDelivery _ _ | ReapExpired => true | _ => false end.

Definition same_limits (s s' : MemoryState) : Prop :=
  delivery_auth_replays s' = delivery_auth_replays s ∧ delivery_request_replays s' = delivery_request_replays s
  ∧ endpoint_quotas s' = endpoint_quotas s.

Definition quiet (e : Entry) : Prop := match e with Delivered _ | Released _ _ => False | _ => True end.

Lemma entries_quiet now c s r : about_deliveries c = false → Forall quiet (entries now c s r).
Proof. destruct r as [[p|]|e], c; intros [=]; cbn; by repeat constructor. Qed.

Lemma exec_same_limits now c s u l r s' :
  core_ok s u l → about_deliveries c = false → exec now c s = (r, s') → same_limits s s'.
Proof.
  intros Hok Hc Hex. pose proof (co_lock _ _ _ Hok) as Hl.
  destruct c; try done; cbn in Hex; apply forget_Ok in Hex as [([] & Hex & _)|(e & Hex & _)];
    try (match type of Hex with create_installation _ _ _ = (Ok _, _) =>
           apply create_spec in Hex as (_ & _ & _ & ? & ? & ?); [done|done|] end;
         intros id i Hi; by apply (co_inst _ _ _ Hok id i Hi));
    unfold put_challenge, consume_challenge, create_installation, advance_assertion_counter, upsert_delegation,
      rotate_endpoint, revoke_delegation, revoke_installation, locked in Hex;
    rewrite ?Hl in Hex; split_matches.
Qed.

(** ** Who may deliver *)

(** C22. A delivery is authorized only by authority that stands.  In every history
of the store's calls, an authorized delivery names the newest delegation of its
installation to the signing relay, with its generation and epoch, inside its
time bounds; before it, neither that delegation nor the installation was
revoked; and the token it is sent to is the one the installation last set, under
the epoch named.  So a revocation, a newer delegation and a rotation each stop
every later delivery under the old authority. *)
Theorem deliveries_are_allowed y l1 dl l2 : reachable y → log y = l1 ++ Delivered dl :: l2 → allowed l1 dl.
Proof. intros Hr. apply (co_delivered _ _ _ (authority_core y Hr)). Qed.

(** At most one installation that is not revoked holds an App Attest key, every
delegation belongs to an installation that exists, and the assertion counters
accepted for an installation only increase, so that no signed assertion is
accepted twice. *)
Theorem installations_well_formed y :
  reachable y →
  (∀ id id' i i', installations (store y) !! id = Some i → installations (store y) !! id' = Some i' →
     i_revoked i = false → i_revoked i' = false → app_attest_key_id i = app_attest_key_id i' → id = id')
  ∧ (∀ k d, delegations (store y) !! k = Some d →
       k = (installation_id d, relay_pubkey d) ∧ is_Some (installations (store y) !! installation_id d))
  ∧ (∀ l1 id c l2 c', log y = l1 ++ Advanced id c :: l2 → Advanced id c' ∈ l1 → (c' < c)%N).
Proof.
  intros Hok%authority_core. split_and!; [apply (co_keys _ _ _ Hok)| |].
  - intros k d Hd. destruct (co_del _ _ _ Hok k d Hd) as (-> & Hs & _). done.
  - intros l1 id c l2 c' Hl. by apply (co_counters _ _ _ Hok l1 id c l2 Hl).
Qed.
End gateway.
