(* ===== verification/AuthorityLimits.v ===== *)
(** * AuthorityLimits: no delivery twice, and only so many

The replay fences and the quotas of the authority's store against the log of
[AuthorityProps], with the clean-up that forgets old entries running at any
time. *)
From S2P Require Import Prelude Nostr Encode Authority AuthorityProps.

(** ** Counting deliveries *)

Definition delivered (e : Entry) : option Delivery := match e with Delivered dl => Some dl | _ => None end.
Definition deliveries (l : list Entry) : list Delivery := omap delivered l.

Lemma elem_of_deliveries dl l : dl ∈ deliveries l ↔ Delivered dl ∈ l.
Proof.
  unfold deliveries. rewrite list_elem_of_omap. split; [|by exists (Delivered dl)].
  intros (e & He & Hd). destruct e; try done. by injection Hd as ->.
Qed.

Lemma deliveries_app l l' : deliveries (l ++ l') = deliveries l ++ deliveries l'.
Proof. apply omap_app. Qed.

Lemma quiet_no_deliveries l : Forall quiet l → deliveries l = [].
Proof. induction 1 as [|e l He _ IH]; [done|]. by destruct e. Qed.

(** The deliveries to an endpoint at times from [a], before [b]. *)
Definition sent (f : Bytes) (a b : Z) (dl : Delivery) : Prop :=
  dl_fingerprint dl = f ∧ (a <= dl_time dl)%Z ∧ (dl_time dl < b)%Z.
#[export] Instance sent_dec f a b dl : Decision (sent f a b dl).
Proof. unfold sent. apply _. Defined.

Definition sent_count (f : Bytes) (a b : Z) (l : list Entry) : Z := Z.of_nat (length (filter (sent f a b) (deliveries l))).

Lemma sent_count_snoc f a b l dl :
  sent_count f a b (l ++ [Delivered dl]) = (sent_count f a b l + if decide (sent f a b dl) then 1 else 0)%Z.
Proof.
  unfold sent_count. rewrite deliveries_app. cbn. rewrite filter_app, length_app. unfold filter at 2, list_filter. cbn.
  destruct (decide _); cbn; lia.
Qed.

(** What one interval counts, two that cover it count. *)
Lemma sent_count_cover f a b c d e g l :
  (∀ dl, Delivered dl ∈ l → sent f a b dl → sent f c d dl ∨ sent f e g dl) →
  (sent_count f a b l <= sent_count f c d l + sent_count f e g l)%Z.
Proof.
  unfold sent_count. setoid_rewrite <-elem_of_deliveries.
  induction (deliveries l) as [|dl ds IH]; intros H; [done|]. rewrite !filter_cons.
  assert (∀ dl', dl' ∈ ds → sent f a b dl' → sent f c d dl' ∨ sent f e g dl') as H' by set_solver.
  specialize (IH H'). specialize (H dl ltac:(set_solver)).
  destruct (decide (sent f a b dl)), (decide (sent f c d dl)), (decide (sent f e g dl)); cbn [length]; try lia.
  destruct (H ltac:(done)); done.
Qed.

Lemma sent_count_none f a b l : (∀ dl, Delivered dl ∈ l → ¬ sent f a b dl) → sent_count f a b l = 0%Z.
Proof.
  unfold sent_count. setoid_rewrite <-elem_of_deliveries.
  induction (deliveries l) as [|dl ds IH]; intros H; [done|]. rewrite filter_cons.
  rewrite decide_False by (apply H; set_solver). apply IH. set_solver.
Qed.

Lemma sent_count_mono f a b c d l :
  (∀ dl, Delivered dl ∈ l → sent f a b dl → sent f c d dl) → (sent_count f a b l <= sent_count f c d l)%Z.
Proof.
  intros H. pose proof (sent_count_cover f a b c d 0 0 l) as Hc.
  rewrite (sent_count_none f 0 0 l) in Hc by (intros dl _ (_ & ? & ?); lia). rewrite Z.add_0_r in Hc. apply Hc. eauto.
Qed.

Lemma window_over w a b : (0 < w <= 86400)%Z → (w <=? saturating_sub a b)%Z = true ↔ (w <= a - b)%Z.
Proof. unfold saturating_sub, i64_min, i64_max. rewrite Z.leb_le. lia. Qed.

Section gateway.
Context {HO : HashOrder}.
Variables (window max_deliveries : Z).
Hypothesis Hwindow : (0 < window <= 86400)%Z.
Hypothesis Hmax : (0 < max_deliveries)%Z.

(** ** Quotas *)

(** What an entry of the quotas, or its absence, says of the deliveries so far. *)
Definition quota_holds (l : list Entry) (now : Z) (f : Bytes) (q : option (Z * Z)) : Prop :=
  match q with
  | Some (st, n) =>
      (st <= now)%Z ∧ (0 <= n <= max_deliveries)%Z
      ∧ (∀ dl, Delivered dl ∈ l → dl_fingerprint dl = f → (dl_time dl < st + window)%Z)
      ∧ (sent_count f st (st + window) l <= n)%Z ∧ (sent_count f (st - window + 1) st l <= max_deliveries)%Z
  | None =>
      (∀ dl, Delivered dl ∈ l → dl_fingerprint dl = f → (dl_time dl < now)%Z)
      ∧ (sent_count f (now - window + 1) now l <= max_deliveries)%Z
  end.

Definition quotas_ok (s : MemoryState) (now : Z) (l : list Entry) : Prop :=
  (∀ f, quota_holds l now f (endpoint_quotas s !! f))
  ∧ (∀ f t, (sent_count f t (t + window) l <= 2 * max_deliveries)%Z).

Lemma quota_holds_later l now now' f q : (now <= now')%Z → quota_holds l now f q → quota_holds l now' f q.
Proof.
  intros Hle. destruct q as [[st n]|]; cbn; [intros (? & ?); split; [lia|done]|].
  intros [Ht Hc]. split; [intros dl H1 H2; specialize (Ht dl H1 H2); lia|].
  etrans; [|exact Hc]. apply sent_count_mono. unfold sent. intros dl Hdl (Hf & ? & ?). specialize (Ht dl Hdl Hf). split_and!; [done|lia..].
Qed.

(** An entry whose window is over tells what its absence would. *)
Lemma quota_holds_over l now f st n : (window <= now - st)%Z → quota_holds l now f (Some (st, n)) → quota_holds l now f None.
Proof.
  intros Hover (Hst & Hn & Ht & Hc & _). split.
  - intros dl H1 H2. specialize (Ht dl H1 H2). lia.
  - transitivity (sent_count f st (st + window) l); [|lia]. apply sent_count_mono. unfold sent.
    intros dl Hdl (Hf & ? & ?). specialize (Ht dl Hdl Hf). split_and!; [done|lia..].
Qed.

(** The entry an authorization finds or makes. *)
Lemma quota_entry_holds s now l f :
  quota_holds l now f (endpoint_quotas s !! f) → quota_holds l now f (Some (quota_entry f window now s))
  ∧ (now < (quota_entry f window now s).1 + window)%Z.
Proof.
  intros Hq. assert (quota_holds l now f None → quota_holds l now f (Some (now, 0%Z))) as Hnew.
  { intros [Ht Hc]. cbn. split_and!; try lia.
    - intros dl H1 H2. specialize (Ht dl H1 H2). lia.
    - rewrite sent_count_none; [done|]. unfold sent. intros dl H1 (H2 & ? & _). specialize (Ht dl H1 H2). lia. }
  unfold quota_entry. destruct (endpoint_quotas s !! f) as [[st n]|]; cbn [default Datatypes.id fst snd].
  - destruct (Z.leb_spec window (saturating_sub now st)) as [Hle|Hlt]; cbn [fst].
    + split; [|lia]. eapply Hnew, quota_holds_over; [|done]. apply window_over; [lia|]. by apply Z.leb_le.
    + split; [done|]. assert (¬ (window <= now - st)%Z); [|lia]. rewrite <-window_over, Z.leb_le by lia. cbn in Hlt. lia.
  - destruct (Z.leb_spec window (saturating_sub now now)) as [Hle|Hlt]; cbn [fst]; (split; [by apply Hnew|lia]).
Qed.

Lemma quotas_ok_reset s now l f :
  quotas_ok s now l →
  quotas_ok (with_quotas (<[f := quota_entry f window now s]> (endpoint_quotas s)) s) now l.
Proof.
  intros [H1 H2]. split; [|done]. intros g. cbn. destruct (decide (f = g)) as [<-|].
  - rewrite lookup_insert_eq. by apply quota_entry_holds.
  - by rewrite lookup_insert_ne.
Qed.

Lemma quotas_ok_deliver s s' now l dl :
  let f := dl_fingerprint dl in
  let q := quota_entry f window now s in
  quotas_ok s now l → dl_time dl = now → (q.2 < max_deliveries)%Z →
  endpoint_quotas s' = <[f := (q.1, q.2 + 1)%Z]> (endpoint_quotas s) →
  quotas_ok s' now (l ++ [Delivered dl]).
Proof.
  intros f q [H1 H2] Ht Hlt Hs'. destruct (quota_entry_holds s now l f (H1 f)) as [Hq Hin]. fold q in Hq, Hin.
  destruct q as [st n]. cbn [fst snd] in *. cbn in Hq. destruct Hq as (Hst & Hn & Hb & Hc & Hp).
  assert (∀ g a b, (if decide (sent g a b dl) then 1 else 0)%Z = if decide (g = f ∧ (a <= now < b)%Z) then 1%Z else 0%Z) as Hdl.
  { intros g a b. destruct (decide (sent g a b dl)) as [Hs|Hs], (decide (g = f ∧ _)) as [Hd|Hd]; try done; exfalso;
      unfold sent in Hs; rewrite Ht in Hs; [apply Hd|apply Hs]; naive_solver. }
  assert (∀ d', Delivered d' ∈ l ++ [Delivered dl] → Delivered d' ∈ l ∨ d' = dl) as Hin' by set_solver.
  split.
  - intros g. rewrite Hs'. destruct (decide (f = g)) as [<-|Hne].
    + rewrite lookup_insert_eq. cbn. rewrite !sent_count_snoc, !Hdl. split_and!; try lia.
      * intros d' [Hd'| ->]%Hin' Hf; [by apply Hb|lia].
      * destruct (decide _); lia.
      * rewrite decide_False by lia. lia.
    + rewrite lookup_insert_ne by done. specialize (H1 g).
      assert (∀ a b, sent_count g a b (l ++ [Delivered dl]) = sent_count g a b l) as Hg.
      { intros a b. rewrite sent_count_snoc, Hdl, decide_False by naive_solver. lia. }
      unfold quota_holds in *. destruct (endpoint_quotas s !! g) as [[st' n']|]; rewrite !Hg.
      * destruct H1 as (? & ? & Hb' & ? & ?). split_and!; try done; try lia. intros d' [Hd'| ->]%Hin' Hf; [by apply Hb'|done].
      * destruct H1 as (Hb' & ?). split; [|done]. intros d' [Hd'| ->]%Hin' Hf; [by apply Hb'|done].
  - intros g t. rewrite sent_count_snoc, Hdl. destruct (decide _) as [[-> Hw]|]; [|specialize (H2 g t); lia].
    transitivity (sent_count f (st - window + 1) st l + sent_count f st (st + window) l + 1)%Z; [|lia].
    assert (sent_count f t (t + window) l <= sent_count f (st - window + 1) st l + sent_count f st (st + window) l)%Z; [|lia].
    apply sent_count_cover. unfold sent. intros d' Hd' (Hf & ? & ?). specialize (Hb d' Hd' Hf).
    destruct (Z.lt_ge_cases (dl_time d') st); [left|right]; split_and!; first [done|lia].
Qed.

(** ** Replays *)

Record replays_ok (s : MemoryState) (now : Z) (l : list Entry) : Prop := {
  rp_event dl : Delivered dl ∈ l →
    (∃ e, delivery_auth_replays s !! (dl_relay dl, dl_event dl) = Some e ∧ (dl_request_expires_at dl <= e)%Z)
    ∨ (dl_request_expires_at dl < now)%Z;
  rp_request l1 dl l2 : l = l1 ++ Delivered dl :: l2 → Released (dl_relay dl) (dl_request dl) ∉ l2 →
    (∃ e, delivery_request_replays s !! (dl_relay dl, dl_request dl) = Some e ∧ (dl_request_expires_at dl <= e)%Z)
    ∨ (dl_request_expires_at dl < now)%Z;
  rp_order l1 a l2 b l3 : l = l1 ++ Delivered a :: l2 ++ Delivered b :: l3 → dl_relay a = dl_relay b →
    (dl_event a = dl_event b → (dl_request_expires_at a < dl_request_expires_at b)%Z)
    ∧ (dl_request a = dl_request b → Released (dl_relay a) (dl_request a) ∉ l2 →
       (dl_request_expires_at a < dl_request_expires_at b)%Z)
}.

Lemma snoc_split_at {A : Type} (l l1 l2 : list A) x y :
  l ++ [x] = l1 ++ y :: l2 → (l = l1 ∧ x = y ∧ l2 = []) ∨ ∃ l2', l = l1 ++ y :: l2' ∧ l2 = l2' ++ [x].
Proof.
  destruct l2 as [|z l2 _] using rev_ind; [intros [-> ->]%app_inj_tail; by left|].
  rewrite app_comm_cons, app_assoc. intros [-> ->]%app_inj_tail. right. by exists l2.
Qed.

Lemma replays_later s s' now now' l :
  (now <= now')%Z → delivery_auth_replays s' = delivery_auth_replays s →
  delivery_request_replays s' = delivery_request_replays s → replays_ok s now l → replays_ok s' now' l.
Proof.
  intros Hle E1 E2 [H1 H2 H3]. split; rewrite ?E1, ?E2; [| |done].
  - intros dl [?|?]%H1; [by left|right; lia].
  - intros l1 dl l2 Hl Hr. destruct (H2 l1 dl l2 Hl Hr); [by left|right; lia].
Qed.

(** An entry that is no delivery; a [Released] comes with its key's removal. *)
Lemma replays_snoc s s' now l e :
  match e with
  | Delivered _ => False
  | Released relay req => delivery_request_replays s' = delete (relay, req) (delivery_request_replays s)
  | _ => delivery_request_replays s' = delivery_request_replays s
  end →
  delivery_auth_replays s' = delivery_auth_replays s → replays_ok s now l → replays_ok s' now (l ++ [e]).
Proof.
  intros He E [H1 H2 H3]. split; rewrite ?E.
  - intros dl [H|<-%list_elem_of_singleton]%elem_of_app; [by apply H1|done].
  - intros l1 dl l2 [(_ & -> & _)|(l2' & -> & ->)]%snoc_split_at Hr; [done|].
    rewrite elem_of_app, list_elem_of_singleton in Hr. apply Decidable.not_or in Hr as [Hr Hne].
    destruct (H2 l1 dl l2' eq_refl Hr) as [(x & Hx & Hle)|?]; [|by right]. left. exists x. split; [|done].
    destruct e; try done; rewrite He; try done. rewrite lookup_delete_ne; [done|]. intros [= -> ->]. done.
  - intros l1 a l2 b l3. rewrite app_comm_cons, app_assoc.
    intros [(_ & -> & _)|(l3' & Hl & ->)]%snoc_split_at; [done|]. apply (H3 l1 a l2 b l3').
    by rewrite app_comm_cons, app_assoc.
Qed.

Lemma replays_deliver s s' now l dl :
  replays_ok s now l → dl_time dl = now → (now <= dl_request_expires_at dl)%Z →
  delivery_auth_replays s !! (dl_relay dl, dl_event dl) = None →
  delivery_request_replays s !! (dl_relay dl, dl_request dl) = None →
  delivery_auth_replays s' = <[(dl_relay dl, dl_event dl) := dl_request_expires_at dl]> (delivery_auth_replays s) →
  delivery_request_replays s' = <[(dl_relay dl, dl_request dl) := dl_request_expires_at dl]> (delivery_request_replays s) →
  replays_ok s' now (l ++ [Delivered dl]).
Proof.
  intros [H1 H2 H3] Ht Hexp Ha Hq E1 E2. split; rewrite ?E1, ?E2.
  - intros x [Hx|[= ->]%list_elem_of_singleton]%elem_of_app; [|left; rewrite lookup_insert_eq; by eexists].
    destruct (H1 x Hx) as [(e & He & Hle)|?]; [left|by right]. exists e. split; [|done].
    rewrite lookup_insert_ne; [done|]. intros [= Er Ee]. by rewrite Er, Ee, He in Ha.
  - intros l1 x l2 [(_ & [= ->] & ->)|(l2' & -> & ->)]%snoc_split_at Hr; [left; rewrite lookup_insert_eq; by eexists|].
    destruct (H2 l1 x l2' eq_refl) as [(e & He & Hle)|?]; [set_solver| |by right]. left. exists e. split; [|done].
    rewrite lookup_insert_ne; [done|]. intros [= Er Ee]. by rewrite Er, Ee, He in Hq.
  - intros l1 a l2 b l3. rewrite app_comm_cons, app_assoc.
    intros [(-> & [= <-] & ->)|(l3' & Hl & ->)]%snoc_split_at Er.
    2:{ apply (H3 l1 a l2 b l3'); [by rewrite app_comm_cons, app_assoc|done]. }
    split.
    + intros Ee. destruct (H1 a) as [(e & He & _)|?]; [set_solver| |lia]. by rewrite Er, Ee, Ha in He.
    + intros Ee Hr. destruct (H2 l1 a l2 eq_refl Hr) as [(e & He & _)|?]; [|lia]. by rewrite Er, Ee, Hq in He.
Qed.

Lemma replays_reap s now l :
  replays_ok s now l →
  replays_ok (with_replays (filter (λ kv, (now <= kv.2)%Z) (delivery_auth_replays s))
                (filter (λ kv, (now <= kv.2)%Z) (delivery_request_replays s)) s) now l.
Proof.
  intros [H1 H2 H3]. split; cbn; [| |done].
  - intros dl [(e & He & Hle)|?]%H1; [|by right]. destruct (Z.lt_ge_cases e now); [right; lia|left].
    exists e. by rewrite map_lookup_filter_Some.
  - intros l1 dl l2 Hl Hr. destruct (H2 l1 dl l2 Hl Hr) as [(e & He & Hle)|?]; [|by right].
    destruct (Z.lt_ge_cases e now); [right; lia|left]. exists e. by rewrite map_lookup_filter_Some.
Qed.

(** ** Every call keeps both *)

Lemma quotas_later s s' now now' l l' :
  (now <= now')%Z → endpoint_quotas s' = endpoint_quotas s → deliveries l' = deliveries l →
  quotas_ok s now l → quotas_ok s' now' l'.
Proof.
  intros Hle E El [H1 H2].
  assert (∀ dl, Delivered dl ∈ l' ↔ Delivered dl ∈ l) as Hin by (intros dl; by rewrite <-!elem_of_deliveries, El).
  assert (∀ f a b, sent_count f a b l' = sent_count f a b l) as Hc by (intros; unfold sent_count; by rewrite El).
  split; [|intros; by rewrite Hc]. intros f. rewrite E. specialize (H1 f). apply (quota_holds_later _ _ now') in H1; [|done].
  unfold quota_holds in *. destruct (endpoint_quotas s !! f) as [[st n]|]; rewrite !Hc; setoid_rewrite Hin; done.
Qed.

Definition limits_ok (s : MemoryState) (now : Z) (l : list Entry) : Prop := quotas_ok s now l ∧ replays_ok s now l.

Lemma limits_later s now now' l : (now <= now')%Z → limits_ok s now l → limits_ok s now' l.
Proof. intros Hle [H1 H2]. split; [by apply (quotas_later s s now now' l)|by apply (replays_later s s now now')]. Qed.

(** No entry, or one that is not about deliveries. *)
Lemma limits_quiet s s' now l es :
  same_limits s s' → Forall quiet es → length es <= 1 → limits_ok s now l → limits_ok s' now (l ++ es).
Proof.
  intros (E1 & E2 & E3) Hes Hlen [H1 H2]. split.
  - apply (quotas_later s _ now _ l); [done|done| |done].
    by rewrite deliveries_app, (quiet_no_deliveries _ Hes), app_nil_r.
  - destruct Hes as [|e es He Hes]; [rewrite app_nil_r; by apply (replays_later s _ now)|].
    destruct es; [|cbn in Hlen; lia]. apply (replays_snoc s); [by destruct e|done|done].
Qed.

Lemma limits_authorize did relay epoch gen event req exp now s r s' u l :
  core_ok s u l → limits_ok s now l →
  authorize_delivery did relay epoch gen event req exp window max_deliveries now s = (r, s') →
  limits_ok s' now (l ++ match r with
                         | Ok p => [Delivered (mkDelivery now did relay epoch gen event req exp p (fingerprint_of s p))]
                         | Err _ => []
                         end).
Proof.
  intros Hok [H1 H2] Ha. pose proof (co_lock _ _ _ Hok) as Hl. destruct r as [p|e].
  - apply authorize_Ok in Ha as (key & d & i & Hd & Hi & Hr & -> & Hev & Hrq & Hq & ->); [|done].
    apply refuses_false in Hr as (_ & _ & _ & _ & _ & _ & _ & Ht & _).
    set (dl := mkDelivery _ _ _ _ _ _ _ _ _ _).
    assert (dl_fingerprint dl = token_fingerprint i) as Hf.
    { unfold dl, fingerprint_of. cbn. destruct (co_inst _ _ _ Hok _ i Hi) as [-> _]. by rewrite Hi. }
    split; [by apply (quotas_ok_deliver s); rewrite ?Hf|].
    apply (replays_deliver s); try done. cbn. lia.
  - rewrite app_nil_r. apply authorize_Err in Ha as [->|(fp & -> & _)]; [done| |done].
    split; [by apply quotas_ok_reset|by apply (replays_later s _ now)].
Qed.

Lemma limits_reap s now l : limits_ok s now l → limits_ok (reap_expired now s).2 now l.
Proof.
  intros [H1 H2]. unfold reap_expired, locked. destruct (poisoned s); [done|]. cbn.
  split; [|by apply (replays_later (with_replays (filter (λ kv, (now <= kv.2)%Z) (delivery_auth_replays s))
    (filter (λ kv, (now <= kv.2)%Z) (delivery_request_replays s)) s) _ now), replays_reap].
  destruct H1 as [H1 H3]. split; [|done]. intros f. cbn. specialize (H1 f). rewrite map_lookup_filter.
  destruct (endpoint_quotas s !! f) as [[st n]|]; [|done]. cbn.
  destruct (decide (saturating_sub now st < 86400)%Z) as [Hk|Hk].
  - by rewrite option_guard_True.
  - rewrite option_guard_False by done. apply (quota_holds_over _ _ _ st n); [|done].
    unfold saturating_sub, i64_min, i64_max in Hk. lia.
Qed.

Lemma length_entries now c s r : length (entries now c s r) <= 1.
Proof. destruct r as [[p|]|e], c as [| | | | | | | | |p' []|]; cbn; lia. Qed.

Lemma limits_step y y' :
  core_ok (store y) (used y) (log y) → limits_ok (store y) (clock y) (log y) →
  step window max_deliveries y y' → limits_ok (store y') (clock y') (log y').
Proof.
  intros Hok Hlim [now c r s' Hnow _ Hex]. apply (limits_later _ _ now) in Hlim; [|done]. cbn.
  pose proof (co_lock _ _ _ Hok) as Hl.
  destruct (about_deliveries c) eqn:Hc.
  2:{ apply (limits_quiet (store y)); [by eapply exec_same_limits|by apply entries_quiet|apply length_entries|done]. }
  destruct c; try done; cbn in Hex.
  - destruct (authorize_delivery _ _ _ _ _ _ _ _ _ _ _) as [ra s1] eqn:Ha.
    eapply limits_authorize in Ha; [|done..]. by destruct ra; injection Hex as <- <-.
  - destruct disposition; cbn in Hex; [injection Hex as <- <-; by cbn; rewrite app_nil_r|].
    unfold locked in Hex. rewrite Hl in Hex. injection Hex as <- <-. cbn. destruct Hlim as [H1 H2].
    split; [by apply (quotas_later (store y) _ now _ (log y)); rewrite ?deliveries_app, ?app_nil_r|].
    by apply (replays_snoc (store y)).
  - pose proof (limits_reap (store y) now (log y) Hlim) as Hreap.
    destruct (reap_expired now (store y)) as [ra s1]. cbn in Hex, Hreap.
    assert (s' = s1) as -> by (destruct ra; by injection Hex as _ <-).
    destruct r as [[p|]|e]; cbn; by rewrite app_nil_r.
Qed.

Lemma authority_limits y : reachable window max_deliveries y → limits_ok (store y) (clock y) (log y).
Proof.
  intros Hr. induction Hr as [now|y y' Hr IH H].
  - assert (∀ f a b, sent_count f a b [] = 0%Z) as H0 by done.
    split; [split|split]; cbn.
    + intros f. rewrite lookup_empty. cbn. split; [set_solver|rewrite H0; lia].
    + intros f t. rewrite H0. lia.
    + set_solver.
    + by intros [|].
    + by intros [|].
  - eapply limits_step; [by eapply authority_core|done..].
Qed.

(** The same delivery is not authorized twice.  In every history, of two
authorized deliveries for one relay with the same authorization event the later
one names a later expiry, so a signed request, whose expiry is signed with it,
is good for one delivery however old entries are cleaned up; and likewise for
two deliveries with the same request id, unless the first was reported as
retryable in between. *)
Theorem no_delivery_twice y l1 a l2 b l3 :
  reachable window max_deliveries y → log y = l1 ++ Delivered a :: l2 ++ Delivered b :: l3 → dl_relay a = dl_relay b →
  (dl_event a = dl_event b → (dl_request_expires_at a < dl_request_expires_at b)%Z)
  ∧ (dl_request a = dl_request b → Released (dl_relay a) (dl_request a) ∉ l2 →
     (dl_request_expires_at a < dl_request_expires_at b)%Z).
Proof. intros [_ Hr]%authority_limits. apply (rp_order _ _ _ Hr l1 a l2 b l3). Qed.

(** C38. The quota bounds what one endpoint receives: in every history, at most
twice the configured number of deliveries to one token fall into any interval of
the configured window, whichever relays, delegations and installations they came
through, and though old windows are cleaned up (a window is at most a day). *)
Theorem deliveries_bounded y f t :
  reachable window max_deliveries y → (sent_count f t (t + window) (log y) <= 2 * max_deliveries)%Z.
Proof. intros [[_ Hq] _]%authority_limits. apply Hq. Qed.
End gateway.

(** * Histories of the push gateway's authority

Histories given as lists of calls, and the theorems of [AuthorityProps] and
[AuthorityLimits] applied to one in which an installation delegates, is
delivered to, rotates its token and is revoked. *)

#[local] Instance toy_order : HashOrder := map_to_list_order.

Definition toy_window : Z := 60.
Definition toy_max : Z := 2.

Definition run_call (y : System) (tc : Z * Call) : System :=
  let '(r, s') := exec toy_window toy_max tc.1 tc.2 (store y) in
  mkSystem s' tc.1 (drawn tc.2 ∪ used y) (log y ++ entries tc.1 tc.2 (store y) r).

Definition may_call (y : System) (tc : Z * Call) : bool :=
  (clock y <=? tc.1)%Z && bool_decide (drawn tc.2 ## used y).

Fixpoint run_calls (y : System) (cs : list (Z * Call)) : option System :=
  match cs with
  | [] => Some y
  | tc :: cs => if may_call y tc then run_calls (run_call y tc) cs else None
  end.

Definition toy_start : System := mkSystem state_default 0 ∅ [].

Lemma run_calls_reachable y cs y' :
  reachable toy_window toy_max y → run_calls y cs = Some y' → reachable toy_window toy_max y'.
Proof.
  revert y. induction cs as [|[t c] cs IH]; intros y Hr; cbn [run_calls]; [by intros [= <-]|].
  destruct (may_call y (t, c)) eqn:Hm; [|done]. apply IH. unfold run_call. cbn [fst snd].
  destruct (exec toy_window toy_max t c (store y)) as [r s'] eqn:Hex.
  apply andb_true_iff in Hm as [Ht%Z.leb_le Hd%bool_decide_eq_true]. eapply reach_step; [done|]. by apply step_call.
Qed.

(** *** A delivery, and what stops the next *)

Definition toy_relay : string := "relay".
Definition toy_new (id : Uuid) (key token : Bytes) (expires : Z) : NewInstallation :=
  mkNew id key [7%N] 0 BuzzIosDogfood (9%N :: token) token 1 expires.
Definition toy_delegation (id : Uuid) (epoch gen : Z) : Delegation :=
  mkDelegation id 1 toy_relay epoch gen 900 1500 false.
Definition toy_delivery (did : Uuid) (epoch gen : Z) (event : string) (req : Uuid) (expires : Z) : Call :=
  AuthorizeDelivery did toy_relay epoch gen event req expires.

Definition toy_calls : list (Z * Call) :=
  [ (1000, CreateInstallation (toy_new 1 [1%N] [4%N] 2000));
    (1000, AdvanceCounter 1 0 1);
    (1000, UpsertDelegation (toy_delegation 2 1 1));
    (1010, toy_delivery 2 1 1 "e1" 10 1100);
    (1011, toy_delivery 2 1 1 "e1" 11 1100);       (* replayed event *)
    (1012, RotateEndpoint 1 1 2 [8%N] [5%N]);
    (1013, toy_delivery 2 1 1 "e2" 12 1100);       (* old epoch *)
    (1014, UpsertDelegation (toy_delegation 3 2 2));
    (1015, AdvanceCounter 1 1 2);
    (1016, toy_delivery 3 2 2 "e3" 10 1200);       (* replayed request *)
    (1101, ReapExpired);
    (1102, toy_delivery 3 2 2 "e3" 10 1200);
    (1103, RevokeInstallation 1 2 3);
    (1104, toy_delivery 3 2 2 "e4" 13 1200) ]%Z.

Definition toy_end : System := default toy_start (run_calls toy_start toy_calls).

Lemma toy_runs : run_calls toy_start toy_calls = Some toy_end.
Proof. vm_compute. reflexivity. Qed.

Lemma toy_reachable : reachable toy_window toy_max toy_end.
Proof. apply (run_calls_reachable toy_start toy_calls); [apply reach_start|apply toy_runs]. Qed.

Definition toy_first : Delivery :=
  mkDelivery 1010 2 toy_relay 1 1 "e1" 10 1100
    (mkPermit (mkAuthority 2 1 toy_relay BuzzIosDogfood [9%N; 4%N] 1 1 1500) toy_relay 10) [4%N].
Definition toy_second : Delivery :=
  mkDelivery 1102 3 toy_relay 2 2 "e3" 10 1200
    (mkPermit (mkAuthority 3 1 toy_relay BuzzIosDogfood [8%N] 2 2 1500) toy_relay 10) [5%N].

Definition toy_before : list Entry :=
  [Created (toy_new 1 [1%N] [4%N] 2000); Advanced 1 1; Upserted (toy_delegation 2 1 1)].
Definition toy_between : list Entry :=
  [Rotated 1 2 [8%N] [5%N]; Upserted (toy_delegation 3 2 2); Advanced 1 2].

Lemma toy_log : log toy_end = toy_before ++ Delivered toy_first :: toy_between ++ Delivered toy_second :: [RevokedI 1].
Proof. vm_compute. reflexivity. Qed.

Lemma deliveries_are_allowed_witness :
  allowed (toy_before ++ Delivered toy_first :: toy_between) toy_second.
Proof.
  apply (deliveries_are_allowed toy_window toy_max toy_end _ _ [RevokedI 1]); [apply toy_reachable|].
  rewrite toy_log. reflexivity.
Defined.

Lemma installations_well_formed_witness :
  reachable toy_window toy_max toy_end ∧ (1 < 2)%N.
Proof.
  split; [apply toy_reachable|].
  destruct (installations_well_formed toy_window toy_max toy_end toy_reachable) as (_ & _ & H).
  apply (H (toy_before ++ [Delivered toy_first; Rotated 1 2 [8%N] [5%N]; Upserted (toy_delegation 3 2 2)]) 1%N 2%N
    [Delivered toy_second; RevokedI 1]); [by rewrite toy_log|]. right. left.
Defined.

Lemma no_delivery_twice_witness :
  dl_request toy_first = dl_request toy_second ∧ (dl_request_expires_at toy_first < dl_request_expires_at toy_second)%Z.
Proof.
  split; [reflexivity|].
  destruct (no_delivery_twice toy_window toy_max ltac:(done) ltac:(done) toy_end toy_before toy_first toy_between
    toy_second [RevokedI 1] toy_reachable toy_log eq_refl) as [_ H].
  apply H; [reflexivity|]. intros Hr. unfold toy_between in Hr.
  repeat (apply elem_of_cons in Hr as [?|Hr]; [done|]). by apply elem_of_nil in Hr.
Defined.

Lemma deliveries_bounded_witness :
  sent_count [4%N] 1000 1060 (log toy_end) = 1%Z ∧ (sent_count [4%N] 1000 1060 (log toy_end) <= 4)%Z.
Proof.
  split; [vm_compute; reflexivity|].
  apply (deliveries_bounded toy_window toy_max ltac:(done) ltac:(done) toy_end [4%N] 1000 toy_reachable).
Defined.

(** *** A token with two owners

An installation is revoked and its token enrolled by a second one; when the
first expires and its key is enrolled again, its removal also removes the
second's entry in the table of token owners, and a rotation can then take the
second's token while the second is live. *)
Definition shared_calls : list (Z * Call) :=
  [ (1000, CreateInstallation (toy_new 1 [1%N] [4%N] 2000));
    (1000, RevokeInstallation 1 1 2);
    (1001, CreateInstallation (toy_new 2 [2%N] [4%N] 9000));
    (2001, CreateInstallation (toy_new 3 [1%N] [5%N] 9000));
    (2002, RotateEndpoint 3 1 2 [9%N; 4%N] [4%N]) ]%Z.

Definition shared_end : System := default toy_start (run_calls toy_start shared_calls).

Theorem token_ownership_can_be_lost :
  ∃ y i j, reachable toy_window toy_max y
    ∧ installations (store y) !! 2%N = Some i ∧ installations (store y) !! 3%N = Some j
    ∧ is_live (clock y) i = true ∧ is_live (clock y) j = true
    ∧ profile i = profile j ∧ token_fingerprint i = token_fingerprint j.
Proof.
  exists shared_end. do 2 eexists. split.
  { apply (run_calls_reachable toy_start shared_calls); [apply reach_start|vm_compute; reflexivity]. }
  split_and!; vm_compute; reflexivity.
Qed.
