(* ===== verification/WorkflowDef.v ===== *)
(** * WorkflowDef: workflow definitions and their validation

[crates/buzz-workflow/src/schema.rs], [error.rs] and the duration parsers of
[executor.rs].  Text is UTF-8 bytes, [u64] is [N] below 2^64 with its overflow
written out.  The [cron] crate is the interface [CronCrate]; deserialization
from YAML or JSON (derived code) is not modelled here. *)
From stdpp Require Import pretty.
From S2P Require Import Prelude Text Encode.

Class CronCrate : Type := {
  CronSchedule : Type;
  cron_parse : string → result CronSchedule string;      (* [str::parse::<Schedule>] *)
  cron_after : CronSchedule → Z → option Z               (* [sched.after(&t).next()] *)
}.

(** ** Definitions of a workflow *)

Inductive TriggerDef : Type :=
| MessagePosted (filter : option string)
| ReactionAdded (emoji filter : option string)
| DiffPosted (filter : option string)
| Schedule (cron interval : option string)
| Webhook.

Inductive ActionDef : Type :=
| SendMessage (text : string) (channel : option string) (reply_in_thread : bool)
| SendDm (to text : string)
| SetChannelTopic (topic : string)
| AddReaction (emoji : string)
| CallWebhook (url : string) (method : option string) (headers : option (gmap string string))
    (body : option string)
| RequestApproval (from message : string) (timeout : option string)
| Delay (duration : string).

Record Step : Type := mkStep {
  step_id : string;
  step_name : option string;
  if_expr : option string;
  timeout_secs : option N;
  action : ActionDef
}.

Record WorkflowDef : Type := mkDef {
  def_name : string;
  description : option string;
  trigger : TriggerDef;
  steps : list Step;
  def_enabled : bool
}.

#[export] Instance TriggerDef_eq_dec : EqDecision TriggerDef.
Proof. solve_decision. Defined.
#[export] Instance ActionDef_eq_dec : EqDecision ActionDef.
Proof. solve_decision. Defined.

(** ** Errors *)

Inductive WorkflowError : Type :=
| InvalidYaml (e : string)
| InvalidDefinition (m : string)
| ConditionError (m : string)
| TemplateError (m : string)
| StepTimeout (id : string) (secs : N)
| WebhookError (m : string)
| CapacityExceeded
| Database (m : string)
| Unauthorized (m : string)
| NotImplemented (m : string).

Definition code (e : WorkflowError) : string :=
  match e with
  | InvalidYaml _ => "invalid_yaml"
  | InvalidDefinition _ => "invalid_definition"
  | ConditionError _ => "condition_evaluation_failed"
  | TemplateError _ => "template_resolution_failed"
  | StepTimeout _ _ => "step_timeout"
  | WebhookError _ => "webhook_failed"
  | CapacityExceeded => "capacity_exceeded"
  | Database _ => "database_error"
  | Unauthorized _ => "owner_unauthorized"
  | NotImplemented _ => "action_not_implemented"
  end.

(** [to_string], as the [#[error]] attributes say. *)
Definition workflow_error_to_string (e : WorkflowError) : string :=
  match e with
  | InvalidYaml m => "invalid YAML: " +:+ m
  | InvalidDefinition m => "invalid definition: " +:+ m
  | ConditionError m => "condition evaluation error: " +:+ m
  | TemplateError m => "template error: " +:+ m
  | StepTimeout id secs => "step '" +:+ id +:+ "' timed out after " +:+ pretty secs +:+ "s"
  | WebhookError m => "webhook error: " +:+ m
  | CapacityExceeded => "capacity exceeded"
  | Database m => "database error: " +:+ m
  | Unauthorized m => "unauthorized: " +:+ m
  | NotImplemented m => "action not implemented: " +:+ m
  end.

(** ** Durations *)

Definition U64_MAX : N := 18446744073709551615.

Definition invalid_duration (duration : string) : WorkflowError :=
  InvalidDefinition ("invalid duration: " +:+ duration).
Definition duration_overflow (duration : string) : WorkflowError :=
  InvalidDefinition ("duration overflow: " +:+ duration).

(** A number with a unit: [n.trim().parse()?.checked_mul(unit)]. *)
Definition parse_unit (duration n : string) (unit_secs : N) : result N WorkflowError :=
  let? k := ok_or (parse_uint U64_MAX (trim n)) (invalid_duration duration) in
  if (k * unit_secs <=? U64_MAX)%N then Ok (k * unit_secs)%N else Err (duration_overflow duration).

Definition parse_duration_secs (duration : string) : result N WorkflowError :=
  let duration := trim duration in
  match strip_suffix "d" duration with Some n => parse_unit duration n 86400 | None =>
  match strip_suffix "h" duration with Some n => parse_unit duration n 3600 | None =>
  match strip_suffix "m" duration with Some n => parse_unit duration n 60 | None =>
  match strip_suffix "s" duration with
  | Some n => ok_or (parse_uint U64_MAX (trim n)) (invalid_duration duration)
  | None => ok_or (parse_uint U64_MAX duration) (invalid_duration duration)
  end end end end.

Definition MAX_APPROVAL_TIMEOUT_SECS : N := 30 * 24 * 60 * 60.

Definition parse_approval_timeout_secs (timeout : option string) : result N WorkflowError :=
  let timeout_str := default "24h" timeout in
  let? timeout_seconds := parse_duration_secs timeout_str in
  if (timeout_seconds =? 0)%N || (MAX_APPROVAL_TIMEOUT_SECS <? timeout_seconds)%N
  then Err (InvalidDefinition
    ("request_approval timeout must be between 1 second and 30 days (got " +:+ timeout_str +:+ ")"))
  else Ok timeout_seconds.

(** ** Validation *)

Definition requires_elevated_authority (d : WorkflowDef) : bool :=
  existsb (λ s, match action s with CallWebhook _ _ _ _ => true | _ => false end) (steps d).

Definition valid_step_id (id : string) : bool :=
  negb (String.eqb id "") && (String.length id <=? 64)
  && string_forall (λ c, is_ascii_alphanumeric c || Ascii.eqb c "_") id.

Fixpoint check_step_ids (seen_ids : list string) (steps : list Step) : result unit WorkflowError :=
  match steps with
  | [] => Ok tt
  | step :: steps' =>
      let id := step_id step in
      if String.eqb (trim id) "" then Err (InvalidDefinition "step id must not be empty")
      else if negb (valid_step_id id) then
        Err (InvalidDefinition ("step id '" +:+ id +:+
          "' is invalid: must contain only alphanumeric characters and underscores"))
      else if bool_decide (id ∈ seen_ids) then
        Err (InvalidDefinition ("duplicate step id: " +:+ id))
      else check_step_ids (id :: seen_ids) steps'
  end.

Definition trigger_has_message (t : TriggerDef) : bool :=
  match t with
  | MessagePosted _ | ReactionAdded _ _ | DiffPosted _ => true
  | Schedule _ _ | Webhook => false
  end.

Definition replies_in_thread (s : Step) : bool :=
  match action s with SendMessage _ _ true => true | _ => false end.

Definition check_replies (d : WorkflowDef) : result unit WorkflowError :=
  if trigger_has_message (trigger d) then Ok tt
  else match List.find replies_in_thread (steps d) with
       | Some step => Err (InvalidDefinition ("step '" +:+ step_id step +:+
           "': reply_in_thread requires a message-based trigger (message_posted, reaction_added, or diff_posted); schedule and webhook triggers have no message to reply to"))
       | None => Ok tt
       end.

Definition normalize_cron (expr : string) : string :=
  match count_words expr with
  | 5 => "0 " +:+ expr +:+ " *"
  | 6 => expr +:+ " *"
  | _ => expr
  end.

Section validate.
Context {CC : CronCrate}.

Definition validate_cron (expr : string) : result unit WorkflowError :=
  match cron_parse (normalize_cron expr) with
  | Ok _ => Ok tt
  | Err e => Err (InvalidDefinition ("invalid cron expression '" +:+ expr +:+ "': " +:+ e))
  end.

Definition validate_interval (dur : string) : result unit WorkflowError :=
  let? secs := map_err (λ _, InvalidDefinition ("invalid interval '" +:+ dur +:+
    "': expected a duration like '30m', '1h', or '60s'")) (parse_duration_secs dur) in
  if (secs <? 60)%N
  then Err (InvalidDefinition "interval must be at least 60s (cron loop ticks every 60 seconds)")
  else Ok tt.

Definition check_schedule (t : TriggerDef) : result unit WorkflowError :=
  match t with
  | Schedule None None =>
      Err (InvalidDefinition "schedule trigger requires either 'cron' or 'interval'")
  | Schedule (Some _) (Some _) =>
      Err (InvalidDefinition
        "schedule trigger cannot specify both 'cron' and 'interval'; use one or the other")
  | Schedule (Some expr) None => validate_cron expr
  | Schedule None (Some dur) => validate_interval dur
  | _ => Ok tt
  end.

Definition validate (d : WorkflowDef) : result unit WorkflowError :=
  if String.eqb (trim (def_name d)) "" then
    Err (InvalidDefinition "name is required and must not be empty")
  else if bool_decide (steps d = []) then Err (InvalidDefinition "at least one step is required")
  else
    let? _ := check_step_ids [] (steps d) in
    let? _ := check_replies d in
    check_schedule (trigger d).

(** ** What a valid definition is *)

(** An interval of at least a minute, or a cron expression the crate reads. *)
Definition schedule_ok (t : TriggerDef) : Prop :=
  match t with
  | Schedule (Some expr) None => ∃ sched, cron_parse (normalize_cron expr) = Ok sched
  | Schedule None (Some dur) => ∃ secs, parse_duration_secs dur = Ok secs ∧ (60 <= secs)%N
  | Schedule _ _ => False
  | _ => True
  end.

Record well_formed (d : WorkflowDef) : Prop := {
  wf_name : trim (def_name d) ≠ "";
  wf_steps : steps d ≠ [];
  wf_ids : Forall (λ s, valid_step_id (step_id s) = true) (steps d);
  wf_distinct : NoDup (map step_id (steps d));
  wf_replies : trigger_has_message (trigger d) = false →
    Forall (λ s, replies_in_thread s = false) (steps d);
  wf_schedule : schedule_ok (trigger d)
}.

Lemma check_schedule_ok (t : TriggerDef) : check_schedule t = Ok tt ↔ schedule_ok t.
Proof.
  destruct t as [| | |cron interval|]; cbn; try done.
  destruct cron as [expr|], interval as [dur|]; cbn; try done.
  - unfold validate_cron. case_match; naive_solver.
  - unfold validate_interval. destruct (parse_duration_secs dur) as [secs|]; cbn; [|naive_solver].
    destruct (N.ltb_spec secs 60); naive_solver lia.
Qed.

End validate.

(** ** Step ids *)

(** A trimmed blank id is not a valid id, so the blank test never decides. *)
Lemma alnum_not_white c s :
  is_ascii_alphanumeric c || Ascii.eqb c "_" = true → whitespace_len (String c s) = None.
Proof. destruct c as [[] [] [] [] [] [] [] []]; cbn; try done; intros _; by repeat case_match. Qed.

Lemma valid_step_id_trim id : valid_step_id id = true → trim id ≠ "".
Proof.
  unfold valid_step_id. intros H. apply andb_true_iff in H as [H Hall].
  destruct id as [|c id]; [done|]. cbn in Hall. apply andb_true_iff in Hall as [Hc _].
  unfold trim, trim_start. cbn -[whitespace_len trim_end]. rewrite alnum_not_white by done.
  cbn -[whitespace_len]. unfold is_blank. cbn -[whitespace_len]. by rewrite alnum_not_white.
Qed.

Lemma check_step_ids_ok (seen : list string) (ss : list Step) :
  check_step_ids seen ss = Ok tt ↔
  Forall (λ s, valid_step_id (step_id s) = true) ss
  ∧ NoDup (map step_id ss) ∧ (∀ s, s ∈ ss → step_id s ∉ seen).
Proof.
  revert seen. induction ss as [|s ss IH]; intros seen; cbn.
  { split; [|done]. intros _. split_and!; [constructor|constructor|by intros s ?%elem_of_nil]. }
  rewrite Forall_cons, NoDup_cons. destruct (String.eqb_spec (trim (step_id s)) "") as [Hb|Hb].
  { split; [done|]. intros ((Hv & _) & _). by apply valid_step_id_trim in Hv. }
  destruct (valid_step_id (step_id s)) eqn:Hv; cbn; [|naive_solver].
  case_bool_decide as Hs.
  { split; [done|]. intros (_ & _ & Hn). exfalso. eapply Hn; [by left|done]. }
  rewrite IH. setoid_rewrite elem_of_cons.
  assert (step_id s ∈ map step_id ss ↔ ∃ t, t ∈ ss ∧ step_id t = step_id s) as Hin.
  { rewrite list_elem_of_fmap. naive_solver. }
  rewrite Hin. naive_solver.
Qed.

Lemma check_replies_ok (d : WorkflowDef) :
  check_replies d = Ok tt ↔
  (trigger_has_message (trigger d) = false → Forall (λ s, replies_in_thread s = false) (steps d)).
Proof.
  unfold check_replies. destruct (trigger_has_message (trigger d)); [naive_solver|].
  assert (Forall (λ s, replies_in_thread s = false) (steps d) ↔
          List.find replies_in_thread (steps d) = None) as ->.
  { induction (steps d) as [|s ss IH]; cbn; [done|]. rewrite Forall_cons, IH.
    destruct (replies_in_thread s); naive_solver. }
  destruct (List.find replies_in_thread (steps d)); naive_solver.
Qed.

(** ** Durations *)

Lemma parse_unit_ok duration n u k :
  parse_unit duration n u = Ok k → ∃ j, parse_uint U64_MAX (trim n) = Some j ∧ k = (j * u)%N ∧ (k <= U64_MAX)%N.
Proof.
  unfold parse_unit, ok_or. destruct (parse_uint U64_MAX (trim n)) as [j|]; cbn; [|done].
  destruct (N.leb_spec (j * u)%N U64_MAX); [|done]. intros [= <-]. eauto.
Qed.

(** Validation accepts exactly the well-formed definitions: a name, steps
with distinct identifiers over letters, digits and underscores, replies only
under a trigger that has a message, and a schedule with exactly one of a
readable cron expression and an interval of at least sixty seconds. *)
Theorem validate_correct {CC : CronCrate} (d : WorkflowDef) :
  validate d = Ok tt ↔ well_formed d.
Proof.
  unfold validate.
  destruct (String.eqb_spec (trim (def_name d)) ""); [split; [done|by intros [? ? ? ? ? ?]]|].
  case_bool_decide; [split; [done|by intros [? ? ? ? ? ?]]|].
  assert (∀ (r : result unit WorkflowError) k, (let? _ := r in k) = Ok tt ↔ r = Ok tt ∧ k = Ok tt) as Hseq.
  { intros [[]|] k; cbn; naive_solver. }
  rewrite !Hseq, check_step_ids_ok, check_replies_ok, check_schedule_ok. split.
  - intros ((? & ? & _) & ? & ?). by constructor.
  - intros [? ? ? ? ? ?]. split_and!; try done. intros s _. apply not_elem_of_nil.
Qed.

(** Durations and approval time-outs stay in range. *)
Theorem durations_bounded (text : string) (n : N) :
  parse_duration_secs text = Ok n → (n <= U64_MAX)%N.
Proof.
  unfold parse_duration_secs.
  repeat case_match; [by intros (?&?&?&?)%parse_unit_ok..| |];
    unfold ok_or; case_match; intros [= <-]; by eapply parse_uint_bound.
Qed.

Theorem approval_timeout_bounded (timeout : option string) (n : N) :
  parse_approval_timeout_secs timeout = Ok n → (0 < n <= 2592000)%N.
Proof.
  unfold parse_approval_timeout_secs. intros (k & _ & H)%result_bind_Ok.
  destruct (N.eqb_spec k 0); [done|]. destruct (N.ltb_spec MAX_APPROVAL_TIMEOUT_SECS k); [done|].
  injection H as ->. unfold MAX_APPROVAL_TIMEOUT_SECS in *. lia.
Qed.

Example durations : map parse_duration_secs ["5m"; " 2 h "; "1d"; "30s"; "90"] =
  map Ok [300%N; 7200%N; 86400%N; 30%N; 90%N].
Proof. vm_compute. reflexivity. Qed.

Example duration_errors :
  parse_duration_secs "213503982334602d" = Err (InvalidDefinition "duration overflow: 213503982334602d")
  ∧ parse_duration_secs "5x" = Err (InvalidDefinition "invalid duration: 5x")
  ∧ parse_approval_timeout_secs (Some "31d")
    = Err (InvalidDefinition "request_approval timeout must be between 1 second and 30 days (got 31d)").
Proof. by vm_compute. Qed.

Example normalize_crons : map normalize_cron ["*/5 * * * *"; "0 0 9 * * MON"; "0 0 9 * * MON 2030"] =
  ["0 */5 * * * * *"; "0 0 9 * * MON *"; "0 0 9 * * MON 2030"].
Proof. vm_compute. reflexivity. Qed.
