(* ===== verification/WorkflowText.v ===== *)
(** * WorkflowText: templates and conditions

[executor.rs]: the placeholders of a step's text, the variables of its [if:]
condition, and the resolution of a step's action.  Key and number formats, the
public key type and the expression evaluator [evalexpr] are interfaces. *)
From stdpp Require Import pretty.
From S2P Require Import Prelude Text Encode Json WorkflowDef.

Record TriggerContext : Type := mkContext {
  text : string;
  author : string;
  channel_id : string;
  timestamp : string;
  emoji : string;
  message_id : string;
  is_reply : bool;
  webhook_fields : gmap string string
}.

(** [TriggerContext::default]. *)
Definition default_context : TriggerContext := mkContext "" "" "" "" "" "" false ∅.

Definition get_field (ctx : TriggerContext) (name : string) : option string :=
  if String.eqb name "text" then Some (text ctx)
  else if String.eqb name "author" then Some (author ctx)
  else if String.eqb name "channel_id" then Some (channel_id ctx)
  else if String.eqb name "timestamp" then Some (timestamp ctx)
  else if String.eqb name "emoji" then Some (emoji ctx)
  else if String.eqb name "message_id" then Some (message_id ctx)
  else webhook_fields ctx !! name.

(** ** Interfaces *)

Class ValueText {JC : JsonCrate} : Type := {
  number_display : JsonNumber → string;           (* [Number]'s [Display] *)
  value_display : Value → string;                 (* [Value]'s [Display], for arrays and objects *)
  pk_from_hex : string → option (list N);         (* [nostr::PublicKey::from_hex] *)
  pk_to_bech32 : list N → option string           (* [to_bech32] *)
}.

(** [evalexpr::Value], over its float type. *)
Inductive EvalValue (F : Type) : Type :=
| EString (s : string)
| EFloat (f : F)
| EInt (i : Z)
| EBoolean (b : bool)
| ETuple (l : list (EvalValue F))
| EEmpty.
Arguments EString {F} _.
Arguments EFloat {F} _.
Arguments EInt {F} _.
Arguments EBoolean {F} _.
Arguments ETuple {F} _.
Arguments EEmpty {F}.

Class Evalexpr {JC : JsonCrate} : Type := {
  Float : Type;
  EvalError : Type;
  eval_error_to_string : EvalError → string;
  expected_tuple : nat → EvalValue Float → EvalError;
  expected_string : EvalValue Float → EvalError;
  number_as_i64 : JsonNumber → option Z;
  number_as_f64 : JsonNumber → option Float;
  EvalContext : Type;                                           (* [HashMapContext] *)
  ctx_new : EvalContext;
  ctx_set_function : EvalContext → string → (EvalValue Float → result (EvalValue Float) EvalError)
                     → result EvalContext EvalError;
  ctx_set_value : EvalContext → string → EvalValue Float → result EvalContext EvalError;
  ctx_get_value : EvalContext → string → option (EvalValue Float);
  eval_boolean_with_context : string → EvalContext → result bool EvalError
}.

(** What became of the blocking evaluation under its 100 ms limit. *)
Inductive EvalFate : Type := EvalInTime | EvalLate | EvalPanicked (e : string).

Section text.
Context {JC : JsonCrate} {VT : ValueText}.

(** ** Templates *)

Abbreviation Outputs := (gmap string Value).

Definition json_to_string (v : Value) : string :=
  match v with
  | VString s => s
  | Bool b => if b then "true" else "false"
  | Number n => number_display n
  | Null => ""
  | other => value_display other
  end.

Definition json_get_str (value : Value) (key : string) : option string :=
  json_to_string <$> value_get key value.

Definition resolve_variable (path : string) (trigger_ctx : TriggerContext) (step_outputs : Outputs)
    : option string :=
  match strip_prefix "trigger." path with
  | Some field => get_field trigger_ctx field
  | None =>
      rest ← strip_prefix "steps." path;
      '(step_id, rest) ← split_once "." rest;
      '(middle, field) ← split_once "." rest;
      if String.eqb middle "output" then output ← step_outputs !! step_id; json_get_str output field
      else None
  end.

Definition apply_filter (value filter : string) : result string WorkflowError :=
  let filter := trim filter in
  match inner ← strip_prefix "truncate(" filter; strip_suffix ")" inner with
  | Some inner =>
      let? n := ok_or (parse_uint U64_MAX (trim inner))
        (TemplateError ("truncate() requires a number, got: " +:+ inner)) in
      (* a text has at most as many characters as bytes *)
      Ok (take_chars (N.to_nat (n `min` N.of_nat (String.length value))) value)
  | None =>
      if String.eqb filter "npub" || String.eqb filter "truncate_pubkey" then
        match pk_from_hex value with
        | Some pk => Ok (default value (pk_to_bech32 pk))
        | None => Ok value
        end
      else Err (TemplateError ("unknown filter: " +:+ filter))
  end.

(** [expr.splitn(2, '|')]: the trimmed path and filter of a placeholder. *)
Definition split_filter (expr : string) : string * option string :=
  match split_once "|" expr with
  | Some (path, filter) => (trim path, Some (trim filter))
  | None => (trim expr, None)
  end.

Section resolve.
Variables (trigger_ctx : TriggerContext) (step_outputs : Outputs).

(** The loop of [resolve_template]; a round consumes a pair of braces, so one
more round than characters is enough. *)
Fixpoint resolve_loop (fuel : nat) (result remaining : string) : Prelude.result string WorkflowError :=
  match fuel with
  | 0 => Ok result
  | S fuel =>
      match find_str "{{" remaining with
      | None => Ok (result +:+ remaining)
      | Some start =>
          let result := result +:+ str_take start remaining in
          let remaining := str_drop (start + 2) remaining in
          match find_str "}}" remaining with
          | None => Ok (result +:+ "{{" +:+ remaining)
          | Some e =>
              let expr := trim (str_take e remaining) in
              let remaining := str_drop (e + 2) remaining in
              let '(var_path, filter) := split_filter expr in
              match resolve_variable var_path trigger_ctx step_outputs, filter with
              | Some v, Some f => let? value := apply_filter v f in resolve_loop fuel (result +:+ value) remaining
              | Some v, None => resolve_loop fuel (result +:+ v) remaining
              | None, _ => resolve_loop fuel (result +:+ "{{" +:+ expr +:+ "}}") remaining
              end
          end
      end
  end.

Definition resolve_template (template : string) : Prelude.result string WorkflowError :=
  match find_str "{{" template with
  | None => Ok template
  | Some _ => resolve_loop (S (String.length template)) "" template
  end.
End resolve.

(** ** Resolving a step's action *)

(** [t] on every header, in the order the map iterates. *)
Fixpoint resolve_headers (t : string → result string WorkflowError) (hs : list (string * string))
    (out : gmap string string) : result (gmap string string) WorkflowError :=
  match hs with
  | [] => Ok out
  | (k, v) :: hs => let? v := t v in resolve_headers t hs (<[k := v]> out)
  end.

Definition resolve_option (t : string → result string WorkflowError) (s : option string)
    : result (option string) WorkflowError :=
  match s with
  | Some v => let? v := t v in Ok (Some v)
  | None => Ok None
  end.

Definition resolve_step_templates {HO : HashOrder} (step : Step) (trigger_ctx : TriggerContext)
    (step_outputs : Outputs) : result ActionDef WorkflowError :=
  let t := resolve_template trigger_ctx step_outputs in
  match action step with
  | SendMessage text channel reply_in_thread =>
      let? text := t text in
      let? channel := resolve_option t channel in
      Ok (SendMessage text channel reply_in_thread)
  | SendDm to text => let? to := t to in let? text := t text in Ok (SendDm to text)
  | SetChannelTopic topic => let? topic := t topic in Ok (SetChannelTopic topic)
  | AddReaction emoji => let? emoji := t emoji in Ok (AddReaction emoji)
  | CallWebhook url method headers body =>
      let? resolved_headers :=
        match headers with
        | Some h => let? out := resolve_headers t (hm_iter h) ∅ in Ok (Some out)
        | None => Ok None
        end in
      let? url := t url in
      let? body := resolve_option t body in
      Ok (CallWebhook url method resolved_headers body)
  | RequestApproval from message timeout =>
      match find_str "{{" from with
      | Some _ => Err (InvalidDefinition "request_approval from must be a fixed user, role, or 'any' value")
      | None => let? message := t message in Ok (RequestApproval from message timeout)
      end
  | Delay duration => Ok (Delay duration)
  end.

(** ** Conditions *)

Section conditions.
Context {EV : Evalexpr}.

Definition as_string (v : EvalValue Float) : result string EvalError :=
  match v with EString s => Ok s | _ => Err (expected_string v) end.

Definition as_pair (v : EvalValue Float) : result (EvalValue Float * EvalValue Float) EvalError :=
  match v with ETuple [a; b] => Ok (a, b) | _ => Err (expected_tuple 2 v) end.

(** A test on two strings, as [evalexpr] calls it: with a tuple. *)
Definition string_test (test : string → string → bool) (args : EvalValue Float)
    : result (EvalValue Float) EvalError :=
  let? (a, b) := as_pair args in
  let? a := as_string a in
  let? b := as_string b in
  Ok (EBoolean (test a b)).

Definition str_contains := string_test (λ haystack needle, bool_decide (is_Some (find_str needle haystack))).
Definition str_starts_with := string_test (λ s prefix, Text.starts_with prefix s).
Definition str_ends_with := string_test (λ s suffix, ends_with suffix s).
Definition str_len (arg : EvalValue Float) : result (EvalValue Float) EvalError :=
  let? s := as_string arg in Ok (EInt (Z.of_nat (String.length s))).

Definition json_value_to_eval (v : Value) : EvalValue Float :=
  match v with
  | VString s => EString s
  | Bool b => EBoolean b
  | Number n =>
      match number_as_i64 n with
      | Some i => EInt i
      | None => match number_as_f64 n with
                | Some f => EFloat f
                | None => EString (number_display n)
                end
      end
  | Null => EEmpty
  | other => EString (value_display other)
  end.

Definition condition_error (e : EvalError) : WorkflowError := ConditionError (eval_error_to_string e).

(** [ctx.set_value(..).map_err(..)?] for each variable in turn. *)
Fixpoint set_values (vars : list (string * EvalValue Float)) (ctx : EvalContext)
    : result EvalContext WorkflowError :=
  match vars with
  | [] => Ok ctx
  | (name, v) :: vars =>
      let? ctx := map_err condition_error (ctx_set_value ctx name v) in
      set_values vars ctx
  end.

Fixpoint set_functions (fs : list (string * (EvalValue Float → result (EvalValue Float) EvalError)))
    (ctx : EvalContext) : result EvalContext WorkflowError :=
  match fs with
  | [] => Ok ctx
  | (name, f) :: fs =>
      let? ctx := map_err condition_error (ctx_set_function ctx name f) in
      set_functions fs ctx
  end.

Definition custom_functions :=
  [("str_contains", str_contains); ("str_starts_with", str_starts_with);
   ("str_ends_with", str_ends_with); ("str_len", str_len)].

(** The variables of the webhook's fields: keys that name a [trigger_] or
[steps_] variable are skipped. *)
Definition webhook_vars {HO : HashOrder} (ctx : TriggerContext) : list (string * EvalValue Float) :=
  omap (λ kv, if Text.starts_with "trigger_" kv.1 || Text.starts_with "steps_" kv.1 then None
              else Some ("trigger_" +:+ kv.1, EString kv.2)) (hm_iter (webhook_fields ctx)).

Definition trigger_vars (ctx : TriggerContext) : list (string * EvalValue Float) :=
  [("trigger_text", EString (text ctx)); ("trigger_author", EString (author ctx));
   ("trigger_channel_id", EString (channel_id ctx)); ("trigger_timestamp", EString (timestamp ctx));
   ("trigger_emoji", EString (emoji ctx)); ("trigger_message_id", EString (message_id ctx));
   ("trigger_is_reply", EBoolean (is_reply ctx))].

Definition step_vars {HO : HashOrder} (step_outputs : Outputs) : list (string * EvalValue Float) :=
  hm_iter step_outputs ≫= λ so,
    match so.2 with
    | Object map => List.map (λ fv, ("steps_" +:+ so.1 +:+ "_output_" +:+ fv.1, json_value_to_eval fv.2)) map
    | _ => []
    end.

Definition build_eval_context {HO : HashOrder} (trigger_ctx : TriggerContext) (step_outputs : Outputs)
    : result EvalContext WorkflowError :=
  let? ctx := set_functions custom_functions ctx_new in
  let? ctx := set_values (webhook_vars trigger_ctx) ctx in
  let? ctx := set_values (trigger_vars trigger_ctx) ctx in
  set_values (step_vars step_outputs) ctx.

Definition MAX_EXPR_LEN : nat := 4096.

Definition evaluate_condition {HO : HashOrder} (fate : EvalFate) (expr : string)
    (trigger_ctx : TriggerContext) (step_outputs : Outputs) : result bool WorkflowError :=
  let? ctx := build_eval_context trigger_ctx step_outputs in
  if MAX_EXPR_LEN <? String.length expr
  then Err (ConditionError "condition expression exceeds 4096 byte limit")
  else match fate with
  | EvalLate => Err (ConditionError ("'" +:+ expr +:+ "': evaluation timed out after 100ms"))
  | EvalPanicked e => Err (ConditionError ("'" +:+ expr +:+ "': eval task panicked: " +:+ e))
  | EvalInTime =>
      map_err (λ e, ConditionError ("'" +:+ expr +:+ "': " +:+ eval_error_to_string e))
        (eval_boolean_with_context expr ctx)
  end.

End conditions.
End text.
