(* ===== verification/WorkflowTextProps.v ===== *)
(** * WorkflowTextProps: what templates and conditions mean

A template has one reading as literal text and placeholders, fixed before any
value is looked up, and resolving it renders that reading.  The variables of a
condition are the trigger's, whatever a webhook sent. *)
From S2P Require Import Prelude Text Encode Json WorkflowDef WorkflowText.

(** ** Reading a template *)

Inductive Segment : Type :=
| Literal (s : string)
| Placeholder (x : string).    (* the text between the braces *)

(** A template is literal text when no opening braces are closed after the first
opening ones; otherwise its first placeholder ends at the first closing braces. *)
Inductive reads : string → list Segment → Prop :=
| reads_literal t :
    (∀ a b, t = a +:+ "{{" +:+ b → leftmost "{{" a b → ¬ occurs "}}" b) → reads t [Literal t]
| reads_placeholder a x rest segs :
    leftmost "{{" a (x +:+ "}}" +:+ rest) → leftmost "}}" x rest → reads rest segs →
    reads (a +:+ "{{" +:+ x +:+ "}}" +:+ rest) (Literal a :: Placeholder x :: segs).

Lemma reads_functional t segs : reads t segs → ∀ segs', reads t segs' → segs' = segs.
Proof.
  induction 1 as [t Ht|a x rest segs Ha Hx Hr IH]; intros segs' H'.
  - inversion H' as [|a x rest segs Ha Hx Hr Heq]; subst; [done|].
    exfalso. eapply Ht; [done|done|]. by exists x, rest.
  - inversion H' as [t Ht Heq|a' x' rest' segs'' Ha' Hx' Hr' Heq]; subst.
    + exfalso. eapply Ht; [done|done|]. by exists x, rest.
    + destruct (leftmost_unique _ _ _ _ _ Ha' Ha Heq) as [-> Heq'].
      destruct (leftmost_unique _ _ _ _ _ Hx' Hx Heq') as [-> ->].
      by rewrite (IH _ Hr').
Qed.

Section templates.
Context {JC : JsonCrate} {VT : ValueText}.

Definition render (ctx : TriggerContext) (outputs : gmap string Value) (seg : Segment)
    : result string WorkflowError :=
  match seg with
  | Literal s => Ok s
  | Placeholder x =>
      let '(path, filter) := split_filter (trim x) in
      match resolve_variable path ctx outputs, filter with
      | Some v, Some f => apply_filter v f
      | Some v, None => Ok v
      | None, _ => Ok ("{{" +:+ trim x +:+ "}}")
      end
  end.

Fixpoint render_all (ctx : TriggerContext) (outputs : gmap string Value) (segs : list Segment)
    : result string WorkflowError :=
  match segs with
  | [] => Ok ""
  | seg :: segs =>
      let? a := render ctx outputs seg in
      let? b := render_all ctx outputs segs in
      Ok (a +:+ b)
  end.

Definition prepend (acc : string) (r : result string WorkflowError) : result string WorkflowError :=
  let? b := r in Ok (acc +:+ b).

Lemma prepend_bind acc seg ctx outputs segs :
  prepend acc (render_all ctx outputs (seg :: segs)) =
  let? a := render ctx outputs seg in prepend (acc +:+ a) (render_all ctx outputs segs).
Proof.
  unfold prepend. cbn. destruct (render ctx outputs seg); cbn; [|done].
  destruct (render_all ctx outputs segs); cbn; [|done]. by rewrite string_app_assoc.
Qed.

(** The loop with enough fuel reads the template once and renders it. *)
Lemma resolve_loop_reads fuel t :
  String.length t < fuel →
  ∃ segs, reads t segs ∧
    ∀ ctx outputs acc, resolve_loop ctx outputs fuel acc t = prepend acc (render_all ctx outputs segs).
Proof.
  revert t. induction fuel as [|fuel IH]; intros t Hlen; [lia|].
  cbn [resolve_loop]. destruct (find_str "{{" t) as [i|] eqn:Hi.
  2:{ exists [Literal t]. split; [|intros; unfold prepend; cbn; by rewrite string_app_nil_r].
      constructor. intros a b -> _. exfalso. eapply find_str_None; [exact Hi|]. by exists a, b. }
  destruct (find_str_Some _ _ _ Hi) as [Ht Hleft]. pose proof (find_str_bound _ _ _ Hi) as Hbi.
  change (String.length "{{") with 2 in *.
  set (b := str_drop (i + 2) t) in *.
  destruct (find_str "}}" b) as [j|] eqn:Hj.
  - destruct (find_str_Some _ _ _ Hj) as [Hb Hleft2]. pose proof (find_str_bound _ _ _ Hj) as Hbj.
    change (String.length "}}") with 2 in *.
    destruct (IH (str_drop (j + 2) b)) as (segs & Hr & Hloop).
    { rewrite length_str_drop. unfold b in *. rewrite length_str_drop in *. lia. }
    exists (Literal (str_take i t) :: Placeholder (str_take j b) :: segs). split.
    { pose proof (reads_placeholder (str_take i t) (str_take j b) (str_drop (j + 2) b) segs) as Hrd.
      rewrite <-Hb, <-Ht in Hrd. by apply Hrd. }
    intros ctx outputs acc. rewrite !prepend_bind. cbn [render result_bind]. rewrite prepend_bind. cbn [render].
    destruct (split_filter (trim (str_take j b))) as [path filter].
    destruct (resolve_variable path ctx outputs) as [v|], filter as [f|]; cbn [result_bind]; try apply Hloop.
    destruct (apply_filter v f); cbn [result_bind]; [apply Hloop|done].
  - exists [Literal t]. split.
    + constructor. intros a' b' Heq Hl'.
      rewrite Ht in Heq. apply leftmost_unique in Heq as [_ ->]; [|done..]. by apply find_str_None in Hj.
    + intros ctx outputs acc. unfold prepend. cbn [render_all render result_bind].
      by rewrite string_app_nil_r, <-string_app_assoc, <-Ht.
Qed.

(** A template has exactly one reading as literal text and placeholders,
which depends on no value; resolving it concatenates the literals and the
filtered values of the placeholders, unknown ones as they stand. Substituted
values are never read as templates again. *)
Theorem templates_render_once (t : string) :
  ∃ segs, reads t segs ∧ (∀ segs', reads t segs' → segs' = segs) ∧
    ∀ ctx outputs, resolve_template ctx outputs t = render_all ctx outputs segs.
Proof.
  destruct (resolve_loop_reads (S (String.length t)) t) as (segs & Hr & Hloop); [lia|].
  exists segs. split_and!; [done|by apply reads_functional|]. intros ctx outputs.
  assert (resolve_loop ctx outputs (S (String.length t)) "" t = render_all ctx outputs segs) as Heq.
  { rewrite Hloop. unfold prepend. by destruct (render_all ctx outputs segs). }
  unfold resolve_template. destruct (find_str "{{" t) eqn:Hf; [done|].
  rewrite <-Heq. cbn [resolve_loop]. by rewrite Hf.
Qed.

End templates.

(** ** Conditions *)

Definition same_type {F : Type} (v w : EvalValue F) : bool :=
  match v, w with
  | EString _, EString _ | EFloat _, EFloat _ | EInt _, EInt _ | EBoolean _, EBoolean _
  | ETuple _, ETuple _ | EEmpty, EEmpty => true
  | _, _ => false
  end.

Section conditions.
Context {JC : JsonCrate} {VT : ValueText} {EV : Evalexpr} {HO : HashOrder}.

(** The documented behaviour of [evalexpr]'s [HashMapContext]: variables keep
their type once set, and functions are apart from variables. *)
Record EvalexprLaws : Prop := {
  new_empty n : ctx_get_value ctx_new n = None;
  set_function_ok c n f : is_ok (ctx_set_function c n f) = true;
  set_function_values c n f c' m :
    ctx_set_function c n f = Ok c' → ctx_get_value c' m = ctx_get_value c m;
  set_value_ok c n v :
    is_ok (ctx_set_value c n v)
    = match ctx_get_value c n with Some w => same_type w v | None => true end;
  set_value_get c n v c' : ctx_set_value c n v = Ok c' → ctx_get_value c' n = Some v;
  set_value_other c n v c' m :
    ctx_set_value c n v = Ok c' → m ≠ n → ctx_get_value c' m = ctx_get_value c m
}.

Context (EL : EvalexprLaws).

Lemma set_functions_values fs c c' :
  set_functions fs c = Ok c' → ∀ m, ctx_get_value c' m = ctx_get_value c m.
Proof.
  revert c. induction fs as [|[n f] fs IH]; cbn; intros c; [by intros [= ->]|].
  destruct (ctx_set_function c n f) as [c1|] eqn:Hs; cbn; [|done]. intros H m.
  rewrite (IH _ H m). by eapply set_function_values.
Qed.

Lemma set_functions_ok fs c : is_ok (set_functions fs c) = true.
Proof.
  revert c. induction fs as [|[n f] fs IH]; cbn; intros c; [done|].
  pose proof (set_function_ok EL c n f). destruct (ctx_set_function c n f); [apply IH|done].
Qed.

Lemma set_values_other vars c c' m :
  set_values vars c = Ok c' → m ∉ vars.*1 → ctx_get_value c' m = ctx_get_value c m.
Proof.
  revert c. induction vars as [|[n v] vars IH]; cbn; intros c; [by intros [= ->]|].
  destruct (ctx_set_value c n v) as [c1|] eqn:Hs; cbn; [|done].
  intros H [Hn Hm]%not_elem_of_cons. rewrite (IH _ H Hm). by eapply set_value_other.
Qed.

(** Variables with different names all keep the value they are set to. *)
Lemma set_values_get vars c c' :
  set_values vars c = Ok c' → NoDup vars.*1 → ∀ n v, (n, v) ∈ vars → ctx_get_value c' n = Some v.
Proof.
  revert c. induction vars as [|[n v] vars IH]; cbn; intros c; [by intros _ _ n v ?%elem_of_nil|].
  destruct (ctx_set_value c n v) as [c1|] eqn:Hs; cbn; [|done].
  intros H [Hn Hd]%NoDup_cons m w [[= -> ->]|Hw]%elem_of_cons; [|by eapply IH].
  rewrite (set_values_other _ _ _ _ H Hn). by eapply set_value_get.
Qed.

(** Setting string variables succeeds when the variables present under their
names are strings. *)
Definition strings_only (c : EvalContext) : Prop :=
  ∀ n v, ctx_get_value c n = Some v → same_type v (EString "") = true.

Lemma set_values_strings vars c :
  strings_only c → Forall (λ nv, same_type nv.2 (EString "") = true) vars →
  ∃ c', set_values vars c = Ok c' ∧ strings_only c'.
Proof.
  intros Hc Hall. revert c Hc. induction Hall as [|[n v] vars Hv Hall IH]; cbn; intros c Hc; [eauto|].
  pose proof (set_value_ok EL c n v) as Hok.
  destruct (ctx_set_value c n v) as [c1|e] eqn:Hs; cbn in *.
  - apply IH. intros m w Hw. destruct (decide (m = n)) as [->|Hm].
    + rewrite (set_value_get EL _ _ _ _ Hs) in Hw. by simplify_eq.
    + rewrite (set_value_other EL _ _ _ _ _ Hs Hm) in Hw. by eapply Hc.
  - destruct (ctx_get_value c n) as [w|] eqn:Hg; [|done]. apply Hc in Hg. by destruct w, v.
Qed.

Lemma webhook_vars_elem ctx n v :
  (n, v) ∈ webhook_vars ctx ↔
  ∃ k s, webhook_fields ctx !! k = Some s ∧ Text.starts_with "trigger_" k = false
         ∧ Text.starts_with "steps_" k = false ∧ n = "trigger_" +:+ k ∧ v = EString s.
Proof.
  unfold webhook_vars. rewrite list_elem_of_omap. split.
  - intros ([k s] & Hin%elem_of_hm_iter & H). cbn [fst snd] in H.
    destruct (Text.starts_with "trigger_" k) eqn:Ht, (Text.starts_with "steps_" k) eqn:Hs; [done..|].
    injection H as <- <-. by exists k, s.
  - intros (k & s & Hin%elem_of_hm_iter & Ht & Hs & -> & ->). exists (k, s). split; [done|].
    cbn [fst snd]. by rewrite Ht, Hs.
Qed.

Lemma webhook_vars_strings ctx : Forall (λ nv, same_type nv.2 (EString "") = true) (webhook_vars ctx).
Proof. apply Forall_forall. intros [n v] (k & s & _ & _ & _ & _ & ->)%webhook_vars_elem. done. Qed.

Lemma webhook_vars_distinct ctx : NoDup (webhook_vars ctx).*1.
Proof.
  unfold webhook_vars. assert (NoDup (hm_iter (webhook_fields ctx)).*1) as Hd.
  { rewrite hm_iter_perm. apply NoDup_fst_map_to_list. }
  induction (hm_iter (webhook_fields ctx)) as [|[k s] l IH]; [constructor|].
  rewrite fmap_cons in Hd. apply NoDup_cons in Hd as [Hk Hd]. cbn -[Text.starts_with fmap].
  destruct (Text.starts_with "trigger_" k || Text.starts_with "steps_" k); [by apply IH|].
  rewrite fmap_cons. apply NoDup_cons. split; [|by apply IH].
  intros ([n v] & Heq & ([k' s'] & Hin & Hv)%list_elem_of_omap)%list_elem_of_fmap. cbn [fst snd] in *.
  case_match; [done|]. injection Hv as Hv _. subst n.
  apply (string_app_inj_l "trigger_") in Hv as ->.
  apply Hk, list_elem_of_fmap. by exists (k, s').
Qed.

Lemma trigger_vars_distinct ctx : NoDup (trigger_vars ctx).*1.
Proof. cbn. repeat (apply NoDup_cons; split; [set_solver|]). constructor. Qed.

(** A variable of a step's output is not one of the trigger's. *)
Lemma step_vars_prefix outputs n : n ∈ (step_vars outputs).*1 → Text.starts_with "steps_" n = true.
Proof.
  unfold step_vars. intros ([m v] & -> & Hin)%list_elem_of_fmap.
  apply list_elem_of_bind in Hin as ([id o] & Hv & _). cbn in Hv.
  destruct o as [| | | | |map]; try by apply elem_of_nil in Hv.
  apply list_elem_of_fmap in Hv as ([f w] & [= -> ->] & _).
  unfold Text.starts_with. apply string_prefix_iff. eauto.
Qed.

Lemma trigger_vars_prefix ctx n : n ∈ (trigger_vars ctx).*1 → Text.starts_with "steps_" n = false.
Proof. cbn. rewrite !elem_of_cons, elem_of_nil. intros [->|[->|[->|[->|[->|[->|[->|[]]]]]]]]; done. Qed.

Lemma webhook_vars_prefix ctx n : n ∈ (webhook_vars ctx).*1 → Text.starts_with "steps_" n = false.
Proof. by intros ([m v] & -> & (k & s & _ & _ & _ & -> & _)%webhook_vars_elem)%list_elem_of_fmap. Qed.

Lemma step_names_apart n outputs : Text.starts_with "steps_" n = false → n ∉ (step_vars outputs).*1.
Proof. intros Hn Hin%step_vars_prefix. congruence. Qed.

(** Whatever fields a webhook sent, when the variables of a condition can
be built the trigger's own have the trigger's values, the variables of step
outputs are only those of the outputs, and no other one is set by a webhook
under a [steps_] name. *)
Theorem standard_variables_kept (ctx : TriggerContext) (outputs : gmap string Value) (c : EvalContext) :
  build_eval_context ctx outputs = Ok c →
  (∀ n v, (n, v) ∈ trigger_vars ctx → ctx_get_value c n = Some v)
  ∧ (∀ n v, Text.starts_with "steps_" n = true → ctx_get_value c n = Some v → n ∈ (step_vars outputs).*1).
Proof.
  unfold build_eval_context. intros (c1 & Hf & (c2 & Hw & (c3 & Ht & Hs)%result_bind_Ok)%result_bind_Ok)%result_bind_Ok.
  split.
  - intros n v Hin. assert (n ∈ (trigger_vars ctx).*1) as Hn by (apply list_elem_of_fmap; by exists (n, v)).
    rewrite (set_values_other _ _ _ _ Hs); [|by eapply step_names_apart, trigger_vars_prefix].
    eapply set_values_get; [exact Ht|apply trigger_vars_distinct|done].
  - intros n v Hn Hg. destruct (decide (n ∈ (step_vars outputs).*1)) as [|Hno]; [done|exfalso].
    rewrite (set_values_other _ _ _ _ Hs Hno), (set_values_other _ _ _ _ Ht), (set_values_other _ _ _ _ Hw),
      (set_functions_values _ _ _ Hf), new_empty in Hg; [done|done| |].
    + intros Hin%webhook_vars_prefix. congruence.
    + intros Hin%trigger_vars_prefix. congruence.
Qed.

(** For the conditions of a trigger, the variables cannot be built exactly
when a webhook sent a field named [is_reply]: it becomes a text variable
[trigger_is_reply], which the evaluator refuses to set to the boolean. *)
Theorem is_reply_field_breaks_conditions (ctx : TriggerContext) :
  is_ok (build_eval_context ctx ∅) = bool_decide (webhook_fields ctx !! "is_reply" = None).
Proof.
  unfold build_eval_context. pose proof (set_functions_ok custom_functions ctx_new) as Hok.
  destruct (set_functions custom_functions ctx_new) as [c1|] eqn:Hf; [clear Hok; cbn [result_bind]|done].
  assert (strings_only c1) as Hc1.
  { intros n v. by rewrite (set_functions_values _ _ _ Hf), new_empty. }
  destruct (set_values_strings (webhook_vars ctx) c1 Hc1 (webhook_vars_strings ctx)) as (c2 & Hw & Hc2).
  rewrite Hw. cbn [result_bind].
  assert (step_vars ∅ = []) as ->. { unfold step_vars. by rewrite hm_iter_empty. }
  change (trigger_vars ctx) with (take 6 (trigger_vars ctx) ++ [("trigger_is_reply", EBoolean (is_reply ctx))]).
  destruct (set_values_strings (take 6 (trigger_vars ctx)) c2 Hc2) as (c3 & H6 & _); [by repeat constructor|].
  assert (∀ vars c c', set_values vars c = Ok c' → ∀ nv, set_values (vars ++ [nv]) c = set_values [nv] c') as Happ.
  { clear. induction vars as [|[m w] vars IH]; cbn; intros c c'; [by intros [= ->]|].
    destruct (ctx_set_value c m w); cbn; [apply IH|done]. }
  rewrite (Happ _ _ _ H6). cbn. pose proof (set_value_ok EL c3 "trigger_is_reply" (EBoolean (is_reply ctx))) as Hk.
  rewrite (set_values_other _ _ _ "trigger_is_reply" H6) in Hk by (cbn; set_solver).
  assert (is_ok (ctx_set_value c3 "trigger_is_reply" (EBoolean (is_reply ctx)))
          = bool_decide (webhook_fields ctx !! "is_reply" = None)) as <-.
  2:{ by destruct (ctx_set_value c3 _ _). }
  rewrite Hk. destruct (webhook_fields ctx !! "is_reply") as [s|] eqn:Hr.
  - rewrite (set_values_get _ _ _ Hw (webhook_vars_distinct ctx) "trigger_is_reply" (EString s)); [done|].
    apply webhook_vars_elem. by exists "is_reply", s.
  - rewrite (set_values_other _ _ _ _ Hw), (set_functions_values _ _ _ Hf), (new_empty EL); [done|].
    intros ([n v] & Heq & (k & s & Hk' & _ & _ & -> & _)%webhook_vars_elem)%list_elem_of_fmap.
    cbn [fst] in Heq. apply (string_app_inj_l "trigger_" "is_reply") in Heq as <-. congruence.
Qed.

End conditions.
