(* ===== verification/WorkflowStore.v ===== *)
(** * WorkflowStore: the workflow tables

[crates/buzz-db/src/store/workflow.rs]: workflows, runs, approvals and
scheduled-fire claims, keyed by the community that owns them.  A statement is a
function from the tables to its answer and the tables after it; a failed
statement or a rolled back transaction leaves the tables as they were.  [now]
is the transaction's [NOW()].  An instant is an integer number of nanoseconds;
the rounding of [timestamptz] to microseconds is not modelled. *)
From stdpp Require Import pretty.
From S2P Require Import Prelude Text Encode Nostr Json.

Abbreviation Bytes := (list N).
Abbreviation CommunityId := N.
Abbreviation Key := (Uuid * Uuid)%type.      (* a community and an id *)

(** ** Interfaces *)

(** SHA-256 of a text, hexadecimal, and Postgres's reading and text of [jsonb]. *)
Class PgCrates {JC : JsonCrate} : Type := {
  sha256_text : string → Bytes;
  hex : Bytes → string;                       (* [hex::encode] *)
  jsonb_of_text : string → option Value;      (* [$6::jsonb] *)
  jsonb_text : Value → string                 (* [->>] of a value that is not a text *)
}.

Inductive DbError : Type :=
| Sqlx (m : string)
| NotFound (m : string)
| AccessDenied (m : string)
| InvalidData (m : string).

Definition db_error_to_string (e : DbError) : string :=
  match e with
  | Sqlx m => "database error: " +:+ m
  | NotFound m => "not found: " +:+ m
  | AccessDenied m => "access denied: " +:+ m
  | InvalidData m => "invalid data: " +:+ m
  end.

(** ** Status columns *)

Inductive WorkflowStatus : Type := Active | Disabled | Archived.
Inductive RunStatus : Type := Pending | Running | WaitingApproval | Completed | Failed | Cancelled.
Inductive ApprovalStatus : Type := ApPending | Granted | Denied | Expired.

#[export] Instance WorkflowStatus_eq_dec : EqDecision WorkflowStatus.
Proof. solve_decision. Defined.
#[export] Instance RunStatus_eq_dec : EqDecision RunStatus.
Proof. solve_decision. Defined.
#[export] Instance ApprovalStatus_eq_dec : EqDecision ApprovalStatus.
Proof. solve_decision. Defined.

Definition workflow_status_to_string (s : WorkflowStatus) : string :=
  match s with Active => "active" | Disabled => "disabled" | Archived => "archived" end.

Definition run_status_to_string (s : RunStatus) : string :=
  match s with
  | Pending => "pending" | Running => "running" | WaitingApproval => "waiting_approval"
  | Completed => "completed" | Failed => "failed" | Cancelled => "cancelled"
  end.

Definition approval_status_to_string (s : ApprovalStatus) : string :=
  match s with ApPending => "pending" | Granted => "granted" | Denied => "denied" | Expired => "expired" end.

Definition workflow_status_from_str (s : string) : result WorkflowStatus DbError :=
  if String.eqb s "active" then Ok Active
  else if String.eqb s "disabled" then Ok Disabled
  else if String.eqb s "archived" then Ok Archived
  else Err (InvalidData ("unknown workflow status: " +:+ s)).

Definition run_status_from_str (s : string) : result RunStatus DbError :=
  if String.eqb s "pending" then Ok Pending
  else if String.eqb s "running" then Ok Running
  else if String.eqb s "waiting_approval" then Ok WaitingApproval
  else if String.eqb s "completed" then Ok Completed
  else if String.eqb s "failed" then Ok Failed
  else if String.eqb s "cancelled" then Ok Cancelled
  else Err (InvalidData ("unknown run status: " +:+ s)).

Definition approval_status_from_str (s : string) : result ApprovalStatus DbError :=
  if String.eqb s "pending" then Ok ApPending
  else if String.eqb s "granted" then Ok Granted
  else if String.eqb s "denied" then Ok Denied
  else if String.eqb s "expired" then Ok Expired
  else Err (InvalidData ("unknown approval status: " +:+ s)).

(** [status NOT IN ('completed', 'failed', 'cancelled')], negated. *)
Definition terminal (s : RunStatus) : bool :=
  match s with Completed | Failed | Cancelled => true | _ => false end.

(** ** Rows and tables *)

Section store.
Context {JC : JsonCrate}.

Record WorkflowRecord : Type := mkWorkflow {
  w_name : string;
  w_owner_pubkey : Bytes;
  w_channel_id : option Uuid;
  w_definition : Value;
  w_definition_hash : Bytes;
  w_status : WorkflowStatus;
  w_enabled : bool;
  w_created_at : Z;
  w_updated_at : Z
}.

Record WorkflowRunRecord : Type := mkRun {
  r_workflow_id : Uuid;
  r_status : RunStatus;
  r_trigger_event_id : option Bytes;
  r_current_step : Z;
  r_execution_trace : Value;
  r_trigger_context : option Value;
  r_started_at : option Z;
  r_completed_at : option Z;
  r_error_message : option string;
  r_error_code : option string;
  r_created_at : Z
}.

Record ApprovalRecord : Type := mkApproval {
  a_workflow_id : Uuid;
  a_run_id : Uuid;
  a_channel_id : option Uuid;
  a_step_id : string;
  a_step_index : Z;
  a_approver_spec : string;
  a_message : string;
  a_workflow_definition : option Value;
  a_approver_pubkeys : list Bytes;
  a_status : ApprovalStatus;
  a_approver_pubkey : option Bytes;
  a_note : option string;
  a_granted_at : option Z;
  a_denied_at : option Z;
  a_expires_at : Z;
  a_created_at : Z;
  a_resume_claimed_at : option Z;
  a_resume_lease_until : option Z
}.

(** A row of [scheduled_workflow_fires]. *)
Record ScheduledWorkflowFireClaim : Type := mkFire {
  s_claimed_at : Z;
  s_workflow_run_id : option Uuid
}.

Record Store : Type := mkStore {
  workflows : gmap Key WorkflowRecord;
  runs : gmap Key WorkflowRunRecord;
  approvals : gmap (Uuid * Bytes) ApprovalRecord;
  fires : gmap (Uuid * Uuid * Z) ScheduledWorkflowFireClaim;
  archived_communities : gset Uuid;          (* [communities.archived_at IS NOT NULL] *)
  write_closed : gset Uuid                   (* [NOT community_write_allowed] *)
}.

Definition with_workflows ws (s : Store) : Store :=
  mkStore ws (runs s) (approvals s) (fires s) (archived_communities s) (write_closed s).
Definition with_runs rs (s : Store) : Store :=
  mkStore (workflows s) rs (approvals s) (fires s) (archived_communities s) (write_closed s).
Definition with_approvals aps (s : Store) : Store :=
  mkStore (workflows s) (runs s) aps (fires s) (archived_communities s) (write_closed s).
Definition with_fires fs (s : Store) : Store :=
  mkStore (workflows s) (runs s) (approvals s) fs (archived_communities s) (write_closed s).

(** An answer and the tables afterwards. *)
Definition Tx (A : Type) : Type := Store → result A DbError * Store.

Definition answer {A : Type} (r : result A DbError) : Tx A := λ s, (r, s).

(** [UPDATE t SET f WHERE key = k AND p]: the number of rows and the table. *)
Definition update_row {K V : Type} `{Countable K} (k : K) (p : V → bool) (f : V → V) (m : gmap K V)
    : nat * gmap K V :=
  match m !! k with
  | Some v => if p v then (1, <[k := f v]> m) else (0, m)
  | None => (0, m)
  end.

(** [UPDATE t SET f WHERE p], without a key. *)
Definition update_rows {K V : Type} `{Countable K} (p : K → V → bool) (f : V → V) (m : gmap K V)
    : nat * gmap K V :=
  (size (filter (λ kv, p kv.1 kv.2 = true) m), map_imap (λ k v, Some (if p k v then f v else v)) m).

Definition row_le {K V : Type} (le : V → V → bool) (x y : K * V) : Prop := le x.2 y.2 = true.

#[local] Instance row_le_dec {K V : Type} (le : V → V → bool) : RelDecision (@row_le K V le).
Proof. unfold row_le. intros x y. apply _. Defined.

(** [SELECT ... WHERE p ORDER BY key LIMIT n]: ties in the order of the scan. *)
Definition select_rows {K V : Type} `{Countable K} {HO : HashOrder} (p : K → V → bool) (le : V → V → bool)
    (limit : nat) (m : gmap K V) : list (K * V) :=
  take limit (merge_sort (row_le le) (filter (λ kv, p kv.1 kv.2 = true) (hm_iter m))).

Definition LIST_DEFAULT_LIMIT : Z := 100.
Definition LIST_MAX_LIMIT : Z := 1000.
Definition clamp_limit (limit : Z) : nat := Z.to_nat (Z.max 1 (Z.min limit LIST_MAX_LIMIT)).

(** ** Workflows *)

Section workflows.
Context {PC : PgCrates} {UT : UuidText} {HO : HashOrder}.

Definition workflow_not_found (id : Uuid) : DbError := NotFound ("workflow " +:+ uuid_to_string id).

Definition bad_json : DbError := Sqlx "invalid input syntax for type json".

(** [id] is the fresh [Uuid::new_v4()]. *)
Definition create_workflow (now : Z) (id community_id : Uuid) (channel_id : option Uuid) (owner_pubkey : Bytes)
    (name definition_json : string) (definition_hash : Bytes) : Tx Uuid := λ s,
  match jsonb_of_text definition_json with
  | None => (Err bad_json, s)
  | Some definition =>
      match workflows s !! (community_id, id) with
      | Some _ => (Err (Sqlx "duplicate key"), s)
      | None =>
          (Ok id, with_workflows (<[(community_id, id) :=
             mkWorkflow name owner_pubkey channel_id definition definition_hash Active true now now]> (workflows s)) s)
      end
  end.

Definition upsert_workflow (now : Z) (community_id id : Uuid) (channel_id : option Uuid) (owner_pubkey : Bytes)
    (name definition_json : string) (definition_hash : Bytes) : Tx unit := λ s,
  match jsonb_of_text definition_json with
  | None => (Err bad_json, s)
  | Some definition =>
      match workflows s !! (community_id, id) with
      | None =>
          (Ok tt, with_workflows (<[(community_id, id) :=
             mkWorkflow name owner_pubkey channel_id definition definition_hash Active true now now]> (workflows s)) s)
      | Some w =>
          if bool_decide (w_owner_pubkey w = owner_pubkey) && bool_decide (w_channel_id w = channel_id)
          then (Ok tt, with_workflows (<[(community_id, id) :=
             mkWorkflow name (w_owner_pubkey w) (w_channel_id w) definition definition_hash
               (w_status w) (w_enabled w) (w_created_at w) now]> (workflows s)) s)
          else (Err (AccessDenied ("workflow " +:+ uuid_to_string id
                  +:+ " belongs to a different owner or channel")), s)
      end
  end.

Definition get_workflow (community_id id : Uuid) : Tx WorkflowRecord := λ s,
  (ok_or (workflows s !! (community_id, id)) (workflow_not_found id), s).

Definition newest_first (w w' : WorkflowRecord) : bool := bool_decide (w_created_at w' <= w_created_at w)%Z.
Definition oldest_first (w w' : WorkflowRecord) : bool := bool_decide (w_created_at w <= w_created_at w')%Z.

Definition in_channel (community_id channel_id : Uuid) (k : Key) (w : WorkflowRecord) : bool :=
  bool_decide (k.1 = community_id) && bool_decide (w_channel_id w = Some channel_id).

Definition list_channel_workflows (community_id channel_id : Uuid) (limit offset : option Z)
    : Tx (list (Key * WorkflowRecord)) := λ s,
  let limit := clamp_limit (default LIST_DEFAULT_LIMIT limit) in
  let offset := Z.to_nat (Z.max 0 (default 0%Z offset)) in
  (Ok (take limit (drop offset
    (select_rows (in_channel community_id channel_id) newest_first (size (workflows s)) (workflows s)))), s).

Definition list_enabled_channel_workflows (community_id channel_id : Uuid)
    : Tx (list (Key * WorkflowRecord)) := λ s,
  (Ok (select_rows (λ k w, in_channel community_id channel_id k w && bool_decide (w_status w = Active) && w_enabled w)
         newest_first (Z.to_nat LIST_MAX_LIMIT) (workflows s)), s).

(** [value->>key]: the text of a member, if there is one that is not null. *)
Definition jsonb_get_text (key : string) (value : Value) : option string :=
  match value_get key value with
  | Some (VString text) => Some text
  | Some Null | None => None
  | Some v => Some (jsonb_text v)
  end.

(** [definition->'trigger'->>'on' = 'schedule']. *)
Definition is_schedule (definition : Value) : bool :=
  bool_decide (value_get "trigger" definition ≫= jsonb_get_text "on" = Some "schedule").

Definition list_all_enabled_workflows : Tx (list (Key * WorkflowRecord)) := λ s,
  (Ok (select_rows (λ k w, bool_decide (w_status w = Active) && w_enabled w && is_schedule (w_definition w)
                           && bool_decide (k.1 ∉ archived_communities s))
         oldest_first (Z.to_nat LIST_MAX_LIMIT) (workflows s)), s).

(** ** Scheduled fires *)

Definition claim_scheduled_workflow_fire (now : Z) (community_id workflow_id : Uuid) (scheduled_for : Z)
    : Tx (option ScheduledWorkflowFireClaim) := λ s,
  match workflows s !! (community_id, workflow_id), fires s !! (community_id, workflow_id, scheduled_for) with
  | Some _, None =>
      let claim := mkFire now None in
      (Ok (Some claim), with_fires (<[(community_id, workflow_id, scheduled_for) := claim]> (fires s)) s)
  | _, _ => (Ok None, s)
  end.

(** [MAX(scheduled_for)] over the claims of a workflow. *)
Definition latest_scheduled_workflow_fire (community_id workflow_id : Uuid) : Tx (option Z) := λ s,
  (Ok (map_fold (λ k _ acc,
         if bool_decide (k.1 = (community_id, workflow_id))
         then Some (match acc with Some m => Z.max m k.2 | None => k.2 end) else acc)
       None (fires s)), s).

Definition attach_scheduled_workflow_run (community_id workflow_id : Uuid) (scheduled_for : Z)
    (workflow_run_id : Uuid) : Tx bool := λ s,
  let '(n, fs) := update_row (community_id, workflow_id, scheduled_for)
    (λ f, bool_decide (s_workflow_run_id f = None))
    (λ f, mkFire (s_claimed_at f) (Some workflow_run_id)) (fires s) in
  if n =? 0 then (Ok false, s)
  else match runs s !! (community_id, workflow_run_id) with
       | None => (Err (Sqlx "violates foreign key constraint"), s)
       | Some _ => (Ok true, with_fires fs s)
       end.

Definition prune_scheduled_workflow_fires_before (older_than : Z) : Tx nat := λ s,
  let old (k : Uuid * Uuid * Z) (f : ScheduledWorkflowFireClaim) :=
    bool_decide (s_claimed_at f < older_than)%Z && bool_decide (k.1.1 ∉ write_closed s) in
  (Ok (size (filter (λ kf, old kf.1 kf.2 = true) (fires s))),
   with_fires (filter (λ kf, old kf.1 kf.2 = false) (fires s)) s).

(** ** Changing and deleting workflows *)

(** An [UPDATE] of one workflow that must find it. *)
Definition update_one_workflow (community_id id : Uuid) (f : WorkflowRecord → WorkflowRecord) : Tx unit := λ s,
  let '(n, ws) := update_row (community_id, id) (λ _, true) f (workflows s) in
  if n =? 0 then (Err (workflow_not_found id), s) else (Ok tt, with_workflows ws s).

Definition update_workflow (community_id id : Uuid) (name definition_json : string) (definition_hash : Bytes)
    : Tx unit := λ s,
  match jsonb_of_text definition_json with
  | None => (Err bad_json, s)
  | Some definition =>
      update_one_workflow community_id id (λ w,
        mkWorkflow name (w_owner_pubkey w) (w_channel_id w) definition definition_hash (w_status w)
          (w_enabled w) (w_created_at w) (w_updated_at w)) s
  end.

Definition set_status (status : WorkflowStatus) (w : WorkflowRecord) : WorkflowRecord :=
  mkWorkflow (w_name w) (w_owner_pubkey w) (w_channel_id w) (w_definition w) (w_definition_hash w) status
    (w_enabled w) (w_created_at w) (w_updated_at w).
Definition set_enabled (enabled : bool) (w : WorkflowRecord) : WorkflowRecord :=
  mkWorkflow (w_name w) (w_owner_pubkey w) (w_channel_id w) (w_definition w) (w_definition_hash w) (w_status w)
    enabled (w_created_at w) (w_updated_at w).

Definition update_workflow_status (community_id id : Uuid) (status : WorkflowStatus) : Tx unit :=
  update_one_workflow community_id id (set_status status).

Definition set_workflow_enabled (community_id id : Uuid) (enabled : bool) : Tx unit :=
  update_one_workflow community_id id (set_enabled enabled).

Definition disable_workflows_for_owner_in_channel (community_id channel_id : Uuid) (owner_pubkey : Bytes)
    : Tx nat := λ s,
  let '(n, ws) := update_rows (λ k w, in_channel community_id channel_id k w
                                      && bool_decide (w_owner_pubkey w = owner_pubkey) && w_enabled w)
                    (set_enabled false) (workflows s) in
  (Ok n, with_workflows ws s).

(** [DELETE FROM workflows], with the rows that reference it ([ON DELETE CASCADE]). *)
Definition delete_cascade (community_id id : Uuid) (s : Store) : Store :=
  mkStore (delete (community_id, id) (workflows s))
    (filter (λ kr, ¬ (kr.1.1 = community_id ∧ r_workflow_id kr.2 = id)) (runs s))
    (filter (λ ka, ¬ (ka.1.1 = community_id ∧
       (a_workflow_id ka.2 = id ∨
        (r_workflow_id <$> runs s !! (community_id, a_run_id ka.2)) = Some id))) (approvals s))
    (filter (λ kf, ¬ (kf.1.1 = (community_id, id))) (fires s))
    (archived_communities s) (write_closed s).

Definition delete_workflow (community_id id : Uuid) : Tx unit := λ s,
  match workflows s !! (community_id, id) with
  | None => (Err (workflow_not_found id), s)
  | Some _ => (Ok tt, delete_cascade community_id id s)
  end.

Definition delete_workflow_for_owner (community_id id : Uuid) (owner_pubkey : Bytes) : Tx (option Uuid) := λ s,
  match workflows s !! (community_id, id) with
  | Some w =>
      if bool_decide (w_owner_pubkey w = owner_pubkey)
      then (Ok (w_channel_id w), delete_cascade community_id id s)
      else (Err (workflow_not_found id), s)
  | None => (Err (workflow_not_found id), s)
  end.

Definition find_by_owner_and_name (community_id : Uuid) (owner_pubkey : Bytes) (name : string)
    : Tx (option (Key * WorkflowRecord)) := λ s,
  (Ok (head (filter (λ kw, bool_decide (kw.1.1 = community_id) && bool_decide (w_owner_pubkey kw.2 = owner_pubkey)
                          && String.eqb (w_name kw.2) name = true) (hm_iter (workflows s)))), s).

(** ** Runs *)

Definition run_not_found (id : Uuid) : DbError := NotFound ("workflow_run " +:+ uuid_to_string id).

Definition create_workflow_run (now : Z) (id community_id workflow_id : Uuid) (trigger_event_id : option Bytes)
    (trigger_context : option Value) : Tx Uuid := λ s,
  match workflows s !! (community_id, workflow_id), runs s !! (community_id, id) with
  | None, _ => (Err (Sqlx "violates foreign key constraint"), s)
  | _, Some _ => (Err (Sqlx "duplicate key"), s)
  | Some _, None =>
      (Ok id, with_runs (<[(community_id, id) :=
         mkRun workflow_id Pending trigger_event_id 0 (Array []) trigger_context None None None None now]> (runs s)) s)
  end.

Definition get_workflow_run (community_id id : Uuid) : Tx WorkflowRunRecord := λ s,
  (ok_or (runs s !! (community_id, id)) (run_not_found id), s).

Definition run_newest_first (r r' : WorkflowRunRecord) : bool := bool_decide (r_created_at r' <= r_created_at r)%Z.

(** [(created_at, id) < ($3, $4)] where a cursor is given. *)
Definition before_cursor (before : option Z) (before_id : option Uuid) (k : Key) (r : WorkflowRunRecord) : bool :=
  match before, before_id with
  | Some t, Some i => bool_decide (r_created_at r < t)%Z || (bool_decide (r_created_at r = t) && (k.2 <? i)%N)
  | _, _ => true
  end.

Definition run_page_le (x y : Key * WorkflowRunRecord) : Prop :=
  (r_created_at y.2 < r_created_at x.2)%Z ∨ (r_created_at y.2 = r_created_at x.2 ∧ (y.1.2 <= x.1.2)%N).

#[local] Instance run_page_le_dec : RelDecision run_page_le.
Proof. unfold run_page_le. intros x y. apply _. Defined.

Definition list_workflow_runs_page (community_id workflow_id : Uuid) (before : option Z) (before_id : option Uuid)
    (limit : Z) : Tx (list (Key * WorkflowRunRecord)) := λ s,
  (Ok (take (clamp_limit limit) (merge_sort run_page_le
     (filter (λ kr, bool_decide (kr.1.1 = community_id) && bool_decide (r_workflow_id kr.2 = workflow_id)
                    && before_cursor before before_id kr.1 kr.2 = true) (hm_iter (runs s))))), s).

Definition list_workflow_runs (community_id workflow_id : Uuid) (limit : Z) : Tx (list (Key * WorkflowRunRecord)) :=
  list_workflow_runs_page community_id workflow_id None None limit.

(** A code and a message. *)
Record WorkflowRunFailure : Type := mkFailure { failure_code : string; failure_message : string }.

Definition updated_run (now : Z) (status : RunStatus) (current_step : Z) (trace : Value)
    (failure : option WorkflowRunFailure) (r : WorkflowRunRecord) : WorkflowRunRecord :=
  mkRun (r_workflow_id r) status (r_trigger_event_id r) current_step trace (r_trigger_context r)
    (if bool_decide (status = Running) && bool_decide (r_started_at r = None) then Some now else r_started_at r)
    (if terminal status then Some now else r_completed_at r)
    (failure_message <$> failure) (failure_code <$> failure) (r_created_at r).

Definition update_workflow_run (now : Z) (community_id id : Uuid) (status : RunStatus) (current_step : Z)
    (trace : Value) (failure : option WorkflowRunFailure) : Tx unit := λ s,
  let '(affected, rs) := update_row (community_id, id) (λ r, negb (terminal (r_status r)))
    (updated_run now status current_step trace failure) (runs s) in
  if affected =? 0 then
    match runs s !! (community_id, id) with
    | Some r => (Err (InvalidData ("workflow_run " +:+ uuid_to_string id +:+ " is terminal ("
                  +:+ run_status_to_string (r_status r) +:+ ") and cannot be changed")), s)
    | None => (Err (run_not_found id), s)
    end
  else (Ok tt, with_runs rs s).

(** ** Approvals *)

Definition hash_approval_token (token : string) : Bytes := sha256_text token.

Record CreateApprovalParams : Type := mkParams {
  p_community_id : CommunityId;
  p_token : string;
  p_workflow_id : Uuid;
  p_run_id : Uuid;
  p_channel_id : Uuid;
  p_step_id : string;
  p_step_index : Z;
  p_approver_spec : string;
  p_approver_pubkeys : list Bytes;
  p_message : string;
  p_workflow_definition : Value;
  p_expires_at : Z
}.

Definition approval_of_params (now : Z) (p : CreateApprovalParams) : ApprovalRecord :=
  mkApproval (p_workflow_id p) (p_run_id p) (Some (p_channel_id p)) (p_step_id p) (p_step_index p)
    (p_approver_spec p) (p_message p) (Some (p_workflow_definition p)) (p_approver_pubkeys p)
    ApPending None None None None (p_expires_at p) now None None.

(** [create_approval], and [create_approval_on] inside a transaction. *)
Definition create_approval (now : Z) (p : CreateApprovalParams) : Tx unit := λ s,
  let c := p_community_id p in
  let k := (c, hash_approval_token (p_token p)) in
  match approvals s !! k, workflows s !! (c, p_workflow_id p), runs s !! (c, p_run_id p) with
  | Some _, _, _ => (Err (Sqlx "duplicate key"), s)
  | None, Some _, Some _ => (Ok tt, with_approvals (<[k := approval_of_params now p]> (approvals s)) s)
  | None, _, _ => (Err (Sqlx "violates foreign key constraint"), s)
  end.

Definition waiting_run (step_index : Z) (trace : Value) (r : WorkflowRunRecord) : WorkflowRunRecord :=
  mkRun (r_workflow_id r) WaitingApproval (r_trigger_event_id r) step_index trace (r_trigger_context r)
    (r_started_at r) None None None (r_created_at r).

(** One transaction; the serving lease it is guarded by is not modelled here. *)
Definition create_approval_and_wait (now : Z) (p : CreateApprovalParams) (trace : Value) : Tx unit := λ s,
  match create_approval now p s with
  | (Err e, _) => (Err e, s)
  | (Ok _, s') =>
      let '(affected, rs) := update_row (p_community_id p, p_run_id p)
        (λ r, bool_decide (r_workflow_id r = p_workflow_id p) && bool_decide (r_status r = Running))
        (waiting_run (p_step_index p) trace) (runs s') in
      if affected =? 0 then
        (Err (InvalidData ("workflow run " +:+ uuid_to_string (p_run_id p)
              +:+ " was not running when its approval was requested")), s)
      else (Ok tt, with_runs rs s')
  end.

(** The run an approval waits for: [waiting_approval] at the approval's step. *)
Definition waits_for (a : ApprovalRecord) (r : WorkflowRunRecord) : bool :=
  bool_decide (r_workflow_id r = a_workflow_id a) && bool_decide (r_status r = WaitingApproval)
  && bool_decide (r_current_step r = a_step_index a).

Definition run_waits (s : Store) (community_id : Uuid) (a : ApprovalRecord) : bool :=
  match runs s !! (community_id, a_run_id a) with Some r => waits_for a r | None => false end.

Definition decided (now : Z) (status : ApprovalStatus) (approver_pubkey : option Bytes) (note : option string)
    (a : ApprovalRecord) : ApprovalRecord :=
  mkApproval (a_workflow_id a) (a_run_id a) (a_channel_id a) (a_step_id a) (a_step_index a) (a_approver_spec a)
    (a_message a) (a_workflow_definition a) (a_approver_pubkeys a) status approver_pubkey note
    (if bool_decide (status = Granted) then Some now else a_granted_at a)
    (if bool_decide (status = Denied) then Some now else a_denied_at a)
    (a_expires_at a) (a_created_at a) (a_resume_claimed_at a) (a_resume_lease_until a).

(** A run ended by the database itself. *)
Definition failed_run (now : Z) (code message : string) (r : WorkflowRunRecord) : WorkflowRunRecord :=
  mkRun (r_workflow_id r) Failed (r_trigger_event_id r) (r_current_step r) (r_execution_trace r)
    (r_trigger_context r) (r_started_at r) (Some now) (Some message) (Some code) (r_created_at r).

(** Inside the caller's transaction, which commits only when the answer is
[true]. *)
Definition decide_approval_in_transaction (now : Z) (community_id : Uuid)
    (token_hash : Bytes) (status : ApprovalStatus) (approver_pubkey : Bytes) (note : option string) : Tx bool := λ s,
  if negb (bool_decide (status = Granted) || bool_decide (status = Denied))
  then (Err (InvalidData "approval decision must be granted or denied"), s)
  else match approvals s !! (community_id, token_hash) with
  | None => (Ok false, s)
  | Some a =>
      let '(changed, aps) := update_row (community_id, token_hash)
        (λ a, bool_decide (a_status a = ApPending) && bool_decide (now < a_expires_at a)%Z && run_waits s community_id a)
        (decided now status (Some approver_pubkey) note) (approvals s) in
      if changed =? 0 then (Ok false, s)
      else
        let s' := with_approvals aps s in
        if bool_decide (status = Denied) then
          let '(failed, rs) := update_row (community_id, a_run_id a) (waits_for a)
            (failed_run now "approval_denied" ("approval denied by " +:+ hex approver_pubkey)) (runs s') in
          if failed =? 0 then (Ok false, s') else (Ok true, with_runs rs s')
        else (Ok true, s')
  end.

(** The statement under its callers: they commit after [true] and return early,
dropping the transaction, otherwise. *)
Definition decide_approval (now : Z) (community_id : Uuid) (token_hash : Bytes)
    (status : ApprovalStatus) (approver_pubkey : Bytes) (note : option string) : Tx bool := λ s,
  match decide_approval_in_transaction now community_id token_hash status approver_pubkey note s with
  | (Ok true, s') => (Ok true, s')
  | (r, _) => (r, s)
  end.

Definition approval_oldest_first (a a' : ApprovalRecord) : bool := bool_decide (a_created_at a <= a_created_at a')%Z.

Definition list_unclaimed_granted_approvals (limit : Z) : Tx (list ((Uuid * Bytes) * ApprovalRecord)) := λ s,
  (Ok (select_rows (λ _ a, bool_decide (a_status a = Granted) && bool_decide (a_resume_claimed_at a = None))
         approval_oldest_first (clamp_limit limit) (approvals s)), s).

Definition LEASE : Z := 120 * 1000000000.      (* [INTERVAL '2 minutes'] *)

Definition claimed (now : Z) (a : ApprovalRecord) : ApprovalRecord :=
  mkApproval (a_workflow_id a) (a_run_id a) (a_channel_id a) (a_step_id a) (a_step_index a) (a_approver_spec a)
    (a_message a) (a_workflow_definition a) (a_approver_pubkeys a) (a_status a) (a_approver_pubkey a) (a_note a)
    (a_granted_at a) (a_denied_at a) (a_expires_at a) (a_created_at a) (Some now) (Some (now + LEASE)%Z).

Definition with_lease (lease : option Z) (a : ApprovalRecord) : ApprovalRecord :=
  mkApproval (a_workflow_id a) (a_run_id a) (a_channel_id a) (a_step_id a) (a_step_index a) (a_approver_spec a)
    (a_message a) (a_workflow_definition a) (a_approver_pubkeys a) (a_status a) (a_approver_pubkey a) (a_note a)
    (a_granted_at a) (a_denied_at a) (a_expires_at a) (a_created_at a) (a_resume_claimed_at a) lease.

(** [jsonb_set(value, '{key}', new, true)]; the statement applies it to objects
only, as other values have no [step_id]. *)
Definition jsonb_set (key : string) (new value : Value) : Value :=
  match value with Object m => Object (btree_insert key new m) | v => v end.

Definition approved_output : Value := Object [("approved", Bool true)].

(** The trace with the entry of the approved step completed; [None] where
[jsonb_array_elements] fails. *)
Definition approve_trace (step_id : string) (trace : Value) : option Value :=
  match trace with
  | Array entries => Some (Array (map (λ entry,
      if bool_decide (jsonb_get_text "step_id" entry = Some step_id)
      then jsonb_set "output" approved_output (jsonb_set "status" (VString "completed") entry)
      else entry) entries))
  | _ => None
  end.

Definition resumed_run (step_index : Z) (trace : Value) (r : WorkflowRunRecord) : WorkflowRunRecord :=
  mkRun (r_workflow_id r) Running (r_trigger_event_id r) (step_index + 1) trace (r_trigger_context r)
    (r_started_at r) None (r_error_message r) (r_error_code r) (r_created_at r).

Definition claim_approval_resume (now : Z) (community_id : Uuid) (token_hash : Bytes)
    : Tx (option (Uuid * Uuid * Z)) := λ s,
  match approvals s !! (community_id, token_hash) with
  | None => (Ok None, s)
  | Some a =>
      if bool_decide (a_status a = Granted) && bool_decide (a_resume_claimed_at a = None) then
        match runs s !! (community_id, a_run_id a) with
        | Some r =>
            if waits_for a r then
              match approve_trace (a_step_id a) (r_execution_trace r) with
              | Some trace =>
                  (Ok (Some (a_workflow_id a, a_run_id a, a_step_index a)),
                   with_runs (<[(community_id, a_run_id a) := resumed_run (a_step_index a) trace r]> (runs s))
                     (with_approvals (<[(community_id, token_hash) := claimed now a]> (approvals s)) s))
              | None => (Err (Sqlx "cannot extract elements"), s)
              end
            else (Ok None, s)
        | None => (Ok None, s)
        end
      else (Ok None, s)
  end.

Definition lease_live (now : Z) (a : ApprovalRecord) : bool :=
  match a_resume_lease_until a with Some t => bool_decide (now < t)%Z | None => false end.

Definition renew_approval_resume_lease (now : Z) (community_id : Uuid) (token_hash : Bytes) : Tx bool := λ s,
  let '(affected, aps) := update_row (community_id, token_hash)
    (λ a, bool_decide (a_status a = Granted) && bool_decide (is_Some (a_resume_claimed_at a)) && lease_live now a)
    (with_lease (Some (now + LEASE)%Z)) (approvals s) in
  (Ok (0 <? affected), with_approvals aps s).

(** The runs named by a batch of approvals are failed where they are still in
the state the approval expects. *)
Definition fail_runs (now : Z) (code message : string) (matches : ApprovalRecord → WorkflowRunRecord → bool)
    (batch : list ((Uuid * Bytes) * ApprovalRecord)) (rs : gmap Key WorkflowRunRecord) : nat * gmap Key WorkflowRunRecord :=
  foldl (λ acc ka, let '(n, rs) := update_row (ka.1.1, a_run_id ka.2) (matches ka.2) (failed_run now code message) acc.2 in
                   (acc.1 + n, rs)) (0, rs) batch.

Definition update_batch (f : ApprovalRecord → ApprovalRecord) (batch : list ((Uuid * Bytes) * ApprovalRecord))
    (aps : gmap (Uuid * Bytes) ApprovalRecord) : gmap (Uuid * Bytes) ApprovalRecord :=
  foldl (λ aps ka, alter f ka.1 aps) aps batch.

Definition earliest_expiry (a a' : ApprovalRecord) : bool := bool_decide (a_expires_at a <= a_expires_at a')%Z.

Definition expired (a : ApprovalRecord) : ApprovalRecord :=
  mkApproval (a_workflow_id a) (a_run_id a) (a_channel_id a) (a_step_id a) (a_step_index a) (a_approver_spec a)
    (a_message a) (a_workflow_definition a) (a_approver_pubkeys a) Expired (a_approver_pubkey a) (a_note a)
    (a_granted_at a) (a_denied_at a) (a_expires_at a) (a_created_at a) (a_resume_claimed_at a)
    (a_resume_lease_until a).

(** [locked] are the rows another transaction holds, which are skipped. *)
Definition expired_batch (now : Z) (limit : Z) (locked : gset (Uuid * Bytes)) (s : Store)
    : list ((Uuid * Bytes) * ApprovalRecord) :=
  select_rows (λ k a, bool_decide (a_status a = ApPending) && bool_decide (a_expires_at a <= now)%Z
                      && bool_decide (k ∉ locked)) earliest_expiry (clamp_limit limit) (approvals s).

Definition expire_pending_approvals (now : Z) (limit : Z) (locked : gset (Uuid * Bytes)) : Tx nat := λ s,
  let batch := expired_batch now limit locked s in
  let '(affected, rs) := fail_runs now "approval_expired" "approval request expired" waits_for batch (runs s) in
  (Ok affected, with_runs rs (with_approvals (update_batch expired batch (approvals s)) s)).

(** The run of a claimed resume: [running] at the step after the approval's. *)
Definition resumes (a : ApprovalRecord) (r : WorkflowRunRecord) : bool :=
  bool_decide (r_workflow_id r = a_workflow_id a) && bool_decide (r_status r = Running)
  && bool_decide (r_current_step r = a_step_index a + 1)%Z.

Definition earliest_lease (a a' : ApprovalRecord) : bool :=
  match a_resume_lease_until a, a_resume_lease_until a' with
  | Some t, Some t' => bool_decide (t <= t')%Z
  | _, _ => true
  end.

Definition lease_over (now : Z) (a : ApprovalRecord) : bool :=
  match a_resume_lease_until a with Some t => bool_decide (t <= now)%Z | None => false end.

Definition interrupted_batch (now : Z) (limit : Z) (locked : gset (Uuid * Bytes)) (s : Store)
    : list ((Uuid * Bytes) * ApprovalRecord) :=
  select_rows (λ k a, bool_decide (a_status a = Granted) && bool_decide (is_Some (a_resume_claimed_at a))
                      && lease_over now a && bool_decide (k ∉ locked))
    earliest_lease (clamp_limit limit) (approvals s).

Definition fail_interrupted_approval_resumes (now : Z) (limit : Z) (locked : gset (Uuid * Bytes)) : Tx nat := λ s,
  let batch := interrupted_batch now limit locked s in
  let '(affected, rs) := fail_runs now "approval_resume_interrupted"
    "relay stopped while resuming an approved workflow; automatic replay was suppressed" resumes batch (runs s) in
  (Ok affected, with_runs rs (with_approvals (update_batch (with_lease None) batch (approvals s)) s)).

Definition approval_not_found : DbError := NotFound "approval token (hashed)".

Definition get_approval_by_stored_hash (community_id : Uuid) (token_hash : Bytes) : Tx ApprovalRecord := λ s,
  (ok_or (approvals s !! (community_id, token_hash)) approval_not_found, s).

Definition get_approval (community_id : Uuid) (token : string) : Tx ApprovalRecord :=
  get_approval_by_stored_hash community_id (hash_approval_token token).

Definition approval_step_le (a a' : ApprovalRecord) : bool :=
  bool_decide (a_step_index a < a_step_index a')%Z
  || (bool_decide (a_step_index a = a_step_index a') && bool_decide (a_created_at a <= a_created_at a')%Z).

Definition get_run_approvals (community_id workflow_id run_id : Uuid) : Tx (list ((Uuid * Bytes) * ApprovalRecord)) := λ s,
  (Ok (select_rows (λ k a, bool_decide (k.1 = community_id) && bool_decide (a_run_id a = run_id)
                           && bool_decide (a_workflow_id a = workflow_id))
         approval_step_le (size (approvals s)) (approvals s)), s).

Definition update_approval_by_stored_hash (now : Z) (community_id : Uuid) (token_hash : Bytes)
    (status : ApprovalStatus) (approver_pubkey : option Bytes) (note : option string) : Tx bool := λ s,
  let '(affected, aps) := update_row (community_id, token_hash) (λ a, bool_decide (a_status a = ApPending))
    (decided now status approver_pubkey note) (approvals s) in
  (Ok (0 <? affected), with_approvals aps s).

Definition update_approval (now : Z) (community_id : Uuid) (token : string) (status : ApprovalStatus)
    (approver_pubkey : option Bytes) (note : option string) : Tx bool :=
  update_approval_by_stored_hash now community_id (hash_approval_token token) status approver_pubkey note.

(** ** Statements

The statements a process sends, one transaction each, with the type of the
answer; [exec_statement] is what one does at the transaction's time, [exec] what
the database lets it do. *)
Inductive Query : Type → Type :=
| QCreateWorkflow (id c : Uuid) (ch : option Uuid) (owner : Bytes) (name json : string) (hash : Bytes) : Query Uuid
| QUpsertWorkflow (c id : Uuid) (ch : option Uuid) (owner : Bytes) (name json : string) (hash : Bytes) : Query unit
| QGetWorkflow (c id : Uuid) : Query WorkflowRecord
| QListChannelWorkflows (c ch : Uuid) (limit offset : option Z) : Query (list (Key * WorkflowRecord))
| QListEnabledChannelWorkflows (c ch : Uuid) : Query (list (Key * WorkflowRecord))
| QListAllEnabledWorkflows : Query (list (Key * WorkflowRecord))
| QClaimFire (c w : Uuid) (scheduled_for : Z) : Query (option ScheduledWorkflowFireClaim)
| QLatestFire (c w : Uuid) : Query (option Z)
| QAttachRun (c w : Uuid) (scheduled_for : Z) (run : Uuid) : Query bool
| QPruneFires (older_than : Z) : Query nat
| QUpdateWorkflow (c id : Uuid) (name json : string) (hash : Bytes) : Query unit
| QUpdateWorkflowStatus (c id : Uuid) (status : WorkflowStatus) : Query unit
| QSetWorkflowEnabled (c id : Uuid) (enabled : bool) : Query unit
| QDisableForOwner (c ch : Uuid) (owner : Bytes) : Query nat
| QDeleteWorkflow (c id : Uuid) : Query unit
| QDeleteWorkflowForOwner (c id : Uuid) (owner : Bytes) : Query (option Uuid)
| QFindByOwnerAndName (c : Uuid) (owner : Bytes) (name : string) : Query (option (Key * WorkflowRecord))
| QCreateRun (id c w : Uuid) (event : option Bytes) (ctx : option Value) : Query Uuid
| QGetRun (c id : Uuid) : Query WorkflowRunRecord
| QListRunsPage (c w : Uuid) (before : option Z) (before_id : option Uuid) (limit : Z)
    : Query (list (Key * WorkflowRunRecord))
| QUpdateRun (c id : Uuid) (status : RunStatus) (step : Z) (trace : Value) (failure : option WorkflowRunFailure) : Query unit
| QCreateApproval (p : CreateApprovalParams) : Query unit
| QCreateApprovalAndWait (p : CreateApprovalParams) (trace : Value) : Query unit
| QDecideApproval (c : Uuid) (token : Bytes) (status : ApprovalStatus) (approver : Bytes) (note : option string) : Query bool
| QListUnclaimed (limit : Z) : Query (list ((Uuid * Bytes) * ApprovalRecord))
| QClaimResume (c : Uuid) (token : Bytes) : Query (option (Uuid * Uuid * Z))
| QRenewLease (c : Uuid) (token : Bytes) : Query bool
| QExpirePending (limit : Z) (locked : gset (Uuid * Bytes)) : Query nat
| QFailInterrupted (limit : Z) (locked : gset (Uuid * Bytes)) : Query nat
| QGetApproval (c : Uuid) (token : Bytes) : Query ApprovalRecord
| QGetRunApprovals (c w run : Uuid) : Query (list ((Uuid * Bytes) * ApprovalRecord))
| QUpdateApproval (c : Uuid) (token : Bytes) (status : ApprovalStatus) (approver : option Bytes) (note : option string) : Query bool.

Definition exec_statement {A : Type} (q : Query A) (now : Z) : Tx A :=
  match q in Query A return Tx A with
  | QCreateWorkflow id c ch owner name json hash => create_workflow now id c ch owner name json hash
  | QUpsertWorkflow c id ch owner name json hash => upsert_workflow now c id ch owner name json hash
  | QGetWorkflow c id => get_workflow c id
  | QListChannelWorkflows c ch limit offset => list_channel_workflows c ch limit offset
  | QListEnabledChannelWorkflows c ch => list_enabled_channel_workflows c ch
  | QListAllEnabledWorkflows => list_all_enabled_workflows
  | QClaimFire c w t => claim_scheduled_workflow_fire now c w t
  | QLatestFire c w => latest_scheduled_workflow_fire c w
  | QAttachRun c w t run => attach_scheduled_workflow_run c w t run
  | QPruneFires t => prune_scheduled_workflow_fires_before t
  | QUpdateWorkflow c id name json hash => update_workflow c id name json hash
  | QUpdateWorkflowStatus c id status => update_workflow_status c id status
  | QSetWorkflowEnabled c id enabled => set_workflow_enabled c id enabled
  | QDisableForOwner c ch owner => disable_workflows_for_owner_in_channel c ch owner
  | QDeleteWorkflow c id => delete_workflow c id
  | QDeleteWorkflowForOwner c id owner => delete_workflow_for_owner c id owner
  | QFindByOwnerAndName c owner name => find_by_owner_and_name c owner name
  | QCreateRun id c w event ctx => create_workflow_run now id c w event ctx
  | QGetRun c id => get_workflow_run c id
  | QListRunsPage c w before before_id limit => list_workflow_runs_page c w before before_id limit
  | QUpdateRun c id status step trace failure => update_workflow_run now c id status step trace failure
  | QCreateApproval p => create_approval now p
  | QCreateApprovalAndWait p trace => create_approval_and_wait now p trace
  | QDecideApproval c token status approver note => decide_approval now c token status approver note
  | QListUnclaimed limit => list_unclaimed_granted_approvals limit
  | QClaimResume c token => claim_approval_resume now c token
  | QRenewLease c token => renew_approval_resume_lease now c token
  | QExpirePending limit locked => expire_pending_approvals now limit locked
  | QFailInterrupted limit locked => fail_interrupted_approval_resumes now limit locked
  | QGetApproval c token => get_approval_by_stored_hash c token
  | QGetRunApprovals c w run => get_run_approvals c w run
  | QUpdateApproval c token status approver note => update_approval_by_stored_hash now c token status approver note
  end.

(** ** What the database refuses *)

Definition has_nul (s : string) : bool := existsb (λ a, bool_decide (a = "000"%char)) (String.list_ascii_of_string s).

(** A value with U+0000 in a text or a key: [jsonb] has no such text. *)
Fixpoint value_has_nul (v : Value) : bool :=
  match v with
  | Null | Bool _ | Number _ => false
  | VString s => has_nul s
  | Array l => existsb value_has_nul l
  | Object m => existsb (λ kv, has_nul kv.1 || value_has_nul kv.2) m
  end.

Definition from_option_nul {A : Type} (f : A → bool) (o : option A) : bool := match o with Some a => f a | None => false end.

Definition params_have_nul (p : CreateApprovalParams) : bool :=
  has_nul (p_step_id p) || has_nul (p_approver_spec p) || has_nul (p_message p) || value_has_nul (p_workflow_definition p).

(** Whether a parameter of a statement holds U+0000, which neither [text] nor
[jsonb] takes. *)
Definition sends_nul {A : Type} (q : Query A) : bool :=
  match q with
  | QCreateWorkflow _ _ _ _ name json _ | QUpsertWorkflow _ _ _ _ name json _ | QUpdateWorkflow _ _ name json _ =>
      has_nul name || has_nul json
  | QFindByOwnerAndName _ _ name => has_nul name
  | QCreateRun _ _ _ _ ctx => from_option_nul value_has_nul ctx
  | QUpdateRun _ _ _ _ trace failure =>
      value_has_nul trace || from_option_nul (λ f, has_nul (failure_code f) || has_nul (failure_message f)) failure
  | QCreateApproval p => params_have_nul p
  | QCreateApprovalAndWait p trace => params_have_nul p || value_has_nul trace
  | QDecideApproval _ _ _ _ note | QUpdateApproval _ _ _ _ note => from_option_nul has_nul note
  | _ => false
  end.

(** The communities in which a statement with this answer writes a row, or tries
to: where the trigger [enforce_community_write_fence] (migration 0029) fires.
[QPruneFires] asks the fence itself; a request for an approval runs under a serving
lease, which the fence may accept. *)
Definition writes_in {A : Type} (q : Query A) (now : Z) (s : Store) : result A DbError → list Uuid :=
  match q in Query A return result A DbError → list Uuid with
  | QCreateWorkflow _ c _ _ _ _ _ | QUpdateWorkflow c _ _ _ _ | QUpdateWorkflowStatus c _ _ | QSetWorkflowEnabled c _ _
  | QDeleteWorkflow c _ | QCreateRun _ c _ _ _ | QUpdateRun c _ _ _ _ _ => λ r, if is_ok r then [c] else []
  | QDeleteWorkflowForOwner c _ _ => λ r, if is_ok r then [c] else []
  | QCreateApproval p => λ r, if is_ok r then [p_community_id p] else []
  | QUpsertWorkflow c _ _ _ _ _ _ => λ r, match r with Err (Sqlx _) => [] | _ => [c] end
  | QClaimFire c w _ => λ _, if bool_decide (is_Some (workflows s !! (c, w))) then [c] else []
  | QDisableForOwner c _ _ => λ r, match r with Ok (S _) => [c] | _ => [] end
  | QAttachRun c _ _ _ | QDecideApproval c _ _ _ _ | QRenewLease c _ | QUpdateApproval c _ _ _ _ =>
      λ r, match r with Ok true => [c] | _ => [] end
  | QClaimResume c _ => λ r, match r with Ok (Some _) => [c] | _ => [] end
  | QExpirePending limit locked => λ _, map (λ ka, ka.1.1) (expired_batch now limit locked s)
  | QFailInterrupted limit locked => λ _, map (λ ka, ka.1.1) (interrupted_batch now limit locked s)
  | _ => λ _, []
  end.

Definition nul_error : DbError := Sqlx "error returned from database: unsupported Unicode escape sequence".
Definition fence_error : DbError := Sqlx "error returned from database: community write fenced".

(** A statement, unless the database refuses a parameter or a row of it; then it
fails (the texts of the errors are shortened) and is rolled back. *)
Definition exec {A : Type} (q : Query A) (now : Z) : Tx A := λ s,
  if sends_nul q then (Err nul_error, s)
  else
    let '(r, s') := exec_statement q now s in
    if existsb (λ c, bool_decide (c ∈ write_closed s)) (writes_in q now s r) then (Err fence_error, s) else (r, s').

End workflows.
End store.
