(* ===== verification/WorkflowStoreProps.v ===== *)
(** * WorkflowStoreProps: what holds of the workflow tables under every statement

Any interleaving of the statements of any number of processes is a sequence of
[exec] steps.  Ended runs stay as they are, an approval changes only along its
life cycle, it is granted only by a decision in time and resumed once, and a
scheduled instant is claimed once. *)
From S2P Require Import Prelude Text Encode Nostr Json WorkflowStore.

(** ** Rows a statement selects and updates *)

Section rows.
Context {K V : Type} `{Countable K}.

Lemma update_row_lookup (k j : K) (p : V → bool) (f : V → V) (m : gmap K V) :
  (update_row k p f m).2 !! j
  = if decide (j = k) then (λ v, if p v then f v else v) <$> m !! j else m !! j.
Proof.
  unfold update_row. destruct (decide (j = k)) as [->|Hne].
  - destruct (m !! k) as [v|] eqn:Hk; cbn; [|by rewrite Hk].
    destruct (p v); cbn; [by rewrite lookup_insert_eq|by rewrite Hk].
  - destruct (m !! k) as [v|]; [|done]. destruct (p v); cbn; [by rewrite lookup_insert_ne|done].
Qed.

Lemma update_row_count (k : K) (p : V → bool) (f : V → V) (m : gmap K V) :
  (update_row k p f m).1 = match m !! k with Some v => if p v then 1 else 0 | None => 0 end.
Proof. unfold update_row. by repeat case_match. Qed.

Lemma update_row_eq (k : K) (p : V → bool) (f : V → V) (m m' : gmap K V) (n : nat) :
  update_row k p f m = (n, m') →
  (n = 0 ∧ m' = m) ∨ ∃ v, m !! k = Some v ∧ p v = true ∧ n = 1 ∧ m' = <[k := f v]> m.
Proof.
  unfold update_row. destruct (m !! k) as [v|]; [|by intros [= <- <-]; left].
  destruct (p v) eqn:Hp; intros [= <- <-]; [right; by exists v|by left].
Qed.

(** Replacing one row relates every row to its successor. *)
Lemma insert_related (R : V → V → Prop) (m : gmap K V) (k j : K) (v v' a : V) :
  m !! j = Some v → m !! k = Some a → R a a → (k = j → R v v') →
  ∃ a', <[j := v']> m !! k = Some a' ∧ R a a'.
Proof.
  intros Hj Hk Hrefl Hv. destruct (decide (k = j)) as [->|Hne].
  - rewrite lookup_insert_eq. simplify_eq. eauto.
  - rewrite lookup_insert_ne by done. eauto.
Qed.

Lemma update_rows_lookup (p : K → V → bool) (f : V → V) (m : gmap K V) (k : K) :
  (update_rows p f m).2 !! k = (λ v, if p k v then f v else v) <$> m !! k.
Proof. unfold update_rows. cbn. rewrite map_lookup_imap. by destruct (m !! k). Qed.

Context {HO : HashOrder}.

Lemma select_rows_elem (p : K → V → bool) (le : V → V → bool) (n : nat) (m : gmap K V) (k : K) (v : V) :
  (k, v) ∈ select_rows p le n m → m !! k = Some v ∧ p k v = true.
Proof.
  unfold select_rows. intros Hin%elem_of_take. destruct Hin as (i & Hin & _).
  apply list_elem_of_lookup_2 in Hin. rewrite merge_sort_Permutation in Hin.
  apply list_elem_of_filter in Hin as [Hp Hin]. split; [by apply elem_of_hm_iter|done].
Qed.

Lemma select_rows_keys (p : K → V → bool) (le : V → V → bool) (n : nat) (m : gmap K V) :
  NoDup (select_rows p le n m).*1.
Proof.
  unfold select_rows. eapply sublist_NoDup; [|apply fmap_sublist, sublist_take].
  rewrite merge_sort_Permutation, hm_iter_perm.
  eapply sublist_NoDup; [apply (NoDup_fst_map_to_list m)|apply fmap_sublist, sublist_filter].
Qed.
End rows.

Section store_props.
Context {JC : JsonCrate} {PC : PgCrates} {UT : UuidText} {HO : HashOrder}.

Lemma update_batch_lookup (f : ApprovalRecord → ApprovalRecord) (batch : list ((Uuid * Bytes) * ApprovalRecord))
    (aps : gmap (Uuid * Bytes) ApprovalRecord) k :
  NoDup batch.*1 →
  update_batch f batch aps !! k = if decide (k ∈ batch.*1) then f <$> aps !! k else aps !! k.
Proof.
  unfold update_batch. revert aps. induction batch as [|[j b] batch IH]; intros aps Hd; [done|].
  rewrite fmap_cons in Hd |- *. apply NoDup_cons in Hd as [Hj Hd]. cbn [foldl fst]. cbn [fst] in Hj.
  rewrite IH by done. destruct (decide (k = j)) as [->|Hne].
  - rewrite decide_False by done. rewrite decide_True by set_solver. by rewrite lookup_alter_eq.
  - rewrite lookup_alter_ne by done. destruct (decide (k ∈ batch.*1)); case_decide; set_solver.
Qed.

(** ** How a run may change *)

(** A run that ended keeps its row; another keeps what it was started with. *)
Definition run_evolves (r r' : WorkflowRunRecord) : Prop :=
  r' = r ∨ (terminal (r_status r) = false ∧ r_workflow_id r' = r_workflow_id r
            ∧ r_trigger_event_id r' = r_trigger_event_id r ∧ r_trigger_context r' = r_trigger_context r
            ∧ r_created_at r' = r_created_at r).

#[local] Instance run_evolves_preorder : PreOrder run_evolves.
Proof.
  split; [by left|]. intros r1 r2 r3 [->|(H1 & H2 & H3 & H4 & H5)]; [done|].
  intros [->|(G1 & G2 & G3 & G4 & G5)]; right; split_and!; congruence.
Qed.

Lemma fail_runs_evolves now cd msg matches batch rs k r :
  (∀ a r, matches a r = true → terminal (r_status r) = false) →
  rs !! k = Some r → ∃ r', (fail_runs now cd msg matches batch rs).2 !! k = Some r' ∧ run_evolves r r'.
Proof.
  unfold fail_runs. intros Hm. generalize 0. revert rs r.
  induction batch as [|[[c t] a] batch IH]; intros rs r n Hk; cbn; [by exists r|].
  pose proof (update_row_lookup (c, a_run_id a) k (matches a) (failed_run now cd msg) rs) as Hu.
  destruct (update_row _ _ _ rs) as [i rs1]. cbn in Hu.
  assert (∃ r1, rs1 !! k = Some r1 ∧ run_evolves r r1) as (r1 & Hr1 & Hev).
  { rewrite Hu, Hk. case_decide; cbn; [|by exists r]. eexists. split; [done|].
    destruct (matches a r) eqn:Hmr; [|by left]. right. cbn. split_and!; try done. by eapply Hm. }
  destruct (IH rs1 r1 (n + i) Hr1) as (r' & Hr' & Hev'). exists r'. split; [done|by etrans].
Qed.

(** A run's row appears only when a statement creates it. *)
Lemma fail_runs_none now cd msg matches batch rs k :
  rs !! k = None → (fail_runs now cd msg matches batch rs).2 !! k = None.
Proof.
  unfold fail_runs. generalize 0. revert rs. induction batch as [|[[c t] a] batch IH]; intros rs n Hk; cbn; [done|].
  pose proof (update_row_lookup (c, a_run_id a) k (matches a) (failed_run now cd msg) rs) as Hu.
  destruct (update_row _ _ _ rs) as [i rs1]. cbn in Hu. apply IH. rewrite Hu, Hk. by case_decide.
Qed.

Lemma waits_for_running a r : waits_for a r = true → r_status r = WaitingApproval.
Proof. unfold waits_for. intros [[_ H]%andb_true_iff _]%andb_true_iff. by apply bool_decide_eq_true in H. Qed.

Lemma resumes_running a r : resumes a r = true → r_status r = Running.
Proof. unfold resumes. intros [[_ H]%andb_true_iff _]%andb_true_iff. by apply bool_decide_eq_true in H. Qed.

(** A row replaced by one that keeps the fields of a run's origin. *)
Lemma run_changed (k j : Key) (v v' r : WorkflowRunRecord) (rs : gmap Key WorkflowRunRecord) :
  rs !! j = Some v → rs !! k = Some r → terminal (r_status v) = false →
  r_workflow_id v' = r_workflow_id v → r_trigger_event_id v' = r_trigger_event_id v →
  r_trigger_context v' = r_trigger_context v → r_created_at v' = r_created_at v →
  ∃ r', <[j := v']> rs !! k = Some r' ∧ run_evolves r r'.
Proof.
  intros. eapply insert_related; [done|done|by left|]. intros ->. by right.
Qed.

(** The statements that delete a workflow. *)
Definition deletes {A : Type} (c w : Uuid) (q : Query A) : Prop :=
  match q with
  | QDeleteWorkflow c' w' | QDeleteWorkflowForOwner c' w' _ => c' = c ∧ w' = w
  | _ => False
  end.

Ltac open_statement :=
  unfold create_workflow, upsert_workflow, get_workflow, list_channel_workflows, list_enabled_channel_workflows,
    list_all_enabled_workflows, claim_scheduled_workflow_fire, latest_scheduled_workflow_fire,
    attach_scheduled_workflow_run, prune_scheduled_workflow_fires_before, update_workflow, update_workflow_status,
    set_workflow_enabled, update_one_workflow, disable_workflows_for_owner_in_channel, delete_workflow,
    delete_workflow_for_owner, find_by_owner_and_name, create_workflow_run, get_workflow_run, list_workflow_runs_page,
    update_workflow_run, list_unclaimed_granted_approvals,
    renew_approval_resume_lease, expire_pending_approvals, fail_interrupted_approval_resumes,
    get_approval_by_stored_hash, get_run_approvals, update_approval_by_stored_hash in *.

(** Case analysis on a statement and its branches. *)
Ltac statement_cases H :=
  match type of H with exec_statement ?q _ _ = _ => destruct q end; cbn [exec_statement] in H; open_statement; cbn zeta in H;
  repeat (let E := fresh "E" in
    match type of H with
    | context [let '(_, _) := ?e in _] => destruct e as [? ?] eqn:E
    | context [match ?e with _ => _ end] => destruct e eqn:E
    end; try (rewrite E in H)); simplify_eq/=.

(** A statement runs, or is refused and leaves everything. *)
Lemma exec_inv {A : Type} (q : Query A) now s res s' :
  exec q now s = (res, s') → exec_statement q now s = (res, s') ∨ s' = s ∧ ∃ m, res = Err (Sqlx m).
Proof.
  unfold exec. destruct (sends_nul q); [intros [= <- <-]; right; by eauto|].
  destruct (exec_statement q now s) as [r s1]. destruct (existsb _ _); intros [= <- <-]; [right; by eauto|by left].
Qed.

Lemma exec_answers_ok {A : Type} (q : Query A) now s a s' : exec q now s = (Ok a, s') → exec_statement q now s = (Ok a, s').
Proof. by intros [?|(_ & m & ?)]%exec_inv. Qed.

(** A statement that sends no U+0000 and writes in communities that are open runs. *)
Lemma exec_runs_statement {A : Type} (q : Query A) now s :
  sends_nul q = false → (∀ c, c ∈ writes_in q now s (exec_statement q now s).1 → c ∉ write_closed s) →
  exec q now s = exec_statement q now s.
Proof.
  unfold exec. intros -> Hc. destruct (exec_statement q now s) as [r s1]. cbn [fst] in Hc.
  destruct (existsb _ _) eqn:E; [|done]. apply existsb_exists in E as (c & Hin%list_elem_of_In & Hcl%bool_decide_eq_true).
  by destruct (Hc c Hin).
Qed.

Ltac exec_cases H :=
  let m := fresh "m" in
  apply exec_inv in H as [H|(-> & m & ->)]; [statement_cases H|].

(** What a decision does: nothing, or the pending approval of a waiting run is
decided in time, and a denied run fails with it. *)
Lemma decide_approval_eq now c token st who note s res s' :
  decide_approval now c token st who note s = (res, s') →
  (s' = s ∧ res ≠ Ok true)
  ∨ ∃ a r, approvals s !! (c, token) = Some a ∧ a_status a = ApPending ∧ (now < a_expires_at a)%Z
      ∧ runs s !! (c, a_run_id a) = Some r ∧ waits_for a r = true ∧ res = Ok true
      ∧ ((st = Granted ∧ s' = with_approvals (<[(c, token) := decided now st (Some who) note a]> (approvals s)) s)
         ∨ (st = Denied ∧ s' = with_runs (<[(c, a_run_id a) := failed_run now "approval_denied"
                ("approval denied by " +:+ hex who) r]> (runs s))
              (with_approvals (<[(c, token) := decided now st (Some who) note a]> (approvals s)) s))).
Proof.
  unfold decide_approval, decide_approval_in_transaction.
  destruct (bool_decide (st = Granted) || bool_decide (st = Denied)) eqn:Hst; cbn [negb]; [|by intros [= <- <-]; left].
  destruct (approvals s !! (c, token)) as [a|] eqn:Ha; [|by intros [= <- <-]; left].
  destruct (update_row (c, token) _ _ (approvals s)) as [n aps] eqn:Hu.
  apply update_row_eq in Hu as [[-> ->]|(a' & Ha' & Hp & -> & ->)]; [by intros [= <- <-]; left|].
  rewrite Ha in Ha'. injection Ha' as <-. cbn [Nat.eqb].
  apply andb_true_iff in Hp as [[Hpend%bool_decide_eq_true Hexp%bool_decide_eq_true]%andb_true_iff Hrun].
  unfold run_waits in Hrun. destruct (runs s !! (c, a_run_id a)) as [r|] eqn:Hr; [|done].
  destruct (bool_decide (st = Denied)) eqn:Hden.
  - apply bool_decide_eq_true in Hden as ->. unfold update_row. cbn. rewrite Hr, Hrun. cbn.
    intros [= <- <-]. right. eauto 20.
  - apply bool_decide_eq_false in Hden. intros [= <- <-]. right. exists a, r. split_and!; try done. left. split; [|done].
    rewrite orb_false_r in Hst. by apply bool_decide_eq_true in Hst.
Qed.

(** What a request for approval does: nothing, or a pending approval appears and
a running run waits for it. *)
Definition token_key (p : CreateApprovalParams) : Uuid * Bytes := (p_community_id p, hash_approval_token (p_token p)).

Lemma create_approval_eq now p s res s' :
  create_approval now p s = (res, s') →
  (s' = s ∧ res ≠ Ok tt)
  ∨ (approvals s !! token_key p = None ∧ res = Ok tt ∧ is_Some (runs s !! (p_community_id p, p_run_id p))
     ∧ s' = with_approvals (<[token_key p := approval_of_params now p]> (approvals s)) s).
Proof.
  unfold create_approval, token_key. intros H. repeat case_match; simplify_eq/=; try (by left). right. eauto.
Qed.

Lemma create_approval_and_wait_eq now p trace s res s' :
  create_approval_and_wait now p trace s = (res, s') →
  (s' = s ∧ res ≠ Ok tt)
  ∨ ∃ r, approvals s !! token_key p = None ∧ runs s !! (p_community_id p, p_run_id p) = Some r
      ∧ r_workflow_id r = p_workflow_id p ∧ r_status r = Running ∧ res = Ok tt
      ∧ s' = with_runs (<[(p_community_id p, p_run_id p) := waiting_run (p_step_index p) trace r]> (runs s))
               (with_approvals (<[token_key p := approval_of_params now p]> (approvals s)) s).
Proof.
  unfold create_approval_and_wait. destruct (create_approval now p s) as [[[]|e] s1] eqn:Hc; [|by intros [= <- <-]; left].
  apply create_approval_eq in Hc as [[-> ?]|(Ha & _ & _ & ->)]; [done|].
  destruct (update_row _ _ _ _) as [n rs] eqn:Hu.
  apply update_row_eq in Hu as [[-> ->]|(r & Hr & Hp & -> & ->)]; cbn; intros [= <- <-]; [by left|right].
  apply andb_true_iff in Hp as [Hw%bool_decide_eq_true Hs%bool_decide_eq_true]. by exists r.
Qed.

Lemma claim_approval_resume_eq now c token s res s' :
  claim_approval_resume now c token s = (res, s') →
  (s' = s ∧ ¬ ∃ x, res = Ok (Some x))
  ∨ ∃ a r trace, approvals s !! (c, token) = Some a ∧ a_status a = Granted ∧ a_resume_claimed_at a = None
      ∧ runs s !! (c, a_run_id a) = Some r ∧ waits_for a r = true
      ∧ approve_trace (a_step_id a) (r_execution_trace r) = Some trace
      ∧ res = Ok (Some (a_workflow_id a, a_run_id a, a_step_index a))
      ∧ s' = with_runs (<[(c, a_run_id a) := resumed_run (a_step_index a) trace r]> (runs s))
               (with_approvals (<[(c, token) := claimed now a]> (approvals s)) s).
Proof.
  unfold claim_approval_resume. intros H.
  destruct (approvals s !! (c, token)) as [a|] eqn:Ha; [|simplify_eq; left; naive_solver].
  destruct (bool_decide (a_status a = Granted) && bool_decide (a_resume_claimed_at a = None)) eqn:Hg;
    [|simplify_eq; left; naive_solver].
  apply andb_true_iff in Hg as [Hg%bool_decide_eq_true Hn%bool_decide_eq_true].
  destruct (runs s !! (c, a_run_id a)) as [r|] eqn:Hr; [|simplify_eq; left; naive_solver].
  destruct (waits_for a r) eqn:Hw; [|simplify_eq; left; naive_solver].
  destruct (approve_trace (a_step_id a) (r_execution_trace r)) as [trace|] eqn:Ht; [|simplify_eq; left; naive_solver].
  injection H as <- <-. right. by exists a, r, trace.
Qed.

Lemma exec_runs {A : Type} (q : Query A) now s res s' c id r :
  exec q now s = (res, s') → runs s !! (c, id) = Some r → ¬ deletes c (r_workflow_id r) q →
  ∃ r', runs s' !! (c, id) = Some r' ∧ run_evolves r r'.
Proof.
  intros H Hr Hd. exec_cases H; try (exists r; split; [done|by left]).
  1,2: exists r; split; [|by left]; apply map_lookup_filter_Some; split; [done|]; cbn; naive_solver.
  - exists r. split; [|by left]. rewrite lookup_insert_ne; [done|]. congruence.
  - apply update_row_eq in E as [[-> ->]|(v & Hv & Hp & _ & ->)]; [done|].
    apply negb_true_iff in Hp. by eapply run_changed.
  - apply create_approval_eq in H as [[-> _]|(_ & _ & _ & ->)]; by exists r; split; [|left].
  - apply create_approval_and_wait_eq in H as [[-> _]|(v & _ & Hv & _ & Hs & _ & ->)]; [by exists r; split; [|left]|].
    eapply run_changed; [done|done| |done..]. by rewrite Hs.
  - apply decide_approval_eq in H as [[-> _]|(a & v & _ & _ & _ & Hv & Hw & _ & [[_ ->]|[_ ->]])];
      [by exists r; split; [|left]|by exists r; split; [|left]|].
    apply waits_for_running in Hw. eapply run_changed; [done|done| |done..]. by rewrite Hw.
  - apply claim_approval_resume_eq in H as [[-> _]|(a & v & trace & _ & _ & _ & Hv & Hw & _ & _ & ->)];
      [by exists r; split; [|left]|].
    apply waits_for_running in Hw. eapply run_changed; [done|done| |done..]. by rewrite Hw.
  - change g with (n, g).2. rewrite <-E. apply fail_runs_evolves; [|done]. intros a v Hw%waits_for_running. by rewrite Hw.
  - change g with (n, g).2. rewrite <-E. apply fail_runs_evolves; [|done]. intros a v Hw%resumes_running. by rewrite Hw.
Qed.
(** ** How an approval may change *)

(** The statements that decide an approval, and the one that claims its resume. *)
Definition decides {A : Type} (k : Uuid * Bytes) (st : ApprovalStatus) (q : Query A) : Prop :=
  match q with
  | QDecideApproval c token st' _ _ => (c, token) = k ∧ st' = st
  | _ => False
  end.
Definition overwrites {A : Type} (k : Uuid * Bytes) (st : ApprovalStatus) (q : Query A) : Prop :=
  match q with
  | QUpdateApproval c token st' _ _ => (c, token) = k ∧ st' = st
  | _ => False
  end.
Definition claims {A : Type} (k : Uuid * Bytes) (q : Query A) : Prop :=
  match q with
  | QClaimResume c token => (c, token) = k
  | _ => False
  end.

Inductive approval_step {A : Type} (k : Uuid * Bytes) (q : Query A) (now : Z) (a : ApprovalRecord)
    : ApprovalRecord → Prop :=
| as_same : approval_step k q now a a
| as_decided st who note : decides k st q → a_status a = ApPending → (now < a_expires_at a)%Z →
    approval_step k q now a (decided now st who note a)
| as_overwritten st who note : overwrites k st q → a_status a = ApPending →
    approval_step k q now a (decided now st who note a)
| as_expired : a_status a = ApPending → (a_expires_at a <= now)%Z →
    approval_step k q now a (expired a)
| as_claimed : claims k q → a_status a = Granted → a_resume_claimed_at a = None →
    approval_step k q now a (claimed now a)
| as_leased lease : approval_step k q now a (with_lease lease a).

(** Where the approval's run and workflow are not deleted, its row takes a step. *)
Definition approval_kept {A : Type} (s : Store) (c : Uuid) (a : ApprovalRecord) (q : Query A) : Prop :=
  ¬ deletes c (a_workflow_id a) q ∧ ∀ r, runs s !! (c, a_run_id a) = Some r → ¬ deletes c (r_workflow_id r) q.

Lemma exec_approvals {A : Type} (q : Query A) now s res s' c token a :
  exec q now s = (res, s') → approvals s !! (c, token) = Some a → approval_kept s c a q →
  ∃ a', approvals s' !! (c, token) = Some a' ∧ approval_step (c, token) q now a a'.
Proof.
  intros H Ha [Hd Hr]. exec_cases H; try (exists a; split; [done|constructor]).
  - exists a. split; [|constructor]. apply map_lookup_filter_Some. split; [done|]. cbn.
    intros (-> & [Hw|(r & Hrr & Hw)%fmap_Some]); [by apply Hd|by eapply Hr].
  - exists a. split; [|constructor]. apply map_lookup_filter_Some. split; [done|]. cbn.
    intros (-> & [Hw|(r & Hrr & Hw)%fmap_Some]); [by apply Hd|by eapply Hr].
  - apply create_approval_eq in H as [[-> _]|(Hn & _ & _ & ->)]; exists a; split; try constructor; [done|].
    cbn. rewrite lookup_insert_ne; [done|]. intros Heq. by rewrite Heq, Ha in Hn.
  - apply create_approval_and_wait_eq in H as [[-> _]|(v & Hn & _ & _ & _ & _ & ->)]; exists a; split; try constructor; [done|].
    cbn. rewrite lookup_insert_ne; [done|]. intros Heq. by rewrite Heq, Ha in Hn.
  - apply decide_approval_eq in H as [[-> _]|(b & v & Hb & Hp & He & _ & _ & _ & Hs)]; [by exists a; split; [|constructor]|].
    assert (approvals s' = <[(c0, token0) := decided now status (Some approver) note b]> (approvals s)) as ->
      by by destruct Hs as [[_ ->]|[_ ->]].
    eapply insert_related; [done|done|constructor|]. intros Heq. by apply (as_decided _ _ _ _ status).
  - apply claim_approval_resume_eq in H as [[-> _]|(b & v & trace & Hb & Hg & Hn & _ & _ & _ & _ & ->)];
      [by exists a; split; [|constructor]|].
    cbn. eapply insert_related; [done|done|constructor|]. intros Heq. by apply as_claimed.
  - apply update_row_eq in E as [[_ ->]|(b & Hb & _ & _ & ->)]; [by exists a; split; [|constructor]|].
    eapply insert_related; [done|done|constructor|]. intros _. constructor.
  - rewrite update_batch_lookup, Ha by apply select_rows_keys. case_decide as Hin; [|by exists a; split; [|constructor]].
    exists (expired a). split; [done|]. apply list_elem_of_fmap in Hin as ([k b] & Heq & [Hb Hp]%select_rows_elem).
    cbn in Heq. subst k. rewrite Ha in Hb. injection Hb as <-. apply andb_true_iff in Hp as [[Hp%bool_decide_eq_true He%bool_decide_eq_true]%andb_true_iff _].
    by constructor.
  - rewrite update_batch_lookup, Ha by apply select_rows_keys. case_decide as Hin; [|by exists a; split; [|constructor]].
    exists (with_lease None a). split; [done|constructor].
  - apply update_row_eq in E as [[_ ->]|(b & Hb & Hp%bool_decide_eq_true & _ & ->)]; [by exists a; split; [|constructor]|].
    eapply insert_related; [done|done|constructor|]. intros Heq. by apply (as_overwritten _ _ _ _ status).
Qed.

(** The statements that request an approval. *)
Definition requests {A : Type} (p : CreateApprovalParams) (q : Query A) : Prop :=
  match q with
  | QCreateApproval p' | QCreateApprovalAndWait p' _ => p' = p
  | _ => False
  end.

(** A row that appears is a fresh request. *)
Lemma exec_new_approval {A : Type} (q : Query A) now s res s' k a' :
  exec q now s = (res, s') → approvals s !! k = None → approvals s' !! k = Some a' →
  ∃ p, requests p q ∧ token_key p = k ∧ a' = approval_of_params now p.
Proof.
  intros H Hn Ha'. exec_cases H; try congruence.
  1,2: by apply map_lookup_filter_Some in Ha' as [? _]; congruence.
  - apply create_approval_eq in H as [[-> _]|(_ & _ & _ & ->)]; [congruence|]. cbn in Ha'.
    apply lookup_insert_Some in Ha' as [[<- <-]|[_ ?]]; [by exists p|congruence].
  - apply create_approval_and_wait_eq in H as [[-> _]|(v & _ & _ & _ & _ & _ & ->)]; [congruence|]. cbn in Ha'.
    apply lookup_insert_Some in Ha' as [[<- <-]|[_ ?]]; [by exists p|congruence].
  - apply decide_approval_eq in H as [[-> _]|(b & v & Hb & _ & _ & _ & _ & _ & Hs)]; [congruence|exfalso].
    assert (approvals s' = <[(c, token) := decided now status (Some approver) note b]> (approvals s)) as Heq
      by by destruct Hs as [[_ ->]|[_ ->]].
    rewrite Heq in Ha'. apply lookup_insert_Some in Ha' as [[<- _]|[_ ?]]; congruence.
  - apply claim_approval_resume_eq in H as [[-> _]|(b & v & trace & Hb & _ & _ & _ & _ & _ & _ & ->)]; [congruence|exfalso].
    cbn in Ha'. apply lookup_insert_Some in Ha' as [[<- _]|[_ ?]]; congruence.
  - exfalso. apply update_row_eq in E as [[_ ->]|(b & Hb & _ & _ & ->)]; [congruence|].
    apply lookup_insert_Some in Ha' as [[<- _]|[_ ?]]; congruence.
  - exfalso. rewrite update_batch_lookup, Hn in Ha' by apply select_rows_keys. by case_decide.
  - exfalso. rewrite update_batch_lookup, Hn in Ha' by apply select_rows_keys. by case_decide.
  - exfalso. apply update_row_eq in E as [[_ ->]|(b & Hb & _ & _ & ->)]; [congruence|].
    apply lookup_insert_Some in Ha' as [[<- _]|[_ ?]]; congruence.
Qed.

(** Deletions remove rows and change none. *)
Lemma delete_keeps {A : Type} (q : Query A) c w now s res s' :
  exec q now s = (res, s') → deletes c w q →
  (∀ k a', approvals s' !! k = Some a' → approvals s !! k = Some a')
  ∧ (∀ k r', runs s' !! k = Some r' → runs s !! k = Some r')
  ∧ (∀ k f', fires s' !! k = Some f' → fires s !! k = Some f').
Proof.
  intros [H|[-> _]]%exec_inv Hd; [|done]. destruct q; try done; cbn [exec_statement] in H; open_statement; repeat case_match; simplify_eq/=;
    split_and!; try done; intros k x Hx; by apply map_lookup_filter_Some in Hx as [? _].
Qed.

Lemma exec_approval_cases {A : Type} (q : Query A) now s res s' c token a' :
  exec q now s = (res, s') → approvals s' !! (c, token) = Some a' →
  (∃ p, requests p q ∧ token_key p = (c, token) ∧ a' = approval_of_params now p)
  ∨ ∃ a, approvals s !! (c, token) = Some a ∧ approval_step (c, token) q now a a'.
Proof.
  intros H Ha'. destruct (approvals s !! (c, token)) as [a|] eqn:Ha.
  2:{ left. by eapply exec_new_approval. }
  right. exists a. split; [done|].
  assert ((∃ w, deletes c w q) ∨ ∀ w, ¬ deletes c w q) as [[w Hd]|Hno].
  { destruct q; try (right; by intros ? []); cbn;
      (match goal with |- context [?x = ?y ∧ _] => destruct (decide (x = y)) as [->|] end;
      [left; eauto|right; by intros ? []]). }
  - destruct (delete_keeps q c w now s res s' H Hd) as (Hk & _ & _). apply Hk in Ha'.
    rewrite Ha in Ha'. injection Ha' as ->. constructor.
  - destruct (exec_approvals q now s res s' c token a H Ha) as (a1 & Ha1 & Hstep); [split; [apply Hno|intros; apply Hno]|].
    rewrite Ha' in Ha1. by injection Ha1 as ->.
Qed.

(** ** How a fire may change *)

(** The statement that prunes claims made at [t]. *)
Definition prunes {A : Type} (t : Z) (q : Query A) : Prop :=
  match q with
  | QPruneFires older => (t < older)%Z
  | _ => False
  end.

(** A claimed instant stays claimed until its workflow is deleted or the claim
is pruned. *)
Lemma exec_fires {A : Type} (q : Query A) now s res s' c w t f :
  exec q now s = (res, s') → fires s !! (c, w, t) = Some f → ¬ deletes c w q →
  ¬ prunes (s_claimed_at f) q →
  ∃ f', fires s' !! (c, w, t) = Some f' ∧ s_claimed_at f' = s_claimed_at f.
Proof.
  intros H Hf Hd Hp. exec_cases H; try (by exists f).
  - rewrite lookup_insert_ne; [by exists f|]. congruence.
  - apply update_row_eq in E as [[_ ->]|(v & Hv & _ & _ & ->)]; [by exists f|].
    eapply (insert_related (λ f f', s_claimed_at f' = s_claimed_at f)); [done|done|done|]. done.
  - exists f. split; [|done]. apply map_lookup_filter_Some. split; [done|]. cbn.
    apply andb_false_iff. left. apply bool_decide_eq_false. lia.
  - exists f. split; [|done]. apply map_lookup_filter_Some. split; [done|]. cbn. naive_solver.
  - exists f. split; [|done]. apply map_lookup_filter_Some. split; [done|]. cbn. naive_solver.
  - exists f. by apply create_approval_eq in H as [[-> _]|(_ & _ & _ & ->)].
  - exists f. by apply create_approval_and_wait_eq in H as [[-> _]|(v & _ & _ & _ & _ & _ & ->)].
  - exists f. by apply decide_approval_eq in H as [[-> _]|(b & v & _ & _ & _ & _ & _ & _ & [[_ ->]|[_ ->]])].
  - exists f. by apply claim_approval_resume_eq in H as [[-> _]|(b & v & trace & _ & _ & _ & _ & _ & _ & _ & ->)].
Qed.

(** No statement opens or closes a community's write fence. *)
Lemma exec_write_closed {A : Type} (q : Query A) now s : write_closed (exec q now s).2 = write_closed s.
Proof.
  destruct (exec q now s) as [res s'] eqn:H. cbn. exec_cases H; try done.
  - by apply create_approval_eq in H as [[-> _]|(_ & _ & _ & ->)].
  - by apply create_approval_and_wait_eq in H as [[-> _]|(v & _ & _ & _ & _ & _ & ->)].
  - by apply decide_approval_eq in H as [[-> _]|(b & v & _ & _ & _ & _ & _ & _ & [[_ ->]|[_ ->]])].
  - by apply claim_approval_resume_eq in H as [[-> _]|(b & v & trace & _ & _ & _ & _ & _ & _ & _ & ->)].
Qed.

(** ** Histories *)

(** A statement that ran, with its time and answer. *)
Inductive entry : Type :=
| Entry {A : Type} (q : Query A) (now : Z) (res : result A DbError).

(** The statements [h] of all processes, in the order they committed, take the
tables from [s] to [s']. *)
Fixpoint history (s : Store) (h : list entry) (s' : Store) : Prop :=
  match h with
  | [] => s' = s
  | Entry q now res :: h => ∃ m, exec q now s = (res, m) ∧ history m h s'
  end.

Lemma history_app s h1 h2 s' : history s (h1 ++ h2) s' ↔ ∃ m, history s h1 m ∧ history m h2 s'.
Proof.
  revert s. induction h1 as [|[A q now res] h1 IH]; intros s; cbn; [naive_solver|].
  setoid_rewrite IH. naive_solver.
Qed.

(** Induction on a history from its first statement. *)
Lemma history_ind (P : list entry → Store → Prop) s :
  P [] s →
  (∀ h m A (q : Query A) now res s', P h m → exec q now m = (res, s') → P (h ++ [Entry q now res]) s') →
  ∀ h s', history s h s' → P h s'.
Proof.
  intros H0 Hs h. induction h as [|[A q now res] h IH] using rev_ind; intros s' H; cbn in H; [by subst|].
  apply history_app in H as (m & Hm & (m' & He & ->)). eauto.
Qed.

Definition deleted (c w : Uuid) (e : entry) : Prop :=
  match e with Entry q _ _ => deletes c w q end.

Definition pruned (t : Z) (e : entry) : Prop :=
  match e with Entry q _ _ => prunes t q end.

#[local] Instance deletes_dec {A : Type} c w (q : Query A) : Decision (deletes c w q).
Proof. destruct q; cbn; apply _. Defined.
#[local] Instance prunes_dec {A : Type} t (q : Query A) : Decision (prunes t q).
Proof. destruct q; cbn; apply _. Defined.
#[local] Instance deleted_dec c w e : Decision (deleted c w e).
Proof. destruct e. apply _. Defined.
#[local] Instance pruned_dec t e : Decision (pruned t e).
Proof. destruct e. apply _. Defined.

(** A run that completed, failed or was cancelled keeps its row, whatever
statements follow, until its workflow is deleted. *)
Theorem ended_runs_are_final (s : Store) (h : list entry) (s' : Store) (c id : Uuid) (r : WorkflowRunRecord) :
  history s h s' → runs s !! (c, id) = Some r → terminal (r_status r) = true →
  Forall (λ e, ¬ deleted c (r_workflow_id r) e) h → runs s' !! (c, id) = Some r.
Proof.
  intros Hh Hr Ht. revert h s' Hh. apply (history_ind (λ h s', _ → runs s' !! (c, id) = Some r)); [done|].
  intros h m A q now res s' IH He [Hd [Hq _]%Forall_cons]%Forall_app. specialize (IH Hd).
  destruct (exec_runs q now m res s' c id r He IH Hq) as (r' & Hr' & [->|[Hf _]]); [done|congruence].
Qed.

(** Two processes never both win the same scheduled instant of a workflow:
between two successful claims of it the workflow was deleted, or the first
claim was pruned as too old. *)
Theorem fires_claimed_once (s : Store) (c w : Uuid) (t now1 now2 : Z) f1 f2 (h : list entry) (s' : Store) :
  history s (Entry (QClaimFire c w t) now1 (Ok (Some f1)) :: h ++ [Entry (QClaimFire c w t) now2 (Ok (Some f2))]) s' →
  ∃ e, e ∈ h ∧ (deleted c w e ∨ pruned now1 e).
Proof.
  intros (m1 & H1%exec_answers_ok & (m2 & Hh & (m3 & H2%exec_answers_ok & _))%history_app).
  destruct (decide (Exists (λ e, deleted c w e ∨ pruned now1 e) h)) as [Hex%Exists_exists|Hno]; [done|exfalso].
  rewrite <-Forall_Exists_neg in Hno.
  assert (∃ f, fires m2 !! (c, w, t) = Some f ∧ s_claimed_at f = now1) as (f & Hf & _).
  { clear H2. revert Hno. revert h m2 Hh. apply (history_ind (λ h m2, _ → ∃ f, fires m2 !! (c, w, t) = Some f ∧ s_claimed_at f = now1)).
    - intros _. cbn in H1. unfold claim_scheduled_workflow_fire in H1. repeat case_match; simplify_eq/=.
      rewrite lookup_insert_eq. eauto.
    - intros h m A q now res m' IH He [Hall [Hq _]%Forall_cons]%Forall_app. destruct (IH Hall) as (f & Hf & Hc).
      destruct (exec_fires q now m res m' c w t f He Hf) as (f' & Hf' & Hc'); [naive_solver|naive_solver|].
      exists f'. split; [done|congruence]. }
  cbn in H2. unfold claim_scheduled_workflow_fire in H2. rewrite Hf in H2. by destruct (workflows m2 !! _).
Qed.

(** ** An approval from request to resume *)

Definition requested (p : CreateApprovalParams) (e : entry) : Prop :=
  match e with Entry q _ _ => requests p q end.

(** A decision at time [t], and the statement that overwrites a status without
looking at the deadline or the run. *)
Definition granted (k : Uuid * Bytes) (t : Z) (e : entry) : Prop :=
  match e with Entry q now _ => decides k Granted q ∧ now = t end.
Definition granted_unchecked (k : Uuid * Bytes) (e : entry) : Prop :=
  match e with Entry q _ _ => overwrites k Granted q end.

(** A claim of the approval [k] that won, with its answer. *)
Definition resumed (k : Uuid * Bytes) (x : Uuid * Uuid * Z) (e : entry) : Prop :=
  match e with
  | @Entry A q _ res =>
      match q in Query A return result A DbError → Prop with
      | QClaimResume c token => λ res, (c, token) = k ∧ res = Ok (Some x)
      | _ => λ _, False
      end res
  end.

Definition same_request (p : CreateApprovalParams) (a : ApprovalRecord) : Prop :=
  a_workflow_id a = p_workflow_id p ∧ a_run_id a = p_run_id p ∧ a_step_index a = p_step_index p
  ∧ a_expires_at a = p_expires_at p.

Lemma approval_step_request {A : Type} k (q : Query A) now p a a' :
  approval_step k q now a a' → same_request p a → same_request p a'.
Proof. by destruct 1. Qed.

(** An approval that was not there before a history comes from a request in it,
and is granted by a decision before its deadline or by the overwriting statement. *)
Definition approval_from (c : Uuid) (token : Bytes) (h : list entry) (m : Store) : Prop :=
  ∀ a, approvals m !! (c, token) = Some a →
    (∃ p e, e ∈ h ∧ requested p e ∧ token_key p = (c, token) ∧ same_request p a)
    ∧ (a_status a = Granted →
       (∃ t e, e ∈ h ∧ granted (c, token) t e ∧ (t < a_expires_at a)%Z)
       ∨ ∃ e, e ∈ h ∧ granted_unchecked (c, token) e).

Lemma approval_origin c token s h s' :
  approvals s !! (c, token) = None → history s h s' → approval_from c token h s'.
Proof.
  intros Hnone. revert h s'. apply (history_ind (approval_from c token)).
  { intros a Ha. by rewrite Hnone in Ha. }
  intros h m A q now res s' IH He a' Ha'.
  assert (Entry q now res ∈ h ++ [Entry q now res]) as Hlast by set_solver.
  apply (exec_approval_cases q now m res s' c token a' He) in Ha' as [(p & Hq & Hk & ->)|(a & Ha & Hstep)].
  { split; [|done]. exists p, (Entry q now res). done. }
  destruct (IH a Ha) as [(p & e & Hin & Hreq & Hk & Hsame) Hgr]. split.
  { exists p, e. split_and!; [set_solver|done..|]. by eapply approval_step_request. }
  assert ((∃ t e, e ∈ h ∧ granted (c, token) t e ∧ (t < a_expires_at a)%Z)
          ∨ (∃ e, e ∈ h ∧ granted_unchecked (c, token) e) →
          (∃ t e, e ∈ h ++ [Entry q now res] ∧ granted (c, token) t e ∧ (t < a_expires_at a)%Z)
          ∨ ∃ e, e ∈ h ++ [Entry q now res] ∧ granted_unchecked (c, token) e) as Hmono.
  { intros [(t & e' & Hin' & Hg & Ht)|(e' & Hin' & Hg)]; [left; exists t, e'|right; exists e']; split_and!; set_solver. }
  destruct Hstep as [|st who note Hd _ Ht|st who note Hd _| |_ Hg _|]; cbn; try done; auto.
  - intros ->. left. by exists now, (Entry q now res).
  - intros ->. right. by exists (Entry q now res).
Qed.

(** C10. Take a history of statements of all processes, before which an approval
did not exist.  A suspended run is resumed for that approval only if it was
requested for this run and step, and was granted: by a decision before its
deadline, or by [update_approval_by_stored_hash], which looks at no deadline and
has no caller.  And it is resumed at most once: a second claim wins only after the
workflow was deleted. *)
Theorem resume_needs_one_grant (s : Store) (c : Uuid) (token : Bytes) (now : Z) (x : Uuid * Uuid * Z)
    (h1 h2 : list entry) (s' : Store) :
  approvals s !! (c, token) = None →
  history s (h1 ++ Entry (QClaimResume c token) now (Ok (Some x)) :: h2) s' →
  (∃ p e, e ∈ h1 ∧ requested p e ∧ token_key p = (c, token)
      ∧ x = (p_workflow_id p, p_run_id p, p_step_index p)
      ∧ ((∃ t e', e' ∈ h1 ∧ granted (c, token) t e' ∧ (t < p_expires_at p)%Z)
         ∨ ∃ e', e' ∈ h1 ∧ granted_unchecked (c, token) e'))
  ∧ (∀ e x', e ∈ h2 → resumed (c, token) x' e → ∃ d, d ∈ h2 ∧ deleted c x.1.1 d).
Proof.
  intros Hnone (m1 & H1 & (m2 & He%exec_answers_ok & H2))%history_app.
  apply claim_approval_resume_eq in He as [[_ []]|(a & r & trace & Ha & Hg & _ & Hr & Hw & _ & Hx & ->)]; [by exists x|].
  injection Hx as ->. split.
  { destruct (approval_origin c token s h1 m1 Hnone H1 a Ha) as [(p & e & Hin & Hreq & Hk & Hs) Hgr].
    exists p, e. destruct Hs as (<- & <- & <- & <-). split_and!; auto. }
  intros e x' (h21 & h22 & ->)%list_elem_of_split Hres. apply history_app in H2 as (m3 & H3 & H4).
  destruct (decide (Exists (deleted c (a_workflow_id a)) h21)) as [(d & Hd & Hdel)%Exists_exists|Hno].
  { exists d. split; [set_solver|done]. }
  exfalso. rewrite <-Forall_Exists_neg in Hno.
  assert (∃ b v, approvals m3 !! (c, token) = Some b ∧ is_Some (a_resume_claimed_at b) ∧ a_run_id b = a_run_id a
           ∧ a_workflow_id b = a_workflow_id a ∧ runs m3 !! (c, a_run_id a) = Some v
           ∧ r_workflow_id v = a_workflow_id a) as (b & v & Hb & [t Ht] & _).
  { revert Hno. revert h21 m3 H3 H4. intros h21 m3 H3 _. revert h21 m3 H3.
    apply (history_ind (λ h m, _ → ∃ b v, approvals m !! (c, token) = Some b ∧ is_Some (a_resume_claimed_at b)
           ∧ a_run_id b = a_run_id a ∧ a_workflow_id b = a_workflow_id a ∧ runs m !! (c, a_run_id a) = Some v
           ∧ r_workflow_id v = a_workflow_id a)).
    - intros _. exists (claimed now a), (resumed_run (a_step_index a) trace r). cbn. rewrite !lookup_insert_eq.
      unfold waits_for in Hw. apply andb_true_iff in Hw as [[Hw%bool_decide_eq_true _]%andb_true_iff _]. eauto 10.
    - intros h m A q now' res m' IH He [Hall [Hq _]%Forall_cons]%Forall_app.
      destruct (IH Hall) as (b & v & Hb & [t Ht] & Hrun & Hwf & Hv & Hvw).
      destruct (exec_runs q now' m res m' c (a_run_id a) v He Hv) as (v' & Hv' & Hev); [by rewrite Hvw|].
      destruct (exec_approvals q now' m res m' c token b He Hb) as (b' & Hb' & Hstep).
      { split; [by rewrite Hwf|]. intros v1. rewrite Hrun, Hv. intros [= <-]. by rewrite Hvw. }
      exists b', v'. assert (r_workflow_id v' = a_workflow_id a) by (by destruct Hev as [->|(_ & -> & _)]).
      destruct Hstep; cbn; rewrite ?Ht; eauto 10; congruence. }
  destruct e as [A q now' res]. destruct q; try done. destruct Hres as [Hk ->]. simplify_eq.
  destruct H4 as (m4 & H4%exec_answers_ok & _).
  apply claim_approval_resume_eq in H4 as [[_ []]|(b' & v' & ? & Hb' & _ & Hn & _)]; [by exists x'|congruence].
Qed.

End store_props.
