(* ===== verification/WorkflowRun.v ===== *)
(** * WorkflowRun: the computations of the workflow engine

An asynchronous function of [buzz-workflow] is a computation over a [World]: the workflow tables, the engine's own state and a log of what was
called.  The environment [Env] answers every call that leaves the engine, says
which statements of other processes commit before each of ours, and at which
call a pending future is dropped: by the step's time-out, by the loss of the
serving lease, or with the process. *)
From stdpp Require Import pretty.
From S2P Require Import Prelude Text Encode Network Nostr Json WorkflowDef WorkflowText WorkflowStore.

(** ** Interfaces *)

(** Derived (de)serialization, and the parsers of other crates. *)
Class EngineCrates {JC : JsonCrate} : Type := {
  def_from_value : Value → result WorkflowDef string;       (* [serde_json::from_value] *)
  ctx_to_value : TriggerContext → result Value string;
  ctx_from_value : Value → result TriggerContext string;
  json_from_str : string → option Value;
  number_of_u64 : N → JsonNumber;
  parse_uuid : string → result Uuid string;
  pk_parse : string → option Bytes;                         (* [PublicKey::parse], [to_bytes] *)
  hex_decode : string → result Bytes string;
  event_id_bytes : string → Bytes;                          (* [EventId::as_bytes], of its hex *)
  url_parse : string → result (option string * option N) string;   (* host and port *)
  method_from_bytes : string → result unit string;
  status_display : N → string;
  ip_display : IpAddr → string;
  from_utf8_lossy : Bytes → string
}.

(** [WorkflowConfig]. *)
Class WorkflowConfig : Type := {
  max_concurrent : nat;
  default_timeout_secs : N
}.

Definition default_config : WorkflowConfig := {| max_concurrent := 100; default_timeout_secs := 300 |}.

Section engine.
Context {JC : JsonCrate} {VT : ValueText} {EV : Evalexpr} {HO : HashOrder} {CC : CronCrate}
        {PC : PgCrates} {UT : UuidText} {EC : EngineCrates}.

(** ** Calls that leave the engine *)

Record HttpResponse : Type := mkResponse {
  http_status : N;
  chunks : list (result Bytes string)      (* until the body ends or reading fails *)
}.

(** A user row of the channel's roster: key and display name. *)
Definition User : Type := Bytes * option string.

Inductive Call : Type → Type :=
| CTryAcquire : Call bool                                      (* a permit of [run_semaphore] *)
| CUtcNow : Call Z
| CNewUuid : Call Uuid
| CEval (expr : string) : Call EvalFate
| CAcquireFence (c : CommunityId) (operation : string) : Call (result unit string)
| CVerifyFence : Call (result unit string)
| CFinishFence : Call (result unit string)
| CActionSink : Call bool                                      (* [action_sink.get()] is set *)
| CSendMessage (c : CommunityId) (channel text authored owner : string) (reply_to : option string)
    : Call (result string string)
| CPostReaction (message_id emoji : string) : Call (result (N * option string) string)
| CResolve (host : string) (port : N) : Call (result (list IpAddr) string)
| CBuildClient (host : string) (ip : IpAddr) (port : N) : Call (result unit string)
| CHttp (ip : IpAddr) (port : N) (url method : string) (headers : option (gmap string string)) (body : option string)
    : Call (result HttpResponse string)
| CSleep (secs : N) : Call unit
| CMemberRole (c channel : Uuid) (owner : Bytes) : Call (result (option string) string)
| CMembers (c channel : Uuid) : Call (result (list Bytes) string)
| CUsers (c : CommunityId) (keys : list Bytes) : Call (result (list User) string)
| CCacheLive : Call bool                                       (* the cached entry is within its TTL *)
| CPersistCommand : Call (result bool string)                  (* inserted, or a duplicate *)
| CCommitCommand : Call (result unit string)                   (* [tx.commit()] of the command *)
| CActorRole (c channel : Uuid) (pubkey : Bytes) : Call (result (option string) string).

(** A statement of some process, with its time. *)
Inductive Stmt : Type :=
| mkStmt {A : Type} (q : Query A) (now : Z).

(** Why a future is dropped. *)
Inductive Cut : Type := TimesOut | LeaseLost | Dies.

Record Env : Type := mkEnv {
  env_call : ∀ A : Type, nat → Call A → A;
  env_others : nat → list Stmt;             (* commit before our call *)
  env_now : nat → Z;                        (* [NOW()] of our statement *)
  env_fault : nat → option (string * bool); (* the connection fails; the statement took effect *)
  env_cut : nat → option (Cut * bool)       (* dropped at the call; the call took effect *)
}.

(** What was done, in order. *)
Inductive LogEntry : Type :=
| EvStmt {A : Type} (q : Query A) (now : Z) (res : result A DbError)     (* ours *)
| EvOther {A : Type} (q : Query A) (now : Z) (res : result A DbError)    (* another process's *)
| EvCall {A : Type} (call : Call A) (a : A).

(** A task spawned for later. *)
Inductive Task : Type :=
| TRun (c run : Uuid) (def : WorkflowDef) (ctx : TriggerContext)
| TTrigger (c run : Uuid) (definition : Value) (ctx : TriggerContext)
| TResume (c : Uuid) (token_hash : Bytes).

Record World : Type := mkWorld {
  db : Store;
  calls : nat;
  log : list LogEntry;
  timed : bool;          (* inside the step's time-out *)
  protected : bool;      (* inside [protect] *)
  last_fired : gmap Key Z;
  cache : gmap Key (list (Key * WorkflowRecord));
  spawned : list Task
}.

Definition with_db d (w : World) : World :=
  mkWorld d (calls w) (log w) (timed w) (protected w) (last_fired w) (cache w) (spawned w).
Definition tick_call (w : World) : World :=
  mkWorld (db w) (S (calls w)) (log w) (timed w) (protected w) (last_fired w) (cache w) (spawned w).
Definition with_event e (w : World) : World :=
  mkWorld (db w) (calls w) (log w ++ [e]) (timed w) (protected w) (last_fired w) (cache w) (spawned w).
Definition with_timed b (w : World) : World :=
  mkWorld (db w) (calls w) (log w) b (protected w) (last_fired w) (cache w) (spawned w).
Definition with_protected b (w : World) : World :=
  mkWorld (db w) (calls w) (log w) (timed w) b (last_fired w) (cache w) (spawned w).
Definition with_last_fired m (w : World) : World :=
  mkWorld (db w) (calls w) (log w) (timed w) (protected w) m (cache w) (spawned w).
Definition with_cache m (w : World) : World :=
  mkWorld (db w) (calls w) (log w) (timed w) (protected w) (last_fired w) m (spawned w).
Definition with_spawned ts (w : World) : World :=
  mkWorld (db w) (calls w) (log w) (timed w) (protected w) (last_fired w) (cache w) ts.

(** ** Computations *)

Inductive Outcome (A : Type) : Type :=
| Done (a : A)
| Dropped (c : Cut).
#[global] Arguments Done {A} _.
#[global] Arguments Dropped {A} _.

Definition M (A : Type) : Type := Env → World → Outcome A * World.

#[global] Instance M_ret : MRet M := λ A a env w, (Done a, w).
#[global] Instance M_bind : MBind M := λ A B k m env w,
  match m env w with
  | (Done a, w') => k a env w'
  | (Dropped c, w') => (Dropped c, w')
  end.

(** [?] in a computation with errors. *)
Definition try_bind {A B E : Type} (m : M (result A E)) (k : A → M (result B E)) : M (result B E) :=
  r ← m; match r with Ok a => k a | Err e => mret (Err e) end.

Definition throw {A E : Type} (e : E) : M (result A E) := mret (Err e).
Definition lift {A E : Type} (r : result A E) : M (result A E) := mret r.
Definition map_err_m {A E F : Type} (f : E → F) (m : M (result A E)) : M (result A F) :=
  r ← m; mret (map_err f r).

Definition get_world : M World := λ env w, (Done w, w).
Definition modify (f : World → World) : M unit := λ env w, (Done tt, f w).

(** A cut is effective only inside the scope it belongs to. *)
Definition effective (w : World) (cut : option (Cut * bool)) : option (Cut * bool) :=
  match cut with
  | Some (TimesOut, _) => if timed w then cut else None
  | Some (LeaseLost, _) => if protected w then cut else None
  | _ => cut
  end.

(** A call outside the engine. *)
Definition call {A : Type} (c : Call A) : M A := λ env w,
  let n := calls w in
  let w := tick_call w in
  let a := env_call env A n c in
  match effective w (env_cut env n) with
  | Some (cut, true) => (Dropped cut, with_event (EvCall c a) w)
  | Some (cut, false) => (Dropped cut, w)
  | None => (Done a, with_event (EvCall c a) w)
  end.

(** A statement of another process commits, and one of ours. *)
Definition other_stmt (w : World) (st : Stmt) : World :=
  match st with
  | mkStmt q now => let '(res, d) := exec q now (db w) in with_event (EvOther q now res) (with_db d w)
  end.
Definition own_stmt {A : Type} (q : Query A) (now : Z) (w : World) : World :=
  let '(res, d) := exec q now (db w) in with_event (EvStmt q now res) (with_db d w).

(** Our own statement, one transaction. *)
Definition stmt {A : Type} (q : Query A) : M (result A DbError) := λ env w,
  let n := calls w in
  let w := foldl other_stmt (tick_call w) (env_others env n) in
  let now := env_now env n in
  let w' := own_stmt q now w in
  match effective w (env_cut env n) with
  | Some (cut, took) => (Dropped cut, if took then w' else w)
  | None =>
      match env_fault env n with
      | Some (e, took) => (Done (Err (Sqlx e)), if took then w' else w)
      | None => (Done (exec q now (db w)).1, w')
      end
  end.

(** [tokio::time::timeout]: [None] when the time is up. *)
Definition with_timeout {A : Type} (m : M A) : M (option A) := λ env w,
  match m env (with_timed true w) with
  | (Done a, w') => (Done (Some a), with_timed (timed w) w')
  | (Dropped TimesOut, w') => (Done None, with_protected (protected w) (with_timed (timed w) w'))
  | (Dropped c, w') => (Dropped c, w')
  end.

(** [ServingWriteGuard::protect]. *)
Definition protect {A : Type} (m : M A) : M (result A string) :=
  v ← call CVerifyFence;
  match v with
  | Err e => mret (Err e)
  | Ok _ =>
      o ← (λ env w, match m env (with_protected true w) with
                    | (Done a, w') => (Done (Some a), with_protected (protected w) w')
                    | (Dropped LeaseLost, w') => (Done None, with_protected (protected w) w')
                    | (Dropped c, w') => (Dropped c, w')
                    end);
      match o with
      | None => mret (Err "serving write lease heartbeat was lost")
      | Some a => v ← call CVerifyFence;
                  mret (match v with Err e => Err e | Ok _ => Ok a end)
      end
  end.

End engine.

Notation "'try!' x := m 'in' k" := (try_bind m (λ x, k))
  (at level 10, x pattern at level 0, m at level 100, k at level 200) : buzz_scope.
