(* ===== verification/WorkflowExec.v ===== *)
(** * WorkflowExec: executing the steps of a run

The functions of [executor.rs] that act: dispatching a step's action under the
community's write fence, the guarded web requests, and the loop over the steps
that produces a run's trace. *)
From stdpp Require Import pretty.
From S2P Require Import Prelude Text Encode Network Nostr Json WorkflowDef WorkflowText WorkflowStore WorkflowRun.

Local Open Scope nat_scope.

(** ** Results *)

Record ApprovalRequest : Type := mkRequest {
  req_token : string;
  req_step_id : string;
  req_approver_spec : string;
  req_message : string;
  req_timeout_seconds : N
}.

Section exec.
Context {JC : JsonCrate} {VT : ValueText} {EV : Evalexpr} {HO : HashOrder} {CC : CronCrate}
        {PC : PgCrates} {UT : UuidText} {EC : EngineCrates} {WC : WorkflowConfig}.

Inductive StepResult : Type :=
| StepCompleted (output : Value)
| StepSuspended (approval : ApprovalRequest)
| StepSkipped.

Record PartialProgress : Type := mkProgress { failed_index : nat; partial_trace : list Value }.

Definition no_progress : PartialProgress := mkProgress 0 [].

Record ExecutionResult : Type := mkResult {
  approval : option ApprovalRequest;
  step_index : nat;
  step_outputs : gmap string Value;
  trace : list Value
}.

(** ** Channels *)

Definition invalid_channel (e : string) : WorkflowError :=
  InvalidDefinition ("SendMessage: invalid channel override UUID: " +:+ e).

Definition resolve_send_message_channel (explicit_channel : option string) (trigger_channel : string)
    (workflow_channel_id : option Uuid) : result string WorkflowError :=
  let explicit_channel :=
    match trim <$> explicit_channel with
    | Some value => if String.eqb value "" then None else Some value
    | None => None
    end in
  match workflow_channel_id with
  | Some workflow_channel_id =>
      match explicit_channel with
      | Some explicit_channel =>
          let? override_channel_id := map_err invalid_channel (parse_uuid explicit_channel) in
          if bool_decide (override_channel_id ≠ workflow_channel_id) then
            Err (InvalidDefinition ("SendMessage: channel override must match the workflow channel ("
              +:+ uuid_to_string workflow_channel_id +:+ ")"))
          else Ok (uuid_to_string workflow_channel_id)
      | None => Ok (uuid_to_string workflow_channel_id)
      end
  | None =>
      match explicit_channel with
      | Some explicit_channel =>
          let? override_channel_id := map_err invalid_channel (parse_uuid explicit_channel) in
          Ok (uuid_to_string override_channel_id)
      | None =>
          if String.eqb (trim trigger_channel) "" then
            Err (InvalidDefinition "SendMessage: no channel_id available (trigger has no channel context and no channel override was specified)")
          else Ok (trim trigger_channel)
      end
  end.

(** ** Web requests *)

Definition webhook_error (context : string) (e : string) : WorkflowError := WebhookError (context +:+ e).

Definition check_ssrf (host : string) (port : N) : M (result IpAddr WorkflowError) :=
  try! addrs := map_err_m (webhook_error "DNS resolution failed: ") (call (CResolve host port)) in
  match addrs with
  | [] => throw (WebhookError "DNS resolution returned no addresses")
  | first :: _ =>
      match List.find is_private_ip addrs with
      | Some ip => throw (WebhookError ("SSRF blocked: '" +:+ host
                     +:+ "' resolved to private/reserved address " +:+ ip_display ip))
      | None => lift (Ok first)
      end
  end.

Definition WEBHOOK_MAX_RESPONSE_BYTES : nat := 1024 * 1024.

(** The chunks of the body, up to the limit. *)
Fixpoint read_body (body_bytes : Bytes) (chunks : list (result Bytes string)) : result Bytes WorkflowError :=
  match chunks with
  | [] => Ok body_bytes
  | Err e :: _ => Err (webhook_error "reading response body: " e)
  | Ok bytes :: chunks =>
      let body_bytes := body_bytes ++ bytes in
      if bool_decide (WEBHOOK_MAX_RESPONSE_BYTES < length body_bytes)
      then Err (WebhookError "response body exceeds 1048576 byte limit")
      else read_body body_bytes chunks
  end.

Definition call_webhook_impl (url method : string) (headers : option (gmap string string)) (body : option string)
    : M (result Value WorkflowError) :=
  try! parsed_url := lift (map_err (webhook_error "invalid URL: ") (url_parse url)) in
  try! host := lift (ok_or parsed_url.1 (WebhookError "URL has no host")) in
  let port := default 80%N parsed_url.2 in
  try! safe_ip := check_ssrf host port in
  try! _ := map_err_m WebhookError (call (CBuildClient host safe_ip port)) in
  try! _ := lift (map_err WebhookError (method_from_bytes method)) in
  try! resp := map_err_m WebhookError (call (CHttp safe_ip port url method headers body)) in
  try! body_bytes := lift (read_body [] (chunks resp)) in
  lift (Ok (json_object [("status", Number (number_of_u64 (http_status resp)));
                         ("body", VString (from_utf8_lossy body_bytes))])).

Definition add_reaction_impl (message_id emoji : string) : M (result Value WorkflowError) :=
  try! resp := map_err_m (webhook_error "AddReaction HTTP error: ") (call (CPostReaction message_id emoji)) in
  let '(status, text) := resp in
  if (200 <=? status)%N && (status <? 300)%N then
    let body_text := default "" text in
    let body_json := default (json_object [("raw", VString body_text)]) (json_from_str body_text) in
    lift (Ok (json_object [("added", Bool true); ("status", Number (number_of_u64 status)); ("response", body_json)]))
  else
    throw (WebhookError ("AddReaction: relay returned " +:+ status_display status +:+ " for message "
      +:+ message_id +:+ ": " +:+ default "<unreadable>" text)).

(** ** Actions *)

Definition generate_approval_token : M string := u ← call CNewUuid; mret (uuid_to_string u).

Definition MAX_DELAY_SECS : N := 270.

Definition send_message_action (step : Step) (text : string) (channel : option string) (reply_in_thread : bool)
    (community_id run_id : Uuid) (trigger_ctx : TriggerContext) : M (result StepResult WorkflowError) :=
  try! wf_run := map_err_m (λ e, WebhookError ("SendMessage: failed to load workflow run "
      +:+ uuid_to_string run_id +:+ ": " +:+ db_error_to_string e)) (stmt (QGetRun community_id run_id)) in
  try! workflow := map_err_m (λ e, WebhookError ("SendMessage: failed to load workflow "
      +:+ uuid_to_string (r_workflow_id wf_run) +:+ ": " +:+ db_error_to_string e))
    (stmt (QGetWorkflow community_id (r_workflow_id wf_run))) in
  try! channel_id := lift (resolve_send_message_channel channel (channel_id trigger_ctx) (w_channel_id workflow)) in
  let owner_pubkey_hex := hex (w_owner_pubkey workflow) in
  try! reply_to :=
    if reply_in_thread then
      if String.eqb (message_id trigger_ctx) "" then
        throw (InvalidDefinition
          "SendMessage: reply_in_thread is set but the trigger has no message_id to reply to")
      else lift (Ok (Some (message_id trigger_ctx)))
    else lift (Ok None) in
  try! authored_text :=
    match action step with
    | SendMessage text _ _ => lift (Ok text)
    | _ => throw (InvalidDefinition "SendMessage: resolved action does not match its authored step")
    end in
  sink ← call CActionSink;
  if negb sink then
    throw (InvalidDefinition
      "action_sink not initialized — call set_action_sink() before executing workflows")
  else
    try! event_id := map_err_m WebhookError
      (call (CSendMessage community_id channel_id text authored_text owner_pubkey_hex reply_to)) in
    lift (Ok (StepCompleted (json_object [("sent", Bool true); ("event_id", VString event_id)]))).

(** The [match action] of [dispatch_action]. *)
Definition perform (step : Step) (action : ActionDef) (community_id run_id : Uuid) (trigger_ctx : TriggerContext)
    : M (result StepResult WorkflowError) :=
  match action with
  | SendMessage text channel reply_in_thread =>
      send_message_action step text channel reply_in_thread community_id run_id trigger_ctx
  | SendDm _ _ => throw (NotImplemented "SendDm")
  | SetChannelTopic _ => throw (NotImplemented "SetChannelTopic")
  | AddReaction emoji =>
      if String.eqb (message_id trigger_ctx) "" then
        throw (InvalidDefinition "AddReaction: no trigger.message_id available")
      else
        try! result := add_reaction_impl (message_id trigger_ctx) emoji in
        lift (Ok (StepCompleted result))
  | CallWebhook url method headers body =>
      try! result := call_webhook_impl url (default "POST" method) headers body in
      lift (Ok (StepCompleted result))
  | RequestApproval from message timeout =>
      try! timeout_seconds := lift (parse_approval_timeout_secs (Some (default "24h" timeout))) in
      token ← generate_approval_token;
      lift (Ok (StepSuspended (mkRequest token (step_id step) from message timeout_seconds)))
  | Delay duration =>
      try! secs := lift (parse_duration_secs duration) in
      if (MAX_DELAY_SECS <? secs)%N then
        throw (InvalidDefinition ("delay exceeds maximum of 270 seconds (got " +:+ pretty secs
          +:+ "s); use the scheduled resume pattern for long delays"))
      else
        _ ← call (CSleep secs);
        lift (Ok (StepCompleted (json_object [("slept_secs", Number (number_of_u64 secs))])))
  end.

Definition lease_lost (e : string) : WorkflowError := webhook_error "community write lease lost: " e.

Definition dispatch_action (step : Step) (action : ActionDef) (community_id run_id : Uuid)
    (trigger_ctx : TriggerContext) : M (result StepResult WorkflowError) :=
  try! _ := map_err_m (webhook_error "community write fence rejected workflow side effect: ")
    (call (CAcquireFence community_id "workflow_action")) in
  try! _ := map_err_m lease_lost (call CVerifyFence) in
  try! result := map_err_m lease_lost (protect (
    try! run := map_err_m (λ e, WebhookError ("failed to confirm workflow run " +:+ uuid_to_string run_id
        +:+ " is active: " +:+ db_error_to_string e)) (stmt (QGetRun community_id run_id)) in
    if bool_decide (r_status run ≠ Running) then
      throw (WebhookError ("workflow run " +:+ uuid_to_string run_id +:+ " is no longer active (status: "
        +:+ run_status_to_string (r_status run) +:+ ")"))
    else perform step action community_id run_id trigger_ctx)) in
  release ← map_err_m (webhook_error "community write lease release failed: ") (call CFinishFence);
  match result with
  | Ok value => match release with Ok _ => lift (Ok value) | Err e => throw e end
  | Err error => throw error
  end.

(** ** The loop over the steps *)

Definition skipped_entry (id : string) : Value :=
  json_object [("step_id", VString id); ("status", VString "skipped")].
Definition completed_entry (id : string) (output : Value) : Value :=
  json_object [("step_id", VString id); ("status", VString "completed"); ("output", output)].
Definition waiting_entry (id : string) : Value :=
  json_object [("step_id", VString id); ("status", VString "waiting_approval")].

(** One step: its condition, its resolved action under the time-out. *)
Definition execute_step (step : Step) (community_id run_id : Uuid) (trigger_ctx : TriggerContext)
    (outputs : gmap string Value) : M (result StepResult WorkflowError) :=
  let dispatch :=
    try! resolved_action := lift (resolve_step_templates step trigger_ctx outputs) in
    let secs := default default_timeout_secs (timeout_secs step) in
    dispatch_result ← with_timeout (dispatch_action step resolved_action community_id run_id trigger_ctx);
    match dispatch_result with
    | Some r => lift r
    | None => throw (StepTimeout (step_id step) secs)
    end in
  match if_expr step with
  | Some expr =>
      fate ← call (CEval expr);
      match evaluate_condition fate expr trigger_ctx outputs with
      | Ok true => dispatch
      | Ok false => lift (Ok StepSkipped)
      | Err e => throw e
      end
  | None => dispatch
  end.

Fixpoint execute_steps (steps : list Step) (i : nat) (community_id run_id : Uuid) (trigger_ctx : TriggerContext)
    (start_index : nat) (outputs : gmap string Value) (tr : list Value)
    : M (result ExecutionResult (WorkflowError * PartialProgress)) :=
  match steps with
  | [] => lift (Ok (mkResult None i outputs tr))
  | step :: steps =>
      if i <? start_index then
        execute_steps steps (S i) community_id run_id trigger_ctx start_index outputs tr
      else
        r ← execute_step step community_id run_id trigger_ctx outputs;
        match r with
        | Err e => throw (e, mkProgress i tr)
        | Ok (StepCompleted output) =>
            execute_steps steps (S i) community_id run_id trigger_ctx start_index
              (<[step_id step := output]> outputs) (tr ++ [completed_entry (step_id step) output])
        | Ok (StepSuspended approval) =>
            lift (Ok (mkResult (Some approval) i outputs (tr ++ [waiting_entry (step_id step)])))
        | Ok StepSkipped =>
            execute_steps steps (S i) community_id run_id trigger_ctx start_index outputs
              (tr ++ [skipped_entry (step_id step)])
        end
  end.

Definition run_steps (def : WorkflowDef) (community_id run_id : Uuid) (trigger_ctx : TriggerContext)
    (start_index : nat) (initial_outputs : option (gmap string Value))
    : M (result ExecutionResult (WorkflowError * PartialProgress)) :=
  execute_steps (steps def) 0 community_id run_id trigger_ctx start_index (default ∅ initial_outputs) [].

Definition database_error (e : DbError) : WorkflowError * PartialProgress :=
  (Database (db_error_to_string e), no_progress).

Definition execute_run (community_id run_id : Uuid) (def : WorkflowDef) (trigger_ctx : TriggerContext)
    : M (result ExecutionResult (WorkflowError * PartialProgress)) :=
  permit ← call CTryAcquire;
  if negb permit then throw (CapacityExceeded, no_progress)
  else
    try! _ := map_err_m database_error
      (stmt (QUpdateRun community_id run_id Running 0 (Array []) None)) in
    run_steps def community_id run_id trigger_ctx 0 None.

Definition execute_from_step (community_id run_id : Uuid) (def : WorkflowDef) (trigger_ctx : TriggerContext)
    (start_index : nat) (initial_outputs : option (gmap string Value))
    : M (result ExecutionResult (WorkflowError * PartialProgress)) :=
  permit ← call CTryAcquire;
  if negb permit then throw (CapacityExceeded, no_progress)
  else
    try! run := map_err_m database_error (stmt (QGetRun community_id run_id)) in
    try! _ := map_err_m database_error
      (stmt (QUpdateRun community_id run_id Running (Z.of_nat start_index) (r_execution_trace run) None)) in
    run_steps def community_id run_id trigger_ctx start_index initial_outputs.

End exec.
