(* ===== verification/WorkflowEngine.v ===== *)
(** * WorkflowEngine: triggers, schedules, approvals

The functions of [buzz-workflow/src/lib.rs]: which workflows an event or a
clock tick fires, the authority check before a run is created, finishing a run,
requesting an approval and resuming after it; and the approval commands of
[buzz-relay/src/handlers/command_executor.rs].  An instant is an integer number
of nanoseconds since the epoch. *)
From stdpp Require Import pretty.
From S2P Require Import Prelude Text Encode Nostr Json Kind Scope WorkflowDef WorkflowText WorkflowStore WorkflowRun WorkflowExec.

Local Open Scope nat_scope.

(** ** Time *)

Definition NANOS : Z := 1000000000.

(** [DateTime::timestamp], [DateTime::from_timestamp(_, 0)] over its range of
years, and [num_seconds] of a difference. *)
Definition timestamp_of (t : Z) : Z := (t / NANOS)%Z.
Definition from_timestamp (secs : Z) : option Z :=
  if bool_decide (-8334601228800 <= secs <= 8210266876799)%Z then Some (secs * NANOS)%Z else None.
Definition num_seconds (d : Z) : Z := Z.quot d NANOS.

(** [u64 as i64], and [i64::div_euclid]. *)
Definition u64_as_i64 (n : N) : Z :=
  let z := Z.of_N n in if (z <? 9223372036854775808)%Z then z else (z - 18446744073709551616)%Z.
Definition div_euclid (a b : Z) : Z := if (0 <? b)%Z then (a / b)%Z else (- (a / - b))%Z.

Section engine.
Context {JC : JsonCrate} {VT : ValueText} {EV : Evalexpr} {HO : HashOrder} {CC : CronCrate}
        {PC : PgCrates} {UT : UuidText} {EC : EngineCrates} {WC : WorkflowConfig} {NT : NostrTags}.

(** ** Schedules *)

Definition cron_fire_instant (expr : string) (now : Z) (window_secs : Z) : option Z :=
  match cron_parse (normalize_cron expr) with
  | Ok sched =>
      t ← cron_after sched (now - window_secs * NANOS)%Z;
      if (t <=? now)%Z then Some t else None
  | Err _ => None
  end.

Definition interval_fire_instant (dur : string) (now : Z) : option Z :=
  match parse_duration_secs dur with
  | Ok interval_secs =>
      if (0 <? interval_secs)%N then
        let secs := u64_as_i64 interval_secs in
        from_timestamp (div_euclid (timestamp_of now) secs * secs)%Z
      else None
  | Err _ => None
  end.

Definition interval_should_fire (dur : string) (last_fired : option Z) (now : Z) : bool :=
  match parse_duration_secs dur with
  | Ok interval_secs =>
      let last := default now last_fired in
      let elapsed := Z.to_N (Z.abs (num_seconds (now - last))) in
      (interval_secs <=? elapsed)%N
  | Err _ => false
  end.

(** The anchors after the decision, and the decision. *)
Definition interval_prefilter_should_fire (fired : gmap Key Z) (community_id workflow_id : Uuid) (dur : string)
    (last : option Z) (now : Z) : bool * gmap Key Z :=
  if interval_should_fire dur last now then (true, fired)
  else match last with
       | None => (false, <[(community_id, workflow_id) := now]> fired)
       | Some _ => (false, fired)
       end.

(** ** Triggers *)

Definition owner_authority_allows (role : option string) (needs_elevated : bool) : bool :=
  match role with
  | None => false
  | Some r => if needs_elevated then String.eqb r "owner" || String.eqb r "admin" else true
  end.

Definition trigger_matches_event (t : TriggerDef) (kind : N) : bool :=
  match t with
  | MessagePosted _ => (kind =? KIND_STREAM_MESSAGE)%N
  | ReactionAdded _ _ => (kind =? KIND_REACTION)%N
  | DiffPosted _ => (kind =? KIND_STREAM_MESSAGE_DIFF)%N
  | Schedule _ _ | Webhook => false
  end.

Definition event_is_reply (event : Event) : bool :=
  bool_decide (is_Some (Scope.reply (parse_thread_markers (tags event)))).

(** The hex event id of an [e] tag. *)
Definition reaction_target (tag : Tag) : option string :=
  if String.eqb (tag_kind tag) "e" then
    v ← tag_content tag;
    if (String.length v =? 64) && string_forall is_ascii_hexdigit v then Some v else None
  else None.

Definition build_trigger_context (event : StoredEvent) : TriggerContext :=
  let ev := se_event event in
  let reaction := (event_kind_u32 ev =? KIND_REACTION)%N in
  {| text := content ev;
     author := pubkey ev;
     channel_id := match se_channel_id event with Some c => uuid_to_string c | None => "" end;
     timestamp := pretty (created_at ev);
     emoji := if reaction then content ev else "";
     message_id := if reaction then default (id ev) (head (omap reaction_target (reverse (tags ev)))) else id ev;
     is_reply := event_is_reply ev;
     webhook_fields := ∅ |}.

Definition trigger_filter (t : TriggerDef) : option string :=
  match t with
  | MessagePosted f | ReactionAdded _ f | DiffPosted f => f
  | Schedule _ _ | Webhook => None
  end.

Definition should_fire_workflow (def : WorkflowDef) (ctx : TriggerContext) : M bool :=
  let filtered :=
    match trigger_filter (trigger def) with
    | None => mret true
    | Some expr =>
        fate ← call (CEval expr);
        mret match evaluate_condition fate expr ctx ∅ with
             | Ok b => b
             | Err _ => false
             end
    end in
  match trigger def with
  | ReactionAdded (Some expected) _ => if String.eqb (emoji ctx) expected then filtered else mret false
  | _ => filtered
  end.

Definition check_owner_authority (community_id channel_id : Uuid) (owner_pubkey : Bytes) (def : WorkflowDef)
    : M (result unit WorkflowError) :=
  try! role := map_err_m (λ e, Unauthorized ("owner authority lookup failed (fail-closed): " +:+ e))
    (call (CMemberRole community_id channel_id owner_pubkey)) in
  if owner_authority_allows role (requires_elevated_authority def) then lift (Ok tt)
  else throw (Unauthorized "workflow owner lacks current channel authority").

Definition spawn (t : Task) : M unit := modify (λ w, with_spawned (spawned w ++ [t]) w).

(** The body of the loop over a channel's workflows. *)
Definition fire_on_event (community_id channel_id : Uuid) (event : Event) (ctx : TriggerContext) (ctx_json : Value)
    (kw : Key * WorkflowRecord) : M unit :=
  let workflow := kw.2 in
  match def_from_value (w_definition workflow) with
  | Err _ => mret tt
  | Ok def =>
      if negb (def_enabled def) || negb (trigger_matches_event (trigger def) (event_kind_u32 event)) then mret tt
      else
        fire ← should_fire_workflow def ctx;
        if negb fire then mret tt
        else
          auth ← check_owner_authority community_id channel_id (w_owner_pubkey workflow) def;
          match auth with
          | Err _ => mret tt
          | Ok _ =>
              fresh ← call CNewUuid;
              run ← stmt (QCreateRun fresh community_id kw.1.2 (Some (event_id_bytes (id event))) (Some ctx_json));
              match run with
              | Err _ => mret tt
              | Ok run_id => spawn (TRun community_id run_id def ctx)
              end
          end
  end.

Fixpoint for_each {A : Type} (f : A → M unit) (l : list A) : M unit :=
  match l with
  | [] => mret tt
  | x :: l => _ ← f x; for_each f l
  end.

Definition cached_workflows (community_id channel_id : Uuid) : M (result (list (Key * WorkflowRecord)) WorkflowError) :=
  live ← call CCacheLive;
  w ← get_world;
  match live, cache w !! (community_id, channel_id) with
  | true, Some cached => lift (Ok cached)
  | _, _ =>
      try! fresh := map_err_m (λ e, Database (db_error_to_string e))
        (stmt (QListEnabledChannelWorkflows community_id channel_id)) in
      _ ← modify (λ w, with_cache (<[(community_id, channel_id) := fresh]> (cache w)) w);
      lift (Ok fresh)
  end.

Definition invalidate_channel_workflows (community_id channel_id : Uuid) : M unit :=
  modify (λ w, with_cache (delete (community_id, channel_id) (cache w)) w).

Definition on_event (community_id : Uuid) (event : StoredEvent) : M (result unit WorkflowError) :=
  match se_channel_id event with
  | None => lift (Ok tt)
  | Some channel_id =>
      if is_workflow_execution_kind (event_kind_u32 (se_event event)) then lift (Ok tt)
      else
        try! workflows := cached_workflows community_id channel_id in
        let ctx := build_trigger_context event in
        match workflows, ctx_to_value ctx with
        | [], _ | _, Err _ => lift (Ok tt)
        | _, Ok ctx_json =>
            _ ← for_each (fire_on_event community_id channel_id (se_event event) ctx ctx_json) workflows;
            lift (Ok tt)
        end
  end.

(** ** Finishing a run *)

Definition workflow_failure (code message : string) : option WorkflowRunFailure := Some (mkFailure code message).

(** Display names are compared without case; the distinct keys that match. *)
Definition matching_keys (display_name : string) (users : list User) : list Bytes :=
  remove_dups (map fst (filter (λ u, match u.2 with
    | Some name => eq_ignore_ascii_case name display_name
    | None => false end = true) users)).

Definition ROLE_NAMES : list string := ["owner"; "admin"; "member"; "guest"; "bot"].

Definition names_role (role_spec : string) : bool := existsb (λ role, eq_ignore_ascii_case role role_spec) ROLE_NAMES.

Definition strip_role (spec : string) : string := default spec (strip_prefix "role:" spec).

Definition resolve_approval_targets (community_id channel_id : Uuid) (specification : string)
    : M (result (list Bytes) string) :=
  let spec := trim specification in
  if String.eqb spec "" then throw "request_approval from cannot be empty"
  else if eq_ignore_ascii_case spec "any" then lift (Ok [])
  else if names_role (strip_role spec) then lift (Ok [])
  else if Text.starts_with "role:" spec then throw ("unsupported approver role: " +:+ spec)
  else if (String.length spec =? 64) && string_forall is_ascii_hexdigit spec then
    try! pubkey := lift (hex_decode spec) in
    if negb (length pubkey =? 32) then throw "approver public key must decode to 32 bytes"
    else lift (Ok [pubkey])
  else match pk_parse spec with
  | Some pubkey => lift (Ok [pubkey])
  | None =>
      let display_name := trim (default spec (strip_prefix "@" spec)) in
      if String.eqb display_name "" then throw "approver display name cannot be empty"
      else
        try! member_keys := map_err_m (λ e, "could not read approver channel roster: " +:+ e)
          (call (CMembers community_id channel_id)) in
        try! users := map_err_m (λ e, "could not read approver display names: " +:+ e)
          (call (CUsers community_id member_keys)) in
        match matching_keys display_name users with
        | [key] => lift (Ok [key])
        | [] => throw ("approver '" +:+ display_name +:+ "' is not an active channel member")
        | _ => throw ("approver name '" +:+ display_name +:+ "' is ambiguous in this channel")
        end
  end.

(** The channel of a suspended run: the workflow's, or the trigger's. *)
Definition approval_channel (workflow : WorkflowRecord) (run : WorkflowRunRecord) : option Uuid :=
  match w_channel_id workflow with
  | Some c => Some c
  | None =>
      match r_trigger_context run with
      | Some value =>
          match ctx_from_value value with
          | Ok context => match parse_uuid (channel_id context) with Ok c => Some c | Err _ => None end
          | Err _ => None
          end
      | None => None
      end
  end.

Definition persist_failed (e : string) : string * string := ("approval_persist_failed", e).
Definition persist_db_failed (e : DbError) : string * string := persist_failed (db_error_to_string e).

Definition persist_approval_request (community_id run_id : Uuid) (step_index : Z) (approval : ApprovalRequest)
    (trace : Value) : M (result unit (string * string)) :=
  try! run := map_err_m persist_db_failed (stmt (QGetRun community_id run_id)) in
  try! workflow := map_err_m persist_db_failed (stmt (QGetWorkflow community_id (r_workflow_id run))) in
  match approval_channel workflow run with
  | None => throw ("approval_channel_missing", "approval requests need a channel context")
  | Some channel_id =>
      try! approver_pubkeys := map_err_m (λ m, ("approval_approver_invalid", m))
        (resolve_approval_targets community_id channel_id (req_approver_spec approval)) in
      now ← call CUtcNow;
      let expires_at := (now + Z.of_N (req_timeout_seconds approval) * NANOS)%Z in
      let params := mkParams community_id (req_token approval) (r_workflow_id run) run_id channel_id
        (req_step_id approval) step_index (req_approver_spec approval) approver_pubkeys (req_message approval)
        (w_definition workflow) expires_at in
      try! _ := map_err_m persist_failed (call (CAcquireFence community_id "workflow_approval_request")) in
      try! _ := map_err_m persist_failed (call CVerifyFence) in
      try! persisted := map_err_m persist_failed (protect (stmt (QCreateApprovalAndWait params trace))) in
      lift (map_err persist_db_failed persisted)
  end.

Definition finalize_run (community_id run_id : Uuid)
    (res : result ExecutionResult (WorkflowError * PartialProgress)) (existing_trace : option (list Value)) : M unit :=
  let prefix := default [] existing_trace in
  match res with
  | Ok r =>
      let trace_json := Array (prefix ++ trace r) in
      let step_count := Z.of_nat (step_index r) in
      match approval r with
      | Some request =>
          persisted ← persist_approval_request community_id run_id step_count request trace_json;
          match persisted with
          | Ok _ => mret tt
          | Err (code, message) =>
              _ ← stmt (QUpdateRun community_id run_id Failed step_count trace_json (workflow_failure code message));
              mret tt
          end
      | None =>
          _ ← stmt (QUpdateRun community_id run_id Completed step_count trace_json None);
          mret tt
      end
  | Err (e, progress) =>
      let trace_json := Array (prefix ++ partial_trace progress) in
      _ ← stmt (QUpdateRun community_id run_id Failed (Z.of_nat (failed_index progress)) trace_json
                 (workflow_failure (code e) (workflow_error_to_string e)));
      mret tt
  end.

(** ** Resuming after an approval *)

Definition fail_claimed_resume (community_id run_id : Uuid) (step_index : Z) (code message : string) (trace : Value)
    : M unit :=
  _ ← stmt (QUpdateRun community_id run_id Failed (step_index + 1)%Z trace (workflow_failure code message));
  mret tt.

(** The outputs recorded in a trace. *)
Definition outputs_of_trace (trace : list Value) : gmap string Value :=
  foldl (λ outputs entry,
    match value_get "step_id" entry, value_get "output" entry with
    | Some (VString step_id), Some output => <[step_id := output]> outputs
    | _, _ => outputs
    end) ∅ trace.

Definition execute_claimed_approval_resume (community_id workflow_id run_id : Uuid) (step_index : Z)
    (token_hash : Bytes) : M unit :=
  let fail := fail_claimed_resume community_id run_id step_index in
  run ← stmt (QGetRun community_id run_id);
  match run with
  | Err _ => mret tt
  | Ok run =>
      if bool_decide (r_workflow_id run ≠ workflow_id) then
        fail "approval_workflow_mismatch" "run belongs to a different workflow" (Array [])
      else match r_execution_trace run with
      | Array trace =>
          approval ← stmt (QGetApproval community_id token_hash);
          match approval with
          | Err e => fail "approval_missing" (db_error_to_string e) (Array trace)
          | Ok approval =>
              if bool_decide (a_workflow_id approval ≠ workflow_id) then
                fail "approval_workflow_mismatch" "approval belongs to a different workflow" (Array trace)
              else match a_workflow_definition approval with
              | None => fail "approval_definition_missing" "approval has no saved workflow definition" (Array trace)
              | Some definition =>
                  match def_from_value definition with
                  | Err e => fail "invalid_definition" ("definition parse error: " +:+ e) (Array trace)
                  | Ok def =>
                      match r_trigger_context run with
                      | None => fail "approval_trigger_context_missing"
                                  "approved workflow run has no saved trigger context" (Array trace)
                      | Some value =>
                          match ctx_from_value value with
                          | Err e => fail "approval_trigger_context_invalid"
                                       ("trigger context parse error: " +:+ e) (Array trace)
                          | Ok ctx =>
                              res ← execute_from_step community_id run_id def ctx (Z.to_nat (step_index + 1))
                                      (Some (outputs_of_trace trace));
                              finalize_run community_id run_id res (Some trace)
                          end
                      end
                  end
              end
          end
      | _ => fail "approval_trace_invalid" "workflow execution trace is not an array" (Array [])
      end
  end.

(** The heartbeat task spawned beside the execution renews the lease with
statements of its own. *)
Definition resume_granted_approval (community_id : Uuid) (token_hash : Bytes) : M unit :=
  claim ← stmt (QClaimResume community_id token_hash);
  match claim with
  | Ok (Some (workflow_id, run_id, step_index)) =>
      execute_claimed_approval_resume community_id workflow_id run_id step_index token_hash
  | Ok None | Err _ => mret tt
  end.

(** A spawned task. *)
Definition run_task (t : Task) : M unit :=
  match t with
  | TRun c run def ctx =>
      res ← execute_run c run def ctx;
      finalize_run c run res None
  | TTrigger c run definition ctx =>
      match def_from_value definition with
      | Err e =>
          _ ← stmt (QUpdateRun c run Failed 0 (Array [])
                (workflow_failure "invalid_definition" ("definition parse error: " +:+ e)));
          mret tt
      | Ok def =>
          res ← execute_from_step c run def ctx 0 None;
          finalize_run c run res None
      end
  | TResume c token_hash => resume_granted_approval c token_hash
  end.

(** [locked] are the rows other transactions hold at each sweep. *)
Definition maintain_approvals (locked : gset (Uuid * Bytes)) : M unit :=
  _ ← stmt (QExpirePending 100 locked);
  _ ← stmt (QFailInterrupted 100 locked);
  granted ← stmt (QListUnclaimed 100);
  match granted with
  | Ok approvals => for_each (λ ka, spawn (TResume ka.1.1 ka.1.2)) approvals
  | Err _ => mret tt
  end.

(** ** The clock *)

(** The claim of a scheduled instant, and the run it starts. *)
Definition claim_and_start (community_id workflow_id channel_id : Uuid) (workflow : WorkflowRecord) (def : WorkflowDef)
    (now scheduled_for : Z) (interval : bool) : M unit :=
  let set_anchor := if interval then modify (λ w, with_last_fired (<[(community_id, workflow_id) := now]> (last_fired w)) w)
                    else mret tt in
  auth ← check_owner_authority community_id channel_id (w_owner_pubkey workflow) def;
  match auth with
  | Err _ => mret tt
  | Ok _ =>
      claim ← stmt (QClaimFire community_id workflow_id scheduled_for);
      match claim with
      | Err _ => mret tt
      | Ok None => set_anchor
      | Ok (Some _) =>
          let ctx := mkContext "" "" (uuid_to_string channel_id) (pretty (timestamp_of now)) "" "" false ∅ in
          match ctx_to_value ctx with
          | Err _ => mret tt
          | Ok ctx_json =>
              fresh ← call CNewUuid;
              run ← stmt (QCreateRun fresh community_id workflow_id None (Some ctx_json));
              match run with
              | Err _ => mret tt
              | Ok run_id =>
                  _ ← stmt (QAttachRun community_id workflow_id scheduled_for run_id);
                  _ ← set_anchor;
                  spawn (TRun community_id run_id def ctx)
              end
          end
      end
  end.

(** The interval anchor: in memory, or the latest claim; a failed read counts as none. *)
Definition interval_anchor (k : Key) : M (option Z) :=
  w ← get_world;
  match last_fired w !! k with
  | Some t => mret (Some t)
  | None => r ← stmt (QLatestFire k.1 k.2); mret (match r with Ok anchor => anchor | Err _ => None end)
  end.

Definition fire_on_tick (now : Z) (kw : Key * WorkflowRecord) : M unit :=
  let '(k, workflow) := kw in
  match def_from_value (w_definition workflow) with
  | Err _ => mret tt
  | Ok def =>
      if negb (def_enabled def) then mret tt
      else match w_channel_id workflow with
      | None => mret tt
      | Some channel_id =>
          match trigger def with
          | Schedule (Some expr) None =>
              match cron_fire_instant expr now 60 with
              | Some instant => claim_and_start k.1 k.2 channel_id workflow def now instant false
              | None => mret tt
              end
          | Schedule None (Some dur) =>
              last ← interval_anchor k;
              w ← get_world;
              let '(fire, fired) := interval_prefilter_should_fire (last_fired w) k.1 k.2 dur last now in
              _ ← modify (with_last_fired fired);
              if negb fire then mret tt
              else match interval_fire_instant dur now with
                   | Some instant => claim_and_start k.1 k.2 channel_id workflow def now instant true
                   | None => mret tt
                   end
          | _ => mret tt
          end
      end
  end.

Definition tick : M unit :=
  now ← call CUtcNow;
  workflows ← stmt QListAllEnabledWorkflows;
  match workflows with
  | Err _ => mret tt
  | Ok workflows =>
      _ ← for_each (fire_on_tick now) workflows;
      modify (λ w, with_last_fired (filter (λ kt, kt.1 ∈ map fst workflows) (last_fired w)) w)
  end.

(** [rounds] rounds of the endless loop of [run], each after a minute's sleep. *)
Fixpoint run_loop (rounds : nat) (locked : gset (Uuid * Bytes)) : M unit :=
  match rounds with
  | 0 => mret tt
  | S rounds =>
      _ ← call (CSleep 60);
      _ ← maintain_approvals locked;
      _ ← tick;
      run_loop rounds locked
  end.

Definition run (rounds : nat) (locked : gset (Uuid * Bytes)) : M unit :=
  _ ← maintain_approvals locked;
  run_loop rounds locked.

(** ** Commands of the relay ([command_executor.rs]) *)

Inductive IngestError : Type := Rejected (m : string) | Internal (m : string).

Definition check_approver_spec (approver_spec : string) (approver_pubkeys : list Bytes) (requester_pubkey : Bytes)
    (requester_role : string) : result unit IngestError :=
  let spec := trim approver_spec in
  if eq_ignore_ascii_case spec "any" then Ok tt
  else
    let role_spec := strip_role spec in
    if names_role role_spec then
      if eq_ignore_ascii_case requester_role role_spec then Ok tt
      else Err (Rejected "forbidden: actor does not hold the required channel role")
    else if bool_decide (requester_pubkey ∈ approver_pubkeys) then Ok tt
    else Err (Rejected "forbidden: not the designated approver for this request").

(** [handle_approval_grant] and [handle_approval_deny], after the token hash was
read from the event; [false] is a duplicate command. The decision runs in the
transaction that stores the command event; a commit that fails is a fault of the
deciding statement. *)
Definition handle_approval (status : ApprovalStatus) (community_id : Uuid) (token_hash self_bytes : Bytes)
    (note : option string) : M (result bool IngestError) :=
  try! inserted := map_err_m Internal (call CPersistCommand) in
  if negb inserted then lift (Ok false)
  else
    try! approval := map_err_m (λ _, Rejected "invalid: approval not found") (stmt (QGetApproval community_id token_hash)) in
    if bool_decide (a_status approval ≠ ApPending) then
      throw (Rejected ("invalid: approval already " +:+ approval_status_to_string (a_status approval)))
    else
      now ← call CUtcNow;
      if (a_expires_at approval <? now)%Z then throw (Rejected "invalid: approval token has expired")
      else match a_channel_id approval with
      | None => throw (Rejected "forbidden: approval has no channel authorization scope")
      | Some channel_id =>
          try! role := map_err_m (λ e, Internal ("error: approval member lookup: " +:+ e))
            (call (CActorRole community_id channel_id self_bytes)) in
          match role with
          | None => throw (Rejected "forbidden: actor is not an active member of this channel")
          | Some role =>
              try! _ := lift (check_approver_spec (a_approver_spec approval) (a_approver_pubkeys approval) self_bytes role) in
              try! updated := map_err_m (λ e, Internal ("error: db decide approval: " +:+ db_error_to_string e))
                (stmt (QDecideApproval community_id token_hash status self_bytes note)) in
              if negb updated then throw (Rejected "invalid: approval already acted on (race)")
              else
                _ ← (if bool_decide (status = Granted) then spawn (TResume community_id token_hash) else mret tt);
                lift (Ok true)
          end
      end.

Definition approval_note (content : string) : option string := if String.eqb content "" then None else Some content.

Definition handle_approval_grant (community_id : Uuid) (token_hash self_bytes : Bytes) (content : string)
    : M (result bool IngestError) :=
  handle_approval Granted community_id token_hash self_bytes (approval_note content).
Definition handle_approval_deny (community_id : Uuid) (token_hash self_bytes : Bytes) (content : string)
    : M (result bool IngestError) :=
  handle_approval Denied community_id token_hash self_bytes (approval_note content).

(** The fields of the command's content, a JSON object: texts as they are. *)
Definition content_fields (content : string) : gmap string string :=
  match json_from_str content with
  | Some (Object map) =>
      foldl (λ fields kv, <[kv.1 := match kv.2 with VString s => s | other => value_display other end]> fields) ∅ map
  | _ => ∅
  end.

(** [handle_workflow_trigger], after the workflow id was read from the event.
The run is created over the pool, by a transaction of its own; the command's
transaction holds the event alone, and when it fails to commit the run stays. *)
Definition handle_workflow_trigger (community_id workflow_id : Uuid) (self_bytes : Bytes) (event : Event)
    : M (result bool IngestError) :=
  try! workflow := map_err_m (λ _, Rejected "invalid: workflow not found") (stmt (QGetWorkflow community_id workflow_id)) in
  if bool_decide (w_owner_pubkey workflow ≠ self_bytes) then
    throw (Rejected "forbidden: not authorized to trigger this workflow")
  else if negb (w_enabled workflow) || bool_decide (w_status workflow ≠ Active) then
    throw (Rejected "forbidden: workflow is disabled or inactive")
  else
    try! def := lift (map_err (λ e, Internal ("error: corrupt workflow definition: " +:+ e))
      (def_from_value (w_definition workflow))) in
    match w_channel_id workflow with
    | None => throw (Rejected "forbidden: workflow has no channel scope")
    | Some wf_channel_id =>
        try! _ := map_err_m (λ _, Rejected "forbidden: not authorized to trigger this workflow")
          (check_owner_authority community_id wf_channel_id (w_owner_pubkey workflow) def) in
        try! inserted := map_err_m Internal (call CPersistCommand) in
        if negb inserted then lift (Ok false)
        else
          let ctx := mkContext "" (hex self_bytes) (uuid_to_string wf_channel_id) "" "" "" false
                       (if String.eqb (content event) "" then ∅ else content_fields (content event)) in
          let ctx_json := match ctx_to_value ctx with Ok v => Some v | Err _ => None end in
          fresh ← call CNewUuid;
          try! run_id := map_err_m (λ e, Internal ("error: db create_workflow_run: " +:+ db_error_to_string e))
            (stmt (QCreateRun fresh community_id workflow_id (Some (event_id_bytes (id event))) ctx_json)) in
          try! _ := map_err_m (λ e, Internal ("error: commit transaction: " +:+ e)) (call CCommitCommand) in
          _ ← spawn (TTrigger community_id run_id (w_definition workflow) ctx);
          lift (Ok true)
    end.

End engine.
