(* ===== verification/WorkflowRunProps.v ===== *)
(** * WorkflowRunProps: reasoning about the engine's computations

A Hoare logic over [World]: a triple says what holds when a computation is done
and when it is dropped at one of its calls.  With it, every function of the
engine is shown to change the tables only by logged statements, so that what
holds of all histories of statements holds of the engine. *)
From S2P Require Import Prelude Text Encode Network Nostr Json Kind Scope WorkflowDef WorkflowText WorkflowStore WorkflowStoreProps WorkflowRun WorkflowExec WorkflowEngine.

Local Open Scope nat_scope.

Section logic.
Context {JC : JsonCrate} {VT : ValueText} {EV : Evalexpr} {HO : HashOrder} {CC : CronCrate}
        {PC : PgCrates} {UT : UuidText} {EC : EngineCrates} {WC : WorkflowConfig} {NT : NostrTags}.

(** ** Triples *)

Definition triple {A : Type} (P : World → Prop) (m : M A) (Q : A → World → Prop) (D : World → Prop) : Prop :=
  ∀ env w, P w → match m env w with
                 | (Done a, w') => Q a w'
                 | (Dropped _, w') => D w'
                 end.

Lemma triple_ret {A} (P : World → Prop) (a : A) Q D : (∀ w, P w → Q a w) → triple P (mret a) Q D.
Proof. intros H env w Hw. by apply H. Qed.

Lemma triple_bind {A B} P (m : M A) (k : A → M B) R Q D :
  triple P m R D → (∀ a, triple (R a) (k a) Q D) → triple P (m ≫= k) Q D.
Proof.
  intros Hm Hk env w Hw. specialize (Hm env w Hw). unfold mbind, M_bind.
  destruct (m env w) as [[a|c] w']; [|done]. exact (Hk a env w' Hm).
Qed.

Lemma triple_try {A B E} P (m : M (result A E)) (k : A → M (result B E)) R Q D :
  triple P m R D → (∀ a, triple (R (Ok a)) (k a) Q D) → (∀ e w, R (Err e) w → Q (Err e) w) →
  triple P (try_bind m k) Q D.
Proof.
  intros Hm Hk He. eapply triple_bind; [exact Hm|]. intros [a|e]; [apply Hk|]. apply triple_ret. auto.
Qed.

Lemma triple_weaken {A} (P P' : World → Prop) (m : M A) Q Q' D D' :
  triple P m Q D → (∀ w, P' w → P w) → (∀ a w, Q a w → Q' a w) → (∀ w, D w → D' w) → triple P' m Q' D'.
Proof.
  intros Hm HP HQ HD env w Hw. specialize (Hm env w (HP w Hw)). destruct (m env w) as [[a|c] w']; auto.
Qed.

Lemma triple_map_err {A E F} P (m : M (result A E)) (f : E → F) R Q D :
  triple P m R D → (∀ r w, R r w → Q (map_err f r) w) → triple P (map_err_m f m) Q D.
Proof. intros Hm HQ. eapply triple_bind; [exact Hm|]. intros r. apply triple_ret. auto. Qed.

(** ** Properties of every computation of the engine *)

(** The statements the engine itself sends: none deletes a workflow, prunes a
claim or overwrites an approval. *)
Definition engine_query {A : Type} (q : Query A) : bool :=
  match q with
  | QGetRun _ _ | QGetWorkflow _ _ | QListEnabledChannelWorkflows _ _ | QListAllEnabledWorkflows
  | QClaimFire _ _ _ | QLatestFire _ _ | QAttachRun _ _ _ _ | QCreateRun _ _ _ _ _ | QUpdateRun _ _ _ _ _ _
  | QCreateApprovalAndWait _ _ | QDecideApproval _ _ _ _ _ | QListUnclaimed _ | QClaimResume _ _
  | QExpirePending _ _ | QFailInterrupted _ _ | QGetApproval _ _ => true
  | _ => false
  end.

(** The calls by which a run acts on the world. *)
Definition effect {A : Type} (c : Call A) : bool :=
  match c with
  | CSendMessage _ _ _ _ _ _ | CPostReaction _ _ | CHttp _ _ _ _ _ _ => true
  | _ => false
  end.

(** A change of the caches and the tasks only. *)
Definition bookkeeping (f : World → World) : Prop :=
  ∀ w, db (f w) = db w ∧ log (f w) = log w.

(** What a property of computations must be closed under to hold of the
engine. *)
Class Closed (Φ : ∀ A : Type, M A → Prop) : Prop := {
  closed_ret : ∀ A (a : A), Φ A (mret a);
  closed_bind : ∀ A B (m : M A) (k : A → M B), Φ A m → (∀ a, Φ B (k a)) → Φ B (m ≫= k);
  closed_call : ∀ A (c : Call A), effect c = false → Φ A (call c);
  closed_stmt : ∀ A (q : Query A), engine_query q = true → Φ _ (stmt q);
  closed_modify : ∀ f, bookkeeping f → Φ _ (modify f);
  closed_world : Φ _ get_world;
  closed_timeout : ∀ A (m : M A), Φ A m → Φ _ (with_timeout m);
  closed_protect : ∀ A (m : M A), Φ A m → Φ _ (protect m)
}.

Lemma closed_for_each Φ `{!Closed Φ} {A} (f : A → M unit) l : (∀ x, Φ _ (f x)) → Φ _ (for_each f l).
Proof. intros Hf. induction l; cbn; [apply closed_ret|]. apply closed_bind; auto. Qed.

End logic.

(** Walks through a function of the engine. *)
Ltac closed_step :=
  match goal with
  | |- ∀ _, _ => intro
  | |- _ _ (mret _) => apply closed_ret
  | |- _ _ (lift _) => apply closed_ret
  | |- _ _ (throw _) => apply closed_ret
  | |- _ _ (call _) => first [assumption|apply closed_call; reflexivity|auto; fail]
  | |- _ _ (stmt _) => apply closed_stmt; reflexivity
  | |- _ _ get_world => apply closed_world
  | |- _ _ (spawn _) => apply closed_modify; done
  | |- _ _ (modify _) => apply closed_modify; done
  | |- _ _ (try_bind _ _) => apply closed_bind; [|intros [?|?]; [|apply closed_ret]]
  | |- _ _ (map_err_m _ _) => apply closed_bind; [|intros ?; apply closed_ret]
  | |- _ _ (_ ≫= _) => apply closed_bind
  | |- _ _ (for_each _ _) => apply closed_for_each; [apply _|]
  | |- _ _ (with_timeout _) => apply closed_timeout
  | |- _ _ (protect _) => apply closed_protect
  | |- _ _ (if ?b then _ else _) => destruct b
  | |- _ _ (match ?e with _ => _ end) => destruct e
  | _ => progress auto
  end.

Section engine.
Context {JC : JsonCrate} {VT : ValueText} {EV : Evalexpr} {HO : HashOrder} {CC : CronCrate}
        {PC : PgCrates} {UT : UuidText} {EC : EngineCrates} {WC : WorkflowConfig} {NT : NostrTags}.

Section closed.
Context (Φ : ∀ A : Type, M A → Prop) `{!Closed Φ}.

(** Actions, for a property that also holds of the effects. *)
Lemma closed_dispatch (Heffect : ∀ A (c : Call A), Φ A (call c)) step action c run ctx :
  Φ _ (dispatch_action step action c run ctx).
Proof.
  unfold dispatch_action. destruct action; cbn [perform]; unfold send_message_action, add_reaction_impl,
    call_webhook_impl, check_ssrf, generate_approval_token; repeat closed_step.
Qed.

Context (Hdispatch : ∀ step action c run ctx, Φ _ (dispatch_action step action c run ctx)).

Lemma closed_execute_step step c run ctx outputs : Φ _ (execute_step step c run ctx outputs).
Proof. unfold execute_step. cbv zeta. repeat closed_step. Qed.

Lemma closed_execute_steps ss i c run ctx start outputs tr :
  Φ _ (execute_steps ss i c run ctx start outputs tr).
Proof.
  revert i outputs tr. induction ss as [|step ss IH]; intros i outputs tr; cbn [execute_steps]; [apply closed_ret|].
  destruct (i <? start); [apply IH|]. apply closed_bind; [apply closed_execute_step|].
  intros [[]|]; first [apply IH|apply closed_ret].
Qed.

Lemma closed_execute_run c run def ctx : Φ _ (execute_run c run def ctx).
Proof. pose proof closed_execute_steps. unfold execute_run, run_steps. repeat closed_step. Qed.

Lemma closed_execute_from_step c run def ctx start outputs :
  Φ _ (execute_from_step c run def ctx start outputs).
Proof. pose proof closed_execute_steps. unfold execute_from_step, run_steps. repeat closed_step. Qed.

Lemma closed_persist c run step_index request tr : Φ _ (persist_approval_request c run step_index request tr).
Proof. unfold persist_approval_request, resolve_approval_targets. cbv zeta. repeat closed_step. Qed.

Lemma closed_finalize_run c run res prefix : Φ _ (finalize_run c run res prefix).
Proof. pose proof closed_persist. unfold finalize_run. cbv zeta. repeat closed_step. Qed.

Lemma closed_resume c workflow run step_index token :
  Φ _ (execute_claimed_approval_resume c workflow run step_index token).
Proof.
  pose proof closed_execute_from_step. pose proof closed_finalize_run.
  unfold execute_claimed_approval_resume, fail_claimed_resume. cbv zeta. repeat closed_step.
Qed.

Lemma closed_run_task t : Φ _ (run_task t).
Proof.
  pose proof closed_execute_run. pose proof closed_execute_from_step. pose proof closed_finalize_run.
  pose proof closed_resume. destruct t; cbn [run_task]; unfold resume_granted_approval; repeat closed_step.
Qed.

Lemma closed_on_event c event : Φ _ (on_event c event).
Proof.
  unfold on_event, cached_workflows, fire_on_event, should_fire_workflow, check_owner_authority. cbv zeta.
  repeat closed_step.
Qed.

Lemma closed_run rounds locked : Φ _ (run rounds locked).
Proof.
  assert (Φ _ (maintain_approvals locked)) by (unfold maintain_approvals; repeat closed_step).
  assert (Φ _ tick).
  { unfold tick, fire_on_tick, claim_and_start, interval_anchor, check_owner_authority. cbv zeta.
    repeat closed_step. }
  unfold run. apply closed_bind; [done|]. intros _. induction rounds; cbn [run_loop]; repeat closed_step.
Qed.

Lemma closed_handle_approval status c token who note : Φ _ (handle_approval status c token who note).
Proof. unfold handle_approval. repeat closed_step. Qed.

Lemma closed_handle_workflow_trigger c workflow who event : Φ _ (handle_workflow_trigger c workflow who event).
Proof. unfold handle_workflow_trigger, check_owner_authority. cbv zeta. repeat closed_step. Qed.
End closed.

(** ** Computations that respect a relation on worlds *)

(** A relation that a computation extends whatever happens. *)
Definition respects (R : World → World → Prop) (A : Type) (m : M A) : Prop :=
  ∀ env w, R w (m env w).2.

Section respects.
Context (R : World → World → Prop) `{!PreOrder R}.

Lemma respects_bind {A B} (m : M A) (k : A → M B) :
  respects R A m → (∀ a, respects R B (k a)) → respects R B (m ≫= k).
Proof.
  intros Hm Hk env w. specialize (Hm env w). unfold mbind, M_bind.
  destruct (m env w) as [[a|c] w']; [|done]. etrans; [exact Hm|apply Hk].
Qed.

Context (R_same : ∀ w w', db w' = db w → log w' = log w → R w w').
Context (R_other : ∀ st w, R w (other_stmt w st)).

Lemma respects_call {A} (c : Call A) :
  (∀ a w, R w (with_event (EvCall c a) w)) → respects R A (call c).
Proof.
  intros Hc env w. assert (R w (tick_call w)) by by apply R_same.
  unfold call. destruct (effective _ _) as [[cut []]|]; cbn [snd]; try done; by etrans.
Qed.

Lemma respects_stmt {A} (q : Query A) : (∀ now w, R w (own_stmt q now w)) → respects R _ (stmt q).
Proof.
  intros R_own env w. unfold stmt. cbv zeta.
  assert (R w (foldl other_stmt (tick_call w) (env_others env (calls w)))) as H1.
  { generalize (env_others env (calls w)). intros l. trans (tick_call w); [by apply R_same|]. generalize (tick_call w).
    induction l as [|st l IH]; intros w1; cbn; [done|]. etrans; [apply R_other|apply IH]. }
  set (w1 := foldl _ _ _) in *. assert (R w (own_stmt q (env_now env (calls w)) w1)) as H2 by (etrans; [done|by apply R_own]).
  destruct (effective w1 _) as [[cut []]|]; [done..|]. destruct (env_fault _ _) as [[e []]|]; done.
Qed.

Lemma respects_with_timeout {A} (m : M A) : respects R A m → respects R _ (with_timeout m).
Proof.
  intros Hm env w. unfold with_timeout. specialize (Hm env (with_timed true w)).
  assert (R w (m env (with_timed true w)).2) as H by (etrans; [|exact Hm]; by apply R_same).
  destruct (m env (with_timed true w)) as [[a|[]] w']; cbn [snd] in *; try done; (etrans; [exact H|by apply R_same]).
Qed.

Lemma respects_protect {A} (m : M A) :
  (∀ a w, R w (with_event (EvCall CVerifyFence a) w)) → respects R A m → respects R _ (protect m).
Proof.
  intros Hv Hm. apply respects_bind; [by apply respects_call|]. intros [[]|e]; [|by intros env w].
  apply respects_bind.
  - intros env w. specialize (Hm env (with_protected true w)).
    assert (R w (m env (with_protected true w)).2) as H by (etrans; [|exact Hm]; by apply R_same).
    destruct (m env (with_protected true w)) as [[a|[]] w']; cbn [snd] in *; try done; (etrans; [exact H|by apply R_same]).
  - intros [a|]; [|by intros env w]. apply respects_bind; [by apply respects_call|]. intros v. by intros env w.
Qed.

Lemma respects_closed :
  (∀ A (q : Query A) now w, engine_query q = true → R w (own_stmt q now w)) →
  (∀ A (c : Call A) a w, effect c = false → R w (with_event (EvCall c a) w)) → Closed (respects R).
Proof.
  intros Hown Hcall. split.
  - by intros A a env w.
  - intros. by apply respects_bind.
  - intros. apply respects_call. auto.
  - intros. apply respects_stmt. auto.
  - intros f Hf env w. apply R_same; apply Hf.
  - by intros env w.
  - intros. by apply respects_with_timeout.
  - intros. apply respects_protect; [|done]. intros. by apply Hcall.
Qed.
End respects.

(** ** The engine as a source of statements *)

(** What the relay and its tasks call. *)
Inductive Activity : Type :=
| AEvent (c : Uuid) (event : StoredEvent)
| ATask (t : Task)
| AClock (rounds : nat) (locked : gset (Uuid * Bytes))
| ADecide (status : ApprovalStatus) (c : Uuid) (token who : Bytes) (note : option string)
| ATrigger (c workflow : Uuid) (who : Bytes) (event : Nostr.Event).

Definition perform_activity (a : Activity) : M unit :=
  match a with
  | AEvent c event => _ ← on_event c event; mret tt
  | ATask t => run_task t
  | AClock rounds locked => run rounds locked
  | ADecide status c token who note => _ ← handle_approval status c token who note; mret tt
  | ATrigger c workflow who event => _ ← handle_workflow_trigger c workflow who event; mret tt
  end.

Lemma closed_activity (Φ : ∀ A : Type, M A → Prop) `{!Closed Φ} a :
  (∀ step action c run ctx, Φ _ (dispatch_action step action c run ctx)) → Φ _ (perform_activity a).
Proof.
  intros Hd. destruct a; cbn [perform_activity].
  - apply closed_bind; [by apply closed_on_event|]. intros. apply closed_ret.
  - by apply closed_run_task.
  - by apply closed_run.
  - apply closed_bind; [by apply closed_handle_approval|]. intros. apply closed_ret.
  - apply closed_bind; [by apply closed_handle_workflow_trigger|]. intros. apply closed_ret.
Qed.

Definition statements (l : list LogEntry) : list entry :=
  omap (λ e, match e with
             | EvStmt q now res | EvOther q now res => Some (Entry q now res)
             | EvCall _ _ => None
             end) l.

Definition by_engine (e : LogEntry) : Prop :=
  match e with
  | EvStmt q _ _ => engine_query q = true
  | EvOther _ _ _ | EvCall _ _ => True
  end.

(** The log grows by statements that take the tables from one world to the other. *)
Definition logged (w w' : World) : Prop :=
  ∃ new, log w' = log w ++ new ∧ history (db w) (statements new) (db w') ∧ Forall by_engine new.

#[local] Instance logged_preorder : PreOrder logged.
Proof.
  split.
  - intros w. exists []. by rewrite app_nil_r.
  - intros w1 w2 w3 (l1 & E1 & H1 & O1) (l2 & E2 & H2 & O2). exists (l1 ++ l2). split_and!.
    + by rewrite E2, E1, app_assoc.
    + unfold statements. rewrite omap_app. apply history_app. eauto.
    + by apply Forall_app.
Qed.

Lemma logged_same w w' : log w' = log w → db w' = db w → logged w w'.
Proof. intros Hl Hd. exists []. by rewrite app_nil_r, Hd. Qed.

Lemma logged_stmt {A} (q : Query A) now w : engine_query q = true → logged w (own_stmt q now w).
Proof.
  intros Hq. unfold own_stmt. destruct (exec q now (db w)) as [res d] eqn:He.
  exists [EvStmt q now res]. split_and!; [done|by exists d|by constructor].
Qed.

Lemma logged_other st w : logged w (other_stmt w st).
Proof.
  destruct st as [A q now]. unfold other_stmt. destruct (exec q now (db w)) as [res d] eqn:He.
  exists [EvOther q now res]. split_and!; [done|by exists d|by constructor].
Qed.

Lemma logged_call {A} (c : Call A) a w : logged w (with_event (EvCall c a) w).
Proof. exists [EvCall c a]. split_and!; [done..|by constructor]. Qed.

#[global] Instance logged_closed : Closed (respects logged).
Proof.
  apply respects_closed; [apply _|intros; by apply logged_same|apply logged_other|intros; by apply logged_stmt|].
  intros. apply logged_call.
Qed.

End engine.
