(* ===== verification/WorkflowFence.v ===== *)
(** * WorkflowFence: what a run does to the outside

A run acts on the world by posting messages and reactions and by web requests.
A monitor reads the log of calls and is breached by an effect outside the
community's write fence; no computation of the engine breaches it. *)
From S2P Require Import Prelude Text Encode Network Nostr Json Kind Scope WorkflowDef WorkflowText WorkflowStore WorkflowStoreProps WorkflowRun WorkflowExec WorkflowEngine WorkflowRunProps.

Local Open Scope nat_scope.

Section fence.
Context {JC : JsonCrate} {VT : ValueText} {EV : Evalexpr} {HO : HashOrder} {CC : CronCrate}
        {PC : PgCrates} {UT : UuidText} {EC : EngineCrates} {WC : WorkflowConfig} {NT : NostrTags}.

(** ** The monitor *)

(** The runs [own c run] whose reading opens the fence. *)
Context (own : Uuid → Uuid → bool).

(** How far an action has come: the community's fence is acquired, verified,
verified again as the protected section begins, and the run of that community
was read as running. *)
Inductive Fence : Type :=
| Shut
| Acquired (c : Uuid)
| Verified (c : Uuid)
| Guarded (c : Uuid)
| Open (c : Uuid)
| Breached.

Definition fence_call (f : Fence) {A : Type} (call : Call A) : A → Fence :=
  match call with
  | CAcquireFence c _ => λ r, match r with Ok _ => Acquired c | Err _ => Shut end
  | CVerifyFence => λ r,
      match f, r with
      | Acquired c, Ok _ => Verified c
      | Verified c, Ok _ => Guarded c
      | _, _ => Shut
      end
  | CFinishFence => λ _, Shut
  | CSendMessage c _ _ _ _ _ => λ _,
      match f with Open c' => if bool_decide (c = c') then f else Breached | _ => Breached end
  | CPostReaction _ _ => λ _, match f with Open _ => f | _ => Breached end
  | CHttp ip _ _ _ _ _ => λ _,
      match f with Open _ => if is_private_ip ip then Breached else f | _ => Breached end
  | _ => λ _, f
  end.

Definition fence_stmt (f : Fence) {A : Type} (q : Query A) : result A DbError → Fence :=
  match q with
  | QGetRun c run => λ r,
      match f, r with
      | Guarded c', Ok row => if bool_decide (c = c' ∧ r_status row = Running) && own c run then Open c else f
      | _, _ => f
      end
  | _ => λ _, f
  end.

Definition fence_step (f : Fence) (e : LogEntry) : Fence :=
  match f, e with
  | Breached, _ => Breached
  | _, EvCall call a => fence_call f call a
  | _, EvStmt q _ res => fence_stmt f q res
  | _, EvOther _ _ _ => f
  end.

Definition fence (l : list LogEntry) : Fence := foldl fence_step Shut l.

Lemma fence_event e w : fence (log (with_event e w)) = fence_step (fence (log w)) e.
Proof. unfold fence. cbn. by rewrite foldl_app. Qed.

(** ** Triples about the fence *)

Definition fenced (P : Fence → Prop) (w : World) : Prop := fence (log w) ≠ Breached ∧ P (fence (log w)).

Definition ftriple {A : Type} (P : Fence → Prop) (m : M A) (Q : A → Fence → Prop) : Prop :=
  triple (fenced P) m (λ a, fenced (Q a)) (fenced (λ _, True)).

Lemma ftriple_ret {A} P (a : A) (Q : A → Fence → Prop) : (∀ f, P f → Q a f) → ftriple P (mret a) Q.
Proof. intros H. apply triple_ret. intros w [? ?]. split; auto. Qed.

Lemma ftriple_bind {A B} P (m : M A) (k : A → M B) R Q :
  ftriple P m R → (∀ a, ftriple (R a) (k a) Q) → ftriple P (m ≫= k) Q.
Proof. apply triple_bind. Qed.

Lemma ftriple_call {A} P (c : Call A) (Q : A → Fence → Prop) :
  (∀ f a, f ≠ Breached → P f → fence_call f c a ≠ Breached ∧ Q a (fence_call f c a)) → ftriple P (call c) Q.
Proof.
  intros H env w [Hs HP]. unfold call.
  assert (∀ a, fenced (Q a) (with_event (EvCall c a) (tick_call w))) as Ha.
  { intros a. unfold fenced. rewrite fence_event. cbn [log tick_call]. unfold fence_step.
    destruct (fence (log w)) eqn:Hf; first [by apply H|congruence]. }
  destruct (effective _ _) as [[cut []]|]; [|done|done]. split; [apply Ha|done].
Qed.

Lemma fence_others l w : fence (log (foldl other_stmt w l)) = fence (log w).
Proof.
  revert w. induction l as [|[A q now] l IH]; intros w; cbn; [done|]. rewrite IH.
  destruct (exec q now (db w)) as [res d]. rewrite fence_event. cbn [log with_db]. by destruct (fence (log w)).
Qed.

Lemma ftriple_stmt {A} P (q : Query A) (Q : result A DbError → Fence → Prop) :
  (∀ f res, f ≠ Breached → P f → fence_stmt f q res ≠ Breached ∧ Q res (fence_stmt f q res)
     ∧ ∀ e, Q (Err e) f ∧ Q (Err e) (fence_stmt f q res)) → ftriple P (stmt q) Q.
Proof.
  intros H env w [Hs HP]. unfold stmt. cbv zeta.
  set (w1 := foldl _ _ _). assert (fence (log w1) = fence (log w)) as Hf by (unfold w1; by rewrite fence_others).
  clearbody w1. set (now := env_now _ _). unfold own_stmt. destruct (exec q now (db w1)) as [res d]. cbn [fst].
  rewrite <-Hf in Hs, HP. destruct (H _ res Hs HP) as (Hb & Hq & He).
  set (w2 := with_event _ _). assert (fence (log w2) = fence_stmt (fence (log w1)) q res) as Hw2.
  { unfold w2. rewrite fence_event. cbn [log with_db]. by destruct (fence (log w1)). }
  clearbody w2. destruct (effective w1 _) as [[cut []]|].
  1,2: by rewrite <-?Hw2 in *.
  destruct (env_fault _ _) as [[e []]|]; split; rewrite ?Hw2; first [done|apply He].
Qed.

(** ** Actions *)

(** A computation inside an open fence that leaves it open. *)
Definition keeps {A : Type} (c : Uuid) (m : M A) : Prop := ftriple (eq (Open c)) m (λ _, eq (Open c)).

Lemma fence_keeps_ret {A} c (a : A) : keeps c (mret a).
Proof. by apply ftriple_ret. Qed.

Lemma fence_keeps_bind {A B} c (φ : A → Prop) (m : M A) (k : A → M B) :
  (∀ env w a w', m env w = (Done a, w') → φ a) → keeps c m → (∀ a, φ a → keeps c (k a)) → keeps c (m ≫= k).
Proof.
  intros Hφ Hm Hk env w Hw. specialize (Hm env w Hw). unfold mbind, M_bind.
  destruct (m env w) as [[a|cut] w'] eqn:E; [|done]. exact (Hk a (Hφ _ _ _ _ E) env w' Hm).
Qed.

Lemma keeps_call {A} c (d : Call A) : (∀ a, fence_call (Open c) d a = Open c) → keeps c (call d).
Proof. intros H. apply ftriple_call. intros f a _ <-. by rewrite H. Qed.

Lemma fence_keeps_stmt {A} c (q : Query A) : keeps c (stmt q).
Proof. apply ftriple_stmt. intros f res _ <-. by destruct q. Qed.

Ltac keeps_step :=
  match goal with
  | |- keeps _ (mret _) => apply fence_keeps_ret
  | |- keeps _ (lift _) => apply fence_keeps_ret
  | |- keeps _ (throw _) => apply fence_keeps_ret
  | |- keeps _ (call _) => apply keeps_call; intros; cbn; try done
  | |- keeps _ (stmt _) => apply fence_keeps_stmt
  | |- keeps _ (try_bind _ _) => apply (fence_keeps_bind _ (λ _, True)); [done| |intros [?|?] _; [|apply fence_keeps_ret]]
  | |- keeps _ (map_err_m _ _) => apply (fence_keeps_bind _ (λ _, True)); [done| |intros ? _; apply fence_keeps_ret]
  | |- keeps _ (_ ≫= _) => apply (fence_keeps_bind _ (λ _, True)); [done| |intros ? _]
  | |- keeps _ (if ?b then _ else _) => destruct b
  | |- keeps _ (match ?e with _ => _ end) => destruct e
  end.

(** The address a host is pinned to is not private. *)
Lemma check_ssrf_safe host port env w ip w' :
  check_ssrf host port env w = (Done (Ok ip), w') → is_private_ip ip = false.
Proof.
  unfold check_ssrf, try_bind, map_err_m, mbind, M_bind.
  destruct (call _ env w) as [[[addrs|e]|cut] w1]; cbn; [|done..].
  destruct addrs as [|ip' addrs]; [done|]. destruct (List.find _ _) eqn:Hf; [done|].
  intros [= -> _]. apply (List.find_none _ _ Hf). by left.
Qed.

Lemma keeps_webhook c url method headers body : keeps c (call_webhook_impl url method headers body).
Proof.
  unfold call_webhook_impl. do 2 (keeps_step; [keeps_step|]). cbv zeta.
  apply (fence_keeps_bind _ (λ r, ∀ ip, r = Ok ip → is_private_ip ip = false)).
  - intros env w r w' H ip ->. by eapply check_ssrf_safe.
  - unfold check_ssrf. repeat keeps_step.
  - intros [ip|e] Hip; [|apply fence_keeps_ret]. specialize (Hip ip eq_refl). repeat keeps_step. by rewrite Hip.
Qed.

Lemma keeps_perform step action c run ctx : keeps c (perform step action c run ctx).
Proof.
  destruct action; cbn [perform]; unfold send_message_action, add_reaction_impl, generate_approval_token;
    repeat first [keeps_step|apply keeps_webhook].
  by rewrite bool_decide_true.
Qed.

Lemma ftriple_try {A B E} P (m : M (result A E)) (k : A → M (result B E)) (R : A → Fence → Prop) :
  ftriple P m (λ r f, ∀ a, r = Ok a → R a f) → (∀ a, ftriple (R a) (k a) (λ _ _, True)) →
  ftriple P (try_bind m k) (λ _ _, True).
Proof.
  intros Hm Hk. eapply ftriple_bind; [exact Hm|]. intros [a|e]; [|by apply ftriple_ret].
  eapply triple_weaken; [apply (Hk a)| |done..]. intros w [? Hf]. split; [done|by apply (Hf a)].
Qed.

Lemma ftriple_map_err {A E F} P (g : E → F) (m : M (result A E)) (R : A → Fence → Prop) :
  ftriple P m (λ r f, ∀ a, r = Ok a → R a f) → ftriple P (map_err_m g m) (λ r f, ∀ a, r = Ok a → R a f).
Proof.
  intros Hm. eapply ftriple_bind; [exact Hm|]. intros [a|e]; apply ftriple_ret; [|done].
  intros f Hf b [= <-]. by apply Hf.
Qed.

Lemma ftriple_any {A} P (m : M A) Q : ftriple P m Q → ftriple P m (λ _ _, True).
Proof. intros Hm. eapply triple_weaken; [exact Hm|done| |done]. by intros a w [? _]. Qed.

Lemma ftriple_protect {A} c (m : M A) :
  ftriple (eq (Guarded c)) m (λ _ _, True) → ftriple (eq (Verified c)) (protect m) (λ _ _, True).
Proof.
  intros Hm. unfold protect.
  assert (∀ P Q, (∀ f a, P f → Q a (fence_call f CVerifyFence a)) → ftriple P (call CVerifyFence) Q) as Hv.
  { intros P Q HQ. apply ftriple_call. intros f a Hf HP. split; [|by apply HQ]. cbn. by destruct f, a. }
  eapply (ftriple_bind _ _ _ (λ r f, ∀ u, r = Ok u → f = Guarded c)).
  { apply Hv. by intros f [u|e] <- u' [=]. }
  intros [u|e]; [|by apply ftriple_ret]. eapply (ftriple_bind _ _ _ (λ _ _, True)).
  - intros env w [Hs Hf]. assert (fenced (eq (Guarded c)) (with_protected true w)) as Hw.
    { split; [done|]. symmetry. by apply (Hf u). }
    specialize (Hm env _ Hw). by destruct (m env (with_protected true w)) as [[a|[]] w'].
  - intros [a|]; [|by apply ftriple_ret]. eapply (ftriple_bind _ _ _ (λ _ _, True)); [by apply Hv|].
    intros r. by apply ftriple_ret.
Qed.

Lemma ftriple_dispatch step action c run ctx : own c run = true →
  ftriple (λ _, True) (dispatch_action step action c run ctx) (λ _ _, True).
Proof.
  intros Hown. unfold dispatch_action. eapply (ftriple_try _ _ _ (λ _, eq (Acquired c))).
  { apply ftriple_map_err, ftriple_call. intros f [u|e] _ _; by cbn. }
  intros _. eapply (ftriple_try _ _ _ (λ _, eq (Verified c))).
  { apply ftriple_map_err, ftriple_call. intros f [u|e] _ <-; by cbn. }
  intros _. eapply (ftriple_try _ _ _ (λ _ _, True)).
  - apply ftriple_map_err. eapply triple_weaken; [apply ftriple_protect|done|by intros ?? [? _]|done].
    eapply (ftriple_try _ _ _ (λ row, eq (if bool_decide (r_status row = Running) then Open c else Guarded c))).
    { apply ftriple_map_err, ftriple_stmt. intros f res _ <-. split_and!; [cbn; by repeat case_match| |done].
      intros row ->. cbn. rewrite Hown, andb_true_r. repeat case_bool_decide; naive_solver. }
    intros row. destruct (decide (r_status row = Running)) as [Hr|Hr].
    + rewrite (bool_decide_true (_ = _)), (bool_decide_false (_ ≠ _)) by auto. eapply ftriple_any, keeps_perform.
    + rewrite (bool_decide_true (_ ≠ _)) by done. by apply ftriple_ret.
  - intros result. eapply (ftriple_bind _ _ _ (λ _ _, True)).
    { eapply ftriple_bind; [|intros; by apply ftriple_ret]. by apply (ftriple_call _ _ (λ _ _, True)). }
    intros release. destruct result, release; by apply ftriple_ret.
Qed.

(** ** Every computation *)

Definition unbreached (w w' : World) : Prop := fence (log w) ≠ Breached → fence (log w') ≠ Breached.

#[local] Instance unbreached_preorder : PreOrder unbreached.
Proof. unfold unbreached. split; red; auto. Qed.

Lemma unbreached_closed : Closed (respects unbreached).
Proof.
  apply respects_closed; [apply _| | | |]; unfold unbreached.
  - by intros w w' _ ->.
  - intros st w. pose proof (fence_others [st] w) as H. cbn in H. by rewrite H.
  - intros A q now w _. unfold own_stmt. destruct (exec q now (db w)) as [res d]. rewrite fence_event.
    cbn [log with_db]. destruct (fence (log w)); try done; destruct q; try done; cbn; repeat case_match; congruence.
  - intros A c a w Hc. rewrite fence_event. destruct (fence (log w)), c; cbn; try done; by destruct a.
Qed.

Lemma dispatch_unbreached step action c run ctx env w : own c run = true →
  fence (log w) ≠ Breached → fence (log (dispatch_action step action c run ctx env w).2) ≠ Breached.
Proof.
  intros Hown Hw. pose proof (ftriple_dispatch step action c run ctx Hown env w) as H.
  destruct (dispatch_action _ _ _ _ _ env w) as [[r|cut] w2]; by apply H.
Qed.

End fence.

(** A monitor for every run, and one for a single run. *)
Definition any_run (c run : Uuid) : bool := true.
Definition only_run (c0 run0 c run : Uuid) : bool := bool_decide (c = c0 ∧ run = run0).

(** C9. A run acts on the outside only within its community's write fence.
Whatever the engine does and wherever it is dropped, a message is sent, a reaction
posted or a web request made only after the fence of a community was acquired,
verified, verified again on entering the protected section, and a run of that
community then read as running; and what one action of a run does, whatever came
before, it does after that very run was read as running.  A message goes to the
community of the fence.  The web request of a webhook goes to a resolved address
that is not private; a reaction is posted to the relay's configured base URL, whose
address is not tested. *)
Theorem effects_are_fenced {JC : JsonCrate} {VT : ValueText} {EV : Evalexpr} {HO : HashOrder} {CC : CronCrate}
    {PC : PgCrates} {UT : UuidText} {EC : EngineCrates} {WC : WorkflowConfig} {NT : NostrTags} (env : Env) (w : World) :
  (∀ a, fence any_run (log w) ≠ Breached → fence any_run (log (perform_activity a env w).2) ≠ Breached)
  ∧ ∀ step action c run ctx, fence (only_run c run) (log w) ≠ Breached →
      fence (only_run c run) (log (dispatch_action step action c run ctx env w).2) ≠ Breached.
Proof.
  split.
  - intros a. pose proof (unbreached_closed any_run). apply (closed_activity (respects (unbreached any_run))).
    intros step action c run ctx env' w' Hw. by apply dispatch_unbreached.
  - intros step action c run ctx. apply dispatch_unbreached. by apply bool_decide_eq_true.
Qed.
