(* ===== verification/WorkflowRest.v ===== *)
(** * WorkflowRest: runs come to rest, and resume

Total triples: where nothing fails to answer and no future is dropped, a
computation of the engine ends, and so a task leaves its run ended, or waiting
for an approval. *)
From S2P Require Import Prelude Text Encode Network Nostr Json Kind Scope WorkflowDef WorkflowText WorkflowStore WorkflowStoreProps WorkflowRun WorkflowExec WorkflowEngine WorkflowRunProps.

Local Open Scope nat_scope.

Section rest.
Context {JC : JsonCrate} {VT : ValueText} {EV : Evalexpr} {HO : HashOrder} {CC : CronCrate}
        {PC : PgCrates} {UT : UuidText} {EC : EngineCrates} {WC : WorkflowConfig} {NT : NostrTags}.

(** No connection fails and no future is dropped; the calls answer as they
like, and other processes commit what they like. *)
Definition calm (env : Env) : Prop := ∀ n, env_fault env n = None ∧ env_cut env n = None.

(** The community whose run it is: its writes stay unfenced. *)
Context (c run : Uuid).

Definition unfenced (w : World) : Prop := c ∉ write_closed (db w).

(** ** Total triples *)

Definition total {A : Type} (P : World → Prop) (m : M A) (Q : A → World → Prop) : Prop :=
  ∀ env w, calm env → unfenced w → P w → ∃ a w', m env w = (Done a, w') ∧ unfenced w' ∧ Q a w'.

(** What later calls cannot undo. *)
Definition lasting (P : World → Prop) : Prop := ∀ w A (d : Call A) a, P w → P (with_event (EvCall d a) (tick_call w)).

Lemma total_weaken {A} (P P' : World → Prop) (m : M A) (Q Q' : A → World → Prop) :
  total P m Q → (∀ w, P' w → P w) → (∀ a w, Q a w → Q' a w) → total P' m Q'.
Proof. intros H HP HQ env w Hc Hu Hw. destruct (H env w Hc Hu (HP _ Hw)) as (a & w' & E & Hu' & Ha). eauto 10. Qed.

Lemma total_ret {A} (P : World → Prop) (a : A) (Q : A → World → Prop) : (∀ w, P w → Q a w) → total P (mret a) Q.
Proof. intros H env w _ Hu Hw. exists a, w. auto. Qed.

Lemma total_bind {A B} P (m : M A) (k : A → M B) R Q :
  total P m R → (∀ a, total (R a) (k a) Q) → total P (m ≫= k) Q.
Proof.
  intros Hm Hk env w Hc Hu Hw. destruct (Hm env w Hc Hu Hw) as (a & w1 & E & Hu1 & Ha).
  unfold mbind, M_bind. rewrite E. by apply Hk.
Qed.

Lemma total_call {A} P (d : Call A) : lasting P → total P (call d) (λ _, P).
Proof.
  intros HP env w Hc Hu Hw. set (a := env_call env A (calls w) d). exists a, (with_event (EvCall d a) (tick_call w)).
  unfold call. cbv zeta. destruct (Hc (calls w)) as [_ Hcut]. rewrite Hcut. auto.
Qed.

Lemma unfenced_other st w : unfenced w → unfenced (other_stmt w st).
Proof.
  destruct st as [B q now]. unfold unfenced, other_stmt. pose proof (exec_write_closed q now (db w)) as H.
  destruct (exec q now (db w)) as [res d]. cbn in *. by rewrite H.
Qed.

Lemma total_stmt {A} P (q : Query A) (Q : result A DbError → World → Prop) :
  (∀ now w, unfenced w → Q (exec q now (db w)).1 (own_stmt q now w)) → total P (stmt q) Q.
Proof.
  intros H env w Hc Hu _. unfold stmt. cbv zeta. destruct (Hc (calls w)) as [-> ->]. unfold effective.
  set (w1 := foldl _ _ _). set (now := env_now env (calls w)).
  assert (unfenced w1) as Hu1.
  { unfold w1. assert (unfenced (tick_call w)) as Ht by done. clear -Ht. revert Ht. generalize (tick_call w) as v.
    induction (env_others env (calls w)) as [|st l IH]; intros v Hv; cbn; [done|]. by apply IH, unfenced_other. }
  exists (exec q now (db w1)).1, (own_stmt q now w1). split; [done|]. split; [|by apply H].
  unfold unfenced, own_stmt. pose proof (exec_write_closed q now (db w1)) as He.
  destruct (exec q now (db w1)) as [res d]. cbn in *. by rewrite He.
Qed.

(** A computation does not see the scope it runs in when nothing is dropped. *)
Lemma total_timeout {A} (m : M A) : total (λ _, True) m (λ _ _, True) → total (λ _, True) (with_timeout m) (λ _ _, True).
Proof.
  intros Hm env w Hc Hu _. destruct (Hm env (with_timed true w) Hc Hu I) as (a & w' & E & Hu' & _). unfold with_timeout.
  rewrite E. by exists (Some a), (with_timed (timed w) w').
Qed.

Lemma total_protect {A} P (m : M A) (Q : A → World → Prop) :
  lasting P → (∀ a, lasting (Q a)) → (∀ w b, P w → P (with_protected b w)) → (∀ a w b, Q a w → Q a (with_protected b w)) →
  total P m Q → total P (protect m) (λ r w, ∀ a, r = Ok a → Q a w).
Proof.
  intros HP HQ HPb HQb Hm. unfold protect. eapply total_bind; [by apply total_call|]. intros [u|e]; [|by apply total_ret].
  eapply (total_bind _ _ _ (λ o w, ∀ a, o = Some a → Q a w)).
  - intros env w Hc Hu Hw. destruct (Hm env (with_protected true w) Hc Hu (HPb _ _ Hw)) as (a & w' & -> & Hu' & Ha).
    exists (Some a), (with_protected (protected w) w'). split; [done|]. split; [done|]. intros a' [= <-]. by apply HQb.
  - intros [a|]; [|by apply total_ret]. eapply total_bind.
    + apply (total_call (λ w, ∀ a', Some a = Some a' → Q a' w)). intros w B d x Hw a' Ha. by apply HQ, Hw.
    + intros [v|e]; apply total_ret; [|done]. intros w Hw a' [= <-]. by apply Hw.
Qed.

(** ** Every computation of the engine ends *)

Definition completes (A : Type) (m : M A) : Prop := total (λ _, True) m (λ _ _, True).

Lemma completes_call {A} (d : Call A) : completes A (call d).
Proof. eapply total_weaken; [by apply (total_call (λ _, True))|done..]. Qed.

#[local] Instance completes_closed : Closed completes.
Proof.
  split; unfold completes; intros.
  - by apply total_ret.
  - eapply total_bind; eauto.
  - by apply completes_call.
  - by apply total_stmt.
  - intros env w Hc Hu _. exists tt, (f w). split; [done|]. split; [|done].
    unfold unfenced. match goal with H : bookkeeping f |- _ => destruct (H w) as [-> _] end. done.
  - intros env w _ Hu _. by exists w, w.
  - by apply total_timeout.
  - eapply total_weaken; [by apply (total_protect (λ _, True) m (λ _ _, True))|done..].
Qed.

Lemma dispatch_completes step action c' run' ctx : completes _ (dispatch_action step action c' run' ctx).
Proof. apply closed_dispatch; [apply _|]. intros A d. apply completes_call. Qed.

(** ** Rest *)

Definition at_rest (row : option WorkflowRunRecord) : Prop :=
  match row with
  | None => True
  | Some r => terminal (r_status r) = true ∨ r_status r = WaitingApproval
  end.

(** The database refused to end the run: a text of its trace or of its failure
holds U+0000. *)
Definition refused (l : list LogEntry) : Prop :=
  ∃ status step tr failure now res, EvStmt (QUpdateRun c run status step tr failure) now res ∈ l
    ∧ terminal status = true ∧ sends_nul (QUpdateRun c run status step tr failure) = true.

Definition settled (w : World) : Prop := at_rest (runs (db w) !! (c, run)) ∨ refused (log w).

Lemma lasting_settled : lasting settled.
Proof.
  intros w A d a [Hr|(status & step & tr & failure & now & res & Hin & H)]; [by left|right].
  exists status, step, tr, failure, now, res. split; [|done]. cbn. set_solver.
Qed.

(** A task that ends with the run at rest, or refused its end. *)
Definition rests (m : M unit) : Prop := total (λ _, True) m (λ _, settled).

Lemma total_any {A} P (m : M A) Q : total (λ _, True) m Q → total P m Q.
Proof. intros H. by eapply total_weaken. Qed.

Lemma rests_bind {A} (m : M A) (k : A → M unit) : completes A m → (∀ a, rests (k a)) → rests (m ≫= k).
Proof. intros Hm Hk. eapply total_bind; [exact Hm|]. intros a. apply Hk. Qed.

Lemma update_run_rests now status step tr failure s :
  terminal status = true → at_rest (runs (update_workflow_run now c run status step tr failure s).2 !! (c, run)).
Proof.
  intros Ht. unfold update_workflow_run.
  pose proof (update_row_lookup (c, run) (c, run) (λ r, negb (terminal (r_status r)))
    (updated_run now status step tr failure) (runs s)) as Hl.
  pose proof (update_row_count (c, run) (λ r, negb (terminal (r_status r)))
    (updated_run now status step tr failure) (runs s)) as Hn.
  destruct (update_row _ _ _ _) as [n rs]. cbn [fst snd] in Hl, Hn. rewrite decide_True in Hl by done. subst n.
  destruct (runs s !! (c, run)) as [r|] eqn:Hr; cbn; [|by rewrite Hr].
  destruct (terminal (r_status r)) eqn:Hs; cbn; [rewrite Hr; by left|]. rewrite Hl. cbn. rewrite Hs. by left.
Qed.

Lemma rests_update status step tr failure :
  terminal status = true → rests (_ ← stmt (QUpdateRun c run status step tr failure); mret tt).
Proof.
  intros Ht. eapply (total_bind _ _ _ (λ _, settled)); [|intros r; by apply total_ret].
  apply total_stmt. intros now w Hu. destruct (sends_nul (QUpdateRun c run status step tr failure)) eqn:En.
  { right. unfold own_stmt. destruct (exec _ now (db w)) as [res d]. exists status, step, tr, failure, now, res.
    split; [cbn; set_solver|done]. }
  left. unfold own_stmt. rewrite exec_runs_statement; [|done|].
  - pose proof (update_run_rests now status step tr failure (db w) Ht) as Hr. cbn [exec_statement].
    by destruct (update_workflow_run _ _ _ _ _ _ _ _) as [res d].
  - intros c' Hc'. cbn in Hc'. destruct (is_ok _); [|set_solver]. by apply list_elem_of_singleton in Hc' as ->.
Qed.

Lemma total_try {A B E} (m : M (result A E)) (k : A → M (result B E)) (Q : B → World → Prop) :
  completes _ m → (∀ a, total (λ _, True) (k a) (λ r w, ∀ b, r = Ok b → Q b w)) →
  total (λ _, True) (try_bind m k) (λ r w, ∀ b, r = Ok b → Q b w).
Proof. intros Hm Hk. eapply total_bind; [exact Hm|]. intros [a|e]; [apply Hk|by apply total_ret]. Qed.

(** A request that was persisted leaves its run waiting. *)
Lemma persist_rests step_index request tr :
  total (λ _, True) (persist_approval_request c run step_index request tr) (λ r w, ∀ u, r = Ok u → settled w).
Proof.
  unfold persist_approval_request.
  apply total_try; [repeat closed_step|]. intros row.
  apply total_try; [repeat closed_step|]. intros workflow.
  destruct (approval_channel _ _) as [channel|]; [|by apply total_ret].
  apply total_try.
  { unfold resolve_approval_targets. cbv zeta. repeat closed_step. }
  intros keys. eapply total_bind; [by apply (total_call (λ _, True))|]. intros now. cbv zeta.
  apply total_try; [repeat closed_step|]. intros _.
  apply total_try; [repeat closed_step|]. intros _.
  set (params := mkParams _ _ _ _ _ _ _ _ _ _ _ _).
  eapply (total_bind _ _ _ (λ r w, ∀ p u, r = Ok (Ok p) → p = u → settled w)).
  - eapply total_bind.
    + apply (total_protect (λ _, True) _ (λ r w, r = Ok tt → settled w)); [done| |done..|].
      { intros a w B d x Hw Ha. by apply lasting_settled, Hw. }
      apply total_stmt. intros t w _ Hok. destruct (exec _ t (db w)) as [res s'] eqn:E. cbn [fst] in Hok. subst res.
      unfold own_stmt. rewrite E. apply exec_answers_ok in E. cbn [exec_statement] in E.
      apply create_approval_and_wait_eq in E as [[_ ?]|(r & _ & Hr & _ & _ & _ & ->)]; [done|]. left.
      cbn in Hr |- *. rewrite lookup_insert_eq. by right.
    + intros [[[]|e]|e]; apply total_ret; [|done..]. intros w Hw p u [= <-] _. by eapply Hw.
  - intros [[[]|e]|e]; apply total_ret; [|done..]. intros w Hw u _. by eapply Hw.
Qed.

Lemma finalize_rests res prefix : rests (finalize_run c run res prefix).
Proof.
  unfold finalize_run. cbv zeta. destruct res as [r|[e progress]]; [|by apply rests_update].
  destruct (approval r) as [request|]; [|by apply rests_update].
  eapply total_bind; [apply persist_rests|]. intros [u|[cd message]].
  - apply total_ret. intros w Hw. by eapply Hw.
  - by apply total_any, rests_update.
Qed.

(** C34. Runs come to rest, unless the database refuses a NUL.  In a community whose
writes are not fenced for its deletion, and where no connection fails and no
future is dropped, a task ends, whatever its steps do and whatever other processes
commit meanwhile.  The run it was started for, triggered for or resumed for, if its
row is still there, is then completed, failed or cancelled, or waits for an
approval; or the statement that was to end it carried a text with U+0000, which
[text] and [jsonb] do not take: the engine only logs that, and the run stays as it
was ([nul_output_leaves_run]). *)
Theorem runs_reach_rest (workflow : Uuid) (def : WorkflowDef) (definition : Value) (ctx : TriggerContext)
    (step_index : Z) (token : Bytes) :
  rests (run_task (TRun c run def ctx))
  ∧ rests (run_task (TTrigger c run definition ctx))
  ∧ rests (execute_claimed_approval_resume c workflow run step_index token).
Proof.
  pose proof dispatch_completes. split_and!; cbn [run_task].
  - apply rests_bind; [by apply (closed_execute_run completes)|]. intros. apply finalize_rests.
  - destruct (def_from_value definition); [|by apply rests_update].
    apply rests_bind; [by apply (closed_execute_from_step completes)|]. intros. apply finalize_rests.
  - unfold execute_claimed_approval_resume, fail_claimed_resume. cbv zeta.
    eapply (total_bind _ _ _ (λ r w, (∃ e, r = Err e) → settled w)).
    { apply total_stmt. intros now w _ [e He]. left. revert He. unfold own_stmt.
      rewrite exec_runs_statement by (done || by intros ? ?%elem_of_nil). cbn. by destruct (runs (db w) !! (c, run)). }
    intros [row|e]; [|by apply total_ret; eauto].
    apply total_any.
    case_bool_decide; [by apply rests_update|]. destruct (r_execution_trace row); try by apply rests_update.
    apply rests_bind; [by apply closed_stmt|]. intros [a|e]; [|by apply rests_update].
    case_bool_decide; [by apply rests_update|].
    destruct (a_workflow_definition a) as [d|]; [|by apply rests_update].
    destruct (def_from_value d); [|by apply rests_update].
    destruct (r_trigger_context row) as [v|]; [|by apply rests_update].
    destruct (ctx_from_value v); [|by apply rests_update].
    apply rests_bind; [by apply (closed_execute_from_step completes)|]. intros. apply finalize_rests.
Qed.

End rest.

(** * Resuming after an approval

A suspended run is resumed from its stored trace alone.  The trace holds the
outputs of the steps before the approval, and the approved trace those that the
steps after it see. *)

Section resume.
Context {JC : JsonCrate} {VT : ValueText} {EV : Evalexpr} {HO : HashOrder} {CC : CronCrate}
        {PC : PgCrates} {UT : UuidText} {EC : EngineCrates} {WC : WorkflowConfig}.

(** ** What a computation answers *)

Definition post {A : Type} (φ : A → Prop) (m : M A) : Prop :=
  ∀ env w a w', m env w = (Done a, w') → φ a.

Lemma post_ret {A} (φ : A → Prop) (a : A) : φ a → post φ (mret a).
Proof. by intros Ha env w b w' [= <- _]. Qed.

Lemma post_bind {A B} (ψ : A → Prop) (φ : B → Prop) (m : M A) (k : A → M B) :
  post ψ m → (∀ a, ψ a → post φ (k a)) → post φ (m ≫= k).
Proof.
  intros Hm Hk env w b w'. unfold mbind, M_bind. destruct (m env w) as [[a|cut] w1] eqn:E; [|done].
  apply (Hk a), (Hm _ _ _ _ E).
Qed.

Lemma post_any {A B} (φ : B → Prop) (m : M A) (k : A → M B) : (∀ a, post φ (k a)) → post φ (m ≫= k).
Proof. intros Hk. by apply (post_bind (λ _, True)). Qed.

Lemma post_try {A B E} (φ : result B E → Prop) (m : M (result A E)) (k : A → M (result B E)) :
  (∀ e, φ (Err e)) → (∀ a, post φ (k a)) → post φ (try_bind m k).
Proof. intros He Hk. apply post_any. intros [a|e]; [apply Hk|by apply post_ret]. Qed.

Lemma post_timeout {A} (φ : A → Prop) (m : M A) : post φ m → post (λ o, ∀ a, o = Some a → φ a) (with_timeout m).
Proof.
  intros Hm env w o w'. unfold with_timeout. destruct (m env (with_timed true w)) as [[a|[]] w1] eqn:E; intros [= <- _]; [|done].
  intros b [= <-]. by eapply Hm.
Qed.

Lemma post_protect {A} (φ : A → Prop) (m : M A) : post φ m → post (λ r, ∀ a, r = Ok a → φ a) (protect m).
Proof.
  intros Hm. apply post_any. intros [u|e]; [|by apply post_ret].
  apply (post_bind (λ o, ∀ a, o = Some a → φ a)).
  - intros env w o w'. destruct (m env (with_protected true w)) as [[a|[]] w1] eqn:E; intros [= <- _]; [|done].
    intros b [= <-]. by eapply Hm.
  - intros [a|] Ha; [|by apply post_ret]. apply post_any. intros [v|e]; apply post_ret; [|done].
    intros b [= <-]. by apply Ha.
Qed.

(** A suspension names the step that asked for it. *)
Definition names_step (step : Step) (r : result StepResult WorkflowError) : Prop :=
  match r with Ok (StepSuspended request) => req_step_id request = step_id step | _ => True end.

Ltac post_step :=
  match goal with
  | |- post _ (mret _) => by apply post_ret
  | |- post _ (lift _) => by apply post_ret
  | |- post _ (throw _) => by apply post_ret
  | |- post _ (try_bind _ _) => apply post_try; [done|intros ?]
  | |- post _ (_ ≫= _) => apply post_any; intros ?
  | |- post _ (if ?b then _ else _) => destruct b
  | |- post _ (match ?e with _ => _ end) => destruct e
  end.

Lemma perform_names step action c run ctx : post (names_step step) (perform step action c run ctx).
Proof.
  destruct action; cbn [perform]; unfold send_message_action; repeat post_step.
Qed.

Lemma execute_step_names step c run ctx outputs : post (names_step step) (execute_step step c run ctx outputs).
Proof.
  assert (∀ action, post (names_step step) (dispatch_action step action c run ctx)) as Hd.
  { intros action. unfold dispatch_action. do 2 post_step.
    apply (post_bind (λ r, ∀ a, r = Ok a → names_step step a)).
    - apply (post_bind (λ r, ∀ a, r = Ok a → names_step step a)); [apply post_protect|].
      + do 2 post_step; [post_step|apply perform_names].
      + intros [r|e] Hr; apply post_ret; [|done]. intros x [= <-]. by apply Hr.
    - intros [r|e] Hr; [|by apply post_ret]. apply post_any. intros release.
      specialize (Hr r eq_refl). destruct r, release; by apply post_ret. }
  unfold execute_step. cbv zeta.
  assert (post (names_step step) (try! resolved_action := lift (resolve_step_templates step ctx outputs) in
    dispatch_result ← with_timeout (dispatch_action step resolved_action c run ctx);
    match dispatch_result with
    | Some r => lift r
    | None => throw (StepTimeout (step_id step) (default default_timeout_secs (timeout_secs step)))
    end)) as Ht.
  { post_step. eapply post_bind; [by apply post_timeout|]. intros [r|] Hr; apply post_ret; [by apply Hr|done]. }
  destruct (if_expr step); [|done]. post_step. destruct (evaluate_condition _ _ _ _) as [[]|]; [done|by apply post_ret..].
Qed.

(** ** Traces *)

(** The entries of executed steps. *)
Definition trace_ok (ss : list Step) (tr : list Value) : Prop :=
  Forall2 (λ s e, e = skipped_entry (step_id s) ∨ ∃ output, e = completed_entry (step_id s) output) ss tr.

(** The outputs of entries, over earlier ones. *)
Definition add_output (outputs : gmap string Value) (entry : Value) : gmap string Value :=
  match value_get "step_id" entry, value_get "output" entry with
  | Some (VString id), Some output => <[id := output]> outputs
  | _, _ => outputs
  end.

Lemma outputs_of_trace_app tr tr' : outputs_of_trace (tr ++ tr') = foldl add_output (outputs_of_trace tr) tr'.
Proof. unfold outputs_of_trace. by rewrite foldl_app. Qed.

Lemma execute_steps_before pre ss i c run ctx start outputs tr :
  i + length pre ≤ start →
  execute_steps (pre ++ ss) i c run ctx start outputs tr
  = execute_steps ss (i + length pre) c run ctx start outputs tr.
Proof.
  revert i. induction pre as [|s pre IH]; intros i Hi; cbn in *; [by rewrite Nat.add_0_r|].
  replace (i <? start) with true by (symmetry; apply Nat.ltb_lt; lia). rewrite IH by lia. f_equal. lia.
Qed.

(** A run over steps extends the trace by their entries, and the outputs by
what the entries hold; a suspended one ends with the entry of its approval. *)
Lemma execute_steps_trace ss i c run ctx start outputs tr env w r w' :
  start ≤ i → execute_steps ss i c run ctx start outputs tr env w = (Done (Ok r), w') →
  match approval r with
  | None => ∃ mid, trace r = tr ++ mid ∧ trace_ok ss mid ∧ step_outputs r = foldl add_output outputs mid
  | Some request => ∃ ss1 s ss2 mid, ss = ss1 ++ s :: ss2 ∧ trace r = tr ++ mid ++ [waiting_entry (step_id s)]
      ∧ trace_ok ss1 mid ∧ step_outputs r = foldl add_output outputs mid
      ∧ step_index r = i + length ss1 ∧ req_step_id request = step_id s
  end.
Proof.
  revert i outputs tr env w. induction ss as [|s ss IH]; intros i outputs tr env w Hi; cbn [execute_steps].
  { intros [= <- _]. cbn. exists []. rewrite app_nil_r. split_and!; [done|constructor|done]. }
  replace (i <? start) with false by (symmetry; apply Nat.ltb_ge; lia).
  unfold mbind, M_bind. destruct (execute_step s c run ctx outputs env w) as [[res|cut] w1] eqn:E; [|done].
  pose proof (execute_step_names s c run ctx outputs env w res w1 E) as Hn.
  assert (∀ e outputs', (e = skipped_entry (step_id s) ∨ ∃ output, e = completed_entry (step_id s) output) →
    outputs' = add_output outputs e → execute_steps ss (S i) c run ctx start outputs' (tr ++ [e]) env w1 = (Done (Ok r), w') →
    match approval r with
    | None => ∃ mid, trace r = tr ++ mid ∧ trace_ok (s :: ss) mid ∧ step_outputs r = foldl add_output outputs mid
    | Some request => ∃ ss1 s' ss2 mid, s :: ss = ss1 ++ s' :: ss2 ∧ trace r = tr ++ mid ++ [waiting_entry (step_id s')]
        ∧ trace_ok ss1 mid ∧ step_outputs r = foldl add_output outputs mid
        ∧ step_index r = i + length ss1 ∧ req_step_id request = step_id s'
    end) as Hnext.
  { intros e outputs' He -> H. apply IH in H; [|lia]. destruct (approval r) as [request|].
    - destruct H as (ss1 & s' & ss2 & mid & -> & Ht & Hok & Ho & Hx & Hr). exists (s :: ss1), s', ss2, (e :: mid).
      rewrite Ht, <-app_assoc. split_and!; [done|done|by constructor|done|cbn; lia|done].
    - destruct H as (mid & Ht & Hok & Ho). exists (e :: mid). rewrite Ht, <-app_assoc.
      split_and!; [done|by constructor|done]. }
  destruct res as [[output|request|]|e]; [apply Hnext; [by eauto|done]| |apply Hnext; [by left|done]|done].
  intros [= <- _]. cbn. exists [], s, ss, []. split_and!; try done; cbn; first [lia|constructor].
Qed.

(** ** The approved trace *)

Lemma approve_other id id' e :
  e = skipped_entry id' ∨ (∃ output, e = completed_entry id' output) → id' ≠ id →
  jsonb_get_text "step_id" e ≠ Some id.
Proof.
  intros He Hne [=]. assert (jsonb_get_text "step_id" e = Some id') by by destruct He as [->|[output ->]]. congruence.
Qed.

Lemma approve_trace_app ss tr step :
  trace_ok ss tr → step_id step ∉ map step_id ss →
  approve_trace (step_id step) (Array (tr ++ [waiting_entry (step_id step)]))
  = Some (Array (tr ++ [completed_entry (step_id step) approved_output])).
Proof.
  intros Hok Hid. cbn. rewrite map_app. cbn. rewrite bool_decide_true by done. do 3 f_equal.
  induction Hok as [|s e ss tr He Hok IH]; [done|]. cbn in *. rewrite not_elem_of_cons in Hid. destruct Hid as [Hs Hid].
  rewrite bool_decide_false by (eapply approve_other; eauto). by rewrite IH.
Qed.

(** C35. What resuming reads back is what the run had: a run that suspends at a
step, after steps whose outputs its trace holds, leaves a trace which the
approval completes so that the outputs read from it are those of the run, with
the approval's own output added, and so that every step up to the approval has
its one entry; the next resumption starts from the same state of affairs. *)
Theorem resume_continues (def : WorkflowDef) (c run : Uuid) (ctx : TriggerContext) (k : nat) (pre : list Value)
    (env : Env) (w w' : World) (r : ExecutionResult) (request : ApprovalRequest) :
  NoDup (map step_id (steps def)) → k ≤ length (steps def) → trace_ok (take k (steps def)) pre →
  run_steps def c run ctx k (Some (outputs_of_trace pre)) env w = (Done (Ok r), w') → approval r = Some request →
  ∃ tr, approve_trace (req_step_id request) (Array (pre ++ trace r)) = Some (Array tr)
    ∧ trace_ok (take (step_index r + 1) (steps def)) tr
    ∧ outputs_of_trace tr = <[req_step_id request := approved_output]> (step_outputs r).
Proof.
  intros Hd Hk Hpre. unfold run_steps. rewrite <-(take_drop k (steps def)) at 1.
  rewrite execute_steps_before by (rewrite length_take; lia). rewrite length_take, Nat.min_l by done. cbn [Nat.add default].
  intros H Ha. apply execute_steps_trace in H; [|done]. rewrite Ha in H.
  destruct H as (ss1 & s & ss2 & mid & Hss & Ht & Hok & Ho & Hx & Hr).
  rewrite app_nil_l in Ht. unfold Datatypes.id in Ho.
  assert (steps def = (take k (steps def) ++ ss1) ++ s :: ss2) as Hsteps.
  { rewrite <-app_assoc, <-Hss. symmetry. apply take_drop. }
  assert (trace_ok (take k (steps def) ++ ss1) (pre ++ mid)) as Hall by by apply Forall2_app.
  exists ((pre ++ mid) ++ [completed_entry (step_id s) approved_output]). rewrite Ht, app_assoc, Hr. split_and!.
  - eapply approve_trace_app; [exact Hall|]. rewrite Hsteps, map_app in Hd. cbn in Hd.
    apply NoDup_app in Hd as (_ & Hd & _). intros Hin. apply (Hd _ Hin). by left.
  - rewrite Hsteps. rewrite (cons_middle s), app_assoc, take_app_length'.
    + apply Forall2_app; [done|]. constructor; [by eauto|constructor].
    + rewrite !length_app, length_take, Nat.min_l by done. cbn. lia.
  - rewrite outputs_of_trace_app, outputs_of_trace_app, <-Ho. done.
Qed.

End resume.
