(* ===== verification/WorkflowFires.v ===== *)
(** * WorkflowFires: no run without authority

A run is started by a message, by the clock or by a command.  Whatever starts
it, the workflow's owner was found just before to hold the authority over the
channel which the definition needs. *)
From S2P Require Import Prelude Text Encode Network Nostr Json Kind Scope WorkflowDef WorkflowText WorkflowStore WorkflowStoreProps WorkflowRun WorkflowExec WorkflowEngine WorkflowRunProps.

Local Open Scope nat_scope.

Section fires.
Context {JC : JsonCrate} {VT : ValueText} {EV : Evalexpr} {HO : HashOrder} {CC : CronCrate}
        {PC : PgCrates} {UT : UuidText} {EC : EngineCrates} {WC : WorkflowConfig} {NT : NostrTags}.

(** ** Entries of the log *)

(** A statement of ours that starts a run or claims the instant for one. *)
Definition creates (e : LogEntry) : Prop :=
  match e with
  | EvStmt q _ _ => match q with QCreateRun _ _ _ _ _ | QClaimFire _ _ _ => True | _ => False end
  | _ => False
  end.

(** The owner's role in the channel, read and found enough. *)
Definition authority_call (c channel : Uuid) (owner : Bytes) (def : WorkflowDef) {A : Type} (call : Call A) : A → Prop :=
  match call with
  | CMemberRole c' channel' owner' => λ r, c' = c ∧ channel' = channel ∧ owner' = owner
      ∧ ∃ role, r = Ok role ∧ owner_authority_allows role (requires_elevated_authority def) = true
  | _ => λ _, False
  end.
Definition authority (c channel : Uuid) (owner : Bytes) (def : WorkflowDef) (e : LogEntry) : Prop :=
  match e with EvCall call a => authority_call c channel owner def call a | _ => False end.

(** The workflow's row as it was read. *)
Definition row_stmt (c workflow : Uuid) (row : WorkflowRecord) {A : Type} (q : Query A) : result A DbError → Prop :=
  match q with
  | QGetWorkflow c' workflow' => λ r, c' = c ∧ workflow' = workflow ∧ r = Ok row
  | _ => λ _, False
  end.
Definition reads_row (c workflow : Uuid) (row : WorkflowRecord) (e : LogEntry) : Prop :=
  match e with EvStmt q _ res => row_stmt c workflow row q res | _ => False end.

(** What a computation logs, where it starts a run. *)
Definition guarded {A : Type} (m : M A) (Φ : list LogEntry → Prop) : Prop :=
  ∀ env w, ∃ new, log (m env w).2 = log w ++ new ∧ (Exists creates new → Φ new).

(** ** Triples about what was logged since *)

Definition since (l : list LogEntry) (P : list LogEntry → Prop) (w : World) : Prop :=
  ∃ new, log w = l ++ new ∧ P new.

Definition monotone (P : list LogEntry → Prop) : Prop := ∀ new new', P new → P (new ++ new').

Lemma monotone_exists (P : LogEntry → Prop) : monotone (Exists P).
Proof. intros new new' H. apply Exists_app. by left. Qed.

Definition quietly (w w' : World) : Prop := ∃ new, log w' = log w ++ new ∧ ¬ Exists creates new.

#[local] Instance quietly_preorder : PreOrder quietly.
Proof.
  split.
  - intros w. exists []. rewrite app_nil_r. split; [done|]. by intros ?%Exists_nil.
  - intros w1 w2 w3 (l1 & E1 & H1) (l2 & E2 & H2). exists (l1 ++ l2). rewrite E2, E1, app_assoc.
    split; [done|]. intros [?|?]%Exists_app; contradiction.
Qed.

Lemma quietly_log w w' : log w' = log w → quietly w w'.
Proof. intros Hl. exists []. rewrite app_nil_r. split; [done|]. by intros ?%Exists_nil. Qed.

Lemma quietly_same w w' : db w' = db w → log w' = log w → quietly w w'.
Proof. intros _. apply quietly_log. Qed.

Lemma quietly_event w e : ¬ creates e → quietly w (with_event e w).
Proof. intros He. exists [e]. split; [done|]. intros [?|?%Exists_nil]%Exists_cons; auto. Qed.

Lemma quietly_call {A} (c : Call A) : respects quietly A (call c).
Proof. apply respects_call; [apply _|apply quietly_same|]. intros a w. apply quietly_event. by intros []. Qed.

Lemma quietly_stmt {A} (q : Query A) :
  (∀ now res, ¬ creates (EvStmt q now res)) → respects quietly _ (stmt q).
Proof.
  intros Hq. apply respects_stmt; [apply _|apply quietly_same| |].
  - intros [B q' now] w. unfold other_stmt. destruct (exec q' now (db w)) as [res d].
    etrans; [by apply (quietly_log w (with_db d w))|]. apply quietly_event. by intros [].
  - intros now w. unfold own_stmt. destruct (exec q now (db w)) as [res d].
    etrans; [by apply (quietly_log w (with_db d w))|]. by apply quietly_event.
Qed.

Ltac quiet_step :=
  match goal with
  | |- ∀ _, _ => intro
  | |- respects quietly _ (mret _) => by intros ? ?
  | |- respects quietly _ (lift _) => by intros ? ?
  | |- respects quietly _ (throw _) => by intros ? ?
  | |- respects quietly _ get_world => by intros ? ?
  | |- respects quietly _ (modify _) => intros ? ?; by apply quietly_same
  | |- respects quietly _ (call _) => apply quietly_call
  | |- respects quietly _ (stmt _) => apply quietly_stmt; intros ? ? []
  | |- respects quietly _ (map_err_m _ _) => apply respects_bind; [apply _| |]
  | |- respects quietly _ (_ ≫= _) => apply respects_bind; [apply _| |]
  | |- respects quietly _ (if ?b then _ else _) => destruct b
  | |- respects quietly _ (match ?e with _ => _ end) => destruct e
  end.

(** ** Computations that start a run only under a condition *)

(** Started where nothing was created yet and [P] holds of what was logged. *)
Definition gated {A : Type} (P : list LogEntry → Prop) (m : M A) (Φ : list LogEntry → Prop) : Prop :=
  ∀ l, triple (since l (λ new, ¬ Exists creates new ∧ P new)) m
         (λ _, since l (λ new, Exists creates new → Φ new)) (since l (λ new, Exists creates new → Φ new)).

Lemma gated_guarded {A} (m : M A) Φ : gated (λ _, True) m Φ → guarded m Φ.
Proof.
  intros H env w. specialize (H (log w) env w). destruct (m env w) as [[a|cut] w']; apply H;
    exists []; rewrite app_nil_r; (split; [done|split; [by intros ?%Exists_nil|done]]).
Qed.

Lemma gated_quiet {A} P (m : M A) Φ : respects quietly A m → gated P m Φ.
Proof.
  intros Hm l env w (new & Hl & Hn & _). destruct (Hm env w) as (new' & Hl' & Hn').
  assert (since l (λ new, Exists creates new → Φ new) (m env w).2) as H.
  { exists (new ++ new'). rewrite Hl', Hl, app_assoc. split; [done|]. intros [?|?]%Exists_app; contradiction. }
  by destruct (m env w) as [[a|cut] w'].
Qed.

Lemma gated_ret {A} P (a : A) Φ : gated P (mret a) Φ.
Proof. apply gated_quiet. by intros env w. Qed.

Lemma gated_ret_bind {A B} P (a : A) (k : A → M B) Φ : gated P (k a) Φ → gated P (mret a ≫= k) Φ.
Proof. done. Qed.

Lemma gated_assoc {A B C} P (m : M A) (k : A → M B) (k' : B → M C) Φ :
  gated P (m ≫= λ a, k a ≫= k') Φ → gated P ((m ≫= k) ≫= k') Φ.
Proof.
  intros H l env w Hw. specialize (H l env w Hw). unfold mbind, M_bind in *. by destruct (m env w) as [[a|cut] w'].
Qed.

Lemma gated_bind {A B} P (m : M A) (k : A → M B) Φ :
  monotone P → respects quietly A m → (∀ a, gated P (k a) Φ) → gated P (m ≫= k) Φ.
Proof.
  intros HP Hm Hk l env w (new & Hl & Hn & HPn). destruct (Hm env w) as (new' & Hl' & Hn').
  unfold mbind, M_bind. destruct (m env w) as [[a|cut] w']; cbn [snd] in Hl'.
  - apply Hk. exists (new ++ new'). rewrite Hl', Hl, app_assoc. split; [done|].
    split; [intros [?|?]%Exists_app; contradiction|by apply HP].
  - exists (new ++ new'). rewrite Hl', Hl, app_assoc. split; [done|]. intros [?|?]%Exists_app; contradiction.
Qed.

(** The answer of a call is in the log. *)
Lemma gated_call {A B} P (c : Call A) (k : A → M B) Φ :
  monotone P → (∀ a, gated (λ new, P new ∧ EvCall c a ∈ new) (k a) Φ) → gated P (call c ≫= k) Φ.
Proof.
  intros HP Hk l env w (new & Hl & Hn & HPn).
  pose proof (quietly_call c env w) as (new' & Hl' & Hn').
  assert (∀ a w', call c env w = (Done a, w') → EvCall c a ∈ new') as Hin.
  { intros a w' E. rewrite E in Hl'. unfold call in E. cbv zeta in E. destruct (effective _ _) as [[cut []]|]; [done..|].
    injection E as <- <-. cbn in Hl'. apply app_inv_head in Hl' as <-. by left. }
  unfold mbind, M_bind. destruct (call c env w) as [[a|cut] w']; cbn [snd] in Hl'.
  - apply (Hk a l). exists (new ++ new'). rewrite Hl', Hl, app_assoc. split; [done|].
    split; [intros [?|?]%Exists_app; contradiction|]. split; [by apply HP|]. apply elem_of_app. right. by eapply Hin.
  - exists (new ++ new'). rewrite Hl', Hl, app_assoc. split; [done|]. intros [?|?]%Exists_app; contradiction.
Qed.

(** So is a row that was read. *)
Lemma gated_stmt {A B} P (q : Query A) (k : result A DbError → M B) Φ :
  monotone P → (∀ now res, ¬ creates (EvStmt q now res)) →
  (∀ r, gated (λ new, P new ∧ ∀ a, r = Ok a → ∃ now, EvStmt q now (Ok a) ∈ new) (k r) Φ) →
  gated P (stmt q ≫= k) Φ.
Proof.
  intros HP Hq Hk l env w (new & Hl & Hn & HPn).
  pose proof (quietly_stmt q Hq env w) as (new' & Hl' & Hn').
  assert (∀ a w', stmt q env w = (Done (Ok a), w') → ∃ now, EvStmt q now (Ok a) ∈ new') as Hin.
  { intros a w' E. rewrite E in Hl'. unfold stmt in E. cbv zeta in E. set (w1 := foldl _ _ _) in *.
    assert (∃ l1, log w1 = log w ++ l1) as [l1 Hw1].
    { unfold w1. clear. set (l := env_others env _). change (log w) with (log (tick_call w)). generalize (tick_call w) as v.
      induction l as [|[C q now] l IH]; intros v; cbn; [exists []; by rewrite app_nil_r|].
      destruct (exec q now (db v)) as [res d]. destruct (IH (with_event (EvOther q now res) (with_db d v))) as [l1 ->].
      exists (EvOther q now res :: l1). cbn. by rewrite <-app_assoc. }
    clearbody w1. destruct (effective _ _) as [[cut took]|]; [done|]. destruct (env_fault _ _) as [[e took]|]; [done|].
    injection E as Hr <-. unfold own_stmt in Hl'. destruct (exec q _ (db w1)) as [res d]. cbn in Hr, Hl'. subst res.
    rewrite Hw1, <-app_assoc in Hl'. apply app_inv_head in Hl' as <-. eexists. apply elem_of_app. right. by left. }
  unfold mbind, M_bind. destruct (stmt q env w) as [[r|cut] w']; cbn [snd] in Hl'.
  - apply (Hk r l). exists (new ++ new'). rewrite Hl', Hl, app_assoc. split; [done|].
    split; [intros [?|?]%Exists_app; contradiction|]. split; [by apply HP|]. intros a ->.
    destruct (Hin a w' eq_refl) as [now Hn1]. exists now. apply elem_of_app. by right.
  - exists (new ++ new'). rewrite Hl', Hl, app_assoc. split; [done|]. intros [?|?]%Exists_app; contradiction.
Qed.

(** Once the condition is met, anything may follow. *)
Lemma gated_met {A} (P : list LogEntry → Prop) (m : M A) Φ :
  monotone Φ → (∀ new, P new → Φ new) → respects logged A m → gated P m Φ.
Proof.
  intros HΦ HP Hm l env w (new & Hl & _ & HPn). destruct (Hm env w) as (new' & Hl' & _).
  assert (since l (λ new, Exists creates new → Φ new) (m env w).2) as H.
  { exists (new ++ new'). rewrite Hl', Hl, app_assoc. split; [done|]. intros _. apply HΦ. auto. }
  by destruct (m env w) as [[a|cut] w'].
Qed.

(** ** The authority check *)

(** What follows a passed check of the owner's authority. *)
Lemma gated_authority {B} P c channel owner def (k : result () WorkflowError → M B) Φ :
  monotone P → monotone Φ → (∀ new, P new → Exists (authority c channel owner def) new → Φ new) →
  (∀ e, respects quietly B (k (Err e))) → respects logged B (k (Ok tt)) →
  gated P (check_owner_authority c channel owner def ≫= k) Φ.
Proof.
  intros HP HΦ Hmet Hno Hyes. unfold check_owner_authority, try_bind, map_err_m. do 2 apply gated_assoc.
  apply gated_call; [done|]. intros [role|e]; apply gated_ret_bind; cbn [map_err].
  - destruct (owner_authority_allows role (requires_elevated_authority def)) eqn:Ha; apply gated_ret_bind.
    + apply gated_met; [done| |exact Hyes]. intros new [Hn Hin]. apply Hmet; [done|]. apply Exists_exists.
      eexists. split; [exact Hin|]. cbn. eauto 10.
    + apply gated_quiet, Hno.
  - apply gated_ret_bind, gated_quiet, Hno.
Qed.

(** ** What starts a run *)

(** The definition of an enabled workflow whose owner was found to hold its
authority over the channel. *)
Definition authorised (c channel : Uuid) (row : WorkflowRecord) (def : WorkflowDef) (new : list LogEntry) : Prop :=
  def_from_value (w_definition row) = Ok def ∧ Exists (authority c channel (w_owner_pubkey row) def) new.

(** A schedule with a cron expression or an interval, and not both. *)
Definition on_schedule (t : TriggerDef) : bool :=
  match t with Schedule (Some _) None | Schedule None (Some _) => true | _ => false end.

(** For a message, for the clock and for a command. *)
Definition event_met (c channel : Uuid) (event : Event) (row : WorkflowRecord) (new : list LogEntry) : Prop :=
  ∃ def, authorised c channel row def new ∧ def_enabled def = true
    ∧ trigger_matches_event (trigger def) (event_kind_u32 event) = true.
Definition clock_met (c : Uuid) (row : WorkflowRecord) (new : list LogEntry) : Prop :=
  ∃ def channel, authorised c channel row def new ∧ def_enabled def = true ∧ w_channel_id row = Some channel
    ∧ on_schedule (trigger def) = true.
Definition command_met (c workflow : Uuid) (who : Bytes) (new : list LogEntry) : Prop :=
  ∃ row def channel, authorised c channel row def new ∧ w_channel_id row = Some channel
    ∧ Exists (reads_row c workflow row) new ∧ w_owner_pubkey row = who ∧ w_enabled row = true ∧ w_status row = Active.

Lemma authorised_app c channel row def new new' :
  authorised c channel row def new → authorised c channel row def (new ++ new').
Proof. intros [H He]. split; [done|]. by apply monotone_exists. Qed.

#[local] Hint Resolve authorised_app monotone_exists : core.

Lemma event_met_guards c channel event ctx ctx_json kw :
  guarded (fire_on_event c channel event ctx ctx_json kw) (event_met c channel event kw.2).
Proof.
  apply gated_guarded. unfold fire_on_event. cbv zeta.
  destruct (def_from_value _) as [def|] eqn:Hdef; [|apply gated_ret].
  destruct (def_enabled def) eqn:Hen; [|apply gated_ret].
  destruct (trigger_matches_event _ _) eqn:Ht; [|apply gated_ret]. cbn [negb orb].
  apply gated_bind; [done| |].
  { unfold should_fire_workflow. cbv zeta. repeat quiet_step. }
  intros fire. destruct fire; [|apply gated_ret]. cbn [negb].
  apply gated_authority; [done| | | |].
  - intros new new' (d & ? & ? & ?). exists d. eauto.
  - intros new _ ?. exists def. by split.
  - intros e. repeat quiet_step.
  - repeat closed_step.
Qed.

Lemma clock_met_guards now kw : guarded (fire_on_tick now kw) (clock_met kw.1.1 kw.2).
Proof.
  apply gated_guarded. unfold fire_on_tick. destruct kw as [k workflow]. cbn [fst snd].
  destruct (def_from_value _) as [def|] eqn:Hdef; [|apply gated_ret].
  destruct (def_enabled def) eqn:Hen; [|apply gated_ret]. cbn [negb].
  destruct (w_channel_id workflow) as [channel|] eqn:Hch; [|apply gated_ret].
  assert (on_schedule (trigger def) = true → ∀ t b, gated (λ _, True) (claim_and_start k.1 k.2 channel workflow def now t b) (clock_met k.1 workflow)) as Hclaim.
  { intros Hon t b. unfold claim_and_start. cbv zeta. apply gated_authority; [done| | | |].
    - intros new new' (d & ch & ? & ? & ? & ?). exists d, ch. eauto.
    - intros new _ ?. by exists def, channel.
    - intros e. repeat quiet_step.
    - repeat closed_step. }
  destruct (trigger def) as [| | |[expr|] [dur|]|]; try apply gated_ret.
  - destruct (cron_fire_instant _ _ _); [by apply Hclaim|apply gated_ret].
  - apply gated_bind; [done| |].
    { unfold interval_anchor. repeat quiet_step. }
    intros last. apply gated_bind; [done|repeat quiet_step|]. intros w.
    destruct (interval_prefilter_should_fire _ _ _ _ _ _) as [fire fired].
    apply gated_bind; [done|repeat quiet_step|]. intros _. destruct fire; [|apply gated_ret]. cbn [negb].
    destruct (interval_fire_instant _ _); [by apply Hclaim|apply gated_ret].
Qed.

Lemma command_met_guards c workflow who event :
  guarded (handle_workflow_trigger c workflow who event) (command_met c workflow who).
Proof.
  apply gated_guarded. unfold handle_workflow_trigger. unfold try_bind at 1. unfold map_err_m at 1.
  apply gated_assoc, gated_stmt; [done|by intros ?? []|]. intros [row|e]; apply gated_ret_bind; [|apply gated_ret].
  cbn [map_err]. case_bool_decide as Hwho; [apply gated_ret|].
  destruct (w_enabled row) eqn:Hen; [|apply gated_ret]. cbn [negb orb].
  case_bool_decide as Hst; [apply gated_ret|].
  unfold try_bind at 1, lift at 1. apply gated_ret_bind. destruct (def_from_value _) as [def|] eqn:Hdef; [|apply gated_ret].
  cbn [map_err]. destruct (w_channel_id row) as [channel|] eqn:Hch; [|apply gated_ret].
  unfold try_bind at 1, map_err_m at 1. apply gated_assoc, gated_authority.
  - intros new new' [_ Hr]. split; [done|]. intros a Ha. destruct (Hr a Ha) as [now Hin]. exists now.
    apply elem_of_app. by left.
  - intros new new' (row' & d & ch & ? & ? & ? & ?). exists row', d, ch. destruct_and?. split_and!; eauto; by apply monotone_exists.
  - intros new [_ Hr] Ha. destruct (Hr row eq_refl) as [now Hin]. exists row, def, channel.
    split_and!; [by split|done| |done..]. apply Exists_exists. by exists (EvStmt (QGetWorkflow c workflow) now (Ok row)).
  - intros e env w. by apply quietly_log.
  - apply closed_bind; [repeat closed_step|]. cbv zeta. intros [[]|e]; repeat closed_step.
Qed.

(** C26. No run without authority.  Where a message, the clock or a command of the
relay has a run created or a scheduled instant claimed, the workflow's owner was
read just before to be a member of the channel in the workflow's own community,
with the elevated role which the definition in the row may need.  A message comes
with an enabled definition whose trigger matches it; the clock with an enabled
definition that has a cron expression or an interval, not both; a command with the
workflow's owner as its author and a row that was read as enabled and active: it
asks nothing of the definition's trigger or of the definition's own enabled flag. *)
Theorem runs_need_authority :
  (∀ c channel event ctx ctx_json kw,
     guarded (fire_on_event c channel event ctx ctx_json kw) (event_met c channel event kw.2))
  ∧ (∀ now kw, guarded (fire_on_tick now kw) (clock_met kw.1.1 kw.2))
  ∧ (∀ c workflow who event, guarded (handle_workflow_trigger c workflow who event) (command_met c workflow who)).
Proof. split_and!; [apply event_met_guards|apply clock_met_guards|apply command_met_guards]. Qed.

End fires.
