(* ===== verification/WorkflowToy.v ===== *)
(** * WorkflowToy: a workflow run, approved and resumed

Concrete instances of the interfaces of the workflow engine, a workflow that
sends a message, asks for an approval and sends another, and the theorems of
the engine applied to its run. *)
From stdpp Require Import pretty.
From S2P Require Import Prelude Text Encode Network Nostr Json Kind Scope WorkflowDef WorkflowText WorkflowTextProps WorkflowStore WorkflowStoreProps WorkflowRun WorkflowExec WorkflowEngine WorkflowRunProps WorkflowFence WorkflowRest.

Local Open Scope nat_scope.

(** ** Interfaces *)

#[local] Instance toy_order : HashOrder := map_to_list_order.
#[local] Instance toy_json : JsonCrate := {
  JsonNumber := N; JsonError := unit;
  number_to_string := λ n, Ok (pretty n);
  string_to_string := λ s, Ok s
}.
#[local] Instance toy_text : ValueText := {
  number_display := λ n, pretty n;
  value_display := λ _, "{}";
  pk_from_hex := λ _, None;
  pk_to_bech32 := λ _, None
}.

(** A context that keeps the type of a variable, over an evaluator of the names
of boolean variables. *)
#[local] Instance toy_evalexpr : Evalexpr := {
  Float := Z; EvalError := string;
  eval_error_to_string := λ e, e;
  expected_tuple := λ _ _, "expected a tuple";
  expected_string := λ _, "expected a string";
  number_as_i64 := λ n, Some (Z.of_N n);
  number_as_f64 := λ _, None;
  EvalContext := gmap string (EvalValue Z);
  ctx_new := ∅;
  ctx_set_function := λ c _ _, Ok c;
  ctx_set_value := λ c n v,
    if match c !! n with Some w => same_type w v | None => true end then Ok (<[n := v]> c) else Err "wrong type";
  ctx_get_value := λ c n, c !! n;
  eval_boolean_with_context := λ e c, match c !! e with Some (EBoolean b) => Ok b | _ => Err "not a boolean" end
}.

Lemma toy_evalexpr_laws : EvalexprLaws.
Proof.
  split; cbn.
  - intros n. apply lookup_empty.
  - done.
  - by intros c n f c' m [= ->].
  - intros c n v. destruct (c !! n) as [w|]; [|done]. by destruct (same_type w v).
  - intros c n v c'. case_match; intros [= <-]. apply lookup_insert_eq.
  - intros c n v c' m. case_match; intros [= <-] Hne. by apply lookup_insert_ne.
Qed.

#[local] Instance toy_cron : CronCrate := {
  CronSchedule := Z;
  cron_parse := λ _, Ok 0%Z;
  cron_after := λ _ t, Some (t + 1)%Z
}.
#[local] Instance toy_pg : PgCrates := {
  sha256_text := λ s, map Ascii.N_of_ascii (String.list_ascii_of_string s);
  hex := λ b, String.concat "" (map pretty b);
  jsonb_of_text := λ _, Some Null;
  jsonb_text := λ _, ""
}.
#[local] Instance toy_uuid : UuidText := { uuid_to_string := λ u, pretty u }.
#[local] Instance toy_tags : NostrTags := nip01_tags.
#[local] Instance toy_config : WorkflowConfig := default_config.

(** ** A workflow *)

Definition toy_step (id : string) (action : ActionDef) : Step := mkStep id None None None action.

Definition toy_def : WorkflowDef :=
  mkDef "release" None Webhook
    [toy_step "announce" (SendMessage "starting" None false);
     toy_step "gate" (RequestApproval "any" "go on?" None);
     toy_step "report" (SendMessage "done: {{steps.gate.output.approved}}" None false)] true.

Definition toy_ctx : TriggerContext := mkContext "" "author" "5" "" "" "" false ∅.

#[local] Instance toy_engine : EngineCrates := {
  def_from_value := λ v, match v with VString "release" => Ok toy_def | _ => Err "not a workflow" end;
  ctx_to_value := λ _, Ok (VString "context");
  ctx_from_value := λ v, match v with VString "context" => Ok toy_ctx | _ => Err "not a context" end;
  json_from_str := λ _, None;
  number_of_u64 := λ n, n;
  parse_uuid := λ _, Err "not a uuid";
  pk_parse := λ _, None;
  hex_decode := λ _, Err "odd length";
  event_id_bytes := λ _, [];
  url_parse := λ _, Ok (Some "example.org", Some 443%N);
  method_from_bytes := λ _, Ok tt;
  status_display := λ n, pretty n;
  ip_display := λ _, "ip";
  from_utf8_lossy := λ b, String.string_of_list_ascii (map Ascii.ascii_of_N b)
}.

(** ** A run *)

(** Everything answers, and nothing is dropped. *)
Definition toy_answer (A : Type) (n : nat) (c : Call A) : A :=
  match c in Call A return A with
  | CTryAcquire => true
  | CUtcNow => (1000 * NANOS)%Z
  | CNewUuid => 77%N
  | CEval _ => EvalInTime
  | CAcquireFence _ _ | CVerifyFence | CFinishFence => Ok tt
  | CActionSink => true
  | CSendMessage _ _ _ _ _ _ => Ok "event"
  | CPostReaction _ _ => Ok (200%N, None)
  | CResolve _ _ => Ok [V4 (mkV4 93 184 216 34)]
  | CBuildClient _ _ _ => Ok tt
  | CHttp _ _ _ _ _ _ => Ok (mkResponse 200 [])
  | CSleep _ => tt
  | CMemberRole _ _ _ => Ok (Some "owner")
  | CMembers _ _ => Ok []
  | CUsers _ _ => Ok []
  | CCacheLive => false
  | CPersistCommand => Ok true
  | CCommitCommand => Ok tt
  | CActorRole _ _ _ => Ok (Some "owner")
  end.

Definition toy_env : Env := mkEnv toy_answer (λ _, []) (λ n, (1000 * NANOS + Z.of_nat n)%Z) (λ _, None) (λ _, None).

Definition toy_workflow : WorkflowRecord :=
  mkWorkflow "release" [9%N] (Some 5%N) (VString "release") [] Active true 0 0.
Definition toy_run (status : RunStatus) : WorkflowRunRecord :=
  mkRun 2 status None 0 (Array []) (Some (VString "context")) None None None None 0.

(** Community 1, its workflow 2 and run 3. *)
Definition toy_db (status : RunStatus) : Store :=
  mkStore {[(1, 2)%N := toy_workflow]} {[(1, 3)%N := toy_run status]} ∅ ∅ ∅ ∅.
Definition toy_world (status : RunStatus) : World := mkWorld (toy_db status) 0 [] false false ∅ ∅ [].

Definition sends_message (e : LogEntry) : bool :=
  match e with EvCall (CSendMessage _ _ _ _ _ _) _ => true | _ => false end.

(** The run sends its first message within the fence, and waits. *)
Lemma effects_are_fenced_witness :
  (fence any_run (log (toy_world Pending)) ≠ Breached
   ∧ existsb sends_message (log (perform_activity (ATask (TRun 1 3 toy_def toy_ctx)) toy_env (toy_world Pending)).2) = true)
  ∧ fence any_run (log (perform_activity (ATask (TRun 1 3 toy_def toy_ctx)) toy_env (toy_world Pending)).2) ≠ Breached.
Proof.
  assert (fence any_run (log (toy_world Pending)) ≠ Breached) as H by done.
  split; [split; [exact H|vm_compute; reflexivity]|].
  destruct (effects_are_fenced toy_env (toy_world Pending)) as [Hall _]. exact (Hall _ H).
Defined.

(** The steps up to the gate, and what the approval makes of their trace. *)
Definition suspended {A : Type} (o : Outcome (result ExecutionResult A)) : option (string * nat) :=
  match o with Done (Ok r) => (λ a, (req_step_id a, step_index r)) <$> approval r | _ => None end.

Lemma resume_continues_witness :
  ∃ r w' request tr,
    run_steps toy_def 1 3 toy_ctx 0 (Some (outputs_of_trace [])) toy_env (toy_world Running)
    = (Done (Ok r), w')
    ∧ approval r = Some request
    ∧ req_step_id request = "gate"
    ∧ approve_trace (req_step_id request) (Array ([] ++ trace r)) = Some (Array tr)
    ∧ outputs_of_trace tr = <["gate" := approved_output]> (step_outputs r).
Proof.
  assert (suspended (run_steps toy_def 1 3 toy_ctx 0 (Some (outputs_of_trace [])) toy_env (toy_world Running)).1
    = Some ("gate", 1)) as Hs by (vm_compute; reflexivity).
  destruct (run_steps toy_def 1 3 toy_ctx 0 (Some (outputs_of_trace [])) toy_env (toy_world Running))
    as [[[r|e]|cut] w'] eqn:E; [|discriminate Hs..].
  cbn [fst suspended] in Hs. destruct (approval r) as [request|] eqn:Ha; [|discriminate Hs].
  assert (req_step_id request = "gate") as Hid by by injection Hs.
  destruct (resume_continues toy_def 1 3 toy_ctx 0 [] toy_env (toy_world Running) w' r request) as (tr & H1 & _ & H2).
  - apply (bool_decide_unpack _). vm_compute. exact I.
  - apply Nat.le_0_l.
  - constructor.
  - exact E.
  - exact Ha.
  - exists r, w', request, tr. rewrite Hid in H2. split_and!; done.
Defined.

(** A web server that answers the one byte 0.  The body is a string with U+0000 in
the trace of the run, so that neither the update that completes the run nor any
other one with that trace is taken. *)
Definition nul_answer (A : Type) (n : nat) (c : Call A) : A :=
  match c in Call A return A with
  | CHttp _ _ _ _ _ _ => Ok (mkResponse 200 [Ok [0%N]])
  | c => toy_answer _ n c
  end.
Definition nul_env : Env := mkEnv nul_answer (λ _, []) (λ n, (1000 * NANOS + Z.of_nat n)%Z) (λ _, None) (λ _, None).
Definition nul_def : WorkflowDef := mkDef "fetch" None Webhook [toy_step "get" (CallWebhook "https://example.org" None None None)] true.

Definition status_after (env : Env) (def : WorkflowDef) : option RunStatus :=
  r_status <$> runs (db (run_task (TRun 1 3 def toy_ctx) env (toy_world Pending)).2) !! (1, 3)%N.

Lemma nul_output_leaves_run :
  status_after toy_env nul_def = Some Completed ∧ status_after nul_env nul_def = Some Running.
Proof. split; vm_compute; reflexivity. Qed.

(** ** Histories of statements *)

(** A late update of a completed run is refused. *)
Definition late_update : Query unit := QUpdateRun 1 3 Failed 0 Null None.

Lemma ended_runs_are_final_witness :
  terminal (r_status (toy_run Completed)) = true
  ∧ runs (exec late_update 5 (toy_db Completed)).2 !! (1, 3)%N = Some (toy_run Completed).
Proof.
  split; [reflexivity|].
  apply (ended_runs_are_final (toy_db Completed) [Entry late_update 5 (exec late_update 5 (toy_db Completed)).1]).
  - exists (exec late_update 5 (toy_db Completed)).2. split; [apply surjective_pairing|reflexivity].
  - reflexivity.
  - reflexivity.
  - repeat constructor. intros [].
Defined.

(** The statements of [h] from [s], with their answers, and the tables after. *)
Fixpoint play (s : Store) (h : list Stmt) : list entry * Store :=
  match h with
  | [] => ([], s)
  | mkStmt q now :: h =>
      let '(l, s') := play (exec q now s).2 h in (Entry q now (exec q now s).1 :: l, s')
  end.

Lemma play_history s h : history s (play s h).1 (play s h).2.
Proof.
  revert s. induction h as [|[A q now] h IH]; intros s; cbn; [done|].
  specialize (IH (exec q now s).2). destruct (play (exec q now s).2 h) as [l s'].
  exists (exec q now s).2. split; [apply surjective_pairing|done].
Qed.

(** The instant 60 is claimed, pruned, and claimed again. *)
Definition fire_story : list Stmt :=
  [mkStmt (QClaimFire 1 2 60) 61; mkStmt (QPruneFires 100) 200; mkStmt (QClaimFire 1 2 60) 201]%Z.

Lemma fires_claimed_once_witness :
  ∃ e, e ∈ [Entry (QPruneFires 100) 200 (Ok 1)] ∧ (deleted 1 2 e ∨ pruned 61 e).
Proof.
  apply (fires_claimed_once (toy_db Pending) 1 2 60 61 201 (mkFire 61 None) (mkFire 201 None)
    [Entry (QPruneFires 100) 200 (Ok 1)] (play (toy_db Pending) fire_story).2).
  exact (play_history (toy_db Pending) fire_story).
Defined.

(** The gate's approval is requested, granted and claimed. *)
Definition toy_params : CreateApprovalParams :=
  mkParams 1 "77" 2 3 5 "gate" 1 "any" [] "go on?" (VString "release") 900.
Definition toy_token : Bytes := hash_approval_token "77".
Definition toy_trace : Value := Array [waiting_entry "gate"].
Definition approval_story : list Stmt :=
  [mkStmt (QCreateApprovalAndWait toy_params toy_trace) 10; mkStmt (QDecideApproval 1 toy_token Granted [9%N] None) 20;
   mkStmt (QClaimResume 1 toy_token) 30].

Lemma resume_needs_one_grant_witness :
  ∃ p t, token_key p = (1%N, toy_token) ∧ (2, 3, 1%Z)%N = (p_workflow_id p, p_run_id p, p_step_index p)
    ∧ (t < p_expires_at p)%Z.
Proof.
  set (h1 := [Entry (QCreateApprovalAndWait toy_params toy_trace) 10 (Ok tt);
              Entry (QDecideApproval 1 toy_token Granted [9%N] None) 20 (Ok true)]).
  destruct (resume_needs_one_grant (toy_db Running) 1 toy_token 30 (2, 3, 1%Z)%N h1 []
    (play (toy_db Running) approval_story).2) as [(p & e & _ & _ & Hk & Hx & Hg) _].
  - reflexivity.
  - exact (play_history (toy_db Running) approval_story).
  - destruct Hg as [(t & e' & _ & _ & Ht)|(e' & He & Hw)]; [by exists p, t|].
    repeat (apply elem_of_cons in He as [->|He]; [done|]). by apply elem_of_nil in He.
Defined.

(** ** Conditions *)

Definition webhook_ctx (fields : gmap string string) : TriggerContext := mkContext "hello" "" "" "" "" "" true fields.

(** A field of a webhook does not shadow the trigger's text. *)
Lemma standard_variables_kept_witness :
  ∃ c, build_eval_context (webhook_ctx {["text" := "forged"]}) ∅ = Ok c
    ∧ ctx_get_value c "trigger_text" = Some (EString "hello").
Proof.
  destruct (build_eval_context (webhook_ctx {["text" := "forged"]}) ∅) as [c|e] eqn:E.
  - exists c. split; [done|].
    destruct (standard_variables_kept toy_evalexpr_laws (webhook_ctx {["text" := "forged"]}) ∅ c E) as [H _].
    apply H. left.
  - exfalso. assert (is_ok (build_eval_context (webhook_ctx {["text" := "forged"]}) ∅) = true) as Hok
      by (vm_compute; reflexivity). rewrite E in Hok. discriminate Hok.
Defined.

Lemma is_reply_field_breaks_conditions_witness :
  is_ok (build_eval_context (webhook_ctx {["is_reply" := "yes"]}) ∅) = false
  ∧ is_ok (build_eval_context (webhook_ctx {["text" := "forged"]}) ∅) = true.
Proof.
  split; rewrite (is_reply_field_breaks_conditions toy_evalexpr_laws); vm_compute; reflexivity.
Defined.
