(* ===== verification/IngestRules.v ===== *)
(** * IngestRules: what an event's kind decides at ingest

Models the tables of [crates/buzz-relay/src/handlers/ingest.rs] that read only
the event: the scope a kind needs ([crates/buzz-auth/src/scope.rs]), which
kinds are global and which need a channel, where the channel is named, and who
the author of a stored event is.  Ids and keys are the lowercase hex of their
bytes, so [hex::decode] of a text is its lowercase form. *)
From stdpp Require Import pretty.
From S2P Require Import Prelude Text Encode Nostr Kind.

(** ** Scopes ([scope.rs]) *)

Inductive Scope : Type :=
| MessagesRead | MessagesWrite | ChannelsRead | ChannelsWrite | AdminChannels
| UsersRead | UsersWrite | AdminUsers | JobsRead | JobsWrite
| SubscriptionsRead | SubscriptionsWrite | FilesRead | FilesWrite | ReposRead | ReposWrite
| Unknown (text : string).

#[export] Instance Scope_eq_dec : EqDecision Scope.
Proof. solve_decision. Defined.

Definition all_known : list Scope :=
  [MessagesRead; MessagesWrite; ChannelsRead; ChannelsWrite; AdminChannels; UsersRead; UsersWrite;
   AdminUsers; JobsRead; JobsWrite; SubscriptionsRead; SubscriptionsWrite; FilesRead; FilesWrite;
   ReposRead; ReposWrite].

Definition all_non_admin : list Scope :=
  [MessagesRead; MessagesWrite; ChannelsRead; ChannelsWrite; UsersRead; UsersWrite; JobsRead;
   JobsWrite; SubscriptionsRead; SubscriptionsWrite; FilesRead; FilesWrite; ReposRead; ReposWrite].

Definition scope_as_str (s : Scope) : string :=
  match s with
  | MessagesRead => "messages:read"
  | MessagesWrite => "messages:write"
  | ChannelsRead => "channels:read"
  | ChannelsWrite => "channels:write"
  | AdminChannels => "admin:channels"
  | UsersRead => "users:read"
  | UsersWrite => "users:write"
  | AdminUsers => "admin:users"
  | JobsRead => "jobs:read"
  | JobsWrite => "jobs:write"
  | SubscriptionsRead => "subscriptions:read"
  | SubscriptionsWrite => "subscriptions:write"
  | FilesRead => "files:read"
  | FilesWrite => "files:write"
  | ReposRead => "repos:read"
  | ReposWrite => "repos:write"
  | Unknown s => s
  end.

(** ** Hex ids *)

(** [v.len() == 64 && v.chars().all(|c| c.is_ascii_hexdigit())]. *)
Definition is_hex64 (v : string) : bool :=
  (String.length v =? 64) && string_forall is_ascii_hexdigit v.

(** [b.is_ascii_hexdigit() && !b.is_ascii_uppercase()] on 64 bytes. *)
Definition is_lower_hexdigit (c : ascii) : bool := is_ascii_hexdigit c && negb (is_ascii_upper c).
Definition is_lower_hex64 (v : string) : bool :=
  (String.length v =? 64) && string_forall is_lower_hexdigit v.

(** [hex::decode], its bytes as lowercase hex. *)
Definition hex_decode (v : string) : option string :=
  if Nat.even (String.length v) && string_forall is_ascii_hexdigit v
  then Some (to_ascii_lowercase v) else None.

(** [hex::decode(v).ok().filter(|b| b.len() == 32)]. *)
Definition decode_32 (v : string) : option string :=
  bytes ← hex_decode v; if String.length bytes =? 64 then Some bytes else None.

(** ** Authentication *)

Inductive HttpAuthMethod : Type := Nip98 | DevPubkey.

Inductive IngestAuth : Type :=
| Nip42 (pubkey : string) (scopes : list Scope) (channel_ids : option (list Uuid)) (conn_id : Uuid)
| Http (pubkey : string) (scopes : list Scope) (auth_method : HttpAuthMethod).

Definition auth_pubkey (a : IngestAuth) : string :=
  match a with Nip42 pubkey _ _ _ => pubkey | Http pubkey _ _ => pubkey end.

Definition auth_scopes (a : IngestAuth) : list Scope :=
  match a with Nip42 _ scopes _ _ => scopes | Http _ scopes _ => scopes end.

Definition auth_conn_id (a : IngestAuth) : option Uuid :=
  match a with Nip42 _ _ _ conn_id => Some conn_id | Http _ _ _ => None end.

Definition auth_channel_ids (a : IngestAuth) : option (list Uuid) :=
  match a with Nip42 _ _ channel_ids _ => channel_ids | Http _ _ _ => None end.

Definition is_http (a : IngestAuth) : bool :=
  match a with Http _ _ _ => true | Nip42 _ _ _ _ => false end.

(** ** Results *)

Record IngestResult : Type := mkIngestResult {
  event_id : string;
  accepted : bool;
  message : string
}.

Inductive IngestError : Type :=
| Rejected (text : string)
| CanvasConflict (text : string)
| AuthFailed (text : string)
| Internal (text : string).

(** ** Tables over the kind *)

Definition is_global_only_kind (kind : N) : bool :=
  one_of kind
    [KIND_PROFILE; KIND_TEXT_NOTE; KIND_CONTACT_LIST; KIND_LONG_FORM; KIND_USER_STATUS; KIND_READ_STATE;
     KIND_MUTE_LIST; KIND_PIN_LIST; KIND_NIP65_RELAY_LIST_METADATA; KIND_BOOKMARK_LIST; KIND_FOLLOW_SET;
     KIND_BOOKMARK_SET; KIND_EMOJI_SET; KIND_EMOJI_LIST; KIND_AGENT_ENGRAM; KIND_EVENT_REMINDER;
     KIND_AGENT_PROFILE; KIND_PERSONA; KIND_TEAM; KIND_MANAGED_AGENT; KIND_PRIVATE_MANAGED_AGENT;
     KIND_TEAM_CATALOG; KIND_GIT_REPO_ANNOUNCEMENT; KIND_GIT_REPO_STATE; KIND_GIT_PATCH;
     KIND_GIT_PULL_REQUEST; KIND_GIT_PR_UPDATE; KIND_GIT_ISSUE; KIND_GIT_STATUS_OPEN;
     KIND_GIT_STATUS_MERGED; KIND_GIT_STATUS_CLOSED; KIND_GIT_STATUS_DRAFT; KIND_PROJECT;
     KIND_MODERATION_BAN; KIND_MODERATION_UNBAN; KIND_MODERATION_TIMEOUT; KIND_MODERATION_UNTIMEOUT;
     KIND_MODERATION_RESOLVE_REPORT; RELAY_ADMIN_ADD_MEMBER; RELAY_ADMIN_REMOVE_MEMBER;
     RELAY_ADMIN_CHANGE_ROLE; RELAY_ADMIN_SET_WORKSPACE_PROFILE; KIND_NIP43_LEAVE_REQUEST;
     KIND_IA_ARCHIVE_REQUEST; KIND_IA_UNARCHIVE_REQUEST; KIND_AGENT_TURN_METRIC; KIND_PUSH_LEASE].

Definition requires_h_channel_scope (kind : N) : bool :=
  one_of kind
    [KIND_STREAM_MESSAGE; KIND_STREAM_MESSAGE_V2; KIND_STREAM_MESSAGE_EDIT; KIND_STREAM_MESSAGE_PINNED;
     KIND_STREAM_MESSAGE_BOOKMARKED; KIND_STREAM_MESSAGE_SCHEDULED; KIND_STREAM_REMINDER;
     KIND_STREAM_MESSAGE_DIFF; KIND_CANVAS; KIND_FORUM_POST; KIND_FORUM_VOTE; KIND_FORUM_COMMENT;
     KIND_NIP29_PUT_USER; KIND_NIP29_REMOVE_USER; KIND_NIP29_EDIT_METADATA; KIND_NIP29_DELETE_EVENT;
     KIND_NIP29_DELETE_GROUP; KIND_NIP29_LEAVE_REQUEST; KIND_HUDDLE_STARTED;
     KIND_HUDDLE_PARTICIPANT_JOINED; KIND_HUDDLE_PARTICIPANT_LEFT; KIND_HUDDLE_ENDED;
     KIND_HUDDLE_GUIDELINES].

(** The kinds whose own validators decide in place of the membership gate. *)
Definition skip_membership (kind : N) : bool :=
  one_of kind
    [KIND_NIP29_JOIN_REQUEST; KIND_NIP29_CREATE_GROUP; KIND_STREAM_MESSAGE_EDIT;
     KIND_NIP29_EDIT_METADATA; KIND_NIP29_DELETE_EVENT; KIND_NIP29_DELETE_GROUP].

(** [side_effects.rs]. *)
Definition is_admin_kind (kind : N) : bool := in_kind_range 9000 9022 kind.

Definition is_side_effect_kind (kind : N) : bool :=
  one_of kind [0%N; 5%N] || in_kind_range 9000 9022 kind
  || one_of kind [KIND_GIT_REPO_ANNOUNCEMENT; KIND_AGENT_PROFILE]
  || in_kind_range 41001 41003 kind || one_of kind [40099%N].

Section rules.
Context {NT : NostrTags}.

(** [tags.iter().find_map(|t| if t.kind().to_string() == key { t.content() .. })]. *)
Fixpoint find_content {A : Type} (key : string) (f : string → option A) (ts : list Tag) : option A :=
  match ts with
  | [] => None
  | t :: ts' =>
      if decide (tag_kind t = key) then
        match tag_content t with
        | Some v => match f v with Some a => Some a | None => find_content key f ts' end
        | None => find_content key f ts'
        end
      else find_content key f ts'
  end.

Definition first_content (key : string) (ts : list Tag) : option string := find_content key Some ts.

(** The first [e] tag that names an event. *)
Definition hex64 (v : string) : option string := if is_hex64 v then Some v else None.
Definition first_e_target (ts : list Tag) : option string := find_content "e" hex64 ts.
(** The last one, as NIP-25 reads a reaction. *)
Definition last_e_target (ts : list Tag) : option string := find_content "e" hex64 (rev ts).

Definition count_tags (key : string) (ts : list Tag) : nat :=
  length (filter (λ t : Tag, tag_kind t = key) ts).
Definition count_e_tags (event : Event) : nat := count_tags "e" (tags event).

Definition has_tag_kind (key : string) (ts : list Tag) : bool :=
  existsb (λ t, bool_decide (tag_kind t = key)) ts.

Definition required_scope_for_kind (kind : N) (event : Event) : result Scope string :=
  if one_of kind [KIND_PROFILE] then Ok UsersWrite
  else if one_of kind [KIND_TEXT_NOTE; KIND_LONG_FORM] then Ok MessagesWrite
  else if one_of kind
    [KIND_CONTACT_LIST; KIND_READ_STATE; KIND_USER_STATUS; KIND_AGENT_ENGRAM; KIND_EVENT_REMINDER;
     KIND_PERSONA; KIND_TEAM; KIND_MANAGED_AGENT; KIND_PRIVATE_MANAGED_AGENT; KIND_TEAM_CATALOG;
     KIND_PUSH_LEASE] then Ok UsersWrite
  else if one_of kind [KIND_AGENT_TURN_METRIC] then Ok MessagesWrite
  else if one_of kind [KIND_REPORT; KIND_PRODUCT_FEEDBACK] then Ok MessagesWrite
  else if is_moderation_command_kind kind then Ok MessagesWrite
  else if one_of kind
    [KIND_MUTE_LIST; KIND_PIN_LIST; KIND_NIP65_RELAY_LIST_METADATA; KIND_BOOKMARK_LIST; KIND_FOLLOW_SET;
     KIND_BOOKMARK_SET; KIND_EMOJI_SET; KIND_EMOJI_LIST; KIND_AGENT_PROFILE] then Ok UsersWrite
  else if one_of kind
    [KIND_DELETION; KIND_REACTION; KIND_GIFT_WRAP; KIND_STREAM_MESSAGE; KIND_STREAM_MESSAGE_V2;
     KIND_NIP29_DELETE_EVENT; KIND_STREAM_MESSAGE_EDIT; KIND_STREAM_MESSAGE_PINNED;
     KIND_STREAM_MESSAGE_BOOKMARKED; KIND_STREAM_MESSAGE_SCHEDULED; KIND_STREAM_REMINDER;
     KIND_STREAM_MESSAGE_DIFF; KIND_FORUM_POST; KIND_FORUM_VOTE; KIND_FORUM_COMMENT] then Ok MessagesWrite
  else if one_of kind [KIND_NIP29_PUT_USER; KIND_NIP29_REMOVE_USER; KIND_NIP29_DELETE_GROUP] then
    Ok AdminChannels
  else if one_of kind
    [RELAY_ADMIN_ADD_MEMBER; RELAY_ADMIN_REMOVE_MEMBER; RELAY_ADMIN_CHANGE_ROLE;
     RELAY_ADMIN_SET_WORKSPACE_PROFILE] then Ok AdminUsers
  else if one_of kind [KIND_IA_ARCHIVE_REQUEST; KIND_IA_UNARCHIVE_REQUEST] then Ok UsersWrite
  else if one_of kind [KIND_NIP29_EDIT_METADATA] then
    if has_tag_kind "archived" (tags event) then Ok AdminChannels else Ok ChannelsWrite
  else if one_of kind [KIND_NIP29_CREATE_GROUP; KIND_CANVAS] then Ok ChannelsWrite
  else if one_of kind [KIND_NIP29_JOIN_REQUEST; KIND_NIP29_LEAVE_REQUEST; KIND_NIP43_LEAVE_REQUEST] then
    Ok ChannelsRead
  else if one_of kind
    [KIND_HUDDLE_STARTED; KIND_HUDDLE_PARTICIPANT_JOINED; KIND_HUDDLE_PARTICIPANT_LEFT;
     KIND_HUDDLE_ENDED; KIND_HUDDLE_GUIDELINES] then Ok ChannelsWrite
  else if one_of kind [KIND_GIT_REPO_ANNOUNCEMENT; KIND_GIT_REPO_STATE] then Ok ReposWrite
  else if one_of kind [KIND_PROJECT] then Ok ReposWrite
  else if one_of kind
    [KIND_GIT_PATCH; KIND_GIT_PULL_REQUEST; KIND_GIT_PR_UPDATE; KIND_GIT_ISSUE; KIND_GIT_STATUS_OPEN;
     KIND_GIT_STATUS_MERGED; KIND_GIT_STATUS_CLOSED; KIND_GIT_STATUS_DRAFT] then Ok MessagesWrite
  else if one_of kind [KIND_DM_OPEN; KIND_DM_ADD_MEMBER; KIND_DM_HIDE] then Ok MessagesWrite
  else if one_of kind [KIND_WORKFLOW_DEF; KIND_WORKFLOW_TRIGGER] then Ok MessagesWrite
  else if one_of kind [KIND_APPROVAL_GRANT; KIND_APPROVAL_DENY] then Ok MessagesWrite
  else Err "restricted: unknown event kind".

(** ** The channel and the author *)

(** [str::parse::<Uuid>] of the [uuid] crate. *)
Context (parse_uuid : string → option Uuid).

Definition extract_channel_id (event : Event) : option Uuid := find_content "h" parse_uuid (tags event).

(** [effective_message_author]: the relay signs for the [actor], else for the
first [p] tag that is a key. *)
Definition effective_message_author (relay_pubkey : string) (event : Event) : string :=
  if decide (pubkey event = relay_pubkey) then
    match first_content "actor" (tags event) ≫= decode_32 with
    | Some bytes => bytes
    | None => default (pubkey event) (find_content "p" decode_32 (tags event))
    end
  else pubkey event.

Definition check_token_channel_access (auth : IngestAuth) (channel_id : Uuid) : result unit string :=
  match auth_channel_ids auth with
  | Some allowed =>
      if bool_decide (channel_id ∈ allowed) then Ok tt
      else Err "restricted: token does not have access to this channel"
  | None => Ok tt
  end.

(** [resolve_ttl] ([handlers/mod.rs]); [str::parse::<i32>] is an interface. *)
Context (parse_i32 : string → option Z).

Definition resolve_ttl (event : Event) (ephemeral_ttl_override : option Z) : option Z :=
  match find_content "ttl" parse_i32 (tags event), ephemeral_ttl_override with
  | Some _, Some ovr => Some ovr
  | ttl, _ => ttl
  end.

(** [is_workflow_deletion] ([side_effects.rs]). *)
Definition has_e_tag (event : Event) : bool := has_tag_kind "e" (tags event).

Definition first_of_kind (key : string) (ts : list Tag) : option Tag :=
  List.find (λ t, bool_decide (tag_kind t = key)) ts.

Definition is_workflow_deletion (event : Event) : bool :=
  bool_decide (kind event = KIND_DELETION) && negb (has_e_tag event)
  && match first_of_kind "a" (tags event) ≫= tag_content with
     | Some value =>
         bool_decide ((head (split_on ":" value) ≫= parse_uint 4294967295) = Some KIND_WORKFLOW_DEF)
     | None => false
     end.

End rules.

(** ** Lemmas *)

Lemma is_lower_hex64_spec (v : string) :
  is_lower_hex64 v = true ↔ String.length v = 64 ∧ string_forall is_lower_hexdigit v = true.
Proof. unfold is_lower_hex64. by rewrite andb_true_iff, Nat.eqb_eq. Qed.
