(* ===== verification/IngestEnvelopes.v ===== *)
(** * IngestEnvelopes: the validators of an event's public envelope

Models the synchronous validators of [ingest.rs]: emoji and reactions, canvas
preconditions, link previews, diffs, and the envelopes of engrams, personas,
team catalogs, projects, agent turn metrics and reminders.  [{:?}] of a text
is the interface [TraceText], the [url] crate is [UrlCrate].  The last part
proves the NIP-44 content check to be a decoder. *)
From stdpp Require Import pretty.
From S2P Require Import Conformance Prelude Text Encode Nostr Kind Gossip IngestRules.

(** ** Characters *)

(** [s.chars().count()]: the bytes that do not continue a character. *)
Fixpoint char_count (s : string) : nat :=
  match s with
  | EmptyString => 0
  | String c s' => (if is_continuation c then 0 else 1) + char_count s'
  end.

(** Whether the text starts with a [char::is_control] (category Cc). *)
Definition starts_control (s : string) : bool :=
  match map N_of_ascii (String.list_ascii_of_string s) with
  | a :: l =>
      (a <? 32)%N || (a =? 127)%N
      || ((a =? 194)%N && match l with b :: _ => bool_decide (128 <= b <= 159)%N | [] => false end)
  | [] => false
  end.

(** [s.chars().any(..)], of a test of what a text starts with. *)
Fixpoint any_suffix (p : string → bool) (s : string) : bool :=
  p s || match s with EmptyString => false | String _ s' => any_suffix p s' end.

Definition has_control (s : string) : bool := any_suffix starts_control s.
Definition has_whitespace (s : string) : bool := any_suffix starts_whitespace s.

Definition fmt_nat (n : nat) : string := pretty (N.of_nat n).

(** [tag.as_slice().first() == Some(key)]. *)
Definition named (key : string) (t : Tag) : bool := bool_decide (head t = Some key).

(** The value of a tag of two parts or more named [key]. *)
Definition value_of (key : string) (t : Tag) : option string :=
  match t with p0 :: p1 :: _ => if decide (p0 = key) then Some p1 else None | _ => None end.

Definition values_of (key : string) (ts : list Tag) : list string := omap (value_of key) ts.

(** ** Emoji *)

(** [trim_matches(':')]. *)
Fixpoint trim_start_char (c : ascii) (s : string) : string :=
  match s with
  | String d s' => if Ascii.eqb c d then trim_start_char c s' else s
  | EmptyString => s
  end.

Fixpoint trim_end_char (c : ascii) (s : string) : string :=
  match s with
  | String d s' =>
      if string_forall (Ascii.eqb c) s then EmptyString else String d (trim_end_char c s')
  | EmptyString => s
  end.

Definition MAX_CUSTOM_EMOJI_SHORTCODE_LEN : nat := 64.
Definition MAX_CUSTOM_EMOJI_REACTION_LEN : nat := MAX_CUSTOM_EMOJI_SHORTCODE_LEN + 2.

Definition is_shortcode_char (c : ascii) : bool :=
  is_ascii_alphanumeric c || Ascii.eqb c "-" || Ascii.eqb c "_".

(** [buzz_sdk::normalize_custom_emoji_shortcode], its error as it prints. *)
Definition normalize_custom_emoji_shortcode (shortcode : string) : result string string :=
  let trimmed := trim_end_char ":" (trim_start_char ":" (trim shortcode)) in
  if String.eqb trimmed "" then Err "invalid input: emoji shortcode must not be empty"
  else if MAX_CUSTOM_EMOJI_SHORTCODE_LEN <? String.length trimmed then
    Err ("invalid input: emoji shortcode exceeds " +:+ fmt_nat MAX_CUSTOM_EMOJI_SHORTCODE_LEN
         +:+ " bytes (got " +:+ fmt_nat (String.length trimmed) +:+ ")")
  else if negb (string_forall is_shortcode_char trimmed) then
    Err "invalid input: emoji shortcode may only contain ASCII letters, digits, hyphens, and underscores"
  else Ok (to_ascii_lowercase trimmed).

Definition invalid (e : string) : IngestError := Rejected ("invalid: " +:+ e).

Fixpoint validate_custom_emoji_loop (ts : list Tag) : result unit IngestError :=
  match ts with
  | [] => Ok tt
  | parts :: ts' =>
      if named "emoji" parts then
        match parts !! 1 with
        | None => Err (Rejected "invalid: emoji tag must include a shortcode")
        | Some shortcode =>
            let? _ := map_err invalid (normalize_custom_emoji_shortcode shortcode) in
            validate_custom_emoji_loop ts'
        end
      else validate_custom_emoji_loop ts'
  end.

Definition validate_custom_emoji_tags (event : Event) : result unit IngestError :=
  validate_custom_emoji_loop (tags event).

Definition too_long_emoji (n : nat) : IngestError :=
  Rejected ("invalid: reaction emoji exceeds 64 characters (got " +:+ fmt_nat n +:+ ")").

Definition validate_reaction_emoji (event : Event) (emoji : string) : result unit IngestError :=
  let emoji_char_count := char_count emoji in
  if emoji_char_count <=? 64 then Ok tt
  else match strip_prefix ":" emoji ≫= strip_suffix ":" with
  | None => Err (too_long_emoji emoji_char_count)
  | Some shortcode =>
      let? normalized := map_err invalid (normalize_custom_emoji_shortcode shortcode) in
      if bool_decide (shortcode ≠ normalized) then
        Err (Rejected "invalid: long custom emoji reaction shortcode must be canonical lowercase")
      else
        let has_matching_tag :=
          existsb (λ parts, named "emoji" parts && bool_decide (parts !! 1 = Some shortcode)) (tags event) in
        if negb has_matching_tag || (MAX_CUSTOM_EMOJI_REACTION_LEN <? emoji_char_count) then
          Err (too_long_emoji emoji_char_count)
        else Ok tt
  end.

(** ** Canvas preconditions *)

Inductive CanvasRevisionSpec : Type :=
| NoHead
| Head (id : string).

Definition parse_canvas_expected_revision (event : Event) : result (option CanvasRevisionSpec) IngestError :=
  match List.filter (named "expected-revision") (tags event) with
  | [] => Ok None
  | [[_; value]] =>
      if String.eqb value "none" then Ok (Some NoHead)
      else match decode_32 value with
           | Some bytes => Ok (Some (Head bytes))
           | None => Err (Rejected "invalid: bad expected canvas revision")
           end
  | [_] => Err (Rejected "invalid: expected-revision tag must have exactly one value")
  | _ :: _ :: _ => Err (Rejected "invalid: duplicate expected-revision tag")
  end.

(** ** Diffs *)

Definition is_sha (s : string) : bool := (7 <=? String.length s) && string_forall is_ascii_hexdigit s.

(** One tag of the loop: the two flags, or the error. *)
Definition diff_tag (parts : Tag) (has_repo has_commit : bool) : result (bool * bool) string :=
  match parts with
  | p0 :: p1 :: rest =>
      if String.eqb p0 "repo" then
        if negb (starts_with "http://" p1) && negb (starts_with "https://" p1)
        then Err "repo URL must be http or https" else Ok (true, has_commit)
      else if String.eqb p0 "commit" then
        if negb (is_sha p1) then Err "commit SHA must be at least 7 hex characters" else Ok (has_repo, true)
      else if String.eqb p0 "parent-commit" then
        if negb (is_sha p1) then Err "parent-commit SHA must be at least 7 hex characters"
        else Ok (has_repo, has_commit)
      else if String.eqb p0 "branch"
              && match rest with
                 | p2 :: _ => String.eqb p1 "" || String.eqb p2 ""
                 | [] => true
                 end
      then Err "branch tag requires both source and target"
      else if String.eqb p0 "pr"
              && match parse_uint 4294967295 p1 with Some n => (n =? 0)%N | None => true end
      then Err "pr number must be a positive integer"
      else Ok (has_repo, has_commit)
  | _ => Ok (has_repo, has_commit)
  end.

Fixpoint diff_tags (ts : list Tag) (has_repo has_commit : bool) : result (bool * bool) string :=
  match ts with
  | [] => Ok (has_repo, has_commit)
  | parts :: ts' => let? f := diff_tag parts has_repo has_commit in diff_tags ts' f.1 f.2
  end.

Definition validate_diff_event (event : Event) : result unit string :=
  if (61440 <? N.of_nat (String.length (content event)))%N then
    Err ("diff content exceeds 60KB limit (got " +:+ fmt_nat (String.length (content event)) +:+ " bytes)")
  else
  let? f := diff_tags (tags event) false false in
  if negb f.1 then Err "diff event requires a repo tag"
  else if negb f.2 then Err "diff event requires a commit tag"
  else Ok tt.

(** ** NIP-44 content

[label] is the kind's name in the messages, which the caller replaces. *)
Definition b64_val (c : ascii) : option N :=
  let n := N_of_ascii c in
  if in_range 65 90 c then Some (n - 65)%N
  else if in_range 97 122 c then Some (n - 97 + 26)%N
  else if in_range 48 57 c then Some (n - 48 + 52)%N
  else if Ascii.eqb c "+" then Some 62%N
  else if Ascii.eqb c "/" then Some 63%N
  else None.

(** The loop over the bytes: [Some pad_count], or [None] for the error. *)
Fixpoint b64_scan (len i pad_count : nat) (s : string) : option nat :=
  match s with
  | EmptyString => Some pad_count
  | String b s' =>
      if bool_decide (is_Some (b64_val b)) then
        if 0 <? pad_count then None else b64_scan len (S i) pad_count s'
      else if Ascii.eqb b "=" then
        if i <? len - 2 then None
        else if 2 <? S pad_count then None
        else b64_scan len (S i) (S pad_count) s'
      else None
  end.

Definition validate_nip44_content (label content : string) : result unit string :=
  let len := String.length content in
  let bad := label +:+ " content is not valid base64" in
  if String.eqb content "" then Err (label +:+ " content must not be empty (NIP-44 ciphertext)")
  else if negb (len mod 4 =? 0) then Err (bad +:+ " (length)")
  else match b64_scan len 0 0 content with
  | None => Err bad
  | Some pad_count =>
      let decoded_len := (len / 4) * 3 - pad_count in
      if decoded_len <? 99 then Err (label +:+ " content too short for NIP-44 v2")
      else
      let? v0 := ok_or (String.get 0 content ≫= b64_val) bad in
      let? v1 := ok_or (String.get 1 content ≫= b64_val) bad in
      let first_byte := (N.lor (N.shiftl v0 2) (N.shiftr v1 4) mod 256)%N in
      if bool_decide (first_byte ≠ 2%N) then
        Err (label +:+ " content is not NIP-44 v2 (expected 0x02 version prefix)")
      else Ok tt
  end.

Definition validate_engram_nip44_content (content : string) : result unit string :=
  validate_nip44_content "agent-engram" content.

(** ** Engrams and turn metrics *)

Definition exactly_one (what key : string) (vs : list string) : result string string :=
  match vs with
  | [v] => Ok v
  | _ => Err (what +:+ " event must have exactly one `" +:+ key +:+ "` tag (got " +:+ fmt_nat (length vs) +:+ ")")
  end.

Definition validate_engram_envelope (event : Event) : result unit string :=
  let? d := exactly_one "agent-engram" "d" (values_of "d" (tags event)) in
  let? p := exactly_one "agent-engram" "p" (values_of "p" (tags event)) in
  if negb (is_lower_hex64 d) then Err "agent-engram `d` tag must be 64 lowercase hex chars"
  else if negb (is_lower_hex64 p) then Err "agent-engram `p` tag must be 64 lowercase hex chars (pubkey)"
  else validate_engram_nip44_content (content event).

Definition validate_agent_turn_metric_envelope (event : Event) : result unit string :=
  if negb (bool_decide (values_of "h" (tags event) = [])) then
    Err "agent-turn-metric event must not have an `h` tag (channel identity belongs inside the encrypted payload)"
  else
  let? p := exactly_one "agent-turn-metric" "p" (values_of "p" (tags event)) in
  if negb (is_lower_hex64 p) then Err "agent-turn-metric `p` tag must be 64 lowercase hex chars"
  else
  let? agent := exactly_one "agent-turn-metric" "agent" (values_of "agent" (tags event)) in
  if negb (is_lower_hex64 agent) then Err "agent-turn-metric `agent` tag must be 64 lowercase hex chars"
  else if bool_decide (agent ≠ pubkey event) then Err "agent-turn-metric `agent` tag must equal event pubkey"
  else validate_nip44_content "agent-turn-metric" (content event).

(** ** Personas, team catalogs and projects *)

Section debug.
Context {TT : TraceText}.

Fixpoint shared_tag_loop (label : string) (shared_count : nat) (ts : list Tag) : result nat string :=
  match ts with
  | [] => Ok shared_count
  | parts :: ts' =>
      if named "shared" parts then
        if bool_decide (parts = ["shared"; "true"]) then shared_tag_loop label (S shared_count) ts'
        else Err (label +:+ " `shared` tag must be exactly [" +:+ debug_str "shared" +:+ "," +:+ debug_str "true"
                  +:+ "] (got [" +:+ debug_list parts +:+ "])")
      else shared_tag_loop label shared_count ts'
  end.

Definition validate_shared_tag (event : Event) (label : string) : result unit string :=
  let? shared_count := shared_tag_loop label 0 (tags event) in
  if 1 <? shared_count then
    Err (label +:+ " must have at most one `shared` tag (got " +:+ fmt_nat shared_count +:+ ")")
  else Ok tt.

(** The values of the tags named [key], the empty text where there is none. *)
Definition loose_values (key : string) (ts : list Tag) : list string :=
  map (λ parts, default "" (parts !! 1)) (List.filter (named key) ts).

Definition single_bounded_d_tag (event : Event) (label : string) : result string string :=
  match loose_values "d" (tags event) with
  | [d] =>
      if String.eqb d "" then Err (label +:+ " `d` tag must not be empty")
      else if 64 <? char_count d then
        Err (label +:+ " `d` tag too long (" +:+ fmt_nat (char_count d) +:+ " chars, max 64)")
      else if has_control d || has_whitespace d then
        Err (label +:+ " `d` tag must not contain control characters or whitespace")
      else Ok d
  | d_tags => Err (label +:+ " must have exactly one `d` tag (got " +:+ fmt_nat (length d_tags) +:+ ")")
  end.

Definition is_slug_head (c : ascii) : bool := is_ascii_lower c || is_ascii_digit c.
Definition is_slug_char (c : ascii) : bool := is_slug_head c || Ascii.eqb c "_" || Ascii.eqb c "-".

Definition validate_persona_envelope (event : Event) : result unit string :=
  let label := "persona event" in
  let? _ := validate_shared_tag event label in
  let? d := single_bounded_d_tag event label in
  if negb (string_forall is_slug_head (str_take 1 d)) then
    Err (label +:+ " `d` tag must start with a lowercase letter or digit")
  else if negb (string_forall is_slug_char (str_drop 1 d)) then
    Err (label +:+ " `d` tag must match [a-z0-9_-] after the first character")
  else Ok tt.

Definition validate_team_catalog_envelope (event : Event) : result unit string :=
  let label := "team-catalog event" in
  let? _ := validate_shared_tag event label in
  let? _ := single_bounded_d_tag event label in
  Ok tt.

Definition PROJECT_MEMBER_CAP : nat := 64.
Definition PROJECT_NAME_MAX_LEN : nat := 256.
Definition PROJECT_DESCRIPTION_MAX_LEN : nat := 2048.
Definition PROJECT_METADATA_TAG_MAX_LEN : nat := 256.
Definition PROJECT_SINGLETON_METADATA_TAGS : list (string * nat) :=
  [("name", PROJECT_NAME_MAX_LEN); ("description", PROJECT_DESCRIPTION_MAX_LEN);
   ("buzz-channel", PROJECT_METADATA_TAG_MAX_LEN); ("buzz-visibility", PROJECT_METADATA_TAG_MAX_LEN)].
Definition PROJECT_MEMBER_KIND_SEGMENT : string := "30617".

Record ProjectRejection : Type := mkProjectRejection { rule : string; rejection : string }.

Definition project_rejection_to_string (r : ProjectRejection) : string :=
  "[" +:+ rule r +:+ "] " +:+ rejection r.

(** [splitn(3, ':')]: the coordinate's three segments. *)
Definition splitn3 (s : string) : option (string * string * string) :=
  match split_once ":" s with
  | Some (a, rest) => match split_once ":" rest with Some (b, c) => Some (a, b, c) | None => None end
  | None => None
  end.

Definition parse_project_member_coordinate (coordinate : string) : result unit ProjectRejection :=
  let malformed := mkProjectRejection "member-coordinate-malformed"
    ("project event member `a` tag must be `" +:+ PROJECT_MEMBER_KIND_SEGMENT
     +:+ ":<lowercase-64-hex-owner>:<repo-d>` (got " +:+ debug_str coordinate +:+ ")") in
  match splitn3 coordinate with
  | None => Err malformed
  | Some (kind, owner, repo_d) =>
      if negb (String.eqb kind PROJECT_MEMBER_KIND_SEGMENT) then Err malformed
      else if negb (is_lower_hex64 owner) then Err malformed
      else if String.eqb repo_d "" then Err malformed
      else Ok tt
  end.

Definition wrong_arity (parts : Tag) : bool :=
  named "a" parts && negb ((2 <=? length parts) && (length parts <=? 3)).

Fixpoint member_loop (seen members : list string) : result unit ProjectRejection :=
  match members with
  | [] => Ok tt
  | member :: ms =>
      let? _ := parse_project_member_coordinate member in
      if bool_decide (member ∈ seen) then
        Err (mkProjectRejection "member-duplicate"
          ("project event has duplicate member coordinate " +:+ debug_str member))
      else member_loop (member :: seen) ms
  end.

(** The metadata tags in their order: first the counts, then the lengths of
the last value of each. *)
Fixpoint metadata_counts (keys : list (string * nat)) (ts : list Tag) : result unit ProjectRejection :=
  match keys with
  | [] => Ok tt
  | (key, _) :: keys' =>
      let count := length (loose_values key ts) in
      if 1 <? count then
        Err (mkProjectRejection "metadata-cardinality"
          ("project event must have at most one `" +:+ key +:+ "` tag (got " +:+ fmt_nat count +:+ ")"))
      else metadata_counts keys' ts
  end.

Fixpoint metadata_lengths (keys : list (string * nat)) (ts : list Tag) : result unit ProjectRejection :=
  match keys with
  | [] => Ok tt
  | (key, max) :: keys' =>
      match last (loose_values key ts) with
      | Some value =>
          if max <? String.length value then
            Err (mkProjectRejection "metadata-length"
              ("project event `" +:+ key +:+ "` tag too long (" +:+ fmt_nat (String.length value)
               +:+ " bytes, max " +:+ fmt_nat max +:+ ")"))
          else metadata_lengths keys' ts
      | None => metadata_lengths keys' ts
      end
  end.

Definition validate_project_envelope (event : Event) : result unit ProjectRejection :=
  let d_tags := loose_values "d" (tags event) in
  let members := loose_values "a" (tags event) in
  match d_tags with
  | [d] =>
      if String.eqb d "" then Err (mkProjectRejection "d-empty" "project event `d` tag must not be empty")
      else if PROJECT_MEMBER_CAP <? length members then
        Err (mkProjectRejection "member-cap"
          ("project event must have at most " +:+ fmt_nat PROJECT_MEMBER_CAP +:+ " member `a` tags (got "
           +:+ fmt_nat (length members) +:+ ")"))
      else match List.find wrong_arity (tags event) with
      | Some parts =>
          Err (mkProjectRejection "member-tag-arity"
            ("project event member `a` tag must have exactly 2 or 3 elements (got "
             +:+ fmt_nat (length parts) +:+ ")"))
      | None =>
          let? _ := member_loop [] members in
          let? _ := metadata_counts PROJECT_SINGLETON_METADATA_TAGS (tags event) in
          metadata_lengths PROJECT_SINGLETON_METADATA_TAGS (tags event)
      end
  | _ => Err (mkProjectRejection "d-cardinality"
           ("project event must have exactly one `d` tag (got " +:+ fmt_nat (length d_tags) +:+ ")"))
  end.

End debug.

(** ** Reminders *)

Definition U64_MAX : N := 18446744073709551615.
Definition MAX_NOT_BEFORE : N := 9007199254740991.

Definition validate_not_before (tag_value : string) : result N string :=
  if String.eqb tag_value "" || negb (string_forall is_ascii_digit tag_value) then Err "malformed not_before"
  else if (1 <? String.length tag_value) && starts_with "0" tag_value then Err "malformed not_before"
  else
  let? value := ok_or (parse_uint U64_MAX tag_value) "malformed not_before" in
  if (MAX_NOT_BEFORE <? value)%N then Err "malformed not_before" else Ok value.

(** What the loop of [validate_event_reminder] keeps. *)
Record Reminder : Type := mkReminder {
  not_before : option N;
  expiration : option string;
  d_count : N;              (* a saturating [u8] *)
  d_empty : bool
}.

Definition reminder_tag (r : Reminder) (parts : Tag) : result Reminder string :=
  match parts with
  | p0 :: p1 :: _ =>
      if String.eqb p0 "not_before" then
        if bool_decide (is_Some (not_before r)) then Err "malformed not_before"
        else
        let? nb := validate_not_before p1 in
        Ok (mkReminder (Some nb) (expiration r) (d_count r) (d_empty r))
      else if String.eqb p0 "expiration" then Ok (mkReminder (not_before r) (Some p1) (d_count r) (d_empty r))
      else if String.eqb p0 "d" then
        Ok (mkReminder (not_before r) (expiration r) (N.min (d_count r + 1) 255) (d_empty r || String.eqb p1 ""))
      else Ok r
  | _ => Ok r
  end.

Fixpoint reminder_tags (r : Reminder) (ts : list Tag) : result Reminder string :=
  match ts with
  | [] => Ok r
  | parts :: ts' => let? r' := reminder_tag r parts in reminder_tags r' ts'
  end.

(** [max_delta] is SPROUT_MAX_NOT_BEFORE_DELTA, a year by default.  The sum
[now + max_delta] is a [u64]'s: it wraps in a release build. *)
Definition DEFAULT_NOT_BEFORE_DELTA : N := 31536000.

Definition validate_event_reminder (now max_delta : N) (event : Event) : result unit string :=
  let? r := reminder_tags (mkReminder None None 0 false) (tags event) in
  if (d_count r =? 0)%N then Err "missing d tag"
  else if (1 <? d_count r)%N then Err "duplicate d tag"
  else if d_empty r then Err "empty d tag"
  else match not_before r with
  | None => Ok tt
  | Some nb =>
      if ((now + max_delta) mod 18446744073709551616 <? nb)%N then Err "not_before too far in future"
      else match expiration r ≫= parse_uint U64_MAX with
           | Some exp => if (exp <=? nb)%N then Err "expiration before not_before" else Ok tt
           | None => Ok tt
           end
  end.

(** ** Link previews

[Url::parse], and what the code reads of a URL. *)
Record Url : Type := mkUrl {
  scheme : string;
  username : string;
  password : option string;
  host_str : option string;
  port_or_known_default : option N;
  path : string;
  query : option string;
  fragment : option string
}.

Class UrlCrate : Type := { url_parse : string → option Url }.

Section link_previews.
Context {UC : UrlCrate}.

Definition NEWLINE : string := String "010" "".

Definition valid_link_preview_text (value : string) (max : nat) (allow_newlines : bool) : bool :=
  (String.length value <=? max)
  && negb (any_suffix (λ s, starts_control s && negb (allow_newlines && starts_with NEWLINE s)) value).

Definition IMAGE_EXTS : list string := ["jpg"; "png"; "gif"; "webp"].

(** [validate_local_image_media_pair] ([imeta.rs]). *)
Definition validate_local_image_media_pair (media_url sha256 media_base_url : string) : bool :=
  if String.eqb media_url "" && String.eqb sha256 "" then true
  else if String.eqb media_url "" || negb (is_lower_hex64 sha256) then false
  else match url_parse media_url, url_parse media_base_url with
  | Some parsed, Some base =>
      if negb (String.eqb (scheme parsed) (scheme base))
         || negb (bool_decide (host_str parsed = host_str base))
         || negb (bool_decide (port_or_known_default parsed = port_or_known_default base))
         || negb (String.eqb (username parsed) "")
         || bool_decide (is_Some (password parsed))
         || bool_decide (is_Some (query parsed))
         || bool_decide (is_Some (fragment parsed))
      then false
      else match strip_prefix "/media/" (path parsed) with
      | None => false
      | Some filename =>
          match split_once "." filename with
          | None => false
          | Some (path_hash, ext) =>
              negb (contains_char "/" filename) && negb (contains_char "%" filename)
              && String.eqb path_hash sha256 && bool_decide (ext ∈ IMAGE_EXTS)
          end
      end
  | _, _ => false
  end.

Definition MAX_SNAPSHOTS : nat := 8.
Definition MAX_TITLE : nat := 300.
Definition MAX_SITE : nat := 100.
Definition MAX_DESCRIPTION : nat := 1000.

Definition contains (needle s : string) : bool := bool_decide (is_Some (find_str needle s)).

(** One snapshot, its eleven parts checked; [Ok] is the canonical URL's text. *)
Definition check_snapshot (event : Event) (media_base_url : string) (seen : list string) (parts : Tag)
    : result string string :=
  match parts with
  | [_; p1; p2; p3; p4; p5; p6; p7; p8; p9; p10] =>
      if negb (String.eqb p1 "snapshot") || negb (String.eqb p2 "1") then
        Err "invalid link-preview snapshot tag"
      else match url_parse p3 with
      | None => Err "invalid link-preview canonical URL"
      | Some canonical =>
          if negb (String.eqb (scheme canonical) "https") || negb (String.eqb (username canonical) "")
             || bool_decide (is_Some (password canonical)) || bool_decide (is_Some (fragment canonical))
             || bool_decide (p3 ∈ seen) || negb (contains p3 (content event))
          then Err "invalid link-preview canonical URL"
          else if negb (valid_link_preview_text p4 MAX_TITLE false)
               || negb (valid_link_preview_text p5 MAX_SITE false)
               || negb (valid_link_preview_text p6 MAX_DESCRIPTION true)
          then Err "invalid link-preview snapshot text"
          else if negb (validate_local_image_media_pair p7 p8 media_base_url)
               || negb (validate_local_image_media_pair p9 p10 media_base_url)
          then Err "link-preview media must reference matching local image blobs"
          else Ok p3
      end
  | _ => Err "invalid link-preview snapshot tag"
  end.

Fixpoint link_preview_loop (event : Event) (media_base_url : string) (count : nat) (suppressed : bool)
    (seen : list string) (ts : list Tag) : result unit string :=
  match ts with
  | [] => Ok tt
  | parts :: ts' =>
      if named "link-preview" parts then
        let count := S count in
        if bool_decide (parts = ["link-preview"; "none"]) then
          if 1 <? count then Err "link-preview suppression cannot include snapshots"
          else link_preview_loop event media_base_url count true seen ts'
        else if suppressed || (MAX_SNAPSHOTS <? count) then Err "invalid link-preview snapshot tag"
        else
        let? url := check_snapshot event media_base_url seen parts in
        link_preview_loop event media_base_url count suppressed (url :: seen) ts'
      else link_preview_loop event media_base_url count suppressed seen ts'
  end.

Definition validate_link_preview_tags (event : Event) (media_base_url : string) : result unit string :=
  link_preview_loop event media_base_url 0 false [] (tags event).

End link_previews.

(** * The content check is a base64 decoder

[validate_nip44_content] of [ingest.rs] looks at a payload without decoding
it: it counts padding and reads the first byte.  Here it is proved to accept
exactly what a decoder, group by group, turns into at least 99 bytes of which
the first is the version. *)

#[local] Arguments Nat.modulo _ _ : simpl never.

(** The bytes of base64 with padding, in groups of four characters. *)
Fixpoint b64_decode (s : string) : option (list N) :=
  match s with
  | EmptyString => Some []
  | String a (String b (String c (String d s'))) =>
      va ← b64_val a; vb ← b64_val b;
      let b1 := (va * 4 + vb / 16)%N in
      if Ascii.eqb c "=" && Ascii.eqb d "=" && String.eqb s' "" then Some [b1]
      else
      vc ← b64_val c;
      let b2 := (vb mod 16 * 16 + vc / 4)%N in
      if Ascii.eqb d "=" && String.eqb s' "" then Some [b1; b2]
      else
      vd ← b64_val d;
      rest ← b64_decode s';
      Some (b1 :: b2 :: (vc mod 4 * 64 + vd)%N :: rest)
  | _ => None
  end.

(** ** Characters *)

Lemma b64_val_pad : b64_val "=" = None.
Proof. reflexivity. Qed.

Definition all_ascii : list ascii := map ascii_of_nat (seq 0 256).
Lemma all_ascii_elem c : c ∈ all_ascii.
Proof.
  apply list_elem_of_fmap. exists (nat_of_ascii c). split; [by rewrite ascii_nat_embedding|].
  apply elem_of_seq. split; [lia|]. apply nat_ascii_bounded.
Qed.

Lemma b64_val_lt c v : b64_val c = Some v → (v < 64)%N.
Proof.
  intros Hv.
  assert (forallb (λ c, match b64_val c with Some v => (v <? 64)%N | None => true end) all_ascii = true) as Hall
    by (vm_compute; reflexivity).
  rewrite forallb_forall in Hall. specialize (Hall c (proj1 (list_elem_of_In _ _) (all_ascii_elem c))).
  rewrite Hv in Hall. by apply N.ltb_lt.
Qed.

(** The first byte, by the code's bit operations and by arithmetic. *)
Definition six_bits : list N := map N.of_nat (seq 0 64).
Lemma first_byte_eq v0 v1 :
  (v0 < 64)%N → (v1 < 64)%N → (N.lor (N.shiftl v0 2) (N.shiftr v1 4) mod 256 = v0 * 4 + v1 / 16)%N.
Proof.
  intros H0 H1.
  assert (forallb (λ v0, forallb (λ v1, N.lor (N.shiftl v0 2) (N.shiftr v1 4) mod 256 =? v0 * 4 + v1 / 16)%N six_bits)
    six_bits = true) as Hall by (vm_compute; reflexivity).
  assert (∀ v, (v < 64)%N → v ∈ six_bits) as Hin.
  { intros v Hv. apply list_elem_of_fmap. exists (N.to_nat v). split; [lia|]. apply elem_of_seq. lia. }
  rewrite forallb_forall in Hall. specialize (Hall v0 (proj1 (list_elem_of_In _ _) (Hin v0 H0))).
  rewrite forallb_forall in Hall. apply N.eqb_eq, Hall, list_elem_of_In. by apply Hin.
Qed.

(** ** The scan *)

Lemma scan_valid len i c v s : b64_val c = Some v → b64_scan len i 0 (String c s) = b64_scan len (S i) 0 s.
Proof. intros Hv. cbn [b64_scan]. by rewrite Hv. Qed.

Lemma scan_invalid_early len i c s : b64_val c = None → i < len - 2 → b64_scan len i 0 (String c s) = None.
Proof.
  intros Hv Hi. cbn [b64_scan]. rewrite Hv. simpl. destruct (Ascii.eqb c "="); [|done].
  by apply Nat.ltb_lt in Hi as ->.
Qed.

Lemma scan_invalid_late len i c s :
  b64_val c = None → len - 2 <= i →
  b64_scan len i 0 (String c s) = if Ascii.eqb c "=" then b64_scan len (S i) 1 s else None.
Proof.
  intros Hv Hi. cbn [b64_scan]. rewrite Hv. simpl. destruct (Ascii.eqb c "="); [|done].
  by apply Nat.ltb_ge in Hi as ->.
Qed.

(** The scan accepts what the decoder decodes, and its count is the bytes
missing to a full last group. *)
Lemma scan_decode n s i len :
  String.length s = 4 * n → len = i + 4 * n →
  match b64_scan len i 0 s with
  | Some p => ∃ bytes, b64_decode s = Some bytes ∧ length bytes + p = 3 * n
  | None => b64_decode s = None
  end.
Proof.
  revert s i. induction n as [|n IH]; intros s i Hs Hlen.
  { destruct s; [|done]. simpl. by exists []. }
  destruct s as [|a [|b [|c [|d s']]]]; simpl in Hs; try lia.
  assert (String.length s' = 4 * n) as Hs' by lia.
  assert (String.eqb s' "" = (n =? 0)) as Hemp.
  { destruct s', n; simpl in Hs' |- *; try done; lia. }
  cbn [b64_decode]. rewrite Hemp.
  destruct (b64_val a) as [va|] eqn:Ea; [|rewrite scan_invalid_early by (done || lia); done].
  rewrite (scan_valid _ _ _ _ _ Ea). cbn [mbind option_bind].
  destruct (b64_val b) as [vb|] eqn:Eb; [|rewrite scan_invalid_early by (done || lia); done].
  rewrite (scan_valid _ _ _ _ _ Eb). cbn [mbind option_bind].
  destruct (b64_val c) as [vc|] eqn:Ec.
  - assert (Ascii.eqb c "=" = false) as Hc.
    { destruct (Ascii.eqb_spec c "="); [|done]. subst c. by rewrite b64_val_pad in Ec. }
    rewrite (scan_valid _ _ _ _ _ Ec), Hc. cbn [andb].
    destruct (b64_val d) as [vd|] eqn:Ed.
    + assert (Ascii.eqb d "=" = false) as Hd.
      { destruct (Ascii.eqb_spec d "="); [|done]. subst d. by rewrite b64_val_pad in Ed. }
      rewrite (scan_valid _ _ _ _ _ Ed), Hd. cbn [andb].
      specialize (IH s' (S (S (S (S i)))) Hs' ltac:(lia)). destruct (b64_scan _ _ _ _) as [p|].
      * destruct IH as (bytes & -> & Hb). eexists. split; [done|]. simpl. lia.
      * by rewrite IH.
    + destruct n as [|n].
      * destruct s'; [|done]. rewrite scan_invalid_late by (done || lia). destruct (Ascii.eqb d "="); simpl; [|done].
        eexists. split; [done|]. simpl. lia.
      * rewrite scan_invalid_early by (done || lia). by rewrite andb_false_r.
  - destruct n as [|n].
    + destruct s'; [|done]. rewrite scan_invalid_late by (done || lia). destruct (Ascii.eqb c "="); simpl; [|done].
      cbn [b64_scan]. destruct (b64_val d) as [vd|] eqn:Ed; simpl.
      * destruct (Ascii.eqb_spec d "="); [|done]. subst d. by rewrite b64_val_pad in Ed.
      * destruct (Ascii.eqb d "="); [|done]. assert ((S (S (S i)) <? len - 2) = false) as -> by (apply Nat.ltb_ge; lia).
        simpl. eexists. split; [done|]. simpl. lia.
    + rewrite scan_invalid_early by (done || lia). by rewrite !andb_false_r.
Qed.

Lemma decode_length s bytes : b64_decode s = Some bytes → String.length s mod 4 = 0.
Proof.
  remember (String.length s) as n eqn:Hn. revert s bytes Hn. induction n as [n IH] using lt_wf_ind.
  intros [|a [|b [|c [|d s']]]] bytes Hn; simpl; try done; [by subst|].
  intros H. simpl in Hn. subst n.
  assert (s' = "" ∨ ∃ rest, b64_decode s' = Some rest) as [->|[rest Hr]]; [|done|].
  { destruct (b64_val a); [|done]. destruct (b64_val b); [|done]. cbn [mbind option_bind] in H.
    destruct (_ && String.eqb s' "") eqn:E1.
    { apply andb_true_iff in E1 as [_ ?%String.eqb_eq]. by left. }
    destruct (b64_val c); [|done]. cbn [mbind option_bind] in H. destruct (Ascii.eqb d "=" && String.eqb s' "") eqn:E2.
    { apply andb_true_iff in E2 as [_ ?%String.eqb_eq]. by left. }
    destruct (b64_val d); [|done]. cbn [mbind option_bind] in H.
    destruct (b64_decode s'); [|done]. eauto. }
  transitivity (String.length s' mod 4).
  { rewrite <-(Nat.Div0.mod_add (String.length s') 1 4). f_equal. lia. }
  by apply (IH (String.length s') ltac:(simpl; lia) s' rest).
Qed.

(** The first group of a text that decodes. *)
Lemma decode_head s bytes :
  b64_decode s = Some bytes → s ≠ "" →
  ∃ v0 v1, String.get 0 s ≫= b64_val = Some v0 ∧ String.get 1 s ≫= b64_val = Some v1
    ∧ head bytes = Some (N.lor (N.shiftl v0 2) (N.shiftr v1 4) mod 256)%N.
Proof.
  destruct s as [|a [|b [|c [|d s']]]]; try done. intros H _. cbn [b64_decode] in H.
  destruct (b64_val a) as [va|] eqn:Ea; [|done]. destruct (b64_val b) as [vb|] eqn:Eb; [|done].
  exists va, vb. simpl. rewrite Ea, Eb. split; [done|]. split; [done|].
  rewrite first_byte_eq by by eapply b64_val_lt. cbn [mbind option_bind] in H.
  destruct (_ && String.eqb s' ""); [by simplify_eq|].
  destruct (b64_val c); [|done]. cbn [mbind option_bind] in H. destruct (_ && String.eqb s' ""); [by simplify_eq|].
  destruct (b64_val d); [|done]. cbn [mbind option_bind] in H. destruct (b64_decode s'); by simplify_eq/=.
Qed.

(** C16. The content check accepts exactly the payloads it stands for: without
decoding, it answers [Ok] if and only if the content is base64, padded, of at
least 99 bytes (version, nonce, the shortest ciphertext and the MAC), and the
first byte is the version 2. *)
Theorem validate_nip44_content_correct label content :
  validate_nip44_content label content = Ok tt ↔
  ∃ bytes, b64_decode content = Some bytes ∧ 99 <= length bytes ∧ head bytes = Some 2%N.
Proof.
  unfold validate_nip44_content. cbv zeta. destruct (String.eqb_spec content "") as [->|Hne].
  { split; [done|]. intros (bytes & [= <-] & Hl & _). simpl in Hl. lia. }
  destruct (Nat.eqb_spec (String.length content mod 4) 0) as [Hmod|Hmod]; cbn [negb]; cycle 1.
  { split; [done|]. by intros (bytes & Hd%decode_length & _). }
  set (n := String.length content / 4). assert (String.length content = 4 * n) as Hlen by (by apply Nat.Div0.div_exact).
  pose proof (scan_decode n content 0 (String.length content) Hlen ltac:(lia)) as Hscan.
  destruct (b64_scan _ 0 0 content) as [p|]; cycle 1.
  { split; [done|]. intros (bytes & Hd & _). congruence. }
  destruct Hscan as (bytes & Hd & Hcount). replace (n * 3 - p) with (length bytes) by lia.
  destruct (decode_head _ _ Hd Hne) as (v0 & v1 & -> & -> & Hhead). simpl.
  destruct (Nat.ltb_spec (length bytes) 99) as [Hlt|Hge].
  { split; [done|]. intros (bytes' & Hd' & Hl & _). rewrite Hd in Hd'. simplify_eq. lia. }
  case_bool_decide as Hb.
  - split; [done|]. intros (bytes' & Hd' & _ & Hh). rewrite Hd in Hd'. by simplify_eq.
  - split; [|done]. intros _. exists bytes. split; [done|]. split; [done|]. by rewrite Hhead, Hb.
Qed.
