(* ===== verification/EventStore.v ===== *)
(** * EventStore: the tables an event write touches

Models the transactions of [crates/buzz-db/src/store/] that ingest runs: event
rows with their thread metadata ([event.rs]), replaceable events
([replaceable.rs]), reactions ([reaction.rs]), mentions ([runtime/mod.rs]),
typed channels ([channel_resource.rs]), and the rows they read ([channel.rs],
[channel_members.rs], [user.rs], [moderation.rs], [relay_members.rs],
[deletion.rs]).

A transaction is a function from the tables to its answer and the tables it
commits; an error leaves them as they were.  The advisory and row locks make
each one atomic, so a history is a sequence of transactions.  Columns are the
ones the code reads or writes; time is in seconds, ids and keys are lowercase
hex, which orders as the bytes do. *)
From stdpp Require Import pretty.
From S2P Require Import Prelude Text Encode Nostr Kind Roles IngestRules.

(** [DbError] ([error.rs]), as far as these functions raise it. *)
Inductive DbError : Type :=
| Sqlx (text : string)
| AuthEventRejected
| EphemeralEventRejected (kind : N)
| ChannelNotFound (channel : Uuid)
| AccessDenied (text : string)
| InvalidData (text : string)
| InvalidTimestamp (secs : Z).

(** ** The rows *)

Record EventRow : Type := mkEventRow {
  er_event : Event;
  er_sig : string;
  er_received_at : Z;
  er_channel_id : option Uuid;
  er_deleted_at : option Z;
  er_d_tag : option string;
  er_not_before : option Z
}.

Record ThreadRow : Type := mkThreadRow {
  tr_channel_id : Uuid;
  tr_parent : option (string * option Z);      (* parent_event_id, parent_event_created_at *)
  tr_root : option (string * option Z);
  tr_depth : Z;
  tr_reply_count : Z;
  tr_descendant_count : Z;
  tr_last_reply_at : option Z;
  tr_broadcast : bool
}.

Record ReactionRow : Type := mkReactionRow {
  rr_created_at : Z;
  rr_removed_at : option Z;
  rr_event_id : option string
}.

Record ChannelRow : Type := mkChannelRow {
  ch_name : string;
  ch_channel_type : string;
  ch_visibility : string;
  ch_description : option string;
  ch_created_by : string;
  ch_archived_at : option Z;
  ch_deleted_at : option Z;
  ch_resource_type : option string;
  ch_ttl_seconds : option Z
}.

Record MemberRow : Type := mkMemberRow { mr_role : string; mr_removed_at : option Z }.

Record BanRow : Type := mkBanRow {
  ban_banned : bool;
  ban_expires_at : option Z;
  ban_muted_until : option Z
}.

(** The primary key of [events] and of [thread_metadata]. *)
Definition EventKey : Type := Uuid * Z * string.

Record Tables : Type := mkTables {
  events : gmap EventKey EventRow;
  thread_metadata : gmap EventKey ThreadRow;
  reactions : gmap (Uuid * Z * string * string * string) ReactionRow;
  watermarks : gmap (Uuid * N * string * string) (Z * string);
  mentions : gmap (Uuid * string * string) (Z * option Uuid * N);
  channels : gmap (Uuid * Uuid) ChannelRow;
  channel_members : gmap (Uuid * Uuid * string) MemberRow;
  bans : gmap (Uuid * string) BanRow;
  agent_owners : gmap (Uuid * string) string;
  relay_members : gmap (Uuid * string) string;
  active_communities : gset Uuid;               (* neither archived nor deleted *)
  deletion_fences : gmap Uuid N                  (* not [deletion_state = 'active'], and the fence generation *)
}.

Definition with_events (m : gmap EventKey EventRow) (t : Tables) : Tables :=
  mkTables m (thread_metadata t) (reactions t) (watermarks t) (mentions t) (channels t)
    (channel_members t) (bans t) (agent_owners t) (relay_members t) (active_communities t) (deletion_fences t).
Definition with_threads (m : gmap EventKey ThreadRow) (t : Tables) : Tables :=
  mkTables (events t) m (reactions t) (watermarks t) (mentions t) (channels t)
    (channel_members t) (bans t) (agent_owners t) (relay_members t) (active_communities t) (deletion_fences t).
Definition with_reactions m (t : Tables) : Tables :=
  mkTables (events t) (thread_metadata t) m (watermarks t) (mentions t) (channels t)
    (channel_members t) (bans t) (agent_owners t) (relay_members t) (active_communities t) (deletion_fences t).
Definition with_watermarks m (t : Tables) : Tables :=
  mkTables (events t) (thread_metadata t) (reactions t) m (mentions t) (channels t)
    (channel_members t) (bans t) (agent_owners t) (relay_members t) (active_communities t) (deletion_fences t).
Definition with_mentions m (t : Tables) : Tables :=
  mkTables (events t) (thread_metadata t) (reactions t) (watermarks t) m (channels t)
    (channel_members t) (bans t) (agent_owners t) (relay_members t) (active_communities t) (deletion_fences t).
Definition with_channels m (t : Tables) : Tables :=
  mkTables (events t) (thread_metadata t) (reactions t) (watermarks t) (mentions t) m
    (channel_members t) (bans t) (agent_owners t) (relay_members t) (active_communities t) (deletion_fences t).
Definition with_members m (t : Tables) : Tables :=
  mkTables (events t) (thread_metadata t) (reactions t) (watermarks t) (mentions t) (channels t)
    m (bans t) (agent_owners t) (relay_members t) (active_communities t) (deletion_fences t).
Definition with_relay_members m (t : Tables) : Tables :=
  mkTables (events t) (thread_metadata t) (reactions t) (watermarks t) (mentions t) (channels t)
    (channel_members t) (bans t) (agent_owners t) m (active_communities t) (deletion_fences t).

(** ** Columns of an event *)

(** [secs as i64], then [DateTime::from_timestamp]: chrono's range. *)
Definition as_i64 (n : N) : Z :=
  let z := (Z.of_N n mod 18446744073709551616)%Z in
  if (z <? 9223372036854775808)%Z then z else (z - 18446744073709551616)%Z.

(** [i64] arithmetic in a release build wraps; [abs] maps the least value to
itself. *)
Definition i64_wrap (z : Z) : Z :=
  let m := (z mod 18446744073709551616)%Z in
  if (m <? 9223372036854775808)%Z then m else (m - 18446744073709551616)%Z.
Definition i64_sub (a b : Z) : Z := i64_wrap (a - b).
Definition i64_abs (a : Z) : Z := i64_wrap (Z.abs a).

Definition from_timestamp (secs : Z) : option Z :=
  if bool_decide (-8334601228800 <= secs <= 8210266876799)%Z then Some secs else None.

Definition event_ts (e : Event) : result Z DbError :=
  ok_or (from_timestamp (as_i64 (created_at e))) (InvalidTimestamp (as_i64 (created_at e))).

Definition D_TAG_MAX_LEN : nat := 1024.

Definition extract_d_tag (e : Event) : option string :=
  if is_parameterized_replaceable (kind e) then
    Some (default "" (head (omap (λ parts : Tag,
      match parts with p0 :: p1 :: _ => if decide (p0 = "d") then Some p1 else None | _ => None end) (tags e))))
  else None.

Section store.
Context {HO : HashOrder}.
(** [str::parse::<i64>] and the UUIDs' text. *)
Context (parse_i64 : string → option Z) {UT : UuidText}.

Definition extract_not_before (e : Event) : option Z :=
  if (kind e =? KIND_EVENT_REMINDER)%N then
    head (omap (λ parts : Tag,
      match parts with p0 :: p1 :: _ => if decide (p0 = "not_before") then parse_i64 p1 else None | _ => None end)
      (tags e))
  else None.

(** ** Reading *)

(** The order [created_at DESC, id ASC]. *)
Definition precedes (a b : Z * string) : bool :=
  (b.1 <? a.1)%Z || ((a.1 =? b.1)%Z && String.ltb a.2 b.2).

Definition first_of (l : list (Z * string)) : option (Z * string) :=
  foldr (λ x acc, match acc with Some y => if precedes y x then Some y else Some x | None => Some x end) None l.

Definition is_live (r : EventRow) : bool := bool_decide (er_deleted_at r = None).

(** The live rows of community [c] that satisfy [p], as (created_at, id). *)
Definition live_ids (c : Uuid) (p : EventRow → bool) (t : Tables) : list (Z * string) :=
  omap (λ kr, let '((c', ts, id), r) := kr in
    if bool_decide (c' = c) && is_live r && p r then Some (ts, id) else None) (map_to_list (events t)).

Definition live_head (c : Uuid) (p : EventRow → bool) (t : Tables) : option (Z * string) :=
  first_of (live_ids c p t).

(** The rows of each coordinate. *)
Definition at_address (kind' : N) (pk : string) (ch : option Uuid) (r : EventRow) : bool :=
  bool_decide (kind (er_event r) = kind') && bool_decide (pubkey (er_event r) = pk)
  && bool_decide (er_channel_id r = ch).
Definition at_parameter (kind' : N) (pk d_tag : string) (r : EventRow) : bool :=
  bool_decide (kind (er_event r) = kind') && bool_decide (pubkey (er_event r) = pk)
  && bool_decide (er_d_tag r = Some d_tag).
Definition at_channel (kind' : N) (ch : Uuid) (r : EventRow) : bool :=
  bool_decide (kind (er_event r) = kind') && bool_decide (er_channel_id r = Some ch).

(** [row_to_stored_event]: a negative timestamp does not decode. *)
Definition row_to_stored_event (ts : Z) (r : EventRow) : option StoredEvent :=
  if (ts <? 0)%Z then None
  else Some (with_received_at (er_event r) (Z.to_N (er_received_at r)) (er_channel_id r) true).

(** [get_event_by_id]. *)
Definition get_event_by_id (c : Uuid) (id : string) (t : Tables) : option StoredEvent :=
  match first_of (omap (λ kr, let '((c', ts, id'), r) := kr in
          if bool_decide (c' = c) && bool_decide (id' = id) && is_live r then Some (ts, id') else None)
        (map_to_list (events t))) with
  | Some (ts, id) => r ← events t !! (c, ts, id); row_to_stored_event ts r
  | None => None
  end.

(** [get_thread_metadata_by_event]: [LIMIT 1] of the rows in the server's order. *)
Definition get_thread_metadata_by_event (c : Uuid) (id : string) (t : Tables) : option ThreadRow :=
  head (omap (λ kr, let '((c', _, id'), r) := kr in
    if bool_decide (c' = c) && bool_decide (id' = id) then Some r else None) (hm_iter (thread_metadata t))).

(** [get_channel]. *)
Definition get_channel (c ch : Uuid) (t : Tables) : result ChannelRow DbError :=
  match channels t !! (c, ch) with
  | Some r => if bool_decide (ch_deleted_at r = None) then Ok r else Err (ChannelNotFound ch)
  | None => Err (ChannelNotFound ch)
  end.

Definition is_member (c ch : Uuid) (pk : string) (t : Tables) : bool :=
  is_ok (get_channel c ch t)
  && match channel_members t !! (c, ch, pk) with
     | Some r => bool_decide (mr_removed_at r = None)
     | None => false
     end.

Definition is_agent_owner (c : Uuid) (target actor : string) (t : Tables) : bool :=
  bool_decide (agent_owners t !! (c, target) = Some actor).

(** [RestrictionState]: banned, and muted until. *)
Definition restriction_state (now : Z) (c : Uuid) (pk : string) (t : Tables) : bool * option Z :=
  match bans t !! (c, pk) with
  | Some r =>
      (ban_banned r && match ban_expires_at r with Some e => (now <? e)%Z | None => true end,
       match ban_muted_until r with Some m => if (now <? m)%Z then Some m else None | None => None end)
  | None => (false, None)
  end.

Definition is_serving_active (c : Uuid) (t : Tables) : bool :=
  bool_decide (c ∈ active_communities t) && bool_decide (deletion_fences t !! c = None).

(** ** Mentions *)

Definition insert_mentions_in_transaction (c : Uuid) (e : Event) (ch : option Uuid) (t : Tables)
    : result Tables DbError :=
  let p_tags := omap (λ parts : Tag,
    match parts with p0 :: p1 :: _ => if decide (p0 = "p") then Some p1 else None | _ => None end) (tags e) in
  if bool_decide (p_tags = []) then Ok t else
  let? ts := event_ts e in
  let valid := map to_ascii_lowercase (List.filter is_hex64 p_tags) in
  Ok (with_mentions (foldl (λ m pk,
        match m !! (c, pk, id e) with Some _ => m | None => <[(c, pk, id e) := (ts, ch, kind e)]> m end)
      (mentions t) valid) t).

(** ** Plain inserts *)

(** [INSERT INTO events .. ON CONFLICT DO NOTHING]: the rows affected. *)
Definition insert_event_row (c : Uuid) (ts : Z) (r : EventRow) (t : Tables) : bool * Tables :=
  match events t !! (c, ts, id (er_event r)) with
  | Some _ => (false, t)
  | None => (true, with_events (<[(c, ts, id (er_event r)) := r]> (events t)) t)
  end.

Record ThreadMetadataParams : Type := mkThreadParams {
  tp_event_id : string;
  tp_event_created_at : Z;
  tp_channel_id : Uuid;
  tp_parent : option (string * option Z);
  tp_root : option (string * option Z);
  tp_depth : Z;
  tp_broadcast : bool
}.

Definition insert_thread_row (k : EventKey) (r : ThreadRow) (m : gmap EventKey ThreadRow)
    : bool * gmap EventKey ThreadRow :=
  match m !! k with Some _ => (false, m) | None => (true, <[k := r]> m) end.

Definition stub_row (ch : Uuid) : ThreadRow := mkThreadRow ch None None 0 0 0 None false.

Definition bump_reply (now : Z) (r : ThreadRow) : ThreadRow :=
  mkThreadRow (tr_channel_id r) (tr_parent r) (tr_root r) (tr_depth r) (tr_reply_count r + 1)
    (tr_descendant_count r) (Some now) (tr_broadcast r).
Definition bump_descendant (r : ThreadRow) : ThreadRow :=
  mkThreadRow (tr_channel_id r) (tr_parent r) (tr_root r) (tr_depth r) (tr_reply_count r)
    (tr_descendant_count r + 1) (tr_last_reply_at r) (tr_broadcast r).

(** [UPDATE thread_metadata .. WHERE community_id AND event_id]. *)
Definition update_threads (c : Uuid) (id : string) (f : ThreadRow → ThreadRow) (m : gmap EventKey ThreadRow)
    : gmap EventKey ThreadRow :=
  map_imap (λ k r, let '(c', _, id') := k in
    Some (if bool_decide (c' = c) && bool_decide (id' = id) then f r else r)) m.

Definition insert_thread_meta (now : Z) (c : Uuid) (meta : ThreadMetadataParams)
    (m : gmap EventKey ThreadRow) : gmap EventKey ThreadRow :=
  let at_ := tp_event_created_at meta in
  let row := mkThreadRow (tp_channel_id meta) (tp_parent meta) (tp_root meta)
               (tp_depth meta) 0 0 None (tp_broadcast meta) in
  let '(inserted, m) := insert_thread_row (c, at_, tp_event_id meta) row m in
  match inserted, tp_parent meta with
  | true, Some (pid, parent_ts) =>
      let m := (insert_thread_row (c, default at_ parent_ts, pid) (stub_row (tp_channel_id meta)) m).2 in
      let m := match tp_root meta with
               | Some (root_id, root_ts) =>
                   if bool_decide (root_id ≠ pid) then
                     (insert_thread_row (c, default at_ root_ts, root_id) (stub_row (tp_channel_id meta)) m).2
                   else m
               | None => m
               end in
      let m := update_threads c pid (bump_reply now) m in
      match tp_root meta with
      | Some (root_id, _) => update_threads c root_id bump_descendant m
      | None => m
      end
  | _, _ => m
  end.

Definition stored (now : Z) (e : Event) (ch : option Uuid) (verified : bool) : StoredEvent :=
  with_received_at e (Z.to_N now) ch verified.

Definition new_row (now : Z) (e : Event) (sig : string) (ch : option Uuid) (d_tag : option string)
    (not_before : option Z) : EventRow :=
  mkEventRow e sig now ch None d_tag not_before.

(** [insert_event_with_thread_metadata_tx]. *)
Definition insert_event_with_thread_metadata_tx (now : Z) (c : Uuid) (e : Event) (sig : string)
    (ch : option Uuid) (meta : option ThreadMetadataParams) (t : Tables)
    : result (StoredEvent * bool * Tables) DbError :=
  if (kind e =? KIND_AUTH)%N then Err AuthEventRejected
  else if is_ephemeral (kind e) then Err (EphemeralEventRejected (kind e))
  else
  let? ts := event_ts e in
  let '(was_inserted, t) :=
    insert_event_row c ts (new_row now e sig ch (extract_d_tag e) (extract_not_before e)) t in
  let t := match was_inserted, meta with
           | true, Some meta => with_threads (insert_thread_meta now c meta (thread_metadata t)) t
           | _, _ => t
           end in
  Ok (stored now e ch true, was_inserted, t).

(** A transaction's answer and the tables it leaves. *)
Definition commit {A : Type} (r : result (A * Tables) DbError) (t : Tables) : result A DbError * Tables :=
  match r with Ok (a, t') => (Ok a, t') | Err e => (Err e, t) end.

(** [insert_mentions]: a transaction of its own after the insert, whose failure
is only logged ([mentions_ok] says whether it commits). *)
Definition mentions_after (mentions_ok : bool) (c : Uuid) (e : Event) (ch : option Uuid) (t : Tables) : Tables :=
  match insert_mentions_in_transaction c e ch t with
  | Ok t' => if mentions_ok then t' else t
  | Err _ => t
  end.

(** [insert_event_with_thread_metadata] of [event.rs], and the [Db] method of
that name. *)
Definition insert_event_guarded (now : Z) (c : Uuid) (e : Event) (sig : string) (ch : option Uuid)
    (meta : option ThreadMetadataParams) (t : Tables) : result (StoredEvent * bool) DbError * Tables :=
  let typed :=
    match ch with
    | Some ch =>
        (kind e =? KIND_CANVAS)%N
        && match channels t !! (c, ch) with
           | Some r => bool_decide (is_Some (ch_resource_type r))
           | None => false
           end
    | None => false
    end in
  if typed then (Err (InvalidData "typed channel Canvas writes require a validated expected-revision"), t)
  else commit (insert_event_with_thread_metadata_tx now c e sig ch meta t) t.

Definition insert_event_with_thread_metadata (mentions_ok : bool) (now : Z) (c : Uuid) (e : Event)
    (sig : string) (ch : option Uuid) (meta : option ThreadMetadataParams) (t : Tables)
    : result (StoredEvent * bool) DbError * Tables :=
  let '(r, t1) := insert_event_guarded now c e sig ch meta t in
  (r, match r with Ok (_, true) => mentions_after mentions_ok c e ch t1 | _ => t1 end).

(** ** Replaceable events ([replaceable.rs]) *)

(** [incoming] does not sort strictly ahead of [accepted]. *)
Definition dominated_by (incoming accepted : Z * string) : bool :=
  (incoming.1 <? accepted.1)%Z || ((incoming.1 =? accepted.1)%Z && negb (String.ltb incoming.2 accepted.2)).

(** NIP-RS read state, and the mesh status, whose superseded rows are deleted. *)
Definition first_part (key : string) (parts : Tag) : bool := bool_decide (head parts = Some key).

Definition is_nip_rs (e : Event) (d_tag : string) : bool :=
  (kind e =? KIND_READ_STATE)%N
  && (length (List.filter (first_part "d") (tags e)) =? 1)
  && existsb (λ parts : Tag, match parts with p0 :: p1 :: _ => bool_decide (p0 = "d") && bool_decide (p1 = d_tag) | _ => false end) (tags e)
  && match strip_prefix "read-state:" d_tag with
     | Some slot => (String.length slot =? 32) && string_forall is_lower_hexdigit slot
     | None => false
     end
  && (length (List.filter (λ parts : Tag, bool_decide (parts = ["t"; "read-state"])) (tags e)) =? 1).

Definition is_buzz_mesh_status (e : Event) (d_tag : string) : bool :=
  (kind e =? KIND_BOOKMARK_SET)%N && starts_with "buzz-mesh-member-status:" d_tag
  && existsb (λ parts : Tag, bool_decide (parts = ["k"; "buzz-mesh-status"])) (tags e).

(** The rows that the triggers of migrations 0011 and 0019 delete once they are
soft-deleted, and their mentions with them ([tags @> ..] of the second: some tag
holds both words). *)
Definition purged (r : EventRow) : bool :=
  match er_d_tag r with
  | Some d =>
      is_nip_rs (er_event r) d
      || (kind (er_event r) =? KIND_BOOKMARK_SET)%N && starts_with "buzz-mesh-member-status:" d
         && existsb (λ parts : Tag, bool_decide ("k" ∈ parts) && bool_decide ("buzz-mesh-status" ∈ parts)) (tags (er_event r))
  | None => false
  end.

Definition hit (c : Uuid) (p : EventRow → bool) (k : EventKey) (r : EventRow) : bool :=
  bool_decide (k.1.1 = c) && is_live r && p r.

Definition mark_deleted (now : Z) (r : EventRow) : EventRow :=
  mkEventRow (er_event r) (er_sig r) (er_received_at r) (er_channel_id r) (Some now) (er_d_tag r) (er_not_before r).

(** [UPDATE events SET deleted_at = NOW()] of the live rows with its triggers,
and [DELETE]. *)
Definition soft_delete (now : Z) (c : Uuid) (p : EventRow → bool) (t : Tables) : Tables :=
  let gone := omap (λ kr, if hit c p kr.1 kr.2 && purged kr.2 then Some (kr.1).2 else None) (map_to_list (events t)) in
  with_mentions (map_imap (λ k m, let '(c', _, id') := k in
      if bool_decide (c' = c) && bool_decide (id' ∈ gone) then None else Some m) (mentions t))
    (with_events (map_imap (λ k r,
      if hit c p k r then if purged r then None else Some (mark_deleted now r) else Some r) (events t)) t).

Definition hard_delete (c : Uuid) (p : EventRow → bool) (t : Tables) : Tables :=
  with_events (map_imap (λ k r, if hit c p k r then None else Some r) (events t)) t.

Definition delete_mentions (c : Uuid) (id : string) (t : Tables) : Tables :=
  with_mentions (map_imap (λ k r, let '(c', _, id') := k in
    if bool_decide (c' = c) && bool_decide (id' = id) then None else Some r) (mentions t)) t.

(** [replace_addressable_event]. *)
Definition replace_addressable_event (now : Z) (c : Uuid) (e : Event) (sig : string) (ch : option Uuid)
    (t : Tables) : result (StoredEvent * bool) DbError * Tables :=
  match event_ts e with
  | Err err => (Err err, t)
  | Ok ts =>
      let coordinate := at_address (kind e) (pubkey e) ch in
      let stale := match live_head c coordinate t with
                   | Some existing => dominated_by (ts, id e) existing
                   | None => false
                   end in
      if stale then (Ok (stored now e ch false, false), t)
      else
      let '(was_inserted, t') :=
        insert_event_row c ts (new_row now e sig ch (extract_d_tag e) None) (soft_delete now c coordinate t) in
      if was_inserted then
        match insert_mentions_in_transaction c e ch t' with
        | Ok t'' => (Ok (stored now e ch true, true), t'')
        | Err err => (Err err, t)
        end
      else (Ok (stored now e ch false, false), t)
  end.

Inductive ParameterizedReplaceStatus : Type :=
| Inserted | Duplicate | Superseded | RevisionMissing | RevisionMismatch | ReplayOnlyMiss.

Inductive ParameterizedReplacePrecondition : Type :=
| Unconditional
| ExpectedRevision (id : string)
| ExactReplayOnly.

(** The write itself, in its savepoint: [None] when the row already exists. *)
Definition write_parameterized (now ts : Z) (c : Uuid) (e : Event) (sig d_tag : string) (ch : option Uuid)
    (existing : option (Z * string)) (t : Tables) : result (option Tables) DbError :=
  let coordinate := at_parameter (kind e) (pubkey e) d_tag in
  let t1 := match existing with
            | None => t
            | Some (_, existing_id) =>
                if is_nip_rs e d_tag || is_buzz_mesh_status e d_tag
                then delete_mentions c existing_id (hard_delete c coordinate t)
                else soft_delete now c coordinate t
            end in
  let '(was_inserted, t2) :=
    insert_event_row c ts (new_row now e sig ch (Some d_tag) (extract_not_before e)) t1 in
  if was_inserted then
    let t3 := if is_nip_rs e d_tag
              then with_watermarks (<[(c, kind e, pubkey e, d_tag) := (ts, id e)]> (watermarks t2)) t2 else t2 in
    let? t4 := insert_mentions_in_transaction c e ch t3 in
    Ok (Some t4)
  else Ok None.

(** [replace_parameterized_event_in_transaction_impl]. *)
Definition replace_parameterized_event_in_transaction (now : Z) (c : Uuid) (e : Event) (sig d_tag : string)
    (ch : option Uuid) (precondition : ParameterizedReplacePrecondition) (t : Tables)
    : result (ParameterizedReplaceStatus * Tables) DbError :=
  let? ts := event_ts e in
  let existing := live_head c (at_parameter (kind e) (pubkey e) d_tag) t in
  let watermark := if is_nip_rs e d_tag then watermarks t !! (c, kind e, pubkey e, d_tag) else None in
  let is_id := λ o : option (Z * string), match o with Some (_, i) => bool_decide (i = id e) | None => false end in
  if is_id existing || is_id watermark then Ok (Duplicate, t)
  else
  let refused :=
    match precondition with
    | ExactReplayOnly => Some ReplayOnlyMiss
    | ExpectedRevision expected =>
        match existing with
        | None => Some RevisionMissing
        | Some (_, existing_id) => if bool_decide (existing_id ≠ expected) then Some RevisionMismatch else None
        end
    | Unconditional => None
    end in
  match refused with
  | Some status => Ok (status, t)
  | None =>
      let under := λ o, match o with Some a => dominated_by (ts, id e) a | None => false end in
      if under existing || under watermark then Ok (Superseded, t)
      else
      let? written := write_parameterized now ts c e sig d_tag ch existing t in
      Ok (match written with Some t' => (Inserted, t') | None => (Duplicate, t) end)
  end.

(** [replace_parameterized_event]: only an insertion commits. *)
Definition is_inserted (s : ParameterizedReplaceStatus) : bool :=
  match s with Inserted => true | _ => false end.

Definition replace_parameterized_event (now : Z) (c : Uuid) (e : Event) (sig d_tag : string) (ch : option Uuid)
    (t : Tables) : result (StoredEvent * bool) DbError * Tables :=
  match replace_parameterized_event_in_transaction now c e sig d_tag ch Unconditional t with
  | Ok (status, t') => (Ok (stored now e ch (is_inserted status), is_inserted status), if is_inserted status then t' else t)
  | Err err => (Err err, t)
  end.

(** ** Canvas heads ([event.rs]) *)

Inductive ChannelHeadWriteStatus : Type :=
| HeadInserted | HeadDuplicate | HeadMissing | HeadMismatch | SupersedeFailed.

Inductive ChannelHeadPrecondition : Type :=
| ExpectNoHead
| ExpectedHead (id : string).

Definition BUSINESS_CONTEXT : string := "aios.business-context:v1".

(** [candidate_supersedes_head]. *)
Definition candidate_supersedes_head (candidate : Event) (head : Z * string) : bool :=
  match (as_i64 (created_at candidate) ?= head.1)%Z with
  | Gt => true
  | Lt => false
  | Eq => String.ltb (id candidate) head.2
  end.

(** [insert_channel_head_checked_with_resource]. *)
Definition insert_channel_head_checked_with_resource (now : Z) (c : Uuid) (e : Event) (sig : string) (ch : Uuid)
    (precondition : ChannelHeadPrecondition) (expected_resource_type : option string) (t : Tables)
    : result (StoredEvent * ChannelHeadWriteStatus) DbError * Tables :=
  let answer :=
    let? _ :=
      match expected_resource_type with
      | Some resource => if bool_decide (resource ≠ BUSINESS_CONTEXT)
                         then Err (InvalidData "unsupported typed channel Canvas validator") else Ok tt
      | None => Ok tt
      end in
    let? row := get_channel c ch t in
    if bool_decide (ch_resource_type row ≠ expected_resource_type) then
      Err (InvalidData "channel resource type changed while the Canvas write was being validated")
    else
    let head := live_head c (at_channel (kind e) ch) t in
    if bool_decide (snd <$> head = Some (id e)) then
      Ok ((stored now e (Some ch) true, HeadDuplicate), t)
    else
    let status :=
      match precondition, head with
      | ExpectNoHead, None => None
      | ExpectNoHead, Some _ => Some HeadMismatch
      | ExpectedHead _, None => Some HeadMissing
      | ExpectedHead expected, Some h =>
          if bool_decide (h.2 ≠ expected) then Some HeadMismatch
          else if negb (candidate_supersedes_head e h) then Some SupersedeFailed
          else None
      end in
    match status with
    | Some status => Ok ((stored now e (Some ch) false, status), t)
    | None =>
        let? r := insert_event_with_thread_metadata_tx now c e sig (Some ch) None t in
        let '(s, was_inserted, t') := r in
        if was_inserted then
          let? t'' := insert_mentions_in_transaction c e (Some ch) t' in
          Ok ((s, HeadInserted), t'')
        else Ok ((s, HeadMismatch), t)
    end in
  commit answer t.

Definition insert_channel_head_checked (now : Z) (c : Uuid) (e : Event) (sig : string) (ch : Uuid)
    (precondition : ChannelHeadPrecondition) (t : Tables) :=
  insert_channel_head_checked_with_resource now c e sig ch precondition None t.

Definition insert_channel_head_checked_for_resource (now : Z) (c : Uuid) (e : Event) (sig : string) (ch : Uuid)
    (precondition : ChannelHeadPrecondition) (resource_type : string) (t : Tables) :=
  insert_channel_head_checked_with_resource now c e sig ch precondition (Some resource_type) t.

(** ** Reactions ([reaction.rs]) *)

Inductive ReactionEventInsertOutcome : Type :=
| TargetMissing
| ReactionDuplicate
| ReactionInserted (stored_event : StoredEvent) (was_inserted : bool).

(** [ADD_REACTION_SQL]: whether a row was added or re-activated.  An id used by
another row breaks the unique index on [reaction_event_id]. *)
Definition add_reaction_tx (now : Z) (c : Uuid) (target : string) (target_ts : Z) (pk emoji : string)
    (reaction_event_id : option string) (t : Tables) : result (bool * Tables) DbError :=
  let k := (c, target_ts, target, pk, emoji) in
  let write := λ r : ReactionRow,
    if existsb (λ kr, let '((c', _, _, _, _) as k', r') := kr in
         bool_decide (c' = c) && negb (bool_decide (k' = k)) && bool_decide (is_Some (rr_event_id r))
         && bool_decide (rr_event_id r' = rr_event_id r)) (map_to_list (reactions t))
    then Err (Sqlx "duplicate key value violates unique constraint")
    else Ok (true, with_reactions (<[k := r]> (reactions t)) t) in
  match reactions t !! k with
  | None => write (mkReactionRow now None reaction_event_id)
  | Some r =>
      if bool_decide (is_Some (rr_removed_at r)) then
        write (mkReactionRow now None
          (match reaction_event_id with Some i => Some i | None => rr_event_id r end))
      else Ok (false, t)
  end.

(** [insert_reaction_event_with_thread_metadata] of [reaction.rs], and the [Db]
method of that name, with the mentions as for plain inserts. *)
Definition insert_reaction_event (now : Z) (c : Uuid) (reaction_event : Event) (sig : string)
    (ch : option Uuid) (meta : option ThreadMetadataParams) (target_event_id actor_pubkey emoji : string)
    (t : Tables) : result ReactionEventInsertOutcome DbError * Tables :=
  let target := first_of (omap (λ kr, let '((c', ts, id'), r) := kr in
      if bool_decide (c' = c) && bool_decide (id' = target_event_id) && is_live r then Some (ts, id') else None)
    (map_to_list (events t))) in
  commit (match target with
    | None => Ok (TargetMissing, t)
    | Some (target_ts, _) =>
        let? r := add_reaction_tx now c target_event_id target_ts actor_pubkey emoji (Some (id reaction_event)) t in
        let '(added, t1) := r in
        if negb added then Ok (ReactionDuplicate, t)
        else
        let? r := insert_event_with_thread_metadata_tx now c reaction_event sig ch meta t1 in
        let '(s, was_inserted, t2) := r in
        Ok (ReactionInserted s was_inserted, t2)
    end) t.

Definition insert_reaction_event_with_thread_metadata (mentions_ok : bool) (now : Z) (c : Uuid) (reaction_event : Event)
    (sig : string) (ch : option Uuid) (meta : option ThreadMetadataParams) (target_event_id actor_pubkey emoji : string)
    (t : Tables) : result ReactionEventInsertOutcome DbError * Tables :=
  let '(r, t1) := insert_reaction_event now c reaction_event sig ch meta target_event_id actor_pubkey emoji t in
  (r, match r with Ok (ReactionInserted _ true) => mentions_after mentions_ok c reaction_event ch t1 | _ => t1 end).

(** [remove_reaction_by_source_event_id]. *)
Definition remove_reaction_by_source_event_id (now : Z) (c : Uuid) (reaction_event_id : string) (t : Tables)
    : Tables :=
  with_reactions (map_imap (λ k r, let '(c', _, _, _, _) := k in
    Some (if bool_decide (c' = c) && bool_decide (rr_event_id r = Some reaction_event_id)
             && bool_decide (rr_removed_at r = None)
          then mkReactionRow (rr_created_at r) (Some now) (rr_event_id r) else r)) (reactions t)) t.

(** ** Channels *)

(** [canonical_channel_name] ([buzz-core/src/channel.rs]). *)
Fixpoint trim_start_hash_loop (fuel : nat) (s : string) : string :=
  match fuel with
  | 0 => s
  | S fuel =>
      match s with
      | String "#" s' => trim_start_hash_loop fuel s'
      | _ => match whitespace_len s with
             | Some n => trim_start_hash_loop fuel (str_drop n s)
             | None => s
             end
      end
  end.
Definition canonical_channel_name (name : string) : string :=
  trim_end (trim_start_hash_loop (String.length name) name).

(** [create_channel_with_id]: the creator becomes the owner. *)
Definition create_channel_with_id (c ch : Uuid) (name : string) (channel_type : ChannelType)
    (visibility : ChannelVisibility) (description : option string) (created_by : string)
    (ttl_seconds : option Z) (t : Tables) : result (ChannelRow * bool) DbError * Tables :=
  commit (
    if bool_decide (String.length created_by ≠ 64) then
      Err (InvalidData ("pubkey must be 32 bytes, got " +:+ pretty (N.of_nat (String.length created_by / 2))))
    else if bool_decide (ch = 0%N) then
      Err (InvalidData "channel_id must not be nil (reserved for global fan-out)")
    else
    let name := canonical_channel_name name in
    if String.eqb (trim name) "" then Err (InvalidData "channel name is required")
    else match channels t !! (c, ch) with
    | Some r => Ok ((r, false), t)
    | None =>
        let r := mkChannelRow name (channel_type_as_str channel_type) (visibility_as_str visibility)
                   description created_by None None None ttl_seconds in
        Ok ((r, true),
          with_members (<[(c, ch, created_by) := mkMemberRow "owner" None]> (channel_members t))
            (with_channels (<[(c, ch) := r]> (channels t)) t))
    end) t.

Definition soft_delete_channel (now : Z) (c ch : Uuid) (t : Tables) : bool * Tables :=
  match channels t !! (c, ch) with
  | Some r =>
      if bool_decide (ch_deleted_at r = None) then
        (true, with_channels (<[(c, ch) := mkChannelRow (ch_name r) (ch_channel_type r) (ch_visibility r)
                 (ch_description r) (ch_created_by r) (ch_archived_at r) (Some now) (ch_resource_type r)
                 (ch_ttl_seconds r)]> (channels t)) t)
      else (false, t)
  | None => (false, t)
  end.

(** [insert_channel_resource_registration_event]; at most one channel of a
community has the Business-context type (a unique index). *)
Definition is_admin_role (role : option string) : bool :=
  match role with Some r => bool_decide (r = "owner") || bool_decide (r = "admin") | None => false end.

Definition set_resource_type (resource : string) (r : ChannelRow) : ChannelRow :=
  mkChannelRow (ch_name r) (ch_channel_type r) (ch_visibility r) (ch_description r) (ch_created_by r)
    (ch_archived_at r) (ch_deleted_at r) (Some resource) (ch_ttl_seconds r).

Definition typed_elsewhere (c : Uuid) (resource : string) (t : Tables) : bool :=
  existsb (λ kr, let '((c', _), r) := kr in
    bool_decide (c' = c) && bool_decide (ch_resource_type r = Some resource)) (map_to_list (channels t)).

Definition insert_channel_resource_registration_event (now : Z) (c : Uuid) (e : Event) (sig : string) (ch : Uuid)
    (resource_type : string) (expected_canvas_head : option string) (t : Tables)
    : result (StoredEvent * bool) DbError * Tables :=
  let named := λ key, List.filter (λ parts : Tag, bool_decide (head parts = Some key)) (tags e) in
  let single := λ key value,
    match named key with [[_; v]] => bool_decide (v = value) | _ => false end in
  commit (
    if bool_decide (resource_type ≠ BUSINESS_CONTEXT) || negb (kind e =? KIND_NIP29_EDIT_METADATA)%N then
      Err (InvalidData "invalid channel resource registration event")
    else if negb (single "resource" resource_type) then
      Err (InvalidData "resource registration must include exactly one matching resource tag")
    else if negb (single "h" (uuid_to_string ch)) then
      Err (InvalidData "resource registration channel does not match its h tag")
    else
    let channel_role := match channel_members t !! (c, ch, pubkey e) with
                        | Some m => if bool_decide (mr_removed_at m = None) then Some (mr_role m) else None
                        | None => None
                        end in
    if negb (is_admin_role channel_role) || negb (is_admin_role (relay_members t !! (c, pubkey e))) then
      Err (AccessDenied "context registration requires channel owner/admin and community owner/admin authority")
    else
    let? row := get_channel c ch t in
    if bool_decide (ch_channel_type row ≠ "stream") || bool_decide (ch_visibility row ≠ "private")
       || bool_decide (is_Some (ch_archived_at row)) then
      Err (InvalidData "Business context must be an unarchived private stream channel")
    else if bool_decide (snd <$> live_head c (at_channel KIND_CANVAS ch) t ≠ expected_canvas_head) then
      Err (InvalidData "Business context canvas changed while registration was being validated")
    else if match ch_resource_type row with Some r => bool_decide (r ≠ resource_type) | None => false end then
      Err (InvalidData "channel is already registered as a different resource type")
    else
    let? t1 :=
      match ch_resource_type row with
      | Some _ => Ok t
      | None =>
          if typed_elsewhere c resource_type t then
            Err (InvalidData "a Business context is already registered for this community")
          else Ok (with_channels (<[(c, ch) := set_resource_type resource_type row]> (channels t)) t)
      end in
    let? r := insert_event_with_thread_metadata_tx now c e sig (Some ch) None t1 in
    let '(s, was_inserted, t2) := r in
    if was_inserted then
      let? t3 := insert_mentions_in_transaction c e (Some ch) t2 in Ok ((s, true), t3)
    else Ok ((s, false), t2)) t.

(** [remove_relay_member]. *)
Inductive RemoveResult : Type := Removed | NotFound | IsOwner | RoleMismatch.

Definition remove_relay_member (c : Uuid) (pk : string) (t : Tables) : RemoveResult * Tables :=
  match relay_members t !! (c, pk) with
  | Some role =>
      if bool_decide (role = "owner") then (IsOwner, t)
      else (Removed, with_relay_members (delete (c, pk) (relay_members t)) t)
  | None => (NotFound, t)
  end.

End store.
