(* ===== verification/EventStoreProps.v ===== *)
(** * EventStoreProps: what the event transactions keep

Lemmas on the order of heads and on the rows a transaction leaves, then the
theorems on replaceable events, read state and canvas heads. *)
From Stdlib Require Import OrderedTypeEx.
From stdpp Require Import pretty.
From S2P Require Import Prelude Text Encode Nostr Kind Roles IngestRules EventStore.

(** ** The order of heads *)

Lemma string_ltb_lt a b : String.ltb a b = true ↔ String.compare a b = Lt.
Proof. unfold String.ltb. by destruct (String.compare a b). Qed.

Lemma string_lt_trans a b c :
  String.ltb a b = true → String.ltb b c = true → String.ltb a c = true.
Proof. rewrite !string_ltb_lt, !String_as_OT.cmp_lt. apply String_as_OT.lt_trans. Qed.

Lemma string_ltb_irrefl a : String.ltb a a = false.
Proof.
  destruct (String.ltb a a) eqn:E; [|done]. apply string_ltb_lt in E.
  rewrite String_as_OT.cmp_lt in E. by apply String_as_OT.lt_not_eq in E.
Qed.

Lemma string_ltb_total a b : a ≠ b → String.ltb a b = false → String.ltb b a = true.
Proof.
  intros Hne H. apply string_ltb_lt. rewrite String.compare_antisym.
  unfold String.ltb in H. destruct (String.compare a b) eqn:E; [|done|done].
  by apply String.compare_eq_iff in E.
Qed.

Definition before (a b : Z * string) : Prop := precedes a b = true.

Lemma before_iff a b : before a b ↔ (b.1 < a.1)%Z ∨ (a.1 = b.1 ∧ String.ltb a.2 b.2 = true).
Proof.
  unfold before, precedes. rewrite orb_true_iff, andb_true_iff, Z.ltb_lt, Z.eqb_eq. done.
Qed.

#[export] Instance before_irrefl : Irreflexive before.
Proof. intros [z s] H. apply before_iff in H as [H|[_ H]]; simpl in H; [lia|]. by rewrite string_ltb_irrefl in H. Qed.

#[export] Instance before_trans : Transitive before.
Proof.
  intros a b c. rewrite !before_iff. intros [H1|[H1 H1']] [H2|[H2 H2']]; [left; lia..|].
  right. split; [lia|]. by eapply string_lt_trans.
Qed.

Lemma before_total a b : a = b ∨ before a b ∨ before b a.
Proof.
  destruct (Z.lt_trichotomy a.1 b.1) as [H|[H|H]];
    [right; right; apply before_iff; by left| |right; left; apply before_iff; by left].
  destruct (decide (a.2 = b.2)) as [E|E]; [left; by destruct a, b; simplify_eq/=|right].
  destruct (String.ltb a.2 b.2) eqn:El; [left|right]; apply before_iff; right; (split; [done|]); [done|].
  by apply string_ltb_total.
Qed.

(** [dominated_by] is the converse: the incoming pair is the same or later. *)
Lemma dominated_by_iff p h : dominated_by p h = true ↔ ¬ before p h.
Proof.
  rewrite before_iff. unfold dominated_by. rewrite orb_true_iff, andb_true_iff, Z.ltb_lt, Z.eqb_eq, negb_true_iff.
  destruct (String.ltb p.2 h.2); naive_solver lia.
Qed.

Lemma first_of_None l : first_of l = None ↔ l = [].
Proof. destruct l as [|x l]; simpl; [done|]. split; [|done]. by repeat case_match. Qed.

Lemma first_of_Some l h : first_of l = Some h → h ∈ l ∧ ∀ x, x ∈ l → x = h ∨ before h x.
Proof.
  revert h. induction l as [|x l IH]; intros h H; [done|]. simpl in H.
  destruct (first_of l) as [y|] eqn:E.
  - destruct (IH y eq_refl) as [Hy Hall].
    destruct (precedes y x) eqn:Ep; simplify_eq.
    + split; [set_solver|]. intros z [->|Hz]%elem_of_cons; [right; exact Ep|]. by apply Hall.
    + split; [set_solver|]. intros z [->|Hz]%elem_of_cons; [by left|].
      destruct (before_total h y) as [->|[Hb|Hb]].
      * by apply Hall.
      * destruct (Hall _ Hz) as [->|Hz']; [by right|]. right. by transitivity y.
      * unfold before in Hb. congruence.
  - apply first_of_None in E as ->. simplify_eq. split; [set_solver|].
    intros z Hz. left. set_solver.
Qed.

Lemma first_of_unique l h :
  h ∈ l → (∀ x, x ∈ l → x = h ∨ before h x) → first_of l = Some h.
Proof.
  intros Hin Hmax. destruct (first_of l) as [h'|] eqn:E.
  - apply first_of_Some in E as [Hin' Hmax'].
    destruct (Hmax _ Hin') as [->|H1]; [done|]. destruct (Hmax' _ Hin) as [->|H2]; [done|].
    exfalso. eapply (irreflexivity before). by transitivity h'.
  - apply first_of_None in E as ->. set_solver.
Qed.

Lemma first_of_ext l l' : (∀ x, x ∈ l ↔ x ∈ l') → first_of l = first_of l'.
Proof.
  intros Hext. destruct (first_of l) as [h|] eqn:E.
  - apply first_of_Some in E as [Hin Hmax]. symmetry. apply first_of_unique; [by apply Hext|].
    intros x Hx. apply Hmax. by apply Hext.
  - apply first_of_None in E as ->. destruct l' as [|x l']; [done|].
    assert (x ∈ []) by (apply Hext; set_solver). set_solver.
Qed.

(** ** Rows *)

(** A row's key is its community, its event's time and its event's id. *)
Definition rows_keyed (t : Tables) : Prop :=
  ∀ c ts i r, events t !! (c, ts, i) = Some r → id (er_event r) = i ∧ event_ts (er_event r) = Ok ts.

(** Between times the database can hold, [i64] arithmetic is exact. *)
Lemma i64_wrap_exact z : (-9223372036854775808 <= z < 9223372036854775808)%Z → i64_wrap z = z.
Proof. intros Hz. unfold i64_wrap. cbv zeta. Z.div_mod_to_equations. case_match eqn:E; [apply Z.ltb_lt in E|apply Z.ltb_ge in E]; lia. Qed.

Lemma from_timestamp_range z : is_Some (from_timestamp z) → (-8334601228800 <= z <= 8210266876799)%Z.
Proof. unfold from_timestamp. case_bool_decide; [done|]. by intros []. Qed.

Lemma i64_distance a b : is_Some (from_timestamp a) → is_Some (from_timestamp b) →
  i64_sub a b = (a - b)%Z ∧ i64_abs (i64_sub a b) = Z.abs (a - b).
Proof.
  intros Ha%from_timestamp_range Hb%from_timestamp_range. unfold i64_abs, i64_sub.
  rewrite (i64_wrap_exact (a - b)) by lia. by rewrite i64_wrap_exact by lia.
Qed.

Lemma event_ts_time e : is_ok (event_ts e) = true → is_Some (from_timestamp (as_i64 (created_at e))).
Proof. unfold event_ts. by destruct (from_timestamp _). Qed.

(** A date 2^63 seconds from the clock is at no distance. *)
Example i64_distance_wraps : i64_abs (i64_sub (as_i64 (9223372036854775808 + 1700000000)) 1700000000) = (-9223372036854775808)%Z.
Proof. reflexivity. Qed.

Section rows.
Context {HO : HashOrder} (parse_i64 : string → option Z) {UT : UuidText}.

Lemma elem_of_live_ids c p t x :
  x ∈ live_ids c p t ↔ ∃ r, events t !! (c, x.1, x.2) = Some r ∧ is_live r = true ∧ p r = true.
Proof.
  destruct x as [ts i]. unfold live_ids. rewrite list_elem_of_omap. simpl. split.
  - intros ([[[c' ts'] i'] r] & Hin & Hx). apply elem_of_map_to_list in Hin.
    destruct (bool_decide_reflect (c' = c)) as [->|]; [|done]. simpl in Hx.
    destruct (is_live r) eqn:El, (p r) eqn:Ep; simplify_eq/=. eauto.
  - intros (r & Hr & El & Ep). exists ((c, ts, i), r). split; [by apply elem_of_map_to_list|].
    by rewrite bool_decide_true, El, Ep.
Qed.

Lemma live_head_Some c p t h :
  live_head c p t = Some h →
  (∃ r, events t !! (c, h.1, h.2) = Some r ∧ is_live r = true ∧ p r = true)
  ∧ ∀ x, x ∈ live_ids c p t → x = h ∨ before h x.
Proof. intros [Hin Hall]%first_of_Some. split; [by apply elem_of_live_ids|done]. Qed.

Lemma live_head_None c p t : live_head c p t = None → ∀ x, x ∉ live_ids c p t.
Proof. intros H%first_of_None x. rewrite H. set_solver. Qed.

(** Nothing live sorts strictly before the head. *)
Lemma live_head_before c p t x : x ∈ live_ids c p t → ¬ ∀ h, live_head c p t = Some h → before x h.
Proof.
  intros Hin Hall. destruct (live_head c p t) as [h|] eqn:E; [|by apply (live_head_None _ _ _ E x)].
  pose proof (Hall h eq_refl) as Hb. apply live_head_Some in E as [_ Hh]. destruct (Hh x Hin) as [->|Hb'].
  - by apply (irreflexivity before h).
  - apply (irreflexivity before x). by transitivity h.
Qed.

(** The rows [insert_event_row] leaves. *)
Lemma insert_event_row_spec c ts r t b t' :
  insert_event_row c ts r t = (b, t') →
  (b = false ∧ t' = t ∧ is_Some (events t !! (c, ts, id (er_event r))))
  ∨ (b = true ∧ events t !! (c, ts, id (er_event r)) = None
     ∧ t' = with_events (<[(c, ts, id (er_event r)) := r]> (events t)) t).
Proof. unfold insert_event_row. destruct (events t !! _) eqn:E; intros [= <- <-]; [left|right]; eauto. Qed.

Lemma lookup_soft_delete now c q t k :
  events (soft_delete now c q t) !! k =
  r ← events t !! k; if hit c q k r then if purged r then None else Some (mark_deleted now r) else Some r.
Proof. simpl. by rewrite map_lookup_imap. Qed.

Lemma lookup_hard_delete c q t k :
  events (hard_delete c q t) !! k = r ← events t !! k; if hit c q k r then None else Some r.
Proof. simpl. by rewrite map_lookup_imap. Qed.

(** A row that a deletion of its coordinate removed was a live row of it. *)
Lemma soft_deleted_None now c q t x :
  events (soft_delete now c q t) !! (c, x.1, x.2) = None →
  events t !! (c, x.1, x.2) = None ∨ x ∈ live_ids c q t.
Proof.
  rewrite lookup_soft_delete, elem_of_live_ids. destruct (events t !! _) as [r|]; [|by left]. simpl.
  unfold hit. rewrite bool_decide_true by done. simpl.
  destruct (is_live r) eqn:El, (q r) eqn:Eq; simpl; try done. right. eauto.
Qed.

Lemma live_after_soft_delete now c p q t x :
  x ∈ live_ids c p (soft_delete now c q t) →
  ∃ r, events t !! (c, x.1, x.2) = Some r ∧ is_live r = true ∧ p r = true ∧ q r = false.
Proof.
  rewrite elem_of_live_ids. intros (r & Hr & El & Ep). rewrite lookup_soft_delete in Hr.
  destruct (events t !! _) as [r'|] eqn:E; [|done]. simpl in Hr. unfold hit in Hr.
  rewrite bool_decide_true in Hr by done. simpl in Hr. exists r'.
  destruct (is_live r') eqn:El', (q r') eqn:Eq, (purged r'); simplify_eq/=; try done; eauto; congruence.
Qed.

Lemma live_after_hard_delete c p q t x :
  x ∈ live_ids c p (hard_delete c q t) →
  ∃ r, events t !! (c, x.1, x.2) = Some r ∧ is_live r = true ∧ p r = true ∧ q r = false.
Proof.
  rewrite elem_of_live_ids. intros (r & Hr & El & Ep). rewrite lookup_hard_delete in Hr.
  destruct (events t !! _) as [r'|] eqn:E; [|done]. simpl in Hr. unfold hit in Hr.
  rewrite bool_decide_true in Hr by done. simpl in Hr. exists r'.
  destruct (is_live r') eqn:El', (q r') eqn:Eq; simplify_eq/=; try done; eauto; congruence.
Qed.

(** A write that first removes the live rows of its coordinate leaves its own. *)
Lemma live_after_replace c p t t' k r :
  (∀ x, x ∈ live_ids c p t → False) →
  events t' = <[(c, k.1, k.2) := r]> (events t) → is_live r = true → p r = true →
  ∀ x, x ∈ live_ids c p t' ↔ x = k.
Proof.
  intros Hnone Heq El Ep x. rewrite elem_of_live_ids, Heq. split.
  - intros (r' & Hr & El' & Ep'). apply lookup_insert_Some in Hr as [[Hk _]|[_ Hr]].
    + destruct x, k; naive_solver.
    + exfalso. apply (Hnone x). apply elem_of_live_ids. eauto.
  - intros ->. exists r. by rewrite lookup_insert_eq.
Qed.

Lemma live_head_one c p t k : (∀ x, x ∈ live_ids c p t ↔ x = k) → live_head c p t = Some k.
Proof. intros H. apply first_of_unique; [by apply H|]. intros x ->%H. by left. Qed.

Lemma mentions_keep_events c e ch t t' :
  insert_mentions_in_transaction c e ch t = Ok t' →
  events t' = events t ∧ watermarks t' = watermarks t ∧ thread_metadata t' = thread_metadata t
  ∧ channels t' = channels t ∧ reactions t' = reactions t.
Proof.
  unfold insert_mentions_in_transaction. case_match; [by intros [= <-]|].
  intros (ts & _ & [= <-])%result_bind_Ok. done.
Qed.

Lemma mentions_succeed c e ch t ts :
  event_ts e = Ok ts → ∃ t', insert_mentions_in_transaction c e ch t = Ok t'.
Proof.
  intros Hts. unfold insert_mentions_in_transaction. rewrite Hts. case_match; [by eauto|].
  by eexists.
Qed.

(** ** Replaceable events *)

Definition address_of (e : Event) (ch : option Uuid) : EventRow → bool := at_address (kind e) (pubkey e) ch.

Lemma at_address_new now e sig ch d nb : address_of e ch (new_row now e sig ch d nb) = true.
Proof. unfold address_of, at_address. simpl. by rewrite !bool_decide_true. Qed.

(** One write: what it answers and what it leaves. *)
Lemma replace_addressable_cases now c e sig ch t r t' :
  replace_addressable_event now c e sig ch t = (r, t') →
  (t' = t ∧ ∀ s, r ≠ Ok (s, true))
  ∨ (∃ ts s, event_ts e = Ok ts ∧ r = Ok (s, true)
      ∧ (∀ h, live_head c (address_of e ch) t = Some h → before (ts, id e) h)
      ∧ events t !! (c, ts, id e) = None
      ∧ events t' = <[(c, ts, id e) := new_row now e sig ch (extract_d_tag e) None]>
                      (events (soft_delete now c (address_of e ch) t))).
Proof.
  unfold replace_addressable_event. destruct (event_ts e) as [ts|err] eqn:Ets; [|intros [= <- <-]; by left].
  fold (address_of e ch). case_match eqn:Estale; [intros [= <- <-]; by left|].
  destruct (insert_event_row _ _ _ _) as [b t1] eqn:Ei.
  apply insert_event_row_spec in Ei as [(-> & _ & _)|(-> & Hnone & ->)]; [intros [= <- <-]; by left|].
  destruct (insert_mentions_in_transaction _ _ _ _) as [t2|err] eqn:Em; intros [= <- <-]; [right|by left].
  apply mentions_keep_events in Em as (-> & _).
  assert (∀ h, live_head c (address_of e ch) t = Some h → before (ts, id e) h) as Hb.
  { intros h Hh. rewrite Hh in Estale. destruct (dominated_by _ _) eqn:E; [done|].
    apply not_true_iff_false in E. rewrite dominated_by_iff in E.
    destruct (decide (precedes (ts, id e) h = true)); [done|]. by exfalso; apply E. }
  exists ts, (stored now e ch true). split_and!; try done.
  destruct (soft_deleted_None now c _ t (ts, id e) Hnone) as [?|Hin]; [done|].
  by apply live_head_before in Hin.
Qed.

Lemma replace_addressable_live now c e sig ch t s t' ts :
  replace_addressable_event now c e sig ch t = (Ok (s, true), t') → event_ts e = Ok ts →
  ∀ x, x ∈ live_ids c (address_of e ch) t' ↔ x = (ts, id e).
Proof.
  intros [[_ H]|(ts' & s' & Hts & _ & _ & _ & Heq)]%replace_addressable_cases Hts'; [by destruct (H s)|].
  rewrite Hts in Hts'. simplify_eq.
  eapply (live_after_replace c _ (soft_delete now c (address_of e ch) t) t' (ts, id e));
    [|exact Heq|done|apply at_address_new].
  intros x (r & _ & _ & H1 & H2)%live_after_soft_delete. congruence.
Qed.

Lemma event_ts_Ok e ts : event_ts e = Ok ts → ts = as_i64 (created_at e).
Proof.
  unfold event_ts, from_timestamp. by case_match; simpl; intros [= <-].
Qed.

Lemma replace_addressable_progress now c e sig ch t ts :
  event_ts e = Ok ts →
  (∀ h, live_head c (address_of e ch) t = Some h → before (ts, id e) h) →
  events t !! (c, ts, id e) = None →
  ∃ s t', replace_addressable_event now c e sig ch t = (Ok (s, true), t').
Proof.
  intros Hts Hhead Hnone. unfold replace_addressable_event. rewrite Hts. fold (address_of e ch).
  assert (match live_head c (address_of e ch) t with Some h => dominated_by (ts, id e) h | None => false end = false) as ->.
  { destruct (live_head _ _ _) as [h|] eqn:E; [|done]. apply not_true_iff_false. rewrite dominated_by_iff. eauto. }
  destruct (insert_event_row _ _ _ _) as [b t1] eqn:Ei.
  apply insert_event_row_spec in Ei as [(_ & _ & Hsome)|(-> & _ & _)].
  { assert (events (soft_delete now c (address_of e ch) t) !! (c, ts, id e) = None) as Hgone
      by (rewrite lookup_soft_delete; set (o := _ !! _); by replace o with (@None EventRow)).
    destruct Hsome as [r Hr]. by pose proof (eq_trans (eq_sym Hr) Hgone). }
  destruct (mentions_succeed c e ch t1 ts Hts) as [t' ->]. by eauto.
Qed.

(** The arrivals at one coordinate: clock reading, event and signature. *)
Definition replace_all (c : Uuid) (ch : option Uuid) (es : list (Z * Event * string)) (t : Tables) : Tables :=
  foldl (λ t a, let '(now, e, sig) := a in (replace_addressable_event now c e sig ch t).2) t es.

Definition event_pair (e : Event) : Z * string := (as_i64 (created_at e), id e).
Definition arrival_pairs (es : list (Z * Event * string)) : list (Z * string) := map (λ a, event_pair a.1.2) es.

(** What holds after the arrivals [done]: their newest is the one live row,
and nothing else of [all] has a row. *)
Definition converged (c : Uuid) (p : EventRow → bool) (all done : list (Z * string)) (t : Tables) : Prop :=
  (∀ x, x ∈ live_ids c p t ↔ first_of done = Some x)
  ∧ ∀ x, x ∈ all → x ∉ done → events t !! (c, x.1, x.2) = None.

Lemma converged_head c p all done t : converged c p all done t → live_head c p t = first_of done.
Proof.
  intros [H _]. destruct (first_of done) as [h|] eqn:E.
  - apply live_head_one. intros x. rewrite H. naive_solver.
  - unfold live_head. apply first_of_None. destruct (live_ids c p t) as [|x l] eqn:El; [done|].
    assert (x ∈ x :: l) as Hx%H by set_solver. done.
Qed.

Lemma first_of_snoc done p h :
  first_of done = Some h → ¬ before p h → first_of (done ++ [p]) = Some h.
Proof.
  intros [Hin Hall]%first_of_Some Hp. apply first_of_unique; [set_solver|].
  intros x [Hx| ->%list_elem_of_singleton]%elem_of_app; [by apply Hall|].
  destruct (before_total p h) as [->|[?|?]]; [by left|done|by right].
Qed.

Lemma first_of_snoc_new done p :
  (∀ h, first_of done = Some h → before p h) → first_of (done ++ [p]) = Some p.
Proof.
  intros H. apply first_of_unique; [set_solver|].
  intros x [Hx| ->%list_elem_of_singleton]%elem_of_app; [right|by left].
  destruct (first_of done) as [h|] eqn:E; [|apply first_of_None in E as ->; set_solver].
  apply first_of_Some in E as [_ Hall]. destruct (Hall _ Hx) as [->|Hb]; [by apply H|].
  transitivity h; [by apply H|done].
Qed.

Lemma converged_step now c e sig ch all done t ts :
  event_ts e = Ok ts → event_pair e ∈ all →
  converged c (address_of e ch) all done t →
  converged c (address_of e ch) all (done ++ [event_pair e]) (replace_addressable_event now c e sig ch t).2.
Proof.
  intros Hts Hin Hc. pose proof (converged_head _ _ _ _ _ Hc) as Hhead. destruct Hc as [Hlive Hrows].
  assert (event_pair e = (ts, id e)) as Hpair by (by rewrite (event_ts_Ok e ts Hts)). rewrite Hpair in *.
  destruct (replace_addressable_event now c e sig ch t) as [r t'] eqn:Er. simpl.
  destruct (replace_addressable_cases _ _ _ _ _ _ _ _ Er) as [[-> Hno]|(ts' & s & Hts' & -> & Hbefore & _ & Heq)].
  - assert (∃ h, first_of done = Some h ∧ ¬ before (ts, id e) h) as (h & Hh & Hnb).
    { destruct (first_of done) as [h|] eqn:Eh.
      - destruct (decide (precedes (ts, id e) h = true)) as [Hb|Hb]; [|eauto]. exfalso.
        destruct (replace_addressable_progress now c e sig ch t ts) as (s & t'' & Ep); try done.
        + intros h'. rewrite Hhead. by intros [= <-].
        + apply (Hrows (ts, id e)); [done|]. intros Hd. apply first_of_Some in Eh as [_ Hall]. destruct (Hall _ Hd) as [Eq|Hb2].
          * rewrite Eq in Hb. by apply (irreflexivity before h).
          * apply (irreflexivity before h). by transitivity (ts, id e).
        + rewrite Er in Ep. simplify_eq. by apply (Hno s).
      - exfalso. destruct (replace_addressable_progress now c e sig ch t ts) as (s & t'' & Ep); try done.
        + intros h'. by rewrite Hhead.
        + apply first_of_None in Eh as ->. apply (Hrows (ts, id e)); set_solver.
        + rewrite Er in Ep. simplify_eq. by apply (Hno s). }
    split.
    + intros x. by rewrite Hlive, Hh, (first_of_snoc done _ h).
    + intros x Hx Hn. apply Hrows; set_solver.
  - rewrite Hts in Hts'. simplify_eq. split.
    + intros x. rewrite (replace_addressable_live _ _ _ _ _ _ _ _ _ Er Hts).
      rewrite first_of_snoc_new; [naive_solver|]. intros h. rewrite <-Hhead. apply Hbefore.
    + intros x Hx Hn. rewrite Heq, lookup_insert_ne; [|destruct x; set_solver].
      rewrite lookup_soft_delete. rewrite Hrows; [done|done|set_solver].
Qed.

Lemma converged_all c ch k pk all es done t :
  (∀ a, a ∈ es → kind a.1.2 = k ∧ pubkey a.1.2 = pk ∧ is_ok (event_ts a.1.2) = true ∧ event_pair a.1.2 ∈ all) →
  converged c (at_address k pk ch) all done t →
  converged c (at_address k pk ch) all (done ++ arrival_pairs es) (replace_all c ch es t).
Proof.
  revert done t. induction es as [|[[now e] sig] es IH]; intros done t Hes Hc; simpl; [by rewrite app_nil_r|].
  destruct (Hes _ (list_elem_of_here _ _)) as (<- & <- & Hts & Hin). simpl in *.
  destruct (event_ts e) as [ts|] eqn:Ets; [|done].
  rewrite (cons_middle _ done), app_assoc. apply IH; [set_solver|].
  by apply (converged_step now c e sig ch all done t ts).
Qed.

(** ** Parameterized events and read state *)

Definition rs_key (c : Uuid) (e : Event) (d : string) : Uuid * N * string * string := (c, kind e, pubkey e, d).

(** An insertion: what it was checked against, and the watermark it leaves. *)
Lemma parameterized_inserted now c e sig d ch pre t t' :
  replace_parameterized_event_in_transaction parse_i64 now c e sig d ch pre t = Ok (Inserted, t') →
  ∃ ts, event_ts e = Ok ts
    ∧ (∀ h, live_head c (at_parameter (kind e) (pubkey e) d) t = Some h → before (ts, id e) h)
    ∧ (is_nip_rs e d = true → ∀ w, watermarks t !! rs_key c e d = Some w → before (ts, id e) w)
    ∧ watermarks t' = (if is_nip_rs e d then <[rs_key c e d := (ts, id e)]> (watermarks t) else watermarks t).
Proof.
  unfold replace_parameterized_event_in_transaction. intros (ts & Hts & H)%result_bind_Ok.
  exists ts. split; [done|]. case_match eqn:Edup; [done|]. case_match eqn:Eref; [by simplify_eq; repeat case_match|].
  case_match eqn:Eunder; [done|]. apply orb_false_iff in Eunder as [Hu1 Hu2].
  apply result_bind_Ok in H as (written & Hw & H). destruct written as [t2|]; simplify_eq.
  assert (∀ p h, dominated_by p h = false → before p h) as Hb.
  { intros p h Hd. destruct (decide (precedes p h = true)) as [?|Hn]; [done|].
    apply not_true_iff_false in Hd. rewrite dominated_by_iff in Hd. by destruct Hd. }
  split_and!.
  - intros h Hh. rewrite Hh in Hu1. by apply Hb.
  - intros Hrs w Hw'. unfold rs_key in Hw'. rewrite Hrs, Hw' in Hu2. by apply Hb.
  - unfold write_parameterized in Hw.
    destruct (insert_event_row _ _ _ _) as [b t2'] eqn:Ei.
    apply insert_event_row_spec in Ei as [(-> & _)|(-> & _ & ->)]; [done|].
    apply result_bind_Ok in Hw as (t4 & Hm & [= <-]). apply mentions_keep_events in Hm as (_ & -> & _).
    unfold rs_key.
    by destruct (live_head _ _ _) as [[? ?]|], (is_nip_rs e d), (is_buzz_mesh_status e d).
Qed.

Lemma replace_parameterized_cases now c e sig d ch t r t' :
  replace_parameterized_event parse_i64 now c e sig d ch t = (r, t') →
  (t' = t ∧ ∀ s, r ≠ Ok (s, true))
  ∨ ∃ s, r = Ok (s, true)
     ∧ replace_parameterized_event_in_transaction parse_i64 now c e sig d ch Unconditional t = Ok (Inserted, t').
Proof.
  unfold replace_parameterized_event.
  destruct (replace_parameterized_event_in_transaction _ _ _ _ _ _ _ _ _) as [[[] t2]|err];
    intros [= <- <-]; eauto.
Qed.

(** No transaction takes a watermark back. *)
Definition watermarks_advance (t t' : Tables) : Prop :=
  ∀ k w, watermarks t !! k = Some w → ∃ w', watermarks t' !! k = Some w' ∧ (w' = w ∨ before w' w).

#[export] Instance watermarks_advance_preorder : PreOrder watermarks_advance.
Proof.
  split; [intros t k w ->; eauto|].
  intros t1 t2 t3 H12 H23 k w (w' & Hw' & Hb)%H12. apply H23 in Hw' as (w'' & Hw'' & Hb').
  exists w''. split; [done|]. destruct Hb as [->|Hb], Hb' as [->|Hb']; eauto. right. by transitivity w'.
Qed.

Lemma replace_parameterized_advances now c e sig d ch t r t' :
  replace_parameterized_event parse_i64 now c e sig d ch t = (r, t') → watermarks_advance t t'.
Proof.
  intros [[-> _]|(s & -> & (ts & _ & _ & Hrs & Hw)%parameterized_inserted)]%replace_parameterized_cases; [done|].
  intros k w Hk. rewrite Hw. destruct (is_nip_rs e d); [|by eauto].
  destruct (decide (k = rs_key c e d)) as [->|Hne].
  - exists (ts, id e). rewrite lookup_insert_eq. split; [done|right]. by apply Hrs.
  - exists w. rewrite lookup_insert_ne; [by eauto|done].
Qed.

(** ** Canvas heads *)

Lemma candidate_supersedes_iff e h ts :
  event_ts e = Ok ts → candidate_supersedes_head e h = true ↔ before (ts, id e) h.
Proof.
  intros ->%event_ts_Ok. rewrite before_iff. simpl. unfold candidate_supersedes_head.
  destruct (as_i64 (created_at e) ?= h.1)%Z eqn:E.
  - apply Z.compare_eq in E. naive_solver lia.
  - rewrite Z.compare_lt_iff in E. naive_solver lia.
  - rewrite Z.compare_gt_iff in E. naive_solver lia.
Qed.

Lemma insert_tx_cases now c e sig ch meta t s b t' :
  insert_event_with_thread_metadata_tx parse_i64 now c e sig ch meta t = Ok (s, b, t') →
  ∃ ts, event_ts e = Ok ts
    ∧ (b = true → events t !! (c, ts, id e) = None
        ∧ events t' = <[(c, ts, id e) := new_row now e sig ch (extract_d_tag e) (extract_not_before parse_i64 e)]> (events t))
    ∧ (b = false → t' = t).
Proof.
  unfold insert_event_with_thread_metadata_tx.
  destruct (kind e =? KIND_AUTH)%N; [done|]. destruct (is_ephemeral (kind e)); [done|].
  intros (ts & Hts & H)%result_bind_Ok. exists ts. split; [done|].
  destruct (insert_event_row _ _ _ _) as [b' t1] eqn:Ei.
  apply insert_event_row_spec in Ei as [(-> & -> & _)|(-> & Hnone & ->)]; simplify_eq; [done|].
  split; [|done]. intros _. split; [done|]. by destruct meta.
Qed.

(** A checked write: either nothing changed, or the expected head was there
and the event is the head now. *)
Lemma head_checked_cases now c e sig ch pre res t r t' :
  insert_channel_head_checked_with_resource parse_i64 now c e sig ch pre res t = (r, t') →
  (t' = t ∧ ∀ s, r ≠ Ok (s, HeadInserted))
  ∨ ∃ ts s, r = Ok (s, HeadInserted) ∧ event_ts e = Ok ts
      ∧ snd <$> live_head c (at_channel (kind e) ch) t = match pre with ExpectNoHead => None | ExpectedHead h => Some h end
      ∧ live_head c (at_channel (kind e) ch) t' = Some (ts, id e)
      ∧ ∀ h, live_head c (at_channel (kind e) ch) t = Some h → before (ts, id e) h.
Proof.
  unfold insert_channel_head_checked_with_resource. cbv zeta.
  set (head := live_head c (at_channel (kind e) ch) t). intros Hrun.
  match type of Hrun with commit ?a _ = _ => destruct a as [[[s st] t2]|err] eqn:Ha end; simpl in Hrun; simplify_eq;
    [|by left].
  apply result_bind_Ok in Ha as (_ & _ & Ha). apply result_bind_Ok in Ha as (row & _ & Ha).
  case_match eqn:Etype; [done|]. case_match eqn:Edup; [simplify_eq; by left|].
  destruct (match pre with ExpectNoHead => _ | ExpectedHead _ => _ end) as [status|] eqn:Est.
  { simplify_eq. left. split; [done|]. intros s' Heq. simplify_eq. by repeat case_match. }
  apply result_bind_Ok in Ha as ([[s' b] t3] & Hi & Ha). apply insert_tx_cases in Hi as (ts & Hts & Ht & Hf).
  destruct b; [|simplify_eq; by left]. apply result_bind_Ok in Ha as (t4 & Hm & [= <- <- <-]).
  destruct (Ht eq_refl) as [Hnone Heq]. apply mentions_keep_events in Hm as (Hev & _). right.
  assert (∀ h, head = Some h → before (ts, id e) h) as Hbefore.
  { intros h Hh. rewrite Hh in Est. destruct pre as [|x]; [done|]. case_match; [done|].
    destruct (candidate_supersedes_head e h) eqn:Ec; [|done]. by apply (candidate_supersedes_iff e h ts). }
  exists ts, s'. split_and!; [done..| | |done].
  - destruct pre as [|x], head as [h|]; try done. simpl. case_match eqn:Eb; [done|].
    apply bool_decide_eq_false in Eb. f_equal. by destruct (decide (h.2 = x)).
  - apply first_of_unique.
    + apply elem_of_live_ids. eexists. rewrite Hev, Heq. simpl. rewrite lookup_insert_eq.
      split_and!; [done..|]. unfold at_channel. simpl. by rewrite !bool_decide_true.
    + intros x (r' & Hr & El & Ep)%elem_of_live_ids. rewrite Hev, Heq in Hr.
      apply lookup_insert_Some in Hr as [[Hk _]|[_ Hr]]; [left; destruct x; naive_solver|right].
      assert (x ∈ live_ids c (at_channel (kind e) ch) t) as Hx by (apply elem_of_live_ids; eauto).
      destruct head as [h|] eqn:Eh; [|by destruct (live_head_None _ _ _ Eh x)].
      apply live_head_Some in Eh as [_ Hall]. destruct (Hall _ Hx) as [->|Hb]; [by apply Hbefore|].
      transitivity h; [by apply Hbefore|done].
Qed.

(** The canvas rows another transaction may add to, but not take away. *)
Definition rows_kept (c : Uuid) (p : EventRow → bool) (t t' : Tables) : Prop :=
  ∀ x, x ∈ live_ids c p t → x ∈ live_ids c p t'.

(** An event's id is the hash of its fields, the time among them. *)
Definition ids_name_events (c : Uuid) (p : EventRow → bool) (t t' : Tables) : Prop :=
  ∀ x y, x ∈ live_ids c p t' → y ∈ live_ids c p t → x.2 = y.2 → x.1 = y.1.

Lemma head_advances c p t t' h :
  rows_kept c p t t' → live_head c p t = Some h →
  ∃ h', live_head c p t' = Some h' ∧ (h' = h ∨ before h' h).
Proof.
  intros Hkept Hh. assert (h ∈ live_ids c p t') as Hin by (apply Hkept; by apply first_of_Some in Hh as [? _]).
  destruct (live_head c p t') as [h'|] eqn:E.
  - exists h'. split; [done|]. apply first_of_Some in E as [_ Hall].
    destruct (Hall _ Hin) as [->|?]; [by left|by right].
  - by destruct (live_head_None _ _ _ E h).
Qed.

(** ** The theorems *)

(** What arrives at one replaceable coordinate, in a store that has none of it. *)
Record fresh_arrivals (c : Uuid) (ch : option Uuid) (k : N) (pk : string) (es : list (Z * Event * string))
    (t : Tables) : Prop := {
  fa_coordinate : ∀ a, a ∈ es → kind a.1.2 = k ∧ pubkey a.1.2 = pk;
  fa_timestamps : ∀ a, a ∈ es → is_ok (event_ts a.1.2) = true;
  fa_no_head : live_ids c (at_address k pk ch) t = [];
  fa_unseen : ∀ x, x ∈ arrival_pairs es → events t !! (c, x.1, x.2) = None
}.

(** C14. Replicas agree on a replaceable event whatever the order in which it
arrives.  Take any list of events with one kind, author and channel, arriving
at a store that has none of them: afterwards the only live row of that
coordinate is the newest arrival (greatest [created_at], then least id), and a
second store that receives the same events in another order, repeated or not,
has the same head. *)
Theorem replaceable_head_converges c ch k pk es es' t t' :
  fresh_arrivals c ch k pk es t → fresh_arrivals c ch k pk es' t' →
  (∀ e, e ∈ map (λ a, a.1.2) es ↔ e ∈ map (λ a, a.1.2) es') →
  (∀ x, x ∈ live_ids c (at_address k pk ch) (replace_all c ch es t) ↔ first_of (arrival_pairs es) = Some x)
  ∧ live_head c (at_address k pk ch) (replace_all c ch es t)
    = live_head c (at_address k pk ch) (replace_all c ch es' t').
Proof.
  assert (∀ es t, fresh_arrivals c ch k pk es t →
    converged c (at_address k pk ch) (arrival_pairs es) (arrival_pairs es) (replace_all c ch es t)) as Hconv.
  { intros es0 t0 [Hk Hts Hnone Hfresh]. apply (converged_all c ch k pk (arrival_pairs es0) es0 []).
    - intros a Ha. destruct (Hk a Ha). split_and!; auto. by apply (list_elem_of_fmap_2 (λ a, event_pair a.1.2)).
    - split; [intros x; rewrite Hnone; split; [set_solver|done]|]. intros x Hx _. by apply Hfresh. }
  intros Hes Hes' Hsame. split; [by apply (Hconv es t)|].
  rewrite (converged_head _ _ _ _ _ (Hconv es t Hes)), (converged_head _ _ _ _ _ (Hconv es' t' Hes')).
  apply first_of_ext. intros x. unfold arrival_pairs.
  rewrite <-!(map_map (λ a : Z * Event * string, a.1.2) event_pair), !list_elem_of_fmap.
  naive_solver.
Qed.

(** C13. Read state never goes back.  When an event of NIP-RS form (kind 30078, one
[d] tag that names a read-state slot, one tag [t], [read-state]) is accepted at a
coordinate, every event of that form that is accepted there later is strictly
newer, whatever happened to the rows in between (other writes, deletion of the
head, removal of every row), as long as the database took no watermark back.  An
event of the kind without that form is not checked against the watermark.  *)
Theorem read_state_never_regresses now now' c e e' sig sig' d ch ch' s s' t0 t1 t2 t3 :
  is_nip_rs e d = true → is_nip_rs e' d = true → pubkey e' = pubkey e →
  replace_parameterized_event parse_i64 now c e sig d ch t0 = (Ok (s, true), t1) →
  watermarks_advance t1 t2 →
  replace_parameterized_event parse_i64 now' c e' sig' d ch' t2 = (Ok (s', true), t3) →
  before (event_pair e') (event_pair e).
Proof.
  intros Hrs Hrs' Hpk H1 Hadv H2.
  assert (kind e' = kind e) as Hk.
  { unfold is_nip_rs in Hrs, Hrs'. repeat setoid_rewrite andb_true_iff in Hrs. repeat setoid_rewrite andb_true_iff in Hrs'.
    destruct Hrs as ((((->%N.eqb_eq & _) & _) & _) & _), Hrs' as ((((->%N.eqb_eq & _) & _) & _) & _). done. }
  apply replace_parameterized_cases in H1 as [[_ Hno]|(? & _ & H1)]; [by destruct (Hno s)|].
  apply replace_parameterized_cases in H2 as [[_ Hno]|(? & _ & H2)]; [by destruct (Hno s')|].
  apply parameterized_inserted in H1 as (ts & Hts & _ & _ & Hw1).
  apply parameterized_inserted in H2 as (ts' & Hts' & _ & Hnew & _).
  apply event_ts_Ok in Hts as ->, Hts' as ->. rewrite Hrs in Hw1.
  destruct (Hadv (rs_key c e d) (event_pair e)) as (w & Hw & Hb); [by rewrite Hw1, lookup_insert_eq|].
  assert (before (event_pair e') w) as Hbw by (apply Hnew; [done|]; unfold rs_key; by rewrite Hk, Hpk).
  destruct Hb as [->|Hb]; [done|]. by transitivity w.
Qed.

(** C12. Two writers of one canvas cannot both win.  When a write that expects
a given head is accepted, the canvas had that head and now has the written
event's; as long as nobody removes canvas rows of the channel, a write that
makes the same demand again is refused and changes
nothing, whoever makes it and whatever was written in between. *)
Theorem no_lost_canvas_update now now' c e e' sig sig' ch pre res res' s t0 t1 t2 r t3 :
  insert_channel_head_checked_with_resource parse_i64 now c e sig ch pre res t0 = (Ok (s, HeadInserted), t1) →
  kind e' = kind e →
  rows_kept c (at_channel (kind e) ch) t1 t2 →
  ids_name_events c (at_channel (kind e) ch) t0 t2 →
  insert_channel_head_checked_with_resource parse_i64 now' c e' sig' ch pre res' t2 = (r, t3) →
  snd <$> live_head c (at_channel (kind e) ch) t0 = (match pre with ExpectNoHead => None | ExpectedHead h => Some h end)
  ∧ snd <$> live_head c (at_channel (kind e) ch) t1 = Some (id e)
  ∧ t3 = t2 ∧ ∀ s', r ≠ Ok (s', HeadInserted).
Proof.
  intros H1 Hk Hkept Hids H2.
  apply head_checked_cases in H1 as [[_ Hno]|(ts & s' & _ & Hts & Hpre & Hhead & Hbefore)]; [by destruct (Hno s)|].
  split; [done|]. split; [by rewrite Hhead|].
  apply head_checked_cases in H2 as [?|(ts' & s2 & -> & _ & Hpre2 & _ & _)]; [done|exfalso].
  rewrite Hk in Hpre2. destruct (head_advances _ _ _ _ _ Hkept Hhead) as (h' & Hh' & Hadv).
  rewrite Hh' in Hpre2. destruct pre as [|x]; [done|]. simpl in Hpre2. simplify_eq.
  destruct (live_head c _ t0) as [y|] eqn:Ey; [|done]. simpl in Hpre. simplify_eq.
  assert (h' = y) as ->.
  { apply first_of_Some in Hh' as [Hin' _], Ey as [Hin _].
    assert (h'.1 = y.1) by (apply Hids; [done..|congruence]). destruct h', y; simpl in *; congruence. }
  assert (before (ts, id e) y) as Hb by by apply Hbefore.
  destruct Hadv as [->|Hb']; [by apply (irreflexivity before (ts, id e))|].
  apply (irreflexivity before y). by transitivity (ts, id e).
Qed.

End rows.
