(* ===== verification/IngestRun.v ===== *)
(** * IngestRun: the computations of the ingest pipeline

A request of [ingest.rs] is a computation over an [IngestWorld]: the tables,
the states the database has been in, the trace of the request and a log of its
transactions.  Every statement is one transaction of [EventStore] under the database's write
fence ([exec]); before it, the other processes commit what the environment says,
and it may fail, with or without its commit having taken place.  Such a failure
([env_fault]) is also what the database's other triggers answer when they refuse
a row: the NIP-RS watermark guard (migrations 0009 to 0011, which repeats the
check of [replace_parameterized_event], see [EventStoreProps.parameterized_inserted]),
the floor under a channel row's date (0021) and the roster check of kind 39002
(0032, a kind only the relay signs).  The handlers the pipeline delegates to
(other components of the relay) are arbitrary functions of the tables. *)
From stdpp Require Import pretty.
From S2P Require Import Conformance Prelude Text Encode Nostr Kind Roles Json IngestRules IngestEnvelopes EventStore.

(** [DbError] as it prints. *)
Definition db_error_to_string {UT : UuidText} (e : DbError) : string :=
  match e with
  | Sqlx t => "database error: " +:+ t
  | AuthEventRejected => "AUTH events (kind 22242) must not be stored"
  | EphemeralEventRejected k => "ephemeral events (kind " +:+ pretty k +:+ ") must not be stored"
  | ChannelNotFound ch => "channel not found: " +:+ uuid_to_string ch
  | AccessDenied t => "access denied: " +:+ t
  | InvalidData t => "invalid data: " +:+ t
  | InvalidTimestamp z => "invalid timestamp: " +:+ pretty z
  end.

(** ** The statements *)

Inductive Stmt : Type → Type :=
| SServing (c : Uuid) : Stmt bool
| SGetChannel (c ch : Uuid) : Stmt ChannelRow
| SGetEvent (c : Uuid) (id : string) : Stmt (option StoredEvent)
| SGetThread (c : Uuid) (id : string) : Stmt (option ThreadRow)
| SIsMember (c ch : Uuid) (pk : string) : Stmt bool
| SRestriction (c : Uuid) (pk : string) : Stmt (bool * option Z)
| SAgentOwner (c : Uuid) (target actor : string) : Stmt bool
| SHuddleLink (c parent backing : Uuid) (creator : string) : Stmt bool
| SRemoveMember (c : Uuid) (pk : string) : Stmt RemoveResult
| SCreateChannel (c ch : Uuid) (name : string) (channel_type : ChannelType) (visibility : ChannelVisibility)
    (description : option string) (created_by : string) (ttl_seconds : option Z) : Stmt (ChannelRow * bool)
| SDeleteChannel (c ch : Uuid) : Stmt bool
| SReaction (c : Uuid) (e : Event) (sig : string) (ch : option Uuid) (meta : option ThreadMetadataParams)
    (target actor emoji : string) : Stmt ReactionEventInsertOutcome
| SRegister (c : Uuid) (e : Event) (sig : string) (ch : Uuid) (resource : string)
    (expected_canvas_head : option string) : Stmt (StoredEvent * bool)
| SReplaceable (c : Uuid) (e : Event) (sig : string) (ch : option Uuid) : Stmt (StoredEvent * bool)
| SParameterized (c : Uuid) (e : Event) (sig d_tag : string) (ch : option Uuid) : Stmt (StoredEvent * bool)
| SHeadChecked (c : Uuid) (e : Event) (sig : string) (ch : Uuid) (precondition : ChannelHeadPrecondition)
    (resource : option string) : Stmt (StoredEvent * ChannelHeadWriteStatus)
| SInsert (c : Uuid) (e : Event) (sig : string) (ch : option Uuid) (meta : option ThreadMetadataParams)
    : Stmt (StoredEvent * bool).

(** The community a statement names. *)
Definition stmt_community {A : Type} (s : Stmt A) : Uuid :=
  match s with
  | SServing c | SGetChannel c _ | SGetEvent c _ | SGetThread c _ | SIsMember c _ _ | SRestriction c _
  | SAgentOwner c _ _ | SHuddleLink c _ _ _ | SRemoveMember c _ | SCreateChannel c _ _ _ _ _ _ _
  | SDeleteChannel c _ | SReaction c _ _ _ _ _ _ _ | SRegister c _ _ _ _ _ | SReplaceable c _ _ _
  | SParameterized c _ _ _ _ | SHeadChecked c _ _ _ _ _ | SInsert c _ _ _ _ => c
  end.

(** The event a statement writes, and the channel it files it under. *)
Definition stmt_writes {A : Type} (s : Stmt A) : option (Event * option Uuid) :=
  match s with
  | SReaction _ e _ ch _ _ _ _ | SReplaceable _ e _ ch | SParameterized _ e _ _ ch | SInsert _ e _ ch _ => Some (e, ch)
  | SRegister _ e _ ch _ _ | SHeadChecked _ e _ ch _ _ => Some (e, Some ch)
  | _ => None
  end.

(** Whether a statement can change the tables. *)
Definition is_read {A : Type} (s : Stmt A) : bool :=
  match s with
  | SServing _ | SGetChannel _ _ | SGetEvent _ _ | SGetThread _ _ | SIsMember _ _ _ | SRestriction _ _
  | SAgentOwner _ _ _ | SHuddleLink _ _ _ _ => true
  | _ => false
  end.

Definition HUDDLE_LINK_CONTENT_MAX_BYTES : nat := 512.
Definition HUDDLE_LINK_CANDIDATE_LIMIT : nat := 32.

(** What the code calls of third-party crates and of the standard library. *)
Class RelayCrates : Type := {
  verify_id : Event → bool;                       (* the [nostr] crate *)
  computed_id : Event → string;
  verify_signature : Event → string → bool;
  parse_uuid : string → option Uuid;
  parse_i64 : string → option Z;
  parse_i32 : string → option Z;
  sjson_from_str : string → option (string → option string)  (* [serde_json::from_str]: the text members *)
}.

Section statements.
Context {NT : NostrTags} {HO : HashOrder} {UT : UuidText} {RC : RelayCrates}.

(** [huddle_started_content_links]. *)
Definition huddle_started_content_links (content : string) (backing : Uuid) : bool :=
  match sjson_from_str content with
  | Some member => bool_decide ((member "ephemeral_channel_id" ≫= parse_uuid) = Some backing)
  | None => false
  end.

(** The newest rows first. *)
Fixpoint insert_row_sorted (x : Z * string * string) (l : list (Z * string * string)) : list (Z * string * string) :=
  match l with
  | [] => [x]
  | y :: l' => if precedes x.1 y.1 then x :: l else y :: insert_row_sorted x l'
  end.

(** [huddle_started_link_exists]. *)
Definition huddle_started_link_exists (c parent backing : Uuid) (creator : string) (t : Tables) : bool :=
  let candidates := omap (λ kr, let '((c', ts, id), r) := kr in
    if bool_decide (c' = c) && is_live r && at_channel KIND_HUDDLE_STARTED parent r
       && bool_decide (pubkey (er_event r) = creator)
       && (String.length (content (er_event r)) <=? HUDDLE_LINK_CONTENT_MAX_BYTES)
       && contains (to_ascii_lowercase (uuid_to_string backing)) (to_ascii_lowercase (content (er_event r)))
    then Some ((ts, id), content (er_event r)) else None) (map_to_list (events t)) in
  existsb (λ x, huddle_started_content_links x.2 backing)
    (take HUDDLE_LINK_CANDIDATE_LIMIT (foldr insert_row_sorted [] candidates)).

(** One statement at clock reading [now]. *)
Definition exec_statement {A : Type} (s : Stmt A) (mentions_ok : bool) (now : Z) (t : Tables) : result A DbError * Tables :=
  match s in Stmt A return result A DbError * Tables with
  | SServing c => (Ok (is_serving_active c t), t)
  | SGetChannel c ch => (get_channel c ch t, t)
  | SGetEvent c id => (Ok (get_event_by_id c id t), t)
  | SGetThread c id => (Ok (get_thread_metadata_by_event c id t), t)
  | SIsMember c ch pk => (Ok (is_member c ch pk t), t)
  | SRestriction c pk => (Ok (restriction_state now c pk t), t)
  | SAgentOwner c target actor => (Ok (is_agent_owner c target actor t), t)
  | SHuddleLink c parent backing creator => (Ok (huddle_started_link_exists c parent backing creator t), t)
  | SRemoveMember c pk => let '(r, t') := remove_relay_member c pk t in (Ok r, t')
  | SCreateChannel c ch name channel_type visibility description created_by ttl_seconds =>
      create_channel_with_id c ch name channel_type visibility description created_by ttl_seconds t
  | SDeleteChannel c ch => let '(b, t') := soft_delete_channel now c ch t in (Ok b, t')
  | SReaction c e sig ch meta target actor emoji =>
      insert_reaction_event_with_thread_metadata parse_i64 mentions_ok now c e sig ch meta target actor emoji t
  | SRegister c e sig ch resource expected =>
      insert_channel_resource_registration_event parse_i64 now c e sig ch resource expected t
  | SReplaceable c e sig ch => replace_addressable_event now c e sig ch t
  | SParameterized c e sig d_tag ch => replace_parameterized_event parse_i64 now c e sig d_tag ch t
  | SHeadChecked c e sig ch precondition resource =>
      insert_channel_head_checked_with_resource parse_i64 now c e sig ch precondition resource t
  | SInsert c e sig ch meta =>
      insert_event_with_thread_metadata parse_i64 mentions_ok now c e sig ch meta t
  end.

(** Whether a statement with this answer has written a row, or tried to: what
the trigger [enforce_community_write_fence] (migration 0029) sees.  An [INSERT ..
ON CONFLICT DO NOTHING] fires it whether or not the row is there. *)
Definition writes_row {A : Type} (s : Stmt A) : result A DbError → bool :=
  match s in Stmt A return result A DbError → bool with
  | SServing _ | SGetChannel _ _ | SGetEvent _ _ | SGetThread _ _ | SIsMember _ _ _ | SRestriction _ _
  | SAgentOwner _ _ _ | SHuddleLink _ _ _ _ => λ _, false
  | SRemoveMember _ _ => λ r, match r with Ok Removed => true | _ => false end
  | SCreateChannel _ _ _ _ _ _ _ _ => is_ok
  | SDeleteChannel _ _ => λ r, match r with Ok b => b | _ => false end
  | SReaction _ _ _ _ _ _ _ _ => λ r, match r with Ok TargetMissing | Err _ => false | Ok _ => true end
  | SRegister _ _ _ _ _ _ | SInsert _ _ _ _ _ => is_ok
  | SReplaceable _ _ _ _ | SParameterized _ _ _ _ _ => λ r, match r with Ok (_, b) => b | _ => false end
  | SHeadChecked _ _ _ _ _ _ => λ r, match r with Ok (_, HeadInserted) => true | _ => false end
  end.

Definition fence_error (c : Uuid) (generation : N) : DbError :=
  Sqlx ("error returned from database: community write fenced: community " +:+ uuid_to_string c
        +:+ " generation " +:+ pretty generation).

(** A statement under the write fence: in a community that is being deleted its
first write raises, and the transaction is rolled back. *)
Definition exec {A : Type} (s : Stmt A) (mentions_ok : bool) (now : Z) (t : Tables) : result A DbError * Tables :=
  let '(r, t') := exec_statement s mentions_ok now t in
  match deletion_fences t !! stmt_community s with
  | Some generation => if writes_row s r then (Err (fence_error (stmt_community s) generation), t) else (r, t')
  | None => (r, t')
  end.

End statements.

(** ** The environment *)

Definition Handler (A : Type) : Type := nat → Tables → A * Tables.

Record Tenant : Type := mkTenant { community : Uuid; host : string }.

Record BusinessContextRegistration : Type := mkRegistration { expected_canvas_head : option string }.

Inductive AcceptLeaseOutcome : Type :=
| LeaseAccepted | StaleEvent | StaleGeneration | EndpointAlreadyLeased | LeaseQuotaExceeded
| SourceEventCollision | ConstraintViolation.

Inductive AcceptError : Type := AcceptValidation (text : string) | AcceptInternal (text : string).
Inductive RelayAdminError : Type := Banned | AdminRejected (text : string) | AdminInternal (text : string).

Record ThreadedChannelVisibility : Type := mkThreadedVisibility {
  tv_community : Uuid;
  tv_channel : Uuid;
  tv_visibility : string
}.

(** The components the pipeline delegates to. *)
Record Handlers : Type := mkHandlers {
  handle_command : Tenant → Event → IngestAuth → Handler (result IngestResult IngestError);
  product_feedback : Tenant → Event → Handler (result unit string);
  handle_report_event : Tenant → Event → Handler (result unit string);
  handle_moderation_command : Tenant → Event → Handler (result unit string);
  handle_relay_admin_event : Tenant → Event → Handler (result unit RelayAdminError);
  publish_member_removed : Tenant → string → Handler unit;
  validate_admin_event : Tenant → Event → Handler (result unit string);
  validate_registration : Tenant → Event → Handler (result (option BusinessContextRegistration) string);
  handle_identity_archive_event : Tenant → Event → Handler (result unit string);
  validate_standard_deletion_event : Tenant → Event → Handler (result unit string);
  accept_push_lease : Tenant → Event → Z → Handler (result AcceptLeaseOutcome AcceptError);
  validate_imeta : Tenant → list Tag → Handler (result unit string);
  persist_workflow_deletion : Tenant → Event → Handler (result (StoredEvent * bool) string);
  emit_group_discovery_events : Tenant → Uuid → Handler unit;
  handle_side_effects : Tenant → Event → Handler unit;
  emit_live_thread_summary : Tenant → Uuid → string → Handler unit;
  dispatch_persistent_event : Tenant → StoredEvent → string → option ThreadedChannelVisibility → Handler unit;
  parse_business_document : string → result unit string
}.

Record Config : Type := mkConfig {
  relay_pubkey : string;
  relay_url : string;
  ephemeral_ttl_override : option Z;
  require_relay_membership : bool;
  max_not_before_delta : N
}.

Record Env : Type := mkEnv {
  env_config : Config;
  env_handlers : Handlers;
  env_others : nat → Tables → list Tables;     (* other processes' commits before call [n] *)
  env_fault : nat → option (string * bool);    (* the driver's error; whether the commit took place *)
  env_mentions_ok : nat → bool;
  env_clock : nat → Z;
  env_clock_time : ∀ n, is_Some (from_timestamp (env_clock n));   (* [chrono]'s range *)
  env_verify_panics : nat → bool;
  env_join_second : nat → bool;                (* which branch of a [join!] runs first *)
  (* A membership the cache holds: which earlier state it was read from. *)
  env_member_cached : nat → Uuid * Uuid * string → option nat;
  env_private_cached : nat → Uuid * Uuid → bool
}.

(** ** The world *)

Inductive LogEntry : Type :=
| LStmt {A : Type} (s : Stmt A) (now : Z) (before : Tables) (res : result A DbError) (after : Tables)
| LHandler (before after : Tables).

Record IngestWorld : Type := mkIngestWorld {
  history : list Tables;     (* the committed states, the current one last *)
  calls : nat;
  trace : list TraceStep;
  log : list LogEntry
}.

Definition empty_tables : Tables := mkTables ∅ ∅ ∅ ∅ ∅ ∅ ∅ ∅ ∅ ∅ ∅ ∅.
Definition db (w : IngestWorld) : Tables := default empty_tables (last (history w)).

Definition tick_call (w : IngestWorld) : IngestWorld := mkIngestWorld (history w) (S (calls w)) (trace w) (log w).
Definition commits (ts : list Tables) (w : IngestWorld) : IngestWorld :=
  mkIngestWorld (history w ++ ts) (calls w) (trace w) (log w).
Definition with_step (s : TraceStep) (w : IngestWorld) : IngestWorld :=
  mkIngestWorld (history w) (calls w) (trace w ++ [s]) (log w).
Definition with_entry (e : LogEntry) (w : IngestWorld) : IngestWorld :=
  mkIngestWorld (history w) (calls w) (trace w) (log w ++ [e]).

(** ** Computations *)

Definition M (A : Type) : Type := Env → IngestWorld → A * IngestWorld.

#[global] Instance M_ret : MRet M := λ A a env w, (a, w).
#[global] Instance M_bind : MBind M := λ A B k m env w, let '(a, w') := m env w in k a env w'.

Definition try_bind {A B E : Type} (m : M (result A E)) (k : A → M (result B E)) : M (result B E) :=
  r ← m; match r with Ok a => k a | Err e => mret (Err e) end.
Definition lift {A E : Type} (r : result A E) : M (result A E) := mret r.
Definition fail {A E : Type} (e : E) : M (result A E) := mret (Err e).
Definition map_err_m {A E F : Type} (f : E → F) (m : M (result A E)) : M (result A F) :=
  r ← m; mret (map_err f r).

(** [if cond { m? }]. *)
Definition when {E : Type} (b : bool) (m : M (result unit E)) : M (result unit E) :=
  if b then m else mret (Ok tt).
(** [if cond { return Err(e) }]. *)
Definition refuse {E : Type} (b : bool) (e : E) : M (result unit E) :=
  if b then fail e else mret (Ok tt).

Definition config {A : Type} (f : Config → A) : M A := λ env w, (f (env_config env), w).
Definition handlers {A : Type} (f : Handlers → A) : M A := λ env w, (f (env_handlers env), w).

(** A reading of the clock, in seconds. *)
Definition utc_now : M Z := λ env w, (env_clock env (calls w), tick_call w).
Definition verify_panicked : M bool := λ env w, (env_verify_panics env (calls w), tick_call w).

Definition record (s : TraceStep) : M unit := λ env w, (tt, with_step s w).

(** Another component of the relay. *)
Definition handler {A : Type} (h : Handlers → Handler A) : M A := λ env w,
  let n := calls w in
  let w := commits (env_others env n (db w)) (tick_call w) in
  let '(a, t) := h (env_handlers env) n (db w) in
  (a, with_entry (LHandler (db w) t) (commits [t] w)).

(** [tokio::join!]. *)
Definition join {A B : Type} (m1 : M A) (m2 : M B) : M (A * B) := λ env w,
  if env_join_second env (calls w)
  then let '(b, w1) := m2 env w in let '(a, w2) := m1 env w1 in ((a, b), w2)
  else let '(a, w1) := m1 env w in let '(b, w2) := m2 env w1 in ((a, b), w2).

Notation "'try!' x := m 'in' k" := (try_bind m (λ x, k))
  (at level 10, x pattern at level 0, m at level 100, k at level 200) : buzz_scope.

Section run.
Context {NT : NostrTags} {HO : HashOrder} {UT : UuidText} {RC : RelayCrates}.

(** One of the request's own statements. *)
Definition stmt {A : Type} (s : Stmt A) : M (result A DbError) := λ env w,
  let n := calls w in
  let w := commits (env_others env n (db w)) (tick_call w) in
  let now := env_clock env n in
  let '(res, t) := exec s (env_mentions_ok env n) now (db w) in
  match env_fault env n with
  | Some (text, took) =>
      let t' := if took then t else db w in
      (Err (Sqlx text), with_entry (LStmt s now (db w) (Err (Sqlx text)) t') (commits [t'] w))
  | None => (res, with_entry (LStmt s now (db w) res t) (commits [t] w))
  end.

(** [AppState::is_member_cached]: a hit answers what was read earlier. *)
Definition is_member_cached (c ch : Uuid) (pk : string) : M (result bool DbError) := λ env w,
  match env_member_cached env (calls w) (c, ch, pk) ≫= (history w !!.) with
  | Some t => (Ok (is_member c ch pk t), tick_call w)
  | None => stmt (SIsMember c ch pk) env w
  end.

(** [AppState::channel_visibility_cached] with a prefetched row. *)
Definition channel_visibility_cached (c ch : Uuid) (row : ChannelRow) : M string := λ env w,
  (if env_private_cached env (calls w) (c, ch) then "private" else ch_visibility row, tick_call w).

End run.
