(* ===== verification/IngestThread.v ===== *)
(** * IngestThread: thread ancestry at ingest

Models the thread resolvers of [ingest.rs]: the client's NIP-10 tags checked
against the parent ([resolve_nip10_thread_meta]), the ancestry of a reply the
relay builds itself ([resolve_relay_reply_thread_meta]), and what both recover
from the tags of a parent without a row ([derive_ancestry_from_parent_tags]). *)
From stdpp Require Import pretty.
From S2P Require Import Conformance Prelude Text Encode Nostr Kind Scope Roles Json IngestRules IngestEnvelopes EventStore IngestRun.

Section thread.
Context {NT : NostrTags} {HO : HashOrder} {UT : UuidText} {RC : RelayCrates}.

(** [chrono::DateTime::from_timestamp(secs as i64, 0)], with its fallbacks. *)
Definition event_time (e : Event) : option Z := from_timestamp (as_i64 (created_at e)).
Definition time_or_now (e : Event) : M Z :=
  match event_time e with Some ts => mret ts | None => utc_now end.

(** [if let Ok(Some(root_ev)) = .. { its time } else { fallback }]. *)
Definition root_time (c : Uuid) (root : string) (fallback : Z) : M Z :=
  r ← stmt (SGetEvent c root);
  mret (match r with
        | Ok (Some root_ev) => default fallback (event_time (se_event root_ev))
        | _ => fallback
        end).

(** [(root_event_id, root_event_created_at, depth)]. *)
Definition derive_ancestry_from_parent_tags (c : Uuid) (parent_event : Event) (parent_bytes : string)
    (parent_created : Z) : M (string * Z * Z) :=
  let markers := parse_thread_markers (tags parent_event) in
  let parent_root := default parent_bytes ((fst <$> resolve markers) ≫= decode_32) in
  if bool_decide (parent_root = parent_bytes) then mret (parent_root, parent_created, 1%Z)
  else
    root_created ← root_time c parent_root parent_created;
    mret (parent_root, root_created, 2%Z).

(** The parent's event and row, of one [join!], and the checks on the event. *)
Definition load_parent (c : Uuid) (parent_bytes : string) (channel_id : Uuid)
    : M (result (StoredEvent * result (option ThreadRow) DbError) string) :=
  r ← join (stmt (SGetEvent c parent_bytes)) (stmt (SGetThread c parent_bytes));
  let '(parent_event_result, parent_meta_result) := r in
  mret (
    let? parent := map_err (λ e, "db error looking up parent: " +:+ db_error_to_string e) parent_event_result in
    let? parent_event := ok_or parent "reply parent not found" in
    match se_channel_id parent_event with
    | Some parent_ch =>
        if bool_decide (parent_ch ≠ channel_id) then Err "parent event belongs to a different channel"
        else Ok (parent_event, parent_meta_result)
    | None => Err "parent event has no channel association"
    end).

Definition meta_of (r : result (option ThreadRow) DbError) : result (option ThreadRow) string :=
  map_err (λ e, "db error looking up thread metadata: " +:+ db_error_to_string e) r.

Definition is_broadcast (e : Event) : bool :=
  existsb (λ parts : Tag, match parts with p0 :: p1 :: _ => String.eqb p0 "broadcast" && String.eqb p1 "1" | _ => false end)
    (tags e).

(** [ThreadMetadataOwned], as the parameters of the insert. *)
Definition thread_params (e : Event) (event_created_at : Z) (channel_id : Uuid) (parent : string * Z)
    (root : string * Z) (depth : Z) (broadcast : bool) : ThreadMetadataParams :=
  mkThreadParams (id e) event_created_at channel_id (Some (parent.1, Some parent.2)) (Some (root.1, Some root.2))
    depth broadcast.

Definition resolve_nip10_thread_meta (c : Uuid) (event : Event) (channel_id : Uuid)
    : M (result (option ThreadMetadataParams) string) :=
  match resolve (parse_thread_markers (tags event)) with
  | None => mret (Ok None)
  | Some (root_hex, parent_hex) =>
      try! parent_bytes := lift (ok_or (hex_decode parent_hex) "invalid parent event ID hex") in
      try! loaded := load_parent c parent_bytes channel_id in
      let '(parent_event, parent_meta_result) := loaded in
      parent_created ← time_or_now (se_event parent_event);
      try! client_root_bytes := lift (ok_or (hex_decode root_hex) "invalid root event ID hex") in
      try! parent_meta := lift (meta_of parent_meta_result) in
      try! ancestry :=
        match parent_meta with
        | Some meta =>
            let effective_root := default parent_bytes (fst <$> tr_root meta) in
            if bool_decide (client_root_bytes ≠ effective_root) then
              fail "root tag does not match thread ancestry"
            else
              root_ts ← root_time c effective_root parent_created;
              let depth := (tr_depth meta + 1)%Z in
              if (100 <? depth)%Z then fail "thread depth limit exceeded"
              else mret (Ok (effective_root, root_ts, depth))
        | None =>
            a ← derive_ancestry_from_parent_tags c (se_event parent_event) parent_bytes parent_created;
            if bool_decide (client_root_bytes ≠ a.1.1) then fail "root tag does not match thread ancestry"
            else mret (Ok a)
        end in
      event_created_at ← time_or_now event;
      mret (Ok (Some (thread_params event event_created_at channel_id (parent_bytes, parent_created)
                        (ancestry.1.1, ancestry.1.2) ancestry.2 (is_broadcast event))))
  end.

(** [ReplyAncestry] and [resolve_relay_reply_thread_meta]. *)
Record ReplyAncestry : Type := mkReplyAncestry {
  ra_parent : string * Z;
  ra_root : string * Z;
  ra_depth : Z
}.

Definition into_thread_meta (a : ReplyAncestry) (reply : Event) (reply_created_at : Z) (channel_id : Uuid)
    : ThreadMetadataParams :=
  thread_params reply reply_created_at channel_id (ra_parent a) (ra_root a) (ra_depth a) false.

Definition resolve_relay_reply_thread_meta (c : Uuid) (parent_hex : string) (channel_id : Uuid)
    : M (result ReplyAncestry string) :=
  try! parent_bytes := lift (ok_or (hex_decode parent_hex) "invalid parent event ID hex") in
  try! loaded := load_parent c parent_bytes channel_id in
  let '(parent_event, parent_meta_result) := loaded in
  parent_created ← time_or_now (se_event parent_event);
  try! parent_meta := lift (meta_of parent_meta_result) in
  ancestry ←
    match parent_meta with
    | Some meta =>
        let effective_root := default parent_bytes (fst <$> tr_root meta) in
        root_ts ← (if bool_decide (effective_root = parent_bytes) then mret parent_created
                   else root_time c effective_root parent_created);
        mret (effective_root, root_ts, (tr_depth meta + 1)%Z)
    | None => derive_ancestry_from_parent_tags c (se_event parent_event) parent_bytes parent_created
    end;
  if (100 <? ancestry.2)%Z then fail "thread depth limit exceeded"
  else mret (Ok (mkReplyAncestry (parent_bytes, parent_created) (ancestry.1.1, ancestry.1.2) ancestry.2)).

End thread.
