(* ===== verification/Ingest.v ===== *)
(** * Ingest: the relay's ingest pipeline

Models [ingest_event] and [ingest_event_inner] of
[crates/buzz-relay/src/handlers/ingest.rs], the one path by which an event
submitted over the web socket or HTTP is checked, stored and dispatched, with
the gates it calls and the trace it emits ([conformance/mod.rs]).  An event
comes with its signature, which [Nostr.Event] leaves out.  Metrics and log
lines are left out. *)
From stdpp Require Import pretty.
From S2P Require Import Conformance Prelude Text Encode Nostr Kind Scope Roles Json IngestRules IngestEnvelopes EventStore IngestRun IngestThread.

Section ingest.
Context {NT : NostrTags} {HO : HashOrder} {UT : UuidText} {RC : RelayCrates} {TT : TraceText} {UC : UrlCrate}.

Definition reject {A : Type} (text : string) : M (result A IngestError) := fail (Rejected text).
Definition invalid_err (e : string) : IngestError := Rejected ("invalid: " +:+ e).
Definition internal_db (prefix : string) (e : DbError) : IngestError := Internal (prefix +:+ db_error_to_string e).

(** ** The trace ([conformance/mod.rs]) *)

Definition actor_label (pk : string) : ActorLabel := mkActor (str_take 16 pk).
Definition state_for_request (t : Tenant) (pk : string) : AbstractState :=
  mkState (mkCommunity (community t)) (mkHost (host t)) (actor_label pk).
Definition msg_id_label (event_id : string) : OpaqueId := mkOpaque (str_take 16 event_id).
Definition channel_label (ch : Uuid) : ChannelLabel := mkChannel ch.

Definition claimed_community_from_event (e : Event) : option CommunityLabel :=
  match List.find (named "h") (tags e) with
  | Some raw => mkCommunity <$> (raw !! 1 ≫= parse_uuid)
  | None => None
  end.

Definition emit (t : Tenant) (auth : IngestAuth) (a : TraceAction) : M unit :=
  record (step_new a (state_for_request t (auth_pubkey auth))).

Definition sanitized_reason_for (err : IngestError) : SanitizedReason :=
  match err with
  | Rejected _ => Invalid
  | CanvasConflict _ => Invalid
  | AuthFailed _ => Restricted
  | Internal _ => ServerError
  end.

(** ** Error maps *)

Definition map_serving_fence_state (active : result bool DbError) : result unit IngestError :=
  match active with
  | Ok true => Ok tt
  | Ok false => Err (Rejected "restricted: community writes are fenced")
  | Err e => Err (internal_db "error: checking community write fence: " e)
  end.

Definition map_relay_admin_error (e : RelayAdminError) : IngestError :=
  match e with
  | Banned => AuthFailed "blocked: you are banned from this community"
  | AdminRejected reason => invalid_err reason
  | AdminInternal reason => Internal ("error: " +:+ reason)
  end.

Definition map_push_accept_error (e : AcceptError) : IngestError :=
  match e with
  | AcceptValidation reason => invalid_err reason
  | AcceptInternal reason => Internal reason
  end.

(** ** The gates *)

(** [verify_event] ([buzz-core/src/verification.rs]). *)
Definition verify_event (e : Event) (sig : string) : result unit string :=
  if negb (verify_id e) then
    Err ("invalid event id: computed " +:+ computed_id e +:+ ", got " +:+ id e)
  else if negb (verify_signature e sig) then Err "invalid schnorr signature"
  else Ok tt.

Definition MAX_TIMESTAMP_DRIFT_SECS : Z := 900.
Definition CANVAS_MAX_INGEST_FUTURE_SECS : Z := 300.
Definition MAX_EVENT_CONTENT_BYTES : N := 262144.

Definition validate_canvas_future_timestamp (event_ts now : Z) : result unit string :=
  if (CANVAS_MAX_INGEST_FUTURE_SECS <? i64_sub event_ts now)%Z
  then Err "invalid: canvas event timestamp too far in the future" else Ok tt.

(** From the write fence to the kinds nobody may submit. *)
Definition check_submittable (t : Tenant) (kind : N) (auth : IngestAuth) : M (result unit IngestError) :=
  active ← stmt (SServing (community t));
  try! _ := lift (map_serving_fence_state active) in
  try! _ := refuse (kind =? KIND_AUTH)%N (Rejected "invalid: AUTH events cannot be submitted") in
  try! _ := refuse (one_of kind [KIND_MEMBER_ADDED_NOTIFICATION; KIND_MEMBER_REMOVED_NOTIFICATION])
    (Rejected "invalid: membership notifications are relay-signed only") in
  try! _ := refuse (is_http auth && one_of kind [KIND_GIFT_WRAP; KIND_PRESENCE_UPDATE])
    (Rejected ("invalid: kind " +:+ pretty kind +:+ " is only accepted via WebSocket")) in
  refuse (is_relay_only_kind kind) (Rejected "restricted: relay-only kind").

(** From the signature to the size; the clock reading goes on to the leases. *)
Definition check_authentic (e : Event) (sig : string) (auth : IngestAuth) : M (result Z IngestError) :=
  panicked ← verify_panicked;
  try! _ := (if panicked : bool then fail (Internal "error: internal verification error")
             else lift (map_err invalid_err (verify_event e sig))) in
  now ← utc_now;
  let event_ts := as_i64 (created_at e) in
  try! _ := refuse (MAX_TIMESTAMP_DRIFT_SECS <? i64_abs (i64_sub event_ts now))%Z
    (Rejected "invalid: event timestamp too far from server time") in
  try! _ := when (kind e =? KIND_CANVAS)%N
    (lift (map_err Rejected (validate_canvas_future_timestamp event_ts now))) in
  try! _ := refuse (MAX_EVENT_CONTENT_BYTES <? N.of_nat (String.length (content e)))%N
    (Rejected ("invalid: content exceeds maximum size of " +:+ pretty MAX_EVENT_CONTENT_BYTES
               +:+ " bytes (got " +:+ fmt_nat (String.length (content e)) +:+ ")")) in
  try! _ := refuse (bool_decide (pubkey e ≠ auth_pubkey auth) && negb (kind e =? KIND_GIFT_WRAP)%N)
    (AuthFailed "invalid: event pubkey does not match authenticated identity") in
  mret (Ok now).

Definition check_scope (e : Event) (auth : IngestAuth) : M (result unit IngestError) :=
  try! required := lift (map_err Rejected (required_scope_for_kind (kind e) e)) in
  let scoped := bool_decide (is_Some (auth_channel_ids auth)) in
  try! _ := refuse (is_relay_admin_kind (kind e) && scoped)
    (AuthFailed "restricted: relay admin commands require a global token, not a channel-scoped token") in
  try! _ := refuse ((kind e =? KIND_NIP43_LEAVE_REQUEST)%N && scoped)
    (AuthFailed "restricted: leave requests require a global token") in
  refuse (negb (bool_decide (required ∈ auth_scopes auth)))
    (AuthFailed ("restricted: insufficient scope (need " +:+ scope_as_str required +:+ ")")).

(** The ban and time-out gate. *)
Definition check_restriction (t : Tenant) (e : Event) (auth : IngestAuth) : M (result unit IngestError) :=
  when (negb (is_moderation_command_kind (kind e)) && negb (is_relay_admin_kind (kind e))) (
    r ← stmt (SRestriction (community t) (auth_pubkey auth));
    match r with
    | Ok (banned, muted_until) =>
        if banned : bool then fail (AuthFailed "blocked: you are banned from this community")
        else match muted_until with
             | Some until =>
                 now ← utc_now;
                 refuse (now <? until)%Z (AuthFailed ("restricted: you are timed out until " +:+ pretty until))
             | None => mret (Ok tt)
             end
    | Err e => fail (internal_db "error: internal error checking restriction state: " e)
    end).

(** ** The channel *)

Inductive ReactionChannelResult : Type :=
| RcChannel (ch : Uuid) | RcNoChannel | RcNotFound | RcNoTarget | RcDbError (e : DbError).

Definition derive_reaction_channel (c : Uuid) (e : Event) : M ReactionChannelResult :=
  match last_e_target (tags e) ≫= decode_32 with
  | None => mret RcNoTarget
  | Some id_bytes =>
      r ← stmt (SGetEvent c id_bytes);
      mret (match r with
            | Ok (Some target) => match se_channel_id target with Some ch => RcChannel ch | None => RcNoChannel end
            | Ok None => RcNotFound
            | Err err => RcDbError err
            end)
  end.

(** A deletion's channel is its target's. *)
Definition deletion_channel (c : Uuid) (e : Event) : M (result (option Uuid) IngestError) :=
  match first_e_target (tags e) with
  | None => mret (Ok None)
  | Some hex =>
      try! target_bytes := lift (ok_or (hex_decode hex) (Rejected "invalid: malformed deletion target id")) in
      r ← stmt (SGetEvent c target_bytes);
      match r with
      | Ok (Some target) => mret (Ok (se_channel_id target))
      | Ok None => mret (Ok None)
      | Err err => fail (internal_db "error: looking up deletion target: " err)
      end
  end.

Definition resolve_channel (t : Tenant) (e : Event) : M (result (option Uuid) IngestError) :=
  try! channel_id :=
    (if (kind e =? KIND_REACTION)%N then
       r ← derive_reaction_channel (community t) e;
       match r with
       | RcChannel ch => mret (Ok (Some ch))
       | RcNoChannel => mret (Ok None)
       | RcNotFound => reject "invalid: reaction target event not found"
       | RcNoTarget => reject "invalid: reaction must reference a target event via e tag"
       | RcDbError err => fail (internal_db "error: internal error looking up reaction target: " err)
       end
     else if (kind e =? KIND_GIFT_WRAP)%N then mret (Ok None)
     else if (kind e =? KIND_DELETION)%N then deletion_channel (community t) e
     else mret (Ok (extract_channel_id parse_uuid e))) in
  mret (Ok (if is_global_only_kind (kind e) then None else channel_id)).

Definition check_channel_claim (e : Event) (auth : IngestAuth) (channel_id : option Uuid)
    : M (result unit IngestError) :=
  try! _ := refuse (requires_h_channel_scope (kind e) && bool_decide (channel_id = None))
    (Rejected "invalid: channel-scoped events must include an h tag") in
  match channel_id with
  | Some ch => lift (map_err AuthFailed (check_token_channel_access auth ch))
  | None => refuse (bool_decide (is_Some (auth_channel_ids auth)))
      (AuthFailed "restricted: channel-scoped tokens cannot publish global events")
  end.

(** [check_channel_membership]. *)
Definition check_channel_membership (t : Tenant) (ch : Uuid) (pk : string) (channel : option ChannelRow)
    : M (result unit string) :=
  m ← is_member_cached (community t) ch pk;
  match m with
  | Ok true => mret (Ok tt)
  | Ok false =>
      is_open ← match channel with
        | Some row => mret (bool_decide (ch_visibility row = "open"))
        | None =>
            r ← stmt (SGetChannel (community t) ch);
            mret (match r with Ok row => bool_decide (ch_visibility row = "open") | Err _ => false end)
        end;
      if is_open : bool then mret (Ok tt) else mret (Err "restricted: not a channel member")
  | Err e => mret (Err ("error: database error: " +:+ db_error_to_string e))
  end.

Definition fetch_channel (t : Tenant) (channel_id : option Uuid) : M (option ChannelRow) :=
  match channel_id with
  | Some ch => r ← stmt (SGetChannel (community t) ch); mret (match r with Ok row => Some row | Err _ => None end)
  | None => mret None
  end.

Definition thread_visibility (t : Tenant) (channel_id : option Uuid) (row : option ChannelRow)
    : M (option ThreadedChannelVisibility) :=
  match channel_id, row with
  | Some ch, Some row =>
      visibility ← channel_visibility_cached (community t) ch row;
      mret (Some (mkThreadedVisibility (community t) ch visibility))
  | _, _ => mret None
  end.

Definition check_membership (t : Tenant) (e : Event) (auth : IngestAuth) (channel_id : option Uuid)
    (row : option ChannelRow) : M (result unit IngestError) :=
  match channel_id with
  | Some ch =>
      when (negb (skip_membership (kind e))) (
        auth_result ← check_channel_membership t ch (auth_pubkey auth) row;
        _ ← emit t auth (AuthCheck (channel_label ch) (claimed_community_from_event e)
              (if is_ok auth_result then Allow else Deny));
        lift (map_err Rejected auth_result))
  | None => mret (Ok tt)
  end.

(** ** Kinds that are handled here and not stored *)

Definition done (e : Event) (message : string) : M (result IngestResult IngestError) :=
  mret (Ok (mkIngestResult (id e) true message)).

(** A handler whose error rejects with its own text. *)
Definition delegated (h : Handlers → Handler (result unit string)) (e : Event) : M (result IngestResult IngestError) :=
  try! _ := map_err_m Rejected (handler h) in done e "".

Definition leave_drift_text (delta : Z) : string :=
  "invalid: leave request timestamp out of range (delta=" +:+ pretty delta +:+ "s, max ±120s)".

(** NIP-43 leave requests. *)
Definition leave_request (t : Tenant) (e : Event) : M (result IngestResult IngestError) :=
  enabled ← config require_relay_membership;
  try! _ := refuse (negb enabled) (Rejected "invalid: relay membership is not enabled") in
  now ← utc_now;
  let delta := i64_sub (as_i64 (created_at e)) now in
  try! _ := refuse (120 <? i64_abs delta)%Z (Rejected (leave_drift_text delta)) in
  try! _ := refuse (negb (existsb (named "-") (tags e)))
    (Rejected ("invalid: leave request must include NIP-70 protected event tag [" +:+ debug_str "-" +:+ "]")) in
  try! removed := map_err_m (internal_db "database error: ") (stmt (SRemoveMember (community t) (pubkey e))) in
  match removed with
  | Removed =>
      _ ← handler (λ h, publish_member_removed h t (pubkey e));
      done e "info: you have left this relay"
  | NotFound => reject "invalid: you are not a relay member"
  | IsOwner => reject "invalid: relay owner cannot leave"
  | RoleMismatch => fail (Internal "unexpected RoleMismatch from remove_relay_member")
  end.

(** ** Validators that read the database *)

Definition huddle_backing_channel_id (e : Event) : result Uuid IngestError :=
  let? member := ok_or (sjson_from_str (content e)) (Rejected "invalid: Huddle event content must be a JSON object") in
  let? text := ok_or (member "ephemeral_channel_id") (Rejected "invalid: Huddle event must name an ephemeral_channel_id") in
  ok_or (parse_uuid text) (Rejected "invalid: Huddle ephemeral_channel_id must be a UUID").

Definition map_huddle_backing_channel_error (e : DbError) : IngestError :=
  match e with
  | ChannelNotFound _ => Rejected "invalid: Huddle backing channel not found"
  | e => internal_db "error: loading Huddle backing channel: " e
  end.

Definition expected_huddle_backing_ttl (ovr : option Z) : Z := default 3600%Z ovr.

Definition validate_huddle_lifecycle_event (t : Tenant) (e : Event) : M (result unit IngestError) :=
  when (one_of (kind e) [KIND_HUDDLE_STARTED; KIND_HUDDLE_ENDED]) (
    try! backing_channel_id := lift (huddle_backing_channel_id e) in
    try! backing := map_err_m map_huddle_backing_channel_error (stmt (SGetChannel (community t) backing_channel_id)) in
    relay ← config relay_pubkey;
    ovr ← config ephemeral_ttl_override;
    let signer_created_backing := bool_decide (ch_created_by backing = pubkey e) in
    if (kind e =? KIND_HUDDLE_STARTED)%N then
      refuse (negb signer_created_backing || bool_decide (ch_channel_type backing ≠ "stream")
              || bool_decide (ch_visibility backing ≠ "private")
              || bool_decide (ch_ttl_seconds backing ≠ Some (expected_huddle_backing_ttl ovr))
              || bool_decide (is_Some (ch_archived_at backing)))
        (Rejected "invalid: Huddle start must reference the signer's active private ephemeral stream")
    else
      try! _ := refuse (negb signer_created_backing && bool_decide (pubkey e ≠ relay))
        (Rejected "invalid: only the Huddle creator or relay may end it") in
      try! parent := lift (ok_or (extract_channel_id parse_uuid e)
        (Rejected "invalid: Huddle end must name its parent channel")) in
      try! linked := map_err_m (internal_db "error: checking Huddle start linkage: ")
        (stmt (SHuddleLink (community t) parent backing_channel_id (ch_created_by backing))) in
      refuse (negb linked)
        (Rejected "invalid: Huddle end does not match a creator-signed start in this channel")).

(** The target named by the first [e] tag, loaded. *)
Definition load_target (c : Uuid) (what : string) (e : Event) : M (result StoredEvent string) :=
  try! target_bytes := lift (ok_or (first_e_target (tags e) ≫= hex_decode) ("missing e tag for " +:+ what +:+ " target")) in
  try! target := map_err_m (λ err, "db error: " +:+ db_error_to_string err) (stmt (SGetEvent c target_bytes)) in
  lift (ok_or target (what +:+ " target event not found")).

Definition same_channel (e : Event) (target : StoredEvent) : result unit string :=
  match extract_channel_id parse_uuid e, se_channel_id target with
  | Some ch, Some target_ch =>
      if bool_decide (ch ≠ target_ch) then Err "target event belongs to a different channel" else Ok tt
  | Some _, None => Err "target event has no channel"
  | _, _ => Ok tt
  end.

Definition validate_edit_ownership (c : Uuid) (e : Event) : M (result unit string) :=
  try! target := load_target c "edit" e in
  try! _ := lift (same_channel e target) in
  relay ← config relay_pubkey;
  let author := effective_message_author relay (se_event target) in
  if bool_decide (author = pubkey e) then
    match se_channel_id target with
    | None => mret (Ok tt)
    | Some ch =>
        try! is_member := map_err_m (λ err, "db error checking membership: " +:+ db_error_to_string err)
          (is_member_cached c ch (pubkey e)) in
        if is_member : bool then mret (Ok tt)
        else
          r ← stmt (SGetChannel c ch);
          refuse (negb match r with Ok row => bool_decide (ch_visibility row = "open") | Err _ => false end)
            "restricted: not a channel member"
    end
  else
    try! is_owner := map_err_m (λ err, "db error checking agent ownership: " +:+ db_error_to_string err)
      (stmt (SAgentOwner c author (pubkey e))) in
    refuse (negb is_owner) "must be event author to edit".

Definition validate_forum_vote_target (c : Uuid) (e : Event) : M (result unit string) :=
  try! target := load_target c "vote" e in
  try! _ := refuse (negb (one_of (kind (se_event target)) [KIND_FORUM_POST; KIND_FORUM_COMMENT]))
    "vote target must be a forum post or comment" in
  lift (same_channel e target).

(** The metric's [p] tag is the registered owner of its author. *)
Definition validate_turn_metric (t : Tenant) (e : Event) : M (result unit IngestError) :=
  try! _ := lift (map_err invalid_err (validate_agent_turn_metric_envelope e)) in
  let owner := default "" (head (values_of "p" (tags e))) in
  try! is_owner := map_err_m (internal_db "error: db error checking agent-turn-metric ownership: ")
    (stmt (SAgentOwner (community t) (pubkey e) owner)) in
  refuse (negb is_owner)
    (AuthFailed "restricted: agent-turn-metric `p` tag must be the registered owner of this agent").

Definition is_unarchive (e : Event) : bool :=
  (kind e =? KIND_NIP29_EDIT_METADATA)%N
  && existsb (λ parts : Tag, match parts with p0 :: p1 :: _ => String.eqb p0 "archived" && String.eqb p1 "false" | _ => false end)
       (tags e).

Definition is_archived (channel_id : option Uuid) (row : option ChannelRow) : bool :=
  match channel_id, row with Some _, Some row => bool_decide (is_Some (ch_archived_at row)) | _, _ => false end.

(** From the archive gate to the project envelope, in the code's order. *)
Definition validate_content (t : Tenant) (e : Event) (channel_id : option Uuid) (row : option ChannelRow)
    : M (result unit IngestError) :=
  let k := kind e in
  try! _ := refuse (negb (is_unarchive e) && is_archived channel_id row) (Rejected "invalid: channel is archived") in
  let e_count := count_e_tags e in
  let a_count := count_tags "a" (tags e) in
  try! _ := refuse (one_of k [KIND_NIP29_DELETE_EVENT; KIND_DELETION] && negb (e_count + a_count =? 1))
    (Rejected ("invalid: deletion events must reference exactly one target via e or a tag (got e="
               +:+ fmt_nat e_count +:+ ", a=" +:+ fmt_nat a_count +:+ ")")) in
  try! _ := when (k =? KIND_STREAM_MESSAGE_EDIT)%N
    (map_err_m invalid_err (validate_edit_ownership (community t) e)) in
  try! _ := when (k =? KIND_FORUM_VOTE)%N
    (map_err_m invalid_err (validate_forum_vote_target (community t) e)) in
  try! _ := when (k =? KIND_STREAM_MESSAGE_DIFF)%N (lift (map_err invalid_err (validate_diff_event e))) in
  try! _ := when (k =? KIND_AGENT_ENGRAM)%N (lift (map_err invalid_err (validate_engram_envelope e))) in
  try! _ := when (k =? KIND_AGENT_TURN_METRIC)%N (validate_turn_metric t e) in
  try! _ := when (k =? KIND_EVENT_REMINDER)%N (
    now ← utc_now;
    delta ← config max_not_before_delta;
    lift (map_err invalid_err (validate_event_reminder (Z.to_N now) delta e))) in
  try! _ := when (k =? KIND_PERSONA)%N (lift (map_err invalid_err (validate_persona_envelope e))) in
  try! _ := when (k =? KIND_TEAM_CATALOG)%N (lift (map_err invalid_err (validate_team_catalog_envelope e))) in
  when (k =? KIND_PROJECT)%N
    (lift (map_err (λ r, invalid_err (project_rejection_to_string r)) (validate_project_envelope e))).

(** ** Creating and joining channels *)

(** [Ok None]: the request goes on; with a channel when it was created here.
[Ok (Some r)]: it ends with [r]. *)
Definition create_group (t : Tenant) (e : Event) (channel_id : option Uuid)
    : M (result (option Uuid + IngestResult) IngestError) :=
  let create_name := first_content "name" (tags e) in
  try! _ := refuse (match create_name with
                    | Some n => String.eqb (trim (canonical_channel_name n)) ""
                    | None => true
                    end) (Rejected "invalid: channel name is required") in
  let visibility_str := default "open" (first_content "visibility" (tags e)) in
  let channel_type_str := default "stream" (first_content "channel_type" (tags e)) in
  try! visibility := lift (map_err (λ _, Rejected ("invalid visibility: " +:+ visibility_str)) (visibility_from_str visibility_str)) in
  try! channel_type := lift (map_err (λ _, Rejected ("invalid channel_type: " +:+ channel_type_str)) (channel_type_from_str channel_type_str)) in
  match channel_id with
  | None => mret (Ok (inl None))
  | Some client_uuid =>
      ovr ← config ephemeral_ttl_override;
      try! created := map_err_m (internal_db "error: ")
        (stmt (SCreateChannel (community t) client_uuid (canonical_channel_name (default "" create_name))
                 channel_type visibility (first_content "about" (tags e)) (pubkey e)
                 (resolve_ttl parse_i32 e ovr))) in
      if negb created.2 then mret (Ok (inr (mkIngestResult (id e) false "duplicate: channel already exists")))
      else mret (Ok (inl (Some client_uuid)))
  end.

Definition check_join (channel_id : option Uuid) (row : option ChannelRow) : result unit IngestError :=
  match channel_id, row with
  | None, _ => Err (Rejected "invalid: join request must include an h tag")
  | Some _, Some ch =>
      if bool_decide (ch_visibility ch = "private") then Err (Rejected "restricted: channel is private") else Ok tt
  | Some _, None => Err (Rejected "invalid: channel not found")
  end.

Definition push_outcome (o : AcceptLeaseOutcome) : result unit IngestError :=
  match o with
  | LeaseAccepted => Ok tt
  | StaleEvent => Err (Rejected "invalid: stale replacement")
  | StaleGeneration => Err (Rejected "invalid: stale generation")
  | EndpointAlreadyLeased => Err (Rejected "invalid: endpoint already leased")
  | LeaseQuotaExceeded => Err (Rejected "invalid: lease quota exceeded")
  | SourceEventCollision => Err (Rejected "invalid: source event collision")
  | ConstraintViolation => Err (Rejected "invalid: lease constraint violation")
  end.

Definition push_lease (t : Tenant) (e : Event) (auth : IngestAuth) (now : Z) : M (result IngestResult IngestError) :=
  try! outcome := map_err_m map_push_accept_error (handler (λ h, accept_push_lease h t e now)) in
  try! _ := lift (push_outcome outcome) in
  _ ← emit t auth (WriteInsertGlobal (msg_id_label (id e)) (claimed_community_from_event e));
  done e "".

(** ** Storing *)

(** [media_base_url_for_tenant] ([api/media.rs]). *)
Definition media_base_url_for_tenant (config_relay_url tenant_host : string) : string :=
  let url := trim_start config_relay_url in
  (if starts_with "wss://" url || starts_with "https://" url then "https" else "http")
  +:+ "://" +:+ tenant_host +:+ "/media".

Definition check_media (t : Tenant) (e : Event) : M (result unit IngestError) :=
  url ← config relay_url;
  let tenant_media_base := media_base_url_for_tenant url (host t) in
  try! _ := when (kind e =? KIND_STREAM_MESSAGE)%N
    (lift (map_err invalid_err (validate_link_preview_tags e tenant_media_base))) in
  let imeta_tags := filter (λ p : Tag, tag_kind p = "imeta") (tags e) in
  when (negb (bool_decide (imeta_tags = [])))
    (map_err_m invalid_err (handler (λ h, validate_imeta h t imeta_tags))).

Definition resolve_thread (t : Tenant) (e : Event) (channel_id : option Uuid)
    : M (result (option ThreadMetadataParams) IngestError) :=
  match channel_id with
  | Some ch =>
      if requires_h_channel_scope (kind e)
      then map_err_m invalid_err (resolve_nip10_thread_meta (community t) e ch)
      else mret (Ok None)
  | None => mret (Ok None)
  end.

(** The action a write is traced as. *)
Definition write_action (e : Event) (channel_id : option Uuid) (was_inserted : bool) : TraceAction :=
  let claimed := claimed_community_from_event e in
  match channel_id, was_inserted with
  | Some ch, true => WriteInsert (msg_id_label (id e)) (channel_label ch) claimed
  | Some ch, false => WriteDuplicate (msg_id_label (id e)) (channel_label ch) claimed
  | None, _ => WriteInsertGlobal (msg_id_label (id e)) claimed
  end.

Definition finish_write (t : Tenant) (e : Event) (auth : IngestAuth) (channel_id : option Uuid)
    (visibility : option ThreadedChannelVisibility) (stored_event : StoredEvent) (was_inserted : bool)
    : M (result IngestResult IngestError) :=
  _ ← emit t auth (write_action e channel_id was_inserted);
  _ ← handler (λ h, dispatch_persistent_event h t stored_event (auth_pubkey auth) visibility);
  done e "".

Definition ingest_reaction (t : Tenant) (e : Event) (sig : string) (auth : IngestAuth) (channel_id : option Uuid)
    (visibility : option ThreadedChannelVisibility) (thread_meta : option ThreadMetadataParams)
    : M (result IngestResult IngestError) :=
  try! target_id := lift (ok_or (last_e_target (tags e) ≫= hex_decode)
    (Rejected "invalid: reaction must reference a target event via e tag")) in
  relay ← config relay_pubkey;
  let actor := effective_message_author relay e in
  let emoji := if String.eqb (content e) "" then "+" else content e in
  try! _ := lift (validate_reaction_emoji e emoji) in
  try! outcome := map_err_m (internal_db "error: ")
    (stmt (SReaction (community t) e sig channel_id thread_meta target_id actor emoji)) in
  match outcome with
  | TargetMissing => reject "invalid: reaction target event not found"
  | ReactionDuplicate => mret (Ok (mkIngestResult (id e) false "duplicate: reaction already exists"))
  | ReactionInserted stored_event was_inserted =>
      finish_write t e auth channel_id visibility stored_event was_inserted
  end.

Definition is_business_context (row : option ChannelRow) : bool :=
  match row with Some row => bool_decide (ch_resource_type row = Some BUSINESS_CONTEXT) | None => false end.

Definition validate_business_context_canvas (e : Event) (revision : option CanvasRevisionSpec)
    : M (result unit IngestError) :=
  try! _ := refuse (negb (bool_decide (is_Some revision)))
    (Rejected "invalid: Business context Canvas requires expected-revision") in
  parse ← handlers parse_business_document;
  lift (map_err (λ err, invalid_err ("Business context Canvas: " +:+ err)) (parse (content e))).

Definition canvas_revision (e : Event) (business : bool) : M (result (option CanvasRevisionSpec) IngestError) :=
  if (kind e =? KIND_CANVAS)%N then
    try! spec := lift (parse_canvas_expected_revision e) in
    try! _ := when business (validate_business_context_canvas e spec) in
    mret (Ok spec)
  else mret (Ok None).

Definition registration_error (e : DbError) : IngestError :=
  match e with
  | InvalidData m => invalid_err m
  | AccessDenied m => Rejected ("restricted: " +:+ m)
  | other => internal_db "error: " other
  end.

Definition canvas_error (e : DbError) : IngestError :=
  match e with InvalidData m => invalid_err m | other => internal_db "error: " other end.

Definition head_status (stored_event : StoredEvent) (status : ChannelHeadWriteStatus)
    : result (StoredEvent * bool) IngestError :=
  match status with
  | HeadMissing => Err (CanvasConflict "conflict: canvas revision does not exist")
  | HeadMismatch => Err (CanvasConflict "conflict: canvas changed since it was loaded")
  | SupersedeFailed => Err (CanvasConflict "conflict: canvas write does not supersede the current head")
  | HeadInserted => Ok (stored_event, true)
  | HeadDuplicate => Ok (stored_event, false)
  end.

Definition insert_error (e : DbError) : IngestError :=
  match e with
  | AuthEventRejected => Rejected "invalid: AUTH events cannot be stored"
  | InvalidData m => invalid_err m
  | other => internal_db "error: database error: " other
  end.

(** The generic append; a channel created by this request is compensated. *)
Definition append_event (t : Tenant) (e : Event) (sig : string) (channel_id : option Uuid)
    (thread_meta : option ThreadMetadataParams) (pre_created : option Uuid)
    : M (result (StoredEvent * bool) IngestError) :=
  r ← stmt (SInsert (community t) e sig channel_id thread_meta);
  match r with
  | Ok stored => mret (Ok stored)
  | Err err =>
      _ ← match pre_created with
          | Some ch => r ← stmt (SDeleteChannel (community t) ch); mret tt
          | None => mret tt
          end;
      fail (insert_error err)
  end.

(** The one write of the request. *)
Definition persist (t : Tenant) (e : Event) (sig : string) (channel_id : option Uuid)
    (registration : option BusinessContextRegistration) (spec : option CanvasRevisionSpec) (business : bool)
    (thread_meta : option ThreadMetadataParams) (pre_created : option Uuid)
    : M (result (StoredEvent * bool) IngestError) :=
  let c := community t in
  match registration with
  | Some reg =>
      try! ch := lift (ok_or channel_id (Rejected "invalid: context registration missing channel")) in
      map_err_m registration_error (stmt (SRegister c e sig ch BUSINESS_CONTEXT (expected_canvas_head reg)))
  | None =>
  if is_workflow_deletion e then
    map_err_m (λ err, Internal ("error: workflow deletion failed: " +:+ err))
      (handler (λ h, persist_workflow_deletion h t e))
  else if is_replaceable (kind e) then map_err_m (internal_db "error: ") (stmt (SReplaceable c e sig channel_id))
  else if is_parameterized_replaceable (kind e) then
    let d_tag := default "" (extract_d_tag e) in
    try! _ := refuse (D_TAG_MAX_LEN <? String.length d_tag)
      (Rejected ("invalid: d tag too long (" +:+ fmt_nat (String.length d_tag) +:+ " bytes, max "
                 +:+ fmt_nat D_TAG_MAX_LEN +:+ ")")) in
    map_err_m (internal_db "error: ") (stmt (SParameterized c e sig d_tag channel_id))
  else match spec with
  | Some spec =>
      try! ch := lift (ok_or channel_id (Rejected "invalid: canvas event missing channel")) in
      let precondition := match spec with NoHead => ExpectNoHead | Head id => ExpectedHead id end in
      try! w := map_err_m canvas_error
        (stmt (SHeadChecked c e sig ch precondition (if business then Some BUSINESS_CONTEXT else None))) in
      lift (head_status w.1 w.2)
  | None => append_event t e sig channel_id thread_meta pre_created
  end
  end.

(** Everything after the delegated kinds: from the media to the dispatch. *)
Definition store_event (t : Tenant) (e : Event) (sig : string) (auth : IngestAuth) (channel_id : option Uuid)
    (row : option ChannelRow) (visibility : option ThreadedChannelVisibility)
    (registration : option BusinessContextRegistration) (pre_created : option Uuid)
    : M (result IngestResult IngestError) :=
  try! _ := check_media t e in
  try! thread_meta := resolve_thread t e channel_id in
  try! _ := refuse ((kind e =? KIND_PROFILE)%N && negb (bool_decide (is_Some (sjson_from_str (content e)))))
    (Rejected "invalid: kind:0 content must be valid JSON") in
  try! _ := when (one_of (kind e) [KIND_EMOJI_SET; KIND_EMOJI_LIST]) (lift (validate_custom_emoji_tags e)) in
  if (kind e =? KIND_REACTION)%N then ingest_reaction t e sig auth channel_id visibility thread_meta
  else
  let business := (kind e =? KIND_CANVAS)%N && is_business_context row in
  try! spec := canvas_revision e business in
  try! w := persist t e sig channel_id registration spec business thread_meta pre_created in
  let '(stored_event, was_inserted) := w in
  if negb was_inserted then
    _ ← match registration, channel_id with
        | Some _, Some ch => handler (λ h, emit_group_discovery_events h t ch)
        | _, _ => mret tt
        end;
    done e "duplicate:"
  else
    _ ← (if negb (is_workflow_deletion e) && is_side_effect_kind (kind e)
         then handler (λ h, handle_side_effects h t e) else mret tt);
    _ ← match thread_meta with
        | Some meta => handler (λ h, emit_live_thread_summary h t (tp_channel_id meta)
                         (match tp_root meta with Some (root, _) => root | None => "" end))
        | None => mret tt
        end;
    finish_write t e auth channel_id visibility stored_event was_inserted.

(** ** The pipeline *)

(** From the kinds handled here to the storing stage, behind the membership gate. *)
Definition ingest_admitted (t : Tenant) (e : Event) (sig : string) (auth : IngestAuth) (now : Z)
    (channel_id : option Uuid) (row : option ChannelRow) (visibility : option ThreadedChannelVisibility)
    : M (result IngestResult IngestError) :=
  if is_relay_admin_kind (kind e) then
    try! _ := map_err_m map_relay_admin_error (handler (λ h, handle_relay_admin_event h t e)) in done e ""
  else if (kind e =? KIND_NIP43_LEAVE_REQUEST)%N then leave_request t e
  else
  try! _ := validate_huddle_lifecycle_event t e in
  try! _ := when (is_admin_kind (kind e)) (map_err_m invalid_err (handler (λ h, validate_admin_event h t e))) in
  try! registration :=
    (if (kind e =? KIND_NIP29_EDIT_METADATA)%N
     then map_err_m invalid_err (handler (λ h, validate_registration h t e)) else mret (Ok None)) in
  try! _ := when (is_identity_archive_request_kind (kind e))
    (map_err_m invalid_err (handler (λ h, handle_identity_archive_event h t e))) in
  try! _ := when (kind e =? KIND_DELETION)%N
    (map_err_m invalid_err (handler (λ h, validate_standard_deletion_event h t e))) in
  try! _ := validate_content t e channel_id row in
  try! created := (if (kind e =? KIND_NIP29_CREATE_GROUP)%N then create_group t e channel_id else mret (Ok (inl None))) in
  match created with
  | inr ended => mret (Ok ended)
  | inl pre_created =>
      try! _ := when (kind e =? KIND_NIP29_JOIN_REQUEST)%N (lift (check_join channel_id row)) in
      if (kind e =? KIND_PUSH_LEASE)%N then push_lease t e auth now
      else store_event t e sig auth channel_id row visibility registration pre_created
  end.

(** From the ban gate on. *)
Definition ingest_gated (t : Tenant) (e : Event) (sig : string) (auth : IngestAuth) (now : Z)
    : M (result IngestResult IngestError) :=
  try! _ := check_restriction t e auth in
  try! channel_id := resolve_channel t e in
  try! _ := check_channel_claim e auth channel_id in
  row ← fetch_channel t channel_id;
  visibility ← thread_visibility t channel_id row;
  try! _ := check_membership t e auth channel_id row in
  ingest_admitted t e sig auth now channel_id row visibility.

Definition ingest_event_inner (t : Tenant) (e : Event) (sig : string) (auth : IngestAuth)
    : M (result IngestResult IngestError) :=
  try! _ := check_submittable t (kind e) auth in
  try! now := check_authentic e sig auth in
  try! _ := check_scope e auth in
  if is_command_kind (kind e) then handler (λ h, handle_command h t e auth)
  else if (kind e =? KIND_PRODUCT_FEEDBACK)%N then
    try! _ := map_err_m Rejected (handler (λ h, product_feedback h t e)) in
    _ ← emit t auth (WriteInsertGlobal (msg_id_label (id e)) (claimed_community_from_event e));
    done e ""
  else if (kind e =? KIND_REPORT)%N then delegated (λ h, handle_report_event h t e) e
  else if is_moderation_command_kind (kind e) then delegated (λ h, handle_moderation_command h t e) e
  else ingest_gated t e sig auth now.

(** [EmitGuard]: an exit without a trace step records one. *)
Definition guard_drop (t : Tenant) (auth : IngestAuth) (before : nat) : M unit := λ env w,
  if length (trace w) =? before
  then emit t auth (ImplBug "ingest_event_exited_without_trace") env w else (tt, w).

Definition ingest_event (t : Tenant) (e : Event) (sig : string) (auth : IngestAuth)
    : M (result IngestResult IngestError) := λ env w,
  let before := length (trace w) in
  (r ← ingest_event_inner t e sig auth;
   _ ← match r with
       | Err err => emit t auth (SanitizedError (sanitized_reason_for err))
       | Ok _ => mret tt
       end;
   _ ← guard_drop t auth before;
   mret r) env w.

End ingest.
