(* ===== verification/IngestRunProps.v ===== *)
(** * IngestRunProps: reasoning about ingest computations

A computation only adds to the world: [logs P w w'] says that [w'] continues
[w] and that every new log entry satisfies [P].  The relation is closed under
the ways computations are put together, so [keeps] proves it for a whole
handler from its statements. *)
From stdpp Require Import pretty.
From S2P Require Import Conformance Prelude Text Encode Nostr Kind Scope Roles Json IngestRules IngestEnvelopes EventStore IngestRun IngestThread Ingest.

Record logs_with (P : LogEntry → Prop) (Q : TraceStep → Prop) (w w' : IngestWorld) : Prop := {
  logs_entries : ∃ l, log w' = log w ++ l ∧ Forall P l;
  logs_history : ∃ h, history w' = history w ++ h;
  logs_trace : ∃ s, trace w' = trace w ++ s ∧ Forall Q s
}.
Notation logs P := (logs_with P (λ _, True)).

Lemma logs_refl P Q w : logs_with P Q w w.
Proof. split; exists []; by rewrite app_nil_r. Qed.

Lemma logs_trans P Q w1 w2 w3 : logs_with P Q w1 w2 → logs_with P Q w2 w3 → logs_with P Q w1 w3.
Proof.
  intros [(l & Hl & Fl) (h & Hh) (s & Hs & Fs)] [(l' & Hl' & Fl') (h' & Hh') (s' & Hs' & Fs')]. split.
  - exists (l ++ l'). rewrite Hl', Hl, app_assoc. split; [done|]. by apply Forall_app.
  - exists (h ++ h'). by rewrite Hh', Hh, app_assoc.
  - exists (s ++ s'). rewrite Hs', Hs, app_assoc. split; [done|]. by apply Forall_app.
Qed.

#[export] Instance logs_preorder P Q : PreOrder (logs_with P Q).
Proof. split; [exact (logs_refl P Q)|exact (logs_trans P Q)]. Qed.

Lemma logs_mono (P P' : LogEntry → Prop) Q w w' : (∀ x, P x → P' x) → logs_with P Q w w' → logs_with P' Q w w'.
Proof.
  intros HPQ [(l & Hl & Fl) Hh Hs]. split; [|done..]. exists l. split; [done|]. by eapply Forall_impl.
Qed.

(** States are never forgotten. *)
Lemma logs_seen P Q w w' T : logs_with P Q w w' → T ∈ history w → T ∈ history w'.
Proof. intros [_ (h & ->) _]. set_solver. Qed.

Section exec.
Context {NT : NostrTags} {HO : HashOrder} {UT : UuidText} {RC : RelayCrates}.

(** The fence lets a statement through, or refuses it and rolls it back. *)
Lemma exec_cases {A : Type} (s : Stmt A) mok now t r t' :
  exec s mok now t = (r, t') →
  exec_statement s mok now t = (r, t')
    ∧ (writes_row s r = true → deletion_fences t !! stmt_community s = None)
  ∨ (∃ g, r = Err (fence_error (stmt_community s) g)) ∧ t' = t.
Proof.
  unfold exec. destruct (exec_statement _ _ _ _) as [r0 t0]. destruct (deletion_fences t !! _) as [g|].
  - destruct (writes_row s r0) eqn:Ew; intros [= <- <-]; [right; eauto|left]. split; [done|]. by rewrite Ew.
  - intros [= <- <-]. by left.
Qed.

Lemma exec_ok {A : Type} (s : Stmt A) mok now t a t' :
  exec s mok now t = (Ok a, t') → exec_statement s mok now t = (Ok a, t').
Proof. by intros [[? _]|[[? ?] _]]%exec_cases. Qed.

Lemma exec_read {A : Type} (s : Stmt A) mok now t : is_read s = true → exec s mok now t = exec_statement s mok now t.
Proof. unfold exec. destruct s; simpl; try done; intros _; by repeat case_match. Qed.

End exec.

(** What a transaction records of itself: it ran, or left the tables alone. *)
Definition genuine {NT : NostrTags} {HO : HashOrder} {UT : UuidText} {RC : RelayCrates} {A : Type} (s : Stmt A)
    (now : Z) (before : Tables) (res : result A DbError) (after : Tables) : Prop :=
  after = before ∨ ∃ mok r, exec s mok now before = (r, after).

Section keeps.
Context {NT : NostrTags} {HO : HashOrder} {UT : UuidText} {RC : RelayCrates} {TT : TraceText} {UC : UrlCrate}.
Context (P : LogEntry → Prop) (Q : TraceStep → Prop).

Definition keeps_with {A : Type} (m : M A) : Prop := ∀ env w a w', m env w = (a, w') → logs_with P Q w w'.
#[local] Notation keeps := keeps_with.

(** What a statement may leave in the log. *)
Definition may {A : Type} (s : Stmt A) : Prop := ∀ now before res after,
  genuine s now before res after → P (LStmt s now before res after).

Lemma keeps_ret {A : Type} (a : A) : keeps (mret a).
Proof. intros env w b w' [= <- <-]. by apply logs_refl. Qed.

Lemma keeps_bind {A B : Type} (m : M A) (k : A → M B) : keeps m → (∀ a, keeps (k a)) → keeps (m ≫= k).
Proof.
  intros Hm Hk env w b w'. unfold mbind, M_bind. destruct (m env w) as [a w1] eqn:E.
  intros H. transitivity w1; [by eapply Hm|by eapply Hk].
Qed.

Lemma keeps_try {A B E : Type} (m : M (result A E)) (k : A → M (result B E)) :
  keeps m → (∀ a, keeps (k a)) → keeps (try_bind m k).
Proof. intros Hm Hk. apply keeps_bind; [done|]. intros [a|e]; [apply Hk|apply keeps_ret]. Qed.

Lemma keeps_lift {A E : Type} (r : result A E) : keeps (lift r).
Proof. apply keeps_ret. Qed.
Lemma keeps_try_lift {A B E : Type} (r : result A E) (k : A → M (result B E)) :
  (∀ a, r = Ok a → keeps (k a)) → keeps (try_bind (lift r) k).
Proof. intros Hk. destruct r as [a|]; [|apply keeps_ret]. by apply (Hk a). Qed.
Lemma keeps_fail {A E : Type} (e : E) : keeps (fail e : M (result A E)).
Proof. apply keeps_ret. Qed.
Lemma keeps_map_err {A E F : Type} (f : E → F) (m : M (result A E)) : keeps m → keeps (map_err_m f m).
Proof. intros Hm. apply keeps_bind; [done|]. intros a. apply keeps_ret. Qed.
Lemma keeps_when {E : Type} (b : bool) (m : M (result unit E)) : keeps m → keeps (when b m).
Proof. intros Hm. destruct b; [done|apply keeps_ret]. Qed.
Lemma keeps_refuse {E : Type} (b : bool) (e : E) : keeps (refuse b e).
Proof. destruct b; apply keeps_ret. Qed.
Lemma keeps_config {A : Type} (f : Config → A) : keeps (config f).
Proof. intros env w a w' [= <- <-]. by apply logs_refl. Qed.
Lemma keeps_handlers {A : Type} (f : Handlers → A) : keeps (handlers f).
Proof. intros env w a w' [= <- <-]. by apply logs_refl. Qed.

Lemma logs_tick w : logs_with P Q w (tick_call w).
Proof. split; exists []; by rewrite app_nil_r. Qed.

Lemma keeps_utc_now : keeps utc_now.
Proof. intros env w a w' [= <- <-]. apply logs_tick. Qed.
Lemma keeps_verify_panicked : keeps verify_panicked.
Proof. intros env w a w' [= <- <-]. apply logs_tick. Qed.

Lemma keeps_record (s : TraceStep) : Q s → keeps (record s).
Proof.
  intros HQ env w a w' [= <- <-]. split; simpl; [exists []|exists []|exists [s]]; rewrite ?app_nil_r; [done..|].
  split; [done|]. by constructor.
Qed.

Lemma keeps_emit t auth a : Q (step_new a (state_for_request t (auth_pubkey auth))) → keeps (emit t auth a).
Proof. apply keeps_record. Qed.

Lemma logs_entry (e : LogEntry) ts w ts' : P e → logs_with P Q w (with_entry e (commits ts' (commits ts (tick_call w)))).
Proof.
  intros He. split; simpl; [exists [e]|exists (ts ++ ts')|exists []].
  - split; [done|]. by constructor.
  - by rewrite app_assoc.
  - by rewrite app_nil_r.
Qed.

Lemma keeps_handler {A : Type} (h : Handlers → Handler A) :
  (∀ before after, P (LHandler before after)) → keeps (handler h).
Proof.
  intros HP env w a w'. unfold handler. destruct (h _ _ _) as [b t]. intros [= <- <-]. by apply logs_entry.
Qed.

Lemma keeps_stmt {A : Type} (s : Stmt A) : may s → keeps (stmt s).
Proof.
  intros HP env w a w'. unfold stmt. destruct (exec _ _ _ _) as [r t] eqn:Ex.
  destruct (env_fault _ _) as [[text []]|]; intros [= <- <-]; apply logs_entry; apply HP; unfold genuine; eauto.
Qed.

Lemma keeps_join {A B : Type} (m1 : M A) (m2 : M B) : keeps m1 → keeps m2 → keeps (join m1 m2).
Proof.
  intros H1 H2 env w [a b] w'. unfold join. destruct (env_join_second _ _).
  - destruct (m2 env w) as [b' w1] eqn:E2, (m1 env w1) as [a' w2] eqn:E1. intros [= -> -> ->].
    transitivity w1; [by eapply H2|by eapply H1].
  - destruct (m1 env w) as [a' w1] eqn:E1, (m2 env w1) as [b' w2] eqn:E2. intros [= -> -> ->].
    transitivity w1; [by eapply H1|by eapply H2].
Qed.

Lemma keeps_is_member_cached c ch pk : may (SIsMember c ch pk) → keeps (is_member_cached c ch pk).
Proof.
  intros HP env w a w'. unfold is_member_cached. destruct (_ ≫= _); [intros [= <- <-]; apply logs_tick|].
  by apply keeps_stmt.
Qed.

Lemma keeps_visibility c ch row : keeps (channel_visibility_cached c ch row).
Proof. intros env w a w' [= <- <-]. apply logs_tick. Qed.

Lemma keeps_guard_drop t auth n : (∀ a, Q (step_new a (state_for_request t (auth_pubkey auth)))) →
  keeps (guard_drop t auth n).
Proof.
  intros HQ env w a w'. unfold guard_drop. case_match; [by apply keeps_emit|]. intros [= <- <-]. by apply logs_refl.
Qed.

End keeps.

Notation keeps P := (keeps_with P (λ _, True)).

(** Symbolic execution of a computation, down to its statements. *)
Ltac keeps_step :=
  match goal with
  | |- keeps_with _ _ (mret _) => apply keeps_ret
  | |- keeps_with _ _ (try_bind (lift _) _) => apply keeps_try_lift; intros ? ?
  | |- keeps_with _ _ (try_bind _ _) => apply keeps_try; [|intros ?]
  | |- keeps_with _ _ (_ ≫= _) => apply keeps_bind; [|intros ?]
  | |- keeps_with _ _ (lift _) => apply keeps_lift
  | |- keeps_with _ _ (fail _) => apply keeps_fail
  | |- keeps_with _ _ (reject _) => apply keeps_fail
  | |- keeps_with _ _ (map_err_m _ _) => apply keeps_map_err
  | |- keeps_with _ _ (when _ _) => apply keeps_when
  | |- keeps_with _ _ (refuse _ _) => apply keeps_refuse
  | |- keeps_with _ _ (config _) => apply keeps_config
  | |- keeps_with _ _ (handlers _) => apply keeps_handlers
  | |- keeps_with _ _ utc_now => apply keeps_utc_now
  | |- keeps_with _ _ verify_panicked => apply keeps_verify_panicked
  | |- keeps_with _ _ (emit _ _ _) => apply keeps_emit; try done
  | |- keeps_with _ _ (done _ _) => apply keeps_ret
  | |- keeps_with _ _ (handler _) => apply keeps_handler; try done
  | |- keeps_with _ _ (stmt _) => apply keeps_stmt; try done
  | |- keeps_with _ _ (join _ _) => apply keeps_join
  | |- keeps_with _ _ (is_member_cached _ _ _) => apply keeps_is_member_cached; try done
  | |- keeps_with _ _ (channel_visibility_cached _ _ _) => apply keeps_visibility
  | |- keeps_with _ _ (guard_drop _ _ _) => apply keeps_guard_drop; try done
  | |- keeps_with _ _ (match ?x with _ => _ end) => destruct x
  end.
Ltac keeps := repeat keeps_step; try done.
