(* ===== verification/IngestGates.v ===== *)
(** * IngestGates: what passing the gates of the pipeline means

Each gate of [Ingest] that answers [Ok] leaves evidence: conditions on the
event and the token, and transactions of the request's own that saw what the
gate needs.  [gates_passed] puts them together for a request that gets to the
storing stage ([inner_cases]). *)
From stdpp Require Import pretty.
From S2P Require Import Conformance Prelude Text Encode Nostr Kind Scope Roles Json IngestRules IngestEnvelopes EventStore EventStoreProps IngestRun IngestThread Ingest IngestRunProps.

(** An entry that writes no event. *)
Definition quiet (x : LogEntry) : Prop :=
  match x with LStmt s _ _ _ _ => stmt_writes s = None | LHandler _ _ => True end.

(** A transaction of the log named community [c] and ran, at a clock reading,
on tables with [φ]. *)
Definition observed (l : list LogEntry) (c : Uuid) (φ : Z → Tables → Prop) : Prop :=
  ∃ A (s : Stmt A) now before r after, LStmt s now before r after ∈ l ∧ stmt_community s = c ∧ φ now before.

Lemma observed_app_l l l' c φ : observed l c φ → observed (l ++ l') c φ.
Proof. intros (A & s & now & b & r & a & Hin & H). exists A, s, now, b, r, a. rewrite elem_of_app. eauto. Qed.

Lemma observed_app_r l l' c φ : observed l' c φ → observed (l ++ l') c φ.
Proof. intros (A & s & now & b & r & a & Hin & H). exists A, s, now, b, r, a. rewrite elem_of_app. eauto. Qed.

Lemma observed_mono l c (φ ψ : Z → Tables → Prop) : (∀ n T, φ n T → ψ n T) → observed l c φ → observed l c ψ.
Proof. intros HP (A & s & now & b & r & a & Hin & Hc & H). exists A, s, now, b, r, a. auto. Qed.

(** An error, a refusal, or a duplicate. *)
Definition negative (r : result IngestResult IngestError) : Prop :=
  match r with Err _ => True | Ok a => accepted a = false ∨ message a = "duplicate:" end.

(** The kinds another component answers for, which the pipeline does not store. *)
Definition handled_elsewhere (e : Event) : bool :=
  is_command_kind (kind e) || is_moderation_command_kind (kind e) || is_relay_admin_kind (kind e)
  || one_of (kind e) [KIND_PRODUCT_FEEDBACK; KIND_REPORT; KIND_NIP43_LEAVE_REQUEST; KIND_PUSH_LEASE].

(** ** Inverting runs *)

Section inversion.
Context {NT : NostrTags} {HO : HashOrder} {UT : UuidText} {RC : RelayCrates} {TT : TraceText} {UC : UrlCrate}.

Lemma bind_inv {A B : Type} (m : M A) (k : A → M B) env w r w' :
  (m ≫= k) env w = (r, w') → ∃ a w1, m env w = (a, w1) ∧ k a env w1 = (r, w').
Proof. unfold mbind, M_bind. destruct (m env w) as [a w1]. eauto. Qed.

Lemma try_inv {A B E : Type} (m : M (result A E)) (k : A → M (result B E)) env w r w' :
  try_bind m k env w = (r, w') →
  (∃ e, m env w = (Err e, w') ∧ r = Err e) ∨ ∃ a w1, m env w = (Ok a, w1) ∧ k a env w1 = (r, w').
Proof. intros ([a|e] & w1 & Hm & Hk)%bind_inv; [eauto|]. unfold mret, M_ret in Hk. simplify_eq. eauto. Qed.

Lemma try_ok {A B E : Type} (m : M (result A E)) (k : A → M (result B E)) env w b w' :
  try_bind m k env w = (Ok b, w') → ∃ a w1, m env w = (Ok a, w1) ∧ k a env w1 = (Ok b, w').
Proof. intros [(e & _ & ?)|H]%try_inv; [done|exact H]. Qed.

Lemma ret_inv {A : Type} (a b : A) env w w' : (mret a : M A) env w = (b, w') → b = a ∧ w' = w.
Proof. unfold mret, M_ret. naive_solver. Qed.

Lemma lift_inv {A E : Type} (r : result A E) b env w w' : lift r env w = (b, w') → r = b ∧ w' = w.
Proof. intros H. by injection H as <- <-. Qed.

Lemma refuse_ok {E : Type} b (e : E) u env w w' : refuse b e env w = (Ok u, w') → b = false ∧ w' = w.
Proof. destruct b; intros H; [done|]. by injection H as <- <-. Qed.

Lemma when_ok {E : Type} b (m : M (result unit E)) u env w w' :
  when b m env w = (Ok u, w') → b = false ∧ w' = w ∨ b = true ∧ m env w = (Ok u, w').
Proof. destruct b; intros H; [by right|left]. by injection H as <- <-. Qed.

Lemma when_lift {E : Type} b (r : result unit E) u env w w' :
  b = false ∧ w' = w ∨ b = true ∧ lift r env w = (Ok u, w') → (b = false ∨ r = Ok u) ∧ w' = w.
Proof. intros [[-> ->]|[-> [H ->]%lift_inv]]; auto. Qed.

Lemma map_err_m_ok {A E F : Type} (f : E → F) (m : M (result A E)) env w a w' :
  map_err_m f m env w = (Ok a, w') → m env w = (Ok a, w').
Proof. intros ([b|e] & w1 & Hm & H)%bind_inv; [|done]. by injection H as <- <-. Qed.

(** A statement that answers: its entry, and what it computed. *)
Lemma stmt_ok {A : Type} (s : Stmt A) env w a w' :
  stmt s env w = (Ok a, w') →
  ∃ now before after mok, log w' = log w ++ [LStmt s now before (Ok a) after]
    ∧ exec_statement s mok now before = (Ok a, after).
Proof.
  unfold stmt. destruct (exec _ _ _ _) as [r t] eqn:Ex.
  destruct (env_fault _ _) as [[text took]|]; intros [= -> <-]; [].
  eexists _, _, _, _. split; [done|by apply exec_ok].
Qed.

(** Any statement's entry. *)
Lemma stmt_entry {A : Type} (s : Stmt A) env w r w' :
  stmt s env w = (r, w') → ∃ now before after, log w' = log w ++ [LStmt s now before r after].
Proof.
  unfold stmt. destruct (exec _ _ _ _) as [r' t] eqn:Ex.
  destruct (env_fault _ _) as [[text took]|]; intros [= <- <-]; simpl; eauto.
Qed.

Lemma stmt_observed {A : Type} (s : Stmt A) env w a w' (φ : Z → Tables → Prop) :
  stmt s env w = (Ok a, w') →
  (∀ mok now before after, exec_statement s mok now before = (Ok a, after) → φ now before) →
  observed (log w') (stmt_community s) φ.
Proof.
  intros (now & b & a' & mok & -> & Hex)%stmt_ok Hφ. apply observed_app_r.
  exists _, s, now, b, (Ok a), a'. split; [set_solver|]. split; [done|]. by eapply Hφ.
Qed.

Lemma observed_logs P w w' c φ : logs P w w' → observed (log w) c φ → observed (log w') c φ.
Proof. intros [(l & -> & _) _ _]. apply observed_app_l. Qed.

End inversion.

(** Inverts runs that answer [Ok]. *)
Ltac run_step :=
  match goal with
  | H : try_bind _ _ _ _ = (Ok _, _) |- _ => apply try_ok in H as (? & ? & ? & H)
  | H : (_ ≫= _) _ _ = (_, _) |- _ => apply bind_inv in H as (? & ? & ? & H)
  | H : refuse _ _ _ _ = (Ok _, _) |- _ => apply refuse_ok in H as [H ->]
  | H : lift _ _ _ = (_, _) |- _ => apply lift_inv in H as [H ->]
  | H : map_err_m _ _ _ _ = (Ok _, _) |- _ => apply map_err_m_ok in H
  | H : when _ _ _ _ = (Ok _, _) |- _ => apply when_ok in H
  | H : ?b = false ∧ ?w' = ?w ∨ ?b = true ∧ lift _ _ _ = (Ok _, _) |- _ => apply when_lift in H as [H ->]
  | H : mret _ _ _ = (_, _) |- _ => apply ret_inv in H as [H ->]
  | H : fail _ _ _ = (Ok _, _) |- _ => by apply ret_inv in H as [? ->]
  | H : reject _ _ _ = (Ok _, _) |- _ => by apply ret_inv in H as [? ->]
  end.
Ltac run := repeat run_step.

(** ** What each gate requires *)

Section gates.
Context {NT : NostrTags} {HO : HashOrder} {UT : UuidText} {RC : RelayCrates} {TT : TraceText} {UC : UrlCrate}.
Context (t : Tenant) (e : Event) (sig : string) (auth : IngestAuth) (env : Env).

(** The event is signed by its author, recent, small, and submitted by the
author himself unless it is a gift wrap.  Recent where its date is one that a
row can hold: the check's [abs] wraps for a date 2^63 seconds from the clock,
which no statement stores. *)
Record authentic : Prop := {
  au_id : verify_id e = true;
  au_signature : verify_signature e sig = true;
  au_fresh : is_ok (event_ts e) = true → ∃ n, (Z.abs (as_i64 (created_at e) - env_clock env n) <= MAX_TIMESTAMP_DRIFT_SECS)%Z
    ∧ (kind e = KIND_CANVAS → as_i64 (created_at e) - env_clock env n <= CANVAS_MAX_INGEST_FUTURE_SECS)%Z;
  au_size : (N.of_nat (String.length (content e)) <= MAX_EVENT_CONTENT_BYTES)%N;
  au_author : pubkey e = auth_pubkey auth ∨ kind e = KIND_GIFT_WRAP
}.

(** Its kind may be submitted this way, and the token has the scope it needs. *)
Record kind_allowed : Prop := {
  ka_not_auth : kind e ≠ KIND_AUTH;
  ka_not_notification : one_of (kind e) [KIND_MEMBER_ADDED_NOTIFICATION; KIND_MEMBER_REMOVED_NOTIFICATION] = false;
  ka_not_relay_only : is_relay_only_kind (kind e) = false;
  ka_websocket : is_http auth = true → one_of (kind e) [KIND_GIFT_WRAP; KIND_PRESENCE_UPDATE] = false;
  ka_scope : ∃ s, required_scope_for_kind (kind e) e = Ok s ∧ s ∈ auth_scopes auth;
  ka_global_token : is_relay_admin_kind (kind e) = true ∨ kind e = KIND_NIP43_LEAVE_REQUEST → auth_channel_ids auth = None
}.

(** A transaction of the request saw the author free to write: not banned, and
timed out at most until a moment the clock then passed. *)
Definition unrestricted_at (now : Z) (T : Tables) : Prop :=
  ∃ muted, restriction_state now (community t) (auth_pubkey auth) T = (false, muted)
    ∧ ∀ until, muted = Some until → ∃ n, (until <= env_clock env n)%Z.

Definition unrestricted (l : list LogEntry) : Prop := observed l (community t) unrestricted_at.

(** What the token and the kind say of the channel. *)
Record channel_allowed (channel_id : option Uuid) : Prop := {
  ca_required : requires_h_channel_scope (kind e) = true → is_Some channel_id;
  ca_global : is_global_only_kind (kind e) = true → channel_id = None;
  ca_token : ∀ allowed, auth_channel_ids auth = Some allowed → ∃ ch, channel_id = Some ch ∧ ch ∈ allowed
}.

(** The author may write in the channel: a member when the request asked, a
member in an earlier state the cache remembered, or the channel was open. *)
Definition may_write_in (l : list LogEntry) (past : list Tables) (ch : Uuid) : Prop :=
  observed l (community t) (λ _ T, is_member (community t) ch (auth_pubkey auth) T = true)
  ∨ (∃ T, T ∈ past ∧ is_member (community t) ch (auth_pubkey auth) T = true)
  ∨ observed l (community t) (λ _ T, ∃ row, get_channel (community t) ch T = Ok row ∧ ch_visibility row = "open").

(** Ever since [get_channel] was first asked, an answer showed no archived
channel. *)
Definition not_archived (l : list LogEntry) (ch : Uuid) : Prop :=
  ∃ now before after r, LStmt (SGetChannel (community t) ch) now before r after ∈ l
    ∧ ∀ row, r = Ok row → ch_archived_at row = None.

Lemma submittable_ok u w w' :
  check_submittable t (kind e) auth env w = (Ok u, w') →
  observed (log w') (community t) (λ _ T, is_serving_active (community t) T = true)
  ∧ kind e ≠ KIND_AUTH
  ∧ one_of (kind e) [KIND_MEMBER_ADDED_NOTIFICATION; KIND_MEMBER_REMOVED_NOTIFICATION] = false
  ∧ is_relay_only_kind (kind e) = false
  ∧ (is_http auth = true → one_of (kind e) [KIND_GIFT_WRAP; KIND_PRESENCE_UPDATE] = false).
Proof.
  unfold check_submittable. intros H. run. destruct x as [[]|]; simplify_eq/=. split; [|split_and!].
  - by eapply (stmt_observed (SServing (community t)) _ _ _ _ _ ltac:(eassumption)); intros ???? [=].
  - by apply N.eqb_neq.
  - done.
  - done.
  - intros Hh. rewrite Hh in *. done.
Qed.

Lemma verify_event_ok u : verify_event e sig = Ok u → verify_id e = true ∧ verify_signature e sig = true.
Proof. unfold verify_event. by destruct (verify_id e), (verify_signature e sig). Qed.

Lemma authentic_ok now w w' : check_authentic e sig auth env w = (Ok now, w') → authentic.
Proof.
  unfold check_authentic. intros H. apply bind_inv in H as (panicked & w1 & Hp & H). destruct panicked; [by run|].
  run. match goal with Hv : map_err _ (verify_event e sig) = Ok _ |- _ => destruct (verify_event e sig) eqn:Ev; [|done] end.
  apply verify_event_ok in Ev as [Hi Hs].
  match goal with Hn : utc_now env w1 = _ |- _ => injection Hn as <- <- end.
  match goal with Hb : _ && negb (kind e =? KIND_GIFT_WRAP)%N = false |- _ => rename Hb into Hauthor end.
  split; [done|done| |by apply N.ltb_ge|].
  - intros Hts%event_ts_time. exists (calls w1).
    destruct (i64_distance _ (env_clock env (calls w1)) Hts) as [Hsub Habs]; [apply env_clock_time|]. rewrite <-Habs, <-Hsub. split; [by apply Z.ltb_ge|].
    intros Hk. match goal with Hc : _ ∨ _ |- _ => destruct Hc as [Hne|Hok] end.
    + by rewrite Hk, N.eqb_refl in Hne.
    + unfold validate_canvas_future_timestamp in Hok. by case_match eqn:Hlt; [|apply Z.ltb_ge].
  - apply andb_false_iff in Hauthor as [Ha%bool_decide_eq_false|Ha%negb_false_iff%N.eqb_eq]; [left|by right].
    by apply dec_stable.
Qed.

Lemma scope_ok u w w' :
  check_scope e auth env w = (Ok u, w') →
  (∃ s, required_scope_for_kind (kind e) e = Ok s ∧ s ∈ auth_scopes auth)
  ∧ (is_relay_admin_kind (kind e) = true ∨ kind e = KIND_NIP43_LEAVE_REQUEST → auth_channel_ids auth = None).
Proof.
  unfold check_scope. intros H. run. destruct (required_scope_for_kind (kind e) e) as [s|] eqn:Es; simplify_eq/=.
  split.
  - eexists; split; [done|]. match goal with Hn : negb (bool_decide (_ ∈ auth_scopes auth)) = false |- _ => revert Hn end.
    by rewrite negb_false_iff, bool_decide_eq_true.
  - intros Hk. destruct (auth_channel_ids auth); [exfalso|done].
    destruct Hk as [Hk|Hk]; rewrite Hk in *; simpl in *; by rewrite ?N.eqb_refl in *.
Qed.

Lemma restriction_ok u w w' :
  check_restriction t e auth env w = (Ok u, w') →
  is_moderation_command_kind (kind e) = false → is_relay_admin_kind (kind e) = false → unrestricted (log w').
Proof.
  unfold check_restriction. intros H Hm Ha. run. rewrite Hm, Ha in H. destruct H as [[? _]|[_ H]]; [done|].
  apply bind_inv in H as ([[[] muted]|] & w1 & Hs & H); [by run| |by run].
  assert (∀ φ, (∀ now T, restriction_state now (community t) (auth_pubkey auth) T = (false, muted) → φ now T) →
    observed (log w1) (community t) φ) as Hobs.
  { intros φ Hφ. apply (stmt_observed (SRestriction _ _) _ _ _ _ _ Hs). intros ???? [= Hr <-]. by apply Hφ. }
  destruct muted as [until|].
  - apply bind_inv in H as (now & w2 & Hn & H). injection Hn as <- <-. run.
    apply Hobs. intros nw T Hr. exists (Some until). split; [done|]. intros u' [= <-]. exists (calls w1).
    by apply Z.ltb_ge.
  - run. apply Hobs. intros nw T Hr. by exists None.
Qed.

Lemma claim_ok channel_id u w w' :
  (is_global_only_kind (kind e) = true → channel_id = None) →
  check_channel_claim e auth channel_id env w = (Ok u, w') → channel_allowed channel_id.
Proof.
  intros Hglobal. unfold check_channel_claim. intros H. run.
  match goal with Hr : requires_h_channel_scope _ && _ = false |- _ => rename Hr into Hreq end.
  split; [|done|].
  - intros Hk. rewrite Hk in Hreq. apply bool_decide_eq_false in Hreq. by apply not_eq_None_Some in Hreq.
  - intros allowed Ha. destruct channel_id as [ch|].
    + run. unfold check_token_channel_access in H. rewrite Ha in H. case_bool_decide; [eauto|done].
    + run. rewrite Ha in H. by rewrite bool_decide_true in H by eauto.
Qed.

Lemma resolve_ok channel_id w w' :
  resolve_channel t e env w = (Ok channel_id, w') → is_global_only_kind (kind e) = true → channel_id = None.
Proof. unfold resolve_channel. intros H Hk. run. rewrite Hk in H. by injection H. Qed.

Lemma member_ok ch row u w w' :
  check_channel_membership t ch (auth_pubkey auth) row env w = (Ok u, w') →
  (∀ r, row = Some r → observed (log w) (community t) (λ _ T, get_channel (community t) ch T = Ok r)) →
  may_write_in (log w') (history w) ch.
Proof.
  unfold check_channel_membership. intros H Hrow. apply bind_inv in H as (m & w1 & Hm & H).
  unfold may_write_in. destruct m as [[]|]; [| |by run].
  - run. unfold is_member_cached in Hm. destruct (_ ≫= _) as [T|] eqn:Ec.
    + injection Hm as Hm <-. apply bind_Some in Ec as (n & _ & HT). apply list_elem_of_lookup_2 in HT. eauto.
    + left. apply (stmt_observed (SIsMember _ _ _) _ _ _ _ _ Hm). by intros ???? [= ? _].
  - right; right. apply (keeps_is_member_cached (λ _, True) (λ _, True)) in Hm; [|done].
    apply bind_inv in H as (is_open & w2 & Ho & H). destruct is_open; [|by run]. run.
    destruct row as [r|].
    + run. symmetry in Ho. apply bool_decide_eq_true in Ho. eapply observed_logs; [done|].
      eapply observed_mono; [|by apply (Hrow r)]. intros ???. by exists r.
    + apply bind_inv in Ho as (r & w3 & Hs & Ho). run. destruct r as [r|]; [|done].
      symmetry in Ho. apply bool_decide_eq_true in Ho.
      apply (stmt_observed (SGetChannel _ _) _ _ _ _ _ Hs). intros ???? [= Hr _]. eauto.
Qed.

Lemma may_write_logs P w w' ch :
  logs P w w' → may_write_in (log w) (history w) ch → may_write_in (log w') (history w') ch.
Proof.
  intros Hl [H|[(T & HT & H)|H]]; [left|right; left|right; right].
  - by eapply observed_logs.
  - exists T. split; [by eapply logs_seen|done].
  - by eapply observed_logs.
Qed.

Lemma membership_ok ch row u w w' :
  check_membership t e auth (Some ch) row env w = (Ok u, w') →
  (∀ r, row = Some r → observed (log w) (community t) (λ _ T, get_channel (community t) ch T = Ok r)) →
  skip_membership (kind e) = true ∨ may_write_in (log w') (history w') ch.
Proof.
  unfold check_membership. intros H Hrow. destruct (skip_membership (kind e)) eqn:Esk; [by left|right].
  change (when (negb false)) with (λ m : M (result unit IngestError), m) in H. cbn beta in H.
  apply bind_inv in H as ([?|?] & w1 & Hm & H); apply bind_inv in H as ([] & w2 & He & H); run; [|done].
  apply member_ok in Hm as Hw; [|done]. injection He as <-.
  destruct Hw as [Hw|[(T & HT & Hw)|Hw]]; [left; done| |by right; right].
  right; left. exists T. split; [|done].
  assert (keeps (λ _, True) (check_channel_membership t ch (auth_pubkey auth) row)) as K
    by (unfold check_channel_membership; keeps).
  by apply (logs_seen _ _ _ _ _ (K _ _ _ _ Hm)).
Qed.

Lemma fetch_ok channel_id row w w' ch :
  fetch_channel t channel_id env w = (row, w') → channel_id = Some ch →
  (∀ r, row = Some r → observed (log w') (community t) (λ _ T, get_channel (community t) ch T = Ok r))
  ∧ ∃ now before after r, LStmt (SGetChannel (community t) ch) now before r after ∈ log w'
      ∧ row = match r with Ok x => Some x | Err _ => None end.
Proof.
  intros H ->. apply bind_inv in H as (r & w1 & Hs & H). run. split.
  - intros r' Hr. destruct r as [r|]; simplify_eq.
    apply (stmt_observed (SGetChannel _ _) _ _ _ _ _ Hs). by intros ???? [= ? _].
  - apply stmt_entry in Hs as (now & b & a & ->). exists now, b, a, r. split; [set_solver|done].
Qed.

Lemma content_ok channel_id row u w w' :
  validate_content t e channel_id row env w = (Ok u, w') → is_unarchive e = true ∨ is_archived channel_id row = false.
Proof.
  unfold validate_content. cbv zeta. intros H. apply try_ok in H as (? & ? & H & _). run.
  apply andb_false_iff in H as [H%negb_false_iff|H]; [by left|by right].
Qed.

(** The step an admitted author leaves. *)
Definition allowed_step (ch : Uuid) : TraceStep :=
  step_new (AuthCheck (channel_label ch) (claimed_community_from_event e) Allow)
    (state_for_request t (auth_pubkey auth)).

Lemma membership_traced ch row u w w' :
  check_membership t e auth (Some ch) row env w = (Ok u, w') →
  skip_membership (kind e) = false → allowed_step ch ∈ trace w'.
Proof.
  unfold check_membership. intros H Hsk. rewrite Hsk in H.
  change (when (negb false)) with (λ m : M (result unit IngestError), m) in H. cbn beta in H.
  apply bind_inv in H as ([?|?] & w1 & _ & H); apply bind_inv in H as ([] & w2 & He & H); run; [|done].
  injection He as <-. apply elem_of_app. right. by apply list_elem_of_singleton.
Qed.

(** What a request whose log is [l] has shown when it comes to the storing
stage; [past] are the states the database has been in. *)
Record gates_passed (channel_id : option Uuid) (l : list LogEntry) (past : list Tables) : Prop := {
  gp_authentic : authentic;
  gp_kind : kind_allowed;
  gp_active : observed l (community t) (λ _ T, is_serving_active (community t) T = true);
  gp_unrestricted : unrestricted l;
  gp_channel : channel_allowed channel_id;
  gp_member : ∀ ch, channel_id = Some ch → skip_membership (kind e) = true ∨ may_write_in l past ch;
  gp_open : ∀ ch, channel_id = Some ch → is_unarchive e = true ∨ not_archived l ch
}.

Lemma gates_passed_app channel_id l l' past :
  gates_passed channel_id l past → gates_passed channel_id (l ++ l') past.
Proof.
  intros [Ha Hk Hs Hu Hc Hm Ho]. split; [done|done|by apply observed_app_l|by apply observed_app_l|done|..].
  - intros ch Hch. destruct (Hm ch Hch) as [?|[?|[?|?]]]; [by left|right..].
    + left. by apply observed_app_l.
    + by right; left.
    + right; right. by apply observed_app_l.
  - intros ch Hch. destruct (Ho ch Hch) as [?|(n & b & a & r & Hin & Hr)]; [by left|right].
    exists n, b, a, r. split; [set_solver|done].
Qed.

End gates.

(** ** The gates write nothing *)

Section quiet.
Context {NT : NostrTags} {HO : HashOrder} {UT : UuidText} {RC : RelayCrates} {TT : TraceText} {UC : UrlCrate}.

Lemma quiet_submittable t k auth : keeps quiet (check_submittable t k auth).
Proof. unfold check_submittable. keeps. Qed.
Lemma quiet_authentic e sig auth : keeps quiet (check_authentic e sig auth).
Proof. unfold check_authentic. keeps. Qed.
Lemma quiet_scope e auth : keeps quiet (check_scope e auth).
Proof. unfold check_scope. keeps. Qed.
Lemma quiet_restriction t e auth : keeps quiet (check_restriction t e auth).
Proof. unfold check_restriction. keeps. Qed.
Lemma quiet_resolve t e : keeps quiet (resolve_channel t e).
Proof. unfold resolve_channel, derive_reaction_channel, deletion_channel. keeps. Qed.
Lemma quiet_claim e auth ch : keeps quiet (check_channel_claim e auth ch).
Proof. unfold check_channel_claim. keeps. Qed.
Lemma quiet_fetch t ch : keeps quiet (fetch_channel t ch).
Proof. unfold fetch_channel. keeps. Qed.
Lemma quiet_visibility t ch row : keeps quiet (thread_visibility t ch row).
Proof. unfold thread_visibility. keeps. Qed.
Lemma quiet_member t ch pk row : keeps quiet (check_channel_membership t ch pk row).
Proof. unfold check_channel_membership. keeps. Qed.
Lemma quiet_membership t e auth ch row : keeps quiet (check_membership t e auth ch row).
Proof. unfold check_membership. keeps. apply quiet_member. Qed.
Lemma quiet_leave t e : keeps quiet (leave_request t e).
Proof. unfold leave_request. keeps. Qed.
Lemma quiet_huddle t e : keeps quiet (validate_huddle_lifecycle_event t e).
Proof. unfold validate_huddle_lifecycle_event. keeps. Qed.
Lemma quiet_load_target c what e : keeps quiet (load_target c what e).
Proof. unfold load_target. keeps. Qed.
Lemma quiet_edit c e : keeps quiet (validate_edit_ownership c e).
Proof. unfold validate_edit_ownership. keeps. apply quiet_load_target. Qed.
Lemma quiet_vote c e : keeps quiet (validate_forum_vote_target c e).
Proof. unfold validate_forum_vote_target. keeps. apply quiet_load_target. Qed.
Lemma quiet_metric t e : keeps quiet (validate_turn_metric t e).
Proof. unfold validate_turn_metric. keeps. Qed.
Lemma quiet_content t e ch row : keeps quiet (validate_content t e ch row).
Proof. unfold validate_content. cbv zeta. keeps; [apply quiet_edit|apply quiet_vote|apply quiet_metric]. Qed.
Lemma quiet_create t e ch : keeps quiet (create_group t e ch).
Proof. unfold create_group. cbv zeta. keeps. Qed.
Lemma quiet_lease t e auth now : keeps quiet (push_lease t e auth now).
Proof. unfold push_lease. keeps. Qed.

End quiet.

Create HintDb quiet.
#[export] Hint Resolve quiet_submittable quiet_authentic quiet_scope quiet_restriction quiet_resolve quiet_claim
  quiet_fetch quiet_visibility quiet_membership quiet_leave quiet_huddle quiet_content quiet_create quiet_lease : quiet.

(** ** The way to the storing stage *)

Ltac quiets := repeat first [solve [auto with quiet] | keeps_step]; try done.

(** Runs the next stage: an error ends the request, quietly. *)
Tactic Notation "quiet_stage" hyp(H) hyp(Hq) "as" ident(a) ident(w) ident(Hs) :=
  let K := fresh "K" in
  match type of H with
  | try_bind ?m _ _ _ = _ =>
      assert (keeps quiet m) as K by quiets;
      apply try_inv in H as [(? & Hs & ->)|(a & w & Hs & H)];
      [left; first [exact (logs_trans _ _ _ _ _ Hq (K _ _ _ _ Hs))
                   |split; [first [by eexists|by right]|exact (logs_trans _ _ _ _ _ Hq (K _ _ _ _ Hs))]]|]
  | (?m ≫= _) _ _ = _ =>
      assert (keeps quiet m) as K by quiets; apply bind_inv in H as (a & w & Hs & H)
  end;
  let Hl := fresh "Hl" in
  pose proof (K _ _ _ _ Hs) as Hl; clear K;
  let Hq' := fresh "Hq" in pose proof (logs_trans _ _ _ _ _ Hq Hl) as Hq'; clear Hq; rename Hq' into Hq.

Lemma quiet_end {A : Type} (m : M A) env w w1 r w' :
  keeps quiet m → logs quiet w w1 → m env w1 = (r, w') → logs quiet w w'.
Proof. intros Hm Hq H. transitivity w1; [done|by eapply Hm]. Qed.

(** [logs] along the steps of a run. *)
Ltac logs_chain :=
  match goal with
  | |- logs_with _ _ ?w ?w => reflexivity
  | H : logs_with ?P _ ?w ?x |- logs_with ?P _ ?w _ => first [exact H | transitivity x; [exact H|]; clear H; logs_chain]
  end.

(** The kind is one of those. *)
Ltac handled :=
  unfold handled_elsewhere, one_of; cbn [existsb];
  repeat match goal with H : ?b = true |- context [?b] => rewrite H end;
  repeat (rewrite ?orb_true_r; cbn [orb]); reflexivity.

Section reaches.
Context {NT : NostrTags} {HO : HashOrder} {UT : UuidText} {RC : RelayCrates} {TT : TraceText} {UC : UrlCrate}.
Context (t : Tenant) (e : Event) (sig : string) (auth : IngestAuth) (env : Env).

Lemma create_ended channel_id env' w a w' :
  create_group t e channel_id env' w = (Ok (inr a), w') → negative (Ok a).
Proof.
  unfold create_group. cbv zeta. intros H. apply try_ok in H as (? & ? & _ & H).
  apply try_ok in H as (vis & ? & _ & H). apply try_ok in H as (ty & ? & _ & H).
  destruct channel_id; [|done]. apply bind_inv in H as (ovr & ? & _ & H). apply try_ok in H as (created & ? & _ & H).
  destruct (negb created.2); [|done]. injection H as <- <-. by left.
Qed.

Lemma admitted_cases channel_id row visibility now w r w' :
  ingest_admitted t e sig auth now channel_id row visibility env w = (r, w') →
  (handled_elsewhere e = true ∨ negative r) ∧ logs quiet w w'
  ∨ ∃ w1 registration pre_created, logs quiet w w1
      ∧ is_relay_admin_kind (kind e) = false
      ∧ (is_unarchive e = true ∨ is_archived channel_id row = false)
      ∧ store_event t e sig auth channel_id row visibility registration pre_created env w1 = (r, w').
Proof.
  unfold ingest_admitted. intros H. destruct (is_relay_admin_kind (kind e)) eqn:Ea.
  { left. split; [left; by handled|]. eapply quiet_end; [|reflexivity|exact H]. quiets. }
  destruct (kind e =? KIND_NIP43_LEAVE_REQUEST)%N eqn:El; [left; split; [left; by handled|by eapply quiet_leave]|].
  pose proof (logs_refl quiet (λ _, True) w) as Hq.
  quiet_stage H Hq as u1 w1 H1. quiet_stage H Hq as u2 w2 H2. quiet_stage H Hq as registration w3 H3.
  quiet_stage H Hq as u4 w4 H4. quiet_stage H Hq as u5 w5 H5. quiet_stage H Hq as u6 w6 Hcontent.
  apply content_ok in Hcontent. quiet_stage H Hq as created w7 H7. destruct created as [pre|ended]; cycle 1.
  { left. injection H as <- <-. split; [right; destruct (kind e =? KIND_NIP29_CREATE_GROUP)%N; [by apply (create_ended _ _ _ _ _ H7)|done]|done]. }
  quiet_stage H Hq as u8 w8 H8. destruct (kind e =? KIND_PUSH_LEASE)%N eqn:Ep.
  { left. split; [left; by handled|]. transitivity w8; [done|]. by eapply quiet_lease. }
  right. eauto 10.
Qed.

Lemma inner_cases w r w' :
  ingest_event_inner t e sig auth env w = (r, w') →
  (handled_elsewhere e = true ∨ negative r) ∧ logs quiet w w'
  ∨ ∃ w1 channel_id row visibility registration pre_created, logs quiet w w1
      ∧ gates_passed t e sig auth env channel_id (log w1) (history w1)
      ∧ (∀ ch, channel_id = Some ch → skip_membership (kind e) = false → allowed_step t e auth ch ∈ trace w1)
      ∧ store_event t e sig auth channel_id row visibility registration pre_created env w1 = (r, w').
Proof.
  unfold ingest_event_inner. intros H. pose proof (logs_refl quiet (λ _, True) w) as Hq.
  quiet_stage H Hq as u1 w1 Hsub. apply submittable_ok in Hsub as (Hactive & Ka & Kn & Kr & Kw).
  quiet_stage H Hq as now w2 Hauth. apply authentic_ok in Hauth.
  quiet_stage H Hq as u3 w3 Hscope. apply scope_ok in Hscope as [Ks Kg].
  destruct (is_command_kind (kind e)) eqn:Ec.
  { left. split; [left; by handled|]. eapply quiet_end; [|exact Hq|exact H]. quiets. }
  destruct (kind e =? KIND_PRODUCT_FEEDBACK)%N eqn:Ef.
  { left. split; [left; by handled|]. eapply quiet_end; [|exact Hq|exact H]. quiets. }
  destruct (kind e =? KIND_REPORT)%N eqn:Er.
  { left. split; [left; by handled|]. eapply quiet_end; [|exact Hq|exact H]. unfold delegated. quiets. }
  destruct (is_moderation_command_kind (kind e)) eqn:Em.
  { left. split; [left; by handled|]. eapply quiet_end; [|exact Hq|exact H]. unfold delegated. quiets. }
  unfold ingest_gated in H.
  quiet_stage H Hq as u4 w4 Hres. pose proof (restriction_ok _ _ _ _ _ _ _ Hres Em) as Hfree. clear Hres.
  quiet_stage H Hq as channel_id w5 Hch. pose proof (resolve_ok _ _ _ _ _ _ Hch) as Hglobal.
  quiet_stage H Hq as u6 w6 Hclaim. apply claim_ok in Hclaim; [|done].
  quiet_stage H Hq as row w7 Hrow. pose proof (λ ch, fetch_ok _ _ _ _ _ _ ch Hrow) as Hfetch.
  quiet_stage H Hq as visibility w8 Hvis. quiet_stage H Hq as u9 w9 Hmember.
  apply admitted_cases in H as [[Hans Hl']|(w1' & registration & pre & Hl' & Hadmin & Hopen & H)]; [left; split; [done|by transitivity w9]|].
  right. exists w1', channel_id, row, visibility, registration, pre. split; [by transitivity w9|]. split; [|split; [|done]]; cycle 1.
  { intros ch -> Hsk. pose proof (membership_traced _ _ _ _ _ _ _ _ _ Hmember Hsk) as Hin.
    destruct Hl' as [_ _ (st & -> & _)]. apply elem_of_app. by left. }
  assert (logs quiet w1 w1' ∧ logs quiet w4 w1' ∧ logs quiet w7 w1') as (H1 & H4 & H7)
    by (split_and!; logs_chain).
  split; [done|by split|by eapply observed_logs; [exact H1|]| |done|..].
  - eapply observed_logs; [exact H4|]. by apply Hfree.
  - intros ch ->. destruct (Hfetch ch eq_refl) as [Hobs _].
    apply membership_ok in Hmember as [Hsk|Hw]; [by left|right|].
    + by apply (may_write_logs _ _ quiet w9).
    + intros r' Hr. eapply observed_logs; [exact Hl6|]. by apply Hobs.
  - intros ch ->. destruct Hopen as [Hun|Hopen]; [by left|right].
    destruct (Hfetch ch eq_refl) as [_ (n & b & a & r0 & Hin & ->)].
    destruct H7 as [(l & Hlog & _) _ _]. exists n, b, a, r0. rewrite Hlog. split; [set_solver|].
    intros row' ->. simpl in Hopen. destruct (ch_archived_at row') eqn:Ear; [|done].
    by rewrite bool_decide_true in Hopen.
Qed.

End reaches.
