(* ===== verification/IngestWrites.v ===== *)
(** * IngestWrites: what the storing stage writes and answers

The write statements of [EventStore] as the storing stage of [Ingest] uses
them: which row each leaves, and which answer of the stage goes with it. *)
From stdpp Require Import pretty.
From S2P Require Import Conformance Prelude Text Encode Nostr Kind Scope Roles Json IngestRules IngestEnvelopes EventStore EventStoreProps IngestRun IngestThread Ingest IngestRunProps IngestGates.

(** Whether the statement's answer says that the event's row is new. *)
Definition stmt_inserted {A : Type} (s : Stmt A) : A → bool :=
  match s with
  | SReaction _ _ _ _ _ _ _ _ => λ o, match o with ReactionInserted _ b => b | _ => false end
  | SRegister _ _ _ _ _ _ | SReplaceable _ _ _ _ | SParameterized _ _ _ _ _ | SInsert _ _ _ _ _ => snd
  | SHeadChecked _ _ _ _ _ _ => λ r, match r.2 with HeadInserted => true | _ => false end
  | _ => λ _, false
  end.

(** The event is a live row of community [c], in channel [ch]. *)
Definition live_row (c : Uuid) (e : Event) (ch : option Uuid) (T : Tables) : Prop :=
  ∃ row, events T !! (c, as_i64 (created_at e), id e) = Some row
    ∧ er_event row = e ∧ er_channel_id row = ch ∧ er_deleted_at row = None ∧ is_ok (event_ts e) = true.

(** Some row of the community has the event's key. *)
Definition keyed_row (c : Uuid) (e : Event) (T : Tables) : Prop :=
  is_Some (events T !! (c, as_i64 (created_at e), id e)).

Section writes.
Context {NT : NostrTags} {HO : HashOrder} {UT : UuidText} {RC : RelayCrates} {TT : TraceText} {UC : UrlCrate}.

Lemma live_row_inserted now c ts e sig ch d nb T T' :
  event_ts e = Ok ts →
  events T' = <[(c, ts, id e) := new_row now e sig ch d nb]> (events T) → live_row c e ch T'.
Proof.
  intros Hts Hev. assert (is_ok (event_ts e) = true) as Hok by by rewrite Hts. apply event_ts_Ok in Hts as ->.
  exists (new_row now e sig ch d nb). by rewrite Hev, lookup_insert_eq.
Qed.

Lemma live_row_events c e ch T T' : events T' = events T → live_row c e ch T → live_row c e ch T'.
Proof. intros Heq (row & H). exists row. by rewrite Heq. Qed.

Lemma insert_tx_row now c e sig ch meta T s b T' :
  insert_event_with_thread_metadata_tx parse_i64 now c e sig ch meta T = Ok (s, b, T') →
  if b then live_row c e ch T' else T' = T ∧ keyed_row c e T.
Proof.
  intros H. pose proof H as H'. apply insert_tx_cases in H as (ts & Hts & Ht & Hf). destruct b.
  - destruct (Ht eq_refl) as [_ Hev]. exact (live_row_inserted _ _ _ _ _ _ _ _ _ _ Hts Hev).
  - split; [by apply Hf|]. unfold insert_event_with_thread_metadata_tx in H'.
    destruct (kind e =? KIND_AUTH)%N; [done|]. destruct (is_ephemeral (kind e)); [done|].
    rewrite Hts in H'. cbn [result_bind] in H'. destruct (insert_event_row _ _ _ _) as [b' T1] eqn:Ei.
    apply insert_event_row_spec in Ei as [(-> & _ & Hrow)|(-> & _)]; [|by simplify_eq].
    by apply event_ts_Ok in Hts as ->.
Qed.

(** What a write statement leaves: the new row when its answer says so, the old
events when not; and an event that was already there is there. *)
Definition write_leaves (c : Uuid) (e : Event) (ch : option Uuid) (ins : bool) (T T' : Tables) : Prop :=
  if ins then live_row c e ch T' else events T' = events T.

Lemma leaves_same c e ch T : write_leaves c e ch false T T.
Proof. done. Qed.

Lemma mentions_after_events ok c e ch T : events (mentions_after ok c e ch T) = events T.
Proof.
  unfold mentions_after. destruct (insert_mentions_in_transaction _ _ _ _) eqn:Em; [|done].
  destruct ok; [|done]. by apply mentions_keep_events in Em as [-> _].
Qed.

Lemma plain_insert_leaves mok now c e sig ch meta T r T' :
  insert_event_with_thread_metadata parse_i64 mok now c e sig ch meta T = (r, T') →
  match r with
  | Ok a => write_leaves c e ch a.2 T T' ∧ (a.2 = false → keyed_row c e T)
  | Err _ => T' = T
  end.
Proof.
  unfold insert_event_with_thread_metadata. destruct (insert_event_guarded _ _ _ _ _ _ _ _) as [r1 T1] eqn:Eg.
  unfold insert_event_guarded in Eg. cbv zeta in Eg.
  destruct (match ch with Some _ => _ | None => _ end); [by intros; simplify_eq|].
  destruct (insert_event_with_thread_metadata_tx _ _ _ _ _ _ _ _) as [[[s b] T2]|err] eqn:Ei;
    simpl in Eg; simplify_eq; [|by intros; simplify_eq].
  apply insert_tx_row in Ei. destruct b.
  - intros H; simplify_eq. split; [|done]. eapply live_row_events; [apply mentions_after_events|done].
  - intros H; simplify_eq. by destruct Ei as [-> ?].
Qed.

Lemma replaceable_leaves now c e sig ch T r T' :
  replace_addressable_event now c e sig ch T = (r, T') →
  match r with Ok a => write_leaves c e ch a.2 T T' | Err _ => T' = T end.
Proof.
  unfold replace_addressable_event. destruct (event_ts e) as [ts|] eqn:Hts; [|by intros; simplify_eq].
  cbv zeta. case_match; [by intros; simplify_eq|].
  destruct (insert_event_row _ _ _ _) as [b T1] eqn:Ei.
  apply insert_event_row_spec in Ei as [(-> & _)|(-> & _ & ->)]; [by intros; simplify_eq|].
  destruct (insert_mentions_in_transaction _ _ _ _) as [T2|] eqn:Em; intros Heq; simplify_eq; [|done].
  apply mentions_keep_events in Em as [Hev _]. eapply live_row_events; [exact Hev|]. by eapply live_row_inserted.
Qed.

Lemma parameterized_leaves now c e sig d ch T r T' :
  replace_parameterized_event parse_i64 now c e sig d ch T = (r, T') →
  match r with Ok a => write_leaves c e ch a.2 T T' | Err _ => T' = T end.
Proof.
  unfold replace_parameterized_event.
  destruct (replace_parameterized_event_in_transaction _ _ _ _ _ _ _ _ _) as [[st T1]|] eqn:Et; [|by intros; simplify_eq].
  intros Heq; simplify_eq. destruct st; try done. simpl. unfold write_leaves. simpl.
  unfold replace_parameterized_event_in_transaction in Et. apply result_bind_Ok in Et as (ts & Hts & H). cbv beta iota zeta in H.
  case_match; [done|]. case_match; [done|].
  apply result_bind_Ok in H as (wr & Hw & H). destruct wr as [T2|]; simplify_eq.
  unfold write_parameterized in Hw. cbv zeta in Hw. destruct (insert_event_row _ _ _ _) as [b T2] eqn:Ei.
  apply insert_event_row_spec in Ei as [(-> & _)|(-> & _ & ->)]; [done|].
  apply result_bind_Ok in Hw as (T4 & Hm & [= <-]). apply mentions_keep_events in Hm as [Hev _].
  eapply live_row_events; [exact Hev|]. destruct (is_nip_rs e d); by eapply live_row_inserted.
Qed.

Lemma head_checked_leaves now c e sig ch pre res T r T' :
  insert_channel_head_checked_with_resource parse_i64 now c e sig ch pre res T = (r, T') →
  match r with
  | Ok a => write_leaves c e (Some ch) (match a.2 with HeadInserted => true | _ => false end) T T'
  | Err _ => T' = T
  end.
Proof.
  unfold insert_channel_head_checked_with_resource. cbv zeta. intros Hrun.
  match type of Hrun with commit ?a _ = _ => destruct a as [[[s st] T2]|err] eqn:Ha end; simpl in Hrun; simplify_eq;
    [|done].
  apply result_bind_Ok in Ha as (_ & _ & Ha). apply result_bind_Ok in Ha as (row & _ & Ha).
  case_match; [done|]. case_match; [by simplify_eq|].
  destruct (match pre with ExpectNoHead => _ | ExpectedHead _ => _ end) as [status|] eqn:Est.
  { simplify_eq. simpl. by repeat case_match; simplify_eq. }
  apply result_bind_Ok in Ha as ([[s' b] T3] & Hi & Ha). apply insert_tx_row in Hi.
  destruct b; [|by simplify_eq]. apply result_bind_Ok in Ha as (T4 & Hm & [= <- <- <-]).
  apply mentions_keep_events in Hm as [Hev _]. by eapply live_row_events.
Qed.

Lemma add_reaction_events now c target ts pk emoji ev T b T' :
  add_reaction_tx now c target ts pk emoji ev T = Ok (b, T') → events T' = events T.
Proof.
  unfold add_reaction_tx. cbv zeta. intros H.
  destruct (reactions T !! _); repeat (case_match; simplify_eq); done.
Qed.

Lemma reaction_event_leaves now c e sig ch meta target actor emoji T r T' :
  insert_reaction_event parse_i64 now c e sig ch meta target actor emoji T = (r, T') →
  match r with
  | Ok (ReactionInserted _ b) => write_leaves c e ch b T T' ∧ (b = false → keyed_row c e T)
  | Ok _ | Err _ => T' = T
  end.
Proof.
  unfold insert_reaction_event. cbv zeta. intros Hrun.
  destruct (first_of _) as [[target_ts ?]|]; [|by injection Hrun as <- <-].
  destruct (add_reaction_tx _ _ _ _ _ _ _ _) as [[b T1]|] eqn:Ea; [|by injection Hrun as <- <-].
  apply add_reaction_events in Ea. destruct b; [|by injection Hrun as <- <-]. cbn [result_bind negb] in Hrun.
  destruct (insert_event_with_thread_metadata_tx _ _ _ _ _ _ _ _) as [[[st b] T2]|] eqn:Ei;
    [|by injection Hrun as <- <-].
  apply insert_tx_row in Ei. injection Hrun as <- <-. destruct b; [done|]. destruct Ei as [-> Hk].
  split; [done|]. intros _. unfold keyed_row in *. by rewrite <-Ea.
Qed.

Lemma reaction_leaves mok now c e sig ch meta target actor emoji T r T' :
  insert_reaction_event_with_thread_metadata parse_i64 mok now c e sig ch meta target actor emoji T = (r, T') →
  match r with
  | Ok (ReactionInserted _ b) => write_leaves c e ch b T T' ∧ (b = false → keyed_row c e T)
  | Ok _ | Err _ => T' = T
  end.
Proof.
  unfold insert_reaction_event_with_thread_metadata. destruct (insert_reaction_event _ _ _ _ _ _ _ _ _ _) as [r1 T1] eqn:Er.
  apply reaction_event_leaves in Er. intros [= <- <-]. destruct r1 as [[| |st []]|]; try done.
  destruct Er as [Hl _]. split; [|done]. eapply live_row_events; [apply mentions_after_events|done].
Qed.

Lemma registration_leaves now c e sig ch resource expected T r T' :
  insert_channel_resource_registration_event parse_i64 now c e sig ch resource expected T = (r, T') →
  match r with Ok a => write_leaves c e (Some ch) a.2 T T' ∧ (a.2 = false → keyed_row c e T) | Err _ => T' = T end.
Proof.
  unfold insert_channel_resource_registration_event. cbv zeta. intros Hrun.
  match type of Hrun with commit ?a _ = _ => destruct a as [[[s b] T2]|err] eqn:Ha end; simpl in Hrun; simplify_eq;
    [|done].
  do 4 (case_match; [done|]). apply result_bind_Ok in Ha as (row & _ & Ha). do 3 (case_match; [done|]).
  apply result_bind_Ok in Ha as (T1 & Ht1 & Ha). apply result_bind_Ok in Ha as ([[s' b'] T3] & Hi & Ha).
  assert (events T1 = events T) as He1 by (repeat (case_match; simplify_eq); done).
  apply insert_tx_row in Hi. destruct b'.
  - apply result_bind_Ok in Ha as (T4 & Hm & [= <- <- <-]). apply mentions_keep_events in Hm as [Hev _].
    split; [|done]. by eapply live_row_events.
  - simplify_eq. destruct Hi as [-> Hk]. split; [done|]. intros _. unfold keyed_row in *. by rewrite <-He1.
Qed.

(** What a write statement leaves, of one name for all of them. *)
Lemma exec_leaves {A : Type} (s : Stmt A) mok now T r T' e ch :
  exec s mok now T = (r, T') → stmt_writes s = Some (e, ch) →
  match r with
  | Ok a => write_leaves (stmt_community s) e ch (stmt_inserted s a) T T'
  | Err _ => T' = T
  end.
Proof.
  intros [[Hex _]|[[g ->] ->]]%exec_cases Hw; [|done]. destruct s; simpl in Hw; simplify_eq; simpl in Hex |- *.
  - apply reaction_leaves in Hex. destruct r as [[| |st b]|]; [by subst..|by destruct Hex|done].
  - apply registration_leaves in Hex. destruct r; [by destruct Hex|done].
  - by apply replaceable_leaves in Hex.
  - by apply parameterized_leaves in Hex.
  - by apply head_checked_leaves in Hex.
  - apply plain_insert_leaves in Hex. destruct r; [by destruct Hex|done].
Qed.

(** ** The storing stage *)

(** An entry of a request of tenant [t] for event [e] in channel [ch]: its
transactions name the tenant's community, and write that event there. *)
Definition files (t : Tenant) (e : Event) (ch : option Uuid) (x : LogEntry) : Prop :=
  match x with
  | LStmt s _ _ _ _ =>
      stmt_community s = community t ∧ ∀ e' ch', stmt_writes s = Some (e', ch') → e' = e ∧ ch' = ch
  | LHandler _ _ => True
  end.

Ltac keeps_files :=
  repeat keeps_step; try done;
  try (intros ?????; split; [done|]; intros ?? Hw; simpl in Hw; try discriminate; simplify_eq;
       repeat match goal with H : ok_or ?o _ = Ok _ |- _ => destruct o; simpl in H end; by simplify_eq).

Lemma files_reaction_thread t e ch : keeps (files t e ch) (resolve_thread t e ch).
Proof.
  unfold resolve_thread, resolve_nip10_thread_meta, load_parent, derive_ancestry_from_parent_tags, root_time, time_or_now.
  keeps.
Qed.

Lemma files_persist t e sig ch registration spec business meta pre :
  keeps (files t e ch) (persist t e sig ch registration spec business meta pre).
Proof.
  unfold persist, append_event. cbv zeta.
  keeps_files.
Qed.

Lemma files_media t e ch : keeps (files t e ch) (check_media t e).
Proof. unfold check_media. cbv zeta. keeps. Qed.

Lemma files_finish t e auth ch vis se ins : keeps (files t e ch) (finish_write t e auth ch vis se ins).
Proof. unfold finish_write. keeps. Qed.

Lemma files_reaction t e sig auth ch vis meta : keeps (files t e ch) (ingest_reaction t e sig auth ch vis meta).
Proof. unfold ingest_reaction. cbv zeta. keeps_files; try apply files_finish. Qed.

Lemma files_revision t e ch business : keeps (files t e ch) (canvas_revision e business).
Proof. unfold canvas_revision, validate_business_context_canvas. keeps. Qed.

Lemma files_store t e sig auth ch row vis registration pre :
  keeps (files t e ch) (store_event t e sig auth ch row vis registration pre).
Proof.
  unfold store_event. cbv zeta.
  repeat first
    [ apply files_media | apply files_reaction_thread | apply files_reaction | apply files_revision
    | apply files_persist | apply files_finish | keeps_step ]; try done.
Qed.

(** ** What the answers say *)

(** An entry that leaves the events as they were, unless the driver failed. *)
Definition no_change (x : LogEntry) : Prop :=
  match x with
  | LStmt s _ before res after =>
      is_Some (stmt_writes s) → events after = events before ∨ ∃ text, res = Err (Sqlx text)
  | LHandler _ _ => True
  end.

(** The log has the write of [e] into [ch], which answered that it is there. *)
Definition stored_in (t : Tenant) (e : Event) (ch : option Uuid) (l : list LogEntry) : Prop :=
  ∃ A (s : Stmt A) now before a after, LStmt s now before (Ok a) after ∈ l
    ∧ stmt_community s = community t ∧ stmt_writes s = Some (e, ch)
    ∧ if stmt_inserted s a then live_row (community t) e ch after
      else events after = events before ∧ keyed_row (community t) e before.

Lemma quiet_no_change w w' : logs quiet w w' → logs no_change w w'.
Proof. apply logs_mono. intros [A s now b r a|b a]; simpl; [|done]. intros ->. by intros [? [=]]. Qed.

Lemma stored_in_logs t e ch P w w' : logs P w w' → stored_in t e ch (log w) → stored_in t e ch (log w').
Proof.
  intros [(l & -> & _) _ _] (A & s & now & b & a & af & Hin & H).
  exists A, s, now, b, a, af. split; [set_solver|done].
Qed.

Lemma logs_stmt {A : Type} (s : Stmt A) (P : LogEntry → Prop) env w r w' :
  stmt s env w = (r, w') →
  ∃ now before after, log w' = log w ++ [LStmt s now before r after]
    ∧ ((∃ text, r = Err (Sqlx text)) ∨ ∃ mok, exec s mok now before = (r, after))
    ∧ (P (LStmt s now before r after) → logs P w w').
Proof.
  unfold stmt. destruct (exec _ _ _ _) as [r' T] eqn:Ex. destruct (env_fault _ _) as [[text took]|];
    intros [= <- <-]; eexists _, _, _; (split; [reflexivity|split; [eauto|by apply logs_entry]]).
Qed.

Lemma write_run {A : Type} (s : Stmt A) t e ch env w r w' :
  stmt s env w = (r, w') → stmt_community s = community t → stmt_writes s = Some (e, ch) →
  match r with
  | Err _ => logs no_change w w'
  | Ok a => if stmt_inserted s a then stored_in t e ch (log w') else logs no_change w w'
  end.
Proof.
  intros H Hc Hw. apply (logs_stmt s no_change) in H as (now & b & a & Hlog & [[text ->]|[mok Hex]] & Hlogs).
  { apply Hlogs. simpl. eauto. }
  apply (exec_leaves _ _ _ _ _ _ _ _ Hex) in Hw as Hl. destruct r as [x|err].
  - destruct (stmt_inserted s x) eqn:Ei.
    + exists A, s, now, b, x, a. rewrite Hlog, Ei. rewrite Hc in Hl. split; [set_solver|done].
    + apply Hlogs. intros _. by left.
  - apply Hlogs. intros _. left. by rewrite Hl.
Qed.

Lemma map_err_m_inv {A E F : Type} (f : E → F) (m : M (result A E)) env w r w' :
  map_err_m f m env w = (r, w') → ∃ r0, m env w = (r0, w') ∧ r = map_err f r0.
Proof. intros (r0 & w1 & Hm & H)%bind_inv. apply ret_inv in H as [-> ->]. eauto. Qed.

Ltac ended H := injection H as <- <-; apply logs_refl.

(** What a write stage says with [Ok (_, true)] and with anything else. *)
Definition write_answer (t : Tenant) (e : Event) (ch : option Uuid) (r : result (StoredEvent * bool) IngestError)
    (w w' : IngestWorld) : Prop :=
  match r with
  | Ok (_, true) => is_workflow_deletion e = true ∨ stored_in t e ch (log w')
  | _ => logs no_change w w'
  end.

(** A write statement whose flag is its answer's second component. *)
Lemma write_stage (f : DbError → IngestError) (s : Stmt (StoredEvent * bool)) t e ch env w r w' :
  map_err_m f (stmt s) env w = (r, w') → stmt_community s = community t → stmt_writes s = Some (e, ch) →
  (∀ a, stmt_inserted s a = a.2) → write_answer t e ch r w w'.
Proof.
  intros (r0 & H & ->)%map_err_m_inv Hc Hw Hi. apply (write_run _ _ _ _ _ _ _ _ H Hc) in Hw.
  destruct r0 as [[se ins]|err]; simpl; [|done]. rewrite Hi in Hw. destruct ins; [by right|done].
Qed.

Lemma append_answer t e sig ch meta pre env w r w' :
  append_event t e sig ch meta pre env w = (r, w') → write_answer t e ch r w w'.
Proof.
  unfold append_event. intros (r0 & w1 & H & Hr)%bind_inv.
  apply (write_run _ t e ch) in H; [|done..]. destruct r0 as [[se []]|err].
  - injection Hr as <- <-. by right.
  - by injection Hr as <- <-.
  - apply bind_inv in Hr as (u & w2 & Hd & Hr). injection Hr as <- <-. simpl. transitivity w1; [done|].
    apply quiet_no_change. apply (quiet_end _ env w1 w1 u w2) in Hd; [done| |done]. keeps.
Qed.

Lemma persist_answer t e sig ch registration spec business meta pre env w r w' :
  persist t e sig ch registration spec business meta pre env w = (r, w') → write_answer t e ch r w w'.
Proof.
  unfold persist. cbv zeta. intros H. destruct registration as [reg|].
  { destruct ch as [ch|]; [|ended H]. by eapply write_stage in H. }
  destruct (is_workflow_deletion e) eqn:Ew.
  { apply map_err_m_inv in H as (r0 & H & ->). destruct r0 as [[se []]|]; simpl; [by left|..].
    all: apply quiet_no_change; revert H; apply keeps_handler; done. }
  destruct (is_replaceable (kind e)); [by eapply write_stage in H|].
  destruct (is_parameterized_replaceable (kind e)).
  { destruct (_ <? _); [ended H|]. by eapply write_stage in H. }
  destruct spec as [spec|]; [|by apply append_answer in H].
  destruct ch as [ch|]; [|ended H].
  apply try_inv in H as [(? & H & _)|(ch' & w0 & H0 & H)]; [by apply lift_inv in H as [? _]|].
  apply lift_inv in H0 as [[= <-] ->].
  apply try_inv in H as [(err & H & ->)|([se st] & w1 & H & Hr)].
  - apply map_err_m_inv in H as ([?|?] & H & Heq); [done|].
    by apply (write_run _ t e (Some ch)) in H.
  - apply map_err_m_ok in H. apply (write_run _ t e (Some ch)) in H; [|done..].
    apply lift_inv in Hr as [<- ->]. destruct st; try done. by right.
Qed.

(** The stage ends in a refusal that changed no event, or in an acceptance
whose event is there. *)
Definition stage_answer (t : Tenant) (e : Event) (ch : option Uuid) (r : result IngestResult IngestError)
    (w w' : IngestWorld) : Prop :=
  (negative r ∧ logs no_change w w')
  ∨ (r = Ok (mkIngestResult (id e) true "") ∧ (is_workflow_deletion e = true ∨ stored_in t e ch (log w'))).

Lemma finish_answer t e auth ch vis se ins env w r w' :
  finish_write t e auth ch vis se ins env w = (r, w') →
  r = Ok (mkIngestResult (id e) true "") ∧ logs quiet w w'.
Proof.
  intros H. split.
  - apply bind_inv in H as (? & ? & _ & H). apply bind_inv in H as (? & ? & _ & H). by injection H.
  - assert (keeps quiet (finish_write t e auth ch vis se ins)) as K by (unfold finish_write; keeps). by eapply K.
Qed.

Lemma reaction_answer t e sig auth ch vis meta env w r w' :
  ingest_reaction t e sig auth ch vis meta env w = (r, w') → stage_answer t e ch r w w'.
Proof.
  unfold ingest_reaction. intros H.
  apply try_inv in H as [(err & H & ->)|(target & w1 & H1 & H)].
  { left. split; [done|]. apply lift_inv in H as [_ ->]. apply logs_refl. }
  apply lift_inv in H1 as [_ ->]. apply bind_inv in H as (relay & w1 & H1 & H). injection H1 as <- <-. cbv zeta in H.
  apply try_inv in H as [(err & H & ->)|([] & w1 & H1 & H)].
  { left. split; [done|]. apply lift_inv in H as [_ ->]. apply logs_refl. }
  apply lift_inv in H1 as [_ ->].
  apply try_inv in H as [(err & H & ->)|(o & w1 & H1 & H)].
  { left. split; [done|]. apply map_err_m_inv in H as ([?|?] & H & Heq); [done|].
    by apply (write_run _ t e ch) in H. }
  apply map_err_m_ok in H1. pose proof (write_run _ t e ch _ _ _ _ H1 eq_refl eq_refl) as Hw. simpl in Hw.
  destruct o as [| |se ins].
  - left. by injection H as <- <-.
  - left. injection H as <- <-. split; [by left|done].
  - apply finish_answer in H as [-> Hq]. right. split; [done|right]. eapply stored_in_logs; [exact Hq|].
    destruct ins; [done|]. apply stmt_ok in H1 as (now & b & a & mok & Hlog & Hex). simpl in Hex.
    apply reaction_leaves in Hex as [Hev Hk].
    eexists _, _, now, b, _, a. rewrite Hlog. split; [apply elem_of_app; right; by apply list_elem_of_singleton|].
    split; [done|]. split; [done|]. simpl. split; [done|by apply Hk].
Qed.

Lemma quiet_media t e : keeps quiet (check_media t e).
Proof. unfold check_media. cbv zeta. keeps. Qed.
Lemma quiet_thread t e ch : keeps quiet (resolve_thread t e ch).
Proof.
  unfold resolve_thread, resolve_nip10_thread_meta, load_parent, derive_ancestry_from_parent_tags, root_time, time_or_now.
  keeps.
Qed.
Lemma quiet_revision e business : keeps quiet (canvas_revision e business).
Proof. unfold canvas_revision, validate_business_context_canvas. keeps. Qed.
#[local] Hint Resolve quiet_media quiet_thread quiet_revision : quiet.

Lemma stage_answer_start t e ch r w w1 w' :
  logs no_change w w1 → stage_answer t e ch r w1 w' → stage_answer t e ch r w w'.
Proof. intros Hl [[Hn H]|H]; [left|by right]. split; [done|]. by transitivity w1. Qed.

Lemma store_answer t e sig auth ch row vis registration pre env w r w' :
  store_event t e sig auth ch row vis registration pre env w = (r, w') → stage_answer t e ch r w w'.
Proof.
  unfold store_event. intros H. pose proof (logs_refl quiet (λ _, True) w) as Hq.
  assert ((∃ err, r = Err err) ∧ logs quiet w w' ∨ stage_answer t e ch r w w') as Hor; cycle 1.
  { destruct Hor as [[(err & ->) Hl]|?]; [|done]. left. split; [done|by apply quiet_no_change]. }
  quiet_stage H Hq as u1 w1 H1. quiet_stage H Hq as meta w2 H2. quiet_stage H Hq as u3 w3 H3.
  quiet_stage H Hq as u4 w4 H4. right. clear H1 H2 H3 H4.
  apply quiet_no_change in Hq. apply (stage_answer_start _ _ _ _ _ _ _ Hq). clear Hl Hl0 Hl1 Hl2 Hq.
  destruct (kind e =? KIND_REACTION)%N; [by apply reaction_answer in H|].
  pose proof (logs_refl quiet (λ _, True) w4) as Hq. cbv zeta in H.
  apply try_inv in H as [(err & H & ->)|(spec & w5 & Hs & H)].
  { left. split; [done|]. apply quiet_no_change. by eapply quiet_revision. }
  apply quiet_revision in Hs. apply quiet_no_change in Hs. apply (stage_answer_start _ _ _ _ _ _ _ Hs).
  apply try_inv in H as [(err & H & ->)|([se ins] & w6 & Hp & H)].
  { left. split; [done|]. by apply persist_answer in H. }
  apply persist_answer in Hp. destruct ins; simpl in H, Hp.
  - apply bind_inv in H as (? & w7 & H7 & H). apply bind_inv in H as (? & w8 & H8 & H).
    apply finish_answer in H as [-> H9]. right. split; [done|].
    destruct Hp as [?|Hp]; [by left|right]. eapply (stored_in_logs _ _ _ quiet w6); [|done].
    apply (quiet_end _ env w6 w6) in H7; [|quiets|done].
    apply (quiet_end _ env w7 w7) in H8; [|quiets|done].
    by repeat (etransitivity; [eassumption|]).
  - apply bind_inv in H as (? & w7 & H7 & H). left. injection H as <- <-.
    split; [by right|]. transitivity w6; [done|]. apply quiet_no_change.
    apply (quiet_end _ env w6 w6) in H7; [done|quiets|done].
Qed.

(** ** The theorems *)

(** The whole request: its pipeline, then steps of the trace. *)
Lemma event_inner t e sig auth env w r w' :
  ingest_event t e sig auth env w = (r, w') →
  ∃ w1, ingest_event_inner t e sig auth env w = (r, w1) ∧ log w' = log w1 ∧ history w' = history w1.
Proof.
  unfold ingest_event. cbv zeta. intros (r1 & w1 & Hi & H)%bind_inv. exists w1.
  apply bind_inv in H as (? & w2 & H2 & H). apply bind_inv in H as (? & w3 & H3 & H). injection H as <- <-.
  split; [done|].
  assert (log w2 = log w1 ∧ history w2 = history w1) as [<- <-].
  { destruct r1; [by injection H2 as _ <-|]. by injection H2 as _ <-. }
  unfold guard_drop in H3. case_match; by injection H3 as _ <-.
Qed.

End writes.
