(* ===== verification/IngestProps.v ===== *)
(** * IngestProps: what the ingest pipeline guarantees

The theorems on a whole request of [Ingest]: what every event it stores has
shown, what its answers say of the database, that it stays in its tenant, and
what its trace is. *)
From stdpp Require Import pretty.
From S2P Require Import Conformance Prelude Text Encode Nostr Kind Scope Roles Json IngestRules IngestEnvelopes EventStore EventStoreProps IngestRun IngestThread Ingest IngestRunProps IngestGates IngestWrites.

(** * One community's transactions leave the others alone

Every table is keyed by the community first.  [outside c] says that two states
of the tables agree on every row of every other community; each statement of
[IngestRun] keeps it for the community it names. *)

(** ** Maps that agree outside a community *)

Section same_outside.
Context {K V : Type} `{Countable K} (com : K → Uuid) (c : Uuid).

Definition same_outside (m m' : gmap K V) : Prop := ∀ k, com k ≠ c → m' !! k = m !! k.

#[export] Instance same_outside_preorder : PreOrder same_outside.
Proof. split; [by intros m k|]. intros m1 m2 m3 H12 H23 k Hk. rewrite (H23 k Hk). by apply H12. Qed.

Lemma same_outside_insert k v m m' : com k = c → same_outside m m' → same_outside m (<[k := v]> m').
Proof. intros Hk Hm k' Hk'. rewrite lookup_insert_ne by congruence. by apply Hm. Qed.

Lemma same_outside_delete k m : com k = c → same_outside m (delete k m).
Proof. intros Hk k' Hk'. by rewrite lookup_delete_ne by congruence. Qed.

Lemma same_outside_imap (f : K → V → option V) m :
  (∀ k v, com k ≠ c → f k v = Some v) → same_outside m (map_imap f m).
Proof.
  intros Hf k Hk. rewrite map_lookup_imap. destruct (m !! k); [|done]. by apply Hf.
Qed.

End same_outside.

Record outside (c : Uuid) (t t' : Tables) : Prop := {
  o_events : same_outside (λ k : EventKey, k.1.1) c (events t) (events t');
  o_threads : same_outside (λ k : EventKey, k.1.1) c (thread_metadata t) (thread_metadata t');
  o_reactions : same_outside (λ k : Uuid * Z * string * string * string, k.1.1.1.1) c (reactions t) (reactions t');
  o_watermarks : same_outside (λ k : Uuid * N * string * string, k.1.1.1) c (watermarks t) (watermarks t');
  o_mentions : same_outside (λ k : Uuid * string * string, k.1.1) c (mentions t) (mentions t');
  o_channels : same_outside (λ k : Uuid * Uuid, k.1) c (channels t) (channels t');
  o_members : same_outside (λ k : Uuid * Uuid * string, k.1.1) c (channel_members t) (channel_members t');
  o_relay_members : same_outside (λ k : Uuid * string, k.1) c (relay_members t) (relay_members t');
  o_bans : bans t' = bans t;
  o_owners : agent_owners t' = agent_owners t;
  o_active : active_communities t' = active_communities t;
  o_fences : deletion_fences t' = deletion_fences t
}.

#[export] Instance outside_preorder c : PreOrder (outside c).
Proof.
  split; [by split|]. intros t1 t2 t3 [] []. split; try (etransitivity; eassumption); congruence.
Qed.

Create HintDb outside.
#[export] Hint Resolve same_outside_insert same_outside_delete : outside.

Lemma outside_events c t m : same_outside (λ k : EventKey, k.1.1) c (events t) m → outside c t (with_events m t).
Proof. by split. Qed.
Lemma outside_threads c t m : same_outside (λ k : EventKey, k.1.1) c (thread_metadata t) m → outside c t (with_threads m t).
Proof. by split. Qed.
Lemma outside_channels c t m : same_outside (λ k : Uuid * Uuid, k.1) c (channels t) m → outside c t (with_channels m t).
Proof. by split. Qed.
Lemma outside_members c t m :
  same_outside (λ k : Uuid * Uuid * string, k.1.1) c (channel_members t) m → outside c t (with_members m t).
Proof. by split. Qed.
Lemma outside_reactions c t m :
  same_outside (λ k : Uuid * Z * string * string * string, k.1.1.1.1) c (reactions t) m → outside c t (with_reactions m t).
Proof. by split. Qed.
Lemma outside_mentions c t m :
  same_outside (λ k : Uuid * string * string, k.1.1) c (mentions t) m → outside c t (with_mentions m t).
Proof. by split. Qed.
Lemma outside_watermarks c t m :
  same_outside (λ k : Uuid * N * string * string, k.1.1.1) c (watermarks t) m → outside c t (with_watermarks m t).
Proof. by split. Qed.
Lemma outside_relay_members c t m :
  same_outside (λ k : Uuid * string, k.1) c (relay_members t) m → outside c t (with_relay_members m t).
Proof. by split. Qed.

(** ** The operations *)

Section operations.
Context {NT : NostrTags} {HO : HashOrder} {UT : UuidText} {RC : RelayCrates}.

Lemma mentions_outside c e ch t t' : insert_mentions_in_transaction c e ch t = Ok t' → outside c t t'.
Proof.
  unfold insert_mentions_in_transaction. case_match; [by intros [= <-]|].
  intros (ts & _ & [= <-])%result_bind_Ok. apply outside_mentions. clear.
  generalize (mentions t) as m. induction (map _ _) as [|pk l IH]; intros m; simpl; [done|].
  etransitivity; [|apply IH]. case_match; [done|]. by apply same_outside_insert.
Qed.

Lemma mentions_after_outside ok c e ch t : outside c t (mentions_after ok c e ch t).
Proof.
  unfold mentions_after. destruct (insert_mentions_in_transaction _ _ _ _) eqn:Em; [|done].
  destruct ok; [|done]. by eapply mentions_outside.
Qed.

Lemma event_row_outside c ts r t b t' : insert_event_row c ts r t = (b, t') → outside c t t'.
Proof.
  intros [(_ & -> & _)|(_ & _ & ->)]%insert_event_row_spec; [done|].
  apply outside_events. by apply same_outside_insert.
Qed.

Lemma thread_row_outside c k r m : k.1.1 = c → same_outside (λ k : EventKey, k.1.1) c m (insert_thread_row k r m).2.
Proof. intros Hk. unfold insert_thread_row. case_match; [done|]. by apply same_outside_insert. Qed.

Lemma update_threads_outside c id f m : same_outside (λ k : EventKey, k.1.1) c m (update_threads c id f m).
Proof.
  apply same_outside_imap. intros [[c' ts] id'] r Hk. by rewrite bool_decide_false.
Qed.

Lemma thread_meta_outside now c meta m : same_outside (λ k : EventKey, k.1.1) c m (insert_thread_meta now c meta m).
Proof.
  unfold insert_thread_meta. cbv zeta.
  set (row := mkThreadRow _ _ _ _ _ _ _ _). set (k := (c, _, _)).
  pose proof (thread_row_outside c k row m eq_refl) as Hrow.
  destruct (insert_thread_row k row m) as [ins m1]. simpl in Hrow. destruct ins; [|done].
  destruct (tp_parent meta) as [[pid pts]|]; [|done].
  assert (∀ m2, same_outside (λ k : EventKey, k.1.1) c m m2 → same_outside (λ k : EventKey, k.1.1) c m
    (match tp_root meta with
     | Some (root_id, _) => update_threads c root_id bump_descendant (update_threads c pid (bump_reply now) m2)
     | None => update_threads c pid (bump_reply now) m2 end)) as Hend.
  { intros m2 H2. destruct (tp_root meta) as [[? ?]|].
    - etransitivity; [|apply update_threads_outside]. etransitivity; [exact H2|apply update_threads_outside].
    - etransitivity; [exact H2|apply update_threads_outside]. }
  apply Hend. destruct (tp_root meta) as [[rid rts]|]; [case_bool_decide|].
  - etransitivity; [|by apply thread_row_outside]. etransitivity; [exact Hrow|by apply thread_row_outside].
  - etransitivity; [exact Hrow|by apply thread_row_outside].
  - etransitivity; [exact Hrow|by apply thread_row_outside].
Qed.

Lemma insert_tx_outside now c e sig ch meta t s b t' :
  insert_event_with_thread_metadata_tx parse_i64 now c e sig ch meta t = Ok (s, b, t') → outside c t t'.
Proof.
  unfold insert_event_with_thread_metadata_tx.
  destruct (kind e =? KIND_AUTH)%N; [done|]. destruct (is_ephemeral (kind e)); [done|].
  intros (ts & _ & H)%result_bind_Ok. destruct (insert_event_row _ _ _ _) as [b' t1] eqn:Ei.
  apply event_row_outside in Ei. injection H as _ _ <-. destruct b', meta; try done.
  etransitivity; [exact Ei|]. apply outside_threads, thread_meta_outside.
Qed.

Lemma soft_delete_outside now c p t : outside c t (soft_delete now c p t).
Proof.
  unfold soft_delete. cbv zeta. etransitivity; [apply outside_events|apply outside_mentions]; apply same_outside_imap.
  - intros k r Hk. unfold hit. by rewrite bool_decide_false.
  - intros [[c' pk] id'] r Hk. by rewrite bool_decide_false.
Qed.

Lemma hard_delete_outside c p t : outside c t (hard_delete c p t).
Proof. apply outside_events, same_outside_imap. intros k r Hk. unfold hit. by rewrite bool_decide_false. Qed.

Lemma delete_mentions_outside c id t : outside c t (delete_mentions c id t).
Proof.
  apply outside_mentions, same_outside_imap. intros [[c' pk] id'] r Hk. by rewrite bool_decide_false.
Qed.

(** A transaction that fails leaves everything. *)
Lemma commit_outside {A : Type} c (a : result (A * Tables) DbError) t r t' :
  commit a t = (r, t') → (∀ x t1, a = Ok (x, t1) → outside c t t1) → outside c t t'.
Proof. intros Hc Ha. destruct a as [[x t1]|err]; simpl in Hc; simplify_eq; [by eapply Ha|done]. Qed.

Lemma plain_outside mok now c e sig ch meta t r t' :
  insert_event_with_thread_metadata parse_i64 mok now c e sig ch meta t = (r, t') → outside c t t'.
Proof.
  unfold insert_event_with_thread_metadata. destruct (insert_event_guarded _ _ _ _ _ _ _ _) as [r1 t1] eqn:Eg.
  assert (outside c t t1) as H1.
  { unfold insert_event_guarded in Eg. cbv zeta in Eg.
    destruct (match ch with Some _ => _ | None => _ end); [by simplify_eq|].
    apply (commit_outside c) in Eg; [done|]. intros [s b] t2 Hi. by eapply insert_tx_outside. }
  destruct r1 as [[s []]|]; intros [= _ <-]; [|done..]. etransitivity; [exact H1|apply mentions_after_outside].
Qed.

Lemma replaceable_outside now c e sig ch t r t' :
  replace_addressable_event now c e sig ch t = (r, t') → outside c t t'.
Proof.
  unfold replace_addressable_event. destruct (event_ts e) as [ts|]; [|by intros; simplify_eq].
  cbv zeta. case_match; [by intros; simplify_eq|].
  destruct (insert_event_row _ _ _ _) as [b t1] eqn:Ei. apply event_row_outside in Ei.
  destruct b; [|by intros; simplify_eq].
  destruct (insert_mentions_in_transaction _ _ _ _) as [t2|] eqn:Em; intros Heq; simplify_eq; [|done].
  etransitivity; [apply soft_delete_outside|]. etransitivity; [exact Ei|by eapply mentions_outside].
Qed.

Lemma write_parameterized_outside now ts c e sig d ch existing t t' :
  write_parameterized parse_i64 now ts c e sig d ch existing t = Ok (Some t') → outside c t t'.
Proof.
  unfold write_parameterized. cbv zeta. destruct (insert_event_row _ _ _ _) as [b t2] eqn:Ei.
  apply event_row_outside in Ei. destruct b; [|done]. intros (t4 & Hm & [= <-])%result_bind_Ok.
  apply mentions_outside in Hm. etransitivity; [|exact Hm]. etransitivity; [|etransitivity; [exact Ei|]].
  - destruct existing as [[? ?]|]; [|done]. destruct (_ || _); [|apply soft_delete_outside].
    etransitivity; [apply hard_delete_outside|apply delete_mentions_outside].
  - destruct (is_nip_rs e d); [|done]. apply outside_watermarks. by apply same_outside_insert.
Qed.

Lemma parameterized_outside now c e sig d ch t r t' :
  replace_parameterized_event parse_i64 now c e sig d ch t = (r, t') → outside c t t'.
Proof.
  intros [[-> _]|(st & _ & Hi)]%replace_parameterized_cases; [done|].
  unfold replace_parameterized_event_in_transaction in Hi. apply result_bind_Ok in Hi as (ts & _ & Hi).
  cbv beta iota zeta in Hi. case_match; [done|]. case_match; [done|].
  apply result_bind_Ok in Hi as ([t1|] & Hw & [= <-]). by eapply write_parameterized_outside.
Qed.

Lemma head_checked_outside now c e sig ch pre res t r t' :
  insert_channel_head_checked_with_resource parse_i64 now c e sig ch pre res t = (r, t') → outside c t t'.
Proof.
  unfold insert_channel_head_checked_with_resource. cbv zeta. intros H. apply (commit_outside c) in H; [done|].
  intros [s st] t1 Ha. apply result_bind_Ok in Ha as (_ & _ & Ha). apply result_bind_Ok in Ha as (row & _ & Ha).
  case_match; [done|]. case_match; [by simplify_eq|].
  destruct (match pre with ExpectNoHead => _ | ExpectedHead _ => _ end); [by simplify_eq|].
  apply result_bind_Ok in Ha as ([[s' b] t3] & Hi & Ha). apply insert_tx_outside in Hi.
  destruct b; [|by simplify_eq]. apply result_bind_Ok in Ha as (t4 & Hm & [= _ _ <-]).
  etransitivity; [exact Hi|by eapply mentions_outside].
Qed.

Lemma add_reaction_outside now c target ts pk emoji ev t b t' :
  add_reaction_tx now c target ts pk emoji ev t = Ok (b, t') → outside c t t'.
Proof.
  unfold add_reaction_tx. cbv zeta. intros H.
  destruct (reactions t !! _); repeat (case_match; simplify_eq); try done;
    apply outside_reactions; by apply same_outside_insert.
Qed.

Lemma reaction_event_outside now c e sig ch meta target actor emoji t r t' :
  insert_reaction_event parse_i64 now c e sig ch meta target actor emoji t = (r, t') → outside c t t'.
Proof.
  unfold insert_reaction_event. cbv zeta. intros H. apply (commit_outside c) in H; [done|].
  intros o t1 Ha. destruct (first_of _) as [[target_ts ?]|]; [|by simplify_eq].
  apply result_bind_Ok in Ha as ([b t2] & Hr & Ha). apply add_reaction_outside in Hr.
  destruct b; [|by injection Ha as _ <-]. apply result_bind_Ok in Ha as ([[st b] t3] & Hi & [= _ <-]).
  etransitivity; [exact Hr|by eapply insert_tx_outside].
Qed.

Lemma reaction_outside mok now c e sig ch meta target actor emoji t r t' :
  insert_reaction_event_with_thread_metadata parse_i64 mok now c e sig ch meta target actor emoji t = (r, t') →
  outside c t t'.
Proof.
  unfold insert_reaction_event_with_thread_metadata. destruct (insert_reaction_event _ _ _ _ _ _ _ _ _ _) as [r1 t1] eqn:Er.
  apply reaction_event_outside in Er. intros [= _ <-].
  destruct r1 as [[| |st []]|]; try done. etransitivity; [exact Er|apply mentions_after_outside].
Qed.

Lemma registration_outside now c e sig ch resource expected t r t' :
  insert_channel_resource_registration_event parse_i64 now c e sig ch resource expected t = (r, t') → outside c t t'.
Proof.
  unfold insert_channel_resource_registration_event. cbv zeta. intros H. apply (commit_outside c) in H; [done|].
  intros [s b] t1 Ha. do 4 (case_match; [done|]). apply result_bind_Ok in Ha as (row & _ & Ha).
  do 3 (case_match; [done|]). apply result_bind_Ok in Ha as (t2 & Ht & Ha).
  apply result_bind_Ok in Ha as ([[s' b'] t3] & Hi & Ha). apply insert_tx_outside in Hi.
  assert (outside c t t2) as Ht2.
  { repeat (case_match; simplify_eq); try done; apply outside_channels; by apply same_outside_insert. }
  destruct b'; [|simplify_eq; by etransitivity]. apply result_bind_Ok in Ha as (t4 & Hm & [= _ _ <-]).
  etransitivity; [exact Ht2|]. etransitivity; [exact Hi|by eapply mentions_outside].
Qed.

Lemma create_outside c ch name ty vis desc by_ ttl t r t' :
  create_channel_with_id c ch name ty vis desc by_ ttl t = (r, t') → outside c t t'.
Proof.
  unfold create_channel_with_id. intros H. apply (commit_outside c) in H; [done|]. intros [row b] t1 Ha.
  do 3 (case_match; [done|]). destruct (channels t !! (c, ch)); simplify_eq; [done|].
  etransitivity; [apply outside_channels|apply outside_members]; by apply same_outside_insert.
Qed.

Lemma exec_outside {A : Type} (s : Stmt A) mok now t r t' :
  exec s mok now t = (r, t') → outside (stmt_community s) t t'.
Proof.
  intros [[H _]|[_ ->]]%exec_cases; [|done]. destruct s; simpl in H |- *; try by (injection H as _ <-).
  - unfold remove_relay_member in H. repeat (case_match; simplify_eq/=); try done.
    apply outside_relay_members. by apply same_outside_delete.
  - by eapply create_outside.
  - unfold soft_delete_channel in H. repeat (case_match; simplify_eq/=); try done.
    apply outside_channels. by apply same_outside_insert.
  - by eapply reaction_outside.
  - by eapply registration_outside.
  - by eapply replaceable_outside.
  - by eapply parameterized_outside.
  - by eapply head_checked_outside.
  - by eapply plain_outside.
Qed.

End operations.

(** * The theorems *)

Section tenancy.
Context {NT : NostrTags} {HO : HashOrder} {UT : UuidText} {RC : RelayCrates} {TT : TraceText} {UC : UrlCrate}.

(** A transaction of tenant [t]: it names the tenant's community, and every row
of every other community is as it was. *)
Definition tenant_entry (t : Tenant) (x : LogEntry) : Prop :=
  match x with
  | LStmt s _ before _ after => stmt_community s = community t ∧ outside (community t) before after
  | LHandler _ _ => True
  end.

(** A step of a request of tenant [t]. *)
Definition tenant_step (t : Tenant) (auth : IngestAuth) (s : TraceStep) : Prop :=
  schema_version s = SCHEMA_VERSION ∧ state_after s = state_for_request t (auth_pubkey auth).

(** Where a transaction changed the events, the community was not fenced for
deletion and the event's date was one a row can hold. *)
Definition storable_entry (x : LogEntry) : Prop :=
  match x with
  | LStmt s _ before _ after => ∀ e ch, stmt_writes s = Some (e, ch) → events after ≠ events before →
      deletion_fences before !! stmt_community s = None ∧ is_ok (event_ts e) = true
  | LHandler _ _ => True
  end.

Lemma exec_storable {A : Type} (s : Stmt A) mok now t r t' e ch :
  exec s mok now t = (r, t') → stmt_writes s = Some (e, ch) → events t' ≠ events t →
  deletion_fences t !! stmt_community s = None ∧ is_ok (event_ts e) = true.
Proof.
  intros Hex Hw Hne. pose proof (exec_leaves _ _ _ _ _ _ _ _ Hex Hw) as Hl.
  apply exec_cases in Hex as [[_ Hf]|[_ ->]]; [|done]. destruct r as [a|]; [|by subst].
  destruct (stmt_inserted s a) eqn:Ei; [|done]. destruct Hl as (row & _ & _ & _ & _ & Hts). split; [|done]. apply Hf.
  clear - Ei. destruct s; simpl in Ei |- *; try done; try (by destruct a); by destruct a as [? []].
Qed.

Definition request_entry (t : Tenant) (x : LogEntry) : Prop := tenant_entry t x ∧ storable_entry x.

Lemma may_tenant {A : Type} t (s : Stmt A) : stmt_community s = community t → may (request_entry t) s.
Proof.
  intros Hc now b r a [->|(mok & r' & Hex)]; (split; [split; [done|]|]); [done..| |].
  - rewrite <-Hc. by eapply exec_outside.
  - intros e ch Hw Hne. by eapply exec_storable.
Qed.

Lemma tenant_inner t e sig auth : keeps_with (request_entry t) (tenant_step t auth) (ingest_event_inner t e sig auth).
Proof.
  unfold ingest_event_inner, check_submittable, check_authentic, check_scope, ingest_gated, check_restriction,
    resolve_channel, derive_reaction_channel, deletion_channel, check_channel_claim, fetch_channel, thread_visibility,
    check_membership, check_channel_membership, ingest_admitted, leave_request, validate_huddle_lifecycle_event,
    validate_content, validate_edit_ownership, validate_forum_vote_target, validate_turn_metric, load_target,
    create_group, push_lease, store_event, check_media, resolve_thread, resolve_nip10_thread_meta, load_parent,
    derive_ancestry_from_parent_tags, root_time, time_or_now, ingest_reaction, canvas_revision,
    validate_business_context_canvas, persist, append_event, finish_write, delegated. cbv zeta.
  repeat keeps_step; by apply may_tenant.
Qed.

Lemma tenant_event t e sig auth : keeps_with (request_entry t) (tenant_step t auth) (ingest_event t e sig auth).
Proof.
  intros env w r w'. unfold ingest_event. cbv zeta. intros H. revert H.
  assert (∀ n, keeps_with (request_entry t) (tenant_step t auth)
    (r ← ingest_event_inner t e sig auth;
     _ ← match r with Err err => emit t auth (SanitizedError (sanitized_reason_for err)) | Ok _ => mret tt end;
     _ ← guard_drop t auth n; mret r)) as K.
  { intros n. repeat first [apply tenant_inner|keeps_step]. }
  apply K.
Qed.

End tenancy.

(** A request begins with the states the database has been in, and nothing done. *)
Definition start (h : list Tables) : IngestWorld := mkIngestWorld h 0 [] [].

Section theorems.
Context {NT : NostrTags} {HO : HashOrder} {UT : UuidText} {RC : RelayCrates} {TT : TraceText} {UC : UrlCrate}.
Context (t : Tenant) (e : Event) (sig : string) (auth : IngestAuth) (env : Env) (h : list Tables).

(** C2. No event is stored without every gate.  Whatever event a request's own
transaction writes is the submitted one, in the submitting tenant's community;
and by then the request has shown: its id and signature verify, its author is
the authenticated key (gift wraps apart), its clock is within fifteen minutes
and its content within 256 KiB; its kind may be submitted this way and the
token has the scope it needs; a transaction saw the community active, and one
saw the author not banned and not timed out; the token and the kind allow the
channel it is filed under; the author was a member of that channel, by a
transaction or by the cache, or a transaction saw it open, unless the kind's
own validator decides; and the answer to the channel's lookup showed no
archived channel, unless the event un-archives it.  The clock's check wraps for a
date 2^63 seconds away; but where the transaction changed an event, the date was
within the fifteen minutes and the community not fenced for its deletion. *)
Theorem stored_events_are_authorised l1 A (s : Stmt A) now before res after l2 e' ch :
  log (ingest_event t e sig auth env (start h)).2 = l1 ++ LStmt s now before res after :: l2 →
  stmt_writes s = Some (e', ch) →
  e' = e ∧ stmt_community s = community t
  ∧ ∃ past, past `prefix_of` history (ingest_event t e sig auth env (start h)).2
    ∧ gates_passed t e sig auth env ch l1 past
    ∧ (events after ≠ events before → deletion_fences before !! community t = None
         ∧ ∃ n, (Z.abs (as_i64 (created_at e) - env_clock env n) <= MAX_TIMESTAMP_DRIFT_SECS)%Z).
Proof.
  destruct (ingest_event t e sig auth env (start h)) as [r w'] eqn:E. simpl. intros Hlog Hw.
  assert (storable_entry (LStmt s now before res after)) as Hstore.
  { pose proof E as [(l & Hl & Fl) _ _]%tenant_event. rewrite Hlog in Hl. simpl in Hl. subst l.
    apply Forall_app in Fl as [_ [[_ Hx] _]%Forall_cons]. exact Hx. }
  apply event_inner in E as (w1 & Hi & Heq & ->). rewrite Heq in Hlog. clear Heq.
  apply inner_cases in Hi as [[_ [(l & Hl & Hq) _ _]]|(w2 & ch' & row & vis & reg & pre & Hq & Hg & _ & Hs)].
  { simpl in Hl. rewrite Hl in Hlog. rewrite Hlog in Hq. apply Forall_app in Hq as [_ [Hq _]%Forall_cons].
    simpl in Hq. congruence. }
  destruct Hq as [(lq & Hlq & Fq) _ _]. simpl in Hlq.
  assert (logs (files t e ch') w2 w1) as [(ls & Hls & Fs) (hs & Hhs) _] by by eapply files_store.
  assert (∃ k, l1 = lq ++ k ∧ ls = k ++ LStmt s now before res after :: l2) as (k & -> & ->).
  { rewrite Hls, Hlq in Hlog. symmetry in Hlog.
    apply app_eq_inv in Hlog as [?|([|x k] & -> & Hk')]; [done|exists []; split; [by rewrite !app_nil_r|done]|exfalso].
    injection Hk' as <- _. apply Forall_app in Fq as [_ [Hx _]%Forall_cons]. simpl in Hx. congruence. }
  apply Forall_app in Fs as [_ [[Hc Hf] _]%Forall_cons]. destruct (Hf _ _ Hw) as [-> ->].
  split; [done|]. split; [done|]. exists (history w2). split; [by exists hs|].
  assert (gates_passed t e sig auth env ch' (lq ++ k) (history w2)) as Hg' by (rewrite <-Hlq; by apply gates_passed_app).
  split; [done|]. intros Hne. rewrite <-Hc. destruct (Hstore _ _ Hw Hne) as [Hfence Hts]. split; [done|].
  destruct (au_fresh _ _ _ _ (gp_authentic _ _ _ _ _ _ _ _ Hg') Hts) as (n & Hn & _). by exists n.
Qed.

(** C6. The relay's answer is true, for the events the pipeline stores itself:
the kinds another component answers for and deletions of workflows are left to
that component.  An error, a refusal and a duplicate mean that each of the
request's own writes left the events as they were or was answered by an error of
the database driver, after which the request does not know.  An acceptance means
that a write of the event into the resolved channel of the tenant's community
answered: either that it inserted it, and it left it there as a live row; or that
a row with its key was already there, live or soft-deleted, and it changed no
event (a reaction sent again after its reaction row was removed). *)
Theorem answers_are_truthful :
  let '(r, w') := ingest_event t e sig auth env (start h) in
  (negative r ∧ Forall no_change (log w'))
  ∨ (r = Ok (mkIngestResult (id e) true "") ∧ ∃ ch, stored_in t e ch (log w'))
  ∨ handled_elsewhere e = true ∨ is_workflow_deletion e = true.
Proof.
  destruct (ingest_event t e sig auth env (start h)) as [r w'] eqn:E. cbn beta iota.
  apply event_inner in E as (w1 & Hi & -> & _).
  apply inner_cases in Hi as [[[?|Hn] Hq]|(w2 & ch & row & vis & reg & pre & Hq & _ & _ & Hs)].
  - by right; right; left.
  - left. split; [done|]. apply quiet_no_change in Hq as [(l & -> & Fl) _ _]. done.
  - apply quiet_no_change in Hq. apply store_answer in Hs as [[Hn Hl]|[-> [?|?]]].
    + left. split; [done|]. pose proof (logs_trans _ _ _ _ _ Hq Hl) as [(l & -> & Fl) _ _]. done.
    + by right; right; right.
    + right; left. split; [done|by exists ch].
Qed.

(** C11. A request stays in its tenant.  Every transaction of the pipeline's own
names the tenant's community, and leaves every row of every other community, in
every table, as it was; and every step of its trace carries the tenant, the host
and the authenticated key of the request.  What the pipeline hands to another
component (the command, moderation, admin, feedback and archive handlers, the
side effects and the dispatch) is that component's to keep in the tenant, and is
not covered. *)
Theorem requests_stay_in_their_tenant :
  Forall (tenant_entry t) (log (ingest_event t e sig auth env (start h)).2)
  ∧ Forall (tenant_step t auth) (trace (ingest_event t e sig auth env (start h)).2).
Proof.
  destruct (ingest_event t e sig auth env (start h)) as [r w'] eqn:E.
  cbn [snd]. apply tenant_event in E as [(l & -> & Fl) _ (s & -> & Fs)]. split; [|done].
  eapply Forall_impl; [exact Fl|]. by intros x [].
Qed.

(** What the wrapper adds to the pipeline's trace. *)
Lemma event_trace r w w' :
  ingest_event t e sig auth env w = (r, w') →
  ∃ w1, ingest_event_inner t e sig auth env w = (r, w1)
    ∧ (∃ st, trace w' = trace w1 ++ st) ∧ length (trace w) < length (trace w')
    ∧ ∀ err, r = Err err → trace w' = trace w1 ++
        [step_new (SanitizedError (sanitized_reason_for err)) (state_for_request t (auth_pubkey auth))].
Proof.
  unfold ingest_event. cbv zeta. intros (r1 & w1 & Hi & H)%bind_inv. exists w1.
  apply bind_inv in H as ([] & w2 & H2 & H). apply bind_inv in H as ([] & w3 & H3 & H). injection H as <- <-.
  split; [done|]. apply tenant_inner in Hi as [_ _ (s1 & Hs1 & _)].
  assert (length (trace w) <= length (trace w1)) as Hle by (rewrite Hs1, length_app; lia).
  unfold guard_drop in H3. destruct r1 as [res|err]; injection H2 as <-.
  - destruct (Nat.eqb_spec (length (trace w1)) (length (trace w))) as [Heq|Hne]; injection H3 as <-; simpl.
    + split; [by eexists|]. rewrite length_app. simpl. split; [lia|done].
    + split; [exists []; by rewrite app_nil_r|]. split; [lia|done].
  - simpl in H3. rewrite length_app in H3. simpl in H3.
    destruct (Nat.eqb_spec (length (trace w1) + 1) (length (trace w))) as [Heq|Hne]; [lia|]. injection H3 as <-. simpl.
    split; [by eexists|]. rewrite length_app. simpl. split; [lia|]. by intros ? [= <-].
Qed.

(** The steps of a request conform but for their labels. *)
Definition label_conforms (s : TraceStep) : Prop :=
  Forall (λ c, c = mkCommunity (community t)) (row_labels (action s)) ∧ is_impl_bug (action s) = false.

(** Every request is traced, and what its trace may fail on.  A request
leaves at least one step, whatever its exit; one that ends in an error leaves
the sanitized error as its last.  The checker accepts the trace exactly when
no allowed check claimed another community and no exit was silent: schema, tenant, host and actor never
fail. *)
Theorem every_request_is_traced :
  let '(r, w') := ingest_event t e sig auth env (start h) in
  trace w' ≠ []
  ∧ (∀ err, r = Err err → last (trace w') =
       Some (step_new (SanitizedError (sanitized_reason_for err)) (state_for_request t (auth_pubkey auth))))
  ∧ (check_trace (unstructured (trace w')) = Ok tt ↔ Forall label_conforms (trace w')).
Proof.
  destruct (ingest_event t e sig auth env (start h)) as [r w'] eqn:E. cbn beta iota.
  pose proof E as Ht. apply tenant_event in Ht as [_ _ (s & Hs & Fs)]. simpl in Hs. subst s.
  apply event_trace in E as (w1 & _ & _ & Hlen & Herr). split; [|split].
  - intros Hnil. rewrite Hnil in Hlen. simpl in Hlen. lia.
  - intros err Hr. rewrite (Herr err Hr). by rewrite last_snoc.
  - rewrite check_trace_iff. unfold conforms. simpl.
    destruct (trace w') as [|first steps]; [by simpl in Hlen; lia|].
    pose proof Fs as Fs'. apply Forall_cons in Fs' as [[_ Hfirst] _]. split.
    + intros (f & l & [= <- <-] & Hall & _). eapply Forall_impl; [exact Hall|].
      intros x (_ & _ & Hl & Hb). split; [|done]. by rewrite Hfirst in Hl.
    + intros Hall. exists first, steps. split; [done|]. split; [|set_solver].
      apply Forall_forall. intros x Hx. rewrite Forall_forall in Fs, Hall.
      destruct (Fs x Hx) as [Hv Hst], (Hall x Hx) as [Hl Hb]. unfold step_conforms, state_agrees.
      by rewrite Hst, Hfirst.
Qed.

Lemma requires_h_kept : requires_h_channel_scope (kind e) = true → handled_elsewhere e = false.
Proof.
  unfold requires_h_channel_scope, handled_elsewhere. intros Hk%one_of_elem_of. revert Hk. generalize (kind e).
  apply Forall_forall. repeat (constructor; [vm_compute; reflexivity|]). constructor.
Qed.

(** C17. The relay's traces of channel posts fail its own checker.  Take an
event of a kind that must name its channel in an [h] tag and goes through the
membership gate, and whose [h] tag is a UUID other than the community's.
If it is accepted, the checker rejects the trace: the gate records the channel's
UUID as the community that the client claimed. *)
Theorem accepted_channel_post_fails_trace_check c :
  requires_h_channel_scope (kind e) = true → skip_membership (kind e) = false →
  claimed_community_from_event e = Some c → c ≠ mkCommunity (community t) →
  (ingest_event t e sig auth env (start h)).1 = Ok (mkIngestResult (id e) true "") →
  check_trace (unstructured (trace (ingest_event t e sig auth env (start h)).2)) ≠ Ok tt.
Proof.
  intros Hreq Hsk Hc Hne. destruct (ingest_event t e sig auth env (start h)) as [r w'] eqn:E. cbn [fst snd]. intros ->.
  apply event_trace in E as (w1 & Hi & (st & Hst) & _ & _).
  apply inner_cases in Hi as [[[Hh|Hn] _]|(w2 & ch & row & vis & reg & pre & _ & Hg & Hstep & Hs)].
  - by rewrite requires_h_kept in Hh.
  - by destruct Hn.
  - destruct (ca_required _ _ _ (gp_channel _ _ _ _ _ _ _ _ Hg) Hreq) as [ch' ->].
    specialize (Hstep ch' eq_refl Hsk).
    assert (allowed_step t e auth ch' ∈ trace w') as Hin.
    { assert (logs (files t e (Some ch')) w2 w1) as [_ _ (s1 & Hs1 & _)] by by eapply files_store.
      rewrite Hst, Hs1. set_solver. }
    rewrite check_trace_iff. intros (f & l & _ & Hall & _). simpl in Hall.
    rewrite Forall_forall in Hall. destruct (Hall _ Hin) as (_ & (Hcom & _) & Hlabel & _).
    unfold allowed_step in Hlabel. rewrite Hc in Hlabel. simpl in Hlabel, Hcom.
    rewrite Forall_singleton, <-Hcom in Hlabel. done.
Qed.

End theorems.

(** ** The tables over the kinds *)

(** The kinds [required_scope_for_kind] knows. *)
Definition scoped_kinds : list N :=
  [KIND_PROFILE; KIND_TEXT_NOTE; KIND_LONG_FORM; KIND_CONTACT_LIST; KIND_READ_STATE; KIND_USER_STATUS; KIND_AGENT_ENGRAM;
   KIND_EVENT_REMINDER; KIND_PERSONA; KIND_TEAM; KIND_MANAGED_AGENT; KIND_PRIVATE_MANAGED_AGENT; KIND_TEAM_CATALOG;
   KIND_PUSH_LEASE; KIND_AGENT_TURN_METRIC; KIND_REPORT; KIND_PRODUCT_FEEDBACK; KIND_MODERATION_BAN; KIND_MODERATION_UNBAN;
   KIND_MODERATION_TIMEOUT; KIND_MODERATION_UNTIMEOUT; KIND_MODERATION_RESOLVE_REPORT; KIND_MUTE_LIST; KIND_PIN_LIST;
   KIND_NIP65_RELAY_LIST_METADATA; KIND_BOOKMARK_LIST; KIND_FOLLOW_SET; KIND_BOOKMARK_SET; KIND_EMOJI_SET; KIND_EMOJI_LIST;
   KIND_AGENT_PROFILE; KIND_DELETION; KIND_REACTION; KIND_GIFT_WRAP; KIND_STREAM_MESSAGE; KIND_STREAM_MESSAGE_V2;
   KIND_NIP29_DELETE_EVENT; KIND_STREAM_MESSAGE_EDIT; KIND_STREAM_MESSAGE_PINNED; KIND_STREAM_MESSAGE_BOOKMARKED;
   KIND_STREAM_MESSAGE_SCHEDULED; KIND_STREAM_REMINDER; KIND_STREAM_MESSAGE_DIFF; KIND_FORUM_POST; KIND_FORUM_VOTE;
   KIND_FORUM_COMMENT; KIND_NIP29_PUT_USER; KIND_NIP29_REMOVE_USER; KIND_NIP29_DELETE_GROUP; RELAY_ADMIN_ADD_MEMBER;
   RELAY_ADMIN_REMOVE_MEMBER; RELAY_ADMIN_CHANGE_ROLE; RELAY_ADMIN_SET_WORKSPACE_PROFILE; KIND_IA_ARCHIVE_REQUEST;
   KIND_IA_UNARCHIVE_REQUEST; KIND_NIP29_EDIT_METADATA; KIND_NIP29_CREATE_GROUP; KIND_CANVAS; KIND_NIP29_JOIN_REQUEST;
   KIND_NIP29_LEAVE_REQUEST; KIND_NIP43_LEAVE_REQUEST; KIND_HUDDLE_STARTED; KIND_HUDDLE_PARTICIPANT_JOINED;
   KIND_HUDDLE_PARTICIPANT_LEFT; KIND_HUDDLE_ENDED; KIND_HUDDLE_GUIDELINES; KIND_GIT_REPO_ANNOUNCEMENT; KIND_GIT_REPO_STATE;
   KIND_PROJECT; KIND_GIT_PATCH; KIND_GIT_PULL_REQUEST; KIND_GIT_PR_UPDATE; KIND_GIT_ISSUE; KIND_GIT_STATUS_OPEN;
   KIND_GIT_STATUS_MERGED; KIND_GIT_STATUS_CLOSED; KIND_GIT_STATUS_DRAFT; KIND_DM_OPEN; KIND_DM_ADD_MEMBER; KIND_DM_HIDE;
   KIND_WORKFLOW_DEF; KIND_WORKFLOW_TRIGGER; KIND_APPROVAL_GRANT; KIND_APPROVAL_DENY].

Lemma one_of_subset k ks : one_of k ks = true → Forall (λ x, x ∈ scoped_kinds) ks → k ∈ scoped_kinds.
Proof. intros Hk%one_of_elem_of Hall. rewrite Forall_forall in Hall. by apply Hall. Qed.

Lemma required_scope_known {NT : NostrTags} k e s : required_scope_for_kind k e = Ok s → k ∈ scoped_kinds.
Proof.
  unfold required_scope_for_kind, is_moderation_command_kind. intros H.
  repeat match goal with
  | H : (if one_of ?k ?ks then _ else _) = Ok _ |- _ =>
      destruct (one_of k ks) eqn:Hk;
      [apply (one_of_subset k ks Hk); apply (bool_decide_unpack _); vm_compute; exact I|clear Hk]
  end.
  done.
Qed.

(** One kind's place in the tables. *)
Definition kind_consistent (k : N) : bool :=
  negb (is_relay_only_kind k) && negb (k =? KIND_AUTH)%N
  && (negb (is_ephemeral k) || is_command_kind k || is_moderation_command_kind k || is_relay_admin_kind k
      || one_of k [KIND_PRODUCT_FEEDBACK; KIND_REPORT; KIND_NIP43_LEAVE_REQUEST; KIND_PUSH_LEASE])
  && negb (requires_h_channel_scope k && is_global_only_kind k)
  && negb (is_replaceable k && is_parameterized_replaceable k).

(** The tables over the kinds fit together.  A kind that some scope admits is
not the relay's own and not AUTH; when it is ephemeral, so that the store would
refuse it, the pipeline hands it to another component and does not store it; it
is not both global and required to name a channel; and it is not replaceable in
two ways.  So the store's refusals of kinds are never a client's answer. *)
Theorem admitted_kinds_are_consistent {NT : NostrTags} (e : Event) (s : Scope) :
  required_scope_for_kind (kind e) e = Ok s → kind_consistent (kind e) = true.
Proof.
  intros Hk%required_scope_known.
  assert (forallb kind_consistent scoped_kinds = true) as Hall by (vm_compute; reflexivity).
  rewrite forallb_forall in Hall. by apply Hall, list_elem_of_In.
Qed.

Lemma admitted_kinds_are_consistent_witness : kind_consistent KIND_STREAM_MESSAGE = true.
Proof.
  exact (admitted_kinds_are_consistent (NT := nip01_tags) (mkEvent "" "" KIND_STREAM_MESSAGE 0 [] "") MessagesWrite eq_refl).
Defined.
