(* ===== verification/IngestThreadProps.v ===== *)
(** * IngestThreadProps: replies and the threads they join

What an accepted reply's thread parameters are, and where the resolver and the
rows that [insert_thread_meta] leaves disagree. *)
From stdpp Require Import pretty.
From S2P Require Import Conformance Prelude Text Encode Nostr Kind Scope Roles Json IngestRules IngestEnvelopes EventStore EventStoreProps IngestRun IngestThread Ingest IngestRunProps IngestGates IngestProps.

(** The log has the statement with this answer. *)
Definition answered {A : Type} (l : list LogEntry) (s : Stmt A) (a : A) : Prop :=
  ∃ now before after, LStmt s now before (Ok a) after ∈ l.

Section thread.
Context {NT : NostrTags} {HO : HashOrder} {UT : UuidText} {RC : RelayCrates} {TT : TraceText} {UC : UrlCrate}.

Lemma answered_logs {A : Type} P Q w w' (s : Stmt A) a :
  logs_with P Q w w' → answered (log w) s a → answered (log w') s a.
Proof. intros [(l & -> & _) _ _] (n & b & af & Hin). exists n, b, af. set_solver. Qed.

Lemma stmt_answered {A : Type} (s : Stmt A) env w a w' : stmt s env w = (Ok a, w') → answered (log w') s a.
Proof. intros (n & b & af & ->)%stmt_entry. exists n, b, af. set_solver. Qed.

Lemma stmt_grows {A : Type} (s : Stmt A) env w r w' : stmt s env w = (r, w') → logs (λ _, True) w w'.
Proof. intros H. by apply (keeps_stmt (λ _, True) (λ _, True) s ltac:(done)) in H. Qed.

(** Both statements of a [join!] are in the log, in either order. *)
Lemma join_answered {A B : Type} (s1 : Stmt A) (s2 : Stmt B) env w r1 r2 w' :
  join (stmt s1) (stmt s2) env w = ((r1, r2), w') →
  (∀ a, r1 = Ok a → answered (log w') s1 a) ∧ (∀ b, r2 = Ok b → answered (log w') s2 b).
Proof.
  unfold join. destruct (env_join_second env (calls w)).
  - destruct (stmt s2 env w) as [b w1] eqn:E2. destruct (stmt s1 env w1) as [a w2] eqn:E1. intros [= <- <- <-].
    split; intros x ->; [by eapply stmt_answered|].
    apply (answered_logs _ _ w1 w2 _ _ (stmt_grows _ _ _ _ _ E1)). by eapply stmt_answered.
  - destruct (stmt s1 env w) as [a w1] eqn:E1. destruct (stmt s2 env w1) as [b w2] eqn:E2. intros [= <- <- <-].
    split; intros x ->; [|by eapply stmt_answered].
    apply (answered_logs _ _ w1 w2 _ _ (stmt_grows _ _ _ _ _ E2)). by eapply stmt_answered.
Qed.

(** The parent a reply may have: live, in the same channel. *)
Lemma load_parent_ok c pid ch env w parent r w' :
  load_parent c pid ch env w = (Ok (parent, r), w') →
  answered (log w') (SGetEvent c pid) (Some parent) ∧ se_channel_id parent = Some ch
  ∧ ∀ row, r = Ok row → answered (log w') (SGetThread c pid) row.
Proof.
  unfold load_parent. intros ([r1 r2] & w1 & Hj & H)%bind_inv. apply join_answered in Hj as [Ha Hb].
  injection H as H <-. destruct r1 as [[p|]|]; simpl in H; try done.
  destruct (se_channel_id p) as [pch|] eqn:Ech; [|done]. case_bool_decide as Hch; [done|]. injection H as -> <-.
  subst pch. split; [by apply Ha|]. split; [done|]. intros row ->. by apply Hb.
Qed.

(** What the tags of a parent without a row say of its root. *)
Definition claimed_root (pid : string) (parent : Event) : string :=
  default pid ((fst <$> resolve (parse_thread_markers (tags parent))) ≫= decode_32).

Lemma derive_ok c parent pid pts env w a w' :
  derive_ancestry_from_parent_tags c parent pid pts env w = (a, w') →
  a.1.1 = claimed_root pid parent ∧ a.2 = (if bool_decide (claimed_root pid parent = pid) then 1%Z else 2%Z).
Proof.
  unfold derive_ancestry_from_parent_tags. cbv zeta. fold (claimed_root pid parent).
  case_bool_decide.
  - intros [-> _]%ret_inv. done.
  - intros (ts & w1 & _ & [-> _]%ret_inv)%bind_inv. done.
Qed.

Lemma keeps_thread c e ch : keeps (λ _, True) (resolve_nip10_thread_meta c e ch).
Proof.
  unfold resolve_nip10_thread_meta, load_parent, derive_ancestry_from_parent_tags, root_time, time_or_now. keeps.
Qed.

(** The ancestry of a reply, of its parent's row or of its parent's tags. *)
Definition ancestry_follows (pid rid : string) (parent : StoredEvent) (row : option ThreadRow) (depth : Z) : Prop :=
  match row with
  | Some m => rid = default pid (fst <$> tr_root m) ∧ depth = (tr_depth m + 1)%Z ∧ (depth <= 100)%Z
  | None => rid = claimed_root pid (se_event parent) ∧ depth = (if bool_decide (rid = pid) then 1%Z else 2%Z)
  end.

(** C15. A reply joins the thread of its parent.  Thread parameters are made
only for an event whose markers name a root and a parent such that the request
read the parent as a live event of the community in the same channel; they
name that parent and that root; and the root and the depth follow from the
parent's row (its root, or itself; one deeper, at most a hundred), or when it
has no row from the parent's own markers. *)
Theorem replies_join_their_thread c e ch env h p w' :
  resolve_nip10_thread_meta c e ch env (start h) = (Ok (Some p), w') →
  ∃ root_hex parent_hex rid pid parent row,
    resolve (parse_thread_markers (tags e)) = Some (root_hex, parent_hex)
    ∧ hex_decode root_hex = Some rid ∧ hex_decode parent_hex = Some pid
    ∧ answered (log w') (SGetEvent c pid) (Some parent) ∧ se_channel_id parent = Some ch
    ∧ answered (log w') (SGetThread c pid) row
    ∧ tp_event_id p = id e ∧ tp_channel_id p = ch
    ∧ fst <$> tp_parent p = Some pid ∧ fst <$> tp_root p = Some rid
    ∧ ancestry_follows pid rid parent row (tp_depth p).
Proof.
  unfold resolve_nip10_thread_meta. destruct (resolve _) as [[root_hex parent_hex]|] eqn:Er; [|by intros [? _]%ret_inv].
  intros H. apply try_ok in H as (pid & w1 & Hp & H). apply lift_inv in Hp as [Hp ->].
  apply try_ok in H as ([parent r] & w2 & Hl & H). apply load_parent_ok in Hl as (Hev & Hch & Hrow).
  apply bind_inv in H as (pts & w3 & Hpts & H).
  assert (logs (λ _, True) w2 w3) as L23.
  { assert (keeps (λ _, True) (time_or_now (se_event parent))) as K by (unfold time_or_now; keeps). by eapply K. }
  apply try_ok in H as (rid & w4 & Hr & H). apply lift_inv in Hr as [Hr ->].
  apply try_ok in H as (row & w4 & Hm & H). apply lift_inv in Hm as [Hm ->].
  destruct r as [row'|]; simpl in Hm; [|done]. injection Hm as ->. specialize (Hrow row eq_refl).
  apply try_ok in H as ([[rid' rts] depth] & w4 & Ha & H).
  apply bind_inv in H as (ets & w5 & Ht & H). apply ret_inv in H as [[= ->] ->].
  assert (logs (λ _, True) w2 w5) as L25.
  { transitivity w3; [exact L23|]. transitivity w4.
    - match type of Ha with ?m env w3 = _ =>
        assert (keeps (λ _, True) m) as K
          by (unfold derive_ancestry_from_parent_tags, root_time, time_or_now; keeps) end.
      by apply (K _ _ _ _ Ha).
    - assert (keeps (λ _, True) (time_or_now e)) as K by (unfold time_or_now; keeps). by apply (K _ _ _ _ Ht). }
  destruct (hex_decode root_hex) as [rid0|] eqn:Erid; [|done]. injection Hr as ->.
  destruct (hex_decode parent_hex) as [pid0|] eqn:Epid; [|done]. injection Hp as ->.
  exists root_hex, parent_hex, rid, pid, parent, row. split; [done|]. split; [done|]. split; [done|].
  split; [by eapply answered_logs|]. split; [done|]. split; [by eapply answered_logs|].
  split; [done|]. split; [done|]. split; [done|].
  assert (rid' = rid ∧ ancestry_follows pid rid parent row depth) as [-> Hf]; [|by split].
  destruct row as [m|].
  - case_bool_decide as Hne; [by apply ret_inv in Ha as [? _]|]. subst rid.
    apply bind_inv in Ha as (rts' & w6 & _ & Ha). case_match eqn:Ed; [by apply ret_inv in Ha as [? _]|].
    apply ret_inv in Ha as [[= -> _ ->] _]. split; [done|]. unfold ancestry_follows. apply Z.ltb_ge in Ed. done.
  - apply bind_inv in Ha as ([[rid1 rts1] d1] & w6 & Hd & Ha). apply derive_ok in Hd as [Hd1 Hd2]. simpl in Hd1, Hd2, Ha.
    case_bool_decide as Hne; [by apply ret_inv in Ha as [? _]|].
    subst rid. apply ret_inv in Ha as [[= -> _ ->] _]. subst. done.
Qed.

(** ** Replies below a parent that has no row *)

(** Nothing else happens, and nothing fails. *)
Definition calm (env : Env) : Prop := (∀ n T, env_others env n T = []) ∧ ∀ n, env_fault env n = None.

Lemma last_snoc_db (h : list Tables) (T : Tables) : last (h ++ [T]) = Some T.
Proof. apply last_snoc. Qed.

(** In a calm environment a read answers from the current tables. *)
Lemma calm_read {A : Type} (s : Stmt A) env w r w' :
  calm env → is_read s = true → history w ≠ [] → stmt s env w = (r, w') →
  (∃ mok now, (exec_statement s mok now (db w)).1 = r) ∧ db w' = db w ∧ history w' ≠ [].
Proof.
  intros [Ho Hf] Hr Hh. unfold stmt. rewrite (Ho _ (db w)), Hf. unfold commits, tick_call. simpl.
  assert (db {| history := history w ++ []; calls := S (calls w); trace := trace w; log := log w |} = db w) as Hdb
    by (unfold db; simpl; by rewrite app_nil_r).
  rewrite Hdb. destruct (exec s _ _ (db w)) as [r1 T1] eqn:Ex. rewrite exec_read in Ex by done. intros [= <- <-].
  assert (T1 = db w) as -> by (destruct s; simpl in Hr; try done; simpl in Ex; by injection Ex).
  split; [|split].
  - eexists _, _. by rewrite Ex.
  - unfold db at 1. simpl. rewrite app_nil_r, last_snoc. done.
  - simpl. by destruct (history w).
Qed.

(** The row of a parent that the reply's insertion made up. *)
Definition unrooted (c : Uuid) (pid : string) (m : gmap EventKey ThreadRow) : Prop :=
  ∀ ts r, m !! (c, ts, pid) = Some r → tr_root r = None ∧ tr_depth r = 0%Z.

Lemma update_threads_lookup c id f m (k : EventKey) :
  update_threads c id f m !! k =
  (λ r, if bool_decide (k.1.1 = c) && bool_decide (k.2 = id) then f r else r) <$> m !! k.
Proof.
  unfold update_threads. rewrite map_lookup_imap. destruct k as [[c' ts] id']. by destruct (m !! _).
Qed.

Lemma unrooted_update c pid id f m :
  (∀ r, tr_root (f r) = tr_root r ∧ tr_depth (f r) = tr_depth r) →
  unrooted c pid m → unrooted c pid (update_threads c id f m).
Proof.
  intros Hf Hm ts r. rewrite update_threads_lookup. destruct (m !! _) as [r0|] eqn:E; [|done]. intros [= <-].
  destruct (Hm ts r0 E). case_match; [|done]. by destruct (Hf r0) as [-> ->].
Qed.

Lemma unrooted_insert c pid (k : EventKey) r m :
  (k.1.1 = c → k.2 = pid → tr_root r = None ∧ tr_depth r = 0%Z) →
  unrooted c pid m → unrooted c pid (insert_thread_row k r m).2.
Proof.
  intros Hr Hm. unfold insert_thread_row. destruct (m !! k) eqn:E; [exact Hm|]. intros ts r'. simpl.
  rewrite lookup_insert_Some. intros [[-> <-]|[_ Hl]]; [by apply Hr|by eapply Hm].
Qed.

Lemma insert_row_new (k : EventKey) r m : m !! k = None → insert_thread_row k r m = (true, <[k := r]> m).
Proof. unfold insert_thread_row. by intros ->. Qed.

Lemma insert_row_keeps (k : EventKey) r m (k' : EventKey) : is_Some (m !! k') → is_Some ((insert_thread_row k r m).2 !! k').
Proof.
  unfold insert_thread_row. destruct (m !! k); [done|]. simpl. intros H. apply lookup_insert_is_Some'. by right.
Qed.

Lemma insert_row_there (k : EventKey) r m : is_Some ((insert_thread_row k r m).2 !! k).
Proof. unfold insert_thread_row. destruct (m !! k) eqn:E; [simpl; rewrite E; eauto|]. simpl. rewrite lookup_insert_eq. eauto. Qed.

Lemma update_keeps c id f m (k : EventKey) : is_Some (m !! k) → is_Some (update_threads c id f m !! k).
Proof. rewrite update_threads_lookup. intros [r ->]. by eexists. Qed.

(** A first reply below a parent without a row: every row of the parent is
afterwards without root, at depth 0, and there is one. *)
Lemma insert_meta_unroots now c meta m pid pts rid rts :
  (∀ ts, m !! (c, ts, pid) = None) →
  m !! (c, tp_event_created_at meta, tp_event_id meta) = None →
  tp_event_id meta ≠ pid → tp_parent meta = Some (pid, pts) → tp_root meta = Some (rid, rts) → rid ≠ pid →
  unrooted c pid (insert_thread_meta now c meta m)
  ∧ is_Some (insert_thread_meta now c meta m !! (c, default (tp_event_created_at meta) pts, pid)).
Proof.
  intros Hnone Hnew Hne Hp Hr Hrp. unfold insert_thread_meta. cbv zeta.
  set (row := mkThreadRow _ _ _ _ _ _ _ _). set (k := (c, _, _)). set (pk := (c, _, pid)).
  assert (unrooted c pid (insert_thread_row k row m).2) as H1.
  { apply unrooted_insert; [simpl; congruence|]. intros ts r. by rewrite Hnone. }
  assert ((insert_thread_row k row m).1 = true) as Hins by (by rewrite (insert_row_new _ _ _ Hnew)).
  destruct (insert_thread_row k row m) as [ins m1]. simpl in H1, Hins. subst ins. rewrite Hp, Hr.
  rewrite bool_decide_true by done.
  split.
  - repeat (apply unrooted_update; [done|]). by repeat (apply unrooted_insert; [done|]).
  - do 2 apply update_keeps. apply insert_row_keeps. apply insert_row_there.
Qed.

(** The row that the resolver reads is one of them. *)
Lemma read_unrooted c pid T k :
  unrooted c pid (thread_metadata T) → is_Some (thread_metadata T !! (c, k, pid)) →
  ∃ r, get_thread_metadata_by_event c pid T = Some r ∧ tr_root r = None ∧ tr_depth r = 0%Z.
Proof.
  intros Hun [r0 H0]. unfold get_thread_metadata_by_event.
  set (f := λ kr : EventKey * ThreadRow, let '((c', _, id'), r) := kr in
    if bool_decide (c' = c) && bool_decide (id' = pid) then Some r else None). set (l := omap f (hm_iter (thread_metadata T))).
  assert (∀ r, r ∈ l → tr_root r = None ∧ tr_depth r = 0%Z) as Hl.
  { intros r ([[[c' ts] id'] r'] & Hin & Hf)%list_elem_of_omap. rewrite hm_iter_perm in Hin.
    apply elem_of_map_to_list in Hin. unfold f in Hf.
    destruct (bool_decide (c' = c) && bool_decide (id' = pid)) eqn:E; [|done]. injection Hf as <-.
    apply andb_true_iff in E as [->%bool_decide_eq_true ->%bool_decide_eq_true]. by eapply Hun. }
  assert (r0 ∈ l) as Hin.
  { apply list_elem_of_omap. exists ((c, k, pid), r0). rewrite hm_iter_perm. split; [by apply elem_of_map_to_list|].
    unfold f. by rewrite !bool_decide_true. }
  destruct l as [|r l'] eqn:El; [by apply not_elem_of_nil in Hin|]. exists r.
  split; [change (head l = Some r); by rewrite El|]. apply Hl. set_solver.
Qed.

(** Running a sequence forward. *)
Lemma try_run {A B E : Type} (m : M (result A E)) (k : A → M (result B E)) env w a w1 :
  m env w = (Ok a, w1) → try_bind m k env w = k a env w1.
Proof. intros H. unfold try_bind, mbind, M_bind. by rewrite H. Qed.

Lemma bind_run {A B : Type} (m : M A) (k : A → M B) env w a w1 : m env w = (a, w1) → (m ≫= k) env w = k a env w1.
Proof. intros H. unfold mbind, M_bind. by rewrite H. Qed.

(** A calm stage that only reads leaves the tables. *)
Lemma calm_join_reads {A B : Type} (s1 : Stmt A) (s2 : Stmt B) env w r1 r2 w' :
  calm env → is_read s1 = true → is_read s2 = true → history w ≠ [] →
  join (stmt s1) (stmt s2) env w = ((r1, r2), w') →
  (∃ mok now, (exec_statement s1 mok now (db w)).1 = r1) ∧ ∃ mok now, (exec_statement s2 mok now (db w)).1 = r2.
Proof.
  intros Hc H1 H2 Hh. unfold join. destruct (env_join_second env (calls w)).
  - destruct (stmt s2 env w) as [b w1] eqn:E2. destruct (stmt s1 env w1) as [a w2] eqn:E1. intros [= <- <- <-].
    apply calm_read in E2 as (Hb & Hd & Hh1); [|done..]. apply calm_read in E1 as (Ha & _ & _); [|done..].
    rewrite Hd in Ha. done.
  - destruct (stmt s1 env w) as [a w1] eqn:E1. destruct (stmt s2 env w1) as [b w2] eqn:E2. intros [= <- <- <-].
    apply calm_read in E1 as (Ha & Hd & Hh1); [|done..]. apply calm_read in E2 as (Hb & _ & _); [|done..].
    rewrite Hd in Hb. done.
Qed.

(** A parent [pid] in channel [ch], below the root [rid], whose event is stored
but which has no thread row; the first reply to it, and a second one. *)
Record unindexed_parent (c : Uuid) (ch : Uuid) (T : Tables) (pid rid : string) (meta : ThreadMetadataParams)
    (parent : StoredEvent) (e' : Event) : Prop := {
  up_event : get_event_by_id c pid T = Some parent;
  up_channel : se_channel_id parent = Some ch;
  up_no_row : ∀ ts, thread_metadata T !! (c, ts, pid) = None;
  up_nested : rid ≠ pid;
  up_first : tp_event_id meta ≠ pid;
  up_first_new : thread_metadata T !! (c, tp_event_created_at meta, tp_event_id meta) = None;
  up_first_parent : fst <$> tp_parent meta = Some pid;
  up_first_root : fst <$> tp_root meta = Some rid;
  up_second : ∃ root_hex parent_hex, resolve (parse_thread_markers (tags e')) = Some (root_hex, parent_hex)
    ∧ hex_decode root_hex = Some rid ∧ hex_decode parent_hex = Some pid
}.

(** The first reply below a parent without a thread row shuts out the
second.  When the parent of a nested reply has no row (it was stored by
another path, or its row was lost), the first reply is resolved from the
parent's own markers, and its insertion makes up a row for the parent: at depth
0, without a root.  From then on, with nothing else going on, a reply that
names the same root and the same parent is refused, because the made-up row
makes the parent its own root. *)
Theorem second_nested_reply_is_refused now c ch T pid rid meta parent e' env h :
  unindexed_parent c ch T pid rid meta parent e' → calm env →
  let T' := with_threads (insert_thread_meta now c meta (thread_metadata T)) T in
  (resolve_nip10_thread_meta c e' ch env (start (h ++ [T']))).1 = Err "root tag does not match thread ancestry".
Proof.
  intros [Hev Hch Hnone Hrp Hne Hnew Hp Hr (root_hex & parent_hex & Hres & Hrid & Hpid)] Hcalm T'.
  destruct (tp_parent meta) as [[pid' pts]|] eqn:Ep; [|done]. injection Hp as ->.
  destruct (tp_root meta) as [[rid' rts]|] eqn:Er; [|done]. injection Hr as ->.
  destruct (insert_meta_unroots now c meta (thread_metadata T) pid pts rid rts Hnone Hnew Hne Ep Er Hrp) as [Hun Hthere].
  destruct (read_unrooted c pid T' _ Hun Hthere) as (row & Hrow & Hroot & _).
  unfold resolve_nip10_thread_meta. rewrite Hres, Hpid, (try_run _ _ _ _ pid (start (h ++ [T'])) eq_refl).
  assert (∃ w2, load_parent c pid ch env (start (h ++ [T'])) = (Ok (parent, Ok (Some row)), w2)) as [w2 Hl].
  { unfold load_parent. unfold mbind, M_bind. destruct (join _ _ env _) as [[r1 r2] w2] eqn:Ej.
    assert (db (start (h ++ [T'])) = T') as Hdb by (unfold db; simpl; by rewrite last_snoc).
    apply calm_join_reads in Ej as [(mok & nw & H1) (mok' & nw' & H2)]; [|done..|by destruct h].
    rewrite Hdb in H1, H2. simpl in H1, H2. change (Ok (get_event_by_id c pid T) = r1) in H1. rewrite Hev in H1. rewrite Hrow in H2. subst r1 r2. exists w2.
    simpl. rewrite Hch. by rewrite bool_decide_false by (intros Hx; by apply Hx). }
  rewrite (try_run _ _ _ _ _ _ Hl). destruct (time_or_now (se_event parent) env w2) as [pts' w3] eqn:Et.
  rewrite (bind_run _ _ _ _ _ _ Et), Hrid, (try_run _ _ _ _ rid w3 eq_refl), (try_run _ _ _ _ (Some row) w3 eq_refl).
  rewrite Hroot. simpl (default pid _). rewrite bool_decide_true by done. done.
Qed.

End thread.
