(* ===== verification/IngestToy.v ===== *)
(** * IngestToy: requests that run

Concrete instances of the interfaces of the ingest pipeline, a community with
an open channel, and requests that the theorems are applied to: a message, a
reply below a message without a thread row and a second one, a channel that is
created by a request that is then refused, an archived channel that a failed
lookup opens; and small histories of the event store. *)
From stdpp Require Import pretty.
From S2P Require Import Conformance Prelude Text Encode Nostr Kind Scope Roles Json IngestRules IngestEnvelopes EventStore EventStoreProps IngestRun IngestThread Ingest IngestRunProps IngestGates IngestWrites IngestProps IngestThreadProps.

(** ** Interfaces *)

#[local] Instance toy_tags : NostrTags := nip01_tags.
#[local] Instance toy_order : HashOrder := map_to_list_order.
#[local] Instance toy_uuid : UuidText := { uuid_to_string := λ u, pretty u }.
#[local] Instance toy_text : TraceText := demo_text.
#[local] Instance toy_url : UrlCrate := { url_parse := λ _, None }.
#[local] Instance toy_crates : RelayCrates := {
  verify_id := λ _, true;
  computed_id := id;
  verify_signature := λ _ sig, String.eqb sig "sig";
  parse_uuid := parse_uint 1000;
  parse_i64 := λ s, Z.of_N <$> parse_uint 1000000 s;
  parse_i32 := λ s, Z.of_N <$> parse_uint 1000000 s;
  sjson_from_str := λ _, Some (λ _, None)
}.

(** Handlers that do nothing, but for the media check. *)
Definition idle {A : Type} (a : A) : Handler A := λ _ T, (a, T).
Definition toy_handlers : Handlers := {|
  handle_command := λ _ e _, idle (Ok (mkIngestResult (id e) true ""));
  product_feedback := λ _ _, idle (Ok tt);
  handle_report_event := λ _ _, idle (Ok tt);
  handle_moderation_command := λ _ _, idle (Ok tt);
  handle_relay_admin_event := λ _ _, idle (Ok tt);
  publish_member_removed := λ _ _, idle tt;
  validate_admin_event := λ _ _, idle (Ok tt);
  validate_registration := λ _ _, idle (Ok None);
  handle_identity_archive_event := λ _ _, idle (Ok tt);
  validate_standard_deletion_event := λ _ _, idle (Ok tt);
  accept_push_lease := λ _ _ _, idle (Ok LeaseAccepted);
  validate_imeta := λ _ _, idle (Err "imeta tag must have a url");
  persist_workflow_deletion := λ _ e, idle (Err "none");
  emit_group_discovery_events := λ _ _, idle tt;
  handle_side_effects := λ _ _, idle tt;
  emit_live_thread_summary := λ _ _ _, idle tt;
  dispatch_persistent_event := λ _ _ _ _, idle tt;
  parse_business_document := λ _, Ok tt
|}.

Definition toy_env : Env := {|
  env_config := mkConfig "relay" "wss://relay" None true 1000;
  env_handlers := toy_handlers;
  env_others := λ _ _, [];
  env_fault := λ _, None;
  env_mentions_ok := λ _, true;
  env_clock := λ _, 1000%Z;
  env_clock_time := λ _, mk_is_Some _ _ eq_refl;
  env_verify_panics := λ _, false;
  env_join_second := λ _, false;
  env_member_cached := λ _ _, None;
  env_private_cached := λ _ _, false
|}.

(** ** A community *)

Definition hex_of (c : ascii) : string := String.string_of_list_ascii (repeat c 64).
Definition alice : string := hex_of "a".
Definition root_id : string := hex_of "1".
Definition parent_id : string := hex_of "2".

Definition toy_tenant : Tenant := mkTenant 1 "h".
Definition toy_auth : IngestAuth := Nip42 alice all_non_admin None 9.

Definition general : ChannelRow := mkChannelRow "general" "stream" "open" None alice None None None None.
Definition toy_tables : Tables :=
  with_channels {[ (1%N, 5%N) := general ]} (mkTables ∅ ∅ ∅ ∅ ∅ ∅ ∅ ∅ ∅ ∅ {[ 1%N ]} ∅).

Definition message (i : string) (ts : N) (ms : list Tag) (text : string) : Event :=
  mkEvent i alice KIND_STREAM_MESSAGE ts (["h"; "5"] :: ms) text.
Definition hello : Event := message (hex_of "3") 1000 [] "hello".

Definition run (e : Event) (T : Tables) : result IngestResult IngestError * IngestWorld :=
  ingest_event toy_tenant e "sig" toy_auth toy_env (start [T]).

Lemma hello_accepted : (run hello toy_tables).1 = Ok (mkIngestResult (hex_of "3") true "").
Proof. vm_compute. reflexivity. Qed.

Definition hello_log : list LogEntry := log (run hello toy_tables).2.

(** The event an entry writes, and where. *)
Definition entry_writes (x : LogEntry) : option (Event * option Uuid) :=
  match x with LStmt s _ _ _ _ => stmt_writes s | LHandler _ _ => None end.

Lemma split_at_write (l : list LogEntry) (k : nat) (e : Event) (ch : option Uuid) :
  l !! k ≫= entry_writes = Some (e, ch) →
  ∃ A (s : Stmt A) now before res after,
    l = take k l ++ LStmt s now before res after :: drop (S k) l ∧ stmt_writes s = Some (e, ch).
Proof.
  destruct (l !! k) as [[A s now b r a|b a]|] eqn:E; simpl; intros H; [|done..].
  exists A, s, now, b, r, a. split; [symmetry; by apply take_drop_middle|done].
Qed.

Lemma hello_write : hello_log !! 4 ≫= entry_writes = Some (hello, Some 5%N).
Proof. vm_compute. reflexivity. Qed.

Lemma stored_events_are_authorised_witness :
  ∃ past, past `prefix_of` history (run hello toy_tables).2
    ∧ gates_passed toy_tenant hello "sig" toy_auth toy_env (Some 5%N) (take 4 hello_log) past.
Proof.
  destruct (split_at_write _ _ _ _ hello_write) as (A & s & now & b & r & a & Hl & Hw).
  destruct (stored_events_are_authorised toy_tenant hello "sig" toy_auth toy_env [toy_tables] _ A s now b r a _ _ _ Hl Hw)
    as (_ & _ & past & Hp & Hg & _). exists past. exact (conj Hp Hg).
Defined.

(** The answer [accepted], and what it means. *)
Lemma answers_are_truthful_witness :
  (run hello toy_tables).1 = Ok (mkIngestResult (id hello) true "") ∧ ∃ ch, stored_in toy_tenant hello ch (log (run hello toy_tables).2).
Proof.
  assert (¬ negative (Ok (mkIngestResult (id hello) true ""))) as Hneg by (by intros []).
  pose proof (answers_are_truthful toy_tenant hello "sig" toy_auth toy_env [toy_tables]) as H.
  pose proof hello_accepted as Hr. unfold run in *.
  destruct (ingest_event toy_tenant hello "sig" toy_auth toy_env (start [toy_tables])) as [r w']. cbn [fst snd] in *. subst r.
  split; [reflexivity|]. destruct H as [[Hn _]|[[_ Hs]|[Hh|Hd]]]; [by destruct (Hneg Hn)|exact Hs|discriminate Hh|discriminate Hd].
Defined.

(** The channel's UUID is not the community's, and the trace fails. *)
Lemma accepted_channel_post_fails_trace_check_witness :
  check_trace (unstructured (trace (run hello toy_tables).2)) ≠ Ok tt.
Proof.
  apply (accepted_channel_post_fails_trace_check toy_tenant hello "sig" toy_auth toy_env [toy_tables] (mkCommunity 5)).
  - reflexivity.
  - reflexivity.
  - reflexivity.
  - intros [=].
  - exact hello_accepted.
Defined.

(** ** Two replies below a message without a thread row *)

Definition root_message : Event := message root_id 990 [] "root".
Definition parent_message : Event :=
  message parent_id 991 [["e"; root_id; ""; "root"]; ["e"; root_id; ""; "reply"]] "parent".
Definition row_of (e : Event) : EventRow := mkEventRow e "sig" 991 (Some 5%N) None None None.
Definition unindexed : Tables :=
  with_events {[ (1%N, 990%Z, root_id) := row_of root_message; (1%N, 991%Z, parent_id) := row_of parent_message ]} toy_tables.

Definition nested (i : string) : Event :=
  message i 1000 [["e"; root_id; ""; "root"]; ["e"; parent_id; ""; "reply"]] "a reply".
Definition first_reply : Event := nested (hex_of "4").
Definition second_reply : Event := nested (hex_of "5").
Definition after_first : Tables := db (run first_reply unindexed).2.

Lemma first_reply_accepted : (run first_reply unindexed).1 = Ok (mkIngestResult (hex_of "4") true "").
Proof. vm_compute. reflexivity. Qed.

(** The same request again, for another event, ends in a refusal. *)
Lemma second_reply_refused :
  (run second_reply after_first).1 = Err (Rejected "invalid: root tag does not match thread ancestry").
Proof. vm_compute. reflexivity. Qed.

Definition made_params {W : Type} (x : result (option ThreadMetadataParams) string * W) : bool :=
  match x.1 with Ok (Some _) => true | _ => false end.

Lemma made_params_inv {W : Type} (x : result (option ThreadMetadataParams) string * W) :
  made_params x = true → ∃ p w', x = (Ok (Some p), w').
Proof. destruct x as [[[p|]|] w']; simpl; try done. eauto. Qed.

Lemma first_reply_resolves : made_params (resolve_nip10_thread_meta 1 first_reply 5 toy_env (start [unindexed])) = true.
Proof. vm_compute. reflexivity. Qed.

Lemma replies_join_their_thread_witness :
  ∃ p w', resolve_nip10_thread_meta 1 first_reply 5 toy_env (start [unindexed]) = (Ok (Some p), w')
    ∧ tp_channel_id p = 5%N ∧ ∃ rid pid parent row, ancestry_follows pid rid parent row (tp_depth p).
Proof.
  destruct (made_params_inv (resolve_nip10_thread_meta 1 first_reply 5 toy_env (start [unindexed])) first_reply_resolves) as (p & w' & E).
  exists p, w'. split; [exact E|].
  destruct (replies_join_their_thread _ _ _ _ _ _ _ E)
    as (rh & ph & rid & pid & parent & row & _ & _ & _ & _ & _ & _ & _ & Hch & _ & _ & Hf).
  split; [exact Hch|]. exists rid, pid, parent, row. exact Hf.
Defined.

Definition first_params : ThreadMetadataParams :=
  mkThreadParams (hex_of "4") 1000 5 (Some (parent_id, Some 991%Z)) (Some (root_id, Some 990%Z)) 2 false.

Lemma unindexed_holds : ∃ parent, unindexed_parent 1 5 unindexed parent_id root_id first_params parent second_reply.
Proof.
  eexists. split.
  - vm_compute. reflexivity.
  - reflexivity.
  - intros ts. reflexivity.
  - by vm_compute.
  - by vm_compute.
  - reflexivity.
  - reflexivity.
  - reflexivity.
  - exists root_id, parent_id. by vm_compute.
Qed.

Lemma second_nested_reply_is_refused_witness :
  (resolve_nip10_thread_meta 1 second_reply 5 toy_env
     (start ([] ++ [with_threads (insert_thread_meta 1000 1 first_params (thread_metadata unindexed)) unindexed]))).1
  = Err "root tag does not match thread ancestry".
Proof.
  destruct unindexed_holds as [parent H].
  apply (second_nested_reply_is_refused 1000 1 5 unindexed parent_id root_id first_params parent second_reply toy_env []).
  - exact H.
  - split; [done|done].
Defined.

(** ** A channel that outlives its refused request *)

Definition create (i : string) (ts : list Tag) : Event :=
  mkEvent i alice KIND_NIP29_CREATE_GROUP 1000 (["h"; "7"] :: ["name"; "new"] :: ts) "".

(** The media check refuses the request after the channel was committed; the
corrected request is then a duplicate, and its event is never stored. *)
Lemma refused_create_leaves_channel :
  let '(r, w) := run (create (hex_of "6") [["imeta"]]) toy_tables in
  r = Err (Rejected "invalid: imeta tag must have a url")
  ∧ is_ok (get_channel 1 7 (db w)) = true
  ∧ (run (create (hex_of "7") []) (db w)).1
    = Ok (mkIngestResult (hex_of "7") false "duplicate: channel already exists").
Proof. vm_compute. done. Qed.

(** A channel whose row cannot be read is not seen to be archived: the driver
fails once, at the lookup, and the member's message is stored. *)
Definition archived : Tables :=
  with_channels {[ (1%N, 5%N) := mkChannelRow "general" "stream" "open" None alice (Some 900%Z) None None None ]} toy_tables.
Definition faulty (n : nat) : Env :=
  {| env_config := env_config toy_env; env_handlers := toy_handlers; env_others := λ _ _, [];
     env_fault := λ k, if k =? n then Some ("connection reset", false) else None;
     env_mentions_ok := λ _, true; env_clock := λ _, 1000%Z;
     env_clock_time := λ _, mk_is_Some _ _ eq_refl; env_verify_panics := λ _, false;
     env_join_second := λ _, false; env_member_cached := λ _ _, None; env_private_cached := λ _ _, false |}.

Lemma archive_gate_fails_open :
  (run hello archived).1 = Err (Rejected "invalid: channel is archived")
  ∧ (ingest_event toy_tenant hello "sig" toy_auth (faulty 4) (start [archived])).1
    = Ok (mkIngestResult (hex_of "3") true "").
Proof. vm_compute. done. Qed.

(** ** The event store *)

Definition profile (i : string) (ts : N) : Event := mkEvent i alice KIND_PROFILE ts [] "{}".
Definition older : Event := profile (hex_of "8") 900.
Definition newer : Event := profile (hex_of "9") 901.

Lemma profiles_fresh (es : list (Z * Event * string)) :
  (∀ a, a ∈ es → a.1.2 = older ∨ a.1.2 = newer) → fresh_arrivals 1 None KIND_PROFILE alice es toy_tables.
Proof.
  intros Hes. split.
  - intros a Ha. by destruct (Hes a Ha) as [-> | ->].
  - intros a Ha. by destruct (Hes a Ha) as [-> | ->].
  - reflexivity.
  - intros x _. reflexivity.
Qed.

Lemma replaceable_head_converges_witness :
  live_head 1 (at_address KIND_PROFILE alice None) (replace_all 1 None [(1%Z, older, "s"); (2%Z, newer, "s")] toy_tables)
  = live_head 1 (at_address KIND_PROFILE alice None)
      (replace_all 1 None [(1%Z, newer, "s"); (2%Z, older, "s"); (3%Z, newer, "s")] toy_tables).
Proof.
  apply (replaceable_head_converges parse_i64 1 None KIND_PROFILE alice); [apply profiles_fresh..|].
  - intros a. rewrite !elem_of_cons, elem_of_nil. naive_solver.
  - intros a. rewrite !elem_of_cons, elem_of_nil. naive_solver.
  - intros e. simpl. set_solver.
Defined.

Definition slot : string := "read-state:0123456789abcdef0123456789abcdef".
Definition read_state (i : string) (ts : N) : Event :=
  mkEvent i alice KIND_READ_STATE ts [["d"; slot]; ["t"; "read-state"]] "{}".
Definition read1 : Event := read_state (hex_of "8") 900.
Definition read2 : Event := read_state (hex_of "9") 950.

(** A transaction that answers [Ok] with a flag. *)
Definition flagged {A B : Type} (f : A → bool) (x : result A DbError * B) : bool :=
  match x.1 with Ok a => f a | Err _ => false end.
Lemma flagged_inv {A B : Type} (f : A → bool) (x : result A DbError * B) :
  flagged f x = true → ∃ a, f a = true ∧ x = (Ok a, x.2).
Proof. destruct x as [[a|] b]; unfold flagged; simpl; intros H; [by exists a|done]. Qed.

Definition read_once : result (StoredEvent * bool) DbError * Tables :=
  replace_parameterized_event parse_i64 1000 1 read1 "sig" slot None toy_tables.
Definition read_twice : result (StoredEvent * bool) DbError * Tables :=
  replace_parameterized_event parse_i64 1001 1 read2 "sig" slot None read_once.2.

Lemma read_once_ok : flagged snd read_once = true.
Proof. vm_compute. reflexivity. Qed.
Lemma read_twice_ok : flagged snd read_twice = true.
Proof. vm_compute. reflexivity. Qed.

Lemma read_state_never_regresses_witness : before (event_pair read2) (event_pair read1).
Proof.
  destruct (flagged_inv _ _ read_once_ok) as ([s b] & Hb & H1). destruct (flagged_inv _ _ read_twice_ok) as ([s' b'] & Hb' & H2).
  simpl in Hb, Hb'. subst b b'.
  apply (read_state_never_regresses parse_i64 1000 1001 1 read1 read2 "sig" "sig" slot None None s s'
           toy_tables read_once.2 read_once.2 read_twice.2).
  - reflexivity.
  - reflexivity.
  - reflexivity.
  - exact H1.
  - apply watermarks_advance_preorder.
  - exact H2.
Defined.

Definition canvas (i : string) (ts : N) : Event := mkEvent i alice KIND_CANVAS ts [["h"; "5"]] "text".
Definition is_head_inserted (a : StoredEvent * ChannelHeadWriteStatus) : bool :=
  match a.2 with HeadInserted => true | _ => false end.
Definition canvas_once : result (StoredEvent * ChannelHeadWriteStatus) DbError * Tables :=
  insert_channel_head_checked_with_resource parse_i64 1000 1 (canvas (hex_of "8") 900) "sig" 5 ExpectNoHead None toy_tables.
Definition canvas_twice : result (StoredEvent * ChannelHeadWriteStatus) DbError * Tables :=
  insert_channel_head_checked_with_resource parse_i64 1001 1 (canvas (hex_of "9") 901) "sig" 5 ExpectNoHead None canvas_once.2.

Lemma canvas_once_ok : flagged is_head_inserted canvas_once = true.
Proof. vm_compute. reflexivity. Qed.

Lemma no_lost_canvas_update_witness : canvas_twice.2 = canvas_once.2.
Proof.
  destruct (flagged_inv _ _ canvas_once_ok) as ([s st] & Hst & H1). destruct st; try discriminate Hst.
  refine (proj1 (proj2 (proj2 (no_lost_canvas_update parse_i64 1000 1001 1 (canvas (hex_of "8") 900) (canvas (hex_of "9") 901)
            "sig" "sig" 5 ExpectNoHead None None s toy_tables canvas_once.2 canvas_once.2 canvas_twice.1 canvas_twice.2
            H1 eq_refl _ _ _)))).
  - intros x Hx. exact Hx.
  - intros x y _ Hy. vm_compute in Hy. by apply elem_of_nil in Hy.
  - exact (surjective_pairing canvas_twice).
Defined.
