(* ===== verification/ReadQuery.v ===== *)
(** * ReadQuery: the queries behind a read

Models the reading half of [crates/buzz-db/src/store/event.rs] ([EventQuery],
[query_events], [count_events], [get_events_by_ids]), the channel lists and
huddle links a read consults ([channel_members.rs], [community.rs]), and the
full-text query of [crates/buzz-search/src/query.rs].  A query is a function of
the tables it meets; its SQL is one predicate on rows.  How Postgres matches
and ranks text is the interface [FullText]. *)
From stdpp Require Import pretty.
From S2P Require Import Conformance Prelude Text Encode Nostr Kind Roles IngestRules IngestEnvelopes EventStore IngestRun.

(** ** [EventQuery] *)

Record EventQuery : Type := mkEventQuery {
  eq_community_id : Uuid;
  eq_channel_id : option Uuid;
  eq_kinds : option (list N);
  eq_pubkey : option string;
  eq_since : option Z;
  eq_until : option Z;
  eq_limit : option Z;
  eq_offset : option Z;
  eq_p_tag_hex : option string;
  eq_d_tag : option string;
  eq_d_tags : option (list string);
  eq_before_id : option string;
  eq_global_only : bool;
  eq_authors : option (list string);
  eq_ids : option (list string);
  eq_e_tags : option (list string);
  eq_custom_tag : option (string * string);
  eq_channel_ids : option (list Uuid);
  eq_include_global : bool;              (* [channel_ids_include_global] *)
  eq_max_limit : option Z;
  eq_shared_gated_reader : option string
}.

Definition for_community (c : Uuid) : EventQuery :=
  mkEventQuery c None None None None None None None None None None None false None None None None None true None None.

Definition DEFAULT_MAX_PAGE_LIMIT : Z := 1000.

(** Field updates. *)
Definition set_before_id x q := mkEventQuery (eq_community_id q) (eq_channel_id q) (eq_kinds q) (eq_pubkey q)
  (eq_since q) (eq_until q) (eq_limit q) (eq_offset q) (eq_p_tag_hex q) (eq_d_tag q) (eq_d_tags q) x
  (eq_global_only q) (eq_authors q) (eq_ids q) (eq_e_tags q) (eq_custom_tag q) (eq_channel_ids q)
  (eq_include_global q) (eq_max_limit q) (eq_shared_gated_reader q).
Definition set_channels x include_global q := mkEventQuery (eq_community_id q) (eq_channel_id q) (eq_kinds q)
  (eq_pubkey q) (eq_since q) (eq_until q) (eq_limit q) (eq_offset q) (eq_p_tag_hex q) (eq_d_tag q) (eq_d_tags q)
  (eq_before_id q) (eq_global_only q) (eq_authors q) (eq_ids q) (eq_e_tags q) (eq_custom_tag q) x
  include_global (eq_max_limit q) (eq_shared_gated_reader q).
Definition set_limits limit max_limit q := mkEventQuery (eq_community_id q) (eq_channel_id q) (eq_kinds q)
  (eq_pubkey q) (eq_since q) (eq_until q) limit (eq_offset q) (eq_p_tag_hex q) (eq_d_tag q) (eq_d_tags q)
  (eq_before_id q) (eq_global_only q) (eq_authors q) (eq_ids q) (eq_e_tags q) (eq_custom_tag q) (eq_channel_ids q)
  (eq_include_global q) max_limit (eq_shared_gated_reader q).
Definition set_shared_reader x q := mkEventQuery (eq_community_id q) (eq_channel_id q) (eq_kinds q)
  (eq_pubkey q) (eq_since q) (eq_until q) (eq_limit q) (eq_offset q) (eq_p_tag_hex q) (eq_d_tag q) (eq_d_tags q)
  (eq_before_id q) (eq_global_only q) (eq_authors q) (eq_ids q) (eq_e_tags q) (eq_custom_tag q) (eq_channel_ids q)
  (eq_include_global q) (eq_max_limit q) x.

(** ** The WHERE clause *)

Section sql.
Context {HO : HashOrder}.

(** [AND column op bound], when the bound is given. *)
Definition bound {A : Type} (o : option A) (test : A → bool) : bool :=
  match o with Some a => test a | None => true end.

(** [column IN (..)], left out for an empty list. *)
Definition in_list {A : Type} `{EqDecision A} (o : option (list A)) (x : A) : bool :=
  bound o (λ l, bool_decide (l = []) || bool_decide (x ∈ l)).

(** JSONB containment [tags @> [[a, b]]]: some tag has both texts, anywhere. *)
Definition tags_contain (a b : string) (ts : list Tag) : bool :=
  existsb (λ t : Tag, bool_decide (a ∈ t) && bool_decide (b ∈ t)) ts.

Definition channel_scope_ok (q : EventQuery) (ch : option Uuid) : bool :=
  match eq_channel_id q with
  | Some c => bool_decide (ch = Some c)
  | None => if eq_global_only q then bool_decide (ch = None) else true
  end
  && bound (eq_channel_ids q) (λ ids,
       match ch with
       | Some c => bool_decide (c ∈ ids)
       | None => eq_include_global q
       end).

Definition mentioned (t : Tables) (c : Uuid) (pk id : string) : bool :=
  match mentions t !! (c, pk, id) with Some _ => true | None => false end.

(** The conditions [query_events] and [count_events] share. *)
Definition row_selected (q : EventQuery) (t : Tables) (k : EventKey) (r : EventRow) : bool :=
  let '(c, ts, id') := k in
  let e := er_event r in
  bool_decide (c = eq_community_id q) && is_live r
  && bound (eq_p_tag_hex q) (λ p, mentioned t c (to_ascii_lowercase p) id')
  && channel_scope_ok q (er_channel_id r)
  && in_list (eq_kinds q) (kind e)
  && bound (eq_pubkey q) (λ pk, bool_decide (pubkey e = pk))
  && in_list (eq_authors q) (pubkey e)
  && in_list (eq_ids q) id'
  && bound (eq_e_tags q) (λ es, bool_decide (es = []) || existsb (λ h, tags_contain "e" h (tags e)) es)
  && bound (eq_since q) (λ s, (s <=? ts)%Z)
  && match eq_d_tag q with
     | Some d => bool_decide (er_d_tag r = Some d)
     | None => bound (eq_d_tags q) (λ ds, bool_decide (ds = []) || existsb (λ d, bool_decide (er_d_tag r = Some d)) ds)
     end.

Definition row_matches (q : EventQuery) (t : Tables) (k : EventKey) (r : EventRow) : bool :=
  let '(_, ts, id') := k in
  row_selected q t k r
  && bound (eq_custom_tag q) (λ nv, tags_contain nv.1 nv.2 (tags (er_event r)))
  && bound (eq_until q) (λ u,
       match eq_before_id q with
       | Some bid => (ts <? u)%Z || ((ts =? u)%Z && String.ltb bid id')
       | None => (ts <=? u)%Z
       end)
  && bound (eq_shared_gated_reader q) (λ reader,
       negb (is_shared_gated_kind (kind (er_event r))) || bool_decide (pubkey (er_event r) = reader)
       || tags_contain "shared" "true" (tags (er_event r))).

Definition row_counts (q : EventQuery) (t : Tables) (k : EventKey) (r : EventRow) : bool :=
  row_selected q t k r && bound (eq_until q) (λ u, (k.1.2 <=? u)%Z).

(** [ORDER BY created_at DESC, id ASC]. *)
Fixpoint insert_row_ordered (x : EventKey * EventRow) (l : list (EventKey * EventRow)) : list (EventKey * EventRow) :=
  match l with
  | [] => [x]
  | y :: l' => if precedes (x.1.1.2, x.1.2) (y.1.1.2, y.1.2) then x :: l else y :: insert_row_ordered x l'
  end.

Definition ordered_rows (p : EventKey → EventRow → bool) (t : Tables) : list (EventKey * EventRow) :=
  foldr insert_row_ordered [] (List.filter (λ kr, p kr.1 kr.2) (map_to_list (events t))).

Definition rows_to_events (rows : list (EventKey * EventRow)) : list StoredEvent :=
  omap (λ kr, row_to_stored_event kr.1.1.2 kr.2) rows.

(** The lists that match nothing when they are given and empty. *)
Definition matches_nothing (q : EventQuery) : bool :=
  bool_decide (eq_kinds q = Some []) || bool_decide (eq_authors q = Some [])
  || bool_decide (eq_ids q = Some []) || bool_decide (eq_e_tags q = Some []).

(** [query_events_on]; Postgres refuses a negative LIMIT or OFFSET. *)
Definition query_events (q : EventQuery) (t : Tables) : result (list StoredEvent) DbError :=
  if bool_decide (is_Some (eq_before_id q)) && bool_decide (eq_until q = None) then
    Err (InvalidData "before_id requires until to be set")
  else if eq_global_only q && bool_decide (is_Some (eq_channel_id q)) then
    Err (InvalidData "global_only and channel_id are mutually exclusive")
  else if matches_nothing q then Ok []
  else
  let limit := Z.min (default 100%Z (eq_limit q)) (default DEFAULT_MAX_PAGE_LIMIT (eq_max_limit q)) in
  let offset := default 0%Z (eq_offset q) in
  if (limit <? 0)%Z then Err (Sqlx "LIMIT must not be negative")
  else if (offset <? 0)%Z then Err (Sqlx "OFFSET must not be negative")
  else Ok (rows_to_events (take (Z.to_nat limit) (drop (Z.to_nat offset) (ordered_rows (row_matches q t) t)))).

(** [count_events_on]. *)
Definition count_events (q : EventQuery) (t : Tables) : N :=
  if matches_nothing q then 0%N
  else N.of_nat (length (List.filter (λ kr, row_counts q t kr.1 kr.2) (map_to_list (events t)))).

(** [get_events_by_ids_on]: in the server's order. *)
Definition get_events_by_ids (c : Uuid) (ids : list string) (t : Tables) : list StoredEvent :=
  rows_to_events (List.filter (λ kr : EventKey * EventRow, let '((c', _, id'), r) := kr in
    bool_decide (c' = c) && is_live r && bool_decide (id' ∈ ids)) (hm_iter (events t))).

(** ** Channels *)

(** [get_accessible_channel_ids]: the reader's channels and the open ones. *)
Definition channel_accessible (c : Uuid) (pk : string) (t : Tables) (ch : Uuid) (r : ChannelRow) : bool :=
  bool_decide (ch_deleted_at r = None)
  && (bool_decide (ch_visibility r = "open")
      || match channel_members t !! (c, ch, pk) with
         | Some m => bool_decide (mr_removed_at m = None)
         | None => false
         end).

Definition get_accessible_channel_ids (c : Uuid) (pk : string) (t : Tables) : list Uuid :=
  omap (λ kr : (Uuid * Uuid) * ChannelRow, let '((c', ch), r) := kr in
    if bool_decide (c' = c) && channel_accessible c pk t ch r then Some ch else None) (hm_iter (channels t)).

(** [communities_of_channels]: by id alone; where two communities share an id,
the row the server gives last stays in the map. *)
Definition communities_of_channels (chs : list Uuid) (t : Tables) : gmap Uuid Uuid :=
  foldl (λ m (kr : (Uuid * Uuid) * ChannelRow), let '((c, ch), r) := kr in
    if bool_decide (ch ∈ chs) && bool_decide (ch_deleted_at r = None) then <[ch := c]> m else m)
    ∅ (hm_iter (channels t)).

End sql.

(** ** Full-text search ([buzz-search]) *)

(** [websearch_to_tsquery] against a row's text, and the ranking. *)
Class FullText : Type := {
  fts_match : string → Event → bool;
  fts_rank : string → list (EventKey * EventRow) → list (EventKey * EventRow);
  fts_rank_perm : ∀ text rows, fts_rank text rows ≡ₚ rows
}.

Inductive ChannelScope : Type :=
| AnyChannel
| ChannelLessOnly
| ScopeChannels (ids : list Uuid)
| ChannelsOrChannelLess (ids : list Uuid).

Record SearchQuery : Type := mkSearchQuery {
  sq_community : Uuid;
  sq_text : string;
  sq_channel_scope : ChannelScope;
  sq_kinds : option (list N);
  sq_authors : option (list string);
  sq_since : option Z;
  sq_until : option Z;
  sq_page : N;
  sq_per_page : N
}.

Definition scope_allows (s : ChannelScope) (ch : option Uuid) : bool :=
  match s, ch with
  | AnyChannel, _ => true
  | ChannelLessOnly, None => true
  | ChannelLessOnly, Some _ => false
  | ScopeChannels ids, Some c => bool_decide (c ∈ ids)
  | ScopeChannels _, None => false
  | ChannelsOrChannelLess ids, Some c => bool_decide (c ∈ ids)
  | ChannelsOrChannelLess _, None => true
  end.

Definition SEARCH_TEXT_MAX_CHARS : nat := 4096.
Definition PAGE_MAX : N := 1000.
Definition PER_PAGE_MAX : N := 500.

Fixpoint nul_to_space (s : string) : string :=
  match s with
  | String c s' => String (if Ascii.eqb c "000" then " "%char else c) (nul_to_space s')
  | EmptyString => ""
  end.

Definition normalized_search_text (q : string) : option string :=
  let trimmed := trim q in
  if String.eqb trimmed "" then None
  else
  let cleaned := trim (nul_to_space (take_chars SEARCH_TEXT_MAX_CHARS trimmed)) in
  if String.eqb cleaned "" then None else Some cleaned.

Section search.
Context {FT : FullText}.

Definition search_selects (q : SearchQuery) (text : string) (k : EventKey) (r : EventRow) : bool :=
  let '(c, ts, _) := k in
  let e := er_event r in
  bool_decide (c = sq_community q) && is_live r && fts_match text e
  && scope_allows (sq_channel_scope q) (er_channel_id r)
  && in_list (sq_kinds q) (kind e) && in_list (sq_authors q) (pubkey e)
  && bound (sq_since q) (λ s, (s <=? ts)%Z) && bound (sq_until q) (λ u, (ts <=? u)%Z).

(** [search]: the ids of one page of hits, best first. *)
Definition search (q : SearchQuery) (t : Tables) : list string :=
  match normalized_search_text (sq_text q) with
  | None => []
  | Some text =>
      let per_page := if (sq_per_page q =? 0)%N then 100%N else N.max 1 (N.min (sq_per_page q) PER_PAGE_MAX) in
      let page := N.max 1 (N.min (sq_page q) PAGE_MAX) in
      map (λ kr : EventKey * EventRow, kr.1.2)
        (take (N.to_nat per_page) (drop (N.to_nat ((page - 1) * per_page))
          (fts_rank text (List.filter (λ kr, search_selects q text kr.1 kr.2) (map_to_list (events t))))))
  end.

End search.

(** ** Huddle links *)

(** [huddle_started_links]: for each backing channel, the newest start event
that its creator signed in one of the parents. *)
Definition starts_huddle {UT : UuidText} {RC : RelayCrates} (c : Uuid) (parents : list Uuid) (backing : Uuid) (creator : string)
    (k : EventKey) (r : EventRow) : bool :=
  let '(c', _, _) := k in
  let e := er_event r in
  bool_decide (c' = c) && is_live r
  && match er_channel_id r with Some ch => bool_decide (ch ∈ parents) | None => false end
  && (kind e =? KIND_HUDDLE_STARTED)%N
  && (String.length (content e) <=? HUDDLE_LINK_CONTENT_MAX_BYTES)
  && bool_decide ((sjson_from_str (content e) ≫= λ member, member "ephemeral_channel_id") = Some (uuid_to_string backing))
  && bool_decide (pubkey e = creator).

Definition huddle_started_links {HO : HashOrder} {UT : UuidText} {RC : RelayCrates} (c : Uuid) (parents sessions : list Uuid)
    (t : Tables) : list (Uuid * Uuid * string) :=
  omap (λ kr : (Uuid * Uuid) * ChannelRow, let '((c', backing), r) := kr in
    if bool_decide (c' = c) && bool_decide (ch_deleted_at r = None) && bool_decide (backing ∈ sessions) then
      match ordered_rows (starts_huddle c parents backing (ch_created_by r)) t with
      | (_, start) :: _ => parent ← er_channel_id start; Some (backing, parent, ch_created_by r)
      | [] => None
      end
    else None)
    (sort_by_key (λ kr : (Uuid * Uuid) * ChannelRow, kr.1.2) (hm_iter (channels t))).
