(* ===== verification/ReadRules.v ===== *)
(** * ReadRules: what a filter may ask for

Models the functions of [crates/buzz-relay/src/handlers/req.rs] that read only
the filters and the reader's key: the channels a request names, the gates on
sensitive kinds, the query a filter becomes, when its count may be left to SQL,
and which event a reader may see. *)
From stdpp Require Import pretty.
From S2P Require Import Conformance Prelude Text Encode Nostr Kind Roles Filter IngestRules IngestEnvelopes EventStore IngestRun ReadQuery.

(** [nostr::Filter], with the two fields that do not select events. *)
Record ReqFilter : Type := mkReqFilter {
  rf_filter :> Nostr.Filter;
  rf_limit : option N;
  rf_search : option string
}.

Section rules.
Context {NT : NostrTags} {UT : UuidText} {RC : RelayCrates}.

(** [filter.generic_tags.get(letter)]. *)
Definition tag_set (f : ReqFilter) (letter : string) : option (list string) := f_generic_tags f !! letter.

(** [Option<Vec<_>>::is_some_and(|v| !v.is_empty())]. *)
Definition nonempty {A : Type} (o : option (list A)) : bool :=
  match o with Some (_ :: _) => true | _ => false end.

(** ** Channels *)

Definition MAX_EXPLICIT_CHANNEL_VALUES : nat := 128.

Definition extract_channel_id_from_filter (f : ReqFilter) : option Uuid :=
  match tag_set f "h" with Some [v] => parse_uuid v | _ => None end.

(** The loops of [extract_channel_id_from_filters]: [None] is its early
[return None]. *)
Fixpoint channel_of_values (found : option Uuid) (has_channel : bool) (values : list string)
    : option (option Uuid * bool) :=
  match values with
  | [] => Some (found, has_channel)
  | v :: values' =>
      match parse_uuid v with
      | Some id =>
          match found with
          | Some existing =>
              if bool_decide (existing ≠ id) then None else channel_of_values (Some id) true values'
          | None => channel_of_values (Some id) true values'
          end
      | None => channel_of_values found has_channel values'
      end
  end.

Fixpoint channel_of_filters (found : option Uuid) (filters : list ReqFilter) : option Uuid :=
  match filters with
  | [] => found
  | f :: filters' =>
      match channel_of_values found false (default [] (tag_set f "h")) with
      | Some (found', true) => channel_of_filters found' filters'
      | _ => None
      end
  end.

Definition extract_channel_id_from_filters (filters : list ReqFilter) : option Uuid := channel_of_filters None filters.

(** Appending the channels not yet in the list. *)
Definition push_channels (acc : list Uuid) (values : list string) : list Uuid :=
  foldl (λ acc v, match parse_uuid v with
                  | Some id => if bool_decide (id ∈ acc) then acc else acc ++ [id]
                  | None => acc
                  end) acc values.

Fixpoint channels_of_filters (acc : list Uuid) (filters : list ReqFilter) : option (list Uuid) :=
  match filters with
  | [] => Some acc
  | f :: filters' => values ← tag_set f "h"; channels_of_filters (push_channels acc values) filters'
  end.

Definition extract_channel_ids_from_filters (filters : list ReqFilter) : option (list Uuid) := channels_of_filters [] filters.

(** The values of all filters, counted ([checked_add] of lengths in memory does
not overflow). *)
Definition explicit_channel_values (filters : list ReqFilter) : nat :=
  sum_list (map (λ f, match tag_set f "h" with Some values => length values | None => 0 end) filters).

Definition extract_channel_ids_from_filters_limited (filters : list ReqFilter) : result (option (list Uuid)) unit :=
  if MAX_EXPLICIT_CHANNEL_VALUES <? explicit_channel_values filters then Err tt
  else Ok (extract_channel_ids_from_filters filters).

(** The new list, and the verdict. *)
Definition resolve_request_local_access (accessible : list Uuid) (ch : Uuid) (token_allows : bool)
    (db_is_member : option bool) : list Uuid * bool :=
  if negb token_allows then (accessible, false)
  else if bool_decide (ch ∈ accessible) then (accessible, true)
  else match db_is_member with
       | Some true => (accessible ++ [ch], true)
       | _ => (accessible, false)
       end.

Definition build_search_channel_scope_filter (accessible : list Uuid) (include_global : bool) : option ChannelScope :=
  match accessible with
  | [] => if include_global then Some ChannelLessOnly else None
  | _ => Some (if include_global then ChannelsOrChannelLess accessible else ScopeChannels accessible)
  end.

(** ** Kinds *)

(** [kinds.is_some_and(|ks| !ks.is_empty() && ks.iter().all(..))]. *)
Definition only_kinds (p : N → bool) (f : ReqFilter) : bool :=
  match f_kinds f with Some (k :: ks) => forallb p (k :: ks) | _ => false end.

(** [kinds.is_none_or(|ks| ks.iter().any(..))]. *)
Definition can_match (ks : list N) (f : ReqFilter) : bool :=
  match f_kinds f with Some kinds => existsb (λ k, one_of k ks) kinds | None => true end.

Definition filters_are_nip43_membership_only (filters : list ReqFilter) : bool :=
  nonempty (Some filters) && forallb (only_kinds (N.eqb KIND_NIP43_MEMBERSHIP_LIST)) filters.

Definition filters_are_huddle_liveness_only (filters : list ReqFilter) : bool :=
  nonempty (Some filters)
  && forallb (λ f : ReqFilter, match f_kinds f with Some [k] => (k =? KIND_HUDDLE_LIVENESS)%N | _ => false end) filters.

Definition huddle_liveness_session_ids (filters : list ReqFilter) : list Uuid :=
  take MAX_EXPLICIT_CHANNEL_VALUES
    (foldl (λ acc f, push_channels acc (default [] (tag_set f "d"))) [] filters).

Definition filter_can_match_author_only_kinds : ReqFilter → bool := can_match AUTHOR_ONLY_KINDS.
Definition filter_can_match_shared_gated_kinds : ReqFilter → bool := can_match SHARED_GATED_KINDS.
Definition filter_can_match_result_gated_kinds : ReqFilter → bool := can_match RESULT_GATED_KINDS.

(** ** Gates *)

(** [!values.is_empty() && values.iter().all(|v| v == reader)] of a tag. *)
Definition only_tagged (letter reader : string) (f : ReqFilter) : bool :=
  match tag_set f letter with
  | Some values => nonempty (Some values) && forallb (String.eqb reader) values
  | None => false
  end.

(** [authors=[self]], compared without regard to case. *)
Definition authors_only (reader : string) (f : ReqFilter) : bool :=
  match f_authors f with
  | Some authors =>
      nonempty (Some authors)
      && forallb (λ a, String.eqb (to_ascii_lowercase a) (to_ascii_lowercase reader)) authors
  | None => false
  end.

Definition p_gated_filter_authorized (reader : string) (f : ReqFilter) : bool :=
  if negb (can_match P_GATED_KINDS f) then true
  else
  let explicitly_no_ids_exemption :=
    match f_kinds f with
    | Some ks => existsb (λ k, (k =? KIND_DM_VISIBILITY)%N || (k =? KIND_AGENT_TURN_METRIC)%N) ks
    | None => false
    end in
  if negb explicitly_no_ids_exemption && nonempty (f_ids f) then true else only_tagged "p" reader f.

Definition p_gated_filters_authorized (filters : list ReqFilter) (reader : string) : bool :=
  forallb (p_gated_filter_authorized reader) filters.

Definition engram_filter_authorized (reader : string) (f : ReqFilter) : bool :=
  if nonempty (f_ids f) then true
  else if negb (can_match [KIND_AGENT_ENGRAM] f) then true
  else authors_only reader f || only_tagged "p" reader f.

Definition engram_filters_authorized (filters : list ReqFilter) (reader : string) : bool :=
  forallb (engram_filter_authorized reader) filters.

Definition author_only_filter_authorized (reader : string) (f : ReqFilter) : bool :=
  if negb (only_kinds (λ k, one_of k AUTHOR_ONLY_KINDS) f) then true else authors_only reader f.

Definition author_only_filters_authorized (filters : list ReqFilter) (reader : string) : bool :=
  forallb (author_only_filter_authorized reader) filters.

Definition result_gated_count_safe_for_pushdown (f : ReqFilter) (reader : string) : bool := only_tagged "p" reader f.

Definition is_author_only_event (e : Event) (requester : string) : bool :=
  one_of (kind e) AUTHOR_ONLY_KINDS && bool_decide (pubkey e ≠ requester).

Definition event_visible_to_reader (e : Event) (requester : string) : bool :=
  if is_author_only_event e requester then false
  else if is_unshared_gated_event e requester then false
  else reader_authorized_for_event e requester.

(** ** Queries *)

Definition COUNT_FALLBACK_CANDIDATE_LIMIT : Z := 5000.

Definition apply_count_fallback_limit (q : EventQuery) : EventQuery :=
  set_limits (Some (COUNT_FALLBACK_CANDIDATE_LIMIT + 1)%Z) (Some (COUNT_FALLBACK_CANDIDATE_LIMIT + 1)%Z) q.

Definition count_fallback_exceeded (candidate_count : nat) : bool :=
  (COUNT_FALLBACK_CANDIDATE_LIMIT <? Z.of_nat candidate_count)%Z.

(** One entry of [generic_tags] that SQL cannot answer. *)
Definition tag_unpushable (is_nip33_only : bool) (key : string) (values : list string) : bool :=
  if String.eqb key "h" then false
  else if String.eqb key "p" then (1 <? length values)
  else if String.eqb key "d" then nonempty (Some values) && negb is_nip33_only
  else if String.eqb key "e" then false
  else nonempty (Some values).

Definition filter_fully_pushable (f : ReqFilter) : bool :=
  let is_nip33_only := only_kinds is_parameterized_replaceable f in
  negb (existsb (uncurry (tag_unpushable is_nip33_only)) (map_to_list (f_generic_tags f)))
  && bool_decide (rf_search f = None).

(** [filter_to_query_params].  [limit] is a [usize]: its cast to [i64] wraps. *)
Definition filter_to_query_params (f : ReqFilter) (channel_id : option Uuid) (c : Uuid) : EventQuery :=
  let since := f_since f ≫= λ s, from_timestamp (as_i64 s) in
  let until := f_until f ≫= λ u, from_timestamp (as_i64 u) in
  let limit := match rf_limit f with
               | Some l => Z.min (as_i64 l) DEFAULT_MAX_PAGE_LIMIT
               | None => DEFAULT_MAX_PAGE_LIMIT
               end in
  let '(pubkey, authors) := match f_authors f with
                            | Some [a] => (Some a, None)
                            | Some (a :: l) => (None, Some (a :: l))
                            | _ => (None, None)
                            end in
  let some_of (o : option (list string)) := match o with Some [] => None | _ => o end in
  let p_tag_hex := match tag_set f "p" with Some [v] => Some v | _ => None end in
  let '(d_tag, d_tags) := if only_kinds is_parameterized_replaceable f then
                            match tag_set f "d" with
                            | Some [v] => (Some v, None)
                            | Some (v :: l) => (None, Some (v :: l))
                            | _ => (None, None)
                            end
                          else (None, None) in
  mkEventQuery c channel_id (f_kinds f) pubkey since until (Some limit) None p_tag_hex d_tag d_tags None false
    authors (some_of (f_ids f)) (some_of (tag_set f "e")) None None true None None.

Definition build_event_query_from_filter (f : ReqFilter) (c : Uuid) : EventQuery :=
  filter_to_query_params f (extract_channel_id_from_filter f) c.

Definition apply_channel_scope_to_query (q : EventQuery) (f : ReqFilter) (channel_id : option Uuid)
    (accessible : list Uuid) : EventQuery :=
  match channel_id with
  | Some _ => q
  | None =>
      match tag_set f "h" with
      | Some values =>
          set_channels (Some (List.filter (λ id, bool_decide (id ∈ accessible)) (omap parse_uuid values))) false q
      | None => set_channels (Some accessible) (eq_include_global q) q
      end
  end.

End rules.
