(* ===== verification/ReadRun.v ===== *)
(** * ReadRun: the computations of the read path

A handler of the read path ([req.rs], [count.rs], [close.rs], [event.rs] under
[crates/buzz-relay/src/handlers/]) is a computation over a [ReadWorld]: the
state it shares with the other tasks of the process (the subscriptions of each
connection, the registry, the topics kept at Redis, the echo and observer
caches), the trace, and a log of what it read and sent.  Before each of its
calls the other tasks may change the shared state as the environment says.  A
read meets whatever tables the environment gives it (replicas may be behind)
and may fail; a cached answer is logged as the read it was filled from. *)
From stdpp Require Import pretty.
From S2P Require Import Conformance Prelude Text Encode Nostr Kind Roles Filter Subscription IngestRules IngestEnvelopes EventStore IngestRun ReadQuery ReadRules.

(** ** Connections ([connection.rs], [buzz-auth]) *)

Record AuthContext : Type := mkAuthContext {
  ac_pubkey : string;
  ac_scopes : list Scope;
  ac_channel_ids : option (list Uuid);
  ac_agent_owner : option string
}.

Inductive AuthState : Type := AuthPending | Authenticated (ctx : AuthContext) | AuthRejected.

Record ConnectionState : Type := mkConnection { conn_id : ConnId; conn_tenant : Tenant }.

(** [RelayMessage]: what goes to a client. *)
Inductive RelayMessage : Type :=
| MEvent (sub_id : string) (e : Event)
| MEose (sub_id : string)
| MNotice (text : string)
| MClosed (sub_id text : string)
| MOk (event_id : string) (accepted : bool) (text : string)
| MCount (sub_id : string) (count : N).

(** ** Topics ([buzz-pubsub]) *)

Inductive EventTopic : Type := TopicChannel (ch : Uuid) | TopicGlobal.

#[export] Instance EventTopic_eq_dec : EqDecision EventTopic.
Proof. solve_decision. Defined.
#[export] Instance EventTopic_countable : Countable EventTopic.
Proof.
  refine (inj_countable' (λ t, match t with TopicChannel c => Some c | TopicGlobal => None end)
    (λ o, match o with Some c => TopicChannel c | None => TopicGlobal end) _).
  by intros [].
Defined.

Abbreviation TopicKey := (Uuid * EventTopic)%type.

(** The new counts, and whether the subscriber is told. *)
Definition retain_count (k : TopicKey) (desired : gmap TopicKey N) : gmap TopicKey N * bool :=
  let count := default 0%N (desired !! k) in
  (<[k := (count + 1)%N]> desired, (count =? 0)%N).

Definition release_count (k : TopicKey) (desired : gmap TopicKey N) : gmap TopicKey N * bool :=
  match desired !! k with
  | None => (desired, false)
  | Some count => if (count - 1 =? 0)%N then (delete k desired, true) else (<[k := (count - 1)%N]> desired, false)
  end.

(** ** Reads *)

Inductive Read : Type → Type :=
| QAccessible (c : Uuid) (pk : string) : Read (list Uuid)
| QMember (c ch : Uuid) (pk : string) : Read bool
| QEvents (q : EventQuery) : Read (list StoredEvent)
| QCount (q : EventQuery) : Read N
| QByIds (c : Uuid) (ids : list string) : Read (list StoredEvent)
| QSearch (q : SearchQuery) : Read (list string)
| QCommunities (chs : list Uuid) : Read (gmap Uuid Uuid)
| QHuddleLinks (c : Uuid) (parents sessions : list Uuid) : Read (list (Uuid * Uuid * string))
| QChannel (c ch : Uuid) : Read ChannelRow
| QAgentOwner (c : Uuid) (agent owner : string) : Read bool
| QServing (c : Uuid) : Read bool.

(** What these handlers call of third-party crates. *)
Class ReadCrates : Type := {
  sign_with_keys : N → list Tag → string → result Event string;   (* [EventBuilder::sign_with_keys] *)
  json_text : list (string * string) → string;                    (* [serde_json::json!({..}).to_string()] *)
  json_status : string → option string;                           (* the text member [status] of an object *)
  json_encodes : Event → bool                                     (* [serde_json::to_string] succeeds *)
}.

Section reads.
Context {NT : NostrTags} {HO : HashOrder} {UT : UuidText} {RC : RelayCrates} {FT : FullText}.

Definition exec_read {A : Type} (q : Read A) (t : Tables) : result A DbError :=
  match q in Read A return result A DbError with
  | QAccessible c pk => Ok (get_accessible_channel_ids c pk t)
  | QMember c ch pk => Ok (is_member c ch pk t)
  | QEvents q => query_events q t
  | QCount q => Ok (count_events q t)
  | QByIds c ids => Ok (get_events_by_ids c ids t)
  | QSearch q => Ok (search q t)
  | QCommunities chs => Ok (communities_of_channels chs t)
  | QHuddleLinks c parents sessions =>
      Ok (if bool_decide (parents = []) || bool_decide (sessions = []) then [] else huddle_started_links c parents sessions t)
  | QChannel c ch => get_channel c ch t
  | QAgentOwner c agent owner => Ok (is_agent_owner c agent owner t)
  | QServing c => Ok (is_serving_active c t)
  end.

End reads.

(** ** The world *)

Record Shared : Type := mkShared {
  sh_subs : gmap ConnId (gmap SubId (list ReqFilter));   (* each connection's [subscriptions] *)
  sh_registry : SubscriptionRegistry;
  sh_topics : gmap TopicKey N;                            (* [desired_topics] *)
  sh_local_events : gset (Uuid * string);
  sh_observer_rate : gmap (Uuid * string) (N * N);        (* count and window start, in nanoseconds *)
  sh_observer_owner : gmap (Uuid * string * string) bool
}.

Inductive ReadEntry : Type :=
| RRead {A : Type} (q : Read A) (t : Tables) (res : result A DbError)
| RSend (conn : ConnId) (m : RelayMessage) (accepted : bool)
| RPrivate (c ch : Uuid)                       (* the visibility cache said private *)
| RSubscriber (k : TopicKey) (wanted : bool)   (* a command to the Redis subscriber *)
| RPublish (k : TopicKey) (e : Event)
| RFanOut (c : Uuid) (e : StoredEvent) (r : SubscriptionRegistry)   (* the registry [fan_out] saw *)
| RConn (conn : ConnId) (c : option Uuid)                           (* answers of [conn_manager] *)
| RConnKey (conn : ConnId) (pk : option string)
| ROwnerCached (c : Uuid) (agent owner : string) (is_owner : bool)   (* the observer cache answered *)
| RPresence (c : Uuid) (pk : string) (status : option string)
| RWorkflow (c : Uuid) (e : StoredEvent)
| RAudit (c : Uuid) (e : StoredEvent) (actor : string).

Record ReadWorld : Type := mkReadWorld {
  rw_calls : nat;
  rw_shared : Shared;
  rw_trace : list TraceStep;
  rw_log : list ReadEntry
}.

Record ReadEnv : Type := mkReadEnv {
  re_others : nat → Shared → Shared;              (* other tasks, before call [n] *)
  re_tables : nat → Tables;                       (* the tables read [n] meets *)
  re_fault : nat → option string;
  re_accessible_cached : nat → Uuid * string → option Tables;   (* a hit, and the tables it was filled from *)
  re_member_cached : nat → Uuid * Uuid * string → option Tables;
  re_private_cached : nat → Uuid * Uuid → bool;
  re_send : nat → bool;                           (* whether the buffer takes the frame *)
  re_auth : nat → AuthState;                      (* [auth_state_snapshot] of the connection *)
  re_tracing : bool;                              (* [tracer.enabled()] *)
  re_clock : nat → N;                             (* nanoseconds of the monotonic clock *)
  re_time : nat → Z;                              (* seconds of the wall clock *)
  re_publish : nat → option string;               (* an error of a Redis command *)
  (* [state.mesh()]: the lease of a session, if any: whether it is a huddle's, and its generation. *)
  re_mesh : option (nat → Uuid → Uuid → result (option (bool * N)) string);
  re_room_busy : nat → Uuid → Uuid → bool;        (* a room that is not empty *)
  re_generation : N;                              (* [huddle_liveness_generation] *)
  re_conn_community : nat → ConnId → option Uuid; (* [conn_manager] *)
  re_conn_pubkey : nat → ConnId → option string;
  re_verify : nat → option (result unit string);  (* [verify_event]; [None] when its task panics *)
  re_relay_pubkey : string;
  re_audit : bool                                 (* an audit queue is configured and open *)
}.

(** ** Computations *)

Definition ReadM (A : Type) : Type := ReadEnv → ReadWorld → A * ReadWorld.

#[global] Instance ReadM_ret : MRet ReadM := λ A a env w, (a, w).
#[global] Instance ReadM_bind : MBind ReadM := λ A B k m env w, let '(a, w') := m env w in k a env w'.

Definition rlog (x : ReadEntry) : ReadM unit := λ env w,
  (tt, mkReadWorld (rw_calls w) (rw_shared w) (rw_trace w) (rw_log w ++ [x])).

(** The next call: its number, after what other tasks did before it. *)
Definition rtick : ReadM nat := λ env w,
  (rw_calls w, mkReadWorld (S (rw_calls w)) (re_others env (rw_calls w) (rw_shared w)) (rw_trace w) (rw_log w)).

(** An answer of the environment. *)
Definition rask {A : Type} (f : ReadEnv → nat → A) : ReadM A :=
  λ env w, let '(n, w') := rtick env w in (f env n, w').

(** An atomic step on the shared state. *)
Definition rstep {A : Type} (f : Shared → A * Shared) : ReadM A :=
  λ env w, let w' := (rtick env w).2 in
  let '(a, s) := f (rw_shared w') in (a, mkReadWorld (rw_calls w') s (rw_trace w') (rw_log w')).

(** [tracer.record]: nothing when the tracer is off. *)
Definition rtrace (a : TraceAction) (s : AbstractState) : ReadM unit := λ env w,
  (tt, if re_tracing env then mkReadWorld (rw_calls w) (rw_shared w) (rw_trace w ++ [step_new a s]) (rw_log w) else w).

(** [conn.send(..)]. *)
Definition rsend (conn : ConnId) (m : RelayMessage) : ReadM bool :=
  ok ← rask re_send; _ ← rlog (RSend conn m ok); mret ok.

Fixpoint rfor_each {A : Type} (l : list A) (body : A → ReadM unit) : ReadM unit :=
  match l with
  | [] => mret tt
  | x :: l' => _ ← body x; rfor_each l' body
  end.

Section run.
Context {NT : NostrTags} {HO : HashOrder} {UT : UuidText} {RC : RelayCrates} {FT : FullText}.

Definition rread {A : Type} (q : Read A) : ReadM (result A DbError) :=
  λ env w, let '(n, w') := rtick env w in
  let t := re_tables env n in
  let res := match re_fault env n with Some text => Err (Sqlx text) | None => exec_read q t end in
  (res, (rlog (RRead q t res) env w').2).

(** [AppState]'s caches: a hit answers what was read from earlier tables. *)
Definition get_accessible_channel_ids_cached (c : Uuid) (pk : string) : ReadM (result (list Uuid) DbError) :=
  hit ← rask (λ env n, re_accessible_cached env n (c, pk));
  match hit with
  | Some t =>
      let res := exec_read (QAccessible c pk) t in
      _ ← rlog (RRead (QAccessible c pk) t res); mret res
  | None => rread (QAccessible c pk)
  end.

Definition is_member_cached (c ch : Uuid) (pk : string) : ReadM (result bool DbError) :=
  hit ← rask (λ env n, re_member_cached env n (c, ch, pk));
  match hit with
  | Some t =>
      let res := exec_read (QMember c ch pk) t in
      _ ← rlog (RRead (QMember c ch pk) t res); mret res
  | None => rread (QMember c ch pk)
  end.

(** [channel_visibility_cached] without a row at hand. *)
Definition channel_visibility_cached (c ch : Uuid) : ReadM (result string DbError) :=
  hit ← rask (λ env n, re_private_cached env n (c, ch));
  if hit : bool then _ ← rlog (RPrivate c ch); mret (Ok "private")
  else r ← rread (QChannel c ch); mret (let? row := r in Ok (ch_visibility row)).

(** [retain_topic] and [release_topic].  The unsubscription the latter asks for
after its debounce is logged at once; the subscriber drops it when the topic
is wanted again by then. *)
Definition retain_topic (c : Uuid) (topic : EventTopic) : ReadM unit :=
  first ← rstep (λ s, let '(d, first) := retain_count (c, topic) (sh_topics s) in
    (first, mkShared (sh_subs s) (sh_registry s) d (sh_local_events s) (sh_observer_rate s) (sh_observer_owner s)));
  if first : bool then rlog (RSubscriber (c, topic) true) else mret tt.

Definition release_topic (c : Uuid) (topic : EventTopic) : ReadM unit :=
  last ← rstep (λ s, let '(d, last) := release_count (c, topic) (sh_topics s) in
    (last, mkShared (sh_subs s) (sh_registry s) d (sh_local_events s) (sh_observer_rate s) (sh_observer_owner s)));
  if last : bool then rlog (RSubscriber (c, topic) false) else mret tt.

(** Updates of the shared state. *)
Definition with_subs (f : gmap ConnId (gmap SubId (list ReqFilter)) → gmap ConnId (gmap SubId (list ReqFilter)))
    (s : Shared) : Shared :=
  mkShared (f (sh_subs s)) (sh_registry s) (sh_topics s) (sh_local_events s) (sh_observer_rate s) (sh_observer_owner s).
Definition with_registry (r : SubscriptionRegistry) (s : Shared) : Shared :=
  mkShared (sh_subs s) r (sh_topics s) (sh_local_events s) (sh_observer_rate s) (sh_observer_owner s).
Definition with_local_events (l : gset (Uuid * string)) (s : Shared) : Shared :=
  mkShared (sh_subs s) (sh_registry s) (sh_topics s) l (sh_observer_rate s) (sh_observer_owner s).

End run.
