(* ===== verification/ReadPath.v ===== *)
(** * ReadPath: REQ, COUNT and CLOSE

Models [handle_req], [handle_search_req] and [handle_huddle_liveness_req] of
[crates/buzz-relay/src/handlers/req.rs], [handle_count] of [count.rs],
[handle_close] of [close.rs] and the trace of reads in [conformance/mod.rs].
The queries of a request's filters run ahead of their use, at most four at a
time; since each meets tables of its own and their results are used in the
order of the filters, they are read here when they are used. *)
From stdpp Require Import pretty.
From S2P Require Import Conformance Prelude Text Encode Nostr Kind Roles Filter Subscription IngestRules IngestEnvelopes EventStore IngestRun IngestThread Ingest ReadQuery ReadRules ReadRun.

Section read.
Context {NT : NostrTags} {HO : HashOrder} {UT : UuidText} {RC : RelayCrates} {FT : FullText} {TT : TraceText} {XC : ReadCrates}.

(** [let x = m; .. return]: [None] ends the handler. *)
Definition rthen {A B : Type} (m : ReadM (option A)) (k : A → ReadM (option B)) : ReadM (option B) :=
  o ← m; match o with Some a => k a | None => mret None end.

Definition finish {A : Type} (m : ReadM unit) : ReadM (option A) := _ ← m; mret None.

Definition closed (conn : ConnectionState) (sub_id text : string) : ReadM unit :=
  _ ← rsend (conn_id conn) (MClosed sub_id text); mret tt.
Definition eose (conn : ConnectionState) (sub_id : string) : ReadM unit :=
  _ ← rsend (conn_id conn) (MEose sub_id); mret tt.

(** ** The trace *)

Definition record_req_authcheck (s : AbstractState) (ch : Uuid) (member : bool) : ReadM unit :=
  rtrace (AuthCheck (channel_label ch) None (if member then Allow else Deny)) s.

Definition project_row_community (row_channel_id : option Uuid) (resolved : CommunityLabel) (m : gmap Uuid Uuid)
    : option CommunityLabel :=
  match row_channel_id with
  | None => Some resolved
  | Some ch => mkCommunity <$> m !! ch
  end.

(** [None] is [MissingLookup]. *)
Fixpoint project_row_communities (rows : list (option Uuid)) (resolved : CommunityLabel) (m : gmap Uuid Uuid)
    : option (list CommunityLabel) :=
  match rows with
  | [] => Some []
  | row :: rows' =>
      label ← project_row_community row resolved m;
      labels ← project_row_communities rows' resolved m;
      Some (label :: labels)
  end.

Definition record_rows (action : option ChannelLabel → list CommunityLabel → TraceAction) (s : AbstractState)
    (filter_channel : option Uuid) (rows : list (option Uuid)) (m : gmap Uuid Uuid) : ReadM unit :=
  match project_row_communities rows (resolved_community s) m with
  | Some labels => rtrace (action (channel_label <$> filter_channel) labels) s
  | None => rtrace (ImplBug "row_community_lookup_missing") s
  end.

(** The emit of both lanes: only when the tracer is on. *)
Definition trace_rows (action : option ChannelLabel → list CommunityLabel → TraceAction) (s : AbstractState)
    (filter_channel : option Uuid) (events : list StoredEvent) : ReadM unit :=
  enabled ← rask (λ env _, re_tracing env);
  if enabled : bool then
    let rows := map se_channel_id events in
    r ← rread (QCommunities (dedup_seen [] (omap (λ ch, ch) rows)));
    record_rows action s filter_channel rows (match r with Ok m => m | Err _ => ∅ end)
  else mret tt.

(** ** REQ *)

Definition MAX_SUBSCRIPTIONS : nat := 1024.

Definition req_auth (conn : ConnectionState) (sub_id : string) : ReadM (option AuthContext) :=
  auth ← rask re_auth;
  match auth with
  | Authenticated ctx =>
      if negb (bool_decide (ac_scopes ctx = [])) && negb (bool_decide (MessagesRead ∈ ac_scopes ctx)) then
        finish (_ ← rsend (conn_id conn) (MNotice "restricted: insufficient scope");
                closed conn sub_id "restricted: insufficient scope")
      else
      full ← rstep (λ s, let own := default ∅ (sh_subs s !! conn_id conn) in
        (bool_decide (own !! sub_id = None) && (MAX_SUBSCRIPTIONS <=? size own), s));
      if full : bool then finish (closed conn sub_id "error: too many subscriptions") else mret (Some ctx)
  | _ =>
      finish (_ ← rsend (conn_id conn) (MNotice "auth-required: authenticate before subscribing");
              closed conn sub_id "auth-required: not authenticated")
  end.

Definition token_allows (ctx : AuthContext) (ch : Uuid) : bool :=
  match ac_channel_ids ctx with Some allowed => bool_decide (ch ∈ allowed) | None => true end.

(** The reader's channels, narrowed to the token's. *)
Definition load_accessible (conn : ConnectionState) (sub_id : string) (ctx : AuthContext) (skip : bool)
    : ReadM (option (list Uuid)) :=
  if skip then mret (Some [])
  else
  r ← get_accessible_channel_ids_cached (community (conn_tenant conn)) (ac_pubkey ctx);
  match r with
  | Ok ids => mret (Some (List.filter (token_allows ctx) ids))
  | Err _ => finish (closed conn sub_id "error: database error")
  end.

(** The confirmation of requested channels that are not in the list; COUNT's
is the same without the trace. *)
Fixpoint confirm_channels (traced : option AbstractState) (conn : ConnectionState) (sub_id : string) (ctx : AuthContext)
    (requested accessible : list Uuid) : ReadM (option (list Uuid)) :=
  match requested with
  | [] => mret (Some accessible)
  | ch :: rest =>
      let allowed := token_allows ctx ch in
      if negb allowed || bool_decide (ch ∈ accessible) then
        confirm_channels traced conn sub_id ctx rest (resolve_request_local_access accessible ch allowed None).1
      else
      r ← rread (QMember (community (conn_tenant conn)) ch (ac_pubkey ctx));
      match r with
      | Ok member =>
          _ ← match traced with Some s => record_req_authcheck s ch member | None => mret tt end;
          confirm_channels traced conn sub_id ctx rest
            (resolve_request_local_access accessible ch allowed (Some member)).1
      | Err _ => finish (closed conn sub_id "error: database error")
      end
  end.

(** The gates on sensitive kinds. *)
Definition req_gates (conn : ConnectionState) (sub_id reader : string) (filters : list ReqFilter) : ReadM (option unit) :=
  if negb (p_gated_filters_authorized filters reader) then
    finish (closed conn sub_id "restricted: p-gated events require #p matching your pubkey")
  else if negb (engram_filters_authorized filters reader) then
    finish (closed conn sub_id "restricted: agent-engram reads require authors=[self] or #p=[self]")
  else if negb (author_only_filters_authorized filters reader) then
    finish (closed conn sub_id "restricted: author-only kinds require authors=[self]")
  else mret (Some tt).

(** Whether a row may go out for filter [f]. *)
Definition accepts_row (f : ReqFilter) (accessible : list Uuid) (reader : string) (stored : StoredEvent) : bool :=
  filters_match [rf_filter f] stored
  && match se_channel_id stored with Some ch => bool_decide (ch ∈ accessible) | None => true end
  && event_visible_to_reader (se_event stored) reader.

(** The rows of one filter; [None] when the connection takes no more. *)
Fixpoint deliver_rows (conn : ConnectionState) (sub_id : string) (f : ReqFilter) (accessible : list Uuid)
    (reader : string) (seen : gset string) (rows : list StoredEvent) : ReadM (option (gset string)) :=
  match rows with
  | [] => mret (Some seen)
  | stored :: rows' =>
      let e := se_event stored in
      if negb (accepts_row f accessible reader stored) || bool_decide (id e ∈ seen) then
        deliver_rows conn sub_id f accessible reader seen rows'
      else
      ok ← rsend (conn_id conn) (MEvent sub_id e);
      if ok : bool then deliver_rows conn sub_id f accessible reader ({[id e]} ∪ seen) rows' else mret None
  end.

Definition filter_channel (f : ReqFilter) (channel_id : option Uuid) : option Uuid :=
  match extract_channel_id_from_filter f with Some c => Some c | None => channel_id end.

Definition filter_query (c : Uuid) (reader : string) (f : ReqFilter) (before_id : option string)
    (channel_id : option Uuid) (accessible : list Uuid) : EventQuery :=
  let per_filter := filter_channel f channel_id in
  let q := set_before_id before_id (filter_to_query_params f per_filter c) in
  let q := apply_channel_scope_to_query q f per_filter accessible in
  if filter_can_match_shared_gated_kinds f then set_shared_reader (Some reader) q else q.

(** History: filter by filter. *)
Fixpoint history (conn : ConnectionState) (sub_id reader : string) (s : AbstractState) (channel_id : option Uuid)
    (accessible : list Uuid) (seen : gset string) (filters : list (ReqFilter * option string)) : ReadM unit :=
  match filters with
  | [] => eose conn sub_id
  | (f, before_id) :: filters' =>
      r ← rread (QEvents (filter_query (community (conn_tenant conn)) reader f before_id channel_id accessible));
      match r with
      | Err _ => eose conn sub_id
      | Ok rows =>
          _ ← trace_rows ReadMessageRows s (filter_channel f channel_id) rows;
          sent ← deliver_rows conn sub_id f accessible reader seen rows;
          match sent with
          | Some seen' => history conn sub_id reader s channel_id accessible seen' filters'
          | None => mret tt
          end
      end
  end.

(** ** Search *)

Definition SEARCH_PAGE_SIZE : nat := 100.
Definition MAX_SEARCH_PAGES : nat := 10.

(** [get_by_id] of the events of one page: the last row of an id wins. *)
Definition event_map (events : list StoredEvent) : gmap string StoredEvent :=
  foldl (λ m ev, <[id (se_event ev) := ev]> m) ∅ events.

Fixpoint deliver_hits (conn : ConnectionState) (sub_id : string) (f : ReqFilter) (accessible : list Uuid)
    (reader : string) (limit emitted : N) (seen : gset string) (m : gmap string StoredEvent) (hits : list string)
    : ReadM (option (N * gset string)) :=
  match hits with
  | [] => mret (Some (emitted, seen))
  | hit :: hits' =>
      if (limit <=? emitted)%N then mret (Some (emitted, seen))
      else
      match m !! hit with
      | None => deliver_hits conn sub_id f accessible reader limit emitted seen m hits'
      | Some stored =>
          let e := se_event stored in
          if negb (accepts_row f accessible reader stored) || bool_decide (id e ∈ seen) then
            deliver_hits conn sub_id f accessible reader limit emitted seen m hits'
          else
          ok ← rsend (conn_id conn) (MEvent sub_id e);
          if ok : bool then
            deliver_hits conn sub_id f accessible reader limit (emitted + 1) ({[id e]} ∪ seen) m hits'
          else mret None
      end
  end.

Definition search_query (c : Uuid) (f : ReqFilter) (text : string) (scope : ChannelScope) (page : nat) : SearchQuery :=
  let some_of {A : Type} (o : option (list A)) := match o with Some [] => None | _ => o end in
  mkSearchQuery c text scope (some_of (f_kinds f)) (some_of (f_authors f)) (as_i64 <$> f_since f) (as_i64 <$> f_until f)
    (N.of_nat page) (N.of_nat SEARCH_PAGE_SIZE).

(** The pages of one filter; [None] when the handler ends. *)
Fixpoint search_pages (conn : ConnectionState) (sub_id : string) (f : ReqFilter) (accessible : list Uuid)
    (reader : string) (s : AbstractState) (text : string) (scope : ChannelScope) (limit emitted : N)
    (seen : gset string) (pages : list nat) : ReadM (option (gset string)) :=
  match pages with
  | [] => mret (Some seen)
  | page :: pages' =>
      if (limit <=? emitted)%N then mret (Some seen)
      else
      r ← rread (QSearch (search_query (community (conn_tenant conn)) f text scope page));
      match r with
      | Err _ => mret (Some seen)
      | Ok [] => mret (Some seen)
      | Ok hits =>
          r ← rread (QByIds (community (conn_tenant conn)) hits);
          match r with
          | Err _ => mret (Some seen)
          | Ok events =>
              _ ← trace_rows ReadByIdRows s None events;
              sent ← deliver_hits conn sub_id f accessible reader limit emitted seen (event_map events) hits;
              match sent with
              | None => mret None
              | Some (emitted', seen') =>
                  if length hits <? SEARCH_PAGE_SIZE then mret (Some seen')
                  else search_pages conn sub_id f accessible reader s text scope limit emitted' seen' pages'
              end
          end
      end
  end.

(** [l as u32] wraps. *)
Definition search_limit (f : ReqFilter) : N :=
  match rf_limit f with Some l => N.min (l mod 4294967296) 1000 | None => 1000%N end.

(** The channels a filter's search covers; [None] skips the filter. *)
Definition search_scope (f : ReqFilter) (accessible : list Uuid) (all_channels : ChannelScope) : option ChannelScope :=
  match tag_set f "h" with
  | Some (v :: vs) =>
      match List.filter (λ ch, bool_decide (ch ∈ accessible)) (omap parse_uuid (v :: vs)) with
      | [] => None
      | valid => Some (ScopeChannels valid)
      end
  | _ => Some all_channels
  end.

Fixpoint search_filters (conn : ConnectionState) (sub_id : string) (accessible : list Uuid) (reader : string)
    (s : AbstractState) (all_channels : ChannelScope) (seen : gset string) (filters : list ReqFilter) : ReadM unit :=
  match filters with
  | [] => eose conn sub_id
  | f :: filters' =>
      let text := default "" (rf_search f) in
      if String.eqb text "" then search_filters conn sub_id accessible reader s all_channels seen filters'
      else if (search_limit f =? 0)%N then search_filters conn sub_id accessible reader s all_channels seen filters'
      else
      match search_scope f accessible all_channels with
      | None => search_filters conn sub_id accessible reader s all_channels seen filters'
      | Some scope =>
          sent ← search_pages conn sub_id f accessible reader s text scope (search_limit f) 0 seen (seq 1 MAX_SEARCH_PAGES);
          match sent with
          | Some seen' => search_filters conn sub_id accessible reader s all_channels seen' filters'
          | None => mret tt
          end
      end
  end.

Definition handle_search_req (conn : ConnectionState) (sub_id : string) (filters : list ReqFilter)
    (accessible : list Uuid) (include_global : bool) (reader : string) (s : AbstractState) : ReadM unit :=
  match build_search_channel_scope_filter accessible include_global with
  | Some all_channels => search_filters conn sub_id accessible reader s all_channels ∅ filters
  | None => eose conn sub_id
  end.

(** ** Huddle liveness *)

(** The generation a live huddle shows; [None] skips the session, an error ends
the request. *)
Definition huddle_generation (c session_id : Uuid) : ReadM (result (option N) string) :=
  mesh ← rask (λ env n, (λ lookup_lease, lookup_lease n c session_id) <$> re_mesh env);
  match mesh with
  | Some (Ok (Some (true, generation))) => mret (Ok (Some generation))
  | Some (Ok _) => mret (Ok None)
  | Some (Err e) => mret (Err e)
  | None =>
      busy ← rask (λ env n, re_room_busy env n c session_id);
      generation ← rask (λ env _, re_generation env);
      mret (Ok (if busy : bool then Some generation else None))
  end.

Definition liveness_event (session_id parent : Uuid) (generation : N) : result Event string :=
  sign_with_keys KIND_HUDDLE_LIVENESS [["d"; uuid_to_string session_id]; ["h"; uuid_to_string parent]]
    (json_text [("ephemeral_channel_id", uuid_to_string session_id); ("generation", pretty generation)]).

Fixpoint send_liveness (conn : ConnectionState) (sub_id : string) (links : list (Uuid * Uuid * string)) : ReadM unit :=
  match links with
  | [] => eose conn sub_id
  | (session_id, parent, _) :: links' =>
      g ← huddle_generation (community (conn_tenant conn)) session_id;
      match g with
      | Err _ => closed conn sub_id "error: liveness unavailable"
      | Ok None => send_liveness conn sub_id links'
      | Ok (Some generation) =>
          match liveness_event session_id parent generation with
          | Err _ => closed conn sub_id "error: signing failed"
          | Ok e =>
              ok ← rsend (conn_id conn) (MEvent sub_id e);
              if ok : bool then send_liveness conn sub_id links' else mret tt
          end
      end
  end.

Definition handle_huddle_liveness_req (conn : ConnectionState) (sub_id : string) (filters : list ReqFilter)
    (parents : list Uuid) : ReadM unit :=
  if bool_decide (parents = []) then
    closed conn sub_id "restricted: huddle liveness requires an authorized #h channel"
  else
  r ← rread (QHuddleLinks (community (conn_tenant conn)) parents (huddle_liveness_session_ids filters));
  match r with
  | Err _ => closed conn sub_id "error: database error"
  | Ok links => send_liveness conn sub_id links
  end.

(** ** Registration *)

Definition scope_topics (s : SubscriptionScope) : list EventTopic :=
  match s with Global => [TopicGlobal] | Channels chs => map TopicChannel chs end.

(** [release_subscription_topics]. *)
Definition release_subscription_topics (conn : ConnectionState) (scope : SubscriptionScope) : ReadM unit :=
  rfor_each (scope_topics scope) (release_topic (community (conn_tenant conn))).

Definition register_subscription (conn : ConnectionState) (sub_id : string) (filters : list ReqFilter)
    (authorized : option (list Uuid)) : ReadM unit :=
  let c := community (conn_tenant conn) in
  _ ← rstep (λ s, (tt, with_subs (λ m, <[conn_id conn := <[sub_id := filters]> (default ∅ (m !! conn_id conn))]> m) s));
  replaced ← rstep (λ s,
    let '(removed, r) := match authorized with
      | Some chs => register_channels_scoped c (conn_id conn) sub_id (map rf_filter filters) chs (sh_registry s)
      | None => register_scoped c (conn_id conn) sub_id (map rf_filter filters) None (sh_registry s)
      end in (removed, with_registry r s));
  _ ← match replaced with Some removed => release_subscription_topics conn (rs_scope removed) | None => mret tt end;
  rfor_each (scope_topics (match authorized with Some chs => Channels chs | None => Global end)) (retain_topic c).

(** After the channels are confirmed. *)
Definition req_authorized (conn : ConnectionState) (sub_id : string) (filters : list ReqFilter)
    (before_ids : list (option string)) (ctx : AuthContext) (s : AbstractState) (authorized : option (list Uuid))
    (accessible : list Uuid) : ReadM (option unit) :=
  let reader := ac_pubkey ctx in
  let channel_id := extract_channel_id_from_filters filters in
  if bool_decide (authorized = Some []) then finish (closed conn sub_id "restricted: not a channel member")
  else if filters_are_huddle_liveness_only filters then
    finish (handle_huddle_liveness_req conn sub_id filters (default [] authorized))
  else
  rthen (if bool_decide (channel_id = None) then req_gates conn sub_id reader filters else mret (Some tt)) (λ _,
  if existsb (λ f, bool_decide (is_Some (rf_search f))) filters then
    if existsb (λ f, bool_decide (rf_search f = None)) filters then
      finish (closed conn sub_id "error: mixed search and non-search filters not supported")
    else finish (handle_search_req conn sub_id filters accessible (bool_decide (ac_channel_ids ctx = None)) reader s)
  else
  _ ← register_subscription conn sub_id filters authorized;
  finish (history conn sub_id reader s channel_id accessible ∅
    (imap (λ i f, (f, before_ids !! i ≫= λ b, b)) filters))).

Definition handle_req (conn : ConnectionState) (sub_id : string) (filters : list ReqFilter)
    (before_ids : list (option string)) : ReadM (option unit) :=
  rthen (req_auth conn sub_id) (λ ctx,
  match extract_channel_ids_from_filters_limited filters with
  | Err _ => finish (closed conn sub_id "restricted: too many explicit channels")
  | Ok requested =>
      rthen (load_accessible conn sub_id ctx (filters_are_nip43_membership_only filters)) (λ accessible,
      let s := state_for_request (conn_tenant conn) (ac_pubkey ctx) in
      rthen (confirm_channels (Some s) conn sub_id ctx (default [] requested) accessible) (λ accessible,
      let authorized := List.filter (λ ch, bool_decide (ch ∈ accessible)) <$> requested in
      req_authorized conn sub_id filters before_ids ctx s authorized accessible))
  end).

(** ** COUNT *)

(** The query of one filter, and whether SQL counts it alone. *)
Definition count_by_sql (f : ReqFilter) (reader : string) : bool :=
  let needs_author_only_filtering := filter_can_match_author_only_kinds f in
  let needs_shared_gate_filtering := filter_can_match_shared_gated_kinds f in
  let needs_result_gated_filtering :=
    filter_can_match_result_gated_kinds f && negb (result_gated_count_safe_for_pushdown f reader) in
  filter_fully_pushable f && (negb needs_author_only_filtering || authors_only reader f)
  && negb needs_result_gated_filtering && negb needs_shared_gate_filtering.

Definition count_shared (f : ReqFilter) (reader : string) (q : EventQuery) : EventQuery :=
  if filter_can_match_shared_gated_kinds f then set_shared_reader (Some reader) q else q.

(** Both ways of counting, on a query with its channels set. *)
Definition run_count (conn : ConnectionState) (sub_id reader : string) (f : ReqFilter) (q : EventQuery)
    : ReadM (option N) :=
  if count_by_sql f reader then
    r ← rread (QCount q);
    match r with
    | Ok n => mret (Some n)
    | Err e => finish (closed conn sub_id ("error: " +:+ db_error_to_string e))
    end
  else
  r ← rread (QEvents (apply_count_fallback_limit q));
  match r with
  | Ok rows =>
      if count_fallback_exceeded (length rows) then
        finish (closed conn sub_id "restricted: count filter requires narrower constraints")
      else
        mret (Some (N.of_nat (length (List.filter (λ se, filters_match [rf_filter f] se
          && event_visible_to_reader (se_event se) reader) rows))))
  | Err e => finish (closed conn sub_id ("error: " +:+ db_error_to_string e))
  end.

(** One filter: the confirmed channels, and its count. *)
Definition count_filter (conn : ConnectionState) (sub_id : string) (ctx : AuthContext) (f : ReqFilter)
    (accessible : list Uuid) : ReadM (option (list Uuid * N)) :=
  let c := community (conn_tenant conn) in
  let reader := ac_pubkey ctx in
  match extract_channel_ids_from_filters [f] with
  | Some requested =>
      rthen (confirm_channels None conn sub_id ctx requested accessible) (λ accessible,
      match List.filter (λ ch, bool_decide (ch ∈ accessible)) requested with
      | [] => mret (Some (accessible, 0%N))
      | first :: _ =>
          let ch_id := if length requested =? 1 then Some first else None in
          let q := apply_channel_scope_to_query (build_event_query_from_filter f c) f ch_id accessible in
          rthen (run_count conn sub_id reader f (count_shared f reader q)) (λ n, mret (Some (accessible, n)))
      end)
  | None =>
      let q := build_event_query_from_filter f c in
      let q := count_shared f reader (set_channels (Some accessible) (eq_include_global q) q) in
      let q := if count_by_sql f reader then set_limits None (eq_max_limit q) q else q in
      rthen (run_count conn sub_id reader f q) (λ n, mret (Some (accessible, n)))
  end.

Fixpoint count_filters (conn : ConnectionState) (sub_id : string) (ctx : AuthContext) (accessible : list Uuid)
    (total : N) (filters : list ReqFilter) : ReadM (option N) :=
  match filters with
  | [] => mret (Some total)
  | f :: filters' =>
      rthen (count_filter conn sub_id ctx f accessible) (λ an,
        count_filters conn sub_id ctx an.1 (total + an.2) filters')
  end.

Definition count_gates (conn : ConnectionState) (sub_id reader : string) (filters : list ReqFilter) : ReadM (option unit) :=
  if negb (p_gated_filters_authorized filters reader) then
    finish (closed conn sub_id "restricted: p-gated kinds require #p tag matching your pubkey")
  else if negb (engram_filters_authorized filters reader) then
    finish (closed conn sub_id "restricted: agent-engram reads require authors=[self] or #p=[self]")
  else if negb (author_only_filters_authorized filters reader) then
    finish (closed conn sub_id "restricted: author-only kinds require authors=[self]")
  else mret (Some tt).

Definition handle_count (conn : ConnectionState) (sub_id : string) (filters : list ReqFilter) : ReadM (option unit) :=
  auth ← rask re_auth;
  match auth with
  | Authenticated ctx =>
      rthen (count_gates conn sub_id (ac_pubkey ctx) filters) (λ _,
      match extract_channel_ids_from_filters_limited filters with
      | Err _ => finish (closed conn sub_id "restricted: too many explicit channels")
      | Ok _ =>
          rthen (load_accessible conn sub_id ctx false) (λ accessible,
          rthen (count_filters conn sub_id ctx accessible 0 filters) (λ total,
          finish (_ ← rsend (conn_id conn) (MCount sub_id total); mret tt)))
      end)
  | _ => finish (closed conn sub_id "auth-required: not authenticated")
  end.

(** ** CLOSE *)

Definition handle_close (conn : ConnectionState) (sub_id : string) : ReadM unit :=
  _ ← rstep (λ s, (tt, with_subs (λ m, alter (delete sub_id) (conn_id conn) m) s));
  removed ← rstep (λ s, let '(removed, r) := remove_subscription (conn_id conn) sub_id (sh_registry s) in
    (removed, with_registry r s));
  _ ← match removed with Some removed => release_subscription_topics conn (rs_scope removed) | None => mret tt end;
  closed conn sub_id "".

(** The end of a connection ([connection.rs]): its subscriptions go, and the
topics they held. *)
Definition release_connection (conn : ConnectionState) : ReadM unit :=
  removed ← rstep (λ s, let '(removed, r) := remove_connection (conn_id conn) (sh_registry s) in
    (removed, with_registry r s));
  rfor_each removed (λ removed, release_subscription_topics conn (rs_scope removed)).

End read.
