(* ===== verification/FanOut.v ===== *)
(** * FanOut: live delivery

Models [crates/buzz-relay/src/handlers/event.rs]: the access gate of every
live delivery, the three paths that send through it (a stored event, an event
that arrives over Redis, an ephemeral one), ephemeral events, observer frames,
and the dispatch of a client's EVENT frame.  Spawned tasks run where they are
spawned; what happens before they do is among what other tasks do. *)
From stdpp Require Import pretty.
From S2P Require Import Conformance Prelude Text Encode Nostr Kind Roles Filter Subscription IngestRules IngestEnvelopes EventStore IngestRun IngestThread Ingest ReadQuery ReadRules ReadRun ReadPath.

Section fanout.
Context {NT : NostrTags} {HO : HashOrder} {UT : UuidText} {RC : RelayCrates} {FT : FullText} {TT : TraceText} {XC : ReadCrates}.

(** ** The connection manager *)

Definition community_for_conn (conn : ConnId) : ReadM (option Uuid) :=
  c ← rask (λ env n, re_conn_community env n conn); _ ← rlog (RConn conn c); mret c.

Definition pubkey_for_conn (conn : ConnId) : ReadM (option string) :=
  pk ← rask (λ env n, re_conn_pubkey env n conn); _ ← rlog (RConnKey conn pk); mret pk.

(** [into_iter().filter(..).collect()] with a test that reads. *)
Fixpoint rfilter {A : Type} (test : A → ReadM bool) (l : list A) : ReadM (list A) :=
  match l with
  | [] => mret []
  | x :: l' => keep ← test x; rest ← rfilter test l'; mret (if keep : bool then x :: rest else rest)
  end.

(** ** The access gate *)

Definition same_community (c : Uuid) (m : Sub) : ReadM bool :=
  answer ← community_for_conn m.1; mret (bool_decide (answer = Some c)).

Definition is_author_conn (e : Event) (m : Sub) : ReadM bool :=
  pk ← pubkey_for_conn m.1; mret (bool_decide (pk = Some (pubkey e))).

Definition may_read_shared (e : Event) (m : Sub) : ReadM bool :=
  pk ← pubkey_for_conn m.1;
  mret (match pk with
        | None => false
        | Some pk => bool_decide (pk = pubkey e) || negb (is_unshared_gated_event e pk)
        end).

Definition is_member_conn (c ch : Uuid) (m : Sub) : ReadM bool :=
  pk ← pubkey_for_conn m.1;
  match pk with
  | None => mret false
  | Some pk => r ← is_member_cached c ch pk; mret (match r with Ok b => b | Err _ => false end)
  end.

(** The visibility: threaded when it is of this very channel, else looked up. *)
Definition fanout_visibility (c ch : Uuid) (threaded : option ThreadedChannelVisibility) : ReadM (result string DbError) :=
  match threaded with
  | Some t =>
      if bool_decide (tv_community t = c) && bool_decide (tv_channel t = ch) then mret (Ok (tv_visibility t))
      else channel_visibility_cached c ch
  | None => channel_visibility_cached c ch
  end.

Definition filter_fanout_by_access (c : Uuid) (ev : StoredEvent) (matches : list Sub)
    (threaded : option ThreadedChannelVisibility) : ReadM (list Sub) :=
  let e := se_event ev in
  matches ← rfilter (same_community c) matches;
  matches ← (if one_of (kind e) AUTHOR_ONLY_KINDS then rfilter (is_author_conn e) matches else mret matches);
  matches ← (if is_shared_gated_kind (kind e) then rfilter (may_read_shared e) matches else mret matches);
  match se_channel_id ev with
  | None => mret matches
  | Some ch =>
      v ← fanout_visibility c ch threaded;
      match v with
      | Err _ => mret []
      | Ok visibility =>
          if bool_decide (visibility ≠ "private") then mret matches
          else rfilter (is_member_conn c ch) matches
      end
  end.

(** ** Sending *)

Definition fan_out (c : Uuid) (ev : StoredEvent) : ReadM (list Sub) :=
  r ← rstep (λ s, (sh_registry s, s));
  _ ← rlog (RFanOut c ev r);
  mret (fan_out_scoped c ev r).

Definition send_fanout_frames (e : Event) (recipients : list Sub) : ReadM unit :=
  rfor_each recipients (λ m, _ ← rsend m.1 (MEvent m.2 e); mret tt).

Definition fan_out_event_to_local_subscribers (c : Uuid) (ev : StoredEvent) : ReadM unit :=
  matches ← fan_out c ev;
  matches ← filter_fanout_by_access c ev matches None;
  if bool_decide (matches = []) then mret tt
  else if negb (json_encodes (se_event ev)) then mret tt
  else send_fanout_frames (se_event ev) matches.

(** The echo cache. *)
Definition mark_local_event (c : Uuid) (event_id : string) : ReadM unit :=
  rstep (λ s, (tt, with_local_events ({[(c, event_id)]} ∪ sh_local_events s) s)).
Definition invalidate_local_event (c : Uuid) (event_id : string) : ReadM unit :=
  rstep (λ s, (tt, with_local_events (sh_local_events s ∖ {[(c, event_id)]}) s)).

Definition topic_channel (t : EventTopic) : option Uuid :=
  match t with TopicChannel ch => Some ch | TopicGlobal => None end.
Definition channel_topic (ch : option Uuid) : EventTopic :=
  match ch with Some ch => TopicChannel ch | None => TopicGlobal end.

Definition now_secs : ReadM N := t ← rask re_time; mret (Z.to_N t).

(** [fan_out_pubsub_event]: an event from another process of the cluster. *)
Definition fan_out_pubsub_event (c : Uuid) (topic : EventTopic) (e : Event) : ReadM unit :=
  now ← now_secs;
  let stored := StoredEvent_new now e (topic_channel topic) in
  echo ← rstep (λ s, (bool_decide ((c, id e) ∈ sh_local_events s), s));
  if echo : bool then invalidate_local_event c (id e)
  else fan_out_event_to_local_subscribers c stored.

(** [publish_event] at Redis, marked as local first; an error unmarks it. *)
Definition publish_event (c : Uuid) (topic : EventTopic) (e : Event) : ReadM unit :=
  _ ← mark_local_event c (id e);
  r ← rask re_publish;
  match r with
  | Some _ => invalidate_local_event c (id e)
  | None => rlog (RPublish (c, topic) e)
  end.

(** The owner a private event is for: the first [p] tag with a content. *)
Definition private_event_owner (e : Event) : option string :=
  if (kind e =? KIND_DM_VISIBILITY)%N || (kind e =? KIND_AGENT_TURN_METRIC)%N
  then head (tag_values "p" e) else None.

Definition is_owner_conn (owner : option string) (m : Sub) : ReadM bool :=
  match owner with
  | None => mret true
  | Some owner => pk ← pubkey_for_conn m.1; mret (bool_decide (pk = Some owner))
  end.

Definition enqueue_event_created_audit (c : Uuid) (ev : StoredEvent) (actor : string) : ReadM unit :=
  on ← rask (λ env _, re_audit env);
  if on : bool then rlog (RAudit c ev actor) else mret tt.

Definition is_relay_workflow_msg (relay_pubkey : string) (e : Event) : bool :=
  bool_decide (pubkey e = relay_pubkey) && existsb (named "buzz:workflow") (tags e).

(** [dispatch_persistent_event_inner]. *)
Definition dispatch_persistent_event_inner (t : Tenant) (ev : StoredEvent) (actor : string) (enqueue_audit : bool)
    (threaded : option ThreadedChannelVisibility) : ReadM unit :=
  let c := community t in
  let e := se_event ev in
  _ ← publish_event c (channel_topic (se_channel_id ev)) e;
  matches ← fan_out c ev;
  matches ← filter_fanout_by_access c ev matches threaded;
  if negb (json_encodes e) then mret tt
  else
  recipients ← rfilter (is_owner_conn (private_event_owner e)) matches;
  _ ← send_fanout_frames e recipients;
  _ ← (if enqueue_audit then enqueue_event_created_audit c ev actor else mret tt);
  relay ← rask (λ env _, re_relay_pubkey env);
  if negb (is_workflow_execution_kind (kind e)) && negb (is_command_kind (kind e))
     && negb (is_relay_workflow_msg relay e) && negb (kind e =? KIND_GIFT_WRAP)%N
  then rlog (RWorkflow c ev) else mret tt.

Definition dispatch_persistent_event (t : Tenant) (ev : StoredEvent) (actor : string)
    (threaded : option ThreadedChannelVisibility) : ReadM unit :=
  _ ← enqueue_event_created_audit (community t) ev actor;
  dispatch_persistent_event_inner t ev actor false threaded.

(** ** Ephemeral events *)

Definition verify_spawned : ReadM (result unit IngestError) :=
  r ← rask re_verify;
  mret (match r with
        | Some (Ok _) => Ok tt
        | Some (Err e) => Err (Rejected ("invalid: " +:+ e))
        | None => Err (Internal "error: internal error")
        end).

(** The text of a presence update: legacy objects, and at most 128 bytes of a
bare text, cut at a character. *)
Fixpoint cut_at_boundary (fuel limit : nat) (s : string) : string :=
  match fuel with
  | 0 => str_take limit s
  | S fuel' =>
      match String.get limit s with
      | Some c => if is_continuation c then cut_at_boundary fuel' (limit - 1) s else str_take limit s
      | None => str_take limit s
      end
  end.

Definition presence_status (raw : string) : string :=
  if starts_with "{" raw then default raw (json_status raw)
  else if 128 <? String.length raw then cut_at_boundary 128 128 raw
  else raw.

(** [set_presence] and [clear_presence]. *)
Definition update_presence (c : Uuid) (pk status : string) : ReadM (result unit IngestError) :=
  r ← rask re_publish;
  match r with
  | Some _ => mret (Err (Internal "error: presence storage unavailable"))
  | None =>
      _ ← rlog (RPresence c pk (if String.eqb status "offline" then None else Some status)); mret (Ok tt)
  end.

(** [check_channel_membership] without a row. *)
Definition sender_may_write (c ch : Uuid) (pk : string) : ReadM (result unit string) :=
  r ← is_member_cached c ch pk;
  match r with
  | Ok true => mret (Ok tt)
  | Ok false =>
      r ← rread (QChannel c ch);
      mret (match r with
            | Ok row => if bool_decide (ch_visibility row = "open") then Ok tt else Err "restricted: not a channel member"
            | Err _ => Err "restricted: not a channel member"
            end)
  | Err e => mret (Err ("error: database error: " +:+ db_error_to_string e))
  end.

Definition handle_ephemeral_event (t : Tenant) (e : Event) (auth_pubkey : string) : ReadM (result unit IngestError) :=
  let c := community t in
  v ← verify_spawned;
  match v with
  | Err err => mret (Err err)
  | Ok _ =>
      p ← (if (kind e =? KIND_PRESENCE_UPDATE)%N then update_presence c auth_pubkey (presence_status (content e))
           else mret (Ok tt));
      match p with
      | Err err => mret (Err err)
      | Ok _ =>
          match extract_channel_id parse_uuid e with
          | Some ch =>
              m ← sender_may_write c ch auth_pubkey;
              match m with
              | Err text => mret (Err (Rejected text))
              | Ok _ =>
                  _ ← publish_event c (TopicChannel ch) e;
                  now ← now_secs;
                  _ ← fan_out_event_to_local_subscribers c (StoredEvent_new now e (Some ch));
                  mret (Ok tt)
              end
          | None =>
              _ ← publish_event c TopicGlobal e;
              now ← now_secs;
              _ ← fan_out_event_to_local_subscribers c (StoredEvent_new now e None);
              mret (Ok tt)
          end
      end
  end.

(** ** Observer frames *)

Inductive AgentObserverDirection : Type := Telemetry | Control.

Record AgentObserverRoute : Type := mkRoute {
  or_agent : string;
  or_owner : string;
  or_direction : AgentObserverDirection
}.

Definition NIP44_MIN_CONTENT_LEN : N := 132.
Definition NIP44_MAX_CONTENT_LEN : N := 87472.

Definition content_looks_like_nip44 (content : string) : bool :=
  let len := N.of_nat (String.length content) in
  (NIP44_MIN_CONTENT_LEN <=? len)%N && (len <=? NIP44_MAX_CONTENT_LEN)%N.

Definition single_tag_content (e : Event) (tag_name : string) : result string string :=
  match tag_values tag_name e with
  | [] => Err ("invalid: observer frame missing " +:+ tag_name +:+ " tag")
  | [value] => Ok value
  | _ => Err ("invalid: observer frame has multiple " +:+ tag_name +:+ " tags")
  end.

(** [PublicKey::from_hex] takes either case; keys print in lower case. *)
Definition parse_single_pubkey_tag (e : Event) (tag_name : string) : result string string :=
  let? value := single_tag_content e tag_name in
  if is_hex64 value then Ok (to_ascii_lowercase value)
  else Err ("invalid: observer " +:+ tag_name +:+ " tag must be a hex pubkey").

Definition agent_observer_route (e : Event) : result (option AgentObserverRoute) string :=
  if negb (content_looks_like_nip44 (content e)) then Err "invalid: observer content must be NIP-44 encrypted"
  else
  let? recipient := parse_single_pubkey_tag e "p" in
  let? agent := parse_single_pubkey_tag e "agent" in
  let? frame := single_tag_content e "frame" in
  if bool_decide (pubkey e = agent) && bool_decide (recipient ≠ agent) then
    Ok (if String.eqb frame "telemetry" then Some (mkRoute agent recipient Telemetry) else None)
  else if bool_decide (recipient = agent) && bool_decide (pubkey e ≠ agent) then
    Ok (if String.eqb frame "control" then Some (mkRoute agent (pubkey e) Control) else None)
  else Err "invalid: observer frame must be agent-to-owner telemetry or owner-to-agent control".

(** The window of one agent: its new state, and whether the frame is over. *)
Definition observer_window (now : N) (entry : option (N * N)) : (N * N) * bool :=
  let '(count, window_start) := default (0, now)%N entry in
  if (1000000000 <=? now - window_start)%N then ((1, now)%N, false)
  else ((count + 1, window_start)%N, (100 <? count + 1)%N).

Definition observer_frame_rate_limited (c : Uuid) (agent : string) : ReadM bool :=
  now ← rask re_clock;
  rstep (λ s, let '(entry, limited) := observer_window now (sh_observer_rate s !! (c, agent)) in
    (limited, mkShared (sh_subs s) (sh_registry s) (sh_topics s) (sh_local_events s)
                (<[(c, agent) := entry]> (sh_observer_rate s)) (sh_observer_owner s))).

(** Whether the owner is the agent's: from the session, the cache or the database. *)
Definition observer_owner_ok (c : Uuid) (r : AgentObserverRoute) : ReadM (result bool DbError) :=
  auth ← rask re_auth;
  let session_owner_match := match auth with
                             | Authenticated ctx => bool_decide (ac_agent_owner ctx = Some (or_owner r))
                             | _ => false
                             end in
  if session_owner_match : bool then mret (Ok true)
  else
  cached ← rstep (λ s, (sh_observer_owner s !! (c, or_agent r, or_owner r), s));
  match cached with
  | Some b => _ ← rlog (ROwnerCached c (or_agent r) (or_owner r) b); mret (Ok b)
  | None =>
      answer ← rread (QAgentOwner c (or_agent r) (or_owner r));
      match answer with
      | Ok b =>
          _ ← rstep (λ s, (tt, mkShared (sh_subs s) (sh_registry s) (sh_topics s) (sh_local_events s) (sh_observer_rate s)
                (<[(c, or_agent r, or_owner r) := b]> (sh_observer_owner s))));
          mret (Ok b)
      | Err err => mret (Err err)
      end
  end.

Definition answer (conn : ConnectionState) (e : Event) (accepted : bool) (text : string) : ReadM unit :=
  _ ← rsend (conn_id conn) (MOk (id e) accepted text); mret tt.

Definition handle_agent_observer_event (conn : ConnectionState) (e : Event) : ReadM unit :=
  let c := community (conn_tenant conn) in
  v ← verify_spawned;
  match v with
  | Err (Rejected text) => answer conn e false text
  | Err _ => answer conn e false "error: internal error"
  | Ok _ =>
      now ← rask re_time;
      if (300 <? Z.abs (i64_sub (as_i64 (created_at e)) now))%Z then
        answer conn e false "invalid: observer frame timestamp outside ±5 minute freshness window"
      else
      match agent_observer_route e with
      | Err text => answer conn e false text
      | Ok None => answer conn e true ""
      | Ok (Some route) =>
          o ← observer_owner_ok c route;
          match o with
          | Err _ => answer conn e false "error: internal server error"
          | Ok false => answer conn e false "restricted: observer frame is not authorized for this agent owner"
          | Ok true =>
              limited ← (match or_direction route with
                         | Telemetry => observer_frame_rate_limited c (or_agent route)
                         | Control => mret false
                         end);
              if limited : bool then
                answer conn e false "rate-limited: observer frame rate exceeded (100/sec per agent)"
              else
              _ ← publish_event c TopicGlobal e;
              now ← now_secs;
              _ ← fan_out_event_to_local_subscribers c (StoredEvent_new now e None);
              answer conn e true ""
          end
      end
  end.

(** ** EVENT *)

Definition lacks_write (ctx : AuthContext) : bool :=
  negb (bool_decide (ac_scopes ctx = [])) && negb (bool_decide (MessagesWrite ∈ ac_scopes ctx)).

Definition error_text (err : IngestError) : string :=
  match err with Rejected m | CanvasConflict m | AuthFailed m | Internal m => m end.

(** [handle_event]: [Some auth] hands the event to [ingest_event]. *)
Definition handle_event (conn : ConnectionState) (e : Event) : ReadM (option IngestAuth) :=
  auth ← rask re_auth;
  match auth with
  | Authenticated ctx =>
      if bool_decide (pubkey e ≠ ac_pubkey ctx) && negb (kind e =? KIND_GIFT_WRAP)%N then
        finish (answer conn e false "invalid: event pubkey does not match authenticated identity")
      else if (kind e =? KIND_AUTH)%N then
        finish (answer conn e false "invalid: AUTH events cannot be submitted via EVENT")
      else if (kind e =? KIND_AGENT_OBSERVER_FRAME)%N then
        if lacks_write ctx then finish (answer conn e false "restricted: insufficient scope for agent observer frames")
        else finish (handle_agent_observer_event conn e)
      else if is_ephemeral (kind e) then
        if lacks_write ctx then finish (answer conn e false "restricted: insufficient scope for ephemeral events")
        else
        active ← rread (QServing (community (conn_tenant conn)));
        match active with
        | Ok true =>
            r ← handle_ephemeral_event (conn_tenant conn) e (ac_pubkey ctx);
            finish (match r with
                    | Ok _ => answer conn e true ""
                    | Err err => answer conn e false (error_text err)
                    end)
        | Ok false => finish (answer conn e false "restricted: community writes are fenced")
        | Err _ => finish (answer conn e false "error: internal server error")
        end
      else mret (Some (Nip42 (ac_pubkey ctx) (ac_scopes ctx) (ac_channel_ids ctx) (conn_id conn)))
  | _ => finish (answer conn e false "auth-required: not authenticated")
  end.

(** The reply to what [ingest_event] answered. *)
Definition answer_ingest (conn : ConnectionState) (e : Event) (r : result IngestResult IngestError) : ReadM unit :=
  match r with
  | Ok res =>
      _ ← rsend (conn_id conn) (MOk (event_id res) (accepted res) (message res)); mret tt
  | Err (Internal _) => answer conn e false "error: internal server error"
  | Err err => answer conn e false (error_text err)
  end.

End fanout.
