(* ===== verification/ReadRunProps.v ===== *)
(** * ReadRunProps: reasoning about the read path

A computation only appends to the log.  [triple env P F m Q] says that from a
log that satisfies [F], every entry [m] appends is justified by the entries
before it ([P]), and that the log satisfies [Q a] when [m] answers [a].  The
rules follow the ways computations are put together; [F] is carried over a
call when the entries the call may append preserve it. *)
From stdpp Require Import pretty.
From S2P Require Import Conformance Prelude Text Encode Nostr Kind Roles Filter Subscription IngestRules IngestEnvelopes EventStore IngestRun IngestThread Ingest ReadQuery ReadRules ReadRun ReadPath.

Abbreviation Log := (list ReadEntry).

Section triples.
Context {NT : NostrTags} {HO : HashOrder} {UT : UuidText} {RC : RelayCrates} {FT : FullText} {TT : TraceText} {XC : ReadCrates}.
Context (env : ReadEnv).

(** [l'] continues [l] with justified entries. *)
Inductive grows (P : Log → ReadEntry → Prop) (l : Log) : Log → Prop :=
| grows_refl : grows P l l
| grows_snoc l' x : grows P l l' → P l' x → grows P l (l' ++ [x]).

Lemma grows_trans P l1 l2 l3 : grows P l1 l2 → grows P l2 l3 → grows P l1 l3.
Proof. intros H12 H23. induction H23; [done|]. by apply grows_snoc. Qed.

Lemma grows_weaken (P P' : Log → ReadEntry → Prop) l l' : (∀ l x, P l x → P' l x) → grows P l l' → grows P' l l'.
Proof. intros HP. induction 1; constructor; auto. Qed.

(** Each entry is justified by those before it. *)
Lemma grows_entry P l l' l1 x l2 : grows P l l' → l' = l ++ l1 ++ x :: l2 → P (l ++ l1) x.
Proof.
  intros Hg. revert l2. induction Hg as [|l' y Hg IH Hy]; intros l2 E.
  - rewrite <-(app_nil_r l) in E at 1. by apply app_inv_head in E; destruct l1.
  - destruct l2 as [|z l2 _] using rev_ind.
    + rewrite app_assoc in E. apply app_inj_tail in E as [-> <-]. done.
    + rewrite app_comm_cons, !app_assoc in E. apply app_inj_tail in E as [-> _].
      apply (IH l2). by rewrite <-app_assoc.
Qed.

(** [F] survives the entries [P] allows. *)
Definition stable (P : Log → ReadEntry → Prop) (F : Log → Prop) : Prop := ∀ l x, P l x → F l → F (l ++ [x]).

Lemma grows_stable P F l l' : stable P F → grows P l l' → F l → F l'.
Proof. intros HF. induction 1; eauto. Qed.

Definition triple {A : Type} (P : Log → ReadEntry → Prop) (F : Log → Prop) (m : ReadM A) (Q : A → Log → Prop) : Prop :=
  ∀ w a w', m env w = (a, w') → F (rw_log w) → grows P (rw_log w) (rw_log w') ∧ Q a (rw_log w').

Context (P : Log → ReadEntry → Prop).

Lemma triple_mret {A : Type} (F : Log → Prop) (a : A) (Q : A → Log → Prop) : (∀ l, F l → Q a l) → triple P F (mret a) Q.
Proof. intros HQ w b w' [= <- <-] HF. split; [constructor|auto]. Qed.

Lemma triple_mbind {A B : Type} (F : Log → Prop) (m : ReadM A) (k : A → ReadM B) Q R :
  triple P F m Q → (∀ a, triple P (Q a) (k a) R) → triple P F (m ≫= k) R.
Proof.
  intros Hm Hk w b w'. unfold mbind, ReadM_bind. destruct (m env w) as [a w1] eqn:E. intros Ek HF.
  destruct (Hm _ _ _ E HF) as [Hg HQ]. destruct (Hk a _ _ _ Ek HQ) as [Hg' HR].
  split; [by eapply grows_trans|done].
Qed.

Lemma triple_conseq {A : Type} (F F' : Log → Prop) (m : ReadM A) (Q Q' : A → Log → Prop) :
  triple P F' m Q' → (∀ l, F l → F' l) → (∀ a l, Q' a l → Q a l) → triple P F m Q.
Proof. intros Hm HF HQ w a w' E Hl. destruct (Hm _ _ _ E (HF _ Hl)). auto. Qed.

Lemma triple_pre {A : Type} (F F' : Log → Prop) (m : ReadM A) (Q : A → Log → Prop) :
  triple P F' m Q → (∀ l, F l → F' l) → triple P F m Q.
Proof. intros Hm HF. by eapply triple_conseq. Qed.

(** A pure fact of the precondition. *)
Lemma triple_pure {A : Type} (φ : Prop) (F : Log → Prop) (m : ReadM A) Q :
  (φ → triple P F m Q) → triple P (λ l, φ ∧ F l) m Q.
Proof. intros H w a w' E [Hφ HF]. by eapply H. Qed.

(** A call that may append only what [P'] allows keeps what [P'] preserves. *)
Lemma triple_frame {A : Type} (P' : Log → ReadEntry → Prop) (F : Log → Prop) (m : ReadM A) Q :
  triple P' (λ _, True) m Q → (∀ l x, P' l x → P l x) → stable P' F → triple P F m (λ a l, F l ∧ Q a l).
Proof.
  intros Hm HP HF w a w' E Hl. destruct (Hm _ _ _ E I) as [Hg HQ].
  split; [by eapply grows_weaken|]. split; [by eapply grows_stable|done].
Qed.

Lemma triple_call {A B : Type} (P' : Log → ReadEntry → Prop) (F : Log → Prop) (m : ReadM A) (k : A → ReadM B) Q R :
  triple P' (λ _, True) m Q → (∀ l x, P' l x → P l x) → stable P' F →
  (∀ a, triple P (λ l, F l ∧ Q a l) (k a) R) → triple P F (m ≫= k) R.
Proof. intros Hm HP HF Hk. eapply triple_mbind; [by eapply triple_frame|done]. Qed.

End triples.

(** ** The calls *)

Section calls.
Context {NT : NostrTags} {HO : HashOrder} {UT : UuidText} {RC : RelayCrates} {FT : FullText} {TT : TraceText} {XC : ReadCrates}.
Context (env : ReadEnv).

(** Nothing is appended. *)
Definition silent (l : Log) (x : ReadEntry) : Prop := False.

Lemma stable_silent F : stable silent F.
Proof. by intros l x []. Qed.

(** A computation that appends nothing, with what its answer satisfies. *)
Lemma triple_quiet {A B : Type} (P : Log → ReadEntry → Prop) F (m : ReadM A) (k : A → ReadM B) (φ : A → Prop) R :
  triple env silent (λ _, True) m (λ a _, φ a) → (∀ a, φ a → triple env P F (k a) R) → triple env P F (m ≫= k) R.
Proof.
  intros Hm Hk. eapply triple_call; [exact Hm|by intros ? ? []|apply stable_silent|].
  intros a. apply (triple_pre env P _ (λ l, φ a ∧ F l)); [by apply triple_pure, Hk|naive_solver].
Qed.

Lemma quiet_rask {A : Type} (f : ReadEnv → nat → A) : triple env silent (λ _, True) (rask f) (λ a _, ∃ n, a = f env n).
Proof. intros w a w' [= <- <-] _. split; [constructor|eauto]. Qed.

Lemma quiet_rstep {A : Type} (f : Shared → A * Shared) :
  triple env silent (λ _, True) (rstep f) (λ a _, ∃ s, a = (f s).1).
Proof.
  intros w a w'. unfold rstep. simpl. destruct (f _) as [b s] eqn:E. intros [= <- <-] _.
  split; [constructor|]. eexists. by rewrite E.
Qed.

Lemma quiet_rtrace a s : triple env silent (λ _, True) (rtrace a s) (λ _ _, True).
Proof. intros w b w' [= <- <-] _. split; [|done]. destruct (re_tracing env); constructor. Qed.

(** Exactly one entry is appended. *)
Definition only (φ : ReadEntry → Prop) (l : Log) (x : ReadEntry) : Prop := φ x.

Lemma triple_rlog (φ : ReadEntry → Prop) x : φ x → triple env (only φ) (λ _, True) (rlog x) (λ _ l, x ∈ l).
Proof. intros Hφ w b w' [= <- <-] _. split; [by apply grows_snoc; [constructor|]|]. simpl. set_solver. Qed.

(** What a logged read shows. *)
Definition reads {A : Type} (q : Read A) (x : ReadEntry) : Prop :=
  ∃ t res, x = RRead q t res ∧ (res = exec_read q t ∨ is_ok res = false).

Definition answered {A : Type} (q : Read A) (res : result A DbError) (l : Log) : Prop :=
  is_ok res = false ∨ ∃ t, res = exec_read q t ∧ RRead q t res ∈ l.

Lemma triple_rread {A : Type} (q : Read A) : triple env (only (reads q)) (λ _, True) (rread q) (answered q).
Proof.
  intros w a w'. unfold rread. simpl. intros [= <- <-] _. simpl.
  set (res := match re_fault _ _ with Some text => _ | None => _ end).
  assert (Hr : res = exec_read q (re_tables env (rw_calls w)) ∨ is_ok res = false).
  { unfold res. destruct (re_fault _ _); [by right|by left]. }
  split; [apply grows_snoc; [constructor|]; unfold only, reads; eauto|].
  destruct Hr as [Hr|Hr]; [right|by left]. eexists. split; [exact Hr|]. set_solver.
Qed.

Lemma triple_cached {A : Type} (q : Read A) (hit : ReadEnv → nat → option Tables) :
  triple env (only (reads q)) (λ _, True)
    (hit ← rask hit; match hit with
                     | Some t => let res := exec_read q t in _ ← rlog (RRead q t res); mret res
                     | None => rread q
                     end) (answered q).
Proof.
  eapply triple_quiet; [apply quiet_rask|]. intros [t|] _; [|apply triple_rread].
  eapply triple_mbind; [apply triple_rlog; unfold reads; eauto|].
  intros ?. apply triple_mret. intros l Hin. right. eauto.
Qed.

Definition sends (conn : ConnId) (m : RelayMessage) (x : ReadEntry) : Prop := ∃ ok, x = RSend conn m ok.

Lemma triple_rsend conn m : triple env (only (sends conn m)) (λ _, True) (rsend conn m) (λ ok l, RSend conn m ok ∈ l).
Proof.
  unfold rsend. eapply triple_quiet; [apply quiet_rask|]. intros ok _.
  eapply triple_mbind; [apply triple_rlog; unfold sends; eauto|]. intros ?. by apply triple_mret.
Qed.

Lemma triple_rfor_each {A : Type} P F (l : list A) body :
  (∀ x, x ∈ l → triple env P F (body x) (λ _, F)) → triple env P F (rfor_each l body) (λ _, F).
Proof.
  induction l as [|x l IH]; intros Hb; simpl; [by apply triple_mret|].
  eapply triple_mbind; [apply Hb; set_solver|]. intros ?. apply IH. intros y Hy. apply Hb. set_solver.
Qed.

Lemma triple_rthen {A B : Type} P F (m : ReadM (option A)) (k : A → ReadM (option B)) Q R :
  triple env P F m Q → (∀ a, triple env P (Q (Some a)) (k a) R) → (∀ l, Q None l → R None l) →
  triple env P F (rthen m k) R.
Proof.
  intros Hm Hk HN. unfold rthen. eapply triple_mbind; [exact Hm|].
  intros [a|]; [apply Hk|]. by apply triple_mret.
Qed.

Lemma triple_finish {A : Type} P F (m : ReadM unit) (Q : option A → Log → Prop) :
  triple env P F m (λ _, Q None) → triple env P F (finish m) Q.
Proof. intros Hm. unfold finish. eapply triple_mbind; [exact Hm|]. intros ?. by apply triple_mret. Qed.

(** Membership in the log is never lost. *)
Lemma stable_in P x : stable P (λ l, x ∈ l).
Proof. intros l y _ Hin. set_solver. Qed.
Lemma stable_and P F G : stable P F → stable P G → stable P (λ l, F l ∧ G l).
Proof. intros HF HG l x HP [??]. split; eauto. Qed.
Lemma stable_or P F G : stable P F → stable P G → stable P (λ l, F l ∨ G l).
Proof. intros HF HG l x HP [?|?]; [left|right]; eauto. Qed.
Lemma stable_pure P (φ : Prop) : stable P (λ _, φ).
Proof. by intros l x _ Hφ. Qed.
Lemma stable_ex {T : Type} P (F : T → Log → Prop) : (∀ t, stable P (F t)) → stable P (λ l, ∃ t, F t l).
Proof. intros HF l x HP [t Ht]. exists t. by eapply HF. Qed.
Lemma stable_all {T : Type} P (F : T → Log → Prop) : (∀ t, stable P (F t)) → stable P (λ l, ∀ t, F t l).
Proof. intros HF l x HP Ht t. by eapply HF. Qed.
Lemma stable_answered {A : Type} P (q : Read A) res : stable P (answered q res).
Proof. apply stable_or; [apply stable_pure|]. apply stable_ex. intros t. apply stable_and; [apply stable_pure|apply stable_in]. Qed.

End calls.

#[export] Hint Resolve stable_in stable_and stable_or stable_pure stable_ex stable_all stable_answered stable_silent : stable.
