(* ===== verification/ReadProps.v ===== *)
(** * ReadProps: what a subscriber is sent from the store

The theorems on [ReadPath]: the events a REQ sends are rows its reader may
see, and nothing the reader may see is lost between a filter and its SQL. *)
From stdpp Require Import pretty.
From S2P Require Import Conformance Prelude Text Encode Nostr Kind Roles Filter Subscription IngestRules IngestEnvelopes EventStore IngestRun IngestThread Ingest ReadQuery ReadRules ReadRun ReadPath ReadRunProps.

(** ** Rows *)

Section rows.
Context {NT : NostrTags} {HO : HashOrder} {UT : UuidText} {RC : RelayCrates} {FT : FullText} {TT : TraceText} {XC : ReadCrates}.

Lemma insert_row_ordered_perm x l : insert_row_ordered x l ≡ₚ x :: l.
Proof.
  induction l as [|y l IH]; simpl; [done|]. case_match; [done|].
  rewrite IH. by apply Permutation_swap.
Qed.

Lemma elem_of_ordered_rows p t k r : (k, r) ∈ ordered_rows p t ↔ events t !! k = Some r ∧ p k r = true.
Proof.
  unfold ordered_rows. rewrite <-elem_of_map_to_list.
  assert (Hperm : ∀ l, foldr insert_row_ordered [] l ≡ₚ l).
  { induction l as [|x l IH]; simpl; [done|]. by rewrite insert_row_ordered_perm, IH. }
  rewrite Hperm, !list_elem_of_In, filter_In. simpl. tauto.
Qed.

Lemma elem_of_rows_to_events rows stored :
  stored ∈ rows_to_events rows ↔ ∃ k r, (k, r) ∈ rows ∧ row_to_stored_event k.1.2 r = Some stored.
Proof. unfold rows_to_events. rewrite list_elem_of_omap. split; [intros ([k r] & ?); eauto|intros (k & r & ?); by exists (k, r)]. Qed.

Lemma elem_of_page {A : Type} n m (x : A) l : x ∈ take n (drop m l) → x ∈ l.
Proof. intros Hx. rewrite <-(take_drop m l), <-(take_drop n (drop m l)). set_solver. Qed.

Lemma elem_of_query_events q t rows stored : query_events q t = Ok rows → stored ∈ rows →
  ∃ k r, events t !! k = Some r ∧ row_matches q t k r = true ∧ row_to_stored_event k.1.2 r = Some stored.
Proof.
  unfold query_events. repeat (case_match; [try discriminate; intros [= <-] Hin; by apply not_elem_of_nil in Hin|]).
  intros [= <-] (k & r & Hin & Hr)%elem_of_rows_to_events. exists k, r.
  apply elem_of_page in Hin.
  apply elem_of_ordered_rows in Hin. naive_solver.
Qed.

(** A row of community [c] that some logged read met. *)
Inductive read_row (c : Uuid) (l : Log) (stored : StoredEvent) : Prop :=
| read_row_intro {A : Type} (q : Read A) t res ts id' r :
    RRead q t res ∈ l → events t !! (c, ts, id') = Some r → is_live r = true →
    row_to_stored_event ts r = Some stored → read_row c l stored.

End rows.

(** ** REQ *)

Section req.
Context {NT : NostrTags} {HO : HashOrder} {UT : UuidText} {RC : RelayCrates} {FT : FullText} {TT : TraceText} {XC : ReadCrates}.
Context (env : ReadEnv) (conn : ConnectionState) (sub_id : string) (filters : list ReqFilter).

Notation c := (community (conn_tenant conn)).

(** A channel the database gave to the reader, and the token does not refuse. *)
Definition confirmed (ctx : AuthContext) (l : Log) (ch : Uuid) : Prop :=
  token_allows ctx ch = true ∧ ∃ t,
    (RRead (QAccessible c (ac_pubkey ctx)) t (Ok (get_accessible_channel_ids c (ac_pubkey ctx) t)) ∈ l
     ∧ ch ∈ get_accessible_channel_ids c (ac_pubkey ctx) t)
    ∨ (RRead (QMember c ch (ac_pubkey ctx)) t (Ok (is_member c ch (ac_pubkey ctx) t)) ∈ l
       ∧ is_member c ch (ac_pubkey ctx) t = true).

(** The sensitive kinds that [f] reaches were asked for by their recipient. *)
Definition addressed (reader : string) (f : ReqFilter) (e : Event) : Prop :=
  (one_of (kind e) P_GATED_KINDS = true → nonempty (f_ids f) = true ∨ reader ∈ tag_values "p" e)
  ∧ (kind e = KIND_AGENT_ENGRAM → nonempty (f_ids f) = true
     ∨ to_ascii_lowercase (pubkey e) = to_ascii_lowercase reader ∨ reader ∈ tag_values "p" e).

Definition has_search : bool := existsb (λ f, bool_decide (is_Some (rf_search f))) filters.

(** What justifies sending [e], given what was read and sent before. *)
Inductive deliverable (ctx : AuthContext) (l : Log) (e : Event) : Prop :=
| deliverable_row stored f :
    se_event stored = e → read_row c l stored →
    f ∈ filters → filters_match [rf_filter f] stored = true →
    (∀ ch, se_channel_id stored = Some ch → confirmed ctx l ch) →
    event_visible_to_reader e (ac_pubkey ctx) = true →
    (extract_channel_id_from_filters filters = None ∨ (se_channel_id stored = None ∧ has_search = false) →
      addressed (ac_pubkey ctx) f e) →
    (∀ conn' sub' e' ok, RSend conn' (MEvent sub' e') ok ∈ l → id e' ≠ id e) →
    deliverable ctx l e
| deliverable_liveness session_id parent creator generation parents sessions t :
    filters_are_huddle_liveness_only filters = true →
    liveness_event session_id parent generation = Ok e →
    RRead (QHuddleLinks c parents sessions) t (exec_read (QHuddleLinks c parents sessions) t) ∈ l →
    (∃ links, exec_read (QHuddleLinks c parents sessions) t = Ok links ∧ (session_id, parent, creator) ∈ links) →
    confirmed ctx l parent →
    deliverable ctx l e.

(** The session that asks: authenticated, with the scope to read. *)
Definition may_subscribe (ctx : AuthContext) : Prop :=
  (∃ n, re_auth env n = Authenticated ctx) ∧ (ac_scopes ctx = [] ∨ MessagesRead ∈ ac_scopes ctx).

Definition justified (l : Log) (x : ReadEntry) : Prop :=
  match x with
  | RSend conn' (MEvent sub' e) _ =>
      conn' = conn_id conn ∧ sub' = sub_id ∧ ∃ ctx, may_subscribe ctx ∧ deliverable ctx l e
  | _ => True
  end.

(** Entries that send or publish no event and no count. *)
Definition calm_message (m : RelayMessage) : Prop :=
  match m with MEvent _ _ | MCount _ _ => False | _ => True end.
Definition calm (x : ReadEntry) : Prop :=
  match x with RSend _ m _ => calm_message m | RPublish _ _ => False | _ => True end.

Definition sent_in (seen : gset string) (l : Log) : Prop :=
  ∀ conn' sub' e ok, RSend conn' (MEvent sub' e) ok ∈ l → id e ∈ seen.

Definition channels_ok (ctx : AuthContext) (accessible : list Uuid) (l : Log) : Prop :=
  ∀ ch, ch ∈ accessible → confirmed ctx l ch.

Lemma justified_calm l x : calm x → justified l x.
Proof. destruct x; try done. by destruct m. Qed.

Lemma stable_sent_in seen : stable (only calm) (sent_in seen).
Proof.
  intros l x Hc Hs conn' sub' e ok. rewrite elem_of_app, list_elem_of_singleton. intros [Hin|<-]; [by eapply Hs|done].
Qed.

Lemma stable_confirmed P ctx ch : stable P (λ l, confirmed ctx l ch).
Proof. unfold confirmed. eauto 10 with stable. Qed.

Lemma stable_channels_ok P ctx accessible : stable P (channels_ok ctx accessible).
Proof. unfold channels_ok. intros l x HP H ch Hch. eapply stable_confirmed; eauto. Qed.

#[local] Hint Resolve stable_sent_in stable_confirmed stable_channels_ok : stable.

(** The calls of a handler, under any justification that lets calm entries by. *)
Section steps.
Context (P : Log → ReadEntry → Prop) (HP : ∀ l x, calm x → P l x).

Lemma reads_calm {A : Type} (q : Read A) x : reads q x → calm x.
Proof. by intros (t & res & -> & _). Qed.

Lemma sends_calm conn' m x : calm_message m → sends conn' m x → calm x.
Proof. by intros Hm (ok & ->). Qed.

Lemma bind_read {A B : Type} (q : Read A) (k : result A DbError → ReadM B) F R :
  stable (only calm) F → (∀ res, triple env P (λ l, F l ∧ answered q res l) (k res) R) →
  triple env P F (rread q ≫= k) R.
Proof.
  intros HF Hk. eapply triple_call; [apply triple_rread| | |exact Hk].
  - intros l x Hx. by eapply HP, reads_calm.
  - intros l x Hx. by eapply HF, reads_calm.
Qed.

Lemma bind_accessible {B : Type} pk (k : result (list Uuid) DbError → ReadM B) F R :
  stable (only calm) F → (∀ res, triple env P (λ l, F l ∧ answered (QAccessible c pk) res l) (k res) R) →
  triple env P F (get_accessible_channel_ids_cached c pk ≫= k) R.
Proof.
  intros HF Hk. eapply triple_call; [apply triple_cached| | |exact Hk].
  - intros l x Hx. by eapply HP, reads_calm.
  - intros l x Hx. by eapply HF, reads_calm.
Qed.

Lemma keep_send {B : Type} m (b : B) F : calm_message m → stable (only calm) F →
  triple env P F (_ ← rsend (conn_id conn) m; mret b) (λ _, F).
Proof.
  intros Hm HF. eapply triple_call; [apply triple_rsend| | |].
  - intros l x Hx. by eapply HP, sends_calm.
  - intros l x Hx. by eapply HF, sends_calm.
  - intros ok. apply triple_mret. naive_solver.
Qed.

Lemma keep_closed text F : stable (only calm) F → triple env P F (closed conn sub_id text) (λ _, F).
Proof. by apply keep_send. Qed.
Lemma keep_eose F : stable (only calm) F → triple env P F (eose conn sub_id) (λ _, F).
Proof. by apply keep_send. Qed.

Lemma bind_ask {A B : Type} (f : ReadEnv → nat → A) (k : A → ReadM B) F R :
  (∀ a n, a = f env n → triple env P F (k a) R) → triple env P F (rask f ≫= k) R.
Proof. intros Hk. eapply triple_quiet; [apply quiet_rask|]. intros a [n Ha]. by eapply Hk. Qed.

Lemma bind_step {A B : Type} (f : Shared → A * Shared) (k : A → ReadM B) F R :
  (∀ a, triple env P F (k a) R) → triple env P F (rstep f ≫= k) R.
Proof. intros Hk. eapply triple_quiet; [apply quiet_rstep|]. intros a _. apply Hk. Qed.

Lemma bind_trace {B : Type} a s (k : unit → ReadM B) F R :
  (∀ u, triple env P F (k u) R) → triple env P F (rtrace a s ≫= k) R.
Proof.
  intros Hk. eapply triple_quiet; [|intros u _; apply Hk]. exact (quiet_rtrace env a s).
Qed.

Lemma keep_trace a s F : triple env P F (rtrace a s) (λ _, F).
Proof.
  intros w b w' E HF. pose proof E as E'. unfold rtrace in E. injection E as <- <-.
  destruct (re_tracing env); (split; [constructor|done]).
Qed.

Lemma bind_keep {A B : Type} (m : ReadM A) (k : A → ReadM B) F R :
  triple env P F m (λ _, F) → (∀ a, triple env P F (k a) R) → triple env P F (m ≫= k) R.
Proof. intros Hm Hk. by eapply triple_mbind. Qed.

(** ** Before the history *)

Lemma keep_rows action s ch rows m F : triple env P F (record_rows action s ch rows m) (λ _, F).
Proof. unfold record_rows. case_match; apply keep_trace. Qed.

Lemma keep_trace_rows action s ch events F : stable (only calm) F →
  triple env P F (trace_rows action s ch events) (λ _, F).
Proof.
  intros HF. unfold trace_rows. apply bind_ask. intros enabled _ _. destruct enabled; [|by apply triple_mret].
  apply bind_read; [done|]. intros res. eapply triple_pre; [apply keep_rows|]. by intros l [].
Qed.

(** A refusal: notices, and no answer. *)
Lemma triple_refusal {A : Type} (m : ReadM unit) F (Q : option A → Log → Prop) :
  triple env P F m (λ _, F) → (∀ l, F l → Q None l) → triple env P F (finish m) Q.
Proof. intros Hm HQ. apply triple_finish. by eapply triple_conseq. Qed.

Lemma keep_notice text (m : ReadM unit) F : stable (only calm) F → triple env P F m (λ _, F) →
  triple env P F (_ ← rsend (conn_id conn) (MNotice text); m) (λ _, F).
Proof.
  intros HF Hm. eapply triple_call; [apply triple_rsend| | |].
  - intros l x Hx. eapply HP, sends_calm; [|done]. done.
  - intros l x Hx. eapply HF, sends_calm; [|done]. done.
  - intros ok. eapply triple_pre; [exact Hm|naive_solver].
Qed.

Lemma triple_req_auth F : stable (only calm) F →
  triple env P F (req_auth conn sub_id) (λ o l, F l ∧ ∀ ctx, o = Some ctx → may_subscribe ctx).
Proof.
  intros HF. unfold req_auth. apply bind_ask. intros auth n Ha. destruct auth as [|ctx|].
  1,3: apply triple_refusal; [by apply keep_notice, keep_closed|naive_solver].
  destruct (negb _ && negb _) eqn:Es; [apply triple_refusal; [by apply keep_notice, keep_closed|naive_solver]|].
  apply bind_step. intros [|]; [apply triple_refusal; [by apply keep_closed|naive_solver]|].
  apply triple_mret. intros l Hl. split; [done|]. intros ? [= <-]. split; [by eexists|].
  apply andb_false_iff in Es as [Es|Es]; rewrite negb_false_iff, bool_decide_eq_true in Es; auto.
Qed.

Lemma triple_load_accessible ctx skip F : stable (only calm) F →
  triple env P F (load_accessible conn sub_id ctx skip)
    (λ o l, F l ∧ ∀ accessible, o = Some accessible → channels_ok ctx accessible l).
Proof.
  intros HF. unfold load_accessible. destruct skip.
  { apply triple_mret. intros l Hl. split; [done|]. intros ? [= <-] ch Hch. by apply not_elem_of_nil in Hch. }
  apply bind_accessible; [done|]. intros [ids|e].
  - apply triple_mret. intros l [Hl Ha]. split; [done|]. intros ? [= <-] ch Hch.
    rewrite list_elem_of_In, filter_In, <-list_elem_of_In in Hch. destruct Hch as [Hch Htok].
    destruct Ha as [?|(t & [= ->] & Hin)]; [done|]. split; [done|]. eauto.
  - eapply triple_pre; [apply triple_refusal; [by apply keep_closed|naive_solver]|naive_solver].
Qed.

Lemma triple_confirm_channels traced ctx requested : ∀ accessible F, stable (only calm) F →
  triple env P (λ l, F l ∧ channels_ok ctx accessible l) (confirm_channels traced conn sub_id ctx requested accessible)
    (λ o l, F l ∧ ∀ accessible, o = Some accessible → channels_ok ctx accessible l).
Proof.
  induction requested as [|ch requested IH]; intros accessible F HF; simpl.
  { apply triple_mret. naive_solver. }
  destruct (negb (token_allows ctx ch) || bool_decide (ch ∈ accessible)) eqn:Eskip.
  { assert ((resolve_request_local_access accessible ch (token_allows ctx ch) None).1 = accessible) as ->.
    { unfold resolve_request_local_access. by repeat case_match. }
    by apply IH. }
  apply orb_false_iff in Eskip as [Htok%negb_false_iff Hin].
  apply bind_read; [by apply stable_and, stable_channels_ok|]. intros [member|e].
  - apply bind_keep; [destruct traced; [apply keep_trace|by apply triple_mret]|]. intros _.
    eapply triple_pre; [by apply IH|]. intros l [[Hl Hch] Ha]. split; [done|].
    intros ch' Hch'. unfold resolve_request_local_access in Hch'. rewrite Htok, Hin in Hch'. simpl in Hch'.
    destruct member; [|by apply Hch]. apply elem_of_app in Hch' as [?| ->%list_elem_of_singleton]; [by apply Hch|].
    split; [done|]. destruct Ha as [?|(t & Hr & Hlog)]; [done|]. injection Hr as Hr. exists t. right. rewrite <-Hr. done.
  - eapply triple_pre; [apply (triple_refusal _ (λ l, F l)); [by apply keep_closed|naive_solver]|naive_solver].
Qed.

End steps.

(** ** The history *)

Section history.
Context (ctx : AuthContext) (Hctx : may_subscribe ctx).

Lemma triple_send_event F e : (∀ l ok, F l → justified l (RSend (conn_id conn) (MEvent sub_id e) ok)) →
  triple env justified F (rsend (conn_id conn) (MEvent sub_id e))
    (λ ok l, ∃ l0, F l0 ∧ l = l0 ++ [RSend (conn_id conn) (MEvent sub_id e) ok]).
Proof.
  intros HF w ok w' [= <- <-] Hl. simpl. split; [apply grows_snoc; [constructor|by apply HF]|eauto].
Qed.

Lemma stable_read_row P stored : stable P (λ l, read_row c l stored).
Proof. intros l x _ [A q t res ts id' r Hin Ht Hlive Hr]. apply (read_row_intro _ _ _ q t res ts id' r); [set_solver|done..]. Qed.

(** What the rows of a read owe to a filter. *)
Definition owed (f : ReqFilter) (accessible : list Uuid) (stored : StoredEvent) (l : Log) : Prop :=
  accepts_row f accessible (ac_pubkey ctx) stored = true →
  read_row c l stored
  ∧ (extract_channel_id_from_filters filters = None ∨ (se_channel_id stored = None ∧ has_search = false) →
      addressed (ac_pubkey ctx) f (se_event stored)).

Lemma stable_owed P f accessible stored : stable P (owed f accessible stored).
Proof. intros l x HP Ho Ha. destruct (Ho Ha) as [Hr ?]. split; [|done]. by eapply stable_read_row. Qed.

Lemma sent_in_send seen l e ok : sent_in seen l → sent_in ({[id e]} ∪ seen) (l ++ [RSend (conn_id conn) (MEvent sub_id e) ok]).
Proof.
  intros Hs conn' sub' e' ok'. rewrite elem_of_app, list_elem_of_singleton. intros [Hin|[= -> -> -> ->]]; [|set_solver].
  apply Hs in Hin. set_solver.
Qed.

(** An accepted row that was not sent before may go out. *)
Lemma justified_row f accessible seen stored l ok :
  f ∈ filters → channels_ok ctx accessible l → sent_in seen l → owed f accessible stored l →
  accepts_row f accessible (ac_pubkey ctx) stored = true → id (se_event stored) ∉ seen →
  justified l (RSend (conn_id conn) (MEvent sub_id (se_event stored)) ok).
Proof.
  intros Hf Hch Hs Ho Ha Hid. split_and!; [done..|]. exists ctx. split; [done|].
  destruct (Ho Ha) as [Hr Haddr]. unfold accepts_row in Ha.
  apply andb_true_iff in Ha as [[Hm Hc]%andb_true_iff Hv].
  eapply deliverable_row; [done..| |done|done|].
  - intros ch Ech. rewrite Ech, bool_decide_eq_true in Hc. by apply Hch.
  - intros conn' sub' e' ok' Hin E. apply Hid. rewrite <-E. by eapply Hs.
Qed.

Definition rows_ok (f : ReqFilter) (accessible : list Uuid) (rows : list StoredEvent) (l : Log) : Prop :=
  channels_ok ctx accessible l ∧ ∀ stored, stored ∈ rows → owed f accessible stored l.

Lemma stable_rows_ok P f accessible rows : stable P (rows_ok f accessible rows).
Proof.
  apply stable_and; [apply stable_channels_ok|]. intros l x HP H stored Hin. eapply stable_owed; eauto.
Qed.

(** Sending one event keeps what does not depend on what was sent. *)
Lemma keep_sent e ok F seen : (∀ P, stable P F) → ∀ l,
  (∃ l0, (sent_in seen l0 ∧ F l0) ∧ l = l0 ++ [RSend (conn_id conn) (MEvent sub_id e) ok]) →
  sent_in ({[id e]} ∪ seen) l ∧ F l.
Proof.
  intros HF l (l0 & [Hs Hl] & ->). split; [by apply sent_in_send|].
  by apply (HF (λ _ _, True)).
Qed.

Lemma triple_deliver_rows f accessible : f ∈ filters → ∀ rows seen,
  triple env justified (λ l, sent_in seen l ∧ rows_ok f accessible rows l)
    (deliver_rows conn sub_id f accessible (ac_pubkey ctx) seen rows)
    (λ o l, channels_ok ctx accessible l ∧ ∀ seen', o = Some seen' → sent_in seen' l).
Proof.
  intros Hf. induction rows as [|stored rows IH]; intros seen; simpl.
  { apply triple_mret. intros l [Hs [Hch _]]. naive_solver. }
  assert (Htl : ∀ l, rows_ok f accessible (stored :: rows) l → rows_ok f accessible rows l).
  { intros l [Hch Hr]. split; [done|]. set_solver. }
  destruct (negb _ || _) eqn:E.
  { eapply triple_pre; [apply IH|]. naive_solver. }
  apply orb_false_iff in E as [Ha%negb_false_iff Hid%bool_decide_eq_false].
  eapply triple_mbind.
  { apply triple_send_event. intros l ok [Hs [Hch Hr]]. eapply justified_row; [done..| |done|done]. apply Hr. set_solver. }
  intros ok. destruct ok.
  - eapply triple_pre; [apply IH|]. intros l Hl.
    apply (keep_sent _ _ (rows_ok f accessible (stored :: rows))) in Hl; [|intros; apply stable_rows_ok]. naive_solver.
  - apply triple_mret. intros l Hl.
    apply (keep_sent _ _ (rows_ok f accessible (stored :: rows))) in Hl; [|intros; apply stable_rows_ok].
    split; [apply Hl|done].
Qed.

(** ** The gates *)

Lemma only_tagged_values letter reader (f : ReqFilter) stored : letter ≠ "h" → only_tagged letter reader f = true →
  filter_accepts f stored → reader ∈ tag_values letter (se_event stored).
Proof.
  intros Hl Ho Ha. unfold only_tagged, tag_set in Ho. destruct (f_generic_tags f !! letter) as [values|] eqn:Et; [|done].
  apply andb_true_iff in Ho as [_ Hall]. rewrite forallb_elem_of in Hall.
  destruct (fa_tags _ _ Ha _ _ Et) as [(v & Hv & Hin)|(-> & _)]; [|done].
  specialize (Hall v Hv). by apply String.eqb_eq in Hall as ->.
Qed.

Lemma can_match_kind ks (f : ReqFilter) stored : filter_accepts f stored → one_of (kind (se_event stored)) ks = true → can_match ks f = true.
Proof.
  intros Ha Hk. unfold can_match. destruct (f_kinds f) as [kinds|] eqn:E; [|done].
  apply existsb_elem_of. eexists. split; [by eapply fa_kinds|done].
Qed.

Lemma authors_only_author reader (f : ReqFilter) stored : authors_only reader f = true → filter_accepts f stored →
  to_ascii_lowercase (pubkey (se_event stored)) = to_ascii_lowercase reader.
Proof.
  unfold authors_only. destruct (f_authors f) as [authors|] eqn:E; [|done].
  intros [_ Hall]%andb_true_iff Ha. rewrite forallb_elem_of in Hall.
  apply String.eqb_eq, Hall. by eapply fa_authors.
Qed.

Definition gates_passed (reader : string) : Prop :=
  p_gated_filters_authorized filters reader = true ∧ engram_filters_authorized filters reader = true
  ∧ author_only_filters_authorized filters reader = true.

Lemma gates_address reader f stored : gates_passed reader → f ∈ filters → filters_match [rf_filter f] stored = true →
  addressed reader f (se_event stored).
Proof.
  intros (Hp & Hg & _) Hf Hm. apply filters_match_iff in Hm as (f' & ->%list_elem_of_singleton & Ha).
  unfold p_gated_filters_authorized, engram_filters_authorized in *. rewrite forallb_elem_of in Hp, Hg.
  specialize (Hp f Hf). specialize (Hg f Hf). split.
  - intros Hk. unfold p_gated_filter_authorized in Hp. rewrite (can_match_kind _ _ _ Ha Hk) in Hp. simpl in Hp.
    destruct (_ && nonempty _) eqn:E; [apply andb_true_iff in E; left; tauto|].
    right. by eapply only_tagged_values.
  - intros Hk. unfold engram_filter_authorized in Hg. destruct (nonempty _); [by left|right].
    assert (Hc : can_match [KIND_AGENT_ENGRAM] f = true) by (by eapply can_match_kind; [|rewrite Hk]).
    rewrite Hc in Hg. simpl in Hg. apply orb_true_iff in Hg as [Hg|Hg].
    + left. by eapply authors_only_author.
    + right. by eapply only_tagged_values.
Qed.

(** ** Every filter *)

Lemma query_params_fields f ch :
  eq_community_id (filter_to_query_params f ch c) = c ∧ eq_channel_id (filter_to_query_params f ch c) = ch.
Proof.
  unfold filter_to_query_params.
  destruct (match f_authors f with Some _ => _ | None => _ end) as [pk authors].
  by destruct (if only_kinds _ f then _ else _) as [d ds].
Qed.

Lemma scope_fields q f ch accessible :
  eq_community_id (apply_channel_scope_to_query q f ch accessible) = eq_community_id q
  ∧ eq_channel_id (apply_channel_scope_to_query q f ch accessible) = eq_channel_id q.
Proof. unfold apply_channel_scope_to_query. destruct ch; [done|]. by destruct (tag_set f "h"). Qed.

Lemma filter_query_fields reader f before_id channel_id accessible :
  eq_community_id (filter_query c reader f before_id channel_id accessible) = c
  ∧ eq_channel_id (filter_query c reader f before_id channel_id accessible) = filter_channel f channel_id.
Proof.
  unfold filter_query.
  set (q := set_before_id before_id _).
  assert (Hq : eq_community_id q = c ∧ eq_channel_id q = filter_channel f channel_id) by apply query_params_fields.
  destruct (scope_fields q f (filter_channel f channel_id) accessible) as [E1 E2].
  destruct (filter_can_match_shared_gated_kinds f); simpl; by rewrite E1, E2.
Qed.

Lemma filter_query_community reader f before_id channel_id accessible :
  eq_community_id (filter_query c reader f before_id channel_id accessible) = c.
Proof. apply filter_query_fields. Qed.

Lemma filter_query_channel reader f before_id channel_id accessible :
  eq_channel_id (filter_query c reader f before_id channel_id accessible) = filter_channel f channel_id.
Proof. apply filter_query_fields. Qed.

Lemma row_matches_live q t k r : row_matches q t k r = true → k.1.1 = eq_community_id q ∧ is_live r = true.
Proof.
  destruct k as [[c' ts] id']. unfold row_matches, row_selected. simpl.
  rewrite !andb_true_iff, bool_decide_eq_true. tauto.
Qed.

Lemma row_matches_channel q t k r ch : row_matches q t k r = true → eq_channel_id q = Some ch → er_channel_id r = Some ch.
Proof.
  destruct k as [[c' ts] id']. unfold row_matches, row_selected, channel_scope_ok. simpl. intros Hm Hq.
  rewrite Hq in Hm. rewrite !andb_true_iff, !bool_decide_eq_true in Hm. tauto.
Qed.

Lemma row_to_stored_event_channel ts r stored : row_to_stored_event ts r = Some stored →
  se_channel_id stored = er_channel_id r ∧ se_event stored = er_event r.
Proof. unfold row_to_stored_event. case_match; [done|]. by intros [= <-]. Qed.

Notation channel_id := (extract_channel_id_from_filters filters).

Lemma history_rows_owed f before_id accessible rows l :
  (channel_id = None → gates_passed (ac_pubkey ctx)) → f ∈ filters → channels_ok ctx accessible l →
  answered (QEvents (filter_query c (ac_pubkey ctx) f before_id channel_id accessible)) (Ok rows) l →
  rows_ok f accessible rows l.
Proof.
  intros Hg Hf Hch [?|(t & Hr & Hlog)]; [done|]. split; [done|]. intros stored Hin Ha.
  destruct (elem_of_query_events _ _ _ _ (eq_sym Hr) Hin) as ([[c' ts] id'] & r & Ht & Hm & Hs).
  destruct (row_matches_live _ _ _ _ Hm) as [Ec Hlive]. rewrite filter_query_community in Ec. simpl in Ec, Hs. subst c'.
  split; [by eapply read_row_intro|]. intros Hcond. apply gates_address; [|done|].
  - apply Hg. destruct Hcond as [?|[Hnone _]]; [done|]. destruct channel_id as [ch|] eqn:E; [|done].
    apply row_to_stored_event_channel in Hs as [Hs _]. rewrite Hnone in Hs.
    rewrite (row_matches_channel _ _ _ _ (default ch (extract_channel_id_from_filter f)) Hm) in Hs; [done|].
    rewrite filter_query_channel. unfold filter_channel. by destruct (extract_channel_id_from_filter f).
  - unfold accepts_row in Ha. apply andb_true_iff in Ha as [[? _]%andb_true_iff _]. done.
Qed.

Lemma end_eose F : triple env justified F (eose conn sub_id) (λ _ _, True).
Proof. apply (triple_pre env _ _ (λ _, True)); [|done]. apply keep_eose; [apply justified_calm|apply stable_pure]. Qed.

Lemma triple_history s accessible : (channel_id = None → gates_passed (ac_pubkey ctx)) →
  ∀ fs seen, (∀ fb, fb ∈ fs → fb.1 ∈ filters) →
  triple env justified (λ l, sent_in seen l ∧ channels_ok ctx accessible l)
    (history conn sub_id (ac_pubkey ctx) s channel_id accessible seen fs) (λ _ _, True).
Proof.
  intros Hg. induction fs as [|[f before_id] fs IH]; intros seen Hfs; simpl.
  { apply end_eose. }
  assert (Hf : f ∈ filters) by (apply (Hfs (f, before_id)); set_solver).
  apply bind_read; [apply justified_calm|apply stable_and; eauto with stable|]. intros [rows|e].
  2:{ apply end_eose. }
  eapply (triple_pre env _ _ (λ l, sent_in seen l ∧ rows_ok f accessible rows l)).
  2:{ intros l [[Hs Hch] Ha]. split; [done|]. by eapply history_rows_owed. }
  apply bind_keep.
  { apply keep_trace_rows; [apply justified_calm|]. apply stable_and; [eauto with stable|apply stable_rows_ok]. }
  intros _. eapply triple_mbind; [by apply triple_deliver_rows|]. intros [seen'|]; [|by apply triple_mret].
  eapply triple_pre; [apply IH; set_solver|]. naive_solver.
Qed.

(** ** Search *)

Lemma event_map_in evs hit stored : event_map evs !! hit = Some stored → stored ∈ evs.
Proof.
  unfold event_map. assert (Hg : ∀ m : gmap string StoredEvent, foldl (λ m ev, <[id (se_event ev) := ev]> m) m evs !! hit = Some stored →
    stored ∈ evs ∨ m !! hit = Some stored).
  { induction evs as [|ev evs IH]; intros m; simpl; [auto|]. intros [?|Hm]%IH; [left; set_solver|].
    destruct (decide (id (se_event ev) = hit)) as [<-|]; [|rewrite lookup_insert_ne in Hm; auto].
    rewrite lookup_insert_eq in Hm. left. set_solver. }
  intros [?|Hm]%Hg; [done|]. by rewrite lookup_empty in Hm.
Qed.

Lemma by_ids_owed f ids evs accessible l :
  (channel_id = None → gates_passed (ac_pubkey ctx)) → has_search = true → f ∈ filters → channels_ok ctx accessible l →
  answered (QByIds c ids) (Ok evs) l → rows_ok f accessible evs l.
Proof.
  intros Hg Hsearch Hf Hch [?|(t & [= ->] & Hlog)]; [done|]. split; [done|]. intros stored Hin Ha.
  apply elem_of_rows_to_events in Hin as ([[c' ts] id'] & r & Hin & Hs).
  rewrite list_elem_of_In, filter_In, <-list_elem_of_In, elem_of_hm_iter in Hin. destruct Hin as [Ht Hb].
  rewrite !andb_true_iff, !bool_decide_eq_true in Hb. destruct Hb as [[-> Hlive] _].
  split; [by eapply read_row_intro|]. intros Hcond. apply gates_address; [|done|].
  - apply Hg. destruct Hcond as [?|[_ ?]]; congruence.
  - unfold accepts_row in Ha. apply andb_true_iff in Ha as [[? _]%andb_true_iff _]. done.
Qed.

Lemma triple_deliver_hits f accessible limit evs : f ∈ filters → ∀ hits emitted seen,
  triple env justified (λ l, sent_in seen l ∧ rows_ok f accessible evs l)
    (deliver_hits conn sub_id f accessible (ac_pubkey ctx) limit emitted seen (event_map evs) hits)
    (λ o l, channels_ok ctx accessible l ∧ ∀ n seen', o = Some (n, seen') → sent_in seen' l).
Proof.
  intros Hf. induction hits as [|hit hits IH]; intros emitted seen; simpl.
  { apply triple_mret. intros l [Hs [Hch _]]. naive_solver. }
  destruct (limit <=? emitted)%N; [apply triple_mret; intros l [Hs [Hch _]]; naive_solver|].
  destruct (event_map evs !! hit) as [stored|] eqn:Em; [|apply IH].
  destruct (negb _ || _) eqn:E; [apply IH|].
  apply orb_false_iff in E as [Ha%negb_false_iff Hid%bool_decide_eq_false].
  eapply triple_mbind.
  { apply triple_send_event. intros l ok [Hs [Hch Hr]]. eapply justified_row; [done..| |done|done].
    apply Hr. by eapply event_map_in. }
  intros ok. destruct ok.
  - eapply triple_pre; [apply IH|]. intros l Hl.
    by apply (keep_sent _ _ (rows_ok f accessible evs)) in Hl; [|intros; apply stable_rows_ok].
  - apply triple_mret. intros l Hl.
    apply (keep_sent _ _ (rows_ok f accessible evs)) in Hl; [|intros; apply stable_rows_ok].
    split; [apply Hl|done].
Qed.

(** What a loop over pages and filters keeps. *)
Definition searched (accessible : list Uuid) (seen : gset string) (l : Log) : Prop :=
  sent_in seen l ∧ channels_ok ctx accessible l.

Lemma stable_searched accessible seen : stable (only calm) (searched accessible seen).
Proof. apply stable_and; eauto with stable. Qed.
#[local] Hint Resolve stable_searched justified_calm : stable.

Lemma triple_search_pages f accessible s text scope limit :
  (channel_id = None → gates_passed (ac_pubkey ctx)) → has_search = true → f ∈ filters → ∀ pages emitted seen,
  triple env justified (searched accessible seen)
    (search_pages conn sub_id f accessible (ac_pubkey ctx) s text scope limit emitted seen pages)
    (λ o l, ∀ seen', o = Some seen' → searched accessible seen' l).
Proof.
  intros Hg Hsearch Hf. induction pages as [|page pages IH]; intros emitted seen; simpl; [apply triple_mret; naive_solver|].
  assert (Hend : ∀ F, (∀ l, F l → searched accessible seen l) → triple env justified F
    (mret (Some seen)) (λ o l, ∀ seen', o = Some seen' → searched accessible seen' l)).
  { intros F HF. apply triple_mret. naive_solver. }
  destruct (limit <=? emitted)%N; [by apply Hend|].
  apply bind_read; [eauto with stable..|]. intros [[|hit hits]|e]; [apply Hend; naive_solver| |apply Hend; naive_solver].
  apply (triple_pre env _ _ (searched accessible seen)); [|naive_solver].
  apply bind_read; [eauto with stable..|]. intros [evs|e]; [|apply Hend; naive_solver].
  apply (triple_pre env _ _ (λ l, sent_in seen l ∧ rows_ok f accessible evs l)).
  2:{ intros l [[Hs Hch] Ha]. split; [done|]. by eapply by_ids_owed. }
  apply bind_keep.
  { apply keep_trace_rows; [eauto with stable|]. apply stable_and; [eauto with stable|apply stable_rows_ok]. }
  intros ?. eapply triple_mbind; [by apply triple_deliver_hits|]. intros [[emitted' seen']|]; [|by apply triple_mret].
  apply (triple_pre env _ _ (searched accessible seen')); [|intros l [Hch Hs]; split; [by eapply Hs|done]].
  case_match; [apply triple_mret; naive_solver|apply IH].
Qed.

Lemma triple_search_filters accessible s scope :
  (channel_id = None → gates_passed (ac_pubkey ctx)) → has_search = true → ∀ fs seen, (∀ f, f ∈ fs → f ∈ filters) →
  triple env justified (searched accessible seen)
    (search_filters conn sub_id accessible (ac_pubkey ctx) s scope seen fs) (λ _ _, True).
Proof.
  intros Hg Hsearch. induction fs as [|f fs IH]; intros seen Hfs; cbn [search_filters]; [apply end_eose|].
  assert (Hfs' : ∀ f, f ∈ fs → f ∈ filters) by set_solver.
  case_match; [by apply IH|]. case_match; [by apply IH|]. destruct (search_scope f _ _); [|by apply IH].
  eapply triple_mbind; [apply triple_search_pages; [done|done|set_solver]|]. intros [seen'|]; [|by apply triple_mret].
  eapply triple_pre; [by apply IH|]. naive_solver.
Qed.

(** ** Huddle liveness *)

Lemma triple_send_liveness parents sessions t links rest :
  filters_are_huddle_liveness_only filters = true →
  exec_read (QHuddleLinks c parents sessions) t = Ok links → (∀ x, x ∈ rest → x ∈ links) →
  (∀ x, x ∈ links → x.1.2 ∈ parents) →
  triple env justified
    (λ l, channels_ok ctx parents l ∧ RRead (QHuddleLinks c parents sessions) t (Ok links) ∈ l)
    (send_liveness conn sub_id rest) (λ _ _, True).
Proof.
  intros Hk Hq Hin Hp. induction rest as [|[[session_id parent] creator] rest IH]; simpl; [apply end_eose|].
  set (F := λ l, channels_ok ctx parents l ∧ RRead (QHuddleLinks c parents sessions) t (Ok links) ∈ l).
  assert (HF : ∀ P, stable P F) by (intros; apply stable_and; eauto with stable).
  assert (Hcl : ∀ text, triple env justified F (closed conn sub_id text) (λ _ _, True)).
  { intros text. eapply triple_conseq; [apply (keep_closed _ justified_calm); by apply HF|done|done]. }
  apply bind_keep.
  { unfold huddle_generation. apply bind_ask. intros [[[[[] g]|]|e]|] n _; [by apply triple_mret..|].
    do 2 (apply bind_ask; intros ? ? _). by apply triple_mret. }
  intros [[g|]|e]; [|apply IH; set_solver|apply Hcl].
  destruct (liveness_event session_id parent g) as [e|e] eqn:El; [|apply Hcl].
  assert (Hl : (session_id, parent, creator) ∈ links) by (apply Hin; set_solver).
  eapply triple_mbind.
  { apply triple_send_event. intros l ok [Hch Hlog]. split_and!; [done..|]. exists ctx. split; [done|].
    eapply deliverable_liveness; [done|exact El|by rewrite Hq|by eauto|]. apply Hch. by apply (Hp _ Hl). }
  intros [|]; [|by apply triple_mret]. eapply triple_pre; [apply IH; set_solver|].
  intros l (l0 & Hl0 & ->). by apply (HF (λ _ _, True)).
Qed.

(** ** The request *)

Lemma keep_subscriber (b : bool) k w F : stable (only calm) F →
  triple env justified F (if b then rlog (RSubscriber k w) else mret tt) (λ _, F).
Proof.
  intros HF. destruct b; [|by apply triple_mret].
  assert (Hc : calm (RSubscriber k w)) by done.
  intros v u v' E Hl. destruct (triple_rlog env _ _ Hc _ _ _ E I) as [Hg _].
  split; [|by eapply grows_stable]. eapply grows_weaken; [|exact Hg]. intros l x. apply justified_calm.
Qed.

Lemma keep_topics (f : EventTopic → ReadM unit) l F : (∀ k, triple env justified F (f k) (λ _, F)) →
  triple env justified F (rfor_each l f) (λ _, F).
Proof. intros Hf. by apply triple_rfor_each. Qed.

Lemma keep_register fs authorized F : stable (only calm) F →
  triple env justified F (register_subscription conn sub_id fs authorized) (λ _, F).
Proof.
  intros HF. unfold register_subscription. do 2 (apply bind_step; intros ?). apply bind_keep.
  - destruct (_ : option RemovedSubscription) as [removed|]; [|by apply triple_mret]. apply keep_topics. intros k.
    unfold release_topic. apply bind_step. intros b. by apply keep_subscriber.
  - intros _. apply keep_topics. intros k. unfold retain_topic. apply bind_step. intros b. by apply keep_subscriber.
Qed.

Lemma huddle_links_parents parents sessions t links x :
  exec_read (QHuddleLinks c parents sessions) t = Ok links → x ∈ links → x.1.2 ∈ parents.
Proof.
  simpl. intros [= <-]. case_match; [by intros ?%not_elem_of_nil|].
  unfold huddle_started_links. rewrite list_elem_of_omap. intros ([[c' backing] r] & _ & Hx).
  case_match; [|done]. destruct (ordered_rows _ t) as [|[k start] rows] eqn:Eo; [done|].
  assert (Hin : (k, start) ∈ ordered_rows (starts_huddle c parents backing (ch_created_by r)) t) by (rewrite Eo; set_solver).
  apply elem_of_ordered_rows in Hin as [_ Hs]. destruct k as [[c'' ts] id']. unfold starts_huddle in Hs.
  destruct (er_channel_id start) as [p|]; [|done]. injection Hx as <-. simpl.
  rewrite !andb_true_iff, !bool_decide_eq_true in Hs. tauto.
Qed.

Lemma triple_huddle parents : filters_are_huddle_liveness_only filters = true →
  triple env justified (channels_ok ctx parents) (handle_huddle_liveness_req conn sub_id filters parents) (λ _ _, True).
Proof.
  intros Hk. unfold handle_huddle_liveness_req.
  assert (Hcl : ∀ F text, triple env justified F (closed conn sub_id text) (λ _ _, True)).
  { intros F text. apply (triple_pre env _ _ (λ _, True)); [|done]. by apply keep_closed; [apply justified_calm|apply stable_pure]. }
  case_bool_decide; [apply Hcl|]. apply bind_read; [apply justified_calm|eauto with stable|]. intros [links|e]; [|apply Hcl].
  intros w u w' E [Hch Ha]. destruct Ha as [?|(t & Hr & Hlog)]; [done|].
  eapply (triple_send_liveness parents _ t links links); [done|by symmetry|done| |exact E|done].
  intros x. by eapply huddle_links_parents.
Qed.

Lemma triple_gates F : stable (only calm) F →
  triple env justified F (req_gates conn sub_id (ac_pubkey ctx) filters)
    (λ o l, F l ∧ (is_Some o → gates_passed (ac_pubkey ctx))).
Proof.
  intros HF. unfold req_gates.
  assert (Hend : ∀ text, triple env justified F (finish (closed conn sub_id text))
    (λ (o : option unit) l, F l ∧ (is_Some o → gates_passed (ac_pubkey ctx)))).
  { intros text. eapply triple_refusal; [by apply keep_closed; [apply justified_calm|]|]. intros l Hl. split; [done|]. by intros []. }
  destruct (p_gated_filters_authorized _ _) eqn:?; [|apply Hend].
  destruct (engram_filters_authorized _ _) eqn:?; [|apply Hend].
  destruct (author_only_filters_authorized _ _) eqn:?; [|apply Hend]. by apply triple_mret.
Qed.

Lemma triple_req_authorized before_ids s authorized accessible :
  (∀ ch, ch ∈ default [] authorized → ch ∈ accessible) →
  triple env justified (searched accessible ∅) (req_authorized conn sub_id filters before_ids ctx s authorized accessible)
    (λ _ _, True).
Proof.
  intros Hauth. unfold req_authorized.
  assert (Hcl : ∀ F text, triple env justified F (finish (closed conn sub_id text)) (λ (_ : option unit) _, True)).
  { intros F text. apply (triple_pre env _ _ (λ _, True)); [|done].
    eapply triple_refusal; [by apply keep_closed; [apply justified_calm|apply stable_pure]|done]. }
  case_bool_decide; [apply Hcl|]. destruct (filters_are_huddle_liveness_only filters) eqn:Ek.
  { apply triple_finish. eapply triple_pre; [by apply triple_huddle|]. intros l [_ Hch] ch ?. by apply Hch, Hauth. }
  eapply (triple_rthen env _ _ _ _ (λ o l, searched accessible ∅ l
    ∧ (is_Some o → channel_id = None → gates_passed (ac_pubkey ctx)))); [|intros []|done].
  { case_bool_decide.
    - eapply triple_conseq; [apply triple_gates; eauto with stable|done|naive_solver].
    - apply triple_mret. naive_solver. }
  apply (triple_pre env _ _ (λ l, (channel_id = None → gates_passed (ac_pubkey ctx)) ∧ searched accessible ∅ l));
    [|naive_solver].
  apply triple_pure. intros Hg. fold has_search. destruct has_search eqn:Es.
  { case_match; [apply Hcl|]. apply triple_finish. unfold handle_search_req.
    case_match; [by apply triple_search_filters|apply end_eose]. }
  apply bind_keep; [apply keep_register; eauto with stable|]. intros _. apply triple_finish.
  apply triple_history; [done|]. intros fb (i & f & -> & Hi)%elem_of_lookup_imap. simpl. by eapply list_elem_of_lookup_2.
Qed.

End history.

Lemma triple_handle_req before_ids :
  triple env justified (λ l, l = []) (handle_req conn sub_id filters before_ids) (λ _ _, True).
Proof.
  apply (triple_pre env _ _ (sent_in ∅)).
  2:{ intros l -> conn' sub' e ok Hin. by apply not_elem_of_nil in Hin. }
  pose proof justified_calm as Hcalm. unfold handle_req.
  eapply triple_rthen; [by apply triple_req_auth, stable_sent_in| |done]. intros ctx.
  apply (triple_pre env _ _ (λ l, may_subscribe ctx ∧ sent_in ∅ l)); [|naive_solver]. apply triple_pure. intros Hctx.
  destruct (extract_channel_ids_from_filters_limited filters) as [requested|].
  2:{ eapply triple_refusal; [by apply keep_closed; [|apply stable_sent_in]|done]. }
  eapply triple_rthen; [by apply triple_load_accessible, stable_sent_in| |done]. intros accessible.
  apply (triple_pre env _ _ (λ l, sent_in ∅ l ∧ channels_ok ctx accessible l)); [|naive_solver].
  eapply triple_rthen; [by apply triple_confirm_channels, stable_sent_in| |done]. intros accessible'.
  eapply triple_pre; [apply triple_req_authorized; [done|]|].
  - intros ch. destruct requested; simpl; [|by intros ?%not_elem_of_nil].
    rewrite list_elem_of_In, filter_In, bool_decide_eq_true. tauto.
  - intros l [Hs Hch]. split; [done|by apply Hch].
Qed.

End req.

(** C4. A REQ sends an event only to an authenticated session with the scope to
read, and only if before that a read of the database met the event as a live
row of the tenant's community, one of the request's filters matches it, its
channel (if it has one) is one the database gave the reader and the token
allows, the reader may see an event of its kind, sensitive kinds outside of
channels were asked for by a key they address, and its id was not sent before;
or it is a liveness event the relay signs for a huddle started in a channel the
reader was confirmed in. *)
Theorem history_is_authorised {NT : NostrTags} {HO : HashOrder} {UT : UuidText} {RC : RelayCrates} {FT : FullText}
    {TT : TraceText} {XC : ReadCrates} (env : ReadEnv) (w : ReadWorld) (conn : ConnectionState) (sub_id : string)
    (filters : list ReqFilter) (before_ids : list (option string)) l1 conn' sub' e ok l2 :
  rw_log w = [] →
  rw_log (handle_req conn sub_id filters before_ids env w).2 = l1 ++ RSend conn' (MEvent sub' e) ok :: l2 →
  conn' = conn_id conn ∧ sub' = sub_id ∧
  ∃ ctx, may_subscribe env ctx ∧ deliverable conn filters ctx l1 e.
Proof.
  intros Hw Hlog. destruct (handle_req _ _ _ _ env w) as [o w'] eqn:E.
  destruct (triple_handle_req _ _ _ _ _ _ _ _ E Hw) as [Hg _]. rewrite Hw in Hg.
  exact (grows_entry _ _ _ l1 _ l2 Hg Hlog).
Qed.
