(* ===== verification/LiveProps.v ===== *)
(** * LiveProps: what a subscriber is sent live

The theorems on [FanOut]: every live delivery passes the access gate, and an
event a client submits is published only after its checks. *)
From stdpp Require Import pretty.
From S2P Require Import Conformance Prelude Text Encode Nostr Kind Roles Filter Subscription IngestRules IngestEnvelopes EventStore IngestRun IngestThread Ingest ReadQuery ReadRules ReadRun ReadPath ReadRunProps ReadProps FanOut.

Section live.
Context {NT : NostrTags} {HO : HashOrder} {UT : UuidText} {RC : RelayCrates} {FT : FullText} {TT : TraceText} {XC : ReadCrates}.
Context (env : ReadEnv).

(** ** Justified deliveries *)

(** What the gate asks of a recipient. *)
Record passed (c : Uuid) (ev : StoredEvent) (threaded : option ThreadedChannelVisibility) (conn : ConnId) (l : Log) : Prop := {
  passed_tenant : RConn conn (Some c) ∈ l;
  passed_author : one_of (kind (se_event ev)) AUTHOR_ONLY_KINDS = true → RConnKey conn (Some (pubkey (se_event ev))) ∈ l;
  passed_shared : is_shared_gated_kind (kind (se_event ev)) = true →
    ∃ pk, RConnKey conn (Some pk) ∈ l ∧ (pk = pubkey (se_event ev) ∨ is_unshared_gated_event (se_event ev) pk = false);
  passed_channel ch : se_channel_id ev = Some ch →
    (∃ tv, threaded = Some tv ∧ tv_community tv = c ∧ tv_channel tv = ch ∧ tv_visibility tv ≠ "private")
    ∨ (∃ t row, RRead (QChannel c ch) t (Ok row) ∈ l ∧ get_channel c ch t = Ok row ∧ ch_visibility row ≠ "private")
    ∨ (∃ pk t, RConnKey conn (Some pk) ∈ l ∧ RRead (QMember c ch pk) t (Ok true) ∈ l ∧ is_member c ch pk t = true)
}.

(** What justifies sending event [ev] of community [c] to a subscription. *)
Definition receives (c : Uuid) (ev : StoredEvent) (threaded : option ThreadedChannelVisibility) (owner : option string)
    (m : Sub) (l : Log) : Prop :=
  (∃ r, RFanOut c ev r ∈ l ∧ should_receive r c ev m) ∧ passed c ev threaded m.1 l
  ∧ ∀ o, owner = Some o → RConnKey m.1 (Some o) ∈ l.

Lemma stable_passed P c ev threaded conn : stable P (passed c ev threaded conn).
Proof.
  intros l x _ [Ht Ha Hs Hc]. split; [set_solver|set_solver| |].
  - intros Hk. destruct (Hs Hk) as (pk & ? & ?). exists pk. split; [set_solver|done].
  - intros ch Hch. destruct (Hc ch Hch) as [?|[(t & row & ? & ?)|(pk & t & ? & ? & ?)]]; [by left|right; left|right; right].
    + exists t, row. split; [set_solver|done].
    + exists pk, t. set_solver.
Qed.

Lemma stable_receives P c ev threaded owner m : stable P (receives c ev threaded owner m).
Proof.
  apply stable_and; [apply stable_ex; intros r; apply stable_and; [apply stable_in|apply stable_pure]|].
  apply stable_and; [apply stable_passed|]. intros l x _ Ho o Eo. specialize (Ho o Eo). set_solver.
Qed.

(** ** The gate *)

Section gate.
Context (P : Log → ReadEntry → Prop) (HP : ∀ l x, calm x → P l x).

(** [x] is kept only with its reason [Q x]. *)
Definition tests {A : Type} (Q : A → Log → Prop) (test : A → ReadM bool) : Prop := ∀ x F, stable (only calm) F →
  triple env P F (test x) (λ b l, F l ∧ (b = true → Q x l)).

Lemma triple_rfilter {A : Type} (Q : A → Log → Prop) test l0 : tests Q test → (∀ x, stable (only calm) (Q x)) → ∀ F,
  stable (only calm) F →
  triple env P F (rfilter test l0) (λ ms l, F l ∧ ∀ m, m ∈ ms → m ∈ l0 ∧ Q m l).
Proof.
  intros Ht HQ. induction l0 as [|x l0 IH]; intros F HF; simpl.
  { apply triple_mret. intros l Hl. split; [done|]. by intros m ?%not_elem_of_nil. }
  eapply triple_mbind; [by apply Ht|]. intros keep.
  eapply triple_mbind.
  { apply IH. apply stable_and; [done|]. intros l y Hy Hk Ek. eapply HQ; [done|]. by apply Hk. }
  intros rest. apply triple_mret. intros l [[Hl Hx] Hrest]. split; [done|]. intros m Hm.
  rewrite elem_of_cons. destruct keep; [apply elem_of_cons in Hm as [->|Hm]; [auto|]|]; destruct (Hrest m Hm); auto.
Qed.

Lemma bind_log {B : Type} x (k : unit → ReadM B) F R : calm x → stable (only calm) F →
  triple env P (λ l, F l ∧ x ∈ l) (k tt) R → triple env P F (rlog x ≫= k) R.
Proof.
  intros Hx HF Hk. eapply triple_call; [by apply (triple_rlog env calm)|intros l y; apply HP|exact HF|by intros []].
Qed.

Lemma bind_community {B : Type} conn (k : option Uuid → ReadM B) F R : stable (only calm) F →
  (∀ o, triple env P (λ l, F l ∧ RConn conn o ∈ l) (k o) R) → triple env P F (community_for_conn conn ≫= k) R.
Proof.
  intros HF Hk. eapply triple_mbind; [|exact Hk]. unfold community_for_conn. apply bind_ask. intros o n _.
  apply bind_log; [done..|]. by apply triple_mret.
Qed.

Lemma bind_pubkey {B : Type} conn (k : option string → ReadM B) F R : stable (only calm) F →
  (∀ o, triple env P (λ l, F l ∧ RConnKey conn o ∈ l) (k o) R) → triple env P F (pubkey_for_conn conn ≫= k) R.
Proof.
  intros HF Hk. eapply triple_mbind; [|exact Hk]. unfold pubkey_for_conn. apply bind_ask. intros o n _.
  apply bind_log; [done..|]. by apply triple_mret.
Qed.

Lemma bind_member {B : Type} c ch pk (k : result bool DbError → ReadM B) F R : stable (only calm) F →
  (∀ res, triple env P (λ l, F l ∧ answered (QMember c ch pk) res l) (k res) R) →
  triple env P F (is_member_cached c ch pk ≫= k) R.
Proof.
  intros HF Hk. eapply triple_call; [apply triple_cached| | |exact Hk]; intros l x Hx; [eapply HP|eapply HF]; by eapply reads_calm.
Qed.

Lemma tests_same_community c : tests (λ (m : Sub) l, RConn m.1 (Some c) ∈ l) (same_community c).
Proof.
  intros m F HF. apply bind_community; [done|]. intros o. apply triple_mret. intros l [Hl Hin].
  split; [done|]. by intros ->%bool_decide_eq_true.
Qed.

Lemma tests_author e : tests (λ (m : Sub) l, RConnKey m.1 (Some (pubkey e)) ∈ l) (is_author_conn e).
Proof.
  intros m F HF. apply bind_pubkey; [done|]. intros o. apply triple_mret. intros l [Hl Hin].
  split; [done|]. by intros ->%bool_decide_eq_true.
Qed.

Lemma tests_shared e : tests (λ (m : Sub) l,
  ∃ pk, RConnKey m.1 (Some pk) ∈ l ∧ (pk = pubkey e ∨ is_unshared_gated_event e pk = false)) (may_read_shared e).
Proof.
  intros m F HF. apply bind_pubkey; [done|]. intros [pk|]; apply triple_mret; [|naive_solver].
  intros l [Hl Hin]. split; [done|]. rewrite orb_true_iff, bool_decide_eq_true, negb_true_iff. eauto.
Qed.

Lemma tests_member c ch : tests (λ (m : Sub) l,
  ∃ pk t, RConnKey m.1 (Some pk) ∈ l ∧ RRead (QMember c ch pk) t (Ok true) ∈ l ∧ is_member c ch pk t = true)
  (is_member_conn c ch).
Proof.
  intros m F HF. apply bind_pubkey; [done|]. intros [pk|]; [|apply triple_mret; naive_solver].
  apply bind_member; [apply stable_and; [done|apply stable_in]|]. intros [b|err]; apply triple_mret; [|naive_solver].
  intros l [[Hl Hin] Ha]. split; [done|]. intros ->. destruct Ha as [?|(t & Hr & Hlog)]; [done|].
  exists pk, t. injection Hr as Hr. rewrite <-Hr in *. done.
Qed.

Lemma tests_owner owner : tests (λ (m : Sub) l, ∀ o, owner = Some o → RConnKey m.1 (Some o) ∈ l) (is_owner_conn owner).
Proof.
  intros m F HF. destruct owner as [o|]; [|apply triple_mret; naive_solver].
  apply bind_pubkey; [done|]. intros pk. apply triple_mret. intros l [Hl Hin]. split; [done|].
  intros ->%bool_decide_eq_true o' [= <-]. done.
Qed.

(** The survivors of a test that is only made when [b]. *)
Lemma triple_rfilter_if {A : Type} (b : bool) (Q : A → Log → Prop) test l0 F : tests Q test →
  (∀ x, stable (only calm) (Q x)) → stable (only calm) F →
  triple env P F (if b then rfilter test l0 else mret l0) (λ ms l, F l ∧ ∀ m, m ∈ ms → m ∈ l0 ∧ (b = true → Q m l)).
Proof.
  intros Ht HQ HF. destruct b; [|apply triple_mret; naive_solver].
  eapply triple_conseq; [by apply triple_rfilter|done|naive_solver].
Qed.

Lemma stable_survivors {A : Type} (Q : A → Log → Prop) (ms l0 : list A) F : stable (only calm) F →
  (∀ x, stable (only calm) (Q x)) → stable (only calm) (λ l, F l ∧ ∀ m, m ∈ ms → m ∈ l0 ∧ Q m l).
Proof.
  intros HF HQ. apply stable_and; [done|]. intros l x Hx Hm m Hin. destruct (Hm m Hin). split; [done|]. by eapply HQ.
Qed.

Lemma stable_imp (φ : Prop) F : stable (only calm) F → stable (only calm) (λ l, φ → F l).
Proof. intros HF l x Hx Hl Hφ. eapply HF; eauto. Qed.

Lemma bind_visibility {B : Type} c ch threaded (k : result string DbError → ReadM B) F R : stable (only calm) F →
  (∀ v, triple env P (λ l, F l ∧ (v = Ok "private" ∨ is_ok v = false
      ∨ (∃ tv, threaded = Some tv ∧ tv_community tv = c ∧ tv_channel tv = ch ∧ v = Ok (tv_visibility tv))
      ∨ (∃ t row, RRead (QChannel c ch) t (Ok row) ∈ l ∧ get_channel c ch t = Ok row ∧ v = Ok (ch_visibility row))))
    (k v) R) →
  triple env P F (fanout_visibility c ch threaded ≫= k) R.
Proof.
  intros HF Hk. eapply triple_mbind; [|exact Hk]. unfold fanout_visibility.
  assert (Hlook : triple env P F (channel_visibility_cached c ch) (λ v l, F l ∧ (v = Ok "private" ∨ is_ok v = false
      ∨ (∃ t row, RRead (QChannel c ch) t (Ok row) ∈ l ∧ get_channel c ch t = Ok row ∧ v = Ok (ch_visibility row))))).
  { unfold channel_visibility_cached. apply bind_ask. intros [|] n _.
    - apply bind_log; [done..|]. apply triple_mret. naive_solver.
    - apply bind_read; [done..|]. intros res. apply triple_mret. intros l [Hl Ha]. split; [done|].
      destruct Ha as [He|(t & Hr & Hlog)]; [destruct res; [done|auto]|].
      destruct res as [row|]; [|auto]. do 2 right. exists t, row. by split_and!. }
  destruct threaded as [tv|]; [|eapply triple_conseq; [exact Hlook|done|intros v l [? [?|[?|?]]]; auto 10]].
  destruct (_ && _) eqn:E; [|eapply triple_conseq; [exact Hlook|done|intros v l [? [?|[?|?]]]; auto 10]].
  apply andb_true_iff in E as [E1%bool_decide_eq_true E2%bool_decide_eq_true].
  apply triple_mret. intros l Hl. split; [done|]. do 2 right. left. eauto.
Qed.

Lemma triple_access c ev matches threaded F : stable (only calm) F →
  triple env P F (filter_fanout_by_access c ev matches threaded)
    (λ ms l, F l ∧ ∀ m, m ∈ ms → m ∈ matches ∧ passed c ev threaded m.1 l).
Proof.
  intros HF. unfold filter_fanout_by_access. set (e := se_event ev).
  set (Qt := λ (m : Sub) (l : Log), RConn m.1 (Some c) ∈ l).
  set (Qa := λ (m : Sub) (l : Log), one_of (kind e) AUTHOR_ONLY_KINDS = true → RConnKey m.1 (Some (pubkey e)) ∈ l).
  set (Qs := λ (m : Sub) (l : Log), is_shared_gated_kind (kind e) = true →
    ∃ pk, RConnKey m.1 (Some pk) ∈ l ∧ (pk = pubkey e ∨ is_unshared_gated_event e pk = false)).
  assert (Ht : ∀ m, stable (only calm) (Qt m)) by (intros; apply stable_in).
  assert (Ha : ∀ m, stable (only calm) (Qa m)) by (intros; apply stable_imp, stable_in).
  assert (Hs : ∀ m, stable (only calm) (Qs m)).
  { intros. apply stable_imp, stable_ex. intros pk. apply stable_and; [apply stable_in|apply stable_pure]. }
  eapply triple_mbind; [apply triple_rfilter; [apply tests_same_community|done|done]|]. intros m1.
  eapply triple_mbind.
  { apply triple_rfilter_if; [apply tests_author|intros; apply stable_in|by apply (stable_survivors Qt)]. }
  intros m2. set (F2 := λ l, F l ∧ ∀ m, m ∈ m2 → m ∈ matches ∧ (Qt m l ∧ Qa m l)).
  assert (HF2 : stable (only calm) F2).
  { apply (stable_survivors (λ m l, Qt m l ∧ Qa m l)); [done|]. intros m. by apply stable_and. }
  apply (triple_pre env P _ F2).
  2:{ intros l [[Hl Hm1] Hm2]. split; [done|]. intros m Hm. destruct (Hm2 m Hm) as [Hin ?].
      destruct (Hm1 m Hin). done. }
  eapply triple_mbind.
  { apply triple_rfilter_if; [apply tests_shared| |exact HF2].
    intros. apply stable_ex. intros pk. apply stable_and; [apply stable_in|apply stable_pure]. }
  intros m3. set (Q3 := λ m l, Qt m l ∧ Qa m l ∧ Qs m l).
  set (F3 := λ l, F l ∧ ∀ m, m ∈ m3 → m ∈ matches ∧ Q3 m l).
  assert (HF3 : stable (only calm) F3).
  { apply (stable_survivors Q3); [done|]. intros m. repeat apply stable_and; done. }
  apply (triple_pre env P _ F3).
  2:{ intros l [[Hl Hm2] Hm3]. split; [done|]. intros m Hm. destruct (Hm3 m Hm) as [Hin ?].
      destruct (Hm2 m Hin) as [? []]. done. }
  assert (Hpass : ∀ m l, Q3 m l → (∀ ch, se_channel_id ev = Some ch →
      (∃ tv, threaded = Some tv ∧ tv_community tv = c ∧ tv_channel tv = ch ∧ tv_visibility tv ≠ "private")
      ∨ (∃ t row, RRead (QChannel c ch) t (Ok row) ∈ l ∧ get_channel c ch t = Ok row ∧ ch_visibility row ≠ "private")
      ∨ (∃ pk t, RConnKey m.1 (Some pk) ∈ l ∧ RRead (QMember c ch pk) t (Ok true) ∈ l ∧ is_member c ch pk t = true)) →
    passed c ev threaded m.1 l).
  { intros m l (? & ? & ?) ?. by split. }
  destruct (se_channel_id ev) as [ch|] eqn:Ech.
  2:{ apply triple_mret. intros l [Hl Hm]. split; [done|]. intros m Hin. destruct (Hm m Hin). split; [done|]. by apply Hpass. }
  apply bind_visibility; [done|]. intros [v|err].
  2:{ apply triple_mret. intros l [[Hl _] _]. split; [done|]. by intros m ?%not_elem_of_nil. }
  case_bool_decide as Hv.
  - apply triple_mret. intros l [[Hl Hm] Hvis]. split; [done|]. intros m Hin. destruct (Hm m Hin). split; [done|].
    apply Hpass; [done|]. intros ch' [= <-].
    destruct Hvis as [[= ->]|[?|[(tv & ? & ? & ? & [= ->])|(t & row & ? & ? & [= ->])]]]; [done|done|left|right; left]; eauto 10.
  - eapply triple_conseq; [apply triple_rfilter; [apply tests_member| |exact HF3]|naive_solver|].
    + intros m. do 2 (apply stable_ex; intros ?). repeat apply stable_and; apply stable_in || apply stable_pure.
    + intros ms l [[Hl Hm3] Hms]. split; [done|]. intros m Hin. destruct (Hms m Hin) as [Hin3 ?].
      destruct (Hm3 m Hin3). split; [done|]. apply Hpass; [done|]. intros ch' [= <-]. by do 2 right.
Qed.

End gate.

(** ** Sending *)

Section send.
Context (P : Log → ReadEntry → Prop) (HP : ∀ l x, calm x → P l x).
Context (c : Uuid) (ev : StoredEvent) (threaded : option ThreadedChannelVisibility) (owner : option string).
Context (F : Log → Prop) (HF : ∀ P', stable P' F).
Context (HE : ∀ l m ok, F l → receives c ev threaded owner m l → P l (RSend m.1 (MEvent m.2 (se_event ev)) ok)).

Lemma triple_fan_out : triple env P F (fan_out c ev) (λ ms l, F l ∧ ∀ m, m ∈ ms → ∃ r, RFanOut c ev r ∈ l ∧ should_receive r c ev m).
Proof.
  unfold fan_out. apply bind_step. intros r. apply bind_log; [done..| |].
  - apply HF.
  - apply triple_mret. intros l [Hl Hin]. split; [done|]. intros m [_ Hm]%elem_of_fan_out. eauto.
Qed.

Lemma stable_matched (ms : list Sub) : stable (only calm) (λ l, F l ∧ ∀ m, m ∈ ms → ∃ r, RFanOut c ev r ∈ l ∧ should_receive r c ev m).
Proof.
  apply stable_and; [apply HF|]. intros l x Hx Hm m Hin. destruct (Hm m Hin) as (r & ? & ?). exists r. set_solver.
Qed.

(** The recipients of a run of the gate. *)
Lemma triple_recipients : triple env P F (ms ← fan_out c ev; filter_fanout_by_access c ev ms threaded)
  (λ ms l, F l ∧ ∀ m, m ∈ ms → (∃ r, RFanOut c ev r ∈ l ∧ should_receive r c ev m) ∧ passed c ev threaded m.1 l).
Proof.
  eapply triple_mbind; [apply triple_fan_out|]. intros ms. eapply triple_conseq; [apply triple_access; [done|apply (stable_matched ms)]|done|].
  intros ms' l [[Hl Hm] Hms]. split; [done|]. intros m Hin. destruct (Hms m Hin). split; [by apply Hm|done].
Qed.

Lemma keep_frames (ms : list Sub) :
  triple env P (λ l, F l ∧ ∀ m, m ∈ ms → receives c ev threaded owner m l) (send_fanout_frames (se_event ev) ms)
    (λ _ l, F l ∧ ∀ m, m ∈ ms → receives c ev threaded owner m l).
Proof.
  apply triple_rfor_each. intros m Hm w u w'. unfold rsend. intros E [Hl Hr].
  injection E as <- <-. simpl. split; [apply grows_snoc; [constructor|by apply HE; [|apply Hr]]|].
  split; [by apply (HF (λ _ _, True))|]. intros m' Hm'. apply (stable_receives (λ _ _, True)); [done|by apply Hr].
Qed.

End send.

Lemma triple_local P c ev F : (∀ l x, calm x → P l x) → (∀ P', stable P' F) →
  (∀ l m ok, F l → receives c ev None None m l → P l (RSend m.1 (MEvent m.2 (se_event ev)) ok)) →
  triple env P F (fan_out_event_to_local_subscribers c ev) (λ _, F).
Proof.
  intros HP HF HE. unfold fan_out_event_to_local_subscribers.
  assert (Hr := triple_recipients P HP c ev None None F HF HE).
  intros w u w' E Hl. unfold mbind, ReadM_bind in *.
  destruct (fan_out c ev env w) as [ms0 w0] eqn:E0. destruct (filter_fanout_by_access c ev ms0 None env w0) as [ms w1] eqn:E1.
  destruct (Hr w ms w1) as [Hg [Hl1 Hm]]; [by rewrite E0|done|].
  assert (Hret : (mret tt : ReadM unit) env w1 = (u, w') → grows P (rw_log w) (rw_log w') ∧ F (rw_log w')) by (by intros [= <- <-]).
  case_bool_decide; [by apply Hret|]. destruct (negb (json_encodes _)); [by apply Hret|].
  destruct (keep_frames P c ev None None F HF HE ms w1 u w' E) as [Hg' [Hl' _]].
  { split; [done|]. intros m Hin. destruct (Hm m Hin). by split_and!. }
  split; [by eapply grows_trans|done].
Qed.

Lemma keep_step {A : Type} P (f : Shared → A * Shared) F : triple env P F (rstep f) (λ _, F).
Proof.
  intros w a w'. unfold rstep. simpl. destruct (f _) as [b s]. intros [= <- <-] Hl. split; [constructor|done].
Qed.

(** Publishing leaves [RPublish] at most. *)
Lemma keep_publish P c topic e F : (∀ P', stable P' F) → (∀ l, F l → P l (RPublish (c, topic) e)) →
  triple env P F (publish_event c topic e) (λ _, F).
Proof.
  intros HF HE. unfold publish_event. apply bind_keep; [apply keep_step|]. intros _. apply bind_ask. intros [err|] n _; [apply keep_step|].
  intros w u w' [= <- <-] Hl. simpl. split; [apply grows_snoc; [constructor|by apply HE]|by apply (HF (λ _ _, True))].
Qed.

End live.

(** ** The paths *)

Section paths.
Context {NT : NostrTags} {HO : HashOrder} {UT : UuidText} {RC : RelayCrates} {FT : FullText} {TT : TraceText} {XC : ReadCrates}.
Context (env : ReadEnv).

(** The ways an event gets to live subscribers: from another process over
Redis, from the relay itself (the membership, thread summary, ref state, NIP-43,
huddle and repository events of [side_effects.rs], [audio/handler.rs] and
[api/git/], whose callers all go through [fan_out_event_to_local_subscribers]),
after it was stored, and from a client without being stored. *)
Inductive LivePath : Type :=
| LPubsub (c : Uuid) (topic : EventTopic) (e : Event)
| LLocal (c : Uuid) (ev : StoredEvent)
| LDispatch (t : Tenant) (ev : StoredEvent) (actor : string) (threaded : option ThreadedChannelVisibility)
| LEvent (conn : ConnectionState) (e : Event).

Definition run_live (p : LivePath) : ReadM unit :=
  match p with
  | LPubsub c topic e => fan_out_pubsub_event c topic e
  | LLocal c ev => fan_out_event_to_local_subscribers c ev
  | LDispatch t ev actor threaded => dispatch_persistent_event t ev actor threaded
  | LEvent conn e => _ ← handle_event conn e; mret tt
  end.

Definition live_community (p : LivePath) : Uuid :=
  match p with
  | LPubsub c _ _ | LLocal c _ => c
  | LDispatch t _ _ _ => community t
  | LEvent conn _ => community (conn_tenant conn)
  end.

(** The event that is delivered. *)
Definition live_event (p : LivePath) (ev : StoredEvent) : Prop :=
  match p with
  | LPubsub _ topic e => ∃ now, ev = StoredEvent_new now e (topic_channel topic)
  | LLocal _ ev' | LDispatch _ ev' _ _ => ev = ev'
  | LEvent _ e => ∃ now, ev = StoredEvent_new now e
      (if (kind e =? KIND_AGENT_OBSERVER_FRAME)%N then None else extract_channel_id parse_uuid e)
  end.

Definition live_threaded (p : LivePath) : option ThreadedChannelVisibility :=
  match p with LDispatch _ _ _ threaded => threaded | _ => None end.

Definition live_owner (p : LivePath) : option string :=
  match p with LDispatch _ ev _ _ => private_event_owner (se_event ev) | _ => None end.

(** The owner of an observer frame, from the session, the cache or the database. *)
Definition owner_known (c : Uuid) (agent owner : string) (l : Log) : Prop :=
  (∃ ctx, (∃ n, re_auth env n = Authenticated ctx) ∧ ac_agent_owner ctx = Some owner)
  ∨ ROwnerCached c agent owner true ∈ l
  ∨ ∃ t, RRead (QAgentOwner c agent owner) t (Ok true) ∈ l ∧ is_agent_owner c agent owner t = true.

(** What a client's event must pass before it is published. *)
Record checked (conn : ConnectionState) (e : Event) (ctx : AuthContext) (l : Log) : Prop := {
  checked_auth : ∃ n, re_auth env n = Authenticated ctx;
  checked_author : pubkey e = ac_pubkey ctx;
  checked_scope : ac_scopes ctx = [] ∨ MessagesWrite ∈ ac_scopes ctx;
  checked_signature : ∃ n, re_verify env n = Some (Ok tt);
  checked_observer : kind e = KIND_AGENT_OBSERVER_FRAME →
    ∃ route, agent_observer_route e = Ok (Some route)
      ∧ (∃ n, (Z.abs (i64_sub (as_i64 (created_at e)) (re_time env n)) <= 300)%Z)
      ∧ owner_known (community (conn_tenant conn)) (or_agent route) (or_owner route) l;
  checked_ephemeral : kind e ≠ KIND_AGENT_OBSERVER_FRAME →
    is_ephemeral (kind e) = true
    ∧ (∃ t, RRead (QServing (community (conn_tenant conn))) t (Ok true) ∈ l ∧ is_serving_active (community (conn_tenant conn)) t = true)
    ∧ ∀ ch, extract_channel_id parse_uuid e = Some ch →
        (∃ t, RRead (QMember (community (conn_tenant conn)) ch (ac_pubkey ctx)) t (Ok true) ∈ l
          ∧ is_member (community (conn_tenant conn)) ch (ac_pubkey ctx) t = true)
        ∨ (∃ t row, RRead (QChannel (community (conn_tenant conn)) ch) t (Ok row) ∈ l
          ∧ get_channel (community (conn_tenant conn)) ch t = Ok row ∧ ch_visibility row = "open")
}.

Definition live_checked (p : LivePath) (l : Log) : Prop :=
  match p with LEvent conn e => ∃ ctx, checked conn e ctx l | _ => True end.

Definition live_justified (p : LivePath) (l : Log) (x : ReadEntry) : Prop :=
  match x with
  | RSend conn (MEvent sub e) _ => live_checked p l ∧ ∃ ev, live_event p ev ∧ se_event ev = e
      ∧ receives (live_community p) ev (live_threaded p) (live_owner p) (conn, sub) l
  | RPublish k e => live_checked p l ∧ ∃ ev, live_event p ev ∧ se_event ev = e
      ∧ k = (live_community p, channel_topic (se_channel_id ev))
  | _ => True
  end.

Section path.
Context (p : LivePath).

Lemma live_calm l x : calm x → live_justified p l x.
Proof. destruct x; try done. by destruct m. Qed.

(** An event that was checked is published and delivered. *)
Lemma keep_live ev F : (∀ P', stable P' F) → live_event p ev → (∀ l, F l → live_checked p l) →
  live_threaded p = None → live_owner p = None →
  triple env (live_justified p) F (fan_out_event_to_local_subscribers (live_community p) ev) (λ _, F).
Proof.
  intros HF Hev Hc Ht Ho. apply triple_local; [apply live_calm|done|]. intros l [conn sub] ok Hl Hr. split; [by apply Hc|].
  exists ev. rewrite Ht, Ho. done.
Qed.

Lemma keep_live_publish ev F : (∀ P', stable P' F) → live_event p ev → (∀ l, F l → live_checked p l) →
  triple env (live_justified p) F (publish_event (live_community p) (channel_topic (se_channel_id ev)) (se_event ev)) (λ _, F).
Proof. intros HF Hev Hc. apply keep_publish; [done|]. intros l Hl. split; [by apply Hc|]. by exists ev. Qed.

End path.

Lemma keep_answer P F conn e b text : (∀ l x, calm x → P l x) → stable (only calm) F →
  triple env P F (answer conn e b text) (λ _, F).
Proof. intros HP HF. by apply (keep_send env conn P HP (MOk (id e) b text) tt F). Qed.

Lemma triple_pubsub c topic e :
  triple env (live_justified (LPubsub c topic e)) (λ _, True) (fan_out_pubsub_event c topic e) (λ _ _, True).
Proof.
  unfold fan_out_pubsub_event, now_secs.
  eapply triple_mbind; [apply bind_ask; intros t n _; by apply (triple_mret env _ _ _ (λ _ _, True))|]. intros now.
  apply bind_step. intros [|]; [apply keep_step|].
  apply (keep_live (LPubsub c topic e) (StoredEvent_new now e (topic_channel topic)) (λ _, True)); [done|by exists now|done..].
Qed.

(** A log entry that sends nothing. *)
Lemma keep_log P x F : (∀ l x, calm x → P l x) → calm x → stable (only calm) F → triple env P F (rlog x) (λ _, F).
Proof.
  intros HP Hx HF. eapply triple_conseq; [|done|].
  - eapply (triple_frame env P (only calm)); [by apply triple_rlog|intros l y; apply HP|exact HF].
  - by intros ? l [].
Qed.

Lemma keep_audit P c ev actor F : (∀ l x, calm x → P l x) → stable (only calm) F →
  triple env P F (enqueue_event_created_audit c ev actor) (λ _, F).
Proof. intros HP HF. apply bind_ask. intros [|] n _; [by apply keep_log|by apply triple_mret]. Qed.

Lemma triple_dispatch t ev actor threaded :
  triple env (live_justified (LDispatch t ev actor threaded)) (λ _, True) (dispatch_persistent_event t ev actor threaded) (λ _ _, True).
Proof.
  set (p := LDispatch t ev actor threaded). assert (HT : ∀ P', stable P' (λ _, True)) by (by intros).
  pose proof (live_calm p) as HP. unfold dispatch_persistent_event, dispatch_persistent_event_inner.
  apply bind_keep; [by apply keep_audit|]. intros _.
  apply bind_keep; [by apply (keep_live_publish p ev)|]. intros _.
  set (F := λ (ms : list Sub) (l : Log), ∀ m, m ∈ ms → (∃ r, RFanOut (community t) ev r ∈ l ∧ should_receive r (community t) ev m)
    ∧ passed (community t) ev threaded m.1 l).
  assert (HF : ∀ ms P', stable P' (F ms)).
  { intros ms P' l x Hx Hm m Hin. destruct (Hm m Hin) as [(r & ? & ?) ?]. split; [exists r; set_solver|].
    by eapply stable_passed. }
  set (M := λ (ms : list Sub) (l : Log), ∀ m, m ∈ ms → ∃ r, RFanOut (community t) ev r ∈ l ∧ should_receive r (community t) ev m).
  eapply (triple_mbind env _ _ _ _ M).
  { eapply triple_conseq; [apply (triple_fan_out env (live_justified p) HP (community t) ev (λ _, True)); done|done|naive_solver]. }
  intros ms0. eapply (triple_mbind env _ _ _ _ F).
  { eapply triple_conseq; [apply (triple_access env _ HP (community t) ev ms0 threaded (M ms0))|done|].
    - intros l x Hx Hm m Hin. destruct (Hm m Hin) as (r & ? & ?). exists r. set_solver.
    - intros ms l [Hm0 Hms] m Hin. destruct (Hms m Hin). auto. }
  intros ms. destruct (negb _); [by apply triple_mret|].
  eapply triple_mbind; [apply triple_rfilter; [by apply tests_owner| |apply HF]|].
  { intros m l x Hx Ho o Eo. specialize (Ho o Eo). set_solver. }
  intros recipients. apply (triple_pre env _ _ (λ l, True ∧ ∀ m, m ∈ recipients →
    receives (community t) ev threaded (private_event_owner (se_event ev)) m l)).
  2:{ intros l [Hm Hr]. split; [done|]. intros m Hin. destruct (Hr m Hin) as [Hin' ?]. destruct (Hm m Hin'). by split_and!. }
  eapply triple_mbind.
  { eapply (keep_frames env (live_justified p) (community t) ev threaded _ (λ _, True)); [done|].
    intros l [conn sub] ok _ Hr. split; [done|]. by exists ev. }
  intros []. apply (triple_pre env _ _ (λ _, True)); [|done].
  apply bind_keep; [by apply triple_mret|]. intros _. apply bind_ask. intros relay n _.
  case_match; [by apply keep_log|by apply triple_mret].
Qed.

(** ** A client's event *)

Section event.
Context (conn : ConnectionState) (e : Event).
Let p := LEvent conn e.
Notation c := (community (conn_tenant conn)).

Lemma end_answer {A : Type} F b text :
  triple env (live_justified p) F (finish (answer conn e b text)) (λ (_ : option A) _, True).
Proof.
  apply triple_finish, (triple_pre env _ _ (λ _, True)); [|done]. apply keep_answer; [apply live_calm|apply stable_pure].
Qed.

Lemma end_answer' F b text : triple env (live_justified p) F (answer conn e b text) (λ _ _, True).
Proof. apply (triple_pre env _ _ (λ _, True)); [|done]. apply keep_answer; [apply live_calm|apply stable_pure]. Qed.

Lemma bind_verify {B : Type} (k : result unit IngestError → ReadM B) F R :
  (∀ err, triple env (live_justified p) F (k (Err err)) R) →
  ((∃ n, re_verify env n = Some (Ok tt)) → triple env (live_justified p) F (k (Ok tt)) R) →
  triple env (live_justified p) F (verify_spawned ≫= k) R.
Proof.
  intros He Hk. eapply (triple_mbind env _ _ _ _ (λ r l, F l ∧ (r = Ok tt → ∃ n, re_verify env n = Some (Ok tt)))).
  { apply bind_ask. intros r n Hr. apply triple_mret. intros l Hl. split; [done|]. destruct r as [[[]|]|]; try done. by exists n. }
  intros [[]|err]; [|eapply triple_pre; [apply He|naive_solver]].
  apply (triple_pre env _ _ (λ l, (∃ n, re_verify env n = Some (Ok tt)) ∧ F l)); [|naive_solver].
  by apply triple_pure.
Qed.

Lemma bind_clock {B : Type} (k : N → ReadM B) F R :
  (∀ now, triple env (live_justified p) F (k now) R) → triple env (live_justified p) F (now_secs ≫= k) R.
Proof.
  intros Hk. eapply triple_mbind; [|exact Hk]. apply bind_ask. intros t n _. by apply triple_mret.
Qed.

Definition not_observer : Prop := kind e ≠ KIND_AGENT_OBSERVER_FRAME.

Lemma keep_presence pk F : stable (only calm) F →
  triple env (live_justified p) F (if (kind e =? KIND_PRESENCE_UPDATE)%N then update_presence c pk (presence_status (content e))
    else mret (Ok tt)) (λ _, F).
Proof.
  intros HF. case_match; [|by apply triple_mret]. apply bind_ask. intros [err|] n _; [by apply triple_mret|].
  apply bind_keep; [by apply keep_log; [apply live_calm|..]|]. intros _. by apply triple_mret.
Qed.

Lemma triple_sender_may_write ch pk F : stable (only calm) F →
  triple env (live_justified p) F (sender_may_write c ch pk) (λ r l, F l ∧ (r = Ok tt →
    (∃ t, RRead (QMember c ch pk) t (Ok true) ∈ l ∧ is_member c ch pk t = true)
    ∨ (∃ t row, RRead (QChannel c ch) t (Ok row) ∈ l ∧ get_channel c ch t = Ok row ∧ ch_visibility row = "open"))).
Proof.
  intros HF. apply bind_member; [apply live_calm|done|]. intros [[|]|err].
  - apply triple_mret. intros l [Hl [?|(t & Hr & Hlog)]]; [done|]. split; [done|]. intros _. left. exists t.
    injection Hr as Hr. by rewrite <-Hr.
  - apply bind_read; [apply live_calm|apply stable_and; [done|apply stable_answered]|]. intros res. apply triple_mret.
    intros l [[Hl _] Ha]. split; [done|]. destruct res as [row|]; [|done]. case_bool_decide as Hv; [|done]. intros _. right.
    destruct Ha as [?|(t & Hr & Hlog)]; [done|]. by exists t, row.
  - apply triple_mret. naive_solver.
Qed.

(** What [handle_event] checks of every event it does not hand to ingest. *)
Definition admitted_as (ctx : AuthContext) : Prop :=
  (∃ n, re_auth env n = Authenticated ctx) ∧ pubkey e = ac_pubkey ctx
  ∧ (ac_scopes ctx = [] ∨ MessagesWrite ∈ ac_scopes ctx).

Definition served (l : Log) : Prop :=
  ∃ t, RRead (QServing c) t (Ok true) ∈ l ∧ is_serving_active c t = true.

Lemma stable_served P : stable P served.
Proof. apply stable_ex. intros t. apply stable_and; [apply stable_in|apply stable_pure]. Qed.

Definition channel_checked (ctx : AuthContext) (l : Log) : Prop := ∀ ch, extract_channel_id parse_uuid e = Some ch →
  (∃ t, RRead (QMember c ch (ac_pubkey ctx)) t (Ok true) ∈ l ∧ is_member c ch (ac_pubkey ctx) t = true)
  ∨ (∃ t row, RRead (QChannel c ch) t (Ok row) ∈ l ∧ get_channel c ch t = Ok row ∧ ch_visibility row = "open").

Lemma stable_channel_checked P ctx : stable P (channel_checked ctx).
Proof.
  intros l x _ Hc ch Hch. destruct (Hc ch Hch) as [(t & ? & ?)|(t & row & ? & ? & ?)]; [left; exists t|right; exists t, row]; set_solver.
Qed.

(** Publishing an event after all its checks, and delivering it. *)
Lemma end_live {A : Type} ctx ch F (k : ReadM A) :
  (∀ P', stable P' F) → (∀ l, F l → checked conn e ctx l) →
  ch = (if (kind e =? KIND_AGENT_OBSERVER_FRAME)%N then None else extract_channel_id parse_uuid e) →
  triple env (live_justified p) F k (λ _ _, True) →
  triple env (live_justified p) F
    (_ ← publish_event c (channel_topic ch) e; now ← now_secs;
     _ ← fan_out_event_to_local_subscribers c (StoredEvent_new now e ch); k) (λ _ _, True).
Proof.
  intros HF Hc -> Hk. apply bind_keep.
  { apply (keep_live_publish p (StoredEvent_new 0 e _)); [done|by exists 0%N|]. intros l Hl. exists ctx. by apply Hc. }
  intros _. apply bind_clock. intros now. apply bind_keep; [|done].
  apply (keep_live p (StoredEvent_new now e _)); [done|by exists now| |done..]. intros l Hl. exists ctx. by apply Hc.
Qed.

Lemma triple_ephemeral ctx : admitted_as ctx → not_observer → is_ephemeral (kind e) = true →
  triple env (live_justified p) served (handle_ephemeral_event (conn_tenant conn) e (ac_pubkey ctx)) (λ _ _, True).
Proof.
  intros (Ha & Hpk & Hs) Ho Heph. unfold handle_ephemeral_event.
  assert (Hkind : (kind e =? KIND_AGENT_OBSERVER_FRAME)%N = false) by by apply N.eqb_neq.
  apply bind_verify; [intros; by apply triple_mret|]. intros Hv. apply bind_keep; [apply keep_presence, stable_served|].
  intros [[]|err]; [|by apply triple_mret].
  assert (Hchecked : ∀ l, served l ∧ channel_checked ctx l → checked conn e ctx l).
  { intros l [Hserved Hch]. split; [done..|by intros ?|done]. }
  destruct (extract_channel_id parse_uuid e) as [ch|] eqn:Ech.
  - eapply triple_mbind; [apply triple_sender_may_write, stable_served|]. intros [[]|text]; [|by apply triple_mret].
    apply (triple_pre env _ _ (λ l, served l ∧ channel_checked ctx l)).
    2:{ intros l [Hserved Hw]. split; [done|]. intros ch' Hch'. rewrite Ech in Hch'. injection Hch' as <-. by apply Hw. }
    apply (end_live ctx (Some ch)); [|done|by rewrite Hkind|by apply triple_mret].
    intros P'. apply stable_and; [apply stable_served|apply stable_channel_checked].
  - apply (triple_pre env _ _ (λ l, served l ∧ channel_checked ctx l)).
    2:{ intros l Hserved. split; [done|]. intros ch' Hch'. by rewrite Ech in Hch'. }
    apply (end_live ctx None); [|done|by rewrite Hkind|by apply triple_mret].
    intros P'. apply stable_and; [apply stable_served|apply stable_channel_checked].
Qed.

Lemma triple_owner_ok r F : stable (only calm) F →
  triple env (live_justified p) F (observer_owner_ok c r)
    (λ res l, F l ∧ (res = Ok true → owner_known c (or_agent r) (or_owner r) l)).
Proof.
  intros HF. unfold observer_owner_ok. apply bind_ask. intros auth n Ha.
  destruct (match auth with Authenticated ctx => _ | _ => false end) eqn:Em.
  { apply triple_mret. intros l Hl. split; [done|]. intros _. left. destruct auth as [|ctx|]; [done| |done].
    apply bool_decide_eq_true in Em. exists ctx. split; [by exists n|done]. }
  apply bind_step. intros [b|].
  - apply bind_log; [apply live_calm|done|done|]. apply triple_mret. intros l [Hl Hin]. split; [done|]. intros [= ->].
    right. by left.
  - apply bind_read; [apply live_calm|done|]. intros [b|err]; [|apply triple_mret; naive_solver].
    apply bind_step. intros _. apply triple_mret. intros l [Hl [?|(t & Hr & Hlog)]]; [done|]. split; [done|].
    intros [= ->]. injection Hr as Hr. right. right. exists t. done.
Qed.

Lemma triple_observer ctx : admitted_as ctx → kind e = KIND_AGENT_OBSERVER_FRAME →
  triple env (live_justified p) (λ _, True) (handle_agent_observer_event conn e) (λ _ _, True).
Proof.
  intros (Ha & Hpk & Hs) Ho. unfold handle_agent_observer_event.
  apply bind_verify; [intros [?|?|?|?]; apply end_answer'|]. intros Hv.
  apply bind_ask. intros now n Hnow. destruct (300 <? _)%Z eqn:Ef; [apply end_answer'|].
  destruct (agent_observer_route e) as [[route|]|text] eqn:Er; [|apply end_answer'..].
  eapply triple_mbind; [apply triple_owner_ok, stable_pure|]. intros [[|]|err]; [|apply end_answer'..].
  apply (triple_pre env _ _ (owner_known c (or_agent route) (or_owner route))); [|naive_solver].
  apply bind_keep.
  { case_match; [|by apply triple_mret]. apply bind_ask. intros t m _. apply keep_step. }
  intros [|]; [apply end_answer'|].
  apply (end_live ctx None); [| |by rewrite Ho|apply end_answer'].
  - intros P'. apply stable_or; [apply stable_pure|]. apply stable_or; [apply stable_in|].
    apply stable_ex. intros t. apply stable_and; [apply stable_in|apply stable_pure].
  - intros l Hl. split; [done..| |by intros ?]. intros _. exists route. split_and!; [done| |done].
    exists n. rewrite <-Hnow. apply Z.ltb_ge in Ef. lia.
Qed.

Lemma triple_handle_event : triple env (live_justified p) (λ _, True) (handle_event conn e) (λ _ _, True).
Proof.
  unfold handle_event. apply bind_ask. intros [|ctx|] n Ha; [apply end_answer| |apply end_answer].
  destruct (_ && negb _) eqn:Epk; [apply end_answer|]. case_match; [apply end_answer|].
  assert (Hadm : lacks_write ctx = false → kind e ≠ KIND_GIFT_WRAP → admitted_as ctx).
  { intros Hw Hg. split_and!; [by exists n| |].
    - apply andb_false_iff in Epk as [Epk|Epk]; [apply bool_decide_eq_false in Epk; by apply dec_stable|].
      apply negb_false_iff, N.eqb_eq in Epk. done.
    - unfold lacks_write in Hw. apply andb_false_iff in Hw as [Hw|Hw]; rewrite negb_false_iff, bool_decide_eq_true in Hw; auto. }
  destruct (kind e =? KIND_AGENT_OBSERVER_FRAME)%N eqn:Ek.
  { apply N.eqb_eq in Ek. destruct (lacks_write ctx) eqn:Ew; [apply end_answer|].
    apply triple_finish, (triple_observer ctx); [|done]. apply Hadm; [done|by rewrite Ek]. }
  destruct (is_ephemeral (kind e)) eqn:Eeph; [|by apply triple_mret].
  destruct (lacks_write ctx) eqn:Ew; [apply end_answer|].
  apply bind_read; [apply live_calm|apply stable_pure|]. intros [[|]|err]; [|apply end_answer..].
  apply (triple_pre env _ _ served).
  2:{ intros l [_ [?|(t & Hr & Hlog)]]; [done|]. injection Hr as Hr. by exists t. }
  eapply triple_mbind; [apply (triple_ephemeral ctx); [|by apply N.eqb_neq|done]|].
  { apply Hadm; [done|]. intros Hk. by rewrite Hk in Eeph. }
  intros [[]|err]; apply end_answer.
Qed.

End event.

Lemma triple_relay_event c ev :
  triple env (live_justified (LLocal c ev)) (λ _, True) (fan_out_event_to_local_subscribers c ev) (λ _ _, True).
Proof. by apply (keep_live (LLocal c ev) ev (λ _, True)). Qed.

Lemma triple_live p : triple env (live_justified p) (λ _, True) (run_live p) (λ _ _, True).
Proof.
  destruct p; [apply triple_pubsub|apply triple_relay_event|apply triple_dispatch|].
  eapply triple_mbind; [apply triple_handle_event|]. intros o. by apply triple_mret.
Qed.

End paths.

