(* ===== verification/QueryProps.v ===== *)
(** * QueryProps: a filter and its SQL

The theorem that links the two readings of a filter: the in-memory matcher of
[Filter], by which live events are delivered, and the WHERE clause that
[filter_to_query_params] and [apply_channel_scope_to_query] make of it, by
which history is.  Then COUNT, which trusts that clause. *)
From stdpp Require Import pretty.
From S2P Require Import Conformance Prelude Text Encode Nostr Kind Roles Filter Subscription IngestRules IngestEnvelopes EventStore IngestRun IngestThread Ingest ReadQuery ReadRules ReadRun ReadPath ReadRunProps ReadProps.

Section pushdown.
Context {NT : NostrTags} {HO : HashOrder} {UT : UuidText} {RC : RelayCrates} {FT : FullText} {TT : TraceText} {XC : ReadCrates}.

(** What the [nostr] and [uuid] crates document. *)
Record QueryLaws : Prop := {
  ql_kind t : tag_kind t = default "" (head t);
  ql_content t : tag_content t = t !! 1;
  ql_uuid u : parse_uuid (uuid_to_string u) = Some u
}.

(** A row whose columns say what its event says: the writer derives them from
the event when it stores it. *)
Record regular_row (t : Tables) (k : EventKey) (r : EventRow) : Prop := {
  rr_id : k.2 = id (er_event r);
  rr_ts : k.1.2 = Z.of_N (created_at (er_event r));
  rr_range : (Z.of_N (created_at (er_event r)) <= 8210266876799)%Z;
  rr_live : is_live r = true;
  rr_d v : is_parameterized_replaceable (kind (er_event r)) = true → v ∈ tag_values "d" (er_event r) → er_d_tag r = Some v;
  rr_p v : v ∈ tag_values "p" (er_event r) → mentioned t k.1.1 (to_ascii_lowercase v) k.2 = true;
  rr_h v : v ∈ tag_values "h" (er_event r) → is_Some (parse_uuid v) ∧ parse_uuid v = er_channel_id r
}.

(** A filter as the crate parses it: full ids, and times that do not wrap. *)
Record plain_filter (e : Event) (f : ReqFilter) : Prop := {
  pf_ids ids i : f_ids f = Some ids → i ∈ ids → String.length i = String.length (id e);
  pf_until u : f_until f = Some u → (u < 9223372036854775808)%N
}.

Context (HL : QueryLaws).

Lemma tag_value_in key v e : v ∈ tag_values key e → key ≠ "" → tags_contain key v (tags e) = true.
Proof.
  intros (t & Ht & Hk & Hc)%elem_of_tag_values Hne. rewrite (ql_kind HL) in Hk. rewrite (ql_content HL) in Hc.
  apply existsb_elem_of. exists t. split; [done|]. destruct t as [|a t]; [by simpl in Hk|]. simpl in Hk. subst a.
  apply list_elem_of_lookup_2 in Hc. rewrite andb_true_iff, !bool_decide_eq_true. split; [set_solver|done].
Qed.

Lemma shared_loop_tag n ts : shared_loop n ts = true → n = 1 ∨ tags_contain "shared" "true" ts = true.
Proof.
  revert n. induction ts as [|parts ts IH]; intros n; simpl; [intros ?%Nat.eqb_eq; auto|].
  repeat case_match; try done; intros Hs; (apply IH in Hs as [?|?]; [|right; by apply orb_true_intro; right]);
    repeat match goal with H : bool_decide _ = true |- _ => apply bool_decide_eq_true in H end; simplify_eq; auto.
Qed.

(** ** Channels *)

Lemma channel_of_values_all found has values found' has' : channel_of_values found has values = Some (found', has') →
  (∀ a, found = Some a → found' = Some a)
  ∧ ∀ v a, v ∈ values → parse_uuid v = Some a → found' = Some a.
Proof.
  revert found has. induction values as [|v values IH]; intros found has; simpl.
  { intros [= -> ->]. split; [done|]. by intros v a ?%not_elem_of_nil. }
  destruct (parse_uuid v) as [u|] eqn:Ev.
  - destruct found as [x|].
    + case_bool_decide as Hx; [done|]. subst x. intros [Hf Hv]%IH.
      split; [done|]. intros v' a [->|?]%elem_of_cons Ha; [|by eapply Hv]. rewrite Ev in Ha. injection Ha as <-. by apply Hf.
    + intros [Hf Hv]%IH. split; [done|]. intros v' a [->|?]%elem_of_cons Ha; [|by eapply Hv].
      rewrite Ev in Ha. injection Ha as <-. by apply Hf.
  - intros [Hf Hv]%IH. split; [done|]. intros v' a [->|?]%elem_of_cons Ha; [congruence|by eapply Hv].
Qed.

(** A channel named for all filters is the only one any of them names. *)
Lemma channel_of_filters_all found filters a f v u : channel_of_filters found filters = Some a →
  f ∈ filters → v ∈ default [] (tag_set f "h") → parse_uuid v = Some u → u = a.
Proof.
  revert found. induction filters as [|f0 filters IH]; intros found; simpl; [by intros _ ?%not_elem_of_nil|].
  destruct (channel_of_values found false _) as [[found' []]|] eqn:E; [|done..].
  intros Ha [->|Hf]%elem_of_cons Hv Hu; [|by eapply IH]. destruct (channel_of_values_all _ _ _ _ _ E) as [_ Hall].
  specialize (Hall v u Hv Hu). subst found'. clear -Ha. revert Ha. generalize u.
  assert (Hkeep : ∀ fs x, channel_of_filters (Some x) fs = Some a → x = a).
  { induction fs as [|f fs IH]; intros x; simpl; [by intros [= ->]|].
    destruct (channel_of_values (Some x) false _) as [[found' []]|] eqn:E; [|done..].
    destruct (channel_of_values_all _ _ _ _ _ E) as [Hx _]. rewrite (Hx x eq_refl). apply IH. }
  intros x. apply Hkeep.
Qed.

(** A filter without a channel leaves the request without one. *)
Lemma channel_of_filters_none found filters f : f ∈ filters → tag_set f "h" = None → channel_of_filters found filters = None.
Proof.
  intros Hf Hh. revert found. induction filters as [|f0 filters IH]; intros found; [by apply not_elem_of_nil in Hf|].
  simpl. apply elem_of_cons in Hf as [->|Hf]; [by rewrite Hh|].
  destruct (channel_of_values _ _ _) as [[found' []]|]; [by apply IH|done..].
Qed.

(** ** Each condition *)

Section row.
Context (filters : list ReqFilter) (f : ReqFilter) (Hf : f ∈ filters) (c : Uuid) (reader : string) (accessible : list Uuid).
Context (t : Tables) (k : EventKey) (r : EventRow) (stored : StoredEvent).
Context (Hreg : regular_row t k r) (Hplain : plain_filter (er_event r) f).
Context (Hk : k.1.1 = c) (Hs : row_to_stored_event k.1.2 r = Some stored).
Context (Ha : filter_accepts f stored).
Context (Hch : ∀ ch, er_channel_id r = Some ch → ch ∈ accessible) (Hvis : event_visible_to_reader (er_event r) reader = true).

Notation e := (er_event r).
Notation channel_id := (extract_channel_id_from_filters filters).
Let q := filter_query c reader f None channel_id accessible.

Lemma stored_event : se_event stored = e ∧ se_channel_id stored = er_channel_id r.
Proof. apply row_to_stored_event_channel in Hs as []. done. Qed.

Lemma tag_holds key values : tag_set f key = Some values → key ≠ "h" → ∃ v, v ∈ values ∧ v ∈ tag_values key e.
Proof.
  intros Ht Hkey. destruct (fa_tags _ _ Ha key values Ht) as [(v & Hv & Hin)|(-> & _)]; [|done].
  exists v. by rewrite (proj1 stored_event) in Hin.
Qed.

(** A filter that names channels names the row's. *)
Lemma h_holds values : tag_set f "h" = Some values → ∃ v ch, v ∈ values ∧ parse_uuid v = Some ch ∧ er_channel_id r = Some ch.
Proof.
  intros Ht. destruct (fa_tags _ _ Ha "h" values Ht) as [(v & Hv & Hin)|(_ & _ & ch & Hc & Hv)].
  - rewrite (proj1 stored_event) in Hin. destruct (rr_h _ _ _ Hreg v Hin) as [[ch E] Er]. exists v, ch. by rewrite <-Er.
  - rewrite (proj2 stored_event) in Hc. exists (uuid_to_string ch), ch. by rewrite (ql_uuid HL).
Qed.

Lemma channel_selected : channel_scope_ok q (er_channel_id r) = true.
Proof.
  unfold q, filter_query. set (ch := filter_channel f channel_id).
  set (q0 := set_before_id None (filter_to_query_params f ch c)).
  assert (H0 : eq_channel_id q0 = ch ∧ eq_global_only q0 = false ∧ eq_channel_ids q0 = None ∧ eq_include_global q0 = true).
  { unfold q0, filter_to_query_params. destruct (match f_authors f with Some _ => _ | None => _ end).
    by destruct (if only_kinds _ f then _ else _). }
  destruct H0 as (E1 & E2 & E3 & E4). clearbody q0.
  assert (Hshared : ∀ q', channel_scope_ok (if filter_can_match_shared_gated_kinds f then set_shared_reader (Some reader) q' else q')
    (er_channel_id r) = channel_scope_ok q' (er_channel_id r)) by (intros; by case_match).
  rewrite Hshared. unfold apply_channel_scope_to_query, channel_scope_ok.
  destruct (tag_set f "h") as [values|] eqn:Eh.
  - destruct (h_holds values Eh) as (v & u & Hv & Hu & Hr). rewrite Hr.
    destruct ch as [a|] eqn:Ech.
    + rewrite E1, E3. simpl. rewrite andb_true_r. apply bool_decide_eq_true. f_equal. subst ch. unfold filter_channel in Ech.
      destruct (extract_channel_id_from_filter f) as [a'|] eqn:Ef.
      * injection Ech as ->. unfold extract_channel_id_from_filter in Ef. rewrite Eh in Ef.
        destruct values as [|v' [|]]; [done| |done]. apply list_elem_of_singleton in Hv as ->. congruence.
      * eapply channel_of_filters_all; [exact Ech|exact Hf|by rewrite Eh|exact Hu].
    + simpl. rewrite E1, E2. simpl. apply bool_decide_eq_true. rewrite list_elem_of_In, filter_In, bool_decide_eq_true.
      split; [|by apply Hch]. apply list_elem_of_In, list_elem_of_omap. eauto.
  - assert (Hnone : ch = None).
    { subst ch. unfold filter_channel, extract_channel_id_from_filter. rewrite Eh.
      by apply (channel_of_filters_none None filters f). }
    rewrite Hnone. simpl. rewrite E1, E2, E4, Hnone. simpl. destruct (er_channel_id r) as [u|]; [|done].
    by apply bool_decide_eq_true, Hch.
Qed.

(** The other columns. *)
Record columns (q : EventQuery) : Prop := {
  co_community : eq_community_id q = c;
  co_kinds : eq_kinds q = f_kinds f;
  co_pubkey a : eq_pubkey q = Some a → f_authors f = Some [a];
  co_authors l : eq_authors q = Some l → f_authors f = Some l;
  co_ids l : eq_ids q = Some l → f_ids f = Some l;
  co_e l : eq_e_tags q = Some l → tag_set f "e" = Some l;
  co_p v : eq_p_tag_hex q = Some v → tag_set f "p" = Some [v];
  co_d v : eq_d_tag q = Some v → only_kinds is_parameterized_replaceable f = true ∧ tag_set f "d" = Some [v];
  co_ds l : eq_d_tags q = Some l → only_kinds is_parameterized_replaceable f = true ∧ tag_set f "d" = Some l;
  co_since : eq_since q = f_since f ≫= (λ s, from_timestamp (as_i64 s));
  co_until : eq_until q = f_until f ≫= (λ s, from_timestamp (as_i64 s));
  co_before : eq_before_id q = None;
  co_custom : eq_custom_tag q = None
}.

Lemma columns_channels q' x g : columns q' → columns (set_channels x g q').
Proof. by intros []. Qed.
Lemma columns_shared q' x : columns q' → columns (set_shared_reader x q').
Proof. by intros []. Qed.
Lemma columns_before q' : columns q' → columns (set_before_id None q').
Proof. by intros []. Qed.

Lemma columns_params ch : columns (filter_to_query_params f ch c).
Proof.
  unfold filter_to_query_params.
  destruct (match f_authors f with Some _ => _ | None => _ end) as [pk authors] eqn:Eauth.
  destruct (if only_kinds _ f then _ else _) as [d ds] eqn:Ed. split; simpl; try done; intros x Hx; subst.
  1,2: by (destruct (f_authors f) as [[|a [|b l]]|]; simplify_eq).
  1,2: by (repeat case_match; simplify_eq).
  - by (destruct (tag_set f "p") as [[|v [|]]|]; simplify_eq).
  - destruct (only_kinds _ f); [|done]. by (destruct (tag_set f "d") as [[|v [|]]|]; simplify_eq).
  - destruct (only_kinds _ f); [|done]. by (destruct (tag_set f "d") as [[|v [|]]|]; simplify_eq).
Qed.

Lemma columns_query : columns q.
Proof.
  unfold q, filter_query, apply_channel_scope_to_query. pose proof (columns_before _ (columns_params (filter_channel f channel_id))).
  repeat case_match; eauto using columns_shared, columns_channels.
Qed.

Lemma as_i64_small n : (n < 9223372036854775808)%N → as_i64 n = Z.of_N n.
Proof.
  intros Hn. unfold as_i64. rewrite Z.mod_small by lia. case_match; [done|]. lia.
Qed.

Lemma in_list_some {A : Type} `{EqDecision A} (o : option (list A)) (x : A) : (∀ l, o = Some l → x ∈ l) → in_list o x = true.
Proof.
  intros Ho. unfold in_list, bound. destruct o as [l|]; [|done]. apply orb_true_iff. right. by apply bool_decide_eq_true, Ho.
Qed.

Lemma id_selected : in_list (eq_ids q) k.2 = true.
Proof.
  apply in_list_some. intros l Hl. apply (co_ids _ columns_query) in Hl.
  destruct (fa_ids _ _ Ha l Hl) as (i & Hi & Hpre). rewrite (proj1 stored_event) in Hpre.
  rewrite (rr_id _ _ _ Hreg). pose proof (pf_ids _ _ Hplain l i Hl Hi) as Hlen.
  assert (i = id e) as <-; [|done]. clear -Hpre Hlen. unfold starts_with in Hpre. revert Hpre Hlen.
  generalize (id e). induction i as [|a i IH]; intros [|b s]; simpl; try done.
  case_match; [|done]. subst. intros Hpre [= Hlen]. f_equal. by apply IH.
Qed.

Lemma kind_selected : in_list (eq_kinds q) (kind e) = true.
Proof.
  apply in_list_some. intros l Hl. rewrite (co_kinds _ columns_query) in Hl. rewrite <-(proj1 stored_event).
  by apply (fa_kinds _ _ Ha).
Qed.

Lemma author_selected : bound (eq_pubkey q) (λ pk, bool_decide (pubkey e = pk)) = true ∧ in_list (eq_authors q) (pubkey e) = true.
Proof.
  split.
  - destruct (eq_pubkey q) as [a|] eqn:E; [|done]. apply (co_pubkey _ columns_query) in E.
    pose proof (fa_authors _ _ Ha _ E) as Hin. rewrite (proj1 stored_event) in Hin. apply list_elem_of_singleton in Hin.
    by apply bool_decide_eq_true.
  - apply in_list_some. intros l Hl. apply (co_authors _ columns_query) in Hl. rewrite <-(proj1 stored_event).
    by apply (fa_authors _ _ Ha).
Qed.

Lemma d_selected : match eq_d_tag q with
  | Some d => bool_decide (er_d_tag r = Some d)
  | None => bound (eq_d_tags q) (λ ds, bool_decide (ds = []) || existsb (λ d, bool_decide (er_d_tag r = Some d)) ds)
  end = true.
Proof.
  assert (Hd : ∀ l, only_kinds is_parameterized_replaceable f = true → tag_set f "d" = Some l →
    ∃ v, v ∈ l ∧ er_d_tag r = Some v).
  { intros l Ho Hl. destruct (tag_holds "d" l Hl) as (v & Hv & Hin); [done|]. exists v. split; [done|].
    apply (rr_d _ _ _ Hreg); [|done]. unfold only_kinds in Ho. destruct (f_kinds f) as [kinds|] eqn:Ek; [|done].
    destruct kinds as [|k0 ks]; [done|]. rewrite forallb_elem_of in Ho. apply Ho. rewrite <-(proj1 stored_event).
    by apply (fa_kinds _ _ Ha). }
  destruct (eq_d_tag q) as [d|] eqn:E.
  - apply (co_d _ columns_query) in E as [Ho Et]. destruct (Hd _ Ho Et) as (v & ->%list_elem_of_singleton & ?).
    by apply bool_decide_eq_true.
  - destruct (eq_d_tags q) as [ds|] eqn:E'; [|done]. apply (co_ds _ columns_query) in E' as [Ho Et].
    destruct (Hd _ Ho Et) as (v & Hv & ?). simpl. apply orb_true_iff. right. apply existsb_elem_of. exists v.
    split; [done|]. by apply bool_decide_eq_true.
Qed.

Lemma tags_selected : bound (eq_p_tag_hex q) (λ p, mentioned t k.1.1 (to_ascii_lowercase p) k.2) = true
  ∧ bound (eq_e_tags q) (λ es, bool_decide (es = []) || existsb (λ h, tags_contain "e" h (tags e)) es) = true.
Proof.
  split.
  - destruct (eq_p_tag_hex q) as [p|] eqn:E; [|done]. apply (co_p _ columns_query) in E.
    destruct (tag_holds "p" [p] E) as (v & ->%list_elem_of_singleton & Hin); [done|]. by apply (rr_p _ _ _ Hreg).
  - destruct (eq_e_tags q) as [es|] eqn:E; [|done]. apply (co_e _ columns_query) in E.
    destruct (tag_holds "e" es E) as (v & Hv & Hin); [done|]. simpl. apply orb_true_iff. right.
    apply existsb_elem_of. exists v. split; [done|]. by apply tag_value_in.
Qed.

Lemma times_selected : bound (eq_since q) (λ s, (s <=? k.1.2)%Z) = true ∧ bound (eq_until q) (λ u, (k.1.2 <=? u)%Z) = true.
Proof.
  rewrite (co_since _ columns_query), (co_until _ columns_query), (rr_ts _ _ _ Hreg).
  pose proof (rr_range _ _ _ Hreg). split.
  - destruct (f_since f) as [s|] eqn:E; [|done]. simpl. pose proof (fa_since _ _ Ha s E) as Hle. rewrite (proj1 stored_event) in Hle.
    rewrite as_i64_small by lia. unfold from_timestamp. case_bool_decide; [|done]. simpl. apply Z.leb_le. lia.
  - destruct (f_until f) as [u|] eqn:E; [|done]. simpl. pose proof (fa_until _ _ Ha u E) as Hle. rewrite (proj1 stored_event) in Hle.
    pose proof (pf_until _ _ Hplain u E). rewrite as_i64_small by lia. unfold from_timestamp. case_bool_decide; [|done].
    simpl. apply Z.leb_le. lia.
Qed.

Lemma shared_selected : bound (eq_shared_gated_reader q) (λ rd,
  negb (is_shared_gated_kind (kind e)) || bool_decide (pubkey e = rd) || tags_contain "shared" "true" (tags e)) = true.
Proof.
  assert (Hr : ∀ rd, eq_shared_gated_reader q = Some rd → rd = reader).
  { unfold q, filter_query, apply_channel_scope_to_query, filter_to_query_params. intros rd.
    destruct (match f_authors f with Some _ => _ | None => _ end). destruct (if only_kinds _ f then _ else _).
    by destruct (filter_can_match_shared_gated_kinds f), (filter_channel f channel_id), (tag_set f "h"); intros [= <-]. }
  destruct (eq_shared_gated_reader q) as [rd|]; [|done]. rewrite (Hr rd eq_refl). simpl.
  unfold event_visible_to_reader in Hvis. destruct (is_author_only_event _ _); [done|].
  unfold is_unshared_gated_event in Hvis. destruct (is_shared_gated_kind (kind e)); [|done]. simpl in *.
  case_decide as Hp; [by rewrite bool_decide_eq_true_2|]. destruct (event_is_shared e) eqn:Es; [|done].
  apply shared_loop_tag in Es as [?|Es]; [done|]. rewrite Es. apply orb_true_r.
Qed.

Lemma row_is_selected : row_matches q t k r = true.
Proof.
  pose proof channel_selected as H1. pose proof id_selected as H2. pose proof kind_selected as H3.
  destruct author_selected as [H4 H5]. pose proof d_selected as H6. destruct tags_selected as [H7 H8].
  destruct times_selected as [H9 H10]. pose proof shared_selected as H11. pose proof columns_query as Hq.
  fold q in H1. revert H1 H2 H3 H4 H5 H6 H7 H8 H9 H10 H11. destruct k as [[c' ts] id'] eqn:Ek.
  unfold row_matches, row_selected. simpl in *. rewrite (co_before _ Hq), (co_custom _ Hq), (co_community _ Hq).
  intros. rewrite (bool_decide_eq_true_2 _ Hk), (rr_live _ _ _ Hreg). simpl.
  rewrite !andb_true_iff. by split_and!.
Qed.

Lemma query_not_empty : matches_nothing q = false.
Proof.
  unfold matches_nothing. rewrite !orb_false_iff, !bool_decide_eq_false. pose proof columns_query as Hq. split_and!; intros E.
  - rewrite (co_kinds _ Hq) in E. by apply (fa_kinds _ _ Ha), not_elem_of_nil in E.
  - apply (co_authors _ Hq) in E. by apply (fa_authors _ _ Ha), not_elem_of_nil in E.
  - apply (co_ids _ Hq) in E. destruct (fa_ids _ _ Ha _ E) as (i & ?%not_elem_of_nil & _). done.
  - apply (co_e _ Hq) in E. destruct (tag_holds "e" [] E) as (v & ?%not_elem_of_nil & _); done.
Qed.

End row.

Lemma query_limits filters f c reader accessible : let q := filter_query c reader f None (extract_channel_id_from_filters filters) accessible in
  eq_offset q = None ∧ eq_max_limit q = None ∧ (default 100%Z (eq_limit q) <= DEFAULT_MAX_PAGE_LIMIT)%Z.
Proof.
  unfold filter_query, apply_channel_scope_to_query, filter_to_query_params.
  destruct (match f_authors f with Some _ => _ | None => _ end). destruct (if only_kinds _ f then _ else _).
  destruct (filter_can_match_shared_gated_kinds f), (filter_channel f _), (tag_set f "h"); simpl; split_and!;
    try done; destruct (rf_limit f); unfold DEFAULT_MAX_PAGE_LIMIT; lia.
Qed.

End pushdown.

(** C18. History hides nothing that it indexed.  Take a live row whose columns say
what its event says (one [d] value, every [p] value in the mentions, every [h]
value its channel) and a filter of a request with full ids and an [until] below
2^63, without the cursor of a further page.  Where the filter accepts the event in
memory, in a channel its reader has (or in none) and visible to the reader, the
event is selected by the SQL that the request makes of the filter; when the
selection fits the limit, it is among the rows the request reads. *)
Theorem history_hides_nothing {NT : NostrTags} {HO : HashOrder} {UT : UuidText} {RC : RelayCrates} {FT : FullText}
    {TT : TraceText} {XC : ReadCrates} (filters : list ReqFilter) (f : ReqFilter) (c : Uuid) (reader : string)
    (accessible : list Uuid) (t : Tables) (k : EventKey) (r : EventRow) (stored : StoredEvent) :
  QueryLaws → f ∈ filters → events t !! k = Some r → regular_row t k r → plain_filter (er_event r) f →
  k.1.1 = c → row_to_stored_event k.1.2 r = Some stored → filters_match [rf_filter f] stored = true →
  (∀ ch, er_channel_id r = Some ch → ch ∈ accessible) → event_visible_to_reader (er_event r) reader = true →
  let q := filter_query c reader f None (extract_channel_id_from_filters filters) accessible in
  (k, r) ∈ ordered_rows (row_matches q t) t
  ∧ ∀ rows, query_events q t = Ok rows → (Z.of_nat (length (ordered_rows (row_matches q t) t)) <= default 100%Z (eq_limit q))%Z →
      stored ∈ rows.
Proof.
  intros HL Hf Ht Hreg Hplain Hk Hs Hm Hch Hvis q.
  apply filters_match_iff in Hm as (f' & ->%list_elem_of_singleton & Ha).
  assert (Hsel : row_matches q t k r = true) by (by eapply row_is_selected).
  assert (Hin : (k, r) ∈ ordered_rows (row_matches q t) t) by (by apply elem_of_ordered_rows).
  split; [done|]. intros rows Hq Hlen.
  assert (Hne : matches_nothing q = false) by (by eapply query_not_empty).
  destruct (query_limits filters f c reader accessible) as (Ho & Hmax & Hlim). fold q in Ho, Hmax, Hlim.
  unfold query_events in Hq. rewrite Hne, Ho, Hmax in Hq. simpl in Hq. rewrite Z.min_l in Hq by done.
  repeat (case_match; [done|]). injection Hq as <-.
  apply elem_of_rows_to_events. exists k, r. split; [|done]. rewrite drop_0, take_ge; [done|]. lia.
Qed.

(** * What a COUNT counts

The theorem on [handle_count]: the rows behind an answer are ones its reader
may see, where the [#h] tag of a filter has one value when it names one
channel. *)

(** ** Queries and their filters *)

Section queries.
Context {NT : NostrTags} {HO : HashOrder} {UT : UuidText} {RC : RelayCrates} {FT : FullText} {TT : TraceText} {XC : ReadCrates}.

(** What a query takes over from its filter. *)
Record query_of (f : ReqFilter) (c : Uuid) (q : EventQuery) : Prop := {
  qo_community : eq_community_id q = c;
  qo_kinds : eq_kinds q = f_kinds f;
  qo_pubkey a : f_authors f = Some [a] → eq_pubkey q = Some a;
  qo_authors a b l : f_authors f = Some (a :: b :: l) → eq_authors q = Some (a :: b :: l);
  qo_p v : tag_set f "p" = Some [v] → eq_p_tag_hex q = Some v;
  qo_channel : eq_channel_id q = extract_channel_id_from_filter f
}.

Lemma build_query_of f c : query_of f c (build_event_query_from_filter f c).
Proof.
  unfold build_event_query_from_filter, filter_to_query_params.
  destruct (if only_kinds is_parameterized_replaceable f then _ else _) as [d ds] eqn:Ed. clear Ed.
  destruct (f_authors f) as [[|a [|b l]]|] eqn:Ea; split; simpl; try done;
    try (intros ? ->; done); try (intros ???; congruence); intros ?; congruence.
Qed.

Lemma query_of_channels f c q x g : query_of f c q → query_of f c (set_channels x g q).
Proof. by intros []. Qed.
Lemma query_of_limits f c q x y : query_of f c q → query_of f c (set_limits x y q).
Proof. by intros []. Qed.
Lemma query_of_shared f c q reader : query_of f c q → query_of f c (count_shared f reader q).
Proof. intros []. unfold count_shared. by case_match. Qed.
Lemma query_of_scope f c q ch accessible : query_of f c q → query_of f c (apply_channel_scope_to_query q f ch accessible).
Proof. intros []. unfold apply_channel_scope_to_query. by repeat case_match. Qed.

(** ** Visible rows *)

Definition mention_of (c : Uuid) (reader : string) (t : Tables) (k : EventKey) : bool :=
  mentioned t c (to_ascii_lowercase reader) k.2.

(** A row of a sensitive kind that [reader] may count. *)
Record countable_row (c : Uuid) (reader : string) (t : Tables) (k : EventKey) (e : Event) : Prop := {
  cr_author : one_of (kind e) AUTHOR_ONLY_KINDS = true → to_ascii_lowercase (pubkey e) = to_ascii_lowercase reader;
  cr_shared : is_unshared_gated_event e reader = false;
  cr_gated : reader_authorized_for_event e reader = true ∨ mention_of c reader t k = true
}.

Lemma countable_visible c reader t k e : event_visible_to_reader e reader = true → countable_row c reader t k e.
Proof.
  unfold event_visible_to_reader, is_author_only_event. intros Hv.
  destruct (_ && _) eqn:Ea; [done|]. destruct (is_unshared_gated_event e reader) eqn:Es; [done|].
  split; [|done|by left]. intros Hk. rewrite Hk in Ea. simpl in Ea. apply bool_decide_eq_false, dec_stable in Ea. by rewrite Ea.
Qed.

Lemma can_match_selected ks f c q e : query_of f c q → matches_nothing q = false → in_list (eq_kinds q) (kind e) = true →
  one_of (kind e) ks = true → can_match ks f = true.
Proof.
  intros Hq Hn Hin Hk. unfold can_match. rewrite (qo_kinds _ _ _ Hq) in Hin. unfold in_list, bound in Hin.
  unfold matches_nothing in Hn. rewrite (qo_kinds _ _ _ Hq) in Hn.
  destruct (f_kinds f) as [kinds|]; [|done]. apply existsb_elem_of. exists (kind e). split; [|done].
  apply orb_true_iff in Hin as [Hin|Hin]; apply bool_decide_eq_true in Hin; [|done]. by subst kinds.
Qed.

Lemma only_tagged_single reader f : filter_fully_pushable f = true → only_tagged "p" reader f = true →
  tag_set f "p" = Some [reader].
Proof.
  intros Hp Ho. unfold only_tagged in Ho. destruct (tag_set f "p") as [values|] eqn:Et; [|done].
  apply andb_true_iff in Ho as [Hne Hall]. unfold filter_fully_pushable in Hp. apply andb_true_iff in Hp as [Hp _].
  apply negb_true_iff, not_true_iff_false in Hp. rewrite existsb_elem_of in Hp.
  assert (Hlen : tag_unpushable (only_kinds is_parameterized_replaceable f) "p" values = false).
  { apply not_true_iff_false. intros Hu. apply Hp. exists ("p", values). split; [|done]. by apply elem_of_map_to_list. }
  simpl in Hlen. destruct values as [|v [|]]; [done| |done]. simpl in Hall. rewrite andb_true_r in Hall.
  by apply String.eqb_eq in Hall as ->.
Qed.

(** Rows that SQL counts by itself. *)
Lemma countable_by_sql f c reader q t k r : query_of f c q → count_by_sql f reader = true → matches_nothing q = false →
  row_counts q t k r = true → countable_row c reader t k (er_event r).
Proof.
  intros Hq Hs Hn Hr. unfold count_by_sql in Hs. rewrite !andb_true_iff in Hs. destruct Hs as [[[Hpush Ha] Hg] Hsh].
  unfold row_counts, row_selected in Hr. destruct k as [[c' ts] id']. rewrite !andb_true_iff in Hr.
  destruct Hr as [[[[[[[[[[[Hc _] Hp] _] Hk] Hpk] Hau] _] _] _] _] _]. apply bool_decide_eq_true in Hc. subst c'.
  rewrite (qo_community _ _ _ Hq) in Hp.
  split.
  - intros Hkind. apply orb_true_iff in Ha as [Ha|Ha].
    { unfold filter_can_match_author_only_kinds in Ha. by rewrite (can_match_selected _ _ _ _ _ Hq Hn Hk Hkind) in Ha. }
    unfold authors_only in Ha. destruct (f_authors f) as [[|a [|b l]]|] eqn:Ef; [done| | |done]; simpl in Ha.
    + rewrite (qo_pubkey _ _ _ Hq _ Ef) in Hpk. apply bool_decide_eq_true in Hpk as ->.
      rewrite andb_true_r in Ha. by apply String.eqb_eq in Ha.
    + rewrite (qo_authors _ _ _ Hq _ _ _ Ef) in Hau. unfold in_list, bound in Hau.
      apply orb_true_iff in Hau as [Hau|Hau]; apply bool_decide_eq_true in Hau; [done|].
      change (forallb (λ a, String.eqb (to_ascii_lowercase a) (to_ascii_lowercase reader)) (a :: b :: l) = true) in Ha.
      rewrite forallb_elem_of in Ha. by apply String.eqb_eq, Ha.
  - apply negb_true_iff in Hsh. unfold is_unshared_gated_event, is_shared_gated_kind.
    destruct (one_of (kind (er_event r)) SHARED_GATED_KINDS) eqn:Eg; [|done].
    unfold filter_can_match_shared_gated_kinds in Hsh. by rewrite (can_match_selected _ _ _ _ _ Hq Hn Hk Eg) in Hsh.
  - apply negb_true_iff, andb_false_iff in Hg.
    destruct (one_of (kind (er_event r)) RESULT_GATED_KINDS) eqn:Eg.
    + right. destruct Hg as [Hg|Hg].
      { unfold filter_can_match_result_gated_kinds in Hg. by rewrite (can_match_selected _ _ _ _ _ Hq Hn Hk Eg) in Hg. }
      apply negb_false_iff in Hg. pose proof (only_tagged_single _ _ Hpush Hg) as Hv.
      rewrite (qo_p _ _ _ Hq _ Hv) in Hp. exact Hp.
    + left. unfold reader_authorized_for_event, event_kind_u32. unfold one_of, RESULT_GATED_KINDS in Eg. simpl in Eg.
      apply orb_false_iff in Eg as [E1 Eg]. apply orb_false_iff in Eg as [E2 _]. by rewrite E1, E2.
Qed.

End queries.

(** ** Counting *)

Section count.
Context {NT : NostrTags} {HO : HashOrder} {UT : UuidText} {RC : RelayCrates} {FT : FullText} {TT : TraceText} {XC : ReadCrates}.
Context (env : ReadEnv) (conn : ConnectionState) (sub_id : string).

Notation c := (community (conn_tenant conn)).

(** A row met by a read of tables [t] that the reader may count. *)
Record may_count (ctx : AuthContext) (l : Log) (t : Tables) (k : EventKey) (r : EventRow) : Prop := {
  mc_row : events t !! k = Some r ∧ k.1.1 = c ∧ is_live r = true;
  mc_channel ch : er_channel_id r = Some ch → confirmed conn ctx l ch;
  mc_visible : countable_row c (ac_pubkey ctx) t k (er_event r)
}.

(** [n] distinct rows of the tables one read met, all countable. *)
Definition counted (ctx : AuthContext) (n : N) (l : Log) : Prop :=
  n = 0%N ∨ ∃ (A : Type) (q : Read A) t res rows, RRead q t res ∈ l ∧ n = N.of_nat (length rows)
    ∧ NoDup rows.*1 ∧ ∀ k r, (k, r) ∈ rows → may_count ctx l t k r.

Definition totals (ctx : AuthContext) (filters : nat) (total : N) (l : Log) : Prop :=
  ∃ parts, length parts = filters ∧ total = foldr N.add 0%N parts ∧ ∀ n, n ∈ parts → counted ctx n l.

Lemma stable_counted P ctx n : stable P (counted ctx n).
Proof.
  apply stable_or; [apply stable_pure|]. intros l x HP (A & q & t & res & rows & Hin & Hn & Hnd & Hrows).
  exists A, q, t, res, rows. split; [apply elem_of_app; by left|]. split_and!; [done..|]. intros k r Hkr.
  destruct (Hrows k r Hkr) as [? Hch ?]. split; [done| |done]. intros ch Ech. eapply stable_confirmed; eauto.
Qed.

Lemma stable_totals P ctx fs n : stable P (totals ctx fs n).
Proof.
  apply stable_ex. intros parts. repeat (apply stable_and; [apply stable_pure|]). intros l x HP H n' Hn'.
  eapply stable_counted; eauto.
Qed.

(** The channels a query is held to. *)
Definition scoped_to (q : EventQuery) (accessible : list Uuid) : Prop :=
  ∀ ch, channel_scope_ok q (Some ch) = true → ch ∈ accessible.

Lemma row_selected_scope q t k r : row_selected q t k r = true → channel_scope_ok q (er_channel_id r) = true.
Proof. destruct k as [[? ?] ?]. unfold row_selected. rewrite !andb_true_iff. tauto. Qed.

Lemma row_selected_live q t k r : row_selected q t k r = true → k.1.1 = eq_community_id q ∧ is_live r = true.
Proof. destruct k as [[c' ts] id']. unfold row_selected. rewrite !andb_true_iff, bool_decide_eq_true. simpl. tauto. Qed.

Lemma sublist_filter {A : Type} (p : A → bool) (l : list A) : List.filter p l `sublist_of` l.
Proof. induction l as [|x l IH]; simpl; [done|]. case_match; by constructor. Qed.

Lemma sublist_page {A : Type} n m (l : list A) : take n (drop m l) `sublist_of` l.
Proof. etrans; [apply sublist_take|]. rewrite <-(take_drop m l) at 2. by apply sublist_inserts_l. Qed.

Lemma count_events_counted ctx l f q t accessible (A : Type) (q0 : Read A) res :
  query_of f c q → count_by_sql f (ac_pubkey ctx) = true → scoped_to q accessible → channels_ok conn ctx accessible l →
  RRead q0 t res ∈ l → counted ctx (count_events q t) l.
Proof.
  intros Hq Hs Hsc Hch Hlog. unfold count_events. destruct (matches_nothing q) eqn:Hn; [by left|right].
  exists A, q0, t, res, (List.filter (λ kr, row_counts q t kr.1 kr.2) (map_to_list (events t))).
  split; [done|]. split; [done|]. split.
  { eapply sublist_NoDup; [apply (NoDup_fst_map_to_list (events t))|]. apply fmap_sublist, sublist_filter. }
  intros k r. rewrite list_elem_of_In, filter_In, <-list_elem_of_In, elem_of_map_to_list. simpl. intros [Ht Hr].
  pose proof Hr as Hr'. unfold row_counts in Hr'. apply andb_true_iff in Hr' as [Hsel _].
  destruct (row_selected_live _ _ _ _ Hsel) as [Ec Hlive]. rewrite (qo_community _ _ _ Hq) in Ec.
  split; [done| |by eapply countable_by_sql].
  intros ch Ech. apply Hch, Hsc. rewrite <-Ech. by eapply row_selected_scope.
Qed.

Lemma length_filter_omap {A B : Type} (g : A → option B) (p : B → bool) (l : list A) :
  length (List.filter p (omap g l)) = length (List.filter (λ x, match g x with Some y => p y | None => false end) l).
Proof.
  induction l as [|x l IH]; simpl; [done|]. destruct (g x) as [y|]; simpl; [|exact IH].
  destruct (p y); simpl; [f_equal|]; exact IH.
Qed.

Lemma ordered_rows_NoDup p t : NoDup (ordered_rows p t).*1.
Proof.
  unfold ordered_rows. assert (Hperm : ∀ l, foldr insert_row_ordered [] l ≡ₚ l).
  { induction l as [|x l IH]; simpl; [done|]. by rewrite insert_row_ordered_perm, IH. }
  rewrite Hperm. eapply sublist_NoDup; [apply (NoDup_fst_map_to_list (events t))|]. apply fmap_sublist, sublist_filter.
Qed.

Lemma query_events_counted ctx l f q t rows accessible (A : Type) (q0 : Read A) res (p : StoredEvent → bool) :
  query_of f c q → scoped_to q accessible → channels_ok conn ctx accessible l → RRead q0 t res ∈ l →
  query_events q t = Ok rows → (∀ se, p se = true → event_visible_to_reader (se_event se) (ac_pubkey ctx) = true) →
  counted ctx (N.of_nat (length (List.filter p rows))) l.
Proof.
  intros Hq Hsc Hch Hlog Hr Hp. unfold query_events in Hr.
  repeat (case_match; [try discriminate; injection Hr as <-; by left|]). injection Hr as <-. right.
  unfold rows_to_events. rewrite length_filter_omap. eexists A, q0, t, res, _.
  split; [done|]. split; [reflexivity|]. split.
  { eapply sublist_NoDup; [apply (ordered_rows_NoDup (row_matches q t) t)|]. apply fmap_sublist.
    etrans; [apply sublist_filter|apply sublist_page]. }
  intros k r. rewrite list_elem_of_In, filter_In, <-list_elem_of_In. simpl. intros [Hin Hb].
  apply elem_of_page, elem_of_ordered_rows in Hin as [Ht Hm].
  destruct (row_matches_live _ _ _ _ Hm) as [Ec Hlive]. rewrite (qo_community _ _ _ Hq) in Ec.
  destruct (row_to_stored_event k.1.2 r) as [se|] eqn:Es; [|done].
  apply row_to_stored_event_channel in Es as [_ Es]. split; [done| |].
  - intros ch Ech. apply Hch, Hsc. rewrite <-Ech. destruct k as [[c' ts] id']. unfold row_matches in Hm.
    rewrite !andb_true_iff in Hm. destruct Hm as [[[Hsel _] _] _]. exact (row_selected_scope _ _ _ _ Hsel).
  - apply countable_visible. rewrite <-Es. by apply Hp.
Qed.

(** ** The handler *)

(** A filter whose [#h] values name one channel has one value. *)
Definition one_spelling (f : ReqFilter) : Prop := ∀ values,
  tag_set f "h" = Some values → length (push_channels [] values) = 1 → length values = 1.

Definition count_justified (filters : list ReqFilter) (l : Log) (x : ReadEntry) : Prop :=
  match x with
  | RSend conn' (MCount sub' n) _ => conn' = conn_id conn ∧ sub' = sub_id
      ∧ ∃ ctx, (∃ n, re_auth env n = Authenticated ctx) ∧ gates_passed filters (ac_pubkey ctx) ∧ totals ctx (length filters) n l
  | _ => True
  end.

Section run.
Context (filters : list ReqFilter) (ctx : AuthContext).
Let P := count_justified filters.

Lemma count_calm l x : calm x → P l x.
Proof. destruct x; try done. by destruct m. Qed.

Lemma end_count {A : Type} F text (Q : option A → Log → Prop) : stable (only calm) F → (∀ l, F l → Q None l) →
  triple env P F (finish (closed conn sub_id text)) Q.
Proof. intros HF HQ. eapply triple_refusal; [by apply keep_closed; [apply count_calm|]|done]. Qed.

Lemma triple_run_count f q accessible F : (∀ P', stable P' F) → (∀ l, F l → channels_ok conn ctx accessible l) →
  query_of f c q → scoped_to q accessible →
  triple env P F (run_count conn sub_id (ac_pubkey ctx) f q) (λ o l, F l ∧ ∀ n, o = Some n → counted ctx n l).
Proof.
  intros HF Hch Hq Hsc. unfold run_count. destruct (count_by_sql f (ac_pubkey ctx)) eqn:Es.
  - apply bind_read; [apply count_calm|done|]. intros [n|err].
    + apply triple_mret. intros l [Hl [?|(t & Hr & Hlog)]]; [done|]. split; [done|]. intros ? [= <-].
      injection Hr as ->. eapply count_events_counted; eauto.
    + apply end_count; [apply stable_and; [done|apply stable_answered]|naive_solver].
  - apply bind_read; [apply count_calm|done|]. intros [rows|err].
    2:{ apply end_count; [apply stable_and; [done|apply stable_answered]|naive_solver]. }
    case_match; [apply end_count; [apply stable_and; [done|apply stable_answered]|naive_solver]|].
    apply triple_mret. intros l [Hl [?|(t & Hr & Hlog)]]; [done|]. split; [done|]. intros ? [= <-].
    eapply (query_events_counted ctx l f (apply_count_fallback_limit q)); [by apply query_of_limits| |by apply Hch|done|by symmetry|].
    + exact Hsc.
    + intros se Hb. by apply andb_true_iff in Hb as [_ ?].
Qed.

Lemma scoped_shared f reader q accessible : scoped_to q accessible → scoped_to (count_shared f reader q) accessible.
Proof. intros Hs. unfold count_shared. by case_match. Qed.

Lemma requested_values f requested : extract_channel_ids_from_filters [f] = Some requested →
  ∃ values, tag_set f "h" = Some values ∧ requested = push_channels [] values.
Proof.
  unfold extract_channel_ids_from_filters. simpl. destruct (tag_set f "h") as [values|]; [|done]. simpl.
  intros [= <-]. eauto.
Qed.

Lemma scoped_requested f requested first rest accessible : one_spelling f →
  extract_channel_ids_from_filters [f] = Some requested →
  List.filter (λ ch, bool_decide (ch ∈ accessible)) requested = first :: rest →
  scoped_to (apply_channel_scope_to_query (build_event_query_from_filter f c) f
    (if length requested =? 1 then Some first else None) accessible) accessible.
Proof.
  intros Hone (values & Hh & ->)%requested_values Hauth ch Hch.
  set (q := build_event_query_from_filter f c) in *.
  assert (Hq : query_of f c q) by apply build_query_of.
  assert (Hfirst : first ∈ accessible ∧ first ∈ push_channels [] values).
  { assert (Hin : first ∈ List.filter (λ ch, bool_decide (ch ∈ accessible)) (push_channels [] values)) by (rewrite Hauth; set_solver).
    rewrite list_elem_of_In, filter_In, <-list_elem_of_In, bool_decide_eq_true in Hin. tauto. }
  destruct (length (push_channels [] values) =? 1) eqn:El.
  - apply Nat.eqb_eq, (Hone _ Hh) in El. destruct values as [|v [|]]; [done| |done]. simpl in Hfirst.
    assert (Hex : eq_channel_id q = parse_uuid v) by (by rewrite (qo_channel _ _ _ Hq); unfold extract_channel_id_from_filter; rewrite Hh).
    unfold push_channels in Hfirst. simpl in Hfirst. destruct (parse_uuid v) as [id'|]; [|by destruct Hfirst as [_ ?%not_elem_of_nil]].
    unfold channel_scope_ok, apply_channel_scope_to_query in Hch. rewrite Hex in Hch.
    apply andb_true_iff in Hch as [Hch%bool_decide_eq_true _]. injection Hch as ->.
    destruct Hfirst as [? Hid]. apply list_elem_of_singleton in Hid as <-. done.
  - unfold apply_channel_scope_to_query in Hch. rewrite Hh in Hch. unfold channel_scope_ok in Hch.
    apply andb_true_iff in Hch as [_ Hch]. simpl in Hch. apply bool_decide_eq_true in Hch.
    rewrite list_elem_of_In, filter_In, bool_decide_eq_true in Hch. tauto.
Qed.

Lemma triple_count_filter f accessible F : (∀ P', stable P' F) → one_spelling f →
  triple env P (λ l, F l ∧ channels_ok conn ctx accessible l) (count_filter conn sub_id ctx f accessible)
    (λ o l, F l ∧ ∀ an, o = Some an → channels_ok conn ctx an.1 l ∧ counted ctx an.2 l).
Proof.
  intros HF Hone. unfold count_filter.
  destruct (extract_channel_ids_from_filters [f]) as [requested|] eqn:Er.
  - eapply triple_rthen; [apply triple_confirm_channels; [apply count_calm|apply HF]| |by intros l [? _]; split]. intros accessible'.
    apply (triple_pre env _ _ (λ l, F l ∧ channels_ok conn ctx accessible' l)); [|naive_solver].
    destruct (List.filter _ requested) as [|first rest] eqn:Ea.
    { apply triple_mret. intros l [Hl Hch]. split; [done|]. intros an [= <-]. split; [done|by left]. }
    eapply (triple_rthen env _ _ _ _ (λ o l, (F l ∧ channels_ok conn ctx accessible' l) ∧ ∀ n, o = Some n → counted ctx n l));
      [|intros n|by intros l [[? _] _]; split].
    + apply (triple_run_count f _ accessible'); [|by intros l []|..].
      * intros P'. apply stable_and; [done|apply stable_channels_ok].
      * by apply query_of_shared, query_of_scope, build_query_of.
      * by eapply scoped_shared, scoped_requested.
    + apply triple_mret. intros l [[Hl Hch] Hn]. split; [done|]. intros an [= <-]. split; [done|by apply Hn].
  - eapply (triple_rthen env _ _ _ _ (λ o l, (F l ∧ channels_ok conn ctx accessible l) ∧ ∀ n, o = Some n → counted ctx n l));
      [|intros n|by intros l [[? _] _]; split].
    + set (q := count_shared f (ac_pubkey ctx) _).
      assert (Hq : query_of f c q) by by apply query_of_shared, query_of_channels, build_query_of.
      assert (Hsc : scoped_to q accessible).
      { apply scoped_shared. intros ch Hch. unfold channel_scope_ok in Hch. apply andb_true_iff in Hch as [_ Hch].
        by apply bool_decide_eq_true in Hch. }
      apply (triple_run_count f _ accessible); [|by intros l []|..].
      * intros P'. apply stable_and; [done|apply stable_channels_ok].
      * case_match; [by apply query_of_limits|done].
      * case_match; [exact Hsc|done].
    + apply triple_mret. intros l [[Hl Hch] Hn]. split; [done|]. intros an [= <-]. split; [done|by apply Hn].
Qed.

Lemma triple_count_filters : ∀ fs accessible n total, (∀ f, f ∈ fs → one_spelling f) →
  triple env P (λ l, totals ctx n total l ∧ channels_ok conn ctx accessible l)
    (count_filters conn sub_id ctx accessible total fs) (λ o l, ∀ total', o = Some total' → totals ctx (n + length fs) total' l).
Proof.
  induction fs as [|f fs IH]; intros accessible n total Hone; simpl.
  { apply triple_mret. intros l [Ht _] ? [= <-]. by rewrite Nat.add_0_r. }
  eapply triple_rthen; [apply (triple_count_filter f accessible (totals ctx n total))| |done].
  - intros P'. apply stable_totals.
  - apply Hone. set_solver.
  - intros [accessible' m]. replace (n + S (length fs)) with (S n + length fs) by lia.
    eapply triple_pre; [apply (IH accessible' (S n) (total + m)%N); set_solver|].
    intros l [(parts & Hlen & -> & Hp) Hm]. destruct (Hm _ eq_refl) as [Hch Hc]. split; [|done].
    exists (parts ++ [m]). rewrite length_app, Hlen, foldr_app. split; [simpl; lia|]. split.
    + clear. induction parts as [|x parts IH]; simpl in *; [lia|]. rewrite <-IH. lia.
    + intros x [Hx| ->%list_elem_of_singleton]%elem_of_app; [by apply Hp|done].
Qed.

End run.

Lemma triple_handle_count filters : (∀ f, f ∈ filters → one_spelling f) →
  triple env (count_justified filters) (λ _, True) (handle_count conn sub_id filters) (λ _ _, True).
Proof.
  intros Hone. unfold handle_count. apply bind_ask. intros auth n Ha.
  assert (Hend : ∀ F text, triple env (count_justified filters) F (finish (closed conn sub_id text)) (λ (_ : option unit) _, True)).
  { intros F text. apply (triple_pre env _ _ (λ _, True)); [|done]. by apply end_count; [apply stable_pure|]. }
  destruct auth as [|ctx|]; [apply Hend| |apply Hend]. unfold count_gates.
  destruct (p_gated_filters_authorized filters _) eqn:E1; [|apply (Hend _ _)].
  destruct (engram_filters_authorized filters _) eqn:E2; [|apply (Hend _ _)].
  destruct (author_only_filters_authorized filters _) eqn:E3; [|apply (Hend _ _)]. cbn [negb].
  assert (Hg : gates_passed filters (ac_pubkey ctx)) by done.
  eapply (triple_rthen env _ _ _ _ (λ _ _, True)); [by apply triple_mret|intros _|done].
  destruct (extract_channel_ids_from_filters_limited filters) as [requested|]; [|apply Hend].
  eapply triple_rthen; [apply triple_load_accessible; [apply count_calm|apply stable_pure]| |done]. intros accessible.
  eapply triple_rthen; [| |done].
  { eapply triple_pre; [by apply (triple_count_filters filters ctx filters accessible 0 0)|].
    intros l [_ Hch]. split; [|by apply Hch]. exists []. split_and!; [done..|]. by intros m ?%not_elem_of_nil. }
  intros total. apply triple_finish.
  intros w u w' E Ht. unfold rsend in E. injection E as <- <-. simpl. split; [|done].
  apply grows_snoc; [constructor|]. split_and!; [done..|]. exists ctx. split; [by exists n|]. split; [done|by apply Ht].
Qed.

End count.

(** C19. A COUNT is answered only to an authenticated session whose filters pass
the gates on sensitive kinds, and its number is a sum, over the filters, of
numbers of distinct live rows of the tenant's community that one read met, all
in no channel or in one that the database gave the reader and the token allows,
and none of a sensitive kind that the reader may not see.  This needs that a
filter whose [#h] values name one channel has one value. *)
Theorem counts_only_what_may_be_read {NT : NostrTags} {HO : HashOrder} {UT : UuidText} {RC : RelayCrates} {FT : FullText}
    {TT : TraceText} {XC : ReadCrates} (env : ReadEnv) (w : ReadWorld) (conn : ConnectionState) (sub_id : string)
    (filters : list ReqFilter) l1 conn' sub' n ok l2 :
  rw_log w = [] → (∀ f, f ∈ filters → one_spelling f) →
  rw_log (handle_count conn sub_id filters env w).2 = l1 ++ RSend conn' (MCount sub' n) ok :: l2 →
  conn' = conn_id conn ∧ sub' = sub_id ∧
  ∃ ctx, (∃ n, re_auth env n = Authenticated ctx) ∧ gates_passed filters (ac_pubkey ctx)
    ∧ totals conn ctx (length filters) n l1.
Proof.
  intros Hw Hone Hlog. destruct (handle_count _ _ _ env w) as [o w'] eqn:E.
  destruct (triple_handle_count env conn sub_id filters Hone w o w' E I) as [Hg _]. rewrite Hw in Hg.
  exact (grows_entry _ _ _ l1 _ l2 Hg Hlog).
Qed.

(** C20. A defect: a filter that SQL alone counts and whose [#h] tag has several
values that name one channel (a second spelling of it, or a text that is no UUID)
is counted over all channels.  The reader of that channel gets the number that
SQL gives for the filter without any condition on the channel. *)
Theorem count_escapes_channels {NT : NostrTags} {HO : HashOrder} {UT : UuidText} {RC : RelayCrates} {FT : FullText}
    {TT : TraceText} {XC : ReadCrates} (env : ReadEnv) (w : ReadWorld) (conn : ConnectionState) (sub_id : string)
    (ctx : AuthContext) (f : ReqFilter) (values : list string) (ch : Uuid) (accessible : list Uuid) :
  tag_set f "h" = Some values → push_channels [] values = [ch] → length values ≠ 1 → ch ∈ accessible →
  count_by_sql f (ac_pubkey ctx) = true → re_fault env (rw_calls w) = None →
  let q := build_event_query_from_filter f (community (conn_tenant conn)) in
  (count_filter conn sub_id ctx f accessible env w).1 = Some (accessible, count_events q (re_tables env (rw_calls w)))
  ∧ ∀ row_channel, channel_scope_ok q row_channel = true.
Proof.
  intros Hh Hp Hlen Hin Hsql Hfault q. split.
  - unfold count_filter, extract_channel_ids_from_filters. simpl. rewrite Hh. simpl. rewrite Hp. simpl.
    rewrite (bool_decide_eq_true_2 _ Hin), orb_true_r.
    assert (Hres : (resolve_request_local_access accessible ch (token_allows ctx ch) None).1 = accessible).
    { unfold resolve_request_local_access. by repeat case_match. }
    rewrite Hres. unfold rthen, mbind, ReadM_bind. simpl. unfold run_count, count_shared. rewrite Hsql.
    assert (Hsh : filter_can_match_shared_gated_kinds f = false).
    { unfold count_by_sql in Hsql. apply andb_true_iff in Hsql as [_ Hsh]. by apply negb_true_iff. }
    rewrite Hsh. unfold rread, mbind, ReadM_bind. simpl. rewrite (bool_decide_eq_true_2 _ Hin). by rewrite Hfault.
  - intros row_channel. unfold channel_scope_ok. pose proof (build_query_of f (community (conn_tenant conn))) as Hq.
    fold q in Hq. rewrite (qo_channel _ _ _ Hq). unfold extract_channel_id_from_filter. rewrite Hh.
    assert (Hg : eq_global_only q = false ∧ eq_channel_ids q = None).
    { unfold q, build_event_query_from_filter, filter_to_query_params.
      destruct (match f_authors f with Some _ => _ | None => _ end). by destruct (if only_kinds _ f then _ else _). }
    destruct Hg as [-> ->]. by destruct values as [|v [|]].
Qed.
