(* ===== verification/TopicProps.v ===== *)
(** * TopicProps: which topics the relay keeps at Redis

The theorem on the reference counts of [retain_topic] and [release_topic]:
registration, CLOSE and the end of a connection, each run to its end, keep the
count of a topic equal to the number of subscriptions that need it. *)
From stdpp Require Import pretty.
From S2P Require Import Conformance Prelude Text Encode Nostr Kind Roles Filter Subscription IngestRules IngestEnvelopes EventStore IngestRun IngestThread Ingest ReadQuery ReadRules ReadRun ReadPath.

(** ** Sums over maps *)

Section sums.
Context {K A : Type} `{Countable K} (f : A → nat).

Definition msum (m : gmap K A) : nat := sum_list (map (λ kx, f kx.2) (map_to_list m)).

Lemma sum_list_perm (l l' : list (K * A)) : l ≡ₚ l' →
  sum_list (map (λ kx, f kx.2) l) = sum_list (map (λ kx, f kx.2) l').
Proof. induction 1; simpl; lia. Qed.

Lemma msum_empty : msum ∅ = 0.
Proof. unfold msum. by rewrite map_to_list_empty. Qed.

Lemma msum_delete m i x : m !! i = Some x → msum m = f x + msum (delete i m).
Proof.
  intros Hi. unfold msum. by rewrite <-(sum_list_perm _ _ (map_to_list_delete m i x Hi)).
Qed.

Lemma msum_insert m i x : msum (<[i := x]> m) + default 0 (f <$> m !! i) = f x + msum m.
Proof.
  assert (Hx : msum (<[i := x]> m) = f x + msum (delete i m)).
  { rewrite (msum_delete _ i x) by apply lookup_insert_eq. by rewrite delete_insert_eq. }
  rewrite Hx. destruct (m !! i) as [y|] eqn:E; simpl; [rewrite (msum_delete m i y E); lia|].
  rewrite delete_id by done. lia.
Qed.

End sums.

(** ** Uses and counts *)

Definition adds (c : Uuid) (ts : list EventTopic) (k : TopicKey) : nat :=
  if decide (k.1 = c) then length (filter (.= k.2) ts) else 0.

(** How often an entry needs a topic. *)
Definition entry_uses (k : TopicKey) (e : SubEntry) : nat := adds e.1.2 (scope_topics e.2) k.

Definition topic_uses (r : SubscriptionRegistry) (k : TopicKey) : nat := msum (msum (entry_uses k)) (subs r).

Definition topic_count (d : gmap TopicKey N) (k : TopicKey) : N := default 0%N (d !! k).

(** Topics in use, and no others, are kept, each with its number of uses. *)
Definition topics_match (s : Shared) : Prop :=
  (∀ k n, sh_topics s !! k = Some n → (0 < n)%N)
  ∧ ∀ k, topic_count (sh_topics s) k = N.of_nat (topic_uses (sh_registry s) k).

(** The subscriptions of a connection are of its tenant's community. *)
Definition tenant_bound (conn : ConnectionState) (r : SubscriptionRegistry) : Prop :=
  ∀ s e, entry_of r (conn_id conn, s) = Some e → e.1.2 = community (conn_tenant conn).

Lemma adds_nil c k : adds c [] k = 0.
Proof. unfold adds. by case_decide. Qed.

Lemma adds_cons c t ts k : adds c (t :: ts) k = (if decide (k = (c, t)) then 1 else 0) + adds c ts k.
Proof.
  unfold adds. destruct k as [c' t']. simpl. rewrite filter_cons.
  destruct (decide (c' = c)) as [->|Hc]; [|by rewrite decide_False by congruence].
  destruct (decide (t = t')) as [->|Ht]; [by rewrite decide_True|by rewrite decide_False by congruence].
Qed.

Lemma uses_conn r c cs k : topic_uses (set_subs (<[c := cs]> (subs r)) r) k + msum (entry_uses k) (default ∅ (subs r !! c))
  = topic_uses r k + msum (entry_uses k) cs.
Proof.
  unfold topic_uses. simpl. pose proof (msum_insert (msum (entry_uses k)) (subs r) c cs) as Hi.
  destruct (subs r !! c); simpl in *; [lia|]. rewrite (msum_empty (entry_uses k)). lia.
Qed.

Lemma uses_indexes u filters c scope r k : topic_uses (update_indexes u filters c scope r) k = topic_uses r k.
Proof. unfold topic_uses. by rewrite subs_update_indexes. Qed.

Lemma uses_remove c s r k :
  topic_uses (remove_subscription c s r).2 k + default 0 (entry_uses k <$> entry_of r (c, s)) = topic_uses r k.
Proof.
  unfold remove_subscription, entry_of, get_sub. simpl. destruct (subs r !! c) as [cs|] eqn:Ec; simpl; [|lia].
  destruct (cs !! s) as [[[f cm] sc]|] eqn:Es; simpl; [|lia]. unfold remove_from_index. rewrite uses_indexes.
  pose proof (uses_conn r c (delete s cs) k) as Hu. rewrite Ec in Hu. simpl in Hu.
  rewrite (msum_delete _ cs s _ Es) in Hu. lia.
Qed.

Lemma uses_register cm c s filters scope r k :
  topic_uses (register_with_scope cm c s filters scope r).2 k + default 0 (entry_uses k <$> entry_of r (c, s))
  = topic_uses r k + entry_uses k (filters, cm, scope).
Proof.
  unfold register_with_scope. pose proof (uses_remove c s r k) as Hr. destruct (remove_subscription_spec c s r) as [_ Hs].
  destruct (remove_subscription c s r) as [removed r1]. simpl in *. rewrite uses_indexes.
  pose proof (uses_conn r1 c (<[s := (filters, cm, scope)]> (default ∅ (subs r1 !! c))) k) as Hu.
  pose proof (msum_insert (entry_uses k) (default ∅ (subs r1 !! c)) s (filters, cm, scope)) as Hi.
  assert (Hnone : default ∅ (subs r1 !! c) !! s = None).
  { specialize (Hs (c, s)). rewrite decide_True in Hs by done. unfold entry_of, get_sub in Hs. simpl in Hs.
    by destruct (subs r1 !! c). }
  rewrite Hnone in Hi. simpl in Hi. lia.
Qed.

Section connection.
Context {HO : HashOrder}.

Lemma uses_remove_connection c r k :
  topic_uses (remove_connection c r).2 k + msum (entry_uses k) (default ∅ (subs r !! c)) = topic_uses r k.
Proof.
  unfold remove_connection. destruct (subs r !! c) as [cs|] eqn:Ec; simpl; [|rewrite msum_empty; lia].
  unfold topic_uses. rewrite (proj2 (remove_conn_fold c (hm_iter cs) [] _)). simpl.
  pose proof (msum_delete (msum (entry_uses k)) (subs r) c cs Ec). lia.
Qed.

Lemma msum_iter k (cs : gmap SubId SubEntry) :
  msum (entry_uses k) cs = sum_list (map (λ se, entry_uses k se.2) (hm_iter cs)).
Proof. unfold msum. symmetry. apply sum_list_perm, hm_iter_perm. Qed.

End connection.

(** ** Runs *)

Section runs.
Context {NT : NostrTags} {HO : HashOrder} {UT : UuidText} {RC : RelayCrates} {FT : FullText} {TT : TraceText} {XC : ReadCrates}.
Context (env : ReadEnv) (Hquiet : ∀ n s, re_others env n s = s).

(** The shared state after a computation. *)
Definition after {A : Type} (m : ReadM A) (w : ReadWorld) : Shared := rw_shared (m env w).2.

Definition positive (d : gmap TopicKey N) : Prop := ∀ k n, d !! k = Some n → (0 < n)%N.

Lemma retain_count_spec k d : positive d →
  positive (retain_count k d).1 ∧ ∀ k', topic_count (retain_count k d).1 k' = (topic_count d k' + if decide (k' = k) then 1 else 0)%N.
Proof.
  intros Hd. unfold retain_count, topic_count. simpl. split.
  - intros k' n. rewrite lookup_insert. case_decide; [intros [= <-]; lia|apply Hd].
  - intros k'. rewrite lookup_insert. destruct (decide (k = k')) as [->|]; simpl; [by rewrite decide_True|].
    rewrite decide_False by congruence. lia.
Qed.

Lemma release_count_spec k d : positive d →
  positive (release_count k d).1 ∧ ∀ k', topic_count (release_count k d).1 k' = (topic_count d k' - if decide (k' = k) then 1 else 0)%N.
Proof.
  intros Hd. unfold release_count, topic_count. destruct (d !! k) as [n|] eqn:E; simpl.
  - pose proof (Hd k n E). destruct (n - 1 =? 0)%N eqn:En; simpl; split; intros k'.
    + intros m. rewrite lookup_delete. case_decide; [done|apply Hd].
    + apply N.eqb_eq in En. rewrite lookup_delete. destruct (decide (k = k')) as [->|]; [rewrite decide_True, E by done|rewrite decide_False by congruence]; simpl; lia.
    + intros m. rewrite lookup_insert. apply N.eqb_neq in En. case_decide; [intros [= <-]; lia|apply Hd].
    + apply N.eqb_neq in En. rewrite lookup_insert. destruct (decide (k = k')) as [->|]; [rewrite decide_True, E by done|rewrite decide_False by congruence]; simpl; lia.
  - split; [done|]. intros k'. destruct (decide (k' = k)) as [->|]; [rewrite E|]; simpl; lia.
Qed.

(** What a run does to the topics, leaving the subscriptions alone. *)
Definition topics_run (s s' : Shared) (change : N → TopicKey → N) : Prop :=
  sh_subs s' = sh_subs s ∧ sh_registry s' = sh_registry s ∧
  (positive (sh_topics s) → positive (sh_topics s') ∧ ∀ k, topic_count (sh_topics s') k = change (topic_count (sh_topics s) k) k).

Lemma after_rlog x w : rw_shared (rlog x env w).2 = rw_shared w.
Proof. done. Qed.

Lemma run_retain c t w : topics_run (rw_shared w) (after (retain_topic c t) w) (λ n k, n + if decide (k = (c, t)) then 1 else 0)%N.
Proof.
  unfold after, retain_topic, rstep, mbind, ReadM_bind. simpl. rewrite Hquiet. simpl.
  case_match; (split; [done|]; split; [done|]); intros Hd; by apply retain_count_spec.
Qed.

Lemma run_release c t w : topics_run (rw_shared w) (after (release_topic c t) w) (λ n k, n - if decide (k = (c, t)) then 1 else 0)%N.
Proof.
  unfold after, release_topic, rstep, mbind, ReadM_bind. simpl. rewrite Hquiet. simpl.
  pose proof (release_count_spec (c, t) (sh_topics (rw_shared w))) as Hs.
  destruct (release_count _ _) as [d b]. simpl in *. destruct b; (split; [done|]; split; [done|]); done.
Qed.

Lemma after_bind {A B : Type} (m : ReadM A) (k : A → ReadM B) w :
  after (m ≫= k) w = after (k (m env w).1) (m env w).2.
Proof. unfold after, mbind, ReadM_bind. by destruct (m env w). Qed.

Lemma run_retains c ts w : topics_run (rw_shared w) (after (rfor_each ts (retain_topic c)) w) (λ n k, n + N.of_nat (adds c ts k))%N.
Proof.
  revert w. induction ts as [|t ts IH]; intros w.
  { split; [done|]. split; [done|]. intros Hd. split; [done|]. intros k. rewrite adds_nil. unfold after. simpl. lia. }
  simpl. rewrite after_bind. destruct (run_retain c t w) as (E1 & E2 & E3). unfold after in E1, E2, E3.
  destruct (IH (retain_topic c t env w).2) as (E4 & E5 & E6). split; [congruence|]. split; [congruence|].
  intros [Hd Hc]%E3. destruct (E6 Hd) as [Hd' Hc']. split; [done|]. intros k. rewrite Hc', Hc, adds_cons. case_decide; lia.
Qed.

Lemma run_releases c ts w : topics_run (rw_shared w) (after (rfor_each ts (release_topic c)) w) (λ n k, n - N.of_nat (adds c ts k))%N.
Proof.
  revert w. induction ts as [|t ts IH]; intros w.
  { split; [done|]. split; [done|]. intros Hd. split; [done|]. intros k. rewrite adds_nil. unfold after. simpl. lia. }
  simpl. rewrite after_bind. destruct (run_release c t w) as (E1 & E2 & E3). unfold after in E1, E2, E3.
  destruct (IH (release_topic c t env w).2) as (E4 & E5 & E6). split; [congruence|]. split; [congruence|].
  intros [Hd Hc]%E3. destruct (E6 Hd) as [Hd' Hc']. split; [done|]. intros k. rewrite Hc', Hc, adds_cons. case_decide; lia.
Qed.

(** ** Operations *)

Context (conn : ConnectionState).
Notation c := (community (conn_tenant conn)).

Lemma after_rstep {A : Type} (g : Shared → A * Shared) w : (rstep g env w).1 = (g (rw_shared w)).1
  ∧ rw_shared (rstep g env w).2 = (g (rw_shared w)).2.
Proof. unfold rstep. simpl. rewrite Hquiet. by destruct (g _). Qed.

Definition filter_scope (authorized : option (list Uuid)) : SubscriptionScope :=
  match authorized with Some chs => Channels chs | None => Global end.

(** The two forms of registration are one. *)
Lemma register_scope (sub_id : string) (fs : list ReqFilter) authorized r :
  match authorized with
  | Some chs => register_channels_scoped c (conn_id conn) sub_id (map rf_filter fs) chs r
  | None => register_scoped c (conn_id conn) sub_id (map rf_filter fs) None r
  end = register_with_scope c (conn_id conn) sub_id (map rf_filter fs) (filter_scope authorized) r.
Proof. by destruct authorized. Qed.

Lemma run_release_removed o w :
  topics_run (rw_shared w)
    (after (match o with Some removed => release_subscription_topics conn (rs_scope removed) | None => mret tt end) w)
    (λ n k, n - N.of_nat (adds c (default [] (scope_topics ∘ rs_scope <$> o)) k))%N.
Proof.
  destruct o as [removed|]; [apply run_releases|]. split; [done|]. split; [done|]. intros Hd. split; [done|].
  intros k. simpl. rewrite adds_nil. unfold after. simpl. lia.
Qed.

(** What an entry of this connection gives back. *)
Lemma released_uses r s k : tenant_bound conn r →
  adds c (default [] (scope_topics ∘ rs_scope <$> (removed_of <$> entry_of r (conn_id conn, s)))) k
  = default 0 (entry_uses k <$> entry_of r (conn_id conn, s)).
Proof.
  intros Hb. specialize (Hb s). destruct (entry_of r (conn_id conn, s)) as [e|]; simpl; [|apply adds_nil].
  unfold entry_uses. by rewrite (Hb e).
Qed.

Lemma register_keeps sub_id fs authorized w : topics_match (rw_shared w) → tenant_bound conn (sh_registry (rw_shared w)) →
  topics_match (after (register_subscription conn sub_id fs authorized) w)
  ∧ tenant_bound conn (sh_registry (after (register_subscription conn sub_id fs authorized) w)).
Proof.
  intros [Hpos Hcount] Hb. unfold register_subscription. rewrite after_bind.
  set (w1 := (rstep _ env w).2). assert (E1 : sh_registry (rw_shared w1) = sh_registry (rw_shared w)
    ∧ sh_topics (rw_shared w1) = sh_topics (rw_shared w)) by (unfold w1; by rewrite (proj2 (after_rstep _ _))).
  clearbody w1. destruct E1 as [E1 T1]. rewrite after_bind.
  match goal with |- context [rstep ?h env w1] => set (g := h) end. destruct (after_rstep g w1) as [Ev Es]. set (w2 := (rstep g env w1).2) in *. rewrite Ev. clearbody w2. clear Ev.
  subst g. cbv beta in *. rewrite register_scope in *. rewrite E1 in *.
  set (r := sh_registry (rw_shared w)) in *.
  destruct (register_spec c (conn_id conn) sub_id (map rf_filter fs) (filter_scope authorized) r) as [Hrem Hent].
  assert (Huse := λ k, uses_register c (conn_id conn) sub_id (map rf_filter fs) (filter_scope authorized) r k).
  destruct (register_with_scope _ _ _ _ _ r) as [removed r'] eqn:Er. simpl in *. rewrite after_bind.
  destruct (run_release_removed removed w2) as (E3 & E4 & E5). unfold after in E3, E4, E5.
  set (w3 := (_ env w2).2) in *. clearbody w3.
  destruct (run_retains c (scope_topics (filter_scope authorized)) w3) as (E6 & E7 & E8).
  replace (match authorized with Some chs => Channels chs | None => Global end) with (filter_scope authorized) by done.
  rewrite Es in *. simpl in *. rewrite T1 in *. destruct (E5 Hpos) as [Hpos3 Hc3]. destruct (E8 Hpos3) as [Hpos4 Hc4].
  split; [split; [exact Hpos4|]|].
  - intros k. rewrite Hc4, Hc3, Hcount, E7, E4, Hrem, (released_uses r) by done. specialize (Huse k).
    unfold entry_uses at 2 in Huse. simpl in Huse. fold r. pose proof (uses_remove (conn_id conn) sub_id r k). lia.
  - rewrite E7, E4. intros s e. rewrite Hent. case_decide as Hd; [by intros [= <-]|apply Hb].
Qed.

Lemma close_keeps sub_id w : topics_match (rw_shared w) → tenant_bound conn (sh_registry (rw_shared w)) →
  topics_match (after (handle_close conn sub_id) w)
  ∧ tenant_bound conn (sh_registry (after (handle_close conn sub_id) w)).
Proof.
  intros [Hpos Hcount] Hb. unfold handle_close. rewrite after_bind.
  set (w1 := (rstep _ env w).2). assert (E1 : sh_registry (rw_shared w1) = sh_registry (rw_shared w)
    ∧ sh_topics (rw_shared w1) = sh_topics (rw_shared w)) by (unfold w1; by rewrite (proj2 (after_rstep _ _))).
  clearbody w1. destruct E1 as [E1 T1]. rewrite after_bind.
  match goal with |- context [rstep ?h env w1] => set (g := h) end. destruct (after_rstep g w1) as [Ev Es]. set (w2 := (rstep g env w1).2) in *. rewrite Ev. clearbody w2. clear Ev.
  subst g. cbv beta in *. rewrite E1 in *. set (r := sh_registry (rw_shared w)) in *.
  destruct (remove_subscription_spec (conn_id conn) sub_id r) as [Hrem Hent].
  assert (Huse := λ k, uses_remove (conn_id conn) sub_id r k).
  destruct (remove_subscription _ _ r) as [removed r'] eqn:Er. simpl in *. rewrite after_bind.
  destruct (run_release_removed removed w2) as (E3 & E4 & E5). unfold after in E3, E4, E5.
  set (w3 := (_ env w2).2) in *. clearbody w3.
  assert (E6 : after (closed conn sub_id "") w3 = rw_shared w3).
  { unfold after, closed, rsend, rask, mbind, ReadM_bind. simpl. by rewrite Hquiet. }
  rewrite E6. rewrite Es in *. simpl in *. rewrite T1 in *. destruct (E5 Hpos) as [Hpos3 Hc3].
  split; [split; [exact Hpos3|]|].
  - intros k. rewrite Hc3, Hcount, E4, Hrem, (released_uses r) by done. specialize (Huse k). fold r. lia.
  - rewrite E4. intros s e. rewrite Hent. case_decide; [done|apply Hb].
Qed.

(** Giving back what several subscriptions held. *)
Lemma run_release_all l w :
  topics_run (rw_shared w) (after (rfor_each l (λ removed, release_subscription_topics conn (rs_scope removed))) w)
    (λ n k, n - N.of_nat (sum_list (map (λ removed, adds c (scope_topics (rs_scope removed)) k) l)))%N.
Proof.
  revert w. induction l as [|x l IH]; intros w.
  { split; [done|]. split; [done|]. intros Hd. split; [done|]. intros k. unfold after. simpl. lia. }
  simpl. rewrite after_bind. destruct (run_releases c (scope_topics (rs_scope x)) w) as (E1 & E2 & E3).
  unfold after in E1, E2, E3. fold (release_subscription_topics conn (rs_scope x)) in E1, E2, E3.
  destruct (IH (release_subscription_topics conn (rs_scope x) env w).2) as (E4 & E5 & E6).
  split; [congruence|]. split; [congruence|].
  intros [Hd Hc]%E3. destruct (E6 Hd) as [Hd' Hc']. split; [done|]. intros k. rewrite Hc', Hc. lia.
Qed.

Lemma release_connection_keeps w : topics_match (rw_shared w) → tenant_bound conn (sh_registry (rw_shared w)) →
  topics_match (after (release_connection conn) w)
  ∧ tenant_bound conn (sh_registry (after (release_connection conn) w)).
Proof.
  intros [Hpos Hcount] Hb. unfold release_connection. rewrite after_bind.
  match goal with |- context [rstep ?h env w] => set (g := h) end. destruct (after_rstep g w) as [Ev Es]. set (w2 := (rstep g env w).2) in *. rewrite Ev. clearbody w2. clear Ev.
  subst g. cbv beta in *. set (r := sh_registry (rw_shared w)) in *.
  destruct (remove_connection_spec (conn_id conn) r) as (Hrem & Hent & _).
  assert (Huse := λ k, uses_remove_connection (conn_id conn) r k).
  destruct (remove_connection _ r) as [removed r'] eqn:Er. simpl in *.
  destruct (run_release_all removed w2) as (E3 & E4 & E5). rewrite Es in *. simpl in *.
  destruct (E5 Hpos) as [Hpos3 Hc3]. split; [split; [exact Hpos3|]|].
  - intros k. rewrite Hc3, Hcount, E4. specialize (Huse k). fold r.
    assert (Hsum : sum_list (map (λ x, adds c (scope_topics (rs_scope x)) k) removed)
      = msum (entry_uses k) (default ∅ (subs r !! conn_id conn))); [|lia].
    rewrite (msum_iter k), Hrem, map_map. f_equal. apply map_ext_in. intros [s e] Hin. unfold entry_uses. simpl.
    rewrite (Hb s e); [done|]. apply list_elem_of_In, elem_of_hm_iter in Hin. unfold entry_of, get_sub. simpl.
    by destruct (subs r !! conn_id conn).
  - rewrite E4. intros s e. rewrite Hent. case_decide; [done|apply Hb].
Qed.

End runs.

(** The ways a connection changes what it listens to. *)
Inductive SubscriptionOp : Type :=
| OpRegister (sub_id : string) (filters : list ReqFilter) (authorized : option (list Uuid))
| OpClose (sub_id : string)
| OpDisconnect.

Definition run_op {NT : NostrTags} {HO : HashOrder} {UT : UuidText} {RC : RelayCrates} {FT : FullText} {TT : TraceText}
    {XC : ReadCrates} (conn : ConnectionState) (op : SubscriptionOp) : ReadM unit :=
  match op with
  | OpRegister sub_id filters authorized => register_subscription conn sub_id filters authorized
  | OpClose sub_id => handle_close conn sub_id
  | OpDisconnect => release_connection conn
  end.

(** Where no other task runs in between, registering a subscription (also in
place of an earlier one), CLOSE and the end of a connection keep exactly the
topics at Redis that some subscription needs, each counted once per
subscription, and the subscriptions of a connection in its tenant's
community. *)
Theorem subscriptions_keep_topics {NT : NostrTags} {HO : HashOrder} {UT : UuidText} {RC : RelayCrates} {FT : FullText}
    {TT : TraceText} {XC : ReadCrates} (env : ReadEnv) (w : ReadWorld) (conn : ConnectionState) (op : SubscriptionOp) :
  (∀ n s, re_others env n s = s) → topics_match (rw_shared w) → tenant_bound conn (sh_registry (rw_shared w)) →
  topics_match (after env (run_op conn op) w) ∧ tenant_bound conn (sh_registry (after env (run_op conn op) w)).
Proof.
  intros Hquiet Hm Hb. destruct op; [by apply register_keeps|by apply close_keeps|by apply release_connection_keeps].
Qed.
