(* ===== verification/ReadToy.v ===== *)
(** * ReadToy: reads that run

Concrete instances of the interfaces of the read path, a community with an
open and a private channel, and the requests that the theorems are applied
to: a REQ, two COUNTs, a delivery over Redis, a registration. *)
From stdpp Require Import pretty.
From S2P Require Import Conformance Prelude Text Encode Nostr Kind Scope Roles Filter Subscription IngestRules IngestEnvelopes EventStore IngestRun IngestThread Ingest ReadQuery ReadRules ReadRun ReadPath FanOut ReadRunProps ReadProps LiveProps QueryProps TopicProps.

(** ** Interfaces *)

(** UUIDs in unary. *)
Fixpoint unary (n : nat) : string := match n with 0 => "" | S n' => String "a" (unary n') end.
Fixpoint read_unary (s : string) : option N :=
  match s with
  | EmptyString => Some 0%N
  | String a s' => if Ascii.eqb a "a" then N.succ <$> read_unary s' else None
  end.

#[local] Instance toy_tags : NostrTags := nip01_tags.
#[local] Instance toy_order : HashOrder := map_to_list_order.
#[local] Instance toy_uuid : UuidText := { uuid_to_string := λ u, unary (N.to_nat u) }.
#[local] Instance toy_text : TraceText := demo_text.
#[local] Instance toy_crates : RelayCrates := {
  verify_id := λ _, true;
  computed_id := id;
  verify_signature := λ _ sig, String.eqb sig "sig";
  parse_uuid := read_unary;
  parse_i64 := λ s, Z.of_N <$> parse_uint 1000000 s;
  parse_i32 := λ s, Z.of_N <$> parse_uint 1000000 s;
  sjson_from_str := λ _, Some (λ _, None)
}.
#[local] Instance toy_search : FullText.
Proof. refine {| fts_match := λ _ _, true; fts_rank := λ _ rows, rows |}. done. Defined.
#[local] Instance toy_read : ReadCrates := {
  sign_with_keys := λ k ts text, Ok (mkEvent "" "relay" k 0 ts text);
  json_text := λ _, "{}";
  json_status := λ _, None;
  json_encodes := λ _, true
}.

Lemma read_unary_unary n : read_unary (unary n) = Some (N.of_nat n).
Proof. induction n as [|n IH]; [done|]. simpl. rewrite IH. simpl. f_equal. lia. Qed.

Lemma toy_laws : QueryLaws.
Proof. split; [done..|]. intros u. simpl. by rewrite read_unary_unary, N2Nat.id. Qed.

(** ** A community *)

Definition toy_ctx : AuthContext := mkAuthContext "alice" [] None None.
Definition toy_conn : ConnectionState := mkConnection 9 (mkTenant 1 "h").

Definition channel_row (visibility : string) : ChannelRow :=
  mkChannelRow "c" "stream" visibility None "bob" None None None None.
Definition public_event : Event := mkEvent "1" "bob" KIND_STREAM_MESSAGE 990 [["h"; "aaaaa"]] "hello".
Definition secret_event : Event := mkEvent "2" "bob" KIND_STREAM_MESSAGE 991 [["h"; "aaaaaa"]] "secret".
Definition public_row : EventRow := mkEventRow public_event "sig" 990 (Some 5%N) None None None.
Definition secret_row : EventRow := mkEventRow secret_event "sig" 991 (Some 6%N) None None None.

Definition toy_tables : Tables :=
  with_events {[ (1%N, 990%Z, "1") := public_row; (1%N, 991%Z, "2") := secret_row ]}
    (with_channels {[ (1%N, 5%N) := channel_row "open"; (1%N, 6%N) := channel_row "private" ]} empty_tables).

Definition toy_env : ReadEnv := {|
  re_others := λ _ s, s;
  re_tables := λ _, toy_tables;
  re_fault := λ _, None;
  re_accessible_cached := λ _ _, None;
  re_member_cached := λ _ _, None;
  re_private_cached := λ _ _, false;
  re_send := λ _, true;
  re_auth := λ _, Authenticated toy_ctx;
  re_tracing := false;
  re_clock := λ _, 0%N;
  re_time := λ _, 0%Z;
  re_publish := λ _, None;
  re_mesh := None;
  re_room_busy := λ _ _ _, false;
  re_generation := 0%N;
  re_conn_community := λ _ _, Some 1%N;
  re_conn_pubkey := λ _ _, Some "alice";
  re_verify := λ _, Some (Ok tt);
  re_relay_pubkey := "relay";
  re_audit := false
|}.

Definition toy_shared (r : SubscriptionRegistry) : Shared := mkShared ∅ r ∅ ∅ ∅ ∅.
Definition start (r : SubscriptionRegistry) : ReadWorld := mkReadWorld 0 (toy_shared r) [] [].

Definition in_channels (hs : list string) : ReqFilter :=
  mkReqFilter (mkFilter None None (Some [KIND_STREAM_MESSAGE]) None None {[ "h" := hs ]}) None None.

(** The entry at which a test holds, and what surrounds it. *)
Lemma split_at {A : Type} (test : A → bool) (l : list A) :
  existsb test l = true → ∃ l1 x l2, l = l1 ++ x :: l2 ∧ test x = true.
Proof.
  intros (x & Hin & Hx)%existsb_elem_of. apply list_elem_of_split in Hin as (l1 & l2 & ->). eauto.
Qed.

Definition sends_event (i : string) (x : ReadEntry) : bool :=
  match x with RSend _ (MEvent _ e) _ => String.eqb (id e) i | _ => false end.
Definition sends_count (n : N) (x : ReadEntry) : bool :=
  match x with RSend _ (MCount _ m) _ => (m =? n)%N | _ => false end.

Lemma sends_event_inv i x : sends_event i x = true → ∃ conn sub e ok, x = RSend conn (MEvent sub e) ok ∧ id e = i.
Proof. destruct x; try done. destruct m; try done. intros E%String.eqb_eq. eauto 10. Qed.
Lemma sends_count_inv n x : sends_count n x = true → ∃ conn sub ok, x = RSend conn (MCount sub n) ok.
Proof. destruct x; try done. destruct m; try done. intros ->%N.eqb_eq. eauto 10. Qed.

(** ** REQ *)

Definition req_log : list ReadEntry := rw_log (handle_req toy_conn "sub" [in_channels ["aaaaa"]] [] toy_env (start new)).2.

Lemma req_sends : existsb (sends_event "1") req_log = true ∧ existsb (sends_event "2") req_log = false.
Proof. split; vm_compute; reflexivity. Qed.

Lemma history_is_authorised_witness :
  ∃ l1 e l2, (∃ ok, req_log = l1 ++ RSend 9%N (MEvent "sub" e) ok :: l2) ∧ id e = "1"
    ∧ ∃ ctx, may_subscribe toy_env ctx ∧ deliverable toy_conn [in_channels ["aaaaa"]] ctx l1 e.
Proof.
  destruct (split_at _ _ (proj1 req_sends)) as (l1 & x & l2 & El & Hx).
  apply sends_event_inv in Hx as (conn' & sub' & e & ok & -> & Hid).
  destruct (history_is_authorised toy_env (start new) toy_conn "sub" [in_channels ["aaaaa"]] [] l1 conn' sub' e ok l2
    eq_refl El) as (-> & -> & Hctx).
  exists l1, e, l2. split; [exists ok; exact El|]. split; [exact Hid|exact Hctx].
Defined.

(** A REQ for both channels tells nothing of the private one. *)
Lemma private_channel_is_hidden :
  existsb (sends_event "2") (rw_log (handle_req toy_conn "sub" [in_channels ["aaaaa"; "aaaaaa"]] [] toy_env (start new)).2) = false.
Proof. vm_compute. reflexivity. Qed.

(** ** Live *)

Definition listening : SubscriptionRegistry :=
  (register_channels_scoped 1 9 "sub" [rf_filter (in_channels ["aaaaa"])] [5%N] new).2.
Definition live_log : list ReadEntry :=
  rw_log (run_live (LPubsub 1 (TopicChannel 5) public_event) toy_env (start listening)).2.

Lemma live_sends : existsb (sends_event "1") live_log = true.
Proof. vm_compute. reflexivity. Qed.


(** ** COUNT *)

Definition count_log : list ReadEntry := rw_log (handle_count toy_conn "sub" [in_channels ["aaaaa"]] toy_env (start new)).2.

Lemma count_answers : existsb (sends_count 1) count_log = true.
Proof. vm_compute. reflexivity. Qed.

Lemma counts_only_what_may_be_read_witness :
  ∃ l1 ctx, (∃ n, re_auth toy_env n = Authenticated ctx) ∧ gates_passed [in_channels ["aaaaa"]] (ac_pubkey ctx)
    ∧ totals toy_conn ctx 1 1 l1.
Proof.
  destruct (split_at _ _ count_answers) as (l1 & x & l2 & El & Hx).
  apply sends_count_inv in Hx as (conn' & sub' & ok & ->).
  destruct (counts_only_what_may_be_read toy_env (start new) toy_conn "sub" [in_channels ["aaaaa"]] l1 conn' sub' 1 ok l2)
    as (_ & _ & ctx & Hctx); [reflexivity| |exact El|].
  - intros f Hf values Hv _. apply list_elem_of_singleton in Hf. rewrite Hf in Hv.
    vm_compute in Hv. injection Hv as Hv. rewrite <-Hv. reflexivity.
  - exists l1, ctx. exact Hctx.
Defined.

(** With a second value that is no UUID, the private channel's message is
counted too. *)
Definition two_spellings : ReqFilter := in_channels ["aaaaa"; "junk"].

Lemma count_escapes_channels_witness :
  (count_filter toy_conn "sub" toy_ctx two_spellings [5%N] toy_env (start new)).1 = Some ([5%N], 2%N)
  ∧ get_accessible_channel_ids 1 "alice" toy_tables = [5%N] ∧ is_member 1 6 "alice" toy_tables = false.
Proof.
  split; [|vm_compute; split; reflexivity].
  destruct (count_escapes_channels toy_env (start new) toy_conn "sub" toy_ctx two_spellings ["aaaaa"; "junk"] 5 [5%N])
    as [E _]; [reflexivity|reflexivity|intros [=]|apply list_elem_of_singleton; reflexivity|vm_compute; reflexivity|reflexivity|].
  rewrite E. vm_compute. reflexivity.
Defined.

(** ** Filters and SQL *)

Lemma public_row_regular : regular_row toy_tables (1%N, 990%Z, "1") public_row.
Proof.
  split; try reflexivity.
  - vm_compute. intros [=].
  - intros v [=].
  - intros v Hv. vm_compute in Hv. by apply not_elem_of_nil in Hv.
  - intros v Hv. vm_compute in Hv. apply list_elem_of_singleton in Hv as ->. vm_compute. eauto.
Qed.

Lemma history_hides_nothing_witness :
  (1%N, 990%Z, "1", public_row) ∈ ordered_rows
    (row_matches (filter_query 1 "alice" (in_channels ["aaaaa"]) None (Some 5%N) [5%N]) toy_tables) toy_tables.
Proof.
  assert (H5 : extract_channel_id_from_filters [in_channels ["aaaaa"]] = Some 5%N) by (vm_compute; reflexivity).
  rewrite <-H5.
  eapply (history_hides_nothing [in_channels ["aaaaa"]] (in_channels ["aaaaa"]) 1 "alice" [5%N] toy_tables
    (1%N, 990%Z, "1") public_row); [exact toy_laws|apply list_elem_of_singleton; reflexivity|vm_compute; reflexivity
    |exact public_row_regular| |reflexivity|reflexivity|vm_compute; reflexivity| |vm_compute; reflexivity].
  - split; [intros ids i [=]|intros u [=]].
  - intros ch [= <-]. apply list_elem_of_singleton. reflexivity.
Defined.

(** ** Topics *)

Lemma subscriptions_keep_topics_witness :
  topic_count (sh_topics (after toy_env (run_op toy_conn (OpRegister "sub" [in_channels ["aaaaa"]] (Some [5%N]))) (start new)))
    (1%N, TopicChannel 5%N) = 1%N.
Proof.
  destruct (subscriptions_keep_topics toy_env (start new) toy_conn (OpRegister "sub" [in_channels ["aaaaa"]] (Some [5%N])))
    as [[_ Hcount] _]; [reflexivity| | |].
  - split; [intros k n; simpl; rewrite lookup_empty; intros [=]|].
    intros k. simpl. unfold topic_count, topic_uses. rewrite lookup_empty. reflexivity.
  - intros s e. unfold entry_of, get_sub. simpl. rewrite lookup_empty. intros [=].
  - rewrite Hcount. vm_compute. reflexivity.
Defined.
