(* ===== verification/Sdk.v ===== *)
(** * Sdk: the event builders of the clients

Models [crates/buzz-sdk/src/builders.rs] but its git and project part: what the
clients put into an event before they sign it.  [nostr::Tag::parse], the JSON
printer and [{:?}] are interfaces; a builder that reads the clock takes it as
an argument. *)
From stdpp Require Import pretty.
From S2P Require Import Conformance Prelude Text Encode Nostr Kind Roles Filter Subscription IngestRules IngestEnvelopes EventStore IngestRun IngestThread Ingest ReadQuery ReadRules ReadRun ReadPath FanOut.

(** ** Data *)

Record ThreadRef : Type := mkThreadRef { tr_root_event_id : string; tr_parent_event_id : string }.

Record DiffMeta : Type := mkDiffMeta {
  repo_url : string;
  commit_sha : string;
  file_path : option string;
  parent_commit : option string;
  branch : option (string * string);
  pr_number : option N;
  language : option string;
  description : option string;
  truncated : bool;
  alt_text : option string
}.

Inductive VoteDirection : Type := Up | Down.

Record CustomEmoji : Type := mkCustomEmoji { shortcode : string; url : string }.

Inductive SdkError : Type :=
| ContentTooLarge (max got : N)
| InvalidTag (text : string)
| EmojiTooLong
| TooManyMentions
| InvalidDiffMeta (text : string)
| InvalidInput (text : string).

(** [nostr::EventBuilder], as far as the builders fill it in. *)
Record EventBuilder : Type := mkBuilder {
  b_kind : N;
  b_content : string;
  b_tags : list Tag;
  b_allow_self_tagging : bool;
  b_created_at : option N
}.

(** [EventBuilder::new(kind, content).tags(tags)]. *)
Definition builder (kind : N) (content : string) (tags : list Tag) : EventBuilder :=
  mkBuilder kind content tags false None.
Definition allow_self_tagging (b : EventBuilder) : EventBuilder :=
  mkBuilder (b_kind b) (b_content b) (b_tags b) true (b_created_at b).
Definition custom_created_at (at_secs : N) (b : EventBuilder) : EventBuilder :=
  mkBuilder (b_kind b) (b_content b) (b_tags b) (b_allow_self_tagging b) (Some at_secs).

Class SdkCrates : Type := {
  tag_parse : list string → result Tag string;            (* [nostr::Tag::parse] *)
  json_object : list (string * string) → string;          (* [Value::Object(..).to_string()] *)
  uuid_parse_str : string → result Uuid string            (* [Uuid::parse_str], its error as it prints *)
}.

Section builders.
Context {UT : UuidText} {TT : TraceText} {SC : SdkCrates}.

(** ** Checks *)

Definition tag (parts : list string) : result Tag SdkError := map_err InvalidTag (tag_parse parts).

(** [tags.push(tag(parts)?)]. *)
Definition push (tags : list Tag) (parts : list string) : result (list Tag) SdkError :=
  let? t := tag parts in Ok (tags ++ [t]).
(** [if let Some(a) = o { tags.push(tag(..)?) }]. *)
Definition push_opt {A : Type} (tags : list Tag) (o : option A) (parts : A → list string) : result (list Tag) SdkError :=
  match o with Some a => push tags (parts a) | None => Ok tags end.
(** [for a in l { tags.push(tag(..)?) }]. *)
Fixpoint push_each {A : Type} (tags : list Tag) (l : list A) (parts : A → list string) : result (list Tag) SdkError :=
  match l with
  | [] => Ok tags
  | a :: l' => let? tags := push tags (parts a) in push_each tags l' parts
  end.

Definition check (b : bool) (e : SdkError) : result unit SdkError := if b then Ok tt else Err e.

(** A text in quotation marks. *)
Definition quoted (s : string) : string := String "034" (s +:+ String "034" "").

Definition len (s : string) : N := N.of_nat (String.length s).

Definition check_content (content : string) (max : N) : result unit SdkError :=
  check (len content <=? max)%N (ContentTooLarge max (len content)).

Definition is_hex_of_len (n : nat) (s : string) : bool :=
  (String.length s =? n) && string_forall is_ascii_hexdigit s.

Definition check_hex_len (s : string) (min_len : nat) (field : string) : result unit SdkError :=
  check ((min_len <=? String.length s) && string_forall is_ascii_hexdigit s)
    (InvalidDiffMeta (field +:+ " must be at least " +:+ fmt_nat min_len +:+ " hex characters (got " +:+ debug_str s +:+ ")")).

Definition check_pubkey_hex (s field : string) : result string SdkError :=
  let? _ := check (is_hex_of_len 64 s) (InvalidInput (field +:+ " must be a 64-character hex pubkey")) in
  Ok (to_ascii_lowercase s).

Definition check_hex_exact (s : string) (n : nat) (field : string) : result string SdkError :=
  let? _ := check (is_hex_of_len n s)
    (InvalidInput (field +:+ " must be a " +:+ fmt_nat n +:+ "-character hex string")) in
  Ok (to_ascii_lowercase s).

(** [normalize_custom_emoji_shortcode] is [IngestEnvelopes]'s, whose error is
the text as it prints, after its [invalid input: ]. *)
Definition INVALID_INPUT : string := "invalid input: ".
Definition shortcode_error (printed : string) : SdkError :=
  InvalidInput (default printed (strip_prefix INVALID_INPUT printed)).
Definition normalize_shortcode (s : string) : result string SdkError :=
  map_err shortcode_error (normalize_custom_emoji_shortcode s).

Definition check_custom_emoji_url (url : string) : result unit SdkError :=
  let? _ := check (negb (String.eqb url "")) (InvalidInput "emoji image URL must not be empty") in
  let? _ := check (len url <=? 2048)%N
    (InvalidInput ("emoji image URL exceeds 2048 bytes (got " +:+ fmt_nat (String.length url) +:+ ")")) in
  check (starts_with "http://" url || starts_with "https://" url)
    (InvalidInput "emoji image URL must start with http:// or https://").

(** ** Tags that several builders share *)

Definition channel_tag (channel_id : Uuid) : list string := ["h"; uuid_to_string channel_id].

Definition thread_tags (thread_ref : ThreadRef) (tags : list Tag) : result (list Tag) SdkError :=
  let root := tr_root_event_id thread_ref in
  let parent := tr_parent_event_id thread_ref in
  if String.eqb root parent then push tags ["e"; root; ""; "reply"]
  else
    let? tags := push tags ["e"; root; ""; "root"] in
    push tags ["e"; parent; ""; "reply"].

Definition thread_tags_opt (thread_ref : option ThreadRef) (tags : list Tag) : result (list Tag) SdkError :=
  match thread_ref with Some tr => thread_tags tr tags | None => Ok tags end.

Definition MENTION_CAP : nat := 50.

Fixpoint mention_loop (seen : list string) (mentions : list string) (tags : list Tag) : result (list Tag) SdkError :=
  match mentions with
  | [] => Ok tags
  | hex :: ms =>
      let lower := to_ascii_lowercase hex in
      if bool_decide (lower ∈ seen) then mention_loop seen ms tags
      else
        let? tags := push tags ["p"; lower] in
        mention_loop (lower :: seen) ms tags
  end.

Definition mention_tags (mentions : list string) (tags : list Tag) : result (list Tag) SdkError :=
  let? _ := check (length mentions <=? MENTION_CAP) TooManyMentions in
  mention_loop [] mentions tags.

Definition imeta_tags (media_tags : list (list string)) (tags : list Tag) : result (list Tag) SdkError :=
  push_each tags media_tags (λ mt, mt).

Definition is_nip30 (et : list string) : bool :=
  (length et =? 3) && bool_decide (head et = Some "emoji").
Definition nip30_emoji_tags (emoji_tags : list (list string)) (tags : list Tag) : result (list Tag) SdkError :=
  push_each tags (List.filter is_nip30 emoji_tags) (λ et, et).

(** ** Messages *)

Definition build_message (channel_id : Uuid) (content : string) (thread_ref : option ThreadRef) (mentions : list string)
    (broadcast : bool) (media_tags emoji_tags : list (list string)) : result EventBuilder SdkError :=
  let? _ := check_content content 65536 in
  let? tags := push [] (channel_tag channel_id) in
  let? tags := thread_tags_opt thread_ref tags in
  let? tags := mention_tags mentions tags in
  let? tags := push_opt tags (if broadcast then Some tt else None) (λ _, ["broadcast"; "1"]) in
  let? tags := imeta_tags media_tags tags in
  let? tags := nip30_emoji_tags emoji_tags tags in
  Ok (allow_self_tagging (builder 9 content tags)).

Definition OBSERVER_AGENT_TAG : string := "agent".
Definition OBSERVER_FRAME_TAG : string := "frame".
Definition OBSERVER_FRAME_TELEMETRY : string := "telemetry".
Definition OBSERVER_FRAME_CONTROL : string := "control".

Definition build_agent_observer_frame (recipient_pubkey agent_pubkey frame encrypted_content : string)
    : result EventBuilder SdkError :=
  let? _ := check (String.eqb frame OBSERVER_FRAME_TELEMETRY || String.eqb frame OBSERVER_FRAME_CONTROL)
    (InvalidInput ("observer frame must be " +:+ debug_str OBSERVER_FRAME_TELEMETRY +:+ " or "
                   +:+ debug_str OBSERVER_FRAME_CONTROL)) in
  let? _ := check (content_looks_like_nip44 encrypted_content)
    (InvalidInput "observer frame content must be NIP-44 v2 ciphertext") in
  let? recipient_pubkey := check_pubkey_hex recipient_pubkey "recipient_pubkey" in
  let? agent_pubkey := check_pubkey_hex agent_pubkey "agent_pubkey" in
  let? tags := push [] ["p"; recipient_pubkey] in
  let? tags := push tags [OBSERVER_AGENT_TAG; agent_pubkey] in
  let? tags := push tags [OBSERVER_FRAME_TAG; frame] in
  Ok (builder KIND_AGENT_OBSERVER_FRAME encrypted_content tags).

Definition build_forum_post (channel_id : Uuid) (content : string) (mentions : list string)
    (media_tags : list (list string)) : result EventBuilder SdkError :=
  let? _ := check_content content 65536 in
  let? tags := push [] (channel_tag channel_id) in
  let? tags := mention_tags mentions tags in
  let? tags := imeta_tags media_tags tags in
  Ok (allow_self_tagging (builder 45001 content tags)).

Definition build_forum_comment (channel_id : Uuid) (content : string) (thread_ref : ThreadRef) (mentions : list string)
    (media_tags : list (list string)) : result EventBuilder SdkError :=
  let? _ := check_content content 65536 in
  let? tags := push [] (channel_tag channel_id) in
  let? tags := thread_tags thread_ref tags in
  let? tags := mention_tags mentions tags in
  let? tags := imeta_tags media_tags tags in
  Ok (allow_self_tagging (builder 45003 content tags)).

Definition is_http_url (url : string) : bool := starts_with "http://" url || starts_with "https://" url.

(** The checks of [build_diff_message] on its metadata. *)
Definition check_diff_meta (m : DiffMeta) : result unit SdkError :=
  let? _ := check (is_http_url (repo_url m)) (InvalidDiffMeta "repo_url must start with http:// or https://") in
  let? _ := check_hex_len (commit_sha m) 7 "commit_sha" in
  let? _ := match parent_commit m with Some pc => check_hex_len pc 7 "parent_commit" | None => Ok tt end in
  let? _ := match branch m with
            | Some (src, tgt) => check (negb (String.eqb src "" || String.eqb tgt ""))
                (InvalidDiffMeta "branch requires both source and target to be non-empty")
            | None => Ok tt
            end in
  match pr_number m with
  | Some pr => check (negb (pr =? 0)%N) (InvalidDiffMeta "pr_number must be positive")
  | None => Ok tt
  end.

Definition build_diff_message (channel_id : Uuid) (content : string) (diff_meta : DiffMeta)
    (thread_ref : option ThreadRef) : result EventBuilder SdkError :=
  let? _ := check_content content 61440 in
  let? _ := check_diff_meta diff_meta in
  let? tags := push [] (channel_tag channel_id) in
  let? tags := push tags ["repo"; repo_url diff_meta] in
  let? tags := push tags ["commit"; commit_sha diff_meta] in
  let? tags := push_opt tags (file_path diff_meta) (λ fp, ["file"; fp]) in
  let? tags := push_opt tags (parent_commit diff_meta) (λ pc, ["parent-commit"; pc]) in
  let? tags := push_opt tags (branch diff_meta) (λ st, ["branch"; st.1; st.2]) in
  let? tags := push_opt tags (pr_number diff_meta) (λ pr, ["pr"; pretty pr]) in
  let? tags := push_opt tags (language diff_meta) (λ lang, ["l"; lang]) in
  let? tags := push_opt tags (description diff_meta) (λ desc, ["description"; desc]) in
  let? tags := push_opt tags (if truncated diff_meta then Some tt else None) (λ _, ["truncated"; "true"]) in
  let? tags := push_opt tags (alt_text diff_meta) (λ alt, ["alt"; alt]) in
  let? tags := thread_tags_opt thread_ref tags in
  Ok (builder 40008 content tags).

(** [h] and [e], which several builders start from. *)
Definition channel_and_target (channel_id : Uuid) (target_event_id : string) : result (list Tag) SdkError :=
  let? tags := push [] (channel_tag channel_id) in
  push tags ["e"; target_event_id].

Definition build_edit (channel_id : Uuid) (target_event_id new_content : string) : result EventBuilder SdkError :=
  let? _ := check_content new_content 65536 in
  let? tags := channel_and_target channel_id target_event_id in
  Ok (builder 40003 new_content tags).

Record DeleteMessageOptions : Type := mkDeleteOptions {
  action_id : option Uuid;
  reason_code : option string;
  public_reason : option string
}.

Definition build_delete_message_with_options (channel_id : Uuid) (target_event_id : string)
    (options : DeleteMessageOptions) : result EventBuilder SdkError :=
  let? tags := channel_and_target channel_id target_event_id in
  let? tags := push_opt tags (action_id options) (λ a, ["action_id"; uuid_to_string a]) in
  let? tags := push_opt tags (reason_code options) (λ r, ["reason_code"; r]) in
  let? tags := push_opt tags (public_reason options) (λ r, ["public_reason"; r]) in
  Ok (builder 9005 "" tags).

Definition build_delete_message (channel_id : Uuid) (target_event_id : string) : result EventBuilder SdkError :=
  build_delete_message_with_options channel_id target_event_id (mkDeleteOptions None None None).

Definition build_delete_compat (channel_id : Uuid) (target_event_id : string) : result EventBuilder SdkError :=
  let? tags := channel_and_target channel_id target_event_id in
  Ok (builder 5 "" tags).

Definition build_vote (channel_id : Uuid) (target_event_id : string) (direction : VoteDirection)
    : result EventBuilder SdkError :=
  let content := match direction with Up => "+" | Down => "-" end in
  let? tags := channel_and_target channel_id target_event_id in
  Ok (builder 45002 content tags).

(** ** Reactions and emoji *)

Definition build_reaction (target_event_id emoji : string) : result EventBuilder SdkError :=
  let? _ := check (char_count emoji <=? 64) EmojiTooLong in
  let? tags := push [] ["e"; target_event_id] in
  Ok (builder 7 emoji tags).

Definition build_custom_emoji_reaction (target_event_id shortcode url : string) : result EventBuilder SdkError :=
  let? shortcode := normalize_shortcode shortcode in
  let? _ := check_custom_emoji_url url in
  let content := ":" +:+ shortcode +:+ ":" in
  let? tags := push [] ["e"; target_event_id] in
  let? tags := push tags ["emoji"; shortcode; url] in
  Ok (builder 7 content tags).

Definition build_remove_reaction (reaction_event_id : string) : result EventBuilder SdkError :=
  let? tags := push [] ["e"; reaction_event_id] in
  Ok (builder 5 "" tags).

Definition CUSTOM_EMOJI_SET_D_TAG : string := "buzz:custom-emoji".

Fixpoint emoji_set_loop (seen : list string) (emojis : list CustomEmoji) (tags : list Tag) : result (list Tag) SdkError :=
  match emojis with
  | [] => Ok tags
  | emoji :: es =>
      let? code := normalize_shortcode (shortcode emoji) in
      let? _ := check_custom_emoji_url (url emoji) in
      let? _ := check (bool_decide (code ∉ seen)) (InvalidInput ("duplicate emoji shortcode: " +:+ code)) in
      let? tags := push tags ["emoji"; code; url emoji] in
      emoji_set_loop (code :: seen) es tags
  end.

Definition build_custom_emoji_set (emojis : list CustomEmoji) : result EventBuilder SdkError :=
  let? tags := push [] ["d"; CUSTOM_EMOJI_SET_D_TAG] in
  let? tags := emoji_set_loop [] emojis tags in
  Ok (builder KIND_EMOJI_SET "" tags).

(** ** Canvases *)

Definition build_set_canvas (channel_id : Uuid) (content : string) (expected_revision : option string)
    : result EventBuilder SdkError :=
  let? tags := push [] (channel_tag channel_id) in
  let? tags :=
    match expected_revision with
    | Some rev =>
        let? _ := check (String.eqb rev "none" || is_hex_of_len 64 rev)
          (InvalidInput ("expected_revision must be the literal " +:+ quoted "none"
             +:+ " or a 64-character hex event id (got " +:+ debug_str rev +:+ ")")) in
        push tags ["expected-revision"; rev]
    | None => Ok tags
    end in
  Ok (builder 40100 content tags).

Definition CANVAS_MAX_FUTURE_SKEW_SECS : N := 60.

Definition saturating_add_u64 (a b : N) : N := N.min (a + b) U64_MAX.

(** [canvas_write_created_at_at]; [canvas_write_created_at] reads the clock. *)
Definition canvas_write_created_at_at (head_created_at now : N) : result N SdkError :=
  let? _ := check (head_created_at <=? saturating_add_u64 now CANVAS_MAX_FUTURE_SKEW_SECS)%N
    (InvalidInput "canvas head is timestamped too far in the future; refusing to extend it") in
  Ok (N.max now (saturating_add_u64 head_created_at 1)).

Definition build_set_canvas_after_head (now : N) (channel_id : Uuid) (content head_id : string) (head_created_at : N)
    : result EventBuilder SdkError :=
  let? created_at := canvas_write_created_at_at head_created_at now in
  let? b := build_set_canvas channel_id content (Some head_id) in
  Ok (custom_created_at created_at b).

Definition build_set_canvas_unconditional_after_head (now : N) (channel_id : Uuid) (content : string) (head_created_at : N)
    : result EventBuilder SdkError :=
  let? created_at := canvas_write_created_at_at head_created_at now in
  let? b := build_set_canvas channel_id content None in
  Ok (custom_created_at created_at b).

Definition CANVAS_ANCESTRY_WALK_MAX : nat := 256.

(** The map from lowercased ids: [collect] keeps the last entry of an id. *)
Definition by_id (revisions : list (string * option string)) : gmap string (option string) :=
  foldl (λ m r, <[to_ascii_lowercase r.1 := r.2]> m) ∅ revisions.

Fixpoint ancestry_walk (fuel : nat) (our_id : string) (m : gmap string (option string)) (seen : list string)
    (cursor : string) : bool :=
  match fuel with
  | 0 => false
  | S fuel =>
      if bool_decide (cursor ∈ seen) then false
      else match m !! cursor with
      | Some (Some expected) =>
          if eq_ignore_ascii_case expected our_id then true
          else ancestry_walk fuel our_id m (cursor :: seen) (to_ascii_lowercase expected)
      | _ => false
      end
  end.

Definition canvas_write_survived (our_id : string) (revisions : list (string * option string)) : bool :=
  match revisions with
  | [] => false
  | (head_id, _) :: _ =>
      if eq_ignore_ascii_case head_id our_id then true
      else ancestry_walk CANVAS_ANCESTRY_WALK_MAX our_id (by_id revisions) [] (to_ascii_lowercase head_id)
  end.

(** ** Profiles and channels *)

(** The members of the object, in the order of their keys. *)
Definition member (key : string) (o : option string) : list (string * string) :=
  match o with Some v => [(key, v)] | None => [] end.

Definition build_profile (display_name name picture about nip05 : option string) : result EventBuilder SdkError :=
  let content := json_object (member "about" about ++ member "display_name" display_name ++ member "name" name
                              ++ member "nip05" nip05 ++ member "picture" picture) in
  Ok (builder 0 content []).

Definition build_add_member (channel_id : Uuid) (target_pubkey : string) (role : option MemberRole)
    : result EventBuilder SdkError :=
  let? _ := check_hex_len target_pubkey 64 "target_pubkey" in
  let? tags := push [] (channel_tag channel_id) in
  let? tags := push tags ["p"; to_ascii_lowercase target_pubkey] in
  let? tags := push_opt tags role (λ r, ["role"; as_str r]) in
  Ok (builder 9000 "" tags).

Definition build_remove_member (channel_id : Uuid) (target_pubkey : string) : result EventBuilder SdkError :=
  let? _ := check_hex_len target_pubkey 64 "target_pubkey" in
  let? tags := push [] (channel_tag channel_id) in
  let? tags := push tags ["p"; to_ascii_lowercase target_pubkey] in
  Ok (builder 9001 "" tags).

Definition build_leave (channel_id : Uuid) : result EventBuilder SdkError :=
  let? tags := push [] (channel_tag channel_id) in Ok (builder 9022 "" tags).

Definition is_none {A : Type} (o : option A) : bool := match o with None => true | Some _ => false end.
Definition i32_text (z : Z) : string := pretty z.

Definition build_update_channel (channel_id : Uuid) (name about visibility : option string) (ttl : option (option Z))
    : result EventBuilder SdkError :=
  let? _ := check (negb (is_none name && is_none about && is_none visibility && is_none ttl))
    (InvalidTag "at least one of name, about, visibility, or ttl must be provided") in
  let? _ := check (match visibility with Some v => String.eqb v "open" || String.eqb v "private" | None => true end)
    (InvalidTag ("visibility must be " +:+ quoted "open" +:+ " or " +:+ quoted "private")) in
  let? _ := check (match name with Some n => negb (String.eqb (trim (canonical_channel_name n)) "") | None => true end)
    (InvalidTag "channel name is required") in
  let? tags := push [] (channel_tag channel_id) in
  let? tags := push_opt tags name (λ n, ["name"; canonical_channel_name n]) in
  let? tags := push_opt tags about (λ a, ["about"; a]) in
  let? tags := push_opt tags visibility (λ v, ["visibility"; v]) in
  let? tags := push_opt tags ttl (λ t, ["ttl"; match t with Some secs => i32_text secs | None => "" end]) in
  Ok (builder 9002 "" tags).

(** The builders of kind 9002 with one word. *)
Definition edit_metadata (channel_id : Uuid) (key value : string) : result EventBuilder SdkError :=
  let? tags := push [] (channel_tag channel_id) in
  let? tags := push tags [key; value] in
  Ok (builder 9002 "" tags).

Definition build_set_topic (channel_id : Uuid) (topic : string) : result EventBuilder SdkError :=
  edit_metadata channel_id "topic" topic.
Definition build_set_purpose (channel_id : Uuid) (purpose : string) : result EventBuilder SdkError :=
  edit_metadata channel_id "purpose" purpose.
Definition build_archive (channel_id : Uuid) : result EventBuilder SdkError :=
  edit_metadata channel_id "archived" "true".
Definition build_unarchive (channel_id : Uuid) : result EventBuilder SdkError :=
  edit_metadata channel_id "archived" "false".

Definition build_create_channel (channel_id : Uuid) (name : string) (visibility : option ChannelVisibility)
    (channel_type : option ChannelType) (about : option string) (ttl : option Z) : result EventBuilder SdkError :=
  let name := canonical_channel_name name in
  let? _ := check (negb (String.eqb (trim name) "")) (InvalidTag "channel name is required") in
  let? tags := push [] (channel_tag channel_id) in
  let? tags := push tags ["name"; name] in
  let? tags := push_opt tags visibility (λ v, ["visibility"; visibility_as_str v]) in
  let? tags := push_opt tags channel_type (λ ct, ["channel_type"; channel_type_as_str ct]) in
  let? tags := push_opt tags about (λ a, ["about"; a]) in
  let? tags := push_opt tags ttl (λ secs, ["ttl"; i32_text secs]) in
  Ok (builder 9007 "" tags).

Definition build_join (channel_id : Uuid) : result EventBuilder SdkError :=
  let? tags := push [] (channel_tag channel_id) in Ok (builder 9021 "" tags).

Definition build_delete_channel (channel_id : Uuid) : result EventBuilder SdkError :=
  let? tags := push [] (channel_tag channel_id) in Ok (builder 9008 "" tags).

(** ** Notes and contacts *)

Definition build_note (content : string) (reply_to_event_id : option string) : result EventBuilder SdkError :=
  let? _ := check_content content 65536 in
  let? tags := push_opt [] reply_to_event_id (λ reply_id, ["e"; reply_id; ""; "reply"]) in
  Ok (builder 1 content tags).

Definition MAX_CONTACTS : N := 10000.

Definition Contact : Type := string * option string * option string.

Fixpoint contact_loop (seen : list string) (contacts : list Contact) (tags : list Tag) : result (list Tag) SdkError :=
  match contacts with
  | [] => Ok tags
  | (pubkey_hex, relay_url, petname) :: cs =>
      let? _ := check (is_hex_of_len 64 pubkey_hex)
        (InvalidInput ("contact pubkey must be exactly 64 hex chars, got len=" +:+ fmt_nat (String.length pubkey_hex))) in
      let? _ := match relay_url with
                | Some url => check (len url <=? 2048)%N
                    (InvalidInput ("relay_url exceeds 2048 bytes (got " +:+ fmt_nat (String.length url) +:+ ")"))
                | None => Ok tt
                end in
      let? _ := match petname with
                | Some name => check (len name <=? 256)%N
                    (InvalidInput ("petname exceeds 256 bytes (got " +:+ fmt_nat (String.length name) +:+ ")"))
                | None => Ok tt
                end in
      let lower := to_ascii_lowercase pubkey_hex in
      if bool_decide (lower ∈ seen) then contact_loop seen cs tags
      else
        let? tags := push tags ["p"; lower; default "" relay_url; default "" petname] in
        contact_loop (lower :: seen) cs tags
  end.

Definition build_contact_list (contacts : list Contact) : result EventBuilder SdkError :=
  let? _ := check (N.of_nat (length contacts) <=? MAX_CONTACTS)%N
    (InvalidInput ("contact list exceeds maximum of " +:+ pretty MAX_CONTACTS +:+ " contacts (got "
                   +:+ fmt_nat (length contacts) +:+ ")")) in
  let? tags := contact_loop [] contacts [] in
  Ok (builder 3 "" tags).

(** ** Workflows *)

Definition build_workflow_def (channel_id workflow_id : Uuid) (yaml : string) : result EventBuilder SdkError :=
  let? _ := check_content yaml 65536 in
  let? tags := push [] ["d"; uuid_to_string workflow_id] in
  let? tags := push tags (channel_tag channel_id) in
  Ok (builder KIND_WORKFLOW_DEF yaml tags).

Definition build_workflow_update (channel_id workflow_id : Uuid) (yaml expected_revision : string)
    : result EventBuilder SdkError :=
  let? _ := check_content yaml 65536 in
  let? tags := push [] ["d"; uuid_to_string workflow_id] in
  let? tags := push tags (channel_tag channel_id) in
  let? tags := push tags ["expected-revision"; expected_revision] in
  Ok (builder KIND_WORKFLOW_DEF yaml tags).

(** A [u32] kind. *)
Definition build_delete_addressable (kind : N) (pubkey d : string) : result EventBuilder SdkError :=
  let is_addressable := in_kind_range 10000 19999 kind || in_kind_range 30000 39999 kind in
  let? _ := check is_addressable
    (InvalidInput ("kind " +:+ pretty kind +:+ " is not an addressable kind (must be 10000–19999 or 30000–39999)")) in
  let? pk := check_pubkey_hex pubkey "pubkey" in
  let? _ := check (negb (String.eqb d "")) (InvalidInput "d must not be empty") in
  let coord := pretty kind +:+ ":" +:+ pk +:+ ":" +:+ d in
  let? tags := push [] ["a"; coord] in
  Ok (builder KIND_DELETION "" tags).

Definition build_workflow_delete (author_pubkey : string) (workflow_id : Uuid) : result EventBuilder SdkError :=
  build_delete_addressable KIND_WORKFLOW_DEF author_pubkey (uuid_to_string workflow_id).

Definition build_workflow_trigger (workflow_id : Uuid) : result EventBuilder SdkError :=
  let? tags := push [] ["d"; uuid_to_string workflow_id] in
  Ok (builder KIND_WORKFLOW_TRIGGER "" tags).

Definition build_workflow_approval (token_hash : string) (approved : bool) (note : string) : result EventBuilder SdkError :=
  let? _ := check (is_hex_of_len 64 token_hash) (InvalidInput "token_hash must be a 64-character hex SHA-256 digest") in
  let? tags := push [] ["d"; token_hash] in
  Ok (builder (if approved then KIND_APPROVAL_GRANT else KIND_APPROVAL_DENY) note tags).

(** ** Direct messages, presence, status *)

(** [for pk in pubkeys { tags.push(tag(&["p", &check(pk)?])?) }]. *)
Fixpoint pubkey_tags (field : string) (pubkeys : list string) (tags : list Tag) : result (list Tag) SdkError :=
  match pubkeys with
  | [] => Ok tags
  | pk :: pks =>
      let? validated := check_pubkey_hex pk field in
      let? tags := push tags ["p"; validated] in
      pubkey_tags field pks tags
  end.

Definition build_dm_open (pubkeys : list string) : result EventBuilder SdkError :=
  let? _ := check (negb (bool_decide (pubkeys = [])) && (length pubkeys <=? 8)) (InvalidInput "dm open requires 1-8 pubkeys") in
  let? tags := pubkey_tags "pubkey" pubkeys [] in
  Ok (builder KIND_DM_OPEN "" tags).

Definition build_dm_add_member (channel_id : Uuid) (pubkey : string) : result EventBuilder SdkError :=
  let? pk := check_pubkey_hex pubkey "pubkey" in
  let? tags := push [] (channel_tag channel_id) in
  let? tags := push tags ["p"; pk] in
  Ok (builder KIND_DM_ADD_MEMBER "" tags).

Definition build_presence_update (status : string) : result EventBuilder SdkError :=
  let? _ := check (bool_decide (status ∈ ["online"; "away"; "offline"]))
    (InvalidInput ("status must be online, away, or offline (got: " +:+ status +:+ ")")) in
  let? tags := push [] ["status"; status] in
  Ok (builder KIND_PRESENCE_UPDATE status tags).

Definition nonblank (emoji : option string) : option string :=
  match trim <$> emoji with Some e => if String.eqb e "" then None else Some e | None => None end.

Definition build_user_status (text : string) (emoji : option string) : result EventBuilder SdkError :=
  let text := trim text in
  let? _ := check_content text 65536 in
  let? tags := push [] ["d"; "general"] in
  let? tags := push_opt tags (nonblank emoji) (λ emoji, ["emoji"; emoji]) in
  Ok (builder KIND_USER_STATUS text tags).

(** ** Moderation *)

Definition build_moderation_ban (target_pubkey : string) (expires_at : option N) (reason : option string)
    : result EventBuilder SdkError :=
  let? target_pubkey := check_pubkey_hex target_pubkey "target_pubkey" in
  let? tags := push [] ["p"; target_pubkey] in
  let? tags := push_opt tags expires_at (λ exp, ["expiration"; pretty exp]) in
  let? tags := push_opt tags reason (λ r, ["reason"; r]) in
  Ok (builder KIND_MODERATION_BAN "" tags).

Definition build_moderation_unban (target_pubkey : string) : result EventBuilder SdkError :=
  let? target_pubkey := check_pubkey_hex target_pubkey "target_pubkey" in
  let? tags := push [] ["p"; target_pubkey] in
  Ok (builder KIND_MODERATION_UNBAN "" tags).

Definition build_moderation_timeout (target_pubkey : string) (expires_at : N) (reason : option string)
    : result EventBuilder SdkError :=
  let? target_pubkey := check_pubkey_hex target_pubkey "target_pubkey" in
  let? tags := push [] ["p"; target_pubkey] in
  let? tags := push tags ["expiration"; pretty expires_at] in
  let? tags := push_opt tags reason (λ r, ["reason"; r]) in
  Ok (builder KIND_MODERATION_TIMEOUT "" tags).

Definition build_moderation_untimeout (target_pubkey : string) : result EventBuilder SdkError :=
  let? target_pubkey := check_pubkey_hex target_pubkey "target_pubkey" in
  let? tags := push [] ["p"; target_pubkey] in
  Ok (builder KIND_MODERATION_UNTIMEOUT "" tags).

Definition build_moderation_resolve_report (report_event_id status action : string) (reason : option string)
    : result EventBuilder SdkError :=
  let? report_event_id := check_hex_exact report_event_id 64 "report_event_id" in
  let? _ := check (bool_decide (status ∈ ["resolved"; "dismissed"]))
    (InvalidInput ("status must be resolved or dismissed (got: " +:+ status +:+ ")")) in
  let? _ := check (bool_decide (action ∈ ["delete"; "kick"; "ban"; "timeout"; "dismiss"; "escalate"]))
    (InvalidInput ("action must be delete, kick, ban, timeout, dismiss, or escalate (got: " +:+ action +:+ ")")) in
  let? tags := push [] ["report"; report_event_id] in
  let? tags := push tags ["status"; status] in
  let? tags := push tags ["action"; action] in
  let? tags := push_opt tags reason (λ r, ["reason"; r]) in
  Ok (builder KIND_MODERATION_RESOLVE_REPORT "" tags).

(** ** Identity archival *)

Definition MAX_REASON_BYTES : N := 64.

Definition check_reason (reason : string) : result unit SdkError :=
  let? _ := check (len reason <=? MAX_REASON_BYTES)%N
    (InvalidInput ("reason code exceeds maximum length of " +:+ pretty MAX_REASON_BYTES +:+ " UTF-8 bytes (got "
                   +:+ fmt_nat (String.length reason) +:+ ")")) in
  check (negb (has_control reason)) (InvalidInput "reason code must not contain control characters").

Record AuthTag : Type := mkAuthTag { auth_label : string; auth_owner : string; auth_conditions : string; auth_sig : string }.

Definition check_auth_tag_shape (auth : AuthTag) : result unit SdkError :=
  let? _ := check (String.eqb (auth_label auth) "auth")
    (InvalidInput ("auth tag label must be " +:+ quoted "auth" +:+ " (got " +:+ quoted (auth_label auth) +:+ ")")) in
  let? _ := check_pubkey_hex (auth_owner auth) "auth tag owner pubkey" in
  check (is_hex_of_len 128 (auth_sig auth)) (InvalidInput "auth tag signature must be 128-character hex").

Definition identity_archive_tags (target_pubkey : string) (reason replaced_by : option string) (auth : option AuthTag)
    : result (list Tag) SdkError :=
  let? target_lower := check_pubkey_hex target_pubkey "target_pubkey" in
  let? tags := push [] ["-"] in
  let? tags := push tags ["p"; target_lower] in
  let? tags := match reason with
               | Some r => let? _ := check_reason r in push tags ["reason"; r]
               | None => Ok tags
               end in
  let? tags := match replaced_by with
               | Some rb =>
                   let? rb_lower := check_pubkey_hex rb "replaced_by" in
                   let? _ := check (negb (String.eqb rb_lower target_lower))
                     (InvalidInput "replaced-by must differ from the target") in
                   push tags ["replaced-by"; rb_lower]
               | None => Ok tags
               end in
  match auth with
  | Some a =>
      let? _ := check_auth_tag_shape a in
      push tags ["auth"; auth_owner a; auth_conditions a; auth_sig a]
  | None => Ok tags
  end.

Definition build_archive_identity_request (target_pubkey content : string) (reason replaced_by : option string)
    (auth : option AuthTag) : result EventBuilder SdkError :=
  let? _ := check_content content 65536 in
  let? tags := identity_archive_tags target_pubkey reason replaced_by auth in
  Ok (allow_self_tagging (builder KIND_IA_ARCHIVE_REQUEST content tags)).

Definition build_unarchive_identity_request (target_pubkey content : string) (reason : option string)
    (auth : option AuthTag) : result EventBuilder SdkError :=
  let? _ := check_content content 65536 in
  let? tags := identity_archive_tags target_pubkey reason None auth in
  Ok (allow_self_tagging (builder KIND_IA_UNARCHIVE_REQUEST content tags)).

(** [extract_channel_id]. *)
Definition sdk_extract_channel_id (e : Event) : option Uuid :=
  head (omap (λ t : Tag, match t with
    | p0 :: p1 :: _ => if decide (p0 = "h") then match uuid_parse_str p1 with Ok u => Some u | Err _ => None end else None
    | _ => None
    end) (tags e)).

End builders.
