(* ===== verification/SdkGit.v ===== *)
(** * SdkGit: repositories, patches, issues and projects

Models the NIP-34 and NIP-MP part of [crates/buzz-sdk/src/builders.rs], over
the checks and helpers of [Sdk]. *)
From stdpp Require Import pretty.
From S2P Require Import Conformance Prelude Text Encode Nostr Kind Roles IngestRules IngestEnvelopes EventStore IngestRun Sdk.

Section git.
Context {UT : UuidText} {TT : TraceText} {SC : SdkCrates}.

(** ** Checks *)

Definition too_long (what unit : string) (max : N) (s : string) : SdkError :=
  InvalidInput (what +:+ " exceeds " +:+ pretty max +:+ " " +:+ unit +:+ " (got " +:+ fmt_nat (String.length s) +:+ ")").

Definition check_commit_hex (s field : string) : result unit SdkError :=
  check (is_hex_of_len 40 s || is_hex_of_len 64 s)
    (InvalidInput (field +:+ " must be a full 40-character (SHA-1) or 64-character (SHA-256) hex commit id (got "
                   +:+ debug_str s +:+ ")")).

Definition is_repo_char (c : ascii) : bool :=
  is_ascii_alphanumeric c || Ascii.eqb c "." || Ascii.eqb c "_" || Ascii.eqb c "-".

Definition check_repo_id (repo_id : string) : result unit SdkError :=
  let? _ := check (negb (String.eqb repo_id "")) (InvalidInput "repo_id must not be empty") in
  let? _ := check (len repo_id <=? 64)%N (too_long "repo_id" "characters" 64 repo_id) in
  let? _ := check (string_forall is_repo_char repo_id) (InvalidInput "repo_id may only contain [a-zA-Z0-9._-]") in
  let? _ := check (negb (starts_with "." repo_id)) (InvalidInput "repo_id must not start with a dot") in
  check (negb (contains ".." repo_id)) (InvalidInput "repo_id must not contain '..'").

Definition check_opt {A : Type} (o : option A) (f : A → result unit SdkError) : result unit SdkError :=
  match o with Some a => f a | None => Ok tt end.
Fixpoint check_each {A : Type} (l : list A) (f : A → result unit SdkError) : result unit SdkError :=
  match l with
  | [] => Ok tt
  | a :: l' => let? _ := f a in check_each l' f
  end.

(** ** Repository announcements *)

Definition got (n : nat) : string := " (got " +:+ fmt_nat n +:+ ")".

Definition check_clone_url (url : string) : result unit SdkError :=
  let? _ := check (negb (String.eqb url "")) (InvalidInput "clone_url must not be empty") in
  check (len url <=? 512)%N (too_long "clone_url" "characters" 512 url).
Definition check_web_url (url : string) : result unit SdkError :=
  let? _ := check (is_http_url url)
    (InvalidInput ("web_url must start with http:// or https:// (got " +:+ debug_str url +:+ ")")) in
  check (len url <=? 512)%N (too_long "web_url" "characters" 512 url).
Definition check_relay (relay : string) : result unit SdkError :=
  let? _ := check (starts_with "ws://" relay || starts_with "wss://" relay)
    (InvalidInput ("relay must start with ws:// or wss:// (got " +:+ debug_str relay +:+ ")")) in
  check (len relay <=? 256)%N (too_long "relay" "characters" 256 relay).

(** [if !l.is_empty() { tags.push(tag([name] ++ l)?) }]. *)
Definition push_list (tags : list Tag) (name : string) (l : list string) : result (list Tag) SdkError :=
  match l with [] => Ok tags | _ => push tags (name :: l) end.

Definition build_repo_announcement (repo_id : string) (name description : option string) (clone_urls : list string)
    (web_url : option string) (relays : list string) : result EventBuilder SdkError :=
  let? _ := check_repo_id repo_id in
  let? _ := check_opt name (λ n, check (len n <=? 128)%N (too_long "name" "characters" 128 n)) in
  let? _ := check_opt description (λ d, check (len d <=? 1024)%N (too_long "description" "characters" 1024 d)) in
  let? _ := check (length clone_urls <=? 5)
    (InvalidInput ("too many clone_urls (max 5, got " +:+ fmt_nat (length clone_urls) +:+ ")")) in
  let? _ := check_each clone_urls check_clone_url in
  let? _ := check_opt web_url check_web_url in
  let? _ := check (length relays <=? 10)
    (InvalidInput ("too many relays (max 10, got " +:+ fmt_nat (length relays) +:+ ")")) in
  let? _ := check_each relays check_relay in
  let? tags := push [] ["d"; repo_id] in
  let? tags := push_opt tags name (λ n, ["name"; n]) in
  let? tags := push_opt tags description (λ d, ["description"; d]) in
  let? tags := push_list tags "clone" clone_urls in
  let? tags := push_opt tags web_url (λ url, ["web"; url]) in
  let? tags := push_list tags "relays" relays in
  Ok (builder KIND_GIT_REPO_ANNOUNCEMENT "" tags).

Definition build_repo_announcement_with_tags (repo_id content : string) (tags : list Tag) : result EventBuilder SdkError :=
  let? _ := check_repo_id repo_id in
  let? d := tag ["d"; repo_id] in
  Ok (builder KIND_GIT_REPO_ANNOUNCEMENT content (d :: List.filter (λ t, negb (named "d" t)) tags)).

Record GitRepoCoord : Type := mkCoord { coord_owner : string; coord_id : string }.

Definition to_a_tag_value (c : GitRepoCoord) : result string SdkError :=
  let? owner := check_pubkey_hex (coord_owner c) "repo owner" in
  let? _ := check_repo_id (coord_id c) in
  Ok ("30617:" +:+ owner +:+ ":" +:+ coord_id c).

(** ** Patches *)

Record GitPatchMeta : Type := mkPatchMeta {
  pm_euc : option string;
  pm_recipients : list string;
  pm_reply_to : option string;
  pm_root : bool;
  pm_root_revision : bool;
  pm_commit : option string;
  pm_parent_commit : option string;
  pm_commit_pgp_sig : option string;
  pm_committer : option (string * string * string * string)
}.

(** [if let Some(x) = o { check_commit_hex(x)?; tags.push(tag(..)?) }]. *)
Definition push_commit (tags : list Tag) (o : option string) (field : string) (parts : string → list string)
    : result (list Tag) SdkError :=
  match o with
  | Some x => let? _ := check_commit_hex x field in push tags (parts x)
  | None => Ok tags
  end.
(** The same with an event id. *)
Definition push_event_id (tags : list Tag) (o : option string) (field : string) (parts : string → list string)
    : result (list Tag) SdkError :=
  match o with
  | Some x => let? event_id := check_hex_exact x 64 field in push tags (parts event_id)
  | None => Ok tags
  end.
Definition flag (b : bool) : option unit := if b then Some tt else None.

Definition build_git_patch (repo : GitRepoCoord) (content : string) (meta : GitPatchMeta) : result EventBuilder SdkError :=
  let? _ := check (negb (String.eqb (trim content) ""))
    (InvalidInput "patch content must not be empty — refusing to publish an unappliable patch") in
  let? _ := check_content content 61440 in
  let? a_value := to_a_tag_value repo in
  let? owner := check_pubkey_hex (coord_owner repo) "repo owner" in
  let? tags := push [] ["a"; a_value] in
  let? tags := push_commit tags (pm_euc meta) "euc" (λ euc, ["r"; euc; "euc"]) in
  let? tags := push tags ["p"; owner] in
  let? tags := pubkey_tags "recipient" (pm_recipients meta) tags in
  let? tags := push_event_id tags (pm_reply_to meta) "reply_to" (λ i, ["e"; i; ""; "reply"]) in
  let? _ := check (negb (pm_root meta && pm_root_revision meta))
    (InvalidInput "patch cannot be both --root and --root-revision") in
  let? tags := push_opt tags (flag (pm_root meta)) (λ _, ["t"; "root"]) in
  let? tags := push_opt tags (flag (pm_root_revision meta)) (λ _, ["t"; "root-revision"]) in
  let? tags := push_commit tags (pm_commit meta) "commit" (λ c, ["commit"; c]) in
  let? tags := push_opt tags (pm_commit meta) (λ c, ["r"; c]) in
  let? tags := push_commit tags (pm_parent_commit meta) "parent_commit" (λ c, ["parent-commit"; c]) in
  let? tags := push_opt tags (pm_commit_pgp_sig meta) (λ sig, ["commit-pgp-sig"; sig]) in
  let? tags := push_opt tags (pm_committer meta) (λ c, let '(name, email, ts, tz) := c in ["committer"; name; email; ts; tz]) in
  Ok (builder KIND_GIT_PATCH content tags).

(** ** Issues *)

Definition check_subject (subject : string) : result unit SdkError :=
  let? _ := check (negb (String.eqb subject "")) (InvalidInput "subject must not be empty") in
  check (len subject <=? 256)%N (too_long "subject" "characters" 256 subject).

Record GitIssueMeta : Type := mkIssueMeta { im_labels : list string; im_recipients : list string }.

Definition build_git_issue (repo : GitRepoCoord) (subject content : string) (meta : GitIssueMeta)
    : result EventBuilder SdkError :=
  let? _ := check_content content 65536 in
  let? _ := check_subject subject in
  let? a_value := to_a_tag_value repo in
  let? owner := check_pubkey_hex (coord_owner repo) "repo owner" in
  let? tags := push [] ["a"; a_value] in
  let? tags := push tags ["p"; owner] in
  let? tags := pubkey_tags "recipient" (im_recipients meta) tags in
  let? tags := push tags ["subject"; subject] in
  let? tags := push_each tags (im_labels meta) (λ label, ["t"; label]) in
  Ok (builder KIND_GIT_ISSUE content tags).

Inductive GitIssueAssigneeOperation : Type := Assign | Unassign.

Definition label (o : GitIssueAssigneeOperation) : string :=
  match o with Assign => "assignment" | Unassign => "unassignment" end.

Fixpoint collect_pubkeys (field : string) (l : list string) : result (list string) SdkError :=
  match l with
  | [] => Ok []
  | pk :: l' =>
      let? pk := check_pubkey_hex pk field in
      let? rest := collect_pubkeys field l' in
      Ok (pk :: rest)
  end.

(** [sort] of texts, and [dedup] of neighbours. *)
Fixpoint insert_text (x : string) (l : list string) : list string :=
  match l with
  | [] => [x]
  | y :: l' => if String.leb x y then x :: l else y :: insert_text x l'
  end.
Definition sort_texts (l : list string) : list string := foldr insert_text [] l.
Fixpoint dedup_texts (l : list string) : list string :=
  match l with
  | x :: ((y :: _) as l') => if String.eqb x y then dedup_texts l' else x :: dedup_texts l'
  | _ => l
  end.

Definition build_git_issue_assignee_operation (repo : GitRepoCoord) (issue_id : string) (assignees : list string)
    (content : string) (operation : GitIssueAssigneeOperation) (prior : option string) : result EventBuilder SdkError :=
  let? _ := check_content content 65536 in
  let? issue := check_hex_exact issue_id 64 "issue" in
  let? a_value := to_a_tag_value repo in
  let? _ := check (negb (bool_decide (assignees = [])) && (length assignees <=? 50))
    (InvalidInput "between 1 and 50 assignees are required") in
  let? normalized := collect_pubkeys "assignee" assignees in
  let normalized := dedup_texts (sort_texts normalized) in
  let? tags := push [] ["e"; issue; ""; "root"] in
  let? tags := push tags ["a"; a_value] in
  let? tags := push_each tags normalized (λ assignee, ["p"; assignee]) in
  let? tags := push tags ["t"; label operation] in
  let? tags := push_event_id tags prior "prior assignment operation" (λ p, ["prior"; p]) in
  Ok (builder 1 content tags).

Definition build_git_issue_assignment_with_prior (repo : GitRepoCoord) (issue_id : string) (assignees : list string)
    (content : string) (prior : option string) : result EventBuilder SdkError :=
  build_git_issue_assignee_operation repo issue_id assignees content Assign prior.
Definition build_git_issue_assignment (repo : GitRepoCoord) (issue_id : string) (assignees : list string)
    (content : string) : result EventBuilder SdkError :=
  build_git_issue_assignment_with_prior repo issue_id assignees content None.
Definition build_git_issue_unassignment_with_prior (repo : GitRepoCoord) (issue_id : string) (assignees : list string)
    (content : string) (prior : option string) : result EventBuilder SdkError :=
  build_git_issue_assignee_operation repo issue_id assignees content Unassign prior.
Definition build_git_issue_unassignment (repo : GitRepoCoord) (issue_id : string) (assignees : list string)
    (content : string) : result EventBuilder SdkError :=
  build_git_issue_unassignment_with_prior repo issue_id assignees content None.

(** ** Statuses *)

Inductive GitStatus : Type := StatusOpen | AppliedOrResolved | Closed | Draft.

Definition git_status_kind (s : GitStatus) : N :=
  match s with
  | StatusOpen => KIND_GIT_STATUS_OPEN
  | AppliedOrResolved => KIND_GIT_STATUS_MERGED
  | Closed => KIND_GIT_STATUS_CLOSED
  | Draft => KIND_GIT_STATUS_DRAFT
  end.

Record GitAppliedPatchRef : Type := mkPatchRef { pr_id : string; pr_relay : option string; pr_pubkey : option string }.

(** [rfind(':')], as the parts around the last one. *)
Fixpoint rsplit_once (sep : ascii) (s : string) : option (string * string) :=
  match s with
  | EmptyString => None
  | String c s' =>
      match rsplit_once sep s' with
      | Some (a, b) => Some (String c a, b)
      | None => if Ascii.eqb c sep then Some (EmptyString, s') else None
      end
  end.

(** [GitAppliedPatchRef::parse]. *)
Definition parse_patch_ref (spec : string) : GitAppliedPatchRef :=
  match split_once ":" spec with
  | None => mkPatchRef spec None None
  | Some (id, rest) =>
      match rsplit_once ":" rest with
      | Some (relay, candidate_pubkey) =>
          if is_hex_of_len 64 candidate_pubkey
          then mkPatchRef id (Some relay) (Some (to_ascii_lowercase candidate_pubkey))
          else mkPatchRef id (Some rest) None
      | None => mkPatchRef id (Some rest) None
      end
  end.

Record GitStatusMeta : Type := mkStatusMeta {
  sm_root_event : string;
  sm_accepted_revision_root : option string;
  sm_repo : option GitRepoCoord;
  sm_euc : option string;
  sm_recipients : list string;
  sm_applied_patches : list GitAppliedPatchRef;
  sm_merge_commit : option string;
  sm_applied_as_commits : list string
}.

Definition push_patch_ref (tags : list Tag) (r : GitAppliedPatchRef) : result (list Tag) SdkError :=
  let? patch_id := check_hex_exact (pr_id r) 64 "applied_patch" in
  match pr_relay r, pr_pubkey r with
  | None, None => push tags ["q"; patch_id]
  | Some relay, None => push tags ["q"; patch_id; relay]
  | Some relay, Some pubkey =>
      let? pubkey := check_pubkey_hex pubkey "applied_patch pubkey" in
      push tags ["q"; patch_id; relay; pubkey]
  | None, Some _ => Err (InvalidInput "applied_patch pubkey hint requires a relay-url hint")
  end.

Fixpoint push_patch_refs (tags : list Tag) (l : list GitAppliedPatchRef) : result (list Tag) SdkError :=
  match l with
  | [] => Ok tags
  | r :: l' => let? tags := push_patch_ref tags r in push_patch_refs tags l'
  end.

Definition is_merged (s : GitStatus) : bool := match s with AppliedOrResolved => true | _ => false end.

(** What belongs to the merged status only. *)
Definition status_tags (status : GitStatus) (meta : GitStatusMeta) (tags : list Tag) : result (list Tag) SdkError :=
  let? _ := check (is_merged status
                   || (bool_decide (sm_applied_patches meta = []) && is_none (sm_merge_commit meta)
                       && bool_decide (sm_applied_as_commits meta = [])))
    (InvalidInput "applied_patches/merge_commit/applied_as_commits only apply to the merged/resolved status") in
  let? tags := push_patch_refs tags (sm_applied_patches meta) in
  let? tags := push_commit tags (sm_merge_commit meta) "merge_commit" (λ c, ["merge-commit"; c]) in
  let? tags := push_opt tags (sm_merge_commit meta) (λ c, ["r"; c]) in
  let? _ := check_each (sm_applied_as_commits meta) (λ c, check_commit_hex c "applied_as_commit") in
  let? tags := push_list tags "applied-as-commits" (sm_applied_as_commits meta) in
  push_each tags (sm_applied_as_commits meta) (λ c, ["r"; c]).

Definition build_git_status (status : GitStatus) (content : string) (meta : GitStatusMeta) : result EventBuilder SdkError :=
  let? _ := check_content content 65536 in
  let? root := check_hex_exact (sm_root_event meta) 64 "root_event" in
  let? tags := push [] ["e"; root; ""; "root"] in
  let? tags := push_event_id tags (sm_accepted_revision_root meta) "accepted_revision_root" (λ i, ["e"; i; ""; "reply"]) in
  let? tags := pubkey_tags "recipient" (sm_recipients meta) tags in
  let? tags := match sm_repo meta with
               | Some repo => let? a_value := to_a_tag_value repo in push tags ["a"; a_value]
               | None => Ok tags
               end in
  let? tags := push_commit tags (sm_euc meta) "euc" (λ c, ["r"; c]) in
  let? tags := status_tags status meta tags in
  Ok (builder (git_status_kind status) content tags).

(** ** Pull requests *)

Record GitPullRequestMeta : Type := mkPrMeta {
  pq_euc : option string;
  pq_recipients : list string;
  pq_channel_id : option string;
  pq_subject : string;
  pq_labels : list string;
  pq_commit : string;
  pq_clone_urls : list string;
  pq_branch_name : option string;
  pq_merge_base : option string;
  pq_revision_of : option string
}.

Definition build_git_pull_request (repo : GitRepoCoord) (content : string) (meta : GitPullRequestMeta)
    : result EventBuilder SdkError :=
  let? _ := check_content content 65536 in
  let? _ := check_subject (pq_subject meta) in
  let? _ := check_commit_hex (pq_commit meta) "commit" in
  let? _ := check (negb (bool_decide (pq_clone_urls meta = [])))
    (InvalidInput "a pull request needs at least one --clone url where the tip commit can be fetched") in
  let? a_value := to_a_tag_value repo in
  let? owner := check_pubkey_hex (coord_owner repo) "repo owner" in
  let? tags := push [] ["a"; a_value] in
  let? tags := push_commit tags (pq_euc meta) "euc" (λ c, ["r"; c]) in
  let? tags := push tags ["p"; owner] in
  let? tags := pubkey_tags "recipient" (pq_recipients meta) tags in
  let? tags := push tags ["subject"; pq_subject meta] in
  let? tags := push_each tags (pq_labels meta) (λ label, ["t"; label]) in
  let? tags := push tags ["c"; pq_commit meta] in
  let? tags := match pq_channel_id meta with
               | Some ch =>
                   let? ch := map_err (λ e, InvalidInput ("channel_id must be a valid UUID: " +:+ e)) (uuid_parse_str ch) in
                   push tags (channel_tag ch)
               | None => Ok tags
               end in
  let? tags := push tags ("clone" :: pq_clone_urls meta) in
  let? tags := push_opt tags (pq_branch_name meta) (λ b, ["branch-name"; b]) in
  let? tags := push_commit tags (pq_merge_base meta) "merge_base" (λ c, ["merge-base"; c]) in
  let? tags := push_event_id tags (pq_revision_of meta) "revision_of" (λ i, ["e"; i]) in
  Ok (builder KIND_GIT_PULL_REQUEST content tags).

Record GitPrUpdateMeta : Type := mkPrUpdateMeta {
  pu_euc : option string;
  pu_recipients : list string;
  pu_pr_event : string;
  pu_pr_author : string;
  pu_commit : string;
  pu_clone_urls : list string;
  pu_merge_base : option string
}.

Definition build_git_pr_update (repo : GitRepoCoord) (content : string) (meta : GitPrUpdateMeta) : result EventBuilder SdkError :=
  let? _ := check_content content 65536 in
  let? pr_event := check_hex_exact (pu_pr_event meta) 64 "pr_event" in
  let? pr_author := check_pubkey_hex (pu_pr_author meta) "pr_author" in
  let? _ := check_commit_hex (pu_commit meta) "commit" in
  let? _ := check (negb (bool_decide (pu_clone_urls meta = [])))
    (InvalidInput "a pull request update needs at least one --clone url where the tip commit can be fetched") in
  let? a_value := to_a_tag_value repo in
  let? owner := check_pubkey_hex (coord_owner repo) "repo owner" in
  let? tags := push [] ["a"; a_value] in
  let? tags := push_commit tags (pu_euc meta) "euc" (λ c, ["r"; c]) in
  let? tags := push tags ["p"; owner] in
  let? tags := pubkey_tags "recipient" (pu_recipients meta) tags in
  let? tags := push tags ["E"; pr_event] in
  let? tags := push tags ["P"; pr_author] in
  let? tags := push tags ["c"; pu_commit meta] in
  let? tags := push tags ("clone" :: pu_clone_urls meta) in
  let? tags := push_commit tags (pu_merge_base meta) "merge_base" (λ c, ["merge-base"; c]) in
  Ok (builder KIND_GIT_PR_UPDATE content tags).

(** ** Projects *)

Definition PROJECT_D_MAX_LEN : N := 1024.
Definition PROJECT_NAME_MAX : N := 256.
Definition PROJECT_DESCRIPTION_MAX : N := 2048.
Definition PROJECT_CHANNEL_MAX : N := 256.
Definition PROJECT_VISIBILITY_MAX : N := 256.

Record ProjectMemberCoord : Type := mkMemberCoord { member_coord : string; member_hint : option string }.

(** [splitn(3, ':')], each missing part empty. *)
Definition split3 (s : string) : string * string * string :=
  match split_once ":" s with
  | None => (s, "", "")
  | Some (a, rest) =>
      match split_once ":" rest with
      | None => (a, rest, "")
      | Some (b, c) => (a, b, c)
      end
  end.

(** [ProjectMemberCoord::parse_full]. *)
Definition parse_full (coord : string) : result ProjectMemberCoord SdkError :=
  let '(kind_part, owner_part, rest) := split3 coord in
  let? _ := check (String.eqb kind_part "30617")
    (InvalidInput ("member coordinate must start with '30617:' (got kind " +:+ debug_str kind_part +:+ ")")) in
  let? _ := check (is_hex_of_len 64 owner_part)
    (InvalidInput ("member owner must be a 64-character hex pubkey (got " +:+ debug_str owner_part +:+ ")")) in
  let? _ := check (string_forall (λ c, negb (is_ascii_upper c)) owner_part)
    (InvalidInput "member owner hex must be lowercase") in
  let? _ := check (negb (String.eqb rest "")) (InvalidInput "member coordinate repo-d must not be empty") in
  Ok (mkMemberCoord ("30617:" +:+ owner_part +:+ ":" +:+ rest) None).

Definition to_tag_parts (m : ProjectMemberCoord) : list string :=
  "a" :: member_coord m :: match member_hint m with Some h => [h] | None => [] end.

Definition sdk_error_to_string (e : SdkError) : string :=
  match e with
  | ContentTooLarge max got => "content exceeds maximum size of " +:+ pretty max +:+ " bytes (got " +:+ pretty got +:+ ")"
  | InvalidTag t => "invalid tag: " +:+ t
  | EmojiTooLong => "emoji exceeds maximum length of 64 characters"
  | TooManyMentions => "too many mentions (max 50)"
  | InvalidDiffMeta t => "invalid diff metadata: " +:+ t
  | InvalidInput t => "invalid input: " +:+ t
  end.

Definition tag_value (t : Tag) : string := default "" (t !! 1).

Definition check_arity (t : Tag) : result unit SdkError :=
  check ((1 <=? length t - 1) && (length t - 1 <=? 2))
    (InvalidInput ("member 'a' tag must have 1 or 2 value elements (got " +:+ fmt_nat (length t - 1)
                   +:+ ") (rule: member-tag-arity)")).

Fixpoint check_members (seen : list string) (a_tags : list Tag) : result unit SdkError :=
  match a_tags with
  | [] => Ok tt
  | a :: rest =>
      let coord_val := tag_value a in
      let? _ := map_err (λ e, InvalidInput (sdk_error_to_string e +:+ " (rule: member-coordinate-malformed)"))
        (parse_full coord_val) in
      let? _ := check (bool_decide (coord_val ∉ seen))
        (InvalidInput ("duplicate member coordinate " +:+ debug_str coord_val +:+ " (rule: member-duplicate)")) in
      check_members (coord_val :: seen) rest
  end.

Definition SINGLETON_FIELDS : list (string * N) :=
  [("name", PROJECT_NAME_MAX); ("description", PROJECT_DESCRIPTION_MAX); ("buzz-channel", PROJECT_CHANNEL_MAX);
   ("buzz-visibility", PROJECT_VISIBILITY_MAX)].

Definition check_field (tags : list Tag) (f : string * N) : result unit SdkError :=
  let matches := List.filter (named f.1) tags in
  let? _ := check (length matches <=? 1)
    (InvalidInput ("project must have at most one '" +:+ f.1 +:+ "' tag (rule: metadata-cardinality)")) in
  check_opt (head matches) (λ t, check (len (tag_value t) <=? f.2)%N
    (InvalidInput ("'" +:+ f.1 +:+ "' tag exceeds " +:+ pretty f.2 +:+ " bytes (rule: metadata-length)"))).

(** [validate_project_envelope] of the SDK; [IngestEnvelopes] has the relay's. *)
Definition sdk_validate_project_envelope (tags : list Tag) : result unit SdkError :=
  match List.filter (named "d") tags with
  | [d] =>
      let d_val := tag_value d in
      let? _ := check (negb (String.eqb d_val "")) (InvalidInput "project 'd' tag must not be empty (rule: d-empty)") in
      let? _ := check (len d_val <=? PROJECT_D_MAX_LEN)%N
        (InvalidInput ("project 'd' tag exceeds " +:+ pretty PROJECT_D_MAX_LEN +:+ " bytes (rule: d-empty)")) in
      let a_tags := List.filter (named "a") tags in
      let? _ := check (length a_tags <=? PROJECT_MEMBER_CAP)
        (InvalidInput ("project exceeds member cap of " +:+ fmt_nat PROJECT_MEMBER_CAP +:+ got (length a_tags)
                       +:+ " (rule: member-cap)")) in
      let? _ := check_each a_tags check_arity in
      let? _ := check_members [] a_tags in
      check_each SINGLETON_FIELDS (check_field tags)
  | _ => Err (InvalidInput "project must have exactly one 'd' tag (rule: d-cardinality)")
  end.

Definition build_project_with_tags (content : string) (tags : list Tag) : result EventBuilder SdkError :=
  let? _ := sdk_validate_project_envelope tags in
  Ok (builder KIND_PROJECT content tags).

Definition build_project (slug : string) (name description : option string) (members : list ProjectMemberCoord)
    (channel visibility : option string) : result EventBuilder SdkError :=
  let? _ := check (negb (String.eqb slug "")) (InvalidInput "project slug must not be empty") in
  let? _ := check (len slug <=? PROJECT_D_MAX_LEN)%N
    (InvalidInput ("project slug must not exceed " +:+ pretty PROJECT_D_MAX_LEN +:+ " bytes" +:+ got (String.length slug))) in
  let? _ := check_opt channel (λ ch, map_err
    (λ _, InvalidInput ("buzz-channel must be a valid UUID (got " +:+ debug_str ch +:+ ")"))
    (let? _ := uuid_parse_str ch in Ok tt)) in
  let? _ := check_opt visibility (λ vis, check (String.eqb vis "listed" || String.eqb vis "unlisted")
    (InvalidInput ("buzz-visibility must be 'listed' or 'unlisted' (got " +:+ debug_str vis +:+ ")"))) in
  let? tags := push [] ["d"; slug] in
  let? tags := push_opt tags name (λ n, ["name"; n]) in
  let? tags := push_opt tags description (λ d, ["description"; d]) in
  let? tags := push_each tags members to_tag_parts in
  let? tags := push_opt tags channel (λ ch, ["buzz-channel"; ch]) in
  let? tags := push_opt tags visibility (λ vis, ["buzz-visibility"; vis]) in
  build_project_with_tags "" tags.

End git.
