(* ===== verification/SdkProps.v ===== *)
(** * SdkProps: the builders and the checks of the relay

Lemmas on the builders of [Sdk] and [SdkGit] against the relay that reads what
they build: channel names and emoji in normal form, what the helpers do to the
tags, signing, and the project envelope of [IngestEnvelopes], where both sides
agree ([project_envelopes_agree]).  [well_formed] is what the gates of [Ingest]
ask of the form of an event; [SdkForms] shows it of every builder. *)
From stdpp Require Import pretty.
From S2P Require Import Conformance Prelude Text Encode Nostr Kind Scope Roles Json IngestRules IngestEnvelopes EventStore EventStoreProps IngestRun IngestThread Ingest Sdk SdkGit.

(** ** Channel names *)

Lemma whitespace_len_app a b n : whitespace_len a = Some n → whitespace_len (a +:+ b) = Some n.
Proof.
  unfold whitespace_len. destruct a as [|x [|y [|z a]]]; rewrite ?string_app_cons;
    cbn [map String.list_ascii_of_string]; intros H; repeat (case_match; simplify_eq); done.
Qed.

Lemma whitespace_len_bound s n : whitespace_len s = Some n → 0 < n <= String.length s.
Proof.
  unfold whitespace_len. destruct s as [|x [|y [|z s]]]; cbn [map String.list_ascii_of_string String.length]; [done|..];
    repeat case_match; intros; simplify_eq; lia.
Qed.

Lemma str_drop_app_le n a b : n <= String.length a → str_drop n (a +:+ b) = str_drop n a +:+ b.
Proof. revert a. induction n as [|n IH]; intros a Hn; [by rewrite !str_drop_0|]. destruct a; simpl in *; [lia|]. apply IH. lia. Qed.

(** Whitespace only. *)
Inductive blank : string → Prop :=
| blank_nil : blank ""
| blank_step s n : whitespace_len s = Some n → blank (str_drop n s) → blank s.

Lemma blank_loop_blank fuel s : blank_loop fuel s = true → blank s.
Proof.
  revert s. induction fuel as [|fuel IH]; intros s; destruct s as [|c s]; try done; [constructor|constructor|].
  cbn [blank_loop]. destruct (whitespace_len _) as [n|] eqn:Hn; [|done]. intros H. eapply blank_step; eauto.
Qed.

Lemma blank_blank_loop s : blank s → ∀ fuel, String.length s <= fuel → blank_loop fuel s = true.
Proof.
  induction 1 as [|s n Hn _ IH]; intros fuel Hf; [by destruct fuel|].
  pose proof (whitespace_len_bound _ _ Hn). destruct s as [|c s]; [done|]. destruct fuel as [|fuel]; [simpl in Hf; lia|].
  cbn [blank_loop]. rewrite Hn. apply IH. rewrite length_str_drop. simpl in *. lia.
Qed.

Lemma is_blank_iff s : is_blank s = true ↔ blank s.
Proof. split; [apply blank_loop_blank|]. intros H. by apply blank_blank_loop. Qed.

Lemma blank_app a b : blank a → blank b → blank (a +:+ b).
Proof.
  induction 1 as [|s n Hn _ IH]; intros Hb; [done|]. apply (blank_step _ n); [by apply whitespace_len_app|].
  rewrite str_drop_app_le by (apply whitespace_len_bound in Hn; lia). auto.
Qed.

Lemma trim_end_split s : ∃ b, s = trim_end s +:+ b ∧ blank b.
Proof.
  induction s as [|c s (b & IH & Hb)]; cbn [trim_end]; [exists ""; split; [done|constructor]|].
  destruct (is_blank (String c s)) eqn:E; [exists (String c s); split; [done|by apply is_blank_iff]|].
  exists b. split; [by rewrite string_app_cons, <-IH|done].
Qed.

Lemma trim_end_idem s : trim_end (trim_end s) = trim_end s.
Proof.
  induction s as [|c s IH]; cbn [trim_end]; [done|]. destruct (is_blank (String c s)) eqn:E; [done|].
  cbn [trim_end]. destruct (is_blank (String c (trim_end s))) eqn:E'; [|by rewrite IH].
  apply is_blank_iff in E'. destruct (trim_end_split s) as (b & Hs & Hb). exfalso.
  assert (is_blank (String c s) = true) as Hc; [|congruence]. apply is_blank_iff. rewrite Hs, <-string_app_cons.
  by apply blank_app.
Qed.

(** Neither white space nor a hash in front. *)
Definition stripped (s : string) : Prop := whitespace_len s = None ∧ (∀ s', s ≠ String "#" s').

Lemma trim_start_hash_stripped fuel s : String.length s <= fuel → stripped (trim_start_hash_loop fuel s).
Proof.
  revert s. induction fuel as [|fuel IH]; intros s Hf; [by destruct s; [split|simpl in Hf; lia]|].
  assert (∀ x, (∃ s', x = String "#" s') ∨ (∀ s', x ≠ String "#" s')) as Hdec.
  { intros [|c x]; [by right|]. destruct (decide (c = "#"%char)) as [->|Hc]; [left; eauto|right; congruence]. }
  destruct (Hdec s) as [(s' & ->)|Hh].
  { cbn [trim_start_hash_loop]. apply IH. simpl in Hf. lia. }
  assert (trim_start_hash_loop (S fuel) s =
          match whitespace_len s with Some n => trim_start_hash_loop fuel (str_drop n s) | None => s end) as ->.
  { cbn [trim_start_hash_loop]. destruct s as [|c s]; [done|].
    destruct c as [[] [] [] [] [] [] [] []]; try done. by destruct (Hh s). }
  destruct (whitespace_len s) as [n|] eqn:Hn; [|done].
  apply IH. rewrite length_str_drop. apply whitespace_len_bound in Hn. lia.
Qed.

Lemma trim_start_hash_id fuel s : stripped s → trim_start_hash_loop fuel s = s.
Proof.
  intros [Hw Hh]. destruct fuel as [|fuel]; [done|]. cbn [trim_start_hash_loop]. rewrite Hw.
  destruct s as [|c s]; [done|]. destruct c as [[] [] [] [] [] [] [] []]; try done. by destruct (Hh s).
Qed.

Lemma canonical_channel_name_idem s : canonical_channel_name (canonical_channel_name s) = canonical_channel_name s.
Proof.
  unfold canonical_channel_name. set (r := trim_start_hash_loop _ s).
  assert (stripped r) as [Hw Hh] by by apply trim_start_hash_stripped.
  destruct (trim_end_split r) as (b & Hr & _). rewrite trim_start_hash_id; [apply trim_end_idem|]. split.
  - destruct (whitespace_len (trim_end r)) as [n|] eqn:E; [|done]. apply (whitespace_len_app _ b) in E.
    rewrite <-Hr in E. congruence.
  - intros s' E. rewrite E in Hr. apply (Hh (s' +:+ b)). by rewrite Hr, string_app_cons.
Qed.

(** ** Emoji *)

Lemma shortcode_not_blank c s : is_shortcode_char c = true → whitespace_len (String c s) = None.
Proof. intros H. destruct s as [|b [|d s]], c as [[] [] [] [] [] [] [] []]; done. Qed.

Lemma shortcode_trim s : string_forall is_shortcode_char s = true → trim s = s.
Proof.
  intros H. assert (trim_end s = s) as He.
  { induction s as [|c s IH]; [done|]. cbn [string_forall] in H. apply andb_prop in H as [Hc Hs]. cbn [trim_end].
    unfold is_blank. cbn [String.length blank_loop]. rewrite shortcode_not_blank by done. by rewrite IH. }
  unfold trim. assert (trim_start s = s) as ->; [|done]. destruct s as [|c s]; [done|].
  cbn [string_forall] in H. apply andb_prop in H as [Hc _]. unfold trim_start. cbn [String.length trim_start_loop].
  by rewrite shortcode_not_blank.
Qed.

Lemma shortcode_trim_start_char s : string_forall is_shortcode_char s = true → trim_start_char ":" s = s.
Proof.
  destruct s as [|c s]; [done|]. cbn [string_forall]. intros [Hc _]%andb_prop. cbn [trim_start_char].
  by destruct c as [[] [] [] [] [] [] [] []].
Qed.

Lemma shortcode_trim_end_char s : string_forall is_shortcode_char s = true → trim_end_char ":" s = s.
Proof.
  induction s as [|c s IH]; [done|]. cbn [string_forall]. intros [Hc Hs]%andb_prop. cbn [trim_end_char string_forall].
  rewrite IH by done. by destruct c as [[] [] [] [] [] [] [] []].
Qed.

Lemma shortcode_char_lower c : is_shortcode_char c = true → is_shortcode_char (ascii_to_lower c) = true.
Proof. by destruct c as [[] [] [] [] [] [] [] []]. Qed.

Lemma shortcode_lower s : string_forall is_shortcode_char s = true → string_forall is_shortcode_char (to_ascii_lowercase s) = true.
Proof.
  induction s as [|c s IH]; [done|]. cbn [to_ascii_lowercase string_forall]. intros [Hc Hs]%andb_prop.
  by rewrite shortcode_char_lower, IH.
Qed.

(** A normal form: lower case, and what [normalize] leaves alone. *)
Lemma normalize_Ok s code : normalize_custom_emoji_shortcode s = Ok code →
  string_forall is_shortcode_char code = true ∧ String.length code <= MAX_CUSTOM_EMOJI_SHORTCODE_LEN
  ∧ normalize_custom_emoji_shortcode code = Ok code.
Proof.
  unfold normalize_custom_emoji_shortcode at 1. set (x := trim_end_char _ _).
  destruct (String.eqb x "") eqn:E1; [done|]. destruct (Nat.ltb_spec MAX_CUSTOM_EMOJI_SHORTCODE_LEN (String.length x)); [done|].
  destruct (string_forall is_shortcode_char x) eqn:E3; [|done]. intros [= <-].
  pose proof (shortcode_lower _ E3) as Hs. rewrite length_to_ascii_lowercase. split_and!; [done|lia|].
  unfold normalize_custom_emoji_shortcode. rewrite shortcode_trim, shortcode_trim_start_char, shortcode_trim_end_char by done.
  rewrite length_to_ascii_lowercase, Hs, to_ascii_lowercase_idem.
  destruct (Nat.ltb_spec MAX_CUSTOM_EMOJI_SHORTCODE_LEN (String.length x)); [lia|].
  by destruct x.
Qed.

Lemma normalize_shortcode_Ok s code : normalize_shortcode s = Ok code → normalize_custom_emoji_shortcode s = Ok code.
Proof. unfold normalize_shortcode. destruct (normalize_custom_emoji_shortcode s); simpl; congruence. Qed.

Lemma shortcode_char_count s : string_forall is_shortcode_char s = true → char_count s = String.length s.
Proof.
  induction s as [|c s IH]; [done|]. cbn [string_forall char_count String.length]. intros [Hc Hs]%andb_prop.
  rewrite IH by done. by destruct c as [[] [] [] [] [] [] [] []].
Qed.

(** ** Projects *)

Section projects.
Context {TT : TraceText}.

Lemma check_Ok b e : check b e = Ok tt ↔ b = true.
Proof. by destruct b. Qed.

Lemma bind_check {B : Type} b e (k : unit → result B SdkError) r : result_bind (check b e) k = Ok r ↔ b = true ∧ k tt = Ok r.
Proof. destruct b; simpl; naive_solver. Qed.

Lemma check_each_Ok {A : Type} (l : list A) f : check_each l f = Ok tt ↔ ∀ a, a ∈ l → f a = Ok tt.
Proof.
  induction l as [|a l IH]; [split; [intros _ a Ha; by apply elem_of_nil in Ha|done]|].
  cbn [check_each]. rewrite result_bind_Ok, forall_elem_of_cons. split.
  - intros ([] & Ha & Hl). by rewrite <-IH.
  - intros [Ha Hl]. exists tt. by rewrite IH.
Qed.

Lemma split3_splitn3 s : split3 s = match splitn3 s with Some p => p | None =>
  match split_once ":" s with Some (a, rest) => (a, rest, "") | None => (s, "", "") end end.
Proof. unfold split3, splitn3. by destruct (split_once ":" s) as [[a rest]|]; [destruct (split_once ":" rest) as [[]|]|]. Qed.

Lemma string_forall_and p q s : string_forall (λ c, p c && q c) s = string_forall p s && string_forall q s.
Proof. induction s as [|c s IH]; [done|]. simpl. rewrite IH. by destruct (p c), (q c), (string_forall p s). Qed.

(** The two parsers of a member's coordinate. *)
Lemma parse_full_agrees s : is_ok (parse_full s) = is_ok (parse_project_member_coordinate s).
Proof.
  unfold parse_full, parse_project_member_coordinate. rewrite split3_splitn3.
  destruct (splitn3 s) as [[[k o] d]|] eqn:E.
  - unfold PROJECT_MEMBER_KIND_SEGMENT, is_lower_hex64, is_hex_of_len. replace (string_forall is_lower_hexdigit o)
      with (string_forall is_ascii_hexdigit o && string_forall (λ c, negb (is_ascii_upper c)) o)
      by (rewrite <-string_forall_and; done).
    destruct (String.eqb k "30617"), (String.length o =? 64), (string_forall is_ascii_hexdigit o),
      (string_forall (λ c, negb (is_ascii_upper c)) o), (String.eqb d ""); done.
  - unfold splitn3 in E. destruct (split_once ":" s) as [[a rest]|]; simpl.
    + destruct (String.eqb a "30617"); [|done]. destruct (is_hex_of_len 64 rest); [|done].
      by destruct (string_forall (λ c, negb (is_ascii_upper c)) rest).
    + by destruct (String.eqb s "30617").
Qed.

Lemma is_ok_bind {A B E : Type} (r : result A E) (k : A → result B E) :
  is_ok (result_bind r k) = match r with Ok a => is_ok (k a) | Err _ => false end.
Proof. by destruct r. Qed.
Lemma is_ok_map_err {A E F : Type} (f : E → F) (r : result A E) : is_ok (map_err f r) = is_ok r.
Proof. by destruct r. Qed.
Lemma is_ok_check b e : is_ok (check b e) = b.
Proof. by destruct b. Qed.

Lemma is_ok_seq {A B E : Type} (r : result A E) (m : result B E) : is_ok (result_bind r (λ _, m)) = is_ok r && is_ok m.
Proof. by destruct r. Qed.

Lemma is_ok_each {A : Type} (l : list A) f : is_ok (check_each l f) = forallb (λ a, is_ok (f a)) l.
Proof. induction l as [|a l IH]; [done|]. cbn [check_each forallb]. by rewrite is_ok_seq, IH. Qed.

Lemma members_agree seen ts : is_ok (check_members seen ts) = is_ok (member_loop seen (map (λ t, tag_value t) ts)).
Proof.
  revert seen. induction ts as [|t ts IH]; intros seen; [done|]. cbn [check_members map member_loop].
  rewrite !is_ok_seq, is_ok_map_err, parse_full_agrees, is_ok_check, IH. f_equal.
  unfold tag_value. destruct (decide (default "" (t !! 1) ∈ seen)) as [H|H].
  - by rewrite (bool_decide_eq_true_2 _ H), bool_decide_eq_false_2 by tauto.
  - by rewrite (bool_decide_eq_false_2 _ H), bool_decide_eq_true_2.
Qed.

Lemma find_None_forallb {A : Type} (p : A → bool) l : is_none (List.find p l) = forallb (λ x, negb (p x)) l.
Proof. induction l as [|x l IH]; [done|]. simpl. by destruct (p x). Qed.

Lemma arity_agrees ts :
  forallb (λ t, is_ok (check_arity t)) (List.filter (named "a") ts) = is_none (List.find wrong_arity ts).
Proof.
  rewrite find_None_forallb. induction ts as [|t ts IH]; [done|]. cbn [List.filter forallb].
  unfold wrong_arity at 1. destruct (named "a" t) eqn:Hn; [|done]. cbn [forallb]. rewrite IH. f_equal.
  unfold check_arity. rewrite is_ok_check. simpl. rewrite negb_involutive.
  unfold named in Hn. apply bool_decide_eq_true in Hn. destruct t as [|p0 [|p1 [|p2 [|p3 t]]]]; done.
Qed.

Lemma last_of_one {A : Type} (l : list A) : length l <= 1 → last l = head l.
Proof. by destruct l as [|x [|y l]]; simpl; intros; [| |lia]. Qed.

(** One metadata field, in the relay's two passes. *)
Definition relay_field (ts : list Tag) (f : string * nat) : bool :=
  (length (loose_values f.1 ts) <=? 1) && match last (loose_values f.1 ts) with
                                          | Some v => String.length v <=? f.2
                                          | None => true
                                          end.

Lemma leb_negb_ltb m n : (m <=? n) = negb (n <? m).
Proof. destruct (Nat.leb_spec m n), (Nat.ltb_spec n m); simpl; lia || done. Qed.

Lemma relay_fields keys ts :
  is_ok (let? _ := metadata_counts keys ts in metadata_lengths keys ts) = forallb (relay_field ts) keys.
Proof.
  rewrite is_ok_seq. assert (is_ok (metadata_counts keys ts) = forallb (λ f, length (loose_values f.1 ts) <=? 1) keys) as ->.
  { induction keys as [|[k m] keys IH]; [done|]. cbn [metadata_counts forallb fst]. rewrite leb_negb_ltb.
    by destruct (1 <? length (loose_values k ts)). }
  assert (is_ok (metadata_lengths keys ts) = forallb (λ f : string * nat, match last (loose_values f.1 ts) with
      Some v => String.length v <=? f.2 | None => true end) keys) as ->.
  { induction keys as [|[k m] keys IH]; [done|]. cbn [metadata_lengths forallb fst snd].
    destruct (last (loose_values k ts)) as [v|]; [|done]. rewrite leb_negb_ltb. by destruct (m <? String.length v). }
  induction keys as [|f keys IH]; [done|]. cbn [forallb]. rewrite <-IH. unfold relay_field.
  destruct (length (loose_values f.1 ts) <=? 1), (match last (loose_values f.1 ts) with Some v => _ | None => _ end);
    simpl; by rewrite ?andb_false_r.
Qed.

Lemma leb_of_nat m n : (N.of_nat m <=? N.of_nat n)%N = (m <=? n).
Proof. destruct (N.leb_spec (N.of_nat m) (N.of_nat n)), (Nat.leb_spec m n); done || lia. Qed.

Lemma field_agrees ts key max : is_ok (check_field ts (key, N.of_nat max)) = relay_field ts (key, max).
Proof.
  unfold check_field, relay_field, loose_values. cbn [fst snd]. rewrite is_ok_seq, is_ok_check, length_map.
  destruct (Nat.leb_spec (length (List.filter (named key) ts)) 1) as [Hl|]; [|done]. simpl.
  destruct (List.filter (named key) ts) as [|t [|t' l]]; simpl in *; [done| |lia].
  unfold check_opt, len, tag_value. cbn [head]. by rewrite is_ok_check, leb_of_nat.
Qed.

Lemma fields_agree ts :
  forallb (λ f, is_ok (check_field ts f)) SINGLETON_FIELDS
  = is_ok (metadata_counts PROJECT_SINGLETON_METADATA_TAGS ts)
    && is_ok (metadata_lengths PROJECT_SINGLETON_METADATA_TAGS ts).
Proof.
  rewrite <-is_ok_seq, relay_fields. unfold SINGLETON_FIELDS, PROJECT_SINGLETON_METADATA_TAGS. cbn [forallb].
  by rewrite <-!field_agrees.
Qed.

Lemma envelopes_agree (e : Event) :
  is_ok (sdk_validate_project_envelope (tags e))
  = is_ok (IngestEnvelopes.validate_project_envelope e)
    && forallb (λ d, String.length d <=? D_TAG_MAX_LEN) (loose_values "d" (tags e)).
Proof.
  unfold sdk_validate_project_envelope, IngestEnvelopes.validate_project_envelope.
  assert (loose_values "d" (tags e) = map (λ t, tag_value t) (List.filter (named "d") (tags e))) as -> by done.
  destruct (List.filter (named "d") (tags e)) as [|d [|d' ds]]; [done| |done]. cbn [map forallb].
  rewrite !is_ok_seq, !is_ok_check, is_ok_each, members_agree, arity_agrees, is_ok_each.
  assert (loose_values "a" (tags e) = map (λ t, tag_value t) (List.filter (named "a") (tags e))) as -> by done.
  rewrite fields_agree, length_map, leb_negb_ltb.
  assert ((len (tag_value d) <=? PROJECT_D_MAX_LEN)%N = (String.length (tag_value d) <=? D_TAG_MAX_LEN)) as ->.
  { apply (leb_of_nat _ D_TAG_MAX_LEN). }
  destruct (String.eqb (tag_value d) ""); [done|].
  destruct (PROJECT_MEMBER_CAP <? length (List.filter (named "a") (tags e))); [by cbn; rewrite ?andb_false_r|].
  destruct (List.find wrong_arity (tags e)); [by cbn; rewrite ?andb_false_r|].
  rewrite !is_ok_seq. cbn [negb is_none andb]. rewrite andb_true_r. apply andb_comm.
Qed.

(** C32. The SDK and the relay agree on which project envelopes are well formed:
the SDK accepts a list of tags exactly when the relay accepts every event with
these tags and the identifier is at most 1024 bytes, which the relay demands of
every addressable event when it stores it. *)
Theorem project_envelopes_agree (e : Event) :
  is_ok (sdk_validate_project_envelope (tags e))
  = is_ok (IngestEnvelopes.validate_project_envelope e)
    && forallb (λ d, String.length d <=? D_TAG_MAX_LEN) (loose_values "d" (tags e)).
Proof. apply envelopes_agree. Qed.

End projects.

(** ** What the helpers do to the tags *)

Section helpers.
Context {UT : UuidText} {TT : TraceText} {SC : SdkCrates} {NT : NostrTags} {RC : RelayCrates}
  {HO : HashOrder} {UC : UrlCrate}.

(** What the builders rely on: a tag is read as it was written, its kind and
its content are its first two parts, and the printers of the crates print what
their parsers read. *)
Record SdkLaws : Prop := {
  sl_parse parts t : tag_parse parts = Ok t → t = parts;
  sl_kind t : tag_kind t = default "" (head t);
  sl_content t : tag_content t = t !! 1;
  sl_uuid u : parse_uuid (uuid_to_string u) = Some u;
  sl_json o : is_Some (sjson_from_str (json_object o))
}.

Context (L : SdkLaws).

Lemma push_Ok ts parts ts' : push ts parts = Ok ts' → ts' = ts ++ [parts].
Proof.
  unfold push, tag. intros (t & Ht & [= <-])%result_bind_Ok. destruct (tag_parse parts) as [t'|] eqn:E; [|done].
  simplify_eq/=. by rewrite (sl_parse L _ _ E).
Qed.

Lemma push_each_Ok {A : Type} (l : list A) parts ts ts' : push_each ts l parts = Ok ts' → ts' = ts ++ map parts l.
Proof.
  revert ts. induction l as [|a l IH]; intros ts; cbn [push_each map]; [intros [= <-]; by rewrite app_nil_r|].
  intros (ts1 & ->%push_Ok & ->%IH)%result_bind_Ok. by rewrite <-app_assoc.
Qed.

Lemma push_opt_Ok {A : Type} (o : option A) parts ts ts' :
  push_opt ts o parts = Ok ts' → ts' = ts ++ match o with Some a => [parts a] | None => [] end.
Proof. destruct o; [apply push_Ok|intros [= <-]; by rewrite app_nil_r]. Qed.

Lemma push_prefix ts parts ts' : push ts parts = Ok ts' → ts `prefix_of` ts'.
Proof. intros ->%push_Ok. by apply prefix_app_r. Qed.
Lemma push_each_prefix {A : Type} (l : list A) parts ts ts' : push_each ts l parts = Ok ts' → ts `prefix_of` ts'.
Proof. intros ->%push_each_Ok. by apply prefix_app_r. Qed.
Lemma push_opt_prefix {A : Type} (o : option A) parts ts ts' : push_opt ts o parts = Ok ts' → ts `prefix_of` ts'.
Proof. intros ->%push_opt_Ok. by apply prefix_app_r. Qed.

Lemma mention_loop_tags seen ms ts ts' : mention_loop seen ms ts = Ok ts' →
  ∃ l, ts' = ts ++ l ∧ Forall (λ t : Tag, head t = Some "p") l.
Proof.
  revert seen ts. induction ms as [|m ms IH]; intros seen ts; cbn [mention_loop].
  - intros [= <-]. exists []. by rewrite app_nil_r.
  - case_bool_decide; [apply IH|]. intros (ts1 & ->%push_Ok & (l & -> & Hl)%IH)%result_bind_Ok.
    eexists (_ :: l). rewrite <-app_assoc. by split; [|constructor].
Qed.

Lemma mention_tags_Ok ms ts ts' : mention_tags ms ts = Ok ts' →
  ∃ l, ts' = ts ++ l ∧ Forall (λ t : Tag, head t = Some "p") l.
Proof. unfold mention_tags. intros (? & _ & H)%result_bind_Ok. by apply mention_loop_tags in H. Qed.

Lemma mention_tags_prefix ms ts ts' : mention_tags ms ts = Ok ts' → ts `prefix_of` ts'.
Proof. intros (l & -> & _)%mention_tags_Ok. by apply prefix_app_r. Qed.

Lemma thread_tags_Ok tr ts ts' : thread_tags tr ts = Ok ts' →
  ts' = ts ++ (if String.eqb (tr_root_event_id tr) (tr_parent_event_id tr) then [["e"; tr_root_event_id tr; ""; "reply"]]
               else [["e"; tr_root_event_id tr; ""; "root"]; ["e"; tr_parent_event_id tr; ""; "reply"]]).
Proof.
  unfold thread_tags. destruct (String.eqb _ _); [apply push_Ok|]. intros (ts1 & ->%push_Ok & ->%push_Ok)%result_bind_Ok.
  by rewrite <-app_assoc.
Qed.

Lemma thread_tags_prefix tr ts ts' : thread_tags tr ts = Ok ts' → ts `prefix_of` ts'.
Proof. intros ->%thread_tags_Ok. by apply prefix_app_r. Qed.
Lemma thread_tags_opt_prefix o ts ts' : thread_tags_opt o ts = Ok ts' → ts `prefix_of` ts'.
Proof. destruct o; [apply thread_tags_prefix|by intros [= <-]]. Qed.
Lemma imeta_tags_prefix l ts ts' : imeta_tags l ts = Ok ts' → ts `prefix_of` ts'.
Proof. apply push_each_prefix. Qed.
Lemma nip30_emoji_tags_prefix l ts ts' : nip30_emoji_tags l ts = Ok ts' → ts `prefix_of` ts'.
Proof. apply push_each_prefix. Qed.

Lemma find_content_app {A : Type} key (f : string → option A) a b :
  find_content key f (a ++ b) = match find_content key f a with Some x => Some x | None => find_content key f b end.
Proof.
  induction a as [|t a IH]; [done|]. cbn [app find_content]. destruct (decide _); [|done].
  destruct (tag_content t) as [v|]; [|done]. by destruct (f v).
Qed.

Lemma find_content_cons {A : Type} key (f : string → option A) k v r ts :
  find_content key f ((k :: v :: r) :: ts)
  = if decide (k = key) then match f v with Some a => Some a | None => find_content key f ts end else find_content key f ts.
Proof. cbn [find_content]. by rewrite (sl_kind L), (sl_content L). Qed.

Lemma find_content_prefix {A : Type} key (f : string → option A) a b x :
  a `prefix_of` b → find_content key f a = Some x → find_content key f b = Some x.
Proof. intros [l ->] H. by rewrite find_content_app, H. Qed.

Definition names (ch : Uuid) (ts : list Tag) : Prop := find_content "h" parse_uuid ts = Some ch.

Lemma names_h ch ts : names ch ts ∨ find_content "h" parse_uuid ts = None → names ch (ts ++ [channel_tag ch]).
Proof.
  unfold names, channel_tag. rewrite find_content_app. intros [-> | ->]; [done|].
  by rewrite find_content_cons, decide_True, (sl_uuid L) by done.
Qed.
Lemma names_push_h ch ts : push [] (channel_tag ch) = Ok ts → names ch ts.
Proof. intros ->%push_Ok. apply names_h. by right. Qed.
Lemma names_prefix ch a b : a `prefix_of` b → names ch a → names ch b.
Proof. apply find_content_prefix. Qed.

(** ** Signing *)

(** [nostr] drops the [p] tags that name the signer, unless the builder allows
them. *)
Definition kept (b : EventBuilder) (author : string) (t : Tag) : bool :=
  b_allow_self_tagging b || negb (bool_decide (tag_kind t = "p" ∧ tag_content t = Some author)).

Record signed_from (b : EventBuilder) (e : Event) : Prop := {
  sf_kind : kind e = b_kind b;
  sf_content : content e = b_content b;
  sf_tags : tags e = List.filter (kept b (pubkey e)) (b_tags b);
  sf_time : from_option (λ at_secs, created_at e = at_secs) True (b_created_at b)
}.

(** The second list is the first without some [p] tags. *)
Inductive drops : list Tag → list Tag → Prop :=
| drops_nil : drops [] []
| drops_keep t l l' : drops l l' → drops (t :: l) (t :: l')
| drops_p t l l' : head t = Some "p" → drops l l' → drops (t :: l) l'.

Lemma drops_kept b author l : drops l (List.filter (kept b author) l).
Proof.
  induction l as [|t l IH]; cbn [List.filter]; [constructor|]. destruct (kept b author t) eqn:E; [by constructor|].
  apply drops_p; [|done]. unfold kept in E. apply orb_false_iff in E as [_ E]. rewrite negb_false_iff, bool_decide_eq_true in E.
  destruct E as [E _]. rewrite (sl_kind L) in E. destruct t; [done|]. simpl in *. congruence.
Qed.

Lemma signed_drops b e : signed_from b e → drops (b_tags b) (tags e).
Proof. intros H. rewrite (sf_tags _ _ H). apply drops_kept. Qed.

Lemma drops_app a a' b b' : drops a a' → drops b b' → drops (a ++ b) (a' ++ b').
Proof. induction 1; intros; simpl; [done|by constructor; auto|by apply drops_p; auto]. Qed.

Lemma drops_rev l l' : drops l l' → drops (rev l) (rev l').
Proof.
  induction 1 as [|t l l' _ IH|t l l' Ht _ IH]; simpl; [constructor|by apply drops_app; repeat constructor|].
  rewrite <-(app_nil_r (rev l')). apply drops_app; [done|]. apply drops_p; [done|constructor].
Qed.

Lemma drops_find_content {A : Type} key (f : string → option A) l l' :
  key ≠ "p" → drops l l' → find_content key f l' = find_content key f l.
Proof.
  intros Hk. induction 1 as [|t l l' _ IH|t l l' Ht _ IH]; cbn [find_content]; [done|by rewrite IH|].
  rewrite (sl_kind L), Ht. simpl. by rewrite decide_False.
Qed.

Lemma drops_count key l l' : key ≠ "p" → drops l l' → count_tags key l' = count_tags key l.
Proof.
  unfold count_tags. intros Hk. induction 1 as [|t l l' _ IH|t l l' Ht _ IH]; [done| |].
  - rewrite !filter_cons. case_decide; simpl; auto.
  - rewrite filter_cons, decide_False; [done|]. rewrite (sl_kind L), Ht. simpl. congruence.
Qed.

Lemma drops_named key l l' : key ≠ "p" → drops l l' → List.filter (named key) l' = List.filter (named key) l.
Proof.
  intros Hk. induction 1 as [|t l l' _ IH|t l l' Ht _ IH]; cbn [List.filter]; [done|by rewrite IH|].
  unfold named at 2. rewrite Ht, bool_decide_eq_false_2; [done|congruence].
Qed.

Lemma drops_diff l l' a b : drops l l' → diff_tags l' a b = diff_tags l a b.
Proof.
  intros H. revert a b. induction H as [|t l l' _ IH|t l l' Ht _ IH]; intros a b; cbn [diff_tags]; [done| |].
  - by destruct (diff_tag t a b); simpl.
  - destruct t as [|x [|y t]]; simpl in Ht; simplify_eq; apply IH.
Qed.

Lemma drops_emoji l l' : drops l l' → validate_custom_emoji_loop l' = validate_custom_emoji_loop l.
Proof.
  induction 1 as [|t l l' _ IH|t l l' Ht _ IH]; cbn [validate_custom_emoji_loop]; [done|by rewrite IH|].
  unfold named. by rewrite Ht.
Qed.

Lemma drops_arity l l' : drops l l' → List.find wrong_arity l' = List.find wrong_arity l.
Proof.
  induction 1 as [|t l l' _ IH|t l l' Ht _ IH]; cbn [List.find]; [done|by rewrite IH|].
  unfold wrong_arity at 2, named. by rewrite Ht.
Qed.

Lemma drops_loose key l l' : key ≠ "p" → drops l l' → loose_values key l' = loose_values key l.
Proof. intros Hk H. unfold loose_values. by rewrite (drops_named key _ _ Hk H). Qed.

Lemma drops_metadata keys l l' : Forall (λ f : string * nat, f.1 ≠ "p") keys → drops l l' →
  metadata_counts keys l' = metadata_counts keys l ∧ metadata_lengths keys l' = metadata_lengths keys l.
Proof.
  intros Hk H. induction Hk as [|[k m] keys Hk _ [IH1 IH2]]; [done|]. cbn [metadata_counts metadata_lengths fst] in *.
  by rewrite !(drops_loose k l l') by done; rewrite IH1, IH2.
Qed.

Lemma drops_project e e' : drops (tags e) (tags e') →
  IngestEnvelopes.validate_project_envelope e' = IngestEnvelopes.validate_project_envelope e.
Proof.
  intros H. unfold IngestEnvelopes.validate_project_envelope.
  destruct (drops_metadata PROJECT_SINGLETON_METADATA_TAGS _ _ ltac:(by repeat constructor) H) as [-> ->].
  by rewrite (drops_arity _ _ H), (drops_loose "d" _ _ ltac:(done) H), (drops_loose "a" _ _ ltac:(done) H).
Qed.

(** ** What the relay asks of the form of an event *)

(** The kinds whose content depends on what is stored, or that no builder of
the SDK makes. *)
Definition checked_against_store : list N :=
  [KIND_STREAM_MESSAGE_EDIT; KIND_FORUM_VOTE; KIND_AGENT_ENGRAM; KIND_AGENT_TURN_METRIC; KIND_EVENT_REMINDER;
   KIND_PERSONA; KIND_TEAM_CATALOG].

(** The conditions of the pipeline that need nothing but the event; [ch] is the
channel the builder was given. *)
Record well_formed (e : Event) (ch : option Uuid) : Prop := {
  wf_scope : is_ok (required_scope_for_kind (kind e) e) = true;
  wf_channel c : ch = Some c → extract_channel_id parse_uuid e = Some c;
  wf_claim : requires_h_channel_scope (kind e) = true → is_Some ch;
  wf_content t c row env w : one_of (kind e) checked_against_store = false → is_archived c row = false →
    validate_content t e c row env w = (Ok tt, w);
  wf_target : kind e = KIND_REACTION → is_Some (last_e_target (tags e) ≫= hex_decode);
  wf_reaction : kind e = KIND_REACTION →
    validate_reaction_emoji e (if String.eqb (content e) "" then "+" else content e) = Ok tt;
  wf_emoji : kind e = KIND_EMOJI_SET → validate_custom_emoji_tags e = Ok tt;
  wf_canvas : kind e = KIND_CANVAS → is_ok (parse_canvas_expected_revision e) = true;
  wf_profile : kind e = KIND_PROFILE → is_Some (sjson_from_str (content e));
  wf_group : kind e = KIND_NIP29_CREATE_GROUP → ∃ name v ty, first_content "name" (tags e) = Some name
    ∧ trim (canonical_channel_name name) ≠ ""
    ∧ visibility_from_str (default "open" (first_content "visibility" (tags e))) = Ok v
    ∧ channel_type_from_str (default "stream" (first_content "channel_type" (tags e))) = Ok ty
}.

Lemma content_passes t e c row env w :
  (one_of (kind e) [KIND_NIP29_DELETE_EVENT; KIND_DELETION] = true → count_e_tags e + count_tags "a" (tags e) = 1) →
  (kind e = KIND_STREAM_MESSAGE_DIFF → validate_diff_event e = Ok tt) →
  (kind e = KIND_PROJECT → IngestEnvelopes.validate_project_envelope e = Ok tt) →
  one_of (kind e) checked_against_store = false → is_archived c row = false →
  validate_content t e c row env w = (Ok tt, w).
Proof.
  intros Hdel Hdiff Hproj Hk Har. unfold validate_content. rewrite Har, andb_false_r.
  assert (one_of (kind e) [KIND_NIP29_DELETE_EVENT; KIND_DELETION] && negb (count_e_tags e + count_tags "a" (tags e) =? 1) = false) as ->.
  { destruct (one_of _ _) eqn:E; [|done]. by rewrite (Hdel eq_refl). }
  unfold checked_against_store, one_of in Hk. cbn [existsb] in Hk. rewrite !orb_false_iff in Hk.
  destruct Hk as (-> & -> & -> & -> & -> & -> & -> & _).
  destruct (kind e =? KIND_STREAM_MESSAGE_DIFF)%N eqn:E1; [apply N.eqb_eq in E1; rewrite (Hdiff E1)|];
    (destruct (kind e =? KIND_PROJECT)%N eqn:E2; [apply N.eqb_eq in E2; rewrite (Hproj E2)|]); done.
Qed.

(** A kind without a form of its own. *)
Definition formed_kinds : list N :=
  [KIND_REACTION; KIND_EMOJI_SET; KIND_CANVAS; KIND_PROFILE; KIND_NIP29_CREATE_GROUP; KIND_NIP29_DELETE_EVENT;
   KIND_DELETION; KIND_STREAM_MESSAGE_DIFF; KIND_PROJECT].

Lemma plain_formed e ch : one_of (kind e) formed_kinds = false →
  is_ok (required_scope_for_kind (kind e) e) = true →
  (∀ c, ch = Some c → extract_channel_id parse_uuid e = Some c) →
  (requires_h_channel_scope (kind e) = true → is_Some ch) → well_formed e ch.
Proof.
  intros Hk Hs Hc Hr. assert (∀ k, k ∈ formed_kinds → kind e ≠ k) as Hne.
  { intros k Hin E. enough (one_of (kind e) formed_kinds = true) by congruence.
    apply existsb_exists. exists k. split; [by apply list_elem_of_In|by apply N.eqb_eq]. }
  split; try done; try (intros E; apply Hne in E; [done|unfold formed_kinds; set_solver]).
  intros t c row env w. apply content_passes; try (intros E; apply Hne in E; [done|unfold formed_kinds; set_solver]).
  intros E. unfold one_of in E. apply existsb_exists in E as (k & Hin & Hkk%N.eqb_eq).
  apply list_elem_of_In in Hin. destruct (Hne k); [unfold formed_kinds; set_solver|done].
Qed.

Lemma extract_signed b e ch : signed_from b e → names ch (b_tags b) → extract_channel_id parse_uuid e = Some ch.
Proof. intros Hs Hn. unfold extract_channel_id. by rewrite (drops_find_content "h" _ _ _ ltac:(done) (signed_drops _ _ Hs)). Qed.

Lemma plain_in_channel b e ch : signed_from b e → names ch (b_tags b) → one_of (b_kind b) formed_kinds = false →
  is_ok (required_scope_for_kind (b_kind b) e) = true → well_formed e (Some ch).
Proof.
  intros Hs Hn Hk Hsc. apply plain_formed; rewrite ?(sf_kind _ _ Hs); try done.
  intros c [= <-]. by apply (extract_signed b).
Qed.

Lemma plain_global b e : signed_from b e → one_of (b_kind b) formed_kinds = false →
  is_ok (required_scope_for_kind (b_kind b) e) = true → requires_h_channel_scope (b_kind b) = false → well_formed e None.
Proof. intros Hs Hk Hsc Hr. apply plain_formed; rewrite ?(sf_kind _ _ Hs); try done. by rewrite Hr. Qed.

(** A kind with a form, whose content and channel are settled. *)
Lemma formed b e ch : signed_from b e →
  (∀ c, ch = Some c → names c (b_tags b)) → (requires_h_channel_scope (b_kind b) = true → is_Some ch) →
  is_ok (required_scope_for_kind (b_kind b) e) = true →
  (one_of (b_kind b) [KIND_NIP29_DELETE_EVENT; KIND_DELETION] = true →
   count_tags "e" (b_tags b) + count_tags "a" (b_tags b) = 1) →
  (b_kind b = KIND_STREAM_MESSAGE_DIFF → validate_diff_event e = Ok tt) →
  (b_kind b = KIND_PROJECT → IngestEnvelopes.validate_project_envelope e = Ok tt) →
  (b_kind b = KIND_REACTION → is_Some (last_e_target (tags e) ≫= hex_decode)) →
  (b_kind b = KIND_REACTION →
    validate_reaction_emoji e (if String.eqb (content e) "" then "+" else content e) = Ok tt) →
  (b_kind b = KIND_EMOJI_SET → validate_custom_emoji_tags e = Ok tt) →
  (b_kind b = KIND_CANVAS → is_ok (parse_canvas_expected_revision e) = true) →
  (b_kind b = KIND_PROFILE → is_Some (sjson_from_str (content e))) →
  (b_kind b = KIND_NIP29_CREATE_GROUP → ∃ name v ty, first_content "name" (tags e) = Some name
    ∧ trim (canonical_channel_name name) ≠ ""
    ∧ visibility_from_str (default "open" (first_content "visibility" (tags e))) = Ok v
    ∧ channel_type_from_str (default "stream" (first_content "channel_type" (tags e))) = Ok ty) →
  well_formed e ch.
Proof.
  intros Hs Hn Hr Hsc Hdel Hdiff Hproj ??????. pose proof (signed_drops _ _ Hs) as Hd. rewrite <-(sf_kind _ _ Hs) in *.
  split; try done; [by intros c Hc; apply (extract_signed b); auto|].
  intros t c row env w. apply content_passes; [|done|done]. unfold count_e_tags.
  by rewrite (drops_count "e" _ _ ltac:(done) Hd), (drops_count "a" _ _ ltac:(done) Hd).
Qed.

End helpers.

(** The steps of a builder that answered. *)
Ltac built_steps H :=
  repeat lazymatch type of H with result_bind _ _ = Ok _ => apply result_bind_Ok in H as (? & ? & H) end;
  lazymatch type of H with Ok _ = Ok _ => injection H as H; subst | _ => idtac end.

Lemma check_Ok' b (err : SdkError) (u : unit) : check b err = Ok u → b = true.
Proof. by destruct b. Qed.

(** All the steps, those of the parts included. *)
Ltac builds :=
  repeat match goal with H : result_bind _ _ = Ok _ |- _ => apply result_bind_Ok in H as (? & ? & ?) end;
  repeat match goal with
  | H : Ok ?x = Ok ?y |- _ => injection H as H; subst
  end.

(** The tags a builder has pushed so far. *)
Ltac pushes L :=
  repeat match goal with
  | H : push _ _ = Ok _ |- _ => apply (push_Ok L) in H; subst
  | H : push_opt _ _ _ = Ok _ |- _ => apply (push_opt_Ok L) in H; subst
  | H : check _ _ = Ok _ |- _ => apply check_Ok' in H
  end.

(** From the tags of a builder back to the first ones it pushed. *)
Ltac prefixes L :=
  lazymatch goal with
  | |- ?a `prefix_of` ?a => reflexivity
  | H : ?r = Ok ?b |- _ `prefix_of` ?b =>
      etransitivity;
      [|first [ exact (push_prefix L _ _ _ H) | exact (push_opt_prefix L _ _ _ _ H) | exact (push_each_prefix L _ _ _ _ H)
              | exact (mention_tags_prefix L _ _ _ H) | exact (thread_tags_prefix L _ _ _ H)
              | exact (thread_tags_opt_prefix L _ _ _ H) | exact (imeta_tags_prefix L _ _ _ H)
              | exact (nip30_emoji_tags_prefix L _ _ _ H) ]];
      prefixes L
  end.

(** The channel tag in front. *)
Ltac names_channel L :=
  lazymatch goal with
  | H : push [] (channel_tag ?ch) = Ok _ |- names ?ch _ =>
      eapply names_prefix; [|exact (names_push_h L _ _ H)]; prefixes L
  end.
