(* ===== verification/SdkForms.v ===== *)
(** * SdkForms: what the clients build has the form the relay asks for

Every builder of [Sdk] and [SdkGit] makes an event that is [well_formed], one
lemma for each kind with a form of its own ([built_events_are_well_formed]). *)
From stdpp Require Import pretty.
From S2P Require Import Conformance Prelude Text Encode Nostr Kind Scope Roles Json IngestRules IngestEnvelopes EventStore EventStoreProps IngestRun IngestThread Ingest Sdk SdkGit SdkProps.

Section families.
Context {UT : UuidText} {TT : TraceText} {SC : SdkCrates} {NT : NostrTags} {RC : RelayCrates}
  {HO : HashOrder} {UC : UrlCrate}.
Context (L : SdkLaws).

Lemma hex64_decodes v : is_hex64 v = true → hex_decode v = Some (to_ascii_lowercase v) ∧ decode_32 v = Some (to_ascii_lowercase v).
Proof.
  unfold is_hex64, decode_32, hex_decode. intros [Hl%Nat.eqb_eq Hh]%andb_prop. rewrite Hl, Hh. simpl.
  by rewrite length_to_ascii_lowercase, Hl.
Qed.

(** Deletions. *)
Lemma count_cons key t ts : count_tags key (t :: ts) = (if decide (default "" (head t) = key) then 1 else 0) + count_tags key ts.
Proof. unfold count_tags. rewrite filter_cons, (sl_kind L). by destruct (decide _). Qed.
Lemma count_app key a b : count_tags key (a ++ b) = count_tags key a + count_tags key b.
Proof. unfold count_tags. by rewrite filter_app, length_app. Qed.
Lemma count_nil key : count_tags key [] = 0.
Proof. done. Qed.

(** Reactions. *)
Lemma reaction_target b e target rest : signed_from b e → b_tags b = ["e"; target] :: rest → count_tags "e" rest = 0 →
  is_hex64 target = true → is_Some (last_e_target (tags e) ≫= hex_decode).
Proof.
  intros Hs Hb Hr Hx. unfold last_e_target.
  rewrite (drops_find_content L "e" hex64 _ _ ltac:(done) (drops_rev _ _ (signed_drops L _ _ Hs))), Hb.
  cbn [rev]. rewrite find_content_app. assert (find_content "e" hex64 (rev rest) = None) as ->.
  { clear -Hr L. induction rest as [|t rest IH]; [done|]. rewrite count_cons in Hr. cbn [rev]. rewrite find_content_app, IH by lia.
    cbn [find_content]. rewrite (sl_kind L). by destruct (decide (default "" (head t) = "e")); [lia|]. }
  rewrite (find_content_cons L), decide_True by done. unfold hex64. rewrite Hx. cbn.
  destruct (hex64_decodes _ Hx) as [-> _]. eauto.
Qed.

Lemma named_in (b : EventBuilder) e t : signed_from b e → t ∈ b_tags b → head t ≠ Some "p" → t ∈ tags e.
Proof.
  intros Hs Ht Hp. pose proof (signed_drops L _ _ Hs) as Hd. induction Hd as [|t' l l' _ IH|t' l l' Ht' _ IH]; [done| |].
  - apply elem_of_cons in Ht as [->|Ht]; [left|right; auto].
  - apply elem_of_cons in Ht as [->|Ht]; [done|auto].
Qed.

Lemma strip_suffix_colon a : string_forall is_shortcode_char a = true → strip_suffix ":" (a +:+ ":") = Some a.
Proof.
  induction a as [|c a IH]; [done|]. cbn [string_forall]. intros [Hc Ha]%andb_prop. rewrite string_app_cons.
  cbn [strip_suffix]. rewrite IH by done. destruct (String.eqb_spec (String c (a +:+ ":")) ":") as [E|]; [|done].
  injection E as _ E. by destruct a.
Qed.

Lemma char_count_app a b : char_count (a +:+ b) = char_count a + char_count b.
Proof. induction a as [|c a IH]; [done|]. rewrite string_app_cons. cbn [char_count]. rewrite IH. lia. Qed.

Lemma custom_reaction_ok b e s code u : signed_from b e → normalize_shortcode s = Ok code →
  b_content b = ":" +:+ code +:+ ":" → ["emoji"; code; u] ∈ b_tags b →
  validate_reaction_emoji e (if String.eqb (content e) "" then "+" else content e) = Ok tt.
Proof.
  intros Hs (Hchars & Hlen & Hnorm)%normalize_shortcode_Ok%normalize_Ok Hb Hin.
  pose proof (named_in _ _ _ Hs Hin ltac:(done)) as Hin'. rewrite (sf_content _ _ Hs), Hb.
  unfold validate_reaction_emoji. rewrite !string_app_cons. change ("" +:+ ?x) with x. cbn [String.eqb Ascii.eqb Bool.eqb].
  destruct (char_count (String ":" (code +:+ ":")) <=? 64); [done|].
  assert (strip_prefix ":" (String ":" (code +:+ ":")) ≫= strip_suffix ":" = Some code) as ->.
  { cbn. by apply strip_suffix_colon. }
  rewrite Hnorm. cbn [map_err result_bind]. rewrite bool_decide_eq_false_2 by auto.
  assert (existsb _ (tags e) = true) as ->.
  { apply existsb_exists. exists ["emoji"; code; u]. split; [by apply list_elem_of_In|].
    apply andb_true_intro. split; by apply bool_decide_eq_true_2. }
  cbn [negb orb char_count]. rewrite char_count_app, (shortcode_char_count _ Hchars).
  change (char_count ":") with 1. change (if is_continuation ":" then 0 else 1) with 1.
  destruct (Nat.ltb_spec MAX_CUSTOM_EMOJI_REACTION_LEN (1 + (String.length code + 1))); [|done].
  unfold MAX_CUSTOM_EMOJI_REACTION_LEN in *. lia.
Qed.

Lemma short_reaction_ok (e : Event) emoji : content e = emoji → (char_count emoji <=? 64) = true →
  validate_reaction_emoji e (if String.eqb (content e) "" then "+" else content e) = Ok tt.
Proof. intros -> H. unfold validate_reaction_emoji. destruct (String.eqb emoji ""); [done|]. by rewrite H. Qed.

(** Emoji sets. *)
Lemma emoji_loop_ok seen emojis ts ts' : emoji_set_loop seen emojis ts = Ok ts' →
  validate_custom_emoji_loop ts = Ok tt → validate_custom_emoji_loop ts' = Ok tt.
Proof.
  revert seen ts. induction emojis as [|x emojis IH]; intros seen ts; cbn [emoji_set_loop]; [by intros [= <-]|].
  intros H Hts. built_steps H. apply normalize_shortcode_Ok, normalize_Ok in H0 as (_ & _ & Hn).
  apply (push_Ok L) in H3 as ->. apply (IH _ _ H). clear -Hts Hn.
  induction ts as [|t ts IH]; cbn [validate_custom_emoji_loop app].
  - cbn. by rewrite Hn.
  - cbn [validate_custom_emoji_loop] in Hts. destruct (named "emoji" t); [|by apply IH].
    destruct (t !! 1); [|done]. destruct (map_err invalid _); [by apply IH|done].
Qed.

(** Diffs. *)
Lemma diff_tags_app a b f g : diff_tags a f g = Ok (true, true) → diff_tags b true true = Ok (true, true) →
  diff_tags (a ++ b) f g = Ok (true, true).
Proof.
  revert f g. induction a as [|t a IH]; intros f g; cbn [diff_tags app]; [by intros [= -> ->]|].
  intros (h & -> & Ha)%result_bind_Ok Hb. cbn [result_bind]. auto.
Qed.

Lemma diff_cell {A : Type} (o : option A) parts : (∀ a, o = Some a → diff_tag (parts a) true true = Ok (true, true)) →
  diff_tags match o with Some a => [parts a] | None => [] end true true = Ok (true, true).
Proof. destruct o as [a|]; intros H; [|done]. cbn [diff_tags]. by rewrite H. Qed.

Lemma diff_thread tr ts ts' f g : thread_tags_opt tr ts = Ok ts' →
  diff_tags ts f g = Ok (true, true) → diff_tags ts' f g = Ok (true, true).
Proof.
  destruct tr as [tr|]; [|by intros [= <-]]. intros ->%(thread_tags_Ok L) H. apply diff_tags_app; [done|].
  by destruct (String.eqb _ _).
Qed.

Lemma sha_ok s field u : check_hex_len s 7 field = Ok u → is_sha s = true.
Proof. apply check_Ok'. Qed.

Lemma diff_meta_ok m u : check_diff_meta m = Ok u →
  is_http_url (repo_url m) = true ∧ is_sha (commit_sha m) = true
  ∧ (∀ pc, parent_commit m = Some pc → is_sha pc = true)
  ∧ (∀ s t, branch m = Some (s, t) → String.eqb s "" || String.eqb t "" = false)
  ∧ (∀ pr, pr_number m = Some pr → pr ≠ 0%N).
Proof.
  unfold check_diff_meta. intros H. built_steps H. pushes L. split_and!; [done|by eapply sha_ok|..].
  - intros pc Hpc. rewrite Hpc in *. by eapply sha_ok.
  - intros s t Hb. rewrite Hb in *. pushes L. by destruct (_ || _).
  - intros pr Hp. rewrite Hp in *. apply check_Ok' in H. intros ->. done.
Qed.

Lemma diff_ok b e m ch tr content : signed_from b e → build_diff_message ch content m tr = Ok b →
  from_option (λ pr, pr <= 4294967295)%N True (pr_number m) → validate_diff_event e = Ok tt.
Proof.
  intros Hs Hb Hpr. unfold build_diff_message in Hb. built_steps Hb.
  match goal with H : check_diff_meta m = _ |- _ => apply diff_meta_ok in H as (Hu & Hc & Hpc & Hbr & Hnum) end.
  unfold validate_diff_event. rewrite (sf_content _ _ Hs). cbn [b_content builder].
  match goal with H : check_content _ _ = _ |- _ => unfold check_content, len in H end. pushes L.
  destruct (N.ltb_spec 61440 (N.of_nat (String.length content))) as [?|_]; [match goal with H : (_ <=? _)%N = true |- _ => apply N.leb_le in H; lia end|].
  rewrite (drops_diff _ _ false false (signed_drops L _ _ Hs)). cbn [b_tags builder].
  match goal with H : thread_tags_opt _ _ = _ |- _ => rewrite (diff_thread _ _ _ false false H); [done|] end.
  repeat (apply diff_tags_app; [|apply diff_cell; intros]).
  - cbn [diff_tags app diff_tag channel_tag result_bind fst snd String.eqb Ascii.eqb Bool.eqb]. unfold is_http_url in Hu.
    rewrite <-negb_orb, Hu, Hc. done.
  - done.
  - cbn. by rewrite (Hpc a).
  - destruct a as [s t]. cbn. by rewrite (Hbr s t).
  - cbn. match goal with H : pr_number m = Some _ |- _ => rewrite H in Hpr; pose proof (Hnum _ H) end.
    rewrite parse_uint_pretty by done. destruct (N.eqb_spec a 0); done.
  - done.
  - done.
  - done.
  - done.
Qed.

#[local] Arguments decode_32 : simpl never.

(** Canvases. *)
Lemma canvas_ok b e ch content rev : signed_from b e → build_set_canvas ch content rev = Ok b →
  is_ok (parse_canvas_expected_revision e) = true.
Proof.
  intros Hs Hb. unfold build_set_canvas in Hb. built_steps Hb.
  unfold parse_canvas_expected_revision. rewrite (drops_named "expected-revision" _ _ ltac:(done) (signed_drops L _ _ Hs)).
  cbn [b_tags builder]. pushes L. destruct rev as [rev|]; [|match goal with H : Ok _ = Ok _ |- _ => by injection H as <- end].
  match goal with H : result_bind _ _ = Ok _ |- _ => built_steps H end. pushes L. cbn.
  change (named _ (channel_tag ch)) with false. change (named _ [_; rev]) with true. cbn.
  destruct (String.eqb_spec rev "none") as [->|Hne]; [done|].
  match goal with H : _ || _ = true |- _ => apply orb_prop in H as [H|H]; [by destruct Hne; apply String.eqb_eq|] end.
  destruct (hex64_decodes rev) as [_ ->]; done.
Qed.

(** New channels. *)
Lemma group_ok b e ch name v ty about ttl : signed_from b e → build_create_channel ch name v ty about ttl = Ok b →
  ∃ name' v' ty', first_content "name" (tags e) = Some name' ∧ trim (canonical_channel_name name') ≠ ""
    ∧ visibility_from_str (default "open" (first_content "visibility" (tags e))) = Ok v'
    ∧ channel_type_from_str (default "stream" (first_content "channel_type" (tags e))) = Ok ty'.
Proof.
  intros Hs Hb. unfold build_create_channel in Hb. built_steps Hb. pushes L.
  pose proof (signed_drops L _ _ Hs) as Hd. unfold first_content.
  rewrite (drops_find_content L "name" Some _ _ ltac:(done) Hd), (drops_find_content L "visibility" Some _ _ ltac:(done) Hd),
    (drops_find_content L "channel_type" Some _ _ ltac:(done) Hd). cbn [b_tags builder].
  exists (canonical_channel_name name), (default Open v), (default Stream ty). rewrite canonical_channel_name_idem.
  unfold channel_tag. split_and!.
  - cbn [app]. by rewrite !(find_content_cons L).
  - intros E. rewrite E in *. done.
  - destruct v as [[]|], ty, about, ttl; cbn [app]; by rewrite !(find_content_cons L).
  - destruct v, ty as [[]|], about, ttl; cbn [app]; by rewrite !(find_content_cons L).
Qed.

(** ** The builders *)

(** [built ch b]: a builder answered [b] for an event that the relay stores or
executes; [ch] is the channel it was given.  Event ids are of the type
[EventId], 64 hex digits; a pull-request number is a [u32]. *)
Inductive built : option Uuid → EventBuilder → Prop :=
| built_message ch c tr ms bc mt et b : build_message ch c tr ms bc mt et = Ok b → built (Some ch) b
| built_forum_post ch c ms mt b : build_forum_post ch c ms mt = Ok b → built (Some ch) b
| built_forum_comment ch c tr ms mt b : build_forum_comment ch c tr ms mt = Ok b → built (Some ch) b
| built_diff ch c m tr b : from_option (λ pr, pr <= 4294967295)%N True (pr_number m) →
    build_diff_message ch c m tr = Ok b → built (Some ch) b
| built_edit ch i c b : build_edit ch i c = Ok b → built (Some ch) b
| built_delete ch i o b : build_delete_message_with_options ch i o = Ok b → built (Some ch) b
| built_delete_compat ch i b : build_delete_compat ch i = Ok b → built (Some ch) b
| built_vote ch i d b : build_vote ch i d = Ok b → built (Some ch) b
| built_reaction i emoji b : is_hex64 i = true → build_reaction i emoji = Ok b → built None b
| built_custom_reaction i code u b : is_hex64 i = true → build_custom_emoji_reaction i code u = Ok b → built None b
| built_remove_reaction i b : build_remove_reaction i = Ok b → built None b
| built_emoji_set l b : build_custom_emoji_set l = Ok b → built None b
| built_canvas ch c rev b : build_set_canvas ch c rev = Ok b → built (Some ch) b
| built_canvas_after now ch c i at_secs b : build_set_canvas_after_head now ch c i at_secs = Ok b → built (Some ch) b
| built_canvas_unconditional now ch c at_secs b :
    build_set_canvas_unconditional_after_head now ch c at_secs = Ok b → built (Some ch) b
| built_profile d n p a i b : build_profile d n p a i = Ok b → built None b
| built_add_member ch p r b : build_add_member ch p r = Ok b → built (Some ch) b
| built_remove_member ch p b : build_remove_member ch p = Ok b → built (Some ch) b
| built_leave ch b : build_leave ch = Ok b → built (Some ch) b
| built_update ch n a v ttl b : build_update_channel ch n a v ttl = Ok b → built (Some ch) b
| built_topic ch x b : build_set_topic ch x = Ok b → built (Some ch) b
| built_purpose ch x b : build_set_purpose ch x = Ok b → built (Some ch) b
| built_archive ch b : build_archive ch = Ok b → built (Some ch) b
| built_unarchive ch b : build_unarchive ch = Ok b → built (Some ch) b
| built_create ch n v ty a ttl b : build_create_channel ch n v ty a ttl = Ok b → built (Some ch) b
| built_join ch b : build_join ch = Ok b → built (Some ch) b
| built_delete_channel ch b : build_delete_channel ch = Ok b → built (Some ch) b
| built_note c r b : build_note c r = Ok b → built None b
| built_contacts l b : build_contact_list l = Ok b → built None b
| built_workflow ch w y b : build_workflow_def ch w y = Ok b → built (Some ch) b
| built_workflow_update ch w y r b : build_workflow_update ch w y r = Ok b → built (Some ch) b
| built_delete_addressable k p d b : build_delete_addressable k p d = Ok b → built None b
| built_trigger w b : build_workflow_trigger w = Ok b → built None b
| built_approval h y n b : build_workflow_approval h y n = Ok b → built None b
| built_dm_open l b : build_dm_open l = Ok b → built None b
| built_dm_add ch p b : build_dm_add_member ch p = Ok b → built (Some ch) b
| built_status t emoji b : build_user_status t emoji = Ok b → built None b
| built_ban p x r b : build_moderation_ban p x r = Ok b → built None b
| built_unban p b : build_moderation_unban p = Ok b → built None b
| built_timeout p x r b : build_moderation_timeout p x r = Ok b → built None b
| built_untimeout p b : build_moderation_untimeout p = Ok b → built None b
| built_resolve i s a r b : build_moderation_resolve_report i s a r = Ok b → built None b
| built_archive_identity p c r y a b : build_archive_identity_request p c r y a = Ok b → built None b
| built_unarchive_identity p c r a b : build_unarchive_identity_request p c r a = Ok b → built None b
| built_repo i n d c w r b : build_repo_announcement i n d c w r = Ok b → built None b
| built_repo_tags i c ts b : build_repo_announcement_with_tags i c ts = Ok b → built None b
| built_patch r c m b : build_git_patch r c m = Ok b → built None b
| built_issue r s c m b : build_git_issue r s c m = Ok b → built None b
| built_assignment r i l c o p b : build_git_issue_assignee_operation r i l c o p = Ok b → built None b
| built_git_status s c m b : build_git_status s c m = Ok b → built None b
| built_pull r c m b : build_git_pull_request r c m = Ok b → built None b
| built_pr_update r c m b : build_git_pr_update r c m = Ok b → built None b
| built_project c ts b : build_project_with_tags c ts = Ok b → built None b.

Ltac plain :=
  lazymatch goal with
  | |- well_formed _ (Some _) =>
      eapply plain_in_channel; [done|eassumption|cbn [b_tags builder allow_self_tagging]|reflexivity|reflexivity]
  | |- well_formed _ None => eapply plain_global; [done|eassumption|reflexivity|reflexivity|reflexivity]
  end.

(** A kind with a form of its own. *)
Ltac with_form :=
  eapply formed; [done|eassumption|..]; cbn [b_kind b_tags builder allow_self_tagging];
  try (by intros); try (vm_compute; discriminate);
  try (let E := fresh in intros E; vm_compute in E; discriminate E); try reflexivity.

(** *** Kinds with a form of their own *)

(** Changes of a channel's metadata; archiving needs another scope. *)
Lemma metadata_formed e ch ts : signed_from (builder 9002 "" ts) e → names ch ts → well_formed e (Some ch).
Proof.
  intros Hs Hn. eapply plain_in_channel; [done|eassumption|done|reflexivity|].
  cbn [b_kind builder]. unfold required_scope_for_kind. cbn. by destruct (has_tag_kind _ _).
Qed.

Section forms.
Context (b : EventBuilder) (e : Event) (Hs : signed_from b e).

Lemma diff_formed ch c m tr : from_option (λ pr, pr <= 4294967295)%N True (pr_number m) →
  build_diff_message ch c m tr = Ok b → well_formed e (Some ch).
Proof.
  intros Hpr H. pose proof (diff_ok _ _ _ _ _ _ Hs H Hpr) as Hd. unfold build_diff_message in H. builds. with_form.
  intros ? [= <-]. names_channel L.
Qed.

Lemma delete_formed ch i o : build_delete_message_with_options ch i o = Ok b → well_formed e (Some ch).
Proof.
  intros H. unfold build_delete_message_with_options, channel_and_target in H. builds. with_form.
  - intros ? [= <-]. names_channel L.
  - intros _. pushes L. unfold channel_tag. rewrite !count_app, !count_cons, !count_nil.
    by destruct (action_id o), (reason_code o), (public_reason o); rewrite ?count_cons, ?count_nil.
Qed.

Lemma delete_compat_formed ch i : build_delete_compat ch i = Ok b → well_formed e (Some ch).
Proof.
  intros H. unfold build_delete_compat, channel_and_target in H. builds. with_form.
  - intros ? [= <-]. names_channel L.
  - intros _. pushes L. unfold channel_tag. by rewrite !count_app, !count_cons, !count_nil.
Qed.

Lemma remove_reaction_formed i : build_remove_reaction i = Ok b → well_formed e None.
Proof. intros H. unfold build_remove_reaction in H. builds. with_form. intros _. pushes L. by rewrite !count_app, !count_cons, !count_nil. Qed.

Lemma addressable_formed k p d : build_delete_addressable k p d = Ok b → well_formed e None.
Proof.
  intros H. unfold build_delete_addressable in H. builds. with_form. intros _. pushes L. by rewrite !count_app, !count_cons, !count_nil.
Qed.

Lemma reaction_formed i emoji : is_hex64 i = true → build_reaction i emoji = Ok b → well_formed e None.
Proof.
  intros Hi H. unfold build_reaction in H. builds. pushes L. with_form; intros _.
  - by eapply reaction_target.
  - eapply short_reaction_ok; [apply (sf_content _ _ Hs)|done].
Qed.

Lemma custom_reaction_formed i code u : is_hex64 i = true → build_custom_emoji_reaction i code u = Ok b → well_formed e None.
Proof.
  intros Hi H. unfold build_custom_emoji_reaction in H. builds. pushes L. with_form; intros _.
  - eapply reaction_target; [done|reflexivity| |done]. by rewrite !count_cons, !count_nil.
  - eapply custom_reaction_ok; [done|done|done|]. cbn. right. left.
Qed.

Lemma emoji_set_formed l : build_custom_emoji_set l = Ok b → well_formed e None.
Proof.
  intros H. unfold build_custom_emoji_set in H. builds. pushes L. with_form. intros _. unfold validate_custom_emoji_tags.
  rewrite (drops_emoji _ _ (signed_drops L _ _ Hs)). eapply emoji_loop_ok; [eassumption|done].
Qed.

Lemma canvas_formed ch c rev : build_set_canvas ch c rev = Ok b → well_formed e (Some ch).
Proof.
  intros H. pose proof (canvas_ok _ _ _ _ _ Hs H) as Hc. unfold build_set_canvas in H. builds. with_form.
  intros ? [= <-]. destruct rev; builds; names_channel L.
Qed.

Lemma profile_formed d n p a i : build_profile d n p a i = Ok b → well_formed e None.
Proof.
  intros H. unfold build_profile in H. builds. with_form. intros _. rewrite (sf_content _ _ Hs). apply (sl_json L).
Qed.

Lemma group_formed ch n v ty a ttl : build_create_channel ch n v ty a ttl = Ok b → well_formed e (Some ch).
Proof.
  intros H. pose proof (group_ok _ _ _ _ _ _ _ _ Hs H) as Hg. unfold build_create_channel in H. builds. with_form.
  intros ? [= <-]. names_channel L.
Qed.

Lemma project_formed c ts : build_project_with_tags c ts = Ok b → well_formed e None.
Proof.
  intros H. unfold build_project_with_tags in H. builds. with_form. intros _.
  set (e0 := {| id := id e; pubkey := pubkey e; kind := kind e; created_at := created_at e; tags := ts; content := content e |}).
  rewrite (drops_project e0 e (signed_drops L _ _ Hs)). pose proof (envelopes_agree e0) as Ha.
  match goal with H : sdk_validate_project_envelope ts = Ok _ |- _ => change (tags e0) with ts in Ha; rewrite H in Ha end.
  symmetry in Ha. apply andb_prop in Ha as [Ha _]. by destruct (IngestEnvelopes.validate_project_envelope e0) as [[]|].
Qed.

Lemma update_formed ch n a v ttl : build_update_channel ch n a v ttl = Ok b → well_formed e (Some ch).
Proof. intros H. unfold build_update_channel in H. builds. eapply metadata_formed; [eassumption|]. names_channel L. Qed.

Lemma edit_metadata_formed ch k x : edit_metadata ch k x = Ok b → well_formed e (Some ch).
Proof. intros H. unfold edit_metadata in H. builds. eapply metadata_formed; [eassumption|]. names_channel L. Qed.

(** The channel behind the identifier of the workflow. *)
Lemma names_second ch w ts ts' : push [] ["d"; uuid_to_string w] = Ok ts → push ts (channel_tag ch) = Ok ts' → names ch ts'.
Proof.
  intros H H'. pushes L. apply (names_h L). right. cbn [app]. by rewrite (find_content_cons L).
Qed.

Lemma workflow_formed ch w y : build_workflow_def ch w y = Ok b → well_formed e (Some ch).
Proof. intros H. unfold build_workflow_def in H. builds. plain. by eapply names_second. Qed.

Lemma workflow_update_formed ch w y r : build_workflow_update ch w y r = Ok b → well_formed e (Some ch).
Proof.
  intros H. unfold build_workflow_update in H. builds. plain. eapply names_prefix; [by eapply push_prefix|]. by eapply names_second.
Qed.

Lemma approval_formed h y n : build_workflow_approval h y n = Ok b → well_formed e None.
Proof. intros H. unfold build_workflow_approval in H. builds. destruct y; plain. Qed.

Lemma git_status_formed s c m : build_git_status s c m = Ok b → well_formed e None.
Proof. intros H. unfold build_git_status in H. builds. destruct s; plain. Qed.

End forms.

(** Canvas writes after a head. *)
Lemma signed_at b at_secs e : b_created_at b = None → signed_from (custom_created_at at_secs b) e → signed_from b e.
Proof. intros Hb [????]. split; try done. by rewrite Hb. Qed.

Lemma canvas_at_formed ch c rev b b' at_secs e : build_set_canvas ch c rev = Ok b → @Ok _ SdkError (custom_created_at at_secs b) = Ok b' →
  signed_from b' e → well_formed e (Some ch).
Proof.
  intros H [= <-] Hs. eapply canvas_formed; [|done]. eapply signed_at; [|done]. unfold build_set_canvas in H. by builds.
Qed.

Lemma canvas_after_formed now ch c i at_secs b e : build_set_canvas_after_head now ch c i at_secs = Ok b →
  signed_from b e → well_formed e (Some ch).
Proof. unfold build_set_canvas_after_head. intros (x & _ & (b0 & H & E)%result_bind_Ok)%result_bind_Ok Hs. by eapply canvas_at_formed. Qed.

Lemma canvas_unconditional_formed now ch c at_secs b e : build_set_canvas_unconditional_after_head now ch c at_secs = Ok b →
  signed_from b e → well_formed e (Some ch).
Proof.
  unfold build_set_canvas_unconditional_after_head. intros (x & _ & (b0 & H & E)%result_bind_Ok)%result_bind_Ok Hs.
  by eapply canvas_at_formed.
Qed.

#[local] Hint Unfold build_message build_forum_post build_forum_comment build_edit channel_and_target build_vote
  build_add_member build_remove_member build_leave
  build_join
  build_delete_channel build_note build_contact_list build_workflow_trigger
  build_dm_open build_dm_add_member build_user_status build_moderation_ban build_moderation_unban
  build_moderation_timeout build_moderation_untimeout build_moderation_resolve_report build_archive_identity_request
  build_unarchive_identity_request build_repo_announcement build_repo_announcement_with_tags build_git_patch build_git_issue
  build_git_issue_assignee_operation build_git_pull_request build_git_pr_update : sdk.

(** C28. What a client builds has the form the relay asks for.  Whatever a
builder of the SDK answers, once it is signed, passes these checks of the ingest
pipeline ([well_formed]): its kind needs a known scope; its [h] tag names the
channel the builder was given, and a kind that needs a channel was given one;
[validate_content] accepts it in a channel that is not archived, unless its kind
is of [checked_against_store] (an edit, a vote, an engram, a turn metric, a
reminder, a persona, a team catalog); the target and the emoji of a reaction, the
tags of an emoji set, the precondition of a canvas, the content of a profile and
the name, visibility and type of a new channel are accepted.  Not covered are the
bound of 256 KiB on the content, the check of [imeta] tags (the builders pass media
tags on as given) and the checks of the handlers of other components, of which the
one for administrative events refuses a key that [build_add_member] accepts. *)
Theorem built_events_are_well_formed (ch : option Uuid) (b : EventBuilder) (e : Event) :
  built ch b → signed_from b e → well_formed e ch.
Proof.
  intros Hb Hs. destruct Hb; try solve [eauto using diff_formed, delete_formed, delete_compat_formed, remove_reaction_formed,
    addressable_formed, reaction_formed, custom_reaction_formed, emoji_set_formed, canvas_formed, profile_formed,
    group_formed, project_formed, update_formed, edit_metadata_formed, workflow_formed, workflow_update_formed,
    approval_formed, git_status_formed, canvas_after_formed, canvas_unconditional_formed];
  autounfold with sdk in *; builds; plain; names_channel L.
Qed.

End families.
