(* ===== verification/SdkWrites.v ===== *)
(** * SdkWrites: threads and canvases, from the client to the relay

What a message says of its thread reads back ([threads_read_back]); canvas
writes go in front of the head they were built on ([canvas_writes_supersede]);
the client's verdict on a write of its own ([survival_is_ancestry]).  At the
end, concrete requests to which the theorems of the builders are applied. *)
From stdpp Require Import pretty.
From S2P Require Import Conformance Prelude Text Encode Nostr Kind Scope Roles Json IngestRules IngestEnvelopes EventStore EventStoreProps IngestRun IngestThread Ingest Sdk SdkGit SdkProps SdkForms ReadToy.

Section writes.
Context {UT : UuidText} {TT : TraceText} {SC : SdkCrates} {NT : NostrTags} {RC : RelayCrates}.
Context (L : SdkLaws).

(** ** Threads and mentions *)

Lemma mention_loop_exact seen ms ts ts' : mention_loop seen ms ts = Ok ts' →
  ∃ l, ts' = ts ++ map (λ k, ["p"; k]) l ∧ NoDup l ∧ ∀ k, k ∈ l ↔ k ∈ map to_ascii_lowercase ms ∧ k ∉ seen.
Proof.
  revert seen ts. induction ms as [|m ms IH]; intros seen ts; cbn [mention_loop map].
  - intros [= <-]. exists []. rewrite app_nil_r. split; [done|]. split; [constructor|]. intros k. split; [intros H|intros [H _]]; by apply elem_of_nil in H.
  - case_bool_decide as Hin.
    + intros (l & -> & Hnd & Hl)%IH. exists l. split; [done|]. split; [done|]. intros k. rewrite Hl, elem_of_cons.
      split; [naive_solver|]. intros [[->|?] ?]; done.
    + intros (ts1 & ->%(push_Ok L) & (l & -> & Hnd & Hl)%IH)%result_bind_Ok. exists (to_ascii_lowercase m :: l).
      rewrite <-app_assoc. split; [done|]. split.
      * constructor; [|done]. rewrite Hl, elem_of_cons. naive_solver.
      * intros k. rewrite !elem_of_cons, Hl, elem_of_cons. destruct (decide (k = to_ascii_lowercase m)) as [->|]; naive_solver.
Qed.

(** Tags that say nothing of threads, mentions or broadcast. *)
Definition silent (t : Tag) : Prop := head t ∉ [Some "e"; Some "p"; Some "broadcast"].

Definition mention_of (parts : Tag) : option string :=
  match parts with p0 :: p1 :: _ => if decide (p0 = "p") then Some p1 else None | _ => None end.
Definition broadcasts (parts : Tag) : bool :=
  match parts with p0 :: p1 :: _ => String.eqb p0 "broadcast" && String.eqb p1 "1" | _ => false end.

Lemma silent_says t m : silent t → marker_step m t = m ∧ mention_of t = None ∧ broadcasts t = false.
Proof.
  intros H. destruct t as [|p0 [|p1 t]]; [done|done|].
  assert (p0 ≠ "e" ∧ p0 ≠ "p" ∧ p0 ≠ "broadcast") as (He & Hp & Hb) by (unfold silent in H; simpl in H; set_solver).
  split_and!.
  - destruct t as [|p2 [|p3 t]]; [done|done|]. cbn [marker_step]. by rewrite bool_decide_eq_false_2.
  - cbn. by rewrite decide_False.
  - cbn [broadcasts]. destruct (String.eqb_spec p0 "broadcast"); done.
Qed.

Lemma silent_all l : Forall silent l → (∀ m, foldl marker_step m l = m) ∧ omap mention_of l = [] ∧ existsb broadcasts l = false.
Proof.
  induction 1 as [|t l Ht _ (IH1 & IH2 & IH3)]; [done|]. destruct (silent_says t {| root := None; reply := None |} Ht) as (_ & Hm & Hb).
  split_and!.
  - intros m. cbn [foldl]. destruct (silent_says t m Ht) as (-> & _). apply IH1.
  - cbn. rewrite Hm. apply IH2.
  - cbn. by rewrite Hb.
Qed.

Lemma mentions_say l : (∀ m, foldl marker_step m (map (λ k, ["p"; k]) l) = m)
  ∧ omap mention_of (map (λ k, ["p"; k]) l) = l ∧ existsb broadcasts (map (λ k, ["p"; k]) l) = false.
Proof. induction l as [|k l (IH1 & IH2 & IH3)]; [done|]. split_and!; [intros m; apply IH1|cbn; by f_equal|done]. Qed.

Lemma nip30_silent et : Forall silent (List.filter is_nip30 et).
Proof.
  apply List.Forall_forall. intros t [_ H]%filter_In. unfold is_nip30 in H. apply andb_prop in H as [_ H%bool_decide_eq_true].
  unfold silent. rewrite H. set_solver.
Qed.

Lemma allowed_tags b e : signed_from b e → b_allow_self_tagging b = true → tags e = b_tags b.
Proof.
  intros Hs Ha. rewrite (sf_tags _ _ Hs). unfold kept. rewrite Ha. cbn. induction (b_tags b); cbn; congruence.
Qed.

Lemma thread_says t : is_event_id_hex (tr_root_event_id t) = true → is_event_id_hex (tr_parent_event_id t) = true →
  let l := if String.eqb (tr_root_event_id t) (tr_parent_event_id t) then [["e"; tr_root_event_id t; ""; "reply"]]
           else [["e"; tr_root_event_id t; ""; "root"]; ["e"; tr_parent_event_id t; ""; "reply"]] in
  resolve (foldl marker_step {| root := None; reply := None |} l) = Some (tr_root_event_id t, tr_parent_event_id t)
  ∧ omap mention_of l = [] ∧ existsb broadcasts l = false.
Proof.
  intros Hr Hp. cbv zeta. destruct (String.eqb_spec (tr_root_event_id t) (tr_parent_event_id t)) as [E|];
    cbn [foldl marker_step]; rewrite Hr, ?Hp; split_and!; try done.
  cbn. by rewrite <-E.
Qed.

Lemma mentioned_omap e : mentioned_pubkeys (parse_thread_tags e) = omap mention_of (tags e).
Proof. unfold parse_thread_tags. by destruct (resolve _) as [[]|]. Qed.

Lemma channel_silent ch : silent (channel_tag ch).
Proof. unfold silent, channel_tag. simpl. set_solver. Qed.

(** C29. What a client says of a thread is what the relay and the agents read.
A message built as a reply parses back to its root and parent, its mentions are
the given keys in lower case, each once, and it counts as a broadcast exactly
when it was built as one; without a thread it parses to none. *)
Theorem threads_read_back ch c tr ms bc mt et b e :
  build_message ch c tr ms bc mt et = Ok b → signed_from b e → Forall silent mt →
  (∀ t, tr = Some t → is_event_id_hex (tr_root_event_id t) = true ∧ is_event_id_hex (tr_parent_event_id t) = true) →
  resolve (parse_thread_markers (tags e)) = (λ t, (tr_root_event_id t, tr_parent_event_id t)) <$> tr
  ∧ NoDup (mentioned_pubkeys (parse_thread_tags e))
  ∧ (∀ k, k ∈ mentioned_pubkeys (parse_thread_tags e) ↔ k ∈ map to_ascii_lowercase ms)
  ∧ is_broadcast e = bc.
Proof.
  intros Hb Hs Hmt Hids. unfold build_message in Hb.
  apply result_bind_Ok in Hb as (_ & _ & (ts1 & ->%(push_Ok L) & (ts2 & Hth & (ts3 & Hm & (ts4 & ->%(push_opt_Ok L) &
    (ts5 & ->%(push_each_Ok L) & (ts6 & ->%(push_each_Ok L) & [= <-])%result_bind_Ok)%result_bind_Ok)%result_bind_Ok)%result_bind_Ok)%result_bind_Ok)%result_bind_Ok).
  unfold mention_tags in Hm. apply result_bind_Ok in Hm as (_ & _ & (l & -> & Hnd & Hl)%mention_loop_exact).
  assert (tags e = ([channel_tag ch] ++ match tr with
      | Some t => if String.eqb (tr_root_event_id t) (tr_parent_event_id t) then [["e"; tr_root_event_id t; ""; "reply"]]
                  else [["e"; tr_root_event_id t; ""; "root"]; ["e"; tr_parent_event_id t; ""; "reply"]]
      | None => [] end) ++ map (λ k, ["p"; k]) l ++ (if bc then [["broadcast"; "1"]] else [])
      ++ mt ++ List.filter is_nip30 et) as HT.
  { rewrite (allowed_tags _ _ Hs) by done. cbn [b_tags allow_self_tagging builder]. rewrite !map_id.
    destruct tr as [t|]; cbn [thread_tags_opt] in Hth; [apply (thread_tags_Ok L) in Hth as ->|injection Hth as <-];
      destruct bc; rewrite <-!app_assoc; done. }
  destruct (silent_all _ Hmt) as (Hm1 & Hm2 & Hm3), (silent_all _ (nip30_silent et)) as (He1 & He2 & He3).
  destruct (silent_all [channel_tag ch]) as (Hc1 & Hc2 & Hc3); [by repeat constructor; apply channel_silent|].
  destruct (mentions_say l) as (Hl1 & Hl2 & Hl3).
  rewrite mentioned_omap. unfold is_broadcast, parse_thread_markers, parse_thread_markers_from_parts. rewrite HT.
  change (λ parts : Tag, _) with broadcasts.
  rewrite !foldl_app, !omap_app, !existsb_app, Hc1, Hc2, Hc3, Hl1, Hl2, Hl3, Hm1, Hm2, Hm3, He1, He2, He3.
  assert (∀ m, foldl marker_step m (if bc then [["broadcast"; "1"]] else []) = m) as -> by by destruct bc.
  assert (omap mention_of (if bc then [["broadcast"; "1"]] else []) = []) as -> by by destruct bc.
  assert (existsb broadcasts (if bc then [["broadcast"; "1"]] else []) = bc) as -> by by destruct bc.
  destruct tr as [t|]; [destruct (Hids t eq_refl) as [Hr Hp]; destruct (thread_says t Hr Hp) as (-> & -> & ->)|];
    rewrite !app_nil_r, ?orb_false_r; (split; [done|split; [done|split; [|done]]]);
    intros k; rewrite app_nil_l, Hl; (split; [by intros [? _]|]); intros; (split; [done|apply not_elem_of_nil]).
Qed.

(** ** Canvas writes *)

Lemma as_i64_exact n : (n < 9223372036854775808)%N → as_i64 n = Z.of_N n.
Proof. intros H. unfold as_i64. rewrite Z.mod_small by lia. destruct (Z.ltb_spec (Z.of_N n) 9223372036854775808); lia. Qed.

Lemma created_at_bounds head_at now at_secs : (now + 61 < 9223372036854775808)%N → canvas_write_created_at_at head_at now = Ok at_secs →
  (now <= at_secs <= now + 61)%N ∧ (head_at < at_secs)%N.
Proof.
  unfold canvas_write_created_at_at, saturating_add_u64, CANVAS_MAX_FUTURE_SKEW_SECS, U64_MAX. intros Hn H. built_steps H.
  match goal with H : check _ _ = _ |- _ => apply check_Ok' in H; apply N.leb_le in H end. lia.
Qed.

(** A checked write that expects the head there is, and supersedes it. *)
Lemma head_met now com e sig ch pre res t r t' s h :
  insert_channel_head_checked_with_resource parse_i64 now com e sig ch pre res t = (r, t') →
  live_head com (at_channel (kind e) ch) t = Some h → pre = ExpectedHead h.2 → candidate_supersedes_head e h = true →
  r ≠ Ok (s, HeadMissing) ∧ r ≠ Ok (s, SupersedeFailed).
Proof.
  unfold insert_channel_head_checked_with_resource. cbv zeta. intros Hrun Hh -> Hsup. rewrite Hh in Hrun.
  match type of Hrun with commit ?a _ = _ => destruct a as [[[s' st] t2]|err] eqn:Ha end; simpl in Hrun; simplify_eq; [|done].
  apply result_bind_Ok in Ha as (_ & _ & (row & _ & Ha)%result_bind_Ok).
  case_match; [done|]. case_match; [by simplify_eq|].
  rewrite bool_decide_eq_false_2, Hsup in Ha by auto. cbn [negb] in Ha.
  apply result_bind_Ok in Ha as ([[s2 b] t3] & _ & Ha). destruct b; [|by simplify_eq].
  apply result_bind_Ok in Ha as (t4 & _ & Ha). by simplify_eq.
Qed.

Lemma canvas_revision_read ch c head_id b e : is_hex64 head_id = true → build_set_canvas ch c (Some head_id) = Ok b →
  tags e = List.filter (kept b (pubkey e)) (b_tags b) →
  parse_canvas_expected_revision e = Ok (Some (Head (to_ascii_lowercase head_id))).
Proof.
  intros Hx Hb Ht. unfold build_set_canvas in Hb. builds. pushes L. unfold parse_canvas_expected_revision.
  rewrite Ht, (drops_named "expected-revision" _ _ ltac:(done) (drops_kept L _ _ _)). cbn [b_tags builder app List.filter].
  change (named _ (channel_tag ch)) with false. change (named _ [_; head_id]) with true. cbv iota.
  destruct (String.eqb_spec head_id "none") as [->|_]; [done|]. by destruct (hex64_decodes head_id Hx) as [_ ->].
Qed.

(** C30. A canvas write built after a head goes in front of it.  While the
client's clock is within what a signed second holds, the write is dated after the
head and at most 61 seconds ahead of the client's clock.  A relay whose clock is
at most 239 seconds from the client's, ahead or behind, therefore passes it
through both its date checks, the general one of fifteen minutes and the canvas
one of five minutes ahead; it reads the precondition back, and, where the head is
still the one the client saw, finds the head and lets the write supersede it. *)
Theorem canvas_writes_supersede now ch c head_id head_at b e relay_now :
  (now + 61 < 9223372036854775808)%N → (Z.abs (Z.of_N now - relay_now) <= 239)%Z → is_hex64 head_id = true →
  build_set_canvas_after_head now ch c head_id head_at = Ok b → signed_from b e →
  (now <= created_at e <= now + 61)%N ∧ (head_at < created_at e)%N
  ∧ (MAX_TIMESTAMP_DRIFT_SECS <? i64_abs (i64_sub (as_i64 (created_at e)) relay_now))%Z = false
  ∧ validate_canvas_future_timestamp (as_i64 (created_at e)) relay_now = Ok tt
  ∧ parse_canvas_expected_revision e = Ok (Some (Head (to_ascii_lowercase head_id)))
  ∧ (∀ at_now com sig res t r t' s, live_head com (at_channel (kind e) ch) t = Some (as_i64 head_at, to_ascii_lowercase head_id) →
     insert_channel_head_checked_with_resource parse_i64 at_now com e sig ch (ExpectedHead (to_ascii_lowercase head_id)) res t = (r, t') →
     r ≠ Ok (s, HeadMissing) ∧ r ≠ Ok (s, SupersedeFailed)).
Proof.
  intros Hn Hr Hx Hb Hs. unfold build_set_canvas_after_head in Hb.
  apply result_bind_Ok in Hb as (at_secs & Hat & (b0 & Hb & [= <-])%result_bind_Ok).
  pose proof (created_at_bounds _ _ _ Hn Hat) as [Hb1 Hb2]. pose proof (sf_time _ _ Hs) as Ht. cbn in Ht.
  assert (i64_sub (Z.of_N at_secs) relay_now = (Z.of_N at_secs - relay_now)%Z) as Hsub by (apply i64_wrap_exact; lia).
  rewrite Ht, !as_i64_exact by lia. split; [done|]. split; [done|]. split; [|split; [|split]].
  - rewrite Hsub. unfold i64_abs. rewrite i64_wrap_exact by lia. apply Z.ltb_ge. unfold MAX_TIMESTAMP_DRIFT_SECS. lia.
  - unfold validate_canvas_future_timestamp, CANVAS_MAX_INGEST_FUTURE_SECS. rewrite Hsub.
    destruct (Z.ltb_spec 300 (Z.of_N at_secs - relay_now)); [lia|done].
  - eapply canvas_revision_read; [done|done|]. apply (sf_tags _ _ Hs).
  - intros at_now com sig res t r t' s Hh Hw. eapply head_met; [done|done|done|].
    unfold candidate_supersedes_head. cbn [fst]. rewrite Ht, as_i64_exact by lia.
    destruct (Z.compare_spec (Z.of_N at_secs) (Z.of_N head_at)); [lia|lia|done].
Qed.

(** ** Surviving canvas writes *)

(** In [m], the revision [x] is built on one in [n] steps whose id is [our_id],
whatever the case of its digits. *)
Inductive built_on (m : gmap string (option string)) (our_id : string) : string → nat → Prop :=
| built_on_it x expected : m !! x = Some (Some expected) → eq_ignore_ascii_case expected our_id = true → built_on m our_id x 1
| built_on_next x expected n : m !! x = Some (Some expected) → built_on m our_id (to_ascii_lowercase expected) n →
    built_on m our_id x (S n).

(** The shortest way, which is the walk's. *)
Inductive walks_to (m : gmap string (option string)) (our_id : string) : string → nat → Prop :=
| walks_here x expected : m !! x = Some (Some expected) → eq_ignore_ascii_case expected our_id = true → walks_to m our_id x 1
| walks_next x expected n : m !! x = Some (Some expected) → eq_ignore_ascii_case expected our_id = false →
    walks_to m our_id (to_ascii_lowercase expected) n → walks_to m our_id x (S n).

Lemma built_on_walks m our_id x n : built_on m our_id x n → ∃ k, k <= n ∧ walks_to m our_id x k.
Proof.
  induction 1 as [x y Hx Hy|x y n Hx _ (k & Hk & Hw)]; [exists 1; split; [done|by econstructor]|].
  destruct (eq_ignore_ascii_case y our_id) eqn:E; [exists 1; split; [lia|by eapply walks_here]|].
  exists (S k). split; [lia|by eapply walks_next].
Qed.

Lemma walks_built_on m our_id x n : walks_to m our_id x n → built_on m our_id x n.
Proof. induction 1; [by econstructor|by eapply built_on_next]. Qed.

Lemma walks_unique m our_id x n k : walks_to m our_id x n → walks_to m our_id x k → n = k.
Proof. intros H. revert k. induction H; intros k Hk; inversion Hk; simplify_eq; [done|congruence|congruence|f_equal; auto]. Qed.

Lemma ancestry_walk_iff m our_id fuel seen x :
  (∀ y n k, y ∈ seen → walks_to m our_id x n → walks_to m our_id y k → n < k) →
  ancestry_walk fuel our_id m seen x = true ↔ ∃ n, n <= fuel ∧ walks_to m our_id x n.
Proof.
  revert seen x. induction fuel as [|fuel IH]; intros seen x Hseen; cbn [ancestry_walk].
  { split; [done|]. intros (n & Hn & Hw). inversion Hw; lia. }
  case_bool_decide as Hin.
  { split; [done|]. intros (n & _ & Hw). specialize (Hseen x n n Hin Hw Hw). lia. }
  destruct (m !! x) as [[y|]|] eqn:Ex; [|split; [done|]; intros (n & _ & Hw); inversion Hw; congruence..].
  destruct (eq_ignore_ascii_case y our_id) eqn:Ey.
  { split; [|done]. intros _. exists 1. split; [lia|by econstructor]. }
  rewrite IH.
  - split; intros (n & Hn & Hw); [exists (S n); split; [lia|by eapply walks_next]|].
    inversion Hw; simplify_eq; [congruence|]. eexists; split; [|done]. lia.
  - intros z n k [->|Hz]%elem_of_cons Hw Hk.
    + assert (k = S n) as ->; [|lia]. eapply walks_unique; [done|by eapply walks_next].
    + enough (S n < k) by lia. eapply Hseen; [done|by eapply walks_next|done].
Qed.

(** C31. A client reports a canvas write as survived exactly when the head is
the write or was built on it by a chain of at most 256 visible revisions: the
guard against cycles never stops a walk that would have found it. *)
Theorem survival_is_ancestry our_id revisions :
  canvas_write_survived our_id revisions = true
  ↔ ∃ head_id expected rest, revisions = (head_id, expected) :: rest
      ∧ (eq_ignore_ascii_case head_id our_id = true
         ∨ ∃ n, n <= CANVAS_ANCESTRY_WALK_MAX ∧ built_on (by_id revisions) our_id (to_ascii_lowercase head_id) n).
Proof.
  unfold canvas_write_survived. destruct revisions as [|[head_id expected] rest]; [split; [done|by intros (? & ? & ? & ? & _)]|].
  assert (ancestry_walk CANVAS_ANCESTRY_WALK_MAX our_id (by_id ((head_id, expected) :: rest)) [] (to_ascii_lowercase head_id) = true
    ↔ ∃ n, n <= CANVAS_ANCESTRY_WALK_MAX ∧ built_on (by_id ((head_id, expected) :: rest)) our_id (to_ascii_lowercase head_id) n) as Hiff.
  { rewrite ancestry_walk_iff by (intros y n k Hy; by apply elem_of_nil in Hy). split.
    - intros (n & Hn & Hw%walks_built_on). eauto.
    - intros (n & Hn & (k & Hk & Hw)%built_on_walks). exists k. split; [lia|done]. }
  destruct (eq_ignore_ascii_case head_id our_id) eqn:E.
  - split; [|done]. intros _. eauto 10.
  - rewrite Hiff. split; [intros H; eauto 10|]. intros (h & ex & r & [= <- <- <-] & [H|H]); [congruence|done].
Qed.

End writes.

(** ** Requests *)

#[local] Instance sdk_tags : NostrTags := nip01_tags.
#[local] Instance sdk_order : HashOrder := map_to_list_order.
#[local] Instance sdk_uuid : UuidText := { uuid_to_string := λ u, unary (N.to_nat u) }.
#[local] Instance sdk_text : TraceText := demo_text.
#[local] Instance sdk_url : UrlCrate := { url_parse := λ _, None }.
#[local] Instance sdk_relay : RelayCrates := {
  verify_id := λ _, true;
  computed_id := id;
  verify_signature := λ _ _, true;
  parse_uuid := read_unary;
  parse_i64 := λ s, Z.of_N <$> parse_uint 1000000 s;
  parse_i32 := λ s, Z.of_N <$> parse_uint 1000000 s;
  sjson_from_str := λ _, Some (λ _, None)
}.
#[local] Instance sdk_crates : SdkCrates := {
  tag_parse := Ok;
  json_object := λ _, "{}";
  uuid_parse_str := λ _, Err "not a uuid"
}.

Lemma sdk_laws : SdkLaws.
Proof.
  split; [by intros ?? [= <-]|done|done| |by eexists]. intros u. simpl. by rewrite read_unary_unary, N2Nat.id.
Qed.

Fixpoint sixty_four (n : nat) (c : ascii) : string := match n with 0 => "" | S n => String c (sixty_four n c) end.
Definition event_a : string := sixty_four 64 "a".
Definition event_b : string := sixty_four 64 "B".

(** A reply in a thread, which mentions a key twice and its own author. *)
Definition reply_builder : EventBuilder :=
  allow_self_tagging (builder 9 "hi" [["h"; "aa"]; ["e"; event_a; ""; "root"]; ["e"; event_b; ""; "reply"];
                                      ["p"; "cd"]; ["p"; "alice"]; ["broadcast"; "1"]]).
Definition reply_event : Event := mkEvent "1" "alice" 9 1000 (b_tags reply_builder) "hi".

Lemma reply_built : build_message 2 "hi" (Some (mkThreadRef event_a event_b)) ["CD"; "cd"; "alice"] true [] [] = Ok reply_builder.
Proof. by vm_compute. Qed.
Lemma reply_signed : signed_from reply_builder reply_event.
Proof. by split. Qed.

Lemma built_events_are_well_formed_witness : built (Some 2%N) reply_builder ∧ well_formed reply_event (Some 2%N).
Proof.
  assert (built (Some 2%N) reply_builder) as H by (eapply built_message, reply_built).
  split; [exact H|]. exact (built_events_are_well_formed sdk_laws _ _ _ H reply_signed).
Defined.

Lemma threads_read_back_witness : resolve (parse_thread_markers (tags reply_event)) = Some (event_a, event_b).
Proof.
  refine (proj1 (threads_read_back sdk_laws _ _ _ _ _ _ _ _ _ reply_built reply_signed _ _)).
  - constructor.
  - intros t [= <-]. by vm_compute.
Defined.

(** A canvas write whose client is half a minute behind the head. *)
Definition canvas_builder : EventBuilder :=
  custom_created_at 1031 (builder 40100 "text" [["h"; "aa"]; ["expected-revision"; event_a]]).
Definition canvas_event : Event := mkEvent "2" "alice" 40100 1031 (b_tags canvas_builder) "text".

Lemma canvas_writes_supersede_witness : (1030 < created_at canvas_event)%N
  ∧ validate_canvas_future_timestamp (as_i64 (created_at canvas_event)) 900 = Ok tt.
Proof.
  assert (signed_from canvas_builder canvas_event) as Hs by by split.
  assert (build_set_canvas_after_head 1000 2 "text" event_a 1030 = Ok canvas_builder) as Hb by by vm_compute.
  destruct (canvas_writes_supersede sdk_laws 1000 2 "text" event_a 1030 canvas_builder canvas_event 900
              ltac:(lia) ltac:(lia) ltac:(by vm_compute) Hb Hs) as (_ & H1 & _ & H2 & _).
  split; [exact H1|exact H2].
Defined.
